(* ===== verification/_CoqProject ===== *)
-Q . S2P
Prelude.v
BitUtils.v
Bitmapset.v
BitmapsetSpec.v
BitmapsetIter.v
BitmapsetProps.v
Float64.v
EquivClass.v
EquivClassProps.v
EquivClassThms.v
PathKeys.v
PathKeysProps.v
PathKeysMerge.v
PathNode.v
PathNodeProps.v
PathListProps.v
PathThms.v
PathPrecheck.v
PathSelect.v
PathDemo.v
JoinOrder.v
JoinOrderProps.v
JoinRoot.v
JoinRels.v
JoinLinks.v
JoinSearch.v
JoinLegal.v
RelSets.v
ImpliedEq.v
ImpliedEqProps.v
ImpliedScan.v
ImpliedJoin.v
ImpliedThms.v
ImpliedSearch.v
Quals.v
OuterJoin.v
SpecialJoins.v
JoinTree.v
QueryClauses.v
QueryQuals.v
QueryTree.v
QueryThms.v
OuterQuals.v
OuterTree.v
PostponedQuals.v
OuterQuery.v
WrittenOrder.v
Lero.v
SortTemplate.v
Prng.v
FloatRange.v
Geqo.v
GeqoErx.v
GeqoTour.v
GeqoTree.v
GeqoPool.v
GeqoMain.v
GeqoSearch.v
JoinDriver.v
QuerySearch.v
Base64.v
BinaryHeap.v
BinaryHeapProps.v
