(* ===== verification/Prelude.v ===== *)
(** * A verification development of Athena_PG

    Athena_PG is PostgreSQL 16.1 with two additions to the planner: it can write the join orders of
    its candidate plans to a file ([jop_extension.c]), and it can replace its join size estimates in a
    second planning run ([lero_extension.c]).  This library models the planner's join search with the
    data structures below it, both additions, and some self-contained routines of the backend.  Paths
    are those of the repository below [src/].

    ** The program and its model

    The planner takes the join tree of a query apart and distributes its quals ([optimizer/plan/initsplan.c]).  Equalities
    and sort expressions are grouped into equivalence classes ([path/equivclass.c]), from which clauses for the scans and
    joins are derived ([initsplan.c], [relnode.c]).  Sort orders are lists of canonical pathkeys over these classes
    ([pathkeys.c]).  Every relation has lists of candidate paths, pruned by cost, order, parameters and
    parallel safety ([util/pathnode.c]).  The join search combines relations, by dynamic programming
    ([allpaths.c], [joinrels.c], [relnode.c]) or by a genetic algorithm ([optimizer/geqo]), and each legal
    pair of relations adds paths to its join relation ([joinpath.c]).  All of this rests on bitmap sets of
    relation numbers ([nodes/bitmapset.c]), which rest on bit scans ([port/pg_bitutils.c]).

    - [Prelude] (this file): outcomes of C code ([result] with its monad), checked array access, 64-bit
      words, lemmas on lists and sorting, the hint database [pg].
    - [BitUtils]: [pg_bitutils.c], [pg_bitutils.h].  [Bitmapset] has one definition per routine of
      [bitmapset.c]; [BitmapsetSpec], [BitmapsetIter] and [BitmapsetProps] relate them to sets of integers, read
      off one unbounded bit string, [bms_val].
    - [Float64], [FloatRange]: binary64 arithmetic as costs and random numbers use it.
    - [EquivClass]: the heap of classes with the [ec_merged] links, [process_equivalence],
      [get_eclass_for_sort_expr].  [EquivClassProps] and [EquivClassThms] show that it is a union-find
      structure for the closure of the equalities seen.  Expressions and catalog lookups are the interface
      [ExprOps].
    - [PathKeys], [PathKeysProps], [PathKeysMerge]: canonical pathkeys, their comparison, the choice of
      keys for merge joins ([sort_inner_and_outer]), truncation.
    - [PathNode]: cost comparison, [add_path], [add_partial_path], the prechecks, [set_cheapest], the
      searches for cheapest paths.  [PathNodeProps] to [PathSelect] prove their contracts, [PathDemo] has a worked
      relation.
    - [JoinOrder], [JoinOrderProps]: the string builder and join order printer of [jop_extension.c], and a
      reader that recovers the join trees.
    - [JoinRoot]: the candidate paths of the topmost join ([add_paths_to_joinrel]) and the flag that switches
      pruning off, over the searches that a joinlist leads to.
    - [JoinRels]: [standard_join_search], [join_search_one_level], [join_is_legal], [make_join_rel],
      [build_join_rel], [find_join_rel], [have_relevant_joinclause] and the tests on equivalence classes.
      [JoinLinks] and [JoinSearch] show that the search finds what it should, [JoinLegal] what
      [join_is_legal] decides; [RelSets] reads sets of relations as integers.  [populate_joinrel_with_paths] is modelled up to its calls of [add_paths_to_joinrel] and the like: making the
      paths of one pair is the interface [JoinPaths], whose laws for inner joins are [JoinPathsOk].
    - [ImpliedEq]: the clauses that the classes imply, [generate_base_implied_equalities] for scans and
      [generate_join_implied_equalities] for joins, [distribute_restrictinfo_to_rels], the restriction lists of joins
      ([build_joinrel_restrictlist]).  Operator families are the interface [OpFamilies].  [ImpliedEqProps] and [ImpliedScan] prove the
      invariant of the planner state for scans, [ImpliedJoin] and [ImpliedThms] that plans enforce the classes and the distributed
      clauses, [ImpliedSearch] that the base relations are what the join search relies on.
    - [Quals]: the join tree and its items, [make_restrictinfo], [check_mergejoinable], [initialize_mergeclause_eclasses] and
      [distribute_qual_to_rels].  What they ask of catalogs and expressions is the interface [QualOps], whose laws are [QualLaws].
      [OuterJoin]: special joins ([make_outerjoininfo], [compute_semijoin_info]) and the variants of postponed left-join quals
      ([deconstruct_distribute_oj_quals]), over the interface [OuterOps].
      [JoinTree]: both scans of [deconstruct_jointree] ([deconstruct_recurse], [deconstruct_distribute]).  [QueryClauses] follows the
      sources of the classes through [process_equivalence], [QueryQuals] one qual through [distribute_qual_to_rels], [QueryTree] the first
      scan; [QueryThms] puts them together with the implied clauses.
      For queries with outer joins, [SpecialJoins] follows [make_outerjoininfo], [OuterQuals] the distribution of quals, [OuterTree] the second scan and
      [PostponedQuals] the postponed quals, over the laws [OuterLaws]; [OuterQuery] puts the scans together, and [WrittenOrder] shows that the special joins admit the
      order in which the query is written.
    - [Lero]: recording and replaying join size estimates.
    - [SortTemplate]: [sort_template.h] as [pg_qsort]; it implements the interface [QSort].
    - [Prng]: [pg_prng.c] and [geqo_random.c]; it implements the interface [RandomSource].
    - [Geqo] with [GeqoErx], [GeqoTour], [GeqoTree], [GeqoPool], [GeqoMain]: the genetic search, over the
      interfaces [RandomSource], [QSort] and [JoinPlanner], the routines on the planner's state that it calls, whose laws are [JoinPlannerOk].  [GeqoSearch]: the
      routines of [JoinRels] implement that interface; a memory context that [geqo_eval] deletes takes back paths by the interface [PathCosts].
    - [JoinDriver]: [make_rel_from_joinlist] and the end of [make_one_rel], with the standard and the genetic search.  [QuerySearch]: from the query to the
      topmost join relation, with a worked query.
    - [Base64]: [common/base64.c].  [BinaryHeap], [BinaryHeapProps]: [lib/binaryheap.c], over the interface
      [Comparator].

    ** Conventions

    A routine that can fail returns a [result]: [Error] stands for [elog(ERROR)], for a violated assertion
    and for an access outside an array, so a theorem that says [Ok] excludes all three.  State is passed
    explicitly; a pointer whose identity matters is an index into a heap or an address field.  Machine
    words are integers with their wrap-around written out, doubles are [SpecFloat] numbers.

    ** What the theorems show

    - Bit scans and bitmap sets: every routine computes what it is named after over the whole
      range; sets built by clients keep the representation invariant; iteration visits the members in order, for sets without a member at the largest [int], where
      the [int] of the loop would overflow.
    - Equivalence classes: over any sequence of calls the classes partition the expressions by
      the closure of the equalities; what [process_equivalence] does to the classes in each of its cases, and what [get_eclass_for_sort_expr] finds or makes.
    - Pathkeys: canonical keys can be compared by address; the keys chosen for a merge join use every
      clause, without reaching an error, and each variant is an order of the same keys with another one in front; truncation keeps exactly the longest useful prefix.
    - Paths: over any sequence of additions the lists stay sorted, no path is freed twice or while
      listed, and every path offered is listed or dominated; the prechecks lose nothing; selections are minima.
    - Join search: [join_is_legal] decides a declarative notion of legality and ignores the order of
      its inputs; for inner joins the search succeeds and considers every bushy tree without
      cross products; list and hash lookup agree.
    - Outer joins: for queries with inner, left, full, semi- and antijoins and without LATERAL [deconstruct_jointree] succeeds, no assertion on special joins fails, and the special joins
      that it makes never stand in the way of the join order as it is written, in which [make_join_rel] fails only for a FULL JOIN without any path.
    - From the query to the plan, for queries of inner joins only: a row passes the clauses of a plan exactly if it satisfies the WHERE,
      JOIN and security quals of the query, whatever joins were tried and whatever operators are missing; all
      routines succeed, and their results are what the join search relies on, so [make_one_rel] comes to the relation of all tables, for any nesting of
      joinlists and with either search, if there is no lateral reference and no plugin for the search.  One kind of security qual is an exception, on which planning fails.
    - This fork: printed join orders can be read back; the complete paths of every pair that makes the root join are kept; the
      second planning run sees the recorded estimates, scaled where they should be.
    - Genetic search: offspring are tours, trees join every relation once, evaluating a tour leaves the list and the hash table of join relations as they were and the planner fit for the
      next evaluation, the pool stays sorted, the result is the tree of the cheapest tour tried.
    - Random numbers stay in range and are uniform by counting; quicksort ends and sorts; heaps are
      priority queues; Base64 decoding undoes encoding, and its result for any text is that of a reference decoder.

    ** Fuel

    Loops whose bound is visible are run with that bound, and the theorems show that it is never
    used up: loops over the members of a set (one step per bit), buffer growth (64 doublings exceed the allocation
    limit), [chase_merged] (the number of classes), [postpone_lateral] (the number of join tree items), [rhs_closure] (one pass per special join and a last one),
    [bushy_joins] (the level), quicksort (the length of the array), the sifting loops of heaps and the binary
    search of the pool (their sizes).  Only the loops that repeat a random draw until it is acceptable have no
    bound; there [NoFuel] remains a possible outcome of [geqo], and [prng_range_correct] shows
    that the loop ends at the first acceptable draw and that more than half of the words are acceptable.

    ** What is not modelled

    Cost formulas, path construction and plan creation; target lists and size estimates of join
    relations; the meaning of outer joins and of the clones of their quals, clauses implied
    across outer joins, child members and partitions; memory contexts other
    than the size limit of [palloc], the freeing of paths and of what [geqo_eval] allocates; file output; the parser, the executor,
    storage, and the rest of the server.  Where the modelled code calls them they are arguments or
    interfaces. *)
From Stdlib Require Export ZArith Lia.
From stdpp Require Export strings sorting base numbers option tactics list_numbers list.

Declare Scope pg_scope.
Delimit Scope pg_scope with pg.
#[local] Open Scope Z_scope.

(** ** Outcomes of C code

    A routine that may call [elog(ERROR, ...)] yields [Error msg]; a loop that the C
    standard does not bound (rejection sampling) is run with fuel and yields [NoFuel] when
    the fuel is used up. *)
Inductive result (A : Type) : Type :=
  | Ok (a : A)
  | Error (msg : string)
  | NoFuel.
Arguments Ok {A} a.
Arguments Error {A} msg.
Arguments NoFuel {A}.

#[global] Instance result_ret : MRet result := @Ok.
#[global] Instance result_bind : MBind result := fun A B f m =>
  match m with
  | Ok a => f a
  | Error msg => Error msg
  | NoFuel => NoFuel
  end.
#[global] Instance result_fmap : FMap result := fun A B f m =>
  match m with
  | Ok a => Ok (f a)
  | Error msg => Error msg
  | NoFuel => NoFuel
  end.

Definition is_Ok {A} (m : result A) : Prop := exists a, m = Ok a.

Lemma result_bind_Ok {A B} (f : A -> result B) (m : result A) b :
  m ≫= f = Ok b <-> exists a, m = Ok a /\ f a = Ok b.
Proof. destruct m; simpl; split; try (intros [? [? ?]]); naive_solver. Qed.

Lemma result_bind_assoc {A B C} (m : result A) (f : A -> result B) (g : B -> result C) :
  (m ≫= f) ≫= g = m ≫= (fun a => f a ≫= g).
Proof. by destruct m. Qed.

(** Inverts every successful [bind] in the context. *)
Ltac inv_ok :=
  repeat match goal with
  | H : _ ≫= _ = Ok _ |- _ =>
      apply result_bind_Ok in H; let a := fresh "v" in let E := fresh "E" in
      destruct H as (a & E & H)
  | H : Ok _ = Ok _ |- _ => injection H as H
  | H : Error _ = Ok _ |- _ => discriminate H
  | H : NoFuel = Ok _ |- _ => discriminate H
  end.

(** A specification of an outcome: the value satisfies [P], there is no error, and [stall] holds
    if a loop did not end. *)
Definition holds {A} (stall : Prop) (P : A -> Prop) (m : result A) : Prop :=
  match m with Ok a => P a | Error _ => False | NoFuel => stall end.

Lemma holds_bind {A B} stall (P : A -> Prop) (Q : B -> Prop) m f :
  holds stall P m -> (forall a, P a -> holds stall Q (f a)) -> holds stall Q (m ≫= f).
Proof. destruct m; cbn; auto; contradiction. Qed.
Lemma holds_impl {A} stall (P Q : A -> Prop) m :
  holds stall P m -> (forall a, P a -> Q a) -> holds stall Q m.
Proof. destruct m; cbn; auto. Qed.

(** ** C arrays: [a[i]] and [a[i] = x] within the allocated length *)
Definition bounds_msg : string := "out of bounds".
Definition assert_msg : string := "assertion failure".
(** The limit of [palloc] *)
Definition MaxAllocSize : Z := 1073741823.
Definition alloc_msg : string := "invalid memory alloc request size".
Definition array_set {A} (a : list A) (i : Z) (x : A) : result (list A) :=
  if (0 <=? i) && (i <? Z.of_nat (length a)) then Ok (<[Z.to_nat i := x]> a) else Error bounds_msg.
Definition array_get {A} (a : list A) (i : Z) : result A :=
  match (if 0 <=? i then a !! Z.to_nat i else None) with Some x => Ok x | None => Error bounds_msg end.

Lemma array_set_ok {A} (a : list A) (i : nat) x : (i < length a)%nat ->
  array_set a (Z.of_nat i) x = Ok (<[i := x]> a).
Proof.
  intros Hi. unfold array_set. rewrite (proj2 (Z.leb_le _ _)), (proj2 (Z.ltb_lt _ _)) by lia.
  by rewrite Nat2Z.id.
Qed.
Lemma array_get_ok {A} (a : list A) (i : nat) x : a !! i = Some x -> array_get a (Z.of_nat i) = Ok x.
Proof. intros E. unfold array_get. by rewrite (proj2 (Z.leb_le _ _)), Nat2Z.id, E by lia. Qed.
Lemma array_set_Z {A} (a : list A) i x : 0 <= i < Z.of_nat (length a) ->
  array_set a i x = Ok (<[Z.to_nat i := x]> a).
Proof. intros Hi. rewrite <- (Z2Nat.id i) at 1 by lia. apply array_set_ok. lia. Qed.
Lemma array_get_Z {A} (a : list A) i x : 0 <= i -> a !! Z.to_nat i = Some x -> array_get a i = Ok x.
Proof. intros Hi E. rewrite <- (Z2Nat.id i) by done. by apply array_get_ok. Qed.

(** ** Machine words *)
Definition u64 (w : Z) : Prop := 0 <= w < 2 ^ 64.
Definition wrap64 (z : Z) : Z := z mod 2 ^ 64.
Definition wrap32 (z : Z) : Z := z mod 2 ^ 32.
(** [~w] on an unsigned 64-bit word. *)
Definition not64 (w : Z) : Z := Z.lxor w (Z.ones 64).
(** [w << n] on an unsigned 64-bit word. *)
Definition shl64 (w n : Z) : Z := wrap64 (Z.shiftl w n).
(** Conversion of a 32-bit pattern to [int] (two's complement). *)
Definition to_int32 (z : Z) : Z :=
  let r := wrap32 z in if r <? 2 ^ 31 then r else r - 2 ^ 32.
Definition INT_MAX : Z := 2 ^ 31 - 1.
Lemma to_int32_id z : 0 <= z < 2 ^ 31 -> to_int32 z = z.
Proof.
  intros Hz. unfold to_int32, wrap32. rewrite Z.mod_small by lia.
  by destruct (Z.ltb_spec z (2 ^ 31)); [|lia].
Qed.

Create HintDb pg discriminated.
Create HintDb bits discriminated.

Lemma testbit_high (n w i : Z) : 0 <= w < 2 ^ n -> n <= i -> 0 <= n -> Z.testbit w i = false.
Proof.
  intros Hw Hi Hn. rewrite <- (Z.mod_small w (2 ^ n)) by lia.
  now apply Z.mod_pow2_bits_high.
Qed.

Lemma bits_range (n w : Z) : 0 <= n -> 0 <= w ->
  (forall i, n <= i -> Z.testbit w i = false) -> w < 2 ^ n.
Proof.
  intros Hn Hw H. destruct (Z_lt_ge_dec w (2 ^ n)) as [|Hge]; [done|].
  assert (0 < w) as Hpos by (pose proof (Z.pow_pos_nonneg 2 n); lia).
  assert (n <= Z.log2 w) as Hl by (apply Z.log2_le_pow2; lia).
  specialize (H _ Hl). rewrite Z.bit_log2 in H by lia. done.
Qed.

Lemma u64_bits w : 0 <= w -> (forall i, 64 <= i -> Z.testbit w i = false) -> u64 w.
Proof. intros H0 H. split; [done|]. apply bits_range; auto; lia. Qed.

Lemma u64_testbit_high w i : u64 w -> 64 <= i -> Z.testbit w i = false.
Proof. intros H Hi. apply (testbit_high 64); [apply H|lia..]. Qed.

Lemma not64_testbit w i : 0 <= i ->
  Z.testbit (not64 w) i = xorb (Z.testbit w i) (i <? 64).
Proof.
  intros Hi. unfold not64. rewrite Z.lxor_spec. f_equal.
  destruct (Z.ltb_spec i 64).
  - apply Z.ones_spec_low; lia.
  - apply Z.ones_spec_high; lia.
Qed.

Lemma shl64_testbit w n i : 0 <= n -> 0 <= i ->
  Z.testbit (shl64 w n) i = (i <? 64) && (n <=? i) && Z.testbit w (i - n).
Proof.
  intros Hn Hi. unfold shl64, wrap64. destruct (Z.ltb_spec i 64); simpl.
  - rewrite Z.mod_pow2_bits_low, Z.shiftl_spec by lia.
    destruct (Z.leb_spec n i); simpl; [done|]. apply Z.testbit_neg_r; lia.
  - apply Z.mod_pow2_bits_high; lia.
Qed.

Lemma u64_shl64 w n : u64 (shl64 w n).
Proof. unfold u64, shl64, wrap64. apply Z.mod_pos_bound. lia. Qed.
Lemma u64_land a b : u64 a -> u64 b -> u64 (Z.land a b).
Proof.
  intros Ha Hb. apply u64_bits; [apply Z.land_nonneg; left; apply Ha|].
  intros i Hi. by rewrite Z.land_spec, u64_testbit_high.
Qed.
Lemma u64_lor a b : u64 a -> u64 b -> u64 (Z.lor a b).
Proof.
  intros Ha Hb. apply u64_bits; [apply Z.lor_nonneg; split; [apply Ha|apply Hb]|].
  intros i Hi. by rewrite Z.lor_spec, !u64_testbit_high.
Qed.
Lemma u64_lxor a b : u64 a -> u64 b -> u64 (Z.lxor a b).
Proof.
  intros Ha Hb. apply u64_bits.
  { apply Z.lxor_nonneg; split; intros; [apply Hb|apply Ha]. }
  intros i Hi. by rewrite Z.lxor_spec, !u64_testbit_high.
Qed.
Lemma u64_not64 a : u64 a -> u64 (not64 a).
Proof. intros Ha. apply u64_lxor; [done|]. unfold u64. change (Z.ones 64) with (2 ^ 64 - 1). lia. Qed.
Lemma u64_wrap64 a : u64 (wrap64 a).
Proof. apply Z.mod_pos_bound; lia. Qed.
Lemma u64_0 : u64 0.
Proof. unfold u64; lia. Qed.
#[export] Hint Resolve u64_shl64 u64_land u64_lor u64_lxor u64_not64 u64_wrap64 u64_0 : pg.

(** ** Sorted lists *)
Lemma StronglySorted_sublist {A} (R : relation A) l k :
  StronglySorted R k -> l `sublist_of` k -> StronglySorted R l.
Proof.
  intros Hk Hs. revert Hk. induction Hs as [|x l k Hs IH|x l k Hs IH]; intros Hk; [constructor| |].
  - inversion_clear Hk. constructor; [auto|]. rewrite Forall_forall in *.
    intros y Hy. apply H0. by eapply sublist_subseteq.
  - inversion_clear Hk. auto.
Qed.
Lemma StronglySorted_filter {A} (R : relation A) (P : A -> Prop) `{!forall x, Decision (P x)} l :
  StronglySorted R l -> StronglySorted R (filter P l).
Proof. intros Hl. eapply StronglySorted_sublist; [exact Hl|apply sublist_filter]. Qed.

Lemma StronglySorted_insert {A} (R : relation A) pre post x : StronglySorted R (pre ++ post) ->
  (forall p, p ∈ pre -> R p x) -> (forall p, p ∈ post -> R x p) -> StronglySorted R (pre ++ x :: post).
Proof.
  intros Hs Hpre Hpost. induction pre as [|p pre IH]; simpl in *.
  - constructor; [done|]. by apply Forall_forall.
  - inversion_clear Hs as [|? ? Hs' Hp]. constructor; [apply IH; auto; intros q Hq; apply Hpre; by right|].
    rewrite Forall_app in *. destruct Hp. split; [done|]. constructor; [apply Hpre; by left|done].
Qed.

Lemma NoDup_submseteq_mono {A} (l k : list A) : NoDup k -> l ⊆+ k -> NoDup l.
Proof.
  intros Hk Hs. induction Hs as [|x l k Hs IH|x y l|x l k Hs IH|l k m H1 IH1 H2 IH2]; auto.
  - apply NoDup_cons in Hk as [Hx Hk]. constructor; [|auto]. contradict Hx. by eapply elem_of_submseteq.
  - by rewrite Permutation_swap in Hk.
  - apply NoDup_cons in Hk as [_ Hk]. auto.
Qed.

Lemma StronglySorted_seqZ lo n : StronglySorted Z.lt (seqZ lo n).
Proof.
  revert lo. induction (Z.to_nat n) as [|k IH] eqn:Ek in n |- *; intros lo.
  - rewrite seqZ_nil by lia. constructor.
  - rewrite seqZ_cons by lia. constructor; [apply IH; lia|].
    apply Forall_forall. intros y Hy%elem_of_seqZ. lia.
Qed.

(** ** Filters *)
Lemma filter_all {A} (P : A -> Prop) `{!forall x, Decision (P x)} (l : list A) :
  (forall x, x ∈ l -> P x) -> filter P l = l.
Proof.
  induction l as [|x l IH]; intros Hall; [done|]. rewrite filter_cons_True by (apply Hall, elem_of_cons; by left).
  f_equal. apply IH. intros y Hy. apply Hall, elem_of_cons. by right.
Qed.

Lemma filter_none {A} (P : A -> Prop) `{!forall x, Decision (P x)} (l : list A) :
  (forall x, x ∈ l -> ~ P x) -> filter P l = [].
Proof.
  induction l as [|x l IH]; intros Hall; [done|]. rewrite filter_cons_False by (apply Hall, elem_of_cons; by left).
  apply IH. intros y Hy. apply Hall, elem_of_cons. by right.
Qed.
