(* ===== verification/BitUtils.v ===== *)
(** * Bit twiddling: [src/port/pg_bitutils.c] and [src/include/port/pg_bitutils.h]

    The portable branches of the bit-scan routines (the ones compiled when no compiler
    builtin is available), with their 256-entry tables, and their correctness against
    reference definitions: [Z.log2] for the leftmost one, the least set bit for the
    rightmost one, [bitcount] for the population count. *)
From S2P Require Import Prelude.
#[local] Open Scope Z_scope.

(** ** Tables *)
Definition pg_leftmost_one_pos : list Z :=
  [0; 0; 1; 1; 2; 2; 2; 2; 3; 3; 3; 3; 3; 3; 3; 3; 4; 4; 4; 4; 4; 4; 4; 4; 4; 4; 4; 4; 4; 4; 4; 4;
   5; 5; 5; 5; 5; 5; 5; 5; 5; 5; 5; 5; 5; 5; 5; 5; 5; 5; 5; 5; 5; 5; 5; 5; 5; 5; 5; 5; 5; 5; 5; 5;
   6; 6; 6; 6; 6; 6; 6; 6; 6; 6; 6; 6; 6; 6; 6; 6; 6; 6; 6; 6; 6; 6; 6; 6; 6; 6; 6; 6; 6; 6; 6; 6;
   6; 6; 6; 6; 6; 6; 6; 6; 6; 6; 6; 6; 6; 6; 6; 6; 6; 6; 6; 6; 6; 6; 6; 6; 6; 6; 6; 6; 6; 6; 6; 6;
   7; 7; 7; 7; 7; 7; 7; 7; 7; 7; 7; 7; 7; 7; 7; 7; 7; 7; 7; 7; 7; 7; 7; 7; 7; 7; 7; 7; 7; 7; 7; 7;
   7; 7; 7; 7; 7; 7; 7; 7; 7; 7; 7; 7; 7; 7; 7; 7; 7; 7; 7; 7; 7; 7; 7; 7; 7; 7; 7; 7; 7; 7; 7; 7;
   7; 7; 7; 7; 7; 7; 7; 7; 7; 7; 7; 7; 7; 7; 7; 7; 7; 7; 7; 7; 7; 7; 7; 7; 7; 7; 7; 7; 7; 7; 7; 7;
   7; 7; 7; 7; 7; 7; 7; 7; 7; 7; 7; 7; 7; 7; 7; 7; 7; 7; 7; 7; 7; 7; 7; 7; 7; 7; 7; 7; 7; 7; 7; 7].

Definition pg_rightmost_one_pos : list Z :=
  [0; 0; 1; 0; 2; 0; 1; 0; 3; 0; 1; 0; 2; 0; 1; 0; 4; 0; 1; 0; 2; 0; 1; 0; 3; 0; 1; 0; 2; 0; 1; 0;
   5; 0; 1; 0; 2; 0; 1; 0; 3; 0; 1; 0; 2; 0; 1; 0; 4; 0; 1; 0; 2; 0; 1; 0; 3; 0; 1; 0; 2; 0; 1; 0;
   6; 0; 1; 0; 2; 0; 1; 0; 3; 0; 1; 0; 2; 0; 1; 0; 4; 0; 1; 0; 2; 0; 1; 0; 3; 0; 1; 0; 2; 0; 1; 0;
   5; 0; 1; 0; 2; 0; 1; 0; 3; 0; 1; 0; 2; 0; 1; 0; 4; 0; 1; 0; 2; 0; 1; 0; 3; 0; 1; 0; 2; 0; 1; 0;
   7; 0; 1; 0; 2; 0; 1; 0; 3; 0; 1; 0; 2; 0; 1; 0; 4; 0; 1; 0; 2; 0; 1; 0; 3; 0; 1; 0; 2; 0; 1; 0;
   5; 0; 1; 0; 2; 0; 1; 0; 3; 0; 1; 0; 2; 0; 1; 0; 4; 0; 1; 0; 2; 0; 1; 0; 3; 0; 1; 0; 2; 0; 1; 0;
   6; 0; 1; 0; 2; 0; 1; 0; 3; 0; 1; 0; 2; 0; 1; 0; 4; 0; 1; 0; 2; 0; 1; 0; 3; 0; 1; 0; 2; 0; 1; 0;
   5; 0; 1; 0; 2; 0; 1; 0; 3; 0; 1; 0; 2; 0; 1; 0; 4; 0; 1; 0; 2; 0; 1; 0; 3; 0; 1; 0; 2; 0; 1; 0].

Definition pg_number_of_ones : list Z :=
  [0; 1; 1; 2; 1; 2; 2; 3; 1; 2; 2; 3; 2; 3; 3; 4; 1; 2; 2; 3; 2; 3; 3; 4; 2; 3; 3; 4; 3; 4; 4; 5;
   1; 2; 2; 3; 2; 3; 3; 4; 2; 3; 3; 4; 3; 4; 4; 5; 2; 3; 3; 4; 3; 4; 4; 5; 3; 4; 4; 5; 4; 5; 5; 6;
   1; 2; 2; 3; 2; 3; 3; 4; 2; 3; 3; 4; 3; 4; 4; 5; 2; 3; 3; 4; 3; 4; 4; 5; 3; 4; 4; 5; 4; 5; 5; 6;
   2; 3; 3; 4; 3; 4; 4; 5; 3; 4; 4; 5; 4; 5; 5; 6; 3; 4; 4; 5; 4; 5; 5; 6; 4; 5; 5; 6; 5; 6; 6; 7;
   1; 2; 2; 3; 2; 3; 3; 4; 2; 3; 3; 4; 3; 4; 4; 5; 2; 3; 3; 4; 3; 4; 4; 5; 3; 4; 4; 5; 4; 5; 5; 6;
   2; 3; 3; 4; 3; 4; 4; 5; 3; 4; 4; 5; 4; 5; 5; 6; 3; 4; 4; 5; 4; 5; 5; 6; 4; 5; 5; 6; 5; 6; 6; 7;
   2; 3; 3; 4; 3; 4; 4; 5; 3; 4; 4; 5; 4; 5; 5; 6; 3; 4; 4; 5; 4; 5; 5; 6; 4; 5; 5; 6; 5; 6; 6; 7;
   3; 4; 4; 5; 4; 5; 5; 6; 4; 5; 5; 6; 5; 6; 6; 7; 4; 5; 5; 6; 5; 6; 6; 7; 5; 6; 6; 7; 6; 7; 7; 8].

(** [table[i]] for an index known to be in range. *)
Definition tbl (t : list Z) (i : Z) : Z := nth (Z.to_nat i) t 0.

(** ** Routines *)

(** [while ((word >> shift) == 0) shift -= 8;] *)
Fixpoint leftmost_shift (fuel : nat) (word shift : Z) : Z :=
  match fuel with
  | O => shift
  | S f => if Z.shiftr word shift =? 0 then leftmost_shift f word (shift - 8) else shift
  end.

Definition pg_leftmost_one_pos32 (word : Z) : Z :=
  let shift := leftmost_shift 4 word (32 - 8) in
  shift + tbl pg_leftmost_one_pos (Z.land (Z.shiftr word shift) 255).

Definition pg_leftmost_one_pos64 (word : Z) : Z :=
  let shift := leftmost_shift 8 word (64 - 8) in
  shift + tbl pg_leftmost_one_pos (Z.land (Z.shiftr word shift) 255).

(** [while ((word & 255) == 0) { word >>= 8; result += 8; }], then the table lookup. *)
Fixpoint rightmost_loop (fuel : nat) (word result : Z) : Z :=
  match fuel with
  | O => result
  | S f =>
      if Z.land word 255 =? 0 then rightmost_loop f (Z.shiftr word 8) (result + 8)
      else result + tbl pg_rightmost_one_pos (Z.land word 255)
  end.

Definition pg_rightmost_one_pos32 (word : Z) : Z := rightmost_loop 4 word 0.
Definition pg_rightmost_one_pos64 (word : Z) : Z := rightmost_loop 8 word 0.

Definition pg_nextpower2_32 (num : Z) : Z :=
  if Z.land num (num - 1) =? 0 then num
  else wrap32 (Z.shiftl 1 (pg_leftmost_one_pos32 num + 1)).

Definition pg_nextpower2_64 (num : Z) : Z :=
  if Z.land num (num - 1) =? 0 then num
  else wrap64 (Z.shiftl 1 (pg_leftmost_one_pos64 num + 1)).

Definition pg_prevpower2_32 (num : Z) : Z :=
  wrap32 (Z.shiftl 1 (pg_leftmost_one_pos32 num)).
Definition pg_prevpower2_64 (num : Z) : Z :=
  wrap64 (Z.shiftl 1 (pg_leftmost_one_pos64 num)).

Definition pg_ceil_log2_32 (num : Z) : Z :=
  if num <? 2 then 0 else pg_leftmost_one_pos32 (num - 1) + 1.
Definition pg_ceil_log2_64 (num : Z) : Z :=
  if num <? 2 then 0 else pg_leftmost_one_pos64 (num - 1) + 1.

(** [while (word != 0) { result += pg_number_of_ones[word & 255]; word >>= 8; }] *)
Fixpoint popcount_loop (fuel : nat) (word result : Z) : Z :=
  match fuel with
  | O => result
  | S f =>
      if word =? 0 then result
      else popcount_loop f (Z.shiftr word 8) (result + tbl pg_number_of_ones (Z.land word 255))
  end.

Definition pg_popcount32_slow (word : Z) : Z := popcount_loop 4 word 0.
Definition pg_popcount64_slow (word : Z) : Z := popcount_loop 8 word 0.
Definition pg_popcount32 (word : Z) : Z := pg_popcount32_slow word.
Definition pg_popcount64 (word : Z) : Z := pg_popcount64_slow word.

(** ** Reference definition: number of set bits among the low [n] bits *)
Fixpoint bitcount (n : nat) (z : Z) : Z :=
  match n with
  | O => 0
  | S n' => Z.b2z (Z.testbit z 0) + bitcount n' (Z.shiftr z 1)
  end.

Lemma bitcount_0 n : bitcount n 0 = 0.
Proof. induction n; cbn [bitcount]; [done|]. by rewrite Z.shiftr_0_l, IHn. Qed.

Lemma bitcount_nonneg n z : 0 <= bitcount n z <= Z.of_nat n.
Proof.
  revert z; induction n; intros z; cbn [bitcount]; [lia|].
  specialize (IHn (Z.shiftr z 1)). destruct (Z.testbit z 0); cbn [Z.b2z]; lia.
Qed.

Lemma bitcount_app m n z :
  bitcount (m + n) z = bitcount m z + bitcount n (Z.shiftr z (Z.of_nat m)).
Proof.
  revert z; induction m; intros z; cbn [bitcount Nat.add].
  - by rewrite Z.shiftr_0_r.
  - rewrite IHm, Z.shiftr_shiftr by lia.
    replace (1 + Z.of_nat m) with (Z.of_nat (S m)) by lia. lia.
Qed.

(** [bitcount n] only looks at the low [n] bits. *)
Lemma bitcount_ext n z z' :
  (forall i, 0 <= i < Z.of_nat n -> Z.testbit z i = Z.testbit z' i) -> bitcount n z = bitcount n z'.
Proof.
  revert z z'; induction n; intros z z' H; cbn [bitcount]; [done|].
  rewrite (H 0) by lia. f_equal. apply IHn. intros i Hi.
  rewrite !Z.shiftr_spec by lia. apply H. lia.
Qed.

Lemma land_255 z : Z.land z 255 = z mod 2 ^ 8.
Proof. change 255 with (Z.ones 8). apply Z.land_ones. lia. Qed.

Lemma byte_range z : 0 <= Z.land z 255 < 256.
Proof. rewrite land_255. apply Z.mod_pos_bound. lia. Qed.

(** A decidable fact about bytes is checked by running over the 256 values. *)
Lemma byte_check (p : Z -> bool) :
  forallb p (seqZ 0 256) = true -> forall b, 0 <= b < 256 -> p b = true.
Proof.
  intros H b Hb. eapply forallb_forall in H; [done|]. apply list_elem_of_In, elem_of_seqZ. lia.
Qed.

Lemma number_of_ones_spec b : 0 <= b < 256 -> tbl pg_number_of_ones b = bitcount 8 b.
Proof.
  intros Hb. apply Z.eqb_eq.
  revert b Hb. apply (byte_check (fun b => tbl pg_number_of_ones b =? bitcount 8 b)).
  vm_compute. done.
Qed.

Lemma leftmost_one_pos_spec b : 1 <= b < 256 -> tbl pg_leftmost_one_pos b = Z.log2 b.
Proof.
  intros Hb. assert (H : (b <? 1) || (tbl pg_leftmost_one_pos b =? Z.log2 b) = true).
  { apply (byte_check (fun b => (b <? 1) || (tbl pg_leftmost_one_pos b =? Z.log2 b)));
      [vm_compute; done|lia]. }
  destruct (Z.ltb_spec b 1); [lia|]. by apply Z.eqb_eq.
Qed.

(** Position of the least significant set bit. *)
Definition lowest_bit (w r : Z) : Prop :=
  0 <= r /\ Z.testbit w r = true /\ forall i, 0 <= i < r -> Z.testbit w i = false.

Lemma lowest_bit_unique w r r' : lowest_bit w r -> lowest_bit w r' -> r = r'.
Proof.
  intros (H0 & H1 & H2) (H0' & H1' & H2'). destruct (Z.lt_trichotomy r r') as [Hlt|[|Hlt]]; [|done|].
  - rewrite H2' in H1 by lia. done.
  - rewrite H2 in H1' by lia. done.
Qed.

Definition lowest_bitb (w r : Z) : bool :=
  (0 <=? r) && Z.testbit w r && forallb (fun i => negb (Z.testbit w i)) (seqZ 0 r).

Lemma lowest_bitb_true w r : lowest_bitb w r = true -> lowest_bit w r.
Proof.
  unfold lowest_bitb. rewrite !andb_true_iff, forallb_forall. intros [[H0 H1] H2].
  split; [by apply Z.leb_le|]. split; [done|]. intros i Hi.
  apply negb_true_iff, H2, list_elem_of_In, elem_of_seqZ. lia.
Qed.

Lemma rightmost_one_pos_spec b : 1 <= b < 256 -> lowest_bit b (tbl pg_rightmost_one_pos b).
Proof.
  intros Hb. apply lowest_bitb_true.
  assert (H : (b <? 1) || lowest_bitb b (tbl pg_rightmost_one_pos b) = true).
  { apply (byte_check (fun b => (b <? 1) || lowest_bitb b (tbl pg_rightmost_one_pos b)));
      [vm_compute; done|lia]. }
  destruct (Z.ltb_spec b 1); [lia|]. done.
Qed.

(** *** Population count *)
Lemma popcount_loop_spec fuel w r :
  0 <= w < 2 ^ (8 * Z.of_nat fuel) -> popcount_loop fuel w r = r + bitcount (8 * fuel) w.
Proof.
  revert w r; induction fuel as [|f IH]; intros w r Hw; cbn [popcount_loop].
  { replace (8 * 0)%nat with 0%nat by lia. cbn [bitcount]. lia. }
  destruct (Z.eqb_spec w 0) as [->|Hne]; [rewrite bitcount_0; lia|].
  replace (8 * S f)%nat with (8 + 8 * f)%nat by lia. rewrite bitcount_app.
  rewrite IH.
  - rewrite number_of_ones_spec by apply byte_range.
    rewrite (bitcount_ext 8 (Z.land w 255) w); [change (Z.of_nat 8) with 8; lia|].
    intros i Hi. rewrite land_255, Z.mod_pow2_bits_low; [done|lia].
  - rewrite Z.shiftr_div_pow2 by lia. split; [apply Z.div_pos; lia|].
    apply Z.div_lt_upper_bound; [lia|]. rewrite <- Z.pow_add_r by lia.
    replace (8 + 8 * Z.of_nat f) with (8 * Z.of_nat (S f)) by lia. lia.
Qed.

Lemma pg_popcount64_bitcount w : u64 w -> pg_popcount64 w = bitcount 64 w.
Proof.
  intros Hw. unfold pg_popcount64, pg_popcount64_slow.
  rewrite popcount_loop_spec by apply Hw. apply Z.add_0_l.
Qed.

Lemma pg_popcount32_bitcount w : 0 <= w < 2 ^ 32 -> pg_popcount32 w = bitcount 32 w.
Proof.
  intros Hw. unfold pg_popcount32, pg_popcount32_slow.
  rewrite popcount_loop_spec by apply Hw. apply Z.add_0_l.
Qed.

(** *** Leftmost one *)
Lemma shiftr_0_iff w s : 0 <= w -> 0 <= s -> Z.shiftr w s = 0 <-> w < 2 ^ s.
Proof.
  intros Hw Hs. rewrite Z.shiftr_div_pow2 by done.
  pose proof (Z.pow_pos_nonneg 2 s). rewrite Z.div_small_iff by lia. lia.
Qed.

Lemma leftmost_shift_spec fuel w :
  0 < w < 2 ^ (8 * Z.of_nat fuel) ->
  let s := leftmost_shift fuel w (8 * Z.of_nat fuel - 8) in
  0 <= s /\ 2 ^ s <= w < 2 ^ (s + 8).
Proof.
  induction fuel as [|f IH]; intros Hw; cbn [leftmost_shift]; [simpl in Hw; lia|].
  replace (8 * Z.of_nat (S f) - 8) with (8 * Z.of_nat f) in * by lia.
  destruct (Z.eqb_spec (Z.shiftr w (8 * Z.of_nat f)) 0) as [H|H].
  - apply IH. rewrite shiftr_0_iff in H by lia. lia.
  - rewrite shiftr_0_iff in H by lia.
    replace (8 * Z.of_nat f + 8) with (8 * Z.of_nat (S f)) by lia. lia.
Qed.

Lemma leftmost_one_pos_loop fuel w :
  0 < w < 2 ^ (8 * Z.of_nat fuel) ->
  let s := leftmost_shift fuel w (8 * Z.of_nat fuel - 8) in
  s + tbl pg_leftmost_one_pos (Z.land (Z.shiftr w s) 255) = Z.log2 w.
Proof.
  intros Hw s. destruct (leftmost_shift_spec fuel w Hw) as (Hs & Hlo & Hhi). fold s in Hs, Hlo, Hhi.
  assert (Hb : 1 <= Z.shiftr w s < 256).
  { rewrite Z.shiftr_div_pow2 by done. pose proof (Z.pow_pos_nonneg 2 s). split.
    - apply Z.div_le_lower_bound; lia.
    - apply Z.div_lt_upper_bound; [lia|]. change 256 with (2 ^ 8).
      rewrite <- Z.pow_add_r by lia. lia. }
  rewrite land_255, Z.mod_small, leftmost_one_pos_spec by lia.
  rewrite Z.log2_shiftr by lia.
  assert (s <= Z.log2 w) by (apply Z.log2_le_pow2; lia). lia.
Qed.

Lemma pg_leftmost_one_pos64_log2 w : 0 < w -> u64 w -> pg_leftmost_one_pos64 w = Z.log2 w.
Proof. intros H0 [_ H1]. apply (leftmost_one_pos_loop 8 w). lia. Qed.

Lemma pg_leftmost_one_pos32_log2 w : 0 < w < 2 ^ 32 -> pg_leftmost_one_pos32 w = Z.log2 w.
Proof. intros H. apply (leftmost_one_pos_loop 4 w). lia. Qed.

(** *** Rightmost one *)
Lemma rightmost_loop_spec fuel w r :
  0 < w < 2 ^ (8 * Z.of_nat fuel) ->
  exists k, rightmost_loop fuel w r = r + k /\ lowest_bit w k.
Proof.
  revert w r; induction fuel as [|f IH]; intros w r Hw; [simpl in Hw; lia|].
  cbn [rightmost_loop]. destruct (Z.eqb_spec (Z.land w 255) 0) as [H|H].
  - assert (Hlow : forall i, 0 <= i < 8 -> Z.testbit w i = false).
    { intros i Hi. rewrite land_255 in H.
      rewrite <- (Z.mod_pow2_bits_low w 8 i), H by lia. apply Z.bits_0. }
    destruct (IH (Z.shiftr w 8) (r + 8)) as (k & Hk & H0 & H1 & H2).
    { rewrite Z.shiftr_div_pow2 by lia. split.
      - rewrite land_255 in H. pose proof (Z.div_mod w (2 ^ 8)). lia.
      - apply Z.div_lt_upper_bound; [lia|]. rewrite <- Z.pow_add_r by lia.
        replace (8 + 8 * Z.of_nat f) with (8 * Z.of_nat (S f)) by lia. lia. }
    exists (8 + k). split; [lia|]. split; [lia|]. rewrite Z.shiftr_spec in H1 by lia.
    split; [by rewrite Z.add_comm|]. intros i Hi.
    destruct (Z_lt_ge_dec i 8); [by apply Hlow; lia|].
    rewrite <- (H2 (i - 8)), Z.shiftr_spec by lia. f_equal. lia.
  - pose proof (byte_range w) as Hr. destruct (rightmost_one_pos_spec (Z.land w 255)) as (H0 & H1 & H2); [lia|].
    assert (forall i, 0 <= i < 8 -> Z.testbit (Z.land w 255) i = Z.testbit w i) as Hsame.
    { intros i Hi. rewrite land_255. apply Z.mod_pow2_bits_low. lia. }
    exists (tbl pg_rightmost_one_pos (Z.land w 255)). split; [done|].
    set (k := tbl _ _) in *.
    assert (k < 8).
    { destruct (Z_lt_ge_dec k 8); [done|]. rewrite (testbit_high 8) in H1; lia || done. }
    split; [done|]. split; [by rewrite <- Hsame by lia|].
    intros i Hi. rewrite <- Hsame by lia. apply H2. lia.
Qed.

Lemma pg_rightmost_one_pos64_lowest w : 0 < w -> u64 w -> lowest_bit w (pg_rightmost_one_pos64 w).
Proof.
  intros H0 [_ H1]. destruct (rightmost_loop_spec 8 w 0) as (k & Hk & Hl); [lia|].
  unfold pg_rightmost_one_pos64. by rewrite Hk.
Qed.

Lemma pg_rightmost_one_pos32_lowest w : 0 < w < 2 ^ 32 -> lowest_bit w (pg_rightmost_one_pos32 w).
Proof.
  intros H. destruct (rightmost_loop_spec 4 w 0) as (k & Hk & Hl); [lia|].
  unfold pg_rightmost_one_pos32. by rewrite Hk.
Qed.

(** *** Powers of two *)
Lemma land_pred_zero n : 0 < n -> Z.land n (n - 1) = 0 <-> n = 2 ^ Z.log2 n.
Proof.
  intros Hn. pose proof (Z.log2_spec n Hn) as [Hlo Hhi]. pose proof (Z.log2_nonneg n) as Hk.
  split.
  - intros H0. destruct (Z.eq_dec n (2 ^ Z.log2 n)) as [|Hne]; [done|].
    assert (Z.log2 (n - 1) = Z.log2 n) as E by (apply Z.log2_unique; lia).
    assert (Z.testbit (Z.land n (n - 1)) (Z.log2 n) = true) as Hb.
    { rewrite Z.land_spec, Z.bit_log2 by lia. rewrite <- E. apply Z.bit_log2. lia. }
    by rewrite H0, Z.bits_0 in Hb.
  - intros ->. rewrite Z.sub_1_r, <- Z.ones_equiv, Z.land_ones by done.
    apply Z_mod_same_full.
Qed.

Lemma wrap64_pow2 k : 0 <= k < 64 -> wrap64 (Z.shiftl 1 k) = 2 ^ k.
Proof.
  intros Hk. rewrite Z.shiftl_1_l. apply Z.mod_small.
  split; [apply Z.pow_nonneg; lia|]. apply Z.pow_lt_mono_r; lia.
Qed.

Lemma wrap32_pow2 k : 0 <= k < 32 -> wrap32 (Z.shiftl 1 k) = 2 ^ k.
Proof.
  intros Hk. rewrite Z.shiftl_1_l. apply Z.mod_small.
  split; [apply Z.pow_nonneg; lia|]. apply Z.pow_lt_mono_r; lia.
Qed.

Lemma log2_up_cases n : 0 < n ->
  Z.log2_up n = if Z.land n (n - 1) =? 0 then Z.log2 n else Z.log2 n + 1.
Proof.
  intros Hn. pose proof (land_pred_zero n Hn) as Hp.
  destruct (Z.eqb_spec (Z.land n (n - 1)) 0) as [E|E].
  - rewrite (proj1 Hp E) at 1. apply Z.log2_up_pow2, Z.log2_nonneg.
  - pose proof (Z.log2_spec n Hn). pose proof (Z.le_log2_log2_up n).
    pose proof (Z.le_log2_up_succ_log2 n).
    enough (Z.log2_up n <> Z.log2 n) by lia. intros Eu. apply E, Hp.
    destruct (Z.eq_dec n 1) as [->|]; [done|].
    pose proof (Z.log2_up_spec n ltac:(lia)). rewrite Eu in *. lia.
Qed.

Lemma log2_bound n k : 0 < n < 2 ^ k -> 0 <= k -> 0 <= Z.log2 n < k.
Proof. intros Hn Hk. split; [apply Z.log2_nonneg|]. apply Z.log2_lt_pow2; lia. Qed.

Lemma scans_64 w :
  0 < w -> u64 w ->
  pg_leftmost_one_pos64 w = Z.log2 w /\
  lowest_bit w (pg_rightmost_one_pos64 w) /\
  pg_popcount64 w = bitcount 64 w /\
  pg_prevpower2_64 w = 2 ^ Z.log2 w /\
  pg_ceil_log2_64 w = Z.log2_up w /\
  (w <= 2 ^ 63 -> pg_nextpower2_64 w = 2 ^ Z.log2_up w).
Proof.
  intros H0 H. pose proof H as [_ H1].
  pose proof (log2_bound w 64 ltac:(lia) ltac:(lia)).
  pose proof (pg_leftmost_one_pos64_log2 w H0 H) as El.
  split; [done|]. split; [by apply pg_rightmost_one_pos64_lowest|].
  split; [by apply pg_popcount64_bitcount|]. repeat split.
  - unfold pg_prevpower2_64. rewrite El. by apply wrap64_pow2.
  - unfold pg_ceil_log2_64. destruct (Z.ltb_spec w 2).
    + by replace w with 1 by lia.
    + rewrite pg_leftmost_one_pos64_log2 by (unfold u64; lia).
      rewrite Z.log2_up_eqn by lia. rewrite <- Z.sub_1_r. lia.
  - intros Hw. unfold pg_nextpower2_64. pose proof (log2_up_cases w H0) as Eu.
    pose proof (land_pred_zero w H0) as Hp.
    destruct (Z.eqb_spec (Z.land w (w - 1)) 0) as [E|E]; rewrite Eu.
    + by apply Hp.
    + rewrite El. apply wrap64_pow2. split; [lia|].
      assert (w <> 2 ^ 63) by (intros ->; by apply E).
      pose proof (log2_bound w 63 ltac:(lia) ltac:(lia)). lia.
Qed.

Lemma scans_32 w :
  0 < w < 2 ^ 32 ->
  pg_leftmost_one_pos32 w = Z.log2 w /\
  lowest_bit w (pg_rightmost_one_pos32 w) /\
  pg_popcount32 w = bitcount 32 w /\
  pg_prevpower2_32 w = 2 ^ Z.log2 w /\
  pg_ceil_log2_32 w = Z.log2_up w /\
  (w <= 2 ^ 31 -> pg_nextpower2_32 w = 2 ^ Z.log2_up w).
Proof.
  intros H. pose proof (log2_bound w 32 ltac:(lia) ltac:(lia)).
  pose proof (pg_leftmost_one_pos32_log2 w H) as El.
  split; [done|]. split; [by apply pg_rightmost_one_pos32_lowest|].
  split; [apply pg_popcount32_bitcount; lia|]. repeat split.
  - unfold pg_prevpower2_32. rewrite El. by apply wrap32_pow2.
  - unfold pg_ceil_log2_32. destruct (Z.ltb_spec w 2).
    + by replace w with 1 by lia.
    + rewrite pg_leftmost_one_pos32_log2 by lia.
      rewrite Z.log2_up_eqn by lia. rewrite <- Z.sub_1_r. lia.
  - intros Hw. unfold pg_nextpower2_32. pose proof (log2_up_cases w ltac:(lia)) as Eu.
    pose proof (land_pred_zero w ltac:(lia)) as Hp.
    destruct (Z.eqb_spec (Z.land w (w - 1)) 0) as [E|E]; rewrite Eu.
    + by apply Hp.
    + rewrite El. apply wrap32_pow2. split; [lia|].
      assert (w <> 2 ^ 31) by (intros ->; by apply E).
      pose proof (log2_bound w 31 ltac:(lia) ltac:(lia)). lia.
Qed.

(** C40: over the whole 64-bit range and the whole 32-bit range the table-driven bit scans compute their mathematical
    values: the leftmost-one position is the integer logarithm, the rightmost-one position is
    the least set bit, the population count is the number of set bits; and on the arguments
    their contracts allow, [pg_nextpower2_64] and [pg_nextpower2_32] are the least power of two not below the
    argument, the [pg_prevpower2] variants the greatest one not above it, and the [pg_ceil_log2] variants the
    rounded-up logarithm, with no wrap-around. *)
Theorem bit_scans w :
  0 < w -> u64 w ->
  (pg_leftmost_one_pos64 w = Z.log2 w /\
   lowest_bit w (pg_rightmost_one_pos64 w) /\
   pg_popcount64 w = bitcount 64 w /\
   pg_prevpower2_64 w = 2 ^ Z.log2 w /\
   pg_ceil_log2_64 w = Z.log2_up w /\
   (w <= 2 ^ 63 -> pg_nextpower2_64 w = 2 ^ Z.log2_up w)) /\
  (w < 2 ^ 32 ->
   pg_leftmost_one_pos32 w = Z.log2 w /\
   lowest_bit w (pg_rightmost_one_pos32 w) /\
   pg_popcount32 w = bitcount 32 w /\
   pg_prevpower2_32 w = 2 ^ Z.log2 w /\
   pg_ceil_log2_32 w = Z.log2_up w /\
   (w <= 2 ^ 31 -> pg_nextpower2_32 w = 2 ^ Z.log2_up w)).
Proof. intros H0 H. split; [by apply scans_64|]. intros Hw. by apply scans_32. Qed.

Lemma bit_scans_witness :
  pg_leftmost_one_pos64 (2 ^ 40 + 6) = 40 /\ pg_nextpower2_64 (2 ^ 40 + 6) = 2 ^ 41 /\ pg_nextpower2_32 1000 = 1024.
Proof.
  destruct (bit_scans (2 ^ 40 + 6)) as [(Hl & _ & _ & _ & _ & Hn) _]; [lia|unfold u64; lia|].
  destruct (bit_scans 1000) as [_ H32]; [lia|unfold u64; lia|]. destruct H32 as (_ & _ & _ & _ & _ & Hn32); [lia|].
  split; [by rewrite Hl|]. split; [rewrite Hn by lia; reflexivity|]. rewrite Hn32 by lia. reflexivity.
Defined.
