(* ===== verification/Bitmapset.v ===== *)
(** * Bitmap sets: [src/backend/nodes/bitmapset.c]

    A [Bitmapset *] is [None] for the NULL pointer, or [Some ws] for an allocated set whose
    word array is [ws] ([nwords] is its length).  This file has the data type, one definition
    per routine, the representation invariant [bms_wf] and the denotation [bms_val] of a set
    as one unbounded bit string.  The routines that recycle an argument are modelled by the
    value they return. *)
From S2P Require Import Prelude BitUtils.
#[local] Open Scope Z_scope.

Definition BITS_PER_BITMAPWORD : Z := 64.
Definition WORDNUM (x : Z) : Z := Z.quot x BITS_PER_BITMAPWORD.
Definition BITNUM (x : Z) : Z := Z.rem x BITS_PER_BITMAPWORD.

Abbreviation bitmapset := (option (list Z)).

(** Result of [bms_subset_compare]. *)
Inductive BMS_Comparison := BMS_EQUAL | BMS_SUBSET1 | BMS_SUBSET2 | BMS_DIFFERENT.
(** Result of [bms_membership]. *)
Inductive BMS_Membership := BMS_EMPTY_SET | BMS_SINGLETON | BMS_MULTIPLE.

#[global] Instance BMS_Comparison_eq_dec : EqDecision BMS_Comparison.
Proof. solve_decision. Defined.
#[global] Instance BMS_Membership_eq_dec : EqDecision BMS_Membership.
Proof. solve_decision. Defined.

Definition negative_member_msg : string := "negative bitmapset member not allowed".

(** [a->words[i]] *)
Definition word_at (ws : list Z) (i : Z) : Z := nth (Z.to_nat i) ws 0.
Definition nwords (ws : list Z) : Z := Z.of_nat (length ws).

(** [((signedbitmapword) (x) & -((signedbitmapword) (x)))], as an unsigned word. *)
Definition RIGHTMOST_ONE (x : Z) : Z := Z.land x (wrap64 (- x)).
Definition HAS_MULTIPLE_ONES (x : Z) : bool := negb (RIGHTMOST_ONE x =? x).

(** [(bitmapword) 1 << bitnum] *)
Definition bit_mask (bitnum : Z) : Z := shl64 1 bitnum.

(** [for (i = 0; i < min(nwords); i++) result->words[i] = f(result->words[i], other->words[i]);] *)
Fixpoint merge_into (f : Z -> Z -> Z) (result other : list Z) : list Z :=
  match result, other with
  | r :: rs, o :: os => f r o :: merge_into f rs os
  | _, _ => result
  end.

(** A scan for a nonzero word, as in [bms_is_empty_internal]. *)
Fixpoint bms_is_empty_internal (ws : list Z) : bool :=
  match ws with
  | [] => true
  | w :: ws' => if negb (w =? 0) then false else bms_is_empty_internal ws'
  end.

Definition bms_copy (a : bitmapset) : bitmapset := a.

Fixpoint bms_equal_loop (shorter longer : list Z) : bool :=
  match shorter, longer with
  | s :: ss, l :: ls => if negb (s =? l) then false else bms_equal_loop ss ls
  | _, rest => bms_is_empty_internal rest
  end.

Definition bms_equal (a b : bitmapset) : bool :=
  match a, b with
  | None, None => true
  | None, Some _ => false
  | Some _, None => false
  | Some wa, Some wb =>
      if nwords wa <=? nwords wb then bms_equal_loop wa wb else bms_equal_loop wb wa
  end.

(** [while (--i >= 0) ...]: the words in common, from the highest down. *)
Fixpoint bms_compare_loop (i : nat) (wa wb : list Z) : Z :=
  match i with
  | O => 0
  | S j =>
      let aw := nth j wa 0 in
      let bw := nth j wb 0 in
      if negb (aw =? bw) then (if aw >? bw then 1 else -1) else bms_compare_loop j wa wb
  end.

Definition bms_compare (a b : bitmapset) : Z :=
  match a, b with
  | None, None => 0
  | None, Some _ => -1
  | Some _, None => 1
  | Some wa, Some wb =>
      let shortlen := Nat.min (length wa) (length wb) in
      if negb (bms_is_empty_internal (drop shortlen wa)) then 1
      else if negb (bms_is_empty_internal (drop shortlen wb)) then -1
      else bms_compare_loop shortlen wa wb
  end.

Definition bms_make_singleton (x : Z) : result bitmapset :=
  if x <? 0 then Error negative_member_msg
  else
    let wordnum := WORDNUM x in
    let bitnum := BITNUM x in
    Ok (Some (<[Z.to_nat wordnum := bit_mask bitnum]> (replicate (Z.to_nat (wordnum + 1)) 0))).

Definition bms_union (a b : bitmapset) : bitmapset :=
  match a, b with
  | None, _ => bms_copy b
  | _, None => bms_copy a
  | Some wa, Some wb =>
      if nwords wa <=? nwords wb then Some (merge_into Z.lor wb wa)
      else Some (merge_into Z.lor wa wb)
  end.

Definition bms_intersect (a b : bitmapset) : bitmapset :=
  match a, b with
  | Some wa, Some wb =>
      let result :=
        if nwords wa <=? nwords wb then merge_into Z.land wa wb else merge_into Z.land wb wa in
      if bms_is_empty_internal result then None else Some result
  | _, _ => None
  end.

(** The loops of [bms_nonempty_difference]: common words, then the extra words of [a]. *)
Fixpoint nonempty_difference_loop (wa wb : list Z) : bool :=
  match wa, wb with
  | a :: as', b :: bs =>
      if negb (Z.land a (not64 b) =? 0) then true else nonempty_difference_loop as' bs
  | rest, [] => negb (bms_is_empty_internal rest)
  | [], _ => false
  end.

Definition bms_nonempty_difference (a b : bitmapset) : bool :=
  match a, b with
  | None, _ => false
  | Some _, None => true
  | Some wa, Some wb => nonempty_difference_loop wa wb
  end.

Definition bms_difference (a b : bitmapset) : bitmapset :=
  match a, b with
  | None, _ => None
  | Some _, None => bms_copy a
  | Some wa, Some wb =>
      if negb (bms_nonempty_difference a b) then None
      else Some (merge_into (fun x y => Z.land x (not64 y)) wa wb)
  end.

Fixpoint is_subset_loop (wa wb : list Z) : bool :=
  match wa, wb with
  | a :: as', b :: bs =>
      if negb (Z.land a (not64 b) =? 0) then false else is_subset_loop as' bs
  | rest, [] => bms_is_empty_internal rest
  | [], _ => true
  end.

Definition bms_is_subset (a b : bitmapset) : bool :=
  match a, b with
  | None, _ => true
  | Some _, None => false
  | Some wa, Some wb => is_subset_loop wa wb
  end.

(** [if (result == bad) return BMS_DIFFERENT; result = good;] ([None]: early return). *)
Definition subset_mark (bad good : BMS_Comparison) (result : BMS_Comparison) : option BMS_Comparison :=
  if decide (result = bad) then None else Some good.

(** One iteration over a pair of common words. *)
Definition subset_step (aword bword : Z) (result : BMS_Comparison) : option BMS_Comparison :=
  r ← (if negb (Z.land aword (not64 bword) =? 0)
       then subset_mark BMS_SUBSET1 BMS_SUBSET2 result else Some result);
  if negb (Z.land bword (not64 aword) =? 0)
  then subset_mark BMS_SUBSET2 BMS_SUBSET1 r else Some r.

(** The scan of the extra words of the longer set. *)
Fixpoint subset_extra (bad good : BMS_Comparison) (ws : list Z) (result : BMS_Comparison)
    : option BMS_Comparison :=
  match ws with
  | [] => Some result
  | w :: ws' =>
      if negb (w =? 0) then r ← subset_mark bad good result; subset_extra bad good ws' r
      else subset_extra bad good ws' result
  end.

Fixpoint subset_compare_loop (wa wb : list Z) (result : BMS_Comparison) : option BMS_Comparison :=
  match wa, wb with
  | a :: as', b :: bs => r ← subset_step a b result; subset_compare_loop as' bs r
  | [], rest => subset_extra BMS_SUBSET2 BMS_SUBSET1 rest result
  | rest, [] => subset_extra BMS_SUBSET1 BMS_SUBSET2 rest result
  end.

Definition bms_subset_compare (a b : bitmapset) : BMS_Comparison :=
  match a, b with
  | None, None => BMS_EQUAL
  | None, Some _ => BMS_SUBSET1
  | Some _, None => BMS_SUBSET2
  | Some wa, Some wb => default BMS_DIFFERENT (subset_compare_loop wa wb BMS_EQUAL)
  end.

(** [wordnum < a->nwords && (a->words[wordnum] & ((bitmapword) 1 << bitnum)) != 0] *)
Definition test_member (ws : list Z) (x : Z) : bool :=
  if WORDNUM x >=? nwords ws then false
  else negb (Z.land (word_at ws (WORDNUM x)) (bit_mask (BITNUM x)) =? 0).

Definition bms_is_member (x : Z) (a : bitmapset) : result bool :=
  if x <? 0 then Error negative_member_msg
  else match a with
       | None => Ok false
       | Some ws => Ok (test_member ws x)
       end.

(** [for (...) if (w != 0) result += bmw_popcount(w);] *)
Fixpoint popcount_words (ws : list Z) (result : Z) : Z :=
  match ws with
  | [] => result
  | w :: ws' =>
      popcount_words ws' (if negb (w =? 0) then result + pg_popcount64 w else result)
  end.

Definition bms_member_index (a : bitmapset) (x : Z) : result Z :=
  m ← bms_is_member x a;
  match m, a with
  | true, Some ws =>
      let wordnum := WORDNUM x in
      let bitnum := BITNUM x in
      let mask := wrap64 (bit_mask bitnum - 1) in
      Ok (popcount_words (take (Z.to_nat wordnum) ws) 0
          + pg_popcount64 (Z.land (word_at ws wordnum) mask))
  | _, _ => Ok (-1)
  end.

Fixpoint overlap_loop (wa wb : list Z) : bool :=
  match wa, wb with
  | a :: as', b :: bs => if negb (Z.land a b =? 0) then true else overlap_loop as' bs
  | _, _ => false
  end.

Definition bms_overlap (a b : bitmapset) : bool :=
  match a, b with
  | Some wa, Some wb => overlap_loop wa wb
  | _, _ => false
  end.

Fixpoint overlap_list_loop (ws : list Z) (b : list Z) : result bool :=
  match b with
  | [] => Ok false
  | x :: b' =>
      if x <? 0 then Error negative_member_msg
      else if test_member ws x then Ok true else overlap_list_loop ws b'
  end.

Definition bms_overlap_list (a : bitmapset) (b : list Z) : result bool :=
  match a, b with
  | None, _ => Ok false
  | _, [] => Ok false
  | Some ws, _ => overlap_list_loop ws b
  end.

(** The scan shared by [bms_singleton_member] and [bms_get_singleton_member]: [None] when a
    second member is met, otherwise the final [result] ([-1] when no member was seen). *)
Fixpoint singleton_loop (ws : list Z) (wordnum result : Z) : option Z :=
  match ws with
  | [] => Some result
  | w :: ws' =>
      if negb (w =? 0) then
        if (result >=? 0) || HAS_MULTIPLE_ONES w then None
        else singleton_loop ws' (wordnum + 1)
               (wordnum * BITS_PER_BITMAPWORD + pg_rightmost_one_pos64 w)
      else singleton_loop ws' (wordnum + 1) result
  end.

Definition bms_singleton_member (a : bitmapset) : result Z :=
  match a with
  | None => Error "bitmapset is empty"
  | Some ws =>
      match singleton_loop ws 0 (-1) with
      | None => Error "bitmapset has multiple members"
      | Some r => if r <? 0 then Error "bitmapset is empty" else Ok r
      end
  end.

(** Returns the boolean and the new value of [*member]. *)
Definition bms_get_singleton_member (a : bitmapset) (member : Z) : bool * Z :=
  match a with
  | None => (false, member)
  | Some ws =>
      match singleton_loop ws 0 (-1) with
      | None => (false, member)
      | Some r => if r <? 0 then (false, member) else (true, r)
      end
  end.

Definition bms_num_members (a : bitmapset) : Z :=
  match a with
  | None => 0
  | Some ws => popcount_words ws 0
  end.

Fixpoint membership_loop (ws : list Z) (result : BMS_Membership) : BMS_Membership :=
  match ws with
  | [] => result
  | w :: ws' =>
      if negb (w =? 0) then
        if negb (bool_decide (result = BMS_EMPTY_SET)) || HAS_MULTIPLE_ONES w then BMS_MULTIPLE
        else membership_loop ws' BMS_SINGLETON
      else membership_loop ws' result
  end.

Definition bms_membership (a : bitmapset) : BMS_Membership :=
  match a with
  | None => BMS_EMPTY_SET
  | Some ws => membership_loop ws BMS_EMPTY_SET
  end.

(** [repalloc] to [n] words with the enlarged portion zeroed. *)
Definition enlarge_words (ws : list Z) (n : Z) : list Z :=
  if n >? nwords ws then ws ++ replicate (Z.to_nat (n - nwords ws)) 0 else ws.

(** [a->words[i] = f(a->words[i])] *)
Definition update_word (ws : list Z) (i : Z) (f : Z -> Z) : list Z :=
  <[Z.to_nat i := f (word_at ws i)]> ws.

Definition bms_add_member (a : bitmapset) (x : Z) : result bitmapset :=
  if x <? 0 then Error negative_member_msg
  else match a with
       | None => bms_make_singleton x
       | Some ws =>
           let wordnum := WORDNUM x in
           let bitnum := BITNUM x in
           let ws' := if wordnum >=? nwords ws then enlarge_words ws (wordnum + 1) else ws in
           Ok (Some (update_word ws' wordnum (fun w => Z.lor w (bit_mask bitnum))))
       end.

Definition bms_del_member (a : bitmapset) (x : Z) : result bitmapset :=
  if x <? 0 then Error negative_member_msg
  else match a with
       | None => Ok None
       | Some ws =>
           let wordnum := WORDNUM x in
           let bitnum := BITNUM x in
           let ws' := if wordnum <? nwords ws
                      then update_word ws wordnum (fun w => Z.land w (not64 (bit_mask bitnum)))
                      else ws in
           if bms_is_empty_internal ws' then Ok None else Ok (Some ws')
       end.

Definition bms_add_members (a b : bitmapset) : bitmapset :=
  match a, b with
  | None, _ => bms_copy b
  | _, None => a
  | Some wa, Some wb =>
      if nwords wa <? nwords wb then Some (merge_into Z.lor wb wa)
      else Some (merge_into Z.lor wa wb)
  end.

(** [while (wordnum < uwordnum) a->words[wordnum++] = ~(bitmapword) 0;] *)
Fixpoint fill_words (n : nat) (ws : list Z) (wordnum : Z) : list Z :=
  match n with
  | O => ws
  | S n' => fill_words n' (<[Z.to_nat wordnum := not64 0]> ws) (wordnum + 1)
  end.

Definition bms_add_range (a : bitmapset) (lower upper : Z) : result bitmapset :=
  if upper <? lower then Ok a
  else if lower <? 0 then Error negative_member_msg
  else
    let uwordnum := WORDNUM upper in
    let ws := match a with
              | None => replicate (Z.to_nat (uwordnum + 1)) 0
              | Some ws => if uwordnum >=? nwords ws then enlarge_words ws (uwordnum + 1) else ws
              end in
    let lwordnum := WORDNUM lower in
    let lbitnum := BITNUM lower in
    let ushiftbits := BITS_PER_BITMAPWORD - (BITNUM upper + 1) in
    let lmask := not64 (wrap64 (bit_mask lbitnum - 1)) in
    let umask := Z.shiftr (not64 0) ushiftbits in
    if lwordnum =? uwordnum then
      Ok (Some (update_word ws lwordnum (fun w => Z.lor w (Z.land lmask umask))))
    else
      let ws1 := update_word ws lwordnum (fun w => Z.lor w lmask) in
      let ws2 := fill_words (Z.to_nat (uwordnum - (lwordnum + 1))) ws1 (lwordnum + 1) in
      Ok (Some (update_word ws2 uwordnum (fun w => Z.lor w umask))).

(** Intersection of the common words, then zeroes: [for (; i < a->nwords; i++) ... = 0;] *)
Fixpoint int_members_loop (wa wb : list Z) : list Z :=
  match wa, wb with
  | a :: as', b :: bs => Z.land a b :: int_members_loop as' bs
  | _ :: as', [] => 0 :: int_members_loop as' []
  | [], _ => []
  end.

Definition bms_int_members (a b : bitmapset) : bitmapset :=
  match a, b with
  | None, _ => None
  | Some _, None => None
  | Some wa, Some wb =>
      let ws := int_members_loop wa wb in
      if bms_is_empty_internal ws then None else Some ws
  end.

Definition bms_del_members (a b : bitmapset) : bitmapset :=
  match a, b with
  | None, _ => None
  | Some _, None => a
  | Some wa, Some wb =>
      let ws := merge_into (fun x y => Z.land x (not64 y)) wa wb in
      if bms_is_empty_internal ws then None else Some ws
  end.

Definition bms_join (a b : bitmapset) : bitmapset :=
  match a, b with
  | None, _ => b
  | _, None => a
  | Some wa, Some wb =>
      if nwords wa <? nwords wb then Some (merge_into Z.lor wb wa)
      else Some (merge_into Z.lor wa wb)
  end.

(** [for (wordnum = ...; wordnum < nwords; wordnum++)] over the remaining words. *)
Fixpoint next_member_loop (ws : list Z) (wordnum mask : Z) : Z :=
  match ws with
  | [] => -2
  | w0 :: ws' =>
      let w := Z.land w0 mask in
      if negb (w =? 0) then wordnum * BITS_PER_BITMAPWORD + pg_rightmost_one_pos64 w
      else next_member_loop ws' (wordnum + 1) (not64 0)
  end.

(** [prevbit] is an [int]: [prevbit++] wraps around at [INT_MAX], and then the loop reads before the words. *)
Definition bms_next_member (a : bitmapset) (prevbit : Z) : result Z :=
  match a with
  | None => Ok (-2)
  | Some ws =>
      let prevbit := to_int32 (prevbit + 1) in
      let mask := shl64 (not64 0) (BITNUM prevbit) in
      if WORDNUM prevbit <? 0 then Error bounds_msg
      else Ok (to_int32 (next_member_loop (drop (Z.to_nat (WORDNUM prevbit)) ws) (WORDNUM prevbit) mask))
  end.

(** The value of [bms_next_member] where nothing overflows, that is, for members below [INT_MAX] ([bms_next_member_ok]).  The loops of the
    planner over sets of range table indexes and class numbers are written with it. *)
Definition next_member (a : bitmapset) (prevbit : Z) : Z :=
  match a with
  | None => -2
  | Some ws =>
      let prevbit := prevbit + 1 in
      let mask := shl64 (not64 0) (BITNUM prevbit) in
      next_member_loop (drop (Z.to_nat (WORDNUM prevbit)) ws) (WORDNUM prevbit) mask
  end.

(** [for (wordnum = ...; wordnum >= 0; wordnum--)]; [n] is [wordnum + 1]. *)
Fixpoint prev_member_loop (n : nat) (ws : list Z) (mask : Z) : Z :=
  match n with
  | O => -2
  | S wordnum =>
      let w := Z.land (nth wordnum ws 0) mask in
      if negb (w =? 0) then Z.of_nat wordnum * BITS_PER_BITMAPWORD + pg_leftmost_one_pos64 w
      else prev_member_loop wordnum ws (not64 0)
  end.

(** The first word read is the highest one, so it decides whether the loop stays within the array. *)
Definition bms_prev_member (a : bitmapset) (prevbit : Z) : result Z :=
  match a with
  | None => Ok (-2)
  | Some ws =>
      if prevbit =? 0 then Ok (-2)
      else
        let prevbit := to_int32 (if prevbit =? -1 then nwords ws * BITS_PER_BITMAPWORD - 1 else prevbit - 1) in
        let ushiftbits := BITS_PER_BITMAPWORD - (BITNUM prevbit + 1) in
        let mask := Z.shiftr (not64 0) ushiftbits in
        if nwords ws <=? WORDNUM prevbit then Error bounds_msg
        else Ok (to_int32 (prev_member_loop (Z.to_nat (WORDNUM prevbit + 1)) ws mask))
  end.

(** [for (lastword = a->nwords; --lastword >= 0;) if (a->words[lastword] != 0) break;]:
    the number of words to hash, [lastword + 1]. *)
Fixpoint lastword_loop (n : nat) (ws : list Z) : nat :=
  match n with
  | O => O
  | S lastword => if negb (nth lastword ws 0 =? 0) then n else lastword_loop lastword ws
  end.

(** [hash_any] on the first [k] words is a parameter. *)
Definition bms_hash_value (hash_any : list Z -> Z) (a : bitmapset) : Z :=
  match a with
  | None => 0
  | Some ws =>
      let k := lastword_loop (length ws) ws in
      if Nat.eqb k 0 then 0 else hash_any (take k ws)
  end.

Definition bitmap_hash (hash_any : list Z -> Z) (key : bitmapset) : Z := bms_hash_value hash_any key.
Definition bitmap_match (key1 key2 : bitmapset) : bool := negb (bms_equal key1 key2).
