(* ===== verification/BitmapsetSpec.v ===== *)
(** * Correctness of the bitmap sets

    [bms_val a] reads the words of a set as one unbounded bit string; every routine of
    [Bitmapset.v] is specified against it: the set algebra is bitwise logic on [Z], the
    comparison is the order of [Z], and so on.  [bms_wf] is the representation invariant
    (64-bit words; an allocated set is not empty). *)
From S2P Require Import Prelude BitUtils Bitmapset.
#[local] Open Scope Z_scope.

(** ** Denotation and invariant *)
Fixpoint words_val (ws : list Z) : Z :=
  match ws with
  | [] => 0
  | w :: ws' => Z.lor w (Z.shiftl (words_val ws') 64)
  end.

Definition bms_val (a : bitmapset) : Z :=
  match a with
  | None => 0
  | Some ws => words_val ws
  end.

Definition words_ok (ws : list Z) : Prop := Forall u64 ws.

Definition bms_wf (a : bitmapset) : Prop :=
  match a with
  | None => True
  | Some ws => words_ok ws /\ words_val ws <> 0
  end.

(** Membership of [x] in a set. *)
Definition bms_mem (a : bitmapset) (x : Z) : bool := Z.testbit (bms_val a) x.

(** ** Words *)
Lemma words_val_nonneg ws : words_ok ws -> 0 <= words_val ws.
Proof.
  induction 1 as [|w ws Hw Hws IH]; simpl; [lia|].
  apply Z.lor_nonneg. split; [apply Hw|]. by apply Z.shiftl_nonneg.
Qed.

Lemma words_val_cons_testbit w ws i : u64 w -> 0 <= i ->
  Z.testbit (words_val (w :: ws)) i =
  if i <? 64 then Z.testbit w i else Z.testbit (words_val ws) (i - 64).
Proof.
  intros Hw Hi. cbn [words_val]. rewrite Z.lor_spec, Z.shiftl_spec by done.
  destruct (Z.ltb_spec i 64).
  - rewrite (Z.testbit_neg_r _ (i - 64)) by lia. apply orb_false_r.
  - by rewrite u64_testbit_high.
Qed.

Lemma words_val_testbit ws i : words_ok ws -> 0 <= i ->
  Z.testbit (words_val ws) i = Z.testbit (word_at ws (i / 64)) (i mod 64).
Proof.
  intros H. revert i. induction H as [|w ws Hw Hws IH]; intros i Hi.
  { unfold word_at. destruct (Z.to_nat (i / 64)); simpl; by rewrite !Z.bits_0. }
  rewrite words_val_cons_testbit by done. unfold word_at in *. destruct (Z.ltb_spec i 64).
  - rewrite Z.div_small, Z.mod_small by lia. done.
  - rewrite IH by lia. replace (Z.to_nat (i / 64)) with (S (Z.to_nat ((i - 64) / 64))).
    + cbn [nth]. f_equal. replace i with ((i - 64) + 1 * 64) at 2 by lia.
      by rewrite Z.mod_add by lia.
    + replace i with ((i - 64) + 1 * 64) at 2 by lia. rewrite Z.div_add by lia.
      pose proof (Z.div_pos (i - 64) 64). lia.
Qed.

Lemma bms_val_nonneg a : bms_wf a -> 0 <= bms_val a.
Proof. destruct a as [ws|]; simpl; [|lia]. intros [H _]. by apply words_val_nonneg. Qed.

Lemma word_at_u64 ws i : words_ok ws -> u64 (word_at ws i).
Proof.
  intros H. unfold word_at. destruct (nth_in_or_default (Z.to_nat i) ws 0) as [Hin| ->].
  - eapply List.Forall_forall in H; done.
  - apply u64_0.
Qed.
#[export] Hint Resolve word_at_u64 : pg.

(** Splits a bit index between the low word and the rest. *)
Ltac split_bit i := let H := fresh "Hlt" in destruct (Z.ltb_spec i 64) as [H|H].

Lemma is_empty_internal_spec ws : words_ok ws ->
  bms_is_empty_internal ws = (words_val ws =? 0).
Proof.
  induction 1 as [|w ws Hw Hws IH]; cbn [bms_is_empty_internal words_val]; [done|].
  pose proof (words_val_nonneg ws Hws).
  destruct (Z.eqb_spec w 0) as [->|Hne]; cbn [negb].
  - rewrite Z.lor_0_l, IH. destruct (Z.eqb_spec (words_val ws) 0) as [->|Hne].
    + by rewrite Z.shiftl_0_l.
    + symmetry. apply Z.eqb_neq. rewrite Z.shiftl_mul_pow2 by lia. lia.
  - symmetry. apply Z.eqb_neq. intros E. apply Z.lor_eq_0_iff in E. lia.
Qed.

(** ** Pointwise loops *)
Section Merge.
  Context (f : Z -> Z -> Z) (g : bool -> bool -> bool).
  Hypothesis f_spec : forall a b i, u64 a -> u64 b -> 0 <= i < 64 ->
    Z.testbit (f a b) i = g (Z.testbit a i) (Z.testbit b i).
  Hypothesis f_u64 : forall a b, u64 a -> u64 b -> u64 (f a b).

Lemma merge_into_ok r o : words_ok r -> words_ok o -> words_ok (merge_into f r o).
  Proof.
    intros Hr. revert o. induction Hr as [|w ws Hw Hws IH]; intros o Ho; [constructor|].
    destruct Ho as [|w' ws' Hw' Hws']; cbn [merge_into]; constructor; auto. by apply IH.
  Qed.

Lemma merge_into_length r o : length (merge_into f r o) = length r.
  Proof. revert o; induction r; intros [|? o]; simpl; auto. Qed.

  (** Common prefix combined, the rest of the result left alone. *)
Lemma merge_into_testbit r o i : words_ok r -> words_ok o -> 0 <= i ->
    (g false true = false \/ (length o <= length r)%nat) -> (forall b, g b false = b) ->
    Z.testbit (words_val (merge_into f r o)) i =
    g (Z.testbit (words_val r) i) (Z.testbit (words_val o) i).
  Proof.
    intros Hr. revert o i. induction Hr as [|w ws Hw Hws IH]; intros o i Ho Hi Hside Hg.
    - destruct o as [|o os]; cbn [merge_into]; cbn [words_val]; rewrite !Z.bits_0.
      + by rewrite Hg.
      + destruct Hside as [Hside|Hlen]; [|simpl in Hlen; lia].
        destruct (Z.testbit _ _); by rewrite ?Hg, ?Hside.
    - destruct Ho as [|o os Ho Hos]; cbn [merge_into].
      + change (words_val []) with 0. by rewrite Z.bits_0, Hg.
      + rewrite !words_val_cons_testbit by auto. split_bit i.
        * apply f_spec; auto.
        * apply IH; auto; [lia|]. destruct Hside as [|Hlen]; [by left|right; simpl in Hlen; lia].
  Qed.
End Merge.

Lemma andn_testbit a b i : 0 <= i < 64 ->
  Z.testbit (Z.land a (not64 b)) i = Z.testbit a i && negb (Z.testbit b i).
Proof.
  intros Hi. rewrite Z.land_spec, not64_testbit by lia.
  destruct (Z.ltb_spec i 64); [|lia]. by rewrite xorb_true_r.
Qed.

Lemma words_val_merge_lor r o : words_ok r -> words_ok o -> (length o <= length r)%nat ->
  words_val (merge_into Z.lor r o) = Z.lor (words_val r) (words_val o).
Proof.
  intros Hr Ho Hlen. apply Z.bits_inj'. intros i Hi. rewrite Z.lor_spec.
  apply merge_into_testbit; auto with pg.
  - intros. apply Z.lor_spec.
  - intros []; done.
Qed.

Lemma words_val_merge_land r o : words_ok r -> words_ok o -> (length r <= length o)%nat ->
  words_val (merge_into Z.land r o) = Z.land (words_val r) (words_val o).
Proof.
  intros Hr. revert o. induction Hr as [|w ws Hw Hws IH]; intros o Ho Hlen; [done|].
  destruct Ho as [|o os Ho Hos]; [simpl in Hlen; lia|]. cbn [merge_into].
  apply Z.bits_inj'. intros i Hi. rewrite Z.land_spec, !words_val_cons_testbit by auto with pg.
  split_bit i; [apply Z.land_spec|]. rewrite IH by (auto; simpl in Hlen; lia). apply Z.land_spec.
Qed.

Lemma words_val_merge_andn r o : words_ok r -> words_ok o ->
  words_val (merge_into (fun x y => Z.land x (not64 y)) r o) = Z.ldiff (words_val r) (words_val o).
Proof.
  intros Hr Ho. apply Z.bits_inj'. intros i Hi. rewrite Z.ldiff_spec.
  apply (merge_into_testbit _ (fun a b => a && negb b)); auto with pg.
  - intros. by apply andn_testbit.
  - intros []; done.
Qed.

Lemma words_ok_merge f r o : (forall a b, u64 a -> u64 b -> u64 (f a b)) ->
  words_ok r -> words_ok o -> words_ok (merge_into f r o).
Proof. intros. by apply merge_into_ok. Qed.
#[export] Hint Resolve words_ok_merge : pg.

Lemma words_val_int_members wa wb : words_ok wa -> words_ok wb ->
  words_val (int_members_loop wa wb) = Z.land (words_val wa) (words_val wb) /\
  words_ok (int_members_loop wa wb).
Proof.
  intros Ha. revert wb. induction Ha as [|w ws Hw Hws IH]; intros wb Hb.
  { split; [done|constructor]. }
  destruct Hb as [|o os Ho Hos]; cbn [int_members_loop].
  - destruct (IH [] ltac:(constructor)) as [E Hok]. split; [|constructor; auto with pg].
    cbn [words_val] in *. rewrite E, !Z.land_0_r. done.
  - destruct (IH os Hos) as [E Hok]. split; [|constructor; auto with pg].
    apply Z.bits_inj'. intros i Hi.
    rewrite Z.land_spec, !words_val_cons_testbit by auto with pg.
    split_bit i; [apply Z.land_spec|]. rewrite E. apply Z.land_spec.
Qed.

(** A computed word array becomes NULL when it is empty. *)
Lemma norm_wf_val ws : words_ok ws ->
  let r := if bms_is_empty_internal ws then None else Some ws in
  bms_wf r /\ bms_val r = words_val ws.
Proof.
  intros H. rewrite is_empty_internal_spec by done. destruct (Z.eqb_spec (words_val ws) 0) as [E|E].
  - split; [done|]. simpl. by rewrite E.
  - split; [by split|done].
Qed.

(** ** Single-word updates *)
Lemma wordnum_div x : 0 <= x -> WORDNUM x = x / 64.
Proof. intros. apply Z.quot_div_nonneg; unfold BITS_PER_BITMAPWORD; lia. Qed.
Lemma bitnum_mod x : 0 <= x -> BITNUM x = x mod 64.
Proof. intros. apply Z.rem_mod_nonneg; unfold BITS_PER_BITMAPWORD; lia. Qed.

(** Word and bit number of a nonnegative member, with their ranges. *)
Lemma word_bit_range x : 0 <= x -> 0 <= x / 64 /\ 0 <= x mod 64 < 64.
Proof. intros. split; [apply Z.div_pos|apply Z.mod_pos_bound]; lia. Qed.

Lemma bit_mask_testbit n i : 0 <= n < 64 -> 0 <= i -> Z.testbit (bit_mask n) i = (i =? n).
Proof.
  intros Hn Hi. unfold bit_mask. rewrite shl64_testbit by lia.
  destruct (Z.eqb_spec i n) as [->|Hne].
  - rewrite Z.sub_diag. destruct (Z.ltb_spec n 64), (Z.leb_spec n n); simpl; lia || done.
  - destruct (Z.leb_spec n i); rewrite ?andb_false_r; [|done].
    change 1 with (2 ^ 0). rewrite Z.pow2_bits_false by lia. by rewrite andb_false_r.
Qed.

Lemma bit_mask_pow2 n : 0 <= n < 64 -> bit_mask n = 2 ^ n.
Proof.
  intros Hn. unfold bit_mask, shl64, wrap64. rewrite Z.shiftl_1_l. apply Z.mod_small.
  split; [lia|]. apply Z.pow_lt_mono_r; lia.
Qed.

Lemma u64_bit_mask n : u64 (bit_mask n).
Proof. apply u64_shl64. Qed.
#[export] Hint Resolve u64_bit_mask : pg.

Lemma word_at_insert ws j k v : 0 <= j < nwords ws -> 0 <= k ->
  word_at (<[Z.to_nat j := v]> ws) k = if k =? j then v else word_at ws k.
Proof.
  intros Hj Hk. unfold word_at, nwords in *. rewrite !nth_lookup.
  destruct (Z.eqb_spec k j) as [->|Hne].
  - by rewrite list_lookup_insert_eq by lia.
  - by rewrite list_lookup_insert_ne by lia.
Qed.

Lemma words_ok_insert ws n v : words_ok ws -> u64 v -> words_ok (<[n := v]> ws).
Proof. intros H Hv. by apply Forall_insert. Qed.
Lemma words_ok_replicate n : words_ok (replicate n 0).
Proof. apply Forall_replicate, u64_0. Qed.
Lemma words_ok_app ws ws' : words_ok ws -> words_ok ws' -> words_ok (ws ++ ws').
Proof. intros. by apply Forall_app_2. Qed.
#[export] Hint Resolve words_ok_insert words_ok_replicate words_ok_app : pg.

Lemma words_val_replicate n : words_val (replicate n 0) = 0.
Proof. induction n; simpl; [done|]. by rewrite IHn, Z.shiftl_0_l. Qed.

Lemma words_val_app_zero ws n : words_val (ws ++ replicate n 0) = words_val ws.
Proof. induction ws; simpl; [apply words_val_replicate|]. by rewrite IHws. Qed.

Lemma update_word_testbit ws j f i : words_ok ws -> u64 (f (word_at ws j)) ->
  0 <= j < nwords ws -> 0 <= i ->
  Z.testbit (words_val (update_word ws j f)) i =
  if i / 64 =? j then Z.testbit (f (word_at ws j)) (i mod 64) else Z.testbit (words_val ws) i.
Proof.
  intros Hok Hf Hj Hi. unfold update_word.
  rewrite words_val_testbit, word_at_insert by (auto with pg; apply Z.div_pos; lia).
  destruct (Z.eqb_spec (i / 64) j) as [E|E]; [done|]. by rewrite words_val_testbit.
Qed.

Lemma enlarge_words_spec ws n : words_ok ws ->
  let ws' := if n >=? nwords ws then enlarge_words ws (n + 1) else ws in
  words_ok ws' /\ words_val ws' = words_val ws /\ n < nwords ws'.
Proof.
  intros Hok ws'. subst ws'. unfold enlarge_words. rewrite Z.geb_leb, Z.gtb_ltb.
  destruct (Z.leb_spec (nwords ws) n); [|by auto].
  destruct (Z.ltb_spec (nwords ws) (n + 1)); [|lia].
  split; [by auto with pg|]. split; [apply words_val_app_zero|].
  unfold nwords in *. rewrite length_app, length_replicate. lia.
Qed.

Lemma div_mod_eqb x i : 0 <= x -> 0 <= i -> (i / 64 =? x / 64) && (i mod 64 =? x mod 64) = (i =? x).
Proof.
  intros. pose proof (Z.div_mod i 64). pose proof (Z.div_mod x 64).
  destruct (Z.eqb_spec i x) as [->|]; [by rewrite !Z.eqb_refl|].
  destruct (Z.eqb_spec (i / 64) (x / 64)), (Z.eqb_spec (i mod 64) (x mod 64)); simpl; lia || done.
Qed.

Lemma words_val_set_bit ws x : words_ok ws -> 0 <= x -> x / 64 < nwords ws ->
  words_val (update_word ws (WORDNUM x) (fun w => Z.lor w (bit_mask (BITNUM x)))) =
  Z.setbit (words_val ws) x.
Proof.
  intros Hok Hx Hn. rewrite wordnum_div, bitnum_mod by done. destruct (word_bit_range x Hx).
  apply Z.bits_inj'. intros i Hi. destruct (word_bit_range i Hi).
  rewrite update_word_testbit, Z.setbit_eqb by auto with pg.
  rewrite Z.lor_spec, bit_mask_testbit by lia. rewrite (Z.eqb_sym x i), <- (div_mod_eqb x i) by done.
  destruct (Z.eqb_spec (i / 64) (x / 64)) as [E|E]; simpl; [|done].
  rewrite words_val_testbit, E by done. apply orb_comm.
Qed.

Lemma words_val_clear_bit ws x : words_ok ws -> 0 <= x -> x / 64 < nwords ws ->
  words_val (update_word ws (WORDNUM x) (fun w => Z.land w (not64 (bit_mask (BITNUM x))))) =
  Z.clearbit (words_val ws) x.
Proof.
  intros Hok Hx Hn. rewrite wordnum_div, bitnum_mod by done. destruct (word_bit_range x Hx).
  apply Z.bits_inj'. intros i Hi. destruct (word_bit_range i Hi).
  rewrite update_word_testbit, Z.clearbit_eqb by auto with pg.
  rewrite andn_testbit, bit_mask_testbit by lia. rewrite (Z.eqb_sym x i), <- (div_mod_eqb x i) by done.
  destruct (Z.eqb_spec (i / 64) (x / 64)) as [E|E]; simpl; [|by rewrite andb_true_r].
  by rewrite words_val_testbit, E.
Qed.

(** A set bit beyond the words is already clear. *)
Lemma words_val_beyond ws x : words_ok ws -> 0 <= x -> nwords ws <= x / 64 ->
  Z.testbit (words_val ws) x = false.
Proof.
  intros Hok Hx Hn. rewrite words_val_testbit by done. unfold word_at, nwords in *.
  rewrite nth_overflow by lia. apply Z.bits_0.
Qed.

Lemma update_word_ok ws j f : words_ok ws -> (forall w, u64 w -> u64 (f w)) ->
  words_ok (update_word ws j f).
Proof. intros Hok Hf. apply words_ok_insert; auto with pg. Qed.
#[export] Hint Resolve update_word_ok : pg.

Lemma setbit_nonzero v x : 0 <= x -> 0 <= v -> Z.setbit v x <> 0.
Proof.
  intros Hx Hv E. assert (Z.testbit (Z.setbit v x) x = true) as H by (apply Z.setbit_eq; lia).
  rewrite E, Z.bits_0 in H. done.
Qed.

Lemma bms_make_singleton_spec x : 0 <= x ->
  exists a, bms_make_singleton x = Ok a /\ bms_wf a /\ bms_val a = Z.setbit 0 x.
Proof.
  intros Hx. unfold bms_make_singleton. destruct (Z.ltb_spec x 0); [lia|].
  set (ws := replicate _ _).
  assert (Hn : nwords ws = x / 64 + 1).
  { unfold nwords, ws. rewrite length_replicate, wordnum_div by lia.
    destruct (word_bit_range x); lia. }
  destruct (word_bit_range x Hx).
  assert (E : <[Z.to_nat (WORDNUM x) := bit_mask (BITNUM x)]> ws =
              update_word ws (WORDNUM x) (fun w => Z.lor w (bit_mask (BITNUM x)))).
  { unfold update_word. f_equal. unfold word_at, ws. rewrite nth_lookup, lookup_replicate_2.
    - by rewrite Z.lor_0_l.
    - rewrite wordnum_div by done. lia. }
  rewrite E. eexists. split; [done|].
  assert (V : words_val (update_word ws (WORDNUM x) (fun w => Z.lor w (bit_mask (BITNUM x)))) = Z.setbit 0 x).
  { rewrite words_val_set_bit; unfold ws; auto with pg; [|fold ws; lia].
    by rewrite words_val_replicate. }
  split; [|exact V]. split; [unfold ws; auto with pg|]. rewrite V. apply setbit_nonzero; lia.
Qed.

Lemma bms_add_member_spec a x : bms_wf a -> 0 <= x ->
  exists a', bms_add_member a x = Ok a' /\ bms_wf a' /\ bms_val a' = Z.setbit (bms_val a) x.
Proof.
  intros Hwf Hx. unfold bms_add_member. destruct (Z.ltb_spec x 0); [lia|].
  destruct a as [ws|]; [|by apply bms_make_singleton_spec].
  destruct Hwf as [Hok Hne]. destruct (enlarge_words_spec ws (WORDNUM x) Hok) as (Hok' & HV & Hlt).
  set (ws' := if WORDNUM x >=? nwords ws then _ else _) in *. eexists. split; [done|].
  assert (V : words_val (update_word ws' (WORDNUM x) (fun w => Z.lor w (bit_mask (BITNUM x)))) =
              Z.setbit (words_val ws) x).
  { rewrite words_val_set_bit; [by rewrite HV|done|done|]. by rewrite <- wordnum_div. }
  split; [|exact V]. split; [auto with pg|]. rewrite V.
  apply setbit_nonzero; [done|by apply words_val_nonneg].
Qed.

Lemma bms_del_member_spec a x : bms_wf a -> 0 <= x ->
  exists a', bms_del_member a x = Ok a' /\ bms_wf a' /\ bms_val a' = Z.clearbit (bms_val a) x.
Proof.
  intros Hwf Hx. unfold bms_del_member. destruct (Z.ltb_spec x 0); [lia|].
  destruct a as [ws|].
  2: { exists None. split; [done|]. split; [done|]. by rewrite Z.clearbit_spec', Z.ldiff_0_l. }
  destruct Hwf as [Hok Hne].
  set (ws' := if WORDNUM x <? nwords ws then _ else _).
  assert (H' : words_ok ws' /\ words_val ws' = Z.clearbit (words_val ws) x).
  { subst ws'. destruct (Z.ltb_spec (WORDNUM x) (nwords ws)) as [Hlt|Hge].
    - split; [auto with pg|]. apply words_val_clear_bit; auto. by rewrite <- wordnum_div.
    - split; [done|]. rewrite wordnum_div in Hge by done. symmetry.
      apply Z.bits_inj'. intros i Hi. rewrite Z.clearbit_eqb by done.
      destruct (Z.eqb_spec x i) as [->|]; [|by rewrite andb_true_r].
      by rewrite words_val_beyond. }
  destruct H' as [Hok' V]. destruct (norm_wf_val ws' Hok') as [Hw Hv].
  exists (if bms_is_empty_internal ws' then None else Some ws').
  split; [by destruct (bms_is_empty_internal ws')|]. split; [done|]. by rewrite Hv, V.
Qed.

(** ** Set algebra *)
Lemma nonempty_difference_loop_merge wa wb :
  nonempty_difference_loop wa wb =
  negb (bms_is_empty_internal (merge_into (fun x y => Z.land x (not64 y)) wa wb)).
Proof.
  revert wb; induction wa as [|w wa IH]; intros [|w' wb]; try done.
  cbn [nonempty_difference_loop merge_into bms_is_empty_internal].
  destruct (_ =? 0); simpl; [apply IH|done].
Qed.

Lemma is_subset_loop_merge wa wb :
  is_subset_loop wa wb = bms_is_empty_internal (merge_into (fun x y => Z.land x (not64 y)) wa wb).
Proof.
  revert wb; induction wa as [|w wa IH]; intros [|w' wb]; try done.
  cbn [is_subset_loop merge_into bms_is_empty_internal].
  destruct (_ =? 0); simpl; [apply IH|done].
Qed.

Lemma int_members_nil wa : bms_is_empty_internal (int_members_loop wa []) = true.
Proof. induction wa; done. Qed.

Lemma overlap_loop_int wa wb :
  overlap_loop wa wb = negb (bms_is_empty_internal (int_members_loop wa wb)).
Proof.
  revert wb; induction wa as [|w wa IH]; intros [|w' wb]; try done.
  - cbn [overlap_loop]. by rewrite int_members_nil.
  - cbn [overlap_loop int_members_loop bms_is_empty_internal].
    destruct (_ =? 0); simpl; [apply IH|done].
Qed.

Lemma nwords_le wa wb : (nwords wa <=? nwords wb) = (length wa <=? length wb)%nat.
Proof.
  unfold nwords. destruct (Z.leb_spec (Z.of_nat (length wa)) (Z.of_nat (length wb))),
    (Nat.leb_spec (length wa) (length wb)); lia || done.
Qed.
Lemma nwords_lt wa wb : (nwords wa <? nwords wb) = (length wa <? length wb)%nat.
Proof.
  unfold nwords. destruct (Z.ltb_spec (Z.of_nat (length wa)) (Z.of_nat (length wb))),
    (Nat.ltb_spec (length wa) (length wb)); lia || done.
Qed.

Lemma lor_nonzero v w : v <> 0 -> Z.lor v w <> 0.
Proof. intros Hv E. apply Z.lor_eq_0_iff in E. tauto. Qed.

Lemma merge_lor_wf wa wb : words_ok wa -> words_ok wb -> (length wb <= length wa)%nat ->
  words_val wb <> 0 ->
  bms_wf (Some (merge_into Z.lor wa wb)) /\
  words_val (merge_into Z.lor wa wb) = Z.lor (words_val wb) (words_val wa).
Proof.
  intros Ha Hb Hl Hne. rewrite (Z.lor_comm (words_val wb)).
  assert (E := words_val_merge_lor wa wb Ha Hb Hl).
  split; [|done]. split; [auto with pg|]. rewrite E, Z.lor_comm. by apply lor_nonzero.
Qed.

Lemma bms_union_spec a b : bms_wf a -> bms_wf b ->
  bms_wf (bms_union a b) /\ bms_val (bms_union a b) = Z.lor (bms_val a) (bms_val b).
Proof.
  destruct a as [wa|], b as [wb|]; intros Ha Hb; cbn [bms_union bms_copy bms_val];
    rewrite ?Z.lor_0_l, ?Z.lor_0_r; try done.
  destruct Ha as [Ha Hna], Hb as [Hb Hnb]. rewrite nwords_le.
  destruct (Nat.leb_spec (length wa) (length wb)).
  - by apply merge_lor_wf.
  - rewrite Z.lor_comm. apply merge_lor_wf; auto; lia.
Qed.

(** [bms_add_members] and [bms_join] differ from [bms_union] only in which input is reused. *)
Lemma lor_recycle_spec wa wb : bms_wf (Some wa) -> bms_wf (Some wb) ->
  let r := if nwords wa <? nwords wb then Some (merge_into Z.lor wb wa)
           else Some (merge_into Z.lor wa wb) in
  bms_wf r /\ bms_val r = Z.lor (words_val wa) (words_val wb).
Proof.
  intros [Ha Hna] [Hb Hnb]. rewrite nwords_lt. destruct (Nat.ltb_spec (length wa) (length wb)).
  - apply merge_lor_wf; auto; lia.
  - rewrite Z.lor_comm. apply merge_lor_wf; auto; lia.
Qed.

Lemma bms_add_members_spec a b : bms_wf a -> bms_wf b ->
  bms_wf (bms_add_members a b) /\ bms_val (bms_add_members a b) = Z.lor (bms_val a) (bms_val b).
Proof.
  destruct a as [wa|], b as [wb|]; intros Ha Hb; cbn [bms_add_members bms_copy bms_val];
    rewrite ?Z.lor_0_l, ?Z.lor_0_r; try done. by apply lor_recycle_spec.
Qed.

Lemma bms_join_spec a b : bms_wf a -> bms_wf b ->
  bms_wf (bms_join a b) /\ bms_val (bms_join a b) = Z.lor (bms_val a) (bms_val b).
Proof.
  destruct a as [wa|], b as [wb|]; intros Ha Hb; cbn [bms_join bms_val];
    rewrite ?Z.lor_0_l, ?Z.lor_0_r; try done. by apply lor_recycle_spec.
Qed.

Lemma bms_intersect_spec a b : bms_wf a -> bms_wf b ->
  bms_wf (bms_intersect a b) /\ bms_val (bms_intersect a b) = Z.land (bms_val a) (bms_val b).
Proof.
  destruct a as [wa|], b as [wb|]; intros Ha Hb; cbn [bms_intersect bms_val];
    rewrite ?Z.land_0_l, ?Z.land_0_r; try done.
  destruct Ha as [Ha Hna], Hb as [Hb Hnb]. rewrite nwords_le.
  destruct (Nat.leb_spec (length wa) (length wb)).
  - destruct (norm_wf_val (merge_into Z.land wa wb)) as [W V]; [auto with pg|].
    split; [done|]. rewrite V. apply words_val_merge_land; auto.
  - destruct (norm_wf_val (merge_into Z.land wb wa)) as [W V]; [auto with pg|].
    split; [done|]. rewrite V, Z.land_comm. apply words_val_merge_land; auto; lia.
Qed.

Lemma bms_int_members_spec a b : bms_wf a -> bms_wf b ->
  bms_wf (bms_int_members a b) /\ bms_val (bms_int_members a b) = Z.land (bms_val a) (bms_val b).
Proof.
  destruct a as [wa|], b as [wb|]; intros Ha Hb; cbn [bms_int_members bms_val];
    rewrite ?Z.land_0_l, ?Z.land_0_r; try done.
  destruct Ha as [Ha Hna], Hb as [Hb Hnb].
  destruct (words_val_int_members wa wb Ha Hb) as [E Hok].
  destruct (norm_wf_val _ Hok) as [W V]. split; [done|]. by rewrite V.
Qed.

Lemma bms_del_members_spec a b : bms_wf a -> bms_wf b ->
  bms_wf (bms_del_members a b) /\ bms_val (bms_del_members a b) = Z.ldiff (bms_val a) (bms_val b).
Proof.
  destruct a as [wa|], b as [wb|]; intros Ha Hb; cbn [bms_del_members bms_val];
    rewrite ?Z.ldiff_0_l, ?Z.ldiff_0_r; try done.
  destruct Ha as [Ha Hna], Hb as [Hb Hnb].
  destruct (norm_wf_val (merge_into (fun x y => Z.land x (not64 y)) wa wb)) as [W V];
    [auto with pg|].
  split; [done|]. rewrite V. by apply words_val_merge_andn.
Qed.

Lemma bms_difference_spec a b : bms_wf a -> bms_wf b ->
  bms_wf (bms_difference a b) /\ bms_val (bms_difference a b) = Z.ldiff (bms_val a) (bms_val b).
Proof.
  intros Ha Hb. rewrite <- (proj2 (bms_del_members_spec a b Ha Hb)).
  assert (bms_difference a b = bms_del_members a b) as ->.
  { destruct a as [wa|], b as [wb|]; try done.
    cbn [bms_difference bms_nonempty_difference bms_del_members].
    rewrite nonempty_difference_loop_merge, negb_involutive. done. }
  split; [|done]. by apply bms_del_members_spec.
Qed.

(** ** Predicates *)
Lemma bms_equal_loop_spec s l : words_ok s -> words_ok l -> (length s <= length l)%nat ->
  bms_equal_loop s l = (words_val s =? words_val l).
Proof.
  intros Hs. revert l. induction Hs as [|w s Hw Hs IH]; intros l Hl Hlen.
  { cbn [bms_equal_loop]. destruct l; rewrite is_empty_internal_spec by done; apply Z.eqb_sym. }
  destruct Hl as [|w' l Hw' Hl]; [simpl in Hlen; lia|]. cbn [bms_equal_loop].
  assert (words_val (w :: s) = words_val (w' :: l) <-> w = w' /\ words_val s = words_val l) as Hiff.
  { split; [|by intros [-> E]; cbn [words_val]; rewrite E].
    intros E. assert (forall i, 0 <= i -> Z.testbit (words_val (w :: s)) i = Z.testbit (words_val (w' :: l)) i)
      as Hb by (intros; by rewrite E).
    split; apply Z.bits_inj'; intros i Hi.
    - destruct (Z_lt_ge_dec i 64) as [Hlt|Hge]; [|by rewrite !u64_testbit_high by (done || lia)].
      specialize (Hb i Hi). rewrite !words_val_cons_testbit in Hb by done.
      by destruct (Z.ltb_spec i 64); [|lia].
    - specialize (Hb (i + 64)). rewrite !words_val_cons_testbit in Hb by (done || lia).
      destruct (Z.ltb_spec (i + 64) 64); [lia|]. replace (i + 64 - 64) with i in Hb by lia.
      apply Hb. lia. }
  rewrite IH by (auto; simpl in Hlen; lia).
  destruct (Z.eqb_spec w w'), (Z.eqb_spec (words_val s) (words_val l)),
    (Z.eqb_spec (words_val (w :: s)) (words_val (w' :: l))); simpl; tauto || done.
Qed.

Lemma bms_equal_spec a b : bms_wf a -> bms_wf b -> bms_equal a b = (bms_val a =? bms_val b).
Proof.
  destruct a as [wa|], b as [wb|]; intros Ha Hb; cbn [bms_equal bms_val].
  - destruct Ha as [Ha _], Hb as [Hb _]. rewrite nwords_le.
    destruct (Nat.leb_spec (length wa) (length wb)).
    + by apply bms_equal_loop_spec.
    + rewrite Z.eqb_sym. apply bms_equal_loop_spec; auto; lia.
  - symmetry. apply Z.eqb_neq, Ha.
  - symmetry. apply Z.eqb_neq. intros E. by apply Hb.
  - done.
Qed.

Lemma bms_nonempty_difference_spec a b : bms_wf a -> bms_wf b ->
  bms_nonempty_difference a b = negb (Z.ldiff (bms_val a) (bms_val b) =? 0).
Proof.
  destruct a as [wa|], b as [wb|]; intros Ha Hb; cbn [bms_nonempty_difference bms_val];
    rewrite ?Z.ldiff_0_l, ?Z.ldiff_0_r; try done.
  - destruct Ha as [Ha _], Hb as [Hb _]. rewrite nonempty_difference_loop_merge.
    rewrite is_empty_internal_spec by auto with pg. by rewrite words_val_merge_andn.
  - symmetry. apply negb_true_iff, Z.eqb_neq, Ha.
Qed.

Lemma bms_is_subset_spec a b : bms_wf a -> bms_wf b ->
  bms_is_subset a b = (Z.ldiff (bms_val a) (bms_val b) =? 0).
Proof.
  destruct a as [wa|], b as [wb|]; intros Ha Hb; cbn [bms_is_subset bms_val];
    rewrite ?Z.ldiff_0_l, ?Z.ldiff_0_r; try done.
  - destruct Ha as [Ha _], Hb as [Hb _]. rewrite is_subset_loop_merge.
    rewrite is_empty_internal_spec by auto with pg. by rewrite words_val_merge_andn.
  - symmetry. apply Z.eqb_neq, Ha.
Qed.

Lemma bms_overlap_spec a b : bms_wf a -> bms_wf b ->
  bms_overlap a b = negb (Z.land (bms_val a) (bms_val b) =? 0).
Proof.
  destruct a as [wa|], b as [wb|]; intros Ha Hb; cbn [bms_overlap bms_val];
    rewrite ?Z.land_0_l, ?Z.land_0_r; try done.
  destruct Ha as [Ha _], Hb as [Hb _]. destruct (words_val_int_members wa wb Ha Hb) as [E Hok].
  rewrite overlap_loop_int, is_empty_internal_spec by done. by rewrite E.
Qed.

Lemma land_mask_testbit w n : u64 w -> 0 <= n < 64 ->
  negb (Z.land w (bit_mask n) =? 0) = Z.testbit w n.
Proof.
  intros Hw Hn. rewrite bit_mask_pow2 by done. destruct (Z.testbit w n) eqn:E.
  - apply negb_true_iff, Z.eqb_neq. intros H.
    assert (Z.testbit (Z.land w (2 ^ n)) n = true) as Ht
      by (by rewrite Z.land_spec, E, Z.pow2_bits_true by lia).
    rewrite H, Z.bits_0 in Ht. done.
  - apply negb_false_iff, Z.eqb_eq, Z.bits_inj'. intros i Hi.
    rewrite Z.land_spec, Z.bits_0, Z.pow2_bits_eqb by lia.
    destruct (Z.eqb_spec n i) as [->|]; [by rewrite E|apply andb_false_r].
Qed.

Lemma test_member_spec ws x : words_ok ws -> 0 <= x ->
  test_member ws x = Z.testbit (words_val ws) x.
Proof.
  intros Hok Hx. unfold test_member. rewrite Z.geb_leb, wordnum_div, bitnum_mod by done.
  destruct (word_bit_range x Hx). destruct (Z.leb_spec (nwords ws) (x / 64)).
  - symmetry. by apply words_val_beyond.
  - rewrite land_mask_testbit by auto with pg. by rewrite words_val_testbit.
Qed.

Lemma bms_is_member_spec x a : bms_wf a -> 0 <= x -> bms_is_member x a = Ok (bms_mem a x).
Proof.
  intros Ha Hx. unfold bms_is_member, bms_mem. destruct (Z.ltb_spec x 0); [lia|].
  destruct a as [ws|]; simpl; [|by rewrite Z.bits_0].
  destruct Ha. by rewrite test_member_spec.
Qed.

(** *** [bms_subset_compare] *)
(** The scan state as two flags: "a has a member outside b", "b has one outside a". *)
Definition subset_flags (p q : bool) : option BMS_Comparison :=
  match p, q with
  | false, false => Some BMS_EQUAL
  | true, false => Some BMS_SUBSET2
  | false, true => Some BMS_SUBSET1
  | true, true => None
  end.

Lemma subset_extra_flags p q ws r (f := negb (bms_is_empty_internal ws)) :
  subset_flags p q = Some r ->
  subset_extra BMS_SUBSET1 BMS_SUBSET2 ws r = subset_flags (p || f) q /\
  subset_extra BMS_SUBSET2 BMS_SUBSET1 ws r = subset_flags p (q || f).
Proof.
  subst f. revert p q r. induction ws as [|w ws IH]; intros p q r Hr;
    cbn [subset_extra bms_is_empty_internal]; [by rewrite !orb_false_r|].
  destruct (w =? 0); cbn [negb]; [by apply IH|].
  rewrite !orb_true_r. split.
  - destruct p, q; simplify_eq/=; try done.
    all: rewrite (proj1 (IH true false _ eq_refl)); by destruct (negb _).
  - destruct p, q; simplify_eq/=; try done.
    all: rewrite (proj2 (IH false true _ eq_refl)); by destruct (negb _).
Qed.

Lemma subset_step_flags p q a b r : subset_flags p q = Some r ->
  subset_step a b r =
  subset_flags (p || negb (Z.land a (not64 b) =? 0)) (q || negb (Z.land b (not64 a) =? 0)).
Proof.
  intros Hr. unfold subset_step.
  destruct (Z.land a (not64 b) =? 0), (Z.land b (not64 a) =? 0), p, q; simplify_eq/=; done.
Qed.

Lemma subset_compare_loop_flags p q wa wb r : subset_flags p q = Some r ->
  subset_compare_loop wa wb r =
  subset_flags (p || nonempty_difference_loop wa wb) (q || nonempty_difference_loop wb wa).
Proof.
  revert p q wb r. induction wa as [|a wa IH]; intros p q [|b wb] r Hr.
  - cbn. by rewrite !orb_false_r.
  - cbn [subset_compare_loop nonempty_difference_loop].
    rewrite (proj2 (subset_extra_flags p q _ _ Hr)), orb_false_r. done.
  - cbn [subset_compare_loop nonempty_difference_loop].
    rewrite (proj1 (subset_extra_flags p q _ _ Hr)), orb_false_r. done.
  - cbn [subset_compare_loop nonempty_difference_loop].
    rewrite (subset_step_flags p q) by done.
    destruct (Z.land a (not64 b) =? 0), (Z.land b (not64 a) =? 0), p, q; simplify_eq/=; try done.
    all: first [ rewrite (IH false false) by done | rewrite (IH true false) by done
               | rewrite (IH false true) by done ]; done.
Qed.

Lemma bms_subset_compare_flags a b : bms_wf a -> bms_wf b ->
  bms_subset_compare a b =
  default BMS_DIFFERENT (subset_flags (bms_nonempty_difference a b) (bms_nonempty_difference b a)).
Proof.
  intros Ha Hb. destruct a as [wa|], b as [wb|]; try done.
  cbn [bms_subset_compare bms_nonempty_difference].
  by rewrite (subset_compare_loop_flags false false).
Qed.

(** ** Arithmetic view: words as base-[2^64] digits *)
Lemma words_val_cons w ws : u64 w -> words_ok ws ->
  words_val (w :: ws) = w + 2 ^ 64 * words_val ws.
Proof.
  intros Hw Hws. cbn [words_val]. rewrite <- Z.add_nocarry_lor.
  - rewrite Z.shiftl_mul_pow2 by lia. lia.
  - apply Z.bits_inj'. intros i Hi. rewrite Z.land_spec, Z.shiftl_spec, Z.bits_0 by done.
    destruct (Z_lt_ge_dec i 64).
    + rewrite (Z.testbit_neg_r _ (i - 64)) by lia. apply andb_false_r.
    + by rewrite u64_testbit_high by (done || lia).
Qed.

Definition wbase (n : nat) : Z := 2 ^ (64 * Z.of_nat n).

Lemma wbase_S n : wbase (S n) = 2 ^ 64 * wbase n.
Proof. unfold wbase. rewrite <- Z.pow_add_r by lia. f_equal. lia. Qed.
Lemma wbase_pos n : 0 < wbase n.
Proof. apply Z.pow_pos_nonneg; lia. Qed.

Lemma words_val_app l1 l2 : words_ok l1 -> words_ok l2 ->
  words_val (l1 ++ l2) = words_val l1 + wbase (length l1) * words_val l2.
Proof.
  intros H1 H2. induction H1 as [|w l1 Hw H1 IH].
  { change (wbase (length [])) with 1. simpl. lia. }
  rewrite <- app_comm_cons, !words_val_cons by auto with pg.
  rewrite IH. cbn [length]. rewrite wbase_S. lia.
Qed.

Lemma words_val_bound ws : words_ok ws -> 0 <= words_val ws < wbase (length ws).
Proof.
  induction 1 as [|w ws Hw Hws IH]; [unfold wbase; simpl; lia|].
  rewrite words_val_cons by done. cbn [length]. rewrite wbase_S. unfold u64 in Hw. lia.
Qed.

Lemma words_ok_take ws n : words_ok ws -> words_ok (take n ws).
Proof. apply Forall_take. Qed.
Lemma words_ok_drop ws n : words_ok ws -> words_ok (drop n ws).
Proof. apply Forall_drop. Qed.
#[export] Hint Resolve words_ok_take words_ok_drop : pg.

Lemma words_val_take_S ws j : words_ok ws -> (j < length ws)%nat ->
  words_val (take (S j) ws) = words_val (take j ws) + wbase j * nth j ws 0.
Proof.
  intros Hok Hj. destruct (lookup_lt_is_Some_2 ws j Hj) as [w Hw].
  assert (Hu : u64 w) by (by eapply Forall_lookup_1).
  rewrite (take_S_r _ _ _ Hw), nth_lookup, Hw.
  rewrite words_val_app by (auto with pg; repeat constructor; apply Hu).
  rewrite length_take_le by lia. simpl. by rewrite Z.lor_0_r.
Qed.

Lemma words_val_split ws n : words_ok ws -> (n <= length ws)%nat ->
  words_val ws = words_val (take n ws) + wbase n * words_val (drop n ws).
Proof.
  intros Hok Hn. rewrite <- (take_drop n ws) at 1. rewrite words_val_app by auto with pg.
  by rewrite length_take_le.
Qed.

(** [-1], [0] or [+1] for the three outcomes of a comparison. *)
Definition cmp_int (c : comparison) : Z :=
  match c with Lt => -1 | Eq => 0 | Gt => 1 end.

Lemma bms_compare_loop_spec i wa wb : words_ok wa -> words_ok wb ->
  (i <= length wa)%nat -> (i <= length wb)%nat ->
  bms_compare_loop i wa wb = cmp_int (words_val (take i wa) ?= words_val (take i wb)).
Proof.
  intros Ha Hb. induction i as [|j IH]; intros La Lb; [done|]. cbn [bms_compare_loop].
  rewrite !words_val_take_S by (done || lia).
  pose proof (words_val_bound (take j wa) ltac:(auto with pg)) as Ba.
  pose proof (words_val_bound (take j wb) ltac:(auto with pg)) as Bb.
  rewrite !length_take_le in * by lia.
  pose proof (wbase_pos j). set (aw := nth j wa 0). set (bw := nth j wb 0).
  destruct (Z.eqb_spec aw bw) as [E|E]; cbn [negb].
  - rewrite IH by lia. f_equal. rewrite E, !(Z.add_comm _ (wbase j * bw)).
    symmetry. apply Z.add_compare_mono_l.
  - rewrite Z.gtb_ltb. destruct (Z.ltb_spec bw aw).
    + rewrite (proj2 (Z.compare_gt_iff _ _)); [done|nia].
    + rewrite (proj2 (Z.compare_lt_iff _ _)); [done|nia].
Qed.

Lemma bms_compare_spec a b : bms_wf a -> bms_wf b ->
  bms_compare a b = cmp_int (bms_val a ?= bms_val b).
Proof.
  destruct a as [wa|], b as [wb|]; intros Ha Hb; cbn [bms_compare bms_val]; [| | |done].
  - destruct Ha as [Ha _], Hb as [Hb _]. set (n := Nat.min _ _).
    rewrite !is_empty_internal_spec by auto with pg.
    rewrite (words_val_split wa n), (words_val_split wb n) by (done || lia).
    pose proof (words_val_bound (take n wa) ltac:(auto with pg)) as Ba.
    pose proof (words_val_bound (take n wb) ltac:(auto with pg)) as Bb.
    pose proof (words_val_bound (drop n wa) ltac:(auto with pg)) as Da.
    pose proof (words_val_bound (drop n wb) ltac:(auto with pg)) as Db.
    rewrite !length_take_le in * by lia. rewrite !length_drop in *.
    pose proof (wbase_pos n).
    assert (words_val (drop n wa) = 0 \/ words_val (drop n wb) = 0) as Hz.
    { destruct (Nat.le_ge_cases (length wa) (length wb));
        [left; rewrite drop_ge by lia|right; rewrite drop_ge by lia]; done. }
    destruct (Z.eqb_spec (words_val (drop n wa)) 0) as [Ea|Ea]; cbn [negb].
    + destruct (Z.eqb_spec (words_val (drop n wb)) 0) as [Eb|Eb]; cbn [negb].
      * rewrite bms_compare_loop_spec by (done || lia). by rewrite Ea, Eb, !Z.mul_0_r, !Z.add_0_r.
      * rewrite (proj2 (Z.compare_lt_iff _ _)); [done|nia].
    + rewrite (proj2 (Z.compare_gt_iff _ _)); [done|nia].
  - destruct Ha as [Ha Hne]. pose proof (words_val_nonneg wa Ha).
    rewrite (proj2 (Z.compare_gt_iff _ _)); [done|lia].
  - destruct Hb as [Hb Hne]. pose proof (words_val_nonneg wb Hb).
    rewrite (proj2 (Z.compare_lt_iff _ _)); [done|lia].
Qed.

(** ** Cardinality *)
Lemma words_val_low w ws i : u64 w -> 0 <= i < 64 ->
  Z.testbit (words_val (w :: ws)) i = Z.testbit w i.
Proof. intros Hw Hi. rewrite words_val_cons_testbit by (done || lia). by destruct (Z.ltb_spec i 64); [|lia]. Qed.

Lemma words_val_shiftr w ws : u64 w -> Z.shiftr (words_val (w :: ws)) 64 = words_val ws.
Proof.
  intros Hw. apply Z.bits_inj'. intros i Hi.
  rewrite Z.shiftr_spec, words_val_cons_testbit by (done || lia).
  destruct (Z.ltb_spec (i + 64) 64); [lia|]. f_equal. lia.
Qed.

Lemma popcount_words_spec ws r : words_ok ws ->
  popcount_words ws r = r + bitcount (64 * length ws) (words_val ws).
Proof.
  intros H. revert r. induction H as [|w ws Hw Hws IH]; intros r; cbn [popcount_words].
  { change (64 * length (@nil Z))%nat with 0%nat. cbn [bitcount]. lia. }
  rewrite IH. cbn [length]. replace (64 * S (length ws))%nat with (64 + 64 * length ws)%nat by lia.
  rewrite bitcount_app. change (Z.of_nat 64) with 64. rewrite words_val_shiftr by done.
  rewrite (bitcount_ext 64 (words_val (w :: ws)) w) by (intros; by apply words_val_low).
  destruct (Z.eqb_spec w 0) as [->|Hne]; cbn [negb].
  - rewrite bitcount_0. lia.
  - rewrite pg_popcount64_bitcount by done. lia.
Qed.

(** The members in increasing order, read off the denotation. *)
Definition bms_members (a : bitmapset) : list Z :=
  match a with
  | None => []
  | Some ws => filter (fun x => Z.testbit (words_val ws) x = true) (seqZ 0 (64 * nwords ws))
  end.

Lemma bitcount_filter n z :
  bitcount n z = Z.of_nat (length (filter (fun x => Z.testbit z x = true) (seqZ 0 (Z.of_nat n)))).
Proof.
  induction n as [|n IH]; [done|].
  replace (S n) with (n + 1)%nat at 1 by lia. rewrite bitcount_app, IH.
  rewrite Nat2Z.inj_succ, <- Z.add_1_r, seqZ_app by lia.
  rewrite filter_app, length_app, Nat2Z.inj_add. f_equal.
  cbn [bitcount]. rewrite Z.shiftr_spec, Z.add_0_r, !Z.add_0_l by lia.
  assert (seqZ (Z.of_nat n) 1 = [Z.of_nat n]) as ->.
  { rewrite seqZ_cons by lia. f_equal. }
  rewrite filter_cons. destruct (Z.testbit z (Z.of_nat n)) eqn:E; case_decide; done.
Qed.

Lemma bms_num_members_spec a : bms_wf a -> bms_num_members a = Z.of_nat (length (bms_members a)).
Proof.
  intros Ha. destruct a as [ws|]; [|done]. destruct Ha as [Hok _].
  cbn [bms_num_members bms_members]. rewrite popcount_words_spec, bitcount_filter by done.
  rewrite Z.add_0_l. unfold nwords. repeat f_equal. lia.
Qed.

Lemma elem_of_bms_members a x : bms_wf a -> x ∈ bms_members a <-> 0 <= x /\ bms_mem a x = true.
Proof.
  intros Ha. unfold bms_mem. destruct a as [ws|]; cbn [bms_members bms_val].
  - destruct Ha as [Hok _]. rewrite list_elem_of_filter, elem_of_seqZ. split; [tauto|].
    intros [Hx Hm]. split; [done|]. split; [lia|].
    destruct (Z_lt_ge_dec x (64 * nwords ws)) as [|Hge]; [lia|].
    rewrite words_val_beyond in Hm; [done|done|done|]. apply Z.div_le_lower_bound; lia.
  - rewrite elem_of_nil, Z.bits_0. split; [done|]. by intros [_ ?].
Qed.

(** Rank of [x]: number of members below it. *)
Lemma bms_member_index_spec a x : bms_wf a -> 0 <= x ->
  bms_member_index a x =
  Ok (if bms_mem a x then bitcount (Z.to_nat x) (bms_val a) else -1).
Proof.
  intros Ha Hx. unfold bms_member_index. rewrite bms_is_member_spec by done. cbn [mbind result_bind].
  destruct a as [ws|]; [|by unfold bms_mem; rewrite Z.bits_0].
  destruct (bms_mem (Some ws) x) eqn:Hm; [|done]. destruct Ha as [Hok _]. cbn [bms_val].
  rewrite wordnum_div, bitnum_mod by done. destruct (word_bit_range x Hx) as [Hw Hb].
  assert (Hlt : x / 64 < nwords ws).
  { destruct (Z_lt_ge_dec (x / 64) (nwords ws)); [done|].
    unfold bms_mem in Hm. cbn [bms_val] in Hm. rewrite words_val_beyond in Hm by (done || lia). done. }
  unfold nwords in Hlt. set (k := Z.to_nat (x / 64)). set (b := Z.to_nat (x mod 64)).
  assert (Hk : (k < length ws)%nat) by lia.
  replace (Z.to_nat x) with (64 * k + b)%nat by (pose proof (Z.div_mod x 64); lia).
  rewrite popcount_words_spec, length_take_le by (auto with pg; lia).
  rewrite bitcount_app, Z.add_0_l. f_equal. f_equal.
  - apply bitcount_ext. intros i Hi. rewrite !words_val_testbit by (auto with pg; lia).
    unfold word_at. rewrite !nth_lookup, lookup_take_lt; [done|].
    assert (i / 64 < Z.of_nat k) by (apply Z.div_lt_upper_bound; lia).
    assert (0 <= i / 64) by (apply Z.div_pos; lia). lia.
  - rewrite pg_popcount64_bitcount by auto with pg.
    replace (bitcount 64) with (bitcount (b + (64 - b))) by (f_equal; lia). rewrite bitcount_app.
    assert (Hmask : forall i, 0 <= i -> Z.testbit (wrap64 (bit_mask (x mod 64) - 1)) i = (i <? x mod 64)).
    { intros i Hi. rewrite bit_mask_pow2 by done. unfold wrap64.
      pose proof (Z.pow_lt_mono_r 2 (x mod 64) 64).
      rewrite Z.mod_small by (pose proof (Z.pow_pos_nonneg 2 (x mod 64)); lia).
      rewrite Z.sub_1_r, <- Z.ones_equiv. destruct (Z.ltb_spec i (x mod 64)).
      - apply Z.ones_spec_low; lia.
      - apply Z.ones_spec_high; lia. }
    rewrite (bitcount_ext (64 - b) (Z.shiftr _ _) 0), bitcount_0, Z.add_0_r.
    + apply bitcount_ext. intros i Hi. rewrite Z.land_spec, Hmask, Z.shiftr_spec by lia.
      destruct (Z.ltb_spec i (x mod 64)); [|lia]. rewrite andb_true_r, words_val_testbit by (done || lia).
      replace (i + Z.of_nat (64 * k)) with (i + x / 64 * 64) by lia.
      by rewrite Z.div_add, Z.mod_add, (Z.div_small i), (Z.mod_small i) by lia.
    + intros i Hi. rewrite Z.shiftr_spec, Z.land_spec, Hmask, Z.bits_0 by lia.
      destruct (Z.ltb_spec (i + Z.of_nat b) (x mod 64)); [lia|]. apply andb_false_r.
Qed.
