(* ===== verification/BitmapsetIter.v ===== *)
(** * Bitmap sets: iteration, singletons, ranges, hashing

    The routines of [bitmapset.c] whose results depend on the order of the members:
    [bms_next_member] and [bms_prev_member] and the loops written with them,
    [bms_singleton_member] and its variants, [bms_add_range], [bms_hash_value]. *)
From S2P Require Import Prelude BitUtils Bitmapset BitmapsetSpec.
#[local] Open Scope Z_scope.

(** ** Masks *)
Lemma not64_0_testbit i : 0 <= i -> Z.testbit (not64 0) i = (i <? 64).
Proof. intros. rewrite not64_testbit by done. by rewrite Z.bits_0. Qed.

Lemma upmask_testbit w b i : u64 w -> 0 <= b < 64 -> 0 <= i ->
  Z.testbit (Z.land w (shl64 (not64 0) b)) i = Z.testbit w i && (b <=? i).
Proof.
  intros Hw Hb Hi. rewrite Z.land_spec, shl64_testbit by lia.
  destruct (Z.leb_spec b i); rewrite ?andb_false_r; [|done].
  rewrite not64_0_testbit by lia.
  destruct (Z.ltb_spec i 64), (Z.ltb_spec (i - b) 64); try lia; try done.
  all: by rewrite u64_testbit_high.
Qed.

Lemma shl64_not64_0 : shl64 (not64 0) 0 = not64 0.
Proof. done. Qed.

Lemma downmask_testbit s i : 0 <= s -> 0 <= i ->
  Z.testbit (Z.shiftr (not64 0) s) i = (i + s <? 64).
Proof. intros. rewrite Z.shiftr_spec by lia. apply not64_0_testbit. lia. Qed.

Lemma u64_not64_0 : u64 (not64 0).
Proof. apply u64_not64, u64_0. Qed.
Lemma u64_shiftr w s : u64 w -> 0 <= s -> u64 (Z.shiftr w s).
Proof.
  intros Hw Hs. apply u64_bits; [apply Z.shiftr_nonneg, Hw|].
  intros i Hi. rewrite Z.shiftr_spec by lia. apply u64_testbit_high; [done|lia].
Qed.
#[export] Hint Resolve u64_not64_0 u64_shiftr : pg.

Lemma u64_pos w : u64 w -> w <> 0 -> 0 < w.
Proof. unfold u64. lia. Qed.

(** ** [bms_next_member] *)
Lemma zero_bits z : z = 0 -> forall i, Z.testbit z i = false.
Proof. intros -> i. apply Z.bits_0. Qed.

Lemma next_member_loop_spec ws wn b : words_ok ws -> 0 <= b < 64 ->
  let r := next_member_loop ws wn (shl64 (not64 0) b) in
  (r = -2 /\ forall i, b <= i -> Z.testbit (words_val ws) i = false) \/
  (exists k, b <= k /\ r = wn * 64 + k /\ Z.testbit (words_val ws) k = true /\
     forall i, b <= i < k -> Z.testbit (words_val ws) i = false).
Proof.
  intros Hok. revert wn b. induction Hok as [|w ws Hw Hws IH]; intros wn b Hb; cbn [next_member_loop].
  { left. split; [done|]. intros. apply Z.bits_0. }
  destruct (Z.eqb_spec (Z.land w (shl64 (not64 0) b)) 0) as [E|E]; cbn [negb].
  - assert (Hlow : forall i, b <= i < 64 -> Z.testbit (words_val (w :: ws)) i = false).
    { intros i Hi. rewrite words_val_low by (done || lia).
      pose proof (zero_bits _ E i) as Hz. rewrite upmask_testbit in Hz by (done || lia).
      destruct (Z.leb_spec b i); [|lia]. by rewrite andb_true_r in Hz. }
    rewrite <- shl64_not64_0. destruct (IH (wn + 1) 0) as [[-> Hall]|(k & Hk & -> & Ht & Hbelow)]; [lia| |].
    + left. split; [done|]. intros i Hi. destruct (Z_lt_ge_dec i 64); [apply Hlow; lia|].
      rewrite words_val_cons_testbit by (done || lia).
      destruct (Z.ltb_spec i 64); [lia|]. apply Hall. lia.
    + right. exists (64 + k). split; [lia|]. split; [lia|]. split.
      * rewrite words_val_cons_testbit by (done || lia).
        destruct (Z.ltb_spec (64 + k) 64); [lia|]. by replace (64 + k - 64) with k by lia.
      * intros i Hi. destruct (Z_lt_ge_dec i 64); [apply Hlow; lia|].
        rewrite words_val_cons_testbit by (done || lia).
        destruct (Z.ltb_spec i 64); [lia|]. apply Hbelow. lia.
  - set (w' := Z.land w (shl64 (not64 0) b)) in *. right. exists (pg_rightmost_one_pos64 w').
    assert (Hu : u64 w') by (unfold w'; auto with pg).
    destruct (pg_rightmost_one_pos64_lowest w' (u64_pos _ Hu E) Hu) as (H0 & H1 & H2).
    set (k := pg_rightmost_one_pos64 w') in *.
    assert (Hk : k < 64).
    { destruct (Z_lt_ge_dec k 64); [done|]. rewrite u64_testbit_high in H1 by (done || lia). done. }
    unfold w' in H1, H2. rewrite upmask_testbit in H1 by (done || lia).
    apply andb_true_iff in H1 as [H1 Hbk]. apply Z.leb_le in Hbk.
    split; [done|]. split; [done|]. split; [by rewrite words_val_low by (done || lia)|].
    intros i Hi. rewrite words_val_low by (done || lia).
    specialize (H2 i ltac:(lia)). rewrite upmask_testbit in H2 by (done || lia).
    destruct (Z.leb_spec b i); [|lia]. by rewrite andb_true_r in H2.
Qed.

Lemma words_val_drop_testbit ws n i : words_ok ws -> 0 <= i ->
  Z.testbit (words_val (drop n ws)) i = Z.testbit (words_val ws) (64 * Z.of_nat n + i).
Proof.
  intros Hok Hi. rewrite !words_val_testbit by (auto with pg; lia).
  replace (64 * Z.of_nat n + i) with (i + Z.of_nat n * 64) by lia.
  rewrite Z.div_add, Z.mod_add by lia. f_equal. unfold word_at.
  rewrite !nth_lookup, lookup_drop. do 2 f_equal. pose proof (Z.div_pos i 64). lia.
Qed.

(** [r] is the least member above [prev], or [-2] when there is none. *)
Definition next_of (a : bitmapset) (prev r : Z) : Prop :=
  (r = -2 /\ forall x, prev < x -> bms_mem a x = false) \/
  (prev < r /\ bms_mem a r = true /\ forall x, prev < x < r -> bms_mem a x = false).

Lemma next_member_next_of a prev : bms_wf a -> -1 <= prev ->
  next_of a prev (next_member a prev).
Proof.
  intros Ha Hp. unfold next_of, bms_mem. destruct a as [ws|]; cbn [next_member bms_val].
  2: { left. split; [done|]. intros. apply Z.bits_0. }
  destruct Ha as [Hok _]. rewrite wordnum_div, bitnum_mod by lia.
  destruct (word_bit_range (prev + 1)) as [Hq Hb]; [lia|].
  set (q := (prev + 1) / 64) in *. set (b := (prev + 1) mod 64) in *.
  assert (Hqb : prev + 1 = 64 * q + b) by (apply Z.div_mod; lia).
  assert (Hshift : forall i, b <= i ->
    Z.testbit (words_val (drop (Z.to_nat q) ws)) i = Z.testbit (words_val ws) (64 * q + i)).
  { intros i Hi. rewrite words_val_drop_testbit by (done || lia). f_equal. lia. }
  destruct (next_member_loop_spec (drop (Z.to_nat q) ws) q b) as [[-> Hall]|(k & Hk & -> & Ht & Hbelow)];
    [auto with pg|done| |].
  - left. split; [done|]. intros x Hx. replace x with (64 * q + (x - 64 * q)) by lia.
    rewrite <- Hshift by lia. apply Hall. lia.
  - right. replace (q * 64 + k) with (64 * q + k) by lia.
    split; [lia|]. split; [by rewrite <- Hshift by lia|]. intros x Hx.
    replace x with (64 * q + (x - 64 * q)) by lia. rewrite <- Hshift by lia. apply Hbelow. lia.
Qed.

(** ** [bms_prev_member] *)
Lemma words_val_at ws wn j : words_ok ws -> 0 <= wn -> 0 <= j < 64 ->
  Z.testbit (words_val ws) (wn * 64 + j) = Z.testbit (word_at ws wn) j.
Proof.
  intros Hok Hwn Hj. rewrite words_val_testbit by (done || lia).
  by rewrite (Z.add_comm (wn * 64)), Z.div_add, Z.mod_add, Z.div_small, Z.mod_small by lia.
Qed.

(** One step of the downward scan: bits [0..b] of word [wn]. *)
Lemma top_word_spec ws wn b (w := Z.land (word_at ws wn) (Z.shiftr (not64 0) (64 - (b + 1)))) :
  words_ok ws -> 0 <= wn -> 0 <= b < 64 ->
  (w = 0 -> forall i, wn * 64 <= i <= wn * 64 + b -> Z.testbit (words_val ws) i = false) /\
  (w <> 0 -> let r := wn * 64 + pg_leftmost_one_pos64 w in
     wn * 64 <= r <= wn * 64 + b /\ Z.testbit (words_val ws) r = true /\
     forall i, r < i <= wn * 64 + b -> Z.testbit (words_val ws) i = false).
Proof.
  intros Hok Hwn Hb.
  assert (Hu : u64 w) by (unfold w; auto with pg lia).
  assert (Hbit : forall j, 0 <= j -> Z.testbit w j = Z.testbit (word_at ws wn) j && (j <=? b)).
  { intros j Hj. unfold w. rewrite Z.land_spec, downmask_testbit by lia. f_equal.
    destruct (Z.ltb_spec (j + (64 - (b + 1))) 64), (Z.leb_spec j b); lia || done. }
  assert (Hval : forall i, wn * 64 <= i <= wn * 64 + b ->
     Z.testbit (words_val ws) i = Z.testbit w (i - wn * 64)).
  { intros i Hi. rewrite Hbit by lia. destruct (Z.leb_spec (i - wn * 64) b); [|lia].
    rewrite andb_true_r, <- words_val_at by (done || lia). f_equal. lia. }
  split; [intros E i Hi; rewrite Hval by done; by apply zero_bits|].
  intros E. pose proof (u64_pos _ Hu E) as Hpos. rewrite pg_leftmost_one_pos64_log2 by done.
  pose proof (Z.log2_nonneg w). pose proof (Z.bit_log2 w Hpos) as Htop. cbv zeta.
  assert (Hlb : Z.log2 w <= b).
  { rewrite Hbit in Htop by done. apply andb_true_iff in Htop as [_ Hle]. by apply Z.leb_le. }
  split; [lia|]. split.
  - rewrite Hval by lia. by replace (wn * 64 + Z.log2 w - wn * 64) with (Z.log2 w) by lia.
  - intros i Hi. rewrite Hval by lia. apply Z.bits_above_log2; lia.
Qed.

Lemma prev_member_loop_S wn ws mask :
  prev_member_loop (S wn) ws mask =
  if negb (Z.land (nth wn ws 0) mask =? 0)
  then Z.of_nat wn * BITS_PER_BITMAPWORD + pg_leftmost_one_pos64 (Z.land (nth wn ws 0) mask)
  else prev_member_loop wn ws (not64 0).
Proof. done. Qed.

Lemma prev_member_loop_spec ws n b : words_ok ws -> 0 <= b < 64 ->
  let r := prev_member_loop (S n) ws (Z.shiftr (not64 0) (64 - (b + 1))) in
  let top := Z.of_nat n * 64 + b in
  (r = -2 /\ forall i, 0 <= i <= top -> Z.testbit (words_val ws) i = false) \/
  (0 <= r <= top /\ Z.testbit (words_val ws) r = true /\
     forall i, r < i <= top -> Z.testbit (words_val ws) i = false).
Proof.
  intros Hok. revert b. induction n as [|n IH]; intros b Hb.
  - cbn [prev_member_loop]. destruct (top_word_spec ws 0 b) as [Hz Hnz]; [done|lia|done|].
    unfold word_at in Hz, Hnz. change (Z.to_nat 0) with 0%nat in *.
    destruct (Z.eqb_spec (Z.land (nth 0 ws 0) (Z.shiftr (not64 0) (64 - (b + 1)))) 0) as [E|E]; cbn [negb].
    + left. split; [done|]. intros i Hi. apply Hz; [done|lia].
    + right. apply (Hnz E).
  - rewrite prev_member_loop_S.
    destruct (top_word_spec ws (Z.of_nat (S n)) b) as [Hz Hnz]; [done|lia|done|].
    unfold word_at in Hz, Hnz. rewrite Nat2Z.id in Hz, Hnz.
    destruct (Z.eqb_spec (Z.land (nth (S n) ws 0) (Z.shiftr (not64 0) (64 - (b + 1)))) 0) as [E|E]; cbn [negb].
    + specialize (IH 63 ltac:(lia)). change (Z.shiftr (not64 0) (64 - (63 + 1))) with (not64 0) in IH.
      generalize dependent (prev_member_loop (S n) ws (not64 0)). intros r.
      intros [[Hr Hall]|(Hr & Ht & Habove)].
      * left. split; [done|]. intros i Hi.
        destruct (Z_le_gt_dec i (Z.of_nat n * 64 + 63)); [apply Hall|apply Hz]; done || lia.
      * right. split; [lia|]. split; [done|]. intros i Hi.
        destruct (Z_le_gt_dec i (Z.of_nat n * 64 + 63)); [apply Habove|apply Hz]; done || lia.
    + right. destruct (Hnz E) as (H1 & H2 & H3).
      split; [unfold BITS_PER_BITMAPWORD; lia|]. done.
Qed.

(** [r] is the greatest member below [bound], or [-2] when there is none. *)
Definition prev_of (a : bitmapset) (bound r : Z) : Prop :=
  (r = -2 /\ forall x, 0 <= x < bound -> bms_mem a x = false) \/
  (0 <= r < bound /\ bms_mem a r = true /\ forall x, r < x < bound -> bms_mem a x = false).

(** One above the highest bit the words of a set can hold. *)
Definition bms_capacity (a : bitmapset) : Z :=
  match a with None => 0 | Some ws => 64 * nwords ws end.

Lemma bms_mem_capacity a x : bms_wf a -> bms_capacity a <= x -> bms_mem a x = false.
Proof.
  unfold bms_mem. destruct a as [ws|]; cbn [bms_val bms_capacity]; intros Ha Hx; [|apply Z.bits_0].
  destruct Ha as [Hok _]. assert (0 <= nwords ws) by (unfold nwords; lia).
  apply words_val_beyond; [done|lia|]. apply Z.div_le_lower_bound; lia.
Qed.

Lemma bms_prev_member_prev_of a prev : bms_wf a -> bms_capacity a <= 2 ^ 31 -> -1 <= prev <= bms_capacity a ->
  exists r, bms_prev_member a prev = Ok r /\ prev_of a (if prev =? -1 then bms_capacity a else prev) r.
Proof.
  intros Ha Hcap Hp. unfold prev_of, bms_mem. destruct a as [ws|]; cbn [bms_prev_member bms_val].
  2: { exists (-2). split; [done|]. left. split; [done|]. intros. apply Z.bits_0. }
  destruct Ha as [Hok Hne]. cbn [bms_capacity] in *.
  assert (0 < nwords ws) by (destruct ws; [done|unfold nwords; simpl; lia]).
  destruct (Z.eqb_spec prev 0) as [->|Hne0]; [exists (-2); split; [done|]; left; split; [done|]; intros x Hx; simpl in Hx; lia|].
  set (p := if prev =? -1 then nwords ws * BITS_PER_BITMAPWORD - 1 else prev - 1).
  assert (Hbound : (if prev =? -1 then 64 * nwords ws else prev) = p + 1 /\ 0 <= p < 64 * nwords ws).
  { subst p. unfold BITS_PER_BITMAPWORD. destruct (Z.eqb_spec prev (-1)); lia. }
  destruct Hbound as [-> Hp0]. rewrite to_int32_id, wordnum_div, bitnum_mod by lia.
  destruct (word_bit_range p) as [Hq Hb]; [lia|]. pose proof (Z.div_mod p 64 ltac:(lia)).
  destruct (Z.leb_spec (nwords ws) (p / 64)); [lia|].
  replace (Z.to_nat (p / 64 + 1)) with (S (Z.to_nat (p / 64))) by lia.
  unfold BITS_PER_BITMAPWORD. eexists. split; [done|].
  destruct (prev_member_loop_spec ws (Z.to_nat (p / 64)) (p mod 64)) as [[-> Hall]|(Hr & Ht & Hab)];
    [done|done| |].
  - left. split; [done|]. intros x Hx. apply Hall. lia.
  - rewrite to_int32_id by lia. right. split; [lia|]. split; [done|]. intros x Hx. apply Hab. lia.
Qed.

(** ** [bms_next_member] below [INT_MAX] *)
Lemma bms_next_member_ok a prev : bms_wf a -> bms_capacity a <= 2 ^ 31 -> -1 <= prev < INT_MAX ->
  bms_next_member a prev = Ok (next_member a prev).
Proof.
  intros Ha Hcap Hp. pose proof (next_member_next_of a prev Ha ltac:(lia)) as Hn. unfold INT_MAX in Hp.
  assert (to_int32 (next_member a prev) = next_member a prev) as Hw.
  { destruct Hn as [[-> _]|(Hlt & Hm & _)]; [done|]. apply to_int32_id. split; [lia|].
    destruct (Z_lt_ge_dec (next_member a prev) (bms_capacity a)); [lia|]. rewrite bms_mem_capacity in Hm by (done || lia). done. }
  destruct a as [ws|]; [|done]. cbn [bms_next_member]. rewrite to_int32_id by lia.
  destruct (Z.ltb_spec (WORDNUM (prev + 1)) 0) as [H|_]; [|f_equal; exact Hw].
  unfold WORDNUM, BITS_PER_BITMAPWORD in H. rewrite Z.quot_div_nonneg in H by lia. pose proof (Z.div_pos (prev + 1) 64). lia.
Qed.
(** A set may contain [INT_MAX]; asking for the member after it goes wrong. *)
Lemma bms_next_member_overflows ws : bms_next_member (Some ws) INT_MAX = Error bounds_msg.
Proof. reflexivity. Qed.

(** ** The loop [x = -1; while ((x = bms_next_member(a, x)) >= 0) ...] *)
Fixpoint bms_iterate (fuel : nat) (a : bitmapset) (x : Z) : result (list Z) :=
  match fuel with
  | O => NoFuel
  | S f =>
      y ← bms_next_member a x;
      if y >=? 0 then l ← bms_iterate f a y; Ok (y :: l) else Ok []
  end.

(** The loop [x = -1; while ((x = bms_prev_member(a, x)) >= 0) ...] *)
Fixpoint bms_iterate_back (fuel : nat) (a : bitmapset) (x : Z) : result (list Z) :=
  match fuel with
  | O => NoFuel
  | S f =>
      y ← bms_prev_member a x;
      if y >=? 0 then l ← bms_iterate_back f a y; Ok (y :: l) else Ok []
  end.

(** Members from [lo] (included) to [hi] (excluded), increasing. *)
Definition members_between (a : bitmapset) (lo hi : Z) : list Z :=
  filter (fun x => bms_mem a x = true) (seqZ lo (hi - lo)).

Lemma members_between_split a lo mid hi : lo <= mid <= hi ->
  members_between a lo hi = members_between a lo mid ++ members_between a mid hi.
Proof.
  intros H. unfold members_between. rewrite <- filter_app. f_equal.
  replace (hi - lo) with ((mid - lo) + (hi - mid)) by lia. rewrite seqZ_app by lia.
  by replace (lo + (mid - lo)) with mid by lia.
Qed.

Lemma members_between_none a lo hi : (forall x, lo <= x < hi -> bms_mem a x = false) ->
  members_between a lo hi = [].
Proof.
  intros H. apply filter_none. intros x Hx%elem_of_seqZ E. rewrite H in E by lia. done.
Qed.

Lemma members_between_one a x : bms_mem a x = true -> members_between a x (x + 1) = [x].
Proof.
  intros H. unfold members_between. replace (x + 1 - x) with 1 by lia.
  rewrite seqZ_cons by lia. rewrite filter_cons_True by done. done.
Qed.

Lemma bms_members_between a : bms_members a = members_between a 0 (bms_capacity a).
Proof.
  destruct a as [ws|]; [|done]. unfold members_between, bms_mem. cbn. by rewrite Z.sub_0_r.
Qed.

Lemma bms_iterate_spec fuel a x : bms_wf a -> bms_capacity a <= 2 ^ 31 -> bms_mem a INT_MAX = false -> -1 <= x < INT_MAX ->
  bms_capacity a - x <= Z.of_nat fuel -> (0 < fuel)%nat ->
  bms_iterate fuel a x = Ok (members_between a (x + 1) (bms_capacity a)).
Proof.
  intros Ha Hcap Hmax. revert x. induction fuel as [|f IH]; intros x Hx Hf Hpos; [lia|]. cbn [bms_iterate].
  rewrite bms_next_member_ok by done. cbn [mbind result_bind].
  destruct (next_member_next_of a x Ha (proj1 Hx)) as [[-> Hall]|(Hlt & Hm & Hbelow)].
  - rewrite members_between_none; [done|]. intros. apply Hall. lia.
  - set (y := next_member a x) in *. rewrite Z.geb_leb.
    destruct (Z.leb_spec 0 y); [|lia].
    assert (y < bms_capacity a).
    { destruct (Z_lt_ge_dec y (bms_capacity a)); [done|].
      rewrite bms_mem_capacity in Hm by (done || lia). done. }
    assert (y <> INT_MAX) by (intros E; rewrite E in Hm; congruence).
    rewrite IH by (unfold INT_MAX in *; lia). cbn [mbind result_bind]. f_equal.
    rewrite (members_between_split a (x + 1) y (bms_capacity a)) by lia.
    rewrite (members_between_split a y (y + 1) (bms_capacity a)) by lia.
    rewrite (members_between_none a (x + 1)) by (intros; apply Hbelow; lia).
    by rewrite members_between_one by done.
Qed.

Lemma bms_iterate_back_spec fuel a x : bms_wf a -> bms_capacity a <= 2 ^ 31 -> -1 <= x <= bms_capacity a -> 
  let bound := if x =? -1 then bms_capacity a else x in
  bound < Z.of_nat fuel ->
  bms_iterate_back fuel a x = Ok (reverse (members_between a 0 bound)).
Proof.
  intros Ha Hcap. revert x. induction fuel as [|f IH]; intros x Hx bound Hf.
  { subst bound. destruct a; unfold bms_capacity, nwords in *; destruct (Z.eqb_spec x (-1)); lia. }
  cbn [bms_iterate_back].
  destruct (bms_prev_member_prev_of a x Ha Hcap Hx) as (y & -> & Hprev). fold bound in Hprev. cbn [mbind result_bind].
  destruct Hprev as [[-> Hall]|(Hr & Hm & Habove)].
  - rewrite members_between_none; [done|]. intros. apply Hall. lia.
  - rewrite Z.geb_leb. destruct (Z.leb_spec 0 y); [|lia].
    assert (bound <= bms_capacity a) by (subst bound; destruct (x =? -1); lia).
    rewrite IH; [|lia|destruct (Z.eqb_spec y (-1)); lia]. cbn [mbind result_bind]. f_equal.
    destruct (Z.eqb_spec y (-1)); [lia|].
    rewrite (members_between_split a 0 y bound) by lia.
    rewrite (members_between_split a y (y + 1) bound) by lia.
    rewrite members_between_one by done.
    rewrite (members_between_none a (y + 1)) by (intros; apply Habove; lia).
    by rewrite app_nil_r, reverse_app.
Qed.

(** ** Singletons *)
Lemma lowest_bit_pred_testbit w k i : 0 <= w -> lowest_bit w k -> 0 <= i ->
  Z.testbit (w - 1) i = if i <? k then true else if i =? k then false else Z.testbit w i.
Proof.
  intros Hw (H0 & H1 & H2) Hi. set (m := Z.shiftr w (k + 1)).
  assert (Hdec : w = 2 ^ k + Z.shiftl m (k + 1)).
  { rewrite Z.add_nocarry_lor.
    - apply Z.bits_inj'. intros j Hj. rewrite Z.lor_spec, Z.shiftl_spec, Z.pow2_bits_eqb by lia.
      destruct (Z.eqb_spec k j) as [<-|]; [by rewrite H1|]. simpl.
      destruct (Z_lt_ge_dec j (k + 1)).
      + rewrite H2, Z.testbit_neg_r by lia. done.
      + unfold m. rewrite Z.shiftr_spec by lia. f_equal. lia.
    - apply Z.bits_inj'. intros j Hj. rewrite Z.land_spec, Z.shiftl_spec, Z.pow2_bits_eqb, Z.bits_0 by lia.
      destruct (Z.eqb_spec k j) as [<-|]; [|done]. apply Z.testbit_neg_r. lia. }
  assert (Hpred : w - 1 = Z.lor (Z.ones k) (Z.shiftl m (k + 1))).
  { rewrite <- Z.add_nocarry_lor; [rewrite Z.ones_equiv; lia|].
    apply Z.bits_inj'. intros j Hj. rewrite Z.land_spec, Z.shiftl_spec, Z.bits_0 by lia.
    destruct (Z_lt_ge_dec j k).
    - rewrite (Z.testbit_neg_r m) by lia. apply andb_false_r.
    - by rewrite Z.ones_spec_high by lia. }
  rewrite Hpred, Z.lor_spec, Z.shiftl_spec by lia.
  destruct (Z.ltb_spec i k); [by rewrite Z.ones_spec_low by lia|].
  rewrite Z.ones_spec_high by lia. simpl. destruct (Z.eqb_spec i k) as [->|].
  - apply Z.testbit_neg_r. lia.
  - unfold m. rewrite Z.shiftr_spec by lia. f_equal. lia.
Qed.

Lemma lowest_bit_pow2 k : 0 <= k -> lowest_bit (2 ^ k) k.
Proof.
  intros Hk. split; [done|]. split; [by apply Z.pow2_bits_true|].
  intros i Hi. apply Z.pow2_bits_false. lia.
Qed.

Lemma has_multiple_ones_spec w : u64 w -> w <> 0 ->
  HAS_MULTIPLE_ONES w = negb (w =? 2 ^ pg_rightmost_one_pos64 w).
Proof.
  intros Hu Hne. pose proof (u64_pos _ Hu Hne) as Hpos.
  pose proof (pg_rightmost_one_pos64_lowest w Hpos Hu) as Hlow.
  set (k := pg_rightmost_one_pos64 w) in *. destruct Hlow as (H0 & H1 & H2).
  assert (Hk : k < 64).
  { destruct (Z_lt_ge_dec k 64); [done|]. rewrite u64_testbit_high in H1 by (done || lia). done. }
  assert (HR : RIGHTMOST_ONE w = 2 ^ k).
  { apply Z.bits_inj'. intros i Hi. unfold RIGHTMOST_ONE, wrap64. rewrite Z.land_spec, Z.pow2_bits_eqb by lia.
    destruct (Z_lt_ge_dec i 64).
    - rewrite Z.mod_pow2_bits_low by lia. replace (- w) with (Z.lnot (w - 1)) by (unfold Z.lnot; lia).
      rewrite Z.lnot_spec, (lowest_bit_pred_testbit w k) by (lia || by split).
      destruct (Z.ltb_spec i k).
      + rewrite H2 by lia. destruct (Z.eqb_spec k i); lia || done.
      + rewrite (Z.eqb_sym k i). destruct (Z.eqb_spec i k) as [->|]; [by rewrite H1|apply andb_negb_r].
    - rewrite u64_testbit_high by (done || lia). destruct (Z.eqb_spec k i); lia || done. }
  unfold HAS_MULTIPLE_ONES. rewrite HR. f_equal. apply Z.eqb_sym.
Qed.

Lemma rightmost_one_pow2 k : 0 <= k < 64 -> pg_rightmost_one_pos64 (2 ^ k) = k.
Proof.
  intros Hk. pose proof (Z.pow_pos_nonneg 2 k). pose proof (Z.pow_lt_mono_r 2 k 64).
  apply (lowest_bit_unique (2 ^ k)); [|apply lowest_bit_pow2; lia].
  apply pg_rightmost_one_pos64_lowest; unfold u64; lia.
Qed.

(** [v] is a power of two. *)
Definition pow2 (v : Z) : Prop := exists k, 0 <= k /\ v = 2 ^ k.

Lemma pow2_low_word w v k : u64 w -> 0 <= v -> 0 <= k -> w + 2 ^ 64 * v = 2 ^ k ->
  (k < 64 /\ w = 2 ^ k /\ v = 0) \/ (64 <= k /\ w = 0 /\ v = 2 ^ (k - 64)).
Proof.
  intros Hw Hv Hk E. unfold u64 in Hw. destruct (Z_lt_ge_dec k 64) as [Hlt|Hge].
  - left. pose proof (Z.pow_lt_mono_r 2 k 64). assert (v = 0) by nia. subst v. split; [done|]. lia.
  - right. assert (2 ^ k = 2 ^ 64 * 2 ^ (k - 64)) as Hp
      by (rewrite <- Z.pow_add_r by lia; f_equal; lia).
    rewrite Hp in E. assert (w = 0) by nia. subst w. split; [lia|]. split; [done|]. nia.
Qed.

Lemma singleton_loop_second ws wn r : words_ok ws -> 0 <= r ->
  singleton_loop ws wn r = if words_val ws =? 0 then Some r else None.
Proof.
  intros Hok Hr. rewrite <- is_empty_internal_spec by done. revert wn.
  induction ws as [|w ws IH]; intros wn; cbn [singleton_loop bms_is_empty_internal]; [done|].
  inversion_clear Hok. rewrite Z.geb_leb. destruct (Z.leb_spec 0 r); [|lia].
  destruct (w =? 0); cbn [negb orb]; [by apply IH|done].
Qed.

Lemma singleton_loop_first ws wn : words_ok ws -> 0 <= wn ->
  match singleton_loop ws wn (-1) with
  | None => words_val ws <> 0 /\ ~ pow2 (words_val ws)
  | Some r => (r = -1 /\ words_val ws = 0) \/ (64 * wn <= r /\ words_val ws = 2 ^ (r - 64 * wn))
  end.
Proof.
  intros Hok. revert wn. induction Hok as [|w ws Hw Hws IH]; intros wn Hwn; cbn [singleton_loop]; [by left|].
  pose proof (words_val_nonneg ws Hws) as Hv. pose proof (words_val_cons w ws Hw Hws) as EV.
  destruct (Z.eqb_spec w 0) as [->|Hne]; cbn [negb].
  - specialize (IH (wn + 1) ltac:(lia)). destruct (singleton_loop ws (wn + 1) (-1)) as [r|].
    + destruct IH as [[-> E]|[Hr E]]; [left; lia|right].
      split; [lia|]. rewrite EV, E, Z.add_0_l, <- Z.pow_add_r by lia. f_equal. lia.
    + destruct IH as [Hnz Hn2]. split; [lia|]. intros (k & Hk & E). apply Hn2.
      rewrite EV in E. destruct (pow2_low_word 0 _ k Hw Hv Hk E) as [(? & E0 & _)|(? & _ & E1)].
      * pose proof (Z.pow_pos_nonneg 2 k). lia.
      * exists (k - 64). split; [lia|done].
  - cbn [Z.geb Z.compare orb]. rewrite has_multiple_ones_spec by done.
    pose proof (u64_pos _ Hw Hne) as Hpos.
    destruct (pg_rightmost_one_pos64_lowest w Hpos Hw) as (H0 & H1 & _).
    set (p := pg_rightmost_one_pos64 w) in *.
    assert (HN : forall k, 0 <= k -> words_val (w :: ws) = 2 ^ k -> w = 2 ^ p /\ words_val ws = 0).
    { intros k Hk E. rewrite EV in E.
      destruct (pow2_low_word w _ k Hw Hv Hk E) as [(Hlt & Ek & E0)|(_ & E0 & _)]; [|lia].
      split; [|done]. unfold p. by rewrite Ek, rightmost_one_pow2. }
    destruct (Z.eqb_spec w (2 ^ p)) as [Ew|Ew]; cbn [negb].
    + unfold BITS_PER_BITMAPWORD. rewrite singleton_loop_second by (done || lia).
      destruct (Z.eqb_spec (words_val ws) 0) as [E|E].
      * right. split; [lia|]. rewrite EV, E, Z.mul_0_r, Z.add_0_r, Ew at 1. f_equal. lia.
      * split; [lia|]. intros (k & Hk & Ek). by destruct (HN k Hk Ek).
    + split; [lia|]. intros (k & Hk & Ek). by destruct (HN k Hk Ek).
Qed.

Lemma bms_members_singleton a x : bms_wf a -> 0 <= x ->
  bms_val a = 2 ^ x <-> bms_members a = [x].
Proof.
  intros Ha Hx. pose proof (bms_val_nonneg a Ha). split.
  - intros E. assert (Hm : forall i, 0 <= i -> bms_mem a i = (x =? i)).
    { intros i Hi. unfold bms_mem. rewrite E. by apply Z.pow2_bits_eqb. }
    assert (x < bms_capacity a).
    { destruct (Z_lt_ge_dec x (bms_capacity a)); [done|].
      pose proof (bms_mem_capacity a x Ha ltac:(lia)) as Hf. rewrite Hm, Z.eqb_refl in Hf by done. done. }
    rewrite bms_members_between, (members_between_split a 0 x) by lia.
    rewrite (members_between_split a x (x + 1)) by lia.
    rewrite members_between_none, members_between_one, members_between_none; [done|..].
    + intros i Hi. rewrite Hm by lia. apply Z.eqb_neq. lia.
    + rewrite Hm by lia. apply Z.eqb_refl.
    + intros i Hi. rewrite Hm by lia. apply Z.eqb_neq. lia.
  - intros E. apply Z.bits_inj'. intros i Hi. rewrite Z.pow2_bits_eqb by done.
    change (bms_mem a i = (x =? i)). pose proof (elem_of_bms_members a i Ha) as Hiff.
    rewrite E, list_elem_of_singleton in Hiff.
    destruct (Z.eqb_spec x i) as [->|Hn]; [by apply Hiff|].
    apply not_true_is_false. intros Hm. apply Hn. symmetry. by apply Hiff.
Qed.

Lemma bms_members_nil a : bms_wf a -> bms_val a = 0 <-> bms_members a = [].
Proof.
  intros Ha. split.
  - intros E. rewrite bms_members_between. apply members_between_none.
    intros x _. unfold bms_mem. by rewrite E, Z.bits_0.
  - intros E. apply Z.bits_inj'. intros i Hi. rewrite Z.bits_0.
    change (bms_mem a i = false). pose proof (elem_of_bms_members a i Ha) as Hiff.
    rewrite E, elem_of_nil in Hiff. apply not_true_is_false. intros Hm. by apply Hiff.
Qed.

(** Outcome of the shared scan in terms of the members. *)
Lemma singleton_loop_members ws : bms_wf (Some ws) ->
  singleton_loop ws 0 (-1) =
  match bms_members (Some ws) with
  | [] => Some (-1)
  | [x] => Some x
  | _ => None
  end.
Proof.
  intros Ha. pose proof (singleton_loop_first ws 0 (proj1 Ha) ltac:(lia)) as H.
  destruct (singleton_loop ws 0 (-1)) as [r|].
  - destruct H as [[-> E]|[Hr E]].
    + apply (bms_members_nil (Some ws) Ha) in E. by rewrite E.
    + replace (r - 64 * 0) with r in E by lia.
      apply (bms_members_singleton (Some ws) r Ha) in E; [|lia]. by rewrite E.
  - destruct H as [Hnz Hn2]. destruct (bms_members (Some ws)) as [|x [|y l]] eqn:E; [| |done].
    + by apply (bms_members_nil (Some ws) Ha) in E.
    + assert (Hx : x ∈ bms_members (Some ws)) by (rewrite E; by left).
      apply (elem_of_bms_members _ _ Ha) in Hx as [Hx _].
      apply (bms_members_singleton (Some ws) x Ha Hx) in E. exfalso. apply Hn2. by exists x.
Qed.

Lemma membership_loop_singleton ws wn res : words_ok ws -> 0 <= wn -> -1 <= res ->
  membership_loop ws (if res <? 0 then BMS_EMPTY_SET else BMS_SINGLETON) =
  match singleton_loop ws wn res with
  | None => BMS_MULTIPLE
  | Some r => if r <? 0 then BMS_EMPTY_SET else BMS_SINGLETON
  end.
Proof.
  intros Hok. revert wn res. induction Hok as [|w ws Hw Hws IH]; intros wn res Hwn Hres; [done|].
  cbn [membership_loop singleton_loop]. destruct (Z.eqb_spec w 0) as [->|Hne]; cbn [negb].
  { apply IH; lia. }
  assert (Hb : negb (bool_decide ((if res <? 0 then BMS_EMPTY_SET else BMS_SINGLETON) = BMS_EMPTY_SET)) = (res >=? 0)).
  { rewrite Z.geb_leb. destruct (Z.ltb_spec res 0), (Z.leb_spec 0 res); lia || done. }
  rewrite Hb. destruct ((res >=? 0) || HAS_MULTIPLE_ONES w); [done|].
  destruct (pg_rightmost_one_pos64_lowest w (u64_pos _ Hw Hne) Hw) as (H0 & _ & _).
  rewrite <- IH; unfold BITS_PER_BITMAPWORD; [|lia..].
  destruct (Z.ltb_spec (wn * 64 + pg_rightmost_one_pos64 w) 0); [lia|done].
Qed.

(** The classification of a set by its members. *)
Lemma bms_membership_spec a : bms_wf a ->
  bms_membership a = match bms_members a with [] => BMS_EMPTY_SET | [_] => BMS_SINGLETON | _ => BMS_MULTIPLE end /\
  bms_singleton_member a =
    match bms_members a with
    | [] => Error "bitmapset is empty"
    | [y] => Ok y
    | _ => Error "bitmapset has multiple members"
    end /\
  (forall m, bms_get_singleton_member a m = match bms_members a with [y] => (true, y) | _ => (false, m) end).
Proof.
  intros Ha. destruct a as [ws|]; [|done].
  unfold bms_membership, bms_singleton_member, bms_get_singleton_member.
  pose proof (membership_loop_singleton ws 0 (-1) (proj1 Ha) ltac:(lia) ltac:(lia)) as Hm.
  change (if -1 <? 0 then BMS_EMPTY_SET else BMS_SINGLETON) with BMS_EMPTY_SET in Hm.
  rewrite Hm, singleton_loop_members by done.
  assert (Hpos : forall y, y ∈ bms_members (Some ws) -> (y <? 0) = false).
  { intros y Hy. apply (elem_of_bms_members _ _ Ha) in Hy. apply Z.ltb_ge. lia. }
  destruct (bms_members (Some ws)) as [|y [|z l]]; [done| |done].
  by rewrite Hpos by (by left).
Qed.

(** ** Ranges *)
Lemma fill_words_spec n ws k : words_ok ws -> 0 <= k -> k + Z.of_nat n <= nwords ws ->
  words_ok (fill_words n ws k) /\ nwords (fill_words n ws k) = nwords ws /\
  forall i, 0 <= i -> Z.testbit (words_val (fill_words n ws k)) i =
    ((k <=? i / 64) && (i / 64 <? k + Z.of_nat n)) || Z.testbit (words_val ws) i.
Proof.
  revert ws k. induction n as [|n IH]; intros ws k Hok Hk Hn; cbn [fill_words].
  { split; [done|]. split; [done|]. intros i Hi.
    destruct (Z.leb_spec k (i / 64)), (Z.ltb_spec (i / 64) (k + Z.of_nat 0)); simpl; lia || done. }
  assert (Hlen : nwords (<[Z.to_nat k := not64 0]> ws) = nwords ws)
    by (unfold nwords; by rewrite length_insert).
  destruct (IH (<[Z.to_nat k := not64 0]> ws) (k + 1)) as (Hok' & Hn' & Hbits); [auto with pg|lia|lia|].
  split; [done|]. split; [by rewrite Hn'|]. intros i Hi. rewrite Hbits by done.
  change (<[Z.to_nat k := not64 0]> ws) with (update_word ws k (fun _ => not64 0)).
  destruct (word_bit_range i Hi). rewrite update_word_testbit by (auto with pg; lia).
  rewrite not64_0_testbit by lia. destruct (Z.ltb_spec (i mod 64) 64); [|lia].
  destruct (Z.leb_spec (k + 1) (i / 64)), (Z.ltb_spec (i / 64) (k + 1 + Z.of_nat n)),
    (Z.eqb_spec (i / 64) k), (Z.leb_spec k (i / 64)), (Z.ltb_spec (i / 64) (k + Z.of_nat (S n)));
    simpl; lia || done.
Qed.

Lemma lmask_testbit b i : 0 <= b < 64 -> 0 <= i < 64 ->
  Z.testbit (not64 (wrap64 (bit_mask b - 1))) i = (b <=? i).
Proof.
  intros Hb Hi. rewrite not64_testbit by lia. rewrite bit_mask_pow2 by done.
  pose proof (Z.pow_pos_nonneg 2 b). pose proof (Z.pow_lt_mono_r 2 b 64).
  unfold wrap64. rewrite Z.mod_small by lia. rewrite Z.sub_1_r, <- Z.ones_equiv.
  destruct (Z.ltb_spec i 64); [|lia]. destruct (Z.leb_spec b i).
  - by rewrite Z.ones_spec_high by lia.
  - by rewrite Z.ones_spec_low by lia.
Qed.

Lemma umask_testbit b i : 0 <= b < 64 -> 0 <= i < 64 ->
  Z.testbit (Z.shiftr (not64 0) (64 - (b + 1))) i = (i <=? b).
Proof.
  intros Hb Hi. rewrite downmask_testbit by lia.
  destruct (Z.ltb_spec (i + (64 - (b + 1))) 64), (Z.leb_spec i b); lia || done.
Qed.

Section Range.
Context (ws : list Z) (lower upper : Z) (Hok : words_ok ws) (Hlu : 0 <= lower <= upper) (Hn : upper / 64 < nwords ws).
Let lm := not64 (wrap64 (bit_mask (lower mod 64) - 1)).
Let um := Z.shiftr (not64 0) (64 - (upper mod 64 + 1)).
Lemma range_masks : u64 lm /\ u64 um /\ lower / 64 <= upper / 64.
Proof.
  destruct (word_bit_range lower), (word_bit_range upper); [lia..|]. split; [unfold lm; auto with pg|]. split; [unfold um; auto with pg lia|]. apply Z.div_le_mono; lia.
Qed.
(** The range lies in one word, *)
Lemma range_one_word : lower / 64 = upper / 64 -> let ws' := update_word ws (lower / 64) (fun w => Z.lor w (Z.land lm um)) in
  words_ok ws' /\ forall i, 0 <= i -> Z.testbit (words_val ws') i = ((lower <=? i) && (i <=? upper)) || Z.testbit (words_val ws) i.
Proof.
  intros E. destruct range_masks as (Hlm & Hum & _). split; [auto with pg|]. intros i Hi. destruct (word_bit_range i Hi), (word_bit_range lower), (word_bit_range upper); [lia..|].
  pose proof (Z.div_mod i 64). pose proof (Z.div_mod lower 64). pose proof (Z.div_mod upper 64). rewrite update_word_testbit by (auto with pg; lia).
  destruct (Z.eqb_spec (i / 64) (lower / 64)) as [Ei|Ei].
  - rewrite Z.lor_spec, Z.land_spec. unfold lm, um. rewrite lmask_testbit, umask_testbit by lia.
    rewrite words_val_testbit, Ei by done. rewrite orb_comm. f_equal.
    destruct (Z.leb_spec (lower mod 64) (i mod 64)), (Z.leb_spec (i mod 64) (upper mod 64)),
      (Z.leb_spec lower i), (Z.leb_spec i upper); simpl; lia || done.
  - destruct (Z.leb_spec lower i), (Z.leb_spec i upper); simpl; try done. exfalso.
    assert (lower / 64 <= i / 64 <= upper / 64) by (split; apply Z.div_le_mono; lia). lia.
Qed.
(** or it has a first word, whole words and a last word. *)
Let ws1 := update_word ws (lower / 64) (fun w => Z.lor w lm).
Let ws2 := fill_words (Z.to_nat (upper / 64 - (lower / 64 + 1))) ws1 (lower / 64 + 1).
Lemma range_first i : 0 <= i -> Z.testbit (words_val ws1) i = ((lower / 64 =? i / 64) && (lower mod 64 <=? i mod 64)) || Z.testbit (words_val ws) i.
Proof.
  intros Hi. destruct range_masks as (Hlm & _ & Hle), (word_bit_range i Hi), (word_bit_range lower); [lia|]. unfold ws1.
  rewrite update_word_testbit by (auto with pg; lia). rewrite (Z.eqb_sym (lower / 64)). destruct (Z.eqb_spec (i / 64) (lower / 64)) as [Ei|Ei]; [|done].
  rewrite Z.lor_spec. unfold lm. rewrite lmask_testbit by lia. simpl. rewrite words_val_testbit, Ei by done. apply orb_comm.
Qed.
Lemma range_many_words : lower / 64 <> upper / 64 -> let ws' := update_word ws2 (upper / 64) (fun w => Z.lor w um) in
  words_ok ws' /\ forall i, 0 <= i -> Z.testbit (words_val ws') i = ((lower <=? i) && (i <=? upper)) || Z.testbit (words_val ws) i.
Proof.
  intros E. destruct range_masks as (Hlm & Hum & Hle). assert (Hok1 : words_ok ws1) by (unfold ws1; auto with pg).
  assert (Hn1 : nwords ws1 = nwords ws) by (unfold ws1, update_word, nwords; by rewrite length_insert). assert (0 <= lower / 64) by (apply Z.div_pos; lia).
  destruct (fill_words_spec (Z.to_nat (upper / 64 - (lower / 64 + 1))) ws1 (lower / 64 + 1)) as (Hok2 & Hn2 & Hb2); [done|lia|lia|]. fold ws2 in Hok2, Hn2, Hb2.
  rewrite Z2Nat.id in Hb2 by lia. replace (lower / 64 + 1 + (upper / 64 - (lower / 64 + 1))) with (upper / 64) in Hb2 by lia.
  split; [auto with pg|]. intros i Hi. destruct (word_bit_range i Hi), (word_bit_range lower), (word_bit_range upper); [lia..|]. pose proof (range_first i Hi) as Hb1.
  pose proof (Z.div_mod i 64). pose proof (Z.div_mod lower 64). pose proof (Z.div_mod upper 64). rewrite update_word_testbit by (auto with pg; lia).
  destruct (Z.eqb_spec (i / 64) (upper / 64)) as [Ei|Ei].
  - rewrite Z.lor_spec. unfold um. rewrite umask_testbit by lia.
    assert (Z.testbit (word_at ws2 (upper / 64)) (i mod 64) = Z.testbit (words_val ws2) i) as -> by (by rewrite words_val_testbit, Ei).
    rewrite Hb2, Hb1 by done. destruct (Z.testbit (words_val ws) i); rewrite ?orb_true_r; [done|].
    destruct (Z.leb_spec (lower / 64 + 1) (i / 64)), (Z.ltb_spec (i / 64) (upper / 64)),
      (Z.eqb_spec (lower / 64) (i / 64)), (Z.leb_spec (i mod 64) (upper mod 64)), (Z.leb_spec lower i), (Z.leb_spec i upper); simpl; lia || done.
  - rewrite Hb2, Hb1 by done. destruct (Z.testbit (words_val ws) i); rewrite ?orb_true_r; [done|]. rewrite !orb_false_r.
    destruct (Z.leb_spec (lower / 64 + 1) (i / 64)), (Z.ltb_spec (i / 64) (upper / 64)),
      (Z.eqb_spec (lower / 64) (i / 64)), (Z.leb_spec (lower mod 64) (i mod 64)), (Z.leb_spec lower i), (Z.leb_spec i upper); simpl; lia || done.
Qed.
Lemma bms_add_range_words : exists ws', bms_add_range (Some ws) lower upper = Ok (Some ws') /\ words_ok ws' /\
  forall i, 0 <= i -> Z.testbit (words_val ws') i = ((lower <=? i) && (i <=? upper)) || Z.testbit (words_val ws) i.
Proof.
  unfold bms_add_range, BITS_PER_BITMAPWORD. destruct (Z.ltb_spec upper lower); [lia|]. destruct (Z.ltb_spec lower 0); [lia|].
  rewrite !wordnum_div, !bitnum_mod by lia. rewrite Z.geb_leb. destruct (Z.leb_spec (nwords ws) (upper / 64)); [lia|].
  destruct (Z.eqb_spec (lower / 64) (upper / 64)) as [E|E]; eexists; (split; [done|]); [by apply range_one_word|by apply range_many_words].
Qed.
End Range.

Lemma bms_add_range_spec a lower upper : bms_wf a -> 0 <= lower <= upper ->
  exists a', bms_add_range a lower upper = Ok a' /\ bms_wf a' /\
    bms_val a' = Z.lor (bms_val a) (Z.shiftl (Z.ones (upper - lower + 1)) lower).
Proof.
  intros Ha Hlu.
  assert (Hws : exists ws, words_ok ws /\ words_val ws = bms_val a /\ upper / 64 < nwords ws /\
            bms_add_range a lower upper = bms_add_range (Some ws) lower upper).
  { unfold bms_add_range. destruct (Z.ltb_spec upper lower); [lia|]. assert (Hu : WORDNUM upper = upper / 64) by (apply wordnum_div; lia).
    destruct (word_bit_range upper) as [Hu0 _]; [lia|]. destruct a as [ws|].
    - destruct Ha as [Hok _]. destruct (enlarge_words_spec ws (WORDNUM upper) Hok) as (Hok' & HV & Hlt).
      set (ws' := if WORDNUM upper >=? nwords ws then _ else _) in *.
      exists ws'. split; [done|]. split; [done|]. split; [by rewrite <- Hu|].
      rewrite (Z.geb_leb (WORDNUM upper) (nwords ws')), (proj2 (Z.leb_gt _ _) Hlt). done.
    - set (ws := replicate (Z.to_nat (WORDNUM upper + 1)) 0).
      assert (Hlt : WORDNUM upper < nwords ws).
      { unfold nwords, ws. rewrite length_replicate. lia. }
      exists ws. split; [unfold ws; auto with pg|]. split; [apply words_val_replicate|].
      split; [by rewrite <- Hu|].
      rewrite (Z.geb_leb (WORDNUM upper) (nwords ws)), (proj2 (Z.leb_gt _ _) Hlt). done. }
  destruct Hws as (ws & Hok & HV & Hn & ->).
  destruct (bms_add_range_words ws lower upper Hok Hlu Hn) as (ws' & -> & Hok' & Hbits).
  exists (Some ws'). split; [done|].
  assert (Hin : Z.testbit (words_val ws') lower = true).
  { rewrite Hbits by lia. destruct (Z.leb_spec lower lower), (Z.leb_spec lower upper); lia || done. }
  split; [split; [done|]; intros E; rewrite E, Z.bits_0 in Hin; done|].
  apply Z.bits_inj'. intros i Hi. cbn [bms_val].
  rewrite Hbits, Z.lor_spec, Z.shiftl_spec, <- HV, orb_comm by done. f_equal.
  destruct (Z.leb_spec lower i); simpl.
  - destruct (Z.leb_spec i upper); symmetry; [apply Z.ones_spec_low|apply Z.ones_spec_high]; lia.
  - symmetry. apply Z.testbit_neg_r. lia.
Qed.

(** ** Hashing *)
Lemma lastword_loop_S n ws :
  lastword_loop (S n) ws = if negb (nth n ws 0 =? 0) then S n else lastword_loop n ws.
Proof. done. Qed.

(** Stripping the trailing zero words. *)
Lemma lastword_loop_spec ws n (k := lastword_loop n ws) : (n <= length ws)%nat ->
  (k <= n)%nat /\ (forall j, (k <= j < n)%nat -> nth j ws 0 = 0) /\
  (k = 0%nat \/ nth (k - 1) ws 0 <> 0).
Proof.
  subst k. induction n as [|n IH]; intros Hn; [split; [done|]; split; [lia|by left]|].
  rewrite lastword_loop_S. destruct (Z.eqb_spec (nth n ws 0) 0) as [E|E]; cbn [negb].
  - destruct IH as (H1 & H2 & H3); [lia|]. split; [lia|]. split; [|done].
    intros j Hj. destruct (decide (j = n)) as [->|]; [done|]. apply H2. lia.
  - split; [lia|]. split; [lia|]. right. by replace (S n - 1)%nat with n by lia.
Qed.

Lemma words_val_nth_inj ws ws' j : words_ok ws -> words_ok ws' ->
  words_val ws = words_val ws' -> nth j ws 0 = nth j ws' 0.
Proof.
  intros H H' E. pose proof (word_at_u64 ws (Z.of_nat j) H) as U.
  pose proof (word_at_u64 ws' (Z.of_nat j) H') as U'.
  assert (Hw : forall l, word_at l (Z.of_nat j) = nth j l 0) by (intros; unfold word_at; by rewrite Nat2Z.id).
  rewrite <- !Hw. apply Z.bits_inj'. intros i Hi.
  destruct (Z_lt_ge_dec i 64); [|by rewrite !u64_testbit_high by (done || lia)].
  rewrite <- !words_val_at by (done || lia). by rewrite E.
Qed.

Lemma lastword_loop_unique ws k : (k <= length ws)%nat ->
  (forall j, (k <= j)%nat -> nth j ws 0 = 0) -> (k = 0%nat \/ nth (k - 1) ws 0 <> 0) ->
  lastword_loop (length ws) ws = k.
Proof.
  intros Hk Hz Hn. destruct (lastword_loop_spec ws (length ws)) as (H1 & H2 & H3); [done|].
  set (m := lastword_loop (length ws) ws) in *. destruct (Nat.lt_trichotomy m k) as [Hlt|[->|Hgt]]; [|done|].
  - exfalso. destruct Hn as [->|Hn]; [lia|]. apply Hn. destruct (Nat.lt_ge_cases (k - 1) (length ws)).
    + apply H2. lia.
    + by apply nth_overflow.
  - exfalso. destruct H3 as [H3|H3]; [lia|]. apply H3, Hz. lia.
Qed.

Lemma stripped_eq ws ws' : words_ok ws -> words_ok ws' -> words_val ws = words_val ws' ->
  lastword_loop (length ws) ws = lastword_loop (length ws') ws' /\
  take (lastword_loop (length ws) ws) ws = take (lastword_loop (length ws') ws') ws'.
Proof.
  intros H H' E. destruct (lastword_loop_spec ws (length ws)) as (H1 & H2 & H3); [done|].
  set (k := lastword_loop (length ws) ws) in *.
  assert (Hnth : forall j, nth j ws 0 = nth j ws' 0) by (intros; by apply words_val_nth_inj).
  assert (Hk' : lastword_loop (length ws') ws' = k).
  { apply lastword_loop_unique.
    - destruct (Nat.le_gt_cases k (length ws')); [done|]. exfalso. destruct H3 as [->|H3]; [lia|].
      apply H3. rewrite Hnth. apply nth_overflow. lia.
    - intros j Hj. rewrite <- Hnth. destruct (Nat.lt_ge_cases j (length ws)); [apply H2; lia|by apply nth_overflow].
    - destruct H3 as [|H3]; [by left|right]. by rewrite <- Hnth. }
  split; [done|]. rewrite Hk'. apply list_eq. intros j.
  destruct (Nat.lt_ge_cases j k) as [Hj|Hj]; [|by rewrite !lookup_take_ge].
  rewrite !lookup_take_lt by done.
  assert (k <= length ws')%nat.
  { destruct (lastword_loop_spec ws' (length ws')) as (? & _); [done|]. by rewrite Hk' in *. }
  destruct (lookup_lt_is_Some_2 ws j) as [x Hx]; [lia|]. destruct (lookup_lt_is_Some_2 ws' j) as [y Hy]; [lia|].
  rewrite Hx, Hy. specialize (Hnth j). rewrite !nth_lookup, Hx, Hy in Hnth. simpl in Hnth. by f_equal.
Qed.

Lemma overlap_list_loop_spec ws l : words_ok ws -> Forall (fun x => 0 <= x) l ->
  overlap_list_loop ws l = Ok (existsb (fun x => Z.testbit (words_val ws) x) l).
Proof.
  intros Hok. induction 1 as [|x l Hx Hl IH]; cbn [overlap_list_loop existsb]; [done|].
  destruct (Z.ltb_spec x 0); [lia|]. rewrite test_member_spec by done.
  by destruct (Z.testbit (words_val ws) x).
Qed.

(** Sets that compare equal hash to the same value, whatever the byte hash and whatever trailing zero
    words they carry. *)
Lemma bms_hash_respects_equal hash_any a b : bms_wf a -> bms_wf b ->
  bms_equal a b = true -> bitmap_hash hash_any a = bitmap_hash hash_any b.
Proof.
  intros Ha Hb E. rewrite bms_equal_spec in E by done. apply Z.eqb_eq in E.
  unfold bitmap_hash. destruct a as [wa|], b as [wb|]; cbn [bms_hash_value].
  - destruct (stripped_eq wa wb) as [E1 E2]; [apply Ha|apply Hb|done|]. by rewrite E2, E1.
  - by destruct Ha.
  - by destruct Hb.
  - done.
Qed.
