(* ===== verification/BitmapsetProps.v ===== *)
(** * Properties of the bitmap sets

    The contract of [bitmapset.c]: the set algebra, the updates, the tests, the order, the
    cardinality routines and the iteration idioms, each against the denotation
    [bms_val] (one unbounded bit string) or the increasing list [bms_members]. *)
From S2P Require Import Prelude BitUtils Bitmapset BitmapsetSpec BitmapsetIter.
#[local] Open Scope Z_scope.

(** ** Sets for the witnesses *)
(** {1, 3, 70} and {3, 64}. *)
Definition ex_a : bitmapset := Some [10; 64].
Definition ex_b : bitmapset := Some [8; 1].

Lemma ex_a_wf : bms_wf ex_a.
Proof. split; [repeat constructor; unfold u64; lia|done]. Defined.
Lemma ex_b_wf : bms_wf ex_b.
Proof. split; [repeat constructor; unfold u64; lia|done]. Defined.

(** ** Reachable sets *)
(** The sets a client can build: from NULL, by any sequence of successful calls. *)
Inductive bms_reachable : bitmapset -> Prop :=
  | reach_null : bms_reachable None
  | reach_singleton x a : bms_make_singleton x = Ok a -> bms_reachable a
  | reach_add_member a x a' : bms_reachable a -> bms_add_member a x = Ok a' -> bms_reachable a'
  | reach_del_member a x a' : bms_reachable a -> bms_del_member a x = Ok a' -> bms_reachable a'
  | reach_add_range a l u a' : bms_reachable a -> bms_add_range a l u = Ok a' -> bms_reachable a'
  | reach_copy a : bms_reachable a -> bms_reachable (bms_copy a)
  | reach_union a b : bms_reachable a -> bms_reachable b -> bms_reachable (bms_union a b)
  | reach_intersect a b : bms_reachable a -> bms_reachable b -> bms_reachable (bms_intersect a b)
  | reach_difference a b : bms_reachable a -> bms_reachable b -> bms_reachable (bms_difference a b)
  | reach_add_members a b : bms_reachable a -> bms_reachable b -> bms_reachable (bms_add_members a b)
  | reach_int_members a b : bms_reachable a -> bms_reachable b -> bms_reachable (bms_int_members a b)
  | reach_del_members a b : bms_reachable a -> bms_reachable b -> bms_reachable (bms_del_members a b)
  | reach_join a b : bms_reachable a -> bms_reachable b -> bms_reachable (bms_join a b).

Lemma negative_rejected x : x < 0 -> (x <? 0) = true.
Proof. intros. by apply Z.ltb_lt. Qed.

Lemma bms_reachable_is_wf a : bms_reachable a -> bms_wf a.
Proof.
  induction 1 as [|x a H|a x a' _ IH H|a x a' _ IH H|a l u a' _ IH H|a _ IH
                 |a b _ IHa _ IHb|a b _ IHa _ IHb|a b _ IHa _ IHb|a b _ IHa _ IHb
                 |a b _ IHa _ IHb|a b _ IHa _ IHb|a b _ IHa _ IHb].
  - done.
  - destruct (Z_lt_ge_dec x 0) as [Hx|Hx].
    + unfold bms_make_singleton in H. by rewrite negative_rejected in H.
    + destruct (bms_make_singleton_spec x) as (a' & E & W & _); [lia|]. congruence.
  - destruct (Z_lt_ge_dec x 0) as [Hx|Hx].
    + unfold bms_add_member in H. by rewrite negative_rejected in H.
    + destruct (bms_add_member_spec a x IH) as (a'' & E & W & _); [lia|]. congruence.
  - destruct (Z_lt_ge_dec x 0) as [Hx|Hx].
    + unfold bms_del_member in H. by rewrite negative_rejected in H.
    + destruct (bms_del_member_spec a x IH) as (a'' & E & W & _); [lia|]. congruence.
  - destruct (Z_lt_ge_dec u l) as [Hlt|Hge].
    + unfold bms_add_range in H. destruct (Z.ltb_spec u l); [congruence|lia].
    + destruct (Z_lt_ge_dec l 0) as [Hl|Hl].
      * unfold bms_add_range in H. destruct (Z.ltb_spec u l); [lia|].
        by rewrite negative_rejected in H.
      * destruct (bms_add_range_spec a l u IH) as (a'' & E & W & _); [lia|]. congruence.
  - done.
  - by apply bms_union_spec.
  - by apply bms_intersect_spec.
  - by apply bms_difference_spec.
  - by apply bms_add_members_spec.
  - by apply bms_int_members_spec.
  - by apply bms_del_members_spec.
  - by apply bms_join_spec.
Qed.

(** C26: every set a client can build satisfies the representation invariant (words are
    64-bit, an allocated set has a member), so NULL is the only representation of the empty
    set and the macro [bms_is_empty(a)], which is [a == NULL], tests emptiness. *)
Theorem bms_reachable_invariant a : bms_reachable a ->
  bms_wf a /\ (a = None <-> bms_members a = []).
Proof.
  intros H. pose proof (bms_reachable_is_wf a H) as W. split; [done|].
  rewrite <- bms_members_nil by done. destruct a as [ws|]; [|done].
  split; [done|]. intros E. by destruct W.
Qed.

Lemma bms_reachable_invariant_witness :
  bms_wf (Some [10]) /\ (Some [10] = None <-> bms_members (Some [10]) = []).
Proof.
  apply (bms_reachable_invariant (Some [10])).
  apply (reach_add_member (Some [2]) 3); [|reflexivity]. apply (reach_singleton 1). reflexivity.
Defined.

(** C11: the set algebra.  Union, intersection and difference, in their copying and their
    recycling versions, are bitwise or, and, and-not of the denotations. *)
Theorem bms_algebra a b : bms_wf a -> bms_wf b ->
  bms_val (bms_union a b) = Z.lor (bms_val a) (bms_val b) /\
  bms_val (bms_intersect a b) = Z.land (bms_val a) (bms_val b) /\
  bms_val (bms_difference a b) = Z.ldiff (bms_val a) (bms_val b) /\
  bms_val (bms_add_members a b) = Z.lor (bms_val a) (bms_val b) /\
  bms_val (bms_int_members a b) = Z.land (bms_val a) (bms_val b) /\
  bms_val (bms_del_members a b) = Z.ldiff (bms_val a) (bms_val b) /\
  bms_val (bms_join a b) = Z.lor (bms_val a) (bms_val b).
Proof.
  intros Ha Hb. repeat split.
  - by apply bms_union_spec.
  - by apply bms_intersect_spec.
  - by apply bms_difference_spec.
  - by apply bms_add_members_spec.
  - by apply bms_int_members_spec.
  - by apply bms_del_members_spec.
  - by apply bms_join_spec.
Qed.

Lemma bms_algebra_witness :
  bms_val (bms_union ex_a ex_b) = Z.lor (bms_val ex_a) (bms_val ex_b).
Proof. apply (bms_algebra ex_a ex_b ex_a_wf ex_b_wf). Defined.

(** C35: element updates.  For a nonnegative element (or range) adding, deleting and building
    a singleton succeed with exactly the intended set; a negative element is an error and an
    empty range leaves the set alone. *)
Theorem bms_updates a x u : bms_wf a ->
  (0 <= x ->
     (exists s, bms_make_singleton x = Ok s /\ bms_val s = 2 ^ x) /\
     (exists s, bms_add_member a x = Ok s /\ bms_val s = Z.setbit (bms_val a) x) /\
     (exists s, bms_del_member a x = Ok s /\ bms_val s = Z.clearbit (bms_val a) x) /\
     (x <= u -> exists s, bms_add_range a x u = Ok s /\
        bms_val s = Z.lor (bms_val a) (Z.shiftl (Z.ones (u - x + 1)) x))) /\
  (x < 0 ->
     bms_make_singleton x = Error negative_member_msg /\
     bms_add_member a x = Error negative_member_msg /\
     bms_del_member a x = Error negative_member_msg /\
     (x <= u -> bms_add_range a x u = Error negative_member_msg)) /\
  (u < x -> bms_add_range a x u = Ok a).
Proof.
  intros Ha. split; [|split].
  - intros Hx. split; [|split; [|split]].
    + destruct (bms_make_singleton_spec x Hx) as (s & E & _ & V). exists s. split; [done|].
      by rewrite V, Z.setbit_spec', Z.lor_0_l.
    + destruct (bms_add_member_spec a x Ha Hx) as (s & E & _ & V). by exists s.
    + destruct (bms_del_member_spec a x Ha Hx) as (s & E & _ & V). by exists s.
    + intros Hu. destruct (bms_add_range_spec a x u Ha) as (s & E & _ & V); [lia|]. by exists s.
  - intros Hx. unfold bms_make_singleton, bms_add_member, bms_del_member, bms_add_range.
    rewrite negative_rejected by done. repeat split. intros Hu.
    destruct (Z.ltb_spec u x); [lia|done].
  - intros Hu. unfold bms_add_range. destruct (Z.ltb_spec u x); [done|lia].
Qed.

Lemma bms_updates_witness :
  (exists s, bms_add_range ex_a 5 130 = Ok s /\
     bms_val s = Z.lor (bms_val ex_a) (Z.shiftl (Z.ones (130 - 5 + 1)) 5)).
Proof.
  destruct (bms_updates ex_a 5 130 ex_a_wf) as [H _].
  destruct H as (_ & _ & _ & H); [lia|]. apply H. lia.
Defined.

(** C36: the tests.  Equality, subset, overlap, nonempty difference, membership and overlap
    with a list of integers decide the corresponding relations on the denotations; [bms_compare]
    is the order of the denotations and [bms_subset_compare] classifies the inclusion in both
    directions.  [bms_num_members] counts the members, [bms_member_index] is the number
    of smaller members (or -1), and [bms_membership] and the singleton routines classify sets by
    their member list, with the documented errors. *)
Theorem bms_tests a b : bms_wf a -> bms_wf b ->
  bms_equal a b = (bms_val a =? bms_val b) /\
  bitmap_match a b = negb (bms_val a =? bms_val b) /\
  bms_is_subset a b = (Z.ldiff (bms_val a) (bms_val b) =? 0) /\
  bms_nonempty_difference a b = negb (Z.ldiff (bms_val a) (bms_val b) =? 0) /\
  bms_overlap a b = negb (Z.land (bms_val a) (bms_val b) =? 0) /\
  (forall x, 0 <= x -> bms_is_member x a = Ok (Z.testbit (bms_val a) x)) /\
  (forall x, x < 0 -> bms_is_member x a = Error negative_member_msg) /\
  (forall l, Forall (fun x => 0 <= x) l ->
     bms_overlap_list a l = Ok (existsb (fun x => Z.testbit (bms_val a) x) l)) /\
  bms_compare a b = cmp_int (bms_val a ?= bms_val b) /\
  bms_subset_compare a b =
    match Z.ldiff (bms_val a) (bms_val b) =? 0, Z.ldiff (bms_val b) (bms_val a) =? 0 with
    | true, true => BMS_EQUAL
    | true, false => BMS_SUBSET1
    | false, true => BMS_SUBSET2
    | false, false => BMS_DIFFERENT
    end /\
  bms_num_members a = Z.of_nat (length (bms_members a)) /\
  (forall x, 0 <= x -> bms_member_index a x =
    Ok (if bms_mem a x then Z.of_nat (length (filter (fun y => Z.testbit (bms_val a) y = true) (seqZ 0 x)))
        else -1)) /\
  bms_membership a =
    match bms_members a with [] => BMS_EMPTY_SET | [_] => BMS_SINGLETON | _ => BMS_MULTIPLE end /\
  bms_singleton_member a =
    match bms_members a with
    | [] => Error "bitmapset is empty"
    | [y] => Ok y
    | _ => Error "bitmapset has multiple members"
    end /\
  (forall m, bms_get_singleton_member a m =
     match bms_members a with [y] => (true, y) | _ => (false, m) end).
Proof.
  intros Ha Hb. unfold bitmap_match. rewrite bms_equal_spec by done.
  split; [done|]. split; [done|]. split; [by apply bms_is_subset_spec|].
  split; [by apply bms_nonempty_difference_spec|]. split; [by apply bms_overlap_spec|].
  split; [intros; by apply bms_is_member_spec|]. destruct (bms_membership_spec a Ha) as (M1 & M2 & M3).
  split_and!; [| |by apply bms_compare_spec| |by apply bms_num_members_spec| |done|done|done].
  - intros x Hx. unfold bms_is_member. by rewrite negative_rejected.
  - intros l Hl. destruct a as [ws|]; cbn [bms_overlap_list bms_val].
    + destruct l; [done|]. apply overlap_list_loop_spec; [apply Ha|done].
    + f_equal. symmetry. apply not_true_is_false. intros (x & _ & E)%existsb_exists.
      by rewrite Z.bits_0 in E.
  - rewrite bms_subset_compare_flags, !bms_nonempty_difference_spec by done. by destruct (_ =? 0), (_ =? 0).
  - intros x Hx. rewrite bms_member_index_spec by done. by rewrite bitcount_filter, Z2Nat.id.
Qed.

Lemma bms_tests_witness : bms_overlap ex_a ex_b = true /\ bms_is_subset ex_b ex_a = false.
Proof.
  destruct (bms_tests ex_a ex_b ex_a_wf ex_b_wf) as (_ & _ & _ & _ & E & _).
  destruct (bms_tests ex_b ex_a ex_b_wf ex_a_wf) as (_ & _ & E' & _).
  split; [rewrite E|rewrite E']; reflexivity.
Defined.

(** C27: iteration.  The documented loops over [bms_next_member] and [bms_prev_member]
    terminate (within one step per representable bit), read only the words of the set, and visit exactly the members, in
    increasing and in decreasing order.  The set has at most 2^25 words, as any set of [int]s, and for the forward loop it must not
    contain [INT_MAX], past which [bms_next_member] overflows. *)
Theorem bms_iteration a : bms_wf a -> bms_capacity a <= 2 ^ 31 ->
  (bms_mem a INT_MAX = false -> bms_iterate (S (Z.to_nat (bms_capacity a))) a (-1) = Ok (bms_members a)) /\
  bms_iterate_back (S (Z.to_nat (bms_capacity a))) a (-1) = Ok (reverse (bms_members a)) /\
  (forall x, x ∈ bms_members a <-> 0 <= x /\ bms_mem a x = true) /\
  StronglySorted Z.lt (bms_members a).
Proof.
  intros Ha Hcap. assert (Hc : 0 <= bms_capacity a) by (destruct a; unfold bms_capacity, nwords; lia).
  rewrite !bms_members_between. split; [|split; [|split]].
  - intros Hmax. rewrite bms_iterate_spec by (done || unfold INT_MAX; lia). done.
  - rewrite bms_iterate_back_spec by (simpl; done || lia). done.
  - rewrite <- bms_members_between. intros x. by apply elem_of_bms_members.
  - apply StronglySorted_filter, StronglySorted_seqZ.
Qed.

Lemma bms_iteration_witness :
  bms_iterate 129 ex_a (-1) = Ok [1; 3; 70] /\ bms_iterate_back 129 ex_a (-1) = Ok [70; 3; 1].
Proof.
  destruct (bms_iteration ex_a ex_a_wf) as (E1 & E2 & _); [vm_compute; discriminate|].
  split; [apply E1; vm_compute; reflexivity|exact E2].
Defined.
