(* ===== verification/Float64.v ===== *)
(** * IEEE 754 binary64 arithmetic as the planner uses it

    PostgreSQL's [Cost], [Cardinality] and [Selectivity] are C [double]s.  The model computes
    with the executable binary64 specification of the standard library ([SpecFloat]), so
    comparisons with NaN, infinities, signed zeros and rounding are those of the code.

    The lemmas of this file are the two facts about rounding on which the fuzzy cost
    comparisons of [pathnode.c] rely: multiplying a nonnegative cost by a factor not below one
    never makes it smaller, and multiplication by such a factor is monotone. *)
From Stdlib Require Import Floats.SpecFloat.
From S2P Require Import Prelude.
#[local] Open Scope Z_scope.

Abbreviation double := spec_float.

Definition dmul : double -> double -> double := SFmul 53 1024.
Definition dadd : double -> double -> double := SFadd 53 1024.
Definition dsub : double -> double -> double := SFsub 53 1024.
Definition ddiv : double -> double -> double := SFdiv 53 1024.
Definition dsqrt : double -> double := SFsqrt 53 1024.
(** C's [<], [<=], [>], [>=]: false as soon as one side is NaN. *)
Definition dlt (x y : double) : bool := SFltb x y.
Definition dle (x y : double) : bool := SFleb x y.
Definition dgt (x y : double) : bool := SFltb y x.
Definition dge (x y : double) : bool := SFleb y x.
Definition deq (x y : double) : bool := SFeqb x y.

(** Conversion of an integer to [double], and the correctly rounded quotient that a decimal
    literal such as [1.01] denotes. *)
Definition dofZ (z : Z) : double := binary_normalize 53 1024 z 0 false.
Definition dlit (num den : Z) : double := ddiv (dofZ num) (dofZ den).
Definition dzero : double := S754_zero false.

Definition is_nan (x : double) : bool := match x with S754_nan => true | _ => false end.
Definition dvalid (x : double) : bool := valid_binary 53 1024 x.

(** A number the cost model can produce: a valid encoding that is not NaN and not negative. *)
Definition nonneg (x : double) : bool := dvalid x && dle dzero x.

(** A factor not below one. *)
Definition fuzz_ok (f : double) : bool :=
  match f with
  | S754_finite false m e => bounded 53 1024 m e && (e <=? 0) && (2 ^ (- e) <=? Zpos m)
  | _ => false
  end.

(** ** The order

    Numbers other than NaN are ordered like the triples (class, exponent, mantissa). *)
Definition dkey (x : double) : option (Z * Z * Z) :=
  match x with
  | S754_nan => None
  | S754_infinity true => Some (-2, 0, 0)
  | S754_finite true m e => Some (-1, - e, - Zpos m)
  | S754_zero _ => Some (0, 0, 0)
  | S754_finite false m e => Some (1, e, Zpos m)
  | S754_infinity false => Some (2, 0, 0)
  end.

Definition klt (a b : Z * Z * Z) : Prop :=
  match a, b with
  | (a1, a2, a3), (b1, b2, b3) => a1 < b1 \/ a1 = b1 /\ (a2 < b2 \/ a2 = b2 /\ a3 < b3)
  end.

Lemma SFcompare_key x y :
  match SFcompare x y, dkey x, dkey y with
  | None, None, _ | None, _, None => True
  | Some c, Some a, Some b =>
      match c with Eq => a = b | Lt => klt a b | Gt => klt b a end
  | _, _, _ => False
  end.
Proof.
  destruct x as [[]|[]| |[] mx ex], y as [[]|[]| |[] my ey]; simpl; auto; try lia;
    change (Pos.compare_cont Eq mx my) with (Pos.compare mx my);
    destruct (Z.compare_spec ex ey); try destruct (Pos.compare_spec mx my); simpl; subst; auto; lia.
Qed.

Lemma dlt_key x y : dlt x y = true <-> exists a b, dkey x = Some a /\ dkey y = Some b /\ klt a b.
Proof.
  unfold dlt, SFltb. pose proof (SFcompare_key x y) as H. split.
  - intros Hc. destruct (SFcompare x y) as [[]|]; try discriminate.
    destruct (dkey x), (dkey y); try done. eauto.
  - intros (a & b & Ea & Eb & Hk). rewrite Ea, Eb in H.
    destruct (SFcompare x y) as [[]|]; try done; exfalso;
      destruct a as [[??]?], b as [[??]?]; simplify_eq; simpl in *; lia.
Qed.

Lemma dle_key x y :
  dle x y = true <-> exists a b, dkey x = Some a /\ dkey y = Some b /\ ~ klt b a.
Proof.
  unfold dle, SFleb. pose proof (SFcompare_key x y) as H. split.
  - intros Hc. destruct (SFcompare x y) as [[]|]; try discriminate;
      destruct (dkey x) as [[[??]?]|], (dkey y) as [[[??]?]|]; try done;
      (do 2 eexists; (split; [reflexivity|]); (split; [reflexivity|]); simplify_eq; simpl in *; lia).
  - intros (a & b & Ea & Eb & Hk). rewrite Ea, Eb in H.
    destruct (SFcompare x y) as [[]|]; done.
Qed.

Ltac dkeys :=
  repeat match goal with
  | H : dlt _ _ = true |- _ => apply dlt_key in H; destruct H as ([[??]?] & [[??]?] & ? & ? & ?)
  | H : dle _ _ = true |- _ => apply dle_key in H; destruct H as ([[??]?] & [[??]?] & ? & ? & ?)
  end; simplify_eq; simpl in *.

Lemma dlt_trans x y z : dlt x y = true -> dlt y z = true -> dlt x z = true.
Proof. intros. dkeys. apply dlt_key. do 2 eexists. split; [eassumption|]. split; [eassumption|simpl; lia]. Qed.
Lemma dle_trans x y z : dle x y = true -> dle y z = true -> dle x z = true.
Proof. intros. dkeys. apply dle_key. do 2 eexists. split; [eassumption|]. split; [eassumption|simpl; lia]. Qed.
Lemma dlt_le_trans x y z : dlt x y = true -> dle y z = true -> dlt x z = true.
Proof. intros. dkeys. apply dlt_key. do 2 eexists. split; [eassumption|]. split; [eassumption|simpl; lia]. Qed.
Lemma dle_lt_trans x y z : dle x y = true -> dlt y z = true -> dlt x z = true.
Proof. intros. dkeys. apply dlt_key. do 2 eexists. split; [eassumption|]. split; [eassumption|simpl; lia]. Qed.
Lemma dlt_le x y : dlt x y = true -> dle x y = true.
Proof. intros. dkeys. apply dle_key. do 2 eexists. split; [eassumption|]. split; [eassumption|simpl; lia]. Qed.
Lemma dlt_irrefl x : dlt x x = false.
Proof. apply not_true_is_false. intros H. dkeys. lia. Qed.

Lemma is_nan_key x : is_nan x = false -> exists a, dkey x = Some a.
Proof. destruct x as [|[]| |[]]; simpl; intros; try done; eauto. Qed.

(** Without NaN the order is total. *)
Lemma dle_total x y : is_nan x = false -> is_nan y = false -> dlt y x = negb (dle x y).
Proof.
  intros [[[??]?] Hx]%is_nan_key [[[??]?] Hy]%is_nan_key.
  destruct (dle x y) eqn:E; simpl.
  - apply not_true_is_false. intros H. dkeys. lia.
  - apply dlt_key. do 2 eexists. split; [eassumption|]. split; [eassumption|]. simpl.
    apply not_true_iff_false in E. rewrite dle_key in E.
    match goal with |- ?P => destruct (decide P) as [|n]; [done|]; exfalso; apply E end.
    do 2 eexists. split; [eassumption|]. split; [eassumption|]. simpl. lia.
Qed.

Lemma dle_refl x : is_nan x = false -> dle x x = true.
Proof.
  intros [[[??]?] Hx]%is_nan_key. apply dle_key. do 2 eexists. split; [eassumption|]. split; [eassumption|]. simpl. lia.
Qed.

Lemma nonneg_not_nan x : nonneg x = true -> is_nan x = false.
Proof. by destruct x. Qed.
Lemma dle_lt_contra x y : dle x y = true -> dlt y x = true -> False.
Proof. intros. dkeys. lia. Qed.
#[export] Hint Resolve nonneg_not_nan dlt_le : pg.

(** ** Rounding

    [rnd M k] is the integer nearest to [M / 2 ^ k], ties to even; [pack E r] is the
    binary64 number [r * 2 ^ E] for [0 <= r <= 2 ^ 53]. *)
Definition rnd (M k : Z) : Z :=
  let q := M / 2 ^ k in
  match 2 * (M mod 2 ^ k) ?= 2 ^ k with
  | Lt => q
  | Eq => if Z.even q then q else q + 1
  | Gt => q + 1
  end.

Definition rexp (M e : Z) : Z := fexp 53 1024 (Z.log2 M + 1 + e).

Definition pack (E r : Z) : double :=
  let '(r, E) := if r =? 2 ^ 53 then (2 ^ 52, E + 1) else (r, E) in
  match r with
  | Z0 => S754_zero false
  | Zpos m => if E <=? 971 then S754_finite false m E else S754_infinity false
  | Zneg _ => S754_nan
  end.

Lemma digits2_log2 p : Zpos (digits2_pos p) = Z.log2 (Zpos p) + 1.
Proof.
  induction p as [p IH|p IH|]; [..|done]; cbn [digits2_pos]; rewrite Pos2Z.inj_succ, IH.
  - rewrite (Pos2Z.inj_xI p), Z.log2_succ_double by lia. lia.
  - rewrite (Pos2Z.inj_xO p), Z.log2_double by lia. lia.
Qed.

Lemma iter_pos_nat {A} (f : A -> A) p x : SpecFloat.iter_pos f p x = Nat.iter (Pos.to_nat p) f x.
Proof.
  revert x. induction p as [p IH|p IH|]; intros x; cbn [SpecFloat.iter_pos]; [..|done]; rewrite !IH.
  - rewrite Pos2Nat.inj_xI, Nat.iter_succ_r, <- Nat.iter_add. f_equal. lia.
  - rewrite Pos2Nat.inj_xO, <- Nat.iter_add. f_equal. lia.
Qed.

(** The shifted record after [k] steps: quotient, round bit and sticky bit. *)
Definition shr_inv (M k : Z) (mrs : shr_record) : Prop :=
  shr_m mrs = M / 2 ^ k /\
  let rho := 2 * (M mod 2 ^ k) in
  match shr_r mrs, shr_s mrs with
  | false, false => rho = 0
  | false, true => 0 < rho < 2 ^ k
  | true, false => rho = 2 ^ k
  | true, true => 2 ^ k < rho
  end.

Lemma shr_1_inv M k mrs : 0 <= M -> 0 <= k -> shr_inv M k mrs -> shr_inv M (k + 1) (shr_1 mrs).
Proof.
  intros HM Hk [Hm Hrs]. destruct mrs as [m r s]; cbn [shr_m shr_r shr_s] in *.
  assert (0 < 2 ^ k) as HP by (apply Z.pow_pos_nonneg; lia). set (P := 2 ^ k) in *.
  assert (0 <= m) as Hm0 by (rewrite Hm; apply Z.div_pos; lia).
  pose proof (Z.div_mod M P ltac:(lia)) as HD. pose proof (Z.mod_pos_bound M P HP) as HB.
  set (rho := M mod P) in *. rewrite <- Hm in HD.
  set (b := m mod 2). pose proof (Z.div_mod m 2 ltac:(lia)) as Hd2.
  pose proof (Z.mod_pos_bound m 2 ltac:(lia)) as Hb2.
  fold b in Hd2, Hb2.
  assert (M / 2 ^ (k + 1) = m / 2 /\ M mod 2 ^ (k + 1) = rho + b * P) as [Hq Hr].
  { replace (2 ^ (k + 1)) with (2 * P) by (unfold P; rewrite Z.pow_add_r by lia; lia).
    assert (0 <= rho + b * P < 2 * P) by nia. assert (M = 2 * P * (m / 2) + (rho + b * P)) by nia.
    split; symmetry; [by eapply Z.div_unique_pos|by eapply Z.mod_unique_pos]. }
  unfold shr_inv. rewrite Hq, Hr.
  replace (2 ^ (k + 1)) with (2 * P) by (unfold P; rewrite Z.pow_add_r by lia; lia).
  assert (shr_m (shr_1 {| shr_m := m; shr_r := r; shr_s := s |}) = m / 2 /\
          shr_r (shr_1 {| shr_m := m; shr_r := r; shr_s := s |}) = (b =? 1) /\
          shr_s (shr_1 {| shr_m := m; shr_r := r; shr_s := s |}) = orb r s) as (-> & -> & ->).
  { destruct m as [|[p|p|]|]; [done| | |done|lia]; cbn [shr_1 shr_m shr_r shr_s].
    - unfold b. rewrite (Pos2Z.inj_xI p).
      replace (2 * Zpos p + 1) with (1 + Zpos p * 2) by lia.
      rewrite Z.mod_add, Z.div_add by lia. done.
    - unfold b. rewrite (Pos2Z.inj_xO p). replace (2 * Zpos p) with (Zpos p * 2) by lia.
      rewrite Z.mod_mul, Z.div_mul by lia. done. }
  split; [done|]. destruct (Z.eqb_spec b 1), r, s; simpl; nia.
Qed.

Lemma shr_inv_iter M (n : nat) : 0 <= M ->
  shr_inv M (Z.of_nat n) (Nat.iter n shr_1 {| shr_m := M; shr_r := false; shr_s := false |}).
Proof.
  intros HM. induction n as [|n IH].
  - split; simpl; [by rewrite Z.div_1_r|by rewrite Z.mod_1_r].
  - rewrite Nat2Z.inj_succ, <- Z.add_1_r. simpl. apply shr_1_inv; [lia..|done].
Qed.

Lemma shr_exact M e n : 0 <= M -> 0 <= n ->
  exists mrs, shr {| shr_m := M; shr_r := false; shr_s := false |} e n = (mrs, e + n) /\
    shr_inv M n mrs.
Proof.
  intros HM Hn. destruct n as [|p|]; [| |lia].
  - eexists. rewrite Z.add_0_r. split; [done|]. apply (shr_inv_iter M 0 HM).
  - eexists. split; [reflexivity|]. rewrite iter_pos_nat.
    rewrite <- positive_nat_Z. by apply shr_inv_iter.
Qed.

Lemma round_nearest_even_rnd M k mrs : 0 <= k -> 0 <= M -> shr_inv M k mrs ->
  round_nearest_even (shr_m mrs) (loc_of_shr_record mrs) = rnd M k.
Proof.
  intros Hk HM [Hm Hrs]. unfold rnd. rewrite <- Hm.
  pose proof (Z.pow_pos_nonneg 2 k ltac:(lia) ltac:(lia)) as HP.
  destruct mrs as [m [] []]; simpl in *;
    destruct (Z.compare_spec (2 * (M mod 2 ^ k)) (2 ^ k)); done || lia.
Qed.

Lemma rnd_bounds M k : 0 <= k -> 0 <= M -> M / 2 ^ k <= rnd M k <= M / 2 ^ k + 1.
Proof. intros Hk HM. unfold rnd. destruct (_ ?= _); try destruct (Z.even _); lia. Qed.

Lemma rexp_ge M e : -1074 <= rexp M e.
Proof. unfold rexp, fexp, emin. lia. Qed.

(** The quotient has at most 53 bits, so rounding gives at most [2 ^ 53]. *)
Lemma rnd_rexp_bound M e : 0 < M -> e <= rexp M e -> 0 <= rnd M (rexp M e - e) <= 2 ^ 53.
Proof.
  intros HM He. pose proof (rnd_bounds M (rexp M e - e) ltac:(lia) ltac:(lia)) as Hr.
  pose proof (Z.pow_pos_nonneg 2 (rexp M e - e) ltac:(lia) ltac:(lia)). pose proof (Z.log2_spec M HM).
  assert (0 <= M / 2 ^ (rexp M e - e)) by (apply Z.div_pos; lia).
  enough (M / 2 ^ (rexp M e - e) < 2 ^ 53) by lia.
  apply Z.div_lt_upper_bound; [lia|]. rewrite <- Z.pow_add_r by lia.
  apply Z.lt_le_trans with (2 ^ Z.succ (Z.log2 M)); [lia|].
  apply Z.pow_le_mono_r; [lia|]. unfold rexp, fexp in *. lia.
Qed.

Lemma zdigits2_log2 M : 0 < M -> Zdigits2 M = Z.log2 M + 1.
Proof. destruct M as [|p|]; intros; [lia|apply digits2_log2|lia]. Qed.

(** After rounding, the mantissa is renormalised only when it reached [2 ^ 53]. *)
Lemma shr_fexp_renorm E r : -1074 <= E -> 0 <= r <= 2 ^ 53 ->
  exists mrs E', shr_fexp 53 1024 r E loc_Exact = (mrs, E') /\
    (shr_m mrs, E') = if r =? 2 ^ 53 then (2 ^ 52, E + 1) else (r, E).
Proof.
  intros HE Hr. unfold shr_fexp, shr_record_of_loc, fexp, emin.
  destruct (Z.eqb_spec r (2 ^ 53)) as [->|Hne].
  - change (Zdigits2 (2 ^ 53)) with 54.
    replace (Z.max (54 + E - 53) (3 - 1024 - 53) - E) with 1 by lia.
    eexists _, _. split; [reflexivity|]. done.
  - assert (Zdigits2 r <= 53) as Hd.
    { destruct (Z.eq_dec r 0) as [->|]; [done|]. rewrite zdigits2_log2 by lia.
      enough (Z.log2 r < 53) by lia. apply Z.log2_lt_pow2; lia. }
    assert (Z.max (Zdigits2 r + E - 53) (3 - 1024 - 53) - E <= 0) as Hn by lia.
    destruct (Z.max _ _ - E); [| lia|]; eexists _, _; (split; [reflexivity|done]).
Qed.

Lemma binary_round_aux_pack M e : 0 < M -> e <= rexp M e ->
  binary_round_aux 53 1024 false M e loc_Exact = pack (rexp M e) (rnd M (rexp M e - e)).
Proof.
  intros HM He. unfold binary_round_aux, shr_fexp at 1.
  rewrite zdigits2_log2 by done. fold (rexp M e).
  destruct (shr_exact M e (rexp M e - e)) as (mrs & E1 & Hi); [lia..|].
  change (shr_record_of_loc M loc_Exact) with {| shr_m := M; shr_r := false; shr_s := false |}.
  rewrite E1. rewrite (round_nearest_even_rnd M (rexp M e - e)) by (done || lia).
  replace (e + (rexp M e - e)) with (rexp M e) by lia.
  destruct (shr_fexp_renorm (rexp M e) (rnd M (rexp M e - e))) as (mrs2 & E2 & E3 & E4);
    [apply rexp_ge|by apply rnd_rexp_bound|].
  rewrite E3. unfold pack. by rewrite <- E4.
Qed.

Lemma pack_mono E1 r1 E2 r2 :
  0 <= r1 <= 2 ^ 53 -> 0 <= r2 <= 2 ^ 53 ->
  E1 = E2 /\ r1 <= r2 \/ E1 < E2 /\ 2 ^ 52 <= r2 -> dle (pack E1 r1) (pack E2 r2) = true.
Proof.
  intros H1 H2 H. apply dle_key. unfold pack.
  destruct (Z.eqb_spec r1 (2 ^ 53)), (Z.eqb_spec r2 (2 ^ 53));
    change (2 ^ 52) with 4503599627370496 in *; change (2 ^ 53) with 9007199254740992 in *;
    destruct r1 as [|p1|], r2 as [|p2|]; try lia;
    repeat match goal with |- context [?a <=? ?b] => destruct (Z.leb_spec a b) end;
    simpl; do 2 eexists; (split; [reflexivity|]); (split; [reflexivity|]); cbn [klt]; lia.
Qed.

(** A product with a factor not below one needs at least the exponent of the other operand. *)
Lemma rexp_product m e f ef :
  -1074 <= e -> fexp 53 1024 (Z.log2 m + 1 + e) = e -> 0 < m -> ef <= 0 -> 2 ^ (- ef) <= f ->
  e <= rexp (m * f) (e + ef).
Proof.
  intros He Hc Hm Hef Hf. rewrite <- Hc at 1. unfold rexp, fexp.
  enough (Z.log2 m - ef <= Z.log2 (m * f)) by lia.
  pose proof (Z.pow_pos_nonneg 2 (- ef) ltac:(lia) ltac:(lia)).
  transitivity (Z.log2 (m * 2 ^ (- ef))); [rewrite Z.log2_mul_pow2 by lia; lia|].
  apply Z.log2_le_mono. nia.
Qed.

(** A result above the least exponent has a full mantissa. *)
Lemma rnd_full M e : 0 < M -> e <= rexp M e -> -1074 < rexp M e -> 2 ^ 52 <= rnd M (rexp M e - e).
Proof.
  intros HM He Hn. pose proof (rnd_bounds M (rexp M e - e) ltac:(lia) ltac:(lia)) as [Hr _].
  pose proof (Z.log2_spec M HM). etransitivity; [|exact Hr].
  pose proof (Z.pow_pos_nonneg 2 (rexp M e - e) ltac:(lia) ltac:(lia)).
  apply Z.div_le_lower_bound; [lia|]. rewrite <- Z.pow_add_r by lia.
  transitivity (2 ^ Z.log2 M); [|lia]. apply Z.pow_le_mono_r; [lia|].
  unfold rexp, fexp, emin in *. lia.
Qed.

(** *** The two facts about the fuzz factor *)
Lemma finite_pack m e : bounded 53 1024 m e = true ->
  S754_finite false m e = pack e (Zpos m) /\ 0 <= Zpos m <= 2 ^ 53 /\ -1074 <= e <= 971 /\
  fexp 53 1024 (Z.log2 (Zpos m) + 1 + e) = e.
Proof.
  intros [Hc Hb]%andb_prop. unfold canonical_mantissa in Hc. rewrite digits2_log2 in Hc.
  apply Z.eqb_eq in Hc. apply Z.leb_le in Hb.
  assert (Z.log2 (Zpos m) < 53 /\ -1074 <= e) as [Hl He].
  { unfold fexp, emin in Hc. pose proof (Z.log2_nonneg (Zpos m)). lia. }
  apply Z.log2_lt_pow2 in Hl; [|lia]. split_and!; [|lia..|done]. unfold pack.
  destruct (Z.eqb_spec (Zpos m) (2 ^ 53)); [lia|]. by destruct (Z.leb_spec e 971); [|lia].
Qed.

Lemma fuzz_ok_inv f : fuzz_ok f = true ->
  exists m e, f = S754_finite false m e /\ e <= 0 /\ 2 ^ (- e) <= Zpos m.
Proof.
  destruct f as [| | |[] m e]; try done. simpl. intros H.
  apply andb_prop in H as [[_ H1%Z.leb_le]%andb_prop H2%Z.leb_le]. eauto.
Qed.

Lemma nonneg_cases x : nonneg x = true ->
  (exists s, x = S754_zero s) \/ x = S754_infinity false \/
  (exists m e, x = S754_finite false m e /\ bounded 53 1024 m e = true).
Proof.
  unfold nonneg. intros [Hv Hle]%andb_prop.
  destruct x as [s|[]| |[] m e]; try done; eauto 6.
Qed.

Lemma dmul_pack m e fm fe :
  bounded 53 1024 m e = true -> fe <= 0 -> 2 ^ (- fe) <= Zpos fm ->
  let M := Zpos m * Zpos fm in
  dmul (S754_finite false m e) (S754_finite false fm fe)
    = pack (rexp M (e + fe)) (rnd M (rexp M (e + fe) - (e + fe))) /\
  e <= rexp M (e + fe) /\ 0 <= rnd M (rexp M (e + fe) - (e + fe)) <= 2 ^ 53.
Proof.
  intros Hb Hfe Hf. destruct (finite_pack m e Hb) as (_ & Hm & He & Hc).
  pose proof (rexp_product (Zpos m) e (Zpos fm) fe ltac:(lia) Hc ltac:(lia) Hfe Hf) as Hr.
  split_and!; [|done|apply rnd_rexp_bound; lia..].
  unfold dmul, SFmul, xorb. rewrite Pos2Z.inj_mul. apply binary_round_aux_pack; lia.
Qed.

(** Multiplying a cost by a factor not below one never decreases it. *)
Lemma fuzz_inflates f x : fuzz_ok f = true -> nonneg x = true -> dle x (dmul x f) = true.
Proof.
  intros (fm & fe & -> & Hfe & Hf)%fuzz_ok_inv [[s ->]|[->|(m & e & -> & Hb)]]%nonneg_cases;
    [by destruct s|done|].
  destruct (finite_pack m e Hb) as (E & Hm & He & Hc).
  destruct (dmul_pack m e fm fe Hb Hfe Hf) as (-> & Hr & Hq). rewrite E.
  set (M := Zpos m * Zpos fm) in *. apply pack_mono; [lia|done|].
  destruct (Z.eq_dec e (rexp M (e + fe))) as [Ee|Hne]; [left; split; [done|]|right; split; [lia|]].
  - pose proof (rnd_bounds M (rexp M (e + fe) - (e + fe)) ltac:(lia) ltac:(lia)) as [Hlo _].
    etransitivity; [|exact Hlo]. replace (rexp M (e + fe) - (e + fe)) with (- fe) by lia.
    apply Z.div_le_lower_bound; [apply Z.pow_pos_nonneg; lia|]. unfold M. nia.
  - apply rnd_full; lia.
Qed.

Lemma nonneg_fuzz f x : fuzz_ok f = true -> nonneg x = true -> is_nan (dmul x f) = false.
Proof.
  intros Hf Hx. pose proof (fuzz_inflates f x Hf Hx) as H. apply dle_key in H.
  destruct H as (? & ? & _ & H & _). by destruct (dmul x f).
Qed.

Lemma rnd_mono M1 M2 k : 0 <= k -> 0 <= M1 <= M2 -> rnd M1 k <= rnd M2 k.
Proof.
  intros Hk HM. pose proof (Z.pow_pos_nonneg 2 k ltac:(lia) ltac:(lia)) as HP.
  pose proof (Z.div_le_mono M1 M2 (2 ^ k) HP ltac:(lia)) as Hq.
  pose proof (rnd_bounds M1 k Hk ltac:(lia)). pose proof (rnd_bounds M2 k Hk ltac:(lia)).
  destruct (Z.eq_dec (M1 / 2 ^ k) (M2 / 2 ^ k)) as [E|]; [|lia].
  pose proof (Z.div_mod M1 (2 ^ k) ltac:(lia)). pose proof (Z.div_mod M2 (2 ^ k) ltac:(lia)).
  unfold rnd. rewrite E in *.
  destruct (Z.compare_spec (2 * (M1 mod 2 ^ k)) (2 ^ k)),
    (Z.compare_spec (2 * (M2 mod 2 ^ k)) (2 ^ k)); try destruct (Z.even _); lia.
Qed.

Lemma rnd_scale M k d : 0 <= k -> 0 <= d -> rnd (M * 2 ^ d) (k + d) = rnd M k.
Proof.
  intros Hk Hd. pose proof (Z.pow_pos_nonneg 2 k ltac:(lia) ltac:(lia)).
  pose proof (Z.pow_pos_nonneg 2 d ltac:(lia) ltac:(lia)).
  unfold rnd. rewrite Z.pow_add_r by lia.
  rewrite Z.div_mul_cancel_r, Z.mul_mod_distr_r by lia.
  set (a := M mod 2 ^ k).
  replace (2 * (a * 2 ^ d) ?= 2 ^ k * 2 ^ d) with (2 * a ?= 2 ^ k); [done|].
  destruct (Z.compare_spec (2 * a) (2 ^ k)), (Z.compare_spec (2 * (a * 2 ^ d)) (2 ^ k * 2 ^ d));
    done || nia.
Qed.

Lemma rounding_mono M1 M2 e :
  0 < M1 <= M2 -> e <= rexp M1 e ->
  dle (pack (rexp M1 e) (rnd M1 (rexp M1 e - e))) (pack (rexp M2 e) (rnd M2 (rexp M2 e - e))) = true.
Proof.
  intros HM He.
  assert (rexp M1 e <= rexp M2 e) as Hle.
  { unfold rexp, fexp. pose proof (Z.log2_le_mono M1 M2 ltac:(lia)). lia. }
  apply pack_mono; [apply rnd_rexp_bound; lia..|].
  destruct (Z.eq_dec (rexp M1 e) (rexp M2 e)) as [E|]; [left|right].
  - split; [done|]. rewrite E. apply rnd_mono; lia.
  - split; [lia|]. pose proof (rexp_ge M1 e). apply rnd_full; lia.
Qed.

Lemma finite_order m1 e1 m2 e2 :
  bounded 53 1024 m1 e1 = true -> bounded 53 1024 m2 e2 = true ->
  dle (S754_finite false m1 e1) (S754_finite false m2 e2) = true ->
  e1 <= e2 /\ Zpos m1 <= Zpos m2 * 2 ^ (e2 - e1).
Proof.
  intros Hb1 Hb2 (a & b & Ea & Eb & Hk)%dle_key. injection Ea as <-. injection Eb as <-.
  cbn [klt] in Hk. destruct (finite_pack _ _ Hb1) as (_ & Hm1 & He1 & Hc1).
  destruct (finite_pack _ _ Hb2) as (_ & Hm2 & He2 & Hc2).
  destruct (Z.eq_dec e1 e2) as [->|Hne]; [rewrite Z.sub_diag; lia|].
  assert (e1 < e2) as Hlt by lia. split; [lia|].
  assert (Z.log2 (Zpos m2) = 52) as Hl by (unfold fexp, emin in *; lia).
  pose proof (Z.log2_spec (Zpos m2) ltac:(lia)) as [Hlo _]. rewrite Hl in Hlo.
  replace (e2 - e1) with (1 + (e2 - e1 - 1)) by lia. rewrite Z.pow_add_r by lia.
  pose proof (Z.pow_pos_nonneg 2 (e2 - e1 - 1) ltac:(lia) ltac:(lia)).
  change (2 ^ 53) with (2 * 2 ^ 52) in Hm1. nia.
Qed.

(** Multiplication by a factor not below one is monotone. *)
Lemma fuzz_mono f x y : fuzz_ok f = true -> nonneg x = true -> nonneg y = true ->
  dle x y = true -> dle (dmul x f) (dmul y f) = true.
Proof.
  intros Hf Hx Hy Hxy.
  destruct (nonneg_cases y Hy) as [[s ->]|[->|(m2 & e2 & -> & Hb2)]].
  - assert (exists s', x = S754_zero s') as [s' ->]
      by (destruct (nonneg_cases x Hx) as [|[->|(? & ? & -> & _)]]; [done|destruct s..]; done).
    by apply fuzz_ok_inv in Hf as (fm & fe & -> & _); destruct s, s'.
  - pose proof (nonneg_fuzz f x Hf Hx) as Hn.
    apply fuzz_ok_inv in Hf as (fm & fe & -> & _).
    by destruct (dmul x (S754_finite false fm fe)) as [|[]| |[]].
  - pose proof (fuzz_inflates f _ Hf Hy) as Hi.
    destruct (nonneg_cases x Hx) as [[s ->]|[->|(m1 & e1 & -> & Hb1)]]; [|done|].
    { apply fuzz_ok_inv in Hf as (fm & fe & -> & _). eapply dle_trans; [|exact Hi]. by destruct s. }
    apply fuzz_ok_inv in Hf as (fm & fe & -> & Hfe & Hf).
    destruct (finite_order _ _ _ _ Hb1 Hb2 Hxy) as [He Hm].
    destruct (dmul_pack m1 e1 fm fe Hb1 Hfe Hf) as (-> & Hr1 & _).
    destruct (dmul_pack m2 e2 fm fe Hb2 Hfe Hf) as (-> & Hr2 & _).
    set (M1 := Zpos m1 * Zpos fm) in *. set (M2 := Zpos m2 * Zpos fm) in *.
    remember (e2 - e1) as d eqn:Ed. assert (0 < M1 /\ 0 < M2) as [? ?] by (unfold M1, M2; lia).
    assert (rexp (M2 * 2 ^ d) (e1 + fe) = rexp M2 (e2 + fe)) as Ex.
    { unfold rexp. rewrite Z.log2_mul_pow2 by lia. f_equal. lia. }
    rewrite <- (rnd_scale M2 _ d) by lia. rewrite <- Ex.
    replace (rexp (M2 * 2 ^ d) (e1 + fe) - (e2 + fe) + d)
      with (rexp (M2 * 2 ^ d) (e1 + fe) - (e1 + fe)) by lia.
    apply rounding_mono; [unfold M1, M2; nia|lia].
Qed.
#[export] Hint Resolve fuzz_inflates fuzz_mono nonneg_fuzz : pg.
