(* ===== verification/EquivClass.v ===== *)
(** * Equivalence classes ([src/backend/optimizer/path/equivclass.c])

    [process_equivalence], [get_eclass_for_sort_expr] and their helpers maintain the
    planner's union-find structure of equal expressions.  The heap of
    [EquivalenceClass] objects is a list, a pointer is an index into it, and
    [root->eq_classes] is a list of pointers.

    Expression trees are a type whose equality is the code's [equal()].  What other parts of
    the backend compute from an expression or an operator (types, collations, volatility,
    relids, catalog lookups) is the interface [ExprOps]. *)
From S2P Require Import Prelude Bitmapset BitmapsetSpec BitmapsetIter.
#[local] Open Scope Z_scope.

Abbreviation Oid := Z.
Definition RECORDOID : Oid := 2249.
Definition UINT_MAX : Z := 2 ^ 32 - 1.

Class ExprOps (Expr : Type) := {
  expr_eq_dec : EqDecision Expr;
  exprType : Expr -> Oid;
  exprCollation : Expr -> Oid;
  exprTypmod : Expr -> Z;
  applyRelabelType : Expr -> Oid -> Z -> Oid -> Expr;
  IsPolymorphicType : Oid -> bool;
  op_input_types : Oid -> Oid * Oid;
  op_strict : Oid -> bool;
  contain_volatile_functions : Expr -> bool;
  expression_returns_set : Expr -> bool;
  contain_agg_clause : Expr -> bool;
  contain_window_function : Expr -> bool;
  pull_varnos : Expr -> bitmapset
}.
#[export] Existing Instance expr_eq_dec.

Section EquivClass.
Context {Expr : Type} `{!ExprOps Expr}.

Record EquivalenceMember := {
  em_expr : Expr;
  em_relids : bitmapset;
  em_is_const : bool;
  em_is_child : bool;
  em_datatype : Oid;
  em_jdomain : nat
}.

Record EquivalenceClass := {
  ec_opfamilies : list Oid;
  ec_collation : Oid;
  ec_members : list EquivalenceMember;
  ec_sources : list nat;
  ec_derives : list nat;
  ec_relids : bitmapset;
  ec_has_const : bool;
  ec_has_volatile : bool;
  ec_broken : bool;
  ec_sortref : Z;
  ec_min_security : Z;
  ec_max_security : Z;
  ec_merged : option nat
}.

Record OpExpr := { opno : Oid; inputcollid : Oid; leftop : Expr; rightop : Expr }.

(** A mergejoinable clause; [ri_id] is its address. *)
Record RestrictInfo := {
  ri_id : nat;
  clause : OpExpr;
  left_relids : bitmapset;
  right_relids : bitmapset;
  mergeopfamilies : list Oid;
  security_level : Z;
  leakproof : bool;
  left_ec : option nat;
  right_ec : option nat;
  left_em : option EquivalenceMember;
  right_em : option EquivalenceMember;
  outer_is_left : bool
}.

(** The part of [PlannerInfo] these routines use.  [eclass_indexes] holds the field of that
    name of every entry of [simple_rel_array]; [None] is a NULL entry. *)
Record ECRoot := {
  ec_heap : list EquivalenceClass;
  eq_classes : list nat;
  ec_merging_done : bool;
  eclass_indexes : list (option bitmapset);
  top_jdomain : nat
}.

Definition null_ec : EquivalenceClass :=
  {| ec_opfamilies := []; ec_collation := 0; ec_members := []; ec_sources := [];
     ec_derives := []; ec_relids := None; ec_has_const := false; ec_has_volatile := false;
     ec_broken := false; ec_sortref := 0; ec_min_security := 0; ec_max_security := 0;
     ec_merged := None |}.

Definition get_ec (root : ECRoot) (p : nat) : EquivalenceClass := nth p (ec_heap root) null_ec.
Definition set_ec (root : ECRoot) (p : nat) (ec : EquivalenceClass) : ECRoot :=
  {| ec_heap := <[p := ec]> (ec_heap root); eq_classes := eq_classes root;
     ec_merging_done := ec_merging_done root; eclass_indexes := eclass_indexes root;
     top_jdomain := top_jdomain root |}.
Definition set_eq_classes (root : ECRoot) (l : list nat) : ECRoot :=
  {| ec_heap := ec_heap root; eq_classes := l;
     ec_merging_done := ec_merging_done root; eclass_indexes := eclass_indexes root;
     top_jdomain := top_jdomain root |}.
(** [makeNode] followed by [lappend(root->eq_classes, ec)]. *)
Definition new_ec (root : ECRoot) (ec : EquivalenceClass) : nat * ECRoot :=
  let p := length (ec_heap root) in
  (p, {| ec_heap := ec_heap root ++ [ec]; eq_classes := eq_classes root ++ [p];
         ec_merging_done := ec_merging_done root; eclass_indexes := eclass_indexes root;
         top_jdomain := top_jdomain root |}).

Definition canonicalize_ec_expression (expr : Expr) (req_type req_collation : Oid) : Expr :=
  let expr_type := exprType expr in
  let req_type :=
    if IsPolymorphicType req_type || (req_type =? RECORDOID) then expr_type else req_type in
  if negb (expr_type =? req_type) || negb (exprCollation expr =? req_collation) then
    let req_typmod := if negb (expr_type =? req_type) then -1 else exprTypmod expr in
    applyRelabelType expr req_type req_typmod req_collation
  else expr.

Definition bms_is_empty (a : bitmapset) : bool := match a with None => true | Some _ => false end.

Definition add_eq_member (ec : EquivalenceClass) (expr : Expr) (relids : bitmapset)
    (jdomain : nat) (has_parent : bool) (datatype : Oid) : EquivalenceMember * EquivalenceClass :=
  let em := {| em_expr := expr; em_relids := relids; em_is_const := bms_is_empty relids;
               em_is_child := has_parent; em_datatype := datatype; em_jdomain := jdomain |} in
  (em,
   {| ec_opfamilies := ec_opfamilies ec; ec_collation := ec_collation ec;
      ec_members := ec_members ec ++ [em];
      ec_sources := ec_sources ec; ec_derives := ec_derives ec;
      ec_relids :=
        if bms_is_empty relids then ec_relids ec
        else if negb has_parent then bms_add_members (ec_relids ec) relids
        else ec_relids ec;
      ec_has_const := if bms_is_empty relids then true else ec_has_const ec;
      ec_has_volatile := ec_has_volatile ec; ec_broken := ec_broken ec;
      ec_sortref := ec_sortref ec; ec_min_security := ec_min_security ec;
      ec_max_security := ec_max_security ec; ec_merged := ec_merged ec |}).

(** [ec_sources = lappend(...)] with the security bounds widened by the clause. *)
Definition add_source (ec : EquivalenceClass) (ri : RestrictInfo) : EquivalenceClass :=
  {| ec_opfamilies := ec_opfamilies ec; ec_collation := ec_collation ec;
     ec_members := ec_members ec; ec_sources := ec_sources ec ++ [ri_id ri];
     ec_derives := ec_derives ec; ec_relids := ec_relids ec; ec_has_const := ec_has_const ec;
     ec_has_volatile := ec_has_volatile ec; ec_broken := ec_broken ec;
     ec_sortref := ec_sortref ec;
     ec_min_security := Z.min (ec_min_security ec) (security_level ri);
     ec_max_security := Z.max (ec_max_security ec) (security_level ri);
     ec_merged := ec_merged ec |}.

Definition mark_ri (ri : RestrictInfo) (ec : nat) (em1 em2 : EquivalenceMember) : RestrictInfo :=
  {| ri_id := ri_id ri; clause := clause ri; left_relids := left_relids ri;
     right_relids := right_relids ri; mergeopfamilies := mergeopfamilies ri;
     security_level := security_level ri; leakproof := leakproof ri;
     left_ec := Some ec; right_ec := Some ec; left_em := Some em1; right_em := Some em2;
     outer_is_left := outer_is_left ri |}.

(** ** The sweep over the existing classes

    [fec1]/[fem1] and [fec2]/[fem2] are what has been found so far for the two sides,
    [ec2_idx] the position of the second class in [eq_classes]. *)
Record Found := {
  fec1 : option nat; fem1 : option EquivalenceMember;
  fec2 : option nat; fem2 : option EquivalenceMember;
  ec2_idx : Z
}.
Definition nothing_found : Found :=
  {| fec1 := None; fem1 := None; fec2 := None; fem2 := None; ec2_idx := -1 |}.
Definition found1 (f : Found) (p : nat) (em : EquivalenceMember) : Found :=
  {| fec1 := Some p; fem1 := Some em; fec2 := fec2 f; fem2 := fem2 f; ec2_idx := ec2_idx f |}.
Definition found2 (f : Found) (p : nat) (em : EquivalenceMember) (idx : Z) : Found :=
  {| fec1 := fec1 f; fem1 := fem1 f; fec2 := Some p; fem2 := Some em; ec2_idx := idx |}.

Definition is_set {A} (o : option A) : bool := match o with Some _ => true | None => false end.

Definition em_matches (em : EquivalenceMember) (item : Expr) (type : Oid) : bool :=
  (type =? em_datatype em) && bool_decide (item = em_expr em).

Section Sweep.
Variables (item1 item2 : Expr) (item1_type item2_type : Oid) (jdomain : nat).
Variables (collation : Oid) (opfamilies : list Oid).

(** The loop over [cur_ec->ec_members]. *)
Fixpoint sweep_members (cur_ec : nat) (idx : Z) (ems : list EquivalenceMember) (f : Found) : Found :=
  match ems with
  | [] => f
  | cur_em :: rest =>
      if em_is_const cur_em && negb (em_jdomain cur_em =? jdomain)%nat then
        sweep_members cur_ec idx rest f
      else
        let hit1 := negb (is_set (fec1 f)) && em_matches cur_em item1 item1_type in
        let f := if hit1 then found1 f cur_ec cur_em else f in
        if hit1 && is_set (fec2 f) then f
        else
          let hit2 := negb (is_set (fec2 f)) && em_matches cur_em item2 item2_type in
          let f := if hit2 then found2 f cur_ec cur_em idx else f in
          if hit2 && is_set (fec1 f) then f
          else sweep_members cur_ec idx rest f
  end.

Definition ec_compatible (ec : EquivalenceClass) : bool :=
  negb (ec_has_volatile ec) && (collation =? ec_collation ec) &&
  bool_decide (opfamilies = ec_opfamilies ec).

(** The loop over [root->eq_classes]. *)
Fixpoint sweep_classes (root : ECRoot) (classes : list nat) (idx : Z) (f : Found) : Found :=
  match classes with
  | [] => f
  | p :: rest =>
      if negb (ec_compatible (get_ec root p)) then sweep_classes root rest (idx + 1) f
      else
        let f := sweep_members p idx (ec_members (get_ec root p)) f in
        if is_set (fec1 f) && is_set (fec2 f) then f
        else sweep_classes root rest (idx + 1) f
  end.
End Sweep.

(** Case 2: [ec2]'s contents move to [ec1]; [ec2] is left behind with a link. *)
Definition merge_into_ec1 (ec1 ec2 : EquivalenceClass) : EquivalenceClass :=
  {| ec_opfamilies := ec_opfamilies ec1; ec_collation := ec_collation ec1;
     ec_members := ec_members ec1 ++ ec_members ec2;
     ec_sources := ec_sources ec1 ++ ec_sources ec2;
     ec_derives := ec_derives ec1 ++ ec_derives ec2;
     ec_relids := bms_join (ec_relids ec1) (ec_relids ec2);
     ec_has_const := ec_has_const ec1 || ec_has_const ec2;
     ec_has_volatile := ec_has_volatile ec1; ec_broken := ec_broken ec1;
     ec_sortref := ec_sortref ec1;
     ec_min_security := Z.min (ec_min_security ec1) (ec_min_security ec2);
     ec_max_security := Z.max (ec_max_security ec1) (ec_max_security ec2);
     ec_merged := ec_merged ec1 |}.

Definition emptied_ec2 (ec2 : EquivalenceClass) (p1 : nat) : EquivalenceClass :=
  {| ec_opfamilies := ec_opfamilies ec2; ec_collation := ec_collation ec2;
     ec_members := []; ec_sources := []; ec_derives := []; ec_relids := None;
     ec_has_const := ec_has_const ec2; ec_has_volatile := ec_has_volatile ec2;
     ec_broken := ec_broken ec2; ec_sortref := ec_sortref ec2;
     ec_min_security := ec_min_security ec2; ec_max_security := ec_max_security ec2;
     ec_merged := Some p1 |}.

Definition list_delete_nth {A} (n : nat) (l : list A) : list A := take n l ++ drop (S n) l.

(** Outcome of [process_equivalence]: [Rejected None] returns false, [Rejected (Some e)] also
    replaces the clause by [e IS NOT NULL], [Absorbed] returns true with the clause marked. *)
Inductive Outcome :=
  | Rejected (not_null : option Expr)
  | Absorbed (ri : RestrictInfo).

Definition too_late_msg : string := "too late to merge equivalence classes".

Definition process_equivalence (root : ECRoot) (ri : RestrictInfo) (jdomain : nat)
    : result (Outcome * ECRoot) :=
  if (0 <? security_level ri) && negb (leakproof ri) then Ok (Rejected None, root)
  else
    let op := clause ri in
    let collation := inputcollid op in
    let item1 := canonicalize_ec_expression (leftop op) (exprType (leftop op)) collation in
    let item2 := canonicalize_ec_expression (rightop op) (exprType (rightop op)) collation in
    if bool_decide (item1 = item2) then
      Ok (Rejected (if op_strict (opno op) then Some item1 else None), root)
    else
      let '(item1_type, item2_type) := op_input_types (opno op) in
      let opfamilies := mergeopfamilies ri in
      let f := sweep_classes item1 item2 item1_type item2_type jdomain collation opfamilies
                 root (eq_classes root) 0 nothing_found in
      match fec1 f, fem1 f, fec2 f, fem2 f with
      | Some ec1, Some em1, Some ec2, Some em2 =>
          if (ec1 =? ec2)%nat then
            Ok (Absorbed (mark_ri ri ec1 em1 em2), set_ec root ec1 (add_source (get_ec root ec1) ri))
          else if ec_merging_done root then Error too_late_msg
          else
            let e1 := add_source (merge_into_ec1 (get_ec root ec1) (get_ec root ec2)) ri in
            let root := set_ec root ec1 e1 in
            let root := set_ec root ec2 (emptied_ec2 (get_ec root ec2) ec1) in
            let root := set_eq_classes root
                          (list_delete_nth (Z.to_nat (ec2_idx f)) (eq_classes root)) in
            Ok (Absorbed (mark_ri ri ec1 em1 em2), root)
      | Some ec1, Some em1, _, _ =>
          let '(em2, e1) := add_eq_member (get_ec root ec1) item2 (right_relids ri) jdomain false item2_type in
          Ok (Absorbed (mark_ri ri ec1 em1 em2), set_ec root ec1 (add_source e1 ri))
      | _, _, Some ec2, Some em2 =>
          let '(em1, e2) := add_eq_member (get_ec root ec2) item1 (left_relids ri) jdomain false item1_type in
          Ok (Absorbed (mark_ri ri ec2 em1 em2), set_ec root ec2 (add_source e2 ri))
      | _, _, _, _ =>
          let ec := {| ec_opfamilies := opfamilies; ec_collation := collation; ec_members := [];
                       ec_sources := [ri_id ri]; ec_derives := []; ec_relids := None;
                       ec_has_const := false; ec_has_volatile := false; ec_broken := false;
                       ec_sortref := 0; ec_min_security := security_level ri;
                       ec_max_security := security_level ri; ec_merged := None |} in
          let '(em1, ec) := add_eq_member ec item1 (left_relids ri) jdomain false item1_type in
          let '(em2, ec) := add_eq_member ec item2 (right_relids ri) jdomain false item2_type in
          let '(p, root) := new_ec root ec in
          Ok (Absorbed (mark_ri ri p em1 em2), root)
      end.

(** ** Sort expressions *)
Fixpoint sort_member_match (rel : bitmapset) (jdomain : nat) (opcintype : Oid) (expr : Expr)
    (ems : list EquivalenceMember) : bool :=
  match ems with
  | [] => false
  | cur_em :: rest =>
      if em_is_child cur_em && negb (bms_equal (em_relids cur_em) rel) then
        sort_member_match rel jdomain opcintype expr rest
      else if em_is_const cur_em && negb (em_jdomain cur_em =? jdomain)%nat then
        sort_member_match rel jdomain opcintype expr rest
      else if em_matches cur_em expr opcintype then true
      else sort_member_match rel jdomain opcintype expr rest
  end.

Fixpoint sort_class_search (root : ECRoot) (rel : bitmapset) (jdomain : nat) (opfamilies : list Oid)
    (opcintype collation : Oid) (sortref : Z) (expr : Expr) (classes : list nat) : option nat :=
  match classes with
  | [] => None
  | p :: rest =>
      let cur_ec := get_ec root p in
      let continue := sort_class_search root rel jdomain opfamilies opcintype collation sortref expr rest in
      if ec_has_volatile cur_ec && ((sortref =? 0) || negb (sortref =? ec_sortref cur_ec)) then continue
      else if negb (collation =? ec_collation cur_ec) then continue
      else if negb (bool_decide (opfamilies = ec_opfamilies cur_ec)) then continue
      else if sort_member_match rel jdomain opcintype expr (ec_members cur_ec) then Some p
      else continue
  end.

(** What the loop below asserts about the entries of [simple_rel_array]: [rk_outer_join i] is membership of [i] in
    [outer_join_rels], [rk_baserel i] that the entry's [reloptkind] is [RELOPT_BASEREL]. *)
Record RelKinds := { rk_outer_join : Z -> bool; rk_baserel : Z -> bool }.

(** [while ((i = bms_next_member(newec->ec_relids, i)) > 0)] *)
Fixpoint mark_eclass_indexes (fuel : nat) (kinds : RelKinds) (relids : bitmapset) (i ec_index : Z)
    (rels : list (option bitmapset)) : result (list (option bitmapset)) :=
  match fuel with
  | O => NoFuel
  | S fuel =>
      let i := next_member relids i in
      if i >? 0 then
        rel ← array_get rels i;
        match rel with
        | None => if rk_outer_join kinds i then mark_eclass_indexes fuel kinds relids i ec_index rels else Error assert_msg
        | Some indexes =>
            if negb (rk_baserel kinds i) then Error assert_msg
            else
              indexes ← bms_add_member indexes ec_index;
              mark_eclass_indexes fuel kinds relids i ec_index (<[Z.to_nat i := Some indexes]> rels)
        end
      else Ok rels
  end.

Definition no_sortref_msg : string := "volatile EquivalenceClass has no sortref".

Definition clear_const (em : EquivalenceMember) : EquivalenceMember :=
  {| em_expr := em_expr em; em_relids := em_relids em; em_is_const := false;
     em_is_child := em_is_child em; em_datatype := em_datatype em; em_jdomain := em_jdomain em |}.

Definition get_eclass_for_sort_expr (kinds : RelKinds) (root : ECRoot) (expr : Expr) (opfamilies : list Oid)
    (opcintype collation : Oid) (sortref : Z) (rel : bitmapset) (create_it : bool)
    : result (option nat * ECRoot) :=
  let expr := canonicalize_ec_expression expr opcintype collation in
  let jdomain := top_jdomain root in
  match sort_class_search root rel jdomain opfamilies opcintype collation sortref expr (eq_classes root) with
  | Some cur_ec => Ok (Some cur_ec, root)
  | None =>
      if negb create_it then Ok (None, root)
      else
        let has_volatile := contain_volatile_functions expr in
        let newec := {| ec_opfamilies := opfamilies; ec_collation := collation; ec_members := [];
                        ec_sources := []; ec_derives := []; ec_relids := None;
                        ec_has_const := false; ec_has_volatile := has_volatile;
                        ec_broken := false; ec_sortref := sortref; ec_min_security := UINT_MAX;
                        ec_max_security := 0; ec_merged := None |} in
        if has_volatile && (sortref =? 0) then Error no_sortref_msg
        else
          let '(newem, newec) := add_eq_member newec expr (pull_varnos expr) jdomain false opcintype in
          let wrongly_const := ec_has_const newec &&
            (has_volatile || expression_returns_set expr || contain_agg_clause expr
             || contain_window_function expr) in
          let newec := if wrongly_const then
            {| ec_opfamilies := ec_opfamilies newec; ec_collation := ec_collation newec;
               ec_members := [clear_const newem]; ec_sources := []; ec_derives := [];
               ec_relids := ec_relids newec; ec_has_const := false;
               ec_has_volatile := has_volatile; ec_broken := false; ec_sortref := sortref;
               ec_min_security := UINT_MAX; ec_max_security := 0; ec_merged := None |}
            else newec in
          let '(p, root) := new_ec root newec in
          if ec_merging_done root then
            rels ← mark_eclass_indexes (Z.to_nat (bms_capacity (ec_relids newec)) + 2)
                     kinds (ec_relids newec) (-1) (Z.of_nat (length (eq_classes root)) - 1)
                     (eclass_indexes root);
            Ok (Some p, {| ec_heap := ec_heap root; eq_classes := eq_classes root;
                           ec_merging_done := ec_merging_done root; eclass_indexes := rels;
                           top_jdomain := top_jdomain root |})
          else Ok (Some p, root)
  end.

(** [while (eclass->ec_merged) eclass = eclass->ec_merged;] *)
Fixpoint chase_merged (fuel : nat) (root : ECRoot) (p : nat) : result nat :=
  match fuel with
  | O => NoFuel
  | S f => match ec_merged (get_ec root p) with
           | Some q => chase_merged f root q
           | None => Ok p
           end
  end.
Definition canonical_ec (root : ECRoot) (p : nat) : result nat :=
  chase_merged (S (length (ec_heap root))) root p.

(** The fields of [RelOptInfo] that the pathkey and equivalence-class code reads. *)
Record RelInfo := {
  rel_relids : bitmapset;
  is_other_rel : bool;
  top_parent_relids : bitmapset;
  has_eclass_joins : bool;
  joininfo : list RestrictInfo
}.

Definition eclass_useful_for_merging (eclass : EquivalenceClass) (rel : RelInfo) : result bool :=
  if is_set (ec_merged eclass) then Error assert_msg
  else if ec_has_const eclass || (length (ec_members eclass) <=? 1)%nat then Ok false
  else
    relids ← (if is_other_rel rel then
                if bms_is_empty (top_parent_relids rel) then Error assert_msg else Ok (top_parent_relids rel)
              else Ok (rel_relids rel));
    if bms_is_subset (ec_relids eclass) relids then Ok false
    else Ok (existsb (fun cur_em => negb (em_is_child cur_em) && negb (bms_overlap (em_relids cur_em) relids))
               (ec_members eclass)).
End EquivClass.

Arguments EquivalenceMember Expr : clear implicits.
Arguments EquivalenceClass Expr : clear implicits.
Arguments OpExpr Expr : clear implicits.
Arguments RestrictInfo Expr : clear implicits.
Arguments ECRoot Expr : clear implicits.
Arguments RelInfo Expr : clear implicits.
Arguments Outcome Expr : clear implicits.
Arguments Found Expr : clear implicits.
