(* ===== verification/EquivClassProps.v ===== *)
(** * Correctness of the equivalence-class machinery

    The specification of a set of equivalence classes is an equivalence relation on keys
    (an expression with its nominal type, tagged with its join domain when it is a
    pseudoconstant), separately for every signature (collation and operator families).
    [process_equivalence] implements "add this pair and close", and the
    [ec_merged] links of absorbed classes always lead to the live class. *)
From stdpp Require Import relations.
From S2P Require Import Prelude Bitmapset BitmapsetSpec BitmapsetIter EquivClass.
#[local] Open Scope Z_scope.

Section Props.
Context {Expr : Type} `{!ExprOps Expr}.
Implicit Types (root : ECRoot Expr) (em : EquivalenceMember Expr) (ec : EquivalenceClass Expr).
Implicit Types (ri : RestrictInfo Expr).

Definition key : Type := Oid * Expr * option nat.
Definition signature : Type := Oid * list Oid.

#[global] Instance key_eq_dec : EqDecision key := _.

Definition em_key em : key :=
  (em_datatype em, em_expr em, if em_is_const em then Some (em_jdomain em) else None).
Definition ec_keys ec : list key := em_key <$> ec_members ec.
Definition ec_sig ec : signature := (ec_collation ec, ec_opfamilies ec).

(** What [equivclass.c] takes for a pseudoconstant. *)
Definition const_expr (e : Expr) : bool :=
  bms_is_empty (pull_varnos e) &&
  negb (contain_volatile_functions e || expression_returns_set e || contain_agg_clause e
        || contain_window_function e).

Definition item_key (type : Oid) (e : Expr) (jd : nat) : key :=
  (type, e, if const_expr e then Some jd else None).

(** A member as these routines build it: marked as constant exactly when it is one, and not
    a child member (those are added later). *)
Definition em_ok em : Prop :=
  em_is_const em = const_expr (em_expr em) /\ em_is_child em = false.

(** [p] is a live class of signature [s] in which expressions may be matched. *)
Definition live root (s : signature) (p : nat) : Prop :=
  p ∈ eq_classes root /\ ec_has_volatile (get_ec root p) = false /\ ec_sig (get_ec root p) = s.

Definition same root (s : signature) (a b : key) : Prop :=
  exists p, live root s p /\ a ∈ ec_keys (get_ec root p) /\ b ∈ ec_keys (get_ec root p).

Record ec_inv root : Prop := {
  inv_nodup : NoDup (eq_classes root);
  inv_bound : forall p, p ∈ eq_classes root -> (p < length (ec_heap root))%nat;
  inv_live : forall p, (p < length (ec_heap root))%nat ->
    p ∈ eq_classes root <-> ec_merged (get_ec root p) = None;
  inv_const : forall p em, p ∈ eq_classes root -> em ∈ ec_members (get_ec root p) -> em_ok em;
  inv_disjoint : forall s k p q, live root s p -> live root s q ->
    k ∈ ec_keys (get_ec root p) -> k ∈ ec_keys (get_ec root q) -> p = q;
  inv_count : (length (eq_classes root) <= length (ec_heap root))%nat;
  inv_rank : exists rank : nat -> nat, let n := (length (ec_heap root) - length (eq_classes root))%nat in
    forall p, (p < length (ec_heap root))%nat ->
      match ec_merged (get_ec root p) with
      | None => rank p = n
      | Some q => (q < length (ec_heap root))%nat /\ (rank p < rank q)%nat /\ (rank p < n)%nat
      end
}.

(** ** Heap updates *)
Lemma get_set_ec root p q e : (p < length (ec_heap root))%nat ->
  get_ec (set_ec root p e) q = if decide (p = q) then e else get_ec root q.
Proof.
  intros Hp. unfold get_ec, set_ec. simpl. rewrite !nth_lookup.
  case_decide as E; [subst; by rewrite list_lookup_insert_eq|by rewrite list_lookup_insert_ne].
Qed.

Lemma get_new_ec root e q :
  get_ec (new_ec root e).2 q
    = if decide (q = length (ec_heap root)) then e else get_ec root q.
Proof.
  unfold get_ec, new_ec. simpl. rewrite !nth_lookup.
  case_decide as E; [subst; by rewrite lookup_app_r, Nat.sub_diag by lia|].
  destruct (decide (q < length (ec_heap root))%nat).
  - by rewrite lookup_app_l.
  - rewrite lookup_app_r, (lookup_ge_None_2 (ec_heap root)) by lia.
    by rewrite lookup_ge_None_2 by (simpl; lia).
Qed.

Lemma same_sym root s a b : same root s a b -> same root s b a.
Proof. intros (p & ? & ? & ?). by exists p. Qed.

Lemma same_trans root s a b c : ec_inv root -> same root s a b -> same root s b c -> same root s a c.
Proof.
  intros Hi (p & Hp & Ha & Hb) (q & Hq & Hb' & Hc).
  assert (p = q) as <- by (by eapply inv_disjoint). by exists p.
Qed.

(** ** The sweep

    The two searches of the sweep do not disturb each other: each side ends up with the
    first compatible class that has a matching member. *)
Definition matches em (item : Expr) (type : Oid) (jd : nat) : bool :=
  negb (em_is_const em && negb (em_jdomain em =? jd)%nat) && em_matches em item type.

Lemma matches_key em item type jd : em_ok em ->
  matches em item type jd = true <-> em_key em = item_key type item jd.
Proof.
  intros [Hc _]. unfold matches, em_matches, em_key, item_key. rewrite Hc.
  rewrite !andb_true_iff, Z.eqb_eq, bool_decide_eq_true, negb_true_iff. split.
  - intros (Hj & -> & ->). destruct (const_expr (em_expr em)); [|done].
    simpl in Hj. apply negb_false_iff, Nat.eqb_eq in Hj. by rewrite Hj.
  - intros [= -> -> Hj]. destruct (const_expr item); [|done]. injection Hj as ->.
    by rewrite Nat.eqb_refl.
Qed.

Definition first_of {A} (o d : option A) : option A := match o with Some _ => o | None => d end.
Definition found_ok (f : Found Expr) : Prop :=
  is_set (fec1 f) = is_set (fem1 f) /\ is_set (fec2 f) = is_set (fem2 f).

Section Sweep.
Variables (item1 item2 : Expr) (type1 type2 : Oid) (jd : nat).
Variables (coll : Oid) (opf : list Oid).
#[local] Abbreviation sweep_m := (sweep_members item1 item2 type1 type2 jd).
#[local] Abbreviation sweep_c := (sweep_classes item1 item2 type1 type2 jd coll opf).

Definition has_match (item : Expr) (type : Oid) ec : bool :=
  existsb (fun em => matches em item type jd) (ec_members ec).

Lemma sweep_members_spec p idx ems f :
  let f' := sweep_m p idx ems f in
  fec1 f' = first_of (fec1 f) (if existsb (fun em => matches em item1 type1 jd) ems then Some p else None) /\
  fec2 f' = first_of (fec2 f) (if existsb (fun em => matches em item2 type2 jd) ems then Some p else None) /\
  (found_ok f -> found_ok f') /\
  ec2_idx f' = (if is_set (fec2 f) then ec2_idx f else if is_set (fec2 f') then idx else ec2_idx f).
Proof.
  revert f. induction ems as [|em ems IH]; intros f; simpl.
  { destruct (fec1 f), (fec2 f) eqn:E; rewrite ?E; done. }
  unfold matches at 1 3. destruct (em_is_const em && negb (em_jdomain em =? jd)%nat); simpl; [apply IH|].
  destruct f as [[x1|] m1 [x2|] m2 i]; simpl;
    destruct (em_matches em item1 type1), (em_matches em item2 type2); simpl;
    try (split_and!; [done..| |done]; unfold found_ok; simpl; tauto);
    match goal with |- context [sweep_m p idx ems ?g] => destruct (IH g) as (H1 & H2 & H3 & H4) end;
    rewrite H1, H2, H4; unfold found_ok in *; simpl in *;
    split_and!; try done; try tauto;
    by rewrite ?H2; destruct (existsb _ _).
Qed.

Definition find_match root (item : Expr) (type : Oid) (classes : list nat) : option nat :=
  find (fun p => ec_compatible coll opf (get_ec root p) && has_match item type (get_ec root p)) classes.

Lemma sweep_classes_spec root classes idx f :
  let f' := sweep_c root classes idx f in
  fec1 f' = first_of (fec1 f) (find_match root item1 type1 classes) /\
  fec2 f' = first_of (fec2 f) (find_match root item2 type2 classes) /\
  (found_ok f -> found_ok f') /\
  (fec2 f = None -> forall p, fec2 f' = Some p ->
     idx <= ec2_idx f' /\ classes !! Z.to_nat (ec2_idx f' - idx) = Some p) /\
  (is_set (fec2 f) = true -> ec2_idx f' = ec2_idx f).
Proof.
  revert idx f. induction classes as [|p classes IH]; intros idx f.
  { simpl. destruct (fec1 f), (fec2 f); split_and!; done. }
  cbn [sweep_classes]. unfold find_match. cbn [find]. fold (find_match root item1 type1 classes).
  fold (find_match root item2 type2 classes).
  assert (forall g, (fec2 g = None -> forall q, fec2 (sweep_c root classes (idx + 1) g) = Some q ->
      idx <= ec2_idx (sweep_c root classes (idx + 1) g) /\
      (p :: classes) !! Z.to_nat (ec2_idx (sweep_c root classes (idx + 1) g) - idx) = Some q)) as Hrest.
  { intros g Hg q Hq. destruct (IH (idx + 1) g) as (_ & _ & _ & H4 & _).
    destruct (H4 Hg q Hq) as [Hi Hl]. split; [lia|].
    replace (Z.to_nat (ec2_idx (sweep_c root classes (idx + 1) g) - idx))
      with (S (Z.to_nat (ec2_idx (sweep_c root classes (idx + 1) g) - (idx + 1)))) by lia. done. }
  destruct (ec_compatible coll opf (get_ec root p)); simpl negb; cbn [andb]; cbv iota.
  2: { destruct (IH (idx + 1) f) as (H1 & H2 & H3 & _ & H5). split_and!; auto. }
  destruct (sweep_members_spec p idx (ec_members (get_ec root p)) f) as (M1 & M2 & M3 & M4).
  fold (has_match item1 type1 (get_ec root p)) in M1. fold (has_match item2 type2 (get_ec root p)) in M2.
  set (g := sweep_m p idx (ec_members (get_ec root p)) f) in *.
  destruct (is_set (fec1 g) && is_set (fec2 g)) eqn:Eb.
  - apply andb_prop in Eb as [E1 E2]. rewrite M1 in E1. rewrite M2 in E2. rewrite M1, M2.
    destruct (fec1 f), (fec2 f), (has_match item1 type1 _), (has_match item2 type2 _); try done;
      split_and!; auto; try done; intros _ q [= <-]; rewrite M4, M2; simpl;
      (split; [lia|by rewrite Z.sub_diag]).
  - destruct (IH (idx + 1) g) as (H1 & H2 & H3 & _ & H5). rewrite H1, H2, M1, M2.
    split_and!; [by destruct (fec1 f), (has_match item1 type1 (get_ec root p))
                |by destruct (fec2 f), (has_match item2 type2 (get_ec root p))|auto| |].
    2: { intros Hf. rewrite H5, M4 by (rewrite M2; by destruct (fec2 f)). by rewrite Hf. }
    intros Hf q Hq. rewrite Hf in *. simpl in Hq, M2, M4.
    destruct (has_match item2 type2 (get_ec root p)) eqn:Em; simpl in Hq.
    + injection Hq as <-. rewrite H5, M4, M2 by (by rewrite M2). simpl. rewrite Z.sub_diag. split; [lia|done].
    + apply Hrest; [done|]. by rewrite H2, M2.
Qed.

(** The members found are members of the classes found, and match. *)
Definition found_in root (f : Found Expr) : Prop :=
  (forall p em, fec1 f = Some p -> fem1 f = Some em -> em ∈ ec_members (get_ec root p) /\ matches em item1 type1 jd = true) /\
  (forall p em, fec2 f = Some p -> fem2 f = Some em -> em ∈ ec_members (get_ec root p) /\ matches em item2 type2 jd = true).
Lemma sweep_members_found root p idx ems f : (forall em, em ∈ ems -> em ∈ ec_members (get_ec root p)) ->
  found_in root f -> found_in root (sweep_m p idx ems f).
Proof.
  revert f. induction ems as [|em ems IH]; intros f Hin Hf; [done|]. cbn [sweep_members].
  assert (forall em, em ∈ ems -> em ∈ ec_members (get_ec root p)) as Hin' by (intros x Hx; apply Hin; by right).
  destruct (em_is_const em && negb (em_jdomain em =? jd)%nat) eqn:Ec; [by apply IH|].
  assert (forall item type, em_matches em item type = true -> em ∈ ec_members (get_ec root p) /\ matches em item type jd = true) as Hm.
  { intros item type H. split; [apply Hin; by left|]. unfold matches. by rewrite Ec, H. }
  set (hit1 := negb (is_set (fec1 f)) && em_matches em item1 type1). set (g := if hit1 then found1 f p em else f).
  assert (found_in root g) as Hg.
  { unfold g. destruct hit1 eqn:E1; [|done]. apply andb_prop in E1 as [_ E1]. split; [|apply Hf].
    intros q em' [= <-] [= <-]. by apply Hm. }
  destruct (hit1 && is_set (fec2 g)); [done|].
  set (hit2 := negb (is_set (fec2 g)) && em_matches em item2 type2).
  assert (found_in root (if hit2 then found2 g p em idx else g)) as Hh.
  { destruct hit2 eqn:E2; [|done]. apply andb_prop in E2 as [_ E2]. split; [apply Hg|].
    intros q em' [= <-] [= <-]. by apply Hm. }
  destruct (hit2 && _); [done|by apply IH].
Qed.
Lemma sweep_classes_found root classes idx f : found_in root f -> found_in root (sweep_c root classes idx f).
Proof.
  revert idx f. induction classes as [|p classes IH]; intros idx f Hf; [done|]. cbn [sweep_classes].
  destruct (negb _); [by apply IH|]. assert (found_in root (sweep_m p idx (ec_members (get_ec root p)) f)) as Hg
    by (by apply sweep_members_found). destruct (_ && _); [done|by apply IH].
Qed.

Lemma ec_compatible_spec ec :
  ec_compatible coll opf ec = true <-> ec_has_volatile ec = false /\ ec_sig ec = (coll, opf).
Proof.
  unfold ec_compatible, ec_sig. rewrite !andb_true_iff, negb_true_iff, Z.eqb_eq, bool_decide_eq_true.
  split; [intros [[-> ->] ->]; done|intros [-> [= -> ->]]; done].
Qed.

Lemma has_match_key root item type p : ec_inv root -> p ∈ eq_classes root ->
  has_match item type (get_ec root p) = true <->
  item_key type item jd ∈ ec_keys (get_ec root p).
Proof.
  intros Hi Hp. unfold has_match, ec_keys. rewrite existsb_exists, list_elem_of_fmap.
  split; intros (em & H1 & H2); exists em.
  - apply list_elem_of_In in H1. split; [|done]. symmetry. apply matches_key; [|done].
    by eapply inv_const.
  - split; [by apply list_elem_of_In|]. apply matches_key; [|done]. by eapply inv_const.
Qed.

Lemma find_match_Some root item type p : ec_inv root ->
  find_match root item type (eq_classes root) = Some p ->
  live root (coll, opf) p /\ item_key type item jd ∈ ec_keys (get_ec root p).
Proof.
  intros Hi [Hin Hc]%find_some. apply list_elem_of_In in Hin.
  apply andb_prop in Hc as [[Hv Hs]%ec_compatible_spec Hm].
  split; [done|]. by apply has_match_key.
Qed.

Lemma find_match_None root item type p : ec_inv root ->
  find_match root item type (eq_classes root) = None ->
  live root (coll, opf) p -> item_key type item jd ∉ ec_keys (get_ec root p).
Proof.
  intros Hi Hn (Hp & Hv & Hs) Hk. pose proof (find_none _ _ Hn p) as H.
  rewrite <- list_elem_of_In in H. specialize (H Hp). simpl in H.
  apply has_match_key in Hk; [|done..]. rewrite Hk, andb_true_r in H.
  apply not_true_iff_false in H. apply H. by apply ec_compatible_spec.
Qed.
End Sweep.

(** ** Effects of the updates on the invariant *)
Lemma live_bound root s p : ec_inv root -> live root s p -> (p < length (ec_heap root))%nat.
Proof. intros Hi (Hp & _). by apply inv_bound. Qed.

Section Extend.
Variables (root : ECRoot Expr) (s : signature) (p : nat) (e : EquivalenceClass Expr).
Variable extra : list (EquivalenceMember Expr).
Hypothesis Hinv : ec_inv root.
Hypothesis Hp : live root s p.
Hypothesis Hsig : ec_sig e = s.
Hypothesis Hvol : ec_has_volatile e = false.
Hypothesis Hmerged : ec_merged e = None.
Hypothesis Hmem : ec_members e = ec_members (get_ec root p) ++ extra.
Hypothesis Hextra : forall em, em ∈ extra ->
  em_ok em /\
  forall q, live root s q -> em_key em ∈ ec_keys (get_ec root q) -> q = p.

Lemma extend_get q : get_ec (set_ec root p e) q = if decide (p = q) then e else get_ec root q.
Proof. apply get_set_ec. by eapply live_bound. Qed.

Lemma extend_live s' q : live (set_ec root p e) s' q <-> live root s' q.
Proof.
  unfold live. rewrite extend_get. case_decide; [subst q|done].
  destruct Hp as (Hin & Hv & Hs). rewrite Hvol, Hv, Hsig, Hs. done.
Qed.

Lemma extend_keys : ec_keys e = ec_keys (get_ec root p) ++ (em_key <$> extra).
Proof. unfold ec_keys. by rewrite Hmem, fmap_app. Qed.

Lemma extend_inv : ec_inv (set_ec root p e).
Proof.
  pose proof (live_bound _ _ _ Hinv Hp) as Hb. split.
  - apply Hinv.
  - intros q Hq. simpl. rewrite length_insert. by apply Hinv.
  - intros q. simpl. rewrite length_insert, extend_get. intros Hq. case_decide.
    + subst q. split; [done|intros _; apply Hp].
    + by apply Hinv.
  - intros q em Hq. rewrite extend_get. case_decide; [subst q|by apply Hinv].
    rewrite Hmem, elem_of_app. intros [H|H]; [by eapply inv_const|by apply Hextra].
  - intros s' k q1 q2 H1%extend_live H2%extend_live. rewrite !extend_get.
    assert (forall q, live root s' q -> k ∈ ec_keys e -> k ∈ ec_keys (get_ec root q) -> p <> q ->
              live root s' p -> False) as Haux.
    { intros q Hq Hk Hk' Hne Hp'. assert (s' = s) as -> by (destruct Hp' as (_ & _ & <-); apply Hp).
      rewrite extend_keys, elem_of_app in Hk. destruct Hk as [Hk|Hk].
      - by apply Hne, (inv_disjoint _ Hinv s k).
      - apply list_elem_of_fmap in Hk as (em & -> & Hem). apply Hne. symmetry.
        by apply (proj2 (Hextra em Hem)). }
    repeat case_decide; subst; try done; intros K1 K2;
      [exfalso; by apply (Haux q2)|exfalso; by apply (Haux q1)|].
    by apply (inv_disjoint _ Hinv s' k).
  - simpl. rewrite length_insert. apply Hinv.
  - destruct (inv_rank _ Hinv) as (rank & R). exists rank. simpl. rewrite length_insert.
    intros q Hq. rewrite extend_get. specialize (R q Hq). case_decide; [|done].
    subst q. rewrite Hmerged. by rewrite (proj1 (inv_live _ Hinv p Hb) (proj1 Hp)) in R.
Qed.
End Extend.

(** A new class whose keys are fresh. *)
Section New.
Variables (root : ECRoot Expr) (e : EquivalenceClass Expr).
#[local] Abbreviation root' := ((new_ec root e).2).
#[local] Abbreviation p0 := (length (ec_heap root)).
Hypothesis Hinv : ec_inv root.
Hypothesis Hmerged : ec_merged e = None.
Hypothesis Hconst : forall em, em ∈ ec_members e -> em_ok em.
Hypothesis Hfresh : ec_has_volatile e = false -> forall q k, live root (ec_sig e) q ->
  k ∈ ec_keys e -> k ∉ ec_keys (get_ec root q).

Lemma new_get_old q : q ∈ eq_classes root -> get_ec root' q = get_ec root q.
Proof.
  intros Hq. rewrite get_new_ec. case_decide; [|done]. pose proof (inv_bound _ Hinv q Hq). lia.
Qed.

Lemma new_get : get_ec root' p0 = e.
Proof. rewrite get_new_ec. by case_decide. Qed.

Lemma new_live s q :
  live root' s q <-> live root s q \/ (q = p0 /\ ec_has_volatile e = false /\ ec_sig e = s).
Proof.
  unfold live. simpl eq_classes. rewrite elem_of_app, list_elem_of_singleton. split.
  - intros ([Hq | ->] & H); [left; by rewrite (new_get_old q Hq) in H|right; by rewrite new_get in H].
  - intros [(Hq & H) | (-> & H)]; [split; [by left|by rewrite new_get_old]|].
    split; [by right|by rewrite new_get].
Qed.

Lemma new_inv : ec_inv root'.
Proof.
  split.
  - simpl. apply NoDup_app. split_and!; [apply Hinv| |apply NoDup_singleton].
    intros q Hq ->%list_elem_of_singleton. pose proof (inv_bound _ Hinv _ Hq). lia.
  - intros q. simpl. rewrite length_app, elem_of_app, list_elem_of_singleton. simpl.
    intros [Hq| ->]; [pose proof (inv_bound _ Hinv q Hq)|]; lia.
  - intros q. simpl eq_classes. simpl ec_heap. rewrite length_app, elem_of_app, list_elem_of_singleton.
    simpl length. intros Hq. rewrite get_new_ec. case_decide as E.
    + subst q. split; [done|by right].
    + rewrite <- (inv_live _ Hinv q) by lia. split; [by intros [|]|by left].
  - intros q em. simpl eq_classes. rewrite elem_of_app, list_elem_of_singleton. intros [Hq| ->].
    + rewrite new_get_old by done. by apply Hinv.
    + rewrite new_get. apply Hconst.
  - intros s k q1 q2 [H1|(-> & Hv & <-)]%new_live [H2|(-> & Hv' & Hs)]%new_live;
      rewrite ?new_get, ?new_get_old by (apply H1 || apply H2); try done.
    + by apply (inv_disjoint _ Hinv s k).
    + intros K1 K2. subst s. by destruct (Hfresh Hv' q1 k H1 K2).
    + intros K1 K2. by destruct (Hfresh Hv q2 k H2 K1).
  - simpl. rewrite !length_app. simpl. pose proof (inv_count _ Hinv). lia.
  - destruct (inv_rank _ Hinv) as (rank & R).
    exists (fun q => if decide (q = p0) then (p0 - length (eq_classes root))%nat else rank q).
    simpl ec_heap. simpl eq_classes. rewrite !length_app. simpl length. cbv zeta in *. intros q Hq.
    replace (p0 + 1 - (length (eq_classes root) + 1))%nat
      with (p0 - length (eq_classes root))%nat by lia.
    rewrite get_new_ec. case_decide as Eq; [by rewrite Hmerged|].
    specialize (R q ltac:(lia)). destruct (ec_merged (get_ec root q)) as [r|]; [|done].
    case_decide; lia.
Qed.
End New.

(** Two live classes become one. *)
Lemma elem_of_delete_nth {A} (l : list A) i x : NoDup l -> l !! i = Some x ->
  forall y, y ∈ list_delete_nth i l <-> y ∈ l /\ y <> x.
Proof.
  intros Hnd Hi y. unfold list_delete_nth.
  rewrite <- (take_drop_middle l i x Hi) in Hnd |- * at 3.
  apply NoDup_app in Hnd as (_ & Ht & [Hx _]%NoDup_cons).
  rewrite !elem_of_app, elem_of_cons. split.
  - intros [Hy|Hy]; (split; [tauto|]); intros ->; [|done]. apply (Ht x Hy). set_solver.
  - tauto.
Qed.

Lemma NoDup_delete_nth {A} (l : list A) i : NoDup l -> NoDup (list_delete_nth i l).
Proof.
  intros Hnd. eapply sublist_NoDup; [exact Hnd|]. unfold list_delete_nth.
  rewrite <- (take_drop i l) at 3. apply sublist_app; [done|].
  replace (S i) with (i + 1)%nat by lia. rewrite <- drop_drop. apply sublist_drop.
Qed.

Lemma length_delete_nth {A} (l : list A) i : (i < length l)%nat ->
  length (list_delete_nth i l) = (length l - 1)%nat.
Proof. intros Hi. unfold list_delete_nth. rewrite length_app, length_take, length_drop. lia. Qed.

Section Merge.
Variables (root : ECRoot Expr) (s : signature) (p1 p2 i : nat).
Variables (e1 e2 : EquivalenceClass Expr).
#[local] Abbreviation root' :=
  (set_eq_classes (set_ec (set_ec root p1 e1) p2 e2) (list_delete_nth i (eq_classes root))).
Hypothesis Hinv : ec_inv root.
Hypothesis Hp1 : live root s p1.
Hypothesis Hp2 : live root s p2.
Hypothesis Hne : p1 <> p2.
Hypothesis Hi : eq_classes root !! i = Some p2.
Hypothesis Hsig : ec_sig e1 = s.
Hypothesis Hvol : ec_has_volatile e1 = false.
Hypothesis Hm1 : ec_merged e1 = None.
Hypothesis Hm2 : ec_merged e2 = Some p1.
Hypothesis Hmem : ec_members e1 = ec_members (get_ec root p1) ++ ec_members (get_ec root p2).

Lemma merge_get q : get_ec root' q
  = if decide (p2 = q) then e2 else if decide (p1 = q) then e1 else get_ec root q.
Proof.
  pose proof (live_bound _ _ _ Hinv Hp1). pose proof (live_bound _ _ _ Hinv Hp2).
  change (get_ec root' q) with (get_ec (set_ec (set_ec root p1 e1) p2 e2) q).
  rewrite get_set_ec by (simpl; by rewrite length_insert). by rewrite get_set_ec.
Qed.

Lemma merge_keys : ec_keys e1 = ec_keys (get_ec root p1) ++ ec_keys (get_ec root p2).
Proof. unfold ec_keys. by rewrite Hmem, fmap_app. Qed.

Lemma merge_elem q : q ∈ list_delete_nth i (eq_classes root) <-> q ∈ eq_classes root /\ q <> p2.
Proof. apply elem_of_delete_nth; [apply Hinv|done]. Qed.

Lemma merge_live s' q : live root' s' q <-> live root s' q /\ q <> p2.
Proof.
  unfold live. simpl eq_classes. rewrite merge_elem, merge_get. repeat case_decide; try subst q;
    [by split; [intros ((_ & ?) & _)|intros [_ ?]]| |tauto].
  destruct Hp1 as (Hin & Hv & Hs). rewrite Hvol, Hv, Hs, Hsig. tauto.
Qed.

(** The pre-merge class that a key of a merged class comes from. *)
Lemma merge_origin s' q k : live root' s' q -> k ∈ ec_keys (get_ec root' q) ->
  exists q0, live root s' q0 /\ k ∈ ec_keys (get_ec root q0) /\ q = (if decide (q0 = p2) then p1 else q0).
Proof.
  intros [Hq Hq2]%merge_live. rewrite merge_get. repeat case_decide; try subst q; try done.
  - rewrite merge_keys, elem_of_app. intros [Hk|Hk]; [exists p1|exists p2].
    + split_and!; [done..|]. by rewrite decide_False.
    + assert (s' = s) as -> by (destruct Hq as (_ & _ & <-); apply Hp1).
      split_and!; [done..|]. by rewrite decide_True.
  - intros Hk. exists q. split_and!; [done..|]. by rewrite decide_False.
Qed.

Lemma merge_inv : ec_inv root'.
Proof.
  pose proof (live_bound _ _ _ Hinv Hp1) as Hb1. pose proof (live_bound _ _ _ Hinv Hp2) as Hb2.
  assert (length (ec_heap root') = length (ec_heap root)) as El by (simpl; by rewrite !length_insert).
  pose proof (lookup_lt_Some _ _ _ Hi) as Hil. pose proof (inv_count _ Hinv) as Hc.
  split; rewrite ?El; simpl eq_classes.
  - apply NoDup_delete_nth, Hinv.
  - intros q [Hq _]%merge_elem. by apply Hinv.
  - intros q Hq. rewrite merge_elem, merge_get. repeat case_decide; try subst q.
    + rewrite Hm2. by split; [intros [_ ?]|].
    + rewrite Hm1. split; [done|]. intros _. split; [apply Hp1|done].
    + rewrite <- (inv_live _ Hinv q Hq). split; [by intros [? _]|done].
  - intros q em [Hq Hq2]%merge_elem. rewrite merge_get. repeat case_decide; try subst q; [done| |by apply Hinv].
    rewrite Hmem, elem_of_app. intros [Hm|Hm]; [by eapply inv_const|]. eapply inv_const; [done|apply Hp2|done].
  - intros s' k q1 q2 L1 L2 K1 K2.
    destruct (merge_origin _ _ _ L1 K1) as (r1 & A1 & B1 & ->).
    destruct (merge_origin _ _ _ L2 K2) as (r2 & A2 & B2 & ->).
    by rewrite (inv_disjoint _ Hinv s' k r1 r2).
  - rewrite length_delete_nth by done. lia.
  - destruct (inv_rank _ Hinv) as (rank & R). cbv zeta in *. rewrite length_delete_nth by done.
    set (n := (length (ec_heap root) - length (eq_classes root))%nat) in *.
    replace (length (ec_heap root) - (length (eq_classes root) - 1))%nat with (S n) by lia.
    exists (fun q => if decide (q = p2) then n
              else if ec_merged (get_ec root q) is Some _ then rank q else S n).
    assert (forall q, (q < length (ec_heap root))%nat -> (rank q <= n)%nat) as Hle.
    { intros q Hq. specialize (R q Hq). destruct (ec_merged (get_ec root q)); lia. }
    intros q Hq. rewrite merge_get. pose proof (R q Hq) as Rq. repeat case_decide; try subst q; try done.
    + rewrite Hm2. rewrite (proj1 (inv_live _ Hinv p1 Hb1) (proj1 Hp1)).
      rewrite decide_False by done. lia.
    + rewrite Hm1. by rewrite (proj1 (inv_live _ Hinv p1 Hq) (proj1 Hp1)).
    + destruct (ec_merged (get_ec root q)) as [r|] eqn:Er; [|done]. destruct Rq as (Hr & Hlt & Hn).
      split; [done|]. pose proof (Hle r Hr). case_decide; [lia|].
      destruct (ec_merged (get_ec root r)); lia.
Qed.
End Merge.
End Props.

Arguments key Expr : clear implicits.
