(* ===== verification/EquivClassThms.v ===== *)
(** * Equivalence classes: the theorems

    Every step of the union-find structure "grows" it: classes only gain keys, and a pointer
    to a class that is absorbed later still leads to the class its keys moved to.  The
    theorems then compare reachable states with the equivalence closure of the absorbed
    clauses. *)
From stdpp Require Import relations.
From S2P Require Import Prelude Bitmapset BitmapsetSpec BitmapsetIter EquivClass EquivClassProps.
#[local] Open Scope Z_scope.

Section Thms.
Context {Expr : Type} `{!ExprOps Expr}.
Implicit Types (root : ECRoot Expr) (em : EquivalenceMember Expr) (ec : EquivalenceClass Expr).
Implicit Types (ri : RestrictInfo Expr) (k : key Expr).

Definition link root (p q : nat) : Prop :=
  (p < length (ec_heap root))%nat /\ ec_merged (get_ec root p) = Some q.

(** ** Following [ec_merged] *)
Lemma chase_rank root (rank : nat -> nat) n fuel p :
  (forall q, (q < length (ec_heap root))%nat ->
     match ec_merged (get_ec root q) with
     | None => rank q = n
     | Some r => (r < length (ec_heap root))%nat /\ (rank q < rank r)%nat /\ (rank q < n)%nat
     end) ->
  (p < length (ec_heap root))%nat -> (n - rank p < fuel)%nat ->
  exists q, chase_merged fuel root p = Ok q /\ rtc (link root) p q /\
    (q < length (ec_heap root))%nat /\ ec_merged (get_ec root q) = None.
Proof.
  intros HR. revert p. induction fuel as [|f IH]; intros p Hp Hf; [lia|]. cbn [chase_merged].
  pose proof (HR p Hp) as Hr. destruct (ec_merged (get_ec root p)) as [r|] eqn:E.
  - destruct Hr as (Hr & Hlt & Hn). destruct (IH r Hr) as (q & H1 & H2 & H3).
    { pose proof (HR r Hr). destruct (ec_merged (get_ec root r)); lia. }
    exists q. split; [done|]. split; [|done]. eapply rtc_l; [split; eauto|done].
  - exists p. split; [done|]. split; [reflexivity|done].
Qed.

Lemma canonical_ec_total root p : ec_inv root -> (p < length (ec_heap root))%nat ->
  exists q, canonical_ec root p = Ok q /\ rtc (link root) p q /\ q ∈ eq_classes root.
Proof.
  intros Hi Hp. destruct (inv_rank _ Hi) as (rank & R). cbv zeta in R.
  destruct (chase_rank root rank _ (S (length (ec_heap root))) p R Hp) as (q & H1 & H2 & H3 & H4);
    [lia|]. exists q. split; [done|]. split; [done|]. by apply (inv_live _ Hi).
Qed.

Lemma link_end_unique root p q r : rtc (link root) p q -> rtc (link root) p r ->
  ec_merged (get_ec root q) = None -> ec_merged (get_ec root r) = None -> q = r.
Proof.
  intros H1. revert r. induction H1 as [p|p p' q [_ Hl] _ IH]; intros r H2 Hq Hr.
  - inversion H2 as [|? ? ? [_ Hl] _]; subst; [done|congruence].
  - inversion H2 as [|? p'' ? [_ Hl'] H3]; subst; [congruence|].
    apply IH; [|done..]. by replace p' with p'' by congruence.
Qed.

Lemma canonical_ec_live root p q : ec_inv root -> rtc (link root) p q -> q ∈ eq_classes root ->
  canonical_ec root p = Ok q.
Proof.
  intros Hi Hl Hq.
  assert (p < length (ec_heap root))%nat as Hp.
  { inversion Hl as [|? ? ? [Hb _] _]; subst; [by apply (inv_bound _ Hi)|done]. }
  destruct (canonical_ec_total root p Hi Hp) as (r & -> & H2 & H3). f_equal.
  eapply link_end_unique; [exact H2|exact Hl|..];
    (apply (inv_live _ Hi); [by apply (inv_bound _ Hi)|done]).
Qed.

(** ** Growth *)
Record grows root root' : Prop := {
  grows_link : forall p q, link root p q -> link root' p q;
  grows_live : forall s p, live root s p -> exists q, live root' s q /\ rtc (link root') p q /\
    ec_keys (get_ec root p) ⊆ ec_keys (get_ec root' q)
}.

Lemma grows_links root root' p q : grows root root' -> rtc (link root) p q -> rtc (link root') p q.
Proof. intros Hg. induction 1; [reflexivity|]. eapply rtc_l; [by apply Hg|done]. Qed.

Lemma grows_same root root' s a b : grows root root' -> same root s a b -> same root' s a b.
Proof.
  intros Hg (p & Hp & Ha & Hb). destruct (grows_live _ _ Hg s p Hp) as (q & Hq & _ & Hk).
  exists q. split; [done|]. split; by apply Hk.
Qed.

(** What absorbing the pair [k1], [k2] into class [p] means. *)
Definition block root (s : signature) (k1 k2 x : key Expr) : Prop :=
  x = k1 \/ x = k2 \/ same root s x k1 \/ same root s x k2.

Record absorbed root root' (s : signature) (k1 k2 : key Expr) (p : nat) : Prop := {
  ab_inv : ec_inv root';
  ab_grows : grows root root';
  ab_class : live root' s p;
  ab_key1 : k1 ∈ ec_keys (get_ec root' p);
  ab_key2 : k2 ∈ ec_keys (get_ec root' p);
  ab_new : forall s' a b, same root' s' a b ->
    same root s' a b \/ (s' = s /\ block root s k1 k2 a /\ block root s k1 k2 b)
}.

(** ** The three ways of absorbing a pair *)
Section Cases.
Variables (root : ECRoot Expr) (s : signature) (k1 k2 : key Expr).
Hypothesis Hinv : ec_inv root.

(** A class that has one of the keys and gets [extra] members, at most the other key. *)
Lemma absorbed_extend p e extra :
  live root s p -> ec_sig e = s -> ec_has_volatile e = false -> ec_merged e = None ->
  ec_members e = ec_members (get_ec root p) ++ extra ->
  (forall em, em ∈ extra -> em_ok em /\ (em_key em = k1 \/ em_key em = k2) /\
     forall q, live root s q -> em_key em ∉ ec_keys (get_ec root q)) ->
  (exists k, (k = k1 \/ k = k2) /\ k ∈ ec_keys (get_ec root p)) ->
  k1 ∈ ec_keys e -> k2 ∈ ec_keys e ->
  absorbed root (set_ec root p e) s k1 k2 p.
Proof.
  intros Hp Hsig Hvol Hm Hmem Hex (k & Hk & Hkp) H1 H2.
  assert (forall em, em ∈ extra -> em_ok em /\ forall q, live root s q ->
            em_key em ∈ ec_keys (get_ec root q) -> q = p) as Hex'.
  { intros em Hem. destruct (Hex em Hem) as (Hok & _ & Hn). split; [done|].
    intros q Hq Hqk. by destruct (Hn q Hq). }
  pose proof (extend_get root s p e Hinv Hp) as Hget.
  pose proof (extend_live root s p e Hinv Hp Hsig Hvol) as Hlive.
  pose proof (extend_keys root p e extra Hmem) as Hkeys.
  split.
  - by eapply extend_inv.
  - split.
    + intros q r [Hq Hl]. split; [simpl; by rewrite length_insert|]. rewrite Hget.
      case_decide; [subst q|done]. by rewrite (proj1 (inv_live _ Hinv p Hq) (proj1 Hp)) in Hl.
    + intros s' q Hq. exists q. split; [by apply Hlive|]. split; [reflexivity|]. rewrite Hget.
      case_decide; [subst q|done]. rewrite Hkeys. intros x Hx. apply elem_of_app. by left.
  - by apply Hlive.
  - rewrite Hget. by case_decide.
  - rewrite Hget. by case_decide.
  - intros s' a b (q & Hq%Hlive & Ha & Hb). rewrite Hget in Ha, Hb.
    case_decide; [subst q|by left; exists q].
    assert (s' = s) as -> by (destruct Hq as (_ & _ & <-); apply Hp). right. split; [done|].
    assert (forall x, x ∈ ec_keys e -> block root s k1 k2 x) as Hblk; [|by split; apply Hblk].
    intros x. rewrite Hkeys, elem_of_app. intros [Hx|Hx].
    + assert (same root s x k) as Hs by (by exists p). unfold block. destruct Hk; subst k; tauto.
    + apply list_elem_of_fmap in Hx as (em & -> & Hem).
      destruct (Hex em Hem) as (_ & [-> | ->] & _); unfold block; tauto.
Qed.

Lemma absorbed_merge p1 p2 i e1 e2 :
  live root s p1 -> live root s p2 -> p1 <> p2 -> eq_classes root !! i = Some p2 ->
  ec_sig e1 = s -> ec_has_volatile e1 = false -> ec_merged e1 = None -> ec_merged e2 = Some p1 ->
  ec_members e1 = ec_members (get_ec root p1) ++ ec_members (get_ec root p2) ->
  k1 ∈ ec_keys (get_ec root p1) -> k2 ∈ ec_keys (get_ec root p2) ->
  absorbed root
    (set_eq_classes (set_ec (set_ec root p1 e1) p2 e2) (list_delete_nth i (eq_classes root)))
    s k1 k2 p1.
Proof.
  intros Hp1 Hp2 Hne Hi Hsig Hvol Hm1 Hm2 Hmem H1 H2.
  pose proof (merge_get root s p1 p2 i e1 e2 Hinv Hp1 Hp2) as Hget.
  pose proof (merge_live root s p1 p2 i e1 e2 Hinv Hp1 Hp2 Hne Hi Hsig Hvol) as Hlive.
  pose proof (merge_keys root p1 p2 e1 Hmem) as Hkeys.
  set (root' := set_eq_classes _ _) in *.
  assert (length (ec_heap root') = length (ec_heap root)) as El by (simpl; by rewrite !length_insert).
  assert (get_ec root' p1 = e1) as G1 by (rewrite Hget; by rewrite decide_False, decide_True).
  assert (get_ec root' p2 = e2) as G2 by (rewrite Hget; by rewrite decide_True).
  split.
  - by eapply merge_inv.
  - split.
    + intros q r [Hq Hl]. split; [by rewrite El|]. rewrite Hget.
      repeat case_decide; [subst q|subst q|done];
        by rewrite (proj1 (inv_live _ Hinv _ Hq) ltac:(apply Hp1 || apply Hp2)) in Hl.
    + intros s' q Hq. destruct (decide (q = p2)) as [->|Hq2].
      * assert (s' = s) as -> by (destruct Hq as (_ & _ & <-); apply Hp2).
        exists p1. split; [by apply Hlive|]. rewrite G1, Hkeys. split; [|intros x Hx; apply elem_of_app; by right].
        apply rtc_once. split; [rewrite El; by eapply live_bound|]. by rewrite G2.
      * exists q. split; [by apply Hlive|]. split; [reflexivity|]. rewrite Hget.
        rewrite decide_False by done. case_decide; [subst q|done].
        rewrite Hkeys. intros x Hx. apply elem_of_app. by left.
  - by apply Hlive.
  - rewrite G1, Hkeys. apply elem_of_app. by left.
  - rewrite G1, Hkeys. apply elem_of_app. by right.
  - intros s' a b (q & Hq & Ha & Hb). apply Hlive in Hq as [Hq Hq2]. rewrite Hget in Ha, Hb.
    rewrite decide_False in Ha, Hb by done. case_decide; [subst q|by left; exists q].
    assert (s' = s) as -> by (destruct Hq as (_ & _ & <-); apply Hp1). right. split; [done|].
    assert (forall x, x ∈ ec_keys e1 -> block root s k1 k2 x) as Hblk; [|by split; apply Hblk].
    intros x. rewrite Hkeys, elem_of_app. unfold block.
    intros [Hx|Hx]; right; right; [left; by exists p1|right; by exists p2].
Qed.

Lemma grows_new e : grows root (new_ec root e).2.
Proof.
  split.
  - intros q r [Hq Hl]. split; [simpl; rewrite length_app; lia|]. rewrite get_new_ec.
    case_decide; [lia|done].
  - intros s' q Hq. exists q. split; [by apply new_live; [|left]|]. split; [reflexivity|].
    rewrite new_get_old by (done || apply Hq). done.
Qed.

Lemma absorbed_new e :
  ec_sig e = s -> ec_has_volatile e = false -> ec_merged e = None ->
  (forall em, em ∈ ec_members e -> em_ok em) ->
  ec_keys e = [k1; k2] ->
  (forall q, live root s q -> (k1 ∉ ec_keys (get_ec root q)) /\ (k2 ∉ ec_keys (get_ec root q))) ->
  absorbed root (new_ec root e).2 s k1 k2 (length (ec_heap root)).
Proof.
  intros Hsig Hvol Hm Hok Hkeys Hfresh. split.
  - apply new_inv; [done..|]. intros _ q k Hq. rewrite Hsig in Hq. rewrite Hkeys.
    destruct (Hfresh q Hq). rewrite elem_of_cons, list_elem_of_singleton. by intros [->| ->].
  - apply grows_new.
  - apply new_live; [done|]. right. done.
  - rewrite new_get, Hkeys. apply elem_of_cons. by left.
  - rewrite new_get, Hkeys. apply elem_of_cons. right. by apply list_elem_of_singleton.
  - intros s' a b (q & Hq & Ha & Hb). apply new_live in Hq as [Hq|(-> & _ & Hs')]; [|..|done].
    + left. exists q. rewrite new_get_old in Ha, Hb by (done || apply Hq). done.
    + right. rewrite new_get, Hkeys in Ha, Hb. split; [congruence|]. unfold block.
      rewrite elem_of_cons, list_elem_of_singleton in Ha, Hb. tauto.
Qed.
End Cases.

(** ** [process_equivalence] *)
Definition ri_item1 ri : Expr :=
  canonicalize_ec_expression (leftop (clause ri)) (exprType (leftop (clause ri))) (inputcollid (clause ri)).
Definition ri_item2 ri : Expr :=
  canonicalize_ec_expression (rightop (clause ri)) (exprType (rightop (clause ri))) (inputcollid (clause ri)).
Definition ri_sig ri : signature := (inputcollid (clause ri), mergeopfamilies ri).
Definition ri_key1 ri (jd : nat) : key Expr :=
  item_key (op_input_types (opno (clause ri))).1 (ri_item1 ri) jd.
Definition ri_key2 ri (jd : nat) : key Expr :=
  item_key (op_input_types (opno (clause ri))).2 (ri_item2 ri) jd.

(** What the caller guarantees: the relid sets are those of the two sides, and a WHERE clause
    has no volatile functions, set-returning functions, aggregates or window functions. *)
Definition clause_ok ri : Prop :=
  bms_is_empty (left_relids ri) = const_expr (ri_item1 ri) /\
  bms_is_empty (right_relids ri) = const_expr (ri_item2 ri).

Lemma found_members (f : Found Expr) : found_ok f ->
  (forall p, fec1 f = Some p -> exists em, fem1 f = Some em) /\
  (forall p, fec2 f = Some p -> exists em, fem2 f = Some em).
Proof.
  intros [H1 H2]. split; intros p E; rewrite E in *; [destruct (fem1 f)|destruct (fem2 f)]; eauto; done.
Qed.

Lemma added_member_ok e relids jd type :
  bms_is_empty relids = const_expr e ->
  em_ok (add_eq_member (@null_ec Expr) e relids jd false type).1 /\
  em_key (add_eq_member (@null_ec Expr) e relids jd false type).1 = item_key type e jd.
Proof. intros H. unfold em_ok, em_key, item_key. simpl. by rewrite H. Qed.

(** Case 3 of the code: the other side joins the class that was found. *)
Lemma absorbed_add root s k p e relids jd type ri :
  ec_inv root -> live root s p -> k ∈ ec_keys (get_ec root p) ->
  bms_is_empty relids = const_expr e ->
  (forall q, live root s q -> item_key type e jd ∉ ec_keys (get_ec root q)) ->
  absorbed root
    (set_ec root p (add_source (add_eq_member (get_ec root p) e relids jd false type).2 ri))
    s k (item_key type e jd) p.
Proof.
  intros Hi Hp Hk Hc Hn. pose proof Hp as (Hin & Hv & Hs).
  destruct (added_member_ok e relids jd type Hc) as [Hok Hkey].
  set (em := (add_eq_member null_ec e relids jd false type).1) in *.
  apply (absorbed_extend root s _ _ Hi p _ [em]); try done.
  - by apply (inv_live _ Hi); [eapply live_bound|].
  - intros em' ->%list_elem_of_singleton. rewrite Hkey. split; [done|]. split; [by right|done].
  - exists k. auto.
  - unfold ec_keys. simpl. rewrite fmap_app, elem_of_app. by left.
  - unfold ec_keys. simpl. rewrite fmap_app, elem_of_app. right. apply list_elem_of_singleton. done.
Qed.

Lemma absorbed_swap root root' s k1 k2 p :
  absorbed root root' s k1 k2 p -> absorbed root root' s k2 k1 p.
Proof.
  intros [H1 H2 H3 H4 H5 H6]. split; try done. intros s' a b Hs.
  destruct (H6 s' a b Hs) as [|(-> & Ha & Hb)]; [by left|right]. unfold block in *. tauto.
Qed.

Lemma process_equivalence_spec root ri jd ri' root' :
  ec_inv root -> clause_ok ri -> process_equivalence root ri jd = Ok (Absorbed ri', root') ->
  exists p, left_ec ri' = Some p /\ right_ec ri' = Some p /\
    absorbed root root' (ri_sig ri) (ri_key1 ri jd) (ri_key2 ri jd) p.
Proof.
  intros Hi [Hc1 Hc2]. unfold process_equivalence.
  destruct (_ && _); [done|]. fold (ri_item1 ri) (ri_item2 ri).
  case_bool_decide as Hne; [done|].
  unfold ri_key1, ri_key2. destruct (op_input_types (opno (clause ri))) as [t1 t2]. simpl fst. simpl snd.
  set (coll := inputcollid (clause ri)). set (opf := mergeopfamilies ri).
  destruct (sweep_classes_spec (ri_item1 ri) (ri_item2 ri) t1 t2 jd coll opf root (eq_classes root) 0
              nothing_found) as (F1 & F2 & Fok & Fidx & _).
  set (f := sweep_classes _ _ _ _ _ _ _ _ _ _ _) in *. simpl in F1, F2.
  destruct (found_members f (Fok (conj eq_refl eq_refl))) as [M1 M2].
  assert (forall item type, (forall p, find_match jd coll opf root item type (eq_classes root) = Some p ->
            live root (coll, opf) p /\ item_key type item jd ∈ ec_keys (get_ec root p))) as HS
    by (intros; by apply find_match_Some).
  pose proof (find_match_None jd coll opf root) as HN.
  destruct (fec1 f) as [p1|] eqn:E1; [destruct (M1 p1 eq_refl) as [em1 ->]|];
  (destruct (fec2 f) as [p2|] eqn:E2; [destruct (M2 p2 eq_refl) as [em2 ->]|]).
  - destruct (HS _ _ _ (eq_sym F1)) as [L1 K1]. destruct (HS _ _ _ (eq_sym F2)) as [L2 K2].
    destruct (Nat.eqb_spec p1 p2) as [<-|Hp].
    + intros [= <- <-]. exists p1. split; [done|]. split; [done|].
      pose proof L1 as (Hin & Hv & Hs).
      apply (absorbed_extend root (coll, opf) _ _ Hi p1 _ []); try done.
      * by apply (inv_live _ Hi); [eapply live_bound|].
      * simpl. by rewrite app_nil_r.
      * intros em Hem. by apply elem_of_nil in Hem.
      * eauto.
    + destruct (ec_merging_done root); [done|]. intros [= <- <-].
      exists p1. split; [done|]. split; [done|].
      destruct (Fidx eq_refl p2 eq_refl) as [_ Hidx]. rewrite Z.sub_0_r in Hidx.
      pose proof L1 as (Hin & Hv & Hs).
      apply absorbed_merge; try done.
      by apply (inv_live _ Hi); [eapply live_bound|].
  - destruct (HS _ _ _ (eq_sym F1)) as [L1 K1]. intros [= <- <-].
    exists p1. split; [done|]. split; [done|]. apply absorbed_add; eauto.
  - destruct (HS _ _ _ (eq_sym F2)) as [L2 K2]. intros [= <- <-].
    exists p2. split; [done|]. split; [done|]. apply absorbed_swap, absorbed_add; eauto.
  - intros [= <- <-]. eexists. split; [done|]. split; [done|].
    apply absorbed_new; try done.
    + intros em. simpl. rewrite elem_of_cons, list_elem_of_singleton.
      intros [-> | ->]; unfold em_ok; by rewrite ?Hc1, ?Hc2.
    + unfold ec_keys. simpl. unfold em_key, item_key. simpl. by rewrite Hc1, Hc2.
    + intros q Hq. split; [by apply (HN _ _ q Hi (eq_sym F1))|by apply (HN _ _ q Hi (eq_sym F2))].
Qed.

(** ** [get_eclass_for_sort_expr] *)

(** [root'] has the same classes as [root]; only the per-relation indexes may differ. *)
Definition same_classes root root' : Prop :=
  ec_heap root' = ec_heap root /\ eq_classes root' = eq_classes root.

Lemma same_classes_get root root' p : same_classes root root' -> get_ec root' p = get_ec root p.
Proof. intros [H _]. unfold get_ec. by rewrite H. Qed.

Lemma same_classes_live root root' s p : same_classes root root' -> live root' s p <-> live root s p.
Proof. intros H. unfold live. rewrite (same_classes_get _ _ _ H). by rewrite (proj2 H). Qed.

Lemma same_classes_inv root root' : same_classes root root' -> ec_inv root -> ec_inv root'.
Proof.
  intros Hs Hi. pose proof Hs as [Hh He].
  split; rewrite ?Hh, ?He; try apply Hi; intros *; rewrite ?(same_classes_get _ _ _ Hs).
  - apply Hi.
  - apply Hi.
  - rewrite !(same_classes_live _ _ _ _ Hs). apply Hi.
  - destruct (inv_rank _ Hi) as (rank & R). exists rank. cbv zeta in *.
    intros p Hp. rewrite (same_classes_get _ _ _ Hs). by apply R.
Qed.

Lemma same_classes_grows root root1 root' :
  same_classes root1 root' -> grows root root1 -> grows root root'.
Proof.
  intros Hs Hg. pose proof Hs as [Hh _].
  assert (forall p q, link root1 p q -> link root' p q) as Hl.
  { intros p q [? ?]. split; [by rewrite Hh|by rewrite (same_classes_get _ _ _ Hs)]. }
  split; [intros p q H; by apply Hl, Hg|]. intros s p Hp.
  destruct (grows_live _ _ Hg s p Hp) as (q & Hq & Hr & Hk). exists q.
  rewrite (same_classes_live _ _ _ _ Hs), (same_classes_get _ _ _ Hs). split; [done|]. split; [|done].
  clear -Hr Hl. induction Hr; [reflexivity|]. eapply rtc_l; [by apply Hl|done].
Qed.

Lemma grows_refl root : grows root root.
Proof. split; [done|]. intros s p Hp. exists p. split; [done|]. split; [reflexivity|done]. Qed.

Lemma sort_member_match_spec rel jd type expr ems : Forall em_ok ems ->
  sort_member_match rel jd type expr ems = existsb (fun em => matches em expr type jd) ems.
Proof.
  induction 1 as [|em ems [_ Hch] _ IH]; [done|]. cbn [sort_member_match existsb].
  rewrite Hch, IH. unfold matches. simpl.
  by destruct (em_is_const em && _); simpl; destruct (em_matches em expr type).
Qed.

Lemma sort_class_search_spec root rel opf type coll sortref expr classes :
  ec_inv root -> classes ⊆ eq_classes root ->
  let jd := top_jdomain root in
  let k := item_key type expr jd in
  match sort_class_search root rel jd opf type coll sortref expr classes with
  | Some p => p ∈ eq_classes root /\ ec_sig (get_ec root p) = (coll, opf) /\ k ∈ ec_keys (get_ec root p)
  | None => forall p, p ∈ classes -> ec_has_volatile (get_ec root p) = false ->
      ec_sig (get_ec root p) = (coll, opf) -> k ∉ ec_keys (get_ec root p)
  end.
Proof.
  intros Hi Hsub jd k. induction classes as [|p classes IH]; cbn [sort_class_search].
  { intros p Hp. by apply elem_of_nil in Hp. }
  assert (p ∈ eq_classes root) as Hp by (apply Hsub, elem_of_cons; by left).
  specialize (IH ltac:(intros x Hx; apply Hsub, elem_of_cons; by right)).
  assert (Forall em_ok (ec_members (get_ec root p))) as Hok
    by (apply Forall_forall; intros em Hem; by eapply inv_const).
  rewrite (sort_member_match_spec _ _ _ _ _ Hok). fold (has_match jd expr type (get_ec root p)).
  pose proof (has_match_key jd root expr type p Hi Hp) as Hm.
  set (next := sort_class_search _ _ _ _ _ _ _ _ _) in *.
  assert (forall q, next = None -> q ∈ p :: classes -> q <> p -> ec_has_volatile (get_ec root q) = false ->
      ec_sig (get_ec root q) = (coll, opf) -> k ∉ ec_keys (get_ec root q)) as Hrest.
  { intros q En Hq Hne. rewrite En in IH. apply elem_of_cons in Hq as [->|Hq]; [done|]. by apply IH. }
  assert (forall P : Prop, (next = None -> P) ->
     match next with
     | Some p => p ∈ eq_classes root /\ ec_sig (get_ec root p) = (coll, opf) /\ k ∈ ec_keys (get_ec root p)
     | None => P end) as Hskip by (intros P HP; destruct next; [done|by apply HP]).
  destruct (ec_has_volatile (get_ec root p) && _) eqn:Ev.
  { apply andb_prop in Ev as [Ev _]. apply Hskip. intros En q Hq Hv. apply Hrest; auto. congruence. }
  destruct (Z.eqb_spec coll (ec_collation (get_ec root p))) as [Ec|Ec]; simpl.
  2: { apply Hskip. intros En q Hq Hv Hs. apply Hrest; auto. intros ->. apply Ec. by injection Hs. }
  case_bool_decide as Eo; simpl.
  2: { apply Hskip. intros En q Hq Hv Hs. apply Hrest; auto. intros ->. apply Eo. by injection Hs. }
  destruct (has_match jd expr type (get_ec root p)) eqn:Em.
  - split; [done|]. split; [unfold ec_sig; by rewrite Ec, Eo|by apply Hm].
  - apply Hskip. intros En q Hq Hv Hs. destruct (decide (q = p)) as [->|]; [|by apply Hrest].
    intros Hk. by apply Hm in Hk.
Qed.

(** A class created for one sort expression. *)
Lemma singleton_class root e m : ec_inv root -> ec_members e = [m] -> em_ok m -> ec_merged e = None ->
  (ec_has_volatile e = false -> forall q, live root (ec_sig e) q -> em_key m ∉ ec_keys (get_ec root q)) ->
  let root' := (new_ec root e).2 in let p := length (ec_heap root) in
  ec_inv root' /\ grows root root' /\ p ∈ eq_classes root' /\ get_ec root' p = e /\
  ec_keys e = [em_key m] /\
  (forall s a b, same root' s a b -> same root s a b \/ (a = em_key m /\ b = em_key m)).
Proof.
  intros Hi Hm Hok Hmg Hfresh root' p.
  assert (ec_keys e = [em_key m]) as Hk by (unfold ec_keys; by rewrite Hm).
  split_and!; [| by apply grows_new| |by apply new_get|done|].
  - apply new_inv; [done..| |].
    + rewrite Hm. by intros em ->%list_elem_of_singleton.
    + intros Hv q k Hq. rewrite Hk, list_elem_of_singleton. intros ->. by apply Hfresh.
  - simpl. apply elem_of_app. right. by apply list_elem_of_singleton.
  - intros s a b (q & Hq & Ha & Hb). apply new_live in Hq as [Hq|(-> & _ & _)]; [| |done].
    + left. exists q. unfold root' in Ha, Hb. rewrite new_get_old in Ha, Hb by (done || apply Hq). done.
    + right. unfold root' in Ha, Hb. rewrite new_get, Hk, list_elem_of_singleton in Ha, Hb. done.
Qed.

Record sort_step root root' (s : signature) k (o : option nat) : Prop := {
  ss_inv : ec_inv root';
  ss_grows : grows root root';
  ss_new : forall s' a b, same root' s' a b -> same root s' a b \/ (a = k /\ b = k);
  ss_out : forall p, o = Some p ->
    p ∈ eq_classes root' /\ ec_sig (get_ec root' p) = s /\ k ∈ ec_keys (get_ec root' p);
  ss_none : o = None -> root' = root /\ forall p, live root s p -> k ∉ ec_keys (get_ec root p)
}.

Lemma sort_step_index root root1 root' s k o p : same_classes root1 root' ->
  o = Some p -> sort_step root root1 s k o -> sort_step root root' s k o.
Proof.
  intros Hs Ho [H1 H2 H3 H4 H5]. split.
  - by eapply same_classes_inv.
  - by eapply same_classes_grows.
  - intros s' a b (q & Hq & Ha & Hb). apply H3. exists q.
    by rewrite <- (same_classes_live _ _ _ _ Hs), <- (same_classes_get _ _ _ Hs).
  - intros q Hq. rewrite (same_classes_get _ _ _ Hs), (proj2 Hs). by apply H4.
  - by rewrite Ho.
Qed.

Lemma get_eclass_spec kinds root expr opf type coll sortref rel create o root' :
  ec_inv root ->
  get_eclass_for_sort_expr kinds root expr opf type coll sortref rel create = Ok (o, root') ->
  sort_step root root' (coll, opf)
    (item_key type (canonicalize_ec_expression expr type coll) (top_jdomain root)) o.
Proof.
  intros Hi. unfold get_eclass_for_sort_expr. set (e := canonicalize_ec_expression _ _ _).
  pose proof (sort_class_search_spec root rel opf type coll sortref e (eq_classes root) Hi
                ltac:(done)) as Hs. cbv zeta in Hs.
  destruct (sort_class_search _ _ _ _ _ _ _ _ _) as [p|].
  { intros [= <- <-]. split; [done|apply grows_refl|by left| |done]. by intros q [= <-]. }
  assert (forall p, live root (coll, opf) p ->
      item_key type e (top_jdomain root) ∉ ec_keys (get_ec root p)) as Hfresh
    by (intros p (H1 & H2 & H3); by apply Hs).
  destruct create; simpl negb; cbv iota.
  2: { intros [= <- <-]. split; [done|apply grows_refl|by left|done|done]. }
  destruct (contain_volatile_functions e && (sortref =? 0)); [done|].
  cbn [add_eq_member]. set (wc := _ && _). set (newec := if wc then _ else _).
  assert (exists m, ec_members newec = [m] /\ em_ok m /\ em_key m = item_key type e (top_jdomain root))
    as (m & Hm & Hok & Hk).
  { assert (const_expr e = if wc then false else bms_is_empty (pull_varnos e)) as Hc.
    { unfold wc, const_expr. simpl. destruct (bms_is_empty (pull_varnos e)); [|done]. simpl.
      by destruct (_ || _ || _ || _). }
    unfold newec, em_ok, em_key, item_key. rewrite Hc. destruct wc; eexists; split; done. }
  assert (ec_merged newec = None) as Hmg by (unfold newec; by destruct wc).
  assert (ec_sig newec = (coll, opf)) as Hsig by (unfold newec; by destruct wc).
  destruct (singleton_class root newec m Hi Hm Hok Hmg) as (S1 & S2 & S3 & S4 & S5 & S6).
  { intros _ q. rewrite Hsig, Hk. apply Hfresh. }
  assert (sort_step root (new_ec root newec).2 (coll, opf) (item_key type e (top_jdomain root))
            (Some (length (ec_heap root)))) as Hstep.
  { split; try done; [by rewrite <- Hk|]. intros q [= <-]. split; [done|].
    rewrite S4, S5, Hk. split; [done|]. by apply list_elem_of_singleton. }
  change (new_ec root newec) with (length (ec_heap root), (new_ec root newec).2).
  generalize (new_ec root newec).2 Hstep. clear -root. intros root1 Hstep.
  destruct (ec_merging_done root1); [intros (rels & _ & [= <- <-])%result_bind_Ok|by intros [= <- <-]].
  by eapply sort_step_index; [|done|exact Hstep].
Qed.

(** ** Reachable states

    [pairs] are the equalities absorbed so far, [handles] the class pointers that were handed
    out (stored in clauses and pathkeys) with the key they were handed out for. *)
Definition ec_start (rels : list (option bitmapset)) (jd : nat) : ECRoot Expr :=
  {| ec_heap := []; eq_classes := []; ec_merging_done := false; eclass_indexes := rels;
     top_jdomain := jd |}.
Definition ec_finish root : ECRoot Expr :=
  {| ec_heap := ec_heap root; eq_classes := eq_classes root; ec_merging_done := true;
     eclass_indexes := eclass_indexes root; top_jdomain := top_jdomain root |}.

Inductive ec_reach : ECRoot Expr -> list (signature * key Expr * key Expr) ->
    list (nat * signature * key Expr) -> Prop :=
  | reach_start rels jd : ec_reach (ec_start rels jd) [] []
  | reach_absorb root pairs handles ri jd ri' root' p :
      ec_reach root pairs handles -> clause_ok ri ->
      process_equivalence root ri jd = Ok (Absorbed ri', root') -> left_ec ri' = Some p ->
      ec_reach root' ((ri_sig ri, ri_key1 ri jd, ri_key2 ri jd) :: pairs)
        ((p, ri_sig ri, ri_key1 ri jd) :: (p, ri_sig ri, ri_key2 ri jd) :: handles)
  | reach_reject root pairs handles ri jd o root' :
      ec_reach root pairs handles -> process_equivalence root ri jd = Ok (Rejected o, root') ->
      ec_reach root' pairs handles
  | reach_sort kinds root pairs handles expr opf type coll sortref rel create p root' :
      ec_reach root pairs handles ->
      get_eclass_for_sort_expr kinds root expr opf type coll sortref rel create = Ok (Some p, root') ->
      ec_has_volatile (get_ec root' p) = false ->
      ec_reach root' pairs
        ((p, (coll, opf), item_key type (canonicalize_ec_expression expr type coll) (top_jdomain root))
         :: handles)
  | reach_sort_other kinds root pairs handles expr opf type coll sortref rel create o root' :
      ec_reach root pairs handles ->
      get_eclass_for_sort_expr kinds root expr opf type coll sortref rel create = Ok (o, root') ->
      ec_reach root' pairs handles
  | reach_finish root pairs handles :
      ec_reach root pairs handles -> ec_reach (ec_finish root) pairs handles.

Lemma start_inv rels jd : ec_inv (ec_start rels jd).
Proof.
  split; simpl; try by intros; exfalso; by eapply not_elem_of_nil.
  - constructor.
  - intros p Hp. lia.
  - intros s k p q (Hp & _). by apply elem_of_nil in Hp.
  - done.
  - exists (fun _ => O). intros p Hp. lia.
Qed.

Lemma rejected_root root ri jd o root' :
  process_equivalence root ri jd = Ok (Rejected o, root') -> root' = root.
Proof.
  unfold process_equivalence. intros H.
  repeat first [case_bool_decide | case_match]; simplify_eq; done.
Qed.

Lemma rejected_reason root ri jd o root' :
  process_equivalence root ri jd = Ok (Rejected o, root') ->
  (0 < security_level ri /\ leakproof ri = false /\ o = None) \/
  (ri_item1 ri = ri_item2 ri /\ o = if op_strict (opno (clause ri)) then Some (ri_item1 ri) else None).
Proof.
  unfold process_equivalence. fold (ri_item1 ri) (ri_item2 ri).
  destruct (_ && _) eqn:Es.
  { intros [= <- <-]. left. apply andb_prop in Es as [?%Z.ltb_lt ?%negb_true_iff]. done. }
  case_bool_decide; [intros [= <- <-]; by right|]. intros H'. exfalso.
  repeat first [case_bool_decide | case_match]; simplify_eq.
Qed.

Lemma absorbed_distinct root ri jd ri' root' :
  process_equivalence root ri jd = Ok (Absorbed ri', root') -> ri_item1 ri <> ri_item2 ri.
Proof.
  unfold process_equivalence. fold (ri_item1 ri) (ri_item2 ri). destruct (_ && _); [done|].
  by case_bool_decide.
Qed.

Lemma process_equivalence_fuel root ri jd : process_equivalence root ri jd = NoFuel -> False.
Proof.
  unfold process_equivalence. intros H'. repeat first [case_bool_decide | case_match]; simplify_eq.
Qed.

Lemma too_late_reason root ri jd msg : ec_inv root ->
  process_equivalence root ri jd = Error msg ->
  msg = too_late_msg /\ ec_merging_done root = true /\
  exists p q, p <> q /\ live root (ri_sig ri) p /\ live root (ri_sig ri) q /\
    ri_key1 ri jd ∈ ec_keys (get_ec root p) /\ ri_key2 ri jd ∈ ec_keys (get_ec root q).
Proof.
  intros Hi. unfold process_equivalence. fold (ri_item1 ri) (ri_item2 ri).
  destruct (_ && _); [done|]. case_bool_decide; [done|].
  unfold ri_key1, ri_key2. destruct (op_input_types (opno (clause ri))) as [t1 t2]. simpl fst. simpl snd.
  destruct (sweep_classes_spec (ri_item1 ri) (ri_item2 ri) t1 t2 jd (inputcollid (clause ri))
              (mergeopfamilies ri) root (eq_classes root) 0 nothing_found) as (F1 & F2 & _).
  set (f := sweep_classes _ _ _ _ _ _ _ _ _ _ _) in *. simpl in F1, F2.
  destruct (fec1 f) as [p1|] eqn:E1, (fem1 f), (fec2 f) as [p2|] eqn:E2, (fem2 f); try done.
  destruct (Nat.eqb_spec p1 p2); [done|]. destruct (ec_merging_done root); [|done]. intros [= <-].
  symmetry in F1, F2. apply find_match_Some in F1 as [? ?]; [|done].
  apply find_match_Some in F2 as [? ?]; [|done]. split; [done|]. split; [done|]. by exists p1, p2.
Qed.

Lemma reach_inv root pairs handles : ec_reach root pairs handles -> ec_inv root.
Proof.
  induction 1 as [| ? ? ? ? ? ? ? ? _ IH Hok E _ | ? ? ? ? ? ? ? _ IH E | ? ? ? ? ? ? ? ? ? ? ? ? ? _ IH E _
                 | ? ? ? ? ? ? ? ? ? ? ? ? ? _ IH E | ? ? ? _ IH].
  - apply start_inv.
  - destruct (process_equivalence_spec _ _ _ _ _ IH Hok E) as (q & _ & _ & Hab). apply Hab.
  - by rewrite (rejected_root _ _ _ _ _ E).
  - apply (get_eclass_spec _ _ _ _ _ _ _ _ _ _ _ IH E).
  - apply (get_eclass_spec _ _ _ _ _ _ _ _ _ _ _ IH E).
  - by eapply same_classes_inv; [|exact IH].
Qed.

Definition paired (pairs : list (signature * key Expr * key Expr)) (s : signature) (a b : key Expr) : Prop :=
  (s, a, b) ∈ pairs.

Lemma rtsc_least {A} (R E : relation A) u v : Equivalence E -> (forall x y, R x y -> E x y) ->
  rtsc R u v -> E u v.
Proof.
  intros He HR. induction 1 as [|x y z [Hxy|Hxy] _ IH]; [reflexivity|..].
  - etransitivity; [by apply HR|done].
  - etransitivity; [symmetry; by apply HR|done].
Qed.

Lemma same_equivalence root s : ec_inv root -> Equivalence (fun a b => a = b \/ same root s a b).
Proof.
  intros Hi. split.
  - intros a. by left.
  - intros a b [->|H]; [by left|right; by apply same_sym].
  - intros a b c [->|H1] [->|H2]; [by left|by right|by right|right; by eapply same_trans].
Qed.

Lemma absorb_closure root root' s k1 k2 p (R R' : signature -> relation (key Expr)) :
  (forall s' a b, a = b \/ same root s' a b <-> rtsc (R s') a b) ->
  absorbed root root' s k1 k2 p ->
  (forall s' a b, R' s' a b <-> R s' a b \/ (s' = s /\ a = k1 /\ b = k2)) ->
  forall s' a b, a = b \/ same root' s' a b <-> rtsc (R' s') a b.
Proof.
  intros IH [A1 A2 A3 A4 A5 A6] HR s' a b.
  assert (forall x y, rtsc (R s') x y -> rtsc (R' s') x y) as Hmono.
  { intros x y. apply (rtsc_least _ (rtsc (R' s'))); [apply _|]. intros ? ? ?.
    apply rtsc_lr, HR. by left. }
  split.
  - intros [->|H]; [reflexivity|]. apply A6 in H as [H|(-> & Ha & Hb)]; [apply Hmono, IH; by right|].
    assert (rtsc (R' s) k1 k2) as H12 by (apply rtsc_lr, HR; by right).
    assert (forall x, block root s k1 k2 x -> rtsc (R' s) x k1) as Hblk.
    { intros x [->|[->|[H|H]]]; [reflexivity|by symmetry|apply Hmono, IH; by right|].
      transitivity k2; [apply Hmono, IH; by right|by symmetry]. }
    transitivity k1; [by apply Hblk|symmetry; by apply Hblk].
  - apply (rtsc_least _ (fun a b => a = b \/ same root' s' a b)); [by apply same_equivalence|].
    intros x y [H|(-> & -> & ->)]%HR; [|right; by exists p].
    apply rtsc_lr, IH in H as [->|H]; [by left|right; by eapply grows_same].
Qed.

(** Being in the same class is the equivalence closure of the absorbed pairs. *)
Lemma reach_closure root pairs handles : ec_reach root pairs handles ->
  forall s a b, a = b \/ same root s a b <-> rtsc (paired pairs s) a b.
Proof.
  assert (forall root root' pairs s0 k o, sort_step root root' s0 k o ->
    (forall s a b, a = b \/ same root s a b <-> rtsc (paired pairs s) a b) ->
    forall s a b, a = b \/ same root' s a b <-> rtsc (paired pairs s) a b) as Hsort.
  { intros root0 root1 pairs0 s0 k o [S1 S2 S3 _ _] IH s a b. rewrite <- IH. split.
    - intros [->|H]; [by left|]. apply S3 in H as [H|[-> ->]]; [by right|by left].
    - intros [->|H]; [by left|right; by eapply grows_same]. }
  intros Hr. induction Hr as [| root pairs handles ri jd ri' root' p Hr IH Hok E _
      | root pairs handles ri jd o root' _ IH E
      | kinds root pairs handles expr opf type coll sortref rel create p root' Hr IH E _
      | kinds root pairs handles expr opf type coll sortref rel create o root' Hr IH E | root pairs handles _ IH].
  - intros s a b. split.
    + intros [->|(q & (Hq & _) & _)]; [reflexivity|by apply elem_of_nil in Hq].
    + apply (rtsc_least _ (fun a b => a = b \/ same _ s a b)); [apply same_equivalence, start_inv|].
      intros x y H. by apply elem_of_nil in H.
  - destruct (process_equivalence_spec _ _ _ _ _ (reach_inv _ _ _ Hr) Hok E) as (q & _ & _ & Hab).
    apply (absorb_closure _ _ _ _ _ _ (paired pairs) _ IH Hab).
    intros s a b. unfold paired. rewrite elem_of_cons. split; [intros [[=]|]|intros [|(-> & -> & ->)]]; auto.
  - by rewrite (rejected_root _ _ _ _ _ E).
  - eapply Hsort; [eapply get_eclass_spec; [by eapply reach_inv|exact E]|done].
  - eapply Hsort; [eapply get_eclass_spec; [by eapply reach_inv|exact E]|done].
  - apply IH.
Qed.

(** A handle keeps leading to the live class of its key. *)
Definition handle_ok root (h : nat * signature * key Expr) : Prop :=
  let '(p, s, k) := h in
  exists q, rtc (link root) p q /\ live root s q /\ k ∈ ec_keys (get_ec root q).

Lemma handle_grows root root' h : grows root root' -> handle_ok root h -> handle_ok root' h.
Proof.
  destruct h as [[p s] k]. intros Hg (q & Hl & Hq & Hk).
  destruct (grows_live _ _ Hg s q Hq) as (r & Hr & Hlr & Hsub). exists r. split; [|split; [done|by apply Hsub]].
  etransitivity; [by eapply grows_links|done].
Qed.

Lemma reach_handles root pairs handles : ec_reach root pairs handles -> Forall (handle_ok root) handles.
Proof.
  intros Hr. induction Hr as [| root pairs handles ri jd ri' root' p Hr IH Hok E Hp
      | root pairs handles ri jd o root' _ IH E
      | kinds root pairs handles expr opf type coll sortref rel create p root' Hr IH E Hv
      | kinds root pairs handles expr opf type coll sortref rel create o root' Hr IH E | root pairs handles _ IH].
  - constructor.
  - destruct (process_equivalence_spec _ _ _ _ _ (reach_inv _ _ _ Hr) Hok E) as (q & Hq & _ & Hab).
    assert (q = p) as -> by congruence. destruct Hab as [A1 A2 A3 A4 A5 _].
    repeat constructor; [by exists p; split; [reflexivity|]..|].
    eapply Forall_impl; [exact IH|]. intros h. by apply handle_grows.
  - by rewrite (rejected_root _ _ _ _ _ E).
  - destruct (get_eclass_spec _ _ _ _ _ _ _ _ _ _ _ (reach_inv _ _ _ Hr) E) as [S1 S2 _ S4 _].
    constructor; [|eapply Forall_impl; [exact IH|]; intros h; by apply handle_grows].
    destruct (S4 p eq_refl) as (H1 & H2 & H3). exists p. split; [reflexivity|done].
  - destruct (get_eclass_spec _ _ _ _ _ _ _ _ _ _ _ (reach_inv _ _ _ Hr) E) as [S1 S2 _ _ _].
    eapply Forall_impl; [exact IH|]. intros h. by apply handle_grows.
  - eapply Forall_impl; [exact IH|]. intros h. apply handle_grows.
    by eapply same_classes_grows; [|apply grows_refl].
Qed.

(** ** Registration of a new class with its base relations *)
Definition rels_wf (rels : list (option bitmapset)) : Prop :=
  forall i b, rels !! i = Some (Some b) -> bms_wf b.

(** Entry [i] after class [idx] was registered with the members of [relids] above [x]. *)
Definition marked (relids : bitmapset) (x idx : Z) (old new : list (option bitmapset)) : Prop :=
  length new = length old /\
  forall i, match old !! i with
    | Some (Some b) =>
        if (x <? Z.of_nat i) && bms_mem relids (Z.of_nat i) then
          exists b', new !! i = Some (Some b') /\ bms_wf b' /\ bms_val b' = Z.setbit (bms_val b) idx
        else new !! i = Some (Some b)
    | o => new !! i = o
    end.

(** The entries of [relids] exist, and are base relations, or NULL for outer joins. *)
Definition rels_fit (kinds : RelKinds) (relids : bitmapset) (rels : list (option bitmapset)) : Prop :=
  forall i, 0 <= i -> bms_mem relids i = true ->
    match rels !! Z.to_nat i with
    | Some (Some _) => rk_baserel kinds i = true
    | Some None => rk_outer_join kinds i = true
    | None => False
    end.

Lemma mark_eclass_indexes_spec fuel kinds relids x idx rels :
  bms_wf relids -> bms_mem relids 0 = false -> rels_wf rels -> rels_fit kinds relids rels -> 0 <= idx -> -1 <= x ->
  bms_capacity relids - x <= Z.of_nat fuel -> (0 < fuel)%nat ->
  exists rels', mark_eclass_indexes fuel kinds relids x idx rels = Ok rels' /\ rels_wf rels' /\
    marked relids x idx rels rels'.
Proof.
  intros Hw H0. revert x rels. induction fuel as [|f IH]; intros x rels Hr Hfit Hidx Hx Hf Hpos; [lia|].
  cbn [mark_eclass_indexes].
  destruct (next_member_next_of relids x Hw Hx) as [[-> Hall]|(Hlt & Hm & Hbelow)].
  - simpl. exists rels. split; [done|]. split; [done|]. split; [done|]. intros i.
    destruct (rels !! i) as [[b|]|]; try done.
    destruct (Z.ltb_spec x (Z.of_nat i)); [|done]. simpl. by rewrite Hall by lia.
  - set (y := next_member relids x) in *.
    assert (0 < y) as Hy0 by (destruct (Z.eq_dec y 0) as [E|]; [rewrite E in Hm; congruence|lia]).
    assert (y < bms_capacity relids) as Hcap.
    { destruct (Z_lt_ge_dec y (bms_capacity relids)); [done|].
      rewrite bms_mem_capacity in Hm by (done || lia). done. }
    rewrite (proj2 (Z.gtb_lt y 0)) by lia.
    assert (forall i, (Z.to_nat y <> i)%nat -> (x <? Z.of_nat i) && bms_mem relids (Z.of_nat i) =
              (y <? Z.of_nat i) && bms_mem relids (Z.of_nat i)) as Hskip.
    { intros i Hi. destruct (Z.ltb_spec x (Z.of_nat i)), (Z.ltb_spec y (Z.of_nat i)); try done; simpl.
      - rewrite Hbelow; [done|lia].
      - lia. }
    pose proof (Hfit y ltac:(lia) Hm) as Hk. destruct (rels !! Z.to_nat y) as [[b|]|] eqn:Ey; [| |done].
    + rewrite (array_get_Z rels y (Some b)) by (done || lia). cbn [mbind result_bind]. rewrite Hk. cbn [negb].
      destruct (bms_add_member_spec b idx (Hr _ _ Ey) Hidx) as (b' & -> & Hw' & Hv).
      cbn [mbind result_bind].
      destruct (IH y (<[Z.to_nat y := Some b']> rels)) as (rels' & E & Hr' & Hl & Hmk); try lia.
      { intros i c. destruct (decide (Z.to_nat y = i)) as [<-|].
        - rewrite list_lookup_insert_eq by (by eapply lookup_lt_Some). by intros [= <-].
        - rewrite list_lookup_insert_ne by done. apply Hr. }
      { intros i Hi Hmi. specialize (Hfit i Hi Hmi). destruct (decide (Z.to_nat y = Z.to_nat i)) as [E|].
        - rewrite <- E in *. rewrite list_lookup_insert_eq by (by eapply lookup_lt_Some). by rewrite Ey in Hfit.
        - by rewrite list_lookup_insert_ne. }
      exists rels'. split; [done|]. split; [done|]. rewrite length_insert in Hl. split; [done|].
      intros i. specialize (Hmk i). destruct (decide (Z.to_nat y = i)) as [<-|Hi].
      * rewrite list_lookup_insert_eq in Hmk by (by eapply lookup_lt_Some).
        rewrite Z2Nat.id, Z.ltb_irrefl in Hmk by lia. simpl in Hmk. rewrite Ey.
        rewrite Z2Nat.id, Hm by lia. rewrite (proj2 (Z.ltb_lt x y)) by lia. simpl. eauto.
      * rewrite list_lookup_insert_ne in Hmk by done. by rewrite Hskip.
    + rewrite (array_get_Z rels y None) by (done || lia). cbn [mbind result_bind]. rewrite Hk.
      destruct (IH y rels) as (rels' & E & Hr' & Hl & Hmk); try lia; [done..|].
      exists rels'. split; [done|]. split; [done|]. split; [done|]. intros i. specialize (Hmk i).
      destruct (decide (Z.to_nat y = i)) as [<-|Hi]; [by rewrite Ey in *|by rewrite Hskip].
Qed.

(** ** Properties *)

(** C4: the equivalence-class structure is a correct union-find.  In every state reached by
    absorbing equality clauses and looking up sort expressions, following [ec_merged] from
    any class pointer ever handed out terminates, and two pointers handed out for keys of
    the same collation and operator families lead to the same class exactly when the
    absorbed clauses imply that the keys are equal (reflexive, symmetric, transitive
    closure). *)
Theorem union_find_correct root pairs handles s p a q b :
  ec_reach root pairs handles -> (p, s, a) ∈ handles -> (q, s, b) ∈ handles ->
  exists p' q', canonical_ec root p = Ok p' /\ canonical_ec root q = Ok q' /\
    p' ∈ eq_classes root /\ q' ∈ eq_classes root /\
    (p' = q' <-> rtsc (paired pairs s) a b).
Proof.
  intros Hr Hp Hq. pose proof (reach_inv _ _ _ Hr) as Hi.
  pose proof (reach_handles _ _ _ Hr) as Hh. rewrite Forall_forall in Hh.
  destruct (Hh _ Hp) as (p' & Lp & Vp & Kp). destruct (Hh _ Hq) as (q' & Lq & Vq & Kq).
  exists p', q'. pose proof Vp as (Ip & _). pose proof Vq as (Iq & _).
  split; [by apply canonical_ec_live|]. split; [by apply canonical_ec_live|].
  split; [done|]. split; [done|]. rewrite <- (reach_closure _ _ _ Hr). split.
  - intros ->. right. by exists q'.
  - intros [->|(r & Vr & Ka & Kb)]; [by apply (inv_disjoint _ Hi s b)|].
    transitivity r; [by apply (inv_disjoint _ Hi s a)|by apply (inv_disjoint _ Hi s b)].
Qed.

(** ** Every branch of [process_equivalence] *)

(** The clause may be evaluated anywhere, and its sides differ. *)
Definition usable ri : Prop := (security_level ri <= 0 \/ leakproof ri = true) /\ ri_item1 ri <> ri_item2 ri.
(** No class in which it could be matched contains the key. *)
Definition unknown root (s : signature) k : Prop := forall q, live root s q -> k ∉ ec_keys (get_ec root q).
(** The clause is marked with class [p] and members for its sides. *)
Definition marked_with ri' (p : nat) k1 k2 : Prop :=
  left_ec ri' = Some p /\ right_ec ri' = Some p /\ em_key <$> left_em ri' = Some k1 /\ em_key <$> right_em ri' = Some k2.
(** A live class of signature [s] with these keys, source clauses and security levels. *)
Definition class_is ec (s : signature) (keys : list (key Expr)) (sources : list nat) (lo hi : Z) : Prop :=
  ec_sig ec = s /\ ec_has_volatile ec = false /\ ec_merged ec = None /\ ec_keys ec = keys /\
  ec_sources ec = sources /\ ec_min_security ec = lo /\ ec_max_security ec = hi.
(** Class [p] is extended by [keys] and the source clause [ri]; nothing else changes. *)
Definition extended root root' ri (p : nat) (keys : list (key Expr)) : Prop :=
  let ec := get_ec root p in
  class_is (get_ec root' p) (ri_sig ri) (ec_keys ec ++ keys) (ec_sources ec ++ [ri_id ri])
    (Z.min (ec_min_security ec) (security_level ri)) (Z.max (ec_max_security ec) (security_level ri)) /\
  eq_classes root' = eq_classes root /\ length (ec_heap root') = length (ec_heap root) /\
  forall q, q <> p -> get_ec root' q = get_ec root q.

Inductive equivalence_step root ri (jd : nat) : result (Outcome Expr * ECRoot Expr) -> Prop :=
  | step_postponable :
      0 < security_level ri -> leakproof ri = false -> equivalence_step root ri jd (Ok (Rejected None, root))
  | step_trivial :
      security_level ri <= 0 \/ leakproof ri = true -> ri_item1 ri = ri_item2 ri ->
      equivalence_step root ri jd (Ok (Rejected (if op_strict (opno (clause ri)) then Some (ri_item1 ri) else None), root))
  | step_known p ri' root' :
      usable ri -> live root (ri_sig ri) p ->
      ri_key1 ri jd ∈ ec_keys (get_ec root p) -> ri_key2 ri jd ∈ ec_keys (get_ec root p) ->
      marked_with ri' p (ri_key1 ri jd) (ri_key2 ri jd) -> extended root root' ri p [] ->
      equivalence_step root ri jd (Ok (Absorbed ri', root'))
  | step_too_late p q :
      usable ri -> p <> q -> live root (ri_sig ri) p -> live root (ri_sig ri) q ->
      ri_key1 ri jd ∈ ec_keys (get_ec root p) -> ri_key2 ri jd ∈ ec_keys (get_ec root q) ->
      ec_merging_done root = true -> equivalence_step root ri jd (Error too_late_msg)
  | step_merge p q ri' root' :
      usable ri -> p <> q -> live root (ri_sig ri) p -> live root (ri_sig ri) q ->
      ri_key1 ri jd ∈ ec_keys (get_ec root p) -> ri_key2 ri jd ∈ ec_keys (get_ec root q) ->
      ec_merging_done root = false -> marked_with ri' p (ri_key1 ri jd) (ri_key2 ri jd) ->
      (let ec1 := get_ec root p in let ec2 := get_ec root q in
       class_is (get_ec root' p) (ri_sig ri) (ec_keys ec1 ++ ec_keys ec2) ((ec_sources ec1 ++ ec_sources ec2) ++ [ri_id ri])
         (Z.min (Z.min (ec_min_security ec1) (ec_min_security ec2)) (security_level ri))
         (Z.max (Z.max (ec_max_security ec1) (ec_max_security ec2)) (security_level ri))) ->
      ec_merged (get_ec root' q) = Some p -> ec_members (get_ec root' q) = [] ->
      (forall r, r ∈ eq_classes root' <-> r ∈ eq_classes root /\ r <> q) ->
      (forall r, r <> p -> r <> q -> get_ec root' r = get_ec root r) ->
      equivalence_step root ri jd (Ok (Absorbed ri', root'))
  | step_add_second p ri' root' :
      usable ri -> live root (ri_sig ri) p -> ri_key1 ri jd ∈ ec_keys (get_ec root p) ->
      unknown root (ri_sig ri) (ri_key2 ri jd) -> marked_with ri' p (ri_key1 ri jd) (ri_key2 ri jd) ->
      extended root root' ri p [ri_key2 ri jd] -> equivalence_step root ri jd (Ok (Absorbed ri', root'))
  | step_add_first p ri' root' :
      usable ri -> live root (ri_sig ri) p -> ri_key2 ri jd ∈ ec_keys (get_ec root p) ->
      unknown root (ri_sig ri) (ri_key1 ri jd) -> marked_with ri' p (ri_key1 ri jd) (ri_key2 ri jd) ->
      extended root root' ri p [ri_key1 ri jd] -> equivalence_step root ri jd (Ok (Absorbed ri', root'))
  | step_new ri' root' :
      usable ri -> unknown root (ri_sig ri) (ri_key1 ri jd) -> unknown root (ri_sig ri) (ri_key2 ri jd) ->
      (let p := length (ec_heap root) in
       marked_with ri' p (ri_key1 ri jd) (ri_key2 ri jd) /\
       class_is (get_ec root' p) (ri_sig ri) [ri_key1 ri jd; ri_key2 ri jd] [ri_id ri] (security_level ri) (security_level ri) /\
       eq_classes root' = eq_classes root ++ [p] /\ forall q, q <> p -> get_ec root' q = get_ec root q) ->
      equivalence_step root ri jd (Ok (Absorbed ri', root')).

Lemma extended_by root p ec ri keys : ec_inv root -> live root (ri_sig ri) p ->
  ec_sig ec = ec_sig (get_ec root p) -> ec_has_volatile ec = ec_has_volatile (get_ec root p) -> ec_merged ec = ec_merged (get_ec root p) ->
  ec_keys ec = ec_keys (get_ec root p) ++ keys -> ec_sources ec = ec_sources (get_ec root p) ->
  ec_min_security ec = ec_min_security (get_ec root p) -> ec_max_security ec = ec_max_security (get_ec root p) ->
  extended root (set_ec root p (add_source ec ri)) ri p keys.
Proof.
  intros Hi Hp E1 E2 E3 E4 E5 E6 E7. pose proof (live_bound _ _ _ Hi Hp) as Hb. destruct Hp as (Hin & Hv & Hs).
  unfold extended. split; [|split; [done|split; [by cbn; rewrite length_insert|]]].
  - rewrite get_set_ec, decide_True by done. unfold class_is.
    change (ec_sig ec = ri_sig ri /\ ec_has_volatile ec = false /\ ec_merged ec = None /\ ec_keys ec = ec_keys (get_ec root p) ++ keys /\
      ec_sources ec ++ [ri_id ri] = ec_sources (get_ec root p) ++ [ri_id ri] /\
      Z.min (ec_min_security ec) (security_level ri) = Z.min (ec_min_security (get_ec root p)) (security_level ri) /\
      Z.max (ec_max_security ec) (security_level ri) = Z.max (ec_max_security (get_ec root p)) (security_level ri)).
    rewrite E1, E2, E3, E4, E5, E6, E7.
    split_and!; try done. by apply (inv_live _ Hi).
  - intros q Hq. by rewrite get_set_ec, decide_False.
Qed.

Lemma merge_case root ri jd p q em1 em2 (i : nat) : ec_inv root -> usable ri -> p <> q ->
  live root (ri_sig ri) p -> live root (ri_sig ri) q -> eq_classes root !! i = Some q ->
  ri_key1 ri jd ∈ ec_keys (get_ec root p) -> ri_key2 ri jd ∈ ec_keys (get_ec root q) ->
  ec_merging_done root = false -> marked_with (mark_ri ri p em1 em2) p (ri_key1 ri jd) (ri_key2 ri jd) ->
  let r1 := set_ec root p (add_source (merge_into_ec1 (get_ec root p) (get_ec root q)) ri) in
  let r2 := set_ec r1 q (emptied_ec2 (get_ec r1 q) p) in
  equivalence_step root ri jd
    (Ok (Absorbed (mark_ri ri p em1 em2), set_eq_classes r2 (list_delete_nth i (eq_classes r2)))).
Proof.
  intros Hi Hu Hpq L1 L2 Hidx K1 K2 Ed Hm r1 r2.
  pose proof (live_bound _ _ _ Hi L1) as B1. pose proof (live_bound _ _ _ Hi L2) as B2.
  set (e1 := add_source _ ri) in *. set (root' := set_eq_classes _ _).
  assert (forall r, get_ec root' r = if decide (q = r) then emptied_ec2 (get_ec r1 q) p else if decide (p = r) then e1 else get_ec root r) as Hget.
  { intros r. change (get_ec root' r) with (get_ec r2 r). unfold r2.
    rewrite get_set_ec by (unfold r1; cbn; by rewrite length_insert). unfold r1 at 2. by rewrite get_set_ec. }
  apply (step_merge _ _ _ p q); try done.
  - rewrite Hget, decide_False, decide_True by done. destruct L1 as (Hin & Hv & Hs). split_and!; try done.
    + by apply (inv_live _ Hi).
    + unfold ec_keys. cbn. by rewrite fmap_app.
  - by rewrite Hget, decide_True.
  - by rewrite Hget, decide_True.
  - apply elem_of_delete_nth; [apply Hi|done].
  - intros r R1 R2. by rewrite Hget, !decide_False.
Qed.

Lemma process_step root ri jd : ec_inv root -> clause_ok ri -> equivalence_step root ri jd (process_equivalence root ri jd).
Proof.
  intros Hi [Hc1 Hc2]. unfold process_equivalence. destruct (_ && negb _) eqn:Esec.
  { apply andb_prop in Esec as [?%Z.ltb_lt ?%negb_true_iff]. by apply step_postponable. }
  assert (security_level ri <= 0 \/ leakproof ri = true) as Hsec.
  { apply andb_false_iff in Esec as [?%Z.ltb_ge|?%negb_false_iff]; auto. }
  fold (ri_item1 ri) (ri_item2 ri). case_bool_decide as Hne; [by apply step_trivial|]. assert (usable ri) as Hu by done.
  destruct (op_input_types (opno (clause ri))) as [t1 t2] eqn:Et.
  set (coll := inputcollid (clause ri)). set (opf := mergeopfamilies ri).
  destruct (sweep_classes_spec (ri_item1 ri) (ri_item2 ri) t1 t2 jd coll opf root (eq_classes root) 0
              nothing_found) as (F1 & F2 & Fok & Fidx & _).
  destruct (sweep_classes_found (ri_item1 ri) (ri_item2 ri) t1 t2 jd coll opf root (eq_classes root) 0 nothing_found)
    as [G1 G2]; [by split|].
  set (f := sweep_classes _ _ _ _ _ _ _ _ _ _ _) in *. simpl in F1, F2.
  destruct (found_members f (Fok (conj eq_refl eq_refl))) as [M1 M2]. clear Fok.
  assert (item_key t1 (ri_item1 ri) jd = ri_key1 ri jd) as K1e by (unfold ri_key1; by rewrite Et).
  assert (item_key t2 (ri_item2 ri) jd = ri_key2 ri jd) as K2e by (unfold ri_key2; by rewrite Et).
  pose proof (fun item type p => find_match_Some jd coll opf root item type p Hi) as HS.
  assert (forall item type, find_match jd coll opf root item type (eq_classes root) = None -> unknown root (ri_sig ri) (item_key type item jd)) as HN.
  { intros item type E q. by apply find_match_None. }
  assert (forall p em item type, live root (ri_sig ri) p -> em ∈ ec_members (get_ec root p) /\ matches em item type jd = true ->
    em_key em = item_key type item jd) as HK.
  { intros p em item type (Hp & _) [Hin Hm]. apply matches_key; [by eapply inv_const|done]. }
  assert (forall item relids type, bms_is_empty relids = const_expr item ->
    em_key (add_eq_member (@null_ec Expr) item relids jd false type).1 = item_key type item jd) as HA.
  { intros. by apply added_member_ok. }
  destruct (fec1 f) as [p1|] eqn:E1; [destruct (M1 p1 eq_refl) as [em1 Em1]; rewrite Em1 in *|];
  (destruct (fec2 f) as [p2|] eqn:E2; [destruct (M2 p2 eq_refl) as [em2 Em2]; rewrite Em2 in *|]).
  - destruct (HS _ _ _ (eq_sym F1)) as [L1 K1]. destruct (HS _ _ _ (eq_sym F2)) as [L2 K2].
    rewrite K1e in K1. rewrite K2e in K2.
    assert (marked_with (mark_ri ri p1 em1 em2) p1 (ri_key1 ri jd) (ri_key2 ri jd)) as Hm.
    { rewrite <- K1e, <- K2e. split_and!; [done..| |]; apply (f_equal Some); [by apply (HK p1); auto|by apply (HK p2); auto]. }
    destruct (Nat.eqb_spec p1 p2) as [<-|Hp].
    { apply (step_known _ _ _ p1); [done..|]. apply extended_by; try done. by rewrite app_nil_r. }
    destruct (ec_merging_done root) eqn:Ed; [by apply (step_too_late _ _ _ p1 p2)|].
    destruct (Fidx eq_refl p2 eq_refl) as [_ Hidx]. rewrite Z.sub_0_r in Hidx. by apply merge_case.
  - destruct (HS _ _ _ (eq_sym F1)) as [L1 K1]. rewrite K1e in K1. specialize (HN _ _ (eq_sym F2)). rewrite K2e in HN.
    apply (step_add_second _ _ _ p1); try done.
    + rewrite <- K1e, <- K2e. split_and!; [done..| |]; apply (f_equal Some); [by apply (HK p1); auto|by apply HA].
    + apply extended_by; try done. unfold ec_keys. cbn. rewrite fmap_app. apply (f_equal (app _)), (f_equal (fun k => [k])). rewrite <- K2e. by apply HA.
  - destruct (HS _ _ _ (eq_sym F2)) as [L2 K2]. rewrite K2e in K2. specialize (HN _ _ (eq_sym F1)). rewrite K1e in HN.
    apply (step_add_first _ _ _ p2); try done.
    + rewrite <- K1e, <- K2e. split_and!; [done..| |]; apply (f_equal Some); [by apply HA|by apply (HK p2); auto].
    + apply extended_by; try done. unfold ec_keys. cbn. rewrite fmap_app. apply (f_equal (app _)), (f_equal (fun k => [k])). rewrite <- K1e. by apply HA.
  - pose proof (HN _ _ (eq_sym F1)) as N1. pose proof (HN _ _ (eq_sym F2)) as N2. rewrite K1e in N1. rewrite K2e in N2.
    cbn [add_eq_member new_ec]. match goal with |- context [ec_heap root ++ [?e]] => pose proof (get_new_ec root e) as Hg end.
    cbn [new_ec snd] in Hg. apply step_new; [done..|]. cbv zeta. rewrite <- K1e, <- K2e. split; [|split; [|split; [done|]]].
    + split_and!; [done..| |]; apply (f_equal Some); by apply HA.
    + rewrite Hg, decide_True by done. split_and!; try done.
      apply (f_equal2 (fun a b => [a; b])); by apply HA.
    + intros q Hq. by rewrite Hg, decide_False.
Qed.

(** C25: [process_equivalence] on every branch, with the condition of each.  A clause whose evaluation could be postponed
    for security reasons is rejected; another clause [X = X] is rejected, with [X IS NOT NULL]
    as replacement for a strict operator; both leave the classes alone.  For any other clause: if one class contains both sides, it
    only gains a source clause; if two classes contain one side each, they are merged, the second one leaving the
    list with a link to the first, or, if merging was declared complete, the "too late" error is raised; if only one side is
    in a class, that class gains the other side; and if neither is, a new class of both sides is added.  The clause is marked with that class
    and members for its two sides, all other classes stay as they are, and the invariant is kept. *)
Theorem process_equivalence_outcome root ri jd :
  ec_inv root -> clause_ok ri ->
  equivalence_step root ri jd (process_equivalence root ri jd) /\
  forall o root', process_equivalence root ri jd = Ok (o, root') -> ec_inv root'.
Proof.
  intros Hi Hc. split; [by apply process_step|]. intros [o|ri'] root' E.
  - by rewrite (rejected_root _ _ _ _ _ E).
  - destruct (process_equivalence_spec _ _ _ _ _ Hi Hc E) as (p & _ & _ & Hab). apply Hab.
Qed.

(** The outcome of the lookup apart from the classes themselves. *)
Definition lookup_outcome root (e : Expr) (sortref : Z) (create : bool)
    (r : result (option nat * ECRoot Expr)) : Prop :=
  match r with
  | Ok (Some p, root') =>
      root' = root \/
      (p = length (ec_heap root) /\ eq_classes root' = eq_classes root ++ [p] /\
       (ec_merging_done root = true ->
          marked (ec_relids (get_ec root' p)) (-1) (Z.of_nat (length (eq_classes root)))
            (eclass_indexes root) (eclass_indexes root')))
  | Ok (None, root') => create = false /\ root' = root
  | Error msg => msg = no_sortref_msg /\ contain_volatile_functions e = true /\ sortref = 0
  | NoFuel => False
  end.

Lemma get_eclass_outcome kinds root expr opf type coll sortref rel create :
  let e := canonicalize_ec_expression expr type coll in
  rels_wf (eclass_indexes root) -> bms_wf (pull_varnos e) -> bms_mem (pull_varnos e) 0 = false ->
  (ec_merging_done root = true -> rels_fit kinds (pull_varnos e) (eclass_indexes root)) ->
  lookup_outcome root e sortref create
    (get_eclass_for_sort_expr kinds root expr opf type coll sortref rel create).
Proof.
  intros e Hr Hw H0 Hfit. unfold get_eclass_for_sort_expr. fold e.
  destruct (sort_class_search _ _ _ _ _ _ _ _ _) as [p|]; [by left|].
  destruct create; [|done]. simpl negb. cbv iota.
  destruct (contain_volatile_functions e && (sortref =? 0)) eqn:Ev.
  { by apply andb_prop in Ev as [? ?%Z.eqb_eq]. }
  cbn [add_eq_member]. set (wc := _ && _). set (newec := if wc then _ else _).
  assert (ec_relids newec = pull_varnos e) as Erel.
  { unfold newec, bms_is_empty. destruct wc; simpl; by destruct (pull_varnos e). }
  cbn [new_ec ec_merging_done].
  destruct (ec_merging_done root) eqn:Ed; [|right; split; [done|]; split; [done|]; by rewrite Ed].
  rewrite Erel. cbn [eq_classes ec_heap eclass_indexes].
  replace (Z.of_nat (length (eq_classes root ++ [length (ec_heap root)])) - 1)
    with (Z.of_nat (length (eq_classes root))) by (rewrite length_app; simpl; lia).
  destruct (mark_eclass_indexes_spec (Z.to_nat (bms_capacity (pull_varnos e)) + 2)
      kinds (pull_varnos e) (-1) (Z.of_nat (length (eq_classes root))) (eclass_indexes root))
    as (rels' & E & _ & Hm); [done|done|done|by apply Hfit|lia|lia|lia|lia|].
  rewrite E. cbn [mbind result_bind lookup_outcome]. right. split; [done|]. split; [done|]. intros _.
  unfold get_ec. cbn [ec_heap eclass_indexes]. by rewrite nth_middle, Erel.
Qed.

(** C32: looking up a sort expression succeeds, except for the "no sortref" error on a
    volatile expression that is created without one.  After merging was completed this needs that every relation the expression
    mentions has an entry in [simple_rel_array], which is a base relation, or NULL for an outer join: what the code asserts.  The
    lookup never merges classes; a class it
    returns is live, has the requested collation and operator families and contains the
    expression; [NULL] is returned only when no class of that signature contains the
    expression.  A class created after merging was completed is registered with exactly
    the base relations the expression mentions. *)
Theorem sort_expr_lookup kinds root expr opf type coll sortref rel create :
  let e := canonicalize_ec_expression expr type coll in
  let k := item_key type e (top_jdomain root) in
  ec_inv root -> rels_wf (eclass_indexes root) -> bms_wf (pull_varnos e) ->
  bms_mem (pull_varnos e) 0 = false ->
  (ec_merging_done root = true -> rels_fit kinds (pull_varnos e) (eclass_indexes root)) ->
  let r := get_eclass_for_sort_expr kinds root expr opf type coll sortref rel create in
  lookup_outcome root e sortref create r /\
  forall o root', r = Ok (o, root') ->
    ec_inv root' /\ (forall s a b, a <> b -> same root' s a b <-> same root s a b) /\
    match o with
    | Some p => p ∈ eq_classes root' /\ ec_sig (get_ec root' p) = (coll, opf) /\
                k ∈ ec_keys (get_ec root' p)
    | None => forall p, live root (coll, opf) p -> k ∉ ec_keys (get_ec root p)
    end.
Proof.
  intros e k Hi Hr Hw H0 Hfit r. split; [by apply get_eclass_outcome|]. intros o root' E.
  destruct (get_eclass_spec _ _ _ _ _ _ _ _ _ _ _ Hi E) as [S1 S2 S3 S4 S5]. split; [done|]. split.
  - intros s a b Hne. split; [|by apply grows_same]. intros [H|[-> ->]]%S3; done.
  - destruct o as [p|]; [by apply S4|by apply S5].
Qed.
End Thms.

(** ** Witnesses: expressions are column numbers, [0] is a constant. *)
Module Demo.
#[local] Instance column_ops : ExprOps nat := {
  exprType := fun _ => 23; exprCollation := fun _ => 0; exprTypmod := fun _ => -1;
  applyRelabelType := fun e _ _ _ => e; IsPolymorphicType := fun _ => false;
  op_input_types := fun _ => (23, 23); op_strict := fun _ => true;
  contain_volatile_functions := fun _ => false; expression_returns_set := fun _ => false;
  contain_agg_clause := fun _ => false; contain_window_function := fun _ => false;
  pull_varnos := fun e => if (e =? 0)%nat then None else Some [Z.shiftl 1 (Z.of_nat e)] }.

Definition equality (id l r : nat) : RestrictInfo nat :=
  {| ri_id := id; clause := {| opno := 96; inputcollid := 0; leftop := l; rightop := r |};
     left_relids := pull_varnos l; right_relids := pull_varnos r; mergeopfamilies := [1976];
     security_level := 0; leakproof := true; left_ec := None; right_ec := None; left_em := None;
     right_em := None; outer_is_left := true |}.

Definition after (root : ECRoot nat) (ri : RestrictInfo nat) : ECRoot nat :=
  match process_equivalence root ri 0%nat with Ok (_, root') => root' | _ => root end.
Definition outcome_ri (root : ECRoot nat) (ri : RestrictInfo nat) : RestrictInfo nat :=
  match process_equivalence root ri 0%nat with Ok (Absorbed ri', _) => ri' | _ => ri end.
Definition demo0 : ECRoot nat := ec_start (replicate 8 (Some None)) 0.
Definition demo1 := after demo0 (equality 1 1 2).
Definition demo2 := after demo1 (equality 2 3 4).
Definition demo3 := after demo2 (equality 3 2 3).

Definition col (e : nat) : key nat := (23, e, None).
Definition sig0 : signature := (0, [1976]).

Definition pairs1 := [(sig0, col 1, col 2)].
Definition handles1 := [(0%nat, sig0, col 1); (0%nat, sig0, col 2)].
Definition pairs2 := (sig0, col 3, col 4) :: pairs1.
Definition handles2 := (1%nat, sig0, col 3) :: (1%nat, sig0, col 4) :: handles1.
Definition pairs3 := (sig0, col 2, col 3) :: pairs2.
Definition handles3 := (0%nat, sig0, col 2) :: (0%nat, sig0, col 3) :: handles2.

Lemma demo_reach1 : ec_reach demo1 pairs1 handles1.
Proof.
  exact (reach_absorb demo0 [] [] (equality 1 1 2) 0 (outcome_ri demo0 (equality 1 1 2)) demo1 0 (reach_start _ _)
           (conj eq_refl eq_refl) eq_refl eq_refl).
Qed.
Lemma demo_reach2 : ec_reach demo2 pairs2 handles2.
Proof.
  exact (reach_absorb demo1 pairs1 handles1 (equality 2 3 4) 0 (outcome_ri demo1 (equality 2 3 4)) demo2 1 (demo_reach1)
           (conj eq_refl eq_refl) eq_refl eq_refl).
Qed.
Lemma demo_reach3 : ec_reach demo3 pairs3 handles3.
Proof.
  exact (reach_absorb demo2 pairs2 handles2 (equality 3 2 3) 0 (outcome_ri demo2 (equality 3 2 3)) demo3 0 (demo_reach2)
           (conj eq_refl eq_refl) eq_refl eq_refl).
Qed.

Lemma union_find_correct_witness :
  canonical_ec demo3 1 = Ok 0%nat /\ rtsc (paired pairs3 sig0) (col 4) (col 1).
Proof.
  destruct (union_find_correct demo3 _ _ sig0 1 (col 4) 0 (col 1) demo_reach3)
    as (p & q & Hp & Hq & _ & _ & Hiff); [set_solver..|].
  assert (p = 0%nat) as -> by (vm_compute in Hp; congruence).
  assert (q = 0%nat) as -> by (vm_compute in Hq; congruence).
  split; [done|]. by apply Hiff.
Defined.

Lemma process_equivalence_outcome_witness :
  match process_equivalence demo2 (equality 3 2 3) 0 with
  | Ok (Absorbed ri', root') => left_ec ri' = Some 0%nat /\ ec_inv root'
  | _ => False
  end.
Proof.
  pose proof (reach_inv _ _ _ demo_reach2) as Hi.
  destruct (process_equivalence_outcome demo2 (equality 3 2 3) 0 Hi (conj eq_refl eq_refl)) as [_ H].
  revert H. vm_compute process_equivalence. intros H. split; [done|]. by eapply H.
Defined.

(** Relations 1 to 5 are base relations, 6 is an outer join. *)
Definition demo_kinds : RelKinds := {| rk_outer_join := Z.eqb 6; rk_baserel := fun i => i <=? 5 |}.
Lemma sort_expr_lookup_witness :
  exists root', get_eclass_for_sort_expr demo_kinds (ec_finish demo3) 5%nat [1976] 23 0 0 None true
    = Ok (Some 2%nat, root') /\ ec_inv root'.
Proof.
  destruct (sort_expr_lookup demo_kinds (ec_finish demo3) 5%nat [1976] 23 0 0 None true) as [_ H].
  - eapply reach_inv, reach_finish, demo_reach3.
  - intros i b Hb. assert (exists l, eclass_indexes (ec_finish demo3) = l) as [l El] by (eexists; vm_compute; reflexivity).
    rewrite El in Hb. vm_compute in El. subst l. repeat (destruct i as [|i]; [by injection Hb as <-|]). done.
  - split; [|done]. repeat constructor; done.
  - done.
  - intros _ i Hi Hm. assert (i = 5) as -> by (destruct (Z.eq_dec i 5); [done|exfalso; revert Hm; unfold bms_mem;
      change (bms_val (pull_varnos _)) with (2 ^ 5); rewrite Z.pow2_bits_eqb by lia; destruct (Z.eqb_spec 5 i); [lia|done]]).
    vm_compute. reflexivity.
  - eexists. split; [vm_compute; reflexivity|]. eapply H. vm_compute. reflexivity.
Defined.
End Demo.
