(* ===== verification/PathKeys.v ===== *)
(** * Pathkeys ([src/backend/optimizer/path/pathkeys.c])

    Canonical [PathKey] objects live in [root->canon_pathkeys], which only grows; a pointer
    to a [PathKey] is an index into that list, so pointer comparison in the code is
    comparison of indexes here.  A pathkey list ([List *]) is a list of such indexes.

    A violated [Assert] or a NULL dereference is the outcome [Error assert_msg]. *)
From S2P Require Import Prelude Bitmapset BitmapsetSpec BitmapsetIter EquivClass.
#[local] Open Scope Z_scope.

Definition BTLessStrategyNumber : Z := 1.
Definition BTGreaterStrategyNumber : Z := 5.
Definition too_soon_msg : string := "too soon to build canonical pathkeys".
Definition too_few_msg : string := "too few pathkeys for mergeclauses".
Definition no_match_msg : string := "outer pathkeys do not match mergeclause".

Inductive PathKeysComparison := PATHKEYS_EQUAL | PATHKEYS_BETTER1 | PATHKEYS_BETTER2 | PATHKEYS_DIFFERENT.
Inductive JoinType :=
  JOIN_INNER | JOIN_LEFT | JOIN_FULL | JOIN_RIGHT | JOIN_SEMI | JOIN_ANTI | JOIN_RIGHT_ANTI
  | JOIN_UNIQUE_OUTER | JOIN_UNIQUE_INNER.

Record PathKey := {
  pk_eclass : nat;
  pk_opfamily : Oid;
  pk_strategy : Z;
  pk_nulls_first : bool
}.
#[global] Instance PathKey_eq_dec : EqDecision PathKey.
Proof. solve_decision. Defined.

(** ** Comparisons

    [compare_pathkeys] first tests whether the two list pointers are equal; equal pointers
    are equal lists, on which the loop gives the same answer ([compare_pathkeys_refl]). *)
Fixpoint compare_pathkeys (keys1 keys2 : list nat) : PathKeysComparison :=
  match keys1, keys2 with
  | key1 :: keys1, key2 :: keys2 =>
      if negb (key1 =? key2)%nat then PATHKEYS_DIFFERENT else compare_pathkeys keys1 keys2
  | _ :: _, [] => PATHKEYS_BETTER1
  | [], _ :: _ => PATHKEYS_BETTER2
  | [], [] => PATHKEYS_EQUAL
  end.

Definition pathkeys_contained_in (keys1 keys2 : list nat) : bool :=
  match compare_pathkeys keys1 keys2 with
  | PATHKEYS_EQUAL | PATHKEYS_BETTER2 => true
  | _ => false
  end.

Fixpoint count_contained_loop (keys1 keys2 : list nat) (n : Z) : bool * Z :=
  match keys1, keys2 with
  | key1 :: keys1, key2 :: keys2 =>
      if negb (key1 =? key2)%nat then (false, n) else count_contained_loop keys1 keys2 (n + 1)
  | [], _ => (true, n)
  | _ :: _, [] => (false, n)
  end.

Definition pathkeys_count_contained_in (keys1 keys2 : list nat) : bool * Z :=
  match keys1, keys2 with
  | [], _ => (true, 0)
  | _, [] => (false, 0)
  | _, _ => count_contained_loop keys1 keys2 0
  end.

Section PathKeys.
Context {Expr : Type} `{!ExprOps Expr}.

Record PKRoot := {
  pk_ecs : ECRoot Expr;
  canon_pathkeys : list PathKey;
  query_pathkeys : list nat
}.
Implicit Types (root : PKRoot).

Definition null_pathkey : PathKey :=
  {| pk_eclass := 0%nat; pk_opfamily := 0; pk_strategy := 0; pk_nulls_first := false |}.
Definition pk_at root (p : nat) : PathKey := nth p (canon_pathkeys root) null_pathkey.
Definition pk_ec root (p : nat) : nat := pk_eclass (pk_at root p).

(** ** Construction *)
Fixpoint canon_search (pks : list PathKey) (i : nat) (pk : PathKey) : option nat :=
  match pks with
  | [] => None
  | x :: rest =>
      if (pk_eclass pk =? pk_eclass x)%nat && (pk_opfamily pk =? pk_opfamily x)
         && (pk_strategy pk =? pk_strategy x) && eqb (pk_nulls_first pk) (pk_nulls_first x)
      then Some i else canon_search rest (S i) pk
  end.

Definition make_canonical_pathkey root (eclass : nat) (opfamily : Oid) (strategy : Z)
    (nulls_first : bool) : result (nat * PKRoot) :=
  if negb (ec_merging_done (pk_ecs root)) then Error too_soon_msg
  else
    eclass ← canonical_ec (pk_ecs root) eclass;
    let pk := {| pk_eclass := eclass; pk_opfamily := opfamily; pk_strategy := strategy;
                 pk_nulls_first := nulls_first |} in
    match canon_search (canon_pathkeys root) 0 pk with
    | Some p => Ok (p, root)
    | None => Ok (length (canon_pathkeys root),
                  {| pk_ecs := pk_ecs root; canon_pathkeys := canon_pathkeys root ++ [pk];
                     query_pathkeys := query_pathkeys root |})
    end.

Definition pathkey_is_redundant root (new_pathkey : nat) (pathkeys : list nat) : bool :=
  let new_ec := pk_ec root new_pathkey in
  if ec_has_const (get_ec (pk_ecs root) new_ec) then true
  else existsb (fun old_pathkey => (new_ec =? pk_ec root old_pathkey)%nat) pathkeys.

Fixpoint append_pathkeys root (target source : list nat) : list nat :=
  match source with
  | [] => target
  | pk :: rest =>
      append_pathkeys root (if negb (pathkey_is_redundant root pk target) then target ++ [pk] else target) rest
  end.

(** ** Merge clauses *)
Definition chase_link root (link : option nat) : result nat :=
  match link with
  | Some p => canonical_ec (pk_ecs root) p
  | None => Error assert_msg
  end.

Definition update_mergeclause_eclasses root (ri : RestrictInfo Expr) : result (RestrictInfo Expr) :=
  l ← chase_link root (left_ec ri);
  r ← chase_link root (right_ec ri);
  Ok {| ri_id := ri_id ri; clause := clause ri; left_relids := left_relids ri;
        right_relids := right_relids ri; mergeopfamilies := mergeopfamilies ri;
        security_level := security_level ri; leakproof := leakproof ri;
        left_ec := Some l; right_ec := Some r; left_em := left_em ri; right_em := right_em ri;
        outer_is_left := outer_is_left ri |}.

Fixpoint update_all root (ris : list (RestrictInfo Expr)) : result (list (RestrictInfo Expr)) :=
  match ris with
  | [] => Ok []
  | ri :: rest => ri ← update_mergeclause_eclasses root ri; rest ← update_all root rest; Ok (ri :: rest)
  end.

Definition outer_ec (ri : RestrictInfo Expr) : option nat :=
  if outer_is_left ri then left_ec ri else right_ec ri.
Definition inner_ec (ri : RestrictInfo Expr) : option nat :=
  if outer_is_left ri then right_ec ri else left_ec ri.

Definition ec_is (o : option nat) (p : nat) : bool :=
  match o with Some q => (q =? p)%nat | None => false end.

Fixpoint match_pathkeys root (pathkeys : list nat) (ris : list (RestrictInfo Expr))
    (mergeclauses : list (RestrictInfo Expr)) : list (RestrictInfo Expr) :=
  match pathkeys with
  | [] => mergeclauses
  | pathkey :: rest =>
      let pathkey_ec := pk_ec root pathkey in
      let matched := List.filter (fun rinfo => ec_is (outer_ec rinfo) pathkey_ec) ris in
      match matched with
      | [] => mergeclauses
      | _ => match_pathkeys root rest ris (mergeclauses ++ matched)
      end
  end.

Definition find_mergeclauses_for_outer_pathkeys root (pathkeys : list nat)
    (restrictinfos : list (RestrictInfo Expr)) : result (list (RestrictInfo Expr)) :=
  restrictinfos ← update_all root restrictinfos;
  Ok (match_pathkeys root pathkeys restrictinfos []).

(** *** [select_outer_pathkeys_for_merge]

    The parallel arrays [ecs] and [scores] are one list of pairs. *)
Definition ec_score root (oeclass : nat) (joinrel : RelInfo Expr) : Z :=
  Z.of_nat (length (List.filter
    (fun em => negb (em_is_const em) && negb (em_is_child em)
               && negb (bms_overlap (em_relids em) (rel_relids joinrel)))
    (ec_members (get_ec (pk_ecs root) oeclass)))).

Fixpoint collect_ecs root (mergeclauses : list (RestrictInfo Expr)) (joinrel : RelInfo Expr)
    (arr : list (nat * Z)) : result (list (nat * Z)) :=
  match mergeclauses with
  | [] => Ok arr
  | rinfo :: rest =>
      rinfo ← update_mergeclause_eclasses root rinfo;
      match outer_ec rinfo with
      | None => Error assert_msg
      | Some oeclass =>
          if existsb (fun e => (fst e =? oeclass)%nat) arr then collect_ecs root rest joinrel arr
          else collect_ecs root rest joinrel (arr ++ [(oeclass, ec_score root oeclass joinrel)])
      end
  end.

(** The loop that counts leading [query_pathkeys] whose class is in [arr]; the flag tells
    whether it got to the end of the list. *)
Fixpoint count_matches root (arr : list (nat * Z)) (keys : list nat) (matches : Z) : bool * Z :=
  match keys with
  | [] => (true, matches)
  | k :: rest =>
      if existsb (fun e => (fst e =? pk_ec root k)%nat) arr then count_matches root arr rest (matches + 1)
      else (false, matches)
  end.

(** [scores[j] = -1] for the first [j] with [ecs[j] == ec]. *)
Fixpoint mark_emitted (arr : list (nat * Z)) (ec : nat) : list (nat * Z) :=
  match arr with
  | [] => []
  | (e, sc) :: rest => if (e =? ec)%nat then (e, -1) :: rest else (e, sc) :: mark_emitted rest ec
  end.

(** [best_j] starts at 0 and moves only to a strictly greater score. *)
Fixpoint best_score (arr : list (nat * Z)) (best : nat * Z) : nat * Z :=
  match arr with
  | [] => best
  | e :: rest => best_score rest (if snd e >? snd best then e else best)
  end.

Fixpoint emit_by_popularity (fuel : nat) root (arr : list (nat * Z)) (pathkeys : list nat)
    : result (list nat * PKRoot) :=
  match fuel with
  | O => NoFuel
  | S fuel =>
      match arr with
      | [] => Error assert_msg
      | e0 :: rest =>
          let '(ec, score) := best_score rest e0 in
          if score <? 0 then Ok (pathkeys, root)
          else
            match ec_opfamilies (get_ec (pk_ecs root) ec) with
            | [] => Error assert_msg
            | opfamily :: _ =>
                '(pathkey, root) ← make_canonical_pathkey root ec opfamily BTLessStrategyNumber false;
                if pathkey_is_redundant root pathkey pathkeys then Error assert_msg
                else emit_by_popularity fuel root (mark_emitted arr ec) (pathkeys ++ [pathkey])
            end
      end
  end.

Definition select_outer_pathkeys_for_merge root (mergeclauses : list (RestrictInfo Expr))
    (joinrel : RelInfo Expr) : result (list nat * PKRoot) :=
  let nClauses := Z.of_nat (length mergeclauses) in
  if nClauses =? 0 then Ok ([], root)
  else
    arr ← collect_ecs root mergeclauses joinrel [];
    let fuel := S (length arr) in
    match query_pathkeys root with
    | [] => emit_by_popularity fuel root arr []
    | keys =>
        let '(all, matches) := count_matches root arr keys 0 in
        if all then
          emit_by_popularity fuel root (fold_left (fun arr k => mark_emitted arr (pk_ec root k)) keys arr) keys
        else if matches =? nClauses then Ok (take (Z.to_nat matches) keys, root)
        else emit_by_popularity fuel root arr []
    end.

(** *** [make_inner_pathkeys_for_merge] *)
Fixpoint inner_loop root (mergeclauses : list (RestrictInfo Expr)) (lastoeclass : option nat)
    (opathkey : option nat) (lop : list nat) (pathkeys : list nat) : result (list nat * PKRoot) :=
  match mergeclauses with
  | [] => Ok (pathkeys, root)
  | rinfo :: rest =>
      rinfo ← update_mergeclause_eclasses root rinfo;
      match outer_ec rinfo, inner_ec rinfo with
      | Some oeclass, Some ieclass =>
          '(opathkey, lop) ←
            (if ec_is lastoeclass oeclass then Ok (opathkey, lop)
             else match lop with
                  | [] => Error too_few_msg
                  | o :: lop => if negb (pk_ec root o =? oeclass)%nat then Error no_match_msg
                                else Ok (Some o, lop)
                  end);
          match opathkey with
          | None => Error assert_msg
          | Some o =>
              '(pathkey, root) ←
                (if (ieclass =? oeclass)%nat then Ok (o, root)
                 else make_canonical_pathkey root ieclass (pk_opfamily (pk_at root o))
                        (pk_strategy (pk_at root o)) (pk_nulls_first (pk_at root o)));
              inner_loop root rest (Some oeclass) (Some o) lop
                (if negb (pathkey_is_redundant root pathkey pathkeys) then pathkeys ++ [pathkey] else pathkeys)
          end
      | _, _ => Error assert_msg
      end
  end.

Definition make_inner_pathkeys_for_merge root (mergeclauses : list (RestrictInfo Expr))
    (outer_pathkeys : list nat) : result (list nat * PKRoot) :=
  inner_loop root mergeclauses None None outer_pathkeys [].

(** *** The variants tried by [sort_inner_and_outer] ([joinpath.c])

    For every position of [all_pathkeys] that key is moved to the front; the clauses are put
    into the corresponding order, all of them must have been used, and the inner keys
    are built. *)
Definition front_first (all_pathkeys : list nat) (i : nat) : list nat :=
  match i with
  | O => all_pathkeys
  | S _ => match all_pathkeys !! i with
           | Some front_pathkey => front_pathkey :: list_delete_nth i all_pathkeys
           | None => all_pathkeys
           end
  end.

Definition merge_variant root (outerkeys : list nat) (mergeclause_list : list (RestrictInfo Expr))
    : result (list (RestrictInfo Expr) * list nat * PKRoot) :=
  cur_mergeclauses ← find_mergeclauses_for_outer_pathkeys root outerkeys mergeclause_list;
  if negb (length cur_mergeclauses =? length mergeclause_list)%nat then Error assert_msg
  else
    '(innerkeys, root) ← make_inner_pathkeys_for_merge root cur_mergeclauses outerkeys;
    Ok (cur_mergeclauses, innerkeys, root).

Fixpoint merge_variants root (all_pathkeys : list nat) (indexes : list nat)
    (mergeclause_list : list (RestrictInfo Expr))
    : result (list (list nat * list (RestrictInfo Expr) * list nat) * PKRoot) :=
  match indexes with
  | [] => Ok ([], root)
  | i :: rest =>
      let outerkeys := front_first all_pathkeys i in
      '(cur_mergeclauses, innerkeys, root) ← merge_variant root outerkeys mergeclause_list;
      '(vs, root) ← merge_variants root all_pathkeys rest mergeclause_list;
      Ok ((outerkeys, cur_mergeclauses, innerkeys) :: vs, root)
  end.

Definition sort_merge_variants root (mergeclause_list : list (RestrictInfo Expr)) (joinrel : RelInfo Expr)
    : result (list (list nat * list (RestrictInfo Expr) * list nat) * PKRoot) :=
  '(all_pathkeys, root) ← select_outer_pathkeys_for_merge root mergeclause_list joinrel;
  merge_variants root all_pathkeys (seq 0 (length all_pathkeys)) mergeclause_list.

(** *** [trim_mergeclauses_for_inner_pathkeys] *)
Fixpoint trim_loop root (mergeclauses : list (RestrictInfo Expr)) (pathkey_ec : nat) (lip : list nat)
    (matched_pathkey : bool) (new_mergeclauses : list (RestrictInfo Expr)) : list (RestrictInfo Expr) :=
  match mergeclauses with
  | [] => new_mergeclauses
  | rinfo :: rest =>
      let clause_ec := inner_ec rinfo in
      if ec_is clause_ec pathkey_ec then
        trim_loop root rest pathkey_ec lip true (new_mergeclauses ++ [rinfo])
      else if negb matched_pathkey then new_mergeclauses
      else match lip with
           | [] => new_mergeclauses
           | p :: lip =>
               if ec_is clause_ec (pk_ec root p) then
                 trim_loop root rest (pk_ec root p) lip true (new_mergeclauses ++ [rinfo])
               else new_mergeclauses
           end
  end.

Definition trim_mergeclauses_for_inner_pathkeys root (mergeclauses : list (RestrictInfo Expr))
    (pathkeys : list nat) : list (RestrictInfo Expr) :=
  match pathkeys with
  | [] => []
  | p :: lip => trim_loop root mergeclauses (pk_ec root p) lip false []
  end.

(** ** Usefulness *)
Definition right_merge_direction root (pathkey : nat) : bool :=
  let pk := pk_at root pathkey in
  match List.find (fun q => let qk := pk_at root q in
                 (pk_eclass pk =? pk_eclass qk)%nat && (pk_opfamily pk =? pk_opfamily qk))
          (query_pathkeys root) with
  | Some q => pk_strategy pk =? pk_strategy (pk_at root q)
  | None => pk_strategy pk =? BTLessStrategyNumber
  end.

Fixpoint joininfo_matches root (ec : nat) (ris : list (RestrictInfo Expr)) : result bool :=
  match ris with
  | [] => Ok false
  | ri :: rest =>
      match mergeopfamilies ri with
      | [] => joininfo_matches root ec rest
      | _ =>
          ri ← update_mergeclause_eclasses root ri;
          if ec_is (left_ec ri) ec || ec_is (right_ec ri) ec then Ok true
          else joininfo_matches root ec rest
      end
  end.

Fixpoint pathkeys_useful_for_merging root (rel : RelInfo Expr) (pathkeys : list nat) : result Z :=
  match pathkeys with
  | [] => Ok 0
  | pathkey :: rest =>
      if negb (right_merge_direction root pathkey) then Ok 0
      else
        useful ← (if has_eclass_joins rel then eclass_useful_for_merging (get_ec (pk_ecs root) (pk_ec root pathkey)) rel
                  else Ok false);
        matched ← (if useful : bool then Ok true else joininfo_matches root (pk_ec root pathkey) (joininfo rel));
        if matched : bool then n ← pathkeys_useful_for_merging root rel rest; Ok (n + 1) else Ok 0
  end.

Definition pathkeys_useful_for_ordering root (pathkeys : list nat) : Z :=
  match query_pathkeys root, pathkeys with
  | [], _ => 0
  | _, [] => 0
  | _, _ => snd (pathkeys_count_contained_in (query_pathkeys root) pathkeys)
  end.

Definition truncate_useless_pathkeys root (rel : RelInfo Expr) (pathkeys : list nat) : result (list nat) :=
  nuseful ← pathkeys_useful_for_merging root rel pathkeys;
  let nuseful2 := pathkeys_useful_for_ordering root pathkeys in
  let nuseful := if nuseful2 >? nuseful then nuseful2 else nuseful in
  Ok (if nuseful =? 0 then []
      else if nuseful =? Z.of_nat (length pathkeys) then pathkeys
      else take (Z.to_nat nuseful) pathkeys).

Definition has_useful_pathkeys root (rel : RelInfo Expr) : bool :=
  if negb (bool_decide (length (joininfo rel) = 0%nat)) || has_eclass_joins rel then true
  else negb (bool_decide (query_pathkeys root = [])).

Definition build_join_pathkeys root (joinrel : RelInfo Expr) (jointype : JoinType)
    (outer_pathkeys : list nat) : result (list nat) :=
  match jointype with
  | JOIN_FULL | JOIN_RIGHT | JOIN_RIGHT_ANTI => Ok []
  | _ => truncate_useless_pathkeys root joinrel outer_pathkeys
  end.
End PathKeys.
Arguments PKRoot Expr : clear implicits.
