(* ===== verification/PathKeysProps.v ===== *)
(** * Correctness of the pathkey routines

    Canonicity makes pointer comparison of pathkeys sound, comparison of pathkey lists is the
    prefix order, the keys chosen for a merge join use every merge clause and never run into
    the two "pathkeys do not match" errors, and truncation keeps a useful prefix. *)
From S2P Require Import Prelude Bitmapset BitmapsetSpec BitmapsetIter EquivClass EquivClassProps EquivClassThms PathKeys.
#[local] Open Scope Z_scope.

(** ** Comparison *)
Lemma compare_pathkeys_refl keys : compare_pathkeys keys keys = PATHKEYS_EQUAL.
Proof. induction keys as [|k keys IH]; [done|]. simpl. by rewrite Nat.eqb_refl. Qed.

Lemma compare_pathkeys_spec keys1 keys2 :
  match compare_pathkeys keys1 keys2 with
  | PATHKEYS_EQUAL => keys1 = keys2
  | PATHKEYS_BETTER1 => exists k l, keys1 = keys2 ++ k :: l
  | PATHKEYS_BETTER2 => exists k l, keys2 = keys1 ++ k :: l
  | PATHKEYS_DIFFERENT => exists p k1 l1 k2 l2, k1 <> k2 /\ keys1 = p ++ k1 :: l1 /\ keys2 = p ++ k2 :: l2
  end.
Proof.
  revert keys2. induction keys1 as [|k1 keys1 IH]; intros [|k2 keys2]; simpl; [done|by exists k2, keys2|by exists k1, keys1|].
  destruct (Nat.eqb_spec k1 k2) as [<-|Hne]; simpl; [|by exists [], k1, keys1, k2, keys2].
  specialize (IH keys2). destruct (compare_pathkeys keys1 keys2).
  - by rewrite IH.
  - destruct IH as (k & l & ->). by exists k, l.
  - destruct IH as (k & l & ->). by exists k, l.
  - destruct IH as (p & a & l1 & b & l2 & Hne & -> & ->). by exists (k1 :: p), a, l1, b, l2.
Qed.

Lemma prefix_cons_inv_eq {A} (p : list A) x y l1 l2 l : x <> y ->
  p ++ x :: l1 = (p ++ y :: l2) ++ l -> False.
Proof. intros Hne H. rewrite <- app_assoc in H. apply app_inv_head in H. by injection H. Qed.

Lemma pathkeys_contained_in_prefix keys1 keys2 :
  pathkeys_contained_in keys1 keys2 = true <-> keys1 `prefix_of` keys2.
Proof.
  unfold pathkeys_contained_in. pose proof (compare_pathkeys_spec keys1 keys2) as H.
  destruct (compare_pathkeys keys1 keys2).
  - subst. by split.
  - destruct H as (k & l & ->). split; [done|]. intros [l' E]. exfalso.
    apply (f_equal length) in E. rewrite !length_app in E. simpl in E. lia.
  - destruct H as (k & l & ->). split; [by exists (k :: l)|done].
  - destruct H as (p & a & l1 & b & l2 & Hne & -> & ->). split; [done|]. intros [l' E].
    exfalso. by eapply prefix_cons_inv_eq; [|exact E].
Qed.

Lemma compare_pathkeys_cases keys1 keys2 :
  match compare_pathkeys keys1 keys2 with
  | PATHKEYS_EQUAL => keys1 = keys2
  | PATHKEYS_BETTER1 => keys2 `prefix_of` keys1 /\ keys1 <> keys2 /\ ~ keys1 `prefix_of` keys2
  | PATHKEYS_BETTER2 => keys1 `prefix_of` keys2 /\ keys1 <> keys2 /\ ~ keys2 `prefix_of` keys1
  | PATHKEYS_DIFFERENT => ~ keys1 `prefix_of` keys2 /\ ~ keys2 `prefix_of` keys1 /\ keys1 <> keys2
  end.
Proof.
  assert (forall (l1 l2 : list nat) k l, l1 = l2 ++ k :: l -> l2 `prefix_of` l1 /\ l1 <> l2 /\ ~ l1 `prefix_of` l2)
    as Hlong.
  { intros l1 l2 k l ->. split; [by exists (k :: l)|].
    split; [intros E%(f_equal length)|intros [l' E%(f_equal length)]]; rewrite !length_app in E; simpl in E; lia. }
  pose proof (compare_pathkeys_spec keys1 keys2) as H.
  destruct (compare_pathkeys keys1 keys2).
  - done.
  - destruct H as (k & l & ?). by eapply Hlong.
  - destruct H as (k & l & H). destruct (Hlong _ _ _ _ H) as (? & ? & ?). auto.
  - destruct H as (p & a & l1 & b & l2 & Hne & -> & ->).
    split; [intros [l' E]; by eapply prefix_cons_inv_eq; [|exact E]|].
    split; [intros [l' E]; by eapply prefix_cons_inv_eq; [|exact E]|].
    intros E%app_inv_head. by injection E.
Qed.

Lemma count_contained_loop_spec keys1 keys2 n :
  exists c, count_contained_loop keys1 keys2 n = (pathkeys_contained_in keys1 keys2, n + Z.of_nat c) /\
    take c keys1 = take c keys2 /\ (c <= length keys1)%nat /\ (c <= length keys2)%nat /\
    (forall d, (d <= length keys1)%nat -> (d <= length keys2)%nat -> take d keys1 = take d keys2 -> (d <= c)%nat).
Proof.
  revert keys2 n. induction keys1 as [|k1 keys1 IH]; intros keys2 n.
  { exists O. destruct keys2; simpl; (split; [by rewrite Z.add_0_r|]); split_and!; try done; intros; lia. }
  destruct keys2 as [|k2 keys2].
  { exists O. simpl. split; [by rewrite Z.add_0_r|]. split_and!; try done; intros; lia. }
  simpl. unfold pathkeys_contained_in. simpl. destruct (Nat.eqb_spec k1 k2) as [<-|Hne]; simpl.
  - destruct (IH keys2 (n + 1)) as (c & -> & H1 & H2 & H3 & H4). exists (S c).
    split; [f_equal; lia|]. simpl. split; [by rewrite H1|]. split; [lia|]. split; [lia|].
    intros [|d] Hd1 Hd2 E; [lia|]. simpl in E. injection E as E.
    enough (d <= c)%nat by lia. apply H4; [lia..|done].
  - exists O. split; [by rewrite Z.add_0_r|]. split_and!; try (simpl; lia); [done|].
    intros [|d] _ _ E; [lia|]. by injection E.
Qed.

Lemma pathkeys_count_contained_in_spec keys1 keys2 :
  exists c, pathkeys_count_contained_in keys1 keys2 = (pathkeys_contained_in keys1 keys2, Z.of_nat c) /\
    take c keys1 = take c keys2 /\ (c <= length keys1)%nat /\ (c <= length keys2)%nat /\
    (forall d, (d <= length keys1)%nat -> (d <= length keys2)%nat -> take d keys1 = take d keys2 -> (d <= c)%nat).
Proof.
  destruct (count_contained_loop_spec keys1 keys2 0) as (c & E & H). exists c.
  split; [|done]. rewrite <- (Z.add_0_l (Z.of_nat c)), <- E. by destruct keys1, keys2.
Qed.

(** The prefix order of pathkey lists: "better" means strictly longer with
    the other as a prefix, "different" means that the lists disagree at some position both
    have; [pathkeys_contained_in] decides the prefix relation, and
    [pathkeys_count_contained_in] also counts the longest common prefix. *)
Definition prefix_ordered (keys1 keys2 : list nat) : Prop :=
  (compare_pathkeys keys1 keys2 = PATHKEYS_EQUAL <-> keys1 = keys2) /\
  (compare_pathkeys keys1 keys2 = PATHKEYS_BETTER1 <-> keys2 `prefix_of` keys1 /\ keys1 <> keys2) /\
  (compare_pathkeys keys1 keys2 = PATHKEYS_BETTER2 <-> keys1 `prefix_of` keys2 /\ keys1 <> keys2) /\
  (pathkeys_contained_in keys1 keys2 = true <-> keys1 `prefix_of` keys2) /\
  (exists c, pathkeys_count_contained_in keys1 keys2
      = (bool_decide (keys1 `prefix_of` keys2), Z.of_nat c) /\
    take c keys1 = take c keys2 /\ (c <= length keys1)%nat /\ (c <= length keys2)%nat /\
    forall d, (d <= length keys1)%nat -> (d <= length keys2)%nat ->
      take d keys1 = take d keys2 -> (d <= c)%nat).
Lemma pathkeys_prefix_order keys1 keys2 : prefix_ordered keys1 keys2.
Proof.
  pose proof (pathkeys_contained_in_prefix keys1 keys2) as H12.
  destruct (pathkeys_count_contained_in_spec keys1 keys2) as (c & Ec & Hcnt).
  unfold prefix_ordered. split_and!; [..|done|exists c; split; [rewrite Ec; f_equal|done]].
  4: { destruct (pathkeys_contained_in keys1 keys2); case_bool_decide; tauto || done. }
  all: pose proof (compare_pathkeys_cases keys1 keys2) as Hc;
    destruct (compare_pathkeys keys1 keys2); split; intros; destruct_and?; done.
Qed.

Section Props.
Context {Expr : Type} `{!ExprOps Expr}.
Implicit Types (root : PKRoot Expr) (ri : RestrictInfo Expr).

(** ** Canonical pathkeys *)
Record pk_inv root : Prop := {
  pki_ecs : ec_inv (pk_ecs root);
  pki_done : ec_merging_done (pk_ecs root) = true;
  pki_nodup : NoDup (canon_pathkeys root);
  pki_live : forall pk, pk ∈ canon_pathkeys root -> pk_eclass pk ∈ eq_classes (pk_ecs root)
}.

(** [root'] has the pathkeys of [root] at the same addresses. *)
Definition extends root root' : Prop :=
  pk_ecs root' = pk_ecs root /\ query_pathkeys root' = query_pathkeys root /\
  canon_pathkeys root `prefix_of` canon_pathkeys root'.

Definition pk_valid root (p : nat) : Prop := (p < length (canon_pathkeys root))%nat.

#[global] Instance extends_preorder : PreOrder extends.
Proof.
  split; [intros root; split; [done|]; split; [done|reflexivity]|]. intros r1 r2 r3 (A1 & B1 & C1) (A2 & B2 & C2).
  split; [congruence|]. split; [congruence|]. by etransitivity.
Qed.

Lemma extends_at root root' p : extends root root' -> pk_valid root p -> pk_at root' p = pk_at root p.
Proof.
  intros (_ & _ & l & E) Hp. unfold pk_at. rewrite E. by apply app_nth1.
Qed.

Lemma extends_valid root root' p : extends root root' -> pk_valid root p -> pk_valid root' p.
Proof. intros (_ & _ & H) Hp. unfold pk_valid in *. apply prefix_length in H. lia. Qed.

Lemma pk_at_elem root p : pk_valid root p -> pk_at root p ∈ canon_pathkeys root.
Proof. intros Hp. apply list_elem_of_In, nth_In, Hp. Qed.

Lemma pk_at_inj root p q : pk_inv root -> pk_valid root p -> pk_valid root q ->
  pk_at root p = pk_at root q -> p = q.
Proof.
  intros Hi Hp Hq E. destruct (lookup_lt_is_Some_2 _ _ Hp) as [x Hx].
  destruct (lookup_lt_is_Some_2 _ _ Hq) as [y Hy].
  unfold pk_at in E. rewrite !nth_lookup, Hx, Hy in E. simpl in E. subst y.
  exact (NoDup_lookup _ _ _ _ (pki_nodup _ Hi) Hx Hy).
Qed.

Lemma canon_search_spec pks i pk :
  match canon_search pks i pk with
  | Some j => exists n, j = (i + n)%nat /\ pks !! n = Some pk
  | None => pk ∉ pks
  end.
Proof.
  revert i. induction pks as [|x pks IH]; intros i; simpl; [apply not_elem_of_nil|].
  destruct ((pk_eclass pk =? pk_eclass x)%nat && (pk_opfamily pk =? pk_opfamily x)
         && (pk_strategy pk =? pk_strategy x) && eqb (pk_nulls_first pk) (pk_nulls_first x)) eqn:E.
  - exists O. split; [lia|]. simpl. f_equal. rewrite !andb_true_iff in E.
    destruct E as [[[?%Nat.eqb_eq ?%Z.eqb_eq] ?%Z.eqb_eq] ?%eqb_prop]. destruct pk, x. simpl in *. congruence.
  - specialize (IH (S i)). destruct (canon_search pks (S i) pk) as [j|].
    + destruct IH as (n & -> & H). exists (S n). split; [lia|done].
    + rewrite elem_of_cons. intros [->|H]; [|done].
      by rewrite Nat.eqb_refl, !Z.eqb_refl, eqb_reflx in E.
Qed.

Lemma canonical_ec_self (e : ECRoot Expr) p : ec_inv e -> p ∈ eq_classes e -> canonical_ec e p = Ok p.
Proof. intros Hi Hp. by apply canonical_ec_live. Qed.

Lemma make_canonical_pathkey_spec root eclass opfamily strategy nulls_first :
  pk_inv root -> (eclass < length (ec_heap (pk_ecs root)))%nat ->
  exists ec p root',
    canonical_ec (pk_ecs root) eclass = Ok ec /\
    make_canonical_pathkey root eclass opfamily strategy nulls_first = Ok (p, root') /\
    pk_inv root' /\ extends root root' /\ pk_valid root' p /\
    pk_at root' p = {| pk_eclass := ec; pk_opfamily := opfamily; pk_strategy := strategy;
                       pk_nulls_first := nulls_first |}.
Proof.
  intros Hi He. destruct (canonical_ec_total _ _ (pki_ecs _ Hi) He) as (ec & Ec & _ & Hlive).
  exists ec. unfold make_canonical_pathkey. rewrite (pki_done _ Hi), Ec. cbn [negb mbind result_bind].
  set (pk := Build_PathKey _ _ _ _). pose proof (canon_search_spec (canon_pathkeys root) 0 pk) as Hs.
  destruct (canon_search (canon_pathkeys root) 0 pk) as [j|].
  - destruct Hs as (n & -> & Hn). exists n, root. split_and!; try done.
    + by eapply lookup_lt_Some.
    + unfold pk_at. by rewrite nth_lookup, Hn.
  - eexists _, _. split_and!; [done..| | |unfold pk_valid; simpl; rewrite length_app; simpl; lia|].
    + destruct Hi as [H1 H2 H3 H4]. split; simpl; [done|done| |].
      * apply NoDup_app. split_and!; [done| |apply NoDup_singleton].
        by intros x Hx ->%list_elem_of_singleton.
      * intros x. rewrite elem_of_app, list_elem_of_singleton. intros [Hx| ->]; [by apply H4|done].
    + split; [done|]. split; [done|]. by exists [pk].
    + unfold pk_at. simpl. by rewrite nth_middle.
Qed.

(** C29: canonical pathkeys can be compared by pointer.  Once equivalence classes are
    complete, [make_canonical_pathkey] always succeeds, never moves or changes an existing
    pathkey, and two calls return the same pointer exactly when operator family,
    direction, nulls ordering and the canonical equivalence class agree; before that it
    reports the "too soon" error.  Lists of such pointers are compared by the prefix order. *)
Theorem canonical_pathkeys root e1 o1 s1 n1 e2 o2 s2 n2 :
  ec_inv (pk_ecs root) -> (e1 < length (ec_heap (pk_ecs root)))%nat ->
  (e2 < length (ec_heap (pk_ecs root)))%nat ->
  (ec_merging_done (pk_ecs root) = false ->
     make_canonical_pathkey root e1 o1 s1 n1 = Error too_soon_msg) /\
  (pk_inv root ->
     exists p1 root1 p2 root2,
       make_canonical_pathkey root e1 o1 s1 n1 = Ok (p1, root1) /\
       make_canonical_pathkey root1 e2 o2 s2 n2 = Ok (p2, root2) /\
       pk_inv root2 /\ extends root root2 /\
       (p1 = p2 <-> canonical_ec (pk_ecs root) e1 = canonical_ec (pk_ecs root) e2 /\
                    o1 = o2 /\ s1 = s2 /\ n1 = n2)) /\
  (forall keys1 keys2, prefix_ordered keys1 keys2).
Proof.
  intros Hec H1 H2. split; [intros E; unfold make_canonical_pathkey; by rewrite E|]. split; [|apply pathkeys_prefix_order]. intros Hi.
  destruct (make_canonical_pathkey_spec root e1 o1 s1 n1 Hi H1)
    as (c1 & p1 & root1 & C1 & M1 & I1 & X1 & V1 & A1).
  pose proof X1 as (Ee & _). rewrite <- Ee in H2.
  destruct (make_canonical_pathkey_spec root1 e2 o2 s2 n2 I1 H2)
    as (c2 & p2 & root2 & C2 & M2 & I2 & X2 & V2 & A2).
  exists p1, root1, p2, root2. split_and!; try done; [by etransitivity|].
  rewrite Ee in C2. rewrite C1, C2. rewrite <- (extends_at root1 root2 p1 X2 V1) in A1.
  split; [intros ->; rewrite A1 in A2; injection A2 as ->; done|].
  intros ([= ->] & -> & -> & ->). apply (pk_at_inj root2); [done| |done|congruence].
  by apply (extends_valid root1).
Qed.

(** ** Merge clauses *)
Definition ri_ok root ri : Prop :=
  exists l r, left_ec ri = Some l /\ right_ec ri = Some r /\
    (l < length (ec_heap (pk_ecs root)))%nat /\ (r < length (ec_heap (pk_ecs root)))%nat.

(** Both links of the clause are canonical. *)
Definition ri_canon root ri : Prop :=
  exists l r, left_ec ri = Some l /\ right_ec ri = Some r /\
    l ∈ eq_classes (pk_ecs root) /\ r ∈ eq_classes (pk_ecs root).

Lemma update_ok root ri : pk_inv root -> ri_ok root ri ->
  exists ri', update_mergeclause_eclasses root ri = Ok ri' /\ ri_canon root ri' /\
    ri_id ri' = ri_id ri /\ outer_is_left ri' = outer_is_left ri.
Proof.
  intros Hi (l & r & El & Er & Hl & Hr). unfold update_mergeclause_eclasses. rewrite El, Er. simpl.
  destruct (canonical_ec_total _ _ (pki_ecs _ Hi) Hl) as (cl & -> & _ & Vl).
  destruct (canonical_ec_total _ _ (pki_ecs _ Hi) Hr) as (cr & -> & _ & Vr). simpl.
  eexists. split; [done|]. split; [by exists cl, cr|done].
Qed.

Lemma update_canon root ri : pk_inv root -> ri_canon root ri -> update_mergeclause_eclasses root ri = Ok ri.
Proof.
  intros Hi (l & r & El & Er & Hl & Hr). unfold update_mergeclause_eclasses. rewrite El, Er. simpl.
  rewrite !canonical_ec_self by (done || apply Hi). simpl. destruct ri. simpl in *. by subst.
Qed.

Lemma update_all_ok root ris : pk_inv root -> Forall (ri_ok root) ris ->
  exists ris', update_all root ris = Ok ris' /\ Forall (ri_canon root) ris' /\ ri_id <$> ris' = ri_id <$> ris.
Proof.
  intros Hi. induction 1 as [|ri ris Hri _ IH]; [by exists []|]. simpl.
  destruct (update_ok root ri Hi Hri) as (ri' & -> & Hc & Hid & _).
  destruct IH as (ris' & -> & Hcs & Hids). simpl. exists (ri' :: ris').
  split; [done|]. split; [by constructor|]. by rewrite !fmap_cons, Hid, Hids.
Qed.

Lemma update_all_canon root ris : pk_inv root -> Forall (ri_canon root) ris -> update_all root ris = Ok ris.
Proof.
  intros Hi. induction 1 as [|ri ris Hri _ IH]; [done|]. simpl. by rewrite (update_canon _ _ Hi Hri), IH.
Qed.

Lemma ri_canon_sides root ri : ri_canon root ri ->
  exists o i, outer_ec ri = Some o /\ inner_ec ri = Some i /\
    o ∈ eq_classes (pk_ecs root) /\ i ∈ eq_classes (pk_ecs root).
Proof.
  intros (l & r & El & Er & Hl & Hr). unfold outer_ec, inner_ec.
  destruct (outer_is_left ri); rewrite ?El, ?Er; eauto 10.
Qed.

Lemma ec_is_true o p : ec_is o p = true <-> o = Some p.
Proof.
  destruct o as [q|]; simpl; [|done]. rewrite Nat.eqb_eq. split; [by intros ->|by intros [= ->]].
Qed.

(** The clauses a pathkey contributes, and the leading pathkeys that contribute. *)
Definition group root (ris : list (RestrictInfo Expr)) (k : nat) : list (RestrictInfo Expr) :=
  List.filter (fun ri => ec_is (outer_ec ri) (pk_ec root k)) ris.

Fixpoint used_keys root (ris : list (RestrictInfo Expr)) (keys : list nat) : list nat :=
  match keys with
  | [] => []
  | k :: rest => match group root ris k with [] => [] | _ => k :: used_keys root ris rest end
  end.

Lemma match_pathkeys_groups root keys ris acc :
  match_pathkeys root keys ris acc = acc ++ concat (group root ris <$> used_keys root ris keys).
Proof.
  revert acc. induction keys as [|k keys IH]; intros acc; simpl; [by rewrite app_nil_r|].
  fold (group root ris k). destruct (group root ris k) as [|r0 rs] eqn:E; [by rewrite app_nil_r|].
  rewrite IH. simpl. rewrite E. by rewrite <- app_assoc.
Qed.

Lemma used_keys_prefix root ris keys : used_keys root ris keys `prefix_of` keys.
Proof.
  induction keys as [|k keys IH]; simpl; [done|].
  destruct (group root ris k); [apply prefix_nil|by apply prefix_cons].
Qed.

Lemma used_keys_nonempty root ris keys : Forall (fun k => group root ris k <> []) (used_keys root ris keys).
Proof.
  induction keys as [|k keys IH]; simpl; [constructor|].
  destruct (group root ris k) eqn:E; constructor; [by rewrite E|done].
Qed.

Lemma elem_of_group root ris k ri :
  ri ∈ group root ris k <-> ri ∈ ris /\ outer_ec ri = Some (pk_ec root k).
Proof.
  unfold group. rewrite list_elem_of_In, filter_In, <- list_elem_of_In, ec_is_true. done.
Qed.

(** ** The inner pathkeys *)
Definition key_ecs root (keys : list nat) : list nat := pk_ec root <$> keys.
Definition const_ec root (e : nat) : bool := ec_has_const (get_ec (pk_ecs root) e).

(** A canonical list: valid pointers, no class twice, no class with a constant. *)
Definition good_keys root (keys : list nat) : Prop :=
  Forall (pk_valid root) keys /\ NoDup (key_ecs root keys) /\
  Forall (fun e => const_ec root e = false) (key_ecs root keys).

Lemma extends_key_ecs root root' keys : extends root root' -> Forall (pk_valid root) keys ->
  key_ecs root' keys = key_ecs root keys.
Proof.
  intros Hx. induction 1 as [|k keys Hk _ IH]; [done|]. unfold key_ecs in *. simpl. f_equal; [|done].
  unfold pk_ec. by rewrite (extends_at root root').
Qed.

Lemma extends_good root root' keys : extends root root' -> good_keys root keys -> good_keys root' keys.
Proof.
  intros Hx (H1 & H2 & H3). unfold good_keys. rewrite (extends_key_ecs root root') by done.
  split; [|split; [done|]].
  - eapply Forall_impl; [exact H1|]. intros k. by apply extends_valid.
  - unfold const_ec in *. by rewrite (proj1 Hx).
Qed.

Lemma redundant_spec root k keys :
  pathkey_is_redundant root k keys = true <->
  const_ec root (pk_ec root k) = true \/ pk_ec root k ∈ key_ecs root keys.
Proof.
  unfold pathkey_is_redundant, const_ec. destruct (ec_has_const _); [by split; [left|]|].
  rewrite existsb_exists. unfold key_ecs. rewrite list_elem_of_fmap. split.
  - intros (x & Hx & E%Nat.eqb_eq). right. exists x. by rewrite list_elem_of_In.
  - intros [|(x & E & Hx)]; [done|]. exists x. by rewrite <- list_elem_of_In, Nat.eqb_eq.
Qed.

Definition add_key root (k : nat) (keys : list nat) : list nat :=
  if negb (pathkey_is_redundant root k keys) then keys ++ [k] else keys.

(** Class [i] is sorted by [keys], or needs no sorting. *)
Definition covered root (keys : list nat) (i : nat) : Prop :=
  const_ec root i = true \/ i ∈ key_ecs root keys.

Lemma add_key_spec root k keys : pk_valid root k -> good_keys root keys ->
  good_keys root (add_key root k keys) /\ covered root (add_key root k keys) (pk_ec root k) /\
  keys `prefix_of` add_key root k keys.
Proof.
  intros Hk (H1 & H2 & H3). unfold add_key. pose proof (redundant_spec root k keys) as Hr.
  destruct (pathkey_is_redundant root k keys); simpl.
  { split; [done|]. split; [by apply Hr|done]. }
  assert (const_ec root (pk_ec root k) = false /\ pk_ec root k ∉ key_ecs root keys) as [Hc Hn].
  { destruct Hr as [_ Hr]. split; [apply not_true_is_false; intros E|intros E]; discriminate Hr; auto. }
  split; [|split; [right|by exists [k]]].
  - split; [apply Forall_app; by split; [|constructor]|]. unfold key_ecs in *. rewrite fmap_app. simpl.
    split; [|apply Forall_app; by split; [|constructor]].
    apply NoDup_app. split_and!; [done| |apply NoDup_singleton]. by intros x Hx ->%list_elem_of_singleton.
  - unfold key_ecs. rewrite fmap_app, elem_of_app. right. by apply list_elem_of_singleton.
Qed.
End Props.
