(* ===== verification/PathKeysMerge.v ===== *)
(** * Pathkeys for merge joins: the theorems

    [joinpath.c] chooses outer pathkeys, asks which merge clauses they can use, and derives
    the inner pathkeys.  These proofs show that the pieces fit together. *)
From S2P Require Import Prelude Bitmapset BitmapsetSpec BitmapsetIter EquivClass EquivClassProps EquivClassThms PathKeys PathKeysProps.
#[local] Open Scope Z_scope.

Section Merge.
Context {Expr : Type} `{!ExprOps Expr}.
Implicit Types (root : PKRoot Expr) (ri : RestrictInfo Expr).

Lemma extends_canon root root' ri : extends root root' -> ri_canon root ri -> ri_canon root' ri.
Proof. intros (E & _) (l & r & H). exists l, r. by rewrite E. Qed.

Lemma extends_covered root root' keys keys' i : extends root root' -> Forall (pk_valid root) keys ->
  keys `prefix_of` keys' -> covered root keys i -> covered root' keys' i.
Proof.
  intros Hx Hv [l ->] [H|H]; [left; unfold const_ec in *; by rewrite (proj1 Hx)|right].
  rewrite <- (extends_key_ecs root root' keys Hx Hv) in H. unfold key_ecs in *.
  rewrite fmap_app, elem_of_app. by left.
Qed.

(** The key for the inner side of one clause. *)
Lemma inner_key root o oec iec : pk_inv root -> pk_valid root o -> pk_ec root o = oec ->
  iec ∈ eq_classes (pk_ecs root) ->
  exists k root',
    (if (iec =? oec)%nat then Ok (o, root)
     else make_canonical_pathkey root iec (pk_opfamily (pk_at root o))
            (pk_strategy (pk_at root o)) (pk_nulls_first (pk_at root o))) = Ok (k, root') /\
    pk_inv root' /\ extends root root' /\ pk_valid root' k /\ pk_ec root' k = iec.
Proof.
  intros Hi Ho Eo Hiec. destruct (Nat.eqb_spec iec oec) as [->|Hne].
  { exists o, root. split_and!; try done; reflexivity. }
  destruct (make_canonical_pathkey_spec root iec (pk_opfamily (pk_at root o))
      (pk_strategy (pk_at root o)) (pk_nulls_first (pk_at root o)) Hi)
    as (ec & k & root' & Ec & Em & I & X & V & A); [by apply (inv_bound _ (pki_ecs _ Hi))|].
  rewrite canonical_ec_self in Ec by (done || apply Hi). injection Ec as <-.
  exists k, root'. split_and!; try done. unfold pk_ec. by rewrite A.
Qed.

(** One step of the loop, for a clause whose outer class is that of pathkey [o]. *)
Lemma inner_step root ri rest last op lop lop' acc o e :
  pk_inv root -> ri_canon root ri -> outer_ec ri = Some e -> pk_valid root o -> pk_ec root o = e ->
  good_keys root acc ->
  (last = Some e /\ op = Some o /\ lop = lop') \/ (ec_is last e = false /\ lop = o :: lop') ->
  exists root' acc',
    inner_loop root (ri :: rest) last op lop acc = inner_loop root' rest (Some e) (Some o) lop' acc' /\
    pk_inv root' /\ extends root root' /\ good_keys root' acc' /\ acc `prefix_of` acc' /\
    (forall i, inner_ec ri = Some i -> covered root' acc' i).
Proof.
  intros Hi Hc He Ho Eo Hg Hlast. destruct (ri_canon_sides root ri Hc) as (e' & iec & Eo' & Ei & _ & Hiec).
  assert (e' = e) as -> by congruence.
  destruct (inner_key root o e iec Hi Ho Eo Hiec) as (k & root' & Ek & I & X & V & Ak).
  destruct (add_key_spec root' k acc V (extends_good _ _ _ X Hg)) as (G & C & P).
  exists root', (add_key root' k acc).
  assert (inner_loop root (ri :: rest) last op lop acc
          = inner_loop root' rest (Some e) (Some o) lop' (add_key root' k acc)) as ->.
  { cbn [inner_loop]. rewrite (update_canon _ _ Hi Hc). cbn [mbind result_bind]. rewrite Eo', Ei.
    destruct Hlast as [(-> & -> & ->)|(El & ->)].
    - rewrite (proj2 (ec_is_true (Some e) e) eq_refl). cbn [mbind result_bind]. rewrite Ek. done.
    - rewrite El, Eo, Nat.eqb_refl. cbn [negb mbind result_bind]. rewrite Ek. done. }
  split_and!; try done. intros i Ei'. rewrite Ei in Ei'. injection Ei' as <-. by rewrite <- Ak.
Qed.

Definition all_covered root (keys : list nat) (ris : list (RestrictInfo Expr)) : Prop :=
  forall ri i, ri ∈ ris -> inner_ec ri = Some i -> covered root keys i.

(** The remaining clauses of the group of pathkey [o]. *)
Lemma inner_group root g rest lop acc o e :
  pk_inv root -> Forall (ri_canon root) g -> Forall (fun ri => outer_ec ri = Some e) g ->
  pk_valid root o -> pk_ec root o = e -> good_keys root acc ->
  exists root' acc',
    inner_loop root (g ++ rest) (Some e) (Some o) lop acc = inner_loop root' rest (Some e) (Some o) lop acc' /\
    pk_inv root' /\ extends root root' /\ good_keys root' acc' /\ acc `prefix_of` acc' /\
    all_covered root' acc' g.
Proof.
  intros Hi Hc Hg. revert root acc Hi Hc. induction Hg as [|ri g He Hg IH]; intros root acc Hi Hc Ho Eo Ha.
  { exists root, acc. split_and!; try done. intros ri i Hin. by apply elem_of_nil in Hin. }
  apply Forall_cons in Hc as [Hri Hc].
  destruct (inner_step root ri (g ++ rest) (Some e) (Some o) lop lop acc o e) as
    (r1 & a1 & E1 & I1 & X1 & G1 & P1 & C1); auto.
  assert (pk_ec r1 o = e) as Eo1 by (unfold pk_ec; by rewrite (extends_at root r1)).
  destruct (IH r1 a1) as (r2 & a2 & E2 & I2 & X2 & G2 & P2 & C2); auto.
  { eapply Forall_impl; [exact Hc|]. intros x. by apply extends_canon. }
  { by apply (extends_valid root). }
  exists r2, a2. rewrite <- app_comm_cons, E1, E2. split_and!; try done; [by etransitivity..|].
  intros x i [->|Hx]%elem_of_cons Hxi; [|by eapply C2].
  eapply extends_covered; [exact X2|apply G1|exact P2|by apply C1].
Qed.

(** All groups, one after the other, against the pathkeys they come from. *)
Lemma inner_groups root (G : nat -> list (RestrictInfo Expr)) keys last op lop acc :
  pk_inv root -> Forall (pk_valid root) keys -> NoDup (key_ecs root keys) ->
  (forall k, k ∈ keys -> G k <> [] /\ Forall (ri_canon root) (G k) /\
             Forall (fun ri => outer_ec ri = Some (pk_ec root k)) (G k)) ->
  (forall k, k ∈ keys -> ec_is last (pk_ec root k) = false) -> good_keys root acc ->
  exists keys' root', inner_loop root (concat (G <$> keys)) last op (keys ++ lop) acc = Ok (keys', root') /\
    pk_inv root' /\ extends root root' /\ good_keys root' keys' /\ acc `prefix_of` keys' /\
    all_covered root' keys' (concat (G <$> keys)).
Proof.
  revert root last op acc. induction keys as [|k keys IH]; intros root last op acc Hi Hv Hnd HG Hlast Ha.
  { exists acc, root. split_and!; try done. intros ri i Hin. by apply elem_of_nil in Hin. }
  apply Forall_cons in Hv as [Hk Hv]. unfold key_ecs in Hnd. rewrite fmap_cons in Hnd.
  apply NoDup_cons in Hnd as [Hk' Hnd]. rewrite fmap_cons. cbn [concat].
  destruct (HG k) as (Hne & Hcg & Heg); [apply elem_of_cons; by left|].
  destruct (G k) as [|ri g]; [done|].
  apply Forall_cons in Hcg as [Hri Hcg]. apply Forall_cons in Heg as [He Heg].
  destruct (inner_step root ri (g ++ concat (G <$> keys)) last op ((k :: keys) ++ lop) (keys ++ lop) acc k
              (pk_ec root k)) as (r1 & a1 & E1 & I1 & X1 & G1 & P1 & C1); auto.
  { right. split; [|done]. apply Hlast, elem_of_cons. by left. }
  assert (pk_ec r1 k = pk_ec root k) as Ek1 by (unfold pk_ec; by rewrite (extends_at root r1)).
  destruct (inner_group r1 g (concat (G <$> keys)) (keys ++ lop) a1 k (pk_ec root k))
    as (r2 & a2 & E2 & I2 & X2 & G2 & P2 & C2); auto.
  { eapply Forall_impl; [exact Hcg|]. intros x. by apply extends_canon. }
  { by apply (extends_valid root). }
  assert (extends root r2) as X02 by (by etransitivity).
  assert (forall x, x ∈ keys -> pk_ec r2 x = pk_ec root x) as Ekx.
  { intros x Hx. unfold pk_ec. rewrite (extends_at root r2); [done..|].
    rewrite Forall_forall in Hv. by apply Hv. }
  destruct (IH r2 (Some (pk_ec root k)) (Some k) a2) as (ks & r3 & E3 & I3 & X3 & G3 & P3 & C3); auto.
  { eapply Forall_impl; [exact Hv|]. intros x. by apply extends_valid. }
  { by rewrite (extends_key_ecs root r2). }
  { intros x Hx. destruct (HG x) as (? & Hxc & ?); [apply elem_of_cons; by right|].
    rewrite Ekx by done. split_and!; try done.
    eapply Forall_impl; [exact Hxc|]. intros ?. by apply extends_canon. }
  { intros x Hx. rewrite Ekx by done. apply not_true_is_false. rewrite ec_is_true. intros [= E].
    apply Hk'. rewrite E. by apply list_elem_of_fmap_2. }
  exists ks, r3. rewrite <- app_comm_cons, E1, E2, E3.
  split_and!; try done; [by transitivity r2|transitivity a1; [done|by transitivity a2]|].
  intros x i Hx Hxi. rewrite app_comm_cons, elem_of_app, elem_of_cons in Hx.
  destruct Hx as [[->|Hx]|Hx]; [| |by eapply C3].
  - eapply extends_covered; [exact X3|apply G2|exact P3|].
    eapply extends_covered; [exact X2|apply G1|exact P2|by apply C1].
  - eapply extends_covered; [exact X3|apply G2|exact P3|by eapply C2].
Qed.

Lemma group_canon root ris k : Forall (ri_canon root) ris ->
  Forall (ri_canon root) (group root ris k) /\
  Forall (fun ri => outer_ec ri = Some (pk_ec root k)) (group root ris k).
Proof.
  rewrite !Forall_forall. intros H. split; intros ri [Hin He]%elem_of_group; [by apply H|done].
Qed.

(** Deriving the inner pathkeys from the clauses that a canonical outer list selects. *)
Lemma inner_of_outer root keys ris :
  pk_inv root -> Forall (pk_valid root) keys -> NoDup (key_ecs root keys) -> Forall (ri_canon root) ris ->
  let mcs := match_pathkeys root keys ris [] in
  exists ikeys root', make_inner_pathkeys_for_merge root mcs keys = Ok (ikeys, root') /\
    pk_inv root' /\ extends root root' /\ good_keys root' ikeys /\ all_covered root' ikeys mcs.
Proof.
  intros Hi Hv Hnd Hc mcs. unfold make_inner_pathkeys_for_merge, mcs. rewrite match_pathkeys_groups. simpl app.
  destruct (used_keys_prefix root ris keys) as [lop E].
  assert (Forall (pk_valid root) (used_keys root ris keys) /\ NoDup (key_ecs root (used_keys root ris keys)))
    as [Hv' Hnd'].
  { rewrite E in Hv, Hnd. apply Forall_app in Hv as [? _]. unfold key_ecs in *. rewrite fmap_app in Hnd.
    by apply NoDup_app in Hnd as (? & _). }
  pose proof (used_keys_nonempty root ris keys) as Hne. rewrite Forall_forall in Hne.
  destruct (inner_groups root (group root ris) (used_keys root ris keys) None None lop [])
    as (ks & r & E1 & H1 & H2 & H3 & _ & H4); auto.
  { intros k Hk. split; [by apply Hne|by apply group_canon]. }
  { split; [constructor|]. split; constructor. }
  exists ks, r. rewrite <- E in E1. done.
Qed.

(** ** Choosing the outer pathkeys *)
Definition pending (arr : list (nat * Z)) : list nat := fst <$> filter (fun e => 0 <= snd e) arr.

Lemma pending_subset arr e : e ∈ pending arr -> e ∈ fst <$> arr.
Proof.
  unfold pending. rewrite !list_elem_of_fmap. intros (x & -> & [_ Hx]%list_elem_of_filter). eauto.
Qed.

Lemma pending_all arr : Forall (fun e => 0 <= snd e) arr -> pending arr = fst <$> arr.
Proof.
  unfold pending. induction 1 as [|e arr He _ IH]; [done|]. rewrite filter_cons_True by done.
  by rewrite !fmap_cons, IH.
Qed.

Lemma mark_emitted_fst arr ec : fst <$> mark_emitted arr ec = fst <$> arr.
Proof.
  induction arr as [|[e sc] arr IH]; [done|]. simpl mark_emitted.
  destruct (Nat.eqb_spec e ec); [done|]. by rewrite !fmap_cons, IH.
Qed.

Lemma mark_emitted_pending arr ec : NoDup (fst <$> arr) ->
  pending (mark_emitted arr ec) = filter (fun e => e <> ec) (pending arr).
Proof.
  induction arr as [|[e sc] arr IH]; intros Hnd; [done|].
  rewrite fmap_cons in Hnd. apply NoDup_cons in Hnd as [Hn Hnd]. simpl in Hn. simpl mark_emitted.
  destruct (Nat.eqb_spec e ec) as [->|Hne].
  - assert (pending ((ec, -1) :: arr) = pending arr) as -> by (unfold pending; by rewrite filter_cons_False by (simpl; lia)).
    assert (filter (fun e => e <> ec) (pending arr) = pending arr) as Hf.
    { apply filter_all. intros x Hx ->. by apply Hn, pending_subset. }
    unfold pending at 2. rewrite filter_cons. case_decide; [|done].
    rewrite fmap_cons, filter_cons_False by (simpl; tauto). done.
  - specialize (IH Hnd). unfold pending in *. rewrite !filter_cons. case_decide; [|done].
    rewrite !fmap_cons, filter_cons_True by done. by rewrite IH.
Qed.

Lemma best_score_spec arr e0 :
  best_score arr e0 ∈ e0 :: arr /\ forall e, e ∈ e0 :: arr -> snd e <= snd (best_score arr e0).
Proof.
  revert e0. induction arr as [|e arr IH]; intros e0; simpl.
  { split; [apply elem_of_cons; by left|]. intros e ->%list_elem_of_singleton. lia. }
  destruct (IH (if snd e >? snd e0 then e else e0)) as [Hin Hmax]. split.
  - rewrite !elem_of_cons in *. destruct (snd e >? snd e0); tauto.
  - intros x Hx. rewrite !elem_of_cons in Hx.
    assert (snd e <= snd (best_score arr (if snd e >? snd e0 then e else e0)) /\
            snd e0 <= snd (best_score arr (if snd e >? snd e0 then e else e0))) as [? ?].
    { pose proof (Hmax (if snd e >? snd e0 then e else e0) ltac:(apply elem_of_cons; by left)) as Hm.
      destruct (Z.gtb_spec (snd e) (snd e0)); lia. }
    destruct Hx as [->|[->|Hx]]; [done..|]. apply Hmax, elem_of_cons. by right.
Qed.

Definition opfamilies_ok root : Prop :=
  forall e, e ∈ eq_classes (pk_ecs root) -> ec_opfamilies (get_ec (pk_ecs root) e) <> [].

Lemma filter_ne_Permutation (l : list nat) x : NoDup l -> x ∈ l ->
  l ≡ₚ x :: filter (fun e => e <> x) l.
Proof.
  intros Hnd Hx. apply NoDup_Permutation; [done| |].
  - constructor; [|by apply NoDup_filter]. rewrite list_elem_of_filter. tauto.
  - intros y. rewrite elem_of_cons, list_elem_of_filter. destruct (decide (y = x)) as [->|]; tauto.
Qed.

Lemma emit_spec fuel root arr acc :
  pk_inv root -> opfamilies_ok root -> arr <> [] -> NoDup (fst <$> arr) ->
  (forall e, e ∈ fst <$> arr -> e ∈ eq_classes (pk_ecs root) /\ const_ec root e = false) ->
  Forall (pk_valid root) acc -> (forall e, e ∈ key_ecs root acc -> e ∉ pending arr) -> (length (pending arr) < fuel)%nat ->
  exists keys root', emit_by_popularity fuel root arr acc = Ok (keys, root') /\
    pk_inv root' /\ extends root root' /\ Forall (pk_valid root') keys /\
    key_ecs root' keys ≡ₚ key_ecs root acc ++ pending arr.
Proof.
  revert root arr acc. induction fuel as [|f IH]; intros root arr acc Hi Ho Hne Hnd Hlive Hv Hdisj Hf; [lia|].
  cbn [emit_by_popularity]. destruct arr as [|e0 rest] eqn:Earr; [done|]. rewrite <- Earr in *.
  destruct (best_score_spec rest e0) as [Hin Hmax]. rewrite <- Earr in Hin, Hmax.
  destruct (best_score rest e0) as [ec sc] eqn:Eb. simpl snd in Hmax.
  assert (ec ∈ fst <$> arr) as Hec by (apply list_elem_of_fmap; by exists (ec, sc)).
  destruct (Z.ltb_spec sc 0) as [Hs|Hs].
  { exists acc, root. split_and!; try done. assert (pending arr = []) as ->; [|by rewrite app_nil_r].
    unfold pending. rewrite filter_none; [done|]. intros x Hx ?. pose proof (Hmax x Hx). lia. }
  destruct (Hlive ec Hec) as [Hl Hnc]. destruct (ec_opfamilies (get_ec (pk_ecs root) ec)) as [|opf opfs] eqn:Eo.
  { by destruct (Ho ec Hl). }
  destruct (make_canonical_pathkey_spec root ec opf BTLessStrategyNumber false Hi)
    as (ec' & k & r1 & Ec & Em & I1 & X1 & V1 & A1); [by apply (inv_bound _ (pki_ecs _ Hi))|].
  rewrite canonical_ec_self in Ec by (done || apply Hi). injection Ec as <-.
  rewrite Em. cbn [mbind result_bind].
  assert (NoDup (pending arr)) as Hndp.
  { unfold pending. eapply sublist_NoDup; [exact Hnd|]. apply fmap_sublist, sublist_filter. }
  assert (ec ∈ pending arr) as Hpend by (unfold pending; apply list_elem_of_fmap; exists (ec, sc);
    split; [done|]; by apply list_elem_of_filter).
  pose proof (filter_ne_Permutation _ _ Hndp Hpend) as Hp.
  assert (key_ecs r1 acc = key_ecs root acc) as Eacc by (by apply extends_key_ecs).
  assert (pk_ec r1 k = ec) as Ek by (unfold pk_ec; by rewrite A1).
  assert (pathkey_is_redundant r1 k acc = false) as ->.
  { apply not_true_is_false. rewrite redundant_spec, Ek, Eacc. unfold const_ec. rewrite (proj1 X1). fold (const_ec root ec).
    rewrite Hnc. intros [|Hin']; [done|by apply (Hdisj ec)]. }
  destruct (IH r1 (mark_emitted arr ec) (acc ++ [k])) as (keys & r2 & E2 & I2 & X2 & V2 & P2); auto.
  { unfold opfamilies_ok. by rewrite (proj1 X1). }
  { intros E. apply (f_equal (fmap fst)) in E. rewrite mark_emitted_fst, Earr in E. done. }
  { by rewrite mark_emitted_fst. }
  { unfold const_ec. rewrite mark_emitted_fst, (proj1 X1). done. }
  { apply Forall_app. split; [|by constructor]. eapply Forall_impl; [exact Hv|]. intros x. by apply extends_valid. }
  { unfold key_ecs. rewrite fmap_app. intros e. rewrite elem_of_app, mark_emitted_pending, list_elem_of_filter by done.
    fold (key_ecs r1 acc). rewrite Eacc. simpl. rewrite list_elem_of_singleton, Ek. intros [H| ->] []; [by apply (Hdisj e)|done]. }
  { rewrite mark_emitted_pending by done. apply Permutation_length in Hp. simpl in Hp. lia. }
  exists keys, r2. split_and!; try done; [by etransitivity|]. rewrite P2, mark_emitted_pending by done.
  assert (key_ecs r1 (acc ++ [k]) = key_ecs root acc ++ [ec]) as ->.
  { unfold key_ecs at 1. rewrite fmap_app. f_equal; [done|]. simpl. by rewrite Ek. }
  rewrite <- app_assoc. simpl. by rewrite <- Hp.
Qed.

(** The outer classes of the (updated) clauses. *)
Definition outer_class (ris : list (RestrictInfo Expr)) (e : nat) : Prop :=
  exists ri, ri ∈ ris /\ outer_ec ri = Some e.

Lemma existsb_fst (arr : list (nat * Z)) e : existsb (fun x => (fst x =? e)%nat) arr = true <-> e ∈ (fst <$> arr : list nat).
Proof.
  rewrite existsb_exists, list_elem_of_fmap. split.
  - intros ([a b] & Hx & E%Nat.eqb_eq). exists (a, b). by rewrite list_elem_of_In.
  - intros (x & -> & Hx). exists x. by rewrite <- list_elem_of_In, Nat.eqb_eq.
Qed.

Lemma collect_ecs_spec root ris ris' joinrel (arr : list (nat * Z)) :
  update_all root ris = Ok ris' -> Forall (ri_canon root) ris' ->
  NoDup (fst <$> arr) -> Forall (fun e => 0 <= snd e) arr ->
  exists arr', collect_ecs root ris joinrel arr = Ok arr' /\ NoDup (fst <$> arr') /\
    Forall (fun e => 0 <= snd e) arr' /\ (length arr' <= length arr + length ris)%nat /\
    forall e, e ∈ fst <$> arr' <-> e ∈ fst <$> arr \/ outer_class ris' e.
Proof.
  revert ris' arr. induction ris as [|ri ris IH]; intros ris' arr Hu Hc Hnd Hpos.
  { injection Hu as <-. exists arr. split_and!; try done; [lia|]. intros e. split; [tauto|].
    intros [|(ri & Hin & _)]; [done|]. by apply elem_of_nil in Hin. }
  simpl in Hu. apply result_bind_Ok in Hu as (ri1 & E1 & Hu). apply result_bind_Ok in Hu as (rest1 & E2 & Hu).
  injection Hu as <-. apply Forall_cons in Hc as [Hri Hc]. cbn [collect_ecs]. rewrite E1. cbn [mbind result_bind].
  destruct (ri_canon_sides _ _ Hri) as (o & i & Eo & _ & _ & _). rewrite Eo.
  assert (forall e, outer_class (ri1 :: rest1) e <-> e = o \/ outer_class rest1 e) as Hoc.
  { intros e. unfold outer_class. setoid_rewrite elem_of_cons. split.
    - intros (x & [->|Hx] & Ex); [left; congruence|right; eauto].
    - intros [->|(x & Hx & Ex)]; eauto. }
  destruct (existsb (fun e => (fst e =? o)%nat) arr) eqn:Eb.
  - apply existsb_fst in Eb. destruct (IH rest1 arr E2 Hc Hnd Hpos) as (arr' & -> & H1 & H2 & H3 & H4).
    exists arr'. split_and!; try done; [simpl; lia|]. intros e. rewrite H4, Hoc. split; [tauto|].
    intros [|[->|]]; tauto.
  - assert (o ∉ fst <$> arr) as Hn by (intros Hin; apply existsb_fst in Hin; congruence).
    destruct (IH rest1 (arr ++ [(o, ec_score root o joinrel)]) E2 Hc) as (arr' & -> & H1 & H2 & H3 & H4).
    { rewrite fmap_app. apply NoDup_app. split_and!; [done| |apply NoDup_singleton].
      intros x Hx. simpl. rewrite list_elem_of_singleton. congruence. }
    { apply Forall_app. split; [done|]. constructor; [unfold ec_score; simpl; lia|constructor]. }
    exists arr'. split_and!; try done; [rewrite length_app in H3; simpl in *; lia|].
    intros e. rewrite H4, Hoc, fmap_app, elem_of_app. simpl. rewrite list_elem_of_singleton. tauto.
Qed.

Lemma count_matches_spec root (arr : list (nat * Z)) keys n :
  exists c, count_matches root arr keys n = (bool_decide (c = length keys), n + Z.of_nat c) /\
    (c <= length keys)%nat /\ Forall (fun k => pk_ec root k ∈ (fst <$> arr : list nat)) (take c keys).
Proof.
  revert n. induction keys as [|k keys IH]; intros n; simpl.
  { exists O. rewrite Z.add_0_r. split_and!; [done|lia|constructor]. }
  destruct (existsb (fun e => (fst e =? pk_ec root k)%nat) arr) eqn:Eb.
  - destruct (IH (n + 1)) as (c & -> & Hc & Hf). exists (S c). split; [|split; [lia|]].
    + f_equal; [|lia]. apply bool_decide_ext. lia.
    + constructor; [by apply existsb_fst|done].
  - exists O. rewrite Z.add_0_r. split_and!; [done|lia|constructor].
Qed.

Lemma fold_mark_fst root keys (arr : list (nat * Z)) :
  fst <$> fold_left (fun arr k => mark_emitted arr (pk_ec root k)) keys arr = fst <$> arr.
Proof. revert arr. induction keys as [|k keys IH]; intros arr; simpl; [done|]. by rewrite IH, mark_emitted_fst. Qed.

Lemma fold_mark_pending root keys arr e : NoDup (fst <$> arr) ->
  e ∈ pending (fold_left (fun arr k => mark_emitted arr (pk_ec root k)) keys arr) <->
  e ∈ pending arr /\ e ∉ key_ecs root keys.
Proof.
  unfold key_ecs. revert arr. induction keys as [|k keys IH]; intros arr Hnd; simpl fold_left.
  { split; [intros H; split; [done|apply not_elem_of_nil]|tauto]. }
  rewrite IH by (by rewrite mark_emitted_fst). rewrite mark_emitted_pending by done.
  rewrite list_elem_of_filter, fmap_cons, elem_of_cons. tauto.
Qed.

Lemma pending_NoDup arr : NoDup (fst <$> arr) -> NoDup (pending arr).
Proof. intros Hnd. eapply sublist_NoDup; [exact Hnd|]. apply fmap_sublist, sublist_filter. Qed.

Lemma pending_length arr : (length (pending arr) <= length arr)%nat.
Proof. unfold pending. rewrite length_fmap. apply sublist_length, sublist_filter. Qed.

Definition query_ok root : Prop :=
  Forall (pk_valid root) (query_pathkeys root) /\ NoDup (key_ecs root (query_pathkeys root)).

(** What the chosen keys promise: their classes are exactly the outer classes. *)
Record chosen root root' (keys : list nat) (ris : list (RestrictInfo Expr)) : Prop := {
  ch_inv : pk_inv root';
  ch_ext : extends root root';
  ch_valid : Forall (pk_valid root') keys;
  ch_nodup : NoDup (key_ecs root' keys);
  ch_ecs : forall e, e ∈ key_ecs root' keys <-> outer_class ris e
}.

(** No outer class is pinned to a constant. *)
Definition no_const_outer root (ris : list (RestrictInfo Expr)) : Prop := forall e, outer_class ris e -> const_ec root e = false.

Lemma emit_chosen root arr acc ris :
  pk_inv root -> opfamilies_ok root -> arr <> [] -> NoDup (fst <$> arr) ->
  (forall e, e ∈ fst <$> arr <-> outer_class ris e) -> Forall (ri_canon root) ris -> no_const_outer root ris ->
  Forall (pk_valid root) acc -> NoDup (key_ecs root acc) ->
  (forall e, e ∈ fst <$> arr <-> e ∈ key_ecs root acc \/ e ∈ pending arr) ->
  (forall e, e ∈ key_ecs root acc -> e ∉ pending arr) ->
  forall fuel, (length arr < fuel)%nat ->
  exists keys root', emit_by_popularity fuel root arr acc = Ok (keys, root') /\ chosen root root' keys ris.
Proof.
  intros Hi Ho Hne Hnd Hall Hc Hnc Hv Hnda Hsplit Hdisj fuel Hf.
  destruct (emit_spec fuel root arr acc) as (keys & r & E & I & X & V & P); auto.
  { intros e He. split; [|by apply Hnc, Hall]. apply Hall in He as (ri & Hri & Er). rewrite Forall_forall in Hc.
    destruct (ri_canon_sides _ _ (Hc _ Hri)) as (o & i & Eo & _ & Ho' & _). by simplify_eq. }
  { pose proof (pending_length arr). lia. }
  exists keys, r. split; [done|]. split; try done.
  - rewrite P. apply NoDup_app. split_and!; [done|done|by apply pending_NoDup].
  - intros e. rewrite P, elem_of_app, <- Hall, Hsplit. done.
Qed.

Lemma update_all_length root ris ris' : update_all root ris = Ok ris' -> length ris' = length ris.
Proof.
  revert ris'. induction ris as [|ri ris IH]; intros ris'; simpl; [by intros [= <-]|].
  intros (ri1 & _ & (rest & E & [= <-])%result_bind_Ok)%result_bind_Ok. simpl. f_equal. by apply IH.
Qed.

Lemma select_spec root ris ris' joinrel :
  pk_inv root -> opfamilies_ok root -> query_ok root -> ris <> [] ->
  update_all root ris = Ok ris' -> Forall (ri_canon root) ris' -> no_const_outer root ris' ->
  exists keys root', select_outer_pathkeys_for_merge root ris joinrel = Ok (keys, root') /\
    chosen root root' keys ris'.
Proof.
  intros Hi Ho [Hqv Hqn] Hne Hu Hc Hnc. unfold select_outer_pathkeys_for_merge.
  destruct (Z.eqb_spec (Z.of_nat (length ris)) 0) as [E|_]; [destruct ris; done|].
  destruct (collect_ecs_spec root ris ris' joinrel [] Hu Hc (NoDup_nil_2) (Forall_nil_2 _))
    as (arr & -> & Hnd & Hpos & Hlen & Hall).
  assert (forall e, e ∈ fst <$> arr <-> outer_class ris' e) as Hall'.
  { intros e. rewrite Hall. split; [intros [H|]; [by apply elem_of_nil in H|done]|by right]. }
  clear Hall. cbn [mbind result_bind]. pose proof (pending_all arr Hpos) as Hp.
  assert (arr <> []) as Hna.
  { intros ->. destruct ris' as [|ri ris'].
    - apply update_all_length in Hu. by destruct ris.
    - apply Forall_cons in Hc as [Hri _]. destruct (ri_canon_sides _ _ Hri) as (o & _ & Eo & _).
      apply (not_elem_of_nil o), Hall'. exists ri. split; [apply elem_of_cons; by left|done]. }
  assert (forall fuel, (length arr < fuel)%nat ->
    exists keys root', emit_by_popularity fuel root arr [] = Ok (keys, root') /\ chosen root root' keys ris') as Hemit.
  { apply emit_chosen; auto; [constructor| |intros e H; by apply elem_of_nil in H].
    intros e. rewrite Hp. split; [by right|]. intros [H|]; [by apply elem_of_nil in H|done]. }
  destruct (query_pathkeys root) as [|q0 qs] eqn:Eq; [apply Hemit; lia|]. rewrite <- Eq in *.
  destruct (count_matches_spec root arr (query_pathkeys root) 0) as (c & -> & Hcl & Hcf).
  case_bool_decide as Ec.
  - subst c. rewrite firstn_all, Forall_forall in Hcf.
    assert (forall e, e ∈ key_ecs root (query_pathkeys root) -> e ∈ fst <$> arr) as Hsub.
    { intros e. unfold key_ecs. rewrite list_elem_of_fmap. intros (k & -> & Hk). by apply Hcf. }
    set (arr' := fold_left _ _ _).
    assert (fst <$> arr' = fst <$> arr) as Ef by apply fold_mark_fst.
    assert (length arr' = length arr) as El by (apply (f_equal length) in Ef; by rewrite !length_fmap in Ef).
    apply emit_chosen; rewrite ?Ef; auto; [intros E; by rewrite E in El; destruct arr|..|lia];
      intros e; unfold arr'; rewrite fold_mark_pending, Hp by done.
    + destruct (decide (e ∈ key_ecs root (query_pathkeys root))); [|tauto]. split; [by left|]. auto.
    + tauto.
  - destruct (Z.eqb_spec (0 + Z.of_nat c) (Z.of_nat (length ris))) as [Em|Em]; [|apply Hemit; lia].
    rewrite Z.add_0_l, Nat2Z.id. exists (take c (query_pathkeys root)), root. split; [done|].
    assert (NoDup (key_ecs root (take c (query_pathkeys root)))) as Hndt.
    { unfold key_ecs in *. rewrite fmap_take. eapply sublist_NoDup; [exact Hqn|]. apply sublist_take. }
    split; try done; [by apply Forall_take|].
    assert (key_ecs root (take c (query_pathkeys root)) ⊆ fst <$> arr) as Hsub.
    { intros e. unfold key_ecs. rewrite list_elem_of_fmap. intros (k & -> & Hk).
      rewrite Forall_forall in Hcf. by apply Hcf. }
    intros e. rewrite <- Hall'. split; [apply Hsub|]. rewrite !list_elem_of_In.
    apply NoDup_length_incl; [by apply NoDup_ListNoDup| |].
    + unfold key_ecs. rewrite !length_fmap, length_take. simpl in Hlen. lia.
    + intros x. rewrite <- !list_elem_of_In. apply Hsub.
Qed.

(** The groups of all classes make up the whole clause list. *)
Lemma groups_Permutation (f : RestrictInfo Expr -> option nat) (es : list nat) (ris : list (RestrictInfo Expr)) :
  NoDup es -> (forall ri, ri ∈ ris -> exists e, f ri = Some e /\ e ∈ es) ->
  concat ((fun e => List.filter (fun ri => ec_is (f ri) e) ris) <$> es) ≡ₚ ris.
Proof.
  intros Hnd. revert ris. induction Hnd as [|e es He Hnd IH]; intros ris H.
  { destruct ris as [|ri ris]; [done|]. destruct (H ri) as (e & _ & []%elem_of_nil). apply elem_of_cons. by left. }
  rewrite fmap_cons. cbn [concat].
  set (rest := List.filter (fun ri => negb (ec_is (f ri) e)) ris).
  assert ((fun e' => List.filter (fun ri => ec_is (f ri) e') ris) <$> es
          = (fun e' => List.filter (fun ri => ec_is (f ri) e') rest) <$> es) as ->.
  { apply list_fmap_ext. intros i e' Hi. apply list_elem_of_lookup_2 in Hi. unfold rest. clear IH H rest.
    induction ris as [|ri ris IHr]; [done|]. simpl. destruct (ec_is (f ri) e) eqn:E; simpl.
    - apply ec_is_true in E. rewrite E. simpl. destruct (Nat.eqb_spec e e'); [by subst|done].
    - destruct (ec_is (f ri) e'); [f_equal|]; done. }
  rewrite IH.
  - unfold rest. clear. induction ris as [|ri ris IH]; [done|]. simpl.
    destruct (ec_is (f ri) e); simpl; [by rewrite IH|]. rewrite <- Permutation_middle. by rewrite IH.
  - intros ri. unfold rest. rewrite list_elem_of_In, filter_In, <- list_elem_of_In.
    intros [Hin Hb]. destruct (H ri Hin) as (e' & E' & [->|He']%elem_of_cons); [|by eauto].
    apply negb_true_iff in Hb. rewrite E' in Hb. simpl in Hb. by rewrite Nat.eqb_refl in Hb.
Qed.

Lemma update_all_extends root root' ris : extends root root' -> update_all root' ris = update_all root ris.
Proof.
  intros (E & _). induction ris as [|ri ris IH]; [done|]. simpl. rewrite IH.
  unfold update_mergeclause_eclasses, chase_link. by rewrite E.
Qed.

Lemma front_first_Permutation keys i : (i < length keys)%nat -> front_first keys i ≡ₚ keys.
Proof.
  intros Hi. destruct i as [|i]; [done|]. unfold front_first.
  destruct (lookup_lt_is_Some_2 keys (S i) Hi) as [k Hk]. rewrite Hk. unfold list_delete_nth.
  rewrite <- (take_drop_middle keys (S i) k Hk) at 3. by rewrite Permutation_middle.
Qed.

(** Any order of the chosen keys uses every clause. *)
Lemma find_all root outerkeys ris :
  NoDup (key_ecs root outerkeys) -> Forall (ri_canon root) ris ->
  (forall e, e ∈ key_ecs root outerkeys <-> outer_class ris e) ->
  match_pathkeys root outerkeys ris [] ≡ₚ ris.
Proof.
  intros Hnd Hc Hecs. rewrite match_pathkeys_groups. simpl.
  assert (used_keys root ris outerkeys = outerkeys) as ->.
  { assert (forall k, k ∈ outerkeys -> group root ris k <> []) as Hne.
    { intros k Hk E. assert (pk_ec root k ∈ key_ecs root outerkeys) as Hin by (by apply list_elem_of_fmap_2).
      apply Hecs in Hin as (ri & Hri & Er). apply (not_elem_of_nil ri). rewrite <- E.
      by apply elem_of_group. }
    clear -Hne. induction outerkeys as [|k keys IH]; [done|]. simpl.
    destruct (group root ris k) eqn:E; [by destruct (Hne k); [apply elem_of_cons; left|]|].
    f_equal. apply IH. intros x Hx. apply Hne, elem_of_cons. by right. }
  assert (group root ris <$> outerkeys
          = (fun e => List.filter (fun ri => ec_is (outer_ec ri) e) ris) <$> key_ecs root outerkeys) as ->.
  { unfold key_ecs. by rewrite <- list_fmap_compose. }
  apply groups_Permutation; [done|]. intros ri Hri. rewrite Forall_forall in Hc.
  destruct (ri_canon_sides _ _ (Hc _ Hri)) as (o & i & Eo & _). exists o. split; [done|].
  apply Hecs. by exists ri.
Qed.

(** A variant and what makes it usable for a merge join. *)
Definition variant_ok root (ris : list (RestrictInfo Expr))
    (v : list nat * list (RestrictInfo Expr) * list nat) : Prop :=
  let '(outerkeys, mcs, innerkeys) := v in
  mcs ≡ₚ ris /\ NoDup (key_ecs root outerkeys) /\ good_keys root innerkeys /\
  Forall (pk_valid root) outerkeys /\ all_covered root innerkeys mcs.

Lemma variant_extends root root' ris v : extends root root' -> variant_ok root ris v -> variant_ok root' ris v.
Proof.
  destruct v as [[ok mcs] ik]. intros X (H1 & H2 & H3 & H4 & H5).
  split; [done|]. rewrite (extends_key_ecs root root') by done. split; [done|].
  split; [by eapply extends_good|]. split.
  - eapply Forall_impl; [exact H4|]. intros x. by apply extends_valid.
  - intros ri i Hri Ei. eapply extends_covered; [exact X|apply H3|done|by eapply H5].
Qed.

Lemma merge_variant_spec root keys outerkeys ris ris' :
  pk_inv root -> update_all root ris = Ok ris' -> Forall (ri_canon root) ris' ->
  Forall (pk_valid root) keys -> NoDup (key_ecs root keys) ->
  (forall e, e ∈ key_ecs root keys <-> outer_class ris' e) -> outerkeys ≡ₚ keys ->
  exists mcs innerkeys root', merge_variant root outerkeys ris = Ok (mcs, innerkeys, root') /\
    pk_inv root' /\ extends root root' /\ variant_ok root' ris' (outerkeys, mcs, innerkeys).
Proof.
  intros Hi Hu Hc Hv Hnd Hecs Hp.
  assert (key_ecs root outerkeys ≡ₚ key_ecs root keys) as Hpe by (unfold key_ecs; by rewrite Hp).
  assert (NoDup (key_ecs root outerkeys)) as Hnd' by (by rewrite Hpe).
  assert (Forall (pk_valid root) outerkeys) as Hv' by (by rewrite Hp).
  unfold merge_variant, find_mergeclauses_for_outer_pathkeys. rewrite Hu. cbn [mbind result_bind].
  pose proof (find_all root outerkeys ris' Hnd' Hc ltac:(intros e; by rewrite Hpe)) as Hf.
  rewrite (Permutation_length Hf), (update_all_length _ _ _ Hu), Nat.eqb_refl. cbn [negb].
  destruct (inner_of_outer root outerkeys ris' Hi Hv' Hnd' Hc) as (ik & r & E & I & X & G & C).
  rewrite E. cbn [mbind result_bind]. eexists _, ik, r. split; [done|]. split; [done|]. split; [done|].
  split; [done|]. rewrite (extends_key_ecs root r) by done. split; [done|]. split; [done|]. split; [|done].
  eapply Forall_impl; [exact Hv'|]. intros x. by apply extends_valid.
Qed.

Lemma merge_variants_spec root keys idx ris ris' :
  pk_inv root -> update_all root ris = Ok ris' -> Forall (ri_canon root) ris' ->
  Forall (pk_valid root) keys -> NoDup (key_ecs root keys) ->
  (forall e, e ∈ key_ecs root keys <-> outer_class ris' e) ->
  Forall (fun i => i < length keys)%nat idx ->
  exists vs root', merge_variants root keys idx ris = Ok (vs, root') /\
    pk_inv root' /\ extends root root' /\ Forall (variant_ok root' ris') vs /\
    (fun v => v.1.1) <$> vs = front_first keys <$> idx.
Proof.
  intros Hi Hu Hc Hv Hnd Hecs Hidx. revert root Hi Hu Hc Hv Hnd Hecs.
  induction Hidx as [|i idx Hlt _ IH]; intros root Hi Hu Hc Hv Hnd Hecs.
  { exists [], root. split_and!; try done. }
  cbn [merge_variants].
  destruct (merge_variant_spec root keys (front_first keys i) ris ris')
    as (mcs & ik & r1 & E1 & I1 & X1 & V1); auto; [by apply front_first_Permutation|].
  rewrite E1. cbn [mbind result_bind].
  destruct (IH r1) as (vs & r2 & E2 & I2 & X2 & V2 & L2); auto.
  { by rewrite (update_all_extends root). }
  { eapply Forall_impl; [exact Hc|]. intros x. by apply extends_canon. }
  { eapply Forall_impl; [exact Hv|]. intros x. by apply extends_valid. }
  { by rewrite (extends_key_ecs root). }
  { by rewrite (extends_key_ecs root). }
  rewrite E2. cbn [mbind result_bind]. eexists _, r2. split; [done|]. split; [done|].
  split; [by etransitivity|]. split; [|by rewrite !fmap_cons, L2].
  constructor; [by eapply variant_extends|done].
Qed.

Lemma front_first_head keys i : (i < length keys)%nat -> head (front_first keys i) = keys !! i.
Proof.
  intros Hi. destruct i as [|i]; [by destruct keys|]. unfold front_first.
  destruct (lookup_lt_is_Some_2 keys (S i) Hi) as [k Hk]. by rewrite Hk.
Qed.
(** A clause as [select_mergejoin_clauses] selects it: its class links are set, and once they are brought up to date neither
    of its classes is pinned to a constant. *)
Definition merge_clause root ri : Prop :=
  ri_ok root ri /\ forall ri' e, update_mergeclause_eclasses root ri = Ok ri' ->
    left_ec ri' = Some e \/ right_ec ri' = Some e -> const_ec root e = false.
Lemma update_no_const root ris ris' : Forall (merge_clause root) ris -> update_all root ris = Ok ris' -> no_const_outer root ris'.
Proof.
  intros H. revert ris'. induction H as [|ri ris [_ Hri] _ IH]; intros ris'; cbn [update_all].
  { intros [= <-] e (x & []%elem_of_nil & _). }
  intros (ri1 & E1 & (rest & E2 & [= <-])%result_bind_Ok)%result_bind_Ok e (x & [->|Hx]%elem_of_cons & Ex); [|apply (IH rest E2); by exists x].
  apply (Hri ri1 e E1). unfold outer_ec in Ex. destruct (outer_is_left ri1); auto.
Qed.

(** C15: the explicit-sort merge join search never fails.  For every list of merge clauses as [select_mergejoin_clauses]
    selects them (class links set, no class pinned to a constant), choosing outer pathkeys, moving each of them to the front in
    turn, looking up the usable clauses and building the inner pathkeys all succeed: the
    loops terminate, neither pathkey mismatch error nor an assertion can fire.  The outer pathkeys are different, one for each
    outer class; there is one variant per pathkey, it starts with that pathkey and has the same ones, and the first variant has them
    in the order chosen.  Every variant uses all the clauses, its outer and inner key
    lists are canonical (no class twice), and the inner keys sort every inner class that
    is not pinned to a constant. *)
Theorem merge_variants_complete root ris joinrel :
  pk_inv root -> opfamilies_ok root -> query_ok root -> Forall (merge_clause root) ris ->
  exists ris' keys root1 vs root',
    update_all root ris = Ok ris' /\
    select_outer_pathkeys_for_merge root ris joinrel = Ok (keys, root1) /\
    sort_merge_variants root ris joinrel = Ok (vs, root') /\
    pk_inv root' /\ extends root root' /\
    NoDup (key_ecs root1 keys) /\ (forall e, e ∈ key_ecs root1 keys <-> outer_class ris' e) /\
    Forall2 (fun k v => head v.1.1 = Some k /\ v.1.1 ≡ₚ keys) keys vs /\
    (forall v, head vs = Some v -> v.1.1 = keys) /\
    Forall (variant_ok root' ris') vs.
Proof.
  intros Hi Ho Hq Hm. assert (Forall (ri_ok root) ris) as Hok by (eapply Forall_impl; [exact Hm|]; by intros ri []).
  destruct (update_all_ok root ris Hi Hok) as (ris' & Hu & Hc & _).
  exists ris'. unfold sort_merge_variants. destruct (decide (ris = [])) as [->|Hne].
  { exists [], root, [], root. injection Hu as <-. split_and!; try done; [constructor|]. intros e. split; [by intros []%elem_of_nil|].
    by intros (ri & []%elem_of_nil & _). }
  destruct (select_spec root ris ris' joinrel Hi Ho Hq Hne Hu Hc (update_no_const _ _ _ Hm Hu)) as (keys & r1 & -> & [I X V N E]).
  cbn [mbind result_bind].
  destruct (merge_variants_spec r1 keys (seq 0 (length keys)) ris ris')
    as (vs & r2 & E2 & I2 & X2 & V2 & L2); auto.
  { by rewrite (update_all_extends root). }
  { eapply Forall_impl; [exact Hc|]. intros x. by apply extends_canon. }
  { apply Forall_forall. intros i Hin%elem_of_seq. lia. }
  exists keys, r1, vs, r2. split_and!; try done; [by etransitivity| |].
  - apply Forall2_same_length_lookup_2.
    { apply (f_equal length) in L2. rewrite !length_fmap, length_seq in L2. done. }
    intros i k v Hk Hv. pose proof (lookup_lt_Some _ _ _ Hk) as Hlt.
    assert (v.1.1 = front_first keys i) as ->.
    { apply (f_equal (fun l => l !! i)) in L2. rewrite !list_lookup_fmap, Hv, lookup_seq_lt in L2 by done. by injection L2. }
    split; [by rewrite front_first_head|by apply front_first_Permutation].
  - intros v Hv. destruct vs as [|v' vs]; [done|]. injection Hv as ->. destruct keys; [done|].
    by injection L2.
Qed.

(** ** Truncation to the useful pathkeys *)
Definition joininfo_ok root (rel : RelInfo Expr) : Prop :=
  forall ri, ri ∈ joininfo rel -> mergeopfamilies ri <> [] -> ri_ok root ri.

(** A child relation knows its topmost parent. *)
Definition rel_sane (rel : RelInfo Expr) : Prop := is_other_rel rel = true -> top_parent_relids rel <> None.

(** A key of this class and family is asked for in the same direction by the query, or not at all and ascending. *)
Definition asks root (k q : nat) : Prop :=
  pk_ec root q = pk_ec root k /\ pk_opfamily (pk_at root q) = pk_opfamily (pk_at root k).
Definition merge_direction root (k : nat) : Prop :=
  (exists l1 q l2, query_pathkeys root = l1 ++ q :: l2 /\ Forall (fun q => ~ asks root k q) l1 /\ asks root k q /\
     pk_strategy (pk_at root k) = pk_strategy (pk_at root q)) \/
  (Forall (fun q => ~ asks root k q) (query_pathkeys root) /\ pk_strategy (pk_at root k) = BTLessStrategyNumber).
(** The class can give join clauses with relations outside [rel]. *)
Definition class_joins root (rel : RelInfo Expr) (e : nat) : Prop :=
  let ec := get_ec (pk_ecs root) e in
  let relids := if is_other_rel rel then top_parent_relids rel else rel_relids rel in
  has_eclass_joins rel = true /\ ec_has_const ec = false /\ (1 < length (ec_members ec))%nat /\
  bms_is_subset (ec_relids ec) relids = false /\
  exists em, em ∈ ec_members ec /\ em_is_child em = false /\ bms_overlap (em_relids em) relids = false.
(** A mergejoinable join clause of [rel] has the class on one side. *)
Definition clause_joins root (ris : list (RestrictInfo Expr)) (e : nat) : Prop :=
  exists ri ri', ri ∈ ris /\ mergeopfamilies ri <> [] /\ update_mergeclause_eclasses root ri = Ok ri' /\
    (left_ec ri' = Some e \/ right_ec ri' = Some e).
(** The key may help a merge join above [rel]. *)
Definition merge_useful root (rel : RelInfo Expr) (k : nat) : Prop :=
  merge_direction root k /\ (class_joins root rel (pk_ec root k) \/ clause_joins root (joininfo rel) (pk_ec root k)).
(** [m] is the length of the longest prefix of [l] all of whose elements satisfy [P]. *)
Definition longest {A} (P : A -> Prop) (l : list A) (m : nat) : Prop :=
  (m <= length l)%nat /\ Forall P (take m l) /\ forall x, l !! m = Some x -> ~ P x.
(** [c] is the length of the longest common prefix. *)
Definition common_prefix (l1 l2 : list nat) (c : nat) : Prop :=
  (c <= length l1)%nat /\ (c <= length l2)%nat /\ take c l1 = take c l2 /\
  forall d, (d <= length l1)%nat -> (d <= length l2)%nat -> take d l1 = take d l2 -> (d <= c)%nat.

Lemma right_merge_direction_spec root k : right_merge_direction root k = true <-> merge_direction root k.
Proof.
  unfold right_merge_direction, merge_direction. cbv zeta. set (f := fun q => _ && _).
  assert (forall q, f q = true <-> asks root k q) as Hf.
  { intros q. unfold f, asks, pk_ec. rewrite andb_true_iff, Nat.eqb_eq, Z.eqb_eq. intuition congruence. }
  clearbody f. induction (query_pathkeys root) as [|q qs IH]; cbn [find].
  { rewrite Z.eqb_eq. split; [by right|]. intros [([|] & ? & ? & ? & _)|[_ ?]]; done. }
  destruct (f q) eqn:E.
  - apply Hf in E. rewrite Z.eqb_eq. split; [intros H; left; by exists [], q, qs|].
    intros [(l1 & q' & l2 & Eq & Hn & Ha & Hs)|[Hn _]]; [|by apply Forall_cons in Hn as [? _]].
    destruct l1 as [|x l1]; [by injection Eq as -> _|]. injection Eq as -> _. by apply Forall_cons in Hn as [? _].
  - assert (~ asks root k q) as Hq by (rewrite <- Hf; congruence). rewrite IH. split.
    + intros [(l1 & q' & l2 & -> & Hn & H)|[Hn H]]; [left; exists (q :: l1), q', l2; split; [done|]; split; [by constructor|done]|].
      right. split; [by constructor|done].
    + intros [(l1 & q' & l2 & Eq & Hn & Ha & Hs)|[Hn H]]; [|right; apply Forall_cons in Hn as [_ ?]; done].
      destruct l1 as [|x l1]; [by injection Eq as -> _|]. injection Eq as -> ->. apply Forall_cons in Hn as [_ Hn].
      left. by exists l1, q', l2.
Qed.

Lemma class_joins_spec root rel e : pk_inv root -> rel_sane rel -> e ∈ eq_classes (pk_ecs root) ->
  exists b, (if has_eclass_joins rel then eclass_useful_for_merging (get_ec (pk_ecs root) e) rel else Ok false) = Ok b /\
    (b = true <-> class_joins root rel e).
Proof.
  intros Hi Hr He. unfold class_joins. cbv zeta. destruct (has_eclass_joins rel); [|exists false; split; [done|]; by split; [|intros []]].
  assert (ec_merged (get_ec (pk_ecs root) e) = None) as Hm by (apply (inv_live _ (pki_ecs _ Hi)); [by apply (inv_bound _ (pki_ecs _ Hi))|done]).
  unfold eclass_useful_for_merging. rewrite Hm. cbn [is_set].
  destruct (ec_has_const (get_ec (pk_ecs root) e)); cbn [orb]; [exists false; split; [done|]; by split; [|intros (_ & ? & _)]|].
  destruct (Nat.leb_spec (length (ec_members (get_ec (pk_ecs root) e))) 1).
  { exists false. split; [done|]. split; [done|]. intros (_ & _ & ? & _). lia. }
  assert ((if is_other_rel rel then if bms_is_empty (top_parent_relids rel) then Error assert_msg else Ok (top_parent_relids rel)
           else Ok (rel_relids rel)) = Ok (if is_other_rel rel then top_parent_relids rel else rel_relids rel)) as ->.
  { destruct (is_other_rel rel) eqn:Eo; [|done]. specialize (Hr Eo). by destruct (top_parent_relids rel). }
  cbn [mbind result_bind]. set (relids := if is_other_rel rel then _ else _).
  destruct (bms_is_subset (ec_relids (get_ec (pk_ecs root) e)) relids); [exists false; split; [done|]; by split; [|intros (_ & _ & _ & ? & _)]|].
  eexists. split; [done|]. rewrite existsb_exists. split.
  - intros (em & Hin & [H1%negb_true_iff H2%negb_true_iff]%andb_prop). split_and!; try done. exists em. by rewrite list_elem_of_In.
  - intros (_ & _ & _ & _ & em & Hin & H1 & H2). exists em. rewrite <- list_elem_of_In, H1, H2. done.
Qed.
Lemma clause_joins_spec root e ris : pk_inv root ->
  (forall ri, ri ∈ ris -> mergeopfamilies ri <> [] -> ri_ok root ri) ->
  exists b, joininfo_matches root e ris = Ok b /\ (b = true <-> clause_joins root ris e).
Proof.
  intros Hi. induction ris as [|ri ris IH]; intros H.
  { exists false. split; [done|]. split; [done|]. by intros (ri & _ & []%elem_of_nil & _). }
  cbn [joininfo_matches]. destruct IH as (b & Hb & Hiff); [intros x Hx; apply H; by right|].
  assert (clause_joins root ris e -> clause_joins root (ri :: ris) e) as Hmore.
  { intros (x & x' & Hx & ?). exists x, x'. split; [by right|done]. }
  destruct (mergeopfamilies ri) as [|o l] eqn:Em.
  { exists b. split; [done|]. rewrite Hiff. split; [done|]. intros (x & x' & [->|Hx]%elem_of_cons & Hne & ?); [by rewrite Em in Hne|].
    by exists x, x'. }
  destruct (update_ok root ri Hi) as (ri' & E & _); [apply H; [by left|by rewrite Em]|].
  rewrite E. cbn [mbind result_bind].
  assert (ec_is (left_ec ri') e || ec_is (right_ec ri') e = true <-> left_ec ri' = Some e \/ right_ec ri' = Some e) as Hor
    by (by rewrite orb_true_iff, !ec_is_true).
  destruct (_ || _).
  - exists true. split; [done|]. split; [|done]. intros _. exists ri, ri'. split_and!; [by left|by rewrite Em|done|by apply Hor].
  - exists b. split; [done|]. rewrite Hiff. split; [done|]. intros (x & x' & [->|Hx]%elem_of_cons & Hne & Ex & Hs); [|by exists x, x'].
    rewrite E in Ex. injection Ex as ->. by apply Hor in Hs.
Qed.

Lemma useful_for_merging_spec root rel keys : pk_inv root -> joininfo_ok root rel -> rel_sane rel -> Forall (pk_valid root) keys ->
  exists m, pathkeys_useful_for_merging root rel keys = Ok (Z.of_nat m) /\ longest (merge_useful root rel) keys m.
Proof.
  intros Hi Hj Hr. induction 1 as [|k keys Hk _ IH]; [exists O; split; [done|]; split; [done|]; split; [constructor|done]|].
  cbn [pathkeys_useful_for_merging]. pose proof (right_merge_direction_spec root k) as Hd.
  destruct (class_joins_spec root rel (pk_ec root k) Hi Hr) as (b1 & -> & H1).
  { destruct (lookup_lt_is_Some_2 (canon_pathkeys root) k Hk) as [pk E]. unfold pk_ec, pk_at.
    rewrite (nth_lookup_Some _ _ null_pathkey _ E). by apply (pki_live _ Hi), list_elem_of_lookup_2 with k. }
  destruct (clause_joins_spec root (pk_ec root k) (joininfo rel) Hi Hj) as (b2 & -> & H2).
  assert (~ merge_useful root rel k -> longest (merge_useful root rel) (k :: keys) 0) as Hstop.
  { intros Hn. split; [cbn; lia|]. split; [constructor|]. by intros x [= <-]. }
  unfold merge_useful in Hstop. rewrite <- Hd, <- H1, <- H2 in Hstop.
  destruct (right_merge_direction root k); cbn [negb]; [|exists O; split; [done|]; apply Hstop; by intros []].
  cbn [mbind result_bind]. destruct IH as (m & Em & Hm).
  assert (longest (merge_useful root rel) (k :: keys) (S m) \/ (b1 = false /\ b2 = false)) as Hgo.
  { destruct b1, b2; [left..|by right]. all: destruct Hm as (L & F & N); split; [cbn; lia|]; split; [|done].
    all: cbn [take]; constructor; [|done]. all: unfold merge_useful; tauto. }
  destruct b1, b2; cbn [mbind result_bind]; try (rewrite Em; cbn [mbind result_bind]; exists (S m); split; [f_equal; lia|]; by destruct Hgo as [?|[]]).
  exists O. split; [done|]. apply Hstop. by intros [_ []].
Qed.
Lemma longest_take {A} (P : A -> Prop) l m n : longest P l m -> (m <= n)%nat -> longest P (take n l) m.
Proof.
  intros (L & F & N) Hn. split; [rewrite length_take; lia|]. rewrite take_take, Nat.min_l by done. split; [done|].
  intros x. rewrite lookup_take_Some. intros [Hx _]. by apply N.
Qed.
Lemma longest_unique {A} (P : A -> Prop) l m n : longest P l m -> longest P l n -> m = n.
Proof.
  assert (forall a b, longest P l a -> longest P l b -> ~ (a < b)%nat) as H.
  { intros a b (La & Fa & Na) (Lb & Fb & Nb) Hlt. destruct (lookup_lt_is_Some_2 l a) as [x Hx]; [lia|].
    apply (Na x Hx). rewrite Forall_forall in Fb. apply Fb. apply list_elem_of_lookup_2 with a. by apply lookup_take_Some. }
  intros H1 H2. pose proof (H m n H1 H2). pose proof (H n m H2 H1). lia.
Qed.

Lemma useful_for_ordering_spec root keys :
  exists c, pathkeys_useful_for_ordering root keys = Z.of_nat c /\ common_prefix (query_pathkeys root) keys c.
Proof.
  unfold pathkeys_useful_for_ordering, common_prefix.
  destruct (pathkeys_count_contained_in_spec (query_pathkeys root) keys) as (c & E & Et & H1 & H2 & H3).
  destruct (query_pathkeys root) as [|q qs]; [exists O; split_and!; simpl in *; auto; lia|].
  destruct keys as [|x l]; [exists O; split_and!; simpl in *; auto; lia|]. rewrite E. by exists c.
Qed.
Lemma common_prefix_take l1 l2 c n : common_prefix l1 l2 c -> (c <= n)%nat -> common_prefix l1 (take n l2) c.
Proof.
  intros (H1 & H2 & H3 & H4) Hn. split; [done|]. split; [rewrite length_take; lia|]. rewrite take_take, Nat.min_l by done.
  split; [done|]. intros d Hd1. rewrite length_take, take_take. intros Hd2 E. apply H4; [done|lia|].
  by rewrite Nat.min_l in E by lia.
Qed.
Lemma common_prefix_unique l1 l2 c d : common_prefix l1 l2 c -> common_prefix l1 l2 d -> c = d.
Proof. intros (H1 & H2 & H3 & H4) (G1 & G2 & G3 & G4). pose proof (H4 d G1 G2 G3). pose proof (G4 c H1 H2 H3). lia. Qed.

(** ** Trimming the clauses to a shorter inner ordering *)

(** A list with adjacent repetitions collapsed. *)
Fixpoint runs (l : list nat) : list nat :=
  match l with
  | [] => []
  | x :: rest => match rest with
                 | y :: _ => if (x =? y)%nat then runs rest else x :: runs rest
                 | [] => [x]
                 end
  end.

Lemma runs_cons x y l : runs (x :: y :: l) = if (x =? y)%nat then runs (y :: l) else x :: runs (y :: l).
Proof. done. Qed.

(** [taken] is what the loop adds to its accumulator from the state [pe], [lip], [matched]. *)
Definition trim_result root (mcs : list (RestrictInfo Expr)) (pe : nat) (lip : list nat) (matched : bool)
    (taken : list (RestrictInfo Expr)) : Prop :=
  taken `prefix_of` mcs /\
  exists es, inner_ec <$> taken = Some <$> es /\
    runs (if matched then pe :: es else es) `prefix_of` pe :: key_ecs root lip.

Lemma trim_result_stop root mcs pe lip matched : trim_result root mcs pe lip matched [].
Proof.
  split; [apply prefix_nil|]. exists []. split; [done|].
  destruct matched; [apply prefix_cons, prefix_nil|apply prefix_nil].
Qed.

Lemma trim_loop_spec root mcs pe lip matched acc :
  exists taken, trim_loop root mcs pe lip matched acc = acc ++ taken /\
    trim_result root mcs pe lip matched taken.
Proof.
  revert pe lip matched acc. induction mcs as [|ri mcs IH]; intros pe lip matched acc.
  { exists []. split; [by rewrite app_nil_r|apply trim_result_stop]. }
  cbn [trim_loop].
  assert (exists taken, acc = acc ++ taken /\ trim_result root (ri :: mcs) pe lip matched taken) as Hstop.
  { exists []. split; [by rewrite app_nil_r|apply trim_result_stop]. }
  destruct (ec_is (inner_ec ri) pe) eqn:Ep.
  - apply ec_is_true in Ep. destruct (IH pe lip true (acc ++ [ri])) as (taken & Et & Hres).
    rewrite Et. destruct Hres as (Hp & es & Ei & Hr).
    exists (ri :: taken). rewrite <- app_assoc. split; [done|]. split; [by apply prefix_cons|].
    exists (pe :: es). split; [by rewrite !fmap_cons, Ei, Ep|].
    destruct matched; [|done]. by rewrite runs_cons, Nat.eqb_refl.
  - destruct matched; cbn [negb]; [|apply Hstop].
    destruct lip as [|p lip]; [apply Hstop|].
    destruct (ec_is (inner_ec ri) (pk_ec root p)) eqn:Eq; [|apply Hstop]. apply ec_is_true in Eq.
    destruct (IH (pk_ec root p) lip true (acc ++ [ri])) as (taken & Et & Hres).
    rewrite Et. destruct Hres as (Hp & es & Ei & Hr).
    exists (ri :: taken). rewrite <- app_assoc. split; [done|]. split; [by apply prefix_cons|].
    exists (pk_ec root p :: es). split; [by rewrite !fmap_cons, Ei, Eq|]. rewrite runs_cons.
    destruct (Nat.eqb_spec pe (pk_ec root p)) as [E|_]; [|by apply prefix_cons].
    rewrite Eq, E in Ep. simpl in Ep. by rewrite Nat.eqb_refl in Ep.
Qed.

(** Clauses that can be executed in order of the sort keys are not trimmed. *)
Lemma trim_loop_all root (l : list (RestrictInfo Expr)) (es : list nat) rest pe lip (matched : bool) acc : inner_ec <$> l = Some <$> es ->
  runs (if matched then pe :: es else es) `prefix_of` pe :: key_ecs root lip ->
  exists more, trim_loop root (l ++ rest) pe lip matched acc = acc ++ l ++ more.
Proof.
  revert es pe lip matched acc. induction l as [|ri l IH]; intros es pe lip matched acc He Hr.
  { destruct (trim_loop_spec root rest pe lip matched acc) as (taken & E & _). by exists taken. }
  destruct es as [|e es]; [done|]. rewrite !fmap_cons in He. injection He as Ei He. cbn [app trim_loop].
  assert (runs (e :: es) = e :: tail (runs (e :: es))) as Ehd.
  { clear. revert e. induction es as [|x es IHe]; intros e; [done|]. rewrite runs_cons. destruct (Nat.eqb_spec e x) as [->|]; [apply IHe|done]. }
  destruct (ec_is (inner_ec ri) pe) eqn:Ep.
  - apply ec_is_true in Ep. assert (e = pe) as -> by congruence.
    destruct (IH es pe lip true (acc ++ [ri])) as [more E]; [done|destruct matched; [|done]; by rewrite runs_cons, Nat.eqb_refl in Hr|].
    exists more. by rewrite E, <- app_assoc.
  - assert (e <> pe) as Hne by (intros ->; rewrite Ei in Ep; cbn in Ep; by rewrite Nat.eqb_refl in Ep).
    destruct matched; cbv iota in Hr; [|rewrite Ehd in Hr; by apply prefix_cons_inv_1 in Hr]. cbn [negb].
    rewrite runs_cons in Hr. destruct (Nat.eqb_spec pe e); [congruence|]. apply prefix_cons_inv_2 in Hr.
    destruct lip as [|p lip]; [rewrite Ehd in Hr; by apply prefix_nil_inv in Hr|].
    change (key_ecs root (p :: lip)) with (pk_ec root p :: key_ecs root lip) in Hr.
    assert (e = pk_ec root p) as -> by (rewrite Ehd in Hr; by apply prefix_cons_inv_1 in Hr).
    rewrite (proj2 (ec_is_true (inner_ec ri) (pk_ec root p)) Ei).
    destruct (IH es (pk_ec root p) lip true (acc ++ [ri])) as [more E]; [done|done|]. exists more. by rewrite E, <- app_assoc.
Qed.

(** The clauses [l] can be executed with an inner input sorted by [keys]: the classes they need, in clause order and without
    repetitions, are a prefix of those of the keys. *)
Definition executable root (keys : list nat) (l : list (RestrictInfo Expr)) : Prop :=
  exists es, inner_ec <$> l = Some <$> es /\ runs es `prefix_of` key_ecs root keys.
Lemma trim_longest root mcs keys :
  let kept := trim_mergeclauses_for_inner_pathkeys root mcs keys in
  kept `prefix_of` mcs /\ executable root keys kept /\
  forall l, l `prefix_of` mcs -> executable root keys l -> l `prefix_of` kept.
Proof.
  destruct keys as [|k keys]; cbn [trim_mergeclauses_for_inner_pathkeys].
  { split; [apply prefix_nil|]. split; [by exists []|]. intros l _ (es & E & Hr%prefix_nil_inv).
    destruct es as [|e es]; [destruct l; [done|done]|]. exfalso. clear E. revert e Hr. induction es as [|x es IH]; intros e; [done|].
    rewrite runs_cons. destruct (_ =? _)%nat; [apply IH|done]. }
  destruct (trim_loop_spec root mcs (pk_ec root k) keys false []) as (taken & E & Hp & es & Ei & Hr). rewrite E.
  split; [done|]. split; [by exists es|]. intros l [rest ->] (es' & Ei' & Hr').
  destruct (trim_loop_all root l es' rest (pk_ec root k) keys false [] Ei' Hr') as [more E']. rewrite <- E, E'. by exists more.
Qed.

Lemma truncate_take root rel keys m c : pathkeys_useful_for_merging root rel keys = Ok (Z.of_nat m) ->
  pathkeys_useful_for_ordering root keys = Z.of_nat c ->
  truncate_useless_pathkeys root rel keys = Ok (take (Nat.max m c) keys).
Proof.
  intros E1 E2. unfold truncate_useless_pathkeys. rewrite E1, E2. cbn [mbind result_bind]. f_equal. set (n := Nat.max m c).
  replace (if Z.of_nat c >? Z.of_nat m then Z.of_nat c else Z.of_nat m) with (Z.of_nat n)
    by (unfold n; destruct (Z.gtb_spec (Z.of_nat c) (Z.of_nat m)); lia).
  destruct (Z.eqb_spec (Z.of_nat n) 0) as [E|_]; [by replace n with O by lia|].
  destruct (Z.eqb_spec (Z.of_nat n) (Z.of_nat (length keys))) as [E|_]; [rewrite take_ge; [done|lia]|].
  by rewrite Nat2Z.id.
Qed.
Lemma nothing_useful root rel k : has_useful_pathkeys root rel = false -> ~ merge_useful root rel k /\ query_pathkeys root = [].
Proof.
  unfold has_useful_pathkeys. destruct (_ || _) eqn:Eb; [done|]. apply orb_false_iff in Eb as [Ej%negb_false_iff Ee].
  intros Hu%negb_false_iff. apply bool_decide_eq_true in Ej, Hu. split; [|done].
  intros [_ [(H & _)|(ri & _ & Hin & _)]]; [congruence|]. destruct (joininfo rel); [by apply elem_of_nil in Hin|done].
Qed.

(** C28: truncation of a path's sort keys.  For valid keys and a relation whose mergejoinable clauses have
    their class links set it always succeeds, and keeps exactly the first max(m, c) keys: m is the length of the longest prefix whose
    keys all may help a merge join above the relation (the query does not ask for the opposite direction, and a class with members outside the
    relation or a mergejoinable clause of the relation has the key's class), and c that of the longest common prefix with the order the query asks
    for.  Truncating again
    changes nothing; and when [has_useful_pathkeys] says no key can be useful, the result
    is indeed empty.  Trimming merge clauses to an inner path's order keeps exactly the longest prefix of the clauses that can be executed with
    that order: the classes they need sorted on the inner side, without repetitions, are a prefix of the
    inner path's sort keys. *)
Theorem truncation_sound root rel keys :
  pk_inv root -> joininfo_ok root rel -> rel_sane rel -> Forall (pk_valid root) keys ->
  (exists m c, longest (merge_useful root rel) keys m /\ common_prefix (query_pathkeys root) keys c /\
    let keys' := take (Nat.max m c) keys in
    truncate_useless_pathkeys root rel keys = Ok keys' /\ truncate_useless_pathkeys root rel keys' = Ok keys' /\
    (has_useful_pathkeys root rel = false -> keys' = [])) /\
  (forall mcs, let kept := trim_mergeclauses_for_inner_pathkeys root mcs keys in
     kept `prefix_of` mcs /\ executable root keys kept /\
     forall l, l `prefix_of` mcs -> executable root keys l -> l `prefix_of` kept).
Proof.
  intros Hi Hj Hr Hv. split; [|intros mcs; apply trim_longest].
  destruct (useful_for_merging_spec root rel keys Hi Hj Hr Hv) as (m & Em & Hm).
  destruct (useful_for_ordering_spec root keys) as (c & Ec & Hc). exists m, c. split; [done|]. split; [done|]. cbv zeta.
  split; [by apply truncate_take|]. split.
  - destruct (useful_for_merging_spec root rel (take (Nat.max m c) keys) Hi Hj Hr (Forall_take _ _ _ Hv)) as (m' & Em' & Hm').
    destruct (useful_for_ordering_spec root (take (Nat.max m c) keys)) as (c' & Ec' & Hc').
    assert (m' = m) as -> by (eapply longest_unique; [exact Hm'|apply longest_take; [done|lia]]).
    assert (c' = c) as -> by (eapply common_prefix_unique; [exact Hc'|apply common_prefix_take; [done|lia]]).
    rewrite (truncate_take _ _ _ m c) by done. by rewrite take_take, Nat.min_id.
  - intros Hu. assert (m = O) as ->.
    { destruct Hm as (L & F & _). destruct keys as [|k keys], m as [|m]; cbn in L; try lia.
      apply Forall_cons in F as [F _]. by destruct (nothing_useful root rel k Hu). }
    destruct Hc as (L & _). destruct (nothing_useful root rel O Hu) as [_ E]. rewrite E in L. cbn in L. by replace c with O by lia.
Qed.
End Merge.

(** ** Witnesses, on the equivalence classes of the demonstration state *)
Module MergeDemo.
Import Demo.
#[local] Existing Instance column_ops.

(** Classes {1,2,3,4} (pointer 0; pointer 1 is merged into it) and {5,6} (pointer 2). *)
Definition demo4 := after demo3 (equality 4 5 6).
Definition pairs4 := (sig0, col 5, col 6) :: pairs3.
Definition handles4 := (2%nat, sig0, col 5) :: (2%nat, sig0, col 6) :: handles3.
Lemma demo_reach4 : ec_reach demo4 pairs4 handles4.
Proof.
  exact (reach_absorb demo3 pairs3 handles3 (equality 4 5 6) 0 (outcome_ri demo3 (equality 4 5 6)) demo4 2
           demo_reach3 (conj eq_refl eq_refl) eq_refl eq_refl).
Qed.

Definition pk0 : PKRoot nat :=
  {| pk_ecs := ec_finish demo4; canon_pathkeys := []; query_pathkeys := [] |}.
Definition linked (ri : RestrictInfo nat) (l r : nat) : RestrictInfo nat :=
  {| ri_id := ri_id ri; clause := clause ri; left_relids := left_relids ri;
     right_relids := right_relids ri; mergeopfamilies := mergeopfamilies ri;
     security_level := 0; leakproof := true; left_ec := Some l; right_ec := Some r;
     left_em := None; right_em := None; outer_is_left := true |}.
Definition clauses : list (RestrictInfo nat) :=
  [linked (equality 2 3 4) 1 0; linked (equality 7 5 3) 2 1; linked (equality 4 5 6) 2 2].
Definition rel0 : RelInfo nat :=
  {| rel_relids := Some [62]; is_other_rel := false; top_parent_relids := None;
     has_eclass_joins := true; joininfo := clauses |}.

Lemma pk0_inv : pk_inv pk0.
Proof.
  split; [|done|constructor|intros pk H; by apply elem_of_nil in H].
  eapply reach_inv, reach_finish, demo_reach4.
Qed.

Lemma clauses_ok : Forall (merge_clause pk0) clauses.
Proof.
  repeat constructor; try (eexists _, _; split_and!; [done..|vm_compute; lia|vm_compute; lia]);
    intros ri' e E; vm_compute in E; injection E as <-; intros [H|H]; injection H as <-; vm_compute; reflexivity.
Qed.

Lemma canonical_pathkeys_witness :
  exists p1 root1 p2 root2,
    make_canonical_pathkey pk0 0 1976 1 false = Ok (p1, root1) /\
    make_canonical_pathkey root1 1 1976 1 false = Ok (p2, root2) /\ p1 = p2.
Proof.
  destruct (canonical_pathkeys pk0 0 1976 1 false 1 1976 1 false (pki_ecs _ pk0_inv)) as (_ & H & _);
    [vm_compute; lia..|].
  destruct (H pk0_inv) as (p1 & r1 & p2 & r2 & E1 & E2 & _ & _ & Hiff).
  exists p1, r1, p2, r2. split; [exact E1|]. split; [exact E2|]. apply Hiff.
  split; [vm_compute; reflexivity|]. auto.
Defined.

Lemma merge_variants_complete_witness :
  exists vs root', sort_merge_variants pk0 clauses rel0 = Ok (vs, root') /\ length vs = 2%nat /\ pk_inv root'.
Proof.
  destruct (merge_variants_complete pk0 clauses rel0 pk0_inv) as
    (ris' & keys & r1 & vs & r2 & _ & Es & Ev & Hi & _ & _ & _ & Hl%Forall2_length & _).
  - intros e He%list_elem_of_In. vm_compute in He. destruct He as [<-|[<-|[]]]; vm_compute; discriminate.
  - split; constructor.
  - apply clauses_ok.
  - exists vs, r2. split; [exact Ev|]. split; [|exact Hi]. rewrite <- Hl. vm_compute in Es.
    by injection Es as <- _.
Defined.

(** Both classes have a pathkey; the query wants the second one; the first has no partner
    outside the relation. *)
Definition pk1 : PKRoot nat :=
  {| pk_ecs := ec_finish demo4;
     canon_pathkeys := [{| pk_eclass := 0; pk_opfamily := 1976; pk_strategy := 1; pk_nulls_first := false |};
                        {| pk_eclass := 2; pk_opfamily := 1976; pk_strategy := 1; pk_nulls_first := false |}];
     query_pathkeys := [1%nat] |}.
Definition rel1 : RelInfo nat :=
  {| rel_relids := Some [62]; is_other_rel := false; top_parent_relids := None;
     has_eclass_joins := true; joininfo := [] |}.

Lemma pk1_inv : pk_inv pk1.
Proof.
  split; [eapply reach_inv, reach_finish, demo_reach4|done| |].
  - simpl. apply NoDup_cons. split; [by intros ?%list_elem_of_singleton|apply NoDup_singleton].
  - intros pk Hpk%list_elem_of_In. apply list_elem_of_In. destruct Hpk as [<-|[<-|[]]]; vm_compute; auto.
Qed.

Lemma truncation_sound_witness :
  truncate_useless_pathkeys pk1 rel1 [1%nat; 0%nat] = Ok [1%nat] /\
  truncate_useless_pathkeys pk1 rel1 [1%nat] = Ok [1%nat].
Proof.
  destruct (truncation_sound pk1 rel1 [1%nat; 0%nat] pk1_inv) as [(m & c & _ & _ & E & Hid & _) _].
  - intros ri Hin _. by apply elem_of_nil in Hin.
  - done.
  - repeat constructor.
  - assert (take (Nat.max m c) [1; 0]%nat = [1%nat]) as Et by (assert (truncate_useless_pathkeys pk1 rel1 [1; 0]%nat = Ok [1%nat]) as E' by (vm_compute; reflexivity); congruence).
    rewrite Et in E, Hid. split; [exact E|exact Hid].
Defined.
End MergeDemo.
