(* ===== verification/PathNode.v ===== *)
(** * Path comparison and path lists ([src/backend/optimizer/util/pathnode.c])

    [set_cheapest], [add_path], [add_path_precheck], [add_partial_path] and
    [add_partial_path_precheck], with the cost comparisons they use, and the path
    selection routines of [pathkeys.c].  Costs and row counts are binary64 numbers.

    A [Path] carries its address ([path_ptr]); [pfree] of a path is recorded in the [freed]
    log of the relation.  [athena] is the condition [enable_join_order_plans &&
    save_join_order_plan_finished] under which [add_path] does not compare costs. *)
From S2P Require Import Prelude Bitmapset BitmapsetSpec Float64 PathKeys.
#[local] Open Scope Z_scope.

Inductive PathCostComparison := COSTS_EQUAL | COSTS_BETTER1 | COSTS_BETTER2 | COSTS_DIFFERENT.
Inductive CostSelector := STARTUP_COST | TOTAL_COST.

Definition STD_FUZZ_FACTOR : double := Eval vm_compute in dlit 101 100.
Definition SMALL_FUZZ_FACTOR : double := Eval vm_compute in dlit 10000000001 10000000000.

(** The fields of the parent [RelOptInfo] that are read through a path. *)
Record ParentRel := { consider_startup : bool; consider_param_startup : bool }.

Record Path := {
  path_ptr : nat;
  is_IndexPath : bool;
  parent : ParentRel;
  param_info : option bitmapset;
  parallel_safe : bool;
  rows : double;
  startup_cost : double;
  total_cost : double;
  pathkeys : list nat
}.

Definition PATH_REQ_OUTER (path : Path) : bitmapset :=
  match param_info path with Some ppi_req_outer => ppi_req_outer | None => None end.

(** ** Cost comparisons *)
Definition compare_path_costs (path1 path2 : Path) (criterion : CostSelector) : Z :=
  match criterion with
  | STARTUP_COST =>
      if dlt (startup_cost path1) (startup_cost path2) then -1
      else if dgt (startup_cost path1) (startup_cost path2) then 1
      else if dlt (total_cost path1) (total_cost path2) then -1
      else if dgt (total_cost path1) (total_cost path2) then 1
      else 0
  | TOTAL_COST =>
      if dlt (total_cost path1) (total_cost path2) then -1
      else if dgt (total_cost path1) (total_cost path2) then 1
      else if dlt (startup_cost path1) (startup_cost path2) then -1
      else if dgt (startup_cost path1) (startup_cost path2) then 1
      else 0
  end.

Definition compare_fractional_path_costs (path1 path2 : Path) (fraction : double) : Z :=
  if dle fraction dzero || dge fraction (dofZ 1) then compare_path_costs path1 path2 TOTAL_COST
  else
    let cost1 := dadd (startup_cost path1) (dmul fraction (dsub (total_cost path1) (startup_cost path1))) in
    let cost2 := dadd (startup_cost path2) (dmul fraction (dsub (total_cost path2) (startup_cost path2))) in
    if dlt cost1 cost2 then -1 else if dgt cost1 cost2 then 1 else 0.

Definition CONSIDER_PATH_STARTUP_COST (p : Path) : bool :=
  match param_info p with
  | None => consider_startup (parent p)
  | Some _ => consider_param_startup (parent p)
  end.

Definition compare_path_costs_fuzzily (path1 path2 : Path) (fuzz_factor : double) : PathCostComparison :=
  if dgt (total_cost path1) (dmul (total_cost path2) fuzz_factor) then
    if CONSIDER_PATH_STARTUP_COST path1
       && dgt (startup_cost path2) (dmul (startup_cost path1) fuzz_factor)
    then COSTS_DIFFERENT else COSTS_BETTER2
  else if dgt (total_cost path2) (dmul (total_cost path1) fuzz_factor) then
    if CONSIDER_PATH_STARTUP_COST path2
       && dgt (startup_cost path1) (dmul (startup_cost path2) fuzz_factor)
    then COSTS_DIFFERENT else COSTS_BETTER1
  else if dgt (startup_cost path1) (dmul (startup_cost path2) fuzz_factor) then COSTS_BETTER2
  else if dgt (startup_cost path2) (dmul (startup_cost path1) fuzz_factor) then COSTS_BETTER1
  else COSTS_EQUAL.

(** ** The relation *)
Record RelOptInfo := {
  rel_parent : ParentRel;
  pathlist : list Path;
  partial_pathlist : list Path;
  cheapest_startup_path : option Path;
  cheapest_total_path : option Path;
  cheapest_unique_path : option Path;
  cheapest_parameterized_paths : list Path;
  freed : list nat
}.

Definition set_pathlist (rel : RelOptInfo) (l : list Path) (fr : list nat) : RelOptInfo :=
  {| rel_parent := rel_parent rel; pathlist := l; partial_pathlist := partial_pathlist rel;
     cheapest_startup_path := cheapest_startup_path rel;
     cheapest_total_path := cheapest_total_path rel;
     cheapest_unique_path := cheapest_unique_path rel;
     cheapest_parameterized_paths := cheapest_parameterized_paths rel; freed := fr |}.
Definition set_partial_pathlist (rel : RelOptInfo) (l : list Path) (fr : list nat) : RelOptInfo :=
  {| rel_parent := rel_parent rel; pathlist := pathlist rel; partial_pathlist := l;
     cheapest_startup_path := cheapest_startup_path rel;
     cheapest_total_path := cheapest_total_path rel;
     cheapest_unique_path := cheapest_unique_path rel;
     cheapest_parameterized_paths := cheapest_parameterized_paths rel; freed := fr |}.

(** ** [set_cheapest] *)
Record Cheapest := {
  c_startup : option Path; c_total : option Path; c_best_param : option Path; c_params : list Path
}.

Definition better_param (path best : Path) : Path :=
  match bms_subset_compare (PATH_REQ_OUTER path) (PATH_REQ_OUTER best) with
  | BMS_EQUAL => if compare_path_costs path best TOTAL_COST <? 0 then path else best
  | BMS_SUBSET1 => path
  | BMS_SUBSET2 => best
  | BMS_DIFFERENT => best
  end.

(** Keep [cur] unless [path] is cheaper, or costs the same and is better sorted. *)
Definition better_unparam (cur path : Path) (criterion : CostSelector) : Path :=
  let cmp := compare_path_costs cur path criterion in
  if (cmp >? 0) || ((cmp =? 0) &&
       match compare_pathkeys (pathkeys cur) (pathkeys path) with PATHKEYS_BETTER2 => true | _ => false end)
  then path else cur.

Definition cheapest_step (st : Cheapest) (path : Path) : Cheapest :=
  match param_info path with
  | Some _ =>
      let params := c_params st ++ [path] in
      match c_total st with
      | Some _ => {| c_startup := c_startup st; c_total := c_total st;
                     c_best_param := c_best_param st; c_params := params |}
      | None =>
          {| c_startup := c_startup st; c_total := c_total st;
             c_best_param := Some (match c_best_param st with
                                   | None => path
                                   | Some best => better_param path best
                                   end);
             c_params := params |}
      end
  | None =>
      match c_startup st, c_total st with
      | Some cs, Some ct =>
          {| c_startup := Some (better_unparam cs path STARTUP_COST);
             c_total := Some (better_unparam ct path TOTAL_COST);
             c_best_param := c_best_param st; c_params := c_params st |}
      | _, _ => {| c_startup := Some path; c_total := Some path;
                   c_best_param := c_best_param st; c_params := c_params st |}
      end
  end.

Definition no_plan_msg : string := "could not devise a query plan for the given query".

Definition set_cheapest (parent_rel : RelOptInfo) : result RelOptInfo :=
  match pathlist parent_rel with
  | [] => Error no_plan_msg
  | paths =>
      let st := fold_left cheapest_step paths
                  {| c_startup := None; c_total := None; c_best_param := None; c_params := [] |} in
      Ok {| rel_parent := rel_parent parent_rel; pathlist := paths;
            partial_pathlist := partial_pathlist parent_rel;
            cheapest_startup_path := c_startup st;
            cheapest_total_path := match c_total st with Some p => Some p | None => c_best_param st end;
            cheapest_unique_path := None;
            cheapest_parameterized_paths :=
              match c_total st with Some p => p :: c_params st | None => c_params st end;
            freed := freed parent_rel |}
  end.

(** ** [add_path] *)
Definition effective_pathkeys (p : Path) : list nat :=
  match param_info p with Some _ => [] | None => pathkeys p end.

(** C comparison of two [bool]s. *)
Definition bge (a b : bool) : bool := a || negb b.
Definition bgt (a b : bool) : bool := a && negb b.

(** The verdict of comparing [new_path] with one old path. *)
Inductive Verdict := KeepBoth | RemoveOld | RejectNew.

(** [new] has no more rows and is no less parallel-safe, given its parameterization. *)
Definition new_dominates (outer_ok : bool) (new_path old_path : Path) : bool :=
  outer_ok && dle (rows new_path) (rows old_path) && bge (parallel_safe new_path) (parallel_safe old_path).
Definition old_dominates (outer_ok : bool) (new_path old_path : Path) : bool :=
  outer_ok && dge (rows new_path) (rows old_path) && bge (parallel_safe old_path) (parallel_safe new_path).

(** [case COSTS_EQUAL] with equal pathkeys and equal outer rels: keep just one. *)
Definition tie_break (new_path old_path : Path) : Verdict :=
  if bgt (parallel_safe new_path) (parallel_safe old_path) then RemoveOld
  else if bgt (parallel_safe old_path) (parallel_safe new_path) then RejectNew
  else if dlt (rows new_path) (rows old_path) then RemoveOld
  else if dgt (rows new_path) (rows old_path) then RejectNew
  else match compare_path_costs_fuzzily new_path old_path SMALL_FUZZ_FACTOR with
       | COSTS_BETTER1 => RemoveOld
       | _ => RejectNew
       end.

Definition path_verdict (athena : bool) (new_path old_path : Path) : Verdict :=
  let costcmp := if athena then COSTS_DIFFERENT
                 else compare_path_costs_fuzzily new_path old_path STD_FUZZ_FACTOR in
  match costcmp with
  | COSTS_DIFFERENT => KeepBoth
  | _ =>
      let keyscmp := compare_pathkeys (effective_pathkeys new_path) (effective_pathkeys old_path) in
      let outercmp := bms_subset_compare (PATH_REQ_OUTER new_path) (PATH_REQ_OUTER old_path) in
      let sub1 := match outercmp with BMS_EQUAL | BMS_SUBSET1 => true | _ => false end in
      let sub2 := match outercmp with BMS_EQUAL | BMS_SUBSET2 => true | _ => false end in
      match keyscmp with
      | PATHKEYS_DIFFERENT => KeepBoth
      | _ =>
          match costcmp with
          | COSTS_EQUAL =>
              match keyscmp with
              | PATHKEYS_BETTER1 => if new_dominates sub1 new_path old_path then RemoveOld else KeepBoth
              | PATHKEYS_BETTER2 => if old_dominates sub2 new_path old_path then RejectNew else KeepBoth
              | _ =>
                  match outercmp with
                  | BMS_EQUAL => tie_break new_path old_path
                  | BMS_SUBSET1 => if new_dominates true new_path old_path then RemoveOld else KeepBoth
                  | BMS_SUBSET2 => if old_dominates true new_path old_path then RejectNew else KeepBoth
                  | BMS_DIFFERENT => KeepBoth
                  end
              end
          | COSTS_BETTER1 =>
              match keyscmp with
              | PATHKEYS_BETTER2 => KeepBoth
              | _ => if new_dominates sub1 new_path old_path then RemoveOld else KeepBoth
              end
          | COSTS_BETTER2 =>
              match keyscmp with
              | PATHKEYS_BETTER1 => KeepBoth
              | _ => if old_dominates sub2 new_path old_path then RejectNew else KeepBoth
              end
          | COSTS_DIFFERENT => KeepBoth
          end
      end
  end.

Definition list_insert_nth {A} (l : list A) (pos : nat) (x : A) : list A := take pos l ++ x :: drop pos l.

(** The loop over the path list.  [kept] are the elements already passed that stay, so the
    current index is its length; the result is the list, the insert position, whether the
    new path is accepted, and the freed addresses. *)
Fixpoint path_loop (verdict : Path -> Path -> Verdict) (free : Path -> list nat) (new_path : Path)
    (kept olds : list Path) (insert_at : nat) (fr : list nat) : list Path * nat * bool * list nat :=
  match olds with
  | [] => (kept, insert_at, true, fr)
  | old_path :: rest =>
      match verdict new_path old_path with
      | RemoveOld => path_loop verdict free new_path kept rest insert_at (free old_path ++ fr)
      | KeepBoth =>
          path_loop verdict free new_path (kept ++ [old_path]) rest
            (if dge (total_cost new_path) (total_cost old_path) then S (length kept) else insert_at) fr
      | RejectNew => (kept ++ old_path :: rest, insert_at, false, fr)
      end
  end.

(** [if (!IsA(path, IndexPath)) pfree(path)] *)
Definition free_unless_index (p : Path) : list nat := if is_IndexPath p then [] else [path_ptr p].

Definition add_path (athena : bool) (parent_rel : RelOptInfo) (new_path : Path) : RelOptInfo :=
  let '(l, insert_at, accept_new, fr) :=
    path_loop (path_verdict athena) free_unless_index new_path [] (pathlist parent_rel) 0 (freed parent_rel) in
  if accept_new then set_pathlist parent_rel (list_insert_nth l insert_at new_path) fr
  else set_pathlist parent_rel l (free_unless_index new_path ++ fr).

(** ** Prechecks *)
Definition req_outer_set (required_outer : bitmapset) : bool :=
  match required_outer with Some _ => true | None => false end.

Fixpoint precheck_loop (consider_start : bool) (scost tcost : double) (new_pathkeys : list nat)
    (required_outer : bitmapset) (paths : list Path) : bool :=
  match paths with
  | [] => true
  | old_path :: rest =>
      if dgt tcost (dmul (total_cost old_path) STD_FUZZ_FACTOR) then
        if (dgt scost (dmul (startup_cost old_path) STD_FUZZ_FACTOR) || negb consider_start)
           && match compare_pathkeys new_pathkeys (effective_pathkeys old_path) with
              | PATHKEYS_EQUAL | PATHKEYS_BETTER2 => bms_equal required_outer (PATH_REQ_OUTER old_path)
              | _ => false
              end
        then false
        else precheck_loop consider_start scost tcost new_pathkeys required_outer rest
      else true
  end.

Definition add_path_precheck (parent_rel : RelOptInfo) (scost tcost : double) (keys : list nat)
    (required_outer : bitmapset) : bool :=
  let new_pathkeys := if req_outer_set required_outer then [] else keys in
  let consider := if req_outer_set required_outer then consider_param_startup (rel_parent parent_rel)
                  else consider_startup (rel_parent parent_rel) in
  precheck_loop consider scost tcost new_pathkeys required_outer (pathlist parent_rel).

(** ** Partial paths *)
Definition partial_verdict (new_path old_path : Path) : Verdict :=
  let keyscmp := compare_pathkeys (pathkeys new_path) (pathkeys old_path) in
  match keyscmp with
  | PATHKEYS_DIFFERENT => KeepBoth
  | _ =>
      if dgt (total_cost new_path) (dmul (total_cost old_path) STD_FUZZ_FACTOR) then
        match keyscmp with PATHKEYS_BETTER1 => KeepBoth | _ => RejectNew end
      else if dgt (total_cost old_path) (dmul (total_cost new_path) STD_FUZZ_FACTOR) then
        match keyscmp with PATHKEYS_BETTER2 => KeepBoth | _ => RemoveOld end
      else match keyscmp with
           | PATHKEYS_BETTER1 => RemoveOld
           | PATHKEYS_BETTER2 => RejectNew
           | _ => if dgt (total_cost old_path) (dmul (total_cost new_path) SMALL_FUZZ_FACTOR)
                  then RemoveOld else RejectNew
           end
  end.

Definition add_partial_path (parent_rel : RelOptInfo) (new_path : Path) : RelOptInfo :=
  let '(l, insert_at, accept_new, fr) :=
    path_loop partial_verdict (fun p => [path_ptr p]) new_path [] (partial_pathlist parent_rel) 0
      (freed parent_rel) in
  if accept_new then set_partial_pathlist parent_rel (list_insert_nth l insert_at new_path) fr
  else set_partial_pathlist parent_rel l (path_ptr new_path :: fr).

(** The scan of the partial paths: an answer, or "undecided". *)
Fixpoint partial_precheck_loop (tcost : double) (keys : list nat) (paths : list Path) : option bool :=
  match paths with
  | [] => None
  | old_path :: rest =>
      match compare_pathkeys keys (pathkeys old_path) with
      | PATHKEYS_DIFFERENT => partial_precheck_loop tcost keys rest
      | keyscmp =>
          if dgt tcost (dmul (total_cost old_path) STD_FUZZ_FACTOR)
             && match keyscmp with PATHKEYS_BETTER1 => false | _ => true end then Some false
          else if dgt (total_cost old_path) (dmul tcost STD_FUZZ_FACTOR)
             && match keyscmp with PATHKEYS_BETTER2 => false | _ => true end then Some true
          else partial_precheck_loop tcost keys rest
      end
  end.

Definition add_partial_path_precheck (parent_rel : RelOptInfo) (tcost : double) (keys : list nat) : bool :=
  match partial_precheck_loop tcost keys (partial_pathlist parent_rel) with
  | Some b => b
  | None => if negb (add_path_precheck parent_rel tcost tcost keys None) then false else true
  end.

(** ** Selecting a path ([pathkeys.c]) *)
Definition path_satisfies (keys : list nat) (required_outer : bitmapset) (path : Path) : bool :=
  pathkeys_contained_in keys (pathkeys path) && bms_is_subset (PATH_REQ_OUTER path) required_outer.

Fixpoint cheapest_for_pathkeys_loop (paths : list Path) (keys : list nat) (required_outer : bitmapset)
    (cost_criterion : CostSelector) (require_parallel_safe : bool) (matched_path : option Path) : option Path :=
  match paths with
  | [] => matched_path
  | path :: rest =>
      let continue := cheapest_for_pathkeys_loop rest keys required_outer cost_criterion require_parallel_safe in
      if match matched_path with
         | Some m => compare_path_costs m path cost_criterion <=? 0
         | None => false
         end then continue matched_path
      else if require_parallel_safe && negb (parallel_safe path) then continue matched_path
      else continue (if path_satisfies keys required_outer path then Some path else matched_path)
  end.

Definition get_cheapest_path_for_pathkeys (paths : list Path) (keys : list nat) (required_outer : bitmapset)
    (cost_criterion : CostSelector) (require_parallel_safe : bool) : option Path :=
  cheapest_for_pathkeys_loop paths keys required_outer cost_criterion require_parallel_safe None.

Fixpoint cheapest_fractional_loop (paths : list Path) (keys : list nat) (required_outer : bitmapset)
    (fraction : double) (matched_path : option Path) : option Path :=
  match paths with
  | [] => matched_path
  | path :: rest =>
      let continue := cheapest_fractional_loop rest keys required_outer fraction in
      if match matched_path with
         | Some m => compare_fractional_path_costs m path fraction <=? 0
         | None => false
         end then continue matched_path
      else continue (if path_satisfies keys required_outer path then Some path else matched_path)
  end.

Definition get_cheapest_fractional_path_for_pathkeys (paths : list Path) (keys : list nat)
    (required_outer : bitmapset) (fraction : double) : option Path :=
  cheapest_fractional_loop paths keys required_outer fraction None.

Fixpoint get_cheapest_parallel_safe_total_inner (paths : list Path) : option Path :=
  match paths with
  | [] => None
  | innerpath :: rest =>
      if parallel_safe innerpath && match PATH_REQ_OUTER innerpath with None => true | Some _ => false end
      then Some innerpath else get_cheapest_parallel_safe_total_inner rest
  end.
