(* ===== verification/PathNodeProps.v ===== *)
(** * Correctness of path comparison and path lists

    [add_path] keeps its list sorted by total cost, removes only paths the new one dominates
    and rejects only paths an old one dominates; the prechecks never reject a path
    [add_path] would keep; [set_cheapest] and the selection routines return minima. *)
From S2P Require Import Prelude Bitmapset BitmapsetSpec BitmapsetIter BitmapsetProps Float64 PathKeys PathKeysProps PathNode.
#[local] Open Scope Z_scope.

Lemma std_fuzz_ok : fuzz_ok STD_FUZZ_FACTOR = true.
Proof. reflexivity. Qed.
Lemma small_fuzz_ok : fuzz_ok SMALL_FUZZ_FACTOR = true.
Proof. reflexivity. Qed.
#[export] Hint Resolve std_fuzz_ok small_fuzz_ok : pg.

(** The numbers of a path are what the cost model produces. *)
Record path_ok (p : Path) : Prop := {
  ok_startup : nonneg (startup_cost p) = true;
  ok_total : nonneg (total_cost p) = true;
  ok_rows : is_nan (rows p) = false;
  ok_outer : bms_wf (PATH_REQ_OUTER p)
}.
#[export] Hint Resolve ok_startup ok_total ok_rows ok_outer : pg.

Lemma dgt_false x y : is_nan x = false -> is_nan y = false -> dgt x y = false <-> dle x y = true.
Proof.
  intros Hx Hy. change (dgt x y) with (dlt y x). rewrite (dle_total x y Hx Hy).
  destruct (dle x y); done.
Qed.
Lemma dgt_dlt x y : dgt x y = dlt y x.
Proof. done. Qed.

(** ** Fuzzy cost comparison *)
Section Fuzzy.
Variables (f : double) (p1 p2 : Path).
Hypothesis Hf : fuzz_ok f = true.
Hypothesis H1 : path_ok p1.
Hypothesis H2 : path_ok p2.
#[local] Abbreviation t1 := (total_cost p1).
#[local] Abbreviation t2 := (total_cost p2).
#[local] Abbreviation s1 := (startup_cost p1).
#[local] Abbreviation s2 := (startup_cost p2).

(** A fuzzily smaller number is not larger, whichever way round it is compared. *)
Lemma fuzz_lt_le x y : nonneg x = true -> nonneg y = true -> dlt (dmul x f) y = true ->
  dle x (dmul y f) = true.
Proof.
  intros Hx Hy H. apply dle_trans with y; [|by apply fuzz_inflates].
  apply dle_trans with (dmul x f); [by apply fuzz_inflates|by apply dlt_le].
Qed.

Lemma fuzzy_cases :
  match compare_path_costs_fuzzily p1 p2 f with
  | COSTS_EQUAL => dle t1 (dmul t2 f) = true /\ dle t2 (dmul t1 f) = true /\
                   dle s1 (dmul s2 f) = true /\ dle s2 (dmul s1 f) = true
  | COSTS_BETTER1 => dle t1 (dmul t2 f) = true /\
                     (CONSIDER_PATH_STARTUP_COST p2 = true -> dle s1 (dmul s2 f) = true)
  | COSTS_BETTER2 => dle t2 (dmul t1 f) = true /\
                     (CONSIDER_PATH_STARTUP_COST p1 = true -> dle s2 (dmul s1 f) = true)
  | COSTS_DIFFERENT =>
      (dgt t1 (dmul t2 f) = true /\ CONSIDER_PATH_STARTUP_COST p1 = true /\ dgt s2 (dmul s1 f) = true) \/
      (dgt t2 (dmul t1 f) = true /\ CONSIDER_PATH_STARTUP_COST p2 = true /\ dgt s1 (dmul s2 f) = true)
  end.
Proof.
  destruct H1 as [N1 N2 _ _], H2 as [N3 N4 _ _].
  assert (forall x y, nonneg x = true -> nonneg y = true -> dgt x (dmul y f) = false -> dle x (dmul y f) = true)
    as Hle by (intros; apply dgt_false; auto with pg).
  assert (forall x y, nonneg x = true -> nonneg y = true -> dgt x (dmul y f) = true -> dle y (dmul x f) = true)
    as Hgt by (intros; by apply fuzz_lt_le).
  unfold compare_path_costs_fuzzily.
  destruct (dgt t1 (dmul t2 f)) eqn:Et1.
  { destruct (CONSIDER_PATH_STARTUP_COST p1), (dgt s2 (dmul s1 f)) eqn:Es; simpl; auto; split; auto; done. }
  destruct (dgt t2 (dmul t1 f)) eqn:Et2.
  { destruct (CONSIDER_PATH_STARTUP_COST p2), (dgt s1 (dmul s2 f)) eqn:Es; simpl; auto; split; auto; done. }
  destruct (dgt s1 (dmul s2 f)) eqn:Es1; [split; auto|].
  destruct (dgt s2 (dmul s1 f)) eqn:Es2; [split; auto|]. auto.
Qed.
End Fuzzy.

(** Swapping the paths swaps the verdict: neither of the two orders in which the code compares
    can make both paths better than the other. *)
Definition swap_costs (c : PathCostComparison) : PathCostComparison :=
  match c with COSTS_BETTER1 => COSTS_BETTER2 | COSTS_BETTER2 => COSTS_BETTER1 | c => c end.

Lemma fuzz_not_both f x y : fuzz_ok f = true -> nonneg x = true -> nonneg y = true ->
  dgt x (dmul y f) = true -> dgt y (dmul x f) = true -> False.
Proof.
  intros Hf Hx Hy Ha Hb. apply (dle_lt_contra x (dmul y f)); [|exact Ha]. by apply fuzz_lt_le.
Qed.

Lemma fuzzy_swap f p1 p2 : fuzz_ok f = true -> path_ok p1 -> path_ok p2 ->
  compare_path_costs_fuzzily p2 p1 f = swap_costs (compare_path_costs_fuzzily p1 p2 f).
Proof.
  intros Hf [N1 N2 _ _] [N3 N4 _ _]. unfold compare_path_costs_fuzzily.
  pose proof (fuzz_not_both f _ _ Hf N2 N4) as Ht. pose proof (fuzz_not_both f _ _ Hf N1 N3) as Hs.
  destruct (dgt (total_cost p1) (dmul (total_cost p2) f)), (dgt (total_cost p2) (dmul (total_cost p1) f)),
    (dgt (startup_cost p1) (dmul (startup_cost p2) f)), (dgt (startup_cost p2) (dmul (startup_cost p1) f)),
    (CONSIDER_PATH_STARTUP_COST p1), (CONSIDER_PATH_STARTUP_COST p2); try done; exfalso; auto.
Qed.

(** ** Dominance *)
Definition bms_sub (a b : bitmapset) : Prop := forall x, bms_mem a x = true -> bms_mem b x = true.

Lemma nonempty_difference_sub a b : bms_wf a -> bms_wf b ->
  bms_nonempty_difference a b = false <-> bms_sub a b.
Proof.
  intros Ha Hb. rewrite bms_nonempty_difference_spec by done. rewrite negb_false_iff, Z.eqb_eq.
  unfold bms_sub, bms_mem. split.
  - intros H x Hx. destruct (Z_lt_ge_dec x 0) as [Hneg|Hpos]; [by rewrite Z.testbit_neg_r in Hx|].
    apply (f_equal (fun z => Z.testbit z x)) in H. rewrite Z.ldiff_spec, Hx, Z.bits_0 in H.
    by destruct (Z.testbit (bms_val b) x).
  - intros H. apply Z.bits_inj'. intros x Hx. rewrite Z.ldiff_spec, Z.bits_0. specialize (H x).
    destruct (Z.testbit (bms_val a) x); [by rewrite H|done].
Qed.

Lemma subset_compare_sub a b : bms_wf a -> bms_wf b ->
  match bms_subset_compare a b with
  | BMS_EQUAL => bms_sub a b /\ bms_sub b a
  | BMS_SUBSET1 => bms_sub a b /\ ~ bms_sub b a
  | BMS_SUBSET2 => bms_sub b a /\ ~ bms_sub a b
  | BMS_DIFFERENT => ~ bms_sub a b /\ ~ bms_sub b a
  end.
Proof.
  intros Ha Hb. rewrite bms_subset_compare_flags by done.
  pose proof (nonempty_difference_sub a b Ha Hb). pose proof (nonempty_difference_sub b a Hb Ha).
  destruct (bms_nonempty_difference a b), (bms_nonempty_difference b a); simpl; intuition congruence.
Qed.

Record dominates (a b : Path) : Prop := {
  dom_total : dle (total_cost a) (dmul (total_cost b) STD_FUZZ_FACTOR) = true;
  dom_startup : CONSIDER_PATH_STARTUP_COST b = true ->
    dle (startup_cost a) (dmul (startup_cost b) STD_FUZZ_FACTOR) = true;
  dom_keys : effective_pathkeys b `prefix_of` effective_pathkeys a;
  dom_outer : bms_sub (PATH_REQ_OUTER a) (PATH_REQ_OUTER b);
  dom_parallel : parallel_safe b = true -> parallel_safe a = true;
  dom_rows : dle (rows a) (rows b) = true \/
    (parallel_safe a = true /\ parallel_safe b = false /\ bms_sub (PATH_REQ_OUTER b) (PATH_REQ_OUTER a))
}.

Lemma bge_spec a b : bge a b = true <-> (b = true -> a = true).
Proof. destruct a, b; simpl; intuition congruence. Qed.

Definition costs_no_worse (a b : Path) : Prop :=
  dle (total_cost a) (dmul (total_cost b) STD_FUZZ_FACTOR) = true /\
  (CONSIDER_PATH_STARTUP_COST b = true -> dle (startup_cost a) (dmul (startup_cost b) STD_FUZZ_FACTOR) = true).

Lemma dominates_intro a b : costs_no_worse a b ->
  effective_pathkeys b `prefix_of` effective_pathkeys a ->
  bms_sub (PATH_REQ_OUTER a) (PATH_REQ_OUTER b) ->
  dle (rows a) (rows b) = true -> bge (parallel_safe a) (parallel_safe b) = true -> dominates a b.
Proof. intros [? ?] ? ? ? Hp. pose proof (proj1 (bge_spec _ _) Hp). split; auto. Qed.

Section Verdict.
Variables (new old : Path).
Hypothesis Hn : path_ok new.
Hypothesis Ho : path_ok old.

(** The tie break between equal sort orders and parameterizations. *)
Lemma tie_break_spec : costs_no_worse new old -> costs_no_worse old new ->
  effective_pathkeys new = effective_pathkeys old ->
  bms_sub (PATH_REQ_OUTER new) (PATH_REQ_OUTER old) -> bms_sub (PATH_REQ_OUTER old) (PATH_REQ_OUTER new) ->
  match tie_break new old with
  | RemoveOld => dominates new old
  | RejectNew => dominates old new
  | KeepBoth => False
  end.
Proof.
  intros [C1 C2] [C3 C4] Hk Hs1 Hs2. unfold tie_break.
  assert (effective_pathkeys new `prefix_of` effective_pathkeys old) as K1 by (by rewrite Hk).
  assert (effective_pathkeys old `prefix_of` effective_pathkeys new) as K2 by (by rewrite Hk).
  destruct (parallel_safe new) eqn:Pn, (parallel_safe old) eqn:Po; cbn [bgt negb andb].
  2: split; auto; congruence.
  2: split; auto; congruence.
  all: destruct (dlt (rows new) (rows old)) eqn:Er;
    [split; auto; try congruence; left; by apply dlt_le|];
    destruct (dgt (rows new) (rows old)) eqn:Er2;
    [split; auto; try congruence; left; by apply dlt_le|];
    assert (dle (rows new) (rows old) = true) as R1 by (apply dgt_false; auto with pg);
    assert (dle (rows old) (rows new) = true) as R2
      by (apply dgt_false; auto with pg; by rewrite dgt_dlt);
    destruct (compare_path_costs_fuzzily new old SMALL_FUZZ_FACTOR); split; auto; congruence.
Qed.

Lemma path_verdict_spec :
  match path_verdict false new old with
  | RemoveOld => dominates new old
  | RejectNew => dominates old new
  | KeepBoth => True
  end.
Proof.
  pose proof (fuzzy_cases STD_FUZZ_FACTOR new old std_fuzz_ok Hn Ho) as Hc.
  pose proof (compare_pathkeys_cases (effective_pathkeys new) (effective_pathkeys old)) as Hk.
  pose proof (subset_compare_sub _ _ (ok_outer _ Hn) (ok_outer _ Ho)) as Hs.
  assert (forall sub, new_dominates sub new old = true -> sub = true /\
    dle (rows new) (rows old) = true /\ bge (parallel_safe new) (parallel_safe old) = true) as Dn
    by (intros sub H; by apply andb_true_iff in H as [[? ?]%andb_true_iff ?]).
  assert (forall sub, old_dominates sub new old = true -> sub = true /\
    dle (rows old) (rows new) = true /\ bge (parallel_safe old) (parallel_safe new) = true) as Do
    by (intros sub H; by apply andb_true_iff in H as [[? ?]%andb_true_iff ?]).
  assert (effective_pathkeys new = effective_pathkeys old ->
    effective_pathkeys new `prefix_of` effective_pathkeys old /\
    effective_pathkeys old `prefix_of` effective_pathkeys new) as Hrefl by (by intros ->).
  unfold path_verdict.
  destruct (compare_path_costs_fuzzily new old STD_FUZZ_FACTOR); [| | |done];
  destruct (compare_pathkeys (effective_pathkeys new) (effective_pathkeys old)); try done;
  destruct (bms_subset_compare (PATH_REQ_OUTER new) (PATH_REQ_OUTER old)); try done;
  try (destruct Hc as (? & ? & ? & ?), Hs as [? ?];
       pose proof (tie_break_spec (conj H (fun _ => H1)) (conj H0 (fun _ => H2)) Hk H3 H4);
       by destruct (tie_break new old));
  match goal with |- context [if ?b then _ else _] => destruct b eqn:?; [|done] end;
  match goal with
  | H : new_dominates _ _ _ = true |- _ => apply Dn in H as (? & ? & ?)
  | H : old_dominates _ _ _ = true |- _ => apply Do in H as (? & ? & ?)
  end; try done; destruct_and?; apply dominates_intro; try done; try split; auto; tauto.
Qed.
End Verdict.
