(* ===== verification/PathListProps.v ===== *)
(** * Path lists as kept by [add_path] and [add_partial_path]

    Both routines run one loop over a list sorted by total cost.  Its outcome is described once,
    for any verdict function: which old paths stay, where the new one goes and what is freed.
    Instances give the order, the dominance and the memory-safety properties. *)
From S2P Require Import Prelude Bitmapset BitmapsetSpec BitmapsetIter BitmapsetProps Float64 PathKeys PathKeysProps PathNode PathNodeProps.
#[local] Open Scope Z_scope.

#[export] Instance Verdict_eq_dec : EqDecision Verdict.
Proof. solve_decision. Defined.

#[export] Instance double_eq_dec : EqDecision double.
Proof. solve_decision. Defined.
#[export] Instance ParentRel_eq_dec : EqDecision ParentRel.
Proof. solve_decision. Defined.
#[export] Instance Path_eq_dec : EqDecision Path.
Proof. solve_decision. Defined.

Definition cost_le (a b : Path) : Prop := dle (total_cost a) (total_cost b) = true.
Definition cost_sorted (l : list Path) : Prop := StronglySorted cost_le l.

(** ** The loop *)
Section Loop.
Variables (verdict : Path -> Path -> Verdict) (free : Path -> list nat) (new : Path).

Definition stays (old : Path) : Prop := verdict new old <> RemoveOld.
#[export] Instance stays_dec old : Decision (stays old).
Proof. unfold stays. apply _. Defined.
Definition goes (old : Path) : Prop := verdict new old = RemoveOld.
#[export] Instance goes_dec old : Decision (goes old).
Proof. unfold goes. apply _. Defined.

(** Everything before the position is no dearer than the new path, by its last element, and
    everything from it on is dearer. *)
Definition position (l : list Path) (at_ : nat) : Prop :=
  (at_ <= length l)%nat /\
  (forall p, (0 < at_)%nat -> l !! pred at_ = Some p -> dge (total_cost new) (total_cost p) = true) /\
  (forall j p, (at_ <= j)%nat -> l !! j = Some p -> dge (total_cost new) (total_cost p) = false).

Lemma position_keep l at_ old : position l at_ ->
  position (l ++ [old]) (if dge (total_cost new) (total_cost old) then S (length l) else at_).
Proof.
  intros (H1 & H2 & H3). unfold position. rewrite length_app; simpl.
  destruct (dge (total_cost new) (total_cost old)) eqn:E; (split; [lia|]); split.
  - intros p _ Hp. simpl in Hp. rewrite lookup_app_r in Hp by lia.
    rewrite Nat.sub_diag in Hp. by injection Hp as <-.
  - intros j p Hj Hp. apply lookup_lt_Some in Hp. rewrite length_app in Hp. simpl in Hp. lia.
  - intros p Ha Hp. rewrite lookup_app_l in Hp by lia. eauto.
  - intros j p Hj [Hp|[? Hp]]%lookup_app_Some; [eauto|].
    destruct (j - length l)%nat; [by injection Hp as <-|done].
Qed.

Definition frees (removed : list Path) : list nat := concat (free <$> removed).
Definition no_reject (olds : list Path) : Prop := Forall (fun o => verdict new o <> RejectNew) olds.

Lemma filter_stay_cons old l : verdict new old <> RemoveOld ->
  filter stays (old :: l) = old :: filter stays l /\ filter goes (old :: l) = filter goes l.
Proof. intros H. by rewrite filter_cons_True, filter_cons_False. Qed.
Lemma filter_go_cons old l : verdict new old = RemoveOld ->
  filter stays (old :: l) = filter stays l /\ filter goes (old :: l) = old :: filter goes l.
Proof. intros H. rewrite filter_cons_False by (intros Hs; by apply Hs). by rewrite filter_cons_True. Qed.

Lemma path_loop_accept olds : forall kept at_ fr, no_reject olds -> position kept at_ ->
  exists at' fr', path_loop verdict free new kept olds at_ fr = (kept ++ filter stays olds, at', true, fr') /\
    position (kept ++ filter stays olds) at' /\ fr' ≡ₚ frees (filter goes olds) ++ fr.
Proof.
  induction olds as [|old olds IH]; intros kept at_ fr Hr Hp.
  { exists at_, fr. by rewrite app_nil_r. }
  apply Forall_cons in Hr as [Ho Hr]. cbn [path_loop]. destruct (verdict new old) eqn:E; [| |done].
  - destruct (filter_stay_cons old olds) as [-> ->]; [by rewrite E|].
    destruct (IH (kept ++ [old]) (if dge (total_cost new) (total_cost old) then S (length kept) else at_) fr)
      as (at' & fr' & -> & ? & ?); [done|by apply position_keep|].
    exists at', fr'. by rewrite <- app_assoc in *.
  - destruct (filter_go_cons old olds E) as [-> ->].
    destruct (IH kept at_ (free old ++ fr)) as (at' & fr' & -> & ? & Hf); [done..|].
    exists at', fr'. split; [done|]. split; [done|]. rewrite Hf. unfold frees. cbn.
    by rewrite <- app_assoc, (Permutation_app_swap_app (free old)).
Qed.

Lemma path_loop_reject pre old post : forall kept at_ fr, no_reject pre -> verdict new old = RejectNew ->
  exists at' fr', path_loop verdict free new kept (pre ++ old :: post) at_ fr =
      (kept ++ filter stays pre ++ old :: post, at', false, fr') /\
    fr' ≡ₚ frees (filter goes pre) ++ fr.
Proof.
  induction pre as [|o pre IH]; intros kept at_ fr Hr Hv.
  { exists at_, fr. simpl. by rewrite Hv. }
  apply Forall_cons in Hr as [Ho Hr]. cbn [path_loop app]. destruct (verdict new o) eqn:E; [| |done].
  - destruct (filter_stay_cons o pre) as [-> ->]; [by rewrite E|].
    destruct (IH (kept ++ [o]) (if dge (total_cost new) (total_cost o) then S (length kept) else at_) fr)
      as (at' & fr' & -> & ?); [done..|].
    exists at', fr'. by rewrite <- app_assoc.
  - destruct (filter_go_cons o pre E) as [-> ->].
    destruct (IH kept at_ (free o ++ fr)) as (at' & fr' & -> & Hf); [done..|].
    exists at', fr'. split; [done|]. rewrite Hf. unfold frees. cbn.
    by rewrite <- app_assoc, (Permutation_app_swap_app (free o)).
Qed.

Lemma reject_split olds : no_reject olds \/
  exists pre old post, olds = pre ++ old :: post /\ no_reject pre /\ verdict new old = RejectNew.
Proof.
  induction olds as [|o olds IH]; [left; constructor|].
  destruct (decide (verdict new o = RejectNew)) as [E|E]; [right; exists [], o, olds; by repeat constructor|].
  destruct IH as [IH|(pre & old & post & -> & Hr & Hv)]; [left; by constructor|].
  right. exists (o :: pre), old, post. split; [done|]. split; [by constructor|done].
Qed.

(** ** What either routine does to its list *)
Record outcome (olds l : list Path) (fr fr' : list nat) : Prop := {
  out_case :
    (no_reject olds /\ fr' ≡ₚ frees (filter goes olds) ++ fr /\
     exists pre post, filter stays olds = pre ++ post /\ l = pre ++ new :: post /\ position (pre ++ post) (length pre)) \/
    (exists pre old post, olds = pre ++ old :: post /\ no_reject pre /\ verdict new old = RejectNew /\
       l = filter stays pre ++ old :: post /\ fr' ≡ₚ free new ++ frees (filter goes pre) ++ fr)
}.

Lemma path_loop_outcome olds fr :
  let '(l, at_, accept, fr') := path_loop verdict free new [] olds 0 fr in
  outcome olds (if accept then list_insert_nth l at_ new else l) fr (if accept then fr' else free new ++ fr').
Proof.
  destruct (reject_split olds) as [Hr|(pre & old & post & -> & Hr & Hv)].
  - destruct (path_loop_accept olds [] 0 fr Hr) as (at' & fr' & -> & Hp & Hf).
    { split; [done|]. split; [intros; lia|]. intros j p _ Hj. by rewrite lookup_nil in Hj. }
    constructor. left. split; [done|]. split; [done|]. simpl in *.
    exists (take at' (filter stays olds)), (drop at' (filter stays olds)).
    rewrite take_drop, length_take_le by apply Hp. done.
  - destruct (path_loop_reject pre old post [] 0 fr Hr Hv) as (at' & fr' & -> & Hf).
    constructor. right. exists pre, old, post. by rewrite Hf.
Qed.
End Loop.
#[export] Existing Instances stays_dec goes_dec.

Lemma frees_submseteq (free : Path -> list nat) ps :
  (forall p, free p `sublist_of` [path_ptr p]) -> frees free ps ⊆+ path_ptr <$> ps.
Proof.
  intros Hf. unfold frees. induction ps as [|p ps IH]; [done|]. cbn.
  apply (submseteq_app _ [path_ptr p]); [by apply sublist_submseteq|done].
Qed.

Lemma stays_goes verdict new olds :
  olds ≡ₚ filter (goes verdict new) olds ++ filter (stays verdict new) olds.
Proof. symmetry. apply (filter_app_complement (goes verdict new)). Qed.

Section Outcome.
Context {verdict : Path -> Path -> Verdict} {free : Path -> list nat} {new : Path} {olds l : list Path}
  {fr fr' : list nat} (Hout : outcome verdict free new olds l fr fr').

Lemma outcome_members p : p ∈ l -> p = new \/ p ∈ olds.
Proof.
  destruct Hout as [[(_ & _ & pre & post & Hs & -> & _)|(pre & old & post & -> & _ & _ & -> & _)]].
  - rewrite <- Permutation_middle, <- Hs. intros [->|[_ Hp]%list_elem_of_filter]%elem_of_cons; auto.
  - intros [[_ Hp]%list_elem_of_filter|Hp]%elem_of_app; right; apply elem_of_app; auto.
Qed.

(** What is no longer on the list lost against the new path; the new path itself can only
    lose against a path that stays. *)
Lemma outcome_lost p : p = new \/ p ∈ olds -> p ∉ l ->
  (p = new \/ verdict new p = RemoveOld) /\
  (new ∈ l \/ exists q, q ∈ l /\ q ∈ olds /\ verdict new q = RejectNew).
Proof.
  intros Hin Hnot.
  destruct Hout as [[(_ & _ & pre & post & Hs & -> & _)|(pre & old & post & -> & _ & Hv & -> & _)]].
  - split; [|left; apply elem_of_app; right; left]. destruct Hin as [->|Hin]; [by left|right].
    destruct (decide (verdict new p = RemoveOld)) as [|Hstay]; [done|]. destruct Hnot.
    rewrite <- Permutation_middle, <- Hs. right. by apply list_elem_of_filter.
  - split; [|right; exists old; rewrite !elem_of_app, elem_of_cons; auto 10].
    destruct Hin as [->|Hin]; [by left|right]. apply elem_of_app in Hin as [Hin|Hin].
    + destruct (decide (verdict new p = RemoveOld)) as [|Hstay]; [done|]. destruct Hnot.
      apply elem_of_app. left. by apply list_elem_of_filter.
    + destruct Hnot. apply elem_of_app. by right.
Qed.

Lemma outcome_sorted : Forall (fun p => is_nan (total_cost p) = false) (new :: olds) ->
  cost_sorted olds -> cost_sorted l.
Proof.
  intros [Hn Hnan]%Forall_cons Hs.
  destruct Hout as [[(_ & _ & pre & post & E & -> & Hp)|(pre & old & post & -> & _ & _ & -> & _)]].
  - assert (cost_sorted (pre ++ post)) as Hs' by (rewrite <- E; by apply StronglySorted_filter).
    destruct Hp as (_ & Hbefore & Hafter). apply StronglySorted_insert; [done| |].
    + intros p Hp. destruct pre as [|q pre' _] using rev_ind; [by apply elem_of_nil in Hp|].
      rewrite length_app, Nat.add_1_r, <- app_assoc in Hbefore. specialize (Hbefore q).
      rewrite lookup_app_r, Nat.sub_diag in Hbefore by done.
      assert (cost_le q new) as Hq by (apply Hbefore; [lia|done]).
      apply elem_of_app in Hp as [Hp|Hp%list_elem_of_singleton]; [|by subst].
      unfold cost_le. apply dle_trans with (total_cost q); [|done].
      rewrite <- app_assoc in Hs'. eapply StronglySorted_app_1_elem_of in Hs'; [exact Hs'|done|by left].
    + intros p [i Hi]%list_elem_of_lookup.
      specialize (Hafter (length pre + i)%nat p ltac:(lia)).
      rewrite lookup_app_r, Nat.add_comm, Nat.add_sub in Hafter by lia.
      specialize (Hafter Hi). apply dlt_le. change (dge (total_cost new) (total_cost p)) with
        (dle (total_cost p) (total_cost new)) in Hafter. rewrite dle_total; [by rewrite Hafter| |done].
      assert (p ∈ filter (stays verdict new) olds) as [_ Hin]%list_elem_of_filter
        by (rewrite E; apply elem_of_app; right; by eapply list_elem_of_lookup_2).
      rewrite Forall_forall in Hnan. by apply Hnan.
  - eapply StronglySorted_sublist; [exact Hs|]. apply sublist_app; [apply sublist_filter|done].
Qed.

Lemma outcome_freed_mono : fr ⊆ fr'.
Proof.
  destruct Hout as [[(_ & -> & _)|(pre & old & post & _ & _ & _ & _ & ->)]];
    intros a Ha; rewrite !elem_of_app; auto.
Qed.

Context (Hfree : forall p, free p `sublist_of` [path_ptr p]).

(** The addresses freed and the addresses still on the list are distinct parts of what there was. *)
Lemma outcome_memory : fr' ++ (path_ptr <$> l) ⊆+ fr ++ (path_ptr <$> new :: olds).
Proof.
  pose proof (frees_submseteq free (filter (goes verdict new) olds) Hfree) as HG.
  destruct Hout as [[(_ & -> & pre & post & E & -> & _)|(pre & old & post & -> & _ & _ & -> & ->)]].
  - pose proof (fmap_Permutation path_ptr _ _ (stays_goes verdict new olds)) as HP.
    rewrite <- Permutation_middle, <- E, !fmap_cons, HP, fmap_app.
    etrans; [apply submseteq_app; [apply submseteq_app; [exact HG|reflexivity]|reflexivity]|].
    solve_submseteq.
  - pose proof (fmap_Permutation path_ptr _ _ (stays_goes verdict new pre)) as HP.
    clear HG. pose proof (frees_submseteq free (filter (goes verdict new) pre) Hfree) as HG.
    rewrite !fmap_cons, !fmap_app, HP, fmap_app.
    etrans; [apply submseteq_app; [apply submseteq_app;
      [apply sublist_submseteq, Hfree|apply submseteq_app; [exact HG|reflexivity]]|reflexivity]|].
    solve_submseteq.
Qed.

(** Nothing leaks: a path that is not on the list any more has been freed. *)
Lemma outcome_no_leak p : p = new \/ p ∈ olds -> p ∉ l -> free p ⊆ fr'.
Proof.
  assert (forall q qs, q ∈ qs -> verdict new q = RemoveOld -> free q ⊆ frees free (filter (goes verdict new) qs))
    as Hgone.
  { intros q qs Hq Hv a Ha. unfold frees. apply list_elem_of_In, in_concat. exists (free q).
    rewrite <- !list_elem_of_In. split; [|done]. by apply list_elem_of_fmap_2, list_elem_of_filter. }
  intros Hin Hnot. destruct (outcome_lost p Hin Hnot) as [Hp Hnew].
  destruct Hout as [[(_ & -> & pre & post & E & -> & _)|(pre & old & post & -> & _ & _ & -> & ->)]].
  - destruct Hin as [->|Hin]; [destruct Hnot; apply elem_of_app; right; left|].
    destruct Hp as [->|Hp]; [destruct Hnot; apply elem_of_app; right; left|].
    intros a Ha. apply elem_of_app. left. by eapply Hgone.
  - destruct Hp as [->|Hp]; [intros a Ha; apply elem_of_app; auto|].
    destruct Hin as [->|[Hin|Hin]%elem_of_app]; [intros a Ha; apply elem_of_app; auto| |].
    + intros a Ha. rewrite !elem_of_app. right. left. by eapply Hgone.
    + destruct Hnot. apply elem_of_app. by right.
Qed.
End Outcome.
