(* ===== verification/PathThms.v ===== *)
(** * The contracts of [add_path], [add_partial_path] and their prechecks *)
From stdpp Require Import relations.
From S2P Require Import Prelude Bitmapset BitmapsetSpec BitmapsetIter BitmapsetProps Float64 PathKeys PathKeysProps PathNode PathNodeProps PathListProps.
#[local] Open Scope Z_scope.

Record rel_inv (rel : RelOptInfo) : Prop := {
  ri_ok : Forall path_ok (pathlist rel ++ partial_pathlist rel);
  ri_sorted : cost_sorted (pathlist rel);
  ri_partial_sorted : cost_sorted (partial_pathlist rel);
  ri_memory : NoDup (freed rel ++ (path_ptr <$> pathlist rel) ++ (path_ptr <$> partial_pathlist rel))
}.
(** A path built since: its numbers are in order and its address is not one in use or freed. *)
Record fresh_path (rel : RelOptInfo) (new : Path) : Prop := {
  fp_ok : path_ok new;
  fp_addr : path_ptr new ∉ freed rel ++ (path_ptr <$> pathlist rel) ++ (path_ptr <$> partial_pathlist rel)
}.

Lemma free_unless_index_sublist p : free_unless_index p `sublist_of` [path_ptr p].
Proof. unfold free_unless_index. destruct (is_IndexPath p); [apply sublist_nil_l|done]. Qed.
#[export] Hint Resolve free_unless_index_sublist : pg.

Lemma add_path_outcome athena rel new :
  outcome (path_verdict athena) free_unless_index new (pathlist rel) (pathlist (add_path athena rel new))
    (freed rel) (freed (add_path athena rel new)).
Proof.
  pose proof (path_loop_outcome (path_verdict athena) free_unless_index new (pathlist rel) (freed rel)) as H.
  unfold add_path. destruct (path_loop _ _ _ _ _ _ _) as [[[l at_] acc] fr']. by destruct acc.
Qed.
Lemma add_partial_path_outcome rel new :
  outcome partial_verdict (fun p => [path_ptr p]) new (partial_pathlist rel)
    (partial_pathlist (add_partial_path rel new)) (freed rel) (freed (add_partial_path rel new)).
Proof.
  pose proof (path_loop_outcome partial_verdict (fun p => [path_ptr p]) new (partial_pathlist rel) (freed rel)) as H.
  unfold add_partial_path. destruct (path_loop _ _ _ _ _ _ _) as [[[l at_] acc] fr']. by destruct acc.
Qed.
Lemma add_path_partial athena rel new : partial_pathlist (add_path athena rel new) = partial_pathlist rel.
Proof. unfold add_path. destruct (path_loop _ _ _ _ _ _ _) as [[[l at_] []] fr']; done. Qed.
Lemma add_partial_path_pathlist rel new : pathlist (add_partial_path rel new) = pathlist rel.
Proof. unfold add_partial_path. destruct (path_loop _ _ _ _ _ _ _) as [[[l at_] []] fr']; done. Qed.

Lemma path_ok_nan l : Forall path_ok l -> Forall (fun p => is_nan (total_cost p) = false) l.
Proof. intros H. eapply Forall_impl; [exact H|]. intros p Hp. auto with pg. Qed.

(** ** The invariant *)
Lemma add_path_inv athena rel new : rel_inv rel -> fresh_path rel new -> rel_inv (add_path athena rel new).
Proof.
  intros [Hok Hs Hps Hm] [Hn Ha]. pose proof (add_path_outcome athena rel new) as Ho.
  apply Forall_app in Hok as [Hok Hpok]. split.
  - rewrite add_path_partial, Forall_app. split; [|done]. rewrite Forall_forall in *.
    intros p [->|Hp]%(outcome_members Ho); auto.
  - apply (outcome_sorted Ho); [|done]. apply path_ok_nan. by constructor.
  - by rewrite add_path_partial.
  - rewrite add_path_partial, app_assoc.
    eapply NoDup_submseteq_mono;
      [|apply submseteq_app; [apply (outcome_memory Ho free_unless_index_sublist)|reflexivity]].
    rewrite fmap_cons, <- Permutation_middle. cbn. rewrite <- app_assoc. by constructor.
Qed.

Lemma add_partial_path_inv rel new : rel_inv rel -> fresh_path rel new -> rel_inv (add_partial_path rel new).
Proof.
  intros [Hok Hs Hps Hm] [Hn Ha]. pose proof (add_partial_path_outcome rel new) as Ho.
  apply Forall_app in Hok as [Hok Hpok]. split.
  - rewrite add_partial_path_pathlist, Forall_app. split; [done|]. rewrite Forall_forall in *.
    intros p [->|Hp]%(outcome_members Ho); auto.
  - by rewrite add_partial_path_pathlist.
  - apply (outcome_sorted Ho); [|done]. apply path_ok_nan. by constructor.
  - rewrite add_partial_path_pathlist.
    rewrite (Permutation_app_comm (path_ptr <$> pathlist rel)), app_assoc in Hm |- *.
    eapply NoDup_submseteq_mono;
      [|apply submseteq_app; [apply (outcome_memory Ho); intros p; reflexivity|reflexivity]].
    rewrite fmap_cons, <- Permutation_middle. cbn. constructor; [|done].
    rewrite <- app_assoc, !elem_of_app in *. tauto.
Qed.

(** ** Dominance *)
Record partial_dominates (a b : Path) : Prop := {
  pdom_total : dle (total_cost a) (dmul (total_cost b) STD_FUZZ_FACTOR) = true;
  pdom_keys : pathkeys b `prefix_of` pathkeys a
}.

Lemma partial_verdict_spec new old : path_ok new -> path_ok old ->
  match partial_verdict new old with
  | RemoveOld => partial_dominates new old
  | RejectNew => partial_dominates old new
  | KeepBoth => True
  end.
Proof.
  intros Hn Ho. unfold partial_verdict.
  pose proof (compare_pathkeys_cases (pathkeys new) (pathkeys old)) as Hk.
  assert (forall p q, path_ok p -> path_ok q -> dgt (total_cost p) (dmul (total_cost q) STD_FUZZ_FACTOR) = true ->
    dle (total_cost q) (dmul (total_cost p) STD_FUZZ_FACTOR) = true) as Hgt
    by (intros p q Hp Hq; apply fuzz_lt_le; auto with pg).
  assert (forall p q, path_ok p -> path_ok q -> dgt (total_cost p) (dmul (total_cost q) STD_FUZZ_FACTOR) = false ->
    dle (total_cost p) (dmul (total_cost q) STD_FUZZ_FACTOR) = true) as Hle
    by (intros p q Hp Hq; apply dgt_false; auto with pg).
  destruct (compare_pathkeys (pathkeys new) (pathkeys old)); try done;
  destruct (dgt (total_cost new) (dmul (total_cost old) STD_FUZZ_FACTOR)) eqn:E1;
  try destruct (dgt (total_cost old) (dmul (total_cost new) STD_FUZZ_FACTOR)) eqn:E2; try done;
  try destruct (dgt (total_cost old) (dmul (total_cost new) SMALL_FUZZ_FACTOR));
  split; auto; first [by rewrite Hk|tauto].
Qed.

Lemma verdict_dominates new old : path_ok new -> path_ok old ->
  (path_verdict false new old = RemoveOld -> dominates new old) /\
  (path_verdict false new old = RejectNew -> dominates old new).
Proof. intros Hn Ho. pose proof (path_verdict_spec new old Hn Ho) as H. split; intros E; by rewrite E in H. Qed.
Lemma partial_verdict_dominates new old : path_ok new -> path_ok old ->
  (partial_verdict new old = RemoveOld -> partial_dominates new old) /\
  (partial_verdict new old = RejectNew -> partial_dominates old new).
Proof. intros Hn Ho. pose proof (partial_verdict_spec new old Hn Ho) as H. split; intros E; by rewrite E in H. Qed.

(** A path that is gone lost to the new path, and whatever the new path lost to is still there:
    from each path there was, a chain of dominating paths leads to one on the list. *)
Definition beaten_by (D : Path -> Path -> Prop) (p q : Path) : Prop := D q p.
Definition covered (D : Path -> Path -> Prop) (l : list Path) (p : Path) : Prop :=
  exists q, q ∈ l /\ rtc (beaten_by D) p q.

Lemma outcome_covered verdict free (D : Path -> Path -> Prop) new olds l fr fr' :
  outcome verdict free new olds l fr fr' ->
  (forall old, old ∈ olds -> (verdict new old = RemoveOld -> D new old) /\ (verdict new old = RejectNew -> D old new)) ->
  forall p, p = new \/ p ∈ olds -> covered D l p.
Proof.
  intros Ho HD p Hin. destruct (decide (p ∈ l)) as [|Hnot]; [exists p; by split|].
  destruct (outcome_lost Ho p Hin Hnot) as [Hp Hnew].
  assert (covered D l new) as (q & Hq & Hc).
  { destruct Hnew as [Hnew|(q & Hq & Hqo & Hv)]; [exists new; by split|].
    exists q. split; [done|]. apply rtc_once. by apply (HD q). }
  destruct Hp as [->|Hp]; [by exists q|]. destruct Hin as [->|Hin]; [by exists q|].
  exists q. split; [done|]. eapply rtc_l; [|exact Hc]. by apply (HD p).
Qed.

Lemma covered_trans D l l' p : covered D l p -> (forall q, q ∈ l -> covered D l' q) -> covered D l' p.
Proof.
  intros (q & Hq & Hc) H. destruct (H q Hq) as (q' & Hq' & Hc'). exists q'. split; [done|]. by etrans.
Qed.

Lemma add_path_covered rel new p : rel_inv rel -> path_ok new -> p = new \/ p ∈ pathlist rel ->
  covered dominates (pathlist (add_path false rel new)) p.
Proof.
  intros Hi Hn. apply (outcome_covered _ _ dominates _ _ _ _ _ (add_path_outcome false rel new)).
  intros old Hold. apply verdict_dominates; [done|].
  pose proof (ri_ok _ Hi) as Hok. rewrite Forall_app, Forall_forall in Hok. by apply Hok.
Qed.
Lemma add_partial_path_covered rel new p : rel_inv rel -> path_ok new -> p = new \/ p ∈ partial_pathlist rel ->
  covered partial_dominates (partial_pathlist (add_partial_path rel new)) p.
Proof.
  intros Hi Hn. apply (outcome_covered _ _ partial_dominates _ _ _ _ _ (add_partial_path_outcome rel new)).
  intros old Hold. apply partial_verdict_dominates; [done|].
  pose proof (ri_ok _ Hi) as Hok. rewrite Forall_app, !Forall_forall in Hok. by apply Hok.
Qed.

(** ** Sequences of calls *)
Inductive path_op := AddPath (p : Path) | AddPartialPath (p : Path).
Definition op_path (op : path_op) : Path := match op with AddPath p | AddPartialPath p => p end.
Definition run_op (athena : bool) (rel : RelOptInfo) (op : path_op) : RelOptInfo :=
  match op with
  | AddPath p => add_path athena rel p
  | AddPartialPath p => add_partial_path rel p
  end.
(** A relation as [build_simple_rel] and [build_join_rel] create it. *)
Definition empty_rel (par : ParentRel) : RelOptInfo :=
  {| rel_parent := par; pathlist := []; partial_pathlist := []; cheapest_startup_path := None;
     cheapest_total_path := None; cheapest_unique_path := None; cheapest_parameterized_paths := [];
     freed := [] |}.
Definition run_ops (athena : bool) (par : ParentRel) (ops : list path_op) : RelOptInfo :=
  fold_left (run_op athena) ops (empty_rel par).

Lemma run_ops_snoc athena par ops op : run_ops athena par (ops ++ [op]) = run_op athena (run_ops athena par ops) op.
Proof. apply fold_left_app. Qed.

Lemma run_op_addresses athena rel op :
  let rel' := run_op athena rel op in
  freed rel' ++ (path_ptr <$> pathlist rel') ++ (path_ptr <$> partial_pathlist rel') ⊆+
  path_ptr (op_path op) :: freed rel ++ (path_ptr <$> pathlist rel) ++ (path_ptr <$> partial_pathlist rel).
Proof.
  destruct op as [p|p]; cbn.
  - rewrite add_path_partial, app_assoc.
    etrans; [apply submseteq_app;
      [apply (outcome_memory (add_path_outcome athena rel p) free_unless_index_sublist)|reflexivity]|].
    rewrite fmap_cons. solve_submseteq.
  - rewrite add_partial_path_pathlist, (Permutation_app_comm (path_ptr <$> pathlist rel)), app_assoc.
    etrans; [apply submseteq_app;
      [apply (outcome_memory (add_partial_path_outcome rel p)); intros q; reflexivity|reflexivity]|].
    rewrite fmap_cons. solve_submseteq.
Qed.

Definition op_addresses (ops : list path_op) : list nat := (fun op => path_ptr (op_path op)) <$> ops.

Lemma run_ops_safe athena par ops :
  Forall (fun op => path_ok (op_path op)) ops -> NoDup (op_addresses ops) ->
  let rel := run_ops athena par ops in
  rel_inv rel /\
  freed rel ++ (path_ptr <$> pathlist rel) ++ (path_ptr <$> partial_pathlist rel) ⊆+ op_addresses ops.
Proof.
  induction ops as [|op ops IH] using rev_ind; intros Hok Hnd; cbv zeta.
  { cbn. split; [split; cbn; constructor|done]. }
  rewrite run_ops_snoc. apply Forall_app in Hok as [Hok [Hop _]%Forall_cons].
  unfold op_addresses in *. rewrite fmap_app in *. pose proof Hnd as (Hnd' & Hfr & _)%NoDup_app.
  destruct (IH Hok Hnd') as (Hi & Ha). split.
  - assert (fresh_path (run_ops athena par ops) (op_path op)) as Hf.
    { split; [done|]. intros Hin. eapply elem_of_submseteq in Hin; [|exact Ha]. apply (Hfr _ Hin). by left. }
    destruct op; [by apply add_path_inv|by apply add_partial_path_inv].
  - etrans; [apply run_op_addresses|]. cbn. rewrite <- Permutation_cons_append. by apply submseteq_skip.
Qed.

Lemma run_ops_fresh athena par ops op :
  Forall (fun op => path_ok (op_path op)) (ops ++ [op]) -> NoDup (op_addresses (ops ++ [op])) ->
  fresh_path (run_ops athena par ops) (op_path op).
Proof.
  intros [Hok [Hop _]%Forall_cons]%Forall_app Hnd. unfold op_addresses in Hnd. rewrite fmap_app in Hnd.
  apply NoDup_app in Hnd as (Hnd & Hfr & _). destruct (run_ops_safe athena par ops Hok Hnd) as [_ Ha].
  split; [done|]. intros Hin. eapply elem_of_submseteq in Hin; [|exact Ha]. apply (Hfr _ Hin). by left.
Qed.

(** The state after a sequence of calls with distinct addresses. *)
Record run_inv (ops : list path_op) (rel : RelOptInfo) : Prop := {
  run_rel : rel_inv rel;
  run_covered : forall p, AddPath p ∈ ops -> covered dominates (pathlist rel) p;
  run_partial_covered : forall p, AddPartialPath p ∈ ops -> covered partial_dominates (partial_pathlist rel) p;
  run_offered : forall p, p ∈ pathlist rel -> AddPath p ∈ ops;
  run_partial_offered : forall p, p ∈ partial_pathlist rel -> AddPartialPath p ∈ ops;
  run_no_leak : forall p, AddPath p ∈ ops -> p ∈ pathlist rel \/ is_IndexPath p = true \/ path_ptr p ∈ freed rel;
  run_partial_no_leak : forall p, AddPartialPath p ∈ ops -> p ∈ partial_pathlist rel \/ path_ptr p ∈ freed rel
}.

Lemma run_inv_add_path ops rel new : run_inv ops rel -> fresh_path rel new ->
  run_inv (ops ++ [AddPath new]) (add_path false rel new).
Proof.
  intros [Hi Hc Hpc Hof Hpof Hl Hpl] Hf. pose proof (add_path_outcome false rel new) as Ho.
  split; rewrite ?add_path_partial; try setoid_rewrite elem_of_app; try setoid_rewrite list_elem_of_singleton.
  - by apply add_path_inv.
  - intros p [Hp|[= ->]]; [|apply add_path_covered; auto; apply Hf].
    eapply covered_trans; [by apply Hc|]. intros q Hq. apply add_path_covered; auto. apply Hf.
  - intros p [Hp|?]; [auto|done].
  - intros p [->|Hp]%(outcome_members Ho); auto.
  - auto.
  - intros p Hp. destruct (decide (p ∈ pathlist (add_path false rel new))) as [|Hnot]; [by left|right].
    assert (p = new \/ p ∈ pathlist rel \/ is_IndexPath p = true \/ path_ptr p ∈ freed rel) as Hcase
      by (destruct Hp as [Hp|[= ->]]; auto).
    destruct (is_IndexPath p) eqn:Ei; [by left|right].
    assert (p = new \/ p ∈ pathlist rel -> path_ptr p ∈ freed (add_path false rel new)) as Hlost.
    { intros Hin. apply (outcome_no_leak Ho p Hin Hnot). unfold free_unless_index. rewrite Ei. by left. }
    destruct Hcase as [->|[?|[?|?]]]; auto; [done|]. by apply (outcome_freed_mono Ho).
  - intros p [Hp|?]; [|done]. destruct (Hpl p Hp); auto. right. by apply (outcome_freed_mono Ho).
Qed.

Lemma run_inv_add_partial_path ops rel new : run_inv ops rel -> fresh_path rel new ->
  run_inv (ops ++ [AddPartialPath new]) (add_partial_path rel new).
Proof.
  intros [Hi Hc Hpc Hof Hpof Hl Hpl] Hf. pose proof (add_partial_path_outcome rel new) as Ho.
  split; rewrite ?add_partial_path_pathlist; try setoid_rewrite elem_of_app; try setoid_rewrite list_elem_of_singleton.
  - by apply add_partial_path_inv.
  - intros p [Hp|?]; [auto|done].
  - intros p [Hp|[= ->]]; [|apply add_partial_path_covered; auto; apply Hf].
    eapply covered_trans; [by apply Hpc|]. intros q Hq. apply add_partial_path_covered; auto. apply Hf.
  - auto.
  - intros p [->|Hp]%(outcome_members Ho); auto.
  - intros p [Hp|?]; [|done]. destruct (Hl p Hp) as [|[|]]; auto. right; right. by apply (outcome_freed_mono Ho).
  - intros p Hp. destruct (decide (p ∈ partial_pathlist (add_partial_path rel new))) as [|Hnot]; [by left|right].
    assert (p = new \/ p ∈ partial_pathlist rel -> path_ptr p ∈ freed (add_partial_path rel new)) as Hlost.
    { intros Hin. apply (outcome_no_leak Ho p Hin Hnot). by left. }
    destruct Hp as [[]%Hpl|[= ->]]; auto. by apply (outcome_freed_mono Ho).
Qed.

(** C5: Over any sequence of [add_path] and [add_partial_path] calls on a relation, with newly
    allocated paths whose costs are proper numbers: both lists stay sorted by total cost; no
    address is freed twice or freed while on a list; every path offered is on its list or linked
    to one on the list by a chain of dominating paths (cheaper or fuzzily equal, at least as well
    sorted, no more parameterized, no less parallel-safe); only offered paths are listed; and
    every rejected or superseded path is freed, index paths alone excepted. *)
Theorem path_lists_reachable par ops :
  Forall (fun op => path_ok (op_path op)) ops -> NoDup (op_addresses ops) ->
  run_inv ops (run_ops false par ops).
Proof.
  induction ops as [|op ops IH] using rev_ind; intros Hok Hnd.
  { split; cbn; try (by intros p Hp%elem_of_nil). split; cbn; constructor. }
  rewrite run_ops_snoc. pose proof (run_ops_fresh false par ops op Hok Hnd) as Hf.
  apply Forall_app in Hok as [Hok _]. unfold op_addresses in *. rewrite fmap_app in Hnd.
  apply NoDup_app in Hnd as [Hnd _]. specialize (IH Hok Hnd).
  destruct op; [by apply run_inv_add_path|by apply run_inv_add_partial_path].
Qed.

(** ** Join-order mode *)
Definition full_paths (ops : list path_op) : list Path :=
  omap (fun op => match op with AddPath p => Some p | AddPartialPath _ => None end) ops.

Lemma add_path_athena rel new :
  pathlist (add_path true rel new) ≡ₚ new :: pathlist rel /\ freed (add_path true rel new) = freed rel.
Proof.
  assert (forall olds kept at_ fr, exists at',
    path_loop (path_verdict true) free_unless_index new kept olds at_ fr = (kept ++ olds, at', true, fr)) as Hl.
  { induction olds as [|o olds IH]; intros kept at_ fr; [exists at_; by rewrite app_nil_r|].
    cbn [path_loop]. change (path_verdict true new o) with KeepBoth. cbn [path_loop].
    edestruct (IH (kept ++ [o])) as [at' E]. exists at'. rewrite E. by rewrite <- app_assoc. }
  unfold add_path. destruct (Hl (pathlist rel) [] 0%nat (freed rel)) as [at' ->]. cbn. split; [|done].
  unfold list_insert_nth. by rewrite <- Permutation_middle, take_drop.
Qed.

(** C23: While join orders are being enumerated for saved plans ([enable_join_order_plans] with
    [save_join_order_plan_finished]), [add_path] prunes nothing: after any sequence of calls the
    path list is exactly the multiset of the full paths offered, still sorted by total cost, and
    [add_path] has freed no path. *)
Theorem athena_keeps_every_path par ops :
  Forall (fun op => path_ok (op_path op)) ops -> NoDup (op_addresses ops) ->
  let rel := run_ops true par ops in
  pathlist rel ≡ₚ full_paths ops /\ cost_sorted (pathlist rel) /\
  forall p, AddPath p ∈ ops -> path_ptr p ∉ freed rel.
Proof.
  intros Hok Hnd. destruct (run_ops_safe true par ops Hok Hnd) as [Hi _].
  assert (pathlist (run_ops true par ops) ≡ₚ full_paths ops) as Hp.
  { clear Hok Hnd Hi. induction ops as [|op ops IH] using rev_ind; [done|]. unfold full_paths.
    rewrite run_ops_snoc, omap_app. destruct op as [p|p]; cbn [run_op].
    - rewrite (proj1 (add_path_athena _ p)), IH. cbn. by rewrite <- Permutation_cons_append.
    - rewrite add_partial_path_pathlist, IH. cbn. by rewrite app_nil_r. }
  split; [done|]. split; [apply Hi|]. intros p Hin Hfr. pose proof (ri_memory _ Hi) as Hm.
  apply NoDup_app in Hm as (_ & Hm & _). apply (Hm _ Hfr), elem_of_app. left.
  apply list_elem_of_fmap_2. rewrite Hp. apply list_elem_of_omap. by exists (AddPath p).
Qed.
