(* ===== verification/PathPrecheck.v ===== *)
(** * The prechecks agree with the routines they anticipate

    [add_path_precheck] looks at a path before it is built, with lower bounds of its costs.
    It stops at the first old path that is not clearly cheaper, which is right because the list
    is sorted; and when it says no, [add_path] would have changed nothing. *)
From S2P Require Import Prelude Bitmapset BitmapsetSpec BitmapsetIter BitmapsetProps Float64 PathKeys PathKeysProps PathNode PathNodeProps PathListProps PathThms.
#[local] Open Scope Z_scope.

Section Precheck.
Variables (consider : bool) (scost tcost : double) (keys : list nat) (required_outer : bitmapset).

(** [old] makes a path with these bounds pointless. *)
Definition precheck_beats (old : Path) : bool :=
  dgt tcost (dmul (total_cost old) STD_FUZZ_FACTOR)
  && ((dgt scost (dmul (startup_cost old) STD_FUZZ_FACTOR) || negb consider)
      && match compare_pathkeys keys (effective_pathkeys old) with
         | PATHKEYS_EQUAL | PATHKEYS_BETTER2 => bms_equal required_outer (PATH_REQ_OUTER old)
         | _ => false
         end).

(** Costs that are not clearly cheaper stay so further down a sorted list. *)
Lemma clearly_cheaper_mono a b : path_ok a -> path_ok b -> cost_le a b ->
  dgt tcost (dmul (total_cost b) STD_FUZZ_FACTOR) = true -> dgt tcost (dmul (total_cost a) STD_FUZZ_FACTOR) = true.
Proof.
  intros Ha Hb Hab H. rewrite dgt_dlt in *. eapply dle_lt_trans; [|exact H].
  apply fuzz_mono; auto with pg.
Qed.

Lemma precheck_loop_spec paths : Forall path_ok paths -> cost_sorted paths ->
  precheck_loop consider scost tcost keys required_outer paths = negb (existsb precheck_beats paths).
Proof.
  induction paths as [|old paths IH]; intros Hok Hs; [done|]. cbn [precheck_loop existsb].
  apply Forall_cons in Hok as [Hold Hok]. inversion_clear Hs as [|? ? Hs' Hle].
  unfold precheck_beats at 1. destruct (dgt tcost (dmul (total_cost old) STD_FUZZ_FACTOR)) eqn:E; cbn [andb orb].
  - destruct (_ && _); [done|]. by apply IH.
  - destruct (existsb precheck_beats paths) eqn:Ex; [|done].
    apply existsb_exists in Ex as (q & Hq%list_elem_of_In & Hb). unfold precheck_beats in Hb.
    apply andb_true_iff in Hb as [Hb _]. rewrite Forall_forall in Hok, Hle.
    rewrite (clearly_cheaper_mono old q) in E; auto.
Qed.
End Precheck.

(** ** A rejected path changes nothing *)
Lemma outcome_unchanged verdict free new pre old post l fr fr' :
  outcome verdict free new (pre ++ old :: post) l fr fr' ->
  Forall (fun q => verdict new q <> RemoveOld) pre -> verdict new old = RejectNew ->
  l = pre ++ old :: post /\ fr' ≡ₚ free new ++ fr.
Proof.
  intros [[(Hno & _)|(pre' & old' & post' & E & Hno & Hv' & -> & ->)]] Hstay Hv.
  { unfold no_reject in Hno. rewrite Forall_app, Forall_cons in Hno. by destruct Hno as (_ & ? & _). }
  assert (pre' `prefix_of` pre) as Hpre.
  { apply app_eq_inv in E as [(k & -> & E)|(k & -> & E)]; [by exists k|].
    destruct k as [|o k]; [by rewrite app_nil_r|]. injection E as <- E.
    apply Forall_app in Hno as [_ [Hno _]%Forall_cons]. done. }
  destruct Hpre as [k ->]. apply Forall_app in Hstay as [Hstay _].
  assert (filter (stays verdict new) pre' = pre') as -> by (by apply filter_all, Forall_forall).
  assert (filter (goes verdict new) pre' = []) as ->.
  { apply filter_none. by apply Forall_forall. }
  by rewrite E.
Qed.

Lemma dearer_not_removed new q : dgt (total_cost new) (dmul (total_cost q) STD_FUZZ_FACTOR) = true ->
  path_verdict false new q <> RemoveOld.
Proof.
  intros E. unfold path_verdict, compare_path_costs_fuzzily. rewrite E.
  destruct (_ && _); [done|].
  destruct (compare_pathkeys _ _); try done; by destruct (old_dominates _ _ _).
Qed.

(** The path the caller goes on to build from the bounds it passed to the precheck: the
    parameterization is [NULL] exactly when no outer relation is required. *)
Record built_from (rel : RelOptInfo) (scost tcost : double) (keys : list nat) (required_outer : bitmapset)
    (new : Path) : Prop := {
  bf_ok : path_ok new;
  bf_parent : parent new = rel_parent rel;
  bf_startup : dle scost (startup_cost new) = true;
  bf_total : dle tcost (total_cost new) = true;
  bf_keys : pathkeys new = keys;
  bf_param : param_info new = if req_outer_set required_outer then Some required_outer else None
}.

(** Paths of one relation with the same parameterization have the same row count, and none of
    them is less parallel-safe than the new one. *)
Definition comparable (rel : RelOptInfo) (new : Path) : Prop :=
  forall old, old ∈ pathlist rel -> bms_val (PATH_REQ_OUTER old) = bms_val (PATH_REQ_OUTER new) ->
    dle (rows old) (rows new) = true /\ (parallel_safe new = true -> parallel_safe old = true).

Lemma built_from_req_outer rel scost tcost keys required_outer new :
  built_from rel scost tcost keys required_outer new ->
  PATH_REQ_OUTER new = required_outer /\
  effective_pathkeys new = (if req_outer_set required_outer then [] else keys) /\
  CONSIDER_PATH_STARTUP_COST new =
    (if req_outer_set required_outer then consider_param_startup (rel_parent rel)
     else consider_startup (rel_parent rel)).
Proof.
  intros [_ Hp _ _ Hk Hpi].
  unfold PATH_REQ_OUTER, effective_pathkeys, CONSIDER_PATH_STARTUP_COST. rewrite Hpi, Hp, Hk.
  by destruct required_outer.
Qed.

Lemma beaten_rejected rel scost tcost keys required_outer new old :
  built_from rel scost tcost keys required_outer new -> comparable rel new ->
  path_ok old -> old ∈ pathlist rel ->
  precheck_beats (CONSIDER_PATH_STARTUP_COST new) scost tcost (effective_pathkeys new) required_outer old = true ->
  path_verdict false new old = RejectNew.
Proof.
  intros Hb Hc Hold Hin Hbeat. destruct (built_from_req_outer _ _ _ _ _ _ Hb) as (Ho & _ & _).
  apply andb_true_iff in Hbeat as [Ht [Hs Hk]%andb_true_iff].
  assert (dgt (total_cost new) (dmul (total_cost old) STD_FUZZ_FACTOR) = true) as Ht'.
  { rewrite dgt_dlt in *. eapply dlt_le_trans; [exact Ht|apply Hb]. }
  assert (CONSIDER_PATH_STARTUP_COST new
          && dgt (startup_cost old) (dmul (startup_cost new) STD_FUZZ_FACTOR) = false) as Hs'.
  { destruct (CONSIDER_PATH_STARTUP_COST new); [|done]. rewrite orb_false_r in Hs. cbn [andb].
    apply dgt_false; [apply nonneg_not_nan, Hold|apply nonneg_fuzz; [done|apply Hb]|].
    apply fuzz_lt_le; [done|apply Hold|apply Hb|]. rewrite dgt_dlt in Hs.
    eapply dlt_le_trans; [exact Hs|apply Hb]. }
  pose proof (ok_outer _ (bf_ok _ _ _ _ _ _ Hb)) as Hwf. pose proof (ok_outer _ Hold) as Hwfo.
  assert (bms_equal (PATH_REQ_OUTER new) (PATH_REQ_OUTER old) = true) as He
    by (rewrite Ho; by destruct (compare_pathkeys _ _)).
  rewrite bms_equal_spec in He by done. apply Z.eqb_eq in He.
  destruct (Hc old Hin (eq_sym He)) as [Hr Hp].
  assert (bms_subset_compare (PATH_REQ_OUTER new) (PATH_REQ_OUTER old) = BMS_EQUAL) as Hsub.
  { rewrite bms_subset_compare_flags, !bms_nonempty_difference_spec, He, Z.ldiff_diag by done. done. }
  unfold path_verdict, compare_path_costs_fuzzily. rewrite Ht', Hs', Hsub.
  assert (old_dominates true new old = true) as Hd.
  { unfold old_dominates. cbn [andb]. apply andb_true_iff. split; [exact Hr|by apply bge_spec]. }
  rewrite Hd. by destruct (compare_pathkeys _ _).
Qed.

Lemma precheck_unchanged rel scost tcost keys required_outer new : rel_inv rel ->
  add_path_precheck rel scost tcost keys required_outer = false ->
  built_from rel scost tcost keys required_outer new -> comparable rel new ->
  pathlist (add_path false rel new) = pathlist rel /\
  freed (add_path false rel new) ≡ₚ free_unless_index new ++ freed rel.
Proof.
  intros Hi Hpre Hb Hc. destruct (built_from_req_outer _ _ _ _ _ _ Hb) as (_ & Hk & Hcs).
  pose proof (add_path_outcome false rel new) as Hout.
  unfold add_path_precheck in Hpre. cbv zeta in Hpre. rewrite <- Hk, <- Hcs in Hpre.
  destruct Hi as [[Hok _]%Forall_app Hs _ _]. rewrite precheck_loop_spec in Hpre by done.
  apply negb_false_iff, existsb_exists in Hpre as (old & Hin%list_elem_of_In & Hbeat).
  assert (path_ok old) as Hold by (rewrite Forall_forall in Hok; auto).
  pose proof (beaten_rejected _ _ _ _ _ _ _ Hb Hc Hold Hin Hbeat) as Hrej.
  apply list_elem_of_split in Hin as (pre & post & E). rewrite E in *.
  apply (outcome_unchanged _ _ _ _ _ _ _ _ _ Hout); [|done]. apply Forall_forall. intros q Hq.
  apply dearer_not_removed. apply andb_true_iff in Hbeat as [Ht _].
  apply Forall_app in Hok as [Hok _]. rewrite Forall_forall in Hok.
  rewrite dgt_dlt. eapply dlt_le_trans; [|apply Hb]. rewrite <- dgt_dlt.
  eapply clearly_cheaper_mono; [by apply Hok|exact Hold| |exact Ht].
  eapply StronglySorted_app_1_elem_of in Hs; [exact Hs|done|by left].
Qed.

(** C17: [add_path_precheck] scans the sorted path list only up to the first path that is not
    clearly cheaper, and yet finds a dominating path whenever the whole list has one.  When it
    answers false, [add_path] would leave the list as it is for any path built from those cost
    bounds, provided paths with equal parameterization have equal row counts and parallel safety
    as the source assumes. *)
Theorem add_path_precheck_sound rel scost tcost keys required_outer : rel_inv rel ->
  (add_path_precheck rel scost tcost keys required_outer = false <->
   exists old, old ∈ pathlist rel /\
     precheck_beats
       (if req_outer_set required_outer then consider_param_startup (rel_parent rel)
        else consider_startup (rel_parent rel))
       scost tcost (if req_outer_set required_outer then [] else keys) required_outer old = true) /\
  (add_path_precheck rel scost tcost keys required_outer = false -> forall new,
     built_from rel scost tcost keys required_outer new -> comparable rel new ->
     pathlist (add_path false rel new) = pathlist rel /\
     freed (add_path false rel new) ≡ₚ free_unless_index new ++ freed rel).
Proof.
  intros Hi. split; [|intros Hpre new; by apply precheck_unchanged].
  destruct Hi as [[Hok _]%Forall_app Hs _ _]. unfold add_path_precheck. cbv zeta.
  rewrite precheck_loop_spec, negb_false_iff, existsb_exists by done.
  by setoid_rewrite <- list_elem_of_In.
Qed.

(** ** Partial paths *)
Section Partial.
Variables (tcost : double) (keys : list nat).

Definition partial_passes (q : Path) : Prop :=
  dgt tcost (dmul (total_cost q) STD_FUZZ_FACTOR) = true ->
  compare_pathkeys keys (pathkeys q) = PATHKEYS_DIFFERENT \/ compare_pathkeys keys (pathkeys q) = PATHKEYS_BETTER1.
Definition partial_beaten (paths : list Path) : Prop :=
  exists pre old post, paths = pre ++ old :: post /\ Forall partial_passes pre /\
    dgt tcost (dmul (total_cost old) STD_FUZZ_FACTOR) = true /\
    (compare_pathkeys keys (pathkeys old) = PATHKEYS_EQUAL \/ compare_pathkeys keys (pathkeys old) = PATHKEYS_BETTER2).

Lemma partial_beaten_cons p paths : partial_passes p -> partial_beaten paths -> partial_beaten (p :: paths).
Proof.
  intros Hp (pre & old & post & -> & Hpre & ?). exists (p :: pre), old, post.
  split; [done|]. split; [by constructor|done].
Qed.

Lemma partial_precheck_false paths :
  partial_precheck_loop tcost keys paths = Some false -> partial_beaten paths.
Proof.
  induction paths as [|p paths IH]; [done|]. cbn [partial_precheck_loop].
  destruct (dgt tcost (dmul (total_cost p) STD_FUZZ_FACTOR)) eqn:E, (compare_pathkeys keys (pathkeys p)) eqn:Ek;
    cbn [andb]; try (intros _; exists [], p, paths; rewrite Ek; by auto);
    intros H; apply partial_beaten_cons; try (unfold partial_passes; rewrite E, Ek; by auto); apply IH;
    by destruct (dgt (total_cost p) (dmul tcost STD_FUZZ_FACTOR)).
Qed.
End Partial.

(** C33: When [add_partial_path_precheck] answers false, then either [add_partial_path] would reject
    any path with these pathkeys and at least this total cost, leaving the list of partial
    paths untouched and freeing the new path only, or the costs do not even pass
    [add_path_precheck]. *)
Theorem add_partial_path_precheck_sound rel tcost keys new : rel_inv rel ->
  add_partial_path_precheck rel tcost keys = false ->
  path_ok new -> dle tcost (total_cost new) = true -> pathkeys new = keys ->
  (partial_pathlist (add_partial_path rel new) = partial_pathlist rel /\
   freed (add_partial_path rel new) ≡ₚ path_ptr new :: freed rel) \/
  add_path_precheck rel tcost tcost keys None = false.
Proof.
  intros Hi Hpre Hn Ht <-. unfold add_partial_path_precheck in Hpre.
  destruct (partial_precheck_loop _ _ _) as [b|] eqn:Hl;
    [subst b; left|right; by destruct (add_path_precheck _ _ _ _ _)].
  apply partial_precheck_false in Hl as (pre & old & post & E & Hpass & Hold & Hk).
  pose proof (add_partial_path_outcome rel new) as Hout. rewrite E in *.
  destruct Hi as [[_ Hok]%Forall_app _ Hs _]. rewrite E in Hok, Hs.
  apply Forall_app in Hok as [Hok [Hokold _]%Forall_cons]. rewrite Forall_forall in Hok, Hpass.
  assert (forall q, dgt tcost (dmul (total_cost q) STD_FUZZ_FACTOR) = true ->
    dgt (total_cost new) (dmul (total_cost q) STD_FUZZ_FACTOR) = true) as Hup
    by (intros q Hq; rewrite dgt_dlt in *; by eapply dlt_le_trans).
  apply (outcome_unchanged _ _ _ _ _ _ _ _ _ Hout).
  - apply Forall_forall. intros q Hq.
    assert (dgt tcost (dmul (total_cost q) STD_FUZZ_FACTOR) = true) as Hc.
    { eapply clearly_cheaper_mono; [by apply Hok|exact Hokold| |exact Hold].
      eapply StronglySorted_app_1_elem_of in Hs; [exact Hs|done|by left]. }
    unfold partial_verdict. rewrite (Hup q Hc). by destruct (Hpass q Hq Hc) as [-> | ->].
  - unfold partial_verdict. rewrite (Hup old Hold). by destruct Hk as [-> | ->].
Qed.
