(* ===== verification/PathSelect.v ===== *)
(** * Choosing the cheapest paths: [set_cheapest] and the [get_cheapest_*] routines *)
From S2P Require Import Prelude Bitmapset BitmapsetSpec BitmapsetIter BitmapsetProps Float64 PathKeys PathKeysProps PathNode PathNodeProps PathListProps PathThms.
#[local] Open Scope Z_scope.

(** ** Exact cost comparison is a total preorder

    The order is defined on the cost fields themselves: first by one cost, then by the other. *)
Definition first_cost (c : CostSelector) (p : Path) : double :=
  match c with STARTUP_COST => startup_cost p | TOTAL_COST => total_cost p end.
Definition second_cost (c : CostSelector) (p : Path) : double :=
  match c with STARTUP_COST => total_cost p | TOTAL_COST => startup_cost p end.
Definition cheaper_eq (c : CostSelector) (a b : Path) : Prop :=
  dle (first_cost c a) (first_cost c b) = true /\
  (dle (first_cost c b) (first_cost c a) = true -> dle (second_cost c a) (second_cost c b) = true).

Lemma first_cost_nan c p : path_ok p -> is_nan (first_cost c p) = false.
Proof. intros [H1 H2 _ _]. destruct c; auto with pg. Qed.
Lemma second_cost_nan c p : path_ok p -> is_nan (second_cost c p) = false.
Proof. intros [H1 H2 _ _]. destruct c; auto with pg. Qed.
#[local] Hint Resolve first_cost_nan second_cost_nan : pg.

Lemma compare_path_costs_lex a b c :
  compare_path_costs a b c =
  if dlt (first_cost c a) (first_cost c b) then -1 else if dgt (first_cost c a) (first_cost c b) then 1
  else if dlt (second_cost c a) (second_cost c b) then -1
  else if dgt (second_cost c a) (second_cost c b) then 1 else 0.
Proof. by destruct c. Qed.

Lemma dle_either x y : is_nan x = false -> is_nan y = false -> dle x y = true \/ dle y x = true.
Proof.
  intros Hx Hy. destruct (dle x y) eqn:E; [by left|right]. apply dlt_le. by rewrite dle_total, E.
Qed.

Lemma compare_cheaper c a b : path_ok a -> path_ok b -> compare_path_costs a b c <= 0 <-> cheaper_eq c a b.
Proof.
  intros Ha Hb. unfold cheaper_eq.
  rewrite compare_path_costs_lex, !dgt_dlt, !(fun x y Hx Hy => dle_total y x Hy Hx) by auto with pg.
  pose proof (dle_either (first_cost c a) (first_cost c b)) as H1.
  pose proof (dle_either (second_cost c a) (second_cost c b)) as H2.
  specialize (H1 ltac:(auto with pg) ltac:(auto with pg)). specialize (H2 ltac:(auto with pg) ltac:(auto with pg)).
  destruct (dle (first_cost c a) (first_cost c b)), (dle (first_cost c b) (first_cost c a)),
    (dle (second_cost c a) (second_cost c b)), (dle (second_cost c b) (second_cost c a));
    cbn [negb]; intuition (first [congruence|lia]).
Qed.

Lemma cheaper_eq_refl c a : path_ok a -> cheaper_eq c a a.
Proof. intros Ha. split; auto using dle_refl with pg. Qed.

Lemma cheaper_eq_trans c a b p : cheaper_eq c a b -> cheaper_eq c b p -> cheaper_eq c a p.
Proof.
  intros [H1 H2] [H3 H4].
  split; [by eapply dle_trans|]. intros H. eapply dle_trans; [apply H2|apply H4]; by eapply dle_trans.
Qed.

(** Comparing the other way round negates the result, whatever the numbers are. *)
Lemma compare_path_costs_swap a b c : path_ok a -> path_ok b ->
  compare_path_costs b a c = - compare_path_costs a b c.
Proof.
  intros Ha Hb. rewrite !compare_path_costs_lex, !dgt_dlt.
  rewrite !(fun x y Hx Hy => dle_total y x Hy Hx) by auto with pg.
  destruct (dle_either (first_cost c a) (first_cost c b)) as [-> | ->]; auto with pg; cbn [negb].
  all: destruct (dle_either (second_cost c a) (second_cost c b)) as [-> | ->]; auto with pg; cbn [negb].
  all: repeat match goal with |- context [dle ?x ?y] => destruct (dle x y) end; done.
Qed.

(** ** [set_cheapest] *)
Definition better_sorted (p q : Path) : Prop := pathkeys q `prefix_of` pathkeys p /\ pathkeys p <> pathkeys q.
(** [a] costs no more than [p], and if they cost the same [p] is not strictly better sorted. *)
Definition preferred (c : CostSelector) (a p : Path) : Prop :=
  cheaper_eq c a p /\ (cheaper_eq c p a -> ~ better_sorted p a).

Definition unparam (p : Path) : Prop := param_info p = None.
#[export] Instance unparam_dec p : Decision (unparam p).
Proof. unfold unparam. destruct (param_info p); [right|left]; done. Defined.

Lemma better_unparam_cases c cur path : path_ok cur -> path_ok path ->
  (better_unparam cur path c = cur /\ preferred c cur path) \/
  (better_unparam cur path c = path /\ cheaper_eq c path cur /\
   (cheaper_eq c cur path -> better_sorted path cur)).
Proof.
  intros Hc Hp. unfold better_unparam, preferred. cbv zeta.
  rewrite <- !compare_cheaper, (compare_path_costs_swap cur path c) by done.
  pose proof (compare_pathkeys_cases (pathkeys cur) (pathkeys path)) as Hk.
  destruct (Z.gtb_spec (compare_path_costs cur path c) 0); cbn [orb]; [right; split; [done|lia]|].
  destruct (Z.eqb_spec (compare_path_costs cur path c) 0) as [E|]; cbn [andb]; [|left; split; [done|]; split; [lia|lia]].
  unfold better_sorted. destruct (compare_pathkeys (pathkeys cur) (pathkeys path)); destruct_and?; rewrite E.
  - left. split; [done|]. split; [lia|]. intros _ []. congruence.
  - left. split; [done|]. split; [lia|]. intros _ []. done.
  - right. split; [done|]. split; [lia|]. intros _. auto.
  - left. split; [done|]. split; [lia|]. intros _ []. done.
Qed.

Lemma better_unparam_best c cur path seen : path_ok cur -> path_ok path -> Forall path_ok seen ->
  Forall (preferred c cur) seen -> preferred c cur cur ->
  let r := better_unparam cur path c in
  (r = cur \/ r = path) /\ Forall (preferred c r) (seen ++ [path]).
Proof.
  intros Hc Hp Hok Hs Hcur. cbv zeta. rewrite Forall_app, Forall_singleton.
  destruct (better_unparam_cases c cur path Hc Hp) as [[-> ?]|(-> & Hle & Hsort)]; [auto|].
  split; [auto|]. split; [|split; [by apply cheaper_eq_refl|intros _ [_ ?]; done]].
  apply Forall_forall. intros p Hin. rewrite Forall_forall in Hok, Hs.
  destruct (Hs p Hin) as [H1 H2]. split; [by apply (cheaper_eq_trans _ _ cur)|].
  intros H3 [Hpre Hne]. assert (cheaper_eq c cur path) as H4 by (by apply (cheaper_eq_trans _ _ p)).
  destruct (Hsort H4) as [Hpre' Hne'].
  assert (cheaper_eq c p cur) as H5 by (by apply (cheaper_eq_trans _ _ path)).
  apply (H2 H5). split; [by etrans|]. intros Heq. apply Hne.
  apply (anti_symm (prefix)); [|done]. by rewrite Heq.
Qed.

(** Among parameterized paths only: no path needs strictly fewer outer relations, and none with
    the same ones is cheaper. *)
Definition least_param (b p : Path) : Prop :=
  bms_sub (PATH_REQ_OUTER p) (PATH_REQ_OUTER b) ->
  bms_sub (PATH_REQ_OUTER b) (PATH_REQ_OUTER p) /\ cheaper_eq TOTAL_COST b p.

Lemma better_param_best path best seen : path_ok path -> path_ok best -> Forall path_ok seen ->
  Forall (least_param best) seen -> 
  let r := better_param path best in
  (r = best \/ r = path) /\ Forall (least_param r) (seen ++ [path]).
Proof.
  intros Hp Hb Hok Hs. cbv zeta. rewrite Forall_app, Forall_singleton.
  pose proof (subset_compare_sub _ _ (ok_outer _ Hp) (ok_outer _ Hb)) as Hc.
  unfold better_param.
  assert (least_param path path) as Hself by (intros Hsub; split; [done|by apply cheaper_eq_refl]).
  assert (forall p q : Path, bms_sub (PATH_REQ_OUTER p) (PATH_REQ_OUTER q) -> forall r : Path,
    bms_sub (PATH_REQ_OUTER q) (PATH_REQ_OUTER r) -> bms_sub (PATH_REQ_OUTER p) (PATH_REQ_OUTER r)) as Htr
    by (intros p q H1 r H2 x Hx; auto).
  rewrite Forall_forall in Hok, Hs.
  destruct (bms_subset_compare (PATH_REQ_OUTER path) (PATH_REQ_OUTER best)); destruct Hc as [H1 H2].
  - destruct (Z.ltb_spec (compare_path_costs path best TOTAL_COST) 0) as [Hlt|Hge].
    + split; [auto|]. split; [|done]. apply Forall_forall. intros p Hin Hsub.
      destruct (Hs p Hin) as [H3 H4]; [by eapply Htr|]. split; [by eapply Htr|].
      apply (cheaper_eq_trans _ _ best); auto. apply compare_cheaper; auto. lia.
    + split; [auto|]. split; [by apply Forall_forall|]. intros _. split; [done|].
      apply compare_cheaper; auto. rewrite compare_path_costs_swap by done. lia.
  - split; [auto|]. split; [|done]. apply Forall_forall. intros p Hin Hsub.
    destruct (Hs p Hin) as [H3 H4]; [by eapply Htr|]. destruct H2. by eapply Htr.
  - split; [auto|]. split; [by apply Forall_forall|]. intros ?. done.
  - split; [auto|]. split; [by apply Forall_forall|]. intros ?. done.
Qed.

(** The state of the loop after the paths [seen]. *)
Record cheapest_inv (seen : list Path) (st : Cheapest) : Prop := {
  ci_params : c_params st = filter (fun p => ~ unparam p) seen;
  ci_best : match c_startup st, c_total st with
            | Some s, Some t =>
                s ∈ seen /\ t ∈ seen /\ unparam s /\ unparam t /\
                Forall (preferred STARTUP_COST s) (filter unparam seen) /\
                Forall (preferred TOTAL_COST t) (filter unparam seen)
            | None, None =>
                Forall (fun p => ~ unparam p) seen /\
                match c_best_param st with
                | None => seen = []
                | Some b => b ∈ seen /\ Forall (least_param b) seen
                end
            | _, _ => False
            end
}.

Lemma filter_snoc {A} (P : A -> Prop) `{!forall x, Decision (P x)} l x :
  filter P (l ++ [x]) = if decide (P x) then filter P l ++ [x] else filter P l.
Proof. rewrite filter_app, filter_cons, filter_nil. case_decide; [done|by rewrite app_nil_r]. Qed.

Lemma cheapest_step_param seen st path ppi : Forall path_ok seen -> path_ok path -> cheapest_inv seen st ->
  param_info path = Some ppi -> cheapest_inv (seen ++ [path]) (cheapest_step st path).
Proof.
  intros Hok Hp [Hpar Hb] Epi. assert (~ unparam path) as Hnu by (unfold unparam; congruence).
  unfold cheapest_step. rewrite Epi.
  destruct (c_startup st) as [s|] eqn:Es, (c_total st) as [t|] eqn:Et; try done; (split; cbn [c_params c_startup c_total c_best_param];
    [by rewrite Hpar, filter_snoc, decide_True|]).
  - rewrite !filter_snoc, !decide_False, !elem_of_app by done. destruct Hb as (?&?&?&?&?&?). auto 10.
  - destruct Hb as [Hall Hb]. split; [rewrite Forall_app, Forall_singleton; auto|].
    destruct (c_best_param st) as [b|].
    + destruct Hb as [Hin Hl]. assert (path_ok b) as Hbok by (rewrite Forall_forall in Hok; auto).
      destruct (better_param_best path b seen Hp Hbok Hok Hl) as [Hr Hbest]. split; [|done].
      rewrite elem_of_app, list_elem_of_singleton. destruct Hr as [-> | ->]; auto.
    + subst seen. cbn. rewrite Forall_singleton. split; [by left|]. intros ?. split; [done|]. by apply cheaper_eq_refl.
Qed.

Lemma preferred_self c p : path_ok p -> preferred c p p.
Proof. intros Hp. split; [by apply cheaper_eq_refl|]. intros _ [_ ?]. done. Qed.

Lemma cheapest_step_unparam seen st path : Forall path_ok seen -> path_ok path -> cheapest_inv seen st ->
  param_info path = None -> cheapest_inv (seen ++ [path]) (cheapest_step st path).
Proof.
  intros Hok Hp [Hpar Hb] Epi. unfold cheapest_step. rewrite Epi.
  assert (Forall path_ok (filter unparam seen)) as Hoku.
  { rewrite Forall_forall in *. intros p [_ ?]%list_elem_of_filter. auto. }
  destruct (c_startup st) as [s|] eqn:Es, (c_total st) as [t|] eqn:Et; try done;
    (split; cbn [c_params c_startup c_total c_best_param];
      [by rewrite Hpar, filter_snoc, decide_False by (intros H; by apply H)|]);
    rewrite !filter_snoc, !decide_True, !elem_of_app, !list_elem_of_singleton by done.
  - destruct Hb as (Hs & Ht & Hus & Hut & Hbs & Hbt).
    assert (path_ok s /\ path_ok t) as [? ?] by (rewrite Forall_forall in Hok; auto).
    destruct (better_unparam_best STARTUP_COST s path (filter unparam seen)) as [Hrs Hps]; auto using preferred_self.
    destruct (better_unparam_best TOTAL_COST t path (filter unparam seen)) as [Hrt Hpt]; auto using preferred_self.
    destruct Hrs as [Ers|Ers], Hrt as [Ert|Ert]; rewrite Ers, Ert in *; auto 10.
  - destruct Hb as [Hall _]. rewrite (filter_none unparam seen) by (by apply Forall_forall).
    cbn [app]. rewrite !Forall_singleton. auto 10 using preferred_self.
Qed.

Lemma cheapest_fold paths : Forall path_ok paths ->
  cheapest_inv paths (fold_left cheapest_step paths
    {| c_startup := None; c_total := None; c_best_param := None; c_params := [] |}).
Proof.
  induction paths as [|p paths IH] using rev_ind; intros Hok; [by split|].
  rewrite fold_left_app. cbn [fold_left]. apply Forall_app in Hok as [Hok [Hp _]%Forall_cons].
  destruct (param_info p) eqn:E;
    [eapply cheapest_step_param|apply cheapest_step_unparam]; eauto.
Qed.

(** C22: [set_cheapest] fails exactly on an empty path list.  Otherwise, if the relation has an
    unparameterized path, the cheapest startup and total paths are unparameterized paths of the
    list whose startup cost (total cost) is no greater than that of any other, and with equal ones neither is the
    other cost ([cheaper_eq], on the cost fields); ties are broken towards the better sort order; and
    the parameterized list is the cheapest total path followed by all parameterized paths.  If
    every path is parameterized, there is no cheapest startup path, and the cheapest total path is
    one for which no other path needs strictly fewer outer relations, nor the same at less cost. *)
Theorem set_cheapest_correct rel : Forall path_ok (pathlist rel) ->
  match set_cheapest rel with
  | Error m => m = no_plan_msg /\ pathlist rel = []
  | NoFuel => False
  | Ok rel' =>
      pathlist rel <> [] /\ pathlist rel' = pathlist rel /\ partial_pathlist rel' = partial_pathlist rel /\
      cheapest_unique_path rel' = None /\ freed rel' = freed rel /\
      ((exists s t, cheapest_startup_path rel' = Some s /\ cheapest_total_path rel' = Some t /\
          s ∈ pathlist rel /\ t ∈ pathlist rel /\ unparam s /\ unparam t /\
          (forall p, p ∈ pathlist rel -> unparam p -> preferred STARTUP_COST s p /\ preferred TOTAL_COST t p) /\
          cheapest_parameterized_paths rel' = t :: filter (fun p => ~ unparam p) (pathlist rel)) \/
       (exists b, cheapest_startup_path rel' = None /\ cheapest_total_path rel' = Some b /\
          b ∈ pathlist rel /\ (forall p, p ∈ pathlist rel -> ~ unparam p /\ least_param b p) /\
          cheapest_parameterized_paths rel' = pathlist rel))
  end.
Proof.
  intros Hok. pose proof (cheapest_fold (pathlist rel) Hok) as [Hpar Hb]. unfold set_cheapest.
  destruct (pathlist rel) as [|p0 paths] eqn:E; [done|]. cbv zeta. cbn [pathlist].
  set (st := fold_left cheapest_step (p0 :: paths) _) in *. clearbody st.
  split; [done|]. do 4 (split; [done|]). cbn [cheapest_startup_path cheapest_total_path cheapest_parameterized_paths].
  destruct (c_startup st) as [s|], (c_total st) as [t|]; try done.
  - left. exists s, t. destruct Hb as (Hs & Ht & Hus & Hut & Hps & Hpt). do 6 (split; [done|]).
    split; [|by rewrite Hpar]. intros p Hp Hu. rewrite Forall_forall in Hps, Hpt.
    split; [apply Hps|apply Hpt]; by apply list_elem_of_filter.
  - right. destruct Hb as [Hall Hb]. destruct (c_best_param st) as [b|]; [|done].
    exists b. rewrite Forall_forall in Hall. destruct Hb as [Hin Hl]. rewrite Forall_forall in Hl.
    do 3 (split; [done|]). split; [auto|]. rewrite Hpar. by apply filter_all.
Qed.

(** ** Selecting a path by sort order and parameterization *)
Lemma bms_is_subset_sub a b : bms_wf a -> bms_wf b -> bms_is_subset a b = true <-> bms_sub a b.
Proof.
  intros Ha Hb. rewrite <- nonempty_difference_sub, bms_is_subset_spec, bms_nonempty_difference_spec by done.
  by destruct (_ =? 0).
Qed.
Section Select.
Variables (keys : list nat) (required_outer : bitmapset).

(** The loop common to both searches, over an arbitrary cost comparison and an extra filter. *)
Fixpoint choose_loop (cmp : Path -> Path -> Z) (ok : Path -> bool) (paths : list Path) (m : option Path) : option Path :=
  match paths with
  | [] => m
  | path :: rest =>
      choose_loop cmp ok rest
        (if match m with Some q => cmp q path <=? 0 | None => false end then m
         else if ok path then Some path else m)
  end.

Definition select_by (cmp : Path -> Path -> Z) (ok : Path -> bool) (paths : list Path) (m : option Path) : Prop :=
  match m with
  | None => forall p, p ∈ paths -> ok p = false
  | Some q => q ∈ paths /\ ok q = true /\ forall p, p ∈ paths -> ok p = true -> cmp q p <= 0
  end.

Lemma choose_loop_spec (Q : Path -> Prop) cmp ok :
  (forall a, Q a -> cmp a a <= 0) ->
  (forall a b, Q a -> Q b -> 0 < cmp a b -> cmp b a <= 0) ->
  (forall a b p, Q a -> Q b -> Q p -> cmp a b <= 0 -> cmp b p <= 0 -> cmp a p <= 0) ->
  forall rest seen m, Forall Q (seen ++ rest) -> select_by cmp ok seen m ->
    select_by cmp ok (seen ++ rest) (choose_loop cmp ok rest m).
Proof.
  intros Hr Hs Ht. induction rest as [|p rest IH]; intros seen m HQ Hm; [by rewrite app_nil_r|].
  cbn [choose_loop]. replace (seen ++ p :: rest) with ((seen ++ [p]) ++ rest) in * by (by rewrite <- app_assoc).
  apply IH; [done|]. rewrite !Forall_app, Forall_singleton in HQ. destruct HQ as [[HQ HQp] _].
  rewrite Forall_forall in HQ. destruct m as [q|]; cbn [select_by] in *.
  - destruct Hm as (Hin & Hok & Hmin).
    destruct (Z.leb_spec (cmp q p) 0) as [Hle|Hgt]; [|destruct (ok p) eqn:Ep]; cbn [select_by];
      rewrite elem_of_app, ?list_elem_of_singleton; (split; [auto|]); (split; [done|]);
      intros p' [Hp'|E%list_elem_of_singleton]%elem_of_app Hok'; auto; try subst p'; try congruence; auto.
    eapply (Ht _ q); eauto.
  - destruct (ok p) eqn:Ep; cbn [select_by].
    + rewrite elem_of_app, list_elem_of_singleton. split; [auto|]. split; [done|].
      intros p' [Hp'|E%list_elem_of_singleton]%elem_of_app Hok'; [by rewrite Hm in Hok'|subst p'; auto].
    + intros p' [Hp'|E%list_elem_of_singleton]%elem_of_app; [auto|by subst].
Qed.

(** The test of the loops. *)
Definition eligible (require_parallel_safe : bool) (p : Path) : bool :=
  path_satisfies keys required_outer p && (negb require_parallel_safe || parallel_safe p).

(** A matching path none of the matching ones is below, or none if nothing matches. *)
Definition select_spec (le : Path -> Path -> Prop) (matches : Path -> Prop) (paths : list Path) (m : option Path) : Prop :=
  match m with
  | None => forall p, p ∈ paths -> ~ matches p
  | Some q => q ∈ paths /\ matches q /\ forall p, p ∈ paths -> matches p -> le q p
  end.
(** Sorted as required, parameterized by the given outer relations only, and parallel safe if required. *)
Definition suitable (require_parallel_safe : bool) (p : Path) : Prop :=
  keys `prefix_of` pathkeys p /\ bms_sub (PATH_REQ_OUTER p) required_outer /\
  (require_parallel_safe = true -> parallel_safe p = true).

Lemma select_by_spec (Q : Path -> Prop) cmp ok le matches paths m : Forall Q paths ->
  (forall p, Q p -> ok p = true <-> matches p) -> (forall a b, Q a -> Q b -> cmp a b <= 0 -> le a b) ->
  select_by cmp ok paths m -> select_spec le matches paths m.
Proof.
  rewrite Forall_forall. intros HQ Hm Hle. destruct m as [q|]; cbn.
  - intros (Hq & Hok & Hmin). split_and!; [done|by apply Hm; auto|]. intros p Hp Hp'. apply Hle; auto. apply Hmin; [done|]. by apply Hm; auto.
  - intros H p Hp Hp'. apply Hm in Hp'; auto. by rewrite H in Hp'.
Qed.
Lemma eligible_suitable rps p : bms_wf required_outer -> path_ok p -> eligible rps p = true <-> suitable rps p.
Proof.
  intros Ho Hp. unfold eligible, path_satisfies, suitable.
  rewrite !andb_true_iff, pathkeys_contained_in_prefix, bms_is_subset_sub by auto with pg.
  destruct rps; cbn; [tauto|]. intuition discriminate.
Qed.

Lemma cheapest_for_pathkeys_select c rps paths : forall m,
  cheapest_for_pathkeys_loop paths keys required_outer c rps m =
  choose_loop (fun a b => compare_path_costs a b c) (eligible rps) paths m.
Proof.
  induction paths as [|p paths IH]; intros m; [done|]. cbn [cheapest_for_pathkeys_loop choose_loop].
  cbv zeta. rewrite !IH. unfold eligible.
  destruct (match m with Some _ => _ | None => _ end); [done|].
  destruct rps, (parallel_safe p), (path_satisfies keys required_outer p); done.
Qed.

Definition frac_cost (fraction : double) (p : Path) : double :=
  dadd (startup_cost p) (dmul fraction (dsub (total_cost p) (startup_cost p))).

Lemma cheapest_fractional_select f paths : forall m,
  cheapest_fractional_loop paths keys required_outer f m =
  choose_loop (fun a b => compare_fractional_path_costs a b f) (path_satisfies keys required_outer) paths m.
Proof.
  induction paths as [|p paths IH]; intros m; [done|]. cbn [cheapest_fractional_loop choose_loop].
  cbv zeta. rewrite !IH. by destruct (match m with Some _ => _ | None => _ end).
Qed.
End Select.

Lemma compare_path_costs_select c :
  (forall a, path_ok a -> compare_path_costs a a c <= 0) /\
  (forall a b, path_ok a -> path_ok b -> 0 < compare_path_costs a b c -> compare_path_costs b a c <= 0) /\
  (forall a b p, path_ok a -> path_ok b -> path_ok p ->
     compare_path_costs a b c <= 0 -> compare_path_costs b p c <= 0 -> compare_path_costs a p c <= 0).
Proof.
  split; [|split].
  - intros a Ha. apply compare_cheaper; auto using cheaper_eq_refl.
  - intros a b Ha Hb H. rewrite compare_path_costs_swap by done. lia.
  - intros a b p Ha Hb Hp. rewrite !compare_cheaper by done. apply cheaper_eq_trans.
Qed.

(** A path whose fractional cost is a number, as it is for finite costs. *)
Definition frac_ok (f : double) (p : Path) : Prop := path_ok p /\ is_nan (frac_cost f p) = false.

(** For a fraction between 0 and 1 by the cost of fetching that fraction, otherwise by total cost. *)
Definition frac_le (f : double) (a b : Path) : Prop :=
  if dle f dzero || dge f (dofZ 1) then cheaper_eq TOTAL_COST a b
  else dle (frac_cost f a) (frac_cost f b) = true.

Definition three_way (x y : double) : Z := if dlt x y then -1 else if dgt x y then 1 else 0.
Lemma three_way_le x y : is_nan x = false -> is_nan y = false -> three_way x y <= 0 <-> dle x y = true.
Proof.
  intros Hx Hy. unfold three_way. rewrite dgt_dlt, !(fun x y Hx Hy => dle_total y x Hy Hx) by done.
  destruct (dle_either x y Hx Hy) as [-> | ->]; [destruct (dle y x)|destruct (dle x y)]; cbn [negb];
    intuition (first [congruence|lia]).
Qed.

Lemma compare_fractional_le f a b : frac_ok f a -> frac_ok f b ->
  compare_fractional_path_costs a b f <= 0 <-> frac_le f a b.
Proof.
  intros [Ha Hfa] [Hb Hfb]. unfold frac_le.
  change (compare_fractional_path_costs a b f) with (if dle f dzero || dge f (dofZ 1) then compare_path_costs a b TOTAL_COST
    else three_way (frac_cost f a) (frac_cost f b)).
  destruct (_ || _); [by apply compare_cheaper|by apply three_way_le].
Qed.
Lemma compare_fractional_select f :
  (forall a, frac_ok f a -> compare_fractional_path_costs a a f <= 0) /\
  (forall a b, frac_ok f a -> frac_ok f b -> 0 < compare_fractional_path_costs a b f ->
     compare_fractional_path_costs b a f <= 0) /\
  (forall a b p, frac_ok f a -> frac_ok f b -> frac_ok f p -> compare_fractional_path_costs a b f <= 0 ->
     compare_fractional_path_costs b p f <= 0 -> compare_fractional_path_costs a p f <= 0).
Proof.
  assert (forall a b, compare_fractional_path_costs a b f =
    if dle f dzero || dge f (dofZ 1) then compare_path_costs a b TOTAL_COST
    else three_way (frac_cost f a) (frac_cost f b)) as Heq by done.
  setoid_rewrite Heq. clear Heq. destruct (_ || _).
  { destruct (compare_path_costs_select TOTAL_COST) as (H1 & H2 & H3).
    split; [intros a [? _]; auto|]. split; [intros a b [? _] [? _]; auto|].
    intros a b p [? _] [? _] [? _]. by apply H3. }
  split; [|split].
  - intros a [Ha Hf]. apply three_way_le; auto using dle_refl.
  - intros a b [_ Ha] [_ Hb] Hgt. apply three_way_le; auto.
    destruct (dle_either _ _ Ha Hb) as [H|]; [|done]. apply three_way_le in H; auto. lia.
  - intros a b p [_ Ha] [_ Hb] [_ Hp]. rewrite !three_way_le by done. apply dle_trans.
Qed.

Lemma parallel_inner_spec paths : cost_sorted paths ->
  match get_cheapest_parallel_safe_total_inner paths with
  | None => forall p, p ∈ paths -> parallel_safe p = true -> PATH_REQ_OUTER p <> None
  | Some q => q ∈ paths /\ parallel_safe q = true /\ PATH_REQ_OUTER q = None /\
      forall p, p ∈ paths -> parallel_safe p = true -> PATH_REQ_OUTER p = None -> p = q \/ cost_le q p
  end.
Proof.
  induction paths as [|p paths IH]; intros Hs; cbn [get_cheapest_parallel_safe_total_inner].
  { by intros p Hp%elem_of_nil. }
  inversion_clear Hs as [|? ? Hs' Hle]. rewrite Forall_forall in Hle. specialize (IH Hs').
  destruct (parallel_safe p) eqn:Es, (PATH_REQ_OUTER p) eqn:Eo; cbn [andb].
  2: { split; [by left|]. do 2 (split; [done|]). intros q [->|Hq]%elem_of_cons _ _; auto. }
  all: destruct (get_cheapest_parallel_safe_total_inner paths) as [q|];
    [destruct IH as (? & ? & ? & Hmin); split; [by right|]; do 2 (split; [done|])|];
    intros q' [->|Hq]%elem_of_cons ? ?; simplify_eq; try congruence; eauto.
  all: by eapply IH.
Qed.

(** C38: The path searches return a cheapest match.  [get_cheapest_path_for_pathkeys] and
    [get_cheapest_fractional_path_for_pathkeys] return no path exactly when no path of the list is
    sorted as required, needs outer relations only from the given set and (if required) is
    parallel-safe; otherwise they return such a path, and none of the matching paths is cheaper: by startup cost and then
    total cost, or by total cost and then startup cost, as asked for; and by the cost of fetching the given fraction of the
    rows, if it is between 0 and 1, and else by total cost.  On a list sorted by total cost,
    [get_cheapest_parallel_safe_total_inner] returns the first, hence cheapest, parallel-safe
    unparameterized path. *)
Theorem path_search_correct keys required_outer c rps f paths : Forall (frac_ok f) paths -> bms_wf required_outer ->
  select_spec (cheaper_eq c) (suitable keys required_outer rps) paths
    (get_cheapest_path_for_pathkeys paths keys required_outer c rps) /\
  select_spec (frac_le f) (suitable keys required_outer false) paths
    (get_cheapest_fractional_path_for_pathkeys paths keys required_outer f) /\
  (cost_sorted paths ->
   match get_cheapest_parallel_safe_total_inner paths with
   | None => forall p, p ∈ paths -> parallel_safe p = true -> PATH_REQ_OUTER p <> None
   | Some q => q ∈ paths /\ parallel_safe q = true /\ PATH_REQ_OUTER q = None /\
       forall p, p ∈ paths -> parallel_safe p = true -> PATH_REQ_OUTER p = None -> p = q \/ cost_le q p
   end).
Proof.
  intros Hf Ho. assert (Forall path_ok paths) as Hok by (eapply Forall_impl; [exact Hf|]; by intros p []).
  split; [|split; [|apply parallel_inner_spec]].
  - unfold get_cheapest_path_for_pathkeys. rewrite cheapest_for_pathkeys_select.
    destruct (compare_path_costs_select c) as (H1 & H2 & H3).
    eapply select_by_spec; [exact Hok|intros p Hp; by apply eligible_suitable|by intros a b Ha Hb; apply compare_cheaper|].
    apply (choose_loop_spec path_ok _ _ H1 H2 H3 paths []); [done|by intros p Hp%elem_of_nil].
  - unfold get_cheapest_fractional_path_for_pathkeys. rewrite cheapest_fractional_select.
    destruct (compare_fractional_select f) as (H1 & H2 & H3).
    eapply (select_by_spec (frac_ok f) _ (path_satisfies keys required_outer)); [exact Hf| |by intros a b Ha Hb; apply compare_fractional_le|].
    + intros p [Hp _]. rewrite <- eligible_suitable by done. unfold eligible. by rewrite andb_true_r.
    + apply (choose_loop_spec (frac_ok f) _ _ H1 H2 H3 paths []); [done|by intros p Hp%elem_of_nil].
Qed.
