(* ===== verification/PathDemo.v ===== *)
(** * Path lists at work: a relation with three full paths and two partial ones *)
From S2P Require Import Prelude Bitmapset BitmapsetSpec BitmapsetIter BitmapsetProps Float64 PathKeys PathKeysProps PathNode PathNodeProps PathListProps PathThms PathPrecheck PathSelect.
#[local] Open Scope Z_scope.

Module PathDemo.
Definition par : ParentRel := {| consider_startup := true; consider_param_startup := false |}.
Definition mk (ptr : nat) (startup total : Z) (keys : list nat) (outer : option bitmapset) : Path :=
  {| path_ptr := ptr; is_IndexPath := false; parent := par; param_info := outer; parallel_safe := true;
     rows := dofZ 10; startup_cost := dofZ startup; total_cost := dofZ total; pathkeys := keys |}.
Definition seqscan := mk 1 0 100 [] None.
Definition sorted := mk 2 120 125 [7%nat] None.
Definition dear := mk 3 0 200 [] None.
Definition inner := mk 4 0 5 [] (Some (Some [6])).
Definition partial1 := mk 5 0 40 [] None.
Definition partial2 := mk 6 0 90 [] None.
Definition ops : list path_op :=
  [AddPath dear; AddPath sorted; AddPath seqscan; AddPath inner; AddPartialPath partial2; AddPartialPath partial1].

Ltac solve_ok := repeat constructor; cbv; congruence.
Lemma ops_ok : Forall (fun op => path_ok (op_path op)) ops.
Proof. solve_ok. Qed.
Lemma ops_fresh : NoDup (op_addresses ops).
Proof. apply (bool_decide_unpack _). vm_compute. reflexivity. Qed.

Definition rel1 : RelOptInfo := Eval vm_compute in run_ops false par ops.
Lemma rel1_paths : pathlist rel1 = [inner; seqscan; sorted] /\ partial_pathlist rel1 = [partial1] /\
  freed rel1 = [6%nat; 3%nat].
Proof. vm_compute. auto. Qed.
Lemma rel1_inv : rel_inv rel1.
Proof. exact (proj1 (run_ops_safe false par ops ops_ok ops_fresh)). Qed.

Lemma path_lists_reachable_witness : pathlist (run_ops false par ops) = [inner; seqscan; sorted] /\
  run_inv ops (run_ops false par ops).
Proof. split; [vm_compute; reflexivity|exact (path_lists_reachable par ops ops_ok ops_fresh)]. Defined.

Lemma athena_keeps_every_path_witness : pathlist (run_ops true par ops) = [inner; seqscan; sorted; dear] /\
  pathlist (run_ops true par ops) ≡ₚ full_paths ops.
Proof. split; [vm_compute; reflexivity|exact (proj1 (athena_keeps_every_path par ops ops_ok ops_fresh))]. Defined.

(** A plain path at twice the cost of the sequential scan. *)
Lemma dear_built : built_from rel1 (dofZ 90) (dofZ 200) [] None (mk 7 90 200 [] None).
Proof. split; [solve_ok|..]; vm_compute; reflexivity. Qed.
Lemma dear_comparable : comparable rel1 (mk 7 90 200 [] None).
Proof.
  intros old Hin _. assert (Forall (fun p => dle (rows p) (dofZ 10) = true /\ parallel_safe p = true) (pathlist rel1))
    as H by (repeat constructor). rewrite Forall_forall in H. destruct (H old Hin). auto.
Qed.
Lemma add_path_precheck_sound_witness :
  add_path_precheck rel1 (dofZ 90) (dofZ 200) [] None = false /\
  pathlist (add_path false rel1 (mk 7 90 200 [] None)) = pathlist rel1.
Proof.
  split; [vm_compute; reflexivity|].
  exact (proj1 (proj2 (add_path_precheck_sound rel1 (dofZ 90) (dofZ 200) [] None rel1_inv) eq_refl _ dear_built dear_comparable)).
Defined.

Lemma add_partial_path_precheck_sound_witness :
  add_partial_path_precheck rel1 (dofZ 50) [] = false /\
  ((partial_pathlist (add_partial_path rel1 (mk 7 0 50 [] None)) = partial_pathlist rel1 /\
    freed (add_partial_path rel1 (mk 7 0 50 [] None)) ≡ₚ 7%nat :: freed rel1) \/
   add_path_precheck rel1 (dofZ 50) (dofZ 50) [] None = false).
Proof.
  split; [vm_compute; reflexivity|].
  refine (add_partial_path_precheck_sound rel1 (dofZ 50) [] (mk 7 0 50 [] None) rel1_inv eq_refl _ eq_refl eq_refl).
  solve_ok.
Defined.

Lemma rel1_ok : Forall path_ok (pathlist rel1).
Proof. solve_ok. Qed.
Lemma set_cheapest_correct_witness :
  match set_cheapest rel1 with
  | Ok rel' => cheapest_total_path rel' = Some seqscan /\ pathlist rel1 <> []
  | _ => False
  end.
Proof.
  pose proof (set_cheapest_correct rel1 rel1_ok) as H. destruct (set_cheapest rel1) as [rel'| |] eqn:E;
    [|vm_compute in E; discriminate E..].
  split; [vm_compute in E; injection E as <-; reflexivity|exact (proj1 H)].
Defined.

Lemma path_search_correct_witness :
  get_cheapest_path_for_pathkeys (pathlist rel1) [7%nat] None TOTAL_COST true = Some sorted /\
  select_spec (cheaper_eq TOTAL_COST) (suitable [7%nat] None true) (pathlist rel1) (Some sorted).
Proof.
  split; [vm_compute; reflexivity|].
  refine (proj1 (path_search_correct [7%nat] None TOTAL_COST true dzero (pathlist rel1) _ I)).
  solve_ok.
Defined.
End PathDemo.
