(* ===== verification/JoinOrder.v ===== *)
(** * Join orders as text ([src/backend/optimizer/jop/jop_extension.c])

    [string_builder] is a growing byte buffer; [catch_join_order] prints the join skeleton of
    a path tree with it, and [save_join_order_plans] writes one line per candidate path.

    A byte of freshly allocated memory is [None] until it is written; reading it, or reading or
    writing past the end of a buffer, is an [Error] of the model. *)
From S2P Require Import Prelude.
From Stdlib Require Import Ascii.
#[local] Open Scope Z_scope.

Definition bytes := list (option ascii).
Definition NUL : ascii := "000"%char.

Definition palloc (size : Z) : result bytes :=
  if size <=? MaxAllocSize then Ok (replicate (Z.to_nat size) None) else Error alloc_msg.

(** [memcpy(dst + off, src, length src)] *)
Definition store (dst : bytes) (off : Z) (src : bytes) : result bytes :=
  if (0 <=? off) && (off + Z.of_nat (length src) <=? Z.of_nat (length dst))
  then Ok (take (Z.to_nat off) dst ++ src ++ drop (Z.to_nat off + length src) dst)
  else Error bounds_msg.
(** The first [n] bytes at [src], for [memcpy] to read. *)
Definition fetch (src : bytes) (n : Z) : result bytes :=
  if n <=? Z.of_nat (length src) then Ok (take (Z.to_nat n) src) else Error bounds_msg.

(** ** [string_builder] *)
Record string_builder := { data : bytes; len : Z; cap : Z }.

Definition string_builder_init : result string_builder :=
  data ← palloc 10;
  data ← store data 0 [Some NUL];
  Ok {| data := data; len := 0; cap := 10 |}.

(** [while (new_cap < new_len + 1) new_cap *= 2], on [size_t]. *)
Fixpoint grow_cap (fuel : nat) (new_cap need : Z) : result Z :=
  if new_cap <? need then
    match fuel with
    | O => NoFuel
    | S fuel => grow_cap fuel (wrap64 (new_cap * 2)) need
    end
  else Ok new_cap.
(** A [size_t] cannot be doubled more often without reaching the need or wrapping to zero. *)
Definition cap_fuel : nat := 64.

(** [append] is a C string: its bytes without the terminating NUL. *)
Definition string_builder_append (self : string_builder) (append : list ascii) : result string_builder :=
  let append_len := Z.of_nat (length append) in
  let new_len := len self + append_len in
  new_cap ← grow_cap cap_fuel (cap self) (new_len + 1);
  '(d, c) ← (if new_cap =? cap self then Ok (data self, cap self)
             else new_data ← palloc new_cap;
                  old ← fetch (data self) (len self);
                  new_data ← store new_data 0 old;
                  Ok (new_data, new_cap));
  d ← store d (len self) ((Some <$> append) ++ [Some NUL]);
  Ok {| data := d; len := new_len; cap := c |}.

(** The bytes up to the first NUL, as the receiver of a C string sees them. *)
Fixpoint c_string (b : bytes) : result (list ascii) :=
  match b with
  | [] | None :: _ => Error bounds_msg
  | Some c :: b => if ascii_dec c NUL then Ok [] else s ← c_string b; Ok (c :: s)
  end.

(** The copy that [catch_join_order] returns. *)
Definition string_builder_result (strb : string_builder) : result (list ascii) :=
  return_str ← palloc (len strb + 1);
  d ← fetch (data strb) (len strb);
  return_str ← store return_str 0 d;
  return_str ← store return_str (len strb) [Some NUL];
  c_string return_str.

(** ** Path trees

    [pathtype] is the tag of the plan node to be made, [type] that of the path structure. *)
Inductive NodeTag :=
  | T_SeqScan | T_IndexScan | T_IndexOnlyScan | T_BitmapHeapScan
  | T_HashJoin | T_MergeJoin | T_NestLoop
  | T_Material | T_Sort | T_IncrementalSort | T_Agg | T_Gather | T_GatherMerge | T_Memoize | T_Result
  | T_SampleScan | T_TidScan | T_TidRangeScan | T_SubqueryScan | T_FunctionScan | T_TableFuncScan
  | T_ValuesScan | T_CteScan | T_WorkTableScan | T_NamedTuplestoreScan | T_ForeignScan | T_CustomScan
  | T_Append | T_MergeAppend | T_ProjectSet | T_Unique | T_Group | T_WindowAgg | T_RecursiveUnion
  | T_LockRows | T_ModifyTable | T_Limit | T_SetOp
  | T_Path | T_ProjectionPath | T_GroupingSetsPath | T_AggPath.

#[warnings="-register-all"]
Inductive PathTree := PathNode {
  pathtype : NodeTag;
  type : NodeTag;
  relid : Z;
  outerjoinpath : option PathTree;
  innerjoinpath : option PathTree;
  subpath : option PathTree
}.

Definition is_ProjectionPath (t : NodeTag) : bool := match t with T_ProjectionPath => true | _ => false end.
Definition null_msg : string := "null pointer".
Definition node_type_msg : string := "unrecognized node type".

(** [rt_fetch(relid, rtable)->eref->aliasname]; range table indexes start at 1. *)
Definition rt_alias (rtable : list (list ascii)) (i : Z) : result (list ascii) :=
  if 1 <=? i then match rtable !! Z.to_nat (i - 1) with Some a => Ok a | None => Error bounds_msg end
  else Error bounds_msg.

(** What one node appends: nothing but a warning, a relation, two subtrees, or one subtree; or else it fails, by an assertion or with the error of the last branch. *)
Inductive Shape := ShScan | ShJoin | ShSub | ShWarn | ShAssert | ShError.
Definition jop_shape (pathtype type : NodeTag) : Shape :=
  match pathtype with
  | T_SeqScan | T_IndexScan | T_IndexOnlyScan | T_BitmapHeapScan => ShScan
  | T_HashJoin | T_MergeJoin | T_NestLoop => ShJoin
  | T_Material | T_Sort | T_Gather | T_GatherMerge | T_Memoize => ShSub
  | T_Agg => match type with T_GroupingSetsPath | T_AggPath => ShSub | _ => ShAssert end
  | T_Result => if is_ProjectionPath type then ShSub else ShWarn
  | T_SampleScan | T_TidScan | T_SubqueryScan | T_FunctionScan | T_TableFuncScan | T_ValuesScan
  | T_CteScan | T_WorkTableScan | T_NamedTuplestoreScan | T_ForeignScan | T_CustomScan
  | T_Append | T_MergeAppend | T_ProjectSet | T_Unique | T_Group | T_WindowAgg | T_RecursiveUnion
  | T_LockRows | T_ModifyTable => ShWarn
  | _ => ShError
  end.

Definition lparen : list ascii := ["("%char].
Definition rparen : list ascii := [")"%char].
Definition space : list ascii := [" "%char].

(** The second component logs the [elog(WARNING)]s.  The inner side is visited first. *)
Fixpoint catch_join_order (rtable : list (list ascii)) (path : PathTree) : result (list ascii * list NodeTag) :=
  let sub (p : option PathTree) :=
    match p with Some p => catch_join_order rtable p | None => Error null_msg end in
  strb ← string_builder_init;
  '(strb, warnings) ←
    match jop_shape (pathtype path) (type path) with
    | ShScan =>
        alias_name ← rt_alias rtable (relid path);
        strb ← string_builder_append strb alias_name; Ok (strb, [])
    | ShJoin =>
        '(inner, w1) ← sub (innerjoinpath path);
        '(outer, w2) ← sub (outerjoinpath path);
        strb ← string_builder_append strb lparen;
        strb ← string_builder_append strb outer;
        strb ← string_builder_append strb space;
        strb ← string_builder_append strb inner;
        strb ← string_builder_append strb rparen; Ok (strb, w1 ++ w2)
    | ShSub =>
        '(outer, w) ← sub (subpath path);
        strb ← string_builder_append strb outer; Ok (strb, w)
    | ShWarn => Ok (strb, [type path])
    | ShAssert => Error assert_msg
    | ShError => Error node_type_msg
    end;
  return_str ← string_builder_result strb;
  Ok (return_str, warnings).

(** The file: one line per path. *)
Fixpoint save_join_order_plans (rtable : list (list ascii)) (pathlis : list PathTree) : result (list ascii) :=
  match pathlis with
  | [] => Ok []
  | path :: rest =>
      '(join_order, _) ← catch_join_order rtable path;
      lines ← save_join_order_plans rtable rest;
      Ok (join_order ++ ["010"%char] ++ lines)
  end.
