(* ===== verification/JoinOrderProps.v ===== *)
(** * The join-order text can be read back

    [string_builder] represents the text appended so far and never leaves its buffer;
    [catch_join_order] prints the join skeleton of the tree; and a reader that knows the
    grammar [order ::= alias | "(" order " " order ")"] recovers the skeletons of all
    candidate paths from the file. *)
From S2P Require Import Prelude JoinOrder.
From Stdlib Require Import Ascii.
#[local] Open Scope Z_scope.

Lemma PathTree_rec' (P : PathTree -> Prop) :
  (forall pt ty r o i s, (forall t, o = Some t -> P t) -> (forall t, i = Some t -> P t) ->
     (forall t, s = Some t -> P t) -> P (PathNode pt ty r o i s)) -> forall t, P t.
Proof.
  intros H. fix IH 1. intros [pt ty r o i s].
  apply H; intros t; [destruct o as [t'|]|destruct i as [t'|]|destruct s as [t'|]]; intros [= <-]; apply IH.
Qed.

(** ** Buffers *)
Lemma store_spec dst off src : 0 <= off -> off + Z.of_nat (length src) <= Z.of_nat (length dst) ->
  exists d, store dst off src = Ok d /\ length d = length dst /\
    take (Z.to_nat off + length src) d = take (Z.to_nat off) dst ++ src.
Proof.
  intros H1 H2. unfold store. rewrite (proj2 (Z.leb_le _ _)), (proj2 (Z.leb_le _ _)) by lia. cbn [andb].
  eexists. split; [done|]. split.
  - rewrite !length_app, length_take, length_drop. lia.
  - rewrite app_assoc, take_app_le by (rewrite length_app, length_take; lia).
    apply take_ge. rewrite length_app, length_take. lia.
Qed.

Record sb_holds (sb : string_builder) (s : list ascii) : Prop := {
  sb_cap : cap sb = Z.of_nat (length (data sb));
  sb_cap_range : 10 <= cap sb <= MaxAllocSize;
  sb_len : len sb = Z.of_nat (length s);
  sb_room : len sb < cap sb;
  sb_text : take (length s) (data sb) = Some <$> s
}.

Lemma init_holds : exists sb, string_builder_init = Ok sb /\ sb_holds sb [].
Proof. eexists. split; [vm_compute; reflexivity|]. split; cbn; try done; unfold MaxAllocSize; lia. Qed.

Lemma grow_cap_spec fuel : forall c need, 0 < c -> need <= 2 ^ 62 -> need <= c * 2 ^ Z.of_nat fuel ->
  exists c', grow_cap fuel c need = Ok c' /\ need <= c' /\ c <= c' /\ (c' = c \/ c' < 2 * need).
Proof.
  induction fuel as [|fuel IH]; intros c need Hc Hn Hf; cbn [grow_cap];
    destruct (Z.ltb_spec c need) as [Hlt|Hge]; try (exists c; split; [done|lia]).
  { change (2 ^ Z.of_nat 0) with 1 in Hf. lia. }
  rewrite Nat2Z.inj_succ, Z.pow_succ_r in Hf by lia.
  assert (wrap64 (c * 2) = c * 2) as -> by (apply Z.mod_small; lia).
  destruct (IH (c * 2) need) as (c' & E & ? & ? & ?); [lia|lia|nia|]. exists c'. split; [done|lia].
Qed.

Lemma append_holds sb s a : sb_holds sb s -> Z.of_nat (length s + length a) < 2 ^ 29 ->
  exists sb', string_builder_append sb a = Ok sb' /\ sb_holds sb' (s ++ a).
Proof.
  intros [Hc Hr Hl Hm Ht] Hb. unfold string_builder_append. cbv zeta.
  destruct (grow_cap_spec cap_fuel (cap sb) (len sb + Z.of_nat (length a) + 1)) as (c & -> & Hc1 & Hc2 & Hc3);
    [lia|lia|change (2 ^ Z.of_nat cap_fuel) with 18446744073709551616; lia|]. cbn [mbind result_bind].
  assert (exists d, (if c =? cap sb then Ok (data sb, cap sb)
     else new_data ← palloc c; old ← fetch (data sb) (len sb); new_data ← store new_data 0 old; Ok (new_data, c)) =
     Ok (d, c) /\ c = Z.of_nat (length d) /\ take (length s) d = Some <$> s) as (d & -> & Hd & Hdt).
  { destruct (Z.eqb_spec c (cap sb)) as [->|Hne]; [by exists (data sb)|].
    unfold palloc. rewrite (proj2 (Z.leb_le _ _)) by (unfold MaxAllocSize; lia). cbn [mbind result_bind].
    unfold fetch. rewrite (proj2 (Z.leb_le _ _)) by lia. cbn [mbind result_bind].
    rewrite Hl, Nat2Z.id, Ht.
    destruct (store_spec (replicate (Z.to_nat c) None) 0 (Some <$> s)) as (d & -> & Hld & Htd);
      [lia|rewrite length_fmap, length_replicate; lia|].
    cbn [mbind result_bind]. exists d. rewrite length_replicate in Hld. rewrite length_fmap in Htd.
    split; [done|]. split; [lia|exact Htd]. }
  cbn [mbind result_bind].
  destruct (store_spec d (len sb) ((Some <$> a) ++ [Some NUL])) as (d' & -> & Hld & Htd);
    [lia|rewrite length_app, length_fmap; cbn; lia|].
  cbn [mbind result_bind]. eexists. split; [done|].
  rewrite Hl, Nat2Z.id, length_app, length_fmap in Htd. cbn [length] in Htd. rewrite Hdt in Htd.
  split; cbn [cap len data]; rewrite ?length_app; [lia|unfold MaxAllocSize in *; lia|lia|lia|].
  apply (f_equal (take (length s + length a))) in Htd. rewrite take_take, Nat.min_l in Htd by lia.
  rewrite Htd, app_assoc, take_app_le by (rewrite length_app, !length_fmap; lia).
  rewrite take_ge by (rewrite length_app, !length_fmap; lia). by rewrite fmap_app.
Qed.

Lemma c_string_spec s rest : NUL ∉ s -> c_string ((Some <$> s) ++ Some NUL :: rest) = Ok s.
Proof.
  induction s as [|c s IH]; intros Hn; cbn [fmap list_fmap app c_string]; [by destruct (ascii_dec NUL NUL)|].
  destruct (ascii_dec c NUL) as [->|]; [destruct Hn; by left|].
  rewrite IH; [done|]. intros ?. apply Hn. by right.
Qed.

Lemma result_holds sb s : sb_holds sb s -> NUL ∉ s -> string_builder_result sb = Ok s.
Proof.
  intros [Hc Hr Hl Hm Ht] Hn. unfold string_builder_result, palloc.
  rewrite (proj2 (Z.leb_le _ _)) by lia. cbn [mbind result_bind].
  unfold fetch. rewrite (proj2 (Z.leb_le _ _)) by lia. cbn [mbind result_bind]. rewrite Hl, Nat2Z.id, Ht.
  destruct (store_spec (replicate (Z.to_nat (Z.of_nat (length s) + 1)) None) 0 (Some <$> s)) as (d & -> & Hld & Htd);
    [lia|rewrite length_fmap, length_replicate; lia|]. cbn [mbind result_bind].
  rewrite length_replicate in Hld. rewrite length_fmap in Htd. change (Z.to_nat 0) with 0%nat in Htd. rewrite take_0 in Htd. cbn [Nat.add app] in Htd.
  destruct (store_spec d (Z.of_nat (length s)) [Some NUL]) as (d' & -> & Hld' & Htd'); [lia|cbn; lia|].
  cbn [mbind result_bind]. rewrite Nat2Z.id, Htd in Htd'. cbn [length] in Htd'.
  rewrite take_ge in Htd' by lia. rewrite Htd'. by apply c_string_spec.
Qed.

(** ** Join skeletons *)
Inductive JoinTree := JRel (alias : list ascii) | JJoin (outer inner : JoinTree).

Fixpoint print_order (o : JoinTree) : list ascii :=
  match o with
  | JRel a => a
  | JJoin outer inner => lparen ++ print_order outer ++ space ++ print_order inner ++ rparen
  end.

Fixpoint skeleton (rtable : list (list ascii)) (path : PathTree) : option JoinTree :=
  let sub (p : option PathTree) := match p with Some p => skeleton rtable p | None => None end in
  match jop_shape (pathtype path) (type path) with
  | ShScan => match rt_alias rtable (relid path) with Ok a => Some (JRel a) | _ => None end
  | ShJoin => outer ← sub (outerjoinpath path); inner ← sub (innerjoinpath path); Some (JJoin outer inner)
  | ShSub => sub (subpath path)
  | ShWarn | ShAssert | ShError => None
  end.

Definition no_NUL (rtable : list (list ascii)) : Prop := Forall (fun a => NUL ∉ a) rtable.

Lemma rt_alias_elem rtable i a : rt_alias rtable i = Ok a -> a ∈ rtable.
Proof.
  unfold rt_alias. destruct (1 <=? i); [|done]. destruct (rtable !! _) eqn:E; [|done].
  intros [= <-]. by eapply list_elem_of_lookup_2.
Qed.

Lemma skeleton_no_NUL rtable path : no_NUL rtable -> forall o, skeleton rtable path = Some o -> NUL ∉ print_order o.
Proof.
  intros Hn. induction path as [pt ty r ou inn su IHo IHi IHs] using PathTree_rec'. intros o.
  cbn [skeleton pathtype type relid outerjoinpath innerjoinpath subpath]. destruct (jop_shape pt ty); try done.
  - destruct (rt_alias rtable r) as [a| |] eqn:E; [|done..]. intros [= <-]. apply rt_alias_elem in E.
    unfold no_NUL in Hn. rewrite Forall_forall in Hn. by apply Hn.
  - intros (o1 & H1 & (o2 & H2 & [= <-])%bind_Some)%bind_Some. destruct ou as [ou|], inn as [inn|]; try done.
    cbn [print_order]. unfold lparen, space, rparen.
    rewrite !elem_of_app, !list_elem_of_singleton. intros [?|[?|[?|[?|?]]]]; try done.
    + by eapply IHo. + by eapply IHi.
  - destruct su as [su|]; [|done]. by apply IHs.
Qed.

Lemma catch_join_order_spec rtable path : no_NUL rtable -> forall o, skeleton rtable path = Some o ->
  Z.of_nat (length (print_order o)) < 2 ^ 29 -> catch_join_order rtable path = Ok (print_order o, []).
Proof.
  intros Hn. induction path as [pt ty r ou inn su IHo IHi IHs] using PathTree_rec'. intros o Ho Hlen.
  pose proof (skeleton_no_NUL _ _ Hn _ Ho) as Hnul. revert Ho.
  cbn [skeleton catch_join_order pathtype type relid outerjoinpath innerjoinpath subpath].
  destruct init_holds as (sb & -> & Hsb). cbn [mbind result_bind].
  destruct (jop_shape pt ty); try done.
  - destruct (rt_alias rtable r) as [a| |] eqn:E; [|done..]. intros [= <-]. cbn [mbind result_bind].
    destruct (append_holds sb [] a Hsb Hlen) as (sb' & -> & Hsb'). cbn [mbind result_bind].
    by rewrite (result_holds _ _ Hsb').
  - intros (o1 & H1 & (o2 & H2 & [= <-])%bind_Some)%bind_Some. destruct ou as [ou|], inn as [inn|]; try done.
    cbn [print_order] in *. rewrite !length_app in Hlen. cbn [length lparen space rparen] in Hlen.
    rewrite (IHi _ eq_refl _ H2), (IHo _ eq_refl _ H1) by lia. cbn [mbind result_bind].
    destruct (append_holds _ _ lparen Hsb) as (sb1 & -> & Hs1); [cbn; lia|]. cbn [mbind result_bind].
    destruct (append_holds _ _ (print_order o1) Hs1) as (sb2 & -> & Hs2); [cbn; lia|]. cbn [mbind result_bind].
    destruct (append_holds _ _ space Hs2) as (sb3 & -> & Hs3); [rewrite !length_app; cbn; lia|]. cbn [mbind result_bind].
    destruct (append_holds _ _ (print_order o2) Hs3) as (sb4 & -> & Hs4); [rewrite !length_app; cbn; lia|].
    cbn [mbind result_bind].
    destruct (append_holds _ _ rparen Hs4) as (sb5 & -> & Hs5); [rewrite !length_app; cbn; lia|]. cbn [mbind result_bind].
    rewrite <- !app_assoc in Hs5. by rewrite (result_holds _ _ Hs5).
  - destruct su as [su|]; [|done]. intros Ho. rewrite (IHs _ eq_refl _ Ho) by done. cbn [mbind result_bind].
    destruct (append_holds _ _ (print_order o) Hsb) as (sb1 & -> & Hs1); [done|]. cbn [mbind result_bind].
    by rewrite (result_holds _ _ Hs1).
Qed.

(** ** Reading the file back *)
Definition delimiter (c : ascii) : bool :=
  bool_decide (c ∈ ["("%char; ")"%char; " "%char; "010"%char]).
(** A name the unquoted format can carry. *)
Definition plain (a : list ascii) : Prop := a <> [] /\ Forall (fun c => delimiter c = false) a.

Fixpoint split_name (s : list ascii) : list ascii * list ascii :=
  match s with
  | [] => ([], [])
  | c :: s' => if delimiter c then ([], s) else let '(a, rest) := split_name s' in (c :: a, rest)
  end.
Definition expect (t : list ascii) (s : list ascii) : option (list ascii) :=
  match t, s with
  | [c], c' :: s => if ascii_dec c c' then Some s else None
  | _, _ => None
  end.

(** One order at the front of the text; the fuel is the length of the text. *)
Fixpoint parse_order (fuel : nat) (s : list ascii) : option (JoinTree * list ascii) :=
  match fuel with
  | O => None
  | S fuel =>
      match expect lparen s with
      | Some s =>
          '(outer, s) ← parse_order fuel s; s ← expect space s;
          '(inner, s) ← parse_order fuel s; s ← expect rparen s;
          Some (JJoin outer inner, s)
      | None =>
          match split_name s with
          | ([], _) => None
          | (a, rest) => Some (JRel a, rest)
          end
      end
  end.

Fixpoint parse_plans (fuel : nat) (s : list ascii) : option (list JoinTree) :=
  match fuel, s with
  | _, [] => Some []
  | O, _ => None
  | S fuel, _ =>
      '(o, s) ← parse_order (length s) s; s ← expect ["010"%char] s;
      os ← parse_plans fuel s; Some (o :: os)
  end.

Fixpoint plain_tree (o : JoinTree) : Prop :=
  match o with JRel a => plain a | JJoin outer inner => plain_tree outer /\ plain_tree inner end.

Definition delimited (rest : list ascii) : Prop :=
  match rest with [] => True | c :: _ => delimiter c = true end.

Lemma split_name_app a rest : Forall (fun c => delimiter c = false) a -> delimited rest ->
  split_name (a ++ rest) = (a, rest).
Proof.
  intros Ha Hr. induction Ha as [|c a Hc Ha IH]; cbn [app split_name].
  - destruct rest as [|c rest]; [done|]. cbn in *. by rewrite Hr.
  - by rewrite Hc, IH.
Qed.

Lemma expect_app c s : expect [c] ([c] ++ s) = Some s.
Proof. cbn [app expect]. by destruct (ascii_dec c c). Qed.

Lemma print_order_nonempty o : plain_tree o -> (0 < length (print_order o))%nat.
Proof. destruct o as [a|]; [|cbn; lia]. intros [Ha _]. destruct a; [done|cbn; lia]. Qed.

Lemma parse_print o : plain_tree o -> forall fuel rest, (length (print_order o) <= fuel)%nat -> delimited rest ->
  parse_order fuel (print_order o ++ rest) = Some (o, rest).
Proof.
  induction o as [a|outer IHo inner IHi]; intros Hp fuel rest Hf Hr;
    pose proof (print_order_nonempty _ Hp) as Hne; (destruct fuel as [|fuel]; [lia|]); cbn [parse_order].
  - destruct Hp as [Hn Ha]. cbn [print_order].
    assert (expect lparen (a ++ rest) = None) as ->.
    { destruct a as [|c a]; [done|]. inversion_clear Ha as [|? ? Hc _]. unfold lparen. cbn [app expect].
      destruct (ascii_dec "(" c) as [<-|]; [by vm_compute in Hc|done]. }
    rewrite split_name_app by done. by destruct a.
  - destruct Hp as [Ho Hi]. cbn [print_order] in *. rewrite <- !app_assoc. unfold lparen at 1 2. rewrite expect_app.
    rewrite !length_app in Hf. cbn [length lparen space rparen] in Hf.
    rewrite IHo; [|done|lia|done]. cbn [mbind option_bind]. unfold space. rewrite expect_app. cbn [mbind option_bind].
    rewrite IHi; [|done|lia|done]. cbn [mbind option_bind]. unfold rparen. rewrite expect_app. done.
Qed.

Lemma skeleton_plain rtable path : Forall plain rtable -> forall o, skeleton rtable path = Some o -> plain_tree o.
Proof.
  intros Hn. induction path as [pt ty r ou inn su IHo IHi IHs] using PathTree_rec'. intros o.
  cbn [skeleton pathtype type relid outerjoinpath innerjoinpath subpath]. destruct (jop_shape pt ty); try done.
  - destruct (rt_alias rtable r) as [a| |] eqn:E; [|done..]. intros [= <-]. apply rt_alias_elem in E.
    rewrite Forall_forall in Hn. by apply Hn.
  - intros (o1 & H1 & (o2 & H2 & [= <-])%bind_Some)%bind_Some. destruct ou as [ou|], inn as [inn|]; try done.
    split; [by eapply IHo|by eapply IHi].
  - destruct su as [su|]; [|done]. by apply IHs.
Qed.

(** C9: The plans file is faithful.  If the alias names contain no NUL, blank, newline or
    parenthesis, every candidate path consists of node types that [catch_join_order] knows, with
    valid range table indexes, and each line stays below half a gigabyte, then
    [save_join_order_plans] writes a file without leaving any buffer and without warnings, and reading
    the file by its grammar gives back the join skeletons of the candidates, in order. *)
Theorem join_order_roundtrip rtable paths orders :
  no_NUL rtable -> Forall plain rtable -> mapM (skeleton rtable) paths = Some orders ->
  Forall (fun o => Z.of_nat (length (print_order o)) < 2 ^ 29) orders ->
  exists file, save_join_order_plans rtable paths = Ok file /\
    forall fuel, (length paths <= fuel)%nat -> parse_plans fuel file = Some orders.
Proof.
  intros Hn Hp Hm. apply mapM_Some in Hm. induction Hm as [|path o paths orders Ho Hm IH]; intros Hb.
  { exists []. split; [done|]. by intros []. }
  inversion_clear Hb as [|? ? Hb1 Hb2]. destruct (IH Hb2) as (file & Hs & Hf).
  exists (print_order o ++ ["010"%char] ++ file). cbn [save_join_order_plans].
  rewrite (catch_join_order_spec _ _ Hn _ Ho Hb1), Hs. cbn [mbind result_bind]. split; [done|].
  intros [|fuel] Hfuel; [cbn in Hfuel; lia|]. pose proof (skeleton_plain _ _ Hp _ Ho) as Hpl.
  pose proof (parse_print o Hpl (length (print_order o ++ ["010"%char] ++ file)) (["010"%char] ++ file)) as Hpp.
  rewrite length_app in Hpp at 1. specialize (Hpp ltac:(lia) eq_refl).
  pose proof (print_order_nonempty _ Hpl). destruct (print_order o) as [|c s] eqn:E; [cbn in *; lia|].
  cbn [parse_plans app] in *. rewrite Hpp. cbn [mbind option_bind].
  pose proof (expect_app "010"%char file) as He. cbn [app] in He. rewrite He.
  cbn [mbind option_bind]. rewrite Hf by (cbn in Hfuel; lia). done.
Qed.

(** ** Examples *)
Module JoinOrderDemo.
Definition str (s : string) : list ascii := String.list_ascii_of_string s.
Definition rtable : list (list ascii) := [str "a"; str "b"; str "c"].
Definition scan (i : Z) : PathTree := PathNode T_SeqScan T_Path i None None None.
Definition hash (o i : PathTree) : PathTree := PathNode T_HashJoin T_Path 0 (Some o) (Some i) None.
Definition over (t : NodeTag) (p : PathTree) : PathTree := PathNode t T_Path 0 None None (Some p).
Definition plan1 : PathTree := over T_Sort (hash (scan 1) (over T_Material (hash (scan 2) (scan 3)))).
Definition plan2 : PathTree := hash (hash (scan 1) (scan 2)) (scan 3).

Lemma rtable_no_NUL : no_NUL rtable.
Proof. repeat constructor; apply (bool_decide_unpack _); vm_compute; reflexivity. Qed.
Lemma rtable_plain : Forall plain rtable.
Proof. repeat constructor; try discriminate; vm_compute; reflexivity. Qed.

Lemma join_order_roundtrip_witness :
  save_join_order_plans rtable [plan1; plan2] = Ok (str "(a (b c))" ++ ["010"%char] ++ str "((a b) c)" ++ ["010"%char]) /\
  exists file, save_join_order_plans rtable [plan1; plan2] = Ok file /\
    parse_plans 2 file = Some
      [JJoin (JRel (str "a")) (JJoin (JRel (str "b")) (JRel (str "c")));
       JJoin (JJoin (JRel (str "a")) (JRel (str "b"))) (JRel (str "c"))].
Proof.
  split; [vm_compute; reflexivity|].
  destruct (join_order_roundtrip rtable [plan1; plan2] _ rtable_no_NUL rtable_plain eq_refl) as (file & Hs & Hf).
  { repeat constructor. }
  exists file. split; [exact Hs|exact (Hf 2%nat (le_n 2))].
Defined.

(** A query with a LIMIT cannot be planned while join orders are saved. *)
Lemma limit_is_an_error : catch_join_order rtable (over T_Limit plan2) = Error node_type_msg.
Proof. vm_compute. reflexivity. Qed.
(** A scan of an unknown kind is printed as nothing, so that the text is not an order any more. *)
Lemma subquery_scan_leaves_a_gap :
  catch_join_order rtable (hash (scan 1) (PathNode T_SubqueryScan T_Path 2 None None None)) =
    Ok (str "(a )", [T_Path]) /\
  parse_order 10 (str "(a )") = None.
Proof. vm_compute. auto. Qed.
(** Quoted names with blanks make different orders print alike. *)
Lemma quoted_names_are_ambiguous :
  print_order (JJoin (JRel (str "a b")) (JRel (str "c"))) = print_order (JJoin (JRel (str "a")) (JRel (str "b c"))).
Proof. vm_compute. reflexivity. Qed.
End JoinOrderDemo.
