(* ===== verification/JoinRoot.v ===== *)
(** * Candidate plans at the last join ([joinpath.c], [allpaths.c])

    With [enable_join_order_plans] set, [add_paths_to_joinrel] keeps the paths of the topmost
    join relation apart for each pair of inputs, so that every last join contributes candidates;
    [save_join_order_plan_finished] tells [add_path] whether join search is over.

    The paths that the join methods build for one pair of inputs are given as the sequence of
    their [add_path] and [add_partial_path] calls. *)
From S2P Require Import Prelude BitUtils Bitmapset BitmapsetSpec BitmapsetIter BitmapsetProps Float64 PathKeys PathKeysProps PathNode PathNodeProps PathListProps PathThms PathPrecheck PathDemo.
#[local] Open Scope Z_scope.

Definition null_deref_msg : string := "null pointer".

(** [(int) relids->words[0]] *)
Definition first_word_int (relids : bitmapset) : result Z :=
  match relids with Some (w :: _) => Ok (to_int32 w) | _ => Error null_deref_msg end.

(** Whether the relation being joined is taken for the topmost one. *)
Definition rootrel_candidate_path (enable_join_order_plans : bool) (all_baserels joinrelids : bitmapset) : result bool :=
  if enable_join_order_plans then
    root_relids ← first_word_int all_baserels;
    join_relids ← first_word_int joinrelids;
    Ok (root_relids =? join_relids)
  else Ok false.

(** [add_paths_to_joinrel]: the stash of the path list, the paths of this pair of inputs, and the
    concatenation at the end.  [athena] is [add_path]'s condition at the time. *)
Definition add_paths_to_joinrel (enable_join_order_plans athena : bool) (all_baserels joinrelids : bitmapset)
    (joinrel : RelOptInfo) (built : list path_op) : result RelOptInfo :=
  candidate ← rootrel_candidate_path enable_join_order_plans all_baserels joinrelids;
  let tmp_list := pathlist joinrel in
  let joinrel := if (candidate : bool) then set_pathlist joinrel [] (freed joinrel) else joinrel in
  let joinrel := fold_left (run_op athena) built joinrel in
  Ok (if candidate then
        match tmp_list with
        | [] => joinrel
        | _ => set_pathlist joinrel (tmp_list ++ pathlist joinrel) (freed joinrel)
        end
      else joinrel).

Fixpoint add_all_pairs (enable athena : bool) (all_baserels joinrelids : bitmapset) (joinrel : RelOptInfo)
    (pairs : list (list path_op)) : result RelOptInfo :=
  match pairs with
  | [] => Ok joinrel
  | built :: rest =>
      joinrel ← add_paths_to_joinrel enable athena all_baserels joinrelids joinrel built;
      add_all_pairs enable athena all_baserels joinrelids joinrel rest
  end.

(** ** The phase flag *)
Record PlannerSettings := {
  enable_join_order_plans : bool;
  join_search_hook : bool;
  enable_geqo : bool;
  geqo_threshold : Z
}.
#[warnings="-register-all"]
Inductive JoinItem := RangeTblRef (rtindex : Z) | SubJoinlist (joinlist : list JoinItem).
Inductive JoinSearch := SearchHook | Geqo | StandardSearch.

(** Which search runs, the flag while it runs, and the flag after it. *)
Definition join_search (g : PlannerSettings) (save_join_order_plan_finished : bool) (levels_needed : Z)
    : JoinSearch * bool * bool :=
  if join_search_hook g then (SearchHook, save_join_order_plan_finished, save_join_order_plan_finished)
  else if enable_geqo g && (geqo_threshold g <=? levels_needed)
  then (Geqo, save_join_order_plan_finished, save_join_order_plan_finished)
  else if enable_join_order_plans g then (StandardSearch, false, true)
  else (StandardSearch, save_join_order_plan_finished, save_join_order_plan_finished).

(** [make_rel_from_joinlist], as far as the flag is concerned: the searches in the order they
    run, each with the flag during it, and the flag at the end. *)
Fixpoint joinlist_item (g : PlannerSettings) (flag : bool) (item : JoinItem) : list (JoinSearch * bool) * bool :=
  match item with
  | RangeTblRef _ => ([], flag)
  | SubJoinlist joinlist =>
      let '(log, flag) :=
        (fix items (flag : bool) (l : list JoinItem) : list (JoinSearch * bool) * bool :=
           match l with
           | [] => ([], flag)
           | item :: l =>
               let '(log1, flag) := joinlist_item g flag item in
               let '(log2, flag) := items flag l in (log1 ++ log2, flag)
           end) flag joinlist in
      if (2 <=? Z.of_nat (length joinlist)) then
        let '(search, during, after) := join_search g flag (Z.of_nat (length joinlist)) in
        (log ++ [(search, during)], after)
      else (log, flag)
  end.
Definition joinlist_searches (g : PlannerSettings) (flag : bool) (joinlist : list JoinItem)
    : list (JoinSearch * bool) * bool := joinlist_item g flag (SubJoinlist joinlist).

(** The flag that [add_path] sees in the three phases of planning a query: base relations, each
    join search, upper relations. *)
Definition planning_phases (g : PlannerSettings) (flag : bool) (joinlist : list JoinItem)
    : bool * list (JoinSearch * bool) * bool :=
  let '(log, after) := joinlist_searches g flag joinlist in
  (enable_join_order_plans g && flag, log, enable_join_order_plans g && after).

(** ** Root detection *)
Lemma to_int32_small z : 0 <= z < 2 ^ 32 -> forall y, 0 <= y < 2 ^ 32 -> to_int32 z = to_int32 y -> z = y.
Proof.
  intros Hz y Hy. unfold to_int32, wrap32. cbv zeta. rewrite !Z.mod_small by done.
  destruct (Z.ltb_spec z (2 ^ 31)), (Z.ltb_spec y (2 ^ 31)); lia.
Qed.

(** A set whose members are below 32 is its first word. *)
Lemma first_word_small a : bms_wf a -> a <> None -> (forall x, bms_mem a x = true -> x < 32) ->
  exists w, first_word_int a = Ok (to_int32 w) /\ 0 <= w < 2 ^ 32 /\ bms_val a = w.
Proof.
  intros Hwf Hne Hlt. destruct a as [[|w ws]|]; [by destruct Hwf| |done]. exists w.
  destruct Hwf as [Hok Hnz]. inversion_clear Hok as [|? ? Hw Hws].
  pose proof (bms_val_nonneg (Some (w :: ws)) (conj (Forall_cons_2 _ _ _ Hw Hws) Hnz)) as Hpos.
  assert (bms_val (Some (w :: ws)) < 2 ^ 32) as Hv.
  { apply bits_range; [lia|done|]. intros i Hi. apply not_true_is_false. intros Ht.
    specialize (Hlt i Ht). lia. }
  cbn [bms_val] in *. rewrite words_val_cons in * by done. pose proof (words_val_nonneg ws Hws).
  unfold u64 in Hw. split; [done|]. split; lia.
Qed.

(** C37: For queries whose relation numbers are all below 32, the comparison of the first words
    decides whether the join relation covers exactly the base relations of the query, and never
    dereferences a null pointer. *)
Theorem root_detection_small all_baserels joinrelids :
  bms_wf all_baserels -> bms_wf joinrelids -> all_baserels <> None -> joinrelids <> None ->
  (forall x, bms_mem all_baserels x = true -> x < 32) -> (forall x, bms_mem joinrelids x = true -> x < 32) ->
  rootrel_candidate_path true all_baserels joinrelids = Ok (bms_equal all_baserels joinrelids).
Proof.
  intros W1 W2 N1 N2 H1 H2. rewrite bms_equal_spec by done. unfold rootrel_candidate_path.
  destruct (first_word_small _ W1 N1 H1) as (w1 & -> & R1 & ->).
  destruct (first_word_small _ W2 N2 H2) as (w2 & -> & R2 & ->). cbn [mbind result_bind]. f_equal.
  destruct (Z.eqb_spec w1 w2) as [->|Hne]; [apply Z.eqb_refl|]. apply Z.eqb_neq. contradict Hne.
  by apply (to_int32_small w1 R1 w2 R2).
Qed.

(** The same test beyond its domain: with base relations 1 and 40 the relation 1 alone passes for
    the topmost join; and with an outer join, whose own number 3 is in the relation set of
    the join but not in [all_baserels], the topmost join of 1 and 2 is not recognized. *)
Lemma root_detection_wrong :
  rootrel_candidate_path true (Some [2 + 2 ^ 40]) (Some [2]) = Ok true /\
  bms_equal (Some [2 + 2 ^ 40]) (Some [2]) = false /\
  rootrel_candidate_path true (Some [6]) (Some [14]) = Ok false /\
  bms_is_subset (Some [6]) (Some [14]) = true.
Proof. vm_compute. auto. Qed.

(** ** Candidates of every last join *)
Definition used (rel : RelOptInfo) : list nat :=
  freed rel ++ (path_ptr <$> pathlist rel) ++ (path_ptr <$> partial_pathlist rel).

(** What the calls for one pair of inputs leave on an initially empty path list. *)
Record pair_result (built : list path_op) (l : list Path) : Prop := {
  pr_sorted : cost_sorted l;
  pr_covered : forall p, AddPath p ∈ built -> covered dominates l p;
  pr_offered : forall p, p ∈ l -> AddPath p ∈ built
}.

Lemma run_from built : forall rel, rel_inv rel -> pathlist rel = [] ->
  Forall (fun op => path_ok (op_path op)) built -> NoDup (op_addresses built ++ used rel) ->
  let rel' := fold_left (run_op false) built rel in
  rel_inv rel' /\ used rel' ⊆+ op_addresses built ++ used rel /\ pair_result built (pathlist rel').
Proof.
  induction built as [|op built IH] using rev_ind; intros rel Hi He Hok Hnd; cbv zeta.
  { cbn. split; [done|]. split; [done|]. rewrite He. split; [constructor|by intros p Hp%elem_of_nil..]. }
  apply Forall_app in Hok as [Hok [Hop _]%Forall_cons]. unfold op_addresses in *. rewrite fmap_app in *.
  cbn [fmap list_fmap] in *. rewrite <- app_assoc in *. pose proof Hnd as Hnd2.
  rewrite (Permutation_app_swap_app ((fun op => path_ptr (op_path op)) <$> built)) in Hnd2.
  cbn [app] in Hnd2. apply NoDup_cons in Hnd2 as [Hfresh Hnd2].
  destruct (IH rel Hi He Hok Hnd2) as (Hi' & Hu & [Hs Hc Ho]). clear IH.
  rewrite fold_left_app. cbn [fold_left]. set (rel1 := fold_left (run_op false) built rel) in *. clearbody rel1.
  assert (fresh_path rel1 (op_path op)) as Hf.
  { split; [done|]. intros Hin. apply Hfresh. by eapply elem_of_submseteq. }
  pose proof (run_op_addresses false rel1 op) as Haddr. cbv zeta in Haddr.
  assert (used (run_op false rel1 op) ⊆+
    ((fun op => path_ptr (op_path op)) <$> built) ++ [path_ptr (op_path op)] ++ used rel) as Hu'.
  { etrans; [exact Haddr|]. rewrite (Permutation_app_swap_app _ [path_ptr (op_path op)]). by apply submseteq_skip. }
  destruct op as [p|p]; cbn [run_op op_path] in *.
  - assert (rel_inv (add_path false rel1 p)) as Hi2 by (by apply add_path_inv). split; [done|]. split; [done|].
    split; [apply Hi2|..]; setoid_rewrite elem_of_app; setoid_rewrite list_elem_of_singleton.
    + intros q [Hq|[= ->]]; [|apply add_path_covered; auto].
      eapply covered_trans; [by apply Hc|]. intros r Hr. apply add_path_covered; auto.
    + intros q [->|Hq]%(outcome_members (add_path_outcome false rel1 p)); auto.
  - split; [by apply add_partial_path_inv|]. split; [done|]. rewrite add_partial_path_pathlist.
    split; [done|..]; setoid_rewrite elem_of_app; setoid_rewrite list_elem_of_singleton; [|auto].
    intros q [Hq|?]; [auto|done].
Qed.

Definition stashed (rel : RelOptInfo) : RelOptInfo := set_pathlist rel [] (freed rel).

Lemma add_pair all_baserels joinrelids rel built :
  rootrel_candidate_path true all_baserels joinrelids = Ok true -> rel_inv (stashed rel) ->
  Forall (fun op => path_ok (op_path op)) built -> NoDup (op_addresses built ++ used rel) ->
  exists rel' l, add_paths_to_joinrel true false all_baserels joinrelids rel built = Ok rel' /\
    pathlist rel' = pathlist rel ++ l /\ pair_result built l /\
    rel_inv (stashed rel') /\ used rel' ⊆+ op_addresses built ++ used rel.
Proof.
  intros Hroot Hi Hok Hnd.
  assert (used rel ≡ₚ used (stashed rel) ++ (path_ptr <$> pathlist rel)) as Hus
    by (unfold used; cbn; solve_Permutation).
  assert (NoDup (op_addresses built ++ used (stashed rel))) as Hnd'.
  { rewrite Hus, app_assoc in Hnd. by apply NoDup_app in Hnd as [? _]. }
  destruct (run_from built (stashed rel) Hi eq_refl Hok Hnd') as (Hi' & Hu & Hp).
  unfold add_paths_to_joinrel. rewrite Hroot. cbn [mbind result_bind].
  set (rel1 := fold_left (run_op false) built (stashed rel)) in *.
  exists (set_pathlist rel1 (pathlist rel ++ pathlist rel1) (freed rel1)), (pathlist rel1).
  split; [destruct (pathlist rel) eqn:E; [|done]|].
  { fold (stashed rel). fold rel1. by destruct rel1. }
  split; [done|]. split; [done|]. split.
  - destruct Hi' as [Hok' Hs' Hps' Hm']. split; cbn; [by apply Forall_app in Hok' as [_ ?]|constructor|done|].
    rewrite (Permutation_app_comm (path_ptr <$> pathlist rel1)), app_assoc in Hm'. by apply NoDup_app in Hm' as [? _].
  - rewrite Hus, app_assoc. unfold used at 1. cbn. rewrite fmap_app.
    etrans; [|apply submseteq_app; [exact Hu|reflexivity]]. unfold used at 1. solve_submseteq.
Qed.

Lemma add_pairs all_baserels joinrelids pairs : forall rel,
  rootrel_candidate_path true all_baserels joinrelids = Ok true -> rel_inv (stashed rel) ->
  Forall (fun op => path_ok (op_path op)) (concat pairs) -> NoDup (op_addresses (concat pairs) ++ used rel) ->
  exists rel' ls, add_all_pairs true false all_baserels joinrelids rel pairs = Ok rel' /\
    pathlist rel' = pathlist rel ++ concat ls /\ Forall2 pair_result pairs ls /\ NoDup (used rel').
Proof.
  induction pairs as [|built pairs IH]; intros rel Hroot Hi Hok Hnd.
  { exists rel, []. cbn in *. rewrite app_nil_r. auto. }
  cbn [concat] in *. apply Forall_app in Hok as [Hok1 Hok2].
  assert (op_addresses (built ++ concat pairs) ++ used rel ≡ₚ
    op_addresses (concat pairs) ++ (op_addresses built ++ used rel)) as Hp
    by (unfold op_addresses; rewrite fmap_app; solve_Permutation).
  rewrite Hp in Hnd. pose proof Hnd as (_ & _ & Hnd1)%NoDup_app.
  destruct (add_pair all_baserels joinrelids rel built Hroot Hi Hok1 Hnd1) as (rel1 & l & E & Hl & Hpr & Hi1 & Hu).
  destruct (IH rel1 Hroot Hi1 Hok2) as (rel' & ls & E' & Hl' & Hprs & Hnd').
  { eapply NoDup_submseteq_mono; [exact Hnd|]. by apply submseteq_app. }
  exists rel', (l :: ls). cbn [add_all_pairs]. rewrite E. cbn [mbind result_bind].
  split; [done|]. split; [by rewrite Hl', Hl, <- app_assoc|]. auto.
Qed.

(** C24: Every last join contributes its best candidates.  When the topmost join relation is
    recognized as such, its list of complete paths ([pathlist]) after all pairs of inputs have been tried is the
    concatenation of one list per pair.  Each of these lists is sorted and holds, for every complete path
    built for the pair, a path of the same pair that equals it or beats it by a chain of dominating paths:
    no complete path of a pair is pruned in favour of another pair.  No path is freed twice or freed while listed.  The list of partial paths is not split in this way
    (see [RootDemo.partial_paths_compete]). *)
Theorem root_candidates_kept all_baserels joinrelids par pairs :
  rootrel_candidate_path true all_baserels joinrelids = Ok true ->
  Forall (fun op => path_ok (op_path op)) (concat pairs) -> NoDup (op_addresses (concat pairs)) ->
  exists rel ls, add_all_pairs true false all_baserels joinrelids (empty_rel par) pairs = Ok rel /\
    pathlist rel = concat ls /\ Forall2 pair_result pairs ls /\ NoDup (used rel).
Proof.
  intros Hroot Hok Hnd. apply (add_pairs all_baserels joinrelids pairs (empty_rel par) Hroot); [|done|].
  - split; cbn; constructor.
  - by rewrite app_nil_r.
Qed.

(** ** What the concatenation breaks *)
Module RootDemo.
Import PathDemo.
Definition pair1 : list path_op := [AddPath seqscan].
Definition pair2 : list path_op := [AddPath (mk 2 0 40 [] None)].
Lemma root12 : rootrel_candidate_path true (Some [6]) (Some [6]) = Ok true.
Proof. reflexivity. Qed.

Lemma root_detection_small_witness : rootrel_candidate_path true (Some [6]) (Some [6]) = Ok true.
Proof.
  assert (bms_wf (Some [6])) as W by solve_ok.
  assert (forall x, bms_mem (Some [6]) x = true -> x < 32) as L.
  { intros x Hx. destruct (Z_lt_ge_dec x 32) as [|Hge]; [assumption|].
    unfold bms_mem in Hx. cbn [bms_val] in Hx. change (words_val [6]) with 6 in Hx.
    rewrite (testbit_high 3) in Hx; [discriminate Hx|lia..]. }
  exact (root_detection_small (Some [6]) (Some [6]) W W ltac:(discriminate) ltac:(discriminate) L L).
Defined.

Lemma root_candidates_kept_witness : exists rel ls,
  add_all_pairs true false (Some [6]) (Some [6]) (empty_rel par) [pair1; pair2] = Ok rel /\
  pathlist rel = concat ls /\ Forall2 pair_result [pair1; pair2] ls /\ NoDup (used rel).
Proof.
  apply (root_candidates_kept (Some [6]) (Some [6]) par [pair1; pair2] root12); [solve_ok|].
  apply (bool_decide_unpack _). vm_compute. reflexivity.
Defined.

(** The path list of the topmost join is not sorted any more, so the early exit of
    [add_path_precheck] misses the path that dominates the offered one. *)
Lemma root_list_unsorted :
  exists rel, add_all_pairs true false (Some [6]) (Some [6]) (empty_rel par) [pair1; pair2] = Ok rel /\
    ~ cost_sorted (pathlist rel) /\
    add_path_precheck rel (dofZ 50) (dofZ 60) [] None = true /\
    existsb (precheck_beats true (dofZ 50) (dofZ 60) [] None) (pathlist rel) = true.
Proof.
  eexists. split; [vm_compute; reflexivity|]. split; [|vm_compute; auto].
  intros H. inversion_clear H as [|? ? _ Hle]. inversion_clear Hle as [|? ? Hc _].
  vm_compute in Hc. discriminate Hc.
Qed.

(** The partial paths of all pairs stand in one list: the cheaper one of the second pair removes and frees that of the first. *)
Example partial_paths_compete :
  match add_all_pairs true false (Some [6]) (Some [6]) (empty_rel par) [[AddPartialPath (mk 3 0 90 [] None)]; [AddPartialPath (mk 4 0 40 [] None)]] with
  | Ok rel => (path_ptr <$> partial_pathlist rel, freed rel)
  | _ => ([], [])
  end = ([4%nat], [3%nat]).
Proof. vm_compute. reflexivity. Qed.

(** [save_join_order_plan_finished] survives from one query to the next: the base relations of
    the second query are planned without pruning, and so is a GEQO search. *)
Definition settings : PlannerSettings :=
  {| enable_join_order_plans := true; join_search_hook := false; enable_geqo := true; geqo_threshold := 3 |}.
Lemma stale_flag :
  let '(_, log1, after1) := planning_phases settings false [RangeTblRef 1; RangeTblRef 2] in
  let '(base2, log2, _) := planning_phases settings after1 [RangeTblRef 1; RangeTblRef 2; RangeTblRef 3] in
  log1 = [(StandardSearch, false)] /\ base2 = true /\ log2 = [(Geqo, true)].
Proof. vm_compute. auto. Qed.
End RootDemo.
