(* ===== verification/JoinRels.v ===== *)
(** * The join search ([joinrels.c], [joininfo.c], [relnode.c], [allpaths.c])

    [standard_join_search] builds the join relations of a query level by level; each join is checked
    by [join_is_legal], and its relation is found or made by [build_join_rel].

    The fields of a join relation that steer the search never change once it is built, so a
    [JoinRel] is a value; its paths do change and are kept apart, in the store of the interface
    [JoinPaths], which stands for the routines that make paths.  [tried] records the legal joins
    that were considered: the two inputs and the join relation. *)
From S2P Require Import Prelude Bitmapset BitmapsetSpec BitmapsetIter EquivClass PathKeys.
#[local] Open Scope Z_scope.

#[global] Instance JoinType_eq_dec : EqDecision JoinType.
Proof. solve_decision. Defined.

(** The part of a [RestrictInfo] in a [joininfo] list that is used here; [jc_ptr] is its address. *)
Record JoinClause := {
  jc_ptr : nat;
  required_relids : bitmapset;
  has_clone : bool;
  is_clone : bool;
  incompatible_relids : bitmapset
}.

(** The part of a [RelOptInfo] that the search reads. *)
Record JoinRel := {
  rel_ptr : nat;
  relids : bitmapset;
  joininfo : list JoinClause;
  has_eclass_joins : bool;
  lateral_relids : bitmapset;
  direct_lateral_relids : bitmapset;
  lateral_referencers : bitmapset
}.

Record SpecialJoinInfo := {
  sj_ptr : nat;
  min_lefthand : bitmapset;
  min_righthand : bitmapset;
  syn_lefthand : bitmapset;
  syn_righthand : bitmapset;
  jointype : JoinType;
  ojrelid : Z;
  commute_above_l : bitmapset;
  commute_above_r : bitmapset;
  commute_below_l : bitmapset;
  commute_below_r : bitmapset;
  lhs_strict : bool
}.
Definition is_join (t : JoinType) (sj : SpecialJoinInfo) : bool := bool_decide (jointype sj = t).

(** [phrels] is the field of [ph_var]. *)
Record PlaceHolderInfo := { phrels : bitmapset; ph_eval_at : bitmapset; ph_lateral : bitmapset; ph_needed : bitmapset }.

(** What the search uses of the code that makes paths: whether a relation has been proven empty,
    whether its rows can be made unique for a semijoin ([create_unique_path] is not NULL), whether the restriction list of a pair of inputs is
    constantly false ([restriction_is_constant_false], the flag is [only_pushed_down]), [mark_dummy_rel], the paths for one order of the inputs
    ([add_paths_to_joinrel]), whether the relation still has no path, [try_partitionwise_join], and the work at the end of a level ([generate_partitionwise_join_paths],
    [generate_useful_gather_paths] and [set_cheapest]), which fails for a relation without paths. *)
Class JoinPaths (Store : Type) := {
  is_dummy_rel : Store -> JoinRel -> bool;
  create_unique_path : Store -> JoinRel -> SpecialJoinInfo -> bool;
  restriction_is_constant_false : JoinRel -> JoinRel -> JoinRel -> bool -> bool;
  mark_dummy_rel : Store -> JoinRel -> Store;
  add_join_paths : Store -> JoinRel -> JoinRel -> JoinRel -> JoinType -> SpecialJoinInfo -> result Store;
  no_paths_yet : Store -> JoinRel -> bool;
  try_partitionwise_join : Store -> JoinRel -> JoinRel -> JoinRel -> SpecialJoinInfo -> result Store;
  finish_rel : Store -> JoinRel -> bool -> result Store
}.

Section JoinRels.
Context {Expr : Type} {Store : Type} {join_paths : JoinPaths Store} (hash_any : list Z -> Z).

(** What is fixed during the search. *)
Record Query := {
  join_info_list : list SpecialJoinInfo;
  placeholder_list : list PlaceHolderInfo;
  hasLateralRTEs : bool;
  initial_rels : list JoinRel;
  all_query_rels : bitmapset;
  ec_root : ECRoot Expr
}.

(** What the search changes.  [join_rel_hash] is the hash table as the list of its entries;
    [next_ptr] is the next address of [makeNode]. *)
Record PlannerInfo := {
  join_rel_list : list JoinRel;
  join_rel_hash : option (list (bitmapset * JoinRel));
  join_rel_level : option (list (list JoinRel));
  join_cur_level : Z;
  next_ptr : nat;
  store : Store;
  tried : list (JoinRel * JoinRel * JoinRel)
}.

(** ** Equivalence classes that mention a relation ([equivclass.c]) *)
Section EclassIndexes.
Context (root : ECRoot Expr).

(** [while ((i = bms_next_member(relids, i)) > 0)] *)
Fixpoint eclass_indexes_loop (fuel : nat) (rs : bitmapset) (i : Z) (ec_indexes : bitmapset) : result bitmapset :=
  match fuel with
  | O => NoFuel
  | S fuel =>
      let i := next_member rs i in
      if i >? 0 then
        rel ← array_get (eclass_indexes root) i;
        eclass_indexes_loop fuel rs i
          match rel with None => ec_indexes | Some indexes => bms_add_members ec_indexes indexes end
      else Ok ec_indexes
  end.
Definition get_eclass_indexes_for_relids (rs : bitmapset) : result bitmapset :=
  eclass_indexes_loop (S (S (Z.to_nat (bms_capacity rs)))) rs (-1) None.

Definition get_common_eclass_indexes (relids1 relids2 : bitmapset) : result bitmapset :=
  rel1ecs ← get_eclass_indexes_for_relids relids1;
  rel2ecs ← (let '(single, relid) := bms_get_singleton_member relids2 0 in
             if (single : bool) then
               rel ← array_get (eclass_indexes root) relid;
               match rel with Some indexes => Ok indexes | None => Error assert_msg end
             else get_eclass_indexes_for_relids relids2);
  Ok (bms_int_members rel1ecs rel2ecs).

(** The members [i] of [ecs], the class at [i] in [root->eq_classes], and whether one passes [test]. *)
Fixpoint eclass_exists (fuel : nat) (ecs : bitmapset) (i : Z) (test : EquivalenceClass Expr -> bool) : result bool :=
  match fuel with
  | O => NoFuel
  | S fuel =>
      let i := next_member ecs i in
      if 0 <=? i then
        p ← array_get (eq_classes root) i;
        let ec := get_ec root p in
        if (length (ec_members ec) <=? 1)%nat then eclass_exists fuel ecs i test
        else if test ec then Ok true else eclass_exists fuel ecs i test
      else Ok false
  end.
End EclassIndexes.

Context (q : Query).
Implicit Types (root : PlannerInfo) (rel old_rel other_rel joinrel : JoinRel) (sjinfo : SpecialJoinInfo).

(** ** Join clauses ([joininfo.c], [equivclass.c]) *)
Definition have_relevant_eclass_joinclause (rel1 rel2 : JoinRel) : result bool :=
  matching_ecs ← get_common_eclass_indexes (ec_root q) (relids rel1) (relids rel2);
  eclass_exists (ec_root q) (S (S (Z.to_nat (bms_capacity matching_ecs)))) matching_ecs (-1) (fun _ => true).
Definition has_relevant_eclass_joinclause (rs : bitmapset) : result bool :=
  matched_ecs ← get_eclass_indexes_for_relids (ec_root q) rs;
  eclass_exists (ec_root q) (S (S (Z.to_nat (bms_capacity matched_ecs)))) matched_ecs (-1)
    (fun ec => negb (bms_is_subset (ec_relids ec) rs)).

Definition have_relevant_joinclause (rel1 rel2 : JoinRel) : result bool :=
  let '(clauses, other_relids) :=
    if (length (joininfo rel1) <=? length (joininfo rel2))%nat then (joininfo rel1, relids rel2)
    else (joininfo rel2, relids rel1) in
  if existsb (fun rinfo => bms_overlap other_relids (required_relids rinfo)) clauses then Ok true
  else if has_eclass_joins rel1 && has_eclass_joins rel2 then have_relevant_eclass_joinclause rel1 rel2
  else Ok false.

(** ** Legality ([join_is_legal]) *)
Definition min_join_parameterization (joinrelids : bitmapset) (outer_rel inner_rel : JoinRel) : bitmapset :=
  bms_del_members (bms_union (lateral_relids outer_rel) (lateral_relids inner_rel)) joinrelids.

Definition dangerous_phv (outer_relids inner_params : bitmapset) (phinfo : PlaceHolderInfo) : bool :=
  if negb (bms_is_subset (ph_eval_at phinfo) inner_params) then false
  else if negb (bms_overlap (ph_eval_at phinfo) outer_relids) then false
  else if bms_is_subset (ph_eval_at phinfo) outer_relids then false
  else true.
Definition have_dangerous_phv (outer_relids inner_params : bitmapset) : bool :=
  existsb (dangerous_phv outer_relids inner_params) (placeholder_list q).

Record LegalState := {
  match_sjinfo : option SpecialJoinInfo;
  reversed : bool;
  unique_ified : bool;
  must_be_leftjoin : bool
}.

(** The special join [sjinfo] is performed at this join; [None] if there is a match already. *)
Definition set_match (ls : LegalState) sjinfo (rev uniq : bool) : option LegalState :=
  match match_sjinfo ls with
  | Some _ => None
  | None => Some {| match_sjinfo := Some sjinfo; reversed := rev; unique_ified := unique_ified ls || uniq;
                    must_be_leftjoin := must_be_leftjoin ls |}
  end.

(** [sjinfo] has nothing to say about this join. *)
Definition irrelevant (rel1 rel2 : JoinRel) (joinrelids : bitmapset) sjinfo : bool :=
  if negb (bms_overlap (min_righthand sjinfo) joinrelids) then true
  else if bms_is_subset joinrelids (min_righthand sjinfo) then true
  else if bms_is_subset (min_lefthand sjinfo) (relids rel1) && bms_is_subset (min_righthand sjinfo) (relids rel1) then true
  else if bms_is_subset (min_lefthand sjinfo) (relids rel2) && bms_is_subset (min_righthand sjinfo) (relids rel2) then true
  else is_join JOIN_SEMI sjinfo &&
       ((bms_is_subset (syn_righthand sjinfo) (relids rel1) && negb (bms_equal (syn_righthand sjinfo) (relids rel1))) ||
        (bms_is_subset (syn_righthand sjinfo) (relids rel2) && negb (bms_equal (syn_righthand sjinfo) (relids rel2)))).

(** One turn of the scan of [join_info_list]; [None] is [return false]. *)
Definition legal_step (st : Store) (rel1 rel2 : JoinRel) (joinrelids : bitmapset) (ls : LegalState) sjinfo : option LegalState :=
  if irrelevant rel1 rel2 joinrelids sjinfo then Some ls
  else if bms_is_subset (min_lefthand sjinfo) (relids rel1) && bms_is_subset (min_righthand sjinfo) (relids rel2)
  then set_match ls sjinfo false false
  else if bms_is_subset (min_lefthand sjinfo) (relids rel2) && bms_is_subset (min_righthand sjinfo) (relids rel1)
  then set_match ls sjinfo true false
  else if is_join JOIN_SEMI sjinfo && bms_equal (syn_righthand sjinfo) (relids rel2) && create_unique_path st rel2 sjinfo
  then set_match ls sjinfo false true
  else if is_join JOIN_SEMI sjinfo && bms_equal (syn_righthand sjinfo) (relids rel1) && create_unique_path st rel1 sjinfo
  then set_match ls sjinfo true true
  else if bms_overlap (relids rel1) (min_righthand sjinfo) && bms_overlap (relids rel2) (min_righthand sjinfo) then Some ls
  else if negb (is_join JOIN_LEFT sjinfo) || bms_overlap joinrelids (min_lefthand sjinfo) then None
  else Some {| match_sjinfo := match_sjinfo ls; reversed := reversed ls; unique_ified := unique_ified ls; must_be_leftjoin := true |}.
Fixpoint legal_scan (st : Store) (rel1 rel2 : JoinRel) (joinrelids : bitmapset) (ls : LegalState) (l : list SpecialJoinInfo)
    : option LegalState :=
  match l with
  | [] => Some ls
  | sjinfo :: l =>
      match legal_step st rel1 rel2 joinrelids ls sjinfo with
      | None => None
      | Some ls => legal_scan st rel1 rel2 joinrelids ls l
      end
  end.

(** A lateral reference from [inner] to [outer]: a nested loop with [outer] on the left. *)
Definition lateral_nestloop_ok (ls : LegalState) (wrong_side : bool) (outer inner : JoinRel) : bool :=
  if match match_sjinfo ls with
     | Some sjinfo => wrong_side || unique_ified ls || is_join JOIN_FULL sjinfo
     | None => false
     end then false
  else if negb (bms_overlap (relids outer) (direct_lateral_relids inner)) then false
  else if have_dangerous_phv (relids outer) (lateral_relids inner) then false
  else true.

(** One pass over [join_info_list], and the passes until nothing is added. *)
Fixpoint rhs_pass (l : list SpecialJoinInfo) (join_plus_rhs : bitmapset) (more : bool) : bitmapset * bool :=
  match l with
  | [] => (join_plus_rhs, more)
  | sjinfo :: l =>
      if is_join JOIN_FULL sjinfo then rhs_pass l join_plus_rhs more
      else if bms_overlap (min_lefthand sjinfo) join_plus_rhs && negb (bms_is_subset (min_righthand sjinfo) join_plus_rhs)
      then rhs_pass l (bms_add_members join_plus_rhs (min_righthand sjinfo)) true
      else rhs_pass l join_plus_rhs more
  end.
Fixpoint rhs_closure (fuel : nat) (join_plus_rhs : bitmapset) : result bitmapset :=
  match fuel with
  | O => NoFuel
  | S fuel =>
      let '(join_plus_rhs, more) := rhs_pass (join_info_list q) join_plus_rhs false in
      if (more : bool) then rhs_closure fuel join_plus_rhs else Ok join_plus_rhs
  end.

Definition lateral_legal (ls : LegalState) (rel1 rel2 : JoinRel) (joinrelids : bitmapset) : result bool :=
  let lateral_fwd := bms_overlap (relids rel1) (lateral_relids rel2) in
  let lateral_rev := bms_overlap (relids rel2) (lateral_relids rel1) in
  if lateral_fwd && lateral_rev then Ok false
  else if lateral_fwd && negb (lateral_nestloop_ok ls (reversed ls) rel1 rel2) then Ok false
  else if lateral_rev && negb (lateral_nestloop_ok ls (negb (reversed ls)) rel2 rel1) then Ok false
  else
    match min_join_parameterization joinrelids rel1 rel2 with
    | None => Ok true
    | join_lateral_rels =>
        join_plus_rhs ← rhs_closure (S (length (join_info_list q))) (bms_copy joinrelids);
        Ok (negb (bms_overlap join_plus_rhs join_lateral_rels))
    end.

(** [None] is an illegal join; otherwise the special join performed here, if any, and whether the
    inputs are to be swapped. *)
Definition join_is_legal (st : Store) (rel1 rel2 : JoinRel) (joinrelids : bitmapset)
    : result (option (option SpecialJoinInfo * bool)) :=
  match legal_scan st rel1 rel2 joinrelids
          {| match_sjinfo := None; reversed := false; unique_ified := false; must_be_leftjoin := false |} (join_info_list q) with
  | None => Ok None
  | Some ls =>
      if must_be_leftjoin ls &&
         match match_sjinfo ls with None => true | Some sjinfo => negb (is_join JOIN_LEFT sjinfo) || negb (lhs_strict sjinfo) end
      then Ok None
      else
        ok ← (if hasLateralRTEs q then lateral_legal ls rel1 rel2 joinrelids else Ok true);
        Ok (if (ok : bool) then Some (match_sjinfo ls, reversed ls) else None)
  end.

(** ** Making join relations *)

(** The scan for outer joins that were pushed down and are complete now. *)
Fixpoint pushed_down_loop sjinfo (l : list SpecialJoinInfo) (input_relids commute_above_rels : bitmapset) : result bitmapset :=
  match l with
  | [] => Ok input_relids
  | othersj :: l =>
      if (sj_ptr othersj =? sj_ptr sjinfo)%nat || (ojrelid othersj =? 0) || negb (is_join JOIN_LEFT othersj)
      then pushed_down_loop sjinfo l input_relids commute_above_rels
      else
        candidate ← bms_is_member (ojrelid othersj) commute_above_rels;
        if negb candidate then pushed_down_loop sjinfo l input_relids commute_above_rels
        else
          present ← bms_is_member (ojrelid othersj) input_relids;
          if negb present && bms_is_subset (min_lefthand othersj) input_relids &&
             bms_is_subset (min_righthand othersj) input_relids && bms_is_subset (commute_below_l othersj) input_relids
          then input_relids ← bms_add_member input_relids (ojrelid othersj);
               pushed_down_loop sjinfo l input_relids (bms_add_members commute_above_rels (commute_above_l othersj))
          else pushed_down_loop sjinfo l input_relids commute_above_rels
  end.
Definition add_outer_joins_to_relids (input_relids : bitmapset) (sjinfo_p : option SpecialJoinInfo) : result bitmapset :=
  match sjinfo_p with
  | None => Ok input_relids
  | Some sjinfo =>
      if ojrelid sjinfo =? 0 then Ok input_relids
      else if negb (is_join JOIN_LEFT sjinfo) then bms_add_member input_relids (ojrelid sjinfo)
      else if negb (bms_is_subset (commute_below_l sjinfo) input_relids) then Ok input_relids
      else
        input_relids ← bms_add_member input_relids (ojrelid sjinfo);
        match commute_above_l sjinfo with
        | None => Ok input_relids
        | commute_above_rels => pushed_down_loop sjinfo (join_info_list q) input_relids (bms_copy commute_above_rels)
        end
  end.

(** [hash_search(..., HASH_FIND)]: the entry with the hash value of the key for which [match] returns 0. *)
Definition hash_find (tab : list (bitmapset * JoinRel)) (key : bitmapset) : option JoinRel :=
  snd <$> List.find (fun e => (bitmap_hash hash_any (fst e) =? bitmap_hash hash_any key) && negb (bitmap_match (fst e) key)) tab.
(** [hash_search(..., HASH_ENTER)] for a key that is not there. *)
Definition hash_enter (tab : list (bitmapset * JoinRel)) rel : list (bitmapset * JoinRel) := tab ++ [(relids rel, rel)].

Definition set_hash root (tab : option (list (bitmapset * JoinRel))) : PlannerInfo :=
  {| join_rel_list := join_rel_list root; join_rel_hash := tab; join_rel_level := join_rel_level root;
     join_cur_level := join_cur_level root; next_ptr := next_ptr root; store := store root; tried := tried root |}.
Definition build_join_rel_hash root : PlannerInfo :=
  set_hash root (Some (fold_left hash_enter (join_rel_list root) [])).
Definition find_join_rel root (rs : bitmapset) : option JoinRel * PlannerInfo :=
  let root :=
    match join_rel_hash root with
    | None => if (32 <? length (join_rel_list root))%nat then build_join_rel_hash root else root
    | Some _ => root
    end in
  match join_rel_hash root with
  | Some tab => (hash_find tab rs, root)
  | None => (List.find (fun rel => bms_equal (relids rel) rs) (join_rel_list root), root)
  end.
Definition add_join_rel root joinrel : PlannerInfo :=
  {| join_rel_list := join_rel_list root ++ [joinrel];
     join_rel_hash := match join_rel_hash root with None => None | Some tab => Some (hash_enter tab joinrel) end;
     join_rel_level := join_rel_level root; join_cur_level := join_cur_level root; next_ptr := next_ptr root;
     store := store root; tried := tried root |}.

(** [list_append_unique_ptr] *)
Definition append_unique_ptr (l : list JoinClause) (rinfo : JoinClause) : list JoinClause :=
  if existsb (fun c => jc_ptr c =? jc_ptr rinfo)%nat l then l else l ++ [rinfo].
Fixpoint subbuild_joinrel_joinlist (joinrelids : bitmapset) (joininfo_list new_joininfo : list JoinClause) : list JoinClause :=
  match joininfo_list with
  | [] => new_joininfo
  | rinfo :: l =>
      subbuild_joinrel_joinlist joinrelids l
        (if bms_is_subset (required_relids rinfo) joinrelids then new_joininfo else append_unique_ptr new_joininfo rinfo)
  end.
Definition build_joinrel_joinlist (joinrelids : bitmapset) (outer_rel inner_rel : JoinRel) : list JoinClause :=
  subbuild_joinrel_joinlist joinrelids (joininfo inner_rel)
    (subbuild_joinrel_joinlist joinrelids (joininfo outer_rel) []).

(** What [add_placeholders_to_joinrel] does to [direct_lateral_relids]. *)
Fixpoint add_placeholders_to_joinrel (rs : bitmapset) (l : list PlaceHolderInfo) (direct : bitmapset) : bitmapset :=
  match l with
  | [] => direct
  | phinfo :: l =>
      add_placeholders_to_joinrel rs l
        (if bms_is_subset (ph_eval_at phinfo) rs then bms_add_members direct (ph_lateral phinfo) else direct)
  end.

(** [root->join_rel_level[root->join_cur_level] = lappend(..., joinrel)] *)
Definition add_to_level root joinrel : result PlannerInfo :=
  match join_rel_level root with
  | None => Ok root
  | Some levels =>
      l ← array_get levels (join_cur_level root);
      levels ← array_set levels (join_cur_level root) (l ++ [joinrel]);
      Ok {| join_rel_list := join_rel_list root; join_rel_hash := join_rel_hash root; join_rel_level := Some levels;
            join_cur_level := join_cur_level root; next_ptr := next_ptr root; store := store root; tried := tried root |}
  end.

Definition make_join_node (ptr : nat) (joinrelids : bitmapset) (outer_rel inner_rel : JoinRel) : result JoinRel :=
  let direct := bms_union (direct_lateral_relids outer_rel) (direct_lateral_relids inner_rel) in
  let direct := add_placeholders_to_joinrel joinrelids (placeholder_list q) direct in
  eclass ← has_relevant_eclass_joinclause joinrelids;
  Ok {| rel_ptr := ptr; relids := bms_copy joinrelids;
        joininfo := build_joinrel_joinlist joinrelids outer_rel inner_rel;
        has_eclass_joins := eclass;
        lateral_relids := min_join_parameterization joinrelids outer_rel inner_rel;
        direct_lateral_relids := bms_del_members direct joinrelids;
        lateral_referencers := None |}.
Definition bump root : PlannerInfo :=
  {| join_rel_list := join_rel_list root; join_rel_hash := join_rel_hash root; join_rel_level := join_rel_level root;
     join_cur_level := join_cur_level root; next_ptr := S (next_ptr root); store := store root; tried := tried root |}.

Definition build_join_rel root (joinrelids : bitmapset) (outer_rel inner_rel : JoinRel) : result (JoinRel * PlannerInfo) :=
  match find_join_rel root joinrelids with
  | (Some joinrel, root) => Ok (joinrel, root)
  | (None, root) =>
      joinrel ← make_join_node (next_ptr root) joinrelids outer_rel inner_rel;
      root ← add_to_level (add_join_rel (bump root) joinrel) joinrel;
      Ok (joinrel, root)
  end.

(** The special join made up for a plain inner join. *)
Definition inner_sjinfo (rel1 rel2 : JoinRel) : SpecialJoinInfo :=
  {| sj_ptr := 0; min_lefthand := relids rel1; min_righthand := relids rel2; syn_lefthand := relids rel1;
     syn_righthand := relids rel2; jointype := JOIN_INNER; ojrelid := 0; commute_above_l := None; commute_above_r := None;
     commute_below_l := None; commute_below_r := None; lhs_strict := false |}.

Definition full_join_msg : string := "FULL JOIN is only supported with merge-joinable or hash-joinable join conditions".
Definition join_type_msg : string := "unrecognized join type".

(** The [break]s of the code end a branch; what follows the [switch] is [try_partitionwise_join]. *)
Definition populate_joinrel_with_paths (st : Store) (rel1 rel2 joinrel : JoinRel) sjinfo : result Store :=
  let constant_false := restriction_is_constant_false rel1 rel2 joinrel in
  let add_paths st outer inner t := add_join_paths st joinrel outer inner t sjinfo in
  (** left joins and antijoins *)
  let one_sided t reversed :=
    if is_dummy_rel st rel1 || constant_false true then Ok (mark_dummy_rel st joinrel)
    else
      let st := if constant_false false && bms_is_subset (relids rel2) (syn_righthand sjinfo) then mark_dummy_rel st rel2 else st in
      st ← add_paths st rel1 rel2 t; add_paths st rel2 rel1 reversed in
  (** making the right-hand side of a semijoin unique *)
  let unique_ified st :=
    if bms_equal (syn_righthand sjinfo) (relids rel2) && create_unique_path st rel2 sjinfo then
      if is_dummy_rel st rel1 || is_dummy_rel st rel2 || constant_false false then Ok (mark_dummy_rel st joinrel)
      else st ← add_paths st rel1 rel2 JOIN_UNIQUE_INNER; add_paths st rel2 rel1 JOIN_UNIQUE_OUTER
    else Ok st in
  st ← match jointype sjinfo with
       | JOIN_INNER =>
           if is_dummy_rel st rel1 || is_dummy_rel st rel2 || constant_false false then Ok (mark_dummy_rel st joinrel)
           else st ← add_paths st rel1 rel2 JOIN_INNER; add_paths st rel2 rel1 JOIN_INNER
       | JOIN_LEFT => one_sided JOIN_LEFT JOIN_RIGHT
       | JOIN_FULL =>
           if (is_dummy_rel st rel1 && is_dummy_rel st rel2) || constant_false true then Ok (mark_dummy_rel st joinrel)
           else
             st ← add_paths st rel1 rel2 JOIN_FULL;
             st ← add_paths st rel2 rel1 JOIN_FULL;
             if no_paths_yet st joinrel then Error full_join_msg else Ok st
       | JOIN_SEMI =>
           if bms_is_subset (min_lefthand sjinfo) (relids rel1) && bms_is_subset (min_righthand sjinfo) (relids rel2) then
             if is_dummy_rel st rel1 || is_dummy_rel st rel2 || constant_false false then Ok (mark_dummy_rel st joinrel)
             else st ← add_paths st rel1 rel2 JOIN_SEMI; unique_ified st
           else unique_ified st
       | JOIN_ANTI => one_sided JOIN_ANTI JOIN_RIGHT_ANTI
       | _ => Error join_type_msg
       end;
  try_partitionwise_join st rel1 rel2 joinrel sjinfo.

Definition set_store root (st : Store) : PlannerInfo :=
  {| join_rel_list := join_rel_list root; join_rel_hash := join_rel_hash root; join_rel_level := join_rel_level root;
     join_cur_level := join_cur_level root; next_ptr := next_ptr root; store := st; tried := tried root |}.
Definition log_join root (rel1 rel2 joinrel : JoinRel) : PlannerInfo :=
  {| join_rel_list := join_rel_list root; join_rel_hash := join_rel_hash root; join_rel_level := join_rel_level root;
     join_cur_level := join_cur_level root; next_ptr := next_ptr root; store := store root;
     tried := tried root ++ [(rel1, rel2, joinrel)] |}.

Definition make_join_rel root (rel1 rel2 : JoinRel) : result (option JoinRel * PlannerInfo) :=
  if bms_overlap (relids rel1) (relids rel2) then Error assert_msg else
  let joinrelids := bms_union (relids rel1) (relids rel2) in
  legal ← join_is_legal (store root) rel1 rel2 joinrelids;
  match legal with
  | None => Ok (None, root)
  | Some (sjinfo_p, rev) =>
      joinrelids ← add_outer_joins_to_relids joinrelids sjinfo_p;
      let '(rel1, rel2) := if (rev : bool) then (rel2, rel1) else (rel1, rel2) in
      let sjinfo := match sjinfo_p with Some sjinfo => sjinfo | None => inner_sjinfo rel1 rel2 end in
      '(joinrel, root) ← build_join_rel root joinrelids rel1 rel2;
      let root := log_join root rel1 rel2 joinrel in
      if is_dummy_rel (store root) joinrel then Ok (Some joinrel, root)
      else
        st ← populate_joinrel_with_paths (store root) rel1 rel2 joinrel sjinfo;
        Ok (Some joinrel, set_store root st)
  end.

(** ** Join order restrictions *)
Definition phv_needs_both (rel1 rel2 : JoinRel) (phinfo : PlaceHolderInfo) : bool :=
  bms_is_subset (relids rel1) (ph_eval_at phinfo) && bms_is_subset (relids rel2) (ph_eval_at phinfo).
Definition sj_wants_join (rel1 rel2 : JoinRel) sjinfo : bool :=
  if is_join JOIN_FULL sjinfo then false
  else (bms_is_subset (min_lefthand sjinfo) (relids rel1) && bms_is_subset (min_righthand sjinfo) (relids rel2)) ||
       (bms_is_subset (min_lefthand sjinfo) (relids rel2) && bms_is_subset (min_righthand sjinfo) (relids rel1)) ||
       (bms_overlap (min_righthand sjinfo) (relids rel1) && bms_overlap (min_righthand sjinfo) (relids rel2)) ||
       (bms_overlap (min_lefthand sjinfo) (relids rel1) && bms_overlap (min_lefthand sjinfo) (relids rel2)).

Fixpoint has_legal_joinclause (st : Store) rel (l : list JoinRel) : result bool :=
  match l with
  | [] => Ok false
  | rel2 :: l =>
      if bms_overlap (relids rel) (relids rel2) then has_legal_joinclause st rel l
      else
        relevant ← have_relevant_joinclause rel rel2;
        legal ← (if (relevant : bool) then join_is_legal st rel rel2 (bms_union (relids rel) (relids rel2)) else Ok None);
        match legal with
        | Some _ => Ok true
        | None => has_legal_joinclause st rel l
        end
  end.

Definition have_join_order_restriction (st : Store) (rel1 rel2 : JoinRel) : result bool :=
  if bms_overlap (relids rel1) (direct_lateral_relids rel2) || bms_overlap (relids rel2) (direct_lateral_relids rel1) then Ok true
  else if existsb (phv_needs_both rel1 rel2) (placeholder_list q) then Ok true
  else if existsb (sj_wants_join rel1 rel2) (join_info_list q) then
    one ← has_legal_joinclause st rel1 (initial_rels q);
    two ← (if (one : bool) then Ok true else has_legal_joinclause st rel2 (initial_rels q));
    Ok (negb two)
  else Ok false.

Definition phv_restricts rel (phinfo : PlaceHolderInfo) : bool :=
  bms_is_subset (relids rel) (ph_eval_at phinfo) && negb (bms_equal (relids rel) (ph_eval_at phinfo)).
Definition sj_restricts rel sjinfo : bool :=
  if is_join JOIN_FULL sjinfo then false
  else if bms_is_subset (min_lefthand sjinfo) (relids rel) && bms_is_subset (min_righthand sjinfo) (relids rel) then false
  else bms_overlap (min_lefthand sjinfo) (relids rel) || bms_overlap (min_righthand sjinfo) (relids rel).
Definition has_join_restriction rel : bool :=
  match lateral_relids rel, lateral_referencers rel with
  | None, None => existsb (phv_restricts rel) (placeholder_list q) || existsb (sj_restricts rel) (join_info_list q)
  | _, _ => true
  end.

(** ** One level *)

(** A clause or a restriction links the two relations. *)
Definition linked root (rel1 rel2 : JoinRel) : result bool :=
  clause ← have_relevant_joinclause rel1 rel2;
  if (clause : bool) then Ok true else have_join_order_restriction (store root) rel1 rel2.

Fixpoint make_rels_by_clause_joins root old_rel (other_rels : list JoinRel) : result PlannerInfo :=
  match other_rels with
  | [] => Ok root
  | other_rel :: l =>
      root ← (if bms_overlap (relids old_rel) (relids other_rel) then Ok root
              else link ← linked root old_rel other_rel;
                   if (link : bool) then snd <$> make_join_rel root old_rel other_rel else Ok root);
      make_rels_by_clause_joins root old_rel l
  end.
Fixpoint make_rels_by_clauseless_joins root old_rel (other_rels : list JoinRel) : result PlannerInfo :=
  match other_rels with
  | [] => Ok root
  | other_rel :: l =>
      root ← (if bms_overlap (relids other_rel) (relids old_rel) then Ok root
              else snd <$> make_join_rel root old_rel other_rel);
      make_rels_by_clauseless_joins root old_rel l
  end.

(** [joinrels[k]] *)
Definition level_rels root (k : Z) : result (list JoinRel) :=
  match join_rel_level root with None => Error assert_msg | Some levels => array_get levels k end.

Definition has_links rel : bool :=
  match joininfo rel with _ :: _ => true | [] => has_eclass_joins rel || has_join_restriction rel end.

(** The first loop: relations of the previous level against initial relations. *)
Fixpoint linear_joins root (level : Z) (rels : list JoinRel) : result PlannerInfo :=
  match rels with
  | [] => Ok root
  | old_rel :: rest =>
      initial ← level_rels root 1;
      root ← (if has_links old_rel then make_rels_by_clause_joins root old_rel (if level =? 2 then rest else initial)
              else make_rels_by_clauseless_joins root old_rel initial);
      linear_joins root level rest
  end.

(** The second loop: bushy joins of [k] and [other_level] items. *)
Fixpoint bushy_pairs root (k other_level : Z) (rels : list JoinRel) : result PlannerInfo :=
  match rels with
  | [] => Ok root
  | old_rel :: rest =>
      root ← (if has_links old_rel then
                others ← (if k =? other_level then Ok rest else level_rels root other_level);
                make_rels_by_clause_joins root old_rel others
              else Ok root);
      bushy_pairs root k other_level rest
  end.
Fixpoint bushy_joins (fuel : nat) root (level k : Z) : result PlannerInfo :=
  match fuel with
  | O => NoFuel
  | S fuel =>
      let other_level := level - k in
      if other_level <? k then Ok root
      else
        rels ← level_rels root k;
        root ← bushy_pairs root k other_level rels;
        bushy_joins fuel root level (k + 1)
  end.

(** The last-ditch loop. *)
Fixpoint cartesian_joins root (rels : list JoinRel) : result PlannerInfo :=
  match rels with
  | [] => Ok root
  | old_rel :: rest =>
      initial ← level_rels root 1;
      root ← make_rels_by_clauseless_joins root old_rel initial;
      cartesian_joins root rest
  end.

Definition set_cur_level root (level : Z) : PlannerInfo :=
  {| join_rel_list := join_rel_list root; join_rel_hash := join_rel_hash root; join_rel_level := join_rel_level root;
     join_cur_level := level; next_ptr := next_ptr root; store := store root; tried := tried root |}.
Definition no_joins_msg : string := "failed to build any %d-way joins".

Definition join_search_one_level root (level : Z) : result PlannerInfo :=
  let root := set_cur_level root level in
  previous ← level_rels root (level - 1);
  root ← linear_joins root level previous;
  root ← bushy_joins (S (Z.to_nat level)) root level 2;
  found ← level_rels root level;
  match found with
  | _ :: _ => Ok root
  | [] =>
      root ← cartesian_joins root previous;
      found ← level_rels root level;
      match found, join_info_list q with
      | [], [] => if hasLateralRTEs q then Ok root else Error no_joins_msg
      | _, _ => Ok root
      end
  end.

(** ** The search *)
Fixpoint finish_level root (rels : list JoinRel) : result PlannerInfo :=
  match rels with
  | [] => Ok root
  | rel :: rels =>
      st ← finish_rel (store root) rel (bms_equal (relids rel) (all_query_rels q));
      finish_level (set_store root st) rels
  end.
Fixpoint search_levels (todo : nat) root (lev : Z) : result PlannerInfo :=
  match todo with
  | O => Ok root
  | S todo =>
      root ← join_search_one_level root lev;
      rels ← level_rels root lev;
      root ← finish_level root rels;
      search_levels todo root (lev + 1)
  end.
Definition set_levels root (levels : option (list (list JoinRel))) : PlannerInfo :=
  {| join_rel_list := join_rel_list root; join_rel_hash := join_rel_hash root; join_rel_level := levels;
     join_cur_level := join_cur_level root; next_ptr := next_ptr root; store := store root; tried := tried root |}.
(** [levels] is returned as well: the array is dropped at the end of the search. *)
Definition standard_join_search root (levels_needed : Z) (initial : list JoinRel) : result (JoinRel * PlannerInfo * list (list JoinRel)) :=
  levels ← array_set (replicate (Z.to_nat (levels_needed + 1)) []) 1 initial;
  root ← search_levels (Z.to_nat (levels_needed - 1)) (set_levels root (Some levels)) 2;
  final ← level_rels root levels_needed;
  match final with
  | [] => Error no_joins_msg
  | rel :: _ => Ok (rel, set_levels root None, match join_rel_level root with Some levels => levels | None => [] end)
  end.
End JoinRels.
