(* ===== verification/JoinLinks.v ===== *)
(** * Join relations and the clauses that link them

    The relations of a join search are unions of initial relations: [items] of a set of range table
    indexes are the initial relations it meets, and their number is the level.  The tests
    [have_relevant_joinclause] and [has_relevant_eclass_joinclause] decide whether a
    clause or an equivalence class mentions both sides, and [build_joinrel_joinlist] keeps the
    [joininfo] lists exact. *)
From S2P Require Import Prelude Bitmapset BitmapsetSpec BitmapsetIter EquivClass PathKeys JoinRels.
#[local] Open Scope Z_scope.

(** ** Sets of range table indexes as integers *)
Definition meets (x y : Z) : Prop := Z.land x y <> 0.
Definition within (x y : Z) : Prop := Z.ldiff x y = 0.

Lemma bits_zero x : x = 0 <-> forall b, 0 <= b -> Z.testbit x b = false.
Proof.
  split; [intros -> b _; apply Z.bits_0|]. intros H. apply Z.bits_inj'. intros b Hb. by rewrite H, Z.bits_0.
Qed.
Lemma bits_nonzero x : x <> 0 <-> exists b, 0 <= b /\ Z.testbit x b = true.
Proof.
  split.
  - intros Hne. destruct (Z_lt_ge_dec x 0) as [Hneg|].
    + exists (Z.succ (Z.log2 (Z.abs x))). pose proof (Z.log2_nonneg (Z.abs x)). split; [lia|].
      apply (Z.bits_iff_neg x); [apply Z.lt_succ_diag_r|done].
    + exists (Z.log2 x). pose proof (Z.log2_nonneg x). split; [done|]. apply Z.bit_log2. lia.
  - intros (b & Hb & Ht) ->. by rewrite Z.bits_0 in Ht.
Qed.
Lemma meets_bits x y : meets x y <-> exists b, 0 <= b /\ Z.testbit x b = true /\ Z.testbit y b = true.
Proof. unfold meets. rewrite bits_nonzero. setoid_rewrite Z.land_spec. setoid_rewrite andb_true_iff. done. Qed.
Lemma within_bits x y : within x y <-> forall b, 0 <= b -> Z.testbit x b = true -> Z.testbit y b = true.
Proof.
  unfold within. rewrite bits_zero. split; intros H b Hb.
  - intros Hx. specialize (H b Hb). rewrite Z.ldiff_spec, Hx in H. by destruct (Z.testbit y b).
  - rewrite Z.ldiff_spec. specialize (H b Hb). destruct (Z.testbit x b); [by rewrite H|done].
Qed.
Lemma meets_sym x y : meets x y <-> meets y x.
Proof. unfold meets. by rewrite Z.land_comm. Qed.
Lemma meets_lor_l x y z : meets (Z.lor x y) z <-> meets x z \/ meets y z.
Proof.
  rewrite !meets_bits. setoid_rewrite Z.lor_spec. setoid_rewrite orb_true_iff. naive_solver.
Qed.
Lemma within_meets x y z : within x y -> meets x z -> meets y z.
Proof. rewrite within_bits, !meets_bits. naive_solver. Qed.

(** The code's tests on well-formed sets. *)
Lemma overlap_meets a b : bms_wf a -> bms_wf b -> bms_overlap a b = true <-> meets (bms_val a) (bms_val b).
Proof. intros Ha Hb. rewrite bms_overlap_spec by done. unfold meets. by rewrite negb_true_iff, Z.eqb_neq. Qed.
Lemma overlap_apart a b : bms_wf a -> bms_wf b -> bms_overlap a b = false <-> ~ meets (bms_val a) (bms_val b).
Proof. intros Ha Hb. rewrite <- overlap_meets by done. by destruct (bms_overlap a b). Qed.
Lemma subset_within a b : bms_wf a -> bms_wf b -> bms_is_subset a b = true <-> within (bms_val a) (bms_val b).
Proof. intros Ha Hb. rewrite bms_is_subset_spec by done. unfold within. by rewrite Z.eqb_eq. Qed.

(** ** Unions of initial relations *)
Section Items.
Context (vals : list Z).
Definition val_at (i : nat) : Z := nth i vals 0.
Definition items (x : Z) : list nat := List.filter (fun i => negb (Z.land (val_at i) x =? 0)) (seq 0 (length vals)).
Definition mask (l : list nat) : Z := foldr (fun i acc => Z.lor (val_at i) acc) 0 l.
Definition union_of_items (x : Z) : Prop := x = mask (items x).
Definition level_of (x : Z) : Z := Z.of_nat (length (items x)).

Record apart : Prop := {
  ap_nonempty i : (i < length vals)%nat -> val_at i <> 0;
  ap_disjoint i j : (i < length vals)%nat -> (j < length vals)%nat -> i <> j -> ~ meets (val_at i) (val_at j)
}.

Lemma elem_of_items x i : i ∈ items x <-> (i < length vals)%nat /\ meets (val_at i) x.
Proof.
  unfold items, meets. rewrite list_elem_of_In, List.filter_In, <- list_elem_of_In, elem_of_seq, negb_true_iff, Z.eqb_neq. lia.
Qed.
Lemma mask_bit l b : Z.testbit (mask l) b = true <-> exists i, i ∈ l /\ Z.testbit (val_at i) b = true.
Proof.
  induction l as [|i l IH]; cbn.
  - rewrite Z.bits_0. split; [done|]. by intros (i & Hi%not_elem_of_nil & _).
  - rewrite Z.lor_spec, orb_true_iff, IH. setoid_rewrite elem_of_cons. naive_solver.
Qed.

Lemma mask_app l l' : mask (l ++ l') = Z.lor (mask l) (mask l').
Proof.
  apply Z.bits_inj'. intros b Hb. apply eq_true_iff_eq. rewrite Z.lor_spec, orb_true_iff, !mask_bit. setoid_rewrite elem_of_app. naive_solver.
Qed.

Lemma filter_id {A} (p : A -> bool) (l : list A) : (forall i, i ∈ l -> p i = true) -> List.filter p l = l.
Proof.
  induction l as [|i l IH]; intros H; cbn; [done|]. rewrite (H i) by apply list_elem_of_here. f_equal. apply IH. intros; apply H. by right.
Qed.
Lemma filter_full {A} (p : A -> bool) (l : list A) : length (List.filter p l) = length l -> List.filter p l = l.
Proof.
  induction l as [|i l IH]; cbn; [done|]. destruct (p i); cbn; intros H; [f_equal; apply IH; lia|].
  pose proof (List.filter_length_le p l). lia.
Qed.

Section Apart.
Context (Hap : apart).

Lemma item_within x i : union_of_items x -> i ∈ items x -> within (val_at i) x.
Proof. intros Hu Hi. apply within_bits. intros b Hb Ht. rewrite Hu. apply mask_bit. by exists i. Qed.
Lemma item_inside x i : union_of_items x -> (i < length vals)%nat -> meets (val_at i) x -> within (val_at i) x.
Proof. intros Hu Hi Hm. apply item_within; [done|]. by apply elem_of_items. Qed.

Lemma filter_or_length {A} (p r : A -> bool) (l : list A) : (forall i, i ∈ l -> p i = true -> r i = true -> False) ->
  length (List.filter (fun i => p i || r i) l) = (length (List.filter p l) + length (List.filter r l))%nat.
Proof.
  induction l as [|i l IH]; intros H; cbn; [done|]. specialize (IH ltac:(intros; eapply H; [by right|done|done])).
  pose proof (H i (list_elem_of_here _ _)) as Hi. destruct (p i), (r i); cbn; try lia.
Qed.

Lemma union_items x y : union_of_items x -> union_of_items y -> ~ meets x y ->
  union_of_items (Z.lor x y) /\ level_of (Z.lor x y) = level_of x + level_of y.
Proof.
  intros Hx Hy Hxy.
  assert (forall i, (i < length vals)%nat -> meets (val_at i) (Z.lor x y) <-> meets (val_at i) x \/ meets (val_at i) y) as Hor.
  { intros i Hi. rewrite meets_sym, meets_lor_l. by rewrite (meets_sym x), (meets_sym y). }
  split.
  - apply Z.bits_inj'. intros b Hb. rewrite Z.lor_spec. apply eq_true_iff_eq. rewrite orb_true_iff, mask_bit.
    split.
    + intros Hxb. assert (exists i, (i ∈ items x \/ i ∈ items y) /\ Z.testbit (val_at i) b = true) as (i & Hi & Hbi).
      { destruct Hxb as [H|H]; [rewrite Hx in H|rewrite Hy in H]; apply mask_bit in H as (i & Hi & Hbi); eauto. }
      exists i. split; [|done]. apply elem_of_items. rewrite !elem_of_items in Hi. rewrite Hor by tauto. tauto.
    + intros (i & Hi & Hbi). apply elem_of_items in Hi as [Hi Hm]. apply Hor in Hm as [Hm|Hm]; [left|right|done];
        eapply within_bits; try done; by apply item_inside.
  - unfold level_of, items. rewrite <- Nat2Z.inj_add. f_equal.
    rewrite <- filter_or_length.
    + f_equal. apply List.filter_ext_in. intros i Hi%list_elem_of_In%elem_of_seq. specialize (Hor i ltac:(lia)). unfold meets in Hor.
      apply eq_true_iff_eq. rewrite orb_true_iff, !negb_true_iff, !Z.eqb_neq. done.
    + intros i Hi%elem_of_seq Hp Hr. rewrite negb_true_iff, Z.eqb_neq in Hp, Hr. apply Hxy.
      assert (within (val_at i) x) as Wx by (apply item_inside; [done|lia|done]).
      assert (within (val_at i) y) as Wy by (apply item_inside; [done|lia|done]).
      apply (within_meets (val_at i)); [done|]. apply meets_bits.
      destruct (proj1 (bits_nonzero _) (ap_nonempty Hap i ltac:(lia))) as (b & Hb & Ht). exists b.
      split_and!; [done|done|]. by eapply within_bits.
Qed.

Lemma items_single i : (i < length vals)%nat -> items (val_at i) = [i].
Proof.
  intros Hi. assert (forall s k, (forall j, (s <= j < s + k)%nat -> (j < length vals)%nat) -> (s <= i < s + k)%nat ->
    List.filter (fun j => negb (Z.land (val_at j) (val_at i) =? 0)) (seq s k) = [i]) as H; [|apply H; lia].
  assert (forall s k, (forall j, (s <= j < s + k)%nat -> (j < length vals)%nat) -> ~ (s <= i < s + k)%nat ->
    List.filter (fun j => negb (Z.land (val_at j) (val_at i) =? 0)) (seq s k) = []) as H0.
  { intros s k. revert s. induction k as [|k IH]; intros s Hj Hn; cbn; [done|].
    assert (s < length vals)%nat as Hs by (apply Hj; lia). pose proof (ap_disjoint Hap s i Hs Hi ltac:(lia)) as Hd. unfold meets in Hd.
    destruct (Z.eqb_spec (Z.land (val_at s) (val_at i)) 0); [|tauto]. cbn. apply IH; [intros; apply Hj|]; lia. }
  intros s k. revert s. induction k as [|k IH]; intros s Hj Hin; cbn; [lia|].
  destruct (decide (s = i)) as [->|Hne].
  - rewrite Z.land_diag. pose proof (ap_nonempty Hap i Hi). destruct (Z.eqb_spec (val_at i) 0); [done|]. cbn. f_equal.
    apply H0; [intros; apply Hj|]; lia.
  - assert (s < length vals)%nat as Hs by (apply Hj; lia). pose proof (ap_disjoint Hap s i Hs Hi Hne) as Hd. unfold meets in Hd.
    destruct (Z.eqb_spec (Z.land (val_at s) (val_at i)) 0); [|tauto]. cbn. apply IH; [intros; apply Hj|]; lia.
Qed.
Lemma single_union i : (i < length vals)%nat -> union_of_items (val_at i) /\ level_of (val_at i) = 1.
Proof.
  intros Hi. unfold union_of_items, level_of. rewrite items_single by done. cbn. by rewrite Z.lor_0_r.
Qed.

Lemma level_bound x : 0 <= level_of x <= Z.of_nat (length vals).
Proof.
  unfold level_of, items. pose proof (List.filter_length_le (fun i => negb (Z.land (val_at i) x =? 0)) (seq 0 (length vals))) as H.
  rewrite length_seq in H. lia.
Qed.
(** A union of fewer than all items leaves one out. *)
Lemma item_missing x : level_of x < Z.of_nat (length vals) -> exists i, (i < length vals)%nat /\ ~ meets (val_at i) x.
Proof.
  intros Hlt. unfold level_of in Hlt.
  destruct (list_find (fun i => ~ (Z.land (val_at i) x <> 0)) (seq 0 (length vals))) as [[k i]|] eqn:E.
  - apply list_find_Some in E as (Hk & Hm & _). exists i. split; [|exact Hm].
    apply list_elem_of_lookup_2, elem_of_seq in Hk. lia.
  - exfalso. apply list_find_None in E. rewrite Forall_forall in E.
    assert (items x = seq 0 (length vals)) as Hall; [|rewrite Hall, length_seq in Hlt; lia].
    unfold items. apply filter_id. intros i Hi. specialize (E i Hi).
    apply negb_true_iff, Z.eqb_neq. by destruct (decide (Z.land (val_at i) x = 0)); [tauto|].
Qed.
(** Of all items there is one union. *)
Lemma full_union x : union_of_items x -> level_of x = Z.of_nat (length vals) -> x = mask (seq 0 (length vals)).
Proof.
  intros Hu Hl. rewrite Hu. f_equal. apply filter_full. rewrite length_seq. apply Nat2Z.inj. exact Hl.
Qed.
End Apart.
End Items.

(** ** Equivalence classes that mention a relation *)
Section Eclasses.
Context {Expr : Type} (root : ECRoot Expr) (all : Z).
Let rels := eclass_indexes root.
Let classes := eq_classes root.
Definition class_val (p : nat) : Z := bms_val (ec_relids (get_ec root p)).
Definition class_links (p : nat) : bool := negb (length (ec_members (get_ec root p)) <=? 1)%nat.

(** [eclass_indexes] of the base relations list exactly the classes that mention them. *)
Record eclasses_ok : Prop := {
  eo_wf k p : eq_classes root !! k = Some p -> bms_wf (ec_relids (get_ec root p));
  eo_base b : 0 <= b -> Z.testbit all b = true -> 0 < b /\ exists s, eclass_indexes root !! Z.to_nat b = Some (Some s) /\ bms_wf s /\
    forall k, 0 <= k -> bms_mem s k = true <-> exists p, eq_classes root !! Z.to_nat k = Some p /\ Z.testbit (class_val p) b = true
}.
Context (Hok : eclasses_ok).

Lemma eclass_indexes_loop_ok rs : bms_wf rs -> within (bms_val rs) all -> forall fuel i acc, bms_wf acc -> -1 <= i ->
  bms_capacity rs - i <= Z.of_nat fuel -> (0 < fuel)%nat ->
  exists r, eclass_indexes_loop root fuel rs i acc = Ok r /\ bms_wf r /\ forall k, 0 <= k ->
    bms_mem r k = true <-> bms_mem acc k = true \/
      exists b p, i < b /\ bms_mem rs b = true /\ classes !! Z.to_nat k = Some p /\ Z.testbit (class_val p) b = true.
Proof.
  intros Hrs Hall. induction fuel as [|fuel IH]; intros i acc Hacc Hi Hcap Hf; [lia|]. cbn [eclass_indexes_loop].
  destruct (next_member_next_of rs i Hrs Hi) as [[-> Hnone]|(Hlt & Hm & Hbelow)].
  - exists acc. split_and!; [done|done|]. intros k Hk. split; [by left|]. intros [H|(b & p & Hb & Hmb & _)]; [done|].
    by rewrite Hnone in Hmb.
  - set (b := next_member rs i) in *.
    assert (b < bms_capacity rs) as Hbc by (destruct (Z_lt_ge_dec b (bms_capacity rs)); [done|]; rewrite bms_mem_capacity in Hm by (done || lia); done).
    destruct (eo_base Hok b) as (Hb0 & s & Hs & Hswf & Hsk); [lia|apply (proj1 (within_bits _ _) Hall); [lia|done]|].
    rewrite (proj2 (Z.gtb_lt b 0)) by lia. rewrite (array_get_Z _ b _ ltac:(lia) Hs). cbn [mbind result_bind].
    destruct (bms_add_members_spec acc s Hacc Hswf) as [Wa Va].
    destruct (IH b (bms_add_members acc s)) as (r & Hr & Hwf & Hk); [done|lia|lia|lia|]. exists r. split_and!; [done|done|].
    intros k Hk0. rewrite Hk by done. unfold bms_mem at 1. rewrite Va, Z.lor_spec, orb_true_iff. fold (bms_mem acc k) (bms_mem s k).
    rewrite (Hsk k Hk0). split.
    + intros [[H|(p & Hp & Hb)]|(b' & p & Hb' & Hmb' & Hp & Ht)]; [by left|right; by exists b, p|right; exists b', p; split_and!; [lia|done..]].
    + intros [H|(b' & p & Hb' & Hmb' & Hp & Ht)]; [auto|]. destruct (Z.lt_trichotomy b' b) as [Hlt'|[->|Hgt]].
      * by rewrite Hbelow in Hmb' by lia.
      * left. right. by exists p.
      * right. by exists b', p.
Qed.

(** The classes that mention [rs]. *)
Definition mentions (r : bitmapset) (x : Z) : Prop :=
  forall k, 0 <= k -> bms_mem r k = true <-> exists p, classes !! Z.to_nat k = Some p /\ meets (class_val p) x.

Lemma get_eclass_indexes_ok rs : bms_wf rs -> within (bms_val rs) all ->
  exists r, get_eclass_indexes_for_relids root rs = Ok r /\ bms_wf r /\ mentions r (bms_val rs).
Proof.
  intros Hrs Hall. unfold get_eclass_indexes_for_relids.
  assert (0 <= bms_capacity rs) as Hc by (destruct rs; unfold bms_capacity, nwords; lia).
  destruct (eclass_indexes_loop_ok rs Hrs Hall (S (S (Z.to_nat (bms_capacity rs)))) (-1) None) as (r & Hr & Hwf & Hk); [done|lia|lia|lia|].
  exists r. split_and!; [done|done|]. intros k Hk0. rewrite Hk by done. unfold bms_mem at 1. cbn [bms_val]. rewrite Z.bits_0.
  setoid_rewrite meets_bits. split.
  - intros [H|(b & p & Hb & Hm & Hp & Ht)]; [done|]. exists p. split; [done|]. exists b. split_and!; [lia|done|done].
  - intros (p & Hp & b & Hb & Ht & Hm). right. exists b, p. split_and!; [lia|done..].
Qed.

Lemma get_common_eclass_indexes_ok rs1 rs2 : bms_wf rs1 -> bms_wf rs2 -> within (bms_val rs1) all -> within (bms_val rs2) all ->
  exists r, get_common_eclass_indexes root rs1 rs2 = Ok r /\ bms_wf r /\ forall k, 0 <= k ->
    bms_mem r k = true <-> exists p, classes !! Z.to_nat k = Some p /\ meets (class_val p) (bms_val rs1) /\ meets (class_val p) (bms_val rs2).
Proof.
  intros W1 W2 A1 A2. unfold get_common_eclass_indexes.
  destruct (get_eclass_indexes_ok rs1 W1 A1) as (r1 & -> & Wr1 & M1). cbn [mbind result_bind].
  assert (exists r2, (let '(single, relid) := bms_get_singleton_member rs2 0 in
     if single then rel ← array_get (eclass_indexes root) relid; match rel with Some indexes => Ok indexes | None => Error assert_msg end
     else get_eclass_indexes_for_relids root rs2) = Ok r2 /\ bms_wf r2 /\ mentions r2 (bms_val rs2)) as (r2 & -> & Wr2 & M2).
  { rewrite (proj2 (proj2 (bms_membership_spec rs2 W2))). destruct (bms_members rs2) as [|y [|z l]] eqn:E; try by apply get_eclass_indexes_ok.
    assert (forall x, x ∈ [y] <-> 0 <= x /\ bms_mem rs2 x = true) as Hy by (intros x; rewrite <- E; by apply elem_of_bms_members).
    destruct (proj1 (Hy y)) as [Hy0 Hym]; [by left|].
    destruct (eo_base Hok y) as (_ & s & Hs & Hswf & Hsk); [done|by apply (proj1 (within_bits _ _) A2)|].
    rewrite (array_get_Z _ _ _ Hy0 Hs). cbn [mbind result_bind]. exists s. split_and!; [done|done|].
    intros k Hk. rewrite (Hsk k Hk). setoid_rewrite meets_bits. split.
    - intros (p & Hp & Ht). exists p. split; [done|]. by exists y.
    - intros (p & Hp & b & Hb & Ht & Hm). exists p. split; [done|].
      assert (b ∈ [y]) as ->%list_elem_of_singleton by (apply Hy; by split). done. }
  cbn [mbind result_bind]. destruct (bms_int_members_spec r1 r2 Wr1 Wr2) as [Wr Vr]. eexists. split_and!; [done|done|].
  intros k Hk. unfold bms_mem. rewrite Vr, Z.land_spec, andb_true_iff. fold (bms_mem r1 k) (bms_mem r2 k). rewrite (M1 k Hk), (M2 k Hk).
  split; [|naive_solver]. intros [(p & Hp & H1) (p' & Hp' & H2)]. rewrite Hp in Hp'. injection Hp' as <-. by exists p.
Qed.

Lemma eclass_exists_ok ecs test : bms_wf ecs -> (forall k, 0 <= k -> bms_mem ecs k = true -> (Z.to_nat k < length classes)%nat) ->
  forall fuel i, -1 <= i -> bms_capacity ecs - i <= Z.of_nat fuel -> (0 < fuel)%nat ->
  exists b : bool, eclass_exists root fuel ecs i test = Ok b /\
    (b = true <-> exists k p, i < k /\ bms_mem ecs k = true /\ classes !! Z.to_nat k = Some p /\ class_links p = true /\
       test (get_ec root p) = true).
Proof.
  intros Hw Hin. induction fuel as [|fuel IH]; intros i Hi Hcap Hf; [lia|]. cbn [eclass_exists].
  destruct (next_member_next_of ecs i Hw Hi) as [[-> Hnone]|(Hlt & Hm & Hbelow)].
  - exists false. split; [done|]. split; [done|]. intros (k & p & Hk & Hmk & _). by rewrite Hnone in Hmk.
  - set (k := next_member ecs i) in *.
    assert (k < bms_capacity ecs) as Hkc by (destruct (Z_lt_ge_dec k (bms_capacity ecs)); [done|]; rewrite bms_mem_capacity in Hm by (done || lia); done).
    destruct (Z.leb_spec 0 k); [|lia]. destruct (lookup_lt_is_Some_2 classes (Z.to_nat k)) as [p Hp]; [by apply Hin|].
    rewrite (array_get_Z (eq_classes root) k p ltac:(lia) Hp). cbn [mbind result_bind].
    destruct (IH k) as (b & Hb & Hbi); [lia|lia|lia|].
    assert ((class_links p = true /\ test (get_ec root p) = true -> b = true) \/ ~ (class_links p = true /\ test (get_ec root p) = true) ->
      b = true <-> exists k p, i < k /\ bms_mem ecs k = true /\ classes !! Z.to_nat k = Some p /\ class_links p = true /\
       test (get_ec root p) = true) as Hnext.
    { intros Hno. rewrite Hbi. split.
      - intros (k' & p' & Hk' & Hrest). exists k', p'. split; [lia|done].
      - intros (k' & p' & Hk' & Hmk & Hp' & Hl & Ht). destruct (Z.lt_trichotomy k' k) as [Hlt'|[->|Hgt]].
        + by rewrite Hbelow in Hmk by lia.
        + rewrite Hp in Hp'. injection Hp' as <-. apply Hbi. destruct Hno; tauto.
        + by exists k', p'. }
    unfold class_links in *. destruct (length (ec_members (get_ec root p)) <=? 1)%nat eqn:El; cbn [negb] in *.
    + exists b. split; [done|]. apply Hnext. right. by intros [? _].
    + destruct (test (get_ec root p)) eqn:Et.
      * exists true. split; [done|]. split; [|done]. intros _. exists k, p. split_and!; [lia|done|done| |done]. by rewrite El.
      * exists b. split; [done|]. apply Hnext. right. by intros [_ ?].
Qed.

End Eclasses.

(** ** Clauses and classes that link relations *)
Section Links.
Context {Expr : Type} (q : Query (Expr := Expr)) (all : Z) (Hok : eclasses_ok (ec_root q) all).
Let classes := eq_classes (ec_root q).
Context (clauses : list JoinClause).
Definition clause_val (c : JoinClause) : Z := bms_val (required_relids c).
Definition rel_val (r : JoinRel) : Z := bms_val (relids r).

(** All join clauses of the query, each with one address. *)
Record clauses_ok : Prop := {
  co_wf c : c ∈ clauses -> bms_wf (required_relids c);
  co_ptr c c' : c ∈ clauses -> c' ∈ clauses -> jc_ptr c = jc_ptr c' -> c = c'
}.
Context (Hclauses : clauses_ok).

(** [joininfo] and [has_eclass_joins] tell what links a relation to the rest of the query. *)
Record rel_links (r : JoinRel) : Prop := {
  rl_wf : bms_wf (relids r);
  rl_within : within (rel_val r) all;
  rl_joininfo c : c ∈ joininfo r <-> c ∈ clauses /\ meets (clause_val c) (rel_val r) /\ ~ within (clause_val c) (rel_val r);
  rl_eclass : has_eclass_joins r = true <->
    exists k p, eq_classes (ec_root q) !! k = Some p /\ class_links (ec_root q) p = true /\ meets (class_val (ec_root q) p) (rel_val r) /\ ~ within (class_val (ec_root q) p) (rel_val r)
}.

(** Some clause or class mentions both sets. *)
Definition links (x y : Z) : Prop :=
  (exists c, c ∈ clauses /\ meets (clause_val c) x /\ meets (clause_val c) y) \/
  (exists k p, eq_classes (ec_root q) !! k = Some p /\ class_links (ec_root q) p = true /\ meets (class_val (ec_root q) p) x /\ meets (class_val (ec_root q) p) y).
Lemma links_sym x y : links x y <-> links y x.
Proof. unfold links. naive_solver. Qed.

(** What meets both of two disjoint sets is within neither. *)
Lemma straddles z x y : ~ meets x y -> meets z x -> meets z y -> ~ within z x.
Proof. intros Hxy Hx Hy Hw. apply Hxy. by apply (within_meets z). Qed.

Lemma scan_joininfo r1 r2 : rel_links r1 -> rel_links r2 -> ~ meets (rel_val r1) (rel_val r2) ->
  existsb (fun rinfo => bms_overlap (relids r2) (required_relids rinfo)) (joininfo r1) = true <->
  exists c, c ∈ clauses /\ meets (clause_val c) (rel_val r1) /\ meets (clause_val c) (rel_val r2).
Proof.
  intros H1 H2 Hd. rewrite existsb_exists. setoid_rewrite <- list_elem_of_In. setoid_rewrite (rl_joininfo _ H1). split.
  - intros (c & (Hc & Hm & Hw) & Ho). exists c. split_and!; [done|done|].
    apply overlap_meets, meets_sym in Ho; [done|apply H2|by apply Hclauses].
  - intros (c & Hc & Hm1 & Hm2). exists c. split; [split_and!; [done|done|by apply (straddles _ _ (rel_val r2))]|].
    apply overlap_meets; [apply H2|by apply Hclauses|by apply meets_sym].
Qed.

Lemma have_relevant_joinclause_ok r1 r2 : rel_links r1 -> rel_links r2 -> ~ meets (rel_val r1) (rel_val r2) ->
  exists b : bool, have_relevant_joinclause q r1 r2 = Ok b /\ (b = true <-> links (rel_val r1) (rel_val r2)).
Proof.
  intros H1 H2 Hd. unfold have_relevant_joinclause. assert (~ meets (rel_val r2) (rel_val r1)) as Hd' by (by rewrite meets_sym).
  assert (exists b : bool, (let '(clauses, other_relids) :=
      if (length (joininfo r1) <=? length (joininfo r2))%nat then (joininfo r1, relids r2) else (joininfo r2, relids r1) in
      existsb (fun rinfo => bms_overlap other_relids (required_relids rinfo)) clauses) = b /\
    (b = true <-> exists c, c ∈ clauses /\ meets (clause_val c) (rel_val r1) /\ meets (clause_val c) (rel_val r2))) as (b & Eb & Hb).
  { eexists. split; [done|]. destruct (_ <=? _)%nat; [by apply scan_joininfo|].
    rewrite scan_joininfo by done. naive_solver. }
  destruct (if (_ <=? _)%nat then _ else _) as [l o]. rewrite Eb. destruct b.
  { exists true. split; [done|]. split; [|done]. intros _. left. by apply Hb. }
  destruct (has_eclass_joins r1 && has_eclass_joins r2) eqn:Eh.
  - unfold have_relevant_eclass_joinclause.
    destruct (get_common_eclass_indexes_ok (ec_root q) all Hok (relids r1) (relids r2)) as (ecs & -> & Wecs & Hecs); [apply H1|apply H2|apply H1|apply H2|].
    cbn [mbind result_bind]. assert (0 <= bms_capacity ecs) as Hc by (destruct ecs; unfold bms_capacity, nwords; lia).
    destruct (eclass_exists_ok (ec_root q) ecs (fun _ => true) Wecs) with (fuel := S (S (Z.to_nat (bms_capacity ecs)))) (i := -1) as (b & -> & Hbi); [|lia|lia|lia|].
    { intros k Hk (p & Hp & _)%Hecs; [|done]. by apply lookup_lt_Some in Hp. }
    exists b. split; [done|]. rewrite Hbi. split.
    + intros (k & p & Hk & Hm & Hp & Hl & _). right. apply Hecs in Hm as (p' & Hp' & Hm1 & Hm2); [|lia].
      rewrite Hp in Hp'. injection Hp' as <-. by exists (Z.to_nat k), p.
    + intros [H|(k & p & Hp & Hl & Hm1 & Hm2)]; [by apply Hb in H|]. exists (Z.of_nat k), p. rewrite Nat2Z.id.
      split_and!; [lia| |done|done|done]. apply Hecs; [lia|]. rewrite Nat2Z.id. by exists p.
  - exists false. split; [done|]. split; [done|]. intros [H|(k & p & Hp & Hl & Hm1 & Hm2)]; [by apply Hb in H|].
    assert (has_eclass_joins r1 = true) as E1 by (apply (rl_eclass _ H1); exists k, p; split_and!; [done..|by apply (straddles _ _ (rel_val r2))]).
    assert (has_eclass_joins r2 = true) as E2 by (apply (rl_eclass _ H2); exists k, p; split_and!; [done..|by apply (straddles _ _ (rel_val r1))]).
    by rewrite E1, E2 in Eh.
Qed.

(** A relation linked to another one has links. *)
Lemma links_has r x : rel_links r -> ~ meets (rel_val r) x -> links (rel_val r) x -> has_links q r = true.
Proof.
  intros Hr Hd Hl. unfold has_links. destruct (joininfo r) as [|c l] eqn:E; [|done].
  assert (has_eclass_joins r = true) as ->; [|done]. apply (rl_eclass _ Hr).
  destruct Hl as [(c & Hc & Hm1 & Hm2)|(k & p & Hp & Hl & Hm1 & Hm2)].
  - exfalso. assert (c ∈ joininfo r) as Hin by (apply (rl_joininfo _ Hr); split_and!; [done..|by apply (straddles _ _ x)]).
    rewrite E in Hin. by apply not_elem_of_nil in Hin.
  - exists k, p. split_and!; [done..|by apply (straddles _ _ x)].
Qed.

(** ** New join relations *)
Lemma append_unique_ok l rinfo : (forall c, c ∈ l -> c ∈ clauses) -> rinfo ∈ clauses ->
  forall c, c ∈ append_unique_ptr l rinfo <-> c ∈ l \/ c = rinfo.
Proof.
  intros Hl Hr c. unfold append_unique_ptr. destruct (existsb _ l) eqn:E.
  - split; [by left|]. intros [H| ->]; [done|]. apply existsb_exists in E as (c' & Hc'%list_elem_of_In & Hp%Nat.eqb_eq).
    assert (c' = rinfo) as -> by (apply (co_ptr Hclauses); [by apply Hl|done|done]). done.
  - rewrite elem_of_app, list_elem_of_singleton. done.
Qed.
Lemma subbuild_ok J l : bms_wf J -> (forall c, c ∈ l -> c ∈ clauses) -> forall acc, (forall c, c ∈ acc -> c ∈ clauses) ->
  forall c, c ∈ subbuild_joinrel_joinlist J l acc <-> c ∈ acc \/ (c ∈ l /\ ~ within (clause_val c) (bms_val J)).
Proof.
  intros HJ. induction l as [|rinfo l IH]; intros Hl acc Hacc c; cbn [subbuild_joinrel_joinlist].
  { split; [by left|]. intros [H|[H _]]; [done|by apply not_elem_of_nil in H]. }
  assert (rinfo ∈ clauses) as Hr by (apply Hl; by left).
  pose proof (subset_within (required_relids rinfo) J (co_wf Hclauses _ Hr) HJ) as Hs.
  rewrite elem_of_cons. destruct (bms_is_subset (required_relids rinfo) J) eqn:E.
  - rewrite IH; [|intros; apply Hl; by right|done]. assert (within (clause_val rinfo) (bms_val J)) by (by apply Hs).
    split; [naive_solver|]. intros [H'|[[-> |H'] Hw]]; [by left|done|by right].
  - assert (~ within (clause_val rinfo) (bms_val J)) as Hw by (intros Hw; apply Hs in Hw; congruence).
    rewrite IH; [|intros; apply Hl; by right|intros c' [H| ->]%append_unique_ok; [by apply Hacc|done|done|done]].
    rewrite append_unique_ok by done. naive_solver.
Qed.

Lemma meets_within z x y : within x y -> meets z x -> meets z y.
Proof. intros Hw H. apply meets_sym. apply (within_meets x); [done|]. by apply meets_sym. Qed.
Lemma within_lor_l x y z : within (Z.lor x y) z <-> within x z /\ within y z.
Proof. rewrite !within_bits. setoid_rewrite Z.lor_spec. setoid_rewrite orb_true_iff. naive_solver. Qed.
Lemma within_refl x : within x x.
Proof. by apply within_bits. Qed.
Lemma within_trans x y z : within x y -> within y z -> within x z.
Proof. rewrite !within_bits. auto. Qed.
Lemma within_part_l x y : within x (Z.lor x y).
Proof. apply within_bits. intros b Hb H. by rewrite Z.lor_spec, H. Qed.
Lemma within_part_r x y : within y (Z.lor x y).
Proof. rewrite Z.lor_comm. apply within_part_l. Qed.

(** The clauses that link a relation to the rest of the query. *)
Definition joininfo_exact (r : JoinRel) : Prop :=
  forall c, c ∈ joininfo r <-> c ∈ clauses /\ meets (clause_val c) (rel_val r) /\ ~ within (clause_val c) (rel_val r).
Lemma build_joinrel_joinlist_ok J r1 r2 : joininfo_exact r1 -> joininfo_exact r2 -> bms_wf J -> bms_val J = Z.lor (rel_val r1) (rel_val r2) ->
  forall c, c ∈ build_joinrel_joinlist J r1 r2 <-> c ∈ clauses /\ meets (clause_val c) (bms_val J) /\ ~ within (clause_val c) (bms_val J).
Proof.
  intros H1 H2 HJ HV c. unfold build_joinrel_joinlist.
  assert (within (rel_val r1) (bms_val J) /\ within (rel_val r2) (bms_val J)) as [S1 S2] by (rewrite HV; apply within_lor_l, within_refl).
  assert (forall r, joininfo_exact r -> forall c, c ∈ joininfo r -> c ∈ clauses) as Hin by (intros r Hr c' Hc'; by apply Hr).
  assert (forall c : JoinClause, c ∈ [] -> c ∈ clauses) as Hnil by (intros c' Hc'; by apply not_elem_of_nil in Hc').
  assert (forall c', c' ∈ subbuild_joinrel_joinlist J (joininfo r1) [] -> c' ∈ clauses) as Hfirst.
  { intros c' Hc'. rewrite subbuild_ok in Hc' by (done || by apply Hin). destruct Hc' as [Hc'|[Hc' _]]; [by apply Hnil|by apply (Hin r1)]. }
  rewrite subbuild_ok by (done || by apply Hin). rewrite subbuild_ok by (done || by apply Hin).
  rewrite (H1 c), (H2 c), HV. rewrite (meets_sym (clause_val c) (Z.lor _ _)), meets_lor_l, (meets_sym (rel_val r1)), (meets_sym (rel_val r2)).
  rewrite <- HV. split.
  - intros [[H|[(Hc' & Hm & _) Hw]]|[(Hc' & Hm & _) Hw]]; [by apply not_elem_of_nil in H|split_and!; [done|by left|done]|split_and!; [done|by right|done]].
  - intros (Hc' & [Hm|Hm] & Hw).
    + left. right. split_and!; [done|done| |done]. intros Hx. apply Hw. by apply (within_trans _ (rel_val r1)).
    + right. split_and!; [done|done| |done]. intros Hx. apply Hw. by apply (within_trans _ (rel_val r2)).
Qed.

Lemma make_join_node_ok ptr J r1 r2 : rel_links r1 -> rel_links r2 -> bms_wf J -> bms_val J = Z.lor (rel_val r1) (rel_val r2) ->
  exists r, make_join_node q ptr J r1 r2 = Ok r /\ relids r = J /\ rel_links r.
Proof.
  intros H1 H2 HJ HV. unfold make_join_node, has_relevant_eclass_joinclause.
  assert (within (bms_val J) all) as HJall by (rewrite HV, within_lor_l; split; [apply H1|apply H2]).
  destruct (get_eclass_indexes_ok (ec_root q) all Hok J HJ HJall) as (ecs & -> & Wecs & Hecs). cbn [mbind result_bind].
  assert (0 <= bms_capacity ecs) as Hc by (destruct ecs; unfold bms_capacity, nwords; lia).
  destruct (eclass_exists_ok (ec_root q) ecs (fun ec => negb (bms_is_subset (ec_relids ec) J)) Wecs) with (fuel := S (S (Z.to_nat (bms_capacity ecs)))) (i := -1)
    as (b & -> & Hb); [|lia|lia|lia|].
  { intros k Hk (p & Hp & _)%Hecs; [|done]. by apply lookup_lt_Some in Hp. }
  cbn [mbind result_bind]. eexists. split_and!; [done|done|]. unfold bms_copy. split; cbn; unfold rel_val; cbn.
  - done.
  - done.
  - apply build_joinrel_joinlist_ok; [exact (rl_joininfo _ H1)|exact (rl_joininfo _ H2)|done|done].
  - rewrite Hb. split.
    + intros (k & p & Hk & Hm & Hp & Hl & Ht). apply Hecs in Hm as (p' & Hp' & Hm); [|lia]. rewrite Hp in Hp'. injection Hp' as <-.
      exists (Z.to_nat k), p. split_and!; [done..|]. intros Hw. apply subset_within in Hw; [|by apply (eo_wf _ _ Hok _ _ Hp)|done].
      by rewrite Hw in Ht.
    + intros (k & p & Hp & Hl & Hm & Hw). exists (Z.of_nat k), p. rewrite Nat2Z.id. split_and!; [lia| |done|done|].
      * apply Hecs; [lia|]. rewrite Nat2Z.id. by exists p.
      * apply negb_true_iff, not_true_is_false. intros Hs. apply Hw. apply subset_within in Hs; [done|by apply (eo_wf _ _ Hok _ _ Hp)|done].
Qed.
End Links.
