(* ===== verification/JoinSearch.v ===== *)
(** * The join search finds every join order without cross products

    For queries without special joins and lateral references: the search always ends with one
    relation that joins everything, every level holds only joins of that many items, each once, and
    every join tree whose joins are all backed by a clause is considered. *)
From S2P Require Import Prelude Bitmapset BitmapsetSpec BitmapsetIter EquivClass PathKeys JoinRels JoinLinks.
#[local] Open Scope Z_scope.

(** ** Lookup by hash and by list *)
Section Find.
Context {Store : Type} (hash_any : list Z -> Z).
Implicit Types (root : PlannerInfo (Store := Store)).

(** The hash table, once there is one, holds the same relations as the list. *)
Definition hash_inv root : Prop :=
  match join_rel_hash root with None => True | Some tab => tab = (fun r => (relids r, r)) <$> join_rel_list root end.
Definition list_wf root : Prop := Forall (fun r => bms_wf (relids r)) (join_rel_list root).
Definition list_search (l : list JoinRel) (rs : bitmapset) : option JoinRel := List.find (fun r => bms_equal (relids r) rs) l.

Lemma fold_hash_enter l : forall acc, fold_left hash_enter l acc = acc ++ ((fun r => (relids r, r)) <$> l).
Proof.
  induction l as [|r l IH]; intros acc; cbn [fold_left fmap list_fmap]; [by rewrite app_nil_r|].
  rewrite IH. unfold hash_enter. by rewrite <- app_assoc.
Qed.
Lemma hash_find_list l rs : Forall (fun r => bms_wf (relids r)) l -> bms_wf rs ->
  hash_find hash_any ((fun r => (relids r, r)) <$> l) rs = list_search l rs.
Proof.
  intros Hl Hrs. unfold hash_find, list_search. induction Hl as [|r l Hr Hl IH]; [done|]. cbn [fmap list_fmap List.find fst].
  unfold bitmap_match. rewrite negb_involutive. destruct (bms_equal (relids r) rs) eqn:E.
  - by rewrite (bms_hash_respects_equal hash_any _ _ Hr Hrs E), Z.eqb_refl.
  - rewrite andb_false_r. exact IH.
Qed.

Lemma find_join_rel_ok root rs : hash_inv root -> list_wf root -> bms_wf rs ->
  exists tab, find_join_rel hash_any root rs = (list_search (join_rel_list root) rs, set_hash root tab) /\ hash_inv (set_hash root tab).
Proof.
  intros Hh Hl Hrs. unfold find_join_rel, hash_inv in *. destruct (join_rel_hash root) as [tab|] eqn:Et.
  - exists (Some tab). rewrite Et. subst tab. rewrite hash_find_list by done. split; [|done].
    f_equal. destruct root; cbn in *. by subst.
  - destruct (32 <? length (join_rel_list root))%nat.
    + exists (Some ((fun r => (relids r, r)) <$> join_rel_list root)). cbn. rewrite fold_hash_enter. cbn [app].
      rewrite hash_find_list by done. split; [|done]. unfold build_join_rel_hash. by rewrite fold_hash_enter.
    + exists None. rewrite Et. split; [|done]. f_equal. destruct root; cbn in *. by subst.
Qed.
End Find.

(** ** What the path makers promise *)

(** A relation with paths can be finished; an inner join gets paths from any pair of inputs, and a relation proven
    empty has its dummy path; paths of other relations are never lost. *)
Class JoinPathsOk (Store : Type) {join_paths : JoinPaths Store} := {
  has_paths : Store -> JoinRel -> Prop;
  add_paths_has st j o i sj : exists st', add_join_paths st j o i JOIN_INNER sj = Ok st' /\ has_paths st' j /\
    forall r, has_paths st r -> has_paths st' r;
  mark_dummy_has st j r : r = j \/ has_paths st r -> has_paths (mark_dummy_rel st j) r;
  partitionwise_keeps st r1 r2 j sj : exists st', try_partitionwise_join st r1 r2 j sj = Ok st' /\ forall r, has_paths st r -> has_paths st' r;
  dummy_has st j : is_dummy_rel st j = true -> has_paths st j;
  finish_ok st r top : has_paths st r -> exists st', finish_rel st r top = Ok st' /\ forall r', has_paths st r' -> has_paths st' r'
}.
Lemma populate_inner {Store} {join_paths : JoinPaths Store} {paths_ok : JoinPathsOk Store} st r1 r2 j sj : jointype sj = JOIN_INNER ->
  exists st', populate_joinrel_with_paths st r1 r2 j sj = Ok st' /\ has_paths st' j /\ forall r, has_paths st r -> has_paths st' r.
Proof.
  intros E. unfold populate_joinrel_with_paths. rewrite E. cbv zeta. destruct (_ || _ || _).
  - cbn [mbind result_bind]. destruct (partitionwise_keeps (mark_dummy_rel st j) r1 r2 j sj) as (st' & -> & Hk).
    exists st'. split; [done|]. split; [apply Hk, mark_dummy_has; by left|]. intros r Hr. apply Hk, mark_dummy_has. by right.
  - destruct (add_paths_has st j r1 r2 sj) as (st1 & -> & H1 & K1). cbn [mbind result_bind].
    destruct (add_paths_has st1 j r2 r1 sj) as (st2 & -> & H2 & K2). cbn [mbind result_bind].
    destruct (partitionwise_keeps st2 r1 r2 j sj) as (st' & -> & Hk). exists st'. split; [done|]. split; [by apply Hk|].
    intros r Hr. by apply Hk, K2, K1.
Qed.

Section Search.
Context {Expr : Type} {Store : Type} {join_paths : JoinPaths Store} {paths_ok : JoinPathsOk Store}.
Context (hash_any : list Z -> Z) (q : Query (Expr := Expr)) (clauses : list JoinClause).
Implicit Types (root : PlannerInfo (Store := Store)).

Definition vals : list Z := rel_val <$> initial_rels q.
Definition all : Z := mask vals (seq 0 (length vals)).
Abbreviation n := (length (initial_rels q)).

(** A query of plain inner joins over at least two disjoint items. *)
Record query_ok : Prop := {
  qo_plain : join_info_list q = [];
  qo_lateral : hasLateralRTEs q = false;
  qo_apart : apart vals;
  qo_clauses : clauses_ok clauses;
  qo_eclasses : eclasses_ok (ec_root q) all;
  qo_links : Forall (rel_links q all clauses) (initial_rels q);
  qo_two : (2 <= n)%nat
}.
Context (Hq : query_ok).

Lemma vals_length : length vals = n.
Proof. unfold vals. apply length_fmap. Qed.
Lemma initial_val i r : initial_rels q !! i = Some r -> (i < length vals)%nat /\ val_at vals i = rel_val r.
Proof.
  intros Hi. rewrite vals_length. split; [by eapply lookup_lt_Some|]. unfold val_at, vals. apply nth_lookup_Some.
  by rewrite list_lookup_fmap, Hi.
Qed.

(** ** The invariant *)
Abbreviation lev r := (level_of vals (rel_val r)).
Record good_rel (r : JoinRel) : Prop := {
  gr_links : rel_links q all clauses r;
  gr_union : union_of_items vals (rel_val r)
}.
Definition level_at root (k : Z) : list JoinRel :=
  match join_rel_level root with Some levels => default [] (levels !! Z.to_nat k) | None => [] end.

Record search_inv root : Prop := {
  si_levels : exists levels, join_rel_level root = Some levels /\ length levels = S n;
  si_hash : hash_inv root;
  si_wf : list_wf root;
  si_one : level_at root 1 = initial_rels q;
  si_level k r : 0 <= k -> r ∈ level_at root k -> good_rel r /\ lev r = k;
  si_new r : r ∈ join_rel_list root -> union_of_items vals (rel_val r) -> 2 <= lev r -> r ∈ level_at root (lev r);
  si_listed k r : 2 <= k -> r ∈ level_at root k -> r ∈ join_rel_list root;
  si_unique k : 0 <= k -> NoDup (rel_val <$> level_at root k);
  si_paths k r : 0 <= k -> r ∈ level_at root k -> has_paths (store root) r
}.

(** The list of join relations grows at its end, by joins of the items; no paths are lost. *)
Definition keeps root root' : Prop :=
  (exists new, join_rel_list root' = join_rel_list root ++ new /\ Forall good_rel new) /\
  forall r, has_paths (store root) r -> has_paths (store root') r.
Lemma keeps_same root root' : join_rel_list root' = join_rel_list root -> (forall r, has_paths (store root) r -> has_paths (store root') r) -> keeps root root'.
Proof. intros E Hp. split; [|done]. exists []. by rewrite app_nil_r. Qed.
#[global] Instance keeps_refl : Reflexive keeps.
Proof. intros root. by apply keeps_same. Qed.
#[global] Instance keeps_trans : Transitive keeps.
Proof.
  intros r1 r2 r3 [(l1 & E1 & H1) P1] [(l2 & E2 & H2) P2]. split; [|by auto].
  exists (l1 ++ l2). rewrite E2, E1, app_assoc. split; [done|]. by apply Forall_app.
Qed.

(** Later states: only the current level grows. *)
Record extends root root' : Prop := {
  ex_cur : join_cur_level root' = join_cur_level root;
  ex_same k : 0 <= k -> k <> join_cur_level root -> level_at root' k = level_at root k;
  ex_more r : r ∈ level_at root (join_cur_level root) -> r ∈ level_at root' (join_cur_level root);
  ex_tried t : t ∈ tried root -> t ∈ tried root';
  ex_keeps : keeps root root'
}.
#[global] Instance extends_refl : Reflexive extends.
Proof. intros root. by split. Qed.
#[global] Instance extends_trans : Transitive extends.
Proof.
  intros r1 r2 r3 [E1 S1 M1 T1 K1] [E2 S2 M2 T2 K2]. split.
  - congruence.
  - intros k Hk Hne. rewrite S2, S1 by (done || congruence). done.
  - intros r Hr. rewrite <- E1. apply M2. rewrite E1. by apply M1.
  - auto.
  - by transitivity r2.
Qed.

Lemma level_rels_ok root k : search_inv root -> 0 <= k <= Z.of_nat n -> level_rels root k = Ok (level_at root k).
Proof.
  intros Hi Hk. destruct (si_levels _ Hi) as (levels & E & Hl). unfold level_rels, level_at. rewrite E.
  destruct (lookup_lt_is_Some_2 levels (Z.to_nat k)) as [l Hl']; [lia|]. rewrite Hl'. cbn. apply array_get_Z; [lia|done].
Qed.

(** Changes to the paths, the hash table and the log only. *)
Lemma inv_same root root' : search_inv root -> join_rel_level root' = join_rel_level root -> join_rel_list root' = join_rel_list root ->
  hash_inv root' -> (forall r, has_paths (store root) r -> has_paths (store root') r) -> search_inv root'.
Proof.
  intros [H1 H2 H3 H4 H5 H6 H7 H8 H9] El Ej Hh Hp. assert (forall k, level_at root' k = level_at root k) as E by (intros; unfold level_at; by rewrite El).
  split; [by rewrite El|done|unfold list_wf; by rewrite Ej|by rewrite E|..]; intros *; rewrite ?E, ?Ej; eauto.
Qed.

(** A new relation in the current level. *)
Lemma inv_add root root' c r : search_inv root -> 2 <= c <= Z.of_nat n ->
  (exists levels, join_rel_level root' = Some levels /\ length levels = S n) ->
  join_rel_list root' = join_rel_list root ++ [r] -> level_at root' c = level_at root c ++ [r] ->
  (forall k, 0 <= k -> k <> c -> level_at root' k = level_at root k) ->
  hash_inv root' -> good_rel r -> lev r = c -> (forall r', r' ∈ join_rel_list root -> rel_val r' <> rel_val r) ->
  (forall r', has_paths (store root) r' -> has_paths (store root') r') -> has_paths (store root') r -> search_inv root'.
Proof.
  intros [H1 H2 H3 H4 H5 H6 H7 H8 H9] Hc Hlv Ej Ec Ek Hh Hg Hl Hnew Hp Hr.
  assert (forall k r', 0 <= k -> r' ∈ level_at root' k -> r' ∈ level_at root k \/ (k = c /\ r' = r)) as Hin.
  { intros k r' Hk. destruct (decide (k = c)) as [->|]; [rewrite Ec, elem_of_app, list_elem_of_singleton|rewrite Ek by done]; tauto. }
  split; [done|done|unfold list_wf; rewrite Ej; apply Forall_app_2; [done|constructor; [apply Hg|done]]|rewrite Ek by lia; done|..].
  - intros k r' Hk [Hr'|[-> ->]]%Hin; [by apply H5|done|done].
  - intros r'. rewrite Ej, elem_of_app, list_elem_of_singleton. intros [Hr'| ->] Hu Hl'.
    + destruct (decide (lev r' = c)) as [E|]; [|rewrite Ek by lia; by apply H6].
      rewrite E, Ec, elem_of_app. left. rewrite <- E. by apply H6.
    + rewrite Hl, Ec, elem_of_app. right. by apply list_elem_of_singleton.
  - intros k r' Hk [Hr'|[-> ->]]%Hin; [|rewrite Ej, elem_of_app; right; by apply list_elem_of_singleton|lia].
    rewrite Ej, elem_of_app. left. by eapply H7.
  - intros k Hk. destruct (decide (k = c)) as [->|]; [|rewrite Ek by done; by apply H8]. rewrite Ec, fmap_app. apply NoDup_app.
    split_and!; [by apply H8| |apply NoDup_singleton]. intros x (r' & -> & Hr')%list_elem_of_fmap Hx%list_elem_of_singleton.
    apply (Hnew r'); [eapply H7; [|done]; lia|done].
  - intros k r' Hk [Hr'|[-> ->]]%Hin; [apply Hp; by eapply H9|done|done].
Qed.

(** ** One join *)

(** The join of [r1] and [r2] is in level [c], and the pair has been tried. *)
Definition considered root (c : Z) (r1 r2 : JoinRel) : Prop :=
  exists j, (r1, r2, j) ∈ tried root /\ j ∈ level_at root c /\ rel_val j = Z.lor (rel_val r1) (rel_val r2).
Definition reaches root (P : PlannerInfo -> Prop) (m : result (PlannerInfo (Store := Store))) : Prop :=
  exists root', m = Ok root' /\ search_inv root' /\ extends root root' /\ P root'.

Lemma considered_extends root root' c r1 r2 : extends root root' -> 0 <= c -> considered root c r1 r2 -> considered root' c r1 r2.
Proof.
  intros [E S M T] Hc (j & Ht & Hj & Hv). exists j. split_and!; [by apply T| |done].
  destruct (decide (c = join_cur_level root)) as [->|]; [by apply M|by rewrite S].
Qed.

Lemma join_legal st r1 r2 J : join_is_legal q st r1 r2 J = Ok (Some (None, false)).
Proof. unfold join_is_legal. rewrite (qo_plain Hq), (qo_lateral Hq). done. Qed.

Lemma list_search_some l J j : list_search l J = Some j -> Forall (fun r => bms_wf (relids r)) l -> bms_wf J -> j ∈ l /\ rel_val j = bms_val J.
Proof.
  unfold list_search. intros [Hj%list_elem_of_In E]%List.find_some Hl HJ. split; [done|]. rewrite Forall_forall in Hl.
  rewrite bms_equal_spec in E by (done || by apply Hl). by apply Z.eqb_eq.
Qed.
Lemma list_search_none l J : list_search l J = None -> Forall (fun r => bms_wf (relids r)) l -> bms_wf J ->
  forall r, r ∈ l -> rel_val r <> bms_val J.
Proof.
  unfold list_search. intros E Hl HJ r Hr Hv. rewrite Forall_forall in Hl.
  pose proof (List.find_none _ _ E r (proj1 (list_elem_of_In _ _) Hr)) as Hf. cbn in Hf.
  rewrite bms_equal_spec in Hf by (done || by apply Hl). apply Z.eqb_neq in Hf. done.
Qed.

(** Finding or making the relation, before its paths are made. *)
Lemma build_join_rel_ok root c r1 r2 J : search_inv root -> join_cur_level root = c -> 2 <= c <= Z.of_nat n -> good_rel r1 -> good_rel r2 ->
  ~ meets (rel_val r1) (rel_val r2) -> lev r1 + lev r2 = c -> bms_wf J -> bms_val J = Z.lor (rel_val r1) (rel_val r2) ->
  exists j root', build_join_rel hash_any q root J r1 r2 = Ok (j, root') /\ rel_val j = bms_val J /\
    extends root root' /\ j ∈ level_at root' c /\ store root' = store root /\
    forall root2, join_rel_level root2 = join_rel_level root' -> join_rel_list root2 = join_rel_list root' -> join_rel_hash root2 = join_rel_hash root' ->
      (forall r, has_paths (store root) r -> has_paths (store root2) r) -> has_paths (store root2) j -> search_inv root2.
Proof.
  intros Hi Hcur Hc Hg1 Hg2 Hd Hl HJ HV. unfold build_join_rel.
  destruct (find_join_rel_ok hash_any root J (si_hash _ Hi) (si_wf _ Hi) HJ) as (tab & -> & Htab).
  destruct (union_items vals (qo_apart Hq) _ _ (gr_union _ Hg1) (gr_union _ Hg2) Hd) as [Hu Hlev].
  destruct (list_search (join_rel_list root) J) as [j|] eqn:E.
  - apply list_search_some in E as [Hj Hv]; [|apply (si_wf _ Hi)|done]. exists j, (set_hash root tab).
    split_and!; [done|done|split; [done..|by apply keeps_same]| |done|].
    + replace c with (lev j) by (rewrite Hv, HV; lia). apply (si_new _ Hi); [done|by rewrite Hv, HV|rewrite Hv, HV; lia].
    + intros root2 E1 E2 E3 Hp _. apply (inv_same root); [done..| |done]. unfold hash_inv in *. by rewrite E2, E3.
  - pose proof (list_search_none _ _ E (si_wf _ Hi) HJ) as Hnew. cbv zeta.
    destruct (make_join_node_ok q all (qo_eclasses Hq) clauses (qo_clauses Hq) (next_ptr (set_hash root tab)) J r1 r2) as (j & -> & Hrel & Hlk);
      [apply Hg1|apply Hg2|done|done|]. cbn [mbind result_bind].
    assert (rel_val j = bms_val J) as Hv by (unfold rel_val; by rewrite Hrel).
    assert (good_rel j) as Hg by (split; [done|by rewrite Hv, HV]).
    destruct (si_levels _ Hi) as (levels & El & Hlen). unfold add_to_level. cbn [join_rel_level add_join_rel bump set_hash join_cur_level].
    rewrite El, Hcur. destruct (lookup_lt_is_Some_2 levels (Z.to_nat c)) as [l Hlk']; [lia|].
    rewrite (array_get_Z _ c l) by (done || lia). cbn [mbind result_bind]. rewrite array_set_Z by lia. cbn [mbind result_bind].
    do 2 eexists. split; [reflexivity|]. split; [done|].
    assert (level_at root c = l) as Eat by (unfold level_at; by rewrite El, Hlk').
    assert (forall k, 0 <= k -> k <> c -> default [] (<[Z.to_nat c:=l ++ [j]]> levels !! Z.to_nat k) = level_at root k) as Eother.
    { intros k Hk Hne. rewrite list_lookup_insert_ne by lia. unfold level_at. by rewrite El. }
    assert (default [] (<[Z.to_nat c:=l ++ [j]]> levels !! Z.to_nat c) = l ++ [j]) as Ecur by (rewrite list_lookup_insert_eq by lia; done).
    split_and!.
    + split; unfold level_at; cbn; [done| | |done|split; [exists [j]; by rewrite Forall_singleton|done]]; rewrite ?Hcur.
      * exact Eother.
      * intros r. rewrite Ecur. fold (level_at root c). rewrite Eat, elem_of_app. by left.
    + unfold level_at. cbn. rewrite Ecur, elem_of_app. right. by apply list_elem_of_singleton.
    + done.
    + intros root2 E1 E2 E3 Hp Hpj. cbn in E1, E2, E3. apply (inv_add root root2 c j); [done|done| |done| | | |done| | |done|done].
      * exists (<[Z.to_nat c:=l ++ [j]]> levels). split; [done|]. by rewrite length_insert.
      * unfold level_at at 1. rewrite E1, Ecur, Eat. done.
      * intros k Hk Hne. unfold level_at at 1. rewrite E1. by apply Eother.
      * unfold hash_inv in *. rewrite E2, E3. cbn in Htab. destruct tab as [t|]; [|done]. rewrite Htab, fmap_app. done.
      * rewrite Hv, HV. lia.
      * intros r' Hr'. rewrite Hv. by apply Hnew.
Qed.

Lemma make_join_rel_ok root c r1 r2 : search_inv root -> join_cur_level root = c -> 2 <= c <= Z.of_nat n -> good_rel r1 -> good_rel r2 ->
  ~ meets (rel_val r1) (rel_val r2) -> lev r1 + lev r2 = c ->
  reaches root (fun root' => considered root' c r1 r2) (snd <$> make_join_rel hash_any q root r1 r2).
Proof.
  intros Hi Hcur Hc Hg1 Hg2 Hd Hl. unfold make_join_rel. rewrite (proj2 (overlap_apart (relids r1) (relids r2) ltac:(apply Hg1) ltac:(apply Hg2)) Hd).
  rewrite join_legal. cbn [mbind result_bind add_outer_joins_to_relids].
  destruct (bms_union_spec (relids r1) (relids r2)) as [HJ HV]; [apply Hg1|apply Hg2|].
  destruct (build_join_rel_ok root c r1 r2 _ Hi Hcur Hc Hg1 Hg2 Hd Hl HJ HV) as (j & root' & -> & Hv & Hext & Hj & Hst & Hinv).
  cbn [mbind result_bind].
  assert (forall root2, join_rel_level root2 = join_rel_level root' -> join_cur_level root2 = join_cur_level root' ->
    tried root2 = tried root' ++ [(r1, r2, j)] -> keeps root' root2 -> extends root root2 /\ considered root2 c r1 r2) as Hdone.
  { intros root2 E1 E2 E3 Hk. assert (forall k, level_at root2 k = level_at root' k) as Ek by (intros; unfold level_at; by rewrite E1).
    destruct Hext as [X1 X2 X3 X4 X5]. split.
    - split; [congruence|intros; by rewrite Ek, X2|intros; by rewrite Ek; apply X3| |by transitivity root'].
      intros t Ht. rewrite E3, elem_of_app. left. by apply X4.
    - exists j. split_and!; [rewrite E3, elem_of_app; right; by apply list_elem_of_singleton|by rewrite Ek|by rewrite Hv]. }
  destruct (is_dummy_rel _ j) eqn:Ed.
  - cbn. eexists. split; [done|]. split; [|by apply Hdone; [..|apply keeps_same]]. apply Hinv; try done; cbn; rewrite Hst; [done|].
    apply dummy_has. cbn in Ed. by rewrite Hst in Ed.
  - destruct (populate_inner (store root') r1 r2 j (inner_sjinfo r1 r2) eq_refl) as (st' & Ep & Hhas & Hkeep).
    change (store (log_join root' r1 r2 j)) with (store root'). rewrite Ep. cbn.
    eexists. split; [done|]. split; [|apply Hdone; [done..|by apply keeps_same]]. rewrite Hst in Hkeep. by apply Hinv.
Qed.

(** ** The loops of one level *)
Lemma reaches_bind root (P Q : PlannerInfo -> Prop) m f : reaches root P m ->
  (forall root', search_inv root' -> extends root root' -> P root' -> reaches root' Q (f root')) -> reaches root Q (m ≫= f).
Proof.
  intros (root' & -> & Hi & He & HP) Hf. cbn. destruct (Hf root' Hi He HP) as (root2 & -> & Hi2 & He2 & HQ).
  exists root2. split_and!; [done|done|by transitivity root'|done].
Qed.
Lemma reaches_impl root (P Q : PlannerInfo -> Prop) m : reaches root P m ->
  (forall root', extends root root' -> P root' -> Q root') -> reaches root Q m.
Proof. intros (root' & -> & Hi & He & HP) H. exists root'. split_and!; auto. Qed.
Lemma reaches_here root (P : PlannerInfo -> Prop) : search_inv root -> P root -> reaches root P (Ok root).
Proof. intros Hi HP. exists root. by split_and!. Qed.

(** Whether two disjoint relations are linked is decided, and every clause counts. *)
Lemma linked_ok root r1 r2 : good_rel r1 -> good_rel r2 -> ~ meets (rel_val r1) (rel_val r2) ->
  exists b : bool, linked q root r1 r2 = Ok b /\ (links q clauses (rel_val r1) (rel_val r2) -> b = true).
Proof.
  intros Hg1 Hg2 Hd. unfold linked.
  destruct (have_relevant_joinclause_ok q all (qo_eclasses Hq) clauses (qo_clauses Hq) r1 r2) as (b & -> & Hb); [apply Hg1|apply Hg2|done|].
  cbn [mbind result_bind]. destruct b; [by exists true|]. unfold have_join_order_restriction. rewrite (qo_plain Hq).
  destruct (_ || _); [by exists true|]. destruct (existsb _ (placeholder_list q)); [by exists true|]. exists false. split; [done|].
  intros Hl. by apply Hb.
Qed.

Section Level.
Context (c : Z) (Hc : 2 <= c <= Z.of_nat n).

(** [old] may be joined with any relation of [others] that is apart from it. *)
Definition partners old (others : list JoinRel) : Prop :=
  good_rel old /\ forall o, o ∈ others -> good_rel o /\ lev old + lev o = c.

Lemma apart_dec r1 r2 : good_rel r1 -> good_rel r2 ->
  (bms_overlap (relids r1) (relids r2) = true /\ meets (rel_val r1) (rel_val r2)) \/
  (bms_overlap (relids r1) (relids r2) = false /\ ~ meets (rel_val r1) (rel_val r2)).
Proof.
  intros [L1 _] [L2 _]. pose proof (overlap_meets (relids r1) (relids r2) (rl_wf _ _ _ _ L1) (rl_wf _ _ _ _ L2)) as H.
  destruct (bms_overlap (relids r1) (relids r2)) eqn:E; [left|right]; (split; [done|]); unfold rel_val; rewrite <- H; done.
Qed.

Lemma clause_joins_ok old others : forall root, search_inv root -> join_cur_level root = c -> partners old others ->
  reaches root (fun root' => forall o, o ∈ others -> ~ meets (rel_val old) (rel_val o) -> links q clauses (rel_val old) (rel_val o) -> considered root' c old o)
    (make_rels_by_clause_joins hash_any q root old others).
Proof.
  induction others as [|o others IH]; intros root Hi Hcur [Hg Hp]; cbn [make_rels_by_clause_joins].
  { apply reaches_here; [done|]. intros o Ho. by apply not_elem_of_nil in Ho. }
  destruct (Hp o) as [Ho Hl]; [by left|].
  eapply (reaches_bind root (fun root' => ~ meets (rel_val old) (rel_val o) -> links q clauses (rel_val old) (rel_val o) -> considered root' c old o)).
  - destruct (apart_dec old o Hg Ho) as [[-> Hm]|[-> Hm]]; [by apply reaches_here|].
    destruct (linked_ok root old o Hg Ho Hm) as (b & -> & Hb). cbn [mbind result_bind]. destruct b.
    + eapply reaches_impl; [by apply (make_join_rel_ok root c)|]. auto.
    + apply reaches_here; [done|]. intros _ Hlk. by apply Hb in Hlk.
  - intros root' Hi' He Hthis. eapply reaches_impl; [apply IH; [done|by rewrite (ex_cur _ _ He)|]|].
    + split; [done|]. intros o' Ho'. apply Hp. by right.
    + intros root2 He2 Hrest o' [-> |Ho']%elem_of_cons Hm Hlk; [|by apply Hrest].
      eapply considered_extends; [done|lia|by apply Hthis].
Qed.

Lemma clauseless_joins_ok old others : forall root, search_inv root -> join_cur_level root = c -> partners old others ->
  reaches root (fun root' => forall o, o ∈ others -> ~ meets (rel_val old) (rel_val o) -> considered root' c old o)
    (make_rels_by_clauseless_joins hash_any q root old others).
Proof.
  induction others as [|o others IH]; intros root Hi Hcur [Hg Hp]; cbn [make_rels_by_clauseless_joins].
  { apply reaches_here; [done|]. intros o Ho. by apply not_elem_of_nil in Ho. }
  destruct (Hp o) as [Ho Hl]; [by left|].
  eapply (reaches_bind root (fun root' => ~ meets (rel_val old) (rel_val o) -> considered root' c old o)).
  - destruct (apart_dec o old Ho Hg) as [[-> Hm]|[-> Hm]]; [apply reaches_here; [done|]; by rewrite (meets_sym (rel_val old))|].
    assert (~ meets (rel_val old) (rel_val o)) as Hm' by (by rewrite meets_sym).
    eapply reaches_impl; [by apply (make_join_rel_ok root c)|]. auto.
  - intros root' Hi' He Hthis. eapply reaches_impl; [apply IH; [done|by rewrite (ex_cur _ _ He)|]|].
    + split; [done|]. intros o' Ho'. apply Hp. by right.
    + intros root2 He2 Hrest o' [-> |Ho']%elem_of_cons Hm; [|by apply Hrest].
      eapply considered_extends; [done|lia|by apply Hthis].
Qed.

(** Every linked pair of a relation of the list and one of its partners is tried. *)
Definition pairs_done root (rels : list JoinRel) (partners_of : list JoinRel -> list JoinRel) : Prop :=
  forall pre old post o, rels = pre ++ old :: post -> o ∈ partners_of post -> ~ meets (rel_val old) (rel_val o) ->
    links q clauses (rel_val old) (rel_val o) -> considered root c old o.
Lemma pairs_done_cons root root' old rels partners_of : extends root root' ->
  (forall o, o ∈ partners_of rels -> ~ meets (rel_val old) (rel_val o) -> links q clauses (rel_val old) (rel_val o) -> considered root c old o) ->
  pairs_done root' rels partners_of -> pairs_done root' (old :: rels) partners_of.
Proof.
  intros He H1 H2 [|x pre] old' post o E Ho Hm Hl; injection E as -> ->.
  - eapply considered_extends; [done|lia|]. by apply H1.
  - by apply (H2 pre old' post o).
Qed.

Lemma level_good root k r : search_inv root -> 0 <= k -> r ∈ level_at root k -> good_rel r /\ lev r = k.
Proof. intros Hi. by apply si_level. Qed.

Definition linear_partners (post : list JoinRel) : list JoinRel := if c =? 2 then post else initial_rels q.
Lemma linear_joins_ok rels : forall root, search_inv root -> join_cur_level root = c ->
  (forall r, r ∈ rels -> r ∈ level_at root (c - 1)) ->
  reaches root (fun root' => pairs_done root' rels linear_partners) (linear_joins hash_any q root c rels).
Proof.
  induction rels as [|old rels IH]; intros root Hi Hcur Hin; cbn [linear_joins].
  { apply reaches_here; [done|]. intros [|? pre] ? ? ? E; discriminate. }
  rewrite level_rels_ok by (done || lia). cbn [mbind result_bind]. rewrite (si_one _ Hi).
  destruct (level_good root (c - 1) old Hi ltac:(lia)) as [Hg Hlev]; [apply Hin; by left|].
  assert (forall o, o ∈ initial_rels q -> good_rel o /\ lev old + lev o = c) as Hinit.
  { intros o Ho. rewrite <- (si_one _ Hi) in Ho. destruct (level_good root 1 o Hi ltac:(lia) Ho). split; [done|lia]. }
  eapply (reaches_bind root (fun root' => forall o, o ∈ linear_partners rels -> ~ meets (rel_val old) (rel_val o) ->
    links q clauses (rel_val old) (rel_val o) -> considered root' c old o)).
  - destruct (has_links q old) eqn:Eh.
    + apply clause_joins_ok; [done|done|]. split; [done|]. unfold linear_partners. destruct (Z.eqb_spec c 2) as [->|]; [|done].
      intros o Ho. destruct (level_good root 1 o Hi ltac:(lia)) as [Hgo Hlo]; [apply (Hin o); by right|]. split; [done|]. cbn in Hlev. lia.
    + eapply reaches_impl; [by apply clauseless_joins_ok|]. intros root' He _ o Ho Hm Hlk. exfalso.
      by rewrite (links_has q all clauses old (rel_val o) (gr_links _ Hg) Hm Hlk) in Eh.
  - intros root' Hi' He Hthis. eapply reaches_impl; [apply IH; [done|by rewrite (ex_cur _ _ He)|]|].
    + intros r Hr. rewrite (ex_same _ _ He) by lia. apply Hin. by right.
    + intros root2 He2 Hrest. by eapply pairs_done_cons.
Qed.

Definition bushy_partners root (k : Z) (post : list JoinRel) : list JoinRel := if k =? c - k then post else level_at root (c - k).
Lemma bushy_pairs_ok root0 k rels : 2 <= k <= c - k -> forall root, search_inv root -> join_cur_level root = c -> extends root0 root -> join_cur_level root0 = c ->
  (forall r, r ∈ rels -> r ∈ level_at root0 k) ->
  reaches root (fun root' => pairs_done root' rels (bushy_partners root0 k)) (bushy_pairs hash_any q root k (c - k) rels).
Proof.
  intros Hk. induction rels as [|old rels IH]; intros root Hi Hcur He0 Hcur0 Hin; cbn [bushy_pairs].
  { apply reaches_here; [done|]. intros [|? pre] ? ? ? E; discriminate. }
  assert (forall k r, 0 <= k -> k <> c -> r ∈ level_at root0 k -> good_rel r /\ lev r = k) as Hlv0.
  { intros k' r Hk' Hne Hr. rewrite <- (ex_same _ _ He0) in Hr by (done || congruence). by apply (level_good root). }
  destruct (Hlv0 k old) as [Hg Hlev]; [lia|lia|apply Hin; by left|].
  eapply (reaches_bind root (fun root' => forall o, o ∈ bushy_partners root0 k rels -> ~ meets (rel_val old) (rel_val o) ->
    links q clauses (rel_val old) (rel_val o) -> considered root' c old o)).
  - destruct (has_links q old) eqn:Eh.
    + assert (forall m, (others ← (if k =? c - k then Ok rels else level_rels root (c - k)); m others) = m (bushy_partners root0 k rels)) as ->.
      { intros m. unfold bushy_partners. destruct (k =? c - k); [done|]. rewrite level_rels_ok by (done || lia).
        rewrite (ex_same _ _ He0) by lia. done. }
      apply clause_joins_ok; [done|done|]. split; [done|]. unfold bushy_partners. intros o Ho. destruct (Z.eqb_spec k (c - k)) as [E|].
      * destruct (Hlv0 k o) as [Hgo Hlo]; [lia|lia|apply Hin; by right|]. split; [done|lia].
      * destruct (Hlv0 (c - k) o) as [Hgo Hlo]; [lia|lia|done|]. split; [done|lia].
    + apply reaches_here; [done|]. intros o Ho Hm Hlk. exfalso.
      by rewrite (links_has q all clauses old (rel_val o) (gr_links _ Hg) Hm Hlk) in Eh.
  - intros root' Hi' He Hthis. eapply reaches_impl; [apply IH; [done|by rewrite (ex_cur _ _ He)|by transitivity root|done|]|].
    + intros r Hr. apply Hin. by right.
    + intros root2 He2 Hrest. by eapply pairs_done_cons.
Qed.

Lemma bushy_joins_ok root0 : join_cur_level root0 = c -> forall fuel k root, 2 <= k -> (c - k < Z.of_nat fuel)%Z -> (0 < fuel)%nat ->
  search_inv root -> join_cur_level root = c -> extends root0 root ->
  reaches root (fun root' => forall k', k <= k' <= c - k' -> pairs_done root' (level_at root0 k') (bushy_partners root0 k'))
    (bushy_joins hash_any q fuel root c k).
Proof.
  intros Hcur0. induction fuel as [|fuel IH]; intros k root Hk Hf Hf0 Hi Hcur He0; [lia|]. cbn [bushy_joins].
  destruct (Z.ltb_spec (c - k) k). { apply reaches_here; [done|]. intros k' Hk'. lia. }
  rewrite level_rels_ok by (done || lia). cbn [mbind result_bind]. rewrite (ex_same _ _ He0) by lia.
  eapply reaches_bind; [apply (bushy_pairs_ok root0 k (level_at root0 k)); auto; lia|]. intros root' Hi' He Hthis.
  eapply reaches_impl; [apply (IH (k + 1)); [lia|lia|lia|done|by rewrite (ex_cur _ _ He)|by transitivity root]|].
  intros root2 He2 Hrest k' Hk'. destruct (decide (k' = k)) as [->|]; [|apply Hrest; lia].
  intros pre old post o E Ho Hm Hl. eapply considered_extends; [done|lia|]. by apply (Hthis pre old post o).
Qed.

Lemma cartesian_joins_ok rels : forall root, search_inv root -> join_cur_level root = c ->
  (forall r, r ∈ rels -> r ∈ level_at root (c - 1)) ->
  reaches root (fun root' => forall r o, r ∈ rels -> o ∈ initial_rels q -> ~ meets (rel_val r) (rel_val o) -> considered root' c r o)
    (cartesian_joins hash_any q root rels).
Proof.
  induction rels as [|old rels IH]; intros root Hi Hcur Hin; cbn [cartesian_joins].
  { apply reaches_here; [done|]. intros r o Hr. by apply not_elem_of_nil in Hr. }
  rewrite level_rels_ok by (done || lia). cbn [mbind result_bind]. rewrite (si_one _ Hi).
  destruct (level_good root (c - 1) old Hi ltac:(lia)) as [Hg Hlev]; [apply Hin; by left|].
  eapply reaches_bind; [apply clauseless_joins_ok; [done|done|]|].
  - split; [done|]. intros o Ho. rewrite <- (si_one _ Hi) in Ho. destruct (level_good root 1 o Hi ltac:(lia) Ho). split; [done|lia].
  - intros root' Hi' He Hthis. eapply reaches_impl; [apply IH; [done|by rewrite (ex_cur _ _ He)|]|].
    + intros r Hr. rewrite (ex_same _ _ He) by lia. apply Hin. by right.
    + intros root2 He2 Hrest r o [-> |Hr]%elem_of_cons Ho Hm; [|by apply Hrest].
      eapply considered_extends; [done|lia|by apply Hthis].
Qed.

(** Every linked pair of disjoint relations whose levels add up has been tried, in one order or the other. *)
Definition level_done root : Prop :=
  forall i j r1 r2, 1 <= i -> 1 <= j -> i + j = c -> r1 ∈ level_at root i -> r2 ∈ level_at root j ->
    ~ meets (rel_val r1) (rel_val r2) -> links q clauses (rel_val r1) (rel_val r2) ->
    considered root c r1 r2 \/ considered root c r2 r1.

Lemma two_positions {A} (l : list A) x y : x <> y -> x ∈ l -> y ∈ l ->
  exists pre post, (l = pre ++ x :: post /\ y ∈ post) \/ (l = pre ++ y :: post /\ x ∈ post).
Proof.
  intros Hne Hx Hy. apply list_elem_of_split in Hx as (pre & post & ->). apply elem_of_app in Hy as [Hy|[->|Hy]%elem_of_cons]; [|done|].
  - apply list_elem_of_split in Hy as (pre1 & pre2 & ->). exists pre1, (pre2 ++ x :: post). right. split; [by rewrite <- app_assoc|].
    apply elem_of_app. right. by left.
  - exists pre, post. by left.
Qed.
Lemma apart_distinct root i r1 r2 : search_inv root -> 1 <= i -> r1 ∈ level_at root i -> ~ meets (rel_val r1) (rel_val r2) -> r1 <> r2.
Proof.
  intros Hi Hk Hr Hm <-. apply Hm. destruct (level_good root i r1 Hi ltac:(lia) Hr) as [Hg Hl].
  unfold meets. rewrite Z.land_diag. intros E0. rewrite E0 in Hl. unfold level_of, items in Hl.
  rewrite (List.filter_ext _ (fun _ => false)) in Hl by (intros; by rewrite Z.land_0_r). rewrite List.filter_false in Hl. cbn in Hl. lia.
Qed.

Lemma pairs_cover root0 root : search_inv root -> join_cur_level root0 = c -> extends root0 root ->
  pairs_done root (level_at root0 (c - 1)) linear_partners ->
  (forall k, 2 <= k <= c - k -> pairs_done root (level_at root0 k) (bushy_partners root0 k)) -> level_done root.
Proof.
  intros Hi Hcur He Hlin Hbushy.
  assert (forall i j r1 r2, 1 <= i <= j -> i + j = c -> r1 ∈ level_at root i -> r2 ∈ level_at root j ->
    ~ meets (rel_val r1) (rel_val r2) -> links q clauses (rel_val r1) (rel_val r2) -> considered root c r1 r2 \/ considered root c r2 r1) as H.
  { intros i j r1 r2 Hij Hsum H1 H2 Hm Hl.
    assert (~ meets (rel_val r2) (rel_val r1)) as Hm' by (by rewrite meets_sym). assert (links q clauses (rel_val r2) (rel_val r1)) as Hl' by (by apply links_sym).
    pose proof (apart_distinct root i r1 r2 Hi ltac:(lia) H1 Hm) as Hne.
    destruct (decide (i = j)) as [<-|Hne'].
    - rewrite (ex_same _ _ He) in H1, H2 by lia. destruct (two_positions _ r1 r2 Hne H1 H2) as (pre & post & [[E Hin]|[E Hin]]).
      + left. destruct (decide (i = 1)) as [->|].
        * apply (Hlin pre r1 post r2); [by replace (c - 1) with 1 by lia|unfold linear_partners; by rewrite (proj2 (Z.eqb_eq c 2)) by lia|done|done].
        * apply (Hbushy i ltac:(lia) pre r1 post r2); [done|unfold bushy_partners; by rewrite (proj2 (Z.eqb_eq i (c - i))) by lia|done|done].
      + right. destruct (decide (i = 1)) as [->|].
        * apply (Hlin pre r2 post r1); [by replace (c - 1) with 1 by lia|unfold linear_partners; by rewrite (proj2 (Z.eqb_eq c 2)) by lia|done|done].
        * apply (Hbushy i ltac:(lia) pre r2 post r1); [done|unfold bushy_partners; by rewrite (proj2 (Z.eqb_eq i (c - i))) by lia|done|done].
    - destruct (decide (i = 1)) as [->|].
      + right. rewrite (ex_same _ _ He) in H2 by lia. replace j with (c - 1) in H2 by lia. apply list_elem_of_split in H2 as (pre & post & E).
        apply (Hlin pre r2 post r1); [done| |done|done]. unfold linear_partners. rewrite (proj2 (Z.eqb_neq c 2)) by lia.
        by rewrite <- (si_one _ Hi).
      + left. rewrite (ex_same _ _ He) in H1, H2 by lia. apply list_elem_of_split in H1 as (pre & post & E).
        apply (Hbushy i ltac:(lia) pre r1 post r2); [done| |done|done]. unfold bushy_partners. rewrite (proj2 (Z.eqb_neq i (c - i))) by lia.
        by replace (c - i) with j by lia. }
  intros i j r1 r2 Hi1 Hj1 Hsum H1 H2 Hm Hl. destruct (Z.le_gt_cases i j).
  - by apply (H i j).
  - destruct (H j i r2 r1) as [Hd|Hd]; [lia|lia|done|done|by rewrite meets_sym|by apply links_sym|by right|by left].
Qed.

Lemma level_done_extends root root' : join_cur_level root = c -> extends root root' -> level_done root -> level_done root'.
Proof.
  intros Hcur He H i j r1 r2 Hi1 Hj1 Hsum H1 H2 Hm Hl. rewrite (ex_same _ _ He) in H1, H2 by lia.
  destruct (H i j r1 r2) as [Hd|Hd]; try done; [left|right]; (eapply considered_extends; [done|lia|done]).
Qed.

(** A relation of the previous level leaves an initial relation out. *)
Lemma someone_left root r : search_inv root -> r ∈ level_at root (c - 1) -> exists o, o ∈ initial_rels q /\ ~ meets (rel_val r) (rel_val o).
Proof.
  intros Hi Hr. destruct (level_good root (c - 1) r Hi ltac:(lia) Hr) as [_ Hl].
  destruct (item_missing vals (rel_val r)) as (i & Hlt & Hm); [rewrite vals_length; lia|].
  rewrite vals_length in Hlt. destruct (lookup_lt_is_Some_2 (initial_rels q) i Hlt) as [o Ho]. exists o.
  split; [by apply list_elem_of_lookup_2 in Ho|]. rewrite meets_sym. destruct (initial_val i o Ho) as [_ <-]. done.
Qed.

Lemma one_level_ok root : search_inv root -> level_at root (c - 1) <> [] ->
  reaches (set_cur_level root c) (fun root' => level_done root' /\ level_at root' c <> []) (join_search_one_level hash_any q root c).
Proof.
  intros Hi0 Hne. unfold join_search_one_level. set (root0 := set_cur_level root c).
  assert (search_inv root0) as Hi by (apply (inv_same root); [done..|apply Hi0|done]).
  rewrite level_rels_ok by (done || lia). cbn [mbind result_bind].
  eapply reaches_bind; [by apply linear_joins_ok|]. intros root1 Hi1 He1 Hlin.
  eapply reaches_bind; [apply (bushy_joins_ok root0); auto; [lia|lia|lia|by rewrite (ex_cur _ _ He1)]|]. intros root2 Hi2 He2 Hbushy.
  cbv beta in Hlin, Hbushy.
  assert (extends root0 root2) as He02 by (by transitivity root1). assert (join_cur_level root2 = c) as Hcur2 by (by rewrite (ex_cur _ _ He02)).
  assert (level_done root2) as Hdone.
  { apply (pairs_cover root0); [done|done|done| |done]. intros pre old post o E Ho Hm Hl.
    eapply (considered_extends root1 root2); [done|lia|by apply (Hlin pre old post o)]. }
  rewrite level_rels_ok by (done || lia). cbn [mbind result_bind].
  destruct (level_at root2 c) as [|r l] eqn:El; [|apply reaches_here; [done|by rewrite El]].
  eapply reaches_bind; [apply cartesian_joins_ok; [done|done|]|].
  { intros r Hr. by rewrite (ex_same _ _ He02) by (cbn; lia). }
  intros root3 Hi3 He3 Hcart. cbv beta in Hcart. rewrite level_rels_ok by (done || lia). cbn [mbind result_bind].
  assert (level_at root3 c <> []) as Hsome.
  { destruct (level_at root0 (c - 1)) as [|r rs] eqn:Ep; [done|].
    destruct (someone_left root0 r Hi ltac:(rewrite Ep; by left)) as (o & Ho & Hm).
    destruct (Hcart r o ltac:(by left) Ho Hm) as (j & _ & Hj & _). intros E. rewrite E in Hj. by apply not_elem_of_nil in Hj. }
  destruct (level_at root3 c) as [|r l] eqn:El3; [done|]. apply reaches_here; [done|]. rewrite El3. split; [|done].
  by apply (level_done_extends root2).
Qed.
End Level.

(** ** All levels *)
Lemma finish_level_ok rels : forall root, search_inv root -> (forall r, r ∈ rels -> has_paths (store root) r) ->
  exists st, finish_level q root rels = Ok (set_store root st) /\ search_inv (set_store root st) /\ keeps root (set_store root st).
Proof.
  induction rels as [|r rels IH]; intros root Hi Hp; cbn [finish_level].
  - exists (store root). destruct root. done.
  - destruct (finish_ok (store root) r (bms_equal (relids r) (all_query_rels q))) as (st & -> & Hkeep); [apply Hp; by left|].
    cbn [mbind result_bind].
    destruct (IH (set_store root st)) as (st' & Hok & Hi' & Hk); [apply (inv_same root); [done..|apply Hi|exact Hkeep]|intros r' Hr'; apply Hkeep, Hp; by right|].
    exists st'. rewrite Hok. split_and!; [done|done|]. transitivity (set_store root st); [by apply keeps_same|done].
Qed.

(** The state when levels 2 to [upto] are complete. *)
Record levels_done root (upto : Z) : Prop := {
  ld_inv : search_inv root;
  ld_some k : 1 <= k <= upto -> level_at root k <> [];
  ld_pairs c : 2 <= c <= upto -> level_done c root
}.

Lemma level_done_later c root root' : 2 <= c -> (forall k, 1 <= k <= c -> level_at root' k = level_at root k) ->
  (forall t, t ∈ tried root -> t ∈ tried root') -> level_done c root -> level_done c root'.
Proof.
  intros Hc Hsame Ht H i j r1 r2 Hi Hj Hsum H1 H2 Hm Hl. rewrite Hsame in H1, H2 by lia.
  destruct (H i j r1 r2) as [(x & Hx & Hxl & Hv)|(x & Hx & Hxl & Hv)]; try done; [left|right]; exists x; (split_and!; [by apply Ht|by rewrite Hsame by lia|done]).
Qed.

Lemma search_levels_ok : forall todo root upto, 1 <= upto -> upto + Z.of_nat todo <= Z.of_nat n -> levels_done root upto ->
  exists root', search_levels hash_any q todo root (upto + 1) = Ok root' /\ levels_done root' (upto + Z.of_nat todo) /\ keeps root root'.
Proof.
  induction todo as [|todo IH]; intros root upto Hu Hn [Hi Hs Hp]; cbn [search_levels].
  { exists root. rewrite Z.add_0_r. split; [done|]. by split. }
  destruct (one_level_ok (upto + 1) ltac:(lia) root Hi) as (root1 & -> & Hi1 & He1 & Hdone & Hne).
  { replace (upto + 1 - 1) with upto by lia. apply Hs. lia. }
  cbn [mbind result_bind]. rewrite level_rels_ok by (done || lia). cbn [mbind result_bind].
  destruct (finish_level_ok (level_at root1 (upto + 1)) root1 Hi1) as (st & -> & Hi2 & Hk2); [intros r Hr; eapply (si_paths _ Hi1); [|done]; lia|].
  cbn [mbind result_bind].
  assert (forall k, 0 <= k -> k <> upto + 1 -> level_at (set_store root1 st) k = level_at root k) as Hsame by (intros k Hk Hk'; by apply (ex_same _ _ He1)).
  destruct (IH (set_store root1 st) (upto + 1)) as (root' & -> & Hld & Hk); [lia|lia| |].
  - split; [done| |].
    + intros k Hk. destruct (decide (k = upto + 1)) as [->|]; [done|]. rewrite Hsame by lia. apply Hs. lia.
    + intros c Hc. destruct (decide (c = upto + 1)) as [->|]; [done|].
      apply (level_done_later c root); [lia|intros; apply Hsame; lia|apply (ex_tried _ _ He1)|apply Hp; lia].
  - exists root'. replace (upto + Z.of_nat (S todo)) with (upto + 1 + Z.of_nat todo) by lia. split_and!; [done|done|].
    pose proof (ex_keeps _ _ He1) as Hk1. transitivity root1; [exact Hk1|]. by transitivity (set_store root1 st).
Qed.

(** The planner's state when the search starts: what earlier searches left in the list lies within single items. *)
Record start_ok root : Prop := {
  so_hash : hash_inv root;
  so_wf : list_wf root;
  so_old r : r ∈ join_rel_list root -> union_of_items vals (rel_val r) -> lev r < 2;
  so_paths r : r ∈ initial_rels q -> has_paths (store root) r
}.

Lemma search_start root levels : start_ok root -> array_set (replicate (Z.to_nat (Z.of_nat n + 1)) []) 1 (initial_rels q) = Ok levels ->
  levels_done (set_levels root (Some levels)) 1.
Proof.
  intros [Hh Hw Ho Hp] E. pose proof (qo_two Hq) as H2. rewrite (array_set_ok _ 1%nat) in E by (rewrite length_replicate; lia). injection E as <-.
  set (root0 := set_levels root _).
  assert (level_at root0 1 = initial_rels q) as E1 by (unfold level_at; cbn; rewrite list_lookup_insert_eq by (rewrite length_replicate; lia); done).
  assert (forall k, 0 <= k -> k <> 1 -> level_at root0 k = []) as Ek.
  { intros k Hk Hne. unfold level_at. cbn. rewrite list_lookup_insert_ne by lia.
    destruct (_ !! Z.to_nat k) as [l|] eqn:El; [|done]. by apply lookup_replicate in El as [-> _]. }
  assert (forall k r, 0 <= k -> r ∈ level_at root0 k -> k = 1 /\ r ∈ initial_rels q) as Hin.
  { intros k r Hk Hr. destruct (decide (k = 1)) as [->|]; [by rewrite E1 in Hr|]. rewrite Ek in Hr by done. by apply not_elem_of_nil in Hr. }
  split; [|intros k Hk; replace k with 1 by lia; rewrite E1; intros E; rewrite E in H2; cbn in H2; lia|intros; lia].
  split; [|done|done|done|..].
  - eexists. split; [done|]. rewrite length_insert, length_replicate. lia.
  - intros k r Hk [-> Hr]%Hin; [|done]. pose proof Hr as [i Hri]%list_elem_of_lookup. destruct (initial_val i r Hri) as [Hlt Hv].
    destruct (single_union vals (qo_apart Hq) i Hlt) as [Hu Hl]. rewrite Hv in Hu, Hl. split; [|done].
    split; [|done]. by apply (proj1 (Forall_forall _ _) (qo_links Hq)).
  - intros r Hr Hu Hl. specialize (Ho r Hr Hu). lia.
  - intros k r Hk [-> _]%Hin; lia.
  - intros k Hk. destruct (decide (k = 1)) as [->|]; [|rewrite Ek by done; apply NoDup_nil_2]. rewrite E1. apply NoDup_alt.
    intros i j x Hi Hj. rewrite list_lookup_fmap in Hi, Hj. destruct (initial_rels q !! i) as [ri|] eqn:Eri, (initial_rels q !! j) as [rj|] eqn:Erj; try done.
    injection Hi as Hi. injection Hj as Hj. destruct (initial_val i ri Eri) as [Li Vi], (initial_val j rj Erj) as [Lj Vj].
    destruct (decide (i = j)); [done|]. exfalso. apply (ap_disjoint _ (qo_apart Hq) i j Li Lj); [done|].
    rewrite Vi, Vj, Hi, Hj. unfold meets. rewrite Z.land_diag. rewrite <- Hi, <- Vi. by apply (ap_nonempty _ (qo_apart Hq)).
  - intros k r Hk [-> Hr]%Hin; [by apply Hp|done].
Qed.

(** ** The whole search *)
Lemma standard_join_search_ok root : start_ok root -> exists rel root1 levels,
  standard_join_search hash_any q root (Z.of_nat n) (initial_rels q) = Ok (rel, set_levels root1 None, levels) /\
  levels_done root1 (Z.of_nat n) /\ join_rel_level root1 = Some levels /\ level_at root1 (Z.of_nat n) = [rel] /\ rel_val rel = all /\ keeps root root1.
Proof.
  intros Hs. pose proof (qo_two Hq) as H2. unfold standard_join_search.
  destruct (array_set _ 1 (initial_rels q)) as [levels0| |] eqn:E; [|by rewrite (array_set_ok _ 1%nat) in E by (rewrite length_replicate; lia)..].
  cbn [mbind result_bind]. pose proof (search_start root levels0 Hs E) as H0.
  destruct (search_levels_ok (Z.to_nat (Z.of_nat n - 1)) (set_levels root (Some levels0)) 1) as (root1 & Hok & Hld & Hk); [lia|lia|done|].
  change (1 + 1) with 2 in Hok. rewrite Hok. clear Hok.
  replace (1 + Z.of_nat (Z.to_nat (Z.of_nat n - 1))) with (Z.of_nat n) in Hld by lia. pose proof Hld as [Hi Hsome Hpairs].
  cbn [mbind result_bind]. rewrite level_rels_ok by (done || lia). cbn [mbind result_bind].
  assert (forall r, r ∈ level_at root1 (Z.of_nat n) -> rel_val r = all) as Hall.
  { intros r Hr. destruct (si_level _ Hi (Z.of_nat n) r ltac:(lia) Hr) as [[_ Hu] Hl]. apply full_union; [done|]. by rewrite vals_length. }
  specialize (Hsome (Z.of_nat n) ltac:(lia)). pose proof (si_unique _ Hi (Z.of_nat n) ltac:(lia)) as Hnd.
  destruct (level_at root1 (Z.of_nat n)) as [|rel [|rel2 rest]] eqn:El; [done| |].
  - destruct (si_levels _ Hi) as (levels & Elv & _). rewrite Elv. exists rel, root1, levels. split_and!; [done..| |done]. apply Hall. by left.
  - exfalso. cbn in Hnd. rewrite (Hall rel), (Hall rel2) in Hnd by (by left || right; by left).
    apply NoDup_cons in Hnd as [Hnd _]. apply Hnd. by left.
Qed.

(** *** Join trees *)
Inductive JoinTree := Leaf (i : nat) | Join (l r : JoinTree).
Fixpoint leaves (t : JoinTree) : list nat := match t with Leaf i => [i] | Join l r => leaves l ++ leaves r end.
Definition tree_val (t : JoinTree) : Z := mask vals (leaves t).

(** Every join of the tree is between disjoint sides that some clause or equivalence class mentions together. *)
Fixpoint clause_tree (t : JoinTree) : Prop :=
  match t with
  | Leaf i => (i < n)%nat
  | Join l r => clause_tree l /\ clause_tree r /\ ~ meets (tree_val l) (tree_val r) /\ links q clauses (tree_val l) (tree_val r)
  end.
(** Every join of the tree has been tried, with relations that cover its two sides. *)
Fixpoint tree_tried (log : list (JoinRel * JoinRel * JoinRel)) (t : JoinTree) : Prop :=
  match t with
  | Leaf _ => True
  | Join l r => tree_tried log l /\ tree_tried log r /\
      exists r1 r2 j, ((r1, r2, j) ∈ log \/ (r2, r1, j) ∈ log) /\
        rel_val r1 = tree_val l /\ rel_val r2 = tree_val r /\ rel_val j = tree_val t
  end.

Lemma tree_val_join l r : tree_val (Join l r) = Z.lor (tree_val l) (tree_val r).
Proof. apply mask_app. Qed.
Lemma clause_tree_level t : clause_tree t -> union_of_items vals (tree_val t) /\ level_of vals (tree_val t) = Z.of_nat (length (leaves t)).
Proof.
  induction t as [i|l IHl r IHr]; intros H.
  - unfold tree_val. cbn. rewrite Z.lor_0_r. apply (single_union vals (qo_apart Hq)). by rewrite vals_length.
  - destruct H as (Hl & Hr & Hd & _). destruct (IHl Hl) as [Ul Ll], (IHr Hr) as [Ur Lr]. rewrite tree_val_join.
    destruct (union_items vals (qo_apart Hq) _ _ Ul Ur Hd) as [Hu Hv]. split; [done|]. rewrite Hv. cbn [leaves]. rewrite length_app. lia.
Qed.

Lemma tree_found root t : levels_done root (Z.of_nat n) -> clause_tree t ->
  tree_tried (tried root) t /\ exists r, r ∈ level_at root (Z.of_nat (length (leaves t))) /\ rel_val r = tree_val t.
Proof.
  intros [Hi _ Hp]. induction t as [i|l IHl r IHr]; intros H.
  - split; [done|]. cbn in H. destruct (lookup_lt_is_Some_2 (initial_rels q) i H) as [r Hr]. exists r. cbn [leaves length].
    change (Z.of_nat 1) with 1. rewrite (si_one _ Hi). split; [by apply list_elem_of_lookup_2 in Hr|]. unfold tree_val. cbn. rewrite Z.lor_0_r. by destruct (initial_val i r Hr).
  - pose proof H as (Hl & Hr & Hd & Hlk). destruct (IHl Hl) as (Tl & rl & Hrl & Vl), (IHr Hr) as (Tr & rr & Hrr & Vr).
    destruct (clause_tree_level _ H) as [_ Hlev]. pose proof (level_bound vals (tree_val (Join l r))) as Hb.
    rewrite vals_length, Hlev in Hb. cbn [leaves] in *. rewrite length_app in *.
    assert (forall t, clause_tree t -> 1 <= Z.of_nat (length (leaves t))) as Hpos by (intros t _; induction t; cbn; rewrite ?length_app; lia).
    pose proof (Hpos l Hl). pose proof (Hpos r Hr).
    destruct (Hp (Z.of_nat (length (leaves l) + length (leaves r))) ltac:(lia) (Z.of_nat (length (leaves l))) (Z.of_nat (length (leaves r))) rl rr)
      as [(j & Hj & Hjl & Hv)|(j & Hj & Hjl & Hv)]; [lia|lia|lia|done|done|by rewrite Vl, Vr|by rewrite Vl, Vr|..];
      (split; [split_and!; [done|done|]; exists rl, rr, j; split_and!; [auto|done|done|]|exists j; split; [done|]]);
      rewrite tree_val_join, Hv, Vl, Vr; done || apply Z.lor_comm.
Qed.
End Search.

(** C12: For a query of plain inner joins (no special joins, no lateral references) over at least two disjoint
    items, [standard_join_search] always succeeds: no level is left empty, so neither "failed to build any
    %d-way joins" nor an out-of-range level can occur.  Level [k] holds joins of exactly [k] initial relations, no two of
    the same set, and the last level is the single join of all of them, which is the result. *)
Theorem join_search_succeeds {Expr} {Store} {join_paths : JoinPaths Store} {paths_ok : JoinPathsOk Store}
    hash_any (q : Query (Expr := Expr)) clauses root :
  query_ok q clauses -> start_ok q root ->
  exists rel root' levels,
    standard_join_search hash_any q root (Z.of_nat (length (initial_rels q))) (initial_rels q) = Ok (rel, root', levels) /\
    rel_val rel = all q /\ levels !! length (initial_rels q) = Some [rel] /\
    forall k l, (1 <= k)%nat -> levels !! k = Some l -> l <> [] /\ NoDup (rel_val <$> l) /\
      forall r, r ∈ l -> union_of_items (vals q) (rel_val r) /\ level_of (vals q) (rel_val r) = Z.of_nat k.
Proof.
  intros Hq Hs. destruct (standard_join_search_ok hash_any q clauses Hq root Hs) as (rel & root1 & levels & Hok & [Hi Hsome _] & El & Hlast & Hall & _).
  exists rel, (set_levels root1 None), levels. destruct (si_levels _ _ _ Hi) as (levels' & El' & Hlen). rewrite El in El'. injection El' as <-.
  assert (forall k l, levels !! k = Some l -> level_at root1 (Z.of_nat k) = l) as Hat by (intros k l Hk; unfold level_at; by rewrite El, Nat2Z.id, Hk).
  split_and!; [done|done| |].
  - destruct (lookup_lt_is_Some_2 levels (length (initial_rels q))) as [l Hl]; [lia|]. rewrite Hl. f_equal. rewrite <- Hlast. symmetry. by apply Hat.
  - intros k l Hk Hl. pose proof (lookup_lt_Some _ _ _ Hl). rewrite <- (Hat k l Hl).
    split_and!; [apply Hsome; lia|apply (si_unique _ _ _ Hi); lia|]. intros r Hr. destruct (si_level _ _ _ Hi (Z.of_nat k) r ltac:(lia) Hr) as [[_ Hu] Hv]. done.
Qed.

(** C6: The search is exhaustive: for every bushy join tree over the initial relations in which each join is
    backed by a join clause or an equivalence class, the search has built the relation of the tree at its level
    and has tried every one of its joins, in one order of the inputs or the other.  So the
    cheapest plan without cross products is among those compared. *)
Theorem join_search_exhaustive {Expr} {Store} {join_paths : JoinPaths Store} {paths_ok : JoinPathsOk Store}
    hash_any (q : Query (Expr := Expr)) clauses root :
  query_ok q clauses -> start_ok q root ->
  exists rel root' levels,
    standard_join_search hash_any q root (Z.of_nat (length (initial_rels q))) (initial_rels q) = Ok (rel, root', levels) /\
    forall t, clause_tree q clauses t ->
      tree_tried q (tried root') t /\
      exists l r, levels !! length (leaves t) = Some l /\ r ∈ l /\ rel_val r = tree_val q t.
Proof.
  intros Hq Hs. destruct (standard_join_search_ok hash_any q clauses Hq root Hs) as (rel & root1 & levels & Hok & Hld & El & _).
  exists rel, (set_levels root1 None), levels. split; [done|]. intros t Ht.
  destruct (tree_found q clauses Hq root1 t Hld Ht) as (Htried & r & Hr & Hv). split; [done|].
  unfold level_at in Hr. rewrite El, Nat2Z.id in Hr. destruct (levels !! length (leaves t)) as [l|]; [by exists l, r|by apply not_elem_of_nil in Hr].
Qed.

(** C31: [find_join_rel] gives the same answer whether it scans the list of join relations or, past 32 of them,
    builds and searches the hash table; either way the table keeps holding exactly the listed relations. *)
Theorem find_join_rel_equivalent {Store} hash_any (root : PlannerInfo (Store := Store)) rs :
  hash_inv root -> list_wf root -> bms_wf rs ->
  fst (find_join_rel hash_any root rs) = list_search (join_rel_list root) rs /\
  hash_inv (snd (find_join_rel hash_any root rs)) /\ join_rel_list (snd (find_join_rel hash_any root rs)) = join_rel_list root /\
  forall joinrel, hash_inv (add_join_rel (snd (find_join_rel hash_any root rs)) joinrel).
Proof.
  intros Hh Hl Hr. destruct (find_join_rel_ok hash_any root rs Hh Hl Hr) as (tab & -> & Htab). cbn [fst snd]. split_and!; [done|done|done|].
  intros j. unfold hash_inv in *. cbn in *. destruct tab as [t|]; [|done]. by rewrite Htab, fmap_app.
Qed.

(** ** A query with three relations *)
Module SearchDemo.
(** The relations that have paths, by address. *)
#[local] Instance log_paths : JoinPaths (list nat) := {
  is_dummy_rel := fun _ _ => false;
  create_unique_path := fun _ _ _ => false;
  restriction_is_constant_false := fun _ _ _ _ => false;
  mark_dummy_rel := fun st j => rel_ptr j :: st;
  add_join_paths := fun st j _ _ _ _ => Ok (rel_ptr j :: st);
  no_paths_yet := fun st r => negb (existsb (Nat.eqb (rel_ptr r)) st);
  try_partitionwise_join := fun st _ _ _ _ => Ok st;
  finish_rel := fun st r _ =>
    if existsb (Nat.eqb (rel_ptr r)) st then Ok st else Error "could not devise a query plan for the given query"
}.
#[local] Instance log_paths_ok : JoinPathsOk (list nat).
Proof.
  refine {| has_paths := fun st r => existsb (Nat.eqb (rel_ptr r)) st = true |}; cbn.
  - intros st j _ _ _. eexists. split; [done|]. cbn. rewrite Nat.eqb_refl. split; [done|]. intros r ->. apply orb_true_r.
  - intros st j r [->| ->]; [by rewrite Nat.eqb_refl|apply orb_true_r].
  - intros st _ _ _ _. by exists st.
  - done.
  - intros st r _ H. cbn in H. rewrite H. by exists st.
Defined.

(** [FROM t1, t2, t3 WHERE t1.a < t2.b AND t2.c = t3.d]: a join clause and an equivalence class. *)
Definition set_of (x : Z) : bitmapset := Some [x].
Definition c12 : JoinClause := {| jc_ptr := 0; required_relids := set_of 6; has_clone := false; is_clone := false; incompatible_relids := None |}.
Definition member (x : Z) : EquivalenceMember nat :=
  {| em_expr := 0%nat; em_relids := set_of x; em_is_const := false; em_is_child := false; em_datatype := 23; em_jdomain := 0 |}.
Definition ec23 : EquivalenceClass nat :=
  {| ec_opfamilies := [1976]; ec_collation := 0; ec_members := [member 4; member 8]; ec_sources := []; ec_derives := [];
     ec_relids := set_of 12; ec_has_const := false; ec_has_volatile := false; ec_broken := false; ec_sortref := 0;
     ec_min_security := 0; ec_max_security := 0; ec_merged := None |}.
Definition base (i : nat) (x : Z) (clauses : list JoinClause) (eclass : bool) : JoinRel :=
  {| rel_ptr := i; relids := set_of x; joininfo := clauses; has_eclass_joins := eclass; lateral_relids := None;
     direct_lateral_relids := None; lateral_referencers := None |}.
Definition t1 := base 1 2 [c12] false.
Definition t2 := base 2 4 [c12] true.
Definition t3 := base 3 8 [] true.
Definition query : Query (Expr := nat) :=
  {| join_info_list := []; placeholder_list := []; hasLateralRTEs := false; initial_rels := [t1; t2; t3]; all_query_rels := set_of 14;
     ec_root := {| ec_heap := [ec23]; eq_classes := [0%nat]; ec_merging_done := true;
                   eclass_indexes := [None; Some None; Some (set_of 1); Some (set_of 1)]; top_jdomain := 0 |} |}.
Definition start : PlannerInfo (Store := list nat) :=
  {| join_rel_list := []; join_rel_hash := None; join_rel_level := None; join_cur_level := 0; next_ptr := 4;
     store := [1; 2; 3]%nat; tried := [] |}.

Lemma set_of_wf x : 0 < x < 2 ^ 64 -> bms_wf (set_of x).
Proof. intros Hx. split; [repeat constructor; unfold u64; lia|]. cbn. rewrite Z.lor_0_r. lia. Qed.
Lemma class_zero (k p : nat) : [0%nat] !! k = Some p -> k = 0%nat /\ p = 0%nat.
Proof. destruct k as [|[|]]; cbn; [by intros [= <-]|done|done]. Qed.

Lemma first_only k : 0 <= k -> bms_mem (set_of 1) k = true -> k = 0.
Proof.
  intros Hk. unfold bms_mem. change (bms_val (set_of 1)) with 1. intros Ht. destruct (Z.eq_dec k 0); [done|].
  rewrite (Z.bits_above_log2 1 k) in Ht by (cbn; lia). done.
Qed.
Lemma base_links i x cs e : 0 < x < 2 ^ 64 -> within x 14 ->
  (c12 ∈ cs <-> meets 6 x /\ ~ within 6 x) -> (forall c, c ∈ cs -> c = c12) -> (e = true <-> meets 12 x /\ ~ within 12 x) ->
  rel_links query 14 [c12] (base i x cs e).
Proof.
  intros Hx Hw Hc Hall He. pose proof (set_of_wf x Hx) as Hwf. assert (rel_val (base i x cs e) = x) as Hv by (unfold rel_val; cbn; apply Z.lor_0_r).
  split; rewrite ?Hv.
  - exact Hwf.
  - done.
  - intros c. cbn [joininfo base]. split.
    + intros Hin. pose proof (Hall c Hin) as ->. split; [by left|]. by apply Hc.
    + intros (->%list_elem_of_singleton & H). by apply Hc.
  - cbn [has_eclass_joins base]. rewrite He. split.
    + intros H. by exists 0%nat, 0%nat.
    + intros (k & p & [-> ->]%class_zero & _ & H). exact H.
Qed.
Lemma query_plain : query_ok query [c12].
Proof.
  assert (all query = 14) as Eall by reflexivity. split; [done|done| | |rewrite Eall|rewrite Eall|cbn; lia].
  - split.
    + intros i Hi. destruct i as [|[|[|]]]; [vm_compute; discriminate..|cbn in Hi; lia].
    + intros i j Hi Hj Hne Hm. destruct i as [|[|[|]]], j as [|[|[|]]]; cbn in Hi, Hj; try lia; by apply Hm.
  - split.
    + intros c ->%list_elem_of_singleton. by apply set_of_wf.
    + by intros c c' ->%list_elem_of_singleton ->%list_elem_of_singleton.
  - split.
    + intros k p [-> ->]%class_zero. by apply set_of_wf.
    + intros b Hb Ht. assert (b < 4) as Hlt by (destruct (Z_lt_ge_dec b 4) as [|Hge]; [done|]; rewrite (testbit_high 4) in Ht by (lia || done); done).
      assert (b = 0 \/ b = 1 \/ b = 2 \/ b = 3) as [->|[->|[->| ->]]] by lia; [done|..]; (split; [lia|]);
        eexists; (split; [reflexivity|]); (split; [done || by apply set_of_wf|]); intros k Hk; (split;
          [|intros (p & [Ek ->]%class_zero & H); try discriminate H; replace k with 0 by lia; reflexivity]); intros Hm.
      * unfold bms_mem in Hm. cbn in Hm. by rewrite Z.bits_0 in Hm.
      * rewrite (first_only k Hk Hm). by exists 0%nat.
      * rewrite (first_only k Hk Hm). by exists 0%nat.
  - apply Forall_cons_2; [|apply Forall_cons_2; [|apply Forall_cons_2; [|apply Forall_nil_2]]]; apply base_links; try done;
      try (by intros c ->%list_elem_of_singleton); try (intros c H; by apply not_elem_of_nil in H).
    + split; [intros _; by split|intros _; by apply list_elem_of_singleton].
    + split; [done|by intros [H _]].
    + split; [intros _; by split|intros _; by apply list_elem_of_singleton].
    + split; [by intros ?%not_elem_of_nil|by intros [H _]].
Qed.
Lemma start_fine : start_ok query start.
Proof.
  split; [done|by constructor|intros r Hr; by apply not_elem_of_nil in Hr|].
  intros r Hr. repeat (apply elem_of_cons in Hr as [->|Hr]; [reflexivity|]). by apply not_elem_of_nil in Hr.
Qed.

Lemma join_search_succeeds_witness : exists rel root' levels,
  standard_join_search (fun _ => 0) query start 3 [t1; t2; t3] = Ok (rel, root', levels) /\ rel_val rel = 14 /\ levels !! 3%nat = Some [rel].
Proof.
  destruct (join_search_succeeds (fun _ => 0) query [c12] start query_plain start_fine) as (rel & root' & levels & H & Hv & Hl & _).
  exists rel, root', levels. split_and!; [exact H|exact Hv|exact Hl].
Defined.

(** The bushy plan [t1 JOIN (t2 JOIN t3)] is considered. *)
Definition plan : JoinTree := Join (Leaf 0) (Join (Leaf 1) (Leaf 2)).
Lemma plan_connected : clause_tree query [c12] plan.
Proof.
  cbn [clause_tree plan]. change (tree_val query (Leaf 0)) with 2. change (tree_val query (Join (Leaf 1) (Leaf 2))) with 12.
  change (tree_val query (Leaf 1)) with 4. change (tree_val query (Leaf 2)) with 8. split_and!; try (cbn; lia); try (by intros []).
  - right. exists 0%nat, 0%nat. split_and!; done.
  - left. exists c12. split; [by left|]. done.
Qed.
Lemma join_search_exhaustive_witness : exists rel root' levels,
  standard_join_search (fun _ => 0) query start 3 [t1; t2; t3] = Ok (rel, root', levels) /\ tree_tried query (tried root') plan.
Proof.
  destruct (join_search_exhaustive (fun _ => 0) query [c12] start query_plain start_fine) as (rel & root' & levels & H & Ht).
  exists rel, root', levels. split; [exact H|]. by apply Ht, plan_connected.
Defined.

(** Forty relations: the hash table is built. *)
Definition many : PlannerInfo (Store := list nat) :=
  {| join_rel_list := (fun i => base i (2 ^ Z.of_nat i) [] false) <$> seq 1 40; join_rel_hash := None; join_rel_level := None;
     join_cur_level := 0; next_ptr := 41; store := []; tried := [] |}.
Lemma find_join_rel_equivalent_witness : rel_ptr <$> fst (find_join_rel (fun _ => 0) many (set_of (2 ^ 35))) = Some 35%nat /\
  fst (find_join_rel (fun _ => 0) many (set_of (2 ^ 35))) = list_search (join_rel_list many) (set_of (2 ^ 35)).
Proof.
  split; [reflexivity|]. apply (find_join_rel_equivalent (fun _ => 0) many (set_of (2 ^ 35))); [done| |by apply set_of_wf].
  unfold list_wf. apply Forall_fmap, Forall_forall. intros i Hi%elem_of_seq. apply set_of_wf. split; [lia|]. apply Z.pow_lt_mono_r; lia.
Defined.
End SearchDemo.
