(* ===== verification/JoinLegal.v ===== *)
(** * Which joins are legal

    [join_is_legal] decides a declarative notion of legality, [legal]: at most one special join is performed by
    the join, every other one is settled, crossed earlier or commutes above a strict left
    join, and no lateral reference reaches a relation that must stay outside.  The decision always
    returns, and does not depend on the order of the two inputs. *)
From S2P Require Import Prelude Bitmapset BitmapsetSpec BitmapsetIter EquivClass PathKeys JoinRels JoinLinks.
#[local] Open Scope Z_scope.

Lemma filter_shrinks {A} (f g : A -> bool) (l : list A) : (forall x, x ∈ l -> g x = true -> f x = true) ->
  (exists x, x ∈ l /\ f x = true /\ g x = false) -> (length (List.filter g l) < length (List.filter f l))%nat.
Proof.
  assert (forall l, (forall x, x ∈ l -> g x = true -> f x = true) -> (length (List.filter g l) <= length (List.filter f l))%nat) as Hle.
  { clear l. induction l as [|y l IH]; intros H; cbn; [lia|]. specialize (IH ltac:(intros x Hx; apply H; by right)).
    specialize (H y ltac:(by left)). destruct (g y), (f y); cbn; lia. }
  induction l as [|y l IH]; intros H (x & Hx & Hf & Hg); [by apply not_elem_of_nil in Hx|]. cbn.
  assert (forall x, x ∈ l -> g x = true -> f x = true) as H' by (intros; apply H; [by right|done]).
  apply elem_of_cons in Hx as [->|Hx].
  - rewrite Hf, Hg. specialize (Hle l H'). cbn. lia.
  - assert (length (List.filter g l) < length (List.filter f l))%nat by (apply IH; eauto).
    specialize (H y ltac:(by left)). destruct (g y), (f y); cbn; lia.
Qed.

Section Legal.
Context {Expr : Type} {Store : Type} {join_paths : JoinPaths Store} (q : Query (Expr := Expr)) (st : Store).
Implicit Types (r : JoinRel) (s : SpecialJoinInfo) (o : option SpecialJoinInfo) (l : list SpecialJoinInfo) (ls : LegalState).

(** ** Legality *)
Definition lhs s : Z := bms_val (min_lefthand s).
Definition rhs s : Z := bms_val (min_righthand s).
Definition lateral r : Z := bms_val (lateral_relids r).
Definition both r1 r2 : Z := Z.lor (rel_val r1) (rel_val r2).

(** Nothing is left to do for [s]: its right side is not involved or not complete, [s] has been performed in one input,
    or its right side has been made unique there. *)
Definition proper_part s r : Prop := within (bms_val (syn_righthand s)) (rel_val r) /\ bms_val (syn_righthand s) <> rel_val r.
Definition settled r1 r2 s : Prop :=
  ~ meets (rhs s) (both r1 r2) \/ within (both r1 r2) (rhs s) \/
  (within (lhs s) (rel_val r1) /\ within (rhs s) (rel_val r1)) \/ (within (lhs s) (rel_val r2) /\ within (rhs s) (rel_val r2)) \/
  (jointype s = JOIN_SEMI /\ (proper_part s r1 \/ proper_part s r2)).

(** The join performs [s] between [outer] and [inner]: as it stands, or over unique rows of [inner]. *)
Definition spans s outer inner : Prop := within (lhs s) (rel_val outer) /\ within (rhs s) (rel_val inner).
Definition over_unique s inner : Prop :=
  jointype s = JOIN_SEMI /\ bms_val (syn_righthand s) = rel_val inner /\ create_unique_path st inner s = true.
Definition performs r1 r2 s (rev uniq : bool) : Prop :=
  let outer := if rev then r2 else r1 in
  let inner := if rev then r1 else r2 in
  if uniq then over_unique s inner /\ ~ spans s r1 r2 /\ ~ spans s r2 r1 else spans s outer inner.
Definition idle r1 r2 s : Prop := settled r1 r2 s \/ forall rev uniq, ~ performs r1 r2 s rev uniq.

(** At most one special join is performed. *)
Inductive matched r1 r2 : list SpecialJoinInfo -> option SpecialJoinInfo -> bool -> bool -> Prop :=
| matched_nil : matched r1 r2 [] None false false
| matched_idle s l o rev uniq : idle r1 r2 s -> matched r1 r2 l o rev uniq -> matched r1 r2 (s :: l) o rev uniq
| matched_here s l rev uniq : ~ settled r1 r2 s -> performs r1 r2 s rev uniq -> Forall (idle r1 r2) l ->
    matched r1 r2 (s :: l) (Some s) rev uniq.

(** A special join that is neither settled nor performed: the join reaches into its right side.  It is
    tolerable if both inputs do so, or if a left join may be moved into that side. *)
Definition stray r1 r2 s : Prop := ~ settled r1 r2 s /\ forall rev uniq, ~ performs r1 r2 s rev uniq.
Definition crossed r1 r2 s : Prop := meets (rel_val r1) (rhs s) /\ meets (rel_val r2) (rhs s).
Definition admits r1 r2 s : Prop := jointype s = JOIN_LEFT /\ ~ meets (both r1 r2) (lhs s).
Definition strict_left o : Prop := exists s, o = Some s /\ jointype s = JOIN_LEFT /\ lhs_strict s = true.

(** The relations that outer joins bring to the join [x] on their inner sides. *)
Inductive reached (x : Z) : Z -> Prop :=
| reached_join b : 0 <= b -> Z.testbit x b = true -> reached x b
| reached_rhs s b b' : s ∈ join_info_list q -> jointype s <> JOIN_FULL -> reached x b' -> Z.testbit (lhs s) b' = true ->
    0 <= b -> Z.testbit (rhs s) b = true -> reached x b.

(** [inner] refers to [outer]: only as the inner side of a nested loop. *)
Definition dangerous outer inner (phinfo : PlaceHolderInfo) : Prop :=
  let at_ := bms_val (ph_eval_at phinfo) in within at_ (lateral inner) /\ meets at_ (rel_val outer) /\ ~ within at_ (rel_val outer).
Definition nestloop o (wrong_side uniq : bool) outer inner : Prop :=
  (forall s, o = Some s -> wrong_side = false /\ uniq = false /\ jointype s <> JOIN_FULL) /\
  meets (rel_val outer) (bms_val (direct_lateral_relids inner)) /\ Forall (fun phinfo => ~ dangerous outer inner phinfo) (placeholder_list q).
Record lateral_fits r1 r2 o (rev uniq : bool) : Prop := {
  lf_one_way : ~ (meets (rel_val r1) (lateral r2) /\ meets (rel_val r2) (lateral r1));
  lf_fwd : meets (rel_val r1) (lateral r2) -> nestloop o rev uniq r1 r2;
  lf_rev : meets (rel_val r2) (lateral r1) -> nestloop o (negb rev) uniq r2 r1;
  lf_reached b : reached (both r1 r2) b -> Z.testbit (Z.lor (lateral r1) (lateral r2)) b = true -> Z.testbit (both r1 r2) b = true
}.

Record legal r1 r2 o (rev uniq : bool) : Prop := {
  lg_match : matched r1 r2 (join_info_list q) o rev uniq;
  lg_stray s : s ∈ join_info_list q -> stray r1 r2 s -> crossed r1 r2 s \/ admits r1 r2 s /\ strict_left o;
  lg_lateral : hasLateralRTEs q = true -> lateral_fits r1 r2 o rev uniq
}.

(** ** The code's tests *)
Record rel_sets r : Prop := { rs_relids : bms_wf (relids r); rs_lateral : bms_wf (lateral_relids r); rs_direct : bms_wf (direct_lateral_relids r) }.
Record sides s : Prop := { sd_lhs : bms_wf (min_lefthand s); sd_rhs : bms_wf (min_righthand s); sd_syn : bms_wf (syn_righthand s) }.
Record query_sets : Prop := {
  qs_sides : Forall sides (join_info_list q);
  qs_placeholders : Forall (fun phinfo => bms_wf (ph_eval_at phinfo)) (placeholder_list q)
}.

Lemma is_join_true t s : is_join t s = true <-> jointype s = t.
Proof. apply bool_decide_eq_true. Qed.
Lemma is_join_false t s : is_join t s = false <-> jointype s <> t.
Proof. apply bool_decide_eq_false. Qed.
Lemma subset_not_within a b : bms_wf a -> bms_wf b -> bms_is_subset a b = false <-> ~ within (bms_val a) (bms_val b).
Proof. intros Ha Hb. rewrite <- subset_within by done. by destruct (bms_is_subset a b). Qed.

Lemma both_comm r1 r2 : both r1 r2 = both r2 r1.
Proof. apply Z.lor_comm. Qed.
Lemma within_both r1 r2 x : within x (rel_val r1) -> within x (rel_val r2) -> ~ meets (rel_val r1) (rel_val r2) -> x = 0.
Proof.
  rewrite !within_bits, meets_bits. intros H1 H2 Hd. apply bits_zero. intros b Hb.
  destruct (Z.testbit x b) eqn:E; [|done]. exfalso. apply Hd. exists b. auto.
Qed.
Lemma not_settled_rhs r1 r2 s : ~ settled r1 r2 s -> rhs s <> 0 /\ both r1 r2 <> 0.
Proof.
  intros H. split; intros E; apply H; left; unfold meets; rewrite E; [rewrite Z.land_0_l|rewrite Z.land_0_r]; auto.
Qed.
Lemma performs_unique r1 r2 s rev uniq rev' uniq' : ~ meets (rel_val r1) (rel_val r2) -> ~ settled r1 r2 s ->
  performs r1 r2 s rev uniq -> performs r1 r2 s rev' uniq' -> rev' = rev /\ uniq' = uniq.
Proof.
  intros Hd [Hr Hb]%not_settled_rhs. unfold performs.
  assert (spans s r1 r2 -> spans s r2 r1 -> False) as H1 by (intros [_ Ha] [_ Hc]; apply Hr; by apply (within_both r1 r2)).
  assert (over_unique s r1 -> over_unique s r2 -> False) as H2.
  { intros (_ & E1 & _) (_ & E2 & _). apply Hb. rewrite E1 in E2. unfold both. rewrite <- E2 in *. rewrite Z.lor_diag.
    unfold meets in Hd. rewrite Z.land_diag in Hd. destruct (Z.eq_dec (rel_val r1) 0); [done|contradiction]. }
  destruct uniq, uniq'; [| | |]; destruct rev, rev'; naive_solver.
Qed.

Section Scan.
Context (r1 r2 : JoinRel) (J : bitmapset).
Context (H1 : rel_sets r1) (H2 : rel_sets r2) (HJ : bms_wf J) (EJ : bms_val J = both r1 r2) (Hd : ~ meets (rel_val r1) (rel_val r2)).

Lemma irrelevant_settled s : sides s -> irrelevant r1 r2 J s = true <-> settled r1 r2 s.
Proof.
  intros [Ha Hb Hc]. destruct H1 as [W1 _ _], H2 as [W2 _ _].
  assert (forall b c : bool, (if b then true else c) = b || c) as Eif by done. unfold irrelevant. rewrite !Eif. clear Eif.
  rewrite !bms_equal_spec, !orb_true_iff, !andb_true_iff, !orb_true_iff, !andb_true_iff, !negb_true_iff, Z.eqb_neq, Z.eqb_neq by done.
  rewrite overlap_apart, !subset_within, is_join_true by done. unfold settled, proper_part, lhs, rhs, rel_val. by rewrite EJ.
Qed.
Lemma spans_test s a b : sides s -> rel_sets a -> rel_sets b ->
  bms_is_subset (min_lefthand s) (relids a) && bms_is_subset (min_righthand s) (relids b) = true <-> spans s a b.
Proof. intros [Ha Hb _] [Wa _ _] [Wb _ _]. by rewrite andb_true_iff, !subset_within. Qed.
Lemma unique_test s a : sides s -> rel_sets a ->
  is_join JOIN_SEMI s && bms_equal (syn_righthand s) (relids a) && create_unique_path st a s = true <-> over_unique s a.
Proof.
  intros [_ _ Hs] [Wa _ _]. unfold over_unique, rel_val. rewrite !andb_true_iff, is_join_true, bms_equal_spec, Z.eqb_eq by done. naive_solver.
Qed.

(** What one turn of the scan does, by the standing of the special join. *)
Inductive step_view ls s : option LegalState -> Prop :=
| view_settled : settled r1 r2 s -> step_view ls s (Some ls)
| view_here rev uniq : ~ settled r1 r2 s -> performs r1 r2 s rev uniq -> step_view ls s (set_match ls s rev uniq)
| view_crossed : stray r1 r2 s -> crossed r1 r2 s -> step_view ls s (Some ls)
| view_admits : stray r1 r2 s -> ~ crossed r1 r2 s -> admits r1 r2 s ->
    step_view ls s (Some {| match_sjinfo := match_sjinfo ls; reversed := reversed ls; unique_ified := unique_ified ls; must_be_leftjoin := true |})
| view_forbidden : stray r1 r2 s -> ~ crossed r1 r2 s -> ~ admits r1 r2 s -> step_view ls s None.

Lemma legal_step_view ls s : sides s -> step_view ls s (legal_step st r1 r2 J ls s).
Proof.
  intros Hs. unfold legal_step.
  pose proof (irrelevant_settled s Hs) as Hset. destruct (irrelevant r1 r2 J s); [apply view_settled; by apply Hset|].
  assert (~ settled r1 r2 s) as Hns by (intros H%Hset; discriminate). clear Hset.
  pose proof (spans_test s r1 r2 Hs H1 H2) as Hf. destruct (_ && _); [apply view_here; [done|by apply Hf]|].
  pose proof (spans_test s r2 r1 Hs H2 H1) as Hb. destruct (_ && _); [apply view_here; [done|by apply Hb]|].
  assert (~ spans s r1 r2 /\ ~ spans s r2 r1) as Hn by (split; [intros H%Hf|intros H%Hb]; discriminate). clear Hf Hb.
  pose proof (unique_test s r2 Hs H2) as Hf. destruct (_ && _ && _); [apply view_here; [done|split; [by apply Hf|done]]|].
  pose proof (unique_test s r1 Hs H1) as Hb. destruct (_ && _ && _); [apply view_here; [done|split; [by apply Hb|done]]|].
  assert (stray r1 r2 s) as Hstray.
  { split; [done|]. intros [|] [|]; unfold performs; [intros [H%Hb _]; discriminate|tauto|intros [H%Hf _]; discriminate|tauto]. }
  destruct H1 as [W1 _ _], H2 as [W2 _ _], Hs as [Wl Wr _]. clear Hf Hb.
  destruct (_ && _) eqn:Ec; [rewrite andb_true_iff, !overlap_meets in Ec by done; by apply view_crossed|].
  assert (~ crossed r1 r2 s) as Hnc.
  { unfold crossed, rhs, rel_val. rewrite <- !overlap_meets, <- andb_true_iff, Ec by done. done. }
  destruct (_ || _) eqn:Ea; [apply view_forbidden|apply view_admits]; try done.
  - intros [Hj Hm]. rewrite <- is_join_true in Hj. rewrite Hj in Ea. cbn in Ea. apply Hm. rewrite overlap_meets, EJ in Ea by done. done.
  - rewrite orb_false_iff, negb_false_iff, is_join_true, overlap_apart, EJ in Ea by done. done.
Qed.

(** ** The scan *)
Definition open_state ls : Prop := match_sjinfo ls = None -> reversed ls = false /\ unique_ified ls = false.
Definition tolerated s : Prop := stray r1 r2 s -> crossed r1 r2 s \/ admits r1 r2 s.
Definition moved l : Prop := exists s, s ∈ l /\ stray r1 r2 s /\ ~ crossed r1 r2 s.
Record scanned ls l ls' : Prop := {
  sc_match : match match_sjinfo ls with
             | Some _ => match_sjinfo ls' = match_sjinfo ls /\ reversed ls' = reversed ls /\ unique_ified ls' = unique_ified ls /\ Forall (idle r1 r2) l
             | None => matched r1 r2 l (match_sjinfo ls') (reversed ls') (unique_ified ls')
             end;
  sc_tolerated : Forall tolerated l;
  sc_moved : must_be_leftjoin ls' = true <-> must_be_leftjoin ls = true \/ moved l
}.

Lemma not_idle s rev uniq : ~ settled r1 r2 s -> performs r1 r2 s rev uniq -> ~ idle r1 r2 s.
Proof. intros Hn Hp [H|H]; [done|by apply (H rev uniq)]. Qed.
Lemma stray_idle s : stray r1 r2 s -> idle r1 r2 s.
Proof. intros [_ H]. by right. Qed.
Lemma matched_fun l o rev uniq o' rev' uniq' : matched r1 r2 l o rev uniq -> matched r1 r2 l o' rev' uniq' -> o' = o /\ rev' = rev /\ uniq' = uniq.
Proof.
  intros H. revert o' rev' uniq'. induction H as [|s l o rev uniq Hi H IH|s l rev uniq Hn Hp Hi]; intros o' rev' uniq' H'; inversion H'; subst.
  - done.
  - by apply IH.
  - by destruct (not_idle s rev' uniq').
  - by destruct (not_idle s rev uniq).
  - destruct (performs_unique r1 r2 s rev uniq rev' uniq'); done.
Qed.

Lemma moved_cons s l : moved (s :: l) <-> (stray r1 r2 s /\ ~ crossed r1 r2 s) \/ moved l.
Proof. unfold moved. setoid_rewrite elem_of_cons. naive_solver. Qed.
Lemma scanned_skip ls s l ls' : idle r1 r2 s -> tolerated s -> ~ (stray r1 r2 s /\ ~ crossed r1 r2 s) -> scanned ls l ls' -> scanned ls (s :: l) ls'.
Proof.
  intros Hi Ht Hm [Hx Hy Hz]. split.
  - destruct (match_sjinfo ls); [|by constructor]. destruct Hx as (? & ? & ? & ?). split_and!; try done. by constructor.
  - by constructor.
  - rewrite moved_cons, Hz. tauto.
Qed.
Lemma legal_scan_sound l : Forall sides l -> forall ls ls', open_state ls -> legal_scan st r1 r2 J ls l = Some ls' -> scanned ls l ls'.
Proof.
  induction 1 as [|s l Hs Hl IH]; intros ls ls' Ho; cbn [legal_scan].
  - intros [= <-]. split; [|constructor|unfold moved; split; [by left|intros [H|(s & H%not_elem_of_nil & _)]; done]].
    destruct (match_sjinfo ls) eqn:E; [done|]. destruct (Ho E) as [-> ->]. constructor.
  - destruct (legal_step_view ls s Hs) as [Hset|rev uniq Hn Hp|Hst Hc|Hst Hc Ha|Hst Hc Ha].
    + intros H%IH; [|done]. apply scanned_skip; try done; [by left|intros [? _]; done|by intros [[? _] _]].
    + unfold set_match. destruct (match_sjinfo ls) eqn:E; [done|]. destruct (Ho E) as [Er Eu]. rewrite Eu. intros [Hx Hy Hz]%IH; [|done].
      cbn [match_sjinfo reversed unique_ified must_be_leftjoin orb] in *. destruct Hx as (E1 & E2 & E3 & Hi). split.
      * rewrite E, E1, E2, E3. by constructor.
      * constructor; [|done]. intros [_ H]. by destruct (H rev uniq).
      * rewrite moved_cons, Hz. assert (~ stray r1 r2 s) by (intros [_ H]; by apply (H rev uniq)). tauto.
    + intros H%IH; [|done]. apply scanned_skip; try done; [by apply stray_idle|by left|tauto].
    + intros [Hx Hy Hz]%IH; [|done]. cbn [match_sjinfo reversed unique_ified must_be_leftjoin] in *. split.
      * pose proof (stray_idle s Hst). destruct (match_sjinfo ls); [|by constructor]. destruct Hx as (? & ? & ? & ?). split_and!; try done. by constructor.
      * constructor; [|done]. by right.
      * rewrite moved_cons, Hz. tauto.
    + done.
Qed.
Lemma legal_scan_complete l : Forall sides l -> forall ls, open_state ls -> legal_scan st r1 r2 J ls l = None -> Forall tolerated l ->
  match match_sjinfo ls with Some _ => ~ Forall (idle r1 r2) l | None => forall o rev uniq, ~ matched r1 r2 l o rev uniq end.
Proof.
  induction 1 as [|s l Hs Hl IH]; intros ls Ho; cbn [legal_scan]; [done|]. intros Hno [Ht Htl]%Forall_cons. revert Hno.
  assert (idle r1 r2 s -> forall ls0, match_sjinfo ls0 = match_sjinfo ls -> open_state ls0 -> legal_scan st r1 r2 J ls0 l = None ->
    match match_sjinfo ls with Some _ => ~ Forall (idle r1 r2) (s :: l) | None => forall o rev uniq, ~ matched r1 r2 (s :: l) o rev uniq end) as Hskip.
  { intros Hi ls0 E Ho0 H%IH; [|done..]. rewrite E in H. destruct (match_sjinfo ls).
    - by intros [_ H']%Forall_cons.
    - intros o rev uniq Hm. inversion Hm; subst; [by eapply H|]. by destruct (not_idle s rev uniq). }
  destruct (legal_step_view ls s Hs) as [Hset|rev uniq Hn Hp|Hst Hc|Hst Hc Ha|Hst Hc Ha].
  - apply (Hskip (or_introl Hset) ls); done.
  - unfold set_match. destruct (match_sjinfo ls) eqn:E.
    + intros _ [Hi _]%Forall_cons. by destruct (not_idle s rev uniq).
    + intros H%IH; [|done..]. cbn [match_sjinfo] in H. intros o rev' uniq' Hm. inversion Hm; subst; [by destruct (not_idle s rev uniq)|done].
  - apply (Hskip (stray_idle s Hst) ls); done.
  - eapply (Hskip (stray_idle s Hst)); done.
  - destruct (Ht Hst); done.
Qed.
End Scan.

(** ** The closure under outer joins *)
Definition closed_at (x : Z) s : Prop := jointype s <> JOIN_FULL -> meets (lhs s) x -> within (rhs s) x.
Definition all_reached (x y : Z) : Prop := forall b, 0 <= b -> Z.testbit y b = true -> reached x b.

Lemma reached_step x y s : s ∈ join_info_list q -> jointype s <> JOIN_FULL -> meets (lhs s) y -> all_reached x y -> all_reached x (Z.lor y (rhs s)).
Proof.
  intros Hs Hf (b' & Hb' & Hl & Hy)%meets_bits Hr b Hb. rewrite Z.lor_spec, orb_true_iff. intros [H|H]; [by apply Hr|].
  eapply reached_rhs; eauto.
Qed.

Lemma rhs_pass_ok x l : Forall sides l -> (forall s, s ∈ l -> s ∈ join_info_list q) -> forall acc more, bms_wf acc -> all_reached x (bms_val acc) ->
  let '(acc', more') := rhs_pass l acc more in
  bms_wf acc' /\ within (bms_val acc) (bms_val acc') /\ all_reached x (bms_val acc') /\
  (more' = false -> more = false /\ acc' = acc /\ Forall (closed_at (bms_val acc)) l) /\
  (more' = true -> more = true \/ exists s, s ∈ l /\ ~ within (rhs s) (bms_val acc) /\ within (rhs s) (bms_val acc')).
Proof.
  induction 1 as [|s l [Wl Wr _] Hl IH]; intros Hsub acc more Hw Hr; cbn [rhs_pass].
  { split_and!; try done; [apply within_bits; auto|auto]. }
  assert (forall s, s ∈ l -> s ∈ join_info_list q) as Hsub' by (intros s' Hs'; apply Hsub; by right). specialize (IH Hsub').
  assert (closed_at (bms_val acc) s -> let '(acc', more') := rhs_pass l acc more in
    bms_wf acc' /\ within (bms_val acc) (bms_val acc') /\ all_reached x (bms_val acc') /\
    (more' = false -> more = false /\ acc' = acc /\ Forall (closed_at (bms_val acc)) (s :: l)) /\
    (more' = true -> more = true \/ exists s', s' ∈ s :: l /\ ~ within (rhs s') (bms_val acc) /\ within (rhs s') (bms_val acc'))) as Hskip.
  { intros Hc. specialize (IH acc more Hw Hr). destruct (rhs_pass l acc more) as [acc' more']. destruct IH as (A & B & C & D & E).
    split_and!; try done; [intros (-> & -> & Hf)%D; split_and!; try done; by constructor|].
    intros [->|(s' & Hs' & H)]%E; [by left|]. right. exists s'. split; [by right|done]. }
  destruct (is_join JOIN_FULL s) eqn:Ef; [apply Hskip; apply is_join_true in Ef; intros H; done|]. apply is_join_false in Ef.
  destruct (bms_overlap _ _) eqn:Eo; cbn [andb]; [|apply Hskip; rewrite overlap_apart in Eo by done; intros _ H; done].
  destruct (bms_is_subset _ _) eqn:Es; cbn [negb]; [apply Hskip; rewrite subset_within in Es by done; intros _ _; done|].
  rewrite overlap_meets in Eo by done. rewrite subset_not_within in Es by done. clear Hskip.
  destruct (bms_add_members_spec acc (min_righthand s) Hw Wr) as [Wa Va].
  assert (all_reached x (bms_val (bms_add_members acc (min_righthand s)))) as Hra by (rewrite Va; apply reached_step; try done; apply Hsub; by left).
  specialize (IH _ true Wa Hra). destruct (rhs_pass l _ true) as [acc' more']. destruct IH as (A & B & C & D & E). rewrite Va in B.
  split_and!; try done; [eapply within_trans; [apply within_part_l|done]|by intros [? _]%D|].
  intros _. right. exists s. split_and!; [by left|done|eapply within_trans; [apply within_part_r|done]].
Qed.

(** The special joins whose right side is still to be added; every pass that adds something retires one. *)
Definition pending (acc : bitmapset) : nat := length (List.filter (fun s => negb (bms_is_subset (min_righthand s) acc)) (join_info_list q)).

Lemma rhs_closure_ok x : Forall sides (join_info_list q) -> forall fuel acc, (pending acc < fuel)%nat -> bms_wf acc -> all_reached x (bms_val acc) ->
  exists acc', rhs_closure q fuel acc = Ok acc' /\ bms_wf acc' /\ within (bms_val acc) (bms_val acc') /\ all_reached x (bms_val acc') /\
    Forall (closed_at (bms_val acc')) (join_info_list q).
Proof.
  intros Hs. induction fuel as [|fuel IH]; intros acc Hfuel Hw Hr; [lia|]. cbn [rhs_closure].
  pose proof (rhs_pass_ok x (join_info_list q) Hs (fun s H => H) acc false Hw Hr) as Hp.
  destruct (rhs_pass (join_info_list q) acc false) as [acc' [|]]; destruct Hp as (A & B & C & D & E).
  - destruct (E eq_refl) as [|(s & Hin & Hn & Hy)]; [done|].
    destruct (IH acc') as (acc2 & -> & W2 & B2 & C2 & D2); [|done|done|exists acc2; split_and!; try done; by eapply within_trans].
    enough (pending acc' < pending acc)%nat by lia. rewrite Forall_forall in Hs. apply filter_shrinks.
    + intros s' Hs' H. destruct (Hs s' Hs') as [_ Wr _]. rewrite negb_true_iff, subset_not_within in * by done. intros H'. apply H. by eapply within_trans.
    + exists s. destruct (Hs s Hin) as [_ Wr _]. by rewrite negb_true_iff, negb_false_iff, subset_not_within, subset_within.
  - destruct (D eq_refl) as (_ & -> & Hc). by exists acc.
Qed.
Lemma closure_reached x y : within x y -> all_reached x y -> Forall (closed_at y) (join_info_list q) ->
  forall b, reached x b <-> 0 <= b /\ Z.testbit y b = true.
Proof.
  intros Hxy Hr Hc b. rewrite Forall_forall in Hc. rewrite within_bits in Hxy. split; [|intros [Hb H]; by apply Hr].
  induction 1 as [b Hb H|s b b' Hs Hf _ [Hb' IH] Hl Hb H]; split; try done; [by apply Hxy|].
  specialize (Hc s Hs Hf). rewrite within_bits in Hc. apply Hc; try done. apply meets_bits. by exists b'.
Qed.

(** ** Lateral references *)
Lemma dangerous_test outer inner : query_sets -> rel_sets outer -> rel_sets inner ->
  have_dangerous_phv q (relids outer) (lateral_relids inner) = false <-> Forall (fun phinfo => ~ dangerous outer inner phinfo) (placeholder_list q).
Proof.
  intros [_ Hp] [Wo _ _] [_ Wi _]. unfold have_dangerous_phv. rewrite Forall_forall in *. rewrite <- not_true_iff_false, existsb_exists.
  assert (forall phinfo, phinfo ∈ placeholder_list q ->
    dangerous_phv (relids outer) (lateral_relids inner) phinfo = true <-> dangerous outer inner phinfo) as Hd.
  { intros ph Hph. specialize (Hp ph Hph). cbn in Hp. unfold dangerous_phv, dangerous, lateral, rel_val.
    rewrite <- overlap_meets, <- !subset_within by done. destruct (bms_is_subset _ _), (bms_overlap _ _), (bms_is_subset _ (relids outer)); cbn; naive_solver. }
  split.
  - intros Hn ph Hph Hdg. apply Hn. exists ph. split; [by apply list_elem_of_In|]. by apply Hd.
  - intros Hn (ph & Hph%list_elem_of_In & Hdg%Hd); [|done]. by apply (Hn ph).
Qed.
Lemma nestloop_test ls wrong outer inner : query_sets -> rel_sets outer -> rel_sets inner ->
  lateral_nestloop_ok q ls wrong outer inner = true <-> nestloop (match_sjinfo ls) wrong (unique_ified ls) outer inner.
Proof.
  intros Hq Ho Hi. unfold lateral_nestloop_ok, nestloop. rewrite <- dangerous_test by done.
  unfold rel_val. rewrite <- overlap_meets by (apply Ho || apply Hi).
  assert (match match_sjinfo ls with Some s => wrong || unique_ified ls || is_join JOIN_FULL s | None => false end = false <->
    forall s, match_sjinfo ls = Some s -> wrong = false /\ unique_ified ls = false /\ jointype s <> JOIN_FULL) as <-.
  { destruct (match_sjinfo ls) as [s|]; [|done]. rewrite !orb_false_iff, is_join_false. naive_solver. }
  destruct (match match_sjinfo ls with Some _ => _ | None => _ end), (bms_overlap _ _), (have_dangerous_phv q _ _); cbn; naive_solver.
Qed.


Definition reach_test r1 r2 J : result bool :=
  match min_join_parameterization J r1 r2 with
  | None => Ok true
  | join_lateral_rels =>
      join_plus_rhs ← rhs_closure q (S (length (join_info_list q))) (bms_copy J);
      Ok (negb (bms_overlap join_plus_rhs join_lateral_rels))
  end.
Lemma reach_test_ok r1 r2 J : query_sets -> rel_sets r1 -> rel_sets r2 -> bms_wf J -> bms_val J = both r1 r2 ->
  exists ok, reach_test r1 r2 J = Ok ok /\
    (ok = true <-> forall b, reached (both r1 r2) b -> Z.testbit (Z.lor (lateral r1) (lateral r2)) b = true -> Z.testbit (both r1 r2) b = true).
Proof.
  intros Hq [_ L1 _] [_ L2 _] HJ EJ. unfold reach_test.
  destruct (bms_union_spec _ _ L1 L2) as [Wu Vu]. destruct (bms_del_members_spec _ J Wu HJ) as [Wd Vd]. rewrite Vu, EJ in Vd.
  fold (min_join_parameterization J r1 r2) in Wd, Vd. fold (lateral r1) (lateral r2) in Vd.
  assert (forall b, 0 <= b -> Z.testbit (bms_val (min_join_parameterization J r1 r2)) b = true <->
    Z.testbit (Z.lor (lateral r1) (lateral r2)) b = true /\ Z.testbit (both r1 r2) b = false) as Hb.
  { intros b Hb. rewrite Vd, Z.ldiff_spec, andb_true_iff, negb_true_iff. done. }
  assert (all_reached (both r1 r2) (bms_val J)) as Hr by (rewrite EJ; intros b Hb0 H; by apply reached_join).
  destruct (rhs_closure_ok (both r1 r2) (qs_sides Hq) (S (length (join_info_list q))) (bms_copy J)) as (C & E & WC & HC & Hrc & Hcl); [|done|done|].
  { unfold pending. pose proof (List.filter_length_le (fun s => negb (bms_is_subset (min_righthand s) (bms_copy J))) (join_info_list q)). lia. }
  assert (within (both r1 r2) (bms_val C)) as HC' by (rewrite <- EJ; done).
  pose proof (closure_reached _ _ HC' Hrc Hcl) as Hreach. rewrite E. cbn [mbind result_bind].
  assert (forall P, (P = true <-> ~ meets (bms_val C) (bms_val (min_join_parameterization J r1 r2))) -> P = true <->
    forall b, reached (both r1 r2) b -> Z.testbit (Z.lor (lateral r1) (lateral r2)) b = true -> Z.testbit (both r1 r2) b = true) as Hfin.
  { intros P ->. rewrite meets_bits. split.
    - intros Hn b Hrb Hl. destruct (Z.testbit (both r1 r2) b) eqn:Eb; [done|]. apply Hreach in Hrb as [Hb0 Hcb].
      exfalso. apply Hn. exists b. split_and!; try done. by apply Hb.
    - intros H (b & Hb0 & Hcb & [Hl Hn]%Hb); [|done]. rewrite H in Hn; try done. by apply Hreach. }
  destruct (min_join_parameterization J r1 r2) as [ws|] eqn:Em.
  - eexists. split; [done|]. apply Hfin. by rewrite negb_true_iff, overlap_apart.
  - exists true. split; [done|]. apply Hfin. unfold meets. cbn. rewrite Z.land_0_r. split; auto.
Qed.

Lemma lateral_legal_ok ls r1 r2 J : query_sets -> rel_sets r1 -> rel_sets r2 -> bms_wf J -> bms_val J = both r1 r2 ->
  exists ok, lateral_legal q ls r1 r2 J = Ok ok /\ (ok = true <-> lateral_fits r1 r2 (match_sjinfo ls) (reversed ls) (unique_ified ls)).
Proof.
  intros Hq H1 H2 HJ EJ. unfold lateral_legal. fold (reach_test r1 r2 J). destruct (reach_test_ok r1 r2 J Hq H1 H2 HJ EJ) as (ok & -> & Hok).
  pose proof (nestloop_test ls (reversed ls) r1 r2 Hq H1 H2) as Hf. pose proof (nestloop_test ls (negb (reversed ls)) r2 r1 Hq H2 H1) as Hr.
  pose proof (overlap_meets (relids r1) (lateral_relids r2) (rs_relids _ H1) (rs_lateral _ H2)) as Mf.
  pose proof (overlap_meets (relids r2) (lateral_relids r1) (rs_relids _ H2) (rs_lateral _ H1)) as Mr.
  fold (rel_val r1) (lateral r2) in Mf. fold (rel_val r2) (lateral r1) in Mr.
  assert (lateral_fits r1 r2 (match_sjinfo ls) (reversed ls) (unique_ified ls) <->
    ~ (meets (rel_val r1) (lateral r2) /\ meets (rel_val r2) (lateral r1)) /\
    (meets (rel_val r1) (lateral r2) -> nestloop (match_sjinfo ls) (reversed ls) (unique_ified ls) r1 r2) /\
    (meets (rel_val r2) (lateral r1) -> nestloop (match_sjinfo ls) (negb (reversed ls)) (unique_ified ls) r2 r1) /\
    ok = true) as Hfit by (rewrite Hok; split; [intros []; auto|intros (? & ? & ? & ?); by split]).
  rewrite <- Hf, <- Hr, <- Mf, <- Mr in Hfit. clear - Hfit.
  destruct (bms_overlap (relids r1) _), (bms_overlap (relids r2) _), (lateral_nestloop_ok q ls (reversed ls) r1 r2),
    (lateral_nestloop_ok q ls (negb (reversed ls)) r2 r1); cbn [andb negb]; eexists; (split; [reflexivity|]); rewrite Hfit; naive_solver.
Qed.

(** ** The decision *)
Lemma crossed_dec r1 r2 s : crossed r1 r2 s \/ ~ crossed r1 r2 s.
Proof. unfold crossed, meets. destruct (Z.eq_dec (Z.land (rel_val r1) (rhs s)) 0), (Z.eq_dec (Z.land (rel_val r2) (rhs s)) 0); tauto. Qed.
Lemma stray_rule r1 r2 o : Forall (tolerated r1 r2) (join_info_list q) ->
  (forall s, s ∈ join_info_list q -> stray r1 r2 s -> crossed r1 r2 s \/ admits r1 r2 s /\ strict_left o) <->
  (moved r1 r2 (join_info_list q) -> strict_left o).
Proof.
  rewrite Forall_forall. intros Ht. split.
  - intros H (s & Hs & Hst & Hc). by destruct (H s Hs Hst) as [|[_ ?]].
  - intros H s Hs Hst. destruct (crossed_dec r1 r2 s) as [|Hc]; [by left|]. destruct (Ht s Hs Hst); [done|]. right. split; [done|]. apply H. by exists s.
Qed.
Lemma strict_left_test o : match o with None => true | Some s => negb (is_join JOIN_LEFT s) || negb (lhs_strict s) end = false <-> strict_left o.
Proof.
  unfold strict_left. destruct o as [s|]; [|split; [done|by intros (s & ? & _)]].
  rewrite orb_false_iff, !negb_false_iff, is_join_true. naive_solver.
Qed.

Lemma join_is_legal_ok r1 r2 J : query_sets -> rel_sets r1 -> rel_sets r2 -> bms_wf J -> bms_val J = both r1 r2 ->
  ~ meets (rel_val r1) (rel_val r2) ->
  exists verdict, join_is_legal q st r1 r2 J = Ok verdict /\
    forall o rev, verdict = Some (o, rev) <-> exists uniq, legal r1 r2 o rev uniq.
Proof.
  intros Hq H1 H2 HJ EJ Hd. unfold join_is_legal.
  set (ls0 := {| match_sjinfo := None; reversed := false; unique_ified := false; must_be_leftjoin := false |}).
  assert (open_state ls0) as Ho by done.
  destruct (legal_scan st r1 r2 J ls0 (join_info_list q)) as [ls|] eqn:Es.
  - apply legal_scan_sound in Es as [Hm Ht Hmv]; [|done..|apply (qs_sides Hq)|done]. cbn in Hm, Hmv.
    assert (must_be_leftjoin ls = true <-> moved r1 r2 (join_info_list q)) as Hmv' by naive_solver. clear Hmv.
    pose proof (strict_left_test (match_sjinfo ls)) as Hst. pose proof (stray_rule r1 r2 (match_sjinfo ls) Ht) as Hrule.
    assert (exists fits, (if hasLateralRTEs q then lateral_legal q ls r1 r2 J else Ok true) = Ok fits /\
      (fits = true <-> (hasLateralRTEs q = true -> lateral_fits r1 r2 (match_sjinfo ls) (reversed ls) (unique_ified ls)))) as (fits & -> & Hfits).
    { destruct (lateral_legal_ok ls r1 r2 J Hq H1 H2 HJ EJ) as (ok & -> & Hok). destruct (hasLateralRTEs q); [exists ok|exists true]; (split; [done|]); naive_solver. }
    cbn [mbind result_bind].
    assert (forall o rev uniq, legal r1 r2 o rev uniq -> o = match_sjinfo ls /\ rev = reversed ls /\ uniq = unique_ified ls) as Hfun
      by (intros o rev uniq [H _ _]; by eapply matched_fun).
    assert (legal r1 r2 (match_sjinfo ls) (reversed ls) (unique_ified ls) <-> (moved r1 r2 (join_info_list q) -> strict_left (match_sjinfo ls)) /\ fits = true) as Hleg.
    { rewrite Hfits, <- Hrule. split; [by intros []|intros []; by split]. }
    rewrite <- Hst, <- Hmv' in Hleg. clear Hst Hmv' Hfits Hrule.
    set (leftjoin := match match_sjinfo ls with None => _ | Some _ => _ end) in *.
    assert (exists verdict : option (option SpecialJoinInfo * bool), (if must_be_leftjoin ls && leftjoin then Ok None
      else Ok (if fits then Some (match_sjinfo ls, reversed ls) else None)) = Ok verdict /\
      (verdict = Some (match_sjinfo ls, reversed ls) /\ legal r1 r2 (match_sjinfo ls) (reversed ls) (unique_ified ls) \/
       verdict = None /\ ~ legal r1 r2 (match_sjinfo ls) (reversed ls) (unique_ified ls))) as (verdict & -> & Hv).
    { destruct (must_be_leftjoin ls), leftjoin, fits; cbn; eexists; (split; [reflexivity|]); rewrite Hleg; naive_solver. }
    exists verdict. split; [done|]. intros o rev. destruct Hv as [[-> Hl]|[-> Hl]].
    + split; [intros [= <- <-]; by eexists|]. intros (uniq & (-> & -> & _)%Hfun). done.
    + split; [done|]. intros (uniq & Hl'). destruct (Hfun _ _ _ Hl') as (-> & -> & ->). done.
  - exists None. split; [done|]. intros o rev. split; [done|]. intros (uniq & [Hm Hs _]).
    exfalso. eapply (legal_scan_complete r1 r2 J H1 H2 HJ EJ) in Es; [cbn in Es; by eapply Es|apply (qs_sides Hq)|done|].
    apply Forall_forall. intros s Hin Hst. destruct (Hs s Hin Hst) as [|[? _]]; auto.
Qed.

(** ** Swapping the inputs *)
Definition flip o (rev : bool) : bool := match o with Some _ => negb rev | None => rev end.
Lemma settled_swap r1 r2 s : settled r1 r2 s <-> settled r2 r1 s.
Proof. unfold settled. rewrite (both_comm r1 r2). tauto. Qed.
Lemma performs_swap r1 r2 s rev uniq : performs r1 r2 s rev uniq <-> performs r2 r1 s (negb rev) uniq.
Proof. unfold performs. destruct rev, uniq; cbn; tauto. Qed.
Lemma performs_none_swap r1 r2 s : (forall rev uniq, ~ performs r1 r2 s rev uniq) -> forall rev uniq, ~ performs r2 r1 s rev uniq.
Proof. intros H rev uniq Hp%performs_swap. by apply (H (negb rev) uniq). Qed.
Lemma idle_swap r1 r2 s : idle r1 r2 s -> idle r2 r1 s.
Proof. intros [H|H]; [left; by apply settled_swap|right; by apply performs_none_swap]. Qed.
Lemma matched_swap r1 r2 l o rev uniq : matched r1 r2 l o rev uniq -> matched r2 r1 l o (flip o rev) uniq.
Proof.
  induction 1 as [|s l o rev uniq Hi H IH|s l rev uniq Hn Hp Hi]; [constructor|constructor; [by apply idle_swap|done]|].
  apply matched_here; [by rewrite settled_swap|by apply performs_swap in Hp|]. eapply Forall_impl; [exact Hi|]. apply idle_swap.
Qed.
Lemma legal_swap r1 r2 o rev uniq : legal r1 r2 o rev uniq -> legal r2 r1 o (flip o rev) uniq.
Proof.
  intros [Hm Hs Hl]. split.
  - by apply matched_swap.
  - intros s Hin [Hn Hp]. destruct (Hs s Hin) as [[? ?]|[[? ?] ?]]; [split; [by rewrite settled_swap|by apply performs_none_swap]|by left|].
    right. split; [|done]. split; [done|]. by rewrite (both_comm r2 r1).
  - intros Hh. destruct (Hl Hh) as [A B C D].
    assert (forall a outer inner, nestloop o a uniq outer inner -> forall b, (o <> None -> b = a) -> nestloop o b uniq outer inner) as Hnl.
    { intros a outer inner (N1 & N2 & N3) b Hb. split_and!; try done. intros s Es. rewrite Hb by (by rewrite Es). by apply N1. }
    split; [tauto|..].
    + intros Hx%C. eapply Hnl; [done|]. by destruct o, rev.
    + intros Hx%B. eapply Hnl; [done|]. by destruct o, rev.
    + intros b. rewrite (both_comm r2 r1), (Z.lor_comm (lateral r2)). apply D.
Qed.
End Legal.

Lemma bms_union_comm a b : bms_union a b = bms_union b a.
Proof.
  destruct a as [wa|], b as [wb|]; try done. cbn. rewrite !nwords_le.
  destruct (Nat.leb_spec (length wa) (length wb)), (Nat.leb_spec (length wb) (length wa)); [|done|done|lia]. f_equal.
  assert (length wa = length wb) as E by lia. clear -E. revert wb E. induction wa as [|a wa IH]; intros [|b wb] E; try done.
  cbn. rewrite Z.lor_comm. f_equal. apply IH. cbn in E. lia.
Qed.

(** C8: [join_is_legal] decides legality: on disjoint inputs it always returns (the loop that collects inner
    sides of outer joins ends), it accepts the join exactly when [legal] holds, and it then
    reports the one special join that the join performs and whether its sides are
    swapped. *)
Theorem join_is_legal_decides {Expr} {Store} {join_paths : JoinPaths Store} (q : Query (Expr := Expr)) st r1 r2 :
  query_sets q -> rel_sets r1 -> rel_sets r2 -> ~ meets (rel_val r1) (rel_val r2) ->
  exists verdict, join_is_legal q st r1 r2 (bms_union (relids r1) (relids r2)) = Ok verdict /\
    (forall o rev, verdict = Some (o, rev) <-> exists uniq, legal q st r1 r2 o rev uniq) /\
    (verdict = None <-> forall o rev uniq, ~ legal q st r1 r2 o rev uniq).
Proof.
  intros Hq H1 H2 Hd. destruct (bms_union_spec _ _ (rs_relids _ H1) (rs_relids _ H2)) as [W V].
  destruct (join_is_legal_ok q st r1 r2 _ Hq H1 H2 W V Hd) as (verdict & -> & Hv). exists verdict. split_and!; [done|done|].
  destruct verdict as [[o rev]|].
  - split; [done|]. intros Hn. destruct (proj1 (Hv o rev) eq_refl) as [uniq Hl]. by destruct (Hn o rev uniq).
  - split; [|done]. intros _ o rev uniq Hl. by assert (None = Some (o, rev)) by (apply Hv; by exists uniq).
Qed.

(** C14: The order in which two relations are offered does not matter: [join_is_legal] accepts both orders or
    neither and reports the same special join, with its sides swapped.  So where a special join is performed
    [make_join_rel] does the same for both orders, down to the order of the inputs that the paths are
    built for, and the search can offer each pair once. *)
Theorem join_order_irrelevant {Expr} {Store} {join_paths : JoinPaths Store} hash_any (q : Query (Expr := Expr)) root r1 r2 :
  query_sets q -> rel_sets r1 -> rel_sets r2 -> ~ meets (rel_val r1) (rel_val r2) ->
  exists verdict,
    join_is_legal q (store root) r1 r2 (bms_union (relids r1) (relids r2)) = Ok verdict /\
    join_is_legal q (store root) r2 r1 (bms_union (relids r2) (relids r1)) = Ok ((fun v => (v.1, flip v.1 v.2)) <$> verdict) /\
    ((forall rev, verdict <> Some (None, rev)) -> make_join_rel hash_any q root r1 r2 = make_join_rel hash_any q root r2 r1).
Proof.
  intros Hq H1 H2 Hd. destruct (bms_union_spec _ _ (rs_relids _ H1) (rs_relids _ H2)) as [W V].
  destruct (join_is_legal_ok q (store root) r1 r2 _ Hq H1 H2 W V Hd) as (verdict & E1 & Hv).
  rewrite (bms_union_comm (relids r2)). change (bms_val (bms_union (relids r1) (relids r2)) = both r1 r2) in V. rewrite both_comm in V. rewrite meets_sym in Hd.
  destruct (join_is_legal_ok q (store root) r2 r1 _ Hq H2 H1 W V Hd) as (verdict' & E2 & Hv').
  assert (verdict' = (fun v => (v.1, flip v.1 v.2)) <$> verdict) as ->.
  { destruct verdict as [[o rev]|]; cbn.
    - apply Hv'. destruct (proj1 (Hv o rev) eq_refl) as [uniq Hl]. exists uniq. by apply legal_swap.
    - destruct verdict' as [[o rev]|]; [|done]. destruct (proj1 (Hv' o rev) eq_refl) as [uniq Hl].
      assert (None = Some (o, flip o rev)) by (apply Hv; exists uniq; by apply legal_swap). done. }
  exists verdict. split_and!; [done|done|]. intros Hn. unfold make_join_rel.
  pose proof (proj2 (overlap_apart (relids r2) (relids r1) (rs_relids _ H2) (rs_relids _ H1)) Hd) as ->. rewrite meets_sym in Hd.
  pose proof (proj2 (overlap_apart (relids r1) (relids r2) (rs_relids _ H1) (rs_relids _ H2)) Hd) as ->.
  rewrite (bms_union_comm (relids r2)), E1, E2. cbn [mbind result_bind].
  destruct verdict as [[[s|] rev]|]; cbn [fmap option_fmap option_map fst snd flip]; [|by destruct (Hn rev)|done]. by destruct rev.
Qed.

(** ** [t1 LEFT JOIN t2], where [t2] refers to [t1] laterally, and [t3] on its own *)
Module LegalDemo.
#[local] Instance no_paths : JoinPaths unit := {
  is_dummy_rel := fun _ _ => false;
  create_unique_path := fun _ _ _ => false;
  restriction_is_constant_false := fun _ _ _ _ => false;
  mark_dummy_rel := fun st _ => st;
  add_join_paths := fun st _ _ _ _ _ => Ok st;
  no_paths_yet := fun _ _ => false;
  try_partitionwise_join := fun st _ _ _ _ => Ok st;
  finish_rel := fun st _ _ => Ok st
}.
Definition rel (i : nat) (x lat : bitmapset) : JoinRel :=
  {| rel_ptr := i; relids := x; joininfo := []; has_eclass_joins := false; lateral_relids := lat; direct_lateral_relids := lat;
     lateral_referencers := None |}.
Definition t1 := rel 1 (Some [2]) None.
Definition t2 := rel 2 (Some [4]) (Some [2]).
Definition t3 := rel 3 (Some [8]) None.
Definition left_join : SpecialJoinInfo :=
  {| sj_ptr := 1; min_lefthand := Some [2]; min_righthand := Some [4]; syn_lefthand := Some [2]; syn_righthand := Some [4];
     jointype := JOIN_LEFT; ojrelid := 4; commute_above_l := None; commute_above_r := None; commute_below_l := None;
     commute_below_r := None; lhs_strict := true |}.
Definition query : Query (Expr := nat) :=
  {| join_info_list := [left_join]; placeholder_list := []; hasLateralRTEs := true; initial_rels := [t1; t2; t3];
     all_query_rels := Some [14];
     ec_root := {| ec_heap := []; eq_classes := []; ec_merging_done := true; eclass_indexes := replicate 5 None; top_jdomain := 0 |} |}.
Definition start : PlannerInfo (Store := unit) :=
  {| join_rel_list := []; join_rel_hash := None; join_rel_level := None; join_cur_level := 0; next_ptr := 4; store := tt; tried := [] |}.

Lemma one_word_wf x : 0 < x < 2 ^ 64 -> bms_wf (Some [x]).
Proof. intros Hx. split; [repeat constructor; unfold u64; lia|]. cbn. rewrite Z.lor_0_r. lia. Qed.
Lemma query_fine : query_sets query.
Proof. split; [|constructor]. constructor; [|constructor]. split; by apply one_word_wf. Qed.
Lemma rel_fine i x lat : 0 < x < 2 ^ 64 -> bms_wf lat -> rel_sets (rel i (Some [x]) lat).
Proof. intros Hx Hl. split; [by apply one_word_wf|done|done]. Qed.

(** The left join is performed, swapped for the swapped order; [t2] alone cannot be joined to [t3]. *)
Lemma join_is_legal_decides_witness : exists uniq, legal query tt t2 t1 (Some left_join) true uniq.
Proof.
  destruct (join_is_legal_decides query tt t2 t1 query_fine) as (verdict & E & Hv & _);
    [by apply rel_fine; [|apply one_word_wf]|by apply rel_fine|vm_compute; by intros []|].
  apply Hv. vm_compute in E. injection E as <-. reflexivity.
Defined.
Lemma join_order_irrelevant_witness : make_join_rel (fun _ => 0) query start t1 t2 = make_join_rel (fun _ => 0) query start t2 t1 /\
  make_join_rel (fun _ => 0) query start t2 t3 = Ok (None, start) /\ make_join_rel (fun _ => 0) query start t3 t2 = Ok (None, start).
Proof.
  split; [|by split].
  destruct (join_order_irrelevant (fun _ => 0) query start t1 t2 query_fine) as (verdict & E & _ & H);
    [by apply rel_fine|by apply rel_fine; [|apply one_word_wf]|vm_compute; by intros []|].
  apply H. vm_compute in E. injection E as <-. by intros rev.
Defined.
End LegalDemo.
