(* ===== verification/RelSets.v ===== *)
(** * Sets of relations

    A set of relation numbers is read as an integer mask: [denotes s x] says that the bitmap set [s] represents [x].  Every routine on
    bitmap sets has its counterpart on masks, and questions about unions, inclusion and overlap of masks are answered bit by bit. *)
From Stdlib Require Import Bool.
From S2P Require Import Prelude BitUtils Bitmapset BitmapsetSpec BitmapsetIter EquivClass JoinLinks.
#[local] Open Scope Z_scope.

(** ** Masks *)
Definition bits (vs : list Z) : Z := foldr (fun v x => Z.lor (2 ^ v) x) 0 vs.
Lemma bits_app l1 l2 : bits (l1 ++ l2) = Z.lor (bits l1) (bits l2).
Proof. unfold bits. induction l1 as [|v l1 IH]; [by rewrite Z.lor_0_l|]. cbn. by rewrite IH, Z.lor_assoc. Qed.
Lemma bits_one v : bits [v] = 2 ^ v.
Proof. apply Z.lor_0_r. Qed.
Lemma bits_spec vs b : Forall (fun v => 0 < v) vs -> 0 <= b -> Z.testbit (bits vs) b = true <-> b ∈ vs.
Proof.
  intros Hvs Hb. induction Hvs as [|v vs Hv _ IH]; [cbn; rewrite Z.bits_0, elem_of_nil; done|]. cbn [bits foldr]. fold (bits vs).
  rewrite Z.lor_spec, orb_true_iff, IH, Z.pow2_bits_eqb, Z.eqb_eq, elem_of_cons by lia. naive_solver.
Qed.
Lemma setbit_lor x v : 0 <= v -> Z.setbit x v = Z.lor x (2 ^ v).
Proof. intros Hv. by rewrite Z.setbit_spec'. Qed.
Lemma clearbit_ldiff x v : 0 <= v -> Z.clearbit x v = Z.ldiff x (2 ^ v).
Proof. intros Hv. by rewrite Z.clearbit_spec'. Qed.
Lemma mask_eq x y : (forall b, 0 <= b -> Z.testbit x b = true <-> Z.testbit y b = true) -> x = y.
Proof. intros H. apply Z.bits_inj'. intros b Hb. apply eq_true_iff_eq. by apply H. Qed.
Lemma testbit_ldiff x y b : Z.testbit (Z.ldiff x y) b = true <-> Z.testbit x b = true /\ ~ Z.testbit y b = true.
Proof. rewrite Z.ldiff_spec, andb_true_iff, negb_true_iff, not_true_iff_false. done. Qed.
Lemma testbit_lor x y b : Z.testbit (Z.lor x y) b = true <-> Z.testbit x b = true \/ Z.testbit y b = true.
Proof. by rewrite Z.lor_spec, orb_true_iff. Qed.
Lemma testbit_land x y b : Z.testbit (Z.land x y) b = true <-> Z.testbit x b = true /\ Z.testbit y b = true.
Proof. by rewrite Z.land_spec, andb_true_iff. Qed.
Lemma testbit_0 b : Z.testbit 0 b = true <-> False.
Proof. by rewrite Z.bits_0. Qed.
Lemma nonempty_bits x : x <> 0 <-> exists b, 0 <= b /\ Z.testbit x b = true.
Proof. apply bits_nonzero. Qed.

(** Equalities, inclusions and overlaps of masks, bit by bit. *)
Ltac mask_open :=
  repeat match goal with
    | H : within _ _ |- _ => rewrite within_bits in H
    | H : meets _ _ |- _ => rewrite meets_bits in H
    | H : ~ meets _ _ |- _ => rewrite meets_bits in H
    | |- within _ _ => rewrite within_bits
    | |- meets _ _ => rewrite meets_bits
    | |- ~ meets _ _ => rewrite meets_bits
    | |- @eq Z _ _ => apply mask_eq
    end;
  repeat match goal with
    | H : context [Z.testbit (Z.lor _ _) _ = true] |- _ => setoid_rewrite testbit_lor in H
    | H : context [Z.testbit (Z.land _ _) _ = true] |- _ => setoid_rewrite testbit_land in H
    | H : context [Z.testbit (Z.ldiff _ _) _ = true] |- _ => setoid_rewrite testbit_ldiff in H
    | H : context [Z.testbit 0 _ = true] |- _ => setoid_rewrite testbit_0 in H
    | |- context [Z.testbit (Z.lor _ _) _ = true] => setoid_rewrite testbit_lor
    | |- context [Z.testbit (Z.land _ _) _ = true] => setoid_rewrite testbit_land
    | |- context [Z.testbit (Z.ldiff _ _) _ = true] => setoid_rewrite testbit_ldiff
    | |- context [Z.testbit 0 _ = true] => setoid_rewrite testbit_0
    end.
Ltac mask_solver := mask_open; naive_solver.
(** The same for one bit, with the hypotheses at that bit only. *)
Lemma apart_bit x y b : ~ meets x y -> 0 <= b -> ~ (Z.testbit x b = true /\ Z.testbit y b = true).
Proof. rewrite meets_bits. naive_solver. Qed.
Lemma within_bit x y b : within x y -> 0 <= b -> Z.testbit x b = true -> Z.testbit y b = true.
Proof. rewrite within_bits. naive_solver. Qed.
Ltac mask_bit b Hb :=
  repeat match goal with
    | H : within ?x ?y |- _ => pose proof (within_bit x y b H Hb); clear H
    | H : ~ meets ?x ?y |- _ => pose proof (apart_bit x y b H Hb); clear H
    end;
  repeat match goal with H : ?T |- _ => lazymatch T with context [Z.testbit _ b] => fail | _ => clear H end end;
  repeat match goal with
    | H : context [Z.testbit (Z.lor ?x ?y) b = true] |- _ => rewrite (testbit_lor x y b) in H
    | H : context [Z.testbit (Z.land ?x ?y) b = true] |- _ => rewrite (testbit_land x y b) in H
    | H : context [Z.testbit (Z.ldiff ?x ?y) b = true] |- _ => rewrite (testbit_ldiff x y b) in H
    | H : context [Z.testbit 0 b = true] |- _ => rewrite (testbit_0 b) in H
    | |- context [Z.testbit (Z.lor ?x ?y) b = true] => rewrite (testbit_lor x y b)
    | |- context [Z.testbit (Z.land ?x ?y) b = true] => rewrite (testbit_land x y b)
    | |- context [Z.testbit (Z.ldiff ?x ?y) b = true] => rewrite (testbit_ldiff x y b)
    | |- context [Z.testbit 0 b = true] => rewrite (testbit_0 b)
    end; tauto.
Ltac mask_tac :=
  let b := fresh "b" in let Hb := fresh "Hb" in
  match goal with
  | |- within _ _ => apply within_bits; intros b Hb; mask_bit b Hb
  | |- ~ meets _ _ => let H := fresh in intros H; apply meets_bits in H as (b & Hb & ? & ?); mask_bit b Hb
  | |- @eq Z _ _ => apply mask_eq; intros b Hb; mask_bit b Hb
  | H : meets _ _ |- meets _ _ => apply meets_bits in H as (b & Hb & ? & ?); apply meets_bits; exists b; split; [exact Hb|]; mask_bit b Hb
  | H : ?x <> 0 |- meets _ _ => apply nonempty_bits in H as (b & Hb & ?); apply meets_bits; exists b; split; [exact Hb|]; mask_bit b Hb
  | H : meets _ _ |- _ <> 0 => apply meets_bits in H as (b & Hb & ? & ?); apply nonempty_bits; exists b; split; [exact Hb|]; mask_bit b Hb
  | H : ?x <> 0 |- _ <> 0 => apply nonempty_bits in H as (b & Hb & ?); apply nonempty_bits; exists b; split; [exact Hb|]; mask_bit b Hb
  end.
Lemma within_0 x : within 0 x.
Proof. apply within_bits. intros b _. by rewrite Z.bits_0. Qed.
Lemma within_lor_mono x x' y y' : within x x' -> within y y' -> within (Z.lor x y) (Z.lor x' y').
Proof. intros. mask_solver. Qed.
Lemma within_lor_r1 x y z : within x y -> within x (Z.lor y z).
Proof. intros. mask_solver. Qed.
Lemma within_lor_r2 x y z : within x z -> within x (Z.lor y z).
Proof. intros. mask_solver. Qed.
Lemma within_trade x y z d : within x (Z.lor y z) -> within x (Z.lor (Z.ldiff y d) (Z.lor z d)).
Proof.
  rewrite !within_bits. intros H b Hb Hx. specialize (H b Hb Hx). rewrite !testbit_lor, testbit_ldiff in *. destruct (Z.testbit d b); [auto|]. intuition discriminate.
Qed.
Lemma within_rest x y z w : within x (Z.lor y z) -> within y w -> within x (Z.lor w (Z.ldiff z w)).
Proof.
  rewrite !within_bits. intros H Hw b Hb Hx. specialize (H b Hb Hx). specialize (Hw b Hb). rewrite !testbit_lor, testbit_ldiff in *. destruct (Z.testbit w b); [auto|].
  intuition discriminate.
Qed.
Lemma within_empty x y : within x y -> ~ meets x y -> x = 0.
Proof.
  rewrite within_bits, meets_bits. intros H Hn. apply bits_zero. intros b Hb. destruct (Z.testbit x b) eqn:E; [|done].
  exfalso. apply Hn. exists b. auto.
Qed.
Lemma apart_within x y x' y' : ~ meets x y -> within x' x -> within y' y -> ~ meets x' y'.
Proof. intros. mask_solver. Qed.
Lemma nonempty_meets x y : x <> 0 -> within x y -> meets x y.
Proof. rewrite nonempty_bits, within_bits, meets_bits. naive_solver. Qed.

(** ** Bitmap sets *)
Definition denotes (s : bitmapset) (x : Z) : Prop := bms_wf s /\ bms_val s = x.
Section Denotes.
Context (s1 s2 : bitmapset) (x y : Z) (H1 : denotes s1 x) (H2 : denotes s2 y).
Lemma denotes_union : denotes (bms_union s1 s2) (Z.lor x y).
Proof. destruct H1 as [W1 <-], H2 as [W2 <-]. by apply bms_union_spec. Qed.
Lemma denotes_add_members : denotes (bms_add_members s1 s2) (Z.lor x y).
Proof. destruct H1 as [W1 <-], H2 as [W2 <-]. by apply bms_add_members_spec. Qed.
Lemma denotes_intersect : denotes (bms_intersect s1 s2) (Z.land x y).
Proof. destruct H1 as [W1 <-], H2 as [W2 <-]. by apply bms_intersect_spec. Qed.
Lemma denotes_int_members : denotes (bms_int_members s1 s2) (Z.land x y).
Proof. destruct H1 as [W1 <-], H2 as [W2 <-]. by apply bms_int_members_spec. Qed.
Lemma denotes_del_members : denotes (bms_del_members s1 s2) (Z.ldiff x y).
Proof. destruct H1 as [W1 <-], H2 as [W2 <-]. by apply bms_del_members_spec. Qed.
Lemma overlap_denotes : reflect (meets x y) (bms_overlap s1 s2).
Proof.
  destruct H1 as [W1 <-], H2 as [W2 <-]. pose proof (overlap_meets s1 s2 W1 W2) as E. apply iff_reflect. by symmetry.
Qed.
Lemma subset_denotes : reflect (within x y) (bms_is_subset s1 s2).
Proof.
  destruct H1 as [W1 <-], H2 as [W2 <-]. pose proof (subset_within s1 s2 W1 W2) as E. apply iff_reflect. by symmetry.
Qed.
Lemma equal_denotes : bms_equal s1 s2 = (x =? y).
Proof. destruct H1 as [W1 <-], H2 as [W2 <-]. by apply bms_equal_spec. Qed.
Lemma empty_denotes : bms_is_empty s1 = (x =? 0).
Proof.
  destruct H1 as [W1 <-]. destruct s1 as [ws|]; [|done]. destruct W1 as [? Hne]. cbn. symmetry. by apply Z.eqb_neq.
Qed.
Lemma add_member_denotes v : 0 <= v -> exists s, bms_add_member s1 v = Ok s /\ denotes s (Z.lor x (2 ^ v)).
Proof.
  intros Hv. destruct H1 as [W1 <-]. destruct (bms_add_member_spec s1 v W1 Hv) as (s & E & W & V). exists s. split; [done|]. split; [done|]. by rewrite V, setbit_lor.
Qed.
Lemma del_member_denotes v : 0 <= v -> exists s, bms_del_member s1 v = Ok s /\ denotes s (Z.ldiff x (2 ^ v)).
Proof.
  intros Hv. destruct H1 as [W1 <-]. destruct (bms_del_member_spec s1 v W1 Hv) as (s & E & W & V). exists s. split; [done|]. split; [done|]. by rewrite V, clearbit_ldiff.
Qed.
Lemma is_member_denotes v : 0 <= v -> bms_is_member v s1 = Ok (Z.testbit x v).
Proof. intros Hv. destruct H1 as [W1 <-]. by apply bms_is_member_spec. Qed.
End Denotes.
Lemma denotes_none : denotes None 0.
Proof. done. Qed.
Lemma denotes_zero s : denotes s 0 -> s = None.
Proof. intros [W V]. destruct s; [|done]. by destruct W. Qed.
Lemma singleton_denotes v : 0 <= v -> exists s, bms_make_singleton v = Ok s /\ denotes s (2 ^ v).
Proof.
  intros Hv. destruct (bms_make_singleton_spec v Hv) as (s & E & W & V). exists s. split; [done|]. split; [done|]. by rewrite V, setbit_lor, Z.lor_0_l.
Qed.
#[export] Hint Resolve denotes_union denotes_add_members denotes_intersect denotes_int_members denotes_del_members denotes_none : pg.
