(* ===== verification/ImpliedEq.v ===== *)
(** * Clauses implied by equivalence classes ([equivclass.c], [initsplan.c], [relnode.c])

    The equalities that an equivalence class absorbed are not enforced as they stand: the planner derives
    clauses for the scans ([generate_base_implied_equalities]) and for every join
    ([generate_join_implied_equalities]) and falls back on the original clauses when the
    operator families lack an operator ([ec_broken]).

    [RestrictInfo] nodes are entries of a store, named by their addresses.  Members of a class are
    pairwise different, so comparing pointers to members is comparing members.  Members for child
    relations are not modelled, nor are target lists. *)
From stdpp Require Import gmap.
From S2P Require Import Prelude Bitmapset BitmapsetSpec BitmapsetIter EquivClass PathKeys JoinRels.
#[local] Open Scope Z_scope.

(** What these routines use of the catalogs and of expression trees: the equality operator of a
    family for two types (0 if there is none), its properties, node tests, and whether
    [eval_const_expressions] reduces an equality of two constants to TRUE. *)
Class OpFamilies (Expr : Type) := {
  get_opfamily_member : Oid -> Oid -> Oid -> Oid;
  op_leakproof : Oid -> bool;
  op_hashjoinable : Oid -> Oid -> bool;
  op_mergejoinable : Oid -> Oid -> bool;
  op_volatile : Oid -> bool;
  is_Var : Expr -> bool;
  is_Const : Expr -> bool;
  relabel_arg : Expr -> option Expr;
  folds_to_true : Oid -> Oid -> Expr -> Expr -> bool
}.

Definition variable_free_msg : string := "cannot cope with variable-free clause".
Definition no_rel_msg : string := "no relation entry for relid %d".

Section ImpliedEq.
Context {Expr : Type} `{!ExprOps Expr} `{!OpFamilies Expr}.
#[local] Abbreviation EM := (EquivalenceMember Expr).
#[local] Abbreviation EC := (EquivalenceClass Expr).

#[global] Instance EquivalenceMember_eq_dec : EqDecision EM.
Proof. solve_decision. Defined.

(** A condition: a binary operator clause or any other expression. *)
Inductive ClauseNode :=
  | OpClause (op : OpExpr Expr)
  | OtherClause (e : Expr).
(** [make_opclause] *)
Definition make_opclause (op collation : Oid) (left right : Expr) : ClauseNode :=
  OpClause {| opno := op; inputcollid := collation; leftop := left; rightop := right |}.

(** The fields of a [RestrictInfo] that tell outer join clauses apart, and their variants for commuted joins ("clones"). *)
Record ClauseMarks := {
  is_pushed_down : bool;
  mk_has_clone : bool;
  mk_is_clone : bool;
  mk_incompatible : bitmapset;
  mk_outer_relids : bitmapset
}.
Definition plain_marks : ClauseMarks :=
  {| is_pushed_down := true; mk_has_clone := false; mk_is_clone := false; mk_incompatible := None; mk_outer_relids := None |}.
(** A [RestrictInfo]; [rc_merge] tells whether [mergeopfamilies] is not NIL. *)
Record EqClause := {
  rc_clause : ClauseNode;
  rc_marks : ClauseMarks;
  rc_required : bitmapset;
  rc_security : Z;
  rc_pseudoconstant : bool;
  rc_merge : bool;
  rc_left_ec : option nat;
  rc_right_ec : option nat;
  rc_left_em : option EM;
  rc_right_em : option EM;
  rc_parent_ec : option nat
}.

Record BaseRel := {
  baserestrictinfo : list nat;
  baserestrict_min_security : Z;
  br_joininfo : list nat;
  br_has_eclass_joins : bool
}.
(** An entry of [simple_rel_array], with the range table entry where that is NULL. *)
Inductive RelSlot :=
  | Base (rel : BaseRel)
  | OuterJoin
  | NoRel.

Record ImpliedRoot := {
  im_ec : ECRoot Expr;
  im_clauses : gmap nat EqClause;
  im_next : nat;
  im_rels : list RelSlot;
  im_all_query_rels : bitmapset;
  im_join_info : list SpecialJoinInfo;
  im_jdomains : list bitmapset
}.
Implicit Types (root : ImpliedRoot) (p id : nat) (ec : EC) (em : EM).

Definition set_im_ec root er : ImpliedRoot :=
  {| im_ec := er; im_clauses := im_clauses root; im_next := im_next root; im_rels := im_rels root;
     im_all_query_rels := im_all_query_rels root; im_join_info := im_join_info root; im_jdomains := im_jdomains root |}.
Definition set_im_rels root rels : ImpliedRoot :=
  {| im_ec := im_ec root; im_clauses := im_clauses root; im_next := im_next root; im_rels := rels;
     im_all_query_rels := im_all_query_rels root; im_join_info := im_join_info root; im_jdomains := im_jdomains root |}.
Definition set_clause root id (c : EqClause) : ImpliedRoot :=
  {| im_ec := im_ec root; im_clauses := <[id := c]> (im_clauses root); im_next := im_next root; im_rels := im_rels root;
     im_all_query_rels := im_all_query_rels root; im_join_info := im_join_info root; im_jdomains := im_jdomains root |}.
(** [makeNode(RestrictInfo)] *)
Definition new_clause root (c : EqClause) : nat * ImpliedRoot :=
  (im_next root,
   {| im_ec := im_ec root; im_clauses := <[im_next root := c]> (im_clauses root); im_next := S (im_next root);
      im_rels := im_rels root; im_all_query_rels := im_all_query_rels root; im_join_info := im_join_info root; im_jdomains := im_jdomains root |}).
Definition get_class root p : EC := get_ec (im_ec root) p.

Definition set_broken root p : ImpliedRoot :=
  let ec := get_class root p in
  set_im_ec root (set_ec (im_ec root) p
    {| ec_opfamilies := ec_opfamilies ec; ec_collation := ec_collation ec; ec_members := ec_members ec;
       ec_sources := ec_sources ec; ec_derives := ec_derives ec; ec_relids := ec_relids ec; ec_has_const := ec_has_const ec;
       ec_has_volatile := ec_has_volatile ec; ec_broken := true; ec_sortref := ec_sortref ec;
       ec_min_security := ec_min_security ec; ec_max_security := ec_max_security ec; ec_merged := ec_merged ec |}).
Definition add_derive root p id : ImpliedRoot :=
  let ec := get_class root p in
  set_im_ec root (set_ec (im_ec root) p
    {| ec_opfamilies := ec_opfamilies ec; ec_collation := ec_collation ec; ec_members := ec_members ec;
       ec_sources := ec_sources ec; ec_derives := ec_derives ec ++ [id]; ec_relids := ec_relids ec; ec_has_const := ec_has_const ec;
       ec_has_volatile := ec_has_volatile ec; ec_broken := ec_broken ec; ec_sortref := ec_sortref ec;
       ec_min_security := ec_min_security ec; ec_max_security := ec_max_security ec; ec_merged := ec_merged ec |}).

(** ** Operators *)
Fixpoint select_loop (ec : EC) (families : list Oid) (lefttype righttype : Oid) : Oid :=
  match families with
  | [] => 0
  | opfamily :: families =>
      let opno := get_opfamily_member opfamily lefttype righttype in
      if opno =? 0 then select_loop ec families lefttype righttype
      else if ec_max_security ec =? 0 then opno
      else if op_leakproof opno then opno
      else select_loop ec families lefttype righttype
  end.
Definition select_equality_operator ec (lefttype righttype : Oid) : Oid :=
  select_loop ec (ec_opfamilies ec) lefttype righttype.

(** ** Distributing clauses to relations ([initsplan.c], [joininfo.c]) *)
Definition find_base_rel root (relid : Z) : result BaseRel :=
  if relid <=? 0 then Error assert_msg
  else match im_rels root !! Z.to_nat relid with
       | Some (Base rel) => Ok rel
       | _ => Error no_rel_msg
       end.
Definition find_base_rel_ignore_join root (relid : Z) : result (option BaseRel) :=
  if relid <=? 0 then Error assert_msg
  else match im_rels root !! Z.to_nat relid with
       | Some (Base rel) => Ok (Some rel)
       | Some OuterJoin => Ok None
       | _ => Error no_rel_msg
       end.
Definition set_rel root (relid : Z) (rel : BaseRel) : ImpliedRoot :=
  set_im_rels root (<[Z.to_nat relid := Base rel]> (im_rels root)).

Fixpoint add_join_clause_loop (fuel : nat) root id (join_relids : bitmapset) (cur_relid : Z) : result ImpliedRoot :=
  match fuel with
  | O => NoFuel
  | S fuel =>
      let cur_relid := next_member join_relids cur_relid in
      if 0 <=? cur_relid then
        rel ← find_base_rel_ignore_join root cur_relid;
        let root :=
          match rel with
          | None => root
          | Some rel =>
              set_rel root cur_relid
                {| baserestrictinfo := baserestrictinfo rel; baserestrict_min_security := baserestrict_min_security rel;
                   br_joininfo := br_joininfo rel ++ [id]; br_has_eclass_joins := br_has_eclass_joins rel |}
          end in
        add_join_clause_loop fuel root id join_relids cur_relid
      else Ok root
  end.
Definition add_join_clause_to_rels root id (join_relids : bitmapset) : result ImpliedRoot :=
  add_join_clause_loop (S (S (Z.to_nat (bms_capacity join_relids)))) root id join_relids (-1).

Definition distribute_restrictinfo_to_rels root id : result ImpliedRoot :=
  match im_clauses root !! id with
  | None => Error assert_msg
  | Some c =>
      let relids := rc_required c in
      match bms_membership relids with
      | BMS_SINGLETON =>
          relid ← bms_singleton_member relids;
          rel ← find_base_rel root relid;
          Ok (set_rel root relid
                {| baserestrictinfo := baserestrictinfo rel ++ [id];
                   baserestrict_min_security := Z.min (baserestrict_min_security rel) (rc_security c);
                   br_joininfo := br_joininfo rel; br_has_eclass_joins := br_has_eclass_joins rel |})
      | BMS_MULTIPLE => add_join_clause_to_rels root id relids
      | BMS_EMPTY_SET => Error variable_free_msg
      end
  end.

Fixpoint domain_min_loop (l : list SpecialJoinInfo) (res : bitmapset) : result bitmapset :=
  match l with
  | [] => Ok res
  | sjinfo :: l =>
      member ← (if is_join JOIN_LEFT sjinfo then bms_is_member (ojrelid sjinfo) res else Ok false);
      if (member : bool) then
        res ← bms_del_member res (ojrelid sjinfo);
        domain_min_loop l (bms_del_members res (syn_righthand sjinfo))
      else domain_min_loop l res
  end.
Definition get_join_domain_min_rels root (domain_relids : bitmapset) : result bitmapset :=
  let res := bms_copy domain_relids in
  if bms_equal res (im_all_query_rels root) then Ok res else domain_min_loop (im_join_info root) res.

(** [em_jdomain->jd_relids] *)
Definition jd_relids root (jdomain : nat) : bitmapset := nth jdomain (im_jdomains root) None.

(** The clause itself is kept even where constant folding has changed it to one with the same value;
    [None] is the dropped clause. *)
Definition process_implied_equality root (opno collation : Oid) (item1 item2 : Expr) (qualscope : bitmapset)
    (security_level : Z) (both_const : bool) : result (option nat * ImpliedRoot) :=
  if both_const && folds_to_true opno collation item1 item2 then Ok (None, root)
  else
    let relids := bms_union (pull_varnos item1) (pull_varnos item2) in
    if negb (bms_is_subset relids qualscope) then Error assert_msg else
    '(relids, pseudoconstant) ←
      (if bms_is_empty relids then min_rels ← get_join_domain_min_rels root qualscope; Ok (min_rels, true)
       else Ok (relids, false));
    let '(id, root) := new_clause root
      {| rc_clause := make_opclause opno collation item1 item2; rc_marks := plain_marks; rc_required := relids;
         rc_security := security_level; rc_pseudoconstant := pseudoconstant;
         rc_merge := negb pseudoconstant && op_mergejoinable opno (exprType item1) &&
                     negb (op_volatile opno || contain_volatile_functions item1 || contain_volatile_functions item2);
         rc_left_ec := None; rc_right_ec := None; rc_left_em := None; rc_right_em := None; rc_parent_ec := None |} in
    root ← distribute_restrictinfo_to_rels root id;
    Ok (Some id, root).

(** Filling in [left_ec], [right_ec], [left_em] and [right_em] of a mergejoinable clause. *)
Definition mark_clause root id p (em1 em2 : EM) : ImpliedRoot :=
  match im_clauses root !! id with
  | None => root
  | Some c =>
      set_clause root id
        {| rc_clause := rc_clause c; rc_marks := rc_marks c; rc_required := rc_required c; rc_security := rc_security c; rc_pseudoconstant := rc_pseudoconstant c;
           rc_merge := rc_merge c; rc_left_ec := Some p; rc_right_ec := Some p; rc_left_em := Some em1; rc_right_em := Some em2;
           rc_parent_ec := rc_parent_ec c |}
  end.
Definition is_merge root id : bool := match im_clauses root !! id with Some c => rc_merge c | None => false end.

(** ** Clauses for scans *)

(** The search for [const_em]: its position and the member. *)
Fixpoint find_const (i : nat) (ems : list EM) (const_em : option (nat * EM)) : option (nat * EM) :=
  match ems with
  | [] => const_em
  | cur_em :: ems =>
      if em_is_const cur_em then
        if is_Const (em_expr cur_em) then Some (i, cur_em) else find_const (S i) ems (Some (i, cur_em))
      else find_const (S i) ems const_em
  end.
Fixpoint const_loop root p (k : nat) (const_em : EM) (i : nat) (ems : list EM) : result ImpliedRoot :=
  match ems with
  | [] => Ok root
  | cur_em :: ems =>
      if (i =? k)%nat then const_loop root p k const_em (S i) ems
      else
        let ec := get_class root p in
        let eq_op := select_equality_operator ec (em_datatype cur_em) (em_datatype const_em) in
        if eq_op =? 0 then Ok (set_broken root p)
        else
          '(rinfo, root) ← process_implied_equality root eq_op (ec_collation ec) (em_expr cur_em) (em_expr const_em)
                             (jd_relids root (em_jdomain const_em)) (ec_min_security ec) (em_is_const cur_em);
          let root :=
            match rinfo with
            | Some id => if is_merge root id then add_derive (mark_clause root id p cur_em const_em) p id else root
            | None => root
            end in
          const_loop root p k const_em (S i) ems
  end.
Definition generate_base_implied_equalities_const root p : result ImpliedRoot :=
  let ec := get_class root p in
  match ec_members ec, ec_sources ec with
  | [_; _], [source] => distribute_restrictinfo_to_rels root source
  | ems, _ =>
      match find_const 0 ems None with
      | None => Error assert_msg
      | Some (k, const_em) => const_loop root p k const_em 0 ems
      end
  end.

Fixpoint no_const_loop root p (prev_ems : list (option EM)) (ems : list EM) : result ImpliedRoot :=
  match ems with
  | [] => Ok root
  | cur_em :: ems =>
      let '(single, relid) := bms_get_singleton_member (em_relids cur_em) 0 in
      if negb single then no_const_loop root p prev_ems ems
      else
        prev ← array_get prev_ems relid;
        prev_ems ← array_set prev_ems relid (Some cur_em);
        match prev with
        | None => no_const_loop root p prev_ems ems
        | Some prev_em =>
            let ec := get_class root p in
            let eq_op := select_equality_operator ec (em_datatype prev_em) (em_datatype cur_em) in
            if eq_op =? 0 then Ok (set_broken root p)
            else
              '(rinfo, root) ← process_implied_equality root eq_op (ec_collation ec) (em_expr prev_em) (em_expr cur_em)
                                 (em_relids cur_em) (ec_min_security ec) false;
              let root :=
                match rinfo with
                | Some id => if is_merge root id then mark_clause root id p prev_em cur_em else root
                | None => root
                end in
              no_const_loop root p prev_ems ems
        end
  end.
Definition generate_base_implied_equalities_no_const root p : result ImpliedRoot :=
  no_const_loop root p (replicate (length (im_rels root)) None) (ec_members (get_class root p)).

Definition clause_required root id : bitmapset :=
  match im_clauses root !! id with Some c => rc_required c | None => None end.
Fixpoint base_broken_loop root p (sources : list nat) : result ImpliedRoot :=
  match sources with
  | [] => Ok root
  | id :: sources =>
      root ← (if ec_has_const (get_class root p) ||
                 match bms_membership (clause_required root id) with BMS_MULTIPLE => false | _ => true end
              then distribute_restrictinfo_to_rels root id else Ok root);
      base_broken_loop root p sources
  end.
Definition generate_base_implied_equalities_broken root p : result ImpliedRoot :=
  base_broken_loop root p (ec_sources (get_class root p)).

(** Marking the base relations of a class. *)
Fixpoint mark_rels (fuel : nat) root (rs : bitmapset) (i ec_index : Z) (can_generate_joinclause : bool) : result ImpliedRoot :=
  match fuel with
  | O => NoFuel
  | S fuel =>
      let i := next_member rs i in
      if i >? 0 then
        match im_rels root !! Z.to_nat i, eclass_indexes (im_ec root) !! Z.to_nat i with
        | Some (Base rel), Some (Some indexes) =>
            indexes ← bms_add_member indexes ec_index;
            let er := im_ec root in
            let root := set_im_ec root
              {| ec_heap := ec_heap er; eq_classes := eq_classes er; ec_merging_done := ec_merging_done er;
                 eclass_indexes := <[Z.to_nat i := Some indexes]> (eclass_indexes er); top_jdomain := top_jdomain er |} in
            let root := if can_generate_joinclause then
                set_rel root i
                  {| baserestrictinfo := baserestrictinfo rel; baserestrict_min_security := baserestrict_min_security rel;
                     br_joininfo := br_joininfo rel; br_has_eclass_joins := true |}
              else root in
            mark_rels fuel root rs i ec_index can_generate_joinclause
        | Some OuterJoin, _ => mark_rels fuel root rs i ec_index can_generate_joinclause
        | _, _ => Error assert_msg
        end
      else Ok root
  end.

Definition base_one_class root p (ec_index : Z) : result ImpliedRoot :=
  let many := (1 <? length (ec_members (get_class root p)))%nat in
  root ← (if many then
            root ← (if ec_has_const (get_class root p) then generate_base_implied_equalities_const root p
                    else generate_base_implied_equalities_no_const root p);
            if ec_broken (get_class root p) then generate_base_implied_equalities_broken root p else Ok root
          else Ok root);
  let rs := ec_relids (get_class root p) in
  let can_generate_joinclause := many && match bms_membership rs with BMS_MULTIPLE => true | _ => false end in
  mark_rels (S (S (Z.to_nat (bms_capacity rs)))) root rs (-1) ec_index can_generate_joinclause.
Fixpoint base_classes root (classes : list nat) (ec_index : Z) : result ImpliedRoot :=
  match classes with
  | [] => Ok root
  | p :: classes =>
      root ← base_one_class root p ec_index;
      base_classes root classes (ec_index + 1)
  end.
Definition generate_base_implied_equalities root : result ImpliedRoot :=
  let er := im_ec root in
  let root := set_im_ec root
    {| ec_heap := ec_heap er; eq_classes := eq_classes er; ec_merging_done := true; eclass_indexes := eclass_indexes er;
       top_jdomain := top_jdomain er |} in
  base_classes root (eq_classes (im_ec root)) 0.

(** ** Clauses for joins *)
Definition find_rinfo root (ids : list nat) (leftem rightem : EM) (parent_ec : option nat) : option nat :=
  List.find (fun id =>
    match im_clauses root !! id with
    | Some rinfo =>
        (bool_decide (rc_left_em rinfo = Some leftem) && bool_decide (rc_right_em rinfo = Some rightem) && bool_decide (rc_parent_ec rinfo = parent_ec)) ||
        (bool_decide (rc_left_em rinfo = Some rightem) && bool_decide (rc_right_em rinfo = Some leftem) && bool_decide (rc_parent_ec rinfo = parent_ec))
    | None => false
    end) ids.
(** [build_implied_join_equality] sets the fields of the new clause. *)
Definition build_implied_join_equality (opno collation : Oid) (leftem rightem : EM) (qualscope : bitmapset) (security_level : Z)
    (p : nat) (parent_ec : option nat) : EqClause :=
  {| rc_clause := make_opclause opno collation (em_expr leftem) (em_expr rightem); rc_marks := plain_marks; rc_required := qualscope;
     rc_security := security_level; rc_pseudoconstant := false;
     rc_merge := op_mergejoinable opno (exprType (em_expr leftem)) &&
                 negb (op_volatile opno || contain_volatile_functions (em_expr leftem) || contain_volatile_functions (em_expr rightem));
     rc_left_ec := Some p; rc_right_ec := Some p; rc_left_em := Some leftem; rc_right_em := Some rightem; rc_parent_ec := parent_ec |}.
Definition create_join_clause root p (opno : Oid) (leftem rightem : EM) (parent_ec : option nat) : nat * ImpliedRoot :=
  let ec := get_class root p in
  match find_rinfo root (ec_sources ec) leftem rightem parent_ec with
  | Some rinfo => (rinfo, root)
  | None =>
      match find_rinfo root (ec_derives ec) leftem rightem parent_ec with
      | Some rinfo => (rinfo, root)
      | None =>
          let '(id, root) := new_clause root
            (build_implied_join_equality opno (ec_collation ec) leftem rightem
               (bms_union (em_relids leftem) (em_relids rightem)) (ec_min_security ec) p parent_ec) in
          (id, add_derive root p id)
      end
  end.

(** The members computable at the outer relation, at the inner one, and only at the join. *)
Fixpoint split_members (join_relids outer_relids inner_relids : bitmapset) (ems : list EM) : list EM * list EM * list EM :=
  match ems with
  | [] => ([], [], [])
  | cur_em :: ems =>
      let '(outer, inner, new) := split_members join_relids outer_relids inner_relids ems in
      if negb (bms_is_subset (em_relids cur_em) join_relids) then (outer, inner, new)
      else if bms_is_subset (em_relids cur_em) outer_relids then (cur_em :: outer, inner, new)
      else if bms_is_subset (em_relids cur_em) inner_relids then (outer, cur_em :: inner, new)
      else (outer, inner, cur_em :: new)
  end.

Definition plain_var (e : Expr) : bool :=
  is_Var e || match relabel_arg e with Some arg => is_Var arg | None => false end.
Definition b2z (b : bool) : Z := if b then 1 else 0.
(** The best pair so far: outer member, inner member, operator and score. *)
Definition Best : Type := option (EM * EM * Oid * Z).
Definition best_em_score (best : Best) : Z := match best with Some (_, _, _, score) => score | None => -1 end.
Fixpoint best_inner ec (outer_em : EM) (inner_members : list EM) (best : Best) : Best :=
  match inner_members with
  | [] => best
  | inner_em :: rest =>
      let eq_op := select_equality_operator ec (em_datatype outer_em) (em_datatype inner_em) in
      if eq_op =? 0 then best_inner ec outer_em rest best
      else
        let score := b2z (plain_var (em_expr outer_em)) + b2z (plain_var (em_expr inner_em)) +
                     b2z (op_hashjoinable eq_op (exprType (em_expr outer_em))) in
        if best_em_score best <? score then
          let best := Some (outer_em, inner_em, eq_op, score) in
          if score =? 3 then best else best_inner ec outer_em rest best
        else best_inner ec outer_em rest best
  end.
Fixpoint best_outer ec (outer_members inner_members : list EM) (best : Best) : Best :=
  match outer_members with
  | [] => best
  | outer_em :: rest =>
      let best := best_inner ec outer_em inner_members best in
      if best_em_score best =? 3 then best else best_outer ec rest inner_members best
  end.

(** The clauses between neighbours of a list of members; [None] if an operator is missing. *)
Fixpoint chain_clauses root p (prev_em : option EM) (ems : list EM) (res : list nat) : option (list nat) * ImpliedRoot :=
  match ems with
  | [] => (Some res, root)
  | cur_em :: ems =>
      match prev_em with
      | None => chain_clauses root p (Some cur_em) ems res
      | Some prev =>
          let eq_op := select_equality_operator (get_class root p) (em_datatype prev) (em_datatype cur_em) in
          if eq_op =? 0 then (None, set_broken root p)
          else
            let '(rinfo, root) := create_join_clause root p eq_op prev cur_em None in
            chain_clauses root p (Some cur_em) ems (res ++ [rinfo])
      end
  end.
Definition generate_join_implied_equalities_normal root p (join_relids outer_relids inner_relids : bitmapset) : list nat * ImpliedRoot :=
  let '(outer_members, inner_members, new_members) := split_members join_relids outer_relids inner_relids (ec_members (get_class root p)) in
  let '(res, root) :=
    match outer_members, inner_members with
    | _ :: _, _ :: _ =>
        match best_outer (get_class root p) outer_members inner_members None with
        | None => (None, set_broken root p)
        | Some (best_outer_em, best_inner_em, best_eq_op, _) =>
            let '(rinfo, root) := create_join_clause root p best_eq_op best_outer_em best_inner_em (Some p) in
            (Some [rinfo], root)
        end
    | _, _ => (Some [], root)
    end in
  match res with
  | None => ([], root)
  | Some res =>
      match new_members with
      | [] => (res, root)
      | _ :: _ =>
          let new_members := match outer_members ++ inner_members with [] => new_members | em :: _ => new_members ++ [em] end in
          match chain_clauses root p None new_members res with
          | (Some res, root) => (res, root)
          | (None, root) => ([], root)
          end
      end
  end.
Definition generate_join_implied_equalities_broken root p (nominal_join_relids outer_relids nominal_inner_relids : bitmapset) : list nat :=
  List.filter (fun id =>
    let clause_relids := clause_required root id in
    bms_is_subset clause_relids nominal_join_relids && negb (bms_is_subset clause_relids outer_relids) &&
    negb (bms_is_subset clause_relids nominal_inner_relids)) (ec_sources (get_class root p)).

(** One class of the loop. *)
Definition join_one_class root p (join_relids outer_relids inner_relids : bitmapset) : list nat * ImpliedRoot :=
  if ec_has_const (get_class root p) then ([], root)
  else if (length (ec_members (get_class root p)) <=? 1)%nat then ([], root)
  else
    let '(sublist, root) :=
      if negb (ec_broken (get_class root p)) then generate_join_implied_equalities_normal root p join_relids outer_relids inner_relids
      else ([], root) in
    if ec_broken (get_class root p)
    then (generate_join_implied_equalities_broken root p join_relids outer_relids inner_relids, root)
    else (sublist, root).
Fixpoint join_classes (fuel : nat) root (matching_ecs : bitmapset) (i : Z) (join_relids outer_relids inner_relids : bitmapset)
    (res : list nat) : result (list nat * ImpliedRoot) :=
  match fuel with
  | O => NoFuel
  | S fuel =>
      let i := next_member matching_ecs i in
      if 0 <=? i then
        p ← array_get (eq_classes (im_ec root)) i;
        let '(sublist, root) := join_one_class root p join_relids outer_relids inner_relids in
        join_classes fuel root matching_ecs i join_relids outer_relids inner_relids (res ++ sublist)
      else Ok (res, root)
  end.
(** [outer_join] is [sjinfo && sjinfo->ojrelid != 0]; the inner relation is no child relation. *)
Definition generate_join_implied_equalities root (join_relids outer_relids inner_relids : bitmapset) (outer_join : bool)
    : result (list nat * ImpliedRoot) :=
  matching_ecs ← (if outer_join then get_eclass_indexes_for_relids (im_ec root) join_relids
                  else get_common_eclass_indexes (im_ec root) inner_relids outer_relids);
  join_classes (S (S (Z.to_nat (bms_capacity matching_ecs)))) root matching_ecs (-1) join_relids outer_relids inner_relids [].

(** ** Restriction clauses of a join relation ([relnode.c]) *)
Fixpoint subbuild_joinrel_restrictlist (joinrelids both_input_relids : bitmapset) (infos : list JoinClause) (new_restrictlist : list JoinClause)
    : list JoinClause :=
  match infos with
  | [] => new_restrictlist
  | rinfo :: infos =>
      subbuild_joinrel_restrictlist joinrelids both_input_relids infos
        (if bms_is_subset (required_relids rinfo) joinrelids then
           if (has_clone rinfo || is_clone rinfo) &&
              (negb (bms_is_subset (required_relids rinfo) both_input_relids) || bms_overlap (incompatible_relids rinfo) both_input_relids)
           then new_restrictlist
           else append_unique_ptr new_restrictlist rinfo
         else new_restrictlist)
  end.
Definition build_joinrel_restrictlist root (joinrelids : bitmapset) (outer_rel inner_rel : JoinRel) (outer_join : bool)
    : result (list nat * ImpliedRoot) :=
  let both_input_relids := bms_union (relids outer_rel) (relids inner_rel) in
  let res := subbuild_joinrel_restrictlist joinrelids both_input_relids (joininfo outer_rel) [] in
  let res := subbuild_joinrel_restrictlist joinrelids both_input_relids (joininfo inner_rel) res in
  '(implied, root) ← generate_join_implied_equalities root joinrelids (relids outer_rel) (relids inner_rel) outer_join;
  Ok ((jc_ptr <$> res) ++ implied, root).

(** [exprs_known_equal] *)
Fixpoint known_equal_loop (item1 item2 : Expr) (item1member item2member : bool) (ems : list EM) : bool :=
  match ems with
  | [] => false
  | em :: ems =>
      if em_is_child em then known_equal_loop item1 item2 item1member item2member ems
      else
        let hit1 := bool_decide (item1 = em_expr em) in
        let item1member := item1member || hit1 in
        let item2member := item2member || (negb hit1 && bool_decide (item2 = em_expr em)) in
        if item1member && item2member then true else known_equal_loop item1 item2 item1member item2member ems
  end.
Definition exprs_known_equal root (item1 item2 : Expr) : bool :=
  existsb (fun p => negb (ec_has_volatile (get_class root p)) &&
                    known_equal_loop item1 item2 false false (ec_members (get_class root p))) (eq_classes (im_ec root)).
End ImpliedEq.
