(* ===== verification/ImpliedEqProps.v ===== *)
(** * Clauses derived for scans

    The planner state only grows while clauses are derived, every derived clause equates two members
    of its class, and [distribute_restrictinfo_to_rels] hands each clause to exactly the base relations it
    mentions.  [generate_base_implied_equalities] leaves each class covered: the distributed clauses make the members
    that one relation can compute equal, or the class is broken and its own clauses are distributed. *)
From stdpp Require Import gmap.
From S2P Require Import Prelude Bitmapset BitmapsetSpec BitmapsetIter EquivClass EquivClassProps PathKeys JoinRels JoinLinks ImpliedEq.
#[local] Open Scope Z_scope.

(** ** Sets with one member and with several *)
Definition several (x : Z) : Prop := x <> 0 /\ forall y, 0 <= y -> x <> 2 ^ y.

Lemma membership_cases a : bms_wf a ->
  (bms_membership a = BMS_EMPTY_SET /\ bms_val a = 0) \/
  (exists y, 0 <= y /\ bms_val a = 2 ^ y /\ bms_membership a = BMS_SINGLETON /\ bms_singleton_member a = Ok y) \/
  (bms_membership a = BMS_MULTIPLE /\ several (bms_val a)).
Proof.
  intros Ha. destruct (bms_membership_spec a Ha) as (-> & -> & _). unfold several. rewrite (bms_members_nil _ Ha).
  destruct (bms_members a) as [|y [|z l]] eqn:E; [by left| |].
  - right. left. assert (y ∈ bms_members a) as Hy by (rewrite E; by left).
    apply (elem_of_bms_members _ _ Ha) in Hy as [Hy _]. exists y. by apply (bms_members_singleton _ _ Ha Hy) in E.
  - right. right. split_and!; [done|done|]. intros u Hu. rewrite (bms_members_singleton _ _ Ha Hu), E. done.
Qed.
Lemma bms_empty_val a : bms_wf a -> bms_is_empty a = true <-> bms_val a = 0.
Proof. intros Ha. destruct a as [ws|]; cbn; [|done]. by destruct Ha. Qed.
Lemma single_or_several x : 0 < x -> (exists y, 0 <= y /\ x = 2 ^ y) \/ several x.
Proof.
  intros Hx. destruct (decide (x = 2 ^ Z.log2 x)) as [E|Hne].
  - left. exists (Z.log2 x). split; [apply Z.log2_nonneg|done].
  - right. split; [lia|]. intros y Hy ->. by rewrite Z.log2_pow2 in Hne.
Qed.
Lemma within_pow2 x y : 0 <= y -> within (2 ^ y) x <-> Z.testbit x y = true.
Proof.
  intros Hy. rewrite within_bits. split; [intros H; apply H; [done|]; apply Z.pow2_bits_true; lia|].
  intros Ht b Hb. rewrite Z.pow2_bits_eqb by done. by intros <-%Z.eqb_eq.
Qed.

Section Implied.
Context {Expr : Type} `{!ExprOps Expr} `{!OpFamilies Expr}.
#[local] Abbreviation EM := (EquivalenceMember Expr).
#[local] Abbreviation EC := (EquivalenceClass Expr).
#[local] Abbreviation Root := (ImpliedRoot (Expr := Expr)).
#[local] Abbreviation Clause := (EqClause (Expr := Expr)).
Implicit Types (root : Root) (p id : nat) (ec : EC) (em l r : EM) (c : Clause).

(** ** The state only grows *)
Record same_clause c c' : Prop := {
  sc_clause : rc_clause c' = rc_clause c;
  sc_required : rc_required c' = rc_required c;
  sc_marks : rc_marks c' = rc_marks c
}.
Record same_class ec ec' : Prop := {
  sm_opfamilies : ec_opfamilies ec' = ec_opfamilies ec;
  sm_collation : ec_collation ec' = ec_collation ec;
  sm_members : ec_members ec' = ec_members ec;
  sm_sources : ec_sources ec' = ec_sources ec;
  sm_relids : ec_relids ec' = ec_relids ec;
  sm_const : ec_has_const ec' = ec_has_const ec;
  sm_broken : ec_broken ec = true -> ec_broken ec' = true
}.
(** No clause is a variant of another one. *)
Definition original (marks : ClauseMarks) : Prop := mk_has_clone marks = false /\ mk_is_clone marks = false.
Definition no_clones root : Prop := forall id c, im_clauses root !! id = Some c -> original (rc_marks c).
Record grows root root' : Prop := {
  gr_classes : eq_classes (im_ec root') = eq_classes (im_ec root);
  gr_heap : length (ec_heap (im_ec root')) = length (ec_heap (im_ec root));
  gr_class p : same_class (get_class root p) (get_class root' p);
  gr_clause id c : im_clauses root !! id = Some c -> exists c', im_clauses root' !! id = Some c' /\ same_clause c c';
  gr_clones : no_clones root -> no_clones root';
  gr_join_info : im_join_info root' = im_join_info root;
  gr_jdomains : im_jdomains root' = im_jdomains root;
  gr_all_rels : im_all_query_rels root' = im_all_query_rels root
}.
#[export] Instance same_clause_preorder : PreOrder same_clause.
Proof. split; [done|]. intros c1 c2 c3 [] []. split; congruence. Qed.
#[export] Instance same_class_preorder : PreOrder same_class.
Proof. split; [done|]. intros c1 c2 c3 [] []. split; try congruence. auto. Qed.
#[export] Instance grows_preorder : PreOrder grows.
Proof.
  split.
  - intros root. split; try done. intros id c Hc. by exists c.
  - intros r1 r2 r3 H1 H2. split.
    + by rewrite (gr_classes _ _ H2), (gr_classes _ _ H1).
    + by rewrite (gr_heap _ _ H2), (gr_heap _ _ H1).
    + intros p. etrans; [apply (gr_class _ _ H1)|apply (gr_class _ _ H2)].
    + intros id c (c' & Hc' & S1)%(gr_clause _ _ H1). apply (gr_clause _ _ H2) in Hc' as (c2 & Hc2 & S2).
      exists c2. split; [done|]. by trans c'.
    + intros H. by apply (gr_clones _ _ H2), (gr_clones _ _ H1).
    + by rewrite (gr_join_info _ _ H2), (gr_join_info _ _ H1).
    + by rewrite (gr_jdomains _ _ H2), (gr_jdomains _ _ H1).
    + by rewrite (gr_all_rels _ _ H2), (gr_all_rels _ _ H1).
Qed.

(** ** Clauses of a class *)

(** [op] is an equality operator of the class for the types of the two members. *)
Definition equates ec (op : Oid) l r : Prop :=
  op <> 0 /\ exists family, family ∈ ec_opfamilies ec /\ get_opfamily_member family (em_datatype l) (em_datatype r) = op.
Lemma select_equates ec l r : select_equality_operator ec (em_datatype l) (em_datatype r) <> 0 ->
  equates ec (select_equality_operator ec (em_datatype l) (em_datatype r)) l r.
Proof.
  unfold select_equality_operator, equates. intros Hne. split; [done|]. revert Hne.
  induction (ec_opfamilies ec) as [|f fs IH]; cbn [select_loop]; [done|].
  destruct (Z.eqb_spec (get_opfamily_member f (em_datatype l) (em_datatype r)) 0).
  { intros (f' & Hf & E)%IH. exists f'. split; [by right|done]. }
  destruct (_ =? 0); [exists f; split; [by left|done]|].
  destruct (op_leakproof _); [exists f; split; [by left|done]|].
  intros (f' & Hf & E)%IH. exists f'. split; [by right|done].
Qed.

(** [e] is [x], perhaps under a RelabelType that shows another type or collation. *)
Definition relabels (x e : Expr) : Prop := e = x \/ exists type coll, e = canonicalize_ec_expression x type coll.
Record eq_clause ec c l r : Prop := {
  eq_left_in : l ∈ ec_members ec;
  eq_right_in : r ∈ ec_members ec;
  eq_distinct : l <> r;
  eq_op : exists op, rc_clause c = OpClause op /\ inputcollid op = ec_collation ec /\ relabels (leftop op) (em_expr l) /\ relabels (rightop op) (em_expr r) /\
    equates ec (opno op) l r
}.
Lemma eq_clause_same ec ec' c c' l r : same_class ec ec' -> same_clause c c' -> eq_clause ec c l r -> eq_clause ec' c' l r.
Proof.
  intros [Ef Ec Em _ _ _ _] [El _] He. split; unfold equates; rewrite ?Ef, ?Em, ?Ec, ?El; apply He.
Qed.
Lemma eq_clause_made ec op c l r : l ∈ ec_members ec -> r ∈ ec_members ec -> l <> r -> equates ec op l r ->
  rc_clause c = make_opclause op (ec_collation ec) (em_expr l) (em_expr r) -> eq_clause ec c l r.
Proof. intros Hl Hr Hne He Hc. split; [done..|]. eexists. split_and!; [exact Hc|done|by left|by left|done]. Qed.
Definition both (x y : bitmapset) : Z := Z.lor (bms_val x) (bms_val y).

(** A class whose members come from the equalities [ec_sources]; [all] holds the base relations. *)
Context (all : Z).
Definition source_pair (clauses : gmap nat Clause) ec l r : Prop :=
  exists id c, id ∈ ec_sources ec /\ clauses !! id = Some c /\ eq_clause ec c l r.
Record ec_ok (clauses : gmap nat Clause) (jdomains : list bitmapset) ec : Prop := {
  ck_nodup : NoDup (ec_members ec);
  ck_wf em : em ∈ ec_members ec -> bms_wf (em_relids em) /\ bms_wf (pull_varnos (em_expr em));
  ck_relids em : em ∈ ec_members ec -> within (bms_val (em_relids em)) all /\ bms_val (pull_varnos (em_expr em)) = bms_val (em_relids em);
  ck_const em : em ∈ ec_members ec -> em_is_const em = true <-> bms_val (em_relids em) = 0;
  ck_has_const : ec_has_const ec = true <-> exists em, em ∈ ec_members ec /\ em_is_const em = true;
  ck_class_wf : bms_wf (ec_relids ec);
  ck_class b : 0 <= b -> Z.testbit (bms_val (ec_relids ec)) b = true <-> exists em, em ∈ ec_members ec /\ Z.testbit (bms_val (em_relids em)) b = true;
  ck_domain em : em ∈ ec_members ec -> let jd := nth (em_jdomain em) jdomains None in bms_wf jd /\ bms_val jd <> 0 /\ bms_val jd = all;
  ck_source id : id ∈ ec_sources ec -> exists c l r, clauses !! id = Some c /\ eq_clause ec c l r /\
    bms_wf (rc_required c) /\ (both (em_relids l) (em_relids r) <> 0 -> bms_val (rc_required c) = both (em_relids l) (em_relids r)) /\
    bms_val (rc_required c) <> 0 /\ within (bms_val (rc_required c)) all;
  ck_connected l r : l ∈ ec_members ec -> r ∈ ec_members ec -> rtsc (source_pair clauses ec) l r
}.
Record class_ok root p : Prop := {
  ck_heap : (p < length (ec_heap (im_ec root)))%nat;
  ck_ec : ec_ok (im_clauses root) (im_jdomains root) (get_class root p)
}.
(** More clauses, or changed flags of the class, do no harm. *)
Lemma ec_ok_grows clauses clauses' jdomains ec ec' : same_class ec ec' ->
  (forall id c, clauses !! id = Some c -> exists c', clauses' !! id = Some c' /\ same_clause c c') ->
  ec_ok clauses jdomains ec -> ec_ok clauses' jdomains ec'.
Proof.
  intros Hs Hg Hk. destruct Hs as [Ef El Em Es Er Ec Eb] eqn:E. clear E. split; rewrite ?Em, ?Es, ?Er, ?Ec; try apply Hk.
  - intros id (c & l & r & Hc & He & Hr)%(ck_source _ _ _ Hk). apply Hg in Hc as (c' & Hc' & Sc).
    exists c', l, r. rewrite (sc_required _ _ Sc). split_and!; try apply Hr; [done|]. by apply (eq_clause_same ec _ c).
  - intros l r Hl Hr. pose proof (ck_connected _ _ _ Hk l r Hl Hr) as Hc. unfold rtsc in *.
    eapply rtc_subrel; [|exact Hc]. intros x y. unfold sc. assert (forall x y, source_pair clauses ec x y -> source_pair clauses' ec' x y) as Hs'; [|naive_solver].
    intros u v (id & c & Hi & (c' & Hc' & Sc)%Hg & He). exists id, c'. rewrite Es. split_and!; [done|done|]. by apply (eq_clause_same ec _ c).
Qed.
Lemma class_ok_grows root root' p : grows root root' -> class_ok root p -> class_ok root' p.
Proof.
  intros Hg [Hh Hk]. split; [by rewrite (gr_heap _ _ Hg)|]. rewrite (gr_jdomains _ _ Hg).
  by apply (ec_ok_grows (im_clauses root) _ _ (get_class root p)); [apply Hg|apply Hg|].
Qed.

(** ** Distributed clauses *)
Definition required_val root id : Z := bms_val (clause_required root id).
Definition rel_at root (b : Z) (rel : BaseRel) : Prop := im_rels root !! Z.to_nat b = Some (Base rel).

(** [D] are the clauses that have been distributed: a clause that mentions one relation is a restriction
    of it, one that mentions several is in the [joininfo] of each. *)
Record dist root (D : list nat) : Prop := {
  di_slot b : 0 <= b -> Z.testbit all b = true -> 0 < b /\ exists rel, rel_at root b rel;
  di_clause id : id ∈ D -> exists c, im_clauses root !! id = Some c /\ bms_wf (rc_required c) /\
    bms_val (rc_required c) <> 0 /\ within (bms_val (rc_required c)) all;
  di_base b rel id : 0 <= b -> Z.testbit all b = true -> rel_at root b rel ->
    id ∈ baserestrictinfo rel <-> id ∈ D /\ required_val root id = 2 ^ b;
  di_join b rel id : 0 <= b -> Z.testbit all b = true -> rel_at root b rel ->
    id ∈ br_joininfo rel <-> id ∈ D /\ several (required_val root id) /\ Z.testbit (required_val root id) b = true
}.
(** The clauses and the relations are all that matters. *)
Lemma dist_same root root' D : dist root D -> im_rels root' = im_rels root ->
  (forall id c, im_clauses root !! id = Some c -> exists c', im_clauses root' !! id = Some c' /\ rc_required c' = rc_required c) ->
  dist root' D.
Proof.
  intros Hd Er Hc. assert (forall id, id ∈ D -> required_val root' id = required_val root id) as Hv.
  { intros id (c & Ec & _)%(di_clause _ _ Hd). unfold required_val, clause_required. destruct (Hc _ _ Ec) as (c' & -> & ->). by rewrite Ec. }
  split; unfold rel_at; rewrite ?Er.
  - apply Hd.
  - intros id (c & Ec & H)%(di_clause _ _ Hd). destruct (Hc _ _ Ec) as (c' & Ec' & Eq). exists c'. by rewrite Eq.
  - intros b rel id Hb Ha Hr. rewrite (di_base _ _ Hd b rel id Hb Ha Hr). split; intros [Hi H]; (split; [done|]); [by rewrite Hv|by rewrite <- Hv].
  - intros b rel id Hb Ha Hr. rewrite (di_join _ _ Hd b rel id Hb Ha Hr). split; intros [Hi H]; (split; [done|]); [by rewrite Hv|by rewrite <- Hv].
Qed.

Definition add_joininfo id (s : RelSlot) : RelSlot :=
  match s with
  | Base rel => Base {| baserestrictinfo := baserestrictinfo rel; baserestrict_min_security := baserestrict_min_security rel;
                        br_joininfo := br_joininfo rel ++ [id]; br_has_eclass_joins := br_has_eclass_joins rel |}
  | s => s
  end.
Lemma add_join_clause_loop_ok rs id : bms_wf rs -> within (bms_val rs) all -> forall fuel root i, -1 <= i ->
  (forall b, 0 <= b -> Z.testbit all b = true -> 0 < b /\ exists rel, rel_at root b rel) ->
  bms_capacity rs - i <= Z.of_nat fuel -> (0 < fuel)%nat ->
  exists rels, add_join_clause_loop fuel root id rs i = Ok (set_im_rels root rels) /\
    forall n, rels !! n = (if bool_decide (i < Z.of_nat n /\ bms_mem rs (Z.of_nat n) = true) then add_joininfo id else (fun s => s)) <$> im_rels root !! n.
Proof.
  intros Hrs Hall. induction fuel as [|fuel IH]; intros root i Hi Hslot Hcap Hf; [lia|]. cbn [add_join_clause_loop].
  destruct (next_member_next_of rs i Hrs Hi) as [[-> Hnone]|(Hlt & Hm & Hbelow)].
  - exists (im_rels root). split; [by destruct root|]. intros n. rewrite bool_decide_false; [by rewrite option_fmap_id|].
    intros [H1 H2]. by rewrite Hnone in H2.
  - set (b := next_member rs i) in *.
    assert (b < bms_capacity rs) as Hbc by (destruct (Z_lt_ge_dec b (bms_capacity rs)); [done|]; rewrite bms_mem_capacity in Hm by (done || lia); done).
    destruct (Hslot b) as (Hb0 & rel & Hrel); [lia|apply (proj1 (within_bits _ _) Hall); [lia|done]|].
    rewrite (proj2 (Z.leb_le 0 b)) by lia. unfold find_base_rel_ignore_join. destruct (Z.leb_spec b 0); [lia|]. unfold rel_at in Hrel. rewrite Hrel.
    cbn [mbind result_bind].
    edestruct IH as (rels & Hl & Hr); [..|eexists; split; [exact Hl|]]; [lia| |lia|lia|].
    + intros b' Hb' Ha. destruct (Hslot b' Hb' Ha) as (H0 & rel' & Hrel'). split; [done|]. unfold rel_at, set_rel in *. cbn.
      destruct (decide (Z.to_nat b' = Z.to_nat b)) as [->|Hne].
      * rewrite list_lookup_insert_eq by (by eapply lookup_lt_Some). eauto.
      * rewrite list_lookup_insert_ne by done. eauto.
    + intros n. rewrite Hr. unfold set_rel. cbn [set_im_rels im_rels]. destruct (decide (n = Z.to_nat b)) as [->|Hne].
      * rewrite list_lookup_insert_eq, Hrel by (by eapply lookup_lt_Some). rewrite Z2Nat.id by lia.
        rewrite bool_decide_false by lia. rewrite bool_decide_true by (split; [lia|done]). done.
      * rewrite list_lookup_insert_ne by done. f_equal.
        rewrite (bool_decide_ext (b < Z.of_nat n /\ bms_mem rs (Z.of_nat n) = true) (i < Z.of_nat n /\ bms_mem rs (Z.of_nat n) = true)); [done|].
        split; intros [H1 H2]; (split; [|done]); [lia|]. destruct (Z.lt_trichotomy (Z.of_nat n) b) as [H3|[H3|H3]]; [|lia|done].
        by rewrite Hbelow in H2 by lia.
Qed.

(** [has_eclass_joins] of a base relation *)
Definition flag_at root (n : nat) : option bool :=
  match im_rels root !! n with Some (Base rel) => Some (br_has_eclass_joins rel) | _ => None end.
(** What the marking of the relations of a class changes. *)
Definition same_marks root root' : Prop :=
  eclass_indexes (im_ec root') = eclass_indexes (im_ec root) /\ forall n, flag_at root' n = flag_at root n.
#[local] Instance same_marks_preorder : PreOrder same_marks.
Proof. split; [done|]. intros r1 r2 r3 [E1 F1] [E2 F2]. split; [congruence|]. intros n. by rewrite F2, F1. Qed.

(** Adding [id] to the lists of the relations it belongs to. *)
Lemma dist_new root D id c rels : dist root D -> im_clauses root !! id = Some c -> bms_wf (rc_required c) ->
  bms_val (rc_required c) <> 0 -> within (bms_val (rc_required c)) all ->
  (forall b, 0 <= b -> Z.testbit all b = true -> forall rel, rel_at root b rel -> exists rel', rels !! Z.to_nat b = Some (Base rel') /\
    (forall x, x ∈ baserestrictinfo rel' <-> x ∈ baserestrictinfo rel \/ (x = id /\ required_val root id = 2 ^ b)) /\
    (forall x, x ∈ br_joininfo rel' <-> x ∈ br_joininfo rel \/ (x = id /\ several (required_val root id) /\ Z.testbit (required_val root id) b = true))) ->
  dist (set_im_rels root rels) (id :: D).
Proof.
  intros Hd Hc Hwf Hne Hall H. split; unfold rel_at; cbn [set_im_rels im_rels im_clauses].
  - intros b Hb Ha. destruct (di_slot _ _ Hd b Hb Ha) as (H0 & rel & Hrel). destruct (H b Hb Ha rel Hrel) as (rel' & H' & _). eauto.
  - intros x [->|Hx]%elem_of_cons; [by exists c|]. by apply (di_clause _ _ Hd).
  - intros b rel' x Hb Ha Hr'. destruct (di_slot _ _ Hd b Hb Ha) as (_ & rel & Hrel). destruct (H b Hb Ha rel Hrel) as (rel1 & H1 & Hx & _).
    rewrite Hr' in H1. injection H1 as <-. rewrite Hx, (di_base _ _ Hd b rel x Hb Ha Hrel), elem_of_cons.
    change (required_val (set_im_rels root rels) x) with (required_val root x). naive_solver.
  - intros b rel' x Hb Ha Hr'. destruct (di_slot _ _ Hd b Hb Ha) as (_ & rel & Hrel). destruct (H b Hb Ha rel Hrel) as (rel1 & H1 & _ & Hx).
    rewrite Hr' in H1. injection H1 as <-. rewrite Hx, (di_join _ _ Hd b rel x Hb Ha Hrel), elem_of_cons.
    change (required_val (set_im_rels root rels) x) with (required_val root x). naive_solver.
Qed.
(** A distributed clause joins [D]; only the relations change. *)
Lemma distribute_ok root D id c : dist root D -> im_clauses root !! id = Some c -> bms_wf (rc_required c) ->
  bms_val (rc_required c) <> 0 -> within (bms_val (rc_required c)) all ->
  exists rels, distribute_restrictinfo_to_rels root id = Ok (set_im_rels root rels) /\
    dist (set_im_rels root rels) (id :: D) /\ same_marks root (set_im_rels root rels).
Proof.
  intros Hd Hc Hwf Hne Hall. unfold distribute_restrictinfo_to_rels. rewrite Hc.
  pose proof (fun rels => dist_new root D id c rels Hd Hc Hwf Hne Hall) as Hnew.
  assert (required_val root id = bms_val (rc_required c)) as Hv by (unfold required_val, clause_required; by rewrite Hc).
  destruct (membership_cases _ Hwf) as [[_ H0]|[(y & Hy & Ey & -> & ->)|[-> Hs]]]; [done| |].
  - cbn [mbind result_bind]. assert (Z.testbit all y = true) as Hya by (apply within_pow2; [done|by rewrite <- Ey]).
    destruct (di_slot _ _ Hd y Hy Hya) as (Hy0 & rel & Hrel). unfold find_base_rel. destruct (Z.leb_spec y 0); [lia|].
    pose proof Hrel as Hrel'. unfold rel_at in Hrel'. rewrite Hrel'. cbn [mbind result_bind]. eexists. split_and!; [done|apply Hnew|].
    2: { split; [done|]. intros n. unfold flag_at. cbn [set_im_rels im_rels]. destruct (decide (n = Z.to_nat y)) as [->|Hne'].
      - by rewrite list_lookup_insert_eq, Hrel' by (by eapply lookup_lt_Some).
      - by rewrite list_lookup_insert_ne. }
    rewrite Hv. intros b Hb Ha rel0 Hr0. unfold rel_at in Hr0. assert (~ several (bms_val (rc_required c))) as Hns by (intros [_ Hn]; by apply (Hn y)).
    destruct (decide (b = y)) as [->|Hby].
    + rewrite list_lookup_insert_eq by (by eapply lookup_lt_Some). eexists. split_and!; [done|cbn|cbn].
      * intros x. rewrite Hrel' in Hr0. injection Hr0 as ->. rewrite elem_of_app, list_elem_of_singleton. naive_solver.
      * intros x. rewrite Hrel' in Hr0. injection Hr0 as ->. naive_solver.
    + rewrite list_lookup_insert_ne by lia. eexists. split_and!; [done|cbn|cbn]; intros x; [|naive_solver].
      split; [by left|]. intros [H1|[_ H1]]; [done|]. rewrite Ey in H1. apply Z.pow_inj_r in H1; lia.
  - unfold add_join_clause_to_rels. assert (0 <= bms_capacity (rc_required c)) by (destruct (rc_required c); unfold bms_capacity, nwords; lia).
    destruct (add_join_clause_loop_ok (rc_required c) id Hwf Hall (S (S (Z.to_nat (bms_capacity (rc_required c))))) root (-1)) as (rels & -> & Hr);
      [lia|apply Hd|lia|lia|].
    exists rels. split_and!; [done|apply Hnew|].
    2: { split; [done|]. intros n. unfold flag_at. cbn [set_im_rels im_rels]. rewrite Hr.
      destruct (bool_decide _), (im_rels root !! n) as [[]|]; done. }
    rewrite Hv. intros b Hb Ha rel Hrel. unfold rel_at in Hrel. rewrite Hr, Hrel, Z2Nat.id by done.
    destruct (bms_mem (rc_required c) b) eqn:Em.
    + rewrite bool_decide_true by (split; [lia|done]). eexists. split_and!; [done|cbn|cbn]; intros x.
      * split; [by left|]. intros [H1|[_ H1]]; [done|]. by destruct (proj2 Hs b Hb).
      * rewrite elem_of_app, list_elem_of_singleton. unfold bms_mem in Em. naive_solver.
    + rewrite bool_decide_false by (intros [_ H1]; congruence). eexists. split_and!; [done|cbn|cbn]; intros x.
      * split; [by left|]. intros [H1|[_ H1]]; [done|]. by destruct (proj2 Hs b Hb).
      * unfold bms_mem in Em. split; [by left|]. intros [H1|(_ & _ & H1)]; [done|congruence].
Qed.

(** ** The invariant *)
Definition listed root p id : Prop := id ∈ ec_sources (get_class root p) \/ id ∈ ec_derives (get_class root p).
Record inv root (D : list nat) : Prop := {
  iv_fresh id c : im_clauses root !! id = Some c -> (id < im_next root)%nat;
  iv_class p : p ∈ eq_classes (im_ec root) -> class_ok root p;
  iv_listed p id : p ∈ eq_classes (im_ec root) -> listed root p id -> is_Some (im_clauses root !! id);
  iv_marked p id c l r : p ∈ eq_classes (im_ec root) -> listed root p id -> im_clauses root !! id = Some c ->
    rc_left_em c = Some l -> rc_right_em c = Some r -> eq_clause (get_class root p) c l r;
  iv_joins : im_join_info root = [];
  iv_dist : dist root D
}.

Lemma get_class_set_broken root p q : (p < length (ec_heap (im_ec root)))%nat ->
  same_class (get_class root q) (get_class (set_broken root p) q) /\
  ec_derives (get_class (set_broken root p) q) = ec_derives (get_class root q) /\
  ec_broken (get_class (set_broken root p) q) = (if decide (p = q) then true else ec_broken (get_class root q)).
Proof. intros Hp. unfold set_broken, get_class. cbn [set_im_ec im_ec]. rewrite get_set_ec by done. by destruct (decide (p = q)) as [->|]. Qed.
Lemma get_class_add_derive root p q id : (p < length (ec_heap (im_ec root)))%nat ->
  same_class (get_class root q) (get_class (add_derive root p id) q) /\
  ec_derives (get_class (add_derive root p id) q) = ec_derives (get_class root q) ++ (if decide (p = q) then [id] else []) /\
  ec_broken (get_class (add_derive root p id) q) = ec_broken (get_class root q).
Proof.
  intros Hp. unfold add_derive, get_class. cbn [set_im_ec im_ec]. rewrite get_set_ec by done. destruct (decide (p = q)) as [->|]; [done|].
  by rewrite app_nil_r.
Qed.

(** A state that differs in nothing but flags and relations. *)
Lemma inv_unchanged root root' D D' : inv root D -> grows root root' -> im_clauses root' = im_clauses root -> im_next root' = im_next root ->
  (forall q, ec_derives (get_class root' q) = ec_derives (get_class root q)) -> dist root' D' -> inv root' D'.
Proof.
  intros Hi Hg Ec En Ed Hd. assert (forall p id, listed root' p id <-> listed root p id) as Hl.
  { intros p id. unfold listed. by rewrite Ed, (sm_sources _ _ (gr_class _ _ Hg p)). }
  split; rewrite ?Ec, ?En, ?(gr_classes _ _ Hg); try apply Hi; [| | |..].
  - intros p Hp. apply (class_ok_grows root); [done|]. by apply Hi.
  - intros p id Hp Hx%Hl. by apply (iv_listed _ _ Hi p).
  - intros p id c l r Hp Hx%Hl Hc E1 E2. apply (eq_clause_same (get_class root p) _ c); [apply Hg|done|]. by apply (iv_marked _ _ Hi p id).
  - rewrite (gr_join_info _ _ Hg). apply Hi.
  - done.
Qed.
Lemma inv_set_broken root D p : inv root D -> p ∈ eq_classes (im_ec root) ->
  grows root (set_broken root p) /\ inv (set_broken root p) D /\ ec_broken (get_class (set_broken root p) p) = true.
Proof.
  intros Hi Hp. pose proof (ck_heap _ _ (iv_class _ _ Hi p Hp)) as Hh. pose proof (fun q => get_class_set_broken root p q Hh) as Hq.
  assert (grows root (set_broken root p)) as Hg.
  { split; try done; [|intros q; apply Hq|intros id c Hc; by exists c]. cbn. by rewrite length_insert. }
  split_and!; [done| |].
  - apply (inv_unchanged root _ D); try done; [intros q; apply Hq|]. apply (dist_same root); [apply Hi|done|]. intros id c Hc. by exists c.
  - destruct (Hq p) as (_ & _ & ->). by rewrite decide_True.
Qed.

(** A new clause of a class, perhaps marked with its members and listed as derived. *)
Lemma inv_new root root' D D' p c l r : inv root D -> p ∈ eq_classes (im_ec root) ->
  im_clauses root' = <[im_next root := c]> (im_clauses root) -> im_next root' = S (im_next root) ->
  im_join_info root' = im_join_info root -> im_jdomains root' = im_jdomains root -> im_all_query_rels root' = im_all_query_rels root ->
  eq_classes (im_ec root') = eq_classes (im_ec root) -> length (ec_heap (im_ec root')) = length (ec_heap (im_ec root)) ->
  (forall q, same_class (get_class root q) (get_class root' q)) ->
  (forall q x, x ∈ ec_derives (get_class root' q) -> x ∈ ec_derives (get_class root q) \/ x = im_next root /\ q = p) ->
  eq_clause (get_class root p) c l r -> rc_left_em c = None \/ rc_left_em c = Some l /\ rc_right_em c = Some r ->
  dist root' D' -> rc_marks c = plain_marks -> grows root root' /\ inv root' D'.
Proof.
  intros Hi Hp Ec En Ej Ed Ea Eq Eh Hs Hder Hc Hm Hd Hmk.
  assert (forall id c', im_clauses root !! id = Some c' -> im_clauses root' !! id = Some c') as Hold.
  { intros id c' H. rewrite Ec, lookup_insert_ne; [done|]. apply (iv_fresh _ _ Hi) in H. lia. }
  assert (grows root root') as Hg.
  { split; try done; [intros id c' H%Hold; by exists c'|]. intros Hn id c'. rewrite Ec, lookup_insert_Some.
    intros [[_ <-]|[_ H]]; [by rewrite Hmk|by apply (Hn id)]. }
  split; [done|].
  assert (forall q x, q ∈ eq_classes (im_ec root) -> listed root' q x -> listed root q x \/ x = im_next root /\ q = p) as Hl.
  { intros q x Hq [H|H]; [rewrite (sm_sources _ _ (Hs q)) in H; left; by left|]. apply Hder in H as [H|H]; [left; by right|by right]. }
  split; rewrite ?Eq, ?En.
  - intros id c'. rewrite Ec. intros [[<- _]|[_ H%(iv_fresh _ _ Hi)]]%lookup_insert_Some; lia.
  - intros q Hq. apply (class_ok_grows root); [done|]. by apply Hi.
  - intros q x Hq [H|[-> ->]]%Hl; [| |done]; [|rewrite Ec, lookup_insert_eq; eauto].
    destruct (iv_listed _ _ Hi q x Hq H) as [c' H']. exists c'. by apply Hold.
  - intros q x c' l' r' Hq Hx' Hx E1 E2. apply (eq_clause_same (get_class root q) _ c'); [apply Hs|done|].
    apply Hl in Hx' as [H|[-> ->]]; [| |done].
    + apply (iv_marked _ _ Hi q x); [done|done| |done|done]. destruct (iv_listed _ _ Hi q x Hq H) as [c2 H2].
      pose proof (Hold _ _ H2) as H3. congruence.
    + rewrite Ec, lookup_insert_eq in Hx. injection Hx as <-. destruct Hm as [Hm|[Hm1 Hm2]]; [congruence|].
      rewrite Hm1 in E1. rewrite Hm2 in E2. by injection E1 as <-; injection E2 as <-.
  - rewrite Ej. apply Hi.
  - done.
Qed.

(** ** One implied equality for a scan *)

(** Distributed clauses, or constant folding for two constants, make the members equal. *)
Definition enforced root (D : list nat) p l r : Prop :=
  (both (em_relids l) (em_relids r) = 0 /\ l ∈ ec_members (get_class root p) /\ r ∈ ec_members (get_class root p) /\
     exists op, equates (get_class root p) op l r /\ folds_to_true op (ec_collation (get_class root p)) (em_expr l) (em_expr r) = true) \/
  (exists id c, id ∈ D /\ im_clauses root !! id = Some c /\ eq_clause (get_class root p) c l r /\
     (both (em_relids l) (em_relids r) <> 0 -> bms_val (rc_required c) = both (em_relids l) (em_relids r))).

(** Clauses are only added, and those added equate members. *)
Record base_step root D root' D' : Prop := {
  bs_grows : grows root root';
  bs_inv : inv root' D';
  bs_incl : D ⊆ D';
  bs_derived id : id ∈ D' -> id ∈ D \/ exists q c l r, q ∈ eq_classes (im_ec root') /\ im_clauses root' !! id = Some c /\
    eq_clause (get_class root' q) c l r
}.
Lemma base_step_refl root D : inv root D -> base_step root D root D.
Proof. intros Hi. split; [done|done|done|]. by left. Qed.
Lemma base_step_trans root1 D1 root2 D2 root3 D3 : base_step root1 D1 root2 D2 -> base_step root2 D2 root3 D3 -> base_step root1 D1 root3 D3.
Proof.
  intros H1 H2. split.
  - trans root2; [apply H1|apply H2].
  - apply H2.
  - trans D2; [apply H1|apply H2].
  - intros id [H|H]%(bs_derived _ _ _ _ H2); [|by right]. apply (bs_derived _ _ _ _ H1) in H as [H|(q & c & l & r & Hq & Hc & He)]; [by left|].
    right. pose proof (bs_grows _ _ _ _ H2) as Hg. apply (gr_clause _ _ Hg) in Hc as (c' & Hc' & Sc). exists q, c', l, r.
    rewrite (gr_classes _ _ Hg). split_and!; [done|done|]. by apply (eq_clause_same (get_class root2 q) _ c); [apply Hg| |].
Qed.
Lemma enforced_step root D root' D' p l r : base_step root D root' D' -> enforced root D p l r -> enforced root' D' p l r.
Proof.
  intros Hs. pose proof (bs_grows _ _ _ _ Hs) as Hg. intros [(Hb & Hl & Hr & op & He & Hf)|(id & c & Hi & Hc & He & Hr)].
  - left. rewrite (sm_members _ _ (gr_class _ _ Hg p)). split_and!; [done..|]. exists op. unfold equates.
    by rewrite (sm_opfamilies _ _ (gr_class _ _ Hg p)), (sm_collation _ _ (gr_class _ _ Hg p)).
  - right. apply (gr_clause _ _ Hg) in Hc as (c' & Hc' & Sc). exists id, c'. rewrite (sc_required _ _ Sc). split_and!; [by apply Hs|done| |done].
    by apply (eq_clause_same (get_class root p) _ c); [apply Hg| |].
Qed.

(** What the loops do with a clause made by [process_implied_equality]. *)
Definition finish root (rinfo : option nat) p l r (derive : bool) : Root :=
  match rinfo with
  | Some id => if is_merge root id then if derive then add_derive (mark_clause root id p l r) p id else mark_clause root id p l r else root
  | None => root
  end.
Lemma domain_min_ok root qs : im_join_info root = [] -> get_join_domain_min_rels root qs = Ok qs.
Proof. intros Hj. unfold get_join_domain_min_rels, bms_copy. rewrite Hj. by destruct (bms_equal _ _). Qed.

Lemma finish_ok root root1 D D1 p c l r derive : inv root D -> p ∈ eq_classes (im_ec root) ->
  im_clauses root1 = <[im_next root := c]> (im_clauses root) -> im_next root1 = S (im_next root) -> im_ec root1 = im_ec root ->
  im_join_info root1 = im_join_info root -> im_jdomains root1 = im_jdomains root -> im_all_query_rels root1 = im_all_query_rels root ->
  eq_clause (get_class root p) c l r -> rc_left_em c = None -> dist root1 D1 -> rc_marks c = plain_marks ->
  let root' := finish root1 (Some (im_next root)) p l r derive in
  grows root root' /\ inv root' D1 /\ same_marks root1 root' /\ (forall q, ec_broken (get_class root' q) = ec_broken (get_class root q)) /\
  exists c', im_clauses root' !! im_next root = Some c' /\ same_clause c c'.
Proof.
  intros Hi Hp Ec En Ee Ej Ed Ea Hc Hm Hd Hmk. cbn [finish]. pose proof (ck_heap _ _ (iv_class _ _ Hi p Hp)) as Hh.
  assert (forall q, get_class root1 q = get_class root q) as Eq by (intros q; unfold get_class; by rewrite Ee).
  assert (im_clauses root1 !! im_next root = Some c) as Hl by (by rewrite Ec, lookup_insert_eq).
  destruct (is_merge root1 (im_next root)).
  2: { destruct (inv_new root root1 D D1 p c l r) as [Hg Hv]; try done; [by rewrite Ee|by rewrite Ee|intros q; by rewrite Eq|intros q x; rewrite Eq; by left|by left|].
       split_and!; [done|done|done|intros q; by rewrite Eq|]. by exists c. }
  unfold mark_clause. rewrite Hl. set (c' := {| rc_clause := rc_clause c |}). assert (same_clause c c') as Sc by done.
  set (root2 := set_clause root1 (im_next root) c').
  assert (im_clauses root2 = <[im_next root := c']> (im_clauses root)) as Ec2 by (cbn; by rewrite Ec, insert_insert_eq).
  assert (dist root2 D1) as Hd2.
  { apply (dist_same root1); [done|done|]. intros id cc Hcc. rewrite Ec2. rewrite Ec in Hcc.
    apply lookup_insert_Some in Hcc as [[<- <-]|[Hne Hcc]]; [exists c'; by rewrite lookup_insert_eq|exists cc; by rewrite lookup_insert_ne]. }
  assert (forall q, get_class root2 q = get_class root q) as Eq2 by done || (intros q; unfold get_class; cbn; by rewrite Ee).
  assert (eq_clause (get_class root p) c' l r) as Hc' by (by apply (eq_clause_same (get_class root p) _ c)).
  destruct derive.
  - assert (p < length (ec_heap (im_ec root2)))%nat as Hh2 by (cbn; by rewrite Ee). pose proof (fun q => get_class_add_derive root2 p q (im_next root) Hh2) as Hq.
    destruct (inv_new root (add_derive root2 p (im_next root)) D D1 p c' l r) as [Hg Hv]; try done; [by cbn; rewrite Ee|cbn; by rewrite length_insert, Ee| | |by right| |].
    + intros q. rewrite <- Eq2. apply Hq.
    + intros q x. destruct (Hq q) as (_ & -> & _). rewrite Eq2, elem_of_app. destruct (decide (p = q)) as [->|]; [|intros [H|H]; [by left|by apply not_elem_of_nil in H]].
      rewrite list_elem_of_singleton. intros [H|H]; [by left|by right].
    + apply (dist_same root2); [done|done|]. intros id cc Hcc. by exists cc.
    + split_and!; [done|done|done| |exists c'; split; [cbn; by rewrite lookup_insert_eq|done]]. intros q. destruct (Hq q) as (_ & _ & ->). by rewrite Eq2.
  - destruct (inv_new root root2 D D1 p c' l r) as [Hg Hv]; try done; [by cbn; rewrite Ee|cbn; by rewrite Ee|intros q; by rewrite Eq2|intros q x; rewrite Eq2; by left|by right|].
    split_and!; [done|done|done|intros q; by rewrite Eq2|]. exists c'. split; [by rewrite Ec2, lookup_insert_eq|done].
Qed.

Lemma implied_step root D p op l r qs sec bc derive : inv root D -> p ∈ eq_classes (im_ec root) ->
  l ∈ ec_members (get_class root p) -> r ∈ ec_members (get_class root p) -> l <> r -> equates (get_class root p) op l r ->
  bms_wf qs -> (both (em_relids l) (em_relids r) = 0 -> bms_val qs <> 0 /\ within (bms_val qs) all) ->
  within (both (em_relids l) (em_relids r)) (bms_val qs) -> (bc = true -> both (em_relids l) (em_relids r) = 0) ->
  exists rinfo root1 D', process_implied_equality root op (ec_collation (get_class root p)) (em_expr l) (em_expr r) qs sec bc = Ok (rinfo, root1) /\
    let root' := finish root1 rinfo p l r derive in
    base_step root D root' D' /\ same_marks root root' /\ (forall q, ec_broken (get_class root' q) = ec_broken (get_class root q)) /\ enforced root' D' p l r.
Proof.
  intros Hi Hp Hl Hr Hne Heq Hqs Hqv Hin Hbc. unfold process_implied_equality.
  destruct (bc && folds_to_true op (ec_collation (get_class root p)) (em_expr l) (em_expr r)) eqn:Ef.
  { apply andb_true_iff in Ef as [Ebc Ef]. eexists None, root, D. split; [done|]. cbn. split_and!; [by apply base_step_refl|done|done|].
    left. split_and!; [by apply Hbc|done|done|]. by exists op. }
  pose proof (ck_ec _ _ (iv_class _ _ Hi p Hp)) as Hk. destruct (ck_wf _ _ _ Hk l Hl) as [_ Wl], (ck_wf _ _ _ Hk r Hr) as [_ Wr].
  destruct (bms_union_spec _ _ Wl Wr) as [Wu Vu]. destruct (ck_relids _ _ _ Hk l Hl) as [Al El], (ck_relids _ _ _ Hk r Hr) as [Ar Er].
  rewrite El, Er in Vu. fold (both (em_relids l) (em_relids r)) in Vu. rewrite <- Vu in Hin. rewrite (proj2 (subset_within _ _ Wu Hqs) Hin). cbn [negb].
  assert (exists req pc, (if bms_is_empty (bms_union (pull_varnos (em_expr l)) (pull_varnos (em_expr r)))
     then min_rels ← get_join_domain_min_rels root qs; Ok (min_rels, true)
     else Ok (bms_union (pull_varnos (em_expr l)) (pull_varnos (em_expr r)), false)) = Ok (req, pc) /\ bms_wf req /\ bms_val req <> 0 /\ within (bms_val req) all /\
     (both (em_relids l) (em_relids r) <> 0 -> bms_val req = both (em_relids l) (em_relids r))) as (req & pc & -> & Wq & Nq & Aq & Eqq).
  { destruct (bms_is_empty _) eqn:Ee.
    - apply bms_empty_val in Ee; [|done]. rewrite Vu in Ee. destruct (Hqv Ee) as [N A]. rewrite domain_min_ok by apply Hi. cbn. eexists _, _. by split_and!.
    - assert (both (em_relids l) (em_relids r) <> 0) as Hb by (rewrite <- Vu; intros H; apply bms_empty_val in H; congruence).
      eexists _, _. rewrite Vu. split_and!; try done. unfold both. by apply within_lor_l. }
  cbn [mbind result_bind]. set (c := {| rc_clause := _ |}). cbn [new_clause]. set (root0 := {| im_ec := im_ec root |}).
  assert (dist root0 D) as Hd0.
  { apply (dist_same root); [apply Hi|done|]. intros id cc Hcc. exists cc. split; [|done]. cbn. rewrite lookup_insert_ne; [done|].
    apply (iv_fresh _ _ Hi) in Hcc. lia. }
  destruct (distribute_ok root0 D (im_next root) c) as (rels & -> & Hd & Hm); [done|cbn; by rewrite lookup_insert_eq|done..|].
  cbn [mbind result_bind]. eexists _, _, (im_next root :: D). split; [done|]. cbn zeta.
  assert (eq_clause (get_class root p) c l r) as Hec by (by apply (eq_clause_made _ op)).
  destruct (finish_ok root (set_im_rels root0 rels) D (im_next root :: D) p c l r derive) as (Hg & Hv & Hm' & Hb & c' & Hc' & Sc); try done.
  assert (eq_clause (get_class root p) c' l r) as Hec' by (by apply (eq_clause_same (get_class root p) _ c)).
  assert (forall ec', same_class (get_class root p) ec' -> eq_clause ec' c' l r) as Hec2 by (intros; by apply (eq_clause_same (get_class root p) _ c')).
  split_and!; [|by trans (set_im_rels root0 rels)|done|].
  - split; [done|done|by apply list_subseteq_cons|]. intros id [->|H]%elem_of_cons; [|by left]. right. exists p, c', l, r.
    rewrite (gr_classes _ _ Hg). split_and!; [done|done|]. apply Hec2, Hg.
  - right. exists (im_next root), c'. rewrite (sc_required _ _ Sc). split_and!; [by left|done|apply Hec2, Hg|done].
Qed.

(** ** Scan clauses of one class *)

(** The members whose relations satisfy [P] are equal by clauses between such members. *)
Definition linked root D p (P : Z -> Prop) : EM -> EM -> Prop :=
  rtsc (fun x y => P (bms_val (em_relids x)) /\ P (bms_val (em_relids y)) /\ enforced root D p x y).
Lemma linked_step root D root' D' p P l r : base_step root D root' D' -> linked root D p P l r -> linked root' D' p P l r.
Proof.
  intros Hs. unfold linked, rtsc. apply rtc_subrel. intros x y. unfold sc.
  intros [(H1 & H2 & H)|(H1 & H2 & H)]; [left|right]; (split_and!; [done|done|]); by apply (enforced_step root D).
Qed.
Lemma linked_one root D p (P : Z -> Prop) l r : P (bms_val (em_relids l)) -> P (bms_val (em_relids r)) -> enforced root D p l r -> linked root D p P l r.
Proof. intros H1 H2 H. by apply rtsc_lr. Qed.
Lemma linked_sym root D p P l r : linked root D p P l r -> linked root D p P r l.
Proof. unfold linked. intros H. by symmetry. Qed.

(** The loops: the state steps, only [ec_broken] of the class may change. *)
Definition class_step root D p root' D' : Prop :=
  base_step root D root' D' /\ same_marks root root' /\ forall q, q <> p -> ec_broken (get_class root' q) = ec_broken (get_class root q).
Lemma class_step_trans root1 D1 p root2 D2 root3 D3 : class_step root1 D1 p root2 D2 -> class_step root2 D2 p root3 D3 -> class_step root1 D1 p root3 D3.
Proof.
  intros (S1 & M1 & B1) (S2 & M2 & B2). split_and!; [by eapply base_step_trans|by trans root2|]. intros q Hq. by rewrite B2, B1.
Qed.
Lemma class_step_broken root D p : inv root D -> p ∈ eq_classes (im_ec root) -> class_step root D p (set_broken root p) D /\
  ec_broken (get_class (set_broken root p) p) = true.
Proof.
  intros Hi Hp. destruct (inv_set_broken root D p Hi Hp) as (Hg & Hv & Hb). split; [|done]. split_and!.
  - split; [done|done|done|by left].
  - done.
  - intros q Hq. destruct (get_class_set_broken root p q) as (_ & _ & ->); [by apply (iv_class _ _ Hi)|]. by rewrite decide_False.
Qed.
Lemma class_step_members root D p root' D' q : class_step root D p root' D' -> ec_members (get_class root' q) = ec_members (get_class root q).
Proof. intros (S & _). apply (gr_class _ _ (bs_grows _ _ _ _ S) q). Qed.
Lemma class_step_classes root D p root' D' : class_step root D p root' D' -> eq_classes (im_ec root') = eq_classes (im_ec root).
Proof. intros (S & _). apply (gr_classes _ _ (bs_grows _ _ _ _ S)). Qed.

Lemma find_const_ok ems : forall i acc,
  (find_const i ems acc = acc /\ forall em, em ∈ ems -> em_is_const em = false) \/
  exists j em, find_const i ems acc = Some (i + j, em)%nat /\ ems !! j = Some em /\ em_is_const em = true.
Proof.
  induction ems as [|em ems IH]; intros i acc; cbn [find_const]; [left; split; [done|]; by intros em ?%not_elem_of_nil|].
  destruct (em_is_const em) eqn:Ec.
  - right. destruct (is_Const (em_expr em)); [exists 0%nat, em; by rewrite Nat.add_0_r|].
    destruct (IH (S i) (Some (i, em))) as [[-> _]|(j & em' & -> & Hj & Hc)]; [exists 0%nat, em; by rewrite Nat.add_0_r|].
    exists (S j), em'. split_and!; [|done|done]. f_equal. f_equal. lia.
  - destruct (IH (S i) acc) as [[-> Hn]|(j & em' & -> & Hj & Hc)].
    + left. split; [done|]. by intros em' [->|H]%elem_of_cons; [|apply Hn].
    + right. exists (S j), em'. split_and!; [|done|done]. f_equal. f_equal. lia.
Qed.

Lemma const_loop_ok p k const_em ems : forall root D done_ems, inv root D -> p ∈ eq_classes (im_ec root) ->
  ec_members (get_class root p) = done_ems ++ ems -> ec_members (get_class root p) !! k = Some const_em -> em_is_const const_em = true ->
  (forall em, em ∈ done_ems -> em <> const_em -> enforced root D p em const_em) ->
  exists root' D', const_loop root p k const_em (length done_ems) ems = Ok root' /\ class_step root D p root' D' /\
    (ec_broken (get_class root' p) = false -> forall em, em ∈ ec_members (get_class root' p) -> em <> const_em -> enforced root' D' p em const_em).
Proof.
  induction ems as [|cur ems IH]; intros root D done_ems Hi Hp Hm Hk Hc Hdone; cbn [const_loop].
  - exists root, D. split_and!; [done|split_and!; [by apply base_step_refl|done|done]|]. intros _ em. rewrite Hm, app_nil_r. apply Hdone.
  - pose proof (ck_ec _ _ (iv_class _ _ Hi p Hp)) as Hok.
    assert (ec_members (get_class root p) !! length done_ems = Some cur) as Hcur by (by rewrite Hm, list_lookup_middle).
    assert (length (done_ems ++ [cur]) = S (length done_ems)) as Elen by (rewrite length_app; cbn; lia).
    destruct (Nat.eqb_spec (length done_ems) k) as [<-|Hne].
    + rewrite <- Elen. apply IH; try done; [by rewrite <- app_assoc|]. rewrite Hk in Hcur. injection Hcur as ->.
      intros em [H|H%list_elem_of_singleton]%elem_of_app Hn; [by apply Hdone|done].
    + assert (cur <> const_em) as Hcc by (intros ->; apply Hne; by apply (NoDup_lookup _ _ _ const_em (ck_nodup _ _ _ Hok))).
      apply list_elem_of_lookup_2 in Hcur. pose proof (list_elem_of_lookup_2 _ _ _ Hk) as Hcin.
      destruct (Z.eqb_spec (select_equality_operator (get_class root p) (em_datatype cur) (em_datatype const_em)) 0) as [|Hop].
      { destruct (class_step_broken root D p Hi Hp) as [Hs Hb]. exists (set_broken root p), D. split_and!; [done|done|]. by rewrite Hb. }
      destruct (ck_domain _ _ _ Hok const_em Hcin) as (Wd & Nd & Ad).
      destruct (implied_step root D p _ cur const_em (jd_relids root (em_jdomain const_em)) (ec_min_security (get_class root p)) (em_is_const cur) true Hi Hp Hcur Hcin Hcc
        (select_equates _ _ _ Hop) Wd) as (rinfo & root1 & D' & -> & Hs & Hmk & Hb & He); [|apply within_lor_l; unfold jd_relids; rewrite Ad; split; by apply (ck_relids _ _ _ Hok)| |].
      { intros _. unfold jd_relids. rewrite Ad in Nd |- *. split; [done|apply within_refl]. }
      { intros Hcst. apply (ck_const _ _ _ Hok) in Hcst; [|done]. apply (ck_const _ _ _ Hok) in Hc; [|done]. unfold both. by rewrite Hcst, Hc. }
      cbn [mbind result_bind]. fold (finish root1 rinfo p cur const_em true). set (root2 := finish root1 rinfo p cur const_em true) in *.
      assert (class_step root D p root2 D') as Hst by (split_and!; [done|done|intros; apply Hb]).
      rewrite <- Elen. destruct (IH root2 D' (done_ems ++ [cur])) as (root' & D'' & -> & Hst' & Hfin);
        [apply Hs|by rewrite (class_step_classes _ _ _ _ _ Hst)|rewrite (class_step_members _ _ _ _ _ _ Hst), <- app_assoc; done|by rewrite (class_step_members _ _ _ _ _ _ Hst)|done| |].
      { intros em [H|H%list_elem_of_singleton]%elem_of_app Hn; [apply (enforced_step root D); [done|by apply Hdone]|by rewrite H]. }
      exists root', D''. split_and!; [done|by eapply class_step_trans|done].
Qed.

(** [prev_ems] holds the last member seen for each relation; the members seen are linked to it. *)
Definition prev_ok root D p (prev_ems : list (option EM)) (done_ems : list EM) : Prop :=
  forall em y, em ∈ done_ems -> 0 <= y -> bms_val (em_relids em) = 2 ^ y ->
    exists m, prev_ems !! Z.to_nat y = Some (Some m) /\ linked root D p (eq (2 ^ y)) em m.
Definition prev_members (prev_ems : list (option EM)) (done_ems : list EM) : Prop :=
  forall y m, 0 <= y -> prev_ems !! Z.to_nat y = Some (Some m) -> m ∈ done_ems /\ bms_val (em_relids m) = 2 ^ y.

Lemma linked_trans root D p P x y z : linked root D p P x y -> linked root D p P y z -> linked root D p P x z.
Proof. unfold linked. intros H1 H2. by trans y. Qed.

Lemma prev_members_insert prev_ems done_ems cur y : 0 <= y -> bms_val (em_relids cur) = 2 ^ y -> prev_members prev_ems done_ems ->
  prev_members (<[Z.to_nat y := Some cur]> prev_ems) (done_ems ++ [cur]).
Proof.
  intros Hy Ey Hpm y' m Hy' H. rewrite elem_of_app, list_elem_of_singleton. apply list_lookup_insert_Some in H as [(E & [= ->] & _)|[_ H]].
  - assert (y = y') as -> by lia. auto.
  - apply Hpm in H; [|done]. tauto.
Qed.
(** Recording [cur] for relation [y] once it is equal to the last member of that relation. *)
Lemma prev_ok_insert root D p prev_ems done_ems cur y o : 0 <= y -> bms_val (em_relids cur) = 2 ^ y -> prev_ok root D p prev_ems done_ems ->
  prev_ems !! Z.to_nat y = Some o -> match o with Some m => linked root D p (eq (2 ^ y)) m cur | None => True end ->
  prev_ok root D p (<[Z.to_nat y := Some cur]> prev_ems) (done_ems ++ [cur]).
Proof.
  intros Hy Ey Hp Ho Hl em y' Hem Hy' E. apply elem_of_app in Hem as [H| ->%list_elem_of_singleton].
  - destruct (Hp em y' H Hy' E) as (m & Hm & Hlm). destruct (decide (y' = y)) as [->|Hne].
    + exists cur. rewrite list_lookup_insert_eq by (by eapply lookup_lt_Some). split; [done|]. rewrite Hm in Ho. injection Ho as <-.
      by eapply linked_trans.
    + exists m. rewrite list_lookup_insert_ne by lia. done.
  - exists cur. rewrite Ey in E. apply Z.pow_inj_r in E; [|lia..]. subst y'. rewrite list_lookup_insert_eq by (by eapply lookup_lt_Some).
    split; [done|]. apply rtc_refl.
Qed.
Lemma prev_ok_skip root D p prev_ems done_ems cur : (forall y, 0 <= y -> bms_val (em_relids cur) <> 2 ^ y) -> prev_ok root D p prev_ems done_ems ->
  prev_ok root D p prev_ems (done_ems ++ [cur]).
Proof. intros Hn Hp em y [H| ->%list_elem_of_singleton]%elem_of_app Hy E; [by apply Hp|]. by destruct (Hn y). Qed.
Lemma prev_ok_step root D root' D' p prev_ems done_ems : base_step root D root' D' -> prev_ok root D p prev_ems done_ems -> prev_ok root' D' p prev_ems done_ems.
Proof. intros Hs Hp em y Hem Hy E. destruct (Hp em y Hem Hy E) as (m & Hm & Hl). exists m. split; [done|]. by apply (linked_step root D). Qed.

Lemma get_singleton_cases a : bms_wf a ->
  (exists y, 0 <= y /\ bms_val a = 2 ^ y /\ bms_get_singleton_member a 0 = (true, y)) \/
  (bms_get_singleton_member a 0 = (false, 0) /\ forall y, 0 <= y -> bms_val a <> 2 ^ y).
Proof.
  intros Ha. rewrite (proj2 (proj2 (bms_membership_spec a Ha))). destruct (bms_members a) as [|y [|z rest]] eqn:E.
  - right. split; [done|]. intros y Hy. rewrite (bms_members_singleton a y Ha Hy), E. done.
  - left. exists y. assert (y ∈ bms_members a) as Hy by (rewrite E; by left). apply (elem_of_bms_members _ _ Ha) in Hy as [Hy _].
    split_and!; [done| |done]. by apply bms_members_singleton.
  - right. split; [done|]. intros u Hu. rewrite (bms_members_singleton a u Ha Hu), E. done.
Qed.

Lemma no_const_loop_ok p ems : forall root D prev_ems done_ems, inv root D -> p ∈ eq_classes (im_ec root) -> ec_has_const (get_class root p) = false ->
  ec_members (get_class root p) = done_ems ++ ems -> (forall b, 0 <= b -> Z.testbit all b = true -> (Z.to_nat b < length prev_ems)%nat) ->
  prev_ok root D p prev_ems done_ems -> prev_members prev_ems done_ems ->
  exists root' D', no_const_loop root p prev_ems ems = Ok root' /\ class_step root D p root' D' /\
    (ec_broken (get_class root' p) = false -> forall l r y, l ∈ ec_members (get_class root' p) -> r ∈ ec_members (get_class root' p) ->
       0 <= y -> bms_val (em_relids l) = 2 ^ y -> bms_val (em_relids r) = 2 ^ y -> linked root' D' p (eq (2 ^ y)) l r).
Proof.
  induction ems as [|cur ems IH]; intros root D prev_ems done_ems Hi Hp Hnc Hm Hlen Hpo Hpm; cbn [no_const_loop].
  - exists root, D. split_and!; [done|split_and!; [by apply base_step_refl|done|done]|]. intros _ l r y. rewrite Hm, app_nil_r.
    intros Hl Hr Hy El Er. destruct (Hpo l y Hl Hy El) as (m & Em & Lm), (Hpo r y Hr Hy Er) as (m' & Em' & Lm'). rewrite Em in Em'. injection Em' as <-.
    eapply linked_trans; [done|]. by apply linked_sym.
  - pose proof (ck_ec _ _ (iv_class _ _ Hi p Hp)) as Hok. assert (cur ∈ ec_members (get_class root p)) as Hcur by (rewrite Hm; apply elem_of_app; right; by left).
    assert (ec_members (get_class root p) = (done_ems ++ [cur]) ++ ems) as Hm' by (by rewrite <- app_assoc).
    destruct (ck_wf _ _ _ Hok cur Hcur) as [Wc _]. destruct (get_singleton_cases _ Wc) as [(y & Hy & Ey & ->)|[-> Hns]]; cbn [negb].
    2: { apply (IH root D prev_ems (done_ems ++ [cur])); try done; [by apply prev_ok_skip|]. intros y m Hy' H%Hpm; [|done]. rewrite elem_of_app. tauto. }
    assert (Z.testbit all y = true) as Hya by (apply within_pow2; [done|]; rewrite <- Ey; by apply (ck_relids _ _ _ Hok)).
    pose proof (Hlen y Hy Hya) as Hyl. destruct (lookup_lt_is_Some_2 prev_ems (Z.to_nat y)) as [prev Hprev]; [done|].
    rewrite (array_get_Z _ _ _ Hy Hprev), array_set_Z by lia. cbn [mbind result_bind].
    pose proof (prev_members_insert prev_ems done_ems cur y Hy Ey Hpm) as Hpm'.
    destruct prev as [m|].
    2: { apply (IH root D _ (done_ems ++ [cur])); try done; [by rewrite length_insert|]. by apply prev_ok_insert with (o := None). }
    destruct (Hpm y m Hy Hprev) as [Hmin Hmy]. assert (m ∈ ec_members (get_class root p)) as Hmm by (rewrite Hm; apply elem_of_app; by left).
    assert (m <> cur) as Hmc. { intros ->. pose proof (ck_nodup _ _ _ Hok) as Hnd. rewrite Hm in Hnd. apply NoDup_app in Hnd as (_ & Hnd & _). apply (Hnd cur Hmin). by left. }
    destruct (Z.eqb_spec (select_equality_operator (get_class root p) (em_datatype m) (em_datatype cur)) 0) as [|Hop].
    { destruct (class_step_broken root D p Hi Hp) as [Hs Hb]. exists (set_broken root p), D. split_and!; [done|done|]. by rewrite Hb. }
    assert (both (em_relids m) (em_relids cur) <> 0) as Hbo by (unfold both; rewrite Hmy, Ey, Z.lor_diag; lia).
    destruct (implied_step root D p _ m cur (em_relids cur) (ec_min_security (get_class root p)) false false Hi Hp Hmm Hcur Hmc
      (select_equates _ _ _ Hop) Wc) as (rinfo & root1 & D' & -> & Hs & Hmk & Hb & He); [done|unfold both; rewrite Hmy, Ey, Z.lor_diag; apply within_refl|done|].
    cbn [mbind result_bind]. fold (finish root1 rinfo p m cur false). set (root2 := finish root1 rinfo p m cur false) in *.
    assert (class_step root D p root2 D') as Hst by (split_and!; [done|done|intros; apply Hb]).
    destruct (IH root2 D' (<[Z.to_nat y := Some cur]> prev_ems) (done_ems ++ [cur])) as (root' & D'' & -> & Hst' & Hfin);
      [apply Hs|by rewrite (class_step_classes _ _ _ _ _ Hst)| |by rewrite (class_step_members _ _ _ _ _ _ Hst)|by rewrite length_insert| |done|].
    + by rewrite (sm_const _ _ (gr_class _ _ (bs_grows _ _ _ _ Hs) p)).
    + apply prev_ok_insert with (o := Some m); [done|done|by apply (prev_ok_step root D)|done|]. by apply linked_one.
    + exists root', D''. split_and!; [done|by eapply class_step_trans|done].
Qed.
End Implied.
