(* ===== verification/ImpliedScan.v ===== *)
(** * The scan clauses of all classes

    [generate_base_implied_equalities] succeeds, leaves every class covered by the clauses distributed to the base
    relations, and records for each base relation which classes mention it, as the join search
    expects. *)
From stdpp Require Import gmap.
From S2P Require Import Prelude Bitmapset BitmapsetSpec BitmapsetIter EquivClass EquivClassProps PathKeys JoinRels JoinLinks ImpliedEq ImpliedEqProps.
#[local] Open Scope Z_scope.

Section Scans.
Context {Expr : Type} `{!ExprOps Expr} `{!OpFamilies Expr}.
#[local] Abbreviation EM := (EquivalenceMember Expr).
#[local] Abbreviation Root := (ImpliedRoot (Expr := Expr)).
Implicit Types (root : Root) (p id : nat) (em l r : EM).
Context (all : Z).
#[local] Abbreviation inv := (inv all).
#[local] Abbreviation dist := (dist all).
#[local] Abbreviation class_ok := (class_ok all).
#[local] Abbreviation base_step := (base_step all).
#[local] Abbreviation class_step := (class_step all).

(** ** Classes *)
Definition anywhere (x : Z) : Prop := True.
(** What the distributed clauses [D] enforce of a class: a class with a constant is enforced by them; of another one, the
    members that the same relation can compute are equal.  A broken class has its sources in their place. *)
Record covered root D p : Prop := {
  cv_const l r : ec_has_const (get_class root p) = true -> ec_broken (get_class root p) = false ->
    l ∈ ec_members (get_class root p) -> r ∈ ec_members (get_class root p) -> linked root D p anywhere l r;
  cv_rel l r y : ec_has_const (get_class root p) = false -> ec_broken (get_class root p) = false ->
    l ∈ ec_members (get_class root p) -> r ∈ ec_members (get_class root p) -> 0 <= y -> bms_val (em_relids l) = 2 ^ y -> bms_val (em_relids r) = 2 ^ y ->
    linked root D p (eq (2 ^ y)) l r;
  cv_sources id : ec_broken (get_class root p) = true -> id ∈ ec_sources (get_class root p) ->
    ec_has_const (get_class root p) = true \/ ~ several (required_val root id) -> id ∈ D
}.
Lemma required_val_grows root root' id c : grows root root' -> im_clauses root !! id = Some c -> required_val root' id = required_val root id.
Proof.
  intros Hg Hc. unfold required_val, clause_required. destruct (gr_clause _ _ Hg _ _ Hc) as (c' & -> & Sc). by rewrite Hc, (sc_required _ _ Sc).
Qed.
Lemma required_val_source root D root' p id : inv root D -> p ∈ eq_classes (im_ec root) -> id ∈ ec_sources (get_class root p) ->
  grows root root' -> required_val root' id = required_val root id.
Proof.
  intros Hi Hp Hid Hg. destruct (ck_source _ _ _ _ (ck_ec _ _ _ (iv_class _ _ _ Hi p Hp)) id Hid) as (c & _ & _ & Hc & _). by apply (required_val_grows _ _ _ c).
Qed.
Lemma covered_step root D root' D' p : base_step root D root' D' -> ec_broken (get_class root' p) = ec_broken (get_class root p) ->
  inv root D -> p ∈ eq_classes (im_ec root) -> covered root D p -> covered root' D' p.
Proof.
  intros Hs Eb Hi Hp Hc. pose proof (bs_grows _ _ _ _ _ Hs) as Hg. destruct (gr_class _ _ Hg p) as [_ _ Em Es _ Ec _].
  split; rewrite ?Ec, ?Eb, ?Em, ?Es.
  - intros l r H1 H2 Hl Hr. apply (linked_step all root D); [done|]. by apply Hc.
  - intros l r y H1 H2 Hl Hr Hy El Er. apply (linked_step all root D); [done|]. by apply Hc.
  - intros id H1 H2 H3. apply (bs_incl _ _ _ _ _ Hs). apply (cv_sources _ _ _ Hc); [done|done|].
    by rewrite (required_val_source root D root' p id) in H3.
Qed.

Lemma source_step root D p id : inv root D -> p ∈ eq_classes (im_ec root) -> id ∈ ec_sources (get_class root p) ->
  exists rels, distribute_restrictinfo_to_rels root id = Ok (set_im_rels root rels) /\ class_step root D p (set_im_rels root rels) (id :: D).
Proof.
  intros Hi Hp Hid. pose proof (ck_ec _ _ _ (iv_class _ _ _ Hi p Hp)) as Hok. destruct (ck_source _ _ _ _ Hok id Hid) as (c & l & r & Hc & He & Hw & Hv & Hn & Ha).
  destruct (distribute_ok all root D id c) as (rels & -> & Hd & Hm); [apply Hi|done..|].
  exists rels. split; [done|]. assert (grows root (set_im_rels root rels)) as Hg by (split; try done; intros x cc Hx; by exists cc).
  split_and!; [split|done|done].
  - done.
  - by apply (inv_unchanged _ root _ D).
  - by apply list_subseteq_cons.
  - intros x [->|Hx]%elem_of_cons; [|by left]. right. by exists p, c, l, r.
Qed.

Lemma pair_enforced root D p id a b : inv root D -> p ∈ eq_classes (im_ec root) -> ec_members (get_class root p) = [a; b] ->
  id ∈ ec_sources (get_class root p) -> id ∈ D -> forall l r, l ∈ ec_members (get_class root p) -> r ∈ ec_members (get_class root p) -> linked root D p anywhere l r.
Proof.
  intros Hi Hp Hm Hid HD. destruct (ck_source _ _ _ _ (ck_ec _ _ _ (iv_class _ _ _ Hi p Hp)) id Hid) as (c & x & y & Hc & He & _ & Hv & _).
  assert (linked root D p anywhere x y) as Hxy by (apply linked_one; [done|done|]; right; by exists id, c).
  pose proof (linked_sym _ _ _ _ _ _ Hxy) as Hyx. pose proof (eq_left_in _ _ _ _ He) as Hx. pose proof (eq_right_in _ _ _ _ He) as Hy.
  pose proof (eq_distinct _ _ _ _ He) as Hne. rewrite Hm in Hx, Hy |- *. intros l r Hl Hr.
  rewrite !elem_of_cons, elem_of_nil in Hx, Hy, Hl, Hr. assert (forall u, linked root D p anywhere u u) as Hrefl by (intros u; apply rtc_refl).
  destruct Hx as [->|[->|[]]], Hy as [->|[->|[]]], Hl as [->|[->|[]]], Hr as [->|[->|[]]]; done.
Qed.

Lemma base_const_ok root D p : inv root D -> p ∈ eq_classes (im_ec root) -> ec_has_const (get_class root p) = true ->
  exists root' D', generate_base_implied_equalities_const root p = Ok root' /\ class_step root D p root' D' /\
    (ec_broken (get_class root' p) = false -> forall l r, l ∈ ec_members (get_class root' p) -> r ∈ ec_members (get_class root' p) ->
       linked root' D' p anywhere l r).
Proof.
  intros Hi Hp Hc. pose proof (ck_ec _ _ _ (iv_class _ _ _ Hi p Hp)) as Hok.
  assert (exists root' D', match find_const 0 (ec_members (get_class root p)) None with
     | None => Error assert_msg | Some (k, const_em) => const_loop root p k const_em 0 (ec_members (get_class root p)) end = Ok root' /\
    class_step root D p root' D' /\
    (ec_broken (get_class root' p) = false -> forall l r, l ∈ ec_members (get_class root' p) -> r ∈ ec_members (get_class root' p) ->
       linked root' D' p anywhere l r)) as Hgen.
  { destruct (find_const_ok (ec_members (get_class root p)) 0 None) as [[_ Hn]|(k & em & -> & Hk & Hcst)].
    { apply (ck_has_const _ _ _ _ Hok) in Hc as (em & Hem & E). by rewrite Hn in E. }
    destruct (const_loop_ok all p k em (ec_members (get_class root p)) root D []) as (root' & D' & Hl & Hst & Hfin); try done.
    { by intros ? ?%not_elem_of_nil. }
    exists root', D'. split_and!; [done|done|]. intros Hb l r Hl' Hr'. assert (forall u, u ∈ ec_members (get_class root' p) -> linked root' D' p anywhere u em) as Hu.
    { intros u Hu. destruct (decide (u = em)) as [->|Hne]; [apply rtc_refl|]. apply linked_one; [done|done|]. by apply Hfin. }
    eapply linked_trans; [by apply Hu|]. apply linked_sym. by apply Hu. }
  unfold generate_base_implied_equalities_const.
  destruct (ec_members (get_class root p)) as [|a [|b [|]]] eqn:Em; try exact Hgen.
  destruct (ec_sources (get_class root p)) as [|s [|]] eqn:Es; try exact Hgen.
  assert (s ∈ ec_sources (get_class root p)) as Hs by (rewrite Es; by left).
  destruct (source_step root D p s Hi Hp Hs) as (rels & -> & Hst). eexists _, _. split_and!; [done|done|].
  intros _. apply (pair_enforced _ _ p s a b); [apply Hst|done|done|done|by left].
Qed.

Lemma base_no_const_ok root D p : inv root D -> p ∈ eq_classes (im_ec root) -> ec_has_const (get_class root p) = false ->
  exists root' D', generate_base_implied_equalities_no_const root p = Ok root' /\ class_step root D p root' D' /\
    (ec_broken (get_class root' p) = false -> forall l r y, l ∈ ec_members (get_class root' p) -> r ∈ ec_members (get_class root' p) ->
       0 <= y -> bms_val (em_relids l) = 2 ^ y -> bms_val (em_relids r) = 2 ^ y -> linked root' D' p (eq (2 ^ y)) l r).
Proof.
  intros Hi Hp Hc. apply (no_const_loop_ok all p _ root D _ []); try done.
  - intros b Hb Ha. destruct (di_slot _ _ _ (iv_dist _ _ _ Hi) b Hb Ha) as (_ & rel & Hrel). rewrite length_replicate. by eapply lookup_lt_Some.
  - by intros em y ?%not_elem_of_nil.
  - intros y m Hy H. by apply lookup_replicate in H as [? _].
Qed.

Lemma base_broken_ok p sources : forall root D, inv root D -> p ∈ eq_classes (im_ec root) -> (forall id, id ∈ sources -> id ∈ ec_sources (get_class root p)) ->
  exists root' D', base_broken_loop root p sources = Ok root' /\ class_step root D p root' D' /\ ec_broken (get_class root' p) = ec_broken (get_class root p) /\
    forall id, id ∈ sources -> ec_has_const (get_class root p) = true \/ ~ several (required_val root id) -> id ∈ D'.
Proof.
  induction sources as [|id sources IH]; intros root D Hi Hp Hsub; cbn [base_broken_loop].
  { exists root, D. split_and!; [done|split_and!; [by apply base_step_refl|done|done]|done|]. by intros id ?%not_elem_of_nil. }
  assert (id ∈ ec_sources (get_class root p)) as Hid by (apply Hsub; by left).
  assert (forall x, x ∈ sources -> x ∈ ec_sources (get_class root p)) as Hsub' by (intros; apply Hsub; by right).
  destruct (ck_source _ _ _ _ (ck_ec _ _ _ (iv_class _ _ _ Hi p Hp)) id Hid) as (c & l & r & Hc & He & Hw & Hv & Hn).
  destruct (ec_has_const (get_class root p) || _) eqn:Et.
  - destruct (source_step root D p id Hi Hp Hid) as (rels & -> & Hst). cbn [mbind result_bind].
    destruct (IH (set_im_rels root rels) (id :: D)) as (root' & D' & -> & Hst' & Hb & Hfin); [apply Hst|done|done|].
    exists root', D'. split_and!; [done|by eapply class_step_trans|done|]. intros x [->|Hx]%elem_of_cons H; [|by apply Hfin].
    apply (bs_incl _ _ _ _ _ (proj1 Hst')). by left.
  - cbn [mbind result_bind]. destruct (IH root D) as (root' & D' & -> & Hst' & Hb & Hfin); [done..|]. exists root', D'. split_and!; [done|done|done|].
    intros x [->|Hx]%elem_of_cons H; [|by apply Hfin]. exfalso. apply orb_false_iff in Et as [Ec Et]. destruct H as [H|H]; [congruence|].
    unfold required_val, clause_required in *. rewrite Hc in *.
    destruct (membership_cases _ Hw) as [[E _]|[(y & _ & _ & E & _)|[E Hs]]]; [by rewrite E in Et|by rewrite E in Et|done].
Qed.

(** The first half of the loop body. *)
Lemma base_cover_ok root D p : inv root D -> p ∈ eq_classes (im_ec root) ->
  exists root' D', (if (1 <? length (ec_members (get_class root p)))%nat then
      root ← (if ec_has_const (get_class root p) then generate_base_implied_equalities_const root p else generate_base_implied_equalities_no_const root p);
      if ec_broken (get_class root p) then generate_base_implied_equalities_broken root p else Ok root
    else Ok root) = Ok root' /\ class_step root D p root' D' /\ covered root' D' p.
Proof.
  intros Hi Hp. pose proof (ck_ec _ _ _ (iv_class _ _ _ Hi p Hp)) as Hok. destruct (Nat.ltb_spec 1 (length (ec_members (get_class root p)))) as [Hlt|Hle].
  - assert (exists root1 D1, (if ec_has_const (get_class root p) then generate_base_implied_equalities_const root p
        else generate_base_implied_equalities_no_const root p) = Ok root1 /\ class_step root D p root1 D1 /\
      (ec_broken (get_class root1 p) = false -> covered root1 D1 p)) as (root1 & D1 & -> & Hst & Hcov).
    { destruct (ec_has_const (get_class root p)) eqn:Ec.
      - destruct (base_const_ok root D p Hi Hp Ec) as (root1 & D1 & -> & Hst & Hl). exists root1, D1. split_and!; [done|done|].
        intros Hb. specialize (Hl Hb). split; [auto| |by rewrite Hb]. rewrite (sm_const _ _ (gr_class _ _ (bs_grows _ _ _ _ _ (proj1 Hst)) p)). by rewrite Ec.
      - destruct (base_no_const_ok root D p Hi Hp Ec) as (root1 & D1 & -> & Hst & Hl). exists root1, D1. split_and!; [done|done|].
        intros Hb. specialize (Hl Hb). split; [|by auto|by rewrite Hb]. rewrite (sm_const _ _ (gr_class _ _ (bs_grows _ _ _ _ _ (proj1 Hst)) p)). by rewrite Ec. }
    cbn [mbind result_bind]. destruct (ec_broken (get_class root1 p)) eqn:Eb; [|by exists root1, D1; auto].
    unfold generate_base_implied_equalities_broken.
    destruct (base_broken_ok p (ec_sources (get_class root1 p)) root1 D1) as (root2 & D2 & -> & Hst2 & Hb & Hfin);
      [apply Hst|by rewrite (class_step_classes _ _ _ _ _ _ Hst)|done|].
    exists root2, D2. split_and!; [done|by eapply class_step_trans|]. rewrite Eb in Hb. split; rewrite ?Hb; try done.
    pose proof (bs_grows _ _ _ _ _ (proj1 Hst2)) as Hg. rewrite (sm_sources _ _ (gr_class _ _ Hg p)), (sm_const _ _ (gr_class _ _ Hg p)).
    intros id _ Hid H. apply Hfin; [done|]. destruct H as [H|H]; [by left|right]. pose proof (bs_inv _ _ _ _ _ (proj1 Hst)) as Hi1.
    by rewrite (required_val_source root1 D1 root2 p id) in H by (done || by rewrite (class_step_classes _ _ _ _ _ _ Hst)).
  - exists root, D. assert (forall l r, l ∈ ec_members (get_class root p) -> r ∈ ec_members (get_class root p) -> l = r) as Hone.
    { destruct (ec_members (get_class root p)) as [|a [|b rest]]; [by intros ? ? ?%not_elem_of_nil| |cbn in Hle; lia].
      by intros l r ->%list_elem_of_singleton ->%list_elem_of_singleton. }
    split_and!; [done|split_and!; [by apply base_step_refl|done|done]|]. split.
    + intros l r _ _ Hl Hr. rewrite (Hone l r Hl Hr). apply rtc_refl.
    + intros l r y _ _ Hl Hr _ _ _. rewrite (Hone l r Hl Hr). apply rtc_refl.
    + intros id _ Hid _. destruct (ck_source _ _ _ _ Hok id Hid) as (c & l & r & _ & He & _). destruct (eq_distinct _ _ _ _ He). apply Hone; apply He.
Qed.

(** ** Marking the relations of a class *)
Definition index_at root (b : Z) (s : bitmapset) : Prop := eclass_indexes (im_ec root) !! Z.to_nat b = Some (Some s).

(** [root'] is [root] with class number [k] recorded for the relations satisfying [P]. *)
Record marked root root' (k : Z) (can : bool) (P : Z -> Prop) : Prop := {
  mk_grows : grows root root';
  mk_clauses : im_clauses root' = im_clauses root;
  mk_next : im_next root' = im_next root;
  mk_class q : get_class root' q = get_class root q;
  mk_index b : 0 <= b -> Z.testbit all b = true -> exists s s', index_at root b s /\ index_at root' b s' /\ bms_wf s' /\
    forall j, 0 <= j -> bms_mem s' j = true <-> bms_mem s j = true \/ (j = k /\ P b);
  mk_rel b : 0 <= b -> Z.testbit all b = true -> exists rel rel', rel_at root b rel /\ rel_at root' b rel' /\
    baserestrictinfo rel' = baserestrictinfo rel /\ br_joininfo rel' = br_joininfo rel /\
    (br_has_eclass_joins rel' = true <-> br_has_eclass_joins rel = true \/ (can = true /\ P b))
}.
Definition indexed root : Prop := forall b, 0 <= b -> Z.testbit all b = true -> exists s, index_at root b s /\ bms_wf s.
Definition slotted root : Prop := forall b, 0 <= b -> Z.testbit all b = true -> 0 < b /\ exists rel, rel_at root b rel.

Lemma marked_refl root k can : indexed root -> slotted root -> marked root root k can (fun _ => False).
Proof.
  intros Hx Hs. split; try done.
  - intros b Hb Ha. destruct (Hx b Hb Ha) as (s & Es & Ws). exists s, s. split_and!; [done..|]. tauto.
  - intros b Hb Ha. destruct (Hs b Hb Ha) as (_ & rel & Er). exists rel, rel. split_and!; [done..|]. tauto.
Qed.
Lemma marked_trans root1 root2 root3 k can P1 P2 (P : Z -> Prop) : (forall b, P b <-> P1 b \/ P2 b) -> marked root1 root2 k can P1 -> marked root2 root3 k can P2 -> marked root1 root3 k can P.
Proof.
  intros HP H1 H2. split.
  - trans root2; [apply H1|apply H2].
  - by rewrite (mk_clauses _ _ _ _ _ H2), (mk_clauses _ _ _ _ _ H1).
  - by rewrite (mk_next _ _ _ _ _ H2), (mk_next _ _ _ _ _ H1).
  - intros q. by rewrite (mk_class _ _ _ _ _ H2), (mk_class _ _ _ _ _ H1).
  - intros b Hb Ha. destruct (mk_index _ _ _ _ _ H1 b Hb Ha) as (s1 & s2 & E1 & E2 & _ & M1), (mk_index _ _ _ _ _ H2 b Hb Ha) as (s2' & s3 & E2' & E3 & W3 & M2).
    unfold index_at in *. rewrite E2 in E2'. injection E2' as <-. exists s1, s3. split_and!; [done..|]. intros j Hj. rewrite (M2 j Hj), (M1 j Hj), HP. tauto.
  - intros b Hb Ha. destruct (mk_rel _ _ _ _ _ H1 b Hb Ha) as (s1 & s2 & E1 & E2 & B1 & J1 & M1), (mk_rel _ _ _ _ _ H2 b Hb Ha) as (s2' & s3 & E2' & E3 & B2 & J2 & M2).
    unfold rel_at in *. rewrite E2 in E2'. injection E2' as <-. exists s1, s3. split_and!; [done|done|congruence|congruence|]. rewrite M2, M1, HP. tauto.
Qed.
Lemma marked_indexed root root' k can P : slotted root -> marked root root' k can P -> indexed root' /\ slotted root'.
Proof.
  intros Hs H. split; intros b Hb Ha; [destruct (mk_index _ _ _ _ _ H b Hb Ha) as (_ & s & _ & E & W & _); by exists s|].
  split; [by apply Hs|]. destruct (mk_rel _ _ _ _ _ H b Hb Ha) as (_ & rel & _ & E & _). by exists rel.
Qed.

(** The loop body for relation [b]. *)
Definition mark_rel root (b : Z) (rel : BaseRel) (indexes : bitmapset) (can : bool) : Root :=
  let er := im_ec root in
  let root := set_im_ec root
    {| ec_heap := ec_heap er; eq_classes := eq_classes er; ec_merging_done := ec_merging_done er;
       eclass_indexes := <[Z.to_nat b := Some indexes]> (eclass_indexes er); top_jdomain := top_jdomain er |} in
  if can then
    set_rel root b
      {| baserestrictinfo := baserestrictinfo rel; baserestrict_min_security := baserestrict_min_security rel;
         br_joininfo := br_joininfo rel; br_has_eclass_joins := true |}
  else root.
Lemma mark_rel_ok root b rel s s' k can : indexed root -> slotted root -> 0 <= b -> 0 <= k -> rel_at root b rel -> index_at root b s -> bms_wf s' ->
  bms_val s' = Z.setbit (bms_val s) k -> marked root (mark_rel root b rel s' can) k can (eq b).
Proof.
  intros Hx Hs Hb Hk Hrel Hidx Ws' Vs'. unfold rel_at, index_at in Hrel, Hidx.
  pose proof (lookup_lt_Some _ _ _ Hrel) as Lr. pose proof (lookup_lt_Some _ _ _ Hidx) as Li.
  assert (grows root (mark_rel root b rel s' can)) as Hg.
  { unfold mark_rel. destruct can; (split; [done|done|done|intros id c Hc; by exists c|done..]). }
  unfold mark_rel in *. split; [done|by destruct can|by destruct can|by destruct can| |].
  - intros b' Hb' Ha. destruct (Hx b' Hb' Ha) as (s0 & E0 & W0). unfold index_at in *. exists s0. destruct (decide (b' = b)) as [->|Hne].
    + rewrite E0 in Hidx. injection Hidx as ->. exists s'. split_and!; [done| |done|].
      * destruct can; cbn; by rewrite list_lookup_insert_eq.
      * intros j Hj. unfold bms_mem. rewrite Vs', Z.setbit_eqb, orb_true_iff, Z.eqb_eq by done. naive_solver.
    + exists s0. split_and!; [done| |done|intros j Hj; naive_solver]. destruct can; cbn; rewrite list_lookup_insert_ne by lia; done.
  - intros b' Hb' Ha. destruct (Hs b' Hb' Ha) as (_ & rel0 & E0). unfold rel_at in *. exists rel0. destruct (decide (b' = b)) as [->|Hne].
    + rewrite E0 in Hrel. injection Hrel as ->. destruct can; cbn.
      * rewrite list_lookup_insert_eq by done. eexists. split_and!; [done..|cbn; naive_solver].
      * exists rel. split_and!; [done..|naive_solver].
    + exists rel0. split_and!; [done| |done|done|naive_solver]. destruct can; cbn; [rewrite list_lookup_insert_ne by lia|]; done.
Qed.

Lemma mark_rels_ok rs k can : bms_wf rs -> within (bms_val rs) all -> 0 <= k -> forall fuel root i, -1 <= i -> indexed root -> slotted root ->
  bms_capacity rs - i <= Z.of_nat fuel -> (0 < fuel)%nat ->
  exists root', mark_rels fuel root rs i k can = Ok root' /\ marked root root' k can (fun b => i < b /\ bms_mem rs b = true).
Proof.
  intros Hrs Hall Hk. induction fuel as [|fuel IH]; intros root i Hi Hx Hs Hcap Hf; [lia|]. cbn [mark_rels].
  destruct (next_member_next_of rs i Hrs Hi) as [[-> Hnone]|(Hlt & Hm & Hbelow)].
  - exists root. split; [done|]. apply (marked_trans root root root k can (fun _ => False) (fun _ => False)); [|by apply marked_refl..].
    intros b. split; [|tauto]. intros [H1 H2]. by rewrite Hnone in H2.
  - set (b := next_member rs i) in *.
    assert (b < bms_capacity rs) as Hbc by (destruct (Z_lt_ge_dec b (bms_capacity rs)); [done|]; rewrite bms_mem_capacity in Hm by (done || lia); done).
    assert (Z.testbit all b = true) as Hba by (apply (proj1 (within_bits _ _) Hall); [lia|done]).
    destruct (Hs b ltac:(lia) Hba) as (Hb0 & rel & Hrel), (Hx b ltac:(lia) Hba) as (s & Hidx & Ws).
    rewrite (proj2 (Z.gtb_lt b 0)) by lia. pose proof Hrel as Hrel'. pose proof Hidx as Hidx'. unfold rel_at in Hrel'. unfold index_at in Hidx'.
    rewrite Hrel', Hidx'. destruct (bms_add_member_spec s k Ws Hk) as (s' & -> & Ws' & Vs'). cbn [mbind result_bind]. fold (mark_rel root b rel s' can).
    pose proof (mark_rel_ok root b rel s s' k can Hx Hs ltac:(lia) Hk Hrel Hidx Ws' Vs') as H1. destruct (marked_indexed _ _ _ _ _ Hs H1) as [Hx1 Hs1].
    destruct (IH (mark_rel root b rel s' can) b) as (root' & -> & H2); [lia|done|done|lia|lia|]. exists root'. split; [done|].
    eapply marked_trans; [|done|done]. intros b'. cbn beta. split.
    + intros [Hb1 Hb2]. destruct (Z.lt_trichotomy b' b) as [H3|[->|H3]]; [by rewrite Hbelow in Hb2 by lia|by left|by right].
    + intros [<-|[H3 H4]]; [done|]. split; [lia|done].
Qed.

Lemma marked_step root root' D k can P : inv root D -> marked root root' k can P -> base_step root D root' D.
Proof.
  intros Hi Hm. assert (forall id, required_val root' id = required_val root id) as Hv.
  { intros id. unfold required_val, clause_required. by rewrite (mk_clauses _ _ _ _ _ Hm). }
  pose proof (iv_dist _ _ _ Hi) as Hd. split; [apply Hm| |done|by left].
  apply (inv_unchanged _ root _ D); [done|apply Hm|apply Hm|apply Hm|intros q; by rewrite (mk_class _ _ _ _ _ Hm)|]. split.
  - apply (marked_indexed root root' k can P); [|done]. exact (di_slot _ _ _ Hd).
  - intros id. rewrite (mk_clauses _ _ _ _ _ Hm). apply Hd.
  - intros b rel id Hb Ha Hr. rewrite Hv. destruct (mk_rel _ _ _ _ _ Hm b Hb Ha) as (r0 & r1 & E0 & E1 & Eb & _). unfold rel_at in *.
    rewrite Hr in E1. injection E1 as <-. rewrite Eb. by apply Hd.
  - intros b rel id Hb Ha Hr. rewrite Hv. destruct (mk_rel _ _ _ _ _ Hm b Hb Ha) as (r0 & r1 & E0 & E1 & _ & Ej & _). unfold rel_at in *.
    rewrite Hr in E1. injection E1 as <-. rewrite Ej. by apply Hd.
Qed.

(** ** All classes *)
Definition class_bits root p : Z := bms_val (ec_relids (get_class root p)).
Definition many root p : bool := (1 <? length (ec_members (get_class root p)))%nat.
Record scanned root D (done_classes : list nat) : Prop := {
  sn_inv : inv root D;
  sn_covered p : p ∈ done_classes -> covered root D p;
  sn_index b : 0 <= b -> Z.testbit all b = true -> exists s, index_at root b s /\ bms_wf s /\
    forall j, 0 <= j -> bms_mem s j = true <-> exists p, done_classes !! Z.to_nat j = Some p /\ Z.testbit (class_bits root p) b = true;
  sn_flag b rel : 0 <= b -> Z.testbit all b = true -> rel_at root b rel ->
    br_has_eclass_joins rel = true <-> exists p, p ∈ done_classes /\ many root p = true /\ several (class_bits root p) /\ Z.testbit (class_bits root p) b = true
}.

Lemma rel_flag root b rel : rel_at root b rel -> flag_at root (Z.to_nat b) = Some (br_has_eclass_joins rel).
Proof. intros H. unfold flag_at. unfold rel_at in H. by rewrite H. Qed.
Lemma class_bits_grows root root' p : grows root root' -> class_bits root' p = class_bits root p.
Proof. intros Hg. unfold class_bits. by rewrite (sm_relids _ _ (gr_class _ _ Hg p)). Qed.
Lemma many_grows root root' p : grows root root' -> many root' p = many root p.
Proof. intros Hg. unfold many. by rewrite (sm_members _ _ (gr_class _ _ Hg p)). Qed.

Lemma class_bits_within root D p : inv root D -> p ∈ eq_classes (im_ec root) -> within (class_bits root p) all.
Proof.
  intros Hi Hp. pose proof (ck_ec _ _ _ (iv_class _ _ _ Hi p Hp)) as Hok. apply within_bits. intros b Hb (em & Hem & Ht)%(ck_class _ _ _ _ Hok); [|done].
  destruct (ck_relids _ _ _ _ Hok em Hem) as [Ha _]. by apply (proj1 (within_bits _ _) Ha).
Qed.

Lemma base_one_class_ok root D done_classes p : scanned root D done_classes -> p ∈ eq_classes (im_ec root) -> p ∉ done_classes ->
  (forall q, q ∈ done_classes -> q ∈ eq_classes (im_ec root)) ->
  exists root' D', base_one_class root p (Z.of_nat (length done_classes)) = Ok root' /\ base_step root D root' D' /\ scanned root' D' (done_classes ++ [p]).
Proof.
  intros Hsc Hp Hnew Hdone. pose proof (sn_inv _ _ _ Hsc) as Hi. unfold base_one_class.
  destruct (base_cover_ok root D p Hi Hp) as (root1 & D1 & -> & (Hs1 & [Ei Ef] & Hb1) & Hcov). cbn [mbind result_bind].
  pose proof (bs_grows _ _ _ _ _ Hs1) as Hg1. pose proof (bs_inv _ _ _ _ _ Hs1) as Hi1. assert (p ∈ eq_classes (im_ec root1)) as Hp1 by (by rewrite (gr_classes _ _ Hg1)).
  set (rs := ec_relids (get_class root1 p)). set (can := _ && _). assert (bms_wf rs) as Wrs by apply (iv_class _ _ _ Hi1 p Hp1).
  assert (0 <= bms_capacity rs) by (destruct rs; unfold bms_capacity, nwords; lia).
  assert (can = true <-> many root p = true /\ several (class_bits root1 p)) as Hcan.
  { subst can. rewrite andb_true_iff. change ((1 <? length (ec_members (get_class root p)))%nat) with (many root p). unfold class_bits. fold rs.
    destruct (membership_cases rs Wrs) as [[-> E]|[(y & Hy & E & -> & _)|[-> Hs]]]; [| |tauto].
    - split; [by intros [_ ?]|]. by intros [_ [H0 _]].
    - split; [by intros [_ ?]|]. intros [_ [_ H0]]. by destruct (H0 y Hy). }
  destruct (mark_rels_ok rs (Z.of_nat (length done_classes)) can Wrs) with (fuel := S (S (Z.to_nat (bms_capacity rs)))) (root := root1) (i := -1)
    as (root2 & -> & Hm); [by apply (class_bits_within root1 D1)|lia|lia| |exact (di_slot _ _ _ (iv_dist _ _ _ Hi1))|lia|lia|].
  { intros b Hb Ha. destruct (sn_index _ _ _ Hsc b Hb Ha) as (s & E & W & _). exists s. unfold index_at. by rewrite Ei. }
  pose proof (marked_step root1 root2 D1 _ _ _ Hi1 Hm) as Hs2. pose proof (bs_grows _ _ _ _ _ Hs2) as Hg2. exists root2, D1.
  assert (grows root root2) as Hg by (by trans root1). split_and!; [done|by eapply base_step_trans|]. split.
  - apply Hs2.
  - intros q [Hq| ->%list_elem_of_singleton]%elem_of_app.
    + apply (covered_step root D); [by eapply base_step_trans| |done|by apply Hdone|by apply Hsc].
      rewrite (mk_class _ _ _ _ _ Hm). apply Hb1. by intros ->.
    + apply (covered_step root1 D1); [done| |done|done|done]. by rewrite (mk_class _ _ _ _ _ Hm).
  - intros b Hb Ha. destruct (mk_index _ _ _ _ _ Hm b Hb Ha) as (s & s' & E & E' & W' & M), (sn_index _ _ _ Hsc b Hb Ha) as (s0 & E0 & _ & M0).
    unfold index_at in *. rewrite Ei in E. rewrite E in E0. injection E0 as <-. exists s'. split_and!; [done|done|]. intros j Hj. rewrite (M j Hj), (M0 j Hj).
    setoid_rewrite lookup_app_Some. setoid_rewrite (fun q => class_bits_grows root root2 q Hg). split.
    + intros [(q & Hq & Ht)|(-> & _ & Hmem)]; [exists q; split; [by left|done]|]. exists p. rewrite <- (class_bits_grows root root1 p Hg1). split; [|done].
      right. rewrite Nat2Z.id. split; [lia|]. by rewrite Nat.sub_diag.
    + intros (q & [Hq|[Hlen Hq]] & Ht); [left; by exists q|]. right. apply list_lookup_singleton_Some in Hq as [Hz <-]. split_and!; [lia|lia|].
      rewrite <- (class_bits_grows root root1 p Hg1) in Ht. done.
  - intros b rel Hb Ha Hrel. destruct (mk_rel _ _ _ _ _ Hm b Hb Ha) as (r1 & r2 & E1 & E2 & _ & _ & M).
    assert (rel = r2) as -> by (unfold rel_at in *; congruence). destruct (di_slot _ _ _ (iv_dist _ _ _ Hi) b Hb Ha) as (_ & r0 & E0).
    assert (br_has_eclass_joins r1 = br_has_eclass_joins r0) as Ef0.
    { pose proof (Ef (Z.to_nat b)) as E. rewrite (rel_flag root1 b r1 E1), (rel_flag root b r0 E0) in E. by injection E. }
    rewrite M, Ef0, (sn_flag _ _ _ Hsc b r0 Hb Ha E0), Hcan. setoid_rewrite elem_of_app. setoid_rewrite list_elem_of_singleton.
    setoid_rewrite (fun q => class_bits_grows root root2 q Hg). setoid_rewrite (fun q => many_grows root root2 q Hg).
    change (bms_mem rs b) with (Z.testbit (class_bits root1 p) b). rewrite (class_bits_grows root root1 p Hg1). split.
    + intros [(q & Hq & Hrest)|((Hmany & Hsev) & _ & Ht)]; [exists q; split; [by left|done]|exists p; split; [by right|done]].
    + intros (q & [Hq| ->] & Hmany & Hsev & Ht); [left; by exists q|right]. split_and!; [done..|lia|done].
Qed.

Lemma base_classes_ok rest : forall root D done_classes, scanned root D done_classes -> eq_classes (im_ec root) = done_classes ++ rest ->
  NoDup (eq_classes (im_ec root)) ->
  exists root' D', base_classes root rest (Z.of_nat (length done_classes)) = Ok root' /\ base_step root D root' D' /\ scanned root' D' (done_classes ++ rest).
Proof.
  induction rest as [|p rest IH]; intros root D done_classes Hsc He Hnd; cbn [base_classes].
  { exists root, D. split_and!; [done|apply base_step_refl, Hsc|by rewrite app_nil_r]. }
  assert (p ∈ eq_classes (im_ec root)) as Hp by (rewrite He; apply elem_of_app; right; by left).
  destruct (base_one_class_ok root D done_classes p Hsc Hp) as (root1 & D1 & -> & Hs1 & Hsc1).
  { rewrite He in Hnd. apply NoDup_app in Hnd as (_ & H & _). intros Hin. apply (H p Hin). by left. }
  { intros q Hq. rewrite He. apply elem_of_app. by left. }
  cbn [mbind result_bind]. replace (Z.of_nat (length done_classes) + 1) with (Z.of_nat (length (done_classes ++ [p]))) by (rewrite length_app; cbn; lia).
  pose proof (gr_classes _ _ (bs_grows _ _ _ _ _ Hs1)) as E1.
  destruct (IH root1 D1 (done_classes ++ [p])) as (root' & D' & -> & Hs2 & Hsc2); [done|by rewrite E1, He, <- app_assoc|by rewrite E1|].
  exists root', D'. split_and!; [done|by eapply base_step_trans|]. by rewrite <- app_assoc in Hsc2.
Qed.

(** The planner state when [generate_base_implied_equalities] is called: [D] are the clauses already distributed. *)
Record base_ready root D : Prop := {
  br_inv : inv root D;
  br_clones : no_clones root;
  br_classes : NoDup (eq_classes (im_ec root));
  br_index b : 0 <= b -> Z.testbit all b = true -> index_at root b None;
  br_flag b rel : 0 <= b -> Z.testbit all b = true -> rel_at root b rel -> br_has_eclass_joins rel = false
}.
Lemma generate_base_ok root D : base_ready root D ->
  exists root' D', generate_base_implied_equalities root = Ok root' /\ base_step root D root' D' /\ scanned root' D' (eq_classes (im_ec root')).
Proof.
  intros H. unfold generate_base_implied_equalities. cbn zeta. set (root0 := set_im_ec root _). pose proof (br_inv _ _ H) as Hi.
  assert (grows root root0) as Hg by (split; try done; intros id c Hc; by exists c).
  assert (inv root0 D) as Hi0 by (apply (inv_unchanged _ root _ D); try done; apply (dist_same _ root); [apply Hi|done|intros id c Hc; by exists c]).
  destruct (base_classes_ok (eq_classes (im_ec root0)) root0 D []) as (root' & D' & Hb & Hs & Hsc); [|done|apply H|].
  { split; [done|by intros p ?%not_elem_of_nil| |].
    - intros b Hb Ha. exists None. split_and!; [by apply (br_index _ _ H)|done|]. intros j Hj. unfold bms_mem. cbn [bms_val]. rewrite Z.bits_0.
      split; [done|]. by intros (p & Hp & _).
    - intros b rel Hb Ha Hr. rewrite (br_flag _ _ H b rel Hb Ha Hr). split; [done|]. by intros (p & ?%not_elem_of_nil & _). }
  exists root', D'. split_and!; [done| |].
  - apply (base_step_trans _ root D root0 D); [|done]. split; [done|done|done|by left].
  - by rewrite (gr_classes _ _ (bs_grows _ _ _ _ _ Hs)).
Qed.

(** What the join search expects of the classes. *)
Lemma scanned_eclasses root D : scanned root D (eq_classes (im_ec root)) -> eclasses_ok (im_ec root) all.
Proof.
  intros H. split.
  - intros k p Hp%list_elem_of_lookup_2. apply (ck_class_wf _ _ _ _ (ck_ec _ _ _ (iv_class _ _ _ (sn_inv _ _ _ H) p Hp))).
  - intros b Hb Ha. split; [by apply (di_slot _ _ _ (iv_dist _ _ _ (sn_inv _ _ _ H)))|]. by apply (sn_index _ _ _ H).
Qed.
End Scans.
