(* ===== verification/ImpliedJoin.v ===== *)
(** * Clauses derived for joins

    [generate_join_implied_equalities] gives a join the clauses that make the members it can compute equal, provided its
    inputs made theirs equal; when an operator is missing it gives the sources of the class that
    only the join can check. *)
From stdpp Require Import gmap.
From S2P Require Import Prelude Bitmapset BitmapsetSpec BitmapsetIter EquivClass EquivClassProps PathKeys JoinRels JoinLinks ImpliedEq ImpliedEqProps ImpliedScan.
#[local] Open Scope Z_scope.

Section Joins.
Context {Expr : Type} `{!ExprOps Expr} `{!OpFamilies Expr}.
#[local] Abbreviation EM := (EquivalenceMember Expr).
#[local] Abbreviation EC := (EquivalenceClass Expr).
#[local] Abbreviation Root := (ImpliedRoot (Expr := Expr)).
Implicit Types (root : Root) (p id : nat) (ec : EC) (em l r : EM).
Context (all : Z).
#[local] Abbreviation inv := (inv all).
#[local] Abbreviation dist := (dist all).
#[local] Abbreviation class_ok := (class_ok all).

(** ** Steps *)
Record join_step root D root' : Prop := {
  js_grows : grows root root';
  js_inv : inv root' D;
  js_rels : im_rels root' = im_rels root;
  js_indexes : eclass_indexes (im_ec root') = eclass_indexes (im_ec root)
}.
Lemma join_step_refl root D : inv root D -> join_step root D root.
Proof. by split. Qed.
Lemma join_step_trans root1 D root2 root3 : join_step root1 D root2 -> join_step root2 D root3 -> join_step root1 D root3.
Proof. intros [] []. split; [by trans root2|done|congruence|congruence]. Qed.

(** Clause [id] equates [l] and [r]. *)
Definition equal_clause root p l r id : Prop :=
  exists c, im_clauses root !! id = Some c /\ (eq_clause (get_class root p) c l r \/ eq_clause (get_class root p) c r l).
Lemma equal_clause_grows root root' p l r id : grows root root' -> equal_clause root p l r id -> equal_clause root' p l r id.
Proof.
  intros Hg (c & Hc & He). apply (gr_clause _ _ Hg) in Hc as (c' & Hc' & Sc). exists c'. split; [done|].
  destruct He as [He|He]; [left|right]; by apply (eq_clause_same (get_class root p) _ c); [apply Hg| |].
Qed.

Lemma find_rinfo_ok root D p ids l r par id : inv root D -> p ∈ eq_classes (im_ec root) -> (forall x, x ∈ ids -> listed root p x) ->
  find_rinfo root ids l r par = Some id -> equal_clause root p l r id.
Proof.
  intros Hi Hp Hids. unfold find_rinfo. intros [Hin Ht]%List.find_some. apply list_elem_of_In in Hin.
  destruct (im_clauses root !! id) as [c|] eqn:Hc; [|done]. exists c. split; [done|].
  pose proof (fun a b => iv_marked _ _ _ Hi p id c a b Hp (Hids _ Hin) Hc) as Hm.
  apply orb_true_iff in Ht as [Ht|Ht]; rewrite !andb_true_iff, !bool_decide_eq_true in Ht; destruct Ht as [[E1 E2] _]; auto.
Qed.

Lemma create_join_clause_ok root D p op l r par : inv root D -> p ∈ eq_classes (im_ec root) -> l ∈ ec_members (get_class root p) ->
  r ∈ ec_members (get_class root p) -> l <> r -> equates (get_class root p) op l r ->
  let '(id, root') := create_join_clause root p op l r par in
  join_step root D root' /\ (forall q, ec_broken (get_class root' q) = ec_broken (get_class root q)) /\ equal_clause root' p l r id.
Proof.
  intros Hi Hp Hl Hr Hne Heq. unfold create_join_clause.
  destruct (find_rinfo root (ec_sources (get_class root p)) l r par) as [id|] eqn:E1.
  { split_and!; [by apply join_step_refl|done|]. eapply (find_rinfo_ok root D); [done|done| |done]. intros x Hx. by left. }
  destruct (find_rinfo root (ec_derives (get_class root p)) l r par) as [id|] eqn:E2.
  { split_and!; [by apply join_step_refl|done|]. eapply (find_rinfo_ok root D); [done|done| |done]. intros x Hx. by right. }
  set (c := build_implied_join_equality _ _ _ _ _ _ _ _). cbn [new_clause]. set (root1 := {| im_ec := im_ec root |}).
  pose proof (ck_heap _ _ _ (iv_class _ _ _ Hi p Hp)) as Hh. pose proof (fun q => get_class_add_derive root1 p q (im_next root) Hh) as Hq.
  assert (eq_clause (get_class root p) c l r) as Hc by (by apply (eq_clause_made _ op)).
  destruct (inv_new all root (add_derive root1 p (im_next root)) D D p c l r) as [Hg Hv]; try done.
  - cbn. by rewrite length_insert.
  - intros q. apply Hq.
  - intros q x. destruct (Hq q) as (_ & -> & _). rewrite elem_of_app. destruct (decide (p = q)) as [->|]; [|intros [H|H]; [by left|by apply not_elem_of_nil in H]].
    rewrite list_elem_of_singleton. intros [H|H]; [by left|by right].
  - by right.
  - apply (dist_same _ root); [apply Hi|done|]. intros id cc Hcc. exists cc. split; [|done]. cbn. rewrite lookup_insert_ne; [done|].
    apply (iv_fresh _ _ _ Hi) in Hcc. lia.
  - split_and!; [done|intros q; by destruct (Hq q) as (_ & _ & ->)|]. exists c. split; [cbn; by rewrite lookup_insert_eq|]. left.
    by apply (eq_clause_same (get_class root p) _ c); [apply Hg| |].
Qed.
Lemma join_set_broken root D p : inv root D -> p ∈ eq_classes (im_ec root) ->
  join_step root D (set_broken root p) /\ ec_broken (get_class (set_broken root p) p) = true.
Proof. intros Hi Hp. by destruct (inv_set_broken all root D p Hi Hp) as (Hg & Hv & Hb). Qed.

(** ** Choosing members *)
Lemma split_members_ok J O I ems : bms_wf J -> bms_wf O -> bms_wf I -> (forall em, em ∈ ems -> bms_wf (em_relids em)) ->
  let '(outer, inner, new) := split_members J O I ems in
  (forall em, em ∈ outer -> em ∈ ems /\ within (bms_val (em_relids em)) (bms_val O)) /\
  (forall em, em ∈ inner -> em ∈ ems /\ within (bms_val (em_relids em)) (bms_val I)) /\
  (forall em, em ∈ outer ++ inner ++ new <-> em ∈ ems /\ within (bms_val (em_relids em)) (bms_val J)) /\
  (NoDup ems -> NoDup (outer ++ inner ++ new)).
Proof.
  intros WJ WO WI. induction ems as [|em ems IH]; intros Wems; cbn [split_members].
  { split_and!; try by intros ? ?%not_elem_of_nil. { intros em. cbn. rewrite elem_of_nil. tauto. } done. }
  assert (bms_wf (em_relids em)) as We by (apply Wems; by left).
  specialize (IH (fun em' H => Wems em' (list_elem_of_further _ _ _ H))). destruct (split_members J O I ems) as [[outer inner] new].
  destruct IH as (Ho & Hi & Ha & Hn). pose proof (subset_within (em_relids em) J We WJ) as SJ. pose proof (subset_within (em_relids em) O We WO) as SO.
  pose proof (subset_within (em_relids em) I We WI) as SI.
  assert (NoDup (em :: ems) -> em ∉ outer ++ inner ++ new) as Hnew by (intros [Hx _]%NoDup_cons [Hin _]%Ha; done).
  destruct (bms_is_subset (em_relids em) J) eqn:EJ; cbn [negb].
  2: { split_and!; [intros e He%Ho; split; [right; apply He|apply He]|intros e He%Hi; split; [right; apply He|apply He]| |intros [_ H]%NoDup_cons; by apply Hn].
       intros e. rewrite Ha, elem_of_cons. assert (~ within (bms_val (em_relids em)) (bms_val J)) by (intros ?%SJ; congruence). naive_solver. }
  assert (within (bms_val (em_relids em)) (bms_val J)) as HJ by (by apply SJ).
  assert (forall e, e ∈ em :: outer ++ inner ++ new <-> e ∈ em :: ems /\ within (bms_val (em_relids e)) (bms_val J)) as Hall.
  { intros e. rewrite !elem_of_cons, Ha. naive_solver. }
  assert (NoDup (em :: ems) -> NoDup (em :: outer ++ inner ++ new)) as Hnd by (intros Hx; constructor; [by apply Hnew|]; apply NoDup_cons in Hx as [_ Hx]; by apply Hn).
  destruct (bms_is_subset (em_relids em) O) eqn:EO; [|destruct (bms_is_subset (em_relids em) I) eqn:EI].
  - split_and!; [intros e [->|He%Ho]%elem_of_cons; [split; [by left|by apply SO]|split; [right; apply He|apply He]]|intros e He%Hi; split; [right; apply He|apply He]|done|done].
  - assert (outer ++ (em :: inner) ++ new ≡ₚ em :: outer ++ inner ++ new) as Hp by (symmetry; apply Permutation_middle).
    split_and!; [intros e He%Ho; split; [right; apply He|apply He]|intros e [->|He%Hi]%elem_of_cons; [split; [by left|by apply SI]|split; [right; apply He|apply He]]|intros e; by rewrite Hp|by rewrite Hp].
  - assert (outer ++ inner ++ em :: new ≡ₚ em :: outer ++ inner ++ new) as Hp by (rewrite !app_assoc; symmetry; apply Permutation_middle).
    split_and!; [intros e He%Ho; split; [right; apply He|apply He]|intros e He%Hi; split; [right; apply He|apply He]|intros e; by rewrite Hp|by rewrite Hp].
Qed.

(** The best pair is a pair of an outer and an inner member with an operator. *)
Definition pair_ok ec (outer inner : list EM) (b : Best) : Prop :=
  match b with Some (o, i, op, _) => o ∈ outer /\ i ∈ inner /\ equates ec op o i | None => True end.
Lemma best_inner_ok ec outer inner o inner_members : o ∈ outer -> (forall i, i ∈ inner_members -> i ∈ inner) ->
  forall best, pair_ok ec outer inner best -> pair_ok ec outer inner (best_inner ec o inner_members best).
Proof.
  intros Ho. induction inner_members as [|i rest IH]; intros Hin best Hb; cbn [best_inner]; [done|].
  assert (forall i, i ∈ rest -> i ∈ inner) as Hin' by (intros; apply Hin; by right).
  destruct (Z.eqb_spec (select_equality_operator ec (em_datatype o) (em_datatype i)) 0) as [|Hop]; [by apply IH|].
  destruct (_ <? _); [|by apply IH]. assert (forall score, pair_ok ec outer inner (Some (o, i, select_equality_operator ec (em_datatype o) (em_datatype i), score))) as Hp.
  { intros score. cbn. split_and!; [done|apply Hin; by left|by apply select_equates]. }
  destruct (_ =? 3); [done|]. by apply IH.
Qed.
Lemma best_outer_ok ec outer inner outer_members : (forall o, o ∈ outer_members -> o ∈ outer) ->
  forall best, pair_ok ec outer inner best -> pair_ok ec outer inner (best_outer ec outer_members inner best).
Proof.
  induction outer_members as [|o rest IH]; intros Hin best Hb; cbn [best_outer]; [done|].
  assert (pair_ok ec outer inner (best_inner ec o inner best)) as Hp by (apply best_inner_ok; [apply Hin; by left|done|done]).
  destruct (_ =? 3); [done|]. apply IH; [|done]. intros; apply Hin; by right.
Qed.

(** Members equal by the clauses [ids]. *)
Definition joined root p (ids : list nat) : EM -> EM -> Prop := rtsc (fun x y => exists id, id ∈ ids /\ equal_clause root p x y id).
Lemma joined_grows root root' p ids ids' x y : grows root root' -> ids ⊆ ids' -> joined root p ids x y -> joined root' p ids' x y.
Proof.
  intros Hg Hs. unfold joined, rtsc. apply rtc_subrel. intros u v. unfold sc.
  intros [(id & Hid & He)|(id & Hid & He)]; [left|right]; (exists id; split; [by apply Hs|by apply (equal_clause_grows root)]).
Qed.
Definition all_equal root p (ids : list nat) : Prop := forall id, id ∈ ids -> exists x y, equal_clause root p x y id.

Lemma chain_clauses_ok p ems : forall root D prev res, inv root D -> p ∈ eq_classes (im_ec root) ->
  NoDup (option_list prev ++ ems) -> (forall em, em ∈ option_list prev ++ ems -> em ∈ ec_members (get_class root p)) ->
  let '(o, root') := chain_clauses root p prev ems res in
  join_step root D root' /\
  match o with
  | None => ec_broken (get_class root' p) = true
  | Some res' => ec_broken (get_class root' p) = ec_broken (get_class root p) /\ exists ids, res' = res ++ ids /\ all_equal root' p ids /\
      forall x y, x ∈ option_list prev ++ ems -> y ∈ option_list prev ++ ems -> joined root' p ids x y
  end.
Proof.
  induction ems as [|cur ems IH]; intros root D prev res Hi Hp Hnd Hin; cbn [chain_clauses].
  { split; [by apply join_step_refl|]. split; [done|]. exists []. rewrite app_nil_r in *. split_and!; [done|by intros id ?%not_elem_of_nil|].
    destruct prev as [q|]; cbn; [|by intros x y ?%not_elem_of_nil]. intros x y ->%list_elem_of_singleton ->%list_elem_of_singleton. apply rtc_refl. }
  destruct prev as [prev|]; cbn [option_list app] in *.
  2: { exact (IH root D (Some cur) res Hi Hp Hnd Hin). }
  destruct (Z.eqb_spec (select_equality_operator (get_class root p) (em_datatype prev) (em_datatype cur)) 0) as [|Hop].
  { by apply join_set_broken. }
  apply NoDup_cons in Hnd as [Hnot Hnd]. assert (prev ∈ ec_members (get_class root p)) as Hpin by (apply Hin; by left).
  assert (cur ∈ ec_members (get_class root p)) as Hcin by (apply Hin; right; by left).
  pose proof (create_join_clause_ok root D p _ prev cur None Hi Hp Hpin Hcin ltac:(intros ->; apply Hnot; by left) (select_equates _ _ _ Hop)) as Hcr.
  destruct (create_join_clause root p _ prev cur None) as [id root1]. destruct Hcr as (Hs & Hb & He). pose proof (js_grows _ _ _ Hs) as Hg.
  specialize (IH root1 D (Some cur) (res ++ [id]) (js_inv _ _ _ Hs)). cbn [option_list app] in IH.
  rewrite (gr_classes _ _ Hg), (sm_members _ _ (gr_class _ _ Hg p)) in IH. specialize (IH Hp Hnd ltac:(intros; apply Hin; by right)).
  destruct (chain_clauses root1 p (Some cur) ems (res ++ [id])) as [o root']. destruct IH as [Hs' IH]. split; [by eapply join_step_trans|].
  destruct o as [res'|]; [|done]. destruct IH as (Hb' & ids & -> & Hall & Hj). split; [by rewrite Hb'|]. exists (id :: ids).
  assert (equal_clause root' p prev cur id) as He' by (apply (equal_clause_grows root1); [apply Hs'|done]).
  split_and!; [by rewrite <- app_assoc|intros x [->|Hx]%elem_of_cons; [by exists prev, cur|by apply Hall]|].
  assert (forall x, x ∈ prev :: cur :: ems -> joined root' p (id :: ids) x cur) as Hx.
  { intros x [->|Hx]%elem_of_cons; [apply rtsc_lr; exists id; split; [by left|done]|].
    apply (joined_grows root' root' p ids); [done|by apply list_subseteq_cons|]. apply Hj; [done|by left]. }
  intros x y H1%Hx H2%Hx. unfold joined in *. by rewrite H1, H2.
Qed.

(** Members equal by the clauses [ids] once the inputs make their members equal. *)
Definition bridged root p (ids : list nat) (O I : Z) : EM -> EM -> Prop :=
  rtsc (fun x y => (exists id, id ∈ ids /\ equal_clause root p x y id) \/
    (x ∈ ec_members (get_class root p) /\ y ∈ ec_members (get_class root p) /\
      ((within (bms_val (em_relids x)) O /\ within (bms_val (em_relids y)) O) \/ (within (bms_val (em_relids x)) I /\ within (bms_val (em_relids y)) I)))).
Lemma joined_bridged root p ids O I x y : joined root p ids x y -> bridged root p ids O I x y.
Proof. unfold joined, bridged, rtsc. apply rtc_subrel. intros u v. unfold sc. tauto. Qed.
Lemma bridged_grows root root' p ids ids' O I x y : grows root root' -> ids ⊆ ids' -> bridged root p ids O I x y -> bridged root' p ids' O I x y.
Proof.
  intros Hg Hs. unfold bridged, rtsc. apply rtc_subrel. intros u v. unfold sc. rewrite (sm_members _ _ (gr_class _ _ Hg p)).
  intros [[(id & Hid & He)|H]|[(id & Hid & He)|H]]; [left; left|tauto|right; left|tauto]; (exists id; split; [by apply Hs|by apply (equal_clause_grows root)]).
Qed.
Lemma all_equal_grows root root' p ids : grows root root' -> all_equal root p ids -> all_equal root' p ids.
Proof. intros Hg H id (x & y & He)%H. exists x, y. by apply (equal_clause_grows root). Qed.
Lemma all_equal_app root p ids ids' : all_equal root p ids -> all_equal root p ids' -> all_equal root p (ids ++ ids').
Proof. intros H1 H2 id [H|H]%elem_of_app; auto. Qed.

Lemma bridged_side root root' p ids O I side x y : grows root root' -> side = O \/ side = I ->
  x ∈ ec_members (get_class root p) -> y ∈ ec_members (get_class root p) -> within (bms_val (em_relids x)) side -> within (bms_val (em_relids y)) side ->
  bridged root' p ids O I x y.
Proof.
  intros Hg Hs Hx Hy Wx Wy. apply rtsc_lr. right. rewrite (sm_members _ _ (gr_class _ _ Hg p)). split_and!; [done|done|].
  destruct Hs as [->| ->]; [by left|by right].
Qed.
(** The clause between the two inputs. *)
Lemma between_ok root D p O I outer inner : inv root D -> p ∈ eq_classes (im_ec root) ->
  (forall em, em ∈ outer ++ inner -> em ∈ ec_members (get_class root p)) -> NoDup (outer ++ inner) ->
  (forall em, em ∈ outer -> within (bms_val (em_relids em)) O) -> (forall em, em ∈ inner -> within (bms_val (em_relids em)) I) ->
  let '(o, root') := match outer, inner with
    | _ :: _, _ :: _ =>
        match best_outer (get_class root p) outer inner None with
        | None => (None, set_broken root p)
        | Some (best_outer_em, best_inner_em, best_eq_op, _) =>
            let '(rinfo, root) := create_join_clause root p best_eq_op best_outer_em best_inner_em (Some p) in
            (Some [rinfo], root)
        end
    | _, _ => (Some [], root)
    end in
  join_step root D root' /\
  match o with
  | None => ec_broken (get_class root' p) = true
  | Some ids => ec_broken (get_class root' p) = ec_broken (get_class root p) /\ all_equal root' p ids /\
      forall x y, x ∈ outer ++ inner -> y ∈ outer ++ inner -> bridged root' p ids O I x y
  end.
Proof.
  intros Hi Hp Hmem Hnd HO HI.
  assert (forall root' ids x y, grows root root' -> x ∈ outer -> y ∈ outer -> bridged root' p ids O I x y) as bridged_outer.
  { intros root' ids x y Hg Hx Hy. apply (bridged_side root root' p ids O I O); [done|by left|apply Hmem, elem_of_app; by left..|by apply HO|by apply HO]. }
  assert (forall root' ids x y, grows root root' -> x ∈ inner -> y ∈ inner -> bridged root' p ids O I x y) as bridged_inner.
  { intros root' ids x y Hg Hx Hy. apply (bridged_side root root' p ids O I I); [done|by right|apply Hmem, elem_of_app; by right..|by apply HI|by apply HI]. }
  assert (inner = [] \/ outer = [] -> forall x y, x ∈ outer ++ inner -> y ∈ outer ++ inner -> bridged root p [] O I x y) as Hone.
  { intros H x y. rewrite !elem_of_app. intros Hx Hy.
    destruct H as [E|E]; rewrite E, elem_of_nil in Hx, Hy; [apply bridged_outer|apply bridged_inner]; done || tauto. }
  assert (join_step root D root /\ (inner = [] \/ outer = [] -> ec_broken (get_class root p) = ec_broken (get_class root p) /\ all_equal root p [] /\
      forall x y, x ∈ outer ++ inner -> y ∈ outer ++ inner -> bridged root p [] O I x y)) as [Hs0 H0].
  { split; [by apply join_step_refl|]. intros H. split_and!; [done|by intros id ?%not_elem_of_nil|by apply Hone]. }
  pose proof (best_outer_ok (get_class root p) outer inner outer (fun o H => H) None Logic.I) as Hbest. revert Hbest H0.
  destruct outer as [|o0 outer0] eqn:Eo; [intros _ H0; split; [done|apply H0; by right]|].
  destruct inner as [|i0 inner0] eqn:Ei; [intros _ H0; split; [done|apply H0; by left]|]. rewrite <- Eo, <- Ei in *.
  destruct (best_outer _ outer inner None) as [[[[a b] op] score]|]; [|intros _ _; by apply join_set_broken].
  intros (Ha & Hb & Hop) _. assert (a <> b) as Hab by (intros ->; apply NoDup_app in Hnd as (_ & H & _); by apply (H b)).
  pose proof (create_join_clause_ok root D p op a b (Some p) Hi Hp (Hmem a ltac:(apply elem_of_app; by left)) (Hmem b ltac:(apply elem_of_app; by right)) Hab Hop) as Hcr.
  destruct (create_join_clause root p op a b (Some p)) as [id root1]. destruct Hcr as (Hs & Hbr & He). pose proof (js_grows _ _ _ Hs) as Hg.
  split; [done|]. split_and!; [done|by intros x ->%list_elem_of_singleton; exists a, b|].
  assert (bridged root1 p [id] O I a b) as Hbab by (apply rtsc_lr; left; exists id; split; [by left|done]).
  assert (forall x, x ∈ outer ++ inner -> bridged root1 p [id] O I x a) as Hx.
  { intros x [Hx|Hx]%elem_of_app; [by apply bridged_outer|]. pose proof (bridged_inner root1 [id] x b Hg Hx Hb) as H1. unfold bridged in *. by rewrite H1, Hbab. }
  intros x y H1%Hx H2%Hx. unfold bridged in *. by rewrite H1, H2.
Qed.

Lemma normal_ok root D p J O I : inv root D -> p ∈ eq_classes (im_ec root) -> bms_wf J -> bms_wf O -> bms_wf I ->
  let '(ids, root') := generate_join_implied_equalities_normal root p J O I in
  join_step root D root' /\
  (ec_broken (get_class root' p) = true \/
   ec_broken (get_class root' p) = ec_broken (get_class root p) /\ all_equal root' p ids /\
   forall x y, x ∈ ec_members (get_class root p) -> y ∈ ec_members (get_class root p) -> within (bms_val (em_relids x)) (bms_val J) ->
     within (bms_val (em_relids y)) (bms_val J) -> bridged root' p ids (bms_val O) (bms_val I) x y).
Proof.
  intros Hi Hp WJ WO WI. unfold generate_join_implied_equalities_normal. pose proof (ck_ec _ _ _ (iv_class _ _ _ Hi p Hp)) as Hok.
  pose proof (split_members_ok J O I (ec_members (get_class root p)) WJ WO WI (fun em H => proj1 (ck_wf _ _ _ _ Hok em H))) as Hsplit.
  destruct (split_members J O I (ec_members (get_class root p))) as [[outer inner] new]. destruct Hsplit as (Ho & Hin & Hall & Hnd).
  specialize (Hnd (ck_nodup _ _ _ _ Hok)). rewrite app_assoc in Hnd. setoid_rewrite app_assoc in Hall.
  pose proof (between_ok root D p (bms_val O) (bms_val I) outer inner Hi Hp) as Hbt.
  specialize (Hbt ltac:(intros em H; apply Hall, elem_of_app; by left) ltac:(by apply NoDup_app in Hnd as (? & _)) ltac:(intros; by apply Ho) ltac:(intros; by apply Hin)).
  destruct (match outer, inner with _ :: _, _ :: _ => _ | _, _ => _ end) as [o root1]. destruct Hbt as [Hs1 Hbt].
  destruct o as [ids1|]; [|split; [done|by left]]. destruct Hbt as (Hb1 & Ha1 & Hbr1).
  destruct new as [|n0 new0].
  { split; [done|right]. split_and!; [done|done|]. rewrite app_nil_r in Hall. intros x y Hx Hy Wx Wy. apply Hbr1; apply Hall; done. }
  remember (n0 :: new0) as new eqn:En. pose proof (js_grows _ _ _ Hs1) as Hg1.
  set (news := match outer ++ inner with [] => new | em :: _ => new ++ [em] end).
  assert (NoDup news /\ (forall em, em ∈ news -> em ∈ (outer ++ inner) ++ new) /\ new ⊆ news /\ (forall u, u ∈ outer ++ inner -> exists v, v ∈ outer ++ inner /\ v ∈ news)) as (Hnn & Hsub & Hsup & Hlink).
  { subst news. destruct (outer ++ inner) as [|em rest] eqn:E.
    - split_and!; [done|done|done|by intros u ?%not_elem_of_nil].
    - assert (NoDup (em :: new)) as Hnd' by (apply NoDup_app in Hnd as (_ & H1 & H2); constructor; [apply H1; by left|done]).
      split_and!; [by rewrite (Permutation_app_comm new [em])| |by intros x Hx; apply elem_of_app; left|].
      + intros x [Hx| ->%list_elem_of_singleton]%elem_of_app; apply elem_of_app; [by right|left; by left].
      + intros u _. exists em. split; [by left|]. apply elem_of_app. right. by left. }
  pose proof (chain_clauses_ok p news root1 D None ids1 (js_inv _ _ _ Hs1)) as Hch. cbn [option_list app] in Hch.
  rewrite (gr_classes _ _ Hg1), (sm_members _ _ (gr_class _ _ Hg1 p)) in Hch. specialize (Hch Hp Hnn ltac:(intros em H%Hsub; by apply Hall)).
  destruct (chain_clauses root1 p None news ids1) as [o root2]. destruct Hch as [Hs2 Hch]. pose proof (js_grows _ _ _ Hs2) as Hg2.
  destruct o as [res|]; (split; [by eapply join_step_trans|]); [right|by left].
  destruct Hch as (Hb2 & ids2 & -> & Ha2 & Hj2). split_and!; [by rewrite Hb2|apply all_equal_app; [by apply (all_equal_grows root1)|done]|].
  assert (forall x y, x ∈ outer ++ inner -> y ∈ outer ++ inner -> bridged root2 p (ids1 ++ ids2) (bms_val O) (bms_val I) x y) as B1.
  { intros x y Hx Hy. apply (bridged_grows root1 _ p ids1); [done|by intros z Hz; apply elem_of_app; left|]. by apply Hbr1. }
  assert (forall x y, x ∈ news -> y ∈ news -> bridged root2 p (ids1 ++ ids2) (bms_val O) (bms_val I) x y) as B2.
  { intros x y Hx Hy. apply (bridged_grows root2 _ p ids2); [done|by intros z Hz; apply elem_of_app; right|]. apply joined_bridged. by apply Hj2. }
  assert (forall x, x ∈ (outer ++ inner) ++ new -> bridged root2 p (ids1 ++ ids2) (bms_val O) (bms_val I) x n0) as B3.
  { assert (n0 ∈ news) as Hn0 by (apply Hsup; rewrite En; by left). intros x [Hx|Hx]%elem_of_app; [|apply B2; [by apply Hsup|done]].
    destruct (Hlink x Hx) as (v & Hv & Hv'). pose proof (B1 x v Hx Hv) as H1. pose proof (B2 v n0 Hv' Hn0) as H2. unfold bridged in *. by rewrite H1, H2. }
  intros x y Hx Hy Wx Wy. pose proof (B3 x ltac:(by apply Hall)) as H1. pose proof (B3 y ltac:(by apply Hall)) as H2. unfold bridged in *. by rewrite H1, H2.
Qed.
End Joins.
