(* ===== verification/ImpliedThms.v ===== *)
(** * A plan enforces the equalities of the query

    A row satisfies the clauses checked by the scans and joins of a plan exactly if it satisfies the equalities that the
    equivalence classes absorbed and the clauses distributed beforehand, whatever joins the search has
    tried in between and whatever operators the families lack.  The queries have inner joins only. *)
From stdpp Require Import gmap.
From S2P Require Import Prelude Bitmapset BitmapsetSpec BitmapsetIter EquivClass EquivClassProps PathKeys JoinRels JoinLinks ImpliedEq ImpliedEqProps ImpliedScan ImpliedJoin.
#[local] Open Scope Z_scope.

Section Enforce.
Context {Expr : Type} `{!ExprOps Expr} `{!OpFamilies Expr}.
#[local] Abbreviation EM := (EquivalenceMember Expr).
#[local] Abbreviation Root := (ImpliedRoot (Expr := Expr)).
Implicit Types (root : Root) (p id : nat) (em l r : EM).
Context (all : Z).
#[local] Abbreviation inv := (inv all).
#[local] Abbreviation join_step := (join_step all).

(** ** Rows *)

(** Of a row: [sat] tells which clauses are true, [eqv p] compares values by the semantics of class [p]
    (not reflexive, as NULL equals nothing).  All operators that the families of a class give for the types
    of two members test that equality, and folding a clause to TRUE is right. *)
Record row_ok root (sat : ClauseNode (Expr := Expr) -> Prop) (eqv : nat -> Expr -> Expr -> Prop) : Prop := {
  ro_sym p x y : eqv p x y -> eqv p y x;
  ro_trans p x y z : eqv p x y -> eqv p y z -> eqv p x z;
  ro_law p l r op : p ∈ eq_classes (im_ec root) -> l ∈ ec_members (get_class root p) -> r ∈ ec_members (get_class root p) ->
    equates (get_class root p) op l r -> sat (make_opclause op (ec_collation (get_class root p)) (em_expr l) (em_expr r)) <-> eqv p (em_expr l) (em_expr r);
  ro_relabel op coll x x' y y' : relabels x x' -> relabels y y' -> sat (make_opclause op coll x' y') <-> sat (make_opclause op coll x y);
  ro_fold op coll x y : folds_to_true op coll x y = true -> sat (make_opclause op coll x y)
}.
Lemma row_ok_grows root root' sat eqv : grows root root' -> row_ok root' sat eqv <-> row_ok root sat eqv.
Proof.
  intros Hg. split; intros [S Tr L Rl F]; (split; [done|done| |done|done]); intros p l r op; specialize (L p l r op); destruct (gr_class _ _ Hg p) as [Ef Ec Em _ _ _ _];
    unfold equates in *; rewrite (gr_classes _ _ Hg), Em, Ef, Ec in *; exact L.
Qed.
(** The row satisfies clause [id]. *)
Definition true_in (sat : ClauseNode (Expr := Expr) -> Prop) root id : Prop :=
  exists c, im_clauses root !! id = Some c /\ sat (rc_clause c).

Section Row.
Context (sat : ClauseNode (Expr := Expr) -> Prop) (eqv : nat -> Expr -> Expr -> Prop) (T : nat -> Prop).
Definition agrees root : Prop := forall id c, im_clauses root !! id = Some c -> T id <-> sat (rc_clause c).
Lemma agrees_grows root root' : grows root root' -> agrees root' -> agrees root.
Proof. intros Hg Ha id c (c' & Hc' & [El _])%(gr_clause _ _ Hg). rewrite (Ha id c' Hc'), El. done. Qed.

(** Clause [id] equates members of some class. *)
Definition class_clause root id : Prop :=
  exists p c l r, p ∈ eq_classes (im_ec root) /\ im_clauses root !! id = Some c /\ eq_clause (get_class root p) c l r.
Lemma class_clause_grows root root' id : grows root root' -> class_clause root id -> class_clause root' id.
Proof.
  intros Hg (p & c & l & r & Hp & (c' & Hc' & Sc)%(gr_clause _ _ Hg) & He). exists p, c', l, r. rewrite (gr_classes _ _ Hg).
  split_and!; [done|done|]. by apply (eq_clause_same (get_class root p) _ c); [apply Hg| |].
Qed.

Definition same_value p l r : Prop := l = r \/ eqv p (em_expr l) (em_expr r).
Definition equal_on root p (x : Z) : Prop :=
  forall l r, l ∈ ec_members (get_class root p) -> r ∈ ec_members (get_class root p) ->
    within (bms_val (em_relids l)) x -> within (bms_val (em_relids r)) x -> same_value p l r.
Definition sources_on root p (x : Z) : Prop := forall id, id ∈ ec_sources (get_class root p) -> within (required_val root id) x -> T id.
(** What relation [x] knows of class [p]. *)
Definition class_holds root p (x : Z) : Prop := (ec_broken (get_class root p) = false -> equal_on root p x) /\ sources_on root p x.

Section Truth.
Context (root : Root) (p : nat) (Hrow : row_ok root sat eqv) (Hag : agrees root) (Hp : p ∈ eq_classes (im_ec root)).
Lemma clause_truth id c l r : im_clauses root !! id = Some c -> eq_clause (get_class root p) c l r -> T id <-> eqv p (em_expr l) (em_expr r).
Proof.
  intros Hc [Hl Hr _ (op & Ec & Ek & El & Er & Ho)]. rewrite (Hag id c Hc), Ec. transitivity (sat (make_opclause (opno op) (inputcollid op) (em_expr l) (em_expr r))).
  - destruct op. symmetry. by apply (ro_relabel _ _ _ Hrow).
  - rewrite Ek. by apply (ro_law _ _ _ Hrow).
Qed.
Lemma equal_clause_truth id l r : equal_clause root p l r id -> T id -> eqv p (em_expr l) (em_expr r).
Proof.
  intros (c & Hc & [He|He]) HT; apply (clause_truth id c _ _ Hc He) in HT; [done|]. by apply (ro_sym _ _ _ Hrow).
Qed.
Lemma same_value_closed (R : EM -> EM -> Prop) x y : (forall x y, R x y -> same_value p x y) -> rtsc R x y -> same_value p x y.
Proof.
  intros HR. assert (forall x y, sc R x y -> same_value p x y) as Hsc.
  { intros u v [H%HR|H%HR]; [done|]. destruct H as [->|H]; [by left|right; by apply (ro_sym _ _ _ Hrow)]. }
  unfold rtsc. induction 1 as [|x y z H _ IH]; [by left|]. apply Hsc in H as [->|H]; [done|]. destruct IH as [->|IH]; right; [done|].
  by apply (ro_trans _ _ _ Hrow _ _ (em_expr y)).
Qed.
Lemma equal_sources D x : inv root D -> equal_on root p x -> sources_on root p x.
Proof.
  intros Hi He id Hid Hw. destruct (ck_source _ _ _ _ (ck_ec _ _ _ (iv_class _ _ _ Hi p Hp)) id Hid) as (c & l & r & Hc & Hec & _ & Hv & _).
  assert (within (both (em_relids l) (em_relids r)) x) as [Wl Wr]%within_lor_l.
  { destruct (decide (both (em_relids l) (em_relids r) = 0)) as [->|Hb]; [done|]. rewrite <- (Hv Hb). unfold required_val, clause_required in Hw. by rewrite Hc in Hw. }
  apply (clause_truth id c l r Hc Hec). destruct (He l r (eq_left_in _ _ _ _ Hec) (eq_right_in _ _ _ _ Hec) Wl Wr) as [->|H]; [|done].
  by destruct (eq_distinct _ _ _ _ Hec).
Qed.
End Truth.

Lemma class_holds_grows root D root' p x : inv root D -> p ∈ eq_classes (im_ec root) -> grows root root' -> class_holds root p x -> class_holds root' p x.
Proof.
  intros Hi Hp Hg [He Hs]. destruct (gr_class _ _ Hg p) as [_ _ Em Es _ _ Eb]. split.
  - intros Hb. unfold equal_on. rewrite Em. apply He. destruct (ec_broken (get_class root p)); [by rewrite Eb in Hb|done].
  - intros id. rewrite Es. intros Hid. rewrite (required_val_source all root D root' p id Hi Hp Hid Hg). by apply Hs.
Qed.

(** ** Joins *)
Section Join.
Context (J O I : bitmapset) (WJ : bms_wf J) (WO : bms_wf O) (WI : bms_wf I).
#[local] Abbreviation VJ := (bms_val J).
#[local] Abbreviation VO := (bms_val O).
#[local] Abbreviation VI := (bms_val I).

(** The step from the inputs to the join for one class. *)
Definition class_joined root root' (ids : list nat) p : Prop :=
  row_ok root' sat eqv -> agrees root' -> (forall id, id ∈ ids -> T id) -> class_holds root p VO -> class_holds root p VI -> class_holds root' p VJ.

Lemma broken_sources root D p : inv root D -> p ∈ eq_classes (im_ec root) ->
  (forall id, id ∈ generate_join_implied_equalities_broken root p J O I -> T id) -> sources_on root p VO -> sources_on root p VI -> sources_on root p VJ.
Proof.
  intros Hi Hp HT HO HI id Hid Hw. destruct (ck_source _ _ _ _ (ck_ec _ _ _ (iv_class _ _ _ Hi p Hp)) id Hid) as (c & _ & _ & Hc & _ & Wc & _).
  assert (bms_wf (clause_required root id)) as Wr by (unfold clause_required; by rewrite Hc).
  destruct (bms_is_subset (clause_required root id) O) eqn:EO; [apply HO; [done|]; by apply subset_within in EO|].
  destruct (bms_is_subset (clause_required root id) I) eqn:EI; [apply HI; [done|]; by apply subset_within in EI|].
  apply HT. unfold generate_join_implied_equalities_broken. apply list_elem_of_In, List.filter_In. split; [by apply list_elem_of_In|].
  rewrite EO, EI. cbn [negb]. rewrite !andb_true_r. by apply subset_within.
Qed.

Lemma join_one_class_ok root D p : inv root D -> p ∈ eq_classes (im_ec root) ->
  let '(ids, root') := join_one_class root p J O I in
  join_step root D root' /\ (forall id, id ∈ ids -> class_clause root' id) /\
  (ec_has_const (get_class root p) = false -> class_joined root root' ids p).
Proof.
  intros Hi Hp. unfold join_one_class. destruct (ec_has_const (get_class root p)).
  { split_and!; [by apply join_step_refl|by intros id ?%not_elem_of_nil|done]. }
  destruct (Nat.leb_spec (length (ec_members (get_class root p))) 1) as [Hle|Hlt].
  { split_and!; [by apply join_step_refl|by intros id ?%not_elem_of_nil|]. intros _ Hrow Hag _ [HO _] _.
    assert (equal_on root p VJ) as He; [|split; [done|by apply (equal_sources root p Hrow Hag Hp D)]].
    intros l r Hl Hr _ _. left. destruct (ec_members (get_class root p)) as [|a [|b rest]]; [by apply not_elem_of_nil in Hl| |cbn in Hle; lia].
    by apply list_elem_of_singleton in Hl as ->, Hr as ->. }
  assert (forall root1, join_step root D root1 -> ec_broken (get_class root1 p) = true ->
    let ids := generate_join_implied_equalities_broken root1 p J O I in
    join_step root D root1 /\ (forall id, id ∈ ids -> class_clause root1 id) /\ class_joined root root1 ids p) as Hbroken.
  { intros root1 Hs Hb ids. pose proof (js_inv _ _ _ _ Hs) as Hi1. pose proof (js_grows _ _ _ _ Hs) as Hg.
    assert (p ∈ eq_classes (im_ec root1)) as Hp1 by (by rewrite (gr_classes _ _ Hg)). split_and!; [done| |].
    - intros id Hid%list_elem_of_In. apply List.filter_In in Hid as [Hid%list_elem_of_In _].
      destruct (ck_source _ _ _ _ (ck_ec _ _ _ (iv_class _ _ _ Hi1 p Hp1)) id Hid) as (c & l & r & Hc & Hec & _). by exists p, c, l, r.
    - intros Hrow Hag HT HO HI. split; [by rewrite Hb|].
      apply (class_holds_grows root D root1) in HO as [_ HO]; [|done..]. apply (class_holds_grows root D root1) in HI as [_ HI]; [|done..].
      by apply (broken_sources root1 D). }
  destruct (ec_broken (get_class root p)) eqn:Eb; cbn [negb].
  { rewrite Eb. destruct (Hbroken root (join_step_refl _ _ _ Hi) Eb) as (H1 & H2 & H3). by split_and!. }
  pose proof (normal_ok all root D p J O I Hi Hp WJ WO WI) as Hn. destruct (generate_join_implied_equalities_normal root p J O I) as [ids root1].
  destruct Hn as [Hs Hn]. pose proof (js_grows _ _ _ _ Hs) as Hg. destruct (ec_broken (get_class root1 p)) eqn:Eb1.
  { destruct (Hbroken root1 Hs Eb1) as (H1 & H2 & H3). by split_and!. }
  destruct Hn as [|(_ & Hall & Hbr)]; [done|]. assert (p ∈ eq_classes (im_ec root1)) as Hp1 by (by rewrite (gr_classes _ _ Hg)).
  split_and!; [done| |].
  - intros id (x & y & c & Hc & [He|He])%Hall; [by exists p, c, x, y|by exists p, c, y, x].
  - intros _ Hrow Hag HT [HO _] [HI _]. assert (equal_on root1 p VJ) as He; [|split; [done|apply (equal_sources root1 p Hrow Hag Hp1 D); [apply Hs|done]]].
    intros l r. rewrite (sm_members _ _ (gr_class _ _ Hg p)). intros Hl Hr Wl Wr. eapply (same_value_closed root1 p Hrow); [|by apply (Hbr l r)].
    intros x y [(id & Hid & Hc)|(Hx & Hy & Hside)]; [right; apply (equal_clause_truth root1 p Hrow Hag Hp1 id); auto|].
    rewrite (sm_members _ _ (gr_class _ _ Hg p)) in Hx, Hy. destruct Hside as [[W1 W2]|[W1 W2]]; [by apply (HO Eb)|by apply (HI Eb)].
Qed.

Lemma join_classes_ok ecs D : bms_wf ecs -> forall fuel root i res, inv root D ->
  (forall k, 0 <= k -> bms_mem ecs k = true -> (Z.to_nat k < length (eq_classes (im_ec root)))%nat) ->
  -1 <= i -> bms_capacity ecs - i <= Z.of_nat fuel -> (0 < fuel)%nat ->
  exists ids root', join_classes fuel root ecs i J O I res = Ok (res ++ ids, root') /\ join_step root D root' /\
    (forall id, id ∈ ids -> class_clause root' id) /\
    forall k p, i < k -> bms_mem ecs k = true -> eq_classes (im_ec root) !! Z.to_nat k = Some p -> ec_has_const (get_class root p) = false ->
      class_joined root root' ids p.
Proof.
  intros Hw. induction fuel as [|fuel IH]; intros root i res Hi Hin Hlo Hcap Hf; [lia|]. cbn [join_classes].
  destruct (next_member_next_of ecs i Hw Hlo) as [[-> Hnone]|(Hlt & Hm & Hbelow)].
  { exists [], root. rewrite app_nil_r. split_and!; [done|by apply join_step_refl|by intros id ?%not_elem_of_nil|].
    intros k p Hk Hmk. by rewrite Hnone in Hmk. }
  set (k := next_member ecs i) in *.
  assert (k < bms_capacity ecs) as Hkc by (destruct (Z_lt_ge_dec k (bms_capacity ecs)); [done|]; rewrite bms_mem_capacity in Hm by (done || lia); done).
  destruct (Z.leb_spec 0 k); [|lia]. destruct (lookup_lt_is_Some_2 (eq_classes (im_ec root)) (Z.to_nat k)) as [p Hp]; [by apply Hin|].
  rewrite (array_get_Z _ k p ltac:(lia) Hp). cbn [mbind result_bind]. pose proof (list_elem_of_lookup_2 _ _ _ Hp) as Hpin.
  pose proof (join_one_class_ok root D p Hi Hpin) as Hone. destruct (join_one_class root p J O I) as [ids1 root1]. destruct Hone as (Hs1 & Hc1 & Hj1).
  pose proof (js_grows _ _ _ _ Hs1) as Hg1. pose proof (js_inv _ _ _ _ Hs1) as Hi1.
  destruct (IH root1 k (res ++ ids1) Hi1) as (ids2 & root' & -> & Hs2 & Hc2 & Hj2); [by rewrite (gr_classes _ _ Hg1)|lia|lia|lia|].
  pose proof (js_grows _ _ _ _ Hs2) as Hg2. exists (ids1 ++ ids2), root'. split_and!; [by rewrite app_assoc|by eapply join_step_trans| |].
  - intros id [H'%Hc1|H'%Hc2]%elem_of_app; [by apply (class_clause_grows root1)|done].
  - intros k' q Hk' Hmk Hq Hnc Hrow Hag HT HO HI.
    assert (forall id, id ∈ ids1 -> T id) as HT1 by (intros; apply HT, elem_of_app; by left).
    assert (forall id, id ∈ ids2 -> T id) as HT2 by (intros; apply HT, elem_of_app; by right).
    pose proof (list_elem_of_lookup_2 _ _ _ Hq) as Hqin. assert (q ∈ eq_classes (im_ec root1)) as Hqin1 by (by rewrite (gr_classes _ _ Hg1)).
    destruct (Z.lt_trichotomy k' k) as [Hlt'|[->|Hgt]].
    + by rewrite Hbelow in Hmk by lia.
    + rewrite Hp in Hq. injection Hq as <-. apply (class_holds_grows root1 D root'); [done..|].
      apply Hj1; [done|by apply (row_ok_grows root1 root')|by apply (agrees_grows root1 root')|done|done|done].
    + apply (Hj2 k' q); [done|done|by rewrite (gr_classes _ _ Hg1)|by rewrite (sm_const _ _ (gr_class _ _ Hg1 q))|done|done|done|..];
        by apply (class_holds_grows root D root1).
Qed.

(** A class that one input does not mention gains nothing from it. *)
Lemma within_unmatched z x y w : within z (Z.lor x y) -> within z w -> ~ meets w y -> within z x.
Proof.
  rewrite !within_bits, meets_bits. intros H1 H2 Hn b Hb Hz. specialize (H1 b Hb Hz). rewrite Z.lor_spec, orb_true_iff in H1.
  destruct H1 as [H1|H1]; [done|]. destruct Hn. exists b. auto.
Qed.
Lemma class_unmatched root D p x y : inv root D -> p ∈ eq_classes (im_ec root) -> ec_has_const (get_class root p) = false -> ~ meets (class_bits root p) y ->
  class_holds root p x -> class_holds root p (Z.lor x y).
Proof.
  intros Hi Hp Hnc Hn [He Hs]. pose proof (ck_ec _ _ _ (iv_class _ _ _ Hi p Hp)) as Hok.
  assert (forall em, em ∈ ec_members (get_class root p) -> within (bms_val (em_relids em)) (class_bits root p)) as Hem.
  { intros em Hem. apply within_bits. intros b Hb Ht. apply (ck_class _ _ _ _ Hok b Hb). by exists em. }
  split.
  - intros Hb l r Hl Hr Wl Wr. apply (He Hb l r Hl Hr); apply (within_unmatched _ x y (class_bits root p)); auto.
  - intros id Hid Hw. apply (Hs id Hid). apply (within_unmatched _ x y (class_bits root p)); [done| |done].
    destruct (ck_source _ _ _ _ Hok id Hid) as (c & l & r & Hc & Hec & _ & Hv & _). unfold required_val, clause_required. rewrite Hc, Hv. { apply within_lor_l. split; apply Hem; apply Hec. }
    intros [E _]%Z.lor_eq_0_iff. apply (ck_const _ _ _ _ Hok l (eq_left_in _ _ _ _ Hec)) in E.
    rewrite (proj2 (ck_has_const _ _ _ _ Hok)) in Hnc; [done|]. exists l. split; [apply Hec|done].
Qed.

Lemma generate_join_ok root D : inv root D -> eclasses_ok (im_ec root) all -> within VO all -> within VI all ->
  exists ids root', generate_join_implied_equalities root J O I false = Ok (ids, root') /\ join_step root D root' /\
    (forall id, id ∈ ids -> class_clause root' id) /\
    (VJ = Z.lor VO VI -> forall p, p ∈ eq_classes (im_ec root) -> ec_has_const (get_class root p) = false -> class_joined root root' ids p).
Proof.
  intros Hi Hec AO AI. unfold generate_join_implied_equalities.
  destruct (get_common_eclass_indexes_ok (im_ec root) all Hec I O WI WO AI AO) as (ecs & -> & Wecs & Hecs). cbn [mbind result_bind].
  assert (0 <= bms_capacity ecs) as Hc by (destruct ecs; unfold bms_capacity, nwords; lia).
  destruct (join_classes_ok ecs D Wecs (S (S (Z.to_nat (bms_capacity ecs)))) root (-1) [] Hi) as (ids & root' & -> & Hs & Hcl & Hj); [|lia|lia|lia|].
  { intros k Hk (p & Hp & _)%Hecs; [|done]. by apply lookup_lt_Some in Hp. }
  exists ids, root'. split_and!; [done|done|done|]. intros EJ p Hp Hnc Hrow Hag HT HO HI.
  assert (forall x y, ~ meets (class_bits root p) y -> class_holds root p x -> class_holds root' p (Z.lor x y)) as Hun.
  { intros x y Hn Hx. apply (class_holds_grows root D root'); [done|done|apply Hs|]. by apply (class_unmatched root D). }
  rewrite EJ. destruct (decide (Z.land (class_bits root p) VI = 0)) as [E|NI]; [apply Hun; [intros Hm; by apply Hm|done]|].
  destruct (decide (Z.land (class_bits root p) VO = 0)) as [E|NO]; [rewrite Z.lor_comm; apply Hun; [intros Hm; by apply Hm|done]|].
  rewrite <- EJ. apply list_elem_of_lookup in Hp as [k Hk]. apply (Hj (Z.of_nat k) p); [lia| |by rewrite Nat2Z.id|done..].
  apply Hecs; [lia|]. exists p. rewrite Nat2Z.id. by split_and!.
Qed.
End Join.
End Row.

(** ** Plans *)

(** The entry of clause [id] in a [joininfo] list. *)
Definition clause_marks root id : ClauseMarks := match im_clauses root !! id with Some c => rc_marks c | None => plain_marks end.
Definition join_clause root id : JoinClause :=
  {| jc_ptr := id; required_relids := clause_required root id; has_clone := mk_has_clone (clause_marks root id);
     is_clone := mk_is_clone (clause_marks root id); incompatible_relids := mk_incompatible (clause_marks root id) |}.

(** The relations of a plan, in any state of the join search after [generate_base_implied_equalities] has left [root1], with all the clauses
    that the scans and joins below check. *)
Inductive built (root1 : Root) : Root -> JoinRel -> list nat -> Prop :=
  | built_scan rel b base : 0 <= b -> Z.testbit all b = true -> rel_at root1 b base -> bms_wf (relids rel) -> rel_val rel = 2 ^ b ->
      joininfo rel = join_clause root1 <$> br_joininfo base -> built root1 root1 rel (baserestrictinfo base)
  | built_join root root' (r1 : JoinRel) e1 (r2 : JoinRel) e2 rel restrictlist : built root1 root r1 e1 -> built root1 root r2 e2 -> ~ meets (rel_val r1) (rel_val r2) ->
      relids rel = bms_union (relids r1) (relids r2) -> build_joinrel_restrictlist root (relids rel) r1 r2 false = Ok (restrictlist, root') ->
      joininfo rel = build_joinrel_joinlist (relids rel) r1 r2 -> built root1 root' rel (e1 ++ e2 ++ restrictlist)
  | built_later root root' rel e J O I ids : built root1 root rel e -> bms_wf J -> bms_wf O -> bms_wf I -> within (bms_val O) all -> within (bms_val I) all ->
      generate_join_implied_equalities root J O I false = Ok (ids, root') -> built root1 root' rel e.

(** The clauses of the inputs that the join can check. *)
Lemma subbuild_restrict_ok clauses J B infos : clauses_ok clauses -> bms_wf J -> (forall c, c ∈ infos -> c ∈ clauses) ->
  (forall c, c ∈ clauses -> has_clone c = false /\ is_clone c = false) -> forall acc, (forall c, c ∈ acc -> c ∈ clauses) ->
  forall c, c ∈ subbuild_joinrel_restrictlist J B infos acc <-> c ∈ acc \/ (c ∈ infos /\ within (clause_val c) (bms_val J)).
Proof.
  intros Hok HJ Hin Hcl. induction infos as [|rinfo infos IH]; intros acc Hacc c; cbn [subbuild_joinrel_restrictlist].
  { rewrite elem_of_nil. tauto. }
  assert (rinfo ∈ clauses) as Hr by (apply Hin; by left). destruct (Hcl _ Hr) as [-> ->]. cbn [orb andb].
  pose proof (subset_within (required_relids rinfo) J (co_wf _ Hok _ Hr) HJ) as Hs. fold (clause_val rinfo) in Hs. rewrite elem_of_cons.
  specialize (IH ltac:(intros; apply Hin; by right)). destruct (bms_is_subset (required_relids rinfo) J).
  - assert (within (clause_val rinfo) (bms_val J)) by (by apply Hs). assert (forall x, x ∈ append_unique_ptr acc rinfo <-> x ∈ acc \/ x = rinfo) as Ha by (by apply (append_unique_ok clauses Hok)).
    rewrite IH by (intros x [Hx| ->]%Ha; [by apply Hacc|done]). rewrite Ha. naive_solver.
  - assert (~ within (clause_val rinfo) (bms_val J)) by (intros ?%Hs; done). rewrite IH by done. naive_solver.
Qed.

Section Plan.
Context (root1 : Root) (D : list nat) (Hscan : scanned all root1 D (eq_classes (im_ec root1))) (Hclones : no_clones root1).
Let Hi1 : inv root1 D := sn_inv _ _ _ _ Hscan.
Let clauses := join_clause root1 <$> D.

Lemma plan_clauses_ok : clauses_ok clauses.
Proof.
  split.
  - intros c (id & -> & Hid)%list_elem_of_fmap. cbn. unfold clause_required. destruct (di_clause _ _ _ (iv_dist _ _ _ Hi1) id Hid) as (c & -> & W & _). done.
  - intros c c' (id & -> & _)%list_elem_of_fmap (id' & -> & _)%list_elem_of_fmap. cbn. by intros ->.
Qed.

(** The shape of a relation in state [root]. *)
Record rel_shape root (rel : JoinRel) (E : list nat) : Prop := {
  rs_step : join_step root1 D root;
  rs_wf : bms_wf (relids rel);
  rs_within : within (rel_val rel) all;
  rs_joininfo : joininfo_exact clauses rel;
  rs_sound id : id ∈ E -> id ∈ D \/ class_clause root id
}.
Lemma step_eclasses root : join_step root1 D root -> eclasses_ok (im_ec root) all.
Proof.
  intros Hs. pose proof (js_grows _ _ _ _ Hs) as Hg. destruct (scanned_eclasses all root1 D Hscan) as [Hwf Hb].
  split; unfold class_val in *; rewrite (gr_classes _ _ Hg), ?(js_indexes _ _ _ _ Hs).
  - intros k p Hp. pose proof (sm_relids _ _ (gr_class _ _ Hg p)) as E. unfold get_class in E. rewrite E. by apply (Hwf k).
  - intros b Hb0 Ha. destruct (Hb b Hb0 Ha) as (H0 & s & E & W & M). split; [done|]. exists s. split_and!; [done|done|]. intros k Hk. rewrite (M k Hk).
    split; intros (p & Hp & Ht); exists p; (split; [done|]); pose proof (sm_relids _ _ (gr_class _ _ Hg p)) as Er; unfold get_class in Er; [by rewrite Er|by rewrite Er in Ht].
Qed.

(** What a row that passes all clauses [E] satisfies. *)
Definition rel_holds sat eqv T root (rel : JoinRel) (E : list nat) : Prop :=
  row_ok root sat eqv -> agrees sat T root -> (forall id, id ∈ E -> T id) ->
  (forall p, p ∈ eq_classes (im_ec root) -> ec_has_const (get_class root p) = false -> class_holds eqv T root p (rel_val rel)) /\
  (forall id, id ∈ D -> within (required_val root1 id) (rel_val rel) -> T id).

(** A scan *)
Lemma within_one x y : 0 <= y -> x <> 0 -> within x (2 ^ y) -> x = 2 ^ y.
Proof.
  intros Hy Hx Hw. apply bits_nonzero in Hx as (b & Hb & Ht). pose proof (proj1 (within_bits _ _) Hw) as H.
  assert (forall c, 0 <= c -> Z.testbit x c = true -> c = y) as Hc.
  { intros c Hc0 Hc. specialize (H c Hc0 Hc). rewrite Z.pow2_bits_eqb in H by done. by apply Z.eqb_eq in H. }
  pose proof (Hc b Hb Ht) as ->. apply Z.bits_inj'. intros n Hn. rewrite Z.pow2_bits_eqb by done. destruct (Z.eqb_spec y n) as [<-|Hne]; [done|].
  apply not_true_is_false. intros Hxn. by destruct (Hc n Hn Hxn).
Qed.
Lemma scan_shape rel b base : 0 <= b -> Z.testbit all b = true -> rel_at root1 b base -> bms_wf (relids rel) -> rel_val rel = 2 ^ b ->
  joininfo rel = join_clause root1 <$> br_joininfo base -> rel_shape root1 rel (baserestrictinfo base).
Proof.
  intros Hb Ha Hr Hw Hv Hj. pose proof (iv_dist _ _ _ Hi1) as Hd. split; [by apply join_step_refl|done|by rewrite Hv, within_pow2| |].
  - intros c. rewrite Hj, Hv. unfold clauses. rewrite !list_elem_of_fmap. setoid_rewrite (fun id => di_join _ _ _ Hd b base id Hb Ha Hr).
    assert (forall x, x <> 0 -> several x /\ Z.testbit x b = true <-> meets x (2 ^ b) /\ ~ within x (2 ^ b)) as Hx.
    { intros x Hx. rewrite meets_sym. split.
      - intros [Hs Ht]. split; [apply meets_bits; exists b; split_and!; [done|apply Z.pow2_bits_true; lia|done]|]. intros Hwx. destruct (proj2 Hs b Hb). by apply within_one.
      - intros [(b' & Hb' & Ht' & Ht)%meets_bits Hnw]. rewrite Z.pow2_bits_eqb in Ht' by done. apply Z.eqb_eq in Ht' as <-. split; [|done]. split; [done|].
        intros y Hy ->. apply Hnw. rewrite Z.pow2_bits_eqb in Ht by done. apply Z.eqb_eq in Ht as ->. apply within_refl. }
    assert (forall id, id ∈ D -> required_val root1 id <> 0) as Hn0.
    { intros id (c' & Hc' & _ & Hn & _)%(di_clause _ _ _ Hd). unfold required_val, clause_required. by rewrite Hc'. }
    split.
    + intros (id & -> & Hid & Hse). apply Hx in Hse; [|by apply Hn0]. split; [by exists id|exact Hse].
    + intros [(id & -> & Hid) Hse]. exists id. split_and!; [done|done|..]; apply Hx; (done || by apply Hn0).
  - intros id Hid. left. by apply (di_base _ _ _ Hd b base id Hb Ha Hr).
Qed.
Lemma scan_holds sat eqv T rel b base : 0 <= b -> Z.testbit all b = true -> rel_at root1 b base -> rel_val rel = 2 ^ b ->
  rel_holds sat eqv T root1 rel (baserestrictinfo base).
Proof.
  intros Hb Ha Hr Hv Hrow Hag HT. rewrite Hv. pose proof (iv_dist _ _ _ Hi1) as Hd.
  assert (forall id, id ∈ D -> required_val root1 id = 2 ^ b -> T id) as HTb by (intros id Hid E; apply HT; by apply (di_base _ _ _ Hd b base id Hb Ha Hr)).
  assert (forall id c, im_clauses root1 !! id = Some c -> required_val root1 id = bms_val (rc_required c)) as Hreq by (intros id c Hc; unfold required_val, clause_required; by rewrite Hc).
  split.
  - intros p Hp Hnc. pose proof (ck_ec _ _ _ (iv_class _ _ _ Hi1 p Hp)) as Hok. pose proof (sn_covered _ _ _ _ Hscan p Hp) as Hcov.
    assert (forall em, em ∈ ec_members (get_class root1 p) -> within (bms_val (em_relids em)) (2 ^ b) -> bms_val (em_relids em) = 2 ^ b) as Hone.
    { intros em Hem Hw. apply within_one; [done| |done]. intros E. apply (ck_const _ _ _ _ Hok em Hem) in E. rewrite (proj2 (ck_has_const _ _ _ _ Hok)) in Hnc; [done|by exists em]. }
    assert (ec_broken (get_class root1 p) = false -> equal_on eqv root1 p (2 ^ b)) as He.
    { intros Hbr l r Hl Hr' Wl Wr. eapply (same_value_closed sat eqv root1 p Hrow); [|apply (cv_rel _ _ _ Hcov l r b); auto].
      intros x y (Ex & Ey & [[E0 _]|(id & c & Hid & Hc & Hec & Hrq)]); assert (both (em_relids x) (em_relids y) = 2 ^ b) as Eb by (unfold both; by rewrite <- Ex, <- Ey, Z.lor_diag).
      - rewrite E0 in Eb. pose proof (Z.pow_pos_nonneg 2 b). lia.
      - right. apply (clause_truth sat eqv T root1 p Hrow Hag Hp id c x y Hc Hec). apply HTb; [done|]. rewrite (Hreq id c Hc), Hrq, Eb; [done|].
        rewrite Eb. pose proof (Z.pow_pos_nonneg 2 b). lia. }
    split; [done|]. destruct (ec_broken (get_class root1 p)) eqn:Ebr; [|by apply (equal_sources sat eqv T root1 p Hrow Hag Hp D), He].
    intros id Hid Hw. destruct (ck_source _ _ _ _ Hok id Hid) as (c & _ & _ & Hc & _ & _ & _ & Hn & _). assert (required_val root1 id = 2 ^ b) as E.
    { apply within_one; [done| |done]. by rewrite (Hreq id c Hc). }
    apply HTb; [|done]. apply (cv_sources _ _ _ Hcov); [done|done|right]. rewrite E. intros [_ Hs]. by apply (Hs b).
  - intros id Hid Hw. apply HTb; [done|]. apply within_one; [done| |done]. destruct (di_clause _ _ _ Hd id Hid) as (c & Hc & _ & Hn & _). by rewrite (Hreq id c Hc).
Qed.

(** A join *)
Lemma restrictlist_ok root (r1 r2 : JoinRel) e1 e2 J : rel_shape root r1 e1 -> rel_shape root r2 e2 -> bms_wf J -> bms_val J = Z.lor (rel_val r1) (rel_val r2) ->
  exists ids root' restrictlist, build_joinrel_restrictlist root J r1 r2 false = Ok (restrictlist ++ ids, root') /\ join_step root D root' /\
    (forall id, id ∈ ids -> class_clause root' id) /\ (forall id, id ∈ restrictlist -> id ∈ D) /\
    (forall id, id ∈ D -> within (required_val root1 id) (bms_val J) -> within (required_val root1 id) (rel_val r1) \/ within (required_val root1 id) (rel_val r2) \/ id ∈ restrictlist) /\
    forall sat eqv T p, p ∈ eq_classes (im_ec root) -> ec_has_const (get_class root p) = false -> class_joined sat eqv T J (relids r1) (relids r2) root root' ids p.
Proof.
  intros H1 H2 WJ VJ. unfold build_joinrel_restrictlist. set (B := bms_union _ _). pose proof (rs_step _ _ _ H1) as Hs. pose proof plan_clauses_ok as Hcl.
  set (res1 := subbuild_joinrel_restrictlist J B (joininfo r1) []). set (res := subbuild_joinrel_restrictlist J B (joininfo r2) res1).
  assert (forall c, c ∈ clauses -> has_clone c = false /\ is_clone c = false) as Hnc.
  { intros c (id & -> & Hid)%list_elem_of_fmap. cbn. unfold clause_marks. destruct (di_clause _ _ _ (iv_dist _ _ _ Hi1) id Hid) as (c & Hc & _). rewrite Hc. by apply (Hclones id). }
  assert (forall c, c ∈ res1 <-> c ∈ joininfo r1 /\ within (clause_val c) (bms_val J)) as Hr1.
  { intros c. subst res1. rewrite (subbuild_restrict_ok clauses); [rewrite elem_of_nil; tauto|done|done| |done|by intros ? ?%not_elem_of_nil].
    intros c' Hc'. by apply (rs_joininfo _ _ _ H1). }
  assert (forall c, c ∈ res <-> (c ∈ joininfo r1 \/ c ∈ joininfo r2) /\ within (clause_val c) (bms_val J)) as Hres.
  { intros c. subst res. rewrite (subbuild_restrict_ok clauses); [rewrite Hr1; tauto|done|done| |done|].
    - intros c' Hc'. by apply (rs_joininfo _ _ _ H2).
    - intros c' [Hc' _]%Hr1. by apply (rs_joininfo _ _ _ H1). }
  pose proof (step_eclasses root Hs) as Hec. pose proof (js_inv _ _ _ _ Hs) as Hi.
  destruct (generate_join_ok (fun _ => True) (fun _ _ _ => True) (fun _ => True) J (relids r1) (relids r2) WJ (rs_wf _ _ _ H1) (rs_wf _ _ _ H2) root D Hi Hec (rs_within _ _ _ H1) (rs_within _ _ _ H2))
    as (ids & root' & Hgen & Hs' & Hcc & _). rewrite Hgen. cbn [mbind result_bind]. exists ids, root', (jc_ptr <$> res). split_and!; [done|done|done| | |].
  - intros id (c & -> & [Hc _]%Hres)%list_elem_of_fmap. assert (c ∈ clauses) as Hin by (destruct Hc as [Hc|Hc]; [by apply (rs_joininfo _ _ _ H1)|by apply (rs_joininfo _ _ _ H2)]).
    by apply list_elem_of_fmap in Hin as (id & -> & Hid).
  - intros id Hid Hw. change (required_val root1 id) with (clause_val (join_clause root1 id)) in *. set (c := join_clause root1 id) in *.
    assert (c ∈ clauses) as Hc by (by apply list_elem_of_fmap_2). destruct (decide (Z.ldiff (clause_val c) (rel_val r1) = 0)) as [E|Hn1]; [by left|].
    destruct (decide (Z.ldiff (clause_val c) (rel_val r2) = 0)) as [E|Hn2]; [right; by left|]. right. right. apply list_elem_of_fmap. exists c. split; [done|].
    apply Hres. split; [left|done]. apply (rs_joininfo _ _ _ H1). split_and!; [done| |done]. destruct (decide (Z.land (clause_val c) (rel_val r1) = 0)) as [E|Hm]; [|done].
    exfalso. apply Hn2. apply (within_unmatched _ (rel_val r2) (rel_val r1) (clause_val c)); [by rewrite Z.lor_comm, <- VJ|apply within_refl|intros Hm; by apply Hm].
  - intros sat eqv T p Hp Hc.
    destruct (generate_join_ok sat eqv T J (relids r1) (relids r2) WJ (rs_wf _ _ _ H1) (rs_wf _ _ _ H2) root D Hi Hec (rs_within _ _ _ H1) (rs_within _ _ _ H2)) as (ids2 & root2 & Hgen2 & _ & _ & Hj).
    rewrite Hgen in Hgen2. injection Hgen2 as <- <-. by apply Hj.
Qed.
Lemma union_shape root root' (r1 r2 rel : JoinRel) e1 e2 restrictlist : rel_shape root r1 e1 -> rel_shape root r2 e2 ->
  relids rel = bms_union (relids r1) (relids r2) -> build_joinrel_restrictlist root (relids rel) r1 r2 false = Ok (restrictlist, root') ->
  joininfo rel = build_joinrel_joinlist (relids rel) r1 r2 -> rel_shape root' rel (e1 ++ e2 ++ restrictlist) /\
  forall sat eqv T, rel_holds sat eqv T root r1 e1 -> rel_holds sat eqv T root r2 e2 -> rel_holds sat eqv T root' rel (e1 ++ e2 ++ restrictlist).
Proof.
  intros H1 H2 Er Hb Hj. destruct (bms_union_spec _ _ (rs_wf _ _ _ H1) (rs_wf _ _ _ H2)) as [WJ VJ]. rewrite <- Er in WJ, VJ.
  destruct (restrictlist_ok root r1 r2 e1 e2 (relids rel) H1 H2 WJ VJ) as (ids & root'' & rl & Hb' & Hs & Hcc & HrD & Hcov & Hcj).
  rewrite Hb in Hb'. injection Hb' as -> <-. pose proof (js_grows _ _ _ _ Hs) as Hg. pose proof (js_inv _ _ _ _ (rs_step _ _ _ H1)) as Hi. split.
  - split; [eapply join_step_trans; [apply H1|done]|done|unfold rel_val; rewrite VJ; apply within_lor_l; split; [apply H1|apply H2]| |].
    + intros c. rewrite Hj. by apply (build_joinrel_joinlist_ok clauses plan_clauses_ok); [apply H1|apply H2| |].
    + intros id [Hid|[Hid|[Hid|Hid]%elem_of_app]%elem_of_app]%elem_of_app; [..|left; by apply HrD|right; by apply Hcc].
      * apply (rs_sound _ _ _ H1) in Hid as [?|?]; [by left|right; by apply (class_clause_grows root)].
      * apply (rs_sound _ _ _ H2) in Hid as [?|?]; [by left|right; by apply (class_clause_grows root)].
  - intros sat eqv T Hh1 Hh2 Hrow Hag HT. assert (row_ok root sat eqv) as Hrow0 by (by apply (row_ok_grows root root')). pose proof (agrees_grows _ _ root root' Hg Hag) as Hag0.
    destruct (Hh1 Hrow0 Hag0) as [C1 D1]; [intros; apply HT, elem_of_app; by left|].
    destruct (Hh2 Hrow0 Hag0) as [C2 D2]; [intros; apply HT, elem_of_app; right; apply elem_of_app; by left|].
    assert (forall id, id ∈ rl ++ ids -> T id) as HT' by (intros; apply HT, elem_of_app; right; apply elem_of_app; by right). split.
    + intros p. rewrite (gr_classes _ _ Hg), (sm_const _ _ (gr_class _ _ Hg p)). intros Hp Hc.
      apply (Hcj sat eqv T p); auto. intros; apply HT', elem_of_app; by right.
    + intros id Hid Hw. destruct (Hcov id Hid Hw) as [H|[H|H]]; auto. apply HT', elem_of_app; by left.
Qed.

Lemma built_ok root rel E : built root1 root rel E -> rel_shape root rel E /\ forall sat eqv T, rel_holds sat eqv T root rel E.
Proof.
  induction 1 as [rel b base Hb Ha Hr Hw Hv Hj|root root' r1 e1 r2 e2 rel rl H1 [S1 IH1] H2 [S2 IH2] Hd Er Hb Hj|root root' rel e J O I ids H [S IH] WJ WO WI AO AI Hg].
  - split; [by apply (scan_shape rel b base)|]. intros. by apply (scan_holds _ _ _ rel b base).
  - destruct (union_shape root root' r1 r2 rel e1 e2 rl S1 S2 Er Hb Hj) as [S Hh]. split; [done|]. intros. by apply Hh.
  - pose proof (js_inv _ _ _ _ (rs_step _ _ _ S)) as Hi.
    destruct (generate_join_ok (fun _ => True) (fun _ _ _ => True) (fun _ => True) J O I WJ WO WI root D Hi (step_eclasses root (rs_step _ _ _ S)) AO AI) as (ids' & root'' & Hg' & Hs & _).
    rewrite Hg in Hg'. injection Hg' as <- <-. pose proof (js_grows _ _ _ _ Hs) as Hgr. split.
    + split; [eapply join_step_trans; [apply S|done]|apply S|apply S|apply S|]. intros id Hid. apply (rs_sound _ _ _ S) in Hid as [?|?]; [by left|right; by apply (class_clause_grows root)].
    + intros sat eqv T Hrow Hag HT. destruct (IH sat eqv T) as [C1 D1]; [by apply (row_ok_grows root root')|by apply (agrees_grows _ _ root root')|done|].
      split; [|done]. intros p. rewrite (gr_classes _ _ Hgr), (sm_const _ _ (gr_class _ _ Hgr p)). intros Hp Hc. apply (class_holds_grows eqv T root D root'); auto.
Qed.
End Plan.

(** ** The whole query *)
Lemma true_in_grows sat root root' id : grows root root' -> is_Some (im_clauses root !! id) -> true_in sat root' id <-> true_in sat root id.
Proof.
  intros Hg [c Hc]. destruct (gr_clause _ _ Hg id c Hc) as (c' & Hc' & [El _]). unfold true_in. rewrite Hc, Hc'.
  split; intros (c0 & [= <-] & Hs); eexists; (split; [done|]); congruence.
Qed.
(** The sources of a class make its members equal. *)
Lemma sources_equal sat eqv T root D p : inv root D -> row_ok root sat eqv -> agrees sat T root -> p ∈ eq_classes (im_ec root) ->
  (forall id, id ∈ ec_sources (get_class root p) -> T id) ->
  forall l r, l ∈ ec_members (get_class root p) -> r ∈ ec_members (get_class root p) -> same_value eqv p l r.
Proof.
  intros Hi Hrow Hag Hp HT l r Hl Hr. eapply (same_value_closed sat eqv root p Hrow); [|by apply (ck_connected _ _ _ _ (ck_ec _ _ _ (iv_class _ _ _ Hi p Hp)))].
  intros x y (id & c & Hid & Hc & He). right. by apply (clause_truth sat eqv T root p Hrow Hag Hp id c), HT.
Qed.
Lemma class_clause_true sat eqv T root D id : inv root D -> row_ok root sat eqv -> agrees sat T root ->
  (forall p id, p ∈ eq_classes (im_ec root) -> id ∈ ec_sources (get_class root p) -> T id) -> class_clause root id -> T id.
Proof.
  intros Hi Hrow Hag HT (p & c & l & r & Hp & Hc & He). apply (clause_truth sat eqv T root p Hrow Hag Hp id c l r Hc He).
  destruct (sources_equal sat eqv T root D p Hi Hrow Hag Hp (fun id => HT p id Hp) l r) as [->|H]; [apply He|apply He| |done].
  by destruct (eq_distinct _ _ _ _ He).
Qed.
(** The distributed clauses enforce a class with a constant. *)
Lemma const_class_true sat eqv T root D p : inv root D -> row_ok root sat eqv -> agrees sat T root -> p ∈ eq_classes (im_ec root) ->
  ec_has_const (get_class root p) = true -> covered root D p -> (forall id, id ∈ D -> T id) -> forall id, id ∈ ec_sources (get_class root p) -> T id.
Proof.
  intros Hi Hrow Hag Hp Hc Hcov HT id Hid. destruct (ec_broken (get_class root p)) eqn:Eb; [by apply HT, (cv_sources _ _ _ Hcov); [| |left]|].
  assert (forall l r, l ∈ ec_members (get_class root p) -> r ∈ ec_members (get_class root p) -> same_value eqv p l r) as He.
  { intros l r Hl Hr. eapply (same_value_closed sat eqv root p Hrow); [|by apply (cv_const _ _ _ Hcov l r)].
    intros x y (_ & _ & [(_ & Hx & Hy & op & Hop & Hf)|(i & c & Hi' & Hcl & Hec & _)]).
    - right. apply (ro_law _ _ _ Hrow p x y op Hp Hx Hy Hop). by apply (ro_fold _ _ _ Hrow).
    - right. apply (clause_truth sat eqv T root p Hrow Hag Hp i c x y Hcl Hec). by apply HT. }
  destruct (ck_source _ _ _ _ (ck_ec _ _ _ (iv_class _ _ _ Hi p Hp)) id Hid) as (c & l & r & Hcl & Hec & _). apply (clause_truth sat eqv T root p Hrow Hag Hp id c l r Hcl Hec).
  destruct (He l r (eq_left_in _ _ _ _ Hec) (eq_right_in _ _ _ _ Hec)) as [->|H]; [by destruct (eq_distinct _ _ _ _ Hec)|done].
Qed.

(** A positive answer of [exprs_known_equal] comes from two members of a class. *)
Lemma known_equal_loop_ok e1 e2 ems (P : EM -> Prop) b1 b2 : (forall em, em ∈ ems -> P em) ->
  (b1 = true -> exists m, P m /\ em_expr m = e1) -> (b2 = true -> exists m, P m /\ em_expr m = e2 /\ e1 <> e2) ->
  known_equal_loop e1 e2 b1 b2 ems = true -> exists m1 m2, P m1 /\ P m2 /\ em_expr m1 = e1 /\ em_expr m2 = e2 /\ e1 <> e2.
Proof.
  revert b1 b2. induction ems as [|em ems IH]; intros b1 b2 HP H1 H2; cbn [known_equal_loop]; [done|].
  assert (forall em, em ∈ ems -> P em) as HP' by (intros; apply HP; by right). assert (P em) as Hem by (apply HP; by left).
  destruct (em_is_child em); [by apply IH|]. case_bool_decide as E1; cbn [negb andb].
  - rewrite orb_true_r, orb_false_r. cbn [andb]. destruct b2; [|apply IH; [done| |done]; intros _; by exists em]. intros _.
    destruct (H2 eq_refl) as (m & Hm & Em & Hne). exists em, m. done.
  - rewrite orb_false_r. case_bool_decide as E2; [rewrite orb_true_r|rewrite orb_false_r].
    + assert (e1 <> e2) as Hne by congruence. destruct b1; cbn [andb].
      * intros _. destruct (H1 eq_refl) as (m & Hm & Em). exists m, em. done.
      * apply IH; [done|done|]. intros _. by exists em.
    + destruct b1, b2; cbn [andb]; try by apply IH. intros _. destruct (H1 eq_refl) as (m & Hm & Em), (H2 eq_refl) as (m' & Hm' & Em' & Hne). by exists m, m'.
Qed.
Lemma known_equal_true sat eqv T root D e1 e2 : inv root D -> row_ok root sat eqv -> agrees sat T root ->
  (forall p id, p ∈ eq_classes (im_ec root) -> id ∈ ec_sources (get_class root p) -> T id) ->
  exprs_known_equal root e1 e2 = true -> exists p, p ∈ eq_classes (im_ec root) /\ eqv p e1 e2.
Proof.
  intros Hi Hrow Hag HT (p & Hp%list_elem_of_In & [_ Hk]%andb_true_iff)%existsb_exists. exists p. split; [done|].
  apply (known_equal_loop_ok _ _ _ (fun em => em ∈ ec_members (get_class root p))) in Hk as (m1 & m2 & H1 & H2 & <- & <- & Hne); [|done..].
  destruct (sources_equal sat eqv T root D p Hi Hrow Hag Hp (fun id => HT p id Hp) m1 m2 H1 H2) as [->|H]; done.
Qed.

(** The query: the sources of the classes and the clauses [D0]. *)
Definition query_true (T : nat -> Prop) root (D0 : list nat) : Prop :=
  (forall p id, p ∈ eq_classes (im_ec root) -> id ∈ ec_sources (get_class root p) -> T id) /\ (forall id, id ∈ D0 -> T id).
Lemma query_true_grows sat root root' D0 : inv root D0 -> grows root root' ->
  query_true (true_in sat root) root D0 <-> query_true (true_in sat root') root' D0.
Proof.
  intros Hi Hg. unfold query_true. rewrite (gr_classes _ _ Hg). setoid_rewrite (fun p => sm_sources _ _ (gr_class _ _ Hg p)).
  assert (forall p id, p ∈ eq_classes (im_ec root) -> id ∈ ec_sources (get_class root p) -> true_in sat root' id <-> true_in sat root id) as H1.
  { intros p id Hp Hid. apply true_in_grows; [done|]. apply (iv_listed _ _ _ Hi p id Hp). by left. }
  assert (forall id, id ∈ D0 -> true_in sat root' id <-> true_in sat root id) as H2.
  { intros id (c & Hc & _)%(di_clause _ _ _ (iv_dist _ _ _ Hi)). apply true_in_grows; eauto. }
  split; intros [Ha Hc]; (split; [intros p id Hp Hid; apply (H1 p); eauto|intros id Hid; apply H2; auto]).
Qed.
Lemma plan_true_iff sat eqv T root D0 root1 D root2 rel E : base_step all root D0 root1 D -> scanned all root1 D (eq_classes (im_ec root1)) ->
  no_clones root1 -> built root1 root2 rel E -> within all (rel_val rel) -> row_ok root2 sat eqv -> agrees sat T root2 ->
  (forall id, id ∈ E -> T id) <-> query_true T root2 D0.
Proof.
  intros Hb Hscan Hcl1 Hbuilt Hall Hrow Hag. destruct (built_ok root1 D Hscan Hcl1 root2 rel E Hbuilt) as [Hsh Hh].
  pose proof (js_grows _ _ _ _ (rs_step _ _ _ _ _ Hsh)) as Hg2. pose proof (js_inv _ _ _ _ (rs_step _ _ _ _ _ Hsh)) as Hi2. split.
  - intros HE. destruct (Hh sat eqv T Hrow Hag HE) as [Hcl HD]. assert (forall id, id ∈ D -> T id) as HD'.
    { intros id Hid. apply HD; [done|]. apply (within_trans _ all); [|done]. destruct (di_clause _ _ _ (iv_dist _ _ _ (bs_inv _ _ _ _ _ Hb)) id Hid) as (c & Hc & _ & _ & Ha).
      unfold required_val, clause_required. by rewrite Hc. }
    split; [|intros id Hid; by apply HD', (bs_incl _ _ _ _ _ Hb)]. intros p id Hp Hid. destruct (ec_has_const (get_class root2 p)) eqn:Ec.
    + rewrite (gr_classes _ _ Hg2) in Hp. rewrite (sm_sources _ _ (gr_class _ _ Hg2 p)) in Hid. rewrite (sm_const _ _ (gr_class _ _ Hg2 p)) in Ec.
      apply (const_class_true sat eqv T root1 D p (bs_inv _ _ _ _ _ Hb)); [by apply (row_ok_grows root1 root2)|by apply (agrees_grows _ _ root1 root2)|done|done|by apply Hscan|done|done].
    + apply (proj2 (Hcl p Hp Ec)); [done|]. destruct (ck_source _ _ _ _ (ck_ec _ _ _ (iv_class _ _ _ Hi2 p Hp)) id Hid) as (c & l & r & Hc & _ & _ & _ & _ & Ha).
      apply (within_trans _ all); [|done]. unfold required_val, clause_required. by rewrite Hc.
  - intros [HS H0] id Hid. assert (forall id, class_clause root2 id -> T id) as Hcc by (intros x; by apply (class_clause_true sat eqv T root2 D)).
    apply (rs_sound _ _ _ _ _ Hsh) in Hid as [Hid|Hid]; [|by apply Hcc]. apply (bs_derived _ _ _ _ _ Hb) in Hid as [Hid|Hid]; [by apply H0|].
    apply Hcc, (class_clause_grows root1); [done|exact Hid].
Qed.

(** The clauses checked by a plan for all base relations are equivalent to the equalities absorbed by the classes and the clauses distributed
    before. *)
Lemma base_plan_enforces root D0 sat eqv : base_ready all root D0 -> row_ok root sat eqv ->
  exists root1, generate_base_implied_equalities root = Ok root1 /\
  forall root2 rel E, built root1 root2 rel E -> within all (rel_val rel) ->
    ((forall id, id ∈ E -> true_in sat root2 id) <-> query_true (true_in sat root) root D0) /\
    ((forall id, id ∈ E -> true_in sat root2 id) -> forall e1 e2, exprs_known_equal root2 e1 e2 = true ->
       exists p, p ∈ eq_classes (im_ec root) /\ eqv p e1 e2).
Proof.
  intros Hready Hrow0. destruct (generate_base_ok all root D0 Hready) as (root1 & D & Hgen & Hb & Hscan). exists root1. split; [done|].
  assert (no_clones root1) as Hcl1 by apply (gr_clones _ _ (bs_grows _ _ _ _ _ Hb)), Hready.
  intros root2 rel E Hbuilt Hall. destruct (built_ok root1 D Hscan Hcl1 root2 rel E Hbuilt) as [Hsh _].
  assert (grows root root2) as Hg by (trans root1; [apply Hb|apply (rs_step _ _ _ _ _ Hsh)]). pose proof (js_inv _ _ _ _ (rs_step _ _ _ _ _ Hsh)) as Hi2.
  assert (agrees sat (true_in sat root2) root2) as Hag.
  { intros id c Hc. unfold true_in. rewrite Hc. split; [by intros (c' & [= <-] & H)|by exists c]. }
  assert (row_ok root2 sat eqv) as Hrow by (by apply (row_ok_grows root root2)).
  pose proof (plan_true_iff sat eqv _ root D0 root1 D root2 rel E Hb Hscan Hcl1 Hbuilt Hall Hrow Hag) as Hiff.
  split; [rewrite (query_true_grows sat root root2 D0); [done|apply Hready|done]|].
  intros HE e1 e2 Hk. apply Hiff in HE as [HS _]. rewrite <- (gr_classes _ _ Hg). by apply (known_equal_true sat eqv _ root2 D e1 e2 Hi2 Hrow Hag HS).
Qed.
End Enforce.
