(* ===== verification/ImpliedSearch.v ===== *)
(** * From the equivalence classes to the join search

    The state that [generate_base_implied_equalities] leaves is one the join search accepts: [eclass_indexes], [has_eclass_joins] and [joininfo] of
    the base relations are exact, so the search succeeds, and the restriction list of every join can be built. *)
From stdpp Require Import gmap.
From S2P Require Import Prelude Bitmapset BitmapsetSpec BitmapsetIter EquivClass EquivClassProps PathKeys JoinRels JoinLinks JoinSearch ImpliedEq ImpliedEqProps ImpliedScan ImpliedJoin ImpliedThms.
#[local] Open Scope Z_scope.

Section Feed.
Context {Expr : Type} `{!ExprOps Expr} `{!OpFamilies Expr}.
#[local] Abbreviation Root := (ImpliedRoot (Expr := Expr)).
Implicit Types (root : Root).

(** The relation that the search starts from for range table index [b]. *)
Record scan_of root1 (b : Z) (rel : JoinRel) : Prop := {
  so_wf : bms_wf (relids rel);
  so_val : rel_val rel = 2 ^ b;
  so_base : exists base, rel_at root1 b base /\ joininfo rel = join_clause root1 <$> br_joininfo base /\ has_eclass_joins rel = br_has_eclass_joins base
}.
Lemma several_not_within x b : 0 <= b -> Z.testbit x b = true -> several x <-> ~ within x (2 ^ b).
Proof.
  intros Hb Ht. assert (x <> 0) as Hx by (intros ->; by rewrite Z.bits_0 in Ht). split.
  - intros [_ Hs] Hw. by apply (Hs b Hb), within_one.
  - intros Hnw. split; [done|]. intros y Hy ->. apply Hnw. rewrite Z.pow2_bits_eqb in Ht by done. apply Z.eqb_eq in Ht as ->. apply within_refl.
Qed.
Lemma meets_pow2 x b : 0 <= b -> meets x (2 ^ b) <-> Z.testbit x b = true.
Proof.
  intros Hb. rewrite meets_bits. split.
  - intros (c & Hc & H1 & H2). rewrite Z.pow2_bits_eqb in H2 by done. by apply Z.eqb_eq in H2 as <-.
  - intros H. exists b. split_and!; [done|done|apply Z.pow2_bits_true; lia].
Qed.

Section Query.
Context (base_rels : Z) (root1 : Root) (D : list nat) (Hscan : scanned base_rels root1 D (eq_classes (im_ec root1))).
Context (q : Query (Expr := Expr)).
Let clauses := join_clause root1 <$> D.

Lemma scan_links b rel : ec_root q = im_ec root1 -> 0 <= b -> Z.testbit base_rels b = true -> scan_of root1 b rel -> rel_links q base_rels clauses rel.
Proof.
  intros Eec Hb Ha [Hw Hv (base & Hr & Hj & He)]. pose proof (scan_shape base_rels root1 D Hscan rel b base Hb Ha Hr Hw Hv Hj) as Hs. split; [apply Hs|apply Hs|apply Hs|].
  rewrite He, (sn_flag _ _ _ _ Hscan b base Hb Ha Hr), Hv, Eec. unfold class_links, class_val. split.
  - intros (p & Hp & Hmany & Hsev & Ht). apply list_elem_of_lookup in Hp as [k Hk]. exists k, p. rewrite meets_pow2 by done.
    split_and!; [done| |done|by apply (several_not_within (class_bits root1 p) b)]. unfold many in Hmany. apply Nat.ltb_lt in Hmany. apply negb_true_iff, Nat.leb_gt. exact Hmany.
  - intros (k & p & Hk & Hl & Hm & Hn). rewrite meets_pow2 in Hm by done. exists p. apply negb_true_iff, Nat.leb_gt in Hl.
    split_and!; [by eapply list_elem_of_lookup_2|by apply Nat.ltb_lt|by apply (several_not_within (class_bits root1 p) b)|done].
Qed.

End Query.
End Feed.

(** After the scan clauses have been derived, the restriction list of every join can be built. *)
Lemma base_feeds_joins {Expr} `{!ExprOps Expr} `{!OpFamilies Expr} (base_rels : Z) (root : ImpliedRoot (Expr := Expr)) D0 :
  base_ready base_rels root D0 ->
  exists root1 D, generate_base_implied_equalities root = Ok root1 /\ scanned base_rels root1 D (eq_classes (im_ec root1)) /\
  (forall root2 r1 e1 r2 e2, built base_rels root1 root2 r1 e1 -> built base_rels root1 root2 r2 e2 -> ~ meets (rel_val r1) (rel_val r2) ->
     exists restrictlist root3, build_joinrel_restrictlist root2 (bms_union (relids r1) (relids r2)) r1 r2 false = Ok (restrictlist, root3)).
Proof.
  intros Hready. destruct (generate_base_ok base_rels root D0 Hready) as (root1 & D & Hgen & Hb & Hscan). exists root1, D. split_and!; [done|done|].
  intros root2 r1 e1 r2 e2 H1 H2 _. assert (no_clones root1) as Hcl by apply (gr_clones _ _ (bs_grows _ _ _ _ _ Hb)), Hready.
  destruct (built_ok base_rels root1 D Hscan Hcl root2 r1 e1 H1) as [S1 _], (built_ok base_rels root1 D Hscan Hcl root2 r2 e2 H2) as [S2 _].
  destruct (bms_union_spec _ _ (rs_wf _ _ _ _ _ _ S1) (rs_wf _ _ _ _ _ _ S2)) as [WJ VJ].
  destruct (restrictlist_ok base_rels root1 D Hscan Hcl root2 r1 r2 e1 e2 _ S1 S2 WJ VJ) as (ids & root3 & rl & Hbl & _). by eexists _, _.
Qed.
