(* ===== verification/Quals.v ===== *)
(** * Distributing the quals of a query ([initsplan.c], [restrictinfo.c], [pathkeys.c])

    Every qual of the join tree becomes a [RestrictInfo].  A mergejoinable equality goes to the equivalence classes; the others go to the
    restriction and join lists of the relations that they mention, and outer join clauses may be set aside.

    Target lists ([add_vars_to_targetlist]), cached estimates, serial numbers and the RestrictInfos inside OR clauses are not modelled. *)
From stdpp Require Import gmap.
From S2P Require Import Prelude Bitmapset BitmapsetSpec BitmapsetIter EquivClass PathKeys JoinRels ImpliedEq.
#[local] Open Scope Z_scope.

(** What these routines use of the catalogs and of expression trees.  [is_not_null] makes a [NullTest]; [forced_null_rels] is the
    [varnullingrels] of [find_forced_null_var], if that finds one. *)
Class QualOps (Expr : Type) := {
  get_mergejoin_opfamilies : Oid -> list Oid;
  contain_leaked_vars : ClauseNode (Expr := Expr) -> bool;
  is_not_null : Expr -> Expr;
  forced_null_rels : ClauseNode (Expr := Expr) -> option bitmapset
}.

Definition postpone_msg : string := "failed to postpone qual containing lateral reference".
Definition join_qual_msg : string := "JOIN qualification cannot refer to other relations".

Section Quals.
Context {Expr : Type} `{!ExprOps Expr} `{!OpFamilies Expr} `{!QualOps Expr}.
#[local] Abbreviation Clause := (ClauseNode (Expr := Expr)).
#[local] Abbreviation Root := (ImpliedRoot (Expr := Expr)).

(** ** The join tree *)
#[warnings="-register-all"]
Inductive JoinNode :=
  | TableRef (rtindex : Z)
  | FromExpr (fromlist : list JoinNode) (quals : list Clause)
  | JoinExpr (jointype : JoinType) (larg rarg : JoinNode) (rtindex : Z) (quals : list Clause).

(** [jdomain] is an index into [join_domains], [jti_parent] a pointer to another item, [jti_sjinfo] the address of a special join. *)
Record JoinTreeItem := {
  jtnode : JoinNode;
  jdomain : nat;
  jti_parent : option nat;
  qualscope : bitmapset;
  inner_join_rels : bitmapset;
  left_rels : bitmapset;
  right_rels : bitmapset;
  nonnullable_rels : bitmapset;
  jti_sjinfo : option nat;
  oj_joinclauses : list Clause;
  lateral_clauses : list Clause
}.
Record OuterJoinClauseInfo := { oj_rinfo : nat; oj_sjinfo : nat }.
(** The fields of a [SpecialJoinInfo] for making the right side of a semijoin unique. *)
Record SemiJoinInfo := { semi_can_btree : bool; semi_can_hash : bool; semi_operators : list Oid; semi_rhs_exprs : list Expr }.

(** The part of [PlannerInfo] that changes; [nulling_relids] holds that field of every relation, [jt_items] are the items, [semi_infos] goes with
    [join_info_list]. *)
Record JTRoot := {
  jt_root : Root;
  all_baserels : bitmapset;
  outer_join_rels : bitmapset;
  nulling_relids : list bitmapset;
  jt_items : list JoinTreeItem;
  semi_infos : list SemiJoinInfo;
  left_join_clauses : list OuterJoinClauseInfo;
  right_join_clauses : list OuterJoinClauseInfo;
  full_join_clauses : list OuterJoinClauseInfo;
  hasPseudoConstantQuals : bool
}.
Implicit Types (root : Root) (st : JTRoot) (clause : Clause) (id : nat).

Definition set_jt_root st root : JTRoot :=
  {| jt_root := root; all_baserels := all_baserels st; outer_join_rels := outer_join_rels st; nulling_relids := nulling_relids st; jt_items := jt_items st; semi_infos := semi_infos st;
     left_join_clauses := left_join_clauses st; right_join_clauses := right_join_clauses st; full_join_clauses := full_join_clauses st;
     hasPseudoConstantQuals := hasPseudoConstantQuals st |}.
Definition set_jt_items st items : JTRoot :=
  {| jt_root := jt_root st; all_baserels := all_baserels st; outer_join_rels := outer_join_rels st; nulling_relids := nulling_relids st; jt_items := items; semi_infos := semi_infos st;
     left_join_clauses := left_join_clauses st; right_join_clauses := right_join_clauses st; full_join_clauses := full_join_clauses st;
     hasPseudoConstantQuals := hasPseudoConstantQuals st |}.
Definition set_pseudo st : JTRoot :=
  {| jt_root := jt_root st; all_baserels := all_baserels st; outer_join_rels := outer_join_rels st; nulling_relids := nulling_relids st; jt_items := jt_items st; semi_infos := semi_infos st;
     left_join_clauses := left_join_clauses st; right_join_clauses := right_join_clauses st; full_join_clauses := full_join_clauses st;
     hasPseudoConstantQuals := true |}.
Definition set_oj_lists st (left right full : list OuterJoinClauseInfo) : JTRoot :=
  {| jt_root := jt_root st; all_baserels := all_baserels st; outer_join_rels := outer_join_rels st; nulling_relids := nulling_relids st; jt_items := jt_items st; semi_infos := semi_infos st;
     left_join_clauses := left; right_join_clauses := right; full_join_clauses := full; hasPseudoConstantQuals := hasPseudoConstantQuals st |}.

(** ** RestrictInfos *)

(** [pull_varnos], [contain_volatile_functions] of a clause *)
Definition clause_varnos clause : bitmapset :=
  match clause with
  | OpClause op => bms_union (pull_varnos (leftop op)) (pull_varnos (rightop op))
  | OtherClause e => pull_varnos e
  end.
Definition clause_volatile clause : bool :=
  match clause with
  | OpClause op => op_volatile (opno op) || contain_volatile_functions (leftop op) || contain_volatile_functions (rightop op)
  | OtherClause e => contain_volatile_functions e
  end.
Definition clause_left_relids clause : bitmapset := match clause with OpClause op => pull_varnos (leftop op) | OtherClause _ => None end.
Definition clause_right_relids clause : bitmapset := match clause with OpClause op => pull_varnos (rightop op) | OtherClause _ => None end.
Definition can_join clause : bool :=
  negb (bms_is_empty (clause_left_relids clause)) && negb (bms_is_empty (clause_right_relids clause)) &&
  negb (bms_overlap (clause_left_relids clause) (clause_right_relids clause)).
Definition clause_leakproof clause (security_level : Z) : bool :=
  if 0 <? security_level then negb (contain_leaked_vars clause) else false.

(** The [mergeopfamilies] that [check_mergejoinable] sets. *)
Definition check_mergejoinable clause (pseudoconstant : bool) : list Oid :=
  if pseudoconstant then []
  else match clause with
       | OtherClause _ => []
       | OpClause op =>
           if op_mergejoinable (opno op) (exprType (leftop op)) && negb (clause_volatile clause) then get_mergejoin_opfamilies (opno op)
           else []
       end.
Definition make_restrictinfo clause (marks : ClauseMarks) (pseudoconstant : bool) (security_level : Z) (required_relids : bitmapset) : EqClause (Expr := Expr) :=
  {| rc_clause := clause; rc_marks := marks; rc_required := if bms_is_empty required_relids then clause_varnos clause else required_relids;
     rc_security := security_level; rc_pseudoconstant := pseudoconstant; rc_merge := false;
     rc_left_ec := None; rc_right_ec := None; rc_left_em := None; rc_right_em := None; rc_parent_ec := None |}.
Definition set_mergejoinable (c : EqClause (Expr := Expr)) (mergeopfamilies : list Oid) : EqClause :=
  {| rc_clause := rc_clause c; rc_marks := rc_marks c; rc_required := rc_required c; rc_security := rc_security c; rc_pseudoconstant := rc_pseudoconstant c;
     rc_merge := match mergeopfamilies with [] => false | _ :: _ => true end;
     rc_left_ec := rc_left_ec c; rc_right_ec := rc_right_ec c; rc_left_em := rc_left_em c; rc_right_em := rc_right_em c; rc_parent_ec := rc_parent_ec c |}.
Definition set_eclasses root id (left_ec right_ec : option nat) (left_em right_em : option (EquivalenceMember Expr)) : Root :=
  match im_clauses root !! id with
  | None => root
  | Some c =>
      set_clause root id
        {| rc_clause := rc_clause c; rc_marks := rc_marks c; rc_required := rc_required c; rc_security := rc_security c; rc_pseudoconstant := rc_pseudoconstant c;
           rc_merge := rc_merge c; rc_left_ec := left_ec; rc_right_ec := right_ec; rc_left_em := left_em; rc_right_em := right_em;
           rc_parent_ec := rc_parent_ec c |}
  end.
(** The fields of a mergejoinable clause that [process_equivalence] reads. *)
Definition restrictinfo_of id (op : OpExpr Expr) (security_level : Z) (families : list Oid) : RestrictInfo Expr :=
  {| ri_id := id; clause := op; left_relids := pull_varnos (leftop op); right_relids := pull_varnos (rightop op); mergeopfamilies := families;
     security_level := security_level; leakproof := clause_leakproof (OpClause op) security_level; left_ec := None; right_ec := None; left_em := None;
     right_em := None; outer_is_left := false |}.

Definition rel_kinds root : RelKinds :=
  {| rk_outer_join := fun i => match im_rels root !! Z.to_nat i with Some OuterJoin => true | _ => false end;
     rk_baserel := fun i => match im_rels root !! Z.to_nat i with Some (Base _) => true | _ => false end |}.
Definition initialize_mergeclause_eclasses root id (op : OpExpr Expr) (families : list Oid) : result Root :=
  let '(lefttype, righttype) := op_input_types (opno op) in
  '(l, er) ← get_eclass_for_sort_expr (rel_kinds root) (im_ec root) (leftop op) families lefttype (inputcollid op) 0 None true;
  '(r, er) ← get_eclass_for_sort_expr (rel_kinds root) er (rightop op) families righttype (inputcollid op) 0 None true;
  Ok (set_eclasses (set_im_ec root er) id l r None None).

(** ** [distribute_qual_to_rels] *)
Definition null_item : JoinTreeItem :=
  {| jtnode := TableRef 0; jdomain := 0; jti_parent := None; qualscope := None; inner_join_rels := None; left_rels := None; right_rels := None;
     nonnullable_rels := None; jti_sjinfo := None; oj_joinclauses := []; lateral_clauses := [] |}.
Definition get_item st (k : nat) : JoinTreeItem := nth k (jt_items st) null_item.
Definition set_item st (k : nat) (item : JoinTreeItem) : JTRoot := set_jt_items st (<[k := item]> (jt_items st)).
Definition add_lateral (item : JoinTreeItem) clause : JoinTreeItem :=
  {| jtnode := jtnode item; jdomain := jdomain item; jti_parent := jti_parent item; qualscope := qualscope item; inner_join_rels := inner_join_rels item;
     left_rels := left_rels item; right_rels := right_rels item; nonnullable_rels := nonnullable_rels item; jti_sjinfo := jti_sjinfo item;
     oj_joinclauses := oj_joinclauses item; lateral_clauses := lateral_clauses item ++ [clause] |}.

(** The search for the nearest join level that includes [relids]. *)
Fixpoint postpone_lateral (fuel : nat) st (pitem : option nat) (relids : bitmapset) clause : result JTRoot :=
  match fuel with
  | O => NoFuel
  | S fuel =>
      match pitem with
      | None => Error postpone_msg
      | Some k =>
          let item := get_item st k in
          if bms_is_subset relids (qualscope item) then Ok (set_item st k (add_lateral item clause))
          else if is_set (jti_sjinfo item) then Error assert_msg
          else postpone_lateral fuel st (jti_parent item) relids clause
      end
  end.

Fixpoint nulled_by_antijoin (l : list SpecialJoinInfo) (varnullingrels : bitmapset) : result bool :=
  match l with
  | [] => Ok false
  | sjinfo :: l =>
      member ← (if is_join JOIN_ANTI sjinfo && negb (ojrelid sjinfo =? 0) then bms_is_member (ojrelid sjinfo) varnullingrels else Ok false);
      if (member : bool) then Ok true else nulled_by_antijoin l varnullingrels
  end.
Definition check_redundant_nullability_qual root clause : result bool :=
  match forced_null_rels clause with
  | None => Ok false
  | Some varnullingrels => if bms_is_empty varnullingrels then Ok false else nulled_by_antijoin (im_join_info root) varnullingrels
  end.

(** The clause is kept as [x IS NOT NULL] if [process_equivalence] says so. *)
Definition make_not_null root (item : Expr) (marks : ClauseMarks) (security_level : Z) : nat * Root :=
  new_clause root (make_restrictinfo (OtherClause (is_not_null item)) marks false security_level None).

(** Setting an outer join clause aside, if it relates the two sides of the join. *)
Definition set_aside st id clause (sjinfo : SpecialJoinInfo) (outerjoin_nonnullable : bitmapset) : option JTRoot :=
  let info := {| oj_rinfo := id; oj_sjinfo := sj_ptr sjinfo |} in
  if bms_is_subset (clause_left_relids clause) outerjoin_nonnullable && negb (bms_overlap (clause_right_relids clause) outerjoin_nonnullable) then
    Some (set_oj_lists st (left_join_clauses st ++ [info]) (right_join_clauses st) (full_join_clauses st))
  else if bms_is_subset (clause_right_relids clause) outerjoin_nonnullable && negb (bms_overlap (clause_left_relids clause) outerjoin_nonnullable) then
    Some (set_oj_lists st (left_join_clauses st) (right_join_clauses st ++ [info]) (full_join_clauses st))
  else if is_join JOIN_FULL sjinfo then Some (set_oj_lists st (left_join_clauses st) (right_join_clauses st) (full_join_clauses st ++ [info]))
  else None.

(** The second half: the [RestrictInfo] is built and sent to its place. *)
Definition place_qual st clause (jd : nat) (sjinfo : option SpecialJoinInfo) (marks : ClauseMarks) (pseudoconstant : bool) (security_level : Z)
    (relids outerjoin_nonnullable : bitmapset) (maybe_equivalence maybe_outer_join : bool) : result JTRoot :=
  let families := check_mergejoinable clause pseudoconstant in
  let '(id, root) := new_clause (jt_root st) (set_mergejoinable (make_restrictinfo clause marks pseudoconstant security_level relids) families) in
  let distribute root id := root ← distribute_restrictinfo_to_rels root id; Ok (set_jt_root st root) in
  match clause, families with
  | OpClause op, _ :: _ =>
      if maybe_equivalence then
        '(outcome, er) ← process_equivalence (im_ec root) (restrictinfo_of id op security_level families) jd;
        let root := set_im_ec root er in
        match outcome with
        | Absorbed ri => Ok (set_jt_root st (set_eclasses root id (left_ec ri) (right_ec ri) (left_em ri) (right_em ri)))
        | Rejected (Some item) => let '(id, root) := make_not_null root item marks security_level in distribute root id
        | Rejected None => root ← initialize_mergeclause_eclasses root id op families; distribute root id
        end
      else
        root ← initialize_mergeclause_eclasses root id op families;
        if maybe_outer_join && can_join clause then
          match sjinfo with
          | None => Error assert_msg
          | Some sjinfo =>
              match set_aside (set_jt_root st root) id clause sjinfo outerjoin_nonnullable with
              | Some st => Ok st
              | None => distribute root id
              end
          end
        else distribute root id
  | _, _ => distribute root id
  end.

(** [postponed] is the list behind [postponed_oj_qual_list], [None] for a null pointer. *)
Definition distribute_qual_to_rels (hasLateralRTEs : bool) st clause (k : nat) (sjinfo : option SpecialJoinInfo) (security_level : Z)
    (qualscope ojscope outerjoin_nonnullable incompatible_relids : bitmapset) (allow_equivalence has_clone is_clone : bool) (postponed : option (list Clause))
    : result (JTRoot * option (list Clause)) :=
  let relids := clause_varnos clause in
  let jd := jdomain (get_item st k) in
  let root := jt_root st in
  let marks pushed_down :=
    {| is_pushed_down := pushed_down; mk_has_clone := has_clone; mk_is_clone := is_clone; mk_incompatible := incompatible_relids;
       mk_outer_relids := outerjoin_nonnullable |} in
  if negb (bms_is_subset relids qualscope) then
    if negb hasLateralRTEs || is_set sjinfo then Error assert_msg
    else
      st ← postpone_lateral (S (length (jt_items st))) st (jti_parent (get_item st k)) relids clause;
      Ok (st, postponed)
  else if negb (bms_is_empty ojscope) && negb (bms_is_subset relids ojscope) then Error join_qual_msg
  else
    let '(relids, pseudoconstant) :=
      if bms_is_empty relids then
        if negb (bms_is_empty ojscope) then (bms_copy ojscope, false)
        else if clause_volatile clause then (bms_copy qualscope, false)
        else if (jd =? top_jdomain (im_ec root))%nat then (bms_copy (jd_relids root jd), true)
        else (bms_copy qualscope, true)
      else (relids, false) in
    let st := if pseudoconstant then set_pseudo st else st in
    if bms_overlap relids outerjoin_nonnullable then
      match postponed with
      | Some l => Ok (st, Some (l ++ [clause]))
      | None =>
          if bms_is_empty ojscope || pseudoconstant then Error assert_msg
          else
            st ← place_qual st clause jd sjinfo (marks false) pseudoconstant security_level ojscope outerjoin_nonnullable false true;
            Ok (st, postponed)
      end
    else
      redundant ← check_redundant_nullability_qual root clause;
      if (redundant : bool) then Ok (st, postponed)
      else
        st ← place_qual st clause jd sjinfo (marks true) pseudoconstant security_level relids outerjoin_nonnullable allow_equivalence false;
        Ok (st, postponed).

Fixpoint distribute_quals_to_rels (hasLateralRTEs : bool) st (clauses : list Clause) (k : nat) (sjinfo : option SpecialJoinInfo) (security_level : Z)
    (scope ojscope outerjoin_nonnullable incompatible_relids : bitmapset) (allow_equivalence has_clone is_clone : bool) (postponed : option (list Clause))
    : result (JTRoot * option (list Clause)) :=
  match clauses with
  | [] => Ok (st, postponed)
  | clause :: clauses =>
      '(st, postponed) ←
        distribute_qual_to_rels hasLateralRTEs st clause k sjinfo security_level scope ojscope outerjoin_nonnullable incompatible_relids
          allow_equivalence has_clone is_clone postponed;
      distribute_quals_to_rels hasLateralRTEs st clauses k sjinfo security_level scope ojscope outerjoin_nonnullable incompatible_relids
        allow_equivalence has_clone is_clone postponed
  end.
End Quals.
Arguments JoinNode : clear implicits.
Arguments JoinTreeItem : clear implicits.
Arguments JTRoot : clear implicits.
Arguments SemiJoinInfo : clear implicits.
