(* ===== verification/OuterJoin.v ===== *)
(** * Special joins ([src/backend/optimizer/plan/initsplan.c])

    [make_outerjoininfo] describes an outer join or semijoin by the relations that must be on its two sides, as far as lower outer joins restrict
    the join order, and by the outer joins that it commutes with; [compute_semijoin_info] finds out how the right side of a semijoin can be made
    unique.  [deconstruct_distribute_oj_quals] distributes the postponed quals of a left join, in one variant for each way in which the join
    commutes with others.

    The address of a special join is its place in [join_info_list], counted from 1. *)
From stdpp Require Import gmap.
From S2P Require Import Prelude Bitmapset BitmapsetSpec BitmapsetIter EquivClass PathKeys JoinRels ImpliedEq Quals.
#[local] Open Scope Z_scope.

Inductive LockClauseStrength := LCS_NONE | LCS_FORKEYSHARE | LCS_FORSHARE | LCS_FORNOKEYUPDATE | LCS_FORUPDATE.
Record RowMarkClause := { rm_rti : Z; strength : LockClauseStrength }.
Definition LCS_asString (strength : LockClauseStrength) : string :=
  match strength with
  | LCS_NONE => "FOR some"
  | LCS_FORKEYSHARE => "FOR KEY SHARE"
  | LCS_FORSHARE => "FOR SHARE"
  | LCS_FORNOKEYUPDATE => "FOR NO KEY UPDATE"
  | LCS_FORUPDATE => "FOR UPDATE"
  end.
Definition row_mark_msg (rc : RowMarkClause) : string :=
  match strength rc with
  | LCS_NONE => assert_msg
  | strength => (LCS_asString strength ++ " cannot be applied to the nullable side of an outer join")%string
  end.

(** What the scans of the join tree read of the query and of the settings. *)
Record JTQuery (Expr : Type) := {
  jq_lateral : bool;
  qual_security_level : Z;
  from_collapse_limit : Z;
  join_collapse_limit : Z;
  securityQuals : Z -> list (list (ClauseNode (Expr := Expr)));
  rowMarks : list RowMarkClause;
  jq_placeholders : list PlaceHolderInfo;
  enable_hashagg : bool
}.
Arguments jq_lateral {Expr}.
Arguments qual_security_level {Expr}.
Arguments from_collapse_limit {Expr}.
Arguments join_collapse_limit {Expr}.
Arguments securityQuals {Expr}.
Arguments rowMarks {Expr}.
Arguments jq_placeholders {Expr}.
Arguments enable_hashagg {Expr}.

(** What these routines use of expression trees and catalogs.  [remove_nulling_relids] is called without exceptions; the last two change the
    nulling relations of the variables of an expression. *)
Class OuterOps (Expr : Type) := {
  find_nonnullable_rels : list (ClauseNode (Expr := Expr)) -> bitmapset;
  contain_placeholder_references_to : list (ClauseNode (Expr := Expr)) -> Z -> bool;
  get_commutator : Oid -> Oid;
  remove_nulling_relids : bitmapset -> Expr -> Expr;
  add_nulling_relids : bitmapset -> bitmapset -> Expr -> Expr
}.

Section OuterJoin.
Context {Expr : Type} `{!ExprOps Expr} `{!OpFamilies Expr} `{!QualOps Expr} `{!OuterOps Expr} (g : JTQuery Expr).
#[local] Abbreviation Clause := (ClauseNode (Expr := Expr)).
#[local] Abbreviation State := (JTRoot Expr).
Implicit Types (st : State) (other sjinfo : SpecialJoinInfo) (clauses : list Clause).

Definition set_join_info st (l : list SpecialJoinInfo) : State :=
  let root := jt_root st in
  set_jt_root st {| im_ec := im_ec root; im_clauses := im_clauses root; im_next := im_next root; im_rels := im_rels root;
                    im_all_query_rels := im_all_query_rels root; im_join_info := l; im_jdomains := im_jdomains root |}.
Definition get_sjinfo st (ptr : nat) : result SpecialJoinInfo :=
  match im_join_info (jt_root st) !! pred ptr with Some sjinfo => Ok sjinfo | None => Error assert_msg end.
(** [pull_varnos] of a list of clauses *)
Definition clauses_varnos clauses : bitmapset := fold_left (fun varnos clause => bms_add_members varnos (clause_varnos clause)) clauses None.

(** ** Semijoins *)

(** The operator and the right-hand expression of a clause that compares both sides; [None] if the sides are mixed. *)
Definition semi_operand (syn_righthand : bitmapset) (op : OpExpr Expr) : option (Oid * Expr) :=
  let left_varnos := pull_varnos (leftop op) in
  let right_varnos := pull_varnos (rightop op) in
  if negb (bms_is_empty right_varnos) && bms_is_subset right_varnos syn_righthand && negb (bms_overlap left_varnos syn_righthand)
  then Some (opno op, rightop op)
  else if negb (bms_is_empty left_varnos) && bms_is_subset left_varnos syn_righthand && negb (bms_overlap right_varnos syn_righthand)
  then let opno := get_commutator (opno op) in if opno =? 0 then None else Some (opno, leftop op)
  else None.
(** The loop over the clauses; [None] if the right side cannot be made unique. *)
Fixpoint semi_loop (syn_righthand : bitmapset) clauses (all_btree all_hash : bool) (operators : list Oid) (exprs : list Expr)
    : option (bool * bool * list Oid * list Expr) :=
  match clauses with
  | [] => Some (all_btree, all_hash, operators, exprs)
  | clause :: clauses =>
      let all_varnos := clause_varnos clause in
      if negb (bms_overlap all_varnos syn_righthand) || bms_is_subset all_varnos syn_righthand then
        if clause_volatile clause then None else semi_loop syn_righthand clauses all_btree all_hash operators exprs
      else
        match clause with
        | OtherClause _ => None
        | OpClause op =>
            match semi_operand syn_righthand op with
            | None => None
            | Some (opno, right_expr) =>
                let opinputtype := exprType (leftop op) in
                let all_btree := all_btree && op_mergejoinable opno opinputtype && match get_mergejoin_opfamilies opno with [] => false | _ :: _ => true end in
                let all_hash := all_hash && op_hashjoinable opno opinputtype in
                if negb (all_btree || all_hash) then None
                else semi_loop syn_righthand clauses all_btree all_hash (operators ++ [opno]) (exprs ++ [right_expr])
            end
        end
  end.
Definition no_semi_info : SemiJoinInfo Expr := {| semi_can_btree := false; semi_can_hash := false; semi_operators := []; semi_rhs_exprs := [] |}.
Definition compute_semijoin_info (jointype : JoinType) (syn_righthand : bitmapset) clauses : SemiJoinInfo Expr :=
  if negb (bool_decide (jointype = JOIN_SEMI)) then no_semi_info
  else match semi_loop syn_righthand clauses true (enable_hashagg g) [] [] with
       | None => no_semi_info
       | Some (all_btree, all_hash, operators, exprs) =>
           match exprs with
           | [] => no_semi_info
           | _ :: _ =>
               if existsb contain_volatile_functions exprs then no_semi_info
               else {| semi_can_btree := all_btree; semi_can_hash := all_hash; semi_operators := operators; semi_rhs_exprs := exprs |}
           end
       end.

(** ** [make_outerjoininfo] *)
Fixpoint check_row_marks (l : list RowMarkClause) (left_rels right_rels : bitmapset) (jointype : JoinType) : result unit :=
  match l with
  | [] => Ok ()
  | rc :: l =>
      right ← bms_is_member (rm_rti rc) right_rels;
      nullable ← (if (right : bool) then Ok true
                  else if bool_decide (jointype = JOIN_FULL) then bms_is_member (rm_rti rc) left_rels else Ok false);
      if (nullable : bool) then Error (row_mark_msg rc) else check_row_marks l left_rels right_rels jointype
  end.

(** The sets that the loop over the lower outer joins computes. *)
Record OJSets := { oj_min_left : bitmapset; oj_min_right : bitmapset; oj_below_l : bitmapset; oj_below_r : bitmapset }.
(** All of a lower outer join is added to one side. *)
Definition add_whole (rels : bitmapset) other : result bitmapset :=
  let rels := bms_add_members (bms_add_members rels (syn_lefthand other)) (syn_righthand other) in
  if ojrelid other =? 0 then Ok rels else bms_add_member rels (ojrelid other).
Definition add_left (s : OJSets) other : result OJSets :=
  rels ← add_whole (oj_min_left s) other;
  Ok {| oj_min_left := rels; oj_min_right := oj_min_right s; oj_below_l := oj_below_l s; oj_below_r := oj_below_r s |}.
Definition add_right (s : OJSets) other : result OJSets :=
  rels ← add_whole (oj_min_right s) other;
  Ok {| oj_min_left := oj_min_left s; oj_min_right := rels; oj_below_l := oj_below_l s; oj_below_r := oj_below_r s |}.

Section Lower.
Context (left_rels right_rels clause_relids strict_relids : bitmapset) (jointype : JoinType) (clauses : list Clause).

(** A lower full join *)
Definition full_step (s : OJSets) other : result OJSets :=
  if ojrelid other =? 0 then Error assert_msg
  else
    s ← (if bms_overlap left_rels (syn_lefthand other) || bms_overlap left_rels (syn_righthand other) then add_left s other else Ok s);
    if bms_overlap right_rels (syn_lefthand other) || bms_overlap right_rels (syn_righthand other) then add_right s other else Ok s.
(** A lower outer join in the left side *)
Definition left_step (have_unsafe_phvs : bool) (s : OJSets) other : result OJSets :=
  if bms_overlap left_rels (syn_righthand other) then
    if bms_overlap clause_relids (syn_righthand other) &&
       (have_unsafe_phvs || bool_decide (jointype = JOIN_SEMI) || bool_decide (jointype = JOIN_ANTI) ||
        negb (bms_overlap strict_relids (min_righthand other)))
    then add_left s other
    else if bool_decide (jointype = JOIN_LEFT) && is_join JOIN_LEFT other && bms_overlap strict_relids (min_righthand other) &&
            negb (bms_overlap clause_relids (syn_lefthand other))
    then
      rels ← bms_del_member (oj_min_left s) (ojrelid other);
      below ← bms_add_member (oj_below_l s) (ojrelid other);
      Ok {| oj_min_left := rels; oj_min_right := oj_min_right s; oj_below_l := below; oj_below_r := oj_below_r s |}
    else Ok s
  else Ok s.
(** A lower outer join in the right side *)
Definition right_step (have_unsafe_phvs : bool) (s : OJSets) other : result OJSets :=
  if bms_overlap right_rels (syn_righthand other) then
    if bms_overlap clause_relids (syn_righthand other) || negb (bms_overlap clause_relids (min_lefthand other)) || have_unsafe_phvs ||
       bool_decide (jointype = JOIN_SEMI) || bool_decide (jointype = JOIN_ANTI) || is_join JOIN_SEMI other || is_join JOIN_ANTI other ||
       negb (lhs_strict other)
    then add_right s other
    else if bool_decide (jointype = JOIN_LEFT) && is_join JOIN_LEFT other && lhs_strict other then
      rels ← bms_del_member (oj_min_right s) (ojrelid other);
      below ← bms_add_member (oj_below_r s) (ojrelid other);
      Ok {| oj_min_left := oj_min_left s; oj_min_right := rels; oj_below_l := oj_below_l s; oj_below_r := below |}
    else Ok s
  else Ok s.
Definition lower_step (s : OJSets) other : result OJSets :=
  if is_join JOIN_FULL other then full_step s other
  else
    let have_unsafe_phvs := if ojrelid other =? 0 then false else contain_placeholder_references_to clauses (ojrelid other) in
    s ← left_step have_unsafe_phvs s other;
    right_step have_unsafe_phvs s other.
Fixpoint lower_loop (l : list SpecialJoinInfo) (s : OJSets) : result OJSets :=
  match l with
  | [] => Ok s
  | other :: l => s ← lower_step s other; lower_loop l s
  end.
End Lower.

Fixpoint placeholder_loop (l : list PlaceHolderInfo) (right_rels min_righthand : bitmapset) : bitmapset :=
  match l with
  | [] => min_righthand
  | phinfo :: l =>
      placeholder_loop l right_rels
        (if bms_is_subset (phrels phinfo) right_rels then bms_add_members min_righthand (ph_eval_at phinfo) else min_righthand)
  end.

(** Joins that commute with this one from below learn that. *)
Definition set_commute_above other (above_l above_r : bitmapset) : SpecialJoinInfo :=
  {| sj_ptr := sj_ptr other; min_lefthand := min_lefthand other; min_righthand := min_righthand other; syn_lefthand := syn_lefthand other;
     syn_righthand := syn_righthand other; jointype := jointype other; ojrelid := ojrelid other; commute_above_l := above_l; commute_above_r := above_r;
     commute_below_l := commute_below_l other; commute_below_r := commute_below_r other; lhs_strict := lhs_strict other |}.
Definition commute_step (below_l below_r : bitmapset) (relid : Z) other : result SpecialJoinInfo :=
  from_left ← bms_is_member (ojrelid other) below_l;
  if (from_left : bool) then
    above ← bms_add_member (commute_above_l other) relid;
    Ok (set_commute_above other above (commute_above_r other))
  else
    from_right ← bms_is_member (ojrelid other) below_r;
    if (from_right : bool) then
      above ← bms_add_member (commute_above_r other) relid;
      Ok (set_commute_above other (commute_above_l other) above)
    else Ok other.
Fixpoint commute_loop (below_l below_r : bitmapset) (relid : Z) (l : list SpecialJoinInfo) : result (list SpecialJoinInfo) :=
  match l with
  | [] => Ok []
  | other :: l =>
      other ← commute_step below_l below_r relid other;
      l ← commute_loop below_l below_r relid l;
      Ok (other :: l)
  end.

(** The new special join, not yet in [join_info_list], and the state in which lower ones know about it. *)
Definition make_outerjoininfo st (left_rels right_rels inner_join_rels : bitmapset) (jointype : JoinType) (relid : Z) clauses
    : result (SpecialJoinInfo * SemiJoinInfo Expr * State) :=
  let join_info := im_join_info (jt_root st) in
  let made min_left min_right below_l below_r strict :=
    {| sj_ptr := S (length join_info); min_lefthand := min_left; min_righthand := min_right; syn_lefthand := left_rels; syn_righthand := right_rels;
       jointype := jointype; ojrelid := relid; commute_above_l := None; commute_above_r := None; commute_below_l := below_l; commute_below_r := below_r;
       lhs_strict := strict |} in
  if bool_decide (jointype = JOIN_INNER) || bool_decide (jointype = JOIN_RIGHT) then Error assert_msg
  else
    _ ← check_row_marks (rowMarks g) left_rels right_rels jointype;
    let semi := compute_semijoin_info jointype right_rels clauses in
    if bool_decide (jointype = JOIN_FULL) then Ok (made (bms_copy left_rels) (bms_copy right_rels) None None false, semi, st)
    else
      let clause_relids := clauses_varnos clauses in
      let strict_relids := find_nonnullable_rels clauses in
      let strict := bms_overlap strict_relids left_rels in
      s ← lower_loop left_rels right_rels clause_relids strict_relids jointype clauses join_info
            {| oj_min_left := bms_intersect clause_relids left_rels;
               oj_min_right := bms_int_members (bms_union clause_relids inner_join_rels) right_rels;
               oj_below_l := None; oj_below_r := None |};
      let min_left := oj_min_left s in
      let min_right := placeholder_loop (jq_placeholders g) right_rels (oj_min_right s) in
      let min_left := if bms_is_empty min_left then bms_copy left_rels else min_left in
      let min_right := if bms_is_empty min_right then bms_copy right_rels else min_right in
      if bms_is_empty min_left || bms_is_empty min_right || bms_overlap min_left min_right then Error assert_msg
      else
        let below_l := bms_del_members (oj_below_l s) min_left in
        let below_r := bms_del_members (oj_below_r s) min_right in
        if negb (bms_is_empty below_l) || negb (bms_is_empty below_r) then
          join_info ← commute_loop below_l below_r relid join_info;
          Ok (made min_left min_right below_l below_r strict, semi, set_join_info st join_info)
        else Ok (made min_left min_right None None strict, semi, st).

(** ** Postponed quals *)
Definition map_clause (f : Expr -> Expr) (clause : Clause) : Clause :=
  match clause with
  | OpClause op => OpClause {| opno := opno op; inputcollid := inputcollid op; leftop := f (leftop op); rightop := f (rightop op) |}
  | OtherClause e => OtherClause (f e)
  end.

(** The variants of the quals of [sjinfo] at [ptr], for the joins of [l] with which it commutes. *)
Fixpoint variants_loop st (ptr : nat) sjinfo (qualscope ojscope : bitmapset) (l : list nat) (quals : list Clause)
    (incompatible_joins joins_so_far : bitmapset) : result State :=
  match l with
  | [] => Ok st
  | k :: l =>
      match jti_sjinfo (get_item st k) with
      | None => variants_loop st ptr sjinfo qualscope ojscope l quals incompatible_joins joins_so_far
      | Some other_ptr =>
          othersj ← get_sjinfo st other_ptr;
          below_sjinfo ← bms_is_member (ojrelid othersj) (commute_below_l sjinfo);
          above_sjinfo ← (if (below_sjinfo : bool) || (other_ptr =? ptr)%nat then Ok false else bms_is_member (ojrelid othersj) (commute_above_r sjinfo));
          if negb below_sjinfo && negb (other_ptr =? ptr)%nat && negb (above_sjinfo : bool)
          then variants_loop st ptr sjinfo qualscope ojscope l quals incompatible_joins joins_so_far
          else if negb below_sjinfo && (other_ptr =? ptr)%nat && negb (bms_equal joins_so_far (commute_below_l sjinfo)) then Error assert_msg
          else
            '(quals, incompatible_joins) ←
              (if above_sjinfo then
                 single ← bms_make_singleton (ojrelid othersj);
                 incompatible_joins ← bms_del_member incompatible_joins (ojrelid othersj);
                 Ok (map_clause (add_nulling_relids (syn_lefthand sjinfo) single) <$> quals, incompatible_joins)
               else Ok (quals, incompatible_joins));
            let this_qualscope := bms_union qualscope joins_so_far in
            let this_ojscope := bms_union ojscope joins_so_far in
            '(this_qualscope, this_ojscope) ←
              (if above_sjinfo then
                 this_qualscope ← bms_add_member this_qualscope (ojrelid othersj);
                 this_ojscope ← bms_add_member this_ojscope (ojrelid othersj);
                 this_ojscope ← bms_del_member this_ojscope (ojrelid sjinfo);
                 Ok (this_qualscope, this_ojscope)
               else Ok (this_qualscope, this_ojscope));
            let allow_equivalence := bms_is_empty joins_so_far in
            '(st, _) ←
              distribute_quals_to_rels (jq_lateral g) st quals k (Some sjinfo) (qual_security_level g) this_qualscope this_ojscope (syn_lefthand sjinfo)
                (bms_copy incompatible_joins) allow_equivalence allow_equivalence (negb allow_equivalence) None;
            '(quals, incompatible_joins) ←
              (if (below_sjinfo : bool) then
                 single ← bms_make_singleton (ojrelid othersj);
                 incompatible_joins ← bms_del_member incompatible_joins (ojrelid othersj);
                 Ok (map_clause (add_nulling_relids (syn_righthand othersj) single) <$> quals, incompatible_joins)
               else Ok (quals, incompatible_joins));
            joins_so_far ← bms_add_member joins_so_far (ojrelid othersj);
            variants_loop st ptr sjinfo qualscope ojscope l quals incompatible_joins joins_so_far
      end
  end.
Definition deconstruct_distribute_oj_quals st (jtitems : list nat) (k : nat) : result State :=
  let item := get_item st k in
  match jti_sjinfo item with
  | None => Error assert_msg
  | Some ptr =>
      sjinfo ← get_sjinfo st ptr;
      qualscope ← bms_add_member (bms_union (syn_lefthand sjinfo) (syn_righthand sjinfo)) (ojrelid sjinfo);
      let ojscope := bms_union (min_lefthand sjinfo) (min_righthand sjinfo) in
      if negb (lhs_strict sjinfo) then Error assert_msg
      else if negb (bms_is_empty (commute_above_r sjinfo)) || negb (bms_is_empty (commute_below_l sjinfo)) then
        let joins_above := commute_above_r sjinfo in
        let joins_below := commute_below_l sjinfo in
        let quals := if bms_is_empty joins_below then oj_joinclauses item
                     else map_clause (remove_nulling_relids joins_below) <$> oj_joinclauses item in
        incompatible_joins ← bms_add_member (bms_union joins_below joins_above) (ojrelid sjinfo);
        variants_loop st ptr sjinfo qualscope ojscope jtitems quals incompatible_joins None
      else
        '(st, _) ←
          distribute_quals_to_rels (jq_lateral g) st (oj_joinclauses item) k (Some sjinfo) (qual_security_level g) qualscope ojscope
            (syn_lefthand sjinfo) None true false false None;
        Ok st
  end.
End OuterJoin.
