(* ===== verification/SpecialJoins.v ===== *)
(** * What [make_outerjoininfo] computes

    The sides that an outer join needs are nonempty parts of its syntactic sides; joins in its right side stay there or may trade places with it; the joins
    that it commutes with are below it. *)
From stdpp Require Import gmap sorting.
From S2P Require Import Prelude BitUtils Bitmapset BitmapsetSpec BitmapsetIter EquivClass PathKeys JoinRels JoinLinks JoinLegal RelSets ImpliedEq Quals OuterJoin.
#[local] Open Scope Z_scope.

(** ** Special joins *)
Definition oj_bits (v : Z) : Z := if v =? 0 then 0 else 2 ^ v.
Lemma oj_bits_spec v b : 0 <= v -> 0 <= b -> Z.testbit (oj_bits v) b = true <-> v <> 0 /\ b = v.
Proof.
  intros Hv Hb. unfold oj_bits. destruct (Z.eqb_spec v 0) as [->|Hne]; [rewrite testbit_0; tauto|]. rewrite Z.pow2_bits_eqb, Z.eqb_eq by done. naive_solver.
Qed.
Definition syn_l (s : SpecialJoinInfo) : Z := bms_val (syn_lefthand s).
Definition syn_r (s : SpecialJoinInfo) : Z := bms_val (syn_righthand s).
Definition below_l (s : SpecialJoinInfo) : Z := bms_val (commute_below_l s).
Definition above_r (s : SpecialJoinInfo) : Z := bms_val (commute_above_r s).
(** The relations below the join and the join itself *)
Definition whole (s : SpecialJoinInfo) : Z := Z.lor (Z.lor (syn_l s) (syn_r s)) (oj_bits (ojrelid s)).
Record special (s : SpecialJoinInfo) : Prop := {
  sp_sides : bms_wf (min_lefthand s) /\ bms_wf (min_righthand s) /\ bms_wf (syn_lefthand s) /\ bms_wf (syn_righthand s);
  sp_commute : bms_wf (commute_below_l s) /\ bms_wf (commute_above_l s) /\ bms_wf (commute_above_r s);
  sp_left : lhs s <> 0 /\ within (lhs s) (syn_l s);
  sp_right : rhs s <> 0 /\ within (rhs s) (syn_r s);
  sp_below : within (below_l s) (syn_l s);
  sp_relid : 0 <= ojrelid s;
  sp_type : match jointype s with JOIN_LEFT | JOIN_FULL => 0 < ojrelid s | JOIN_SEMI | JOIN_ANTI => True | _ => False end
}.
(** All but the joins above it that it commutes with *)
Record same_join (s s' : SpecialJoinInfo) : Prop := {
  sj_sides : min_lefthand s' = min_lefthand s /\ min_righthand s' = min_righthand s /\ syn_lefthand s' = syn_lefthand s /\ syn_righthand s' = syn_righthand s;
  sj_type : jointype s' = jointype s /\ ojrelid s' = ojrelid s /\ lhs_strict s' = lhs_strict s;
  sj_below : commute_below_l s' = commute_below_l s /\ commute_below_r s' = commute_below_r s;
  sj_same_ptr : sj_ptr s' = sj_ptr s
}.
#[export] Instance same_join_refl : Reflexive same_join.
Proof. by split. Qed.
#[export] Instance same_join_trans : Transitive same_join.
Proof. intros s1 s2 s3 [] []. split; intuition congruence. Qed.
Lemma same_join_whole s s' : same_join s s' -> whole s' = whole s.
Proof. intros [(_ & _ & E1 & E2) (_ & E3 & _) _ _]. unfold whole, syn_l, syn_r. by rewrite E1, E2, E3. Qed.

(** The order of [join_info_list]: a join comes after those below it. *)
Definition later (s s' : SpecialJoinInfo) : Prop := ~ meets (whole s) (oj_bits (ojrelid s')).
(** The join [o] in the right side of a join of type [t] that needs [r] there: either all of it is needed, or the two may trade places. *)
Definition nested (t : JoinType) (r : Z) (o : SpecialJoinInfo) : Prop :=
  within (Z.lor (syn_l o) (syn_r o)) r \/ (t = JOIN_LEFT /\ jointype o = JOIN_LEFT /\ lhs_strict o = true).
(** A join within [x] *)
Definition inside (x : Z) (o : SpecialJoinInfo) : Prop := within (whole o) x.
Lemma whole_parts (o : SpecialJoinInfo) : within (syn_l o) (whole o) /\ within (syn_r o) (whole o) /\ within (oj_bits (ojrelid o)) (whole o).
Proof. unfold whole. split_and!; mask_tac. Qed.
Lemma syn_nonempty o : special o -> syn_l o <> 0 /\ syn_r o <> 0.
Proof. intros [_ _ [H1 H2] [H3 H4] _ _ _]. split; [clear H3|clear H1]; mask_tac. Qed.
Lemma overlap_syn_r rels x o : denotes rels x -> special o -> reflect (meets x (syn_r o)) (bms_overlap rels (syn_righthand o)).
Proof. intros Hr Ho. apply overlap_denotes; [done|]. split; [apply Ho|done]. Qed.
Lemma overlap_syn_l rels x o : denotes rels x -> special o -> reflect (meets x (syn_l o)) (bms_overlap rels (syn_lefthand o)).
Proof. intros Hr Ho. apply overlap_denotes; [done|]. split; [apply Ho|done]. Qed.
Lemma overlap_min_r rels x o : denotes rels x -> special o -> reflect (meets x (rhs o)) (bms_overlap rels (min_righthand o)).
Proof. intros Hr Ho. apply overlap_denotes; [done|]. split; [apply Ho|done]. Qed.
Lemma overlap_min_l rels x o : denotes rels x -> special o -> reflect (meets x (lhs o)) (bms_overlap rels (min_lefthand o)).
Proof. intros Hr Ho. apply overlap_denotes; [done|]. split; [apply Ho|done]. Qed.
Lemma inside_overlap rels x o : denotes rels x -> special o -> inside x o ->
  bms_overlap rels (syn_righthand o) = true /\ bms_overlap rels (syn_lefthand o) = true.
Proof.
  intros Hr Ho Hin. destruct (syn_nonempty o Ho) as [Nl Nr], (whole_parts o) as (P1 & P2 & _). unfold inside in Hin.
  destruct (overlap_syn_r rels x o Hr Ho) as [|Hn]; [|destruct Hn; clear Nl; mask_tac].
  destruct (overlap_syn_l rels x o Hr Ho) as [|Hn]; [done|destruct Hn; clear Nr; mask_tac].
Qed.
Lemma outside_overlap rels x o : denotes rels x -> special o -> ~ meets (whole o) x ->
  bms_overlap rels (syn_righthand o) = false /\ bms_overlap rels (syn_lefthand o) = false.
Proof.
  intros Hr Ho Hout. destruct (whole_parts o) as (P1 & P2 & _).
  destruct (overlap_syn_r rels x o Hr Ho) as [Hm|]; [destruct Hout; mask_tac|].
  destruct (overlap_syn_l rels x o Hr Ho) as [Hm|]; [destruct Hout; mask_tac|done].
Qed.
Lemma add_whole_ok rels x o : denotes rels x -> special o -> exists rels', add_whole rels o = Ok rels' /\ denotes rels' (Z.lor x (whole o)).
Proof.
  intros Hr Ho. unfold add_whole. destruct (sp_sides _ Ho) as (_ & _ & Wl & Wr).
  assert (denotes (bms_add_members (bms_add_members rels (syn_lefthand o)) (syn_righthand o)) (Z.lor (Z.lor x (syn_l o)) (syn_r o))) as Hd
    by (apply denotes_add_members; [apply denotes_add_members; [done|by split]|by split]).
  unfold whole, oj_bits. destruct (ojrelid o =? 0).
  - eexists. split; [done|]. rewrite Z.lor_0_r. by rewrite Z.lor_assoc.
  - destruct (add_member_denotes _ _ Hd (ojrelid o) (sp_relid _ Ho)) as (rels' & E & Hd'). exists rels'. split; [done|]. by rewrite !Z.lor_assoc.
Qed.

Section Make.
Context {Expr : Type} `{!ExprOps Expr} `{!OpFamilies Expr} `{!QualOps Expr} `{!OuterOps Expr}.
#[local] Abbreviation Clause := (ClauseNode (Expr := Expr)).
Context (left_rels right_rels clause_relids strict_relids : bitmapset) (A B C S I : Z) (t : JoinType) (clauses : list Clause).
Context (HA : denotes left_rels A) (HB : denotes right_rels B) (HC : denotes clause_relids C) (HS : denotes strict_relids S).
Context (HAB : ~ meets A B) (HSC : within S C).
Implicit Types (o : SpecialJoinInfo) (s : OJSets).

(** Where a join seen earlier lies *)
Definition beside o : Prop := ~ meets (whole o) (Z.lor A B).
Definition placed o : Prop := inside A o \/ inside B o \/ beside o.

Lemma inside_not_both o : special o -> inside A o -> inside B o -> False.
Proof.
  intros Ho H1 H2. destruct (syn_nonempty o Ho) as [Nl _], (whole_parts o) as (P1 & _). apply HAB. unfold inside in *. clear - H1 H2 Nl P1. mask_tac.
Qed.
Lemma inside_a_apart o : inside A o -> ~ meets (whole o) B.
Proof. unfold inside. intros H. clear - HAB H. mask_tac. Qed.
Lemma inside_b_apart o : inside B o -> ~ meets (whole o) A.
Proof. unfold inside. intros H. clear - HAB H. mask_tac. Qed.


(** ** The loop over lower joins *)
Definition unsafe o : bool := if ojrelid o =? 0 then false else contain_placeholder_references_to clauses (ojrelid o).
(** After the joins in [done]: the relations needed on both sides, and the joins that this one may trade places with. *)
Record sets_at (done : list SpecialJoinInfo) (ml mr bl br : Z) : Prop := {
  sa_left : within ml A;
  sa_right : within mr B;
  sa_clause_l : within (Z.land C A) (Z.lor ml bl);
  sa_clause_r : within (Z.land (Z.lor C I) B) (Z.lor mr br);
  sa_below_l b : 0 <= b -> Z.testbit bl b = true ->
    exists o, o ∈ done /\ inside A o /\ ojrelid o = b /\ t = JOIN_LEFT /\ jointype o = JOIN_LEFT /\ meets S (rhs o) /\ unsafe o = false;
  sa_below_r b : 0 <= b -> Z.testbit br b = true ->
    exists o, o ∈ done /\ inside B o /\ ojrelid o = b /\ t = JOIN_LEFT /\ jointype o = JOIN_LEFT /\ ~ meets C (syn_r o);
  sa_nested o : o ∈ done -> inside B o -> nested t mr o
}.
Definition sets_ok (done : list SpecialJoinInfo) s : Prop :=
  exists ml mr bl br, denotes (oj_min_left s) ml /\ denotes (oj_min_right s) mr /\ denotes (oj_below_l s) bl /\ denotes (oj_below_r s) br /\ sets_at done ml mr bl br.
Section Step.
Context (done : list SpecialJoinInfo) (ml mr bl br : Z) (Hs : sets_at done ml mr bl br) (o : SpecialJoinInfo) (Ho : special o).

Lemma done_snoc o' : o' ∈ done ++ [o] <-> o' ∈ done \/ o' = o.
Proof. by rewrite elem_of_app, list_elem_of_singleton. Qed.
(** [o] changes neither side. *)
Lemma sets_skip : ~ inside B o -> sets_at (done ++ [o]) ml mr bl br.
Proof.
  intros HnB. destruct Hs. split; try done.
  - intros b Hb H. destruct (sa_below_l0 b Hb H) as (o' & ? & ?). exists o'. rewrite done_snoc. auto.
  - intros b Hb H. destruct (sa_below_r0 b Hb H) as (o' & ? & ?). exists o'. rewrite done_snoc. auto.
  - intros o' [?| ->]%done_snoc; auto. done.
Qed.
Lemma sets_grow ml' mr' : within ml ml' -> within mr mr' -> within ml' A -> within mr' B -> (inside B o -> nested t mr' o) ->
  sets_at (done ++ [o]) ml' mr' bl br.
Proof.
  intros H1 H2 H3 H4 H5. destruct Hs as [S1 S2 S3 S4 S5 S6 S7]. split; try done.
  - clear - H1 S3. mask_tac.
  - clear - H2 S4. mask_tac.
  - intros b Hb H. destruct (S5 b Hb H) as (o' & ? & ?). exists o'. rewrite done_snoc. auto.
  - intros b Hb H. destruct (S6 b Hb H) as (o' & ? & ?). exists o'. rewrite done_snoc. auto.
  - intros o' [Hin| ->]%done_snoc Hb; [|auto]. destruct (S7 o' Hin Hb) as [Hw|Hw]; [left; by apply (within_trans _ mr)|by right].
Qed.
Lemma sets_swap_left : inside A o -> t = JOIN_LEFT -> jointype o = JOIN_LEFT -> meets S (rhs o) -> unsafe o = false ->
  sets_at (done ++ [o]) (Z.ldiff ml (2 ^ ojrelid o)) mr (Z.lor bl (2 ^ ojrelid o)) br.
Proof.
  intros HA' Ht Hj Hm Hu. pose proof (sp_relid _ Ho) as Hpos. destruct Hs as [S1 S2 S3 S4 S5 S6 S7]. split; try done.
  - clear - S1. mask_tac.
  - by apply within_trade.
  - intros b Hb [H|H]%testbit_lor.
    + destruct (S5 b Hb H) as (o' & ? & ?). exists o'. rewrite done_snoc. auto.
    + rewrite Z.pow2_bits_eqb, Z.eqb_eq in H by done. exists o. rewrite done_snoc. auto 10.
  - intros b Hb H. destruct (S6 b Hb H) as (o' & ? & ?). exists o'. rewrite done_snoc. auto.
  - intros o' [Hin| ->]%done_snoc Hb; [auto|]. by destruct (inside_not_both o Ho).
Qed.
Lemma sets_swap_right : inside B o -> t = JOIN_LEFT -> jointype o = JOIN_LEFT -> lhs_strict o = true -> ~ meets C (syn_r o) ->
  (forall o', o' ∈ done -> later o' o) -> sets_at (done ++ [o]) ml (Z.ldiff mr (2 ^ ojrelid o)) bl (Z.lor br (2 ^ ojrelid o)).
Proof.
  intros HB' Ht Hj Hst Hm Hlater. pose proof (sp_relid _ Ho) as Hpos. destruct Hs as [S1 S2 S3 S4 S5 S6 S7]. split; try done.
  - clear - S2. mask_tac.
  - by apply within_trade.
  - intros b Hb H. destruct (S5 b Hb H) as (o' & ? & ?). exists o'. rewrite done_snoc. auto.
  - intros b Hb [H|H]%testbit_lor.
    + destruct (S6 b Hb H) as (o' & ? & ?). exists o'. rewrite done_snoc. auto.
    + rewrite Z.pow2_bits_eqb, Z.eqb_eq in H by done. exists o. rewrite done_snoc. auto 10.
  - intros o' [Hin| ->]%done_snoc Hb; [|right; auto]. destruct (S7 o' Hin Hb) as [Hw|Hw]; [left|by right].
    assert (~ meets (Z.lor (syn_l o') (syn_r o')) (2 ^ ojrelid o)) as Hno.
    { pose proof (Hlater o' Hin) as Hl. unfold later, oj_bits, whole in Hl. pose proof (sp_type _ Ho) as Hpos'. rewrite Hj in Hpos'.
      rewrite (proj2 (Z.eqb_neq _ _)) in Hl by lia. clear - Hl. mask_tac. }
    clear - Hno Hw. mask_tac.
Qed.
End Step.

Context (Ht : t = JOIN_LEFT \/ t = JOIN_SEMI \/ t = JOIN_ANTI).
Lemma not_full o : special o -> is_join JOIN_FULL o = false -> jointype o = JOIN_LEFT \/ jointype o = JOIN_SEMI \/ jointype o = JOIN_ANTI.
Proof. intros Ho Hf%is_join_false. pose proof (sp_type _ Ho) as H. destruct (jointype o); auto; done. Qed.
Lemma not_inside_b o : special o -> ~ meets (whole o) B -> ~ inside B o.
Proof. intros Ho Hn Hin. destruct (syn_nonempty o Ho) as [Nl _], (whole_parts o) as (P1 & _). apply Hn. unfold inside in Hin. clear - Hin Nl P1. mask_tac. Qed.

Lemma lower_step_left done s o : sets_ok done s -> special o -> inside A o ->
  exists s', lower_step left_rels right_rels clause_relids strict_relids t clauses s o = Ok s' /\ sets_ok (done ++ [o]) s'.
Proof.
  intros (ml & mr & bl & br & Dml & Dmr & Dbl & Dbr & Hs) Ho Hin. pose proof (inside_a_apart o Hin) as Hno. pose proof (not_inside_b o Ho Hno) as HnB.
  destruct (inside_overlap left_rels A o HA Ho Hin) as [E1 E2], (outside_overlap right_rels B o HB Ho Hno) as [E3 E4].
  destruct (add_whole_ok _ _ o Dml Ho) as (rels & Eadd & Drels).
  assert (sets_at (done ++ [o]) (Z.lor ml (whole o)) mr bl br) as Hgrow.
  { apply (sets_grow done ml mr bl br Hs o); [apply within_part_l|apply within_refl|apply within_lor_l; split; [apply Hs|done]|apply Hs|done]. }
  assert (exists s', add_left s o = Ok s' /\ sets_ok (done ++ [o]) s') as Hadd.
  { unfold add_left. rewrite Eadd. cbn [mbind result_bind]. eexists. split; [done|]. by exists (Z.lor ml (whole o)), mr, bl, br. }
  assert (sets_ok (done ++ [o]) s) as Hskip by (exists ml, mr, bl, br; split_and!; try done; by apply (sets_skip done ml mr bl br)).
  unfold lower_step. destruct (is_join JOIN_FULL o) eqn:Ef.
  - unfold full_step. apply is_join_true in Ef. pose proof (sp_type _ Ho) as Hpos. rewrite Ef in Hpos. rewrite (proj2 (Z.eqb_neq _ 0)) by lia.
    rewrite E1, E2, E3, E4. cbn [orb]. destruct Hadd as (s' & -> & Hs'). by exists s'.
  - fold (unsafe o). assert (forall s', right_step right_rels clause_relids t (unsafe o) s' o = Ok s') as Hr by (intros; unfold right_step; by rewrite E3).
    unfold left_step. rewrite E1. destruct (_ && (_ || _ || _ || _)) eqn:Ec.
    { destruct Hadd as (s' & -> & Hs'). cbn [mbind result_bind]. rewrite Hr. by exists s'. }
    destruct (bool_decide (t = JOIN_LEFT) && _ && _ && _) eqn:Ec2; [|cbn [mbind result_bind]; rewrite Hr; by exists s].
    apply andb_true_iff in Ec2 as [[[Htl%bool_decide_eq_true Hol%is_join_true]%andb_true_iff Hov]%andb_true_iff _].
    destruct (overlap_min_r _ _ o HS Ho) as [Hm|]; [|done].
    destruct (del_member_denotes _ _ Dml (ojrelid o) (sp_relid _ Ho)) as (ml' & -> & Dml').
    destruct (add_member_denotes _ _ Dbl (ojrelid o) (sp_relid _ Ho)) as (bl' & Eb & Dbl'). cbn [mbind result_bind]. rewrite Eb. cbn [mbind result_bind]. rewrite Hr.
    eexists. split; [done|]. eexists _, _, _, _. cbn. split_and!; [done..|]. apply (sets_swap_left done ml mr bl br); try done.
    destruct (unsafe o); [|done]. cbn [orb] in Ec. rewrite andb_true_r in Ec. destruct (overlap_syn_r _ _ o HC Ho) as [|Hn]; [done|].
    exfalso. apply Hn. pose proof (proj2 (sp_right _ Ho)). clear - Hm HSC H. mask_tac.
Qed.
Lemma lower_step_right done s o : sets_ok done s -> special o -> inside B o -> (forall o', o' ∈ done -> later o' o) ->
  exists s', lower_step left_rels right_rels clause_relids strict_relids t clauses s o = Ok s' /\ sets_ok (done ++ [o]) s'.
Proof.
  intros (ml & mr & bl & br & Dml & Dmr & Dbl & Dbr & Hs) Ho Hin Hlater. pose proof (inside_b_apart o Hin) as Hno.
  destruct (inside_overlap right_rels B o HB Ho Hin) as [E1 E2], (outside_overlap left_rels A o HA Ho Hno) as [E3 E4].
  destruct (add_whole_ok _ _ o Dmr Ho) as (rels & Eadd & Drels). destruct (whole_parts o) as (P1 & P2 & _).
  assert (sets_at (done ++ [o]) ml (Z.lor mr (whole o)) bl br) as Hgrow.
  { apply (sets_grow done ml mr bl br Hs o); [apply within_refl|apply within_part_l|apply Hs|apply within_lor_l; split; [apply Hs|done]|].
    intros _. left. clear - P1 P2. mask_tac. }
  assert (exists s', add_right s o = Ok s' /\ sets_ok (done ++ [o]) s') as (s1 & Hadd & Hs1).
  { unfold add_right. rewrite Eadd. cbn [mbind result_bind]. eexists. split; [done|]. by exists ml, (Z.lor mr (whole o)), bl, br. }
  unfold lower_step. destruct (is_join JOIN_FULL o) eqn:Ef.
  - unfold full_step. apply is_join_true in Ef. pose proof (sp_type _ Ho) as Hpos. rewrite Ef in Hpos. rewrite (proj2 (Z.eqb_neq _ 0)) by lia.
    rewrite E1, E2, E3, E4. cbn [orb mbind result_bind]. by exists s1.
  - fold (unsafe o). unfold left_step. rewrite E3. cbn [mbind result_bind]. unfold right_step. rewrite E1.
    destruct (_ || negb (lhs_strict o)) eqn:Ec; [by exists s1|].
    apply orb_false_iff in Ec as [Ec Hst%negb_false_iff]. repeat (apply orb_false_iff in Ec as [Ec ?]).
    destruct (not_full o Ho Ef) as [Hol|[Hos|Hoa]]; [|by apply is_join_false in H0|by apply is_join_false in H].
    assert (t = JOIN_LEFT) as Htl by (destruct Ht as [|[->| ->]]; done).
    rewrite bool_decide_true, (proj2 (is_join_true _ _) Hol), Hst by done. cbn [andb].
    destruct (del_member_denotes _ _ Dmr (ojrelid o) (sp_relid _ Ho)) as (mr' & -> & Dmr').
    destruct (add_member_denotes _ _ Dbr (ojrelid o) (sp_relid _ Ho)) as (br' & Eb & Dbr'). cbn [mbind result_bind]. rewrite Eb. cbn [mbind result_bind].
    eexists. split; [done|]. eexists _, _, _, _. cbn. split_and!; [done..|]. apply (sets_swap_right done ml mr bl br); try done.
    destruct (overlap_syn_r _ _ o HC Ho) as [|Hn]; [done|]. done.
Qed.
Lemma lower_step_beside done s o : sets_ok done s -> special o -> beside o ->
  exists s', lower_step left_rels right_rels clause_relids strict_relids t clauses s o = Ok s' /\ sets_ok (done ++ [o]) s'.
Proof.
  intros (ml & mr & bl & br & Dml & Dmr & Dbl & Dbr & Hs) Ho Hin. unfold beside in Hin.
  assert (~ meets (whole o) A) as HnA by (clear - Hin; mask_tac). assert (~ meets (whole o) B) as HnB by (clear - Hin; mask_tac).
  destruct (outside_overlap right_rels B o HB Ho HnB) as [E1 E2], (outside_overlap left_rels A o HA Ho HnA) as [E3 E4].
  assert (sets_ok (done ++ [o]) s) as Hskip by (exists ml, mr, bl, br; split_and!; try done; apply (sets_skip done ml mr bl br); try done; by apply not_inside_b).
  exists s. split; [|done]. unfold lower_step. destruct (is_join JOIN_FULL o) eqn:Ef.
  - unfold full_step. apply is_join_true in Ef. pose proof (sp_type _ Ho) as Hpos. rewrite Ef in Hpos. rewrite (proj2 (Z.eqb_neq _ 0)) by lia.
    by rewrite E1, E2, E3, E4.
  - unfold left_step, right_step. by rewrite E1, E3.
Qed.
Lemma lower_loop_ok l : forall done s, sets_ok done s -> Forall special l -> Forall placed l -> StronglySorted later (done ++ l) ->
  exists s', lower_loop left_rels right_rels clause_relids strict_relids t clauses l s = Ok s' /\ sets_ok (done ++ l) s'.
Proof.
  induction l as [|o l IH]; intros done s Hs Hsp Hpl Hord; [exists s; by rewrite app_nil_r|].
  apply Forall_cons in Hsp as [Ho Hsp]. apply Forall_cons in Hpl as [Hp Hpl]. cbn [lower_loop].
  assert (forall o', o' ∈ done -> later o' o) as Hlater by (intros o' Ho'; eapply (StronglySorted_app_1_elem_of _ done (o :: l)); [done|done|by left]).
  assert (exists s', lower_step left_rels right_rels clause_relids strict_relids t clauses s o = Ok s' /\ sets_ok (done ++ [o]) s') as (s1 & -> & Hs1)
    by (destruct Hp as [H|[H|H]]; [by apply lower_step_left|by apply lower_step_right|by apply lower_step_beside]).
  cbn [mbind result_bind]. destruct (IH (done ++ [o]) s1) as (s' & -> & Hs'); [done|done|done|by rewrite <- app_assoc|].
  exists s'. split; [done|]. by rewrite <- app_assoc in Hs'.
Qed.
End Make.

(** ** The rest of [make_outerjoininfo] *)
Lemma check_row_marks_ok l left_rels right_rels A B t : denotes left_rels A -> denotes right_rels B ->
  Forall (fun rc => 0 <= rm_rti rc /\ Z.testbit B (rm_rti rc) = false /\ (t = JOIN_FULL -> Z.testbit A (rm_rti rc) = false)) l ->
  check_row_marks l left_rels right_rels t = Ok ().
Proof.
  intros HA HB. induction 1 as [|rc l (Hp & H1 & H2) _ IH]; [done|]. cbn [check_row_marks]. rewrite (is_member_denotes _ _ HB), H1 by done. cbn [mbind result_bind].
  destruct (bool_decide (t = JOIN_FULL)) eqn:Et; [|done]. apply bool_decide_eq_true in Et. by rewrite (is_member_denotes _ _ HA), (H2 Et) by done.
Qed.
(** A placeholder is evaluated below the place where it was written. *)
Definition placeholder_ok (phinfo : PlaceHolderInfo) : Prop :=
  bms_wf (phrels phinfo) /\ bms_wf (ph_eval_at phinfo) /\ within (bms_val (ph_eval_at phinfo)) (bms_val (phrels phinfo)).
Lemma placeholder_loop_ok l right_rels B : Forall placeholder_ok l -> denotes right_rels B -> forall mr x, denotes mr x -> within x B ->
  exists y, denotes (placeholder_loop l right_rels mr) y /\ within x y /\ within y B.
Proof.
  intros Hl HB. induction Hl as [|phinfo l (W1 & W2 & Hw) _ IH]; intros mr x Hx Hin; [exists x; split; [done|]; split; [apply within_refl|done]|].
  cbn [placeholder_loop]. assert (denotes (phrels phinfo) (bms_val (phrels phinfo))) as Hph by done.
  destruct (subset_denotes _ _ _ _ Hph HB) as [Hsub|]; [|by apply IH].
  destruct (IH (bms_add_members mr (ph_eval_at phinfo)) (Z.lor x (bms_val (ph_eval_at phinfo)))) as (y & Hy & H1 & H2); [by apply denotes_add_members| |].
  - apply within_lor_l. split; [done|]. eauto using within_trans.
  - exists y. split; [done|]. split; [|done]. by apply within_lor_l in H1 as [? _].
Qed.
(** A lower join has learned that the join [relid] may trade places with it. *)
Definition learned (relid : Z) (s s' : SpecialJoinInfo) : Prop :=
  same_join s s' /\ special s' /\ within (above_r s') (Z.lor (above_r s) (oj_bits relid)).
Lemma learned_refl relid s : special s -> learned relid s s.
Proof. intros H. split; [done|]. split; [done|apply within_part_l]. Qed.
Lemma commute_step_ok below_l below_r x y relid o : denotes below_l x -> denotes below_r y -> 0 < relid -> special o ->
  exists o', commute_step below_l below_r relid o = Ok o' /\ learned relid o o'.
Proof.
  intros Hx Hy Hr Ho. unfold commute_step. pose proof (sp_relid _ Ho) as Hp. destruct (sp_commute _ Ho) as (W1 & W2 & W3).
  assert (forall a b, bms_wf a -> bms_wf b -> within (bms_val b) (Z.lor (above_r o) (oj_bits relid)) -> learned relid o (set_commute_above o a b)) as Hset.
  { intros a b Wa Wb Hw. split; [by split|]. split; [|done]. destruct Ho. by split. }
  rewrite (is_member_denotes _ _ Hx), (is_member_denotes _ _ Hy) by done. cbn [mbind result_bind]. destruct (Z.testbit x (ojrelid o)).
  - destruct (add_member_denotes (commute_above_l o) (bms_val (commute_above_l o)) (conj W2 eq_refl) relid) as (a & -> & Wa & _); [lia|].
    cbn [mbind result_bind]. eexists. split; [done|]. apply Hset; [done|done|]. apply within_part_l.
  - destruct (Z.testbit y (ojrelid o)); [|eexists; split; [done|]; by apply learned_refl].
    destruct (add_member_denotes (commute_above_r o) (bms_val (commute_above_r o)) (conj W3 eq_refl) relid) as (a & -> & Wa & Va); [lia|].
    cbn [mbind result_bind]. eexists. split; [done|]. apply Hset; [done|done|]. unfold above_r, oj_bits. rewrite Va, (proj2 (Z.eqb_neq _ 0)) by lia. apply within_refl.
Qed.
Lemma commute_loop_ok below_l below_r x y relid l : denotes below_l x -> denotes below_r y -> 0 < relid -> Forall special l ->
  exists l', commute_loop below_l below_r relid l = Ok l' /\ Forall2 (learned relid) l l'.
Proof.
  intros Hx Hy Hr. induction 1 as [|o l Ho _ IH]; [by exists []|]. cbn [commute_loop].
  destruct (commute_step_ok _ _ _ _ _ o Hx Hy Hr Ho) as (o' & -> & Ho'). destruct IH as (l' & El & Hl'). cbn [mbind result_bind]. rewrite El. cbn [mbind result_bind].
  exists (o' :: l'). split; [done|]. by constructor.
Qed.

Lemma set_join_info_id {Expr} (st : JTRoot Expr) : set_join_info st (im_join_info (jt_root st)) = st.
Proof. by destruct st as [[] ? ? ? ? ? ? ? ? ?]. Qed.
Section Info.
Context {Expr : Type} `{!ExprOps Expr} `{!OpFamilies Expr} `{!QualOps Expr} `{!OuterOps Expr} (g : JTQuery Expr).
#[local] Abbreviation Clause := (ClauseNode (Expr := Expr)).
(** The join [s] that [make_outerjoininfo] makes for the sides [A] and [B], after the joins [L]; [C] are the relations of its clauses, [I] those that lower inner
    joins hold together. *)
Record made (clauses : list Clause) (A B C I : Z) (L : list SpecialJoinInfo) (s : SpecialJoinInfo) : Prop := {
  md_special : special s;
  md_fresh : above_r s = 0;
  md_below b : 0 <= b -> Z.testbit (below_l s) b = true -> jointype s = JOIN_LEFT /\ lhs_strict s = true /\
    exists o, o ∈ L /\ inside A o /\ ojrelid o = b /\ jointype o = JOIN_LEFT /\ unsafe clauses o = false;
  md_below_r b : 0 <= b -> Z.testbit (bms_val (commute_below_r s)) b = true -> exists o, o ∈ L /\ inside B o /\ ojrelid o = b /\ jointype o = JOIN_LEFT /\ ~ meets C (syn_r o);
  md_below_wf : bms_wf (commute_below_r s);
  md_left : within (Z.land C A) (Z.lor (lhs s) (below_l s));
  md_right : within (Z.land (Z.lor C I) B) (Z.lor (rhs s) (bms_val (commute_below_r s)));
  md_nested o : o ∈ L -> inside B o -> nested (jointype s) (rhs s) o
}.
Record named st (left_rels right_rels : bitmapset) (t : JoinType) (relid : Z) (s : SpecialJoinInfo) : Prop := {
  nm_ptr : sj_ptr s = S (length (im_join_info (jt_root (Expr := Expr) st)));
  nm_left : syn_lefthand s = left_rels;
  nm_right : syn_righthand s = right_rels;
  nm_type : jointype s = t;
  nm_relid : ojrelid s = relid
}.
Section One.
Context (left_rels right_rels inner_rels : bitmapset) (A B C S I : Z) (t : JoinType) (relid : Z) (clauses : list Clause) (L : list SpecialJoinInfo).
Context (HA : denotes left_rels A) (HB : denotes right_rels B) (HI : denotes inner_rels I) (HC : denotes (clauses_varnos clauses) C) (HS : denotes (find_nonnullable_rels clauses) S).
Context (HSC : within S C) (NA : A <> 0) (NB : B <> 0) (HAB : ~ meets A B) (Hrelid : 0 <= relid).
Context (Ht : match t with JOIN_LEFT | JOIN_FULL => 0 < relid | JOIN_SEMI | JOIN_ANTI => True | _ => False end) (Hsp : Forall special L).
Lemma learned_self : Forall2 (learned relid) L L.
Proof. apply Forall_Forall2_diag. eapply Forall_impl; [exact Hsp|]. apply learned_refl. Qed.
Lemma full_made ptr : t = JOIN_FULL -> made clauses A B C I L {| sj_ptr := ptr; min_lefthand := bms_copy left_rels; min_righthand := bms_copy right_rels; syn_lefthand := left_rels;
  syn_righthand := right_rels; jointype := t; ojrelid := relid; commute_above_l := None; commute_above_r := None; commute_below_l := None; commute_below_r := None; lhs_strict := false |}.
Proof.
  intros Ef. destruct HA as [WA VA], HB as [WB VB]. unfold bms_copy. split; cbn; try done.
  - split; cbn; unfold lhs, rhs, syn_l, syn_r, below_l; cbn; rewrite ?VA, ?VB; try done; try (split; [done|apply within_refl]).
  - intros b _. by rewrite testbit_0.
  - intros b _. by rewrite testbit_0.
  - unfold lhs. cbn. rewrite VA. clear. mask_tac.
  - unfold rhs. cbn. rewrite VB. clear. mask_tac.
  - intros o _ Hin. left. unfold rhs. cbn. rewrite VB. destruct (whole_parts o) as (P1 & P2 & _). unfold inside in Hin. clear - P1 P2 Hin. mask_tac.
Qed.
Lemma start_sets : sets_ok A B C S I t clauses [] {| oj_min_left := bms_intersect (clauses_varnos clauses) left_rels;
  oj_min_right := bms_int_members (bms_union (clauses_varnos clauses) inner_rels) right_rels; oj_below_l := None; oj_below_r := None |}.
Proof.
  exists (Z.land C A), (Z.land (Z.lor C I) B), 0, 0. split; [by apply denotes_intersect|]. split; [apply denotes_int_members; [by apply denotes_union|done]|].
  split; [done|]. split; [done|]. split.
  1-4: clear; mask_tac.
  1-2: intros b _; by rewrite testbit_0.
  by intros o ?%not_elem_of_nil.
Qed.
(** The sides [lm] and [rm] in the end, after the sets [ml] to [br] of the loop over lower joins *)
Section Sides.
Context (ml mr bl br lm rm : Z) (min_left min_right : bitmapset) (Hs : sets_at A B C S I t clauses L ml mr bl br).
Context (Dlm : denotes min_left lm) (Drm : denotes min_right rm) (Nlm : lm <> 0) (Nrm : rm <> 0).
Context (Hlm : within ml lm) (Hrm : within mr rm) (HlmA : within lm A) (HrmB : within rm B).
(** Only left joins trade places. *)
Lemma left_trades : t <> JOIN_LEFT -> Z.ldiff bl lm = 0 /\ Z.ldiff br rm = 0.
Proof.
  intros Hne. destruct Hs as [_ _ _ _ S5 S6 _]. split; apply bits_zero; intros b Hb; apply not_true_iff_false; rewrite testbit_ldiff; intros [H _];
    [destruct (S5 b Hb H) as (? & _ & _ & _ & ? & _)|destruct (S6 b Hb H) as (? & _ & _ & _ & ? & _)]; done.
Qed.
Lemma below_inside b : 0 <= b -> Z.testbit bl b = true -> Z.testbit A b = true.
Proof.
  intros Hb H. destruct (sa_below_l _ _ _ _ _ _ _ _ _ _ _ _ Hs b Hb H) as (o & Ho & Hin & <- & _ & Hol & _). destruct (whole_parts o) as (_ & _ & P3).
  apply (within_bit _ _ (ojrelid o) Hin Hb), (within_bit _ _ (ojrelid o) P3 Hb), (proj2 (oj_bits_spec _ _ Hb Hb)). split; [|done].
  rewrite Forall_forall in Hsp. pose proof (sp_type _ (Hsp o Ho)) as Hp. rewrite Hol in Hp. lia.
Qed.
Lemma sides_made below_l' below_r' ptr : denotes below_l' (Z.ldiff bl lm) -> denotes below_r' (Z.ldiff br rm) ->
  made clauses A B C I L {| sj_ptr := ptr; min_lefthand := min_left; min_righthand := min_right; syn_lefthand := left_rels; syn_righthand := right_rels; jointype := t;
    ojrelid := relid; commute_above_l := None; commute_above_r := None; commute_below_l := below_l'; commute_below_r := below_r';
    lhs_strict := bms_overlap (find_nonnullable_rels clauses) left_rels |}.
Proof.
  intros [Wl Vl] [Wr Vr]. pose proof below_inside as Hbelow. destruct Hs as [S1 S2 S3 S4 S5 S6 S7]. destruct Dlm as [W1 V1], Drm as [W2 V2], HA as [WA VA], HB as [WB VB].
  split; cbn; unfold lhs, rhs, syn_l, syn_r, SpecialJoins.below_l, SpecialJoins.above_r; cbn; rewrite ?V1, ?V2, ?VA, ?VB, ?Vl, ?Vr; try done.
  - split; cbn; unfold lhs, rhs, syn_l, syn_r, SpecialJoins.below_l; cbn; rewrite ?V1, ?V2, ?VA, ?VB, ?Vl, ?Vr; try done.
    apply within_bits. intros b Hb [H _]%testbit_ldiff. by apply Hbelow.
  - intros b Hb [H _]%testbit_ldiff. destruct (S5 b Hb H) as (o & Ho & Hin & Eb & Etl & Hol & Hm & Hu). split; [done|]. split; [|by exists o].
    destruct (overlap_denotes (find_nonnullable_rels clauses) left_rels S A HS (conj WA VA)) as [|Hn]; [done|]. exfalso. apply Hn.
    destruct (whole_parts o) as (_ & P2 & _). rewrite Forall_forall in Hsp. pose proof (proj2 (sp_right _ (Hsp o Ho))) as P4. unfold inside in Hin. clear - Hm Hin P2 P4. mask_tac.
  - intros b Hb [H _]%testbit_ldiff. destruct (S6 b Hb H) as (o & Ho & Hin & Eb & _ & Hol & Hn). by exists o.
  - by apply (within_rest _ ml).
  - by apply (within_rest _ mr).
  - intros o Ho Hin. destruct (S7 o Ho Hin) as [Hw|Hw]; [left; eauto using within_trans|by right].
Qed.
End Sides.
(** An empty side is replaced by the whole one. *)
Lemma side_filled rels x all X : denotes rels x -> denotes all X -> within x X -> X <> 0 ->
  exists y, denotes (if bms_is_empty rels then bms_copy all else rels) y /\ y <> 0 /\ within x y /\ within y X.
Proof.
  intros Hx HX Hw Hne. rewrite (empty_denotes _ _ Hx). destruct (Z.eqb_spec x 0) as [->|]; [exists X|exists x]; (split; [done|]; split; [done|]; split); try apply within_refl; done.
Qed.
End One.
Lemma make_outerjoininfo_ok st left_rels right_rels inner_rels A B C S I t relid clauses : denotes left_rels A -> denotes right_rels B -> denotes inner_rels I ->
  denotes (clauses_varnos clauses) C -> denotes (find_nonnullable_rels clauses) S -> within S C -> A <> 0 -> B <> 0 -> ~ meets A B -> 0 <= relid ->
  match t with JOIN_LEFT | JOIN_FULL => 0 < relid | JOIN_SEMI | JOIN_ANTI => True | _ => False end ->
  let L := im_join_info (jt_root st) in
  Forall special L -> Forall (placed A B) L -> StronglySorted later L ->
  Forall (fun rc => 0 <= rm_rti rc /\ Z.testbit B (rm_rti rc) = false /\ (t = JOIN_FULL -> Z.testbit A (rm_rti rc) = false)) (rowMarks g) ->
  Forall placeholder_ok (jq_placeholders g) ->
  exists s semi L', make_outerjoininfo g st left_rels right_rels inner_rels t relid clauses = Ok (s, semi, set_join_info st L') /\
    Forall2 (learned relid) L L' /\ made clauses A B C I L s /\ named st left_rels right_rels t relid s.
Proof.
  intros HA HB HI HC HS HSC NA NB HAB Hrelid Ht L Hsp Hpl Hord Hrow Hph. unfold make_outerjoininfo. fold L. pose proof (learned_self relid L Hsp) as Hself.
  rewrite (bool_decide_false (t = JOIN_INNER)), (bool_decide_false (t = JOIN_RIGHT)) by (by intros E; rewrite E in Ht). rewrite (check_row_marks_ok _ _ _ _ _ _ HA HB Hrow). cbn [orb mbind result_bind].
  destruct (bool_decide (t = JOIN_FULL)) eqn:Ef.
  { apply bool_decide_eq_true in Ef. eexists _, _, L. split; [unfold L; by rewrite set_join_info_id|]. split; [done|]. split; [|by split]. by apply (full_made left_rels right_rels A B C I t relid clauses L). }
  apply bool_decide_eq_false in Ef. assert (t = JOIN_LEFT \/ t = JOIN_SEMI \/ t = JOIN_ANTI) as Ht' by (destruct t; auto; done).
  destruct (lower_loop_ok left_rels right_rels (clauses_varnos clauses) (find_nonnullable_rels clauses) A B C S I t clauses HA HB HC HS HAB HSC Ht' L [] _
    (start_sets left_rels right_rels inner_rels A B C S I t clauses HA HB HI HC) Hsp Hpl Hord)
    as (s & -> & ml & mr & bl & br & Dml & Dmr & Dbl & Dbr & Hs). cbn [mbind result_bind app] in *.
  destruct (placeholder_loop_ok _ _ _ Hph HB _ _ Dmr (sa_right _ _ _ _ _ _ _ _ _ _ _ _ Hs)) as (mr1 & Dmr1 & Hgrow & Hmr1).
  destruct (side_filled _ ml left_rels A Dml HA (sa_left _ _ _ _ _ _ _ _ _ _ _ _ Hs) NA) as (lm & Dlm & Nlm & Hlm & HlmA). destruct (side_filled _ mr1 right_rels B Dmr1 HB Hmr1 NB) as (rm & Drm & Nrm & Hrm' & HrmB).
  assert (within mr rm) as Hrm by eauto using within_trans. set (min_left := if bms_is_empty (oj_min_left s) then _ else _) in *. set (min_right := if bms_is_empty (placeholder_loop _ _ _) then _ else _) in *.
  rewrite (empty_denotes _ _ Dlm), (empty_denotes _ _ Drm), (proj2 (Z.eqb_neq lm 0)), (proj2 (Z.eqb_neq rm 0)) by done. cbn [orb].
  destruct (overlap_denotes _ _ _ _ Dlm Drm) as [Hm|_]; [exfalso; apply HAB; clear - Hm HlmA HrmB; mask_tac|].
  pose proof (denotes_del_members _ _ _ _ Dbl Dlm) as Dl. pose proof (denotes_del_members _ _ _ _ Dbr Drm) as Dr.
  pose proof (sides_made left_rels right_rels A B C S I t relid clauses L HA HB HS Hrelid Ht Hsp ml mr bl br lm rm min_left min_right Hs Dlm Drm Nlm Nrm Hlm Hrm HlmA HrmB) as Hmade.
  set (below_l := bms_del_members (oj_below_l s) min_left) in *. set (below_r := bms_del_members (oj_below_r s) min_right) in *.
  destruct (negb (bms_is_empty below_l) || negb (bms_is_empty below_r)) eqn:Ene.
  - assert (0 < relid) as Hpos.
    { destruct (decide (t = JOIN_LEFT)) as [->|Hne]; [done|exfalso]. destruct (left_trades A B C S I t clauses L ml mr bl br lm rm Hs Hne) as [E1 E2]. rewrite E1 in Dl. rewrite E2 in Dr.
      apply denotes_zero in Dl, Dr. by rewrite Dl, Dr in Ene. }
    destruct (commute_loop_ok _ _ _ _ relid L Dl Dr Hpos Hsp) as (L' & -> & HL'). cbn [mbind result_bind]. eexists _, _, L'. split; [done|]. split; [done|].
    split; [by apply Hmade|by split].
  - apply orb_false_iff in Ene as [El%negb_false_iff Er%negb_false_iff]. assert (below_l = None) as E1 by (by destruct below_l). assert (below_r = None) as E2 by (by destruct below_r).
    eexists _, _, L. split; [unfold L; by rewrite set_join_info_id|]. split; [done|]. split; [|by split]. apply Hmade; [by rewrite <- E1|by rewrite <- E2].
Qed.
End Info.
