(* ===== verification/JoinTree.v ===== *)
(** * Deconstructing the join tree ([src/backend/optimizer/plan/initsplan.c])

    [deconstruct_jointree] walks over the join tree twice: the first scan computes the scopes and join domains of the nodes and the list
    of relations to be joined, the second one makes the special joins and distributes the quals, except the postponed ones of left joins. *)
From stdpp Require Import gmap.
From S2P Require Import Prelude BitUtils Bitmapset BitmapsetSpec BitmapsetIter EquivClass PathKeys JoinRoot JoinRels ImpliedEq Quals OuterJoin.
#[local] Open Scope Z_scope.

Definition jointype_msg : string := "unrecognized join type: %d".

Section JoinTree.
Context {Expr : Type} `{!ExprOps Expr} `{!OpFamilies Expr} `{!QualOps Expr} `{!OuterOps Expr} (g : JTQuery Expr).
#[local] Abbreviation Clause := (ClauseNode (Expr := Expr)).
#[local] Abbreviation State := (JTRoot Expr).
#[local] Abbreviation Item := (JoinTreeItem Expr).
Implicit Types (st : State) (item : Item) (node : JoinNode Expr).

(** ** State changes *)
Definition set_jdomains st (jds : list bitmapset) : State :=
  let root := jt_root st in
  set_jt_root st {| im_ec := im_ec root; im_clauses := im_clauses root; im_next := im_next root; im_rels := im_rels root;
                    im_all_query_rels := im_all_query_rels root; im_join_info := im_join_info root; im_jdomains := jds |}.
(** [makeNode(JoinDomain)], added to [join_domains] *)
Definition new_domain st : nat * State :=
  (length (im_jdomains (jt_root st)), set_jdomains st (im_jdomains (jt_root st) ++ [None])).
Definition set_domain st (jd : nat) (rs : bitmapset) : State := set_jdomains st (<[jd := rs]> (im_jdomains (jt_root st))).
Definition get_domain st (jd : nat) : bitmapset := jd_relids (jt_root st) jd.
Definition set_scopes st (baserels outer_rels : bitmapset) (nulling : list bitmapset) : State :=
  {| jt_root := jt_root st; all_baserels := baserels; outer_join_rels := outer_rels; nulling_relids := nulling; jt_items := jt_items st;
     semi_infos := semi_infos st; left_join_clauses := left_join_clauses st; right_join_clauses := right_join_clauses st; full_join_clauses := full_join_clauses st;
     hasPseudoConstantQuals := hasPseudoConstantQuals st |}.
Definition set_all_query_rels st (rs : bitmapset) : State :=
  let root := jt_root st in
  set_jt_root st {| im_ec := im_ec root; im_clauses := im_clauses root; im_next := im_next root; im_rels := im_rels root;
                    im_all_query_rels := rs; im_join_info := im_join_info root; im_jdomains := im_jdomains root |}.
Definition set_semi_infos st (l : list (SemiJoinInfo Expr)) : State :=
  {| jt_root := jt_root st; all_baserels := all_baserels st; outer_join_rels := outer_join_rels st; nulling_relids := nulling_relids st; jt_items := jt_items st;
     semi_infos := l; left_join_clauses := left_join_clauses st; right_join_clauses := right_join_clauses st; full_join_clauses := full_join_clauses st;
     hasPseudoConstantQuals := hasPseudoConstantQuals st |}.
Definition add_join_info st (sjinfo : SpecialJoinInfo) (semi : SemiJoinInfo Expr) : State :=
  set_semi_infos (set_join_info st (im_join_info (jt_root st) ++ [sjinfo])) (semi_infos st ++ [semi]).
(** [palloc0_object(JoinTreeItem)] *)
Definition new_item st node (parent : option nat) : nat * State :=
  (length (jt_items st),
   set_jt_items st (jt_items st ++
     [{| jtnode := node; jdomain := 0; jti_parent := parent; qualscope := None; inner_join_rels := None; left_rels := None; right_rels := None;
         nonnullable_rels := None; jti_sjinfo := None; oj_joinclauses := []; lateral_clauses := [] |}])).
Definition fill_item item (jd : nat) (scope inner left right nonnullable : bitmapset) : Item :=
  {| jtnode := jtnode item; jdomain := jd; jti_parent := jti_parent item; qualscope := scope; inner_join_rels := inner; left_rels := left;
     right_rels := right; nonnullable_rels := nonnullable; jti_sjinfo := jti_sjinfo item; oj_joinclauses := oj_joinclauses item;
     lateral_clauses := lateral_clauses item |}.
Definition fill st (k jd : nat) (scope inner left right nonnullable : bitmapset) : State :=
  set_item st k (fill_item (get_item st k) jd scope inner left right nonnullable).
Definition last_item st (item_list : list nat) : result Item :=
  match last item_list with Some k => Ok (get_item st k) | None => Error assert_msg end.

(** [mark_rels_nulled_by_join]: the loop [while ((relid = bms_next_member(lower_rels, relid)) > 0)] *)
Fixpoint mark_nulled_loop (fuel : nat) st (ojrelid : Z) (lower_rels : bitmapset) (relid : Z) : result State :=
  match fuel with
  | O => NoFuel
  | S fuel =>
      let relid := next_member lower_rels relid in
      if relid >? 0 then
        match im_rels (jt_root st) !! Z.to_nat relid, nulling_relids st !! Z.to_nat relid with
        | Some (Base _), Some rs =>
            rs ← bms_add_member rs ojrelid;
            mark_nulled_loop fuel (set_scopes st (all_baserels st) (outer_join_rels st) (<[Z.to_nat relid := rs]> (nulling_relids st))) ojrelid lower_rels relid
        | Some (Base _), None | None, _ => Error bounds_msg
        | Some _, _ =>
            outer ← bms_is_member relid (outer_join_rels st);
            if (outer : bool) then mark_nulled_loop fuel st ojrelid lower_rels relid else Error assert_msg
        end
      else Ok st
  end.
Definition mark_rels_nulled_by_join st (ojrelid : Z) (lower_rels : bitmapset) : result State :=
  mark_nulled_loop (S (S (Z.to_nat (bms_capacity lower_rels)))) st ojrelid lower_rels (-1).

(** ** The first scan *)

(** An outer join with a range table index adds that to the parent's join domain and to its own scope. *)
Definition add_ojrelid st (parent_domain : nat) (scope : bitmapset) (rtindex : Z) : result (State * bitmapset) :=
  rs ← bms_add_member (get_domain st parent_domain) rtindex;
  scope ← bms_add_member scope rtindex;
  outer ← bms_add_member (outer_join_rels st) rtindex;
  Ok (set_scopes (set_domain st parent_domain rs) (all_baserels st) outer (nulling_relids st), scope).
Definition join_joinlist (jointype : JoinType) (leftjoinlist rightjoinlist : list JoinItem) : list JoinItem :=
  if bool_decide (jointype = JOIN_FULL) then [SubJoinlist [SubJoinlist leftjoinlist; SubJoinlist rightjoinlist]]
  else if Z.of_nat (length leftjoinlist) + Z.of_nat (length rightjoinlist) <=? join_collapse_limit g then leftjoinlist ++ rightjoinlist
  else
    let part l := match l with [item] => item | _ => SubJoinlist l end in
    [part leftjoinlist; part rightjoinlist].

(** The loop over [fromlist]; [recurse] is the recursive call. *)
Section FromLoop.
Variable recurse : State -> JoinNode Expr -> list nat -> result (list JoinItem * State * list nat).
Fixpoint from_loop st (l : list (JoinNode Expr)) (item_list : list nat) (joinlist : list JoinItem) (scope inner : bitmapset)
    : result (State * list nat * list JoinItem * bitmapset * bitmapset) :=
  match l with
  | [] => Ok (st, item_list, joinlist, scope, inner)
  | child :: l =>
      '(sub_joinlist, st, item_list) ← recurse st child item_list;
      sub_item ← last_item st item_list;
      let scope := bms_add_members scope (qualscope sub_item) in
      let sub_members := Z.of_nat (length sub_joinlist) in
      let remaining := Z.of_nat (length l) in
      let joinlist :=
        if (sub_members <=? 1) || (Z.of_nat (length joinlist) + sub_members + remaining <=? from_collapse_limit g)
        then joinlist ++ sub_joinlist else joinlist ++ [SubJoinlist sub_joinlist] in
      from_loop st l item_list joinlist scope (inner_join_rels sub_item)
  end.
End FromLoop.
Fixpoint deconstruct_recurse st node (parent_domain : nat) (parent_jtitem : option nat) (item_list : list nat)
    : result (list JoinItem * State * list nat) :=
  let '(k, st) := new_item st node parent_jtitem in
  match node with
  | TableRef varno =>
      baserels ← bms_add_member (all_baserels st) varno;
      let st := set_scopes st baserels (outer_join_rels st) (nulling_relids st) in
      rs ← bms_add_member (get_domain st parent_domain) varno;
      let st := set_domain st parent_domain rs in
      scope ← bms_make_singleton varno;
      Ok ([RangeTblRef varno], fill st k parent_domain scope None None None None, item_list ++ [k])
  | FromExpr fromlist quals =>
      '(st, item_list, joinlist, scope, inner) ←
        from_loop (fun st child item_list => deconstruct_recurse st child parent_domain (Some k) item_list) st fromlist item_list [] None None;
      let inner := if (1 <? length fromlist)%nat then scope else inner in
      Ok (joinlist, fill st k parent_domain scope inner None None None, item_list ++ [k])
  | JoinExpr jointype larg rarg rtindex quals =>
      '(leftjoinlist, rightjoinlist, st, item_list) ←
        match jointype with
        | JOIN_INNER =>
            '(leftjoinlist, st, item_list) ← deconstruct_recurse st larg parent_domain (Some k) item_list;
            left_item ← last_item st item_list;
            '(rightjoinlist, st, item_list) ← deconstruct_recurse st rarg parent_domain (Some k) item_list;
            right_item ← last_item st item_list;
            let scope := bms_union (qualscope left_item) (qualscope right_item) in
            Ok (leftjoinlist, rightjoinlist, fill st k parent_domain scope scope (qualscope left_item) (qualscope right_item) None, item_list)
        | JOIN_LEFT | JOIN_ANTI =>
            let '(child_domain, st) := new_domain st in
            '(leftjoinlist, st, item_list) ← deconstruct_recurse st larg parent_domain (Some k) item_list;
            left_item ← last_item st item_list;
            '(rightjoinlist, st, item_list) ← deconstruct_recurse st rarg child_domain (Some k) item_list;
            right_item ← last_item st item_list;
            let st := set_domain st parent_domain (bms_add_members (get_domain st parent_domain) (get_domain st child_domain)) in
            let scope := bms_union (qualscope left_item) (qualscope right_item) in
            '(st, scope) ←
              (if negb (rtindex =? 0) then
                 '(st, scope) ← add_ojrelid st parent_domain scope rtindex;
                 st ← mark_rels_nulled_by_join st rtindex (qualscope right_item);
                 Ok (st, scope)
               else Ok (st, scope));
            Ok (leftjoinlist, rightjoinlist,
                fill st k child_domain scope (bms_union (inner_join_rels left_item) (inner_join_rels right_item)) (qualscope left_item) (qualscope right_item)
                  (qualscope left_item), item_list)
        | JOIN_SEMI =>
            '(leftjoinlist, st, item_list) ← deconstruct_recurse st larg parent_domain (Some k) item_list;
            left_item ← last_item st item_list;
            '(rightjoinlist, st, item_list) ← deconstruct_recurse st rarg parent_domain (Some k) item_list;
            right_item ← last_item st item_list;
            if negb (rtindex =? 0) then Error assert_msg
            else
              Ok (leftjoinlist, rightjoinlist,
                  fill st k parent_domain (bms_union (qualscope left_item) (qualscope right_item))
                    (bms_union (inner_join_rels left_item) (inner_join_rels right_item)) (qualscope left_item) (qualscope right_item) None, item_list)
        | JOIN_FULL =>
            let '(fj_domain, st) := new_domain st in
            let '(child_domain, st) := new_domain st in
            '(leftjoinlist, st, item_list) ← deconstruct_recurse st larg child_domain (Some k) item_list;
            left_item ← last_item st item_list;
            let st := set_domain st fj_domain (bms_copy (get_domain st child_domain)) in
            let '(child_domain, st) := new_domain st in
            '(rightjoinlist, st, item_list) ← deconstruct_recurse st rarg child_domain (Some k) item_list;
            right_item ← last_item st item_list;
            let st := set_domain st fj_domain (bms_add_members (get_domain st fj_domain) (get_domain st child_domain)) in
            let st := set_domain st parent_domain (bms_add_members (get_domain st parent_domain) (get_domain st fj_domain)) in
            let scope := bms_union (qualscope left_item) (qualscope right_item) in
            if rtindex =? 0 then Error assert_msg
            else
              '(st, scope) ← add_ojrelid st parent_domain scope rtindex;
              st ← mark_rels_nulled_by_join st rtindex (qualscope left_item);
              st ← mark_rels_nulled_by_join st rtindex (qualscope right_item);
              Ok (leftjoinlist, rightjoinlist,
                  fill st k fj_domain scope (bms_union (inner_join_rels left_item) (inner_join_rels right_item)) (qualscope left_item) (qualscope right_item)
                    scope, item_list)
        | _ => Error jointype_msg
        end;
      Ok (join_joinlist jointype leftjoinlist rightjoinlist, st, item_list ++ [k])
  end.

(** ** The second scan *)
Fixpoint security_loop st (k : nat) (qualsets : list (list Clause)) (security_level : Z) : result State :=
  match qualsets with
  | [] => if security_level <=? qual_security_level g then Ok st else Error assert_msg
  | qualset :: qualsets =>
      let scope := qualscope (get_item st k) in
      '(st, _) ← distribute_quals_to_rels (jq_lateral g) st qualset k None security_level scope scope None None true false false None;
      security_loop st k qualsets (security_level + 1)
  end.
Definition process_security_barrier_quals st (rti : Z) (k : nat) : result State := security_loop st k (securityQuals g rti) 0.

Definition set_sjinfo item (sjinfo : nat) : Item :=
  {| jtnode := jtnode item; jdomain := jdomain item; jti_parent := jti_parent item; qualscope := qualscope item; inner_join_rels := inner_join_rels item;
     left_rels := left_rels item; right_rels := right_rels item; nonnullable_rels := nonnullable_rels item; jti_sjinfo := Some sjinfo;
     oj_joinclauses := oj_joinclauses item; lateral_clauses := lateral_clauses item |}.
Definition set_oj_joinclauses item (l : list Clause) : Item :=
  {| jtnode := jtnode item; jdomain := jdomain item; jti_parent := jti_parent item; qualscope := qualscope item; inner_join_rels := inner_join_rels item;
     left_rels := left_rels item; right_rels := right_rels item; nonnullable_rels := nonnullable_rels item; jti_sjinfo := jti_sjinfo item;
     oj_joinclauses := l; lateral_clauses := lateral_clauses item |}.

Definition deconstruct_distribute st (k : nat) : result State :=
  let item := get_item st k in
  match jtnode item with
  | TableRef varno => if 0 <? qual_security_level g then process_security_barrier_quals st varno k else Ok st
  | FromExpr _ quals =>
      '(st, _) ← distribute_quals_to_rels (jq_lateral g) st (lateral_clauses item) k None (qual_security_level g) (qualscope item) None None None true false false None;
      '(st, _) ← distribute_quals_to_rels (jq_lateral g) st quals k None (qual_security_level g) (qualscope item) None None None true false false None;
      Ok st
  | JoinExpr jointype _ _ rtindex quals =>
      let my_quals := lateral_clauses item ++ quals in
      '(st, sjinfo, ojscope) ←
        (if bool_decide (jointype = JOIN_INNER) then Ok (st, None, None)
         else
           '(sjinfo, semi, st) ← make_outerjoininfo g st (left_rels item) (right_rels item) (inner_join_rels item) jointype rtindex my_quals;
           let st := set_item st k (set_sjinfo item (sj_ptr sjinfo)) in
           Ok (st, Some (sjinfo, semi), if bool_decide (jointype = JOIN_SEMI) then None else bms_union (min_lefthand sjinfo) (min_righthand sjinfo)));
      let '(ojscope, postponed) :=
        match sjinfo with
        | Some (sjinfo, _) =>
            if bool_decide (jointype = JOIN_LEFT) && lhs_strict sjinfo then
              (bms_add_members (bms_add_members ojscope (commute_below_l sjinfo)) (commute_below_r sjinfo), Some (oj_joinclauses item))
            else (ojscope, None)
        | None => (ojscope, None)
        end in
      '(st, postponed) ←
        distribute_quals_to_rels (jq_lateral g) st my_quals k (fst <$> sjinfo) (qual_security_level g) (qualscope item) ojscope (nonnullable_rels item) None
          true false false postponed;
      let st := match postponed with Some l => set_item st k (set_oj_joinclauses (get_item st k) l) | None => st end in
      Ok (match sjinfo with Some (sjinfo, semi) => add_join_info st sjinfo semi | None => st end)
  end.

Fixpoint distribute_items st (item_list : list nat) : result State :=
  match item_list with
  | [] => Ok st
  | k :: item_list => st ← deconstruct_distribute st k; distribute_items st item_list
  end.
(** The loop over the postponed LEFT JOIN clauses; [l] is what remains of [item_list]. *)
Fixpoint oj_quals_loop st (item_list l : list nat) : result State :=
  match l with
  | [] => Ok st
  | k :: l =>
      st ← (match oj_joinclauses (get_item st k) with [] => Ok st | _ :: _ => deconstruct_distribute_oj_quals g st item_list k end);
      oj_quals_loop st item_list l
  end.

Definition deconstruct_jointree st (jointree : JoinNode Expr) : result (list JoinItem * State) :=
  match im_jdomains (jt_root st), jointree with
  | _ :: _, FromExpr _ _ =>
      let st := set_domain st 0 None in
      let st := set_scopes st None None (nulling_relids st) in
      '(result, st, item_list) ← deconstruct_recurse st jointree 0 None [];
      let st := set_all_query_rels st (bms_union (all_baserels st) (outer_join_rels st)) in
      if negb (bms_equal (im_all_query_rels (jt_root st)) (get_domain st 0)) then Error assert_msg
      else
        st ← distribute_items st item_list;
        st ← (match im_join_info (jt_root st) with [] => Ok st | _ :: _ => oj_quals_loop st item_list item_list end);
        Ok (result, st)
  | _, _ => Error assert_msg
  end.
End JoinTree.
