(* ===== verification/QueryClauses.v ===== *)
(** * Gathering the clauses of a query

    [process_equivalence] absorbs the equalities of a query into equivalence classes; the other clauses are distributed to the
    relations.  Whatever the order, the members of a class stay connected by the equalities in its [ec_sources], and the state
    satisfies the invariant from which clauses are derived. *)
From stdpp Require Import gmap relations.
From S2P Require Import Prelude Bitmapset BitmapsetSpec BitmapsetIter EquivClass EquivClassProps EquivClassThms PathKeys JoinRels JoinLinks ImpliedEq ImpliedEqProps ImpliedScan.
#[local] Open Scope Z_scope.

Section Gather.
Context {Expr : Type} `{!ExprOps Expr} `{!OpFamilies Expr}.
#[local] Abbreviation EM := (EquivalenceMember Expr).
#[local] Abbreviation EC := (EquivalenceClass Expr).
#[local] Abbreviation Clause := (EqClause (Expr := Expr)).
Implicit Types (er : ECRoot Expr) (p : nat) (ec : EC) (em l r : EM) (ri : RestrictInfo Expr) (M : gmap nat Clause).

(** ** What the sweep finds *)
Section Sweep.
Context (item1 item2 : Expr) (type1 type2 : Oid) (jd : nat) (coll : Oid) (opf : list Oid) (er : ECRoot Expr).
(** A class that was found comes with a matching member of it. *)
Definition hit (item : Expr) (type : Oid) (o : option nat) (m : option EM) : Prop :=
  match o, m with
  | Some p, Some em => em ∈ ec_members (get_ec er p) /\ matches em item type jd = true
  | None, None => True
  | _, _ => False
  end.
Definition hits (f : Found Expr) : Prop := hit item1 type1 (fec1 f) (fem1 f) /\ hit item2 type2 (fec2 f) (fem2 f).

Lemma sweep_members_hits p idx ems : (forall em, em ∈ ems -> em ∈ ec_members (get_ec er p)) ->
  forall f, hits f -> hits (sweep_members item1 item2 type1 type2 jd p idx ems f).
Proof.
  induction ems as [|em ems IH]; intros Hin f Hf; cbn [sweep_members]; [done|].
  specialize (IH (fun x H => Hin x (list_elem_of_further _ _ _ H))). assert (em ∈ ec_members (get_ec er p)) as Hem by (apply Hin; by left).
  destruct (em_is_const em && negb (em_jdomain em =? jd)%nat) eqn:Ec; [by apply IH|].
  set (f1 := if negb (is_set (fec1 f)) && em_matches em item1 type1 then found1 f p em else f).
  assert (hits f1) as Hf1.
  { subst f1. destruct (negb (is_set (fec1 f)) && em_matches em item1 type1) eqn:E; [|done]. apply andb_true_iff in E as [_ E].
    split; [|apply Hf]. cbn. split; [done|]. unfold matches. by rewrite Ec, E. }
  destruct (_ && is_set (fec2 f1)); [done|].
  set (f2 := if negb (is_set (fec2 f1)) && em_matches em item2 type2 then found2 f1 p em idx else f1).
  assert (hits f2) as Hf2.
  { subst f2. destruct (negb (is_set (fec2 f1)) && em_matches em item2 type2) eqn:E; [|done]. apply andb_true_iff in E as [_ E].
    split; [apply Hf1|]. cbn. split; [done|]. unfold matches. by rewrite Ec, E. }
  destruct (_ && is_set (fec1 f2)); [done|]. by apply IH.
Qed.
Lemma sweep_classes_hits classes : forall idx f, hits f -> hits (sweep_classes item1 item2 type1 type2 jd coll opf er classes idx f).
Proof.
  induction classes as [|p classes IH]; intros idx f Hf; cbn [sweep_classes]; [done|].
  destruct (negb _); [by apply IH|]. pose proof (sweep_members_hits p idx _ (fun em H => H) f Hf) as H. destruct (_ && _); [done|]. by apply IH.
Qed.
End Sweep.

(** ** The branches of [process_equivalence] *)
Inductive absorb_shape er ri (jd p : nat) (em1 em2 : EM) : ECRoot Expr -> Prop :=
  | shape_known : live er (ri_sig ri) p -> em1 ∈ ec_members (get_ec er p) -> em2 ∈ ec_members (get_ec er p) ->
      absorb_shape er ri jd p em1 em2 (set_ec er p (add_source (get_ec er p) ri))
  | shape_merge p2 i : live er (ri_sig ri) p -> live er (ri_sig ri) p2 -> p <> p2 -> eq_classes er !! i = Some p2 ->
      em1 ∈ ec_members (get_ec er p) -> em2 ∈ ec_members (get_ec er p2) ->
      let er1 := set_ec er p (add_source (merge_into_ec1 (get_ec er p) (get_ec er p2)) ri) in
      let er2 := set_ec er1 p2 (emptied_ec2 (get_ec er1 p2) p) in
      absorb_shape er ri jd p em1 em2 (set_eq_classes er2 (list_delete_nth i (eq_classes er2)))
  | shape_right e : live er (ri_sig ri) p -> em1 ∈ ec_members (get_ec er p) ->
      (forall q, live er (ri_sig ri) q -> em_key em2 ∉ ec_keys (get_ec er q)) ->
      (em2, e) = add_eq_member (get_ec er p) (ri_item2 ri) (right_relids ri) jd false (op_input_types (opno (clause ri))).2 ->
      absorb_shape er ri jd p em1 em2 (set_ec er p (add_source e ri))
  | shape_left e : live er (ri_sig ri) p -> em2 ∈ ec_members (get_ec er p) ->
      (forall q, live er (ri_sig ri) q -> em_key em1 ∉ ec_keys (get_ec er q)) ->
      (em1, e) = add_eq_member (get_ec er p) (ri_item1 ri) (left_relids ri) jd false (op_input_types (opno (clause ri))).1 ->
      absorb_shape er ri jd p em1 em2 (set_ec er p (add_source e ri))
  | shape_new e1 e2 : p = length (ec_heap er) ->
      (em1, e1) = add_eq_member {| ec_opfamilies := mergeopfamilies ri; ec_collation := inputcollid (clause ri); ec_members := []; ec_sources := [ri_id ri];
                     ec_derives := []; ec_relids := None; ec_has_const := false; ec_has_volatile := false; ec_broken := false; ec_sortref := 0;
                     ec_min_security := security_level ri; ec_max_security := security_level ri; ec_merged := None |}
                   (ri_item1 ri) (left_relids ri) jd false (op_input_types (opno (clause ri))).1 ->
      (em2, e2) = add_eq_member e1 (ri_item2 ri) (right_relids ri) jd false (op_input_types (opno (clause ri))).2 ->
      absorb_shape er ri jd p em1 em2 (new_ec er e2).2.

Lemma process_equivalence_shape er ri jd ri' er' : ec_inv er -> clause_ok ri -> process_equivalence er ri jd = Ok (Absorbed ri', er') ->
  exists p em1 em2, ri' = mark_ri ri p em1 em2 /\ em_key em1 = ri_key1 ri jd /\ em_key em2 = ri_key2 ri jd /\ absorb_shape er ri jd p em1 em2 er'.
Proof.
  intros Hi [Hc1 Hc2]. unfold process_equivalence. destruct (_ && _); [done|]. fold (ri_item1 ri) (ri_item2 ri).
  case_bool_decide as Hne; [done|]. unfold ri_key1, ri_key2.
  destruct (op_input_types (opno (clause ri))) as [t1 t2] eqn:Et. cbn [fst snd]. set (coll := inputcollid (clause ri)). set (opf := mergeopfamilies ri).
  destruct (sweep_classes_spec (ri_item1 ri) (ri_item2 ri) t1 t2 jd coll opf er (eq_classes er) 0 nothing_found) as (F1 & F2 & _ & Fidx & _).
  destruct (sweep_classes_hits (ri_item1 ri) (ri_item2 ri) t1 t2 jd coll opf er (eq_classes er) 0 nothing_found) as [H1 H2]; [done|].
  set (f := sweep_classes _ _ _ _ _ _ _ _ _ _ _) in *. cbn [fec1 fec2 nothing_found first_of] in F1, F2.
  assert (forall item type p em, find_match jd coll opf er item type (eq_classes er) = Some p -> em ∈ ec_members (get_ec er p) -> matches em item type jd = true ->
    live er (ri_sig ri) p /\ em_key em = item_key type item jd) as HS.
  { intros item type p em Hf Hem Hm. destruct (find_match_Some jd coll opf er item type p Hi Hf) as [Hl _]. split; [done|].
    apply matches_key; [|done]. apply (inv_const _ Hi p); [apply Hl|done]. }
  assert (forall item type q, find_match jd coll opf er item type (eq_classes er) = None -> live er (ri_sig ri) q -> item_key type item jd ∉ ec_keys (get_ec er q)) as HN.
  { intros item type q Hf Hl. by apply (find_match_None jd coll opf er item type q Hi). }
  destruct (added_member_ok (ri_item1 ri) (left_relids ri) jd t1 Hc1) as [_ K1]. destruct (added_member_ok (ri_item2 ri) (right_relids ri) jd t2 Hc2) as [_ K2].
  destruct (fec1 f) as [p1|] eqn:E1, (fem1 f) as [em1|], (fec2 f) as [p2|] eqn:E2, (fem2 f) as [em2|]; try done.
  - destruct H1 as [I1 T1], H2 as [I2 T2]. destruct (HS _ _ _ _ (eq_sym F1) I1 T1) as [L1 G1], (HS _ _ _ _ (eq_sym F2) I2 T2) as [L2 G2].
    destruct (Nat.eqb_spec p1 p2) as [<-|Hp].
    + intros [= <- <-]. exists p1, em1, em2. split_and!; [done..|]. by apply shape_known.
    + destruct (ec_merging_done er); [done|]. intros [= <- <-]. exists p1, em1, em2. split_and!; [done..|].
      destruct (Fidx eq_refl p2 eq_refl) as [_ Hidx]. rewrite Z.sub_0_r in Hidx. by apply shape_merge.
  - destruct H1 as [I1 T1]. destruct (HS _ _ _ _ (eq_sym F1) I1 T1) as [L1 G1]. cbn [add_eq_member]. intros [= <- <-]. eexists p1, em1, _.
    split_and!; [done|done|exact K2|]. eapply shape_right; [done|done|intros q Hq; pose proof (HN _ _ q (eq_sym F2) Hq) as Hx; rewrite <- K2 in Hx; exact Hx|by rewrite Et].
  - destruct H2 as [I2 T2]. destruct (HS _ _ _ _ (eq_sym F2) I2 T2) as [L2 G2]. cbn [add_eq_member]. intros [= <- <-]. eexists p2, _, em2.
    split_and!; [done|exact K1|done|]. eapply shape_left; [done|done|intros q Hq; pose proof (HN _ _ q (eq_sym F1) Hq) as Hx; rewrite <- K1 in Hx; exact Hx|by rewrite Et].
  - cbn [add_eq_member]. intros [= <- <-]. eexists _, _, _. split_and!; [done|exact K1|exact K2|]. eapply shape_new; [done|by rewrite Et|by rewrite Et].
Qed.

(** ** Classes and their sources *)
Definition class_source er (id : nat) : Prop := exists q, q ∈ eq_classes er /\ id ∈ ec_sources (get_ec er q).
Context (all : Z) (jdomains : list bitmapset) (operand : signature -> Expr -> Oid -> Prop).
Definition domain_ok (jd : nat) : Prop :=
  let rs := nth jd jdomains None in bms_wf rs /\ bms_val rs <> 0 /\ bms_val rs = all.
Definition relids_ok (e : Expr) (rs : bitmapset) : Prop :=
  bms_wf rs /\ bms_wf (pull_varnos e) /\ within (bms_val rs) all /\ bms_val (pull_varnos e) = bms_val rs.
Definition member_ok em : Prop :=
  relids_ok (em_expr em) (em_relids em) /\ em_is_const em = bms_is_empty (em_relids em) /\ domain_ok (em_jdomain em).
(** A source carries the two members that it equates. *)
Definition source_ok M ec id : Prop :=
  exists c l r, M !! id = Some c /\ rc_left_em c = Some l /\ rc_right_em c = Some r /\ eq_clause ec c l r /\
    bms_wf (rc_required c) /\ (both (em_relids l) (em_relids r) <> 0 -> bms_val (rc_required c) = both (em_relids l) (em_relids r)) /\
    bms_val (rc_required c) <> 0 /\ within (bms_val (rc_required c)) all.
(** [ec_has_const] and [ec_relids] sum up the members. *)
Record fields_ok ec : Prop := {
  fo_const : ec_has_const ec = true <-> exists em, em ∈ ec_members ec /\ em_is_const em = true;
  fo_wf : bms_wf (ec_relids ec);
  fo_relids b : 0 <= b -> Z.testbit (bms_val (ec_relids ec)) b = true <-> exists em, em ∈ ec_members ec /\ Z.testbit (bms_val (em_relids em)) b = true
}.
Record good_class M ec : Prop := {
  gc_keys : NoDup (ec_keys ec);
  gc_member em : em ∈ ec_members ec -> member_ok em;
  gc_operand em : em ∈ ec_members ec -> operand (ec_sig ec) (em_expr em) (em_datatype em);
  gc_fields : fields_ok ec;
  gc_source id : id ∈ ec_sources ec -> source_ok M ec id;
  gc_connected l r : l ∈ ec_members ec -> r ∈ ec_members ec -> rtsc (source_pair M ec) l r;
  gc_derives : ec_derives ec = []
}.
Lemma good_class_ok M ec : good_class M ec -> ec_ok all M jdomains ec.
Proof.
  intros H. split.
  - by apply (NoDup_fmap_1 em_key), H.
  - intros em Hem. by destruct (gc_member _ _ H em Hem) as ((W1 & W2 & _) & _).
  - intros em Hem. by destruct (gc_member _ _ H em Hem) as ((_ & _ & W & E) & _).
  - intros em Hem. destruct (gc_member _ _ H em Hem) as ((W & _) & -> & _). by apply bms_empty_val.
  - apply H.
  - apply H.
  - apply H.
  - intros em Hem. by destruct (gc_member _ _ H em Hem) as (_ & _ & Hd).
  - intros id (c & l & r & Hc & _ & _ & He & Hr)%(gc_source _ _ H). by exists c, l, r.
  - apply H.
Qed.

(** More clauses and more members of the same families. *)
Definition extends_class ec ec' : Prop :=
  ec_sig ec' = ec_sig ec /\ (forall em, em ∈ ec_members ec -> em ∈ ec_members ec') /\ (forall id, id ∈ ec_sources ec -> id ∈ ec_sources ec').
Lemma eq_clause_extends ec ec' c l r : extends_class ec ec' -> eq_clause ec c l r -> eq_clause ec' c l r.
Proof.
  intros ([= Ec Ef] & Em & _) He. split; [apply Em, He|apply Em, He|apply He..|]. destruct (eq_op _ _ _ _ He) as (op & H). exists op. unfold equates in *.
  by rewrite Ec, Ef.
Qed.
Lemma source_ok_extends M M' ec ec' id : M ⊆ M' -> extends_class ec ec' -> source_ok M ec id -> source_ok M' ec' id.
Proof.
  intros HM He (c & l & r & Hc & E1 & E2 & Hec & Hr). exists c, l, r. split_and!; [by eapply lookup_weaken|done|done| |apply Hr..].
  by apply (eq_clause_extends ec).
Qed.
Lemma connected_extends M M' ec ec' l r : M ⊆ M' -> extends_class ec ec' -> rtsc (source_pair M ec) l r -> rtsc (source_pair M' ec') l r.
Proof.
  intros HM He. unfold rtsc. apply rtc_subrel. assert (forall x y, source_pair M ec x y -> source_pair M' ec' x y) as Hs.
  { intros x y (id & c & Hid & Hc & Hec). exists id, c. split_and!; [by apply He|by eapply lookup_weaken|by apply (eq_clause_extends ec)]. }
  intros x y [H|H]; [left|right]; by apply Hs.
Qed.
Lemma good_class_mono M M' ec : M ⊆ M' -> good_class M ec -> good_class M' ec.
Proof.
  intros HM H. assert (extends_class ec ec) as He by done. split; try apply H.
  - intros id Hid. apply (source_ok_extends M M' ec); [done|done|by apply H].
  - intros l r Hl Hr. apply (connected_extends M M' ec); [done|done|by apply H].
Qed.

(** Two groups of connected members and a source between them make a class. *)
Lemma class_build M ec (A B : list EM) id c l r :
  (forall em, em ∈ ec_members ec <-> em ∈ A \/ em ∈ B) -> NoDup (ec_keys ec) -> (forall em, em ∈ ec_members ec -> member_ok em) ->
  (forall em, em ∈ ec_members ec -> operand (ec_sig ec) (em_expr em) (em_datatype em)) -> fields_ok ec ->
  (forall x, x ∈ ec_sources ec -> source_ok M ec x) -> ec_derives ec = [] ->
  (forall x y, x ∈ A -> y ∈ A -> rtsc (source_pair M ec) x y) -> (forall x y, x ∈ B -> y ∈ B -> rtsc (source_pair M ec) x y) ->
  l ∈ A -> r ∈ B -> id ∈ ec_sources ec -> M !! id = Some c -> eq_clause ec c l r -> good_class M ec.
Proof.
  intros Hm Hk Hmem Hop Hf Hs Hd HA HB Hl Hrr Hid Hcl Hec. split; try done.
  assert (rtsc (source_pair M ec) l r) as Hlr by (apply rtsc_lr; by exists id, c).
  assert (forall x, x ∈ ec_members ec -> rtsc (source_pair M ec) x l) as Hx.
  { intros x [H|H]%Hm; [by apply HA|]. trans r; [by apply HB|]. by symmetry. }
  intros x y H1%Hx H2%Hx. trans l; [done|]. by symmetry.
Qed.

(** ** Absorbing a clause *)

(** What holds of a mergejoinable clause: its relid sets are those of its sides, and its operator is the equality of each of its families
    for the input types. *)
Record query_clause ri jd : Prop := {
  qc_ok : clause_ok ri;
  qc_left : relids_ok (ri_item1 ri) (left_relids ri);
  qc_right : relids_ok (ri_item2 ri) (right_relids ri);
  qc_left_operand : operand (ri_sig ri) (ri_item1 ri) (op_input_types (opno (clause ri))).1;
  qc_right_operand : operand (ri_sig ri) (ri_item2 ri) (op_input_types (opno (clause ri))).2;
  qc_op : opno (clause ri) <> 0;
  qc_families : mergeopfamilies ri <> [] /\ forall family, family ∈ mergeopfamilies ri ->
    get_opfamily_member family (op_input_types (opno (clause ri))).1 (op_input_types (opno (clause ri))).2 = opno (clause ri);
  qc_domain : domain_ok jd
}.

Lemma add_member_fields ec e rs jd type em ec' : (em, ec') = add_eq_member ec e rs jd false type -> fields_ok ec -> bms_wf rs -> fields_ok ec'.
Proof.
  intros [= -> ->] [Hc Hw Hr] Wr. split; cbn.
  - setoid_rewrite elem_of_app. setoid_rewrite list_elem_of_singleton. destruct (bms_is_empty rs) eqn:E.
    + split; [|done]. intros _. eexists. split; [by right|done].
    + rewrite Hc. split; [intros (em & Hem & H); exists em; auto|]. intros (em & [Hem| ->] & H); [by exists em|]. cbn in H. congruence.
  - destruct (bms_is_empty rs); [done|]. by apply bms_add_members_spec.
  - intros b Hb. setoid_rewrite elem_of_app. setoid_rewrite list_elem_of_singleton. destruct (bms_is_empty rs) eqn:E.
    + rewrite (Hr b Hb). split; [intros (em & Hem & H); exists em; auto|]. intros (em & [Hem| ->] & H); [by exists em|]. cbn in H.
      apply bms_empty_val in E; [|done]. by rewrite E, Z.bits_0 in H.
    + destruct (bms_add_members_spec (ec_relids ec) rs Hw Wr) as [_ ->]. rewrite Z.lor_spec, orb_true_iff, (Hr b Hb). split.
      * intros [(em & Hem & H)|H]; [exists em; auto|eexists; split; [by right|done]].
      * intros (em & [Hem| ->] & H); [left; by exists em|by right].
Qed.
Lemma merge_fields ec1 ec2 : fields_ok ec1 -> fields_ok ec2 -> fields_ok (merge_into_ec1 ec1 ec2).
Proof.
  intros [C1 W1 R1] [C2 W2 R2]. split; cbn.
  - rewrite orb_true_iff, C1, C2. setoid_rewrite elem_of_app. naive_solver.
  - by apply bms_join_spec.
  - intros b Hb. destruct (bms_join_spec _ _ W1 W2) as [_ ->]. rewrite Z.lor_spec, orb_true_iff, (R1 b Hb), (R2 b Hb). setoid_rewrite elem_of_app. naive_solver.
Qed.
Lemma add_source_fields ec ri : fields_ok ec -> fields_ok (add_source ec ri).
Proof. by intros []. Qed.

Section Absorb.
Context (M : gmap nat Clause) (er : ECRoot Expr) (ri : RestrictInfo Expr) (jd p : nat) (em1 em2 : EM).
Context (Hinv : ec_inv er) (Hgood : forall q, q ∈ eq_classes er -> good_class M (get_ec er q)).
Context (Hfresh : M !! ri_id ri = None) (Hq : query_clause ri jd) (Hne : ri_item1 ri <> ri_item2 ri).
Context (K1 : em_key em1 = ri_key1 ri jd) (K2 : em_key em2 = ri_key2 ri jd).
Context (c : Clause) (Hcc : rc_clause c = OpClause (clause ri)) (Hmarks : rc_left_em c = Some em1 /\ rc_right_em c = Some em2).
Context (Hwf : bms_wf (rc_required c)) (Hpos : bms_val (rc_required c) <> 0) (Hall : within (bms_val (rc_required c)) all).
Context (Hreq : both (left_relids ri) (right_relids ri) <> 0 -> bms_val (rc_required c) = both (left_relids ri) (right_relids ri)).
Let M' := <[ri_id ri := c]> M.

Lemma absorb_sub : M ⊆ M'.
Proof. by apply insert_subseteq. Qed.
Lemma em1_fields : em_datatype em1 = (op_input_types (opno (clause ri))).1 /\ em_expr em1 = ri_item1 ri.
Proof. unfold em_key, ri_key1, item_key in K1. by injection K1. Qed.
Lemma em2_fields : em_datatype em2 = (op_input_types (opno (clause ri))).2 /\ em_expr em2 = ri_item2 ri.
Proof. unfold em_key, ri_key2, item_key in K2. by injection K2. Qed.
Lemma em_distinct : em1 <> em2.
Proof. intros E. apply Hne. destruct em1_fields as [_ <-], em2_fields as [_ <-]. by rewrite E. Qed.

(** The new source of a class that has both members. *)
Lemma absorb_clause ec : em1 ∈ ec_members ec -> em2 ∈ ec_members ec -> ec_sig ec = ri_sig ri -> eq_clause ec c em1 em2.
Proof.
  intros H1 H2 [= Ec Ef]. destruct em1_fields as [T1 E1], em2_fields as [T2 E2]. split; [done|done|apply em_distinct|]. exists (clause ri). split_and!; [done|done| | |].
  - right. rewrite E1. by eexists _, _.
  - right. rewrite E2. by eexists _, _.
  - split; [apply Hq|]. destruct (qc_families _ _ Hq) as [Hn Hf]. destruct (mergeopfamilies ri) as [|f fs] eqn:E; [done|]. exists f.
    rewrite Ef, T1, T2. split; [by left|]. apply Hf. by left.
Qed.
Lemma absorb_source ec : em1 ∈ ec_members ec -> em2 ∈ ec_members ec -> ec_sig ec = ri_sig ri -> member_ok em1 -> member_ok em2 ->
  source_ok M' ec (ri_id ri).
Proof.
  intros H1 H2 Ef ((W1 & _ & _ & V1) & _) ((W2 & _ & _ & V2) & _). destruct (qc_left _ _ Hq) as (WL & _ & _ & VL), (qc_right _ _ Hq) as (WR & _ & _ & VR).
  rewrite (proj2 em1_fields), VL in V1. rewrite (proj2 em2_fields), VR in V2. destruct Hmarks.
  exists c, em1, em2. split_and!; [by apply lookup_insert_eq|done|done|by apply absorb_clause|done| |done|done].
  unfold both in *. by rewrite <- V1, <- V2.
Qed.
(** A class made of two groups with [em1] in one and [em2] in the other. *)
Lemma absorb_build ec (A B : list EM) : (forall em, em ∈ ec_members ec <-> em ∈ A \/ em ∈ B) -> NoDup (ec_keys ec) ->
  (forall em, em ∈ ec_members ec -> member_ok em) -> (forall em, em ∈ ec_members ec -> operand (ri_sig ri) (em_expr em) (em_datatype em)) ->
  fields_ok ec -> ec_sig ec = ri_sig ri -> ec_derives ec = [] ->
  (forall x, x ∈ ec_sources ec -> x = ri_id ri \/ source_ok M' ec x) -> ri_id ri ∈ ec_sources ec ->
  (forall x y, x ∈ A -> y ∈ A -> rtsc (source_pair M' ec) x y) -> (forall x y, x ∈ B -> y ∈ B -> rtsc (source_pair M' ec) x y) ->
  em1 ∈ A -> em2 ∈ B -> good_class M' ec.
Proof.
  intros Hm Hk Hmem Hop Hf Ho Hd Hs Hid HA HB H1 H2. assert (em1 ∈ ec_members ec) as I1 by (apply Hm; by left). assert (em2 ∈ ec_members ec) as I2 by (apply Hm; by right).
  apply (class_build M' ec A B (ri_id ri) c em1 em2); try done; [by rewrite Ho| |by apply lookup_insert_eq|by apply absorb_clause].
  intros x [->|Hx]%Hs; [|done]. apply absorb_source; auto.
Qed.

Lemma old_class ec ec' : good_class M ec -> extends_class ec ec' ->
  (forall x, x ∈ ec_sources ec -> source_ok M' ec' x) /\
  (forall x y, x ∈ ec_members ec -> y ∈ ec_members ec -> rtsc (source_pair M' ec') x y).
Proof.
  intros Hg He. split.
  - intros x Hx. apply (source_ok_extends M M' ec); [apply absorb_sub|done|by apply Hg].
  - intros x y Hx Hy. apply (connected_extends M M' ec); [apply absorb_sub|done|by apply Hg].
Qed.
Lemma single_connected ec em : forall x y, x ∈ [em] -> y ∈ [em] -> rtsc (source_pair M' ec) x y.
Proof. intros x y ->%list_elem_of_singleton ->%list_elem_of_singleton. apply rtc_refl. Qed.
Lemma live_families q : live er (ri_sig ri) q -> q ∈ eq_classes er /\ ec_sig (get_ec er q) = ri_sig ri /\ (q < length (ec_heap er))%nat.
Proof. intros (Hin & _ & Hs). split_and!; [done|done|by apply (inv_bound _ Hinv)]. Qed.

Lemma live_operand q em : live er (ri_sig ri) q -> em ∈ ec_members (get_ec er q) -> operand (ri_sig ri) (em_expr em) (em_datatype em).
Proof. intros Hl Hem. destruct (live_families q Hl) as (Hin & <- & _). by apply (gc_operand _ _ (Hgood q Hin)). Qed.
Lemma em1_operand : operand (ri_sig ri) (em_expr em1) (em_datatype em1).
Proof. destruct em1_fields as [-> ->]. apply Hq. Qed.
Lemma em2_operand : operand (ri_sig ri) (em_expr em2) (em_datatype em2).
Proof. destruct em2_fields as [-> ->]. apply Hq. Qed.

Lemma known_good : live er (ri_sig ri) p -> em1 ∈ ec_members (get_ec er p) -> em2 ∈ ec_members (get_ec er p) ->
  good_class M' (add_source (get_ec er p) ri).
Proof.
  intros Hl I1 I2. destruct (live_families p Hl) as (Hp & Ef & _). pose proof (Hgood p Hp) as Hg.
  destruct (old_class _ (add_source (get_ec er p) ri) Hg) as [Hs Hc]; [split_and!; [done|done|]; intros id H; apply elem_of_app; by left|].
  apply (absorb_build _ (ec_members (get_ec er p)) (ec_members (get_ec er p))); try done; try apply Hg.
  - intros em. cbn. tauto.
  - intros em. by apply live_operand.
  - apply add_source_fields, Hg.
  - intros x [Hx| ->%list_elem_of_singleton]%elem_of_app; [right; by apply Hs|by left].
  - apply elem_of_app. right. by left.
Qed.
Lemma merge_good p2 : live er (ri_sig ri) p -> live er (ri_sig ri) p2 -> p <> p2 -> em1 ∈ ec_members (get_ec er p) -> em2 ∈ ec_members (get_ec er p2) ->
  good_class M' (add_source (merge_into_ec1 (get_ec er p) (get_ec er p2)) ri).
Proof.
  intros Hl Hl2 Hpp I1 I2. destruct (live_families p Hl) as (Hp & Ef & _), (live_families p2 Hl2) as (Hp2 & Ef2 & _).
  pose proof (Hgood p Hp) as Hg. pose proof (Hgood p2 Hp2) as Hg2. set (ec := add_source _ _).
  destruct (old_class (get_ec er p) ec Hg) as [Hs Hc]; [split_and!; [done|intros em H; apply elem_of_app; by left|intros id H; cbn; rewrite !elem_of_app; auto]|].
  destruct (old_class (get_ec er p2) ec Hg2) as [Hs2 Hc2]; [split_and!; [transitivity (ri_sig ri); [exact Ef|by symmetry]|intros em H; apply elem_of_app; by right|intros id H; cbn; rewrite !elem_of_app; auto]|].
  apply (absorb_build ec (ec_members (get_ec er p)) (ec_members (get_ec er p2))); try done.
  - intros em. cbn. apply elem_of_app.
  - unfold ec_keys. cbn. rewrite fmap_app. apply NoDup_app. split_and!; [apply Hg| |apply Hg2]. intros k H1 H2. apply Hpp. by apply (inv_disjoint _ Hinv (ri_sig ri) k).
  - intros em [H|H]%elem_of_app; [by apply Hg|by apply Hg2].
  - intros em [H|H]%elem_of_app; [by apply (live_operand p)|by apply (live_operand p2)].
  - apply add_source_fields, merge_fields; [apply Hg|apply Hg2].
  - cbn. by rewrite (gc_derives _ _ Hg), (gc_derives _ _ Hg2).
  - intros x. cbn. rewrite !elem_of_app, list_elem_of_singleton. intros [[H|H]| ->]; [right; by apply Hs|right; by apply Hs2|by left].
  - cbn. rewrite !elem_of_app, list_elem_of_singleton. by right.
Qed.
(** A new member [em] joins the class of a known one. *)
Lemma extend_good em e relids type ec' : live er (ri_sig ri) p -> (em, ec') = add_eq_member (get_ec er p) e relids jd false type -> relids_ok e relids ->
  em_key em ∉ ec_keys (get_ec er p) -> (em = em1 /\ em2 ∈ ec_members (get_ec er p)) \/ (em = em2 /\ em1 ∈ ec_members (get_ec er p)) ->
  good_class M' (add_source ec' ri).
Proof.
  intros Hl Ha Hr Hk Hem. destruct (live_families p Hl) as (Hp & Ef & _). pose proof (Hgood p Hp) as Hg.
  pose proof (add_member_fields _ _ _ _ _ _ _ Ha (gc_fields _ _ Hg) (proj1 Hr)) as Hf.
  assert (member_ok em) as Hmo by (injection Ha as -> _; split_and!; [done|done|apply Hq]).
  assert (ec_members ec' = ec_members (get_ec er p) ++ [em] /\ ec_sources ec' = ec_sources (get_ec er p) /\ ec_sig ec' = ec_sig (get_ec er p) /\
    ec_derives ec' = ec_derives (get_ec er p)) as (Em & Es & Eo & Ed) by (by injection Ha as -> ->).
  destruct (old_class _ (add_source ec' ri) Hg) as [Hs Hc];
    [split_and!; [done|intros x H; cbn; rewrite Em; apply elem_of_app; by left|intros id H; cbn; rewrite Es; apply elem_of_app; by left]|].
  assert (NoDup (ec_keys (add_source ec' ri))) as Hnd.
  { unfold ec_keys. cbn. rewrite Em, fmap_app. apply NoDup_app. split_and!; [apply Hg| |apply NoDup_singleton]. intros k H1 ->%list_elem_of_singleton. done. }
  assert (forall x, x ∈ ec_members (add_source ec' ri) -> member_ok x) as Hmem.
  { intros x. cbn. rewrite Em. intros [H| ->%list_elem_of_singleton]%elem_of_app; [by apply Hg|done]. }
  assert (forall x, x ∈ ec_members (add_source ec' ri) -> operand (ri_sig ri) (em_expr x) (em_datatype x)) as Hopr.
  { intros x. cbn. rewrite Em. intros [H| ->%list_elem_of_singleton]%elem_of_app; [by apply (live_operand p)|].
    destruct Hem as [[-> _]|[-> _]]; [apply em1_operand|apply em2_operand]. }
  assert (forall x, x ∈ ec_sources (add_source ec' ri) -> x = ri_id ri \/ source_ok M' (add_source ec' ri) x) as Hsrc.
  { intros x. cbn. rewrite Es. intros [H| ->%list_elem_of_singleton]%elem_of_app; [right; by apply Hs|by left]. }
  assert (ri_id ri ∈ ec_sources (add_source ec' ri)) as Hid by (cbn; apply elem_of_app; right; by left).
  destruct Hem as [[-> I2]|[-> I1]].
  - apply (absorb_build _ [em1] (ec_members (get_ec er p))); try done; [|by apply add_source_fields|transitivity (ec_sig (get_ec er p)); [exact Eo|done]|cbn; rewrite Ed; apply Hg|apply single_connected|by left].
    intros x. cbn. rewrite Em, elem_of_app. tauto.
  - apply (absorb_build _ (ec_members (get_ec er p)) [em2]); try done; [|by apply add_source_fields|transitivity (ec_sig (get_ec er p)); [exact Eo|done]|cbn; rewrite Ed; apply Hg|apply single_connected|by left].
    intros x. cbn. rewrite Em, elem_of_app. tauto.
Qed.
Lemma new_good e1 e2 : (em1, e1) = add_eq_member {| ec_opfamilies := mergeopfamilies ri; ec_collation := inputcollid (clause ri); ec_members := []; ec_sources := [ri_id ri];
      ec_derives := []; ec_relids := None; ec_has_const := false; ec_has_volatile := false; ec_broken := false; ec_sortref := 0;
      ec_min_security := security_level ri; ec_max_security := security_level ri; ec_merged := None |} (ri_item1 ri) (left_relids ri) jd false (op_input_types (opno (clause ri))).1 ->
  (em2, e2) = add_eq_member e1 (ri_item2 ri) (right_relids ri) jd false (op_input_types (opno (clause ri))).2 -> good_class M' e2.
Proof.
  intros A1 A2. destruct (qc_left _ _ Hq) as (WL & _), (qc_right _ _ Hq) as (WR & _). set (e0 := {| ec_opfamilies := _ |}) in A1.
  assert (fields_ok e0) as F0.
  { split; cbn; [|done|].
    - split; [done|]. by intros (em & ?%not_elem_of_nil & _).
    - intros b Hb. rewrite Z.bits_0. split; [done|]. by intros (em & ?%not_elem_of_nil & _). }
  pose proof (add_member_fields _ _ _ _ _ _ _ A2 (add_member_fields _ _ _ _ _ _ _ A1 F0 WL) WR) as F2.
  assert (member_ok em1) as M1 by (injection A1 as -> _; split_and!; [apply Hq|done|apply Hq]).
  assert (member_ok em2) as M2 by (injection A2 as -> _; split_and!; [apply Hq|done|apply Hq]).
  assert (ec_members e2 = [em1; em2] /\ ec_sources e2 = [ri_id ri] /\ ec_sig e2 = ri_sig ri /\ ec_derives e2 = []) as (Em & Es & Eo & Ed).
  { injection A1 as E1 ->. injection A2 as E2 ->. cbn. by rewrite E1, E2. }
  apply (absorb_build e2 [em1] [em2]); try done; [| | | | | |apply single_connected|apply single_connected|by left|by left].
  - intros em. rewrite Em, !elem_of_cons, elem_of_nil. tauto.
  - unfold ec_keys. rewrite Em. cbn. apply NoDup_cons. split; [|apply NoDup_singleton]. rewrite list_elem_of_singleton, K1, K2. unfold ri_key1, ri_key2, item_key.
    intros E. apply Hne. by injection E.
  - intros em. rewrite Em, !elem_of_cons, elem_of_nil. by intros [->|[->|[]]].
  - intros em. rewrite Em, !elem_of_cons, elem_of_nil. intros [->|[->|[]]]; [apply em1_operand|apply em2_operand].
  - intros x. rewrite Es. intros ->%list_elem_of_singleton. by left.
  - rewrite Es. by left.
Qed.

Lemma absorb_good er' : absorb_shape er ri jd p em1 em2 er' -> forall q, q ∈ eq_classes er' -> good_class M' (get_ec er' q).
Proof.
  assert (forall q, q ∈ eq_classes er -> good_class M' (get_ec er q)) as Hold by (intros q H; apply (good_class_mono M); [apply absorb_sub|by apply Hgood]).
  assert (forall e, (p < length (ec_heap er))%nat -> good_class M' e -> forall q, q ∈ eq_classes (set_ec er p e) -> good_class M' (get_ec (set_ec er p e) q)) as Hset.
  { intros e Hp He q Hin. rewrite get_set_ec by done. destruct (decide (p = q)); [done|]. by apply Hold. }
  intros [Hl I1 I2|p2 i Hl Hl2 Hpp Hi I1 I2|e Hl I1 Hn Ha|e Hl I2 Hn Ha|e1 e2 Hp A1 A2].
  - apply Hset; [by apply live_families|by apply known_good].
  - pose proof (merge_good p2 Hl Hl2 Hpp I1 I2) as Hm. intros q Hin. destruct (live_families p Hl) as (_ & _ & Hb), (live_families p2 Hl2) as (_ & _ & Hb2).
    cbn in Hin. apply elem_of_delete_nth with (x := p2) in Hin as [Hin Hne2]; [|apply Hinv|done]. change (get_ec (set_eq_classes er2 (list_delete_nth i (eq_classes er2))) q) with (get_ec er2 q). subst er2.
    rewrite get_set_ec by (cbn; by rewrite length_insert). rewrite decide_False by done. subst er1. rewrite get_set_ec by done. destruct (decide (p = q)); [done|]. by apply Hold.
  - apply Hset; [by apply live_families|]. apply (extend_good em2 _ _ _ _ Hl Ha); [apply Hq|by apply Hn|by right].
  - apply Hset; [by apply live_families|]. apply (extend_good em1 _ _ _ _ Hl Ha); [apply Hq|by apply Hn|by left].
  - intros q. rewrite get_new_ec. cbn. rewrite elem_of_app, list_elem_of_singleton. destruct (decide (q = length (ec_heap er))) as [->|Hne']; [|by intros [H|H]; [apply Hold|]].
    intros _. by apply (new_good e1 e2).
Qed.

(** The new clause joins the sources; no other source is lost. *)
Lemma absorb_sources er' : absorb_shape er ri jd p em1 em2 er' -> forall id, class_source er' id <-> id = ri_id ri \/ class_source er id.
Proof.
  assert (forall e, p ∈ eq_classes er -> ec_sources e = ec_sources (get_ec er p) ++ [ri_id ri] ->
    forall id, class_source (set_ec er p e) id <-> id = ri_id ri \/ class_source er id) as Hset.
  { intros e Hp He id. pose proof (inv_bound _ Hinv p Hp) as Hb. split.
    - intros (q & Hq' & Hid). rewrite get_set_ec in Hid by done. destruct (decide (p = q)) as [->|]; [|right; by exists q].
      rewrite He, elem_of_app, list_elem_of_singleton in Hid. destruct Hid as [Hid|Hid]; [right; by exists q|by left].
    - intros [->|(q & Hq' & Hid)]; [exists p|exists q]; (split; [done|]); rewrite get_set_ec by done.
      + rewrite decide_True by done. rewrite He. apply elem_of_app. right. by left.
      + destruct (decide (p = q)) as [->|]; [|done]. rewrite He. apply elem_of_app. by left. }
  intros [Hl I1 I2|p2 i Hl Hl2 Hpp Hi I1 I2|e Hl I1 Hn Ha|e Hl I2 Hn Ha|e1 e2 Hp A1 A2].
  - by apply Hset; [apply live_families|].
  - intros id. destruct (live_families p Hl) as (Hp & _ & Hb), (live_families p2 Hl2) as (Hp2 & _ & Hb2). unfold class_source.
    assert (forall q, q ∈ eq_classes (set_eq_classes er2 (list_delete_nth i (eq_classes er2))) <-> q ∈ eq_classes er /\ q <> p2) as Hin
      by (intros q; by apply elem_of_delete_nth; [apply Hinv|]).
    assert (forall q, q <> p2 -> ec_sources (get_ec (set_eq_classes er2 (list_delete_nth i (eq_classes er2))) q) =
      if decide (p = q) then (ec_sources (get_ec er p) ++ ec_sources (get_ec er p2)) ++ [ri_id ri] else ec_sources (get_ec er q)) as Hget.
    { intros q Hq2. change (get_ec (set_eq_classes er2 (list_delete_nth i (eq_classes er2))) q) with (get_ec er2 q). subst er2.
      rewrite get_set_ec by (cbn; by rewrite length_insert). rewrite decide_False by done. subst er1. rewrite get_set_ec by done. by destruct (decide (p = q)). }
    split.
    + intros (q & [Hq1 Hq2]%Hin & Hid). rewrite Hget in Hid by done. destruct (decide (p = q)) as [->|]; [|right; by exists q].
      rewrite !elem_of_app, list_elem_of_singleton in Hid. destruct Hid as [[Hid|Hid]|Hid]; [right; by exists q|right; by exists p2|by left].
    + intros [->|(q & Hq1 & Hid)]; [|destruct (decide (q = p2)) as [->|Hq2]; [|destruct (decide (p = q)) as [<-|Hq3]]].
      1-3: exists p; split; [by apply Hin|]; rewrite Hget, decide_True by done; rewrite !elem_of_app, list_elem_of_singleton; auto.
      exists q. split; [by apply Hin|]. by rewrite Hget, decide_False by done.
  - apply Hset; [by apply live_families|]. by injection Ha as -> ->.
  - apply Hset; [by apply live_families|]. by injection Ha as -> ->.
  - intros id. unfold class_source. cbn [new_ec snd eq_classes]. assert (ec_sources e2 = [ri_id ri]) as Es by (by injection A2 as -> ->; injection A1 as -> ->).
    setoid_rewrite get_new_ec. split.
    + intros (q & Hin & Hid). destruct (decide (q = length (ec_heap er))) as [->|Hne']; [left; rewrite Es in Hid; by apply list_elem_of_singleton in Hid|].
      right. exists q. split; [|done]. apply elem_of_app in Hin as [Hin| ->%list_elem_of_singleton]; done.
    + intros [->|(q & Hin & Hid)].
      * exists (length (ec_heap er)). rewrite decide_True by done. rewrite Es. split; [apply elem_of_app; right|]; by left.
      * exists q. pose proof (inv_bound _ Hinv q Hin) as Hb. rewrite decide_False by lia. split; [apply elem_of_app; by left|done].
Qed.
Lemma absorb_rest er' : absorb_shape er ri jd p em1 em2 er' ->
  ec_merging_done er' = ec_merging_done er /\ eclass_indexes er' = eclass_indexes er /\ top_jdomain er' = top_jdomain er.
Proof. by intros [| | | |]. Qed.
End Absorb.

(** ** Classes of sort expressions *)
Lemma get_eclass_good kinds M er expr opf type coll : ec_inv er -> (forall q, q ∈ eq_classes er -> good_class M (get_ec er q)) ->
  ec_merging_done er = false -> domain_ok (top_jdomain er) ->
  let e := canonicalize_ec_expression expr type coll in
  contain_volatile_functions e = false -> expression_returns_set e = false -> contain_agg_clause e = false -> contain_window_function e = false ->
  relids_ok e (pull_varnos e) -> operand (coll, opf) e type ->
  exists o er', get_eclass_for_sort_expr kinds er expr opf type coll 0 None true = Ok (o, er') /\ ec_inv er' /\ (forall q, q ∈ eq_classes er' -> good_class M (get_ec er' q)) /\
    (forall id, class_source er' id <-> class_source er id) /\
    ec_merging_done er' = ec_merging_done er /\ eclass_indexes er' = eclass_indexes er /\ top_jdomain er' = top_jdomain er.
Proof.
  intros Hinv Hgood Hdone Hd e Hv Hs Ha Hw Hr Hop.
  destruct (get_eclass_for_sort_expr kinds er expr opf type coll 0 None true) as [[o er']|msg|] eqn:E.
  - exists o, er'. split; [done|]. split; [by apply (get_eclass_spec _ _ _ _ _ _ _ _ _ _ _ Hinv E)|]. revert E. unfold get_eclass_for_sort_expr. fold e.
    destruct (sort_class_search _ _ _ _ _ _ _ _ _) as [p|]; [by intros [= <- <-]|]. rewrite Hv, Hs, Ha, Hw. cbn [negb andb orb].
    destruct (add_eq_member _ e _ _ _ _) as [em ec] eqn:Eadd. rewrite andb_false_r. cbn [new_ec]. rewrite Hdone. cbn [ec_merging_done]. rewrite ?Hdone. intros [= <- <-].
    assert (good_class M ec) as Hg.
    { symmetry in Eadd. pose proof (add_member_fields _ _ _ _ _ _ _ Eadd) as Hf. injection Eadd as -> ->. split; cbn.
      - apply NoDup_singleton.
      - intros em ->%list_elem_of_singleton. by split_and!.
      - by intros em ->%list_elem_of_singleton.
      - apply Hf; [|apply Hr]. split; cbn; [|done|].
        + split; [done|]. by intros (em & ?%not_elem_of_nil & _).
        + intros b Hb. rewrite Z.bits_0. split; [done|]. by intros (em & ?%not_elem_of_nil & _).
      - by intros id ?%not_elem_of_nil.
      - intros l r ->%list_elem_of_singleton ->%list_elem_of_singleton. apply rtc_refl.
      - done. }
    assert (ec_sources ec = []) as Es by (by injection Eadd as <- <-).
    pose proof (get_new_ec er ec) as Hget. cbn [new_ec snd] in Hget. rewrite Hdone in Hget. split_and!; [| |done..].
    + intros q Hin. rewrite Hget. destruct (decide (q = length (ec_heap er))); [done|]. apply elem_of_app in Hin as [Hin| ->%list_elem_of_singleton]; [by apply Hgood|done].
    + intros id. unfold class_source. cbn [eq_classes]. setoid_rewrite Hget. split.
      * intros (q & Hin & Hid). destruct (decide (q = length (ec_heap er))) as [->|]; [by rewrite Es in Hid; apply not_elem_of_nil in Hid|].
        apply elem_of_app in Hin as [Hin| ->%list_elem_of_singleton]; [by exists q|done].
      * intros (q & Hin & Hid). exists q. pose proof (inv_bound _ Hinv q Hin) as Hb. rewrite decide_False by lia. split; [apply elem_of_app; by left|done].
  - exfalso. revert E. unfold get_eclass_for_sort_expr. fold e. destruct (sort_class_search _ _ _ _ _ _ _ _ _) as [p|]; [done|]. rewrite Hv. cbn [negb andb].
    destruct (add_eq_member _ e _ _ _ _) as [em ec]. cbn [new_ec]. by rewrite Hdone.
  - exfalso. revert E. unfold get_eclass_for_sort_expr. fold e. destruct (sort_class_search _ _ _ _ _ _ _ _ _) as [p|]; [done|]. rewrite Hv. cbn [negb andb].
    destruct (add_eq_member _ e _ _ _ _) as [em ec]. cbn [new_ec]. by rewrite Hdone.
Qed.
End Gather.
