(* ===== verification/QueryQuals.v ===== *)
(** * Every qual is recorded exactly

    While the quals of a query of inner joins are distributed, the equalities absorbed by the classes and the clauses in the lists of the
    relations together are equivalent to the quals seen so far, and the state satisfies the invariant from which further
    clauses are derived. *)
From stdpp Require Import gmap.
From S2P Require Import Prelude Bitmapset BitmapsetSpec BitmapsetIter EquivClass EquivClassProps EquivClassThms PathKeys JoinRels JoinLinks ImpliedEq ImpliedEqProps ImpliedScan ImpliedJoin ImpliedThms Quals QueryClauses.
#[local] Open Scope Z_scope.

(** What the planner relies on: variable sets are well formed; wrapping an expression in a RelabelType or a NullTest changes neither its variables nor
    what it contains; [get_mergejoin_opfamilies] gives families whose equality for the operator's input types is the operator. *)
Class QualLaws (Expr : Type) `{!ExprOps Expr} `{!OpFamilies Expr} `{!QualOps Expr} := {
  ql_varnos (e : Expr) : bms_wf (pull_varnos e);
  ql_relabel (e : Expr) type typmod coll : let e' := applyRelabelType e type typmod coll in
    pull_varnos e' = pull_varnos e /\ contain_volatile_functions e' = contain_volatile_functions e /\ expression_returns_set e' = expression_returns_set e /\
    contain_agg_clause e' = contain_agg_clause e /\ contain_window_function e' = contain_window_function e;
  ql_not_null (e : Expr) : pull_varnos (is_not_null e) = pull_varnos e;
  ql_families op family : family ∈ get_mergejoin_opfamilies op ->
    op <> 0 /\ get_opfamily_member family (op_input_types op).1 (op_input_types op).2 = op
}.

Section Quals.
Context {Expr : Type} `{!ExprOps Expr} `{!OpFamilies Expr} `{!QualOps Expr} `{!QualLaws Expr}.
#[local] Abbreviation Clause := (ClauseNode (Expr := Expr)).
#[local] Abbreviation Root := (ImpliedRoot (Expr := Expr)).
Implicit Types (root : Root) (clause : Clause) (e : Expr) (id n : nat).

(** ** Expressions *)

(** No set-returning function, aggregate or window function, as in any WHERE clause. *)
Definition where_expr e : Prop := expression_returns_set e = false /\ contain_agg_clause e = false /\ contain_window_function e = false.
Lemma relabels_same x e : relabels x e -> pull_varnos e = pull_varnos x /\ contain_volatile_functions e = contain_volatile_functions x /\ (where_expr x -> where_expr e).
Proof.
  intros [->|(type & coll & ->)]; [done|]. unfold canonicalize_ec_expression, where_expr. set (t := if IsPolymorphicType type || _ then _ else _).
  destruct (negb _ || negb _); [|done]. edestruct (ql_relabel x t) as (-> & -> & -> & -> & ->). done.
Qed.
Lemma relabels_canonical x type coll : relabels x (canonicalize_ec_expression x type coll).
Proof. right. by eexists _, _. Qed.

(** [Q] are the quals of the query.  The operands of its mergejoinable clauses, by collation and operator families, with their types. *)
Context (all : Z) (Q : list Clause).
Definition operand (s : signature) e (type : Oid) : Prop :=
  exists op, OpClause op ∈ Q /\ s = (inputcollid op, get_mergejoin_opfamilies (opno op)) /\
    ((relabels (leftop op) e /\ type = (op_input_types (opno op)).1) \/ (relabels (rightop op) e /\ type = (op_input_types (opno op)).2)).
Record qual_ok clause : Prop := {
  qk_in : clause ∈ Q;
  qk_within : within (bms_val (clause_varnos clause)) all;
  qk_where op : clause = OpClause op -> where_expr (leftop op) /\ where_expr (rightop op)
}.
Lemma clause_varnos_wf clause : bms_wf (clause_varnos clause).
Proof. destruct clause as [op|e]; [|apply ql_varnos]. by apply bms_union_spec; apply ql_varnos. Qed.

(** ** The state *)
#[local] Abbreviation good root := (good_class all (im_jdomains root) operand).
Definition recorded root (D : list nat) id : Prop := class_source (im_ec root) id \/ id ∈ D.
(** [sat] treats [x = x] as [x IS NOT NULL], for a strict equality operator. *)
Definition not_null_law (sat : Clause -> Prop) : Prop :=
  (forall op coll x x' y y', relabels x x' -> relabels y y' -> sat (make_opclause op coll x' y') <-> sat (make_opclause op coll x y)) /\
  (forall op coll x, get_mergejoin_opfamilies op <> [] -> op_strict op = true -> sat (make_opclause op coll x x) <-> sat (OtherClause (is_not_null x))).
Record gathered root (D : list nat) (C : list Clause) : Prop := {
  ga_ec : ec_inv (im_ec root);
  ga_good q : q ∈ eq_classes (im_ec root) -> good root (im_clauses root) (get_class root q);
  ga_fresh id c : im_clauses root !! id = Some c -> (id < im_next root)%nat;
  ga_clones : no_clones root;
  ga_dist : dist all root D;
  ga_joins : im_join_info root = [];
  ga_open : ec_merging_done (im_ec root) = false;
  ga_domain : domain_ok all (im_jdomains root) (top_jdomain (im_ec root));
  ga_index b : 0 <= b -> Z.testbit all b = true -> index_at root b None;
  ga_flag b rel : 0 <= b -> Z.testbit all b = true -> rel_at root b rel -> br_has_eclass_joins rel = false;
  ga_true sat : not_null_law sat -> (forall id, recorded root D id -> true_in sat root id) <-> (forall clause, clause ∈ C -> sat clause)
}.

Lemma recorded_clause root D C id : gathered root D C -> recorded root D id -> is_Some (im_clauses root !! id).
Proof.
  intros H [(q & Hq & Hid)|Hid].
  - destruct (gc_source _ _ _ _ _ (ga_good _ _ _ H q Hq) id Hid) as (c & _ & _ & Hc & _). eauto.
  - destruct (di_clause _ _ _ (ga_dist _ _ _ H) id Hid) as (c & Hc & _). eauto.
Qed.
Lemma gathered_ready root D C : gathered root D C -> base_ready all root D.
Proof.
  intros H. split; [split| | | |]; try apply H.
  - intros p Hp. split; [by apply (inv_bound _ (ga_ec _ _ _ H))|]. by apply (good_class_ok all (im_jdomains root) operand), (ga_good _ _ _ H).
  - intros p id Hp [Hid|Hid]; [apply (recorded_clause root D C id H); left; by exists p|].
    rewrite (gc_derives _ _ _ _ _ (ga_good _ _ _ H p Hp)) in Hid. by apply not_elem_of_nil in Hid.
  - intros p id c l r Hp [Hid|Hid] Hc El Er; [|rewrite (gc_derives _ _ _ _ _ (ga_good _ _ _ H p Hp)) in Hid; by apply not_elem_of_nil in Hid].
    destruct (gc_source _ _ _ _ _ (ga_good _ _ _ H p Hp) id Hid) as (c' & l' & r' & Hc' & El' & Er' & He & _). congruence.
Qed.
Lemma query_true_recorded T root D : query_true T root D <-> (forall id, recorded root D id -> T id).
Proof.
  split; [intros [HS HD] id [(q & Hq & Hid)|Hid]; [by apply (HS q)|by apply HD]|].
  intros H. split; [intros p id Hp Hid; apply H; left; by exists p|intros id Hid; apply H; by right].
Qed.

(** One more clause is recorded. *)
Lemma gathered_true root D C root' D' n c clause : gathered root D C -> im_clauses root ⊆ im_clauses root' -> im_clauses root' !! n = Some c ->
  (forall id, recorded root' D' id <-> id = n \/ recorded root D id) ->
  forall sat, not_null_law sat -> (sat (rc_clause c) <-> sat clause) ->
  (forall id, recorded root' D' id -> true_in sat root' id) <-> (forall clause', clause' ∈ clause :: C -> sat clause').
Proof.
  intros H Hsub Hn Hrec sat Hlaw Hsat. setoid_rewrite elem_of_cons. assert (true_in sat root' n <-> sat clause) as Hnew.
  { unfold true_in. rewrite Hn, <- Hsat. split; [by intros (c' & [= <-] & Hs)|by exists c]. }
  assert (forall id, recorded root D id -> true_in sat root' id <-> true_in sat root id) as Hold.
  { intros id [c0 Hc0]%(recorded_clause _ _ _ _ H). unfold true_in. rewrite Hc0, (lookup_weaken _ _ _ _ Hc0 Hsub). done. }
  pose proof (ga_true _ _ _ H sat Hlaw) as Ht. split.
  - intros HT clause' [->|Hc']; [apply Hnew, HT, Hrec; by left|]. apply Ht; [|done]. intros id Hid. apply Hold; [done|]. apply HT, Hrec. by right.
  - intros HC id [->|Hid]%Hrec; [apply Hnew, HC; by left|]. apply Hold; [done|]. apply Ht; [|done]. intros c' Hc'. apply HC. by right.
Qed.

(** ** Clauses for the relations *)

(** New clauses and classes of single expressions; nothing else has changed. *)
Record kept root root1 : Prop := {
  kp_rels : im_rels root1 = im_rels root;
  kp_clones : no_clones root1;
  kp_jdomains : im_jdomains root1 = im_jdomains root;
  kp_joins : im_join_info root1 = im_join_info root;
  kp_inv : ec_inv (im_ec root1);
  kp_good q : q ∈ eq_classes (im_ec root1) -> good root (im_clauses root) (get_class root1 q);
  kp_sources id : class_source (im_ec root1) id <-> class_source (im_ec root) id;
  kp_open : ec_merging_done (im_ec root1) = ec_merging_done (im_ec root);
  kp_index : eclass_indexes (im_ec root1) = eclass_indexes (im_ec root);
  kp_top : top_jdomain (im_ec root1) = top_jdomain (im_ec root);
  kp_clauses : im_clauses root ⊆ im_clauses root1;
  kp_fresh id c : im_clauses root1 !! id = Some c -> (id < im_next root1)%nat
}.
Lemma fresh_none root D C : gathered root D C -> im_clauses root !! im_next root = None.
Proof. intros H. destruct (im_clauses root !! im_next root) as [c|] eqn:E; [|done]. apply (ga_fresh _ _ _ H) in E. lia. Qed.
Lemma kept_refl root D C : gathered root D C -> kept root root.
Proof. intros H. split; try done; apply H. Qed.
Lemma kept_new root root1 c : original (rc_marks c) -> kept root root1 -> kept root (new_clause root1 c).2.
Proof.
  intros Hm K. split; try apply K.
  - intros id c'. cbn. rewrite lookup_insert_Some. intros [[_ <-]|[_ Hc]]; [done|by apply (kp_clones _ _ K id)].
  - cbn. etrans; [apply K|]. apply insert_subseteq. destruct (im_clauses root1 !! im_next root1) as [c'|] eqn:E; [|done]. apply (kp_fresh _ _ K) in E. lia.
  - cbn. intros id c'. rewrite lookup_insert_Some. intros [[<- _]|[_ Hc]]; [lia|]. apply (kp_fresh _ _ K) in Hc. lia.
Qed.
Lemma kept_distribute root D C root1 n c clause : gathered root D C -> kept root root1 -> im_clauses root1 !! n = Some c ->
  bms_wf (rc_required c) -> bms_val (rc_required c) <> 0 -> within (bms_val (rc_required c)) all ->
  (forall sat, not_null_law sat -> sat (rc_clause c) <-> sat clause) ->
  exists rels, distribute_restrictinfo_to_rels root1 n = Ok (set_im_rels root1 rels) /\ gathered (set_im_rels root1 rels) (n :: D) (clause :: C).
Proof.
  intros H K Hn Wc Nc Ac Hsat. assert (dist all root1 D) as Hd1.
  { apply (dist_same _ root); [apply H|apply K|]. intros id c' Hc'. exists c'. split; [|done]. by apply (lookup_weaken _ _ _ _ Hc'), K. }
  destruct (distribute_ok all root1 D n c Hd1 Hn Wc Nc Ac) as (rels & Hdis & Hd & [Hi Hf]). exists rels. split; [done|].
  assert (forall n, flag_at (set_im_rels root1 rels) n = flag_at root n) as Hf' by (intros m; rewrite Hf; unfold flag_at; by rewrite (kp_rels _ _ K)).
  split; try apply K; try done.
  - intros q Hq. cbn. rewrite (kp_jdomains _ _ K). apply (good_class_mono _ _ _ (im_clauses root)); [apply K|by apply (kp_good _ _ K)].
  - cbn. rewrite (kp_joins _ _ K). apply H.
  - cbn. rewrite (kp_open _ _ K). apply H.
  - cbn. rewrite (kp_jdomains _ _ K), (kp_top _ _ K). apply H.
  - intros b Hb Ha. unfold index_at. cbn. rewrite (kp_index _ _ K). by apply (ga_index _ _ _ H).
  - intros b rel Hb Ha Hr. specialize (Hf' (Z.to_nat b)). unfold flag_at in Hf'. rewrite Hr in Hf'.
    destruct (im_rels root !! Z.to_nat b) as [[rel0| |]|] eqn:E; try done. injection Hf' as ->. by apply (ga_flag _ _ _ H b rel0).
  - intros sat Hlaw. apply (gathered_true root D C _ _ n c); [done|apply K|done| |done|by apply Hsat].
    intros id. unfold recorded. cbn [im_ec set_im_rels]. rewrite (kp_sources _ _ K), elem_of_cons. tauto.
Qed.

(** [initialize_mergeclause_eclasses] for a clause not yet distributed *)
Lemma kept_class kinds root D C root1 x opf type coll : gathered root D C -> kept root root1 -> contain_volatile_functions x = false -> where_expr x ->
  within (bms_val (pull_varnos x)) all -> operand (coll, opf) (canonicalize_ec_expression x type coll) type ->
  exists o er, get_eclass_for_sort_expr kinds (im_ec root1) x opf type coll 0 None true = Ok (o, er) /\ kept root (set_im_ec root1 er).
Proof.
  intros H K Hv Hw Ha Hop. destruct (relabels_same x _ (relabels_canonical x type coll)) as (Ev & Evol & Ew). destruct (Ew Hw) as (W1 & W2 & W3).
  destruct (get_eclass_good all (im_jdomains root) operand kinds (im_clauses root) (im_ec root1) x opf type coll) as (o & er & Hget & Hi & Hg & Hs & E1 & E2 & E3);
    [apply K|apply K|rewrite (kp_open _ _ K); apply H|rewrite (kp_top _ _ K); apply H|by rewrite Evol|done|done|done|split_and!; rewrite ?Ev; done || apply ql_varnos|done|].
  exists o, er. split; [done|]. split; try apply K; try done.
  - intros id. cbn. rewrite Hs. apply K.
  - cbn. rewrite E1. apply K.
  - cbn. rewrite E2. apply K.
  - cbn. rewrite E3. apply K.
Qed.
Lemma kept_eclasses root root1 id a b : kept root root1 -> im_clauses root !! id = None -> kept root (set_eclasses root1 id a b None None).
Proof.
  intros K Hid. unfold set_eclasses. destruct (im_clauses root1 !! id) as [c|] eqn:E; [|done]. split; try apply K.
  - intros i c'. cbn. rewrite lookup_insert_Some. intros [[_ <-]|[_ Hc]]; [exact (kp_clones _ _ K id c E)|by apply (kp_clones _ _ K i)].
  - cbn. apply map_subseteq_spec. intros i c' Hc'. rewrite lookup_insert_ne by congruence. by apply (lookup_weaken _ _ _ _ Hc'), K.
  - cbn. intros i c'. rewrite lookup_insert_Some. intros [[<- _]|[_ Hc]]; by eapply (kp_fresh _ _ K).
Qed.

(** The two sides become the same expression. *)
Definition same_sides (op : OpExpr Expr) : Prop :=
  canonicalize_ec_expression (leftop op) (exprType (leftop op)) (inputcollid op) = canonicalize_ec_expression (rightop op) (exprType (rightop op)) (inputcollid op).
Definition same_domains root root' : Prop := im_jdomains root' = im_jdomains root /\ top_jdomain (im_ec root') = top_jdomain (im_ec root).

Lemma not_null_sat sat op item : not_null_law sat -> get_mergejoin_opfamilies (opno op) <> [] -> op_strict (opno op) = true ->
  relabels (leftop op) item -> relabels (rightop op) item -> sat (OtherClause (is_not_null item)) <-> sat (OpClause op).
Proof.
  intros [Hrel Hnn] Hne Hs H1 H2. rewrite <- (Hnn (opno op) (inputcollid op) item Hne Hs), (Hrel _ _ _ _ _ _ H1 H2). by destruct op.
Qed.

Section Merge.
Context (op : OpExpr Expr) (Hok : qual_ok (OpClause op)) (Hvol : clause_volatile (OpClause op) = false).
#[local] Abbreviation families := (get_mergejoin_opfamilies (opno op)).

Lemma sides_ok : contain_volatile_functions (leftop op) = false /\ contain_volatile_functions (rightop op) = false /\
  within (bms_val (pull_varnos (leftop op))) all /\ within (bms_val (pull_varnos (rightop op))) all.
Proof.
  cbn in Hvol. apply orb_false_iff in Hvol as [[_ ?]%orb_false_iff ?]. pose proof (qk_within _ Hok) as Hw. cbn [clause_varnos] in Hw.
  destruct (bms_union_spec _ _ (ql_varnos (leftop op)) (ql_varnos (rightop op))) as [_ E]. rewrite E in Hw. by apply within_lor_l in Hw as [? ?].
Qed.
Lemma left_operand e : relabels (leftop op) e -> operand (inputcollid op, families) e (op_input_types (opno op)).1.
Proof. intros H. exists op. split_and!; [apply Hok|done|by left]. Qed.
Lemma right_operand e : relabels (rightop op) e -> operand (inputcollid op, families) e (op_input_types (opno op)).2.
Proof. intros H. exists op. split_and!; [apply Hok|done|by right]. Qed.

Lemma kept_initialize root D C root1 id c : gathered root D C -> kept root root1 -> im_clauses root !! id = None -> im_clauses root1 !! id = Some c ->
  exists root2 c', initialize_mergeclause_eclasses root1 id op families = Ok root2 /\ kept root root2 /\ im_clauses root2 !! id = Some c' /\ same_clause c c'.
Proof.
  intros H K Hn Hc. destruct sides_ok as (V1 & V2 & A1 & A2). destruct (qk_where _ Hok op eq_refl) as [W1 W2]. unfold initialize_mergeclause_eclasses.
  pose proof (left_operand _ (relabels_canonical (leftop op) (op_input_types (opno op)).1 (inputcollid op))) as O1.
  pose proof (right_operand _ (relabels_canonical (rightop op) (op_input_types (opno op)).2 (inputcollid op))) as O2.
  destruct (op_input_types (opno op)) as [t1 t2]. cbn [fst snd] in O1, O2.
  destruct (kept_class (rel_kinds root1) root D C root1 _ _ _ _ H K V1 W1 A1 O1) as (o1 & er1 & -> & K1). cbn [mbind result_bind].
  destruct (kept_class (rel_kinds root1) root D C _ _ _ _ _ H K1 V2 W2 A2 O2) as (o2 & er2 & Hget & K2). cbn [im_ec set_im_ec] in Hget. rewrite Hget. cbn [mbind result_bind].
  change (set_im_ec (set_im_ec root1 er1) er2) with (set_im_ec root1 er2) in K2. eexists _, _. split; [done|]. split; [by apply kept_eclasses|].
  unfold set_eclasses. cbn [im_clauses set_im_ec]. rewrite Hc. cbn. split; [by apply lookup_insert_eq|done].
Qed.

(** The clause as [process_equivalence] sees it. *)
Lemma query_clause_of id sec jd jdomains : families <> [] -> domain_ok all jdomains jd ->
  query_clause all jdomains operand (restrictinfo_of id op sec families) jd.
Proof.
  intros Hne Hd. destruct sides_ok as (V1 & V2 & A1 & A2). destruct (qk_where _ Hok op eq_refl) as [W1 W2].
  pose proof (relabels_canonical (leftop op) (exprType (leftop op)) (inputcollid op)) as R1. destruct (relabels_same _ _ R1) as (Ev1 & Ec1 & Ew1).
  pose proof (relabels_canonical (rightop op) (exprType (rightop op)) (inputcollid op)) as R2. destruct (relabels_same _ _ R2) as (Ev2 & Ec2 & Ew2).
  destruct (Ew1 W1) as (X1 & Y1 & Z1), (Ew2 W2) as (X2 & Y2 & Z2).
  assert (forall family, family ∈ families -> opno op <> 0 /\ get_opfamily_member family (op_input_types (opno op)).1 (op_input_types (opno op)).2 = opno op) as Hf
    by (intros; by apply ql_families).
  split.
  - unfold clause_ok, const_expr, ri_item1, ri_item2. cbn. by rewrite Ev1, Ec1, X1, Y1, Z1, V1, Ev2, Ec2, X2, Y2, Z2, V2, !andb_true_r.
  - unfold relids_ok, ri_item1. cbn. rewrite Ev1. split_and!; [apply ql_varnos..|done|done].
  - unfold relids_ok, ri_item2. cbn. rewrite Ev2. split_and!; [apply ql_varnos..|done|done].
  - by apply left_operand.
  - by apply right_operand.
  - cbn. destruct families as [|f fs]; [done|]. destruct (Hf f) as [? _]; [by left|done].
  - split; [done|]. cbn. intros f Hin. by apply Hf.
  - done.
Qed.

Lemma gathered_absorb root D C c ri er sec jd : gathered root D C -> original (rc_marks c) -> families <> [] -> domain_ok all (im_jdomains root) jd ->
  rc_clause c = OpClause op -> bms_wf (rc_required c) -> bms_val (rc_required c) <> 0 -> within (bms_val (rc_required c)) all ->
  (both (pull_varnos (leftop op)) (pull_varnos (rightop op)) <> 0 -> bms_val (rc_required c) = both (pull_varnos (leftop op)) (pull_varnos (rightop op))) ->
  let id := im_next root in
  process_equivalence (im_ec root) (restrictinfo_of id op sec families) jd = Ok (Absorbed ri, er) ->
  gathered (set_eclasses (set_im_ec (new_clause root c).2 er) id (left_ec ri) (right_ec ri) (left_em ri) (right_em ri)) D (OpClause op :: C).
Proof.
  intros H Hmk Hne Hdom Ec Wc Nc Ac Hreq id Hpe. pose proof (query_clause_of id sec jd (im_jdomains root) Hne Hdom) as Hq. pose proof (fresh_none _ _ _ H) as Hfresh.
  destruct (process_equivalence_spec _ _ _ _ _ (ga_ec _ _ _ H) (qc_ok _ _ _ _ _ Hq) Hpe) as (_ & _ & _ & [Hinv _ _ _ _ _]).
  destruct (process_equivalence_shape _ _ _ _ _ (ga_ec _ _ _ H) (qc_ok _ _ _ _ _ Hq) Hpe) as (p & em1 & em2 & -> & K1 & K2 & Hsh).
  pose proof (absorbed_distinct _ _ _ _ _ Hpe) as Hdis.
  unfold set_eclasses. cbn [im_clauses set_im_ec new_clause snd]. rewrite lookup_insert_eq. cbn [left_ec right_ec left_em right_em mark_ri]. set (c' := {| rc_clause := rc_clause c |}).
  assert (<[id:=c']> (<[im_next root:=c]> (im_clauses root)) = <[id := c']> (im_clauses root)) as Em by (apply insert_insert_eq).
  unfold set_clause. cbn [im_clauses im_ec im_next im_rels im_all_query_rels im_join_info im_jdomains set_im_ec snd new_clause]. rewrite Em.
  destruct (absorb_rest _ _ _ _ _ _ _ Hsh) as (E1 & E2 & E3). set (root' := {| im_ec := er |}).
  assert (im_clauses root ⊆ im_clauses root') as Hsub by (by apply insert_subseteq).
  split; cbn [im_ec im_clauses im_next im_join_info im_jdomains]; try done.
  - intros q Hq'. apply (absorb_good all (im_jdomains root) operand (im_clauses root) (im_ec root) (restrictinfo_of id op sec families) jd p em1 em2); try done;
      [apply H|apply H].
  - intros i ci. cbn. rewrite lookup_insert_Some. intros [[<- _]|[_ Hci]]; [lia|]. apply (ga_fresh _ _ _ H) in Hci. lia.
  - intros i ci. cbn. rewrite lookup_insert_Some. intros [[_ <-]|[_ Hci]]; [done|by apply (ga_clones _ _ _ H i)].
  - apply (dist_same _ root); [apply H|done|]. intros i ci Hci. exists ci. split; [|done]. by apply (lookup_weaken _ _ _ _ Hci).
  - apply H.
  - cbn. rewrite E1. apply H.
  - cbn. rewrite E3. apply H.
  - intros b Hb Ha. unfold index_at. cbn. rewrite E2. by apply (ga_index _ _ _ H).
  - apply H.
  - intros sat Hlaw. apply (gathered_true root D C _ _ id c'); [done|done|cbn; by apply lookup_insert_eq| |done|by rewrite <- Ec].
    intros i. unfold recorded. change (im_ec root') with er. rewrite (absorb_sources (im_ec root) (restrictinfo_of id op sec families) jd p em1 em2 (ga_ec _ _ _ H) K1 K2 c' (conj eq_refl eq_refl) er Hsh). cbn. tauto.
Qed.

(** [x = x] is distributed as [x IS NOT NULL]. *)
Lemma gathered_not_null root D C root1 marks sec : original marks -> gathered root D C -> kept root root1 -> families <> [] -> op_strict (opno op) = true -> same_sides op ->
  bms_val (clause_varnos (OpClause op)) <> 0 ->
  let '(id, root2) := make_not_null root1 (canonicalize_ec_expression (leftop op) (exprType (leftop op)) (inputcollid op)) marks sec in
  exists rels, distribute_restrictinfo_to_rels root2 id = Ok (set_im_rels root2 rels) /\ gathered (set_im_rels root2 rels) (id :: D) (OpClause op :: C) /\
    same_domains root (set_im_rels root2 rels).
Proof.
  intros Hmk H K Hne Hs Hsame Hpos. set (item := canonicalize_ec_expression (leftop op) _ _). set (c := make_restrictinfo (OtherClause (is_not_null item)) marks false sec None).
  pose proof (relabels_canonical (leftop op) (exprType (leftop op)) (inputcollid op)) as R1. fold item in R1.
  pose proof (relabels_canonical (rightop op) (exprType (rightop op)) (inputcollid op)) as R2. rewrite <- Hsame in R2. fold item in R2.
  destruct (relabels_same _ _ R1) as (E1 & _), (relabels_same _ _ R2) as (E2 & _). destruct (sides_ok) as (_ & _ & A1 & _).
  assert (rc_required c = pull_varnos (leftop op)) as Erq by (cbn; by rewrite ql_not_null).
  destruct (kept_distribute root D C (new_clause root1 c).2 (im_next root1) c (OpClause op)) as (rels & Hd & Hg);
    [done|by apply kept_new|cbn; apply lookup_insert_eq|rewrite Erq; apply ql_varnos| |by rewrite Erq| |].
  - rewrite Erq. intros E0. apply Hpos. cbn. destruct (bms_union_spec _ _ (ql_varnos (leftop op)) (ql_varnos (rightop op))) as [_ ->]. by rewrite <- E2, E1, E0.
  - intros sat Hlaw. by apply not_null_sat.
  - exists rels. split; [exact Hd|]. split; [done|]. split; apply K.
Qed.
End Merge.

(** ** Placing a qual *)

Lemma merge_cases clause pseudo : check_mergejoinable clause pseudo = [] \/
  exists op, clause = OpClause op /\ pseudo = false /\ clause_volatile clause = false /\ get_mergejoin_opfamilies (opno op) <> [] /\
    check_mergejoinable clause pseudo = get_mergejoin_opfamilies (opno op).
Proof.
  unfold check_mergejoinable. destruct pseudo; [by left|]. destruct clause as [op|e]; [|by left].
  destruct (_ && _) eqn:E; [|by left]. apply andb_true_iff in E as [_ E%negb_true_iff].
  destruct (get_mergejoin_opfamilies (opno op)) eqn:Ef; [by left|]. right. exists op. by rewrite Ef.
Qed.
Lemma place_qual_ok st D C clause jd marks pseudo sec relids : original marks -> gathered (jt_root st) D C -> qual_ok clause -> domain_ok all (im_jdomains (jt_root st)) jd ->
  bms_wf relids -> bms_val relids <> 0 -> within (bms_val relids) all ->
  (bms_val (clause_varnos clause) <> 0 -> bms_val relids = bms_val (clause_varnos clause)) ->
  (forall op, clause = OpClause op -> pseudo = false -> clause_volatile clause = false -> bms_val (clause_varnos clause) = 0 -> ~ same_sides op) ->
  exists root' D', place_qual st clause jd None marks pseudo sec relids None true false = Ok (set_jt_root st root') /\ gathered root' D' (clause :: C) /\
    same_domains (jt_root st) root'.
Proof.
  intros Hmk H Hok Hdom Wr Nr Ar Hreq Hsides. set (root := jt_root st) in *. unfold place_qual. fold root.
  set (fams := check_mergejoinable clause pseudo). set (c := set_mergejoinable _ fams). pose proof (fresh_none _ _ _ H) as Hfresh.
  assert (rc_required c = relids) as Erq by (cbn; by destruct relids). assert (kept root (new_clause root c).2) as K by (apply kept_new; [done|by eapply kept_refl]).
  assert (forall root1 c', kept root root1 -> im_clauses root1 !! im_next root = Some c' -> same_clause c c' ->
    exists root' D', (root0 ← distribute_restrictinfo_to_rels root1 (im_next root); Ok (set_jt_root st root0)) = Ok (set_jt_root st root') /\
      gathered root' D' (clause :: C) /\ same_domains root root') as Hdist.
  { intros root1 c' K1 Hc' [Ecl Erq' _]. destruct (kept_distribute root D C root1 (im_next root) c' clause H K1 Hc') as (rels & -> & Hg);
      [rewrite Erq', Erq; done..|by rewrite Ecl|]. cbn [mbind result_bind]. eexists _, _. split; [done|]. split; [done|]. split; apply K1. }
  destruct (merge_cases clause pseudo) as [Ef|(op & Hop & Hps & Hvol & Hne & Ef)]; fold fams in Ef.
  - cbn [new_clause]. rewrite Ef. destruct clause; (eapply Hdist; [exact K|cbn; apply lookup_insert_eq|done]).
  - assert (exists f fs, fams = f :: fs) as (f & fs & Efs) by (rewrite Ef; destruct (get_mergejoin_opfamilies (opno op)); [done|eauto]).
    subst clause. cbn [new_clause]. rewrite Efs. cbn [im_ec]. rewrite <- Efs, Ef.
    pose proof (query_clause_of op Hok Hvol (im_next root) sec jd (im_jdomains root) Hne Hdom) as Hq.
    destruct (process_equivalence (im_ec root) (restrictinfo_of (im_next root) op sec (get_mergejoin_opfamilies (opno op))) jd) as [[[o|ri] er]|msg|] eqn:Epe.
    + pose proof (rejected_root _ _ _ _ _ Epe) as ->. apply rejected_reason in Epe. cbn [mbind result_bind].
      destruct o as [item|].
      * destruct Epe as [(_ & _ & ?)|(Eit & Es)]; [done|]. cbn in Es. destruct (op_strict (opno op)) eqn:Estr; [|done]. injection Es as ->.
        pose proof (gathered_not_null op Hok Hvol root D C (new_clause root c).2 marks sec Hmk H K Hne Estr Eit) as Hnn.
        change (set_im_ec _ (im_ec root)) with (new_clause root c).2. unfold ri_item1. cbn [clause restrictinfo_of] in *. destruct (make_not_null _ _ _ _) as [n root2].
        destruct Hnn as (rels & -> & Hg); [intros E0; by apply (Hsides op eq_refl Hps Hvol E0)|]. cbn [mbind result_bind]. by eexists _, _.
      * destruct (kept_initialize op Hok Hvol root D C (new_clause root c).2 (im_next root) c H K Hfresh) as (root2 & c' & Hini & K2 & Hc' & Sc);
          [cbn; apply lookup_insert_eq|]. change (set_im_ec _ (im_ec root)) with (new_clause root c).2. rewrite Hini. cbn [mbind result_bind]. by apply (Hdist root2 c').
    + cbn [mbind result_bind]. eexists _, D. split; [done|]. split.
      * apply (gathered_absorb op Hok Hvol root D C c ri er sec jd); rewrite ?Erq; try done. cbn in Hreq. destruct (bms_union_spec _ _ (ql_varnos (leftop op)) (ql_varnos (rightop op))) as [_ E].
        unfold both. rewrite E in Hreq. exact Hreq.
      * destruct (process_equivalence_shape _ _ _ _ _ (ga_ec _ _ _ H) (qc_ok _ _ _ _ _ Hq) Epe) as (p & em1 & em2 & -> & _ & _ & Hsh).
        destruct (absorb_rest _ _ _ _ _ _ _ Hsh) as (_ & _ & E3). unfold set_eclasses. cbn [im_clauses set_im_ec]. rewrite lookup_insert_eq. split; [done|exact E3].
    + apply too_late_reason in Epe as (_ & Hd & _); [|apply H]. by rewrite (ga_open _ _ _ H) in Hd.
    + by apply process_equivalence_fuel in Epe.
Qed.
End Quals.
