(* ===== verification/QueryTree.v ===== *)
(** * The first scan of the join tree

    [deconstruct_recurse] makes an item for every node, children before parents in the item list, with the relations below the node as its scope
    and the sets that outer joins need; the list of relations to be joined names every table once, in order. *)
From stdpp Require Import gmap.
From S2P Require Import Prelude BitUtils Bitmapset BitmapsetSpec BitmapsetIter EquivClass PathKeys JoinRoot JoinRels JoinLinks RelSets ImpliedEq ImpliedEqProps Quals OuterJoin JoinTree.
#[local] Open Scope Z_scope.

Section Tree.
Context {Expr : Type} `{!ExprOps Expr} `{!OpFamilies Expr} `{!QualOps Expr} `{!OuterOps Expr} (g : JTQuery Expr).
#[local] Abbreviation Clause := (ClauseNode (Expr := Expr)).
#[local] Abbreviation State := (JTRoot Expr).
#[local] Abbreviation Node := (JoinNode Expr).
Implicit Types (st : State) (node : Node) (nodes : list Node) (clause : Clause) (k d : nat).

(** ** Join trees *)
Lemma node_ind (P : Node -> Prop) : (forall v, P (TableRef v)) -> (forall l quals, Forall P l -> P (FromExpr l quals)) ->
  (forall t a b v quals, P a -> P b -> P (JoinExpr t a b v quals)) -> forall node, P node.
Proof.
  intros Ht Hf Hj. fix IH 1. intros [v|l quals|t a b v quals]; [apply Ht| |by apply Hj; apply IH].
  apply Hf. induction l as [|n l IHl]; constructor; [apply IH|apply IHl].
Qed.
Definition children node : list Node :=
  match node with TableRef _ => [] | FromExpr l _ => l | JoinExpr _ a b _ _ => [a; b] end.
(** The tables below a node, in order, and the relations that stand for outer joins. *)
Fixpoint tables node : list Z :=
  match node with
  | TableRef v => [v]
  | FromExpr l _ => (fix go l := match l with [] => [] | n :: l => tables n ++ go l end) l
  | JoinExpr _ a b _ _ => tables a ++ tables b
  end.
Definition oj_index (t : JoinType) (v : Z) : list Z :=
  match t with JOIN_LEFT | JOIN_ANTI | JOIN_FULL => if v =? 0 then [] else [v] | _ => [] end.
Definition own_index node : list Z := match node with JoinExpr t _ _ v _ => oj_index t v | _ => [] end.
Fixpoint outer_joins node : list Z :=
  match node with
  | TableRef _ => []
  | FromExpr l _ => (fix go l := match l with [] => [] | n :: l => outer_joins n ++ go l end) l
  | JoinExpr t a b v _ => outer_joins a ++ outer_joins b ++ oj_index t v
  end.
Fixpoint tree_all (P : Node -> Prop) node : Prop :=
  P node /\
  match node with
  | TableRef _ => True
  | FromExpr l _ => (fix go l := match l with [] => True | n :: l => tree_all P n /\ go l end) l
  | JoinExpr _ a b _ _ => tree_all P a /\ tree_all P b
  end.
(** What the parser and earlier phases guarantee: a FROM has an entry; outer joins have a range table index, but semijoins have none, and neither have
    antijoins made from semijoins. *)
Definition sound_node node : Prop :=
  match node with
  | TableRef v => 0 < v
  | FromExpr l _ => l <> []
  | JoinExpr t _ _ v _ =>
      match t with JOIN_INNER => True | JOIN_LEFT | JOIN_FULL => 0 < v | JOIN_ANTI => 0 <= v | JOIN_SEMI => v = 0 | _ => False end
  end.
(** No outer join *)
Definition inner_node node : Prop :=
  match node with TableRef v => 0 < v | FromExpr l _ => l <> [] | JoinExpr t _ _ _ _ => t = JOIN_INNER end.
(** The quals of a node, with the securityQuals of a table. *)
Definition own_quals node : list Clause :=
  match node with
  | TableRef v => if 0 <? qual_security_level g then concat (securityQuals g v) else []
  | FromExpr _ quals | JoinExpr _ _ _ _ quals => quals
  end.
Fixpoint tree_quals node : list Clause :=
  own_quals node ++
  match node with
  | TableRef v => []
  | FromExpr l _ => (fix go l := match l with [] => [] | n :: l => tree_quals n ++ go l end) l
  | JoinExpr _ a b _ _ => tree_quals a ++ tree_quals b
  end.
(** The scope of a node; the part of it that inner joins hold together; what an outer join preserves. *)
Definition node_bits node : Z := bits (tables node ++ outer_joins node).
Fixpoint inner_bits node : Z :=
  match node with
  | TableRef _ => 0
  | FromExpr l _ => match l with [] => 0 | [n] => inner_bits n | _ => node_bits node end
  | JoinExpr t a b _ _ => if bool_decide (t = JOIN_INNER) then node_bits node else Z.lor (inner_bits a) (inner_bits b)
  end.
Definition nonnullable_bits node : Z :=
  match node with
  | JoinExpr t a _ _ _ => match t with JOIN_LEFT | JOIN_ANTI => node_bits a | JOIN_FULL => node_bits node | _ => 0 end
  | _ => 0
  end.
Definition forest_tables nodes : list Z := concat (tables <$> nodes).
Definition forest_joins nodes : list Z := concat (outer_joins <$> nodes).
Definition forest_bits nodes : Z := bits (forest_tables nodes ++ forest_joins nodes).
Definition forest_quals nodes : list Clause := concat (tree_quals <$> nodes).

Lemma tables_children node : node = TableRef (hd 0 (tables node)) \/ tables node = forest_tables (children node).
Proof.
  destruct node as [v|l quals|t a b v quals]; [by left|right..]; unfold forest_tables; cbn; [|by rewrite app_nil_r].
  induction l as [|n l IH]; [done|]. cbn. by rewrite IH.
Qed.
Lemma outer_joins_children node : outer_joins node = forest_joins (children node) ++ own_index node.
Proof.
  destruct node as [v|l quals|t a b v quals]; unfold forest_joins; cbn; [done| |by rewrite app_nil_r, <- app_assoc]. rewrite app_nil_r.
  induction l as [|n l IH]; [done|]. cbn. by rewrite IH.
Qed.
Lemma node_bits_children node : children node <> [] -> node_bits node = Z.lor (forest_bits (children node)) (bits (own_index node)).
Proof.
  intros Hc. unfold node_bits, forest_bits. destruct (tables_children node) as [E|E]; [by rewrite E in Hc|].
  rewrite E, outer_joins_children, !bits_app. by rewrite Z.lor_assoc.
Qed.
Lemma forest_bits_app l1 l2 : forest_bits (l1 ++ l2) = Z.lor (forest_bits l1) (forest_bits l2).
Proof. unfold forest_bits, forest_tables, forest_joins. rewrite !fmap_app, !concat_app, !bits_app. mask_solver. Qed.
Lemma forest_bits_one node : forest_bits [node] = node_bits node.
Proof. unfold forest_bits, forest_tables, forest_joins. cbn. by rewrite !app_nil_r. Qed.
Lemma forest_tables_snoc nodes node : forest_tables (nodes ++ [node]) = forest_tables nodes ++ tables node.
Proof. unfold forest_tables. rewrite fmap_app, concat_app. cbn. by rewrite app_nil_r. Qed.
Lemma forest_joins_snoc nodes node : forest_joins (nodes ++ [node]) = forest_joins nodes ++ outer_joins node.
Proof. unfold forest_joins. rewrite fmap_app, concat_app. cbn. by rewrite app_nil_r. Qed.
Lemma node_bits_join t a b v quals : node_bits (JoinExpr t a b v quals) = Z.lor (Z.lor (node_bits a) (node_bits b)) (bits (oj_index t v)).
Proof.
  rewrite node_bits_children by done. change (children _) with ([a] ++ [b]). by rewrite forest_bits_app, !forest_bits_one.
Qed.
Lemma tree_quals_children node : tree_quals node = own_quals node ++ forest_quals (children node).
Proof.
  destruct node as [v|l quals|t a b v quals]; unfold forest_quals; cbn; [done| |by rewrite app_nil_r].
  f_equal. induction l as [|n l IH]; [done|]. cbn. by rewrite IH.
Qed.
Lemma tree_all_node P node : tree_all P node -> P node.
Proof. by destruct node; intros [? _]. Qed.
Lemma tree_all_children P node : tree_all P node -> Forall (tree_all P) (children node).
Proof.
  destruct node as [v|l quals|t a b v quals]; cbn; [intros _; constructor| |intros (_ & ? & ?); by repeat constructor].
  intros [_ H]. induction l as [|n l IH]; [done|]. destruct H as [Hn H]. constructor; [done|]. by apply IH.
Qed.
Lemma tree_all_mono (P Q : Node -> Prop) node : (forall n, P n -> Q n) -> tree_all P node -> tree_all Q node.
Proof.
  intros HPQ. induction node as [v|l quals IH|t a b v quals IHa IHb] using node_ind; cbn;
    [intros [H _]; split; [by apply HPQ|done]| |intros (H & Ha & Hb); split_and!; [by apply HPQ|by apply IHa|by apply IHb]].
  intros [H1 H2]. split; [by apply HPQ|]. clear H1. induction IH as [|n l Hn _ IHl]; [done|]. destruct H2 as [H2 H3]. split; [by apply Hn|]. by apply IHl.
Qed.
Lemma inner_sound node : inner_node node -> sound_node node.
Proof. destruct node; cbn; [done|done|by intros ->]. Qed.
Lemma inner_no_joins node : tree_all inner_node node -> outer_joins node = [].
Proof.
  induction node as [v|l quals IH|t a b v quals IHa IHb] using node_ind; [done| |].
  - intros H%tree_all_children. rewrite outer_joins_children, app_nil_r. cbn [children] in *. unfold forest_joins. clear quals.
    induction IH as [|n l Hn _ IHl]; [done|]. apply Forall_cons in H as [H1 H2]. cbn. by rewrite Hn, IHl.
  - intros (Ht & Ha & Hb). cbn in *. subst t. by rewrite IHa, IHb.
Qed.

(** The tables of a joinlist *)
Fixpoint item_tables (item : JoinItem) : list Z :=
  match item with
  | RangeTblRef v => [v]
  | SubJoinlist l => (fix go l := match l with [] => [] | i :: l => item_tables i ++ go l end) l
  end.
Definition joinlist_tables (l : list JoinItem) : list Z := item_tables (SubJoinlist l).
Lemma joinlist_tables_app l1 l2 : joinlist_tables (l1 ++ l2) = joinlist_tables l1 ++ joinlist_tables l2.
Proof. induction l1 as [|i l1 IH]; [done|]. unfold joinlist_tables in *. cbn in *. by rewrite IH, app_assoc. Qed.
Lemma joinlist_tables_sub l : joinlist_tables [SubJoinlist l] = joinlist_tables l.
Proof. unfold joinlist_tables. cbn. by rewrite app_nil_r. Qed.
(** Every sublist has a member. *)
Fixpoint full_item (item : JoinItem) : Prop :=
  match item with
  | RangeTblRef _ => True
  | SubJoinlist l => l <> [] /\ (fix go l := match l with [] => True | i :: l => full_item i /\ go l end) l
  end.
Lemma full_sub l : full_item (SubJoinlist l) <-> l <> [] /\ Forall full_item l.
Proof.
  cbn. apply and_iff_compat_l. induction l as [|i l IH]; [split; [constructor|done]|]. rewrite Forall_cons. by rewrite IH.
Qed.
(** The joinlist of a tree with the tables [ts]. *)
Definition lists (l : list JoinItem) (ts : list Z) : Prop := joinlist_tables l = ts /\ Forall full_item l.
Lemma lists_some l ts : lists l ts -> ts <> [] -> l <> [].
Proof. intros [E _] Hts ->. by rewrite <- E in Hts. Qed.
Lemma lists_app l1 l2 t1 t2 : lists l1 t1 -> lists l2 t2 -> lists (l1 ++ l2) (t1 ++ t2).
Proof. intros [<- F1] [<- F2]. split; [apply joinlist_tables_app|by apply Forall_app]. Qed.
Lemma lists_sub l ts : lists l ts -> ts <> [] -> lists [SubJoinlist l] ts.
Proof.
  intros H Hts. split; [rewrite joinlist_tables_sub; apply H|]. apply Forall_singleton, full_sub. split; [by apply (lists_some l ts)|apply H].
Qed.

(** ** Items *)

(** Every node satisfies [P]. *)
Context (P : Node -> Prop) (P_sound : forall node, P node -> sound_node node).
Record item_ok (item : JoinTreeItem Expr) : Prop := {
  it_tree : tree_all P (jtnode item);
  it_scope : denotes (qualscope item) (node_bits (jtnode item));
  it_inner : denotes (inner_join_rels item) (inner_bits (jtnode item));
  it_sides t a b v quals : jtnode item = JoinExpr t a b v quals -> denotes (left_rels item) (node_bits a) /\ denotes (right_rels item) (node_bits b);
  it_nonnullable : denotes (nonnullable_rels item) (nonnullable_bits (jtnode item));
  it_fresh : jti_sjinfo item = None /\ oj_joinclauses item = [] /\ lateral_clauses item = []
}.
(** [k] comes before its parent in the item list. *)
Definition parent_after st k (rest : list nat) : Prop :=
  exists p, jti_parent (get_item st k) = Some p /\ p ∈ rest /\ (p < k)%nat /\ children (jtnode (get_item st p)) <> [] /\
    within (node_bits (jtnode (get_item st k))) (node_bits (jtnode (get_item st p))).
(** The items of a subtree are listed in postorder. *)
Fixpoint layout st node (new : list nat) : Prop :=
  exists below k, new = below ++ [k] /\ jtnode (get_item st k) = node /\
  match node with
  | TableRef _ => below = []
  | FromExpr l _ => (fix go l below := match l with [] => below = [] | n :: l => exists l1 l2, below = l1 ++ l2 /\ layout st n l1 /\ go l l2 end) l below
  | JoinExpr _ a b _ _ => exists l1 l2, below = l1 ++ l2 /\ layout st a l1 /\ layout st b l2
  end.
Fixpoint forest_layout st nodes (new : list nat) : Prop :=
  match nodes with
  | [] => new = []
  | n :: nodes => exists l1 l2, new = l1 ++ l2 /\ layout st n l1 /\ forest_layout st nodes l2
  end.
Lemma layout_above st node below k : jtnode (get_item st k) = node -> children node <> [] -> forest_layout st (children node) below -> layout st node (below ++ [k]).
Proof.
  intros Hk Hc H. destruct node as [v|l quals|t a b v quals]; [done|..]; exists below, k; (split; [done|]; split; [done|]); cbn [children] in H.
  - clear Hk Hc quals. revert below H. induction l as [|n l IH]; intros below H; [done|]. destruct H as (l1 & l2 & -> & H1 & H2). exists l1, l2. split_and!; [done|auto|]. by apply IH.
  - destruct H as (l1 & l2 & -> & H1 & l3 & l4 & -> & H2 & ->). exists l1, l3. by rewrite app_nil_r.
Qed.
Lemma layout_split st node new : layout st node new -> exists below k, new = below ++ [k] /\ jtnode (get_item st k) = node /\ forest_layout st (children node) below.
Proof.
  destruct node as [v|l quals|t a b v quals]; intros (below & k & -> & Hk & H); exists below, k; (split; [done|]; split; [done|]); [done|..]; cbn [children].
  - clear Hk quals. revert below H. induction l as [|n l IH]; intros below H; [done|]. destruct H as (l1 & l2 & -> & H1 & H2). exists l1, l2. split_and!; [done|auto|]. by apply IH.
  - destruct H as (l1 & l2 & -> & H1 & H2). exists l1, l2. split; [done|]. split; [done|]. exists l2, []. by rewrite app_nil_r.
Qed.
Lemma layout_same st st' : (forall k, jtnode (get_item st' k) = jtnode (get_item st k)) -> forall node new, layout st node new -> layout st' node new.
Proof.
  intros Hs. induction node as [v|l quals IH|t a b v quals IHa IHb] using node_ind; intros new (below & k & -> & Hk & H);
    exists below, k; (split; [done|]; split; [by rewrite Hs|]); [done|..].
  - clear Hk quals. revert below H. induction IH as [|n l Hn _ IHl]; intros below H; [done|]. destruct H as (l1 & l2 & -> & H1 & H2). exists l1, l2. split_and!; [done|auto|]. by apply IHl.
  - destruct H as (l1 & l2 & -> & H1 & H2). exists l1, l2. auto.
Qed.

(** ** Join domains *)
#[local] Abbreviation domains st := (im_jdomains (jt_root st)).
Lemma get_set_domain st d rs j : get_domain (set_domain st d rs) j = if decide (j = d /\ (d < length (domains st))%nat) then rs else get_domain st j.
Proof.
  unfold get_domain, jd_relids. cbn. rewrite !nth_lookup. destruct (decide _) as [[-> Hd]|Hn]; [by rewrite list_lookup_insert_eq|].
  destruct (decide (j = d)) as [->|Hne]; [|by rewrite list_lookup_insert_ne]. rewrite list_insert_ge; [done|lia].
Qed.
Lemma get_new_domain st j : get_domain (new_domain st).2 j = get_domain st j.
Proof.
  unfold get_domain, jd_relids. cbn. rewrite !nth_lookup, lookup_app. destruct (_ !! j) as [x|] eqn:E; [done|].
  by destruct (j - _)%nat as [|[|n]].
Qed.
(** [f j] has been added to the join domain [j]; apart from that the planner state is unchanged. *)
Record grown st st' (f : nat -> Z) : Prop := {
  gd_root : jt_root st' = jt_root (set_jdomains st (domains st'));
  gd_length : (length (domains st) <= length (domains st'))%nat;
  gd_wf : (forall j, bms_wf (get_domain st j)) -> forall j, bms_wf (get_domain st' j);
  gd_val j : (forall j, bms_wf (get_domain st j)) -> (j < length (domains st))%nat -> bms_val (get_domain st' j) = Z.lor (bms_val (get_domain st j)) (f j)
}.
Definition at_domain d (x : Z) (j : nat) : Z := if decide (j = d) then x else 0.
Lemma grown_trans st1 st2 st3 f h : grown st1 st2 f -> grown st2 st3 h -> grown st1 st3 (fun j => Z.lor (f j) (h j)).
Proof.
  intros [R1 L1 W1 V1] [R2 L2 W2 V2]. split; [|lia|auto|].
  - rewrite R2. cbn. by rewrite R1.
  - intros j Hw Hj. rewrite V2, V1 by (auto; lia). by rewrite Z.lor_assoc.
Qed.
Lemma grown_ext st st' f h : grown st st' f -> (forall j, (j < length (domains st))%nat -> f j = h j) -> grown st st' h.
Proof. intros [R L W V] E. split; [done..|]. intros j Hw Hj. by rewrite V, E. Qed.
Lemma grown_same st st' : jt_root st' = jt_root st -> grown st st' (fun _ => 0).
Proof.
  intros E. assert (forall j, get_domain st' j = get_domain st j) as Eg by (intros; unfold get_domain; by rewrite E).
  split; [rewrite E; cbn; by destruct (jt_root st)|by rewrite E|intros Hw j; by rewrite Eg|]. intros j _ _. by rewrite Eg, Z.lor_0_r.
Qed.
Lemma grown_new st : grown st (new_domain st).2 (fun _ => 0).
Proof.
  split; [done|cbn; rewrite length_app; lia|intros Hw j; by rewrite get_new_domain|]. intros j _ _. by rewrite get_new_domain, Z.lor_0_r.
Qed.
Lemma grown_set st d rs x : denotes rs (Z.lor (bms_val (get_domain st d)) x) -> grown st (set_domain st d rs) (at_domain d x).
Proof.
  intros [W V]. split; [done|cbn; by rewrite length_insert|..].
  - intros Hw j. rewrite get_set_domain. by destruct (decide _).
  - intros j Hw Hj. rewrite get_set_domain. unfold at_domain. destruct (decide (j = d)) as [->|Hne].
    + rewrite decide_True by done. done.
    + rewrite decide_False by naive_solver. by rewrite Z.lor_0_r.
Qed.

(** ** The relations nulled by an outer join *)
Definition nulling_kept st st' : Prop := forall n rs, nulling_relids st !! n = Some rs -> bms_wf rs -> exists rs', nulling_relids st' !! n = Some rs' /\ bms_wf rs'.
Lemma nulling_kept_trans st1 st2 st3 : nulling_kept st1 st2 -> nulling_kept st2 st3 -> nulling_kept st1 st3.
Proof. intros H1 H2 n rs Hn Hw. destruct (H1 n rs Hn Hw) as (rs' & Hn' & Hw'). eauto. Qed.
(** The entries of [simple_rel_array] *)
Record slots st (ts js : list Z) : Prop := {
  sl_table v : v ∈ ts -> exists rel rs, im_rels (jt_root st) !! Z.to_nat v = Some (Base rel) /\ nulling_relids st !! Z.to_nat v = Some rs /\ bms_wf rs;
  sl_join v : v ∈ js -> im_rels (jt_root st) !! Z.to_nat v = Some OuterJoin
}.
Lemma slots_kept st st' ts js ts' js' : slots st ts js -> im_rels (jt_root st') = im_rels (jt_root st) -> nulling_kept st st' -> ts' ⊆ ts -> js' ⊆ js -> slots st' ts' js'.
Proof.
  intros [Ht Hj] E Hk Hs1 Hs2. split; rewrite E.
  - intros v Hv. destruct (Ht v (Hs1 v Hv)) as (rel & rs & H1 & H2 & H3). destruct (Hk _ _ H2 H3) as (rs' & H4 & H5). by exists rel, rs'.
  - intros v Hv. by apply Hj, Hs2.
Qed.
Lemma mark_nulled_ok st v lower x : 0 <= v -> denotes lower x -> bms_wf (outer_join_rels st) ->
  (forall b, 0 <= b -> Z.testbit x b = true -> 0 < b /\
    ((exists rel rs, im_rels (jt_root st) !! Z.to_nat b = Some (Base rel) /\ nulling_relids st !! Z.to_nat b = Some rs /\ bms_wf rs) \/
     (im_rels (jt_root st) !! Z.to_nat b = Some OuterJoin /\ Z.testbit (bms_val (outer_join_rels st)) b = true))) ->
  exists nulling, let st' := set_scopes st (all_baserels st) (outer_join_rels st) nulling in
    mark_rels_nulled_by_join st v lower = Ok st' /\ nulling_kept st st'.
Proof.
  intros Hv [Hl <-] Ho. unfold mark_rels_nulled_by_join.
  assert (forall fuel st0 i, -1 <= i -> bms_capacity lower - i <= Z.of_nat fuel -> (0 < fuel)%nat -> bms_wf (outer_join_rels st0) ->
    (forall b, 0 <= b -> bms_mem lower b = true -> 0 < b /\
      ((exists rel rs, im_rels (jt_root st0) !! Z.to_nat b = Some (Base rel) /\ nulling_relids st0 !! Z.to_nat b = Some rs /\ bms_wf rs) \/
       (im_rels (jt_root st0) !! Z.to_nat b = Some OuterJoin /\ Z.testbit (bms_val (outer_join_rels st0)) b = true))) ->
    exists nulling, mark_nulled_loop fuel st0 v lower i = Ok (set_scopes st0 (all_baserels st0) (outer_join_rels st0) nulling) /\
      nulling_kept st0 (set_scopes st0 (all_baserels st0) (outer_join_rels st0) nulling)) as Hloop.
  { induction fuel as [|fuel IH]; intros st0 i Hi Hcap Hf Ho0 Hs; [lia|]. cbn [mark_nulled_loop].
    destruct (next_member_next_of lower i Hl Hi) as [[-> _]|(Hlt & Hm & _)].
    { exists (nulling_relids st0). split; [by destruct st0|]. intros n rs Hn Hw. by exists rs. }
    set (b := next_member lower i) in *.
    assert (b < bms_capacity lower) as Hbc by (destruct (Z_lt_ge_dec b (bms_capacity lower)); [done|]; rewrite bms_mem_capacity in Hm by (done || lia); done).
    destruct (Hs b ltac:(lia) Hm) as (Hb & Hslot). rewrite (proj2 (Z.gtb_lt b 0)) by lia.
    destruct Hslot as [(rel & rs & Er & En & Hw)|[Er Hout]]; rewrite Er.
    - rewrite En. destruct (bms_add_member_spec rs v Hw Hv) as (rs' & -> & Hw' & _). cbn [mbind result_bind]. set (st1 := set_scopes st0 _ _ _).
      destruct (IH st1 b) as (nulling & E & Hk); [lia|lia|lia|done| |].
      + intros b' Hb' Hm'. destruct (Hs b' Hb' Hm') as (? & [(rel' & rs1 & Er' & En' & Hw1)|?]); [|by split; [|right]]. split; [done|left]. exists rel'. cbn.
        destruct (decide (Z.to_nat b' = Z.to_nat b)) as [Eb|Hne]; [exists rs'; rewrite Eb, list_lookup_insert_eq by (by eapply lookup_lt_Some); by rewrite <- Eb|].
        exists rs1. by rewrite list_lookup_insert_ne.
      + exists nulling. split; [exact E|]. intros n r Hn Hr. apply (Hk n (if decide (n = Z.to_nat b) then rs' else r)); [|by destruct (decide _)]. cbn.
        destruct (decide (n = Z.to_nat b)) as [->|Hne]; [by rewrite list_lookup_insert_eq by (by eapply lookup_lt_Some)|by rewrite list_lookup_insert_ne].
    - assert (bms_is_member b (outer_join_rels st0) = Ok true) as -> by (rewrite bms_is_member_spec by (done || lia); f_equal; exact Hout). cbn [mbind result_bind].
      destruct (nulling_relids st0 !! Z.to_nat b); (apply (IH st0 b); [lia|lia|lia|done|done]). }
  intros Hs. apply (Hloop _ st (-1)); [lia| |lia|done|exact Hs]. lia.
Qed.

(** ** The effect of a scan *)

(** The subtrees [nodes] below item [top] have been scanned.  Where [I] holds there were no outer joins, and all is in join domain [d]. *)
Record forest_scanned st nodes (I : Prop) d top st' (new : list nat) : Prop := {
  fs_base : denotes (all_baserels st') (Z.lor (bms_val (all_baserels st)) (bits (forest_tables nodes)));
  fs_outer : denotes (outer_join_rels st') (Z.lor (bms_val (outer_join_rels st)) (bits (forest_joins nodes)));
  fs_nulling : nulling_kept st st';
  fs_heap : exists own, jt_items st' = jt_items st ++ own;
  fs_new k : k ∈ new <-> (length (jt_items st) <= k < length (jt_items st'))%nat;
  fs_item k : k ∈ new -> item_ok (get_item st' k);
  fs_domain k : k ∈ new -> (jdomain (get_item st' k) < length (domains st'))%nat;
  fs_inner : I -> length (domains st') = length (domains st) /\ forall k, k ∈ new -> jdomain (get_item st' k) = d;
  fs_order l1 k l2 : new = l1 ++ k :: l2 -> parent_after st' k l2 \/
    (jti_parent (get_item st' k) = Some top /\ within (node_bits (jtnode (get_item st' k))) (forest_bits nodes));
  fs_quals clause : clause ∈ forest_quals nodes <-> exists k, k ∈ new /\ clause ∈ own_quals (jtnode (get_item st' k));
  fs_layout : forest_layout st' nodes new;
  fs_nodup : NoDup new
}.
Record tree_scanned st node d (parent : option nat) st' (new : list nat) : Prop := {
  ts_grown : grown st st' (at_domain d (node_bits node));
  ts_base : denotes (all_baserels st') (Z.lor (bms_val (all_baserels st)) (bits (tables node)));
  ts_outer : denotes (outer_join_rels st') (Z.lor (bms_val (outer_join_rels st)) (bits (outer_joins node)));
  ts_nulling : nulling_kept st st';
  ts_heap : exists own, jt_items st' = jt_items st ++ own;
  ts_new k : k ∈ new <-> (length (jt_items st) <= k < length (jt_items st'))%nat;
  ts_item k : k ∈ new -> item_ok (get_item st' k);
  ts_domain k : k ∈ new -> (jdomain (get_item st' k) < length (domains st'))%nat;
  ts_inner : tree_all inner_node node -> length (domains st') = length (domains st) /\ forall k, k ∈ new -> jdomain (get_item st' k) = d;
  ts_top : exists l, new = l ++ [length (jt_items st)] /\ jtnode (get_item st' (length (jt_items st))) = node /\
    jti_parent (get_item st' (length (jt_items st))) = parent /\ forall l1 k l2, new = l1 ++ k :: l2 -> l2 = [] \/ parent_after st' k l2;
  ts_quals clause : clause ∈ tree_quals node <-> exists k, k ∈ new /\ clause ∈ own_quals (jtnode (get_item st' k));
  ts_layout : layout st' node new;
  ts_nodup : NoDup new
}.

Lemma get_item_app st st' own k : jt_items st' = jt_items st ++ own -> (k < length (jt_items st))%nat -> get_item st' k = get_item st k.
Proof. intros E Hk. unfold get_item. rewrite E. by apply app_nth1. Qed.
Lemma parent_after_app st st' own k rest rest' : jt_items st' = jt_items st ++ own -> (k < length (jt_items st))%nat ->
  parent_after st k rest -> rest ⊆ rest' -> parent_after st' k rest'.
Proof.
  intros E Hk (p & Hp & Hin & Hlt & Hch & Hw) Hsub. exists p. rewrite !(get_item_app st st' own) by (done || lia). split_and!; [done|by apply Hsub|done..].
Qed.
(** A layout whose items have not changed *)
Lemma layout_local st st' node new : layout st node new -> (forall k, k ∈ new -> jtnode (get_item st' k) = jtnode (get_item st k)) -> layout st' node new.
Proof.
  revert new. induction node as [v|l quals IH|t a b v quals IHa IHb] using node_ind; intros new (below & k & -> & Hk & H) Hs;
    exists below, k; (split; [done|]; split; [rewrite Hs; [done|apply elem_of_app; right; by left]|]); [done|..];
    assert (forall k, k ∈ below -> jtnode (get_item st' k) = jtnode (get_item st k)) as Hs' by (intros; apply Hs, elem_of_app; by left); clear Hs Hk.
  - revert below H Hs'. induction IH as [|n l Hn _ IHl]; intros below H Hs'; [done|]. destruct H as (l1 & l2 & -> & H1 & H2). exists l1, l2.
    split_and!; [done|apply Hn; [done|]|apply IHl; [done|]]; intros; apply Hs', elem_of_app; auto.
  - destruct H as (l1 & l2 & -> & H1 & H2). exists l1, l2. split_and!; [done|apply IHa; [done|]|apply IHb; [done|]]; intros; apply Hs', elem_of_app; auto.
Qed.
Lemma forest_layout_local st st' nodes new : forest_layout st nodes new -> (forall k, k ∈ new -> jtnode (get_item st' k) = jtnode (get_item st k)) -> forest_layout st' nodes new.
Proof.
  revert new. induction nodes as [|n nodes IH]; intros new H Hs; [done|]. destruct H as (l1 & l2 & -> & H1 & H2). exists l1, l2.
  split_and!; [done|eapply layout_local; [done|]|apply IH; [done|]]; intros; apply Hs, elem_of_app; auto.
Qed.
Lemma forest_layout_snoc st nodes node l1 l2 : forest_layout st nodes l1 -> layout st node l2 -> forest_layout st (nodes ++ [node]) (l1 ++ l2).
Proof.
  revert l1. induction nodes as [|n nodes IH]; intros l1 H1 H2.
  - cbn in H1. subst l1. exists l2, []. by rewrite app_nil_r.
  - destruct H1 as (m1 & m2 & -> & H1 & H1'). exists m1, (m2 ++ l2). rewrite <- app_assoc. split_and!; [done|done|by apply IH].
Qed.

(** ** Subtrees in sequence *)
Lemma forest_nil st I d top : bms_wf (all_baserels st) -> bms_wf (outer_join_rels st) -> forest_scanned st [] I d top st [].
Proof.
  intros Hb Ho. split; try done.
  - by rewrite Z.lor_0_r.
  - by rewrite Z.lor_0_r.
  - intros n rs Hn Hw. by exists rs.
  - exists []. by rewrite app_nil_r.
  - intros k. rewrite elem_of_nil. lia.
  - by intros k ?%not_elem_of_nil.
  - by intros k ?%not_elem_of_nil.
  - intros _. split; [done|]. by intros k ?%not_elem_of_nil.
  - by intros [|] k l2.
  - intros clause. split; [by intros ?%not_elem_of_nil|]. by intros (k & ?%not_elem_of_nil & _).
  - constructor.
Qed.
(** Between subtrees only join domains change. *)
Definition domains_only st st' : Prop := (exists jds, st' = set_jdomains st jds) /\ (length (domains st) <= length (domains st'))%nat.
Lemma forest_snoc st nodes node I d top st1 new1 st1' d1 st2 new2 : (top < length (jt_items st))%nat ->
  forest_scanned st nodes I d top st1 new1 -> domains_only st1 st1' -> (I -> st1' = st1 /\ d1 = d /\ tree_all inner_node node) ->
  tree_scanned st1' node d1 (Some top) st2 new2 -> forest_scanned st (nodes ++ [node]) I d top st2 (new1 ++ new2).
Proof.
  intros Htop [FB FO FU (own1 & FH) FN FI FM FJ FD FQ FL FV] [(jds & Ed) Hlen] HI [TG [TWB TB] [TWO TO] TU (own2 & TH) TN TI TM TJ (l & TL & TT & TP & TD) TQ TY TV].
  assert (jt_items st1' = jt_items st1) as Ei by (by subst st1'). assert (nulling_relids st1' = nulling_relids st1) as En by (by subst st1').
  assert (all_baserels st1' = all_baserels st1) as Eb by (by subst st1'). assert (outer_join_rels st1' = outer_join_rels st1) as Eo by (by subst st1').
  assert (forall k, get_item st1' k = get_item st1 k) as Eg by (intros; unfold get_item; by rewrite Ei). rewrite Ei in TH, TN, TL, TT, TP.
  assert (forall k, k ∈ new1 -> get_item st2 k = get_item st1 k) as Hold by (intros k [_ Hk]%FN; by apply (get_item_app st1 st2 own2)).
  pose proof (gd_length _ _ _ TG) as Hlen2. split.
  - split; [done|]. rewrite TB, Eb, (proj2 FB), forest_tables_snoc, bits_app. by rewrite Z.lor_assoc.
  - split; [done|]. rewrite TO, Eo, (proj2 FO), forest_joins_snoc, bits_app. by rewrite Z.lor_assoc.
  - intros n rs Hn Hw. destruct (FU n rs Hn Hw) as (rs1 & Hn1 & Hw1). rewrite <- En in Hn1. by apply (TU n rs1).
  - exists (own1 ++ own2). by rewrite TH, FH, app_assoc.
  - intros k. rewrite elem_of_app, FN, TN, TH, FH, !length_app. lia.
  - intros k [Hk|Hk]%elem_of_app; [rewrite (Hold k Hk); by apply FI|by apply TI].
  - intros k [Hk|Hk]%elem_of_app; [rewrite (Hold k Hk); pose proof (FM k Hk); lia|by apply TM].
  - intros Hi. destruct (HI Hi) as (E1 & -> & Hin). destruct (FJ Hi) as [J1 J2], (TJ Hin) as [J3 J4]. rewrite E1 in J3. split; [congruence|].
    intros k [Hk|Hk]%elem_of_app; [rewrite (Hold k Hk); by apply J2|by apply J4].
  - intros l1 k l2 E. rewrite forest_bits_app, forest_bits_one. apply app_eq_app in E as (m & [[-> E]|[-> E]]).
    + destruct m as [|k' m]; cbn in E.
      * rewrite app_nil_r in *. destruct (TD [] k l2 (eq_sym E)) as [->|H]; [right|by left].
        destruct l as [|x l]; cbn in TL; [|destruct l; rewrite TL in E; discriminate]. rewrite TL in E. injection E as ->. rewrite TT, TP. split; [done|]. apply within_part_r.
      * injection E as -> ->. assert (k' ∈ l1 ++ k' :: m) as Hk by (rewrite elem_of_app, elem_of_cons; auto). destruct (FD l1 k' m eq_refl) as [H|[H1 H2]].
        -- left. apply FN in Hk as [_ Hk]. apply (parent_after_app st1 st2 own2 k' m _ TH Hk H). intros x Hx. apply elem_of_app. by left.
        -- right. rewrite (Hold _ Hk). split; [done|]. apply (within_trans _ (forest_bits nodes)); [done|]. apply within_part_l.
    + destruct (TD m k l2 E) as [->|H]; [right|by left]. rewrite TL in E. apply app_inj_tail in E as [_ <-]. rewrite TT, TP. split; [done|]. apply within_part_r.
  - intros clause. unfold forest_quals. rewrite fmap_app, concat_app. cbn. rewrite app_nil_r, elem_of_app. fold (forest_quals nodes). rewrite FQ, TQ. split.
    + intros [(k & Hk & Hc)|(k & Hk & Hc)]; exists k; rewrite elem_of_app; [|auto]. rewrite (Hold k Hk). auto.
    + intros (k & [Hk|Hk]%elem_of_app & Hc); [left|right]; exists k; [rewrite (Hold k Hk) in Hc|]; auto.
  - apply forest_layout_snoc; [|done]. apply (forest_layout_local st1); [done|]. intros k Hk. by rewrite Hold.
  - apply NoDup_app. split_and!; [done| |done]. intros k [_ H1]%FN [H2 _]%TN. lia.
Qed.

(** ** A node above its subtrees *)
Section Node.
Context (st : State) (node : Node) (d : nat) (parent : option nat).
Let k := (new_item st node parent).1.
Let st0 := (new_item st node parent).2.
Lemma new_item_get : get_item st0 k = {| jtnode := node; jdomain := 0; jti_parent := parent; qualscope := None; inner_join_rels := None; left_rels := None; right_rels := None;
  nonnullable_rels := None; jti_sjinfo := None; oj_joinclauses := []; lateral_clauses := [] |}.
Proof. subst k st0. unfold get_item. cbn. rewrite app_nth2 by lia. by rewrite Nat.sub_diag. Qed.

Context (st1 : State) (own : list (JoinTreeItem Expr)) (Hheap : jt_items st1 = jt_items st0 ++ own) (d1 : nat) (scope inner left right nonnull : bitmapset).
Let st2 := fill st1 k d1 scope inner left right nonnull.
Lemma fill_heap : exists item, jt_items st2 = jt_items st ++ [item] ++ own.
Proof.
  eexists. cbn. rewrite Hheap. cbn. rewrite <- app_assoc. cbn. by rewrite insert_app_r_alt, Nat.sub_diag by done.
Qed.
Lemma fill_get : get_item st2 k = fill_item {| jtnode := node; jdomain := 0; jti_parent := parent; qualscope := None; inner_join_rels := None; left_rels := None;
  right_rels := None; nonnullable_rels := None; jti_sjinfo := None; oj_joinclauses := []; lateral_clauses := [] |} d1 scope inner left right nonnull.
Proof.
  unfold get_item at 1. unfold st2, fill, set_item. cbn [jt_items set_jt_items]. rewrite nth_lookup, list_lookup_insert_eq.
  - cbn [default]. rewrite (get_item_app st0 st1 own k Hheap); [|cbn; rewrite length_app; cbn; lia]. by rewrite new_item_get.
  - rewrite Hheap. cbn. rewrite !length_app. cbn. lia.
Qed.
Lemma fill_get_other k' : k' <> k -> get_item st2 k' = get_item st1 k'.
Proof. intros Hne. unfold get_item. cbn. by rewrite !nth_lookup, list_lookup_insert_ne by done. Qed.

(** The sets of the item *)
Record node_sets : Prop := {
  ns_scope : denotes scope (node_bits node);
  ns_inner : denotes inner (inner_bits node);
  ns_sides t a b v quals : node = JoinExpr t a b v quals -> denotes left (node_bits a) /\ denotes right (node_bits b);
  ns_nonnullable : denotes nonnull (nonnullable_bits node)
}.
Lemma tree_above stF I stU new : tree_all P node -> children node <> [] -> domains_only st0 stF -> forest_scanned stF (children node) I d k stU new ->
  jt_items st1 = jt_items stU -> all_baserels st1 = all_baserels stU ->
  denotes (outer_join_rels st1) (Z.lor (bms_val (outer_join_rels stU)) (bits (own_index node))) -> nulling_kept stU st1 ->
  (length (domains stU) <= length (domains st1))%nat -> (d1 < length (domains st1))%nat -> grown st0 st1 (at_domain d (node_bits node)) ->
  (tree_all inner_node node -> I /\ d1 = d /\ domains st1 = domains stU /\ stF = st0) -> node_sets ->
  tree_scanned st node d parent st2 (new ++ [k]).
Proof.
  intros Hall Hch [(jds & Ed) _] [FB FO FU _ FN FI FM FJ FD FQ FL FV] Ei Eb Ho Hu Hlen Hd1 Hg HI [Ss Si Sd Sn]. destruct fill_heap as [item EH].
  assert (node_bits node = Z.lor (forest_bits (children node)) (bits (own_index node))) as En by (by apply node_bits_children).
  assert (jt_items stF = jt_items st0) as EF by (by subst stF). rewrite EF in FN.
  assert (forall k', k' ∈ new -> k' <> k /\ (k < k')%nat) as Hnew by (intros k' H%FN; cbn in H; rewrite length_app in H; cbn in H; subst k; cbn; lia).
  assert (forall k', get_item st1 k' = get_item stU k') as HgU by (intros; unfold get_item; by rewrite Ei).
  assert (forall k', k' ∈ new -> get_item st2 k' = get_item stU k') as Hget by (intros k' H; rewrite fill_get_other by (by apply Hnew); apply HgU).
  split.
  - destruct Hg as [G1 G2 G3 G4]. by split.
  - change (all_baserels st2) with (all_baserels st1). rewrite Eb. destruct (tables_children node) as [E|E]; [by rewrite E in Hch|].
    rewrite E. by subst stF.
  - change (outer_join_rels st2) with (outer_join_rels st1). rewrite outer_joins_children, bits_app, Z.lor_assoc. destruct FO as [_ VO]. rewrite VO in Ho. by subst stF.
  - apply (nulling_kept_trans st stU); [|exact Hu]. by subst stF.
  - exists ([item] ++ own). by rewrite EH.
  - intros k'. rewrite elem_of_app, list_elem_of_singleton, FN, EH, <- Ei, Hheap. subst k. cbn. rewrite !length_app. cbn. lia.
  - intros k' [H| ->%list_elem_of_singleton]%elem_of_app; [rewrite (Hget _ H); by apply FI|]. rewrite fill_get. by split.
  - intros k' [H| ->%list_elem_of_singleton]%elem_of_app; [rewrite (Hget _ H); pose proof (FM k' H); cbn; lia|]. by rewrite fill_get.
  - intros (Hi & Ed1 & Ejd & EsF)%HI. destruct (FJ Hi) as [J1 J2]. split.
    + change (domains st2) with (domains st1). rewrite Ejd, J1, EsF. done.
    + intros k' [H| ->%list_elem_of_singleton]%elem_of_app; [rewrite (Hget _ H); by apply J2|]. rewrite fill_get. exact Ed1.
  - exists new. change (length (jt_items st)) with k. rewrite fill_get. split_and!; [done|done|done|]. intros l1 k' l2 E.
    destruct l2 as [|x l2] using rev_ind; [by left|right]. clear IHl2. rewrite app_comm_cons, app_assoc in E. apply app_inj_tail in E as [-> <-].
    assert (k' ∈ l1 ++ k' :: l2) as Hk' by (rewrite elem_of_app, elem_of_cons; auto). destruct (FD l1 k' l2 eq_refl) as [(p & Hp & Hpin & Hlt & Hpc & Hw)|[Hp Hw]].
    + exists p. assert (p ∈ l1 ++ k' :: l2) as Hpn by (rewrite elem_of_app, elem_of_cons; auto). rewrite !Hget by done. split_and!; [done|apply elem_of_app; by left|done..].
    + exists k. rewrite (Hget _ Hk'), fill_get. cbn [jtnode fill_item]. rewrite En.
      split_and!; [done|apply elem_of_app; right; by left|by apply Hnew|done|]. by apply within_lor_r1.
  - intros clause. rewrite tree_quals_children, elem_of_app, FQ. split.
    + intros [H|(k' & Hk' & H)]; [exists k; rewrite fill_get|exists k'; rewrite (Hget _ Hk')]; (split; [apply elem_of_app; auto|done]). right. by left.
    + intros (k' & [Hk'| ->%list_elem_of_singleton]%elem_of_app & H); [right; exists k'; by rewrite (Hget _ Hk') in H|left]. by rewrite fill_get in H.
  - apply layout_above; [by rewrite fill_get|done|]. apply (forest_layout_local stU); [done|]. intros k' Hk'. by rewrite Hget.
  - apply NoDup_app. split_and!; [done| |apply NoDup_singleton]. intros k' Hk' ->%list_elem_of_singleton. by destruct (Hnew k Hk').
Qed.
End Node.

(** ** [deconstruct_recurse] *)
Lemma nodes_pos node : tree_all P node -> tables node <> [] /\ Forall (fun v => 0 < v) (tables node ++ outer_joins node).
Proof.
  setoid_rewrite Forall_app. induction node as [v|l quals IH|t a b v quals IHa IHb] using node_ind; intros Hin.
  - split; [done|]. repeat constructor. apply (P_sound _ (proj1 Hin)).
  - pose proof (P_sound _ (proj1 Hin)) as Hne. pose proof (tree_all_children _ _ Hin) as Hch. cbn [children sound_node] in *. clear Hin.
    destruct (tables_children (FromExpr l quals)) as [?| ->]; [done|]. rewrite outer_joins_children, app_nil_r. cbn [children]. unfold forest_tables, forest_joins.
    assert (Forall (fun n => tables n <> [] /\ Forall (fun v => 0 < v) (tables n) /\ Forall (fun v => 0 < v) (outer_joins n)) l) as Hl.
    { apply Forall_forall. intros n Hn. rewrite Forall_forall in IH, Hch. auto. }
    clear IH Hch. split.
    + destruct l as [|n l]; [done|]. apply Forall_cons in Hl as [[Hn _] _]. cbn. by intros [? _]%app_eq_nil.
    + clear Hne. induction Hl as [|n l (_ & Hn & Hj) _ IHl]; [done|]. cbn. rewrite !Forall_app. naive_solver.
  - pose proof (P_sound _ (proj1 Hin)) as Hs. destruct Hin as (_ & Ha & Hb). destruct (IHa Ha) as (Na & Pa & Qa), (IHb Hb) as (Nb & Pb & Qb). cbn in *.
    rewrite !Forall_app. split_and!; [by intros [? _]%app_eq_nil|done..|]. unfold oj_index.
    destruct t; try constructor; destruct (Z.eqb_spec v 0); repeat constructor; lia.
Qed.
Lemma node_bit node b : tree_all P node -> 0 <= b -> Z.testbit (node_bits node) b = true <-> b ∈ tables node \/ b ∈ outer_joins node.
Proof. intros [_ H]%nodes_pos Hb. unfold node_bits. by rewrite bits_spec, elem_of_app. Qed.
Lemma tables_some node : tree_all P node -> tables node <> [].
Proof. intros Hin. by destruct (nodes_pos node Hin). Qed.
Lemma node_bits_pos node : tree_all P node -> node_bits node <> 0.
Proof.
  intros Hin. destruct (nodes_pos node Hin) as [Hne Hp]. destruct (tables node) as [|v vs] eqn:Et; [done|]. apply bits_nonzero. exists v.
  apply Forall_cons in Hp as [Hv _]. split; [lia|]. apply node_bit; [done|lia|]. left. rewrite Et. by left.
Qed.

Record ready st (ts js : list Z) : Prop := {
  rd_domains j : bms_wf (get_domain st j);
  rd_base : bms_wf (all_baserels st);
  rd_outer : bms_wf (outer_join_rels st);
  rd_slots : slots st ts js
}.
Lemma ready_part st ts js ts' js' : ready st ts js -> ts' ⊆ ts -> js' ⊆ js -> ready st ts' js'.
Proof.
  intros [H1 H2 H3 H4] Ht Hj. split; [done..|]. apply (slots_kept st st ts js); try done. intros n rs Hn Hw. by exists rs.
Qed.
Lemma grown_rels st st' f : grown st st' f -> im_rels (jt_root st') = im_rels (jt_root st).
Proof. intros [E _ _ _]. by rewrite E. Qed.
Lemma grown_roots st1 st2 st1' st2' f : jt_root st1' = jt_root st1 -> jt_root st2' = jt_root st2 -> grown st1 st2 f -> grown st1' st2' f.
Proof.
  intros E1 E2 [R L W V]. split; unfold set_jdomains, get_domain in *; cbn in *; rewrite ?E1, ?E2 in *; try done.
Qed.
Lemma ready_grown st st' ts js f : ready st ts js -> grown st st' f -> bms_wf (all_baserels st') -> bms_wf (outer_join_rels st') -> nulling_kept st st' -> ready st' ts js.
Proof.
  intros [H1 H2 H3 H4] Hg Hb Ho Hn. split; [by apply (gd_wf _ _ _ Hg)|done|done|]. apply (slots_kept st st' ts js); [done|by apply (grown_rels _ _ f)|done..].
Qed.
Lemma ready_set st d rs ts js : ready st ts js -> bms_wf rs -> ready (set_domain st d rs) ts js.
Proof.
  intros [H1 H2 H3 [H4 H5]] Hw. split; [|done|done|by split]. intros j. rewrite get_set_domain. by destruct (decide _).
Qed.
Lemma ready_new st ts js : ready st ts js -> ready (new_domain st).2 ts js.
Proof. intros [H1 H2 H3 [H4 H5]]. split; [|done|done|by split]. intros j. by rewrite get_new_domain. Qed.
Lemma fresh_domain st : bms_val (get_domain (new_domain st).2 (length (domains st))) = 0.
Proof. rewrite get_new_domain. unfold get_domain, jd_relids. by rewrite nth_overflow. Qed.
Lemma length_new_domain st : length (domains (new_domain st).2) = S (length (domains st)).
Proof. cbn. rewrite length_app. cbn. lia. Qed.

Definition recurse_ok node : Prop := tree_all P node -> forall st d parent items, (d < length (domains st))%nat -> ready st (tables node) (outer_joins node) ->
  exists joinlist st' new, deconstruct_recurse g st node d parent items = Ok (joinlist, st', items ++ new) /\ tree_scanned st node d parent st' new /\
    lists joinlist (tables node).

Lemma table_ok v : recurse_ok (TableRef v).
Proof.
  intros HP st d parent items Hd [Hw Hb Ho Hs]. assert (0 < v) as Hv by apply (P_sound _ (proj1 HP)). cbn [deconstruct_recurse]. unfold new_item.
  destruct (add_member_denotes (all_baserels st) _ (conj Hb eq_refl) v ltac:(lia)) as (baserels & Eb & Db). cbn [all_baserels set_jt_items]. rewrite Eb. cbn [mbind result_bind].
  destruct (add_member_denotes (get_domain st d) _ (conj (Hw d) eq_refl) v ltac:(lia)) as (rs & Er & Dr). unfold get_domain in Er. unfold get_domain at 1.
  cbn [jt_root set_scopes set_jt_items]. rewrite Er. cbn [mbind result_bind].
  destruct (singleton_denotes v ltac:(lia)) as (scope & Es & Ds). rewrite Es. cbn [mbind result_bind]. eexists _, _, [_]. split; [done|].
  assert (node_bits (TableRef v) = 2 ^ v) as En by (unfold node_bits; cbn; apply Z.lor_0_r).
  set (st0 := (new_item st (TableRef v) parent).2). set (st1 := set_domain _ d rs). set (st2 := fill _ _ _ _ _ _ _ _).
  pose proof (fill_get st (TableRef v) parent st1 [] (eq_sym (app_nil_r _)) d scope None None None None) as Hget. fold st2 in Hget. cbn [fst new_item] in Hget.
  change (get_item st2 (length (jt_items st)) = fill_item {| jtnode := TableRef v; jdomain := 0; jti_parent := parent; qualscope := None; inner_join_rels := None;
    left_rels := None; right_rels := None; nonnullable_rels := None; jti_sjinfo := None; oj_joinclauses := []; lateral_clauses := [] |} d scope None None None None) in Hget.
  assert (length (jt_items st2) = S (length (jt_items st))) as Hlen by (cbn; rewrite length_insert, length_app; cbn; lia).
  assert (grown st st2 (at_domain d (2 ^ v))) as Hg by (apply (grown_roots st (set_domain st d rs)); [done..|by apply grown_set]).
  split; [|split; [done|repeat constructor]]. split.
  - by rewrite En.
  - change (bits (tables (TableRef v))) with (Z.lor (2 ^ v) 0). by rewrite Z.lor_0_r.
  - cbn. rewrite Z.lor_0_r. by split.
  - intros n r Hn Hr. by exists r.
  - destruct (fill_heap st (TableRef v) parent st1 [] (eq_sym (app_nil_r _)) d scope None None None None) as [item EH]. by exists ([item] ++ []).
  - intros k. rewrite list_elem_of_singleton, Hlen. lia.
  - intros k ->%list_elem_of_singleton. rewrite Hget. split; try done. change (denotes scope (node_bits (TableRef v))). by rewrite En.
  - intros k ->%list_elem_of_singleton. rewrite Hget. pose proof (gd_length _ _ _ Hg). cbn [jdomain fill_item]. lia.
  - intros _. split; [cbn; by rewrite length_insert|]. intros k ->%list_elem_of_singleton. by rewrite Hget.
  - exists []. rewrite Hget. split_and!; [done..|]. intros [|x [|]] k [|] E; try discriminate; by left.
  - intros clause. cbn [tree_quals]. rewrite app_nil_r. split.
    + intros H. exists (length (jt_items st)). rewrite Hget. split; [by left|done].
    + intros (k & ->%list_elem_of_singleton & H). by rewrite Hget in H.
  - exists [], (length (jt_items st)). rewrite Hget. done.
  - apply NoDup_singleton.
Qed.

(** One more subtree *)
Lemma recurse_next st0 I d top nodes node st new st1 d1 items ts js : (top < length (jt_items st0))%nat -> recurse_ok node -> tree_all P node ->
  forest_scanned st0 nodes I d top st new -> domains_only st st1 -> (I -> st1 = st /\ d1 = d /\ tree_all inner_node node) ->
  (d1 < length (domains st1))%nat -> ready st1 ts js -> tables node ⊆ ts -> outer_joins node ⊆ js ->
  exists joinlist st' new' item, deconstruct_recurse g st1 node d1 (Some top) (items ++ new) = Ok (joinlist, st', items ++ new') /\
    last_item st' (items ++ new') = Ok item /\ denotes (qualscope item) (node_bits node) /\ denotes (inner_join_rels item) (inner_bits node) /\
    forest_scanned st0 (nodes ++ [node]) I d top st' new' /\ lists joinlist (tables node) /\
    grown st1 st' (at_domain d1 (node_bits node)) /\ ready st' ts js.
Proof.
  intros Htop IH Hin HF Hdo HI Hd1 Hrd Hts Hjs. destruct (IH Hin st1 d1 (Some top) (items ++ new) Hd1) as (joinlist & st' & new' & E & HT & Hj); [by apply (ready_part st1 ts js)|].
  exists joinlist, st', (new ++ new'), (get_item st' (length (jt_items st1))). rewrite <- app_assoc in E. split; [done|].
  destruct (ts_top _ _ _ _ _ _ HT) as (l & El & En & _). assert (length (jt_items st1) ∈ new') as Hk by (rewrite El; apply elem_of_app; right; by left).
  destruct (ts_item _ _ _ _ _ _ HT _ Hk) as [_ Hs Hi _ _ _]. rewrite En in Hs, Hi.
  split_and!; [by unfold last_item; rewrite El, !app_assoc, last_snoc|done|done|by eapply forest_snoc|done|apply HT|].
  apply (ready_grown st1 st' ts js (at_domain d1 (node_bits node))); [done|apply HT|apply (ts_base _ _ _ _ _ _ HT)|apply (ts_outer _ _ _ _ _ _ HT)|apply HT].
Qed.
Lemma joinlist_add joinlist sub ts ts' (b : bool) : lists joinlist ts -> lists sub ts' -> ts' <> [] ->
  lists (if b then joinlist ++ sub else joinlist ++ [SubJoinlist sub]) (ts ++ ts').
Proof. intros H1 H2 Hne. destruct b; (apply lists_app; [done|]); [done|by apply lists_sub]. Qed.
Lemma domains_only_refl st : domains_only st st.
Proof. split; [|lia]. exists (domains st). destruct st as [[] ? ? ? ? ? ? ? ? ?]. done. Qed.
Lemma grown_step st0 st st' d x y : grown st0 st (at_domain d x) -> grown st st' (at_domain d y) -> grown st0 st' (at_domain d (Z.lor x y)).
Proof.
  intros H1 H2. apply (grown_ext st0 st' _ _ (grown_trans _ _ _ _ _ H1 H2)). intros j _. unfold at_domain. by destruct (decide _).
Qed.
Definition last_inner nodes : Z := match last nodes with Some n => inner_bits n | None => 0 end.
Lemma from_loop_ok st0 I d k items ts js : (d < length (domains st0))%nat -> (k < length (jt_items st0))%nat -> forall l, Forall recurse_ok l -> Forall (tree_all P) l ->
  (I -> Forall (tree_all inner_node) l) -> Forall (fun n => tables n ⊆ ts /\ outer_joins n ⊆ js) l ->
  forall pre st new joinlist scope inner, forest_scanned st0 pre I d k st new -> ready st ts js -> grown st0 st (at_domain d (forest_bits pre)) ->
  lists joinlist (forest_tables pre) -> denotes scope (forest_bits pre) -> denotes inner (last_inner pre) ->
  exists st' new' joinlist' scope' inner',
    from_loop g (fun st child item_list => deconstruct_recurse g st child d (Some k) item_list) st l (items ++ new) joinlist scope inner =
      Ok (st', items ++ new', joinlist', scope', inner') /\
    forest_scanned st0 (pre ++ l) I d k st' new' /\ grown st0 st' (at_domain d (forest_bits (pre ++ l))) /\
    lists joinlist' (forest_tables (pre ++ l)) /\ denotes scope' (forest_bits (pre ++ l)) /\ denotes inner' (last_inner (pre ++ l)).
Proof.
  intros Hd Hk. induction l as [|node l IH]; intros HR HP HI Hsub pre st new joinlist scope inner HF Hrd Hg Hj Ds Di; cbn [from_loop].
  { rewrite app_nil_r. by eexists _, _, _, _, _. }
  apply Forall_cons in HR as [HR HR'], HP as [HP HP'], Hsub as [[Ht Hjs] Hsub].
  destruct (recurse_next st0 I d k pre node st new st d items ts js Hk HR HP HF (domains_only_refl st)) as (sub & st1 & new1 & item & -> & Hl & Dq & Dn & HF1 & Hs & Hg1 & Hrd1);
    [intros Hi; split_and!; [done|done|by apply HI in Hi as [? _]%Forall_cons]|pose proof (gd_length _ _ _ Hg); lia|done..|].
  cbn [mbind result_bind]. rewrite Hl. cbn [mbind result_bind].
  replace (pre ++ node :: l) with ((pre ++ [node]) ++ l) by (by rewrite <- app_assoc).
  apply IH; [done|done|intros Hi; by apply HI in Hi as [_ ?]%Forall_cons|done|done|done|..].
  - rewrite forest_bits_app, forest_bits_one. by apply (grown_step st0 st).
  - rewrite forest_tables_snoc. by apply joinlist_add, tables_some.
  - rewrite forest_bits_app, forest_bits_one. by apply denotes_add_members.
  - unfold last_inner. by rewrite last_snoc.
Qed.
Lemma join_joinlist_tables t l r ts ts' : lists l ts -> lists r ts' -> ts <> [] -> ts' <> [] -> lists (join_joinlist g t l r) (ts ++ ts').
Proof.
  intros Hl Hr Nl Nr.
  assert (forall l ts, lists l ts -> ts <> [] -> lists [match l with [item] => item | _ => SubJoinlist l end] ts) as Hp.
  { intros l0 ts0 H N. destruct l0 as [|i [|i' l']]; try done; by apply lists_sub. }
  unfold join_joinlist. case_bool_decide.
  - apply lists_sub; [|by destruct ts]. apply (lists_app [_] [_]); by apply lists_sub.
  - destruct (_ <=? _); [by apply lists_app|]. apply (lists_app [_] [_]); by apply Hp.
Qed.
Lemma ready_new_item st node parent ts js : ready st ts js -> ready (new_item st node parent).2 ts js.
Proof. intros [H1 H2 H3 [H4 H5]]. by split. Qed.
Lemma forest_part (f : Node -> list Z) l n : n ∈ l -> f n ⊆ concat (f <$> l).
Proof.
  intros Hn v Hv. induction l as [|m l IH]; [by apply not_elem_of_nil in Hn|]. cbn. apply elem_of_app. apply elem_of_cons in Hn as [->|Hn]; [by left|right; by apply IH].
Qed.
Lemma inner_bits_from l quals : l <> [] -> inner_bits (FromExpr l quals) = if (1 <? length l)%nat then node_bits (FromExpr l quals) else last_inner l.
Proof. by destruct l as [|n [|n' l]]. Qed.
Lemma from_ok l quals : Forall recurse_ok l -> recurse_ok (FromExpr l quals).
Proof.
  intros IH Hin st d parent items Hd Hrd. set (node := FromExpr l quals) in *. pose proof (tree_all_children _ _ Hin) as Hch. pose proof (P_sound _ (proj1 Hin)) as Hne. cbn [sound_node children node] in *.
  unfold node at 1. cbn [deconstruct_recurse]. cbn [new_item]. fold node. set (k := length (jt_items st)). set (st0 := (new_item st node parent).2). change (set_jt_items st _) with st0.
  assert (k < length (jt_items st0))%nat as Hk by (cbn; rewrite length_app; cbn; lia). pose proof (ready_new_item st node parent _ _ Hrd) as Hrd0. fold st0 in Hrd0.
  assert (tables node = forest_tables l) as Et by (destruct (tables_children node) as [?|?]; done).
  assert (outer_joins node = forest_joins l) as Eo by (rewrite outer_joins_children; apply app_nil_r).
  assert (forest_scanned st0 [] (tree_all inner_node node) d k st0 []) as HF0 by (apply forest_nil; apply Hrd0).
  destruct (from_loop_ok st0 (tree_all inner_node node) d k items (tables node) (outer_joins node) Hd Hk l IH Hch) with (3 := HF0) (joinlist := @nil JoinItem) (scope := @None (list Z)) (inner := @None (list Z))
    as (st1 & new & joinlist & scope & inner & E & HF & Hg & Hj & Ds & Di); [by intros ?%tree_all_children| |done|by apply (grown_ext st0 st0 _ _ (grown_same st0 st0 eq_refl)); intros; unfold at_domain; destruct (decide _)|done|done|done|].
  { apply Forall_forall. intros n Hn. rewrite Et, Eo. split; by apply forest_part. }
  rewrite app_nil_r in E. rewrite E. cbn [mbind result_bind]. eexists _, _, (new ++ [k]). rewrite app_assoc. split; [done|]. cbn [app] in *. split; [|by rewrite Et].
  destruct (fs_heap _ _ _ _ _ _ _ HF) as [own Hown]. assert (node_bits node = forest_bits l) as En by (rewrite node_bits_children by done; apply Z.lor_0_r).
  apply (tree_above st node d parent st1 own Hown d scope (if (1 <? length l)%nat then scope else inner) None None None st0 (tree_all inner_node node) st1 new); try done.
  - apply domains_only_refl.
  - cbn. rewrite Z.lor_0_r. split; [apply (fs_outer _ _ _ _ _ _ _ HF)|done].
  - intros n rs Hn Hw. by exists rs.
  - pose proof (gd_length _ _ _ Hg) as Hl. change (domains st0) with (domains st) in Hl. lia.
  - by rewrite En.
  - split; [by rewrite En| |done|done]. unfold node. rewrite inner_bits_from by done. fold node. rewrite En. by destruct (1 <? length l)%nat.
Qed.

(** Outer joins *)
Lemma add_ojrelid_ok st d scope x v ts js : 0 <= v -> ready st ts js -> denotes scope x ->
  exists rs outer scope', let st' := set_scopes (set_domain st d rs) (all_baserels st) outer (nulling_relids st) in
    add_ojrelid st d scope v = Ok (st', scope') /\ denotes scope' (Z.lor x (2 ^ v)) /\ denotes outer (Z.lor (bms_val (outer_join_rels st)) (2 ^ v)) /\
    grown st st' (at_domain d (2 ^ v)) /\ ready st' ts js.
Proof.
  intros Hv Hrd Ds. unfold add_ojrelid. destruct (add_member_denotes _ _ (conj (rd_domains _ _ _ Hrd d) eq_refl) v Hv) as (rs & -> & Dr).
  destruct (add_member_denotes scope x Ds v Hv) as (scope' & -> & Ds'). destruct (add_member_denotes _ _ (conj (rd_outer _ _ _ Hrd) eq_refl) v Hv) as (outer & -> & Do).
  cbn [mbind result_bind]. exists rs, outer, scope'. assert (grown st (set_scopes (set_domain st d rs) (all_baserels st) outer (nulling_relids st)) (at_domain d (2 ^ v))) as Hg.
  { apply (grown_roots st (set_domain st d rs)); [done..|by apply grown_set]. }
  split_and!; [done|done|done|done|]. apply (ready_grown st _ ts js (at_domain d (2 ^ v))); [done|done|apply Hrd|apply Do|]. intros n r Hn Hr. by exists r.
Qed.
Lemma mark_node_ok st v lower n ts js : 0 <= v -> denotes lower (node_bits n) -> tree_all P n -> ready st ts js -> tables n ⊆ ts -> outer_joins n ⊆ js ->
  within (bits (outer_joins n)) (bms_val (outer_join_rels st)) ->
  exists nulling, let st' := set_scopes st (all_baserels st) (outer_join_rels st) nulling in
    mark_rels_nulled_by_join st v lower = Ok st' /\ nulling_kept st st' /\ ready st' ts js.
Proof.
  intros Hv Dl Hn Hrd Hts Hjs Hw. destruct (nodes_pos n Hn) as [_ [Hp1 Hp2]%Forall_app].
  destruct (mark_nulled_ok st v lower (node_bits n) Hv Dl (rd_outer _ _ _ Hrd)) as (nulling & E & Hk).
  - intros b Hb Hbit. apply node_bit in Hbit as [Ht|Hj]; [| |done|done].
    + rewrite Forall_forall in Hp1. split; [by apply Hp1|left]. by apply (sl_table _ _ _ (rd_slots _ _ _ Hrd)), Hts.
    + rewrite within_bits in Hw. split; [rewrite Forall_forall in Hp2; by apply Hp2|right]. split; [by apply (sl_join _ _ _ (rd_slots _ _ _ Hrd)), Hjs|].
      apply Hw; [done|]. by apply bits_spec.
  - exists nulling. split_and!; [done|done|]. apply (ready_grown st _ ts js (fun _ => 0)); [done|by apply grown_same|apply Hrd|apply Hrd|done].
Qed.

Section Join.
Context (t : JoinType) (a b : Node) (v : Z) (quals : list Clause) (IHa : recurse_ok a) (IHb : recurse_ok b).
Let node := JoinExpr t a b v quals.
Context (Hall : tree_all P node) (st : State) (d : nat) (parent : option nat) (items : list nat).
Context (Hd : (d < length (domains st))%nat) (Hrd : ready st (tables node) (outer_joins node)).
Let k := length (jt_items st).
Let st0 := (new_item st node parent).2.
#[local] Abbreviation inner_only := (tree_all inner_node node).

Lemma join_parts : tree_all P a /\ tree_all P b /\ tables a ⊆ tables node /\ tables b ⊆ tables node /\ outer_joins a ⊆ outer_joins node /\ outer_joins b ⊆ outer_joins node.
Proof. destruct Hall as (_ & Ha & Hb). cbn [tables outer_joins node]. split_and!; try done; intros x Hx; rewrite !elem_of_app; auto. Qed.
Lemma top_item : (k < length (jt_items st0))%nat.
Proof. cbn. rewrite length_app. cbn. lia. Qed.

(** Both sides have been scanned. *)
Record sides_scanned stF st2 new jl jr (item1 item2 : JoinTreeItem Expr) : Prop := {
  sd_domains : domains_only st0 stF;
  sd_forest : forest_scanned stF [a; b] inner_only d k st2 new;
  sd_tables : lists jl (tables a) /\ lists jr (tables b);
  sd_scope1 : denotes (qualscope item1) (node_bits a);
  sd_scope2 : denotes (qualscope item2) (node_bits b);
  sd_inner1 : denotes (inner_join_rels item1) (inner_bits a);
  sd_inner2 : denotes (inner_join_rels item2) (inner_bits b);
  sd_ready : ready st2 (tables node) (outer_joins node)
}.
Lemma sides_outer stF st2 new jl jr item1 item2 : sides_scanned stF st2 new jl jr item1 item2 ->
  within (bits (outer_joins a)) (bms_val (outer_join_rels st2)) /\ within (bits (outer_joins b)) (bms_val (outer_join_rels st2)).
Proof.
  intros H. destruct (fs_outer _ _ _ _ _ _ _ (sd_forest _ _ _ _ _ _ _ H)) as [_ ->]. unfold forest_joins. cbn. rewrite app_nil_r, !bits_app. split; mask_solver.
Qed.
(** The left side, then the right side, in domains [da] and [db]; [change] makes the domain of the right side. *)
Lemma scan_sides stF (da : nat) (db : State -> nat) (change : State -> State) : domains_only st0 stF -> ready stF (tables node) (outer_joins node) -> (da < length (domains stF))%nat ->
  (forall st1, grown stF st1 (at_domain da (node_bits a)) -> ready st1 (tables node) (outer_joins node) ->
     domains_only st1 (change st1) /\ ready (change st1) (tables node) (outer_joins node) /\ (db st1 < length (domains (change st1)))%nat) ->
  (inner_only -> stF = st0 /\ da = d /\ forall st1, change st1 = st1 /\ db st1 = d) ->
  exists jl st1 new1 item1 jr st2 new item2,
    deconstruct_recurse g stF a da (Some k) items = Ok (jl, st1, items ++ new1) /\ last_item st1 (items ++ new1) = Ok item1 /\
    deconstruct_recurse g (change st1) b (db st1) (Some k) (items ++ new1) = Ok (jr, st2, items ++ new) /\ last_item st2 (items ++ new) = Ok item2 /\
    sides_scanned stF st2 new jl jr item1 item2 /\
    grown stF st1 (at_domain da (node_bits a)) /\ ready st1 (tables node) (outer_joins node) /\ grown (change st1) st2 (at_domain (db st1) (node_bits b)).
Proof.
  intros Hdo Hr Hda Hch HI. destruct join_parts as (Pa & Pb & Ta & Tb & Oa & Ob).
  assert (k < length (jt_items stF))%nat as Hk by (destruct Hdo as [[jds ->] _]; apply top_item).
  assert (forest_scanned stF [] inner_only d k stF []) as HF by (apply forest_nil; apply Hr).
  destruct (recurse_next stF inner_only d k [] a stF [] stF da items (tables node) (outer_joins node) Hk IHa Pa HF (domains_only_refl stF))
    as (jl & st1 & new1 & item1 & E1 & L1 & S1 & I1 & HF1 & T1 & G1 & R1); [|done..|].
  { intros Hi. destruct (HI Hi) as (_ & -> & _). by destruct Hi as (_ & ? & _). }
  destruct (Hch st1 G1 R1) as (D1 & R1' & Hdb).
  destruct (recurse_next stF inner_only d k [a] b st1 new1 (change st1) (db st1) items (tables node) (outer_joins node) Hk IHb Pb HF1 D1)
    as (jr & st2 & new & item2 & E2 & L2 & S2 & I2 & HF2 & T2 & G2 & R2); [|done..|].
  { intros Hi. destruct (HI Hi) as (_ & _ & Hc). destruct (Hc st1) as [-> ->]. by destruct Hi as (_ & _ & ?). }
  rewrite app_nil_r in E1. exists jl, st1, new1, item1, jr, st2, new, item2. by split_and!.
Qed.

(** The item of the join *)
Lemma join_item stF st2 new jl jr item1 item2 st3 d3 scope inner nonnull : sides_scanned stF st2 new jl jr item1 item2 ->
  jt_items st3 = jt_items st2 -> all_baserels st3 = all_baserels st2 -> denotes (outer_join_rels st3) (Z.lor (bms_val (outer_join_rels st2)) (bits (oj_index t v))) ->
  nulling_kept st2 st3 -> (length (domains st2) <= length (domains st3))%nat -> (d3 < length (domains st3))%nat -> grown st0 st3 (at_domain d (node_bits node)) ->
  (inner_only -> d3 = d /\ domains st3 = domains st2 /\ stF = st0) -> denotes scope (node_bits node) -> denotes inner (inner_bits node) ->
  denotes nonnull (nonnullable_bits node) ->
  tree_scanned st node d parent (fill st3 k d3 scope inner (qualscope item1) (qualscope item2) nonnull) (new ++ [k]) /\
  lists (join_joinlist g t jl jr) (tables node).
Proof.
  intros [SD SF [T1 T2] S1 S2 I1 I2 R] Ei Eb Ho Hn Hl Hd3 Hg HI Ds Di Dn. split; [|by apply join_joinlist_tables; [..|apply tables_some, join_parts|apply tables_some, join_parts]].
  destruct (fs_heap _ _ _ _ _ _ _ SF) as [own Hown].
  assert (jt_items st3 = jt_items st0 ++ own) as Hheap by (rewrite Ei, Hown; destruct SD as [[jds ->] _]; done).
  apply (tree_above st node d parent st3 own Hheap d3 scope inner _ _ nonnull stF inner_only st2 new); try done.
  - intros Hi. destruct (HI Hi) as (-> & -> & ->). done.
  - split; [done|done| |done]. intros t' a' b' v' quals' [= <- <- <- <- <-]. done.
Qed.

(** Inner joins and semijoins *)
Lemma plain_join_ok : t = JOIN_INNER \/ t = JOIN_SEMI -> exists joinlist st' new,
  deconstruct_recurse g st node d parent items = Ok (joinlist, st', items ++ new) /\ tree_scanned st node d parent st' new /\ lists joinlist (tables node).
Proof.
  intros Ht. assert (t = JOIN_SEMI -> v = 0) as Hsemi by (pose proof (P_sound _ (proj1 Hall)) as Hs; cbn in Hs; intros E; by rewrite E in Hs).
  assert (bits (oj_index t v) = 0) as Eoj by (by destruct Ht as [->| ->]).
  destruct (scan_sides st0 d (fun _ => d) id) as (jl & st1 & new1 & item1 & jr & st2 & new & item2 & E1 & L1 & E2 & L2 & SS & G1 & R1 & G2);
    [apply domains_only_refl|by apply ready_new_item|done| |done|].
  { intros st1 Hg Hr. split_and!; [apply domains_only_refl|done|]. pose proof (gd_length _ _ _ Hg) as Hl. change (domains st0) with (domains st) in Hl. cbn. lia. }
  assert (node_bits node = Z.lor (node_bits a) (node_bits b)) as En by (unfold node; by rewrite node_bits_join, Eoj, Z.lor_0_r).
  pose proof (grown_step st0 st1 st2 d _ _ G1 G2) as G. rewrite <- En in G. pose proof (gd_length _ _ _ G) as Hl. change (domains st0) with (domains st) in Hl.
  destruct (join_item st0 st2 new jl jr item1 item2 st2 d (bms_union (qualscope item1) (qualscope item2))
    (if bool_decide (t = JOIN_INNER) then bms_union (qualscope item1) (qualscope item2) else bms_union (inner_join_rels item1) (inner_join_rels item2)) None SS) as [HT Hj]; try done.
  - rewrite Eoj, Z.lor_0_r. split; [apply SS|done].
  - intros n rs Hn Hw. by exists rs.
  - lia.
  - rewrite En. apply denotes_union; apply SS.
  - unfold node. cbn [inner_bits]. fold node. rewrite En. destruct (bool_decide _); apply denotes_union; apply SS.
  - cbn. destruct Ht as [Ht|Ht]; by rewrite Ht.
  - eexists _, _, (new ++ [k]). split; [|split; [exact HT|exact Hj]]. rewrite app_assoc. change (deconstruct_recurse g st (JoinExpr t a b v quals) d parent items = Ok
      (join_joinlist g t jl jr, fill st2 k d (bms_union (qualscope item1) (qualscope item2)) (if bool_decide (t = JOIN_INNER) then bms_union (qualscope item1) (qualscope item2)
         else bms_union (inner_join_rels item1) (inner_join_rels item2)) (qualscope item1) (qualscope item2) None, (items ++ new) ++ [k])).
    cbn [deconstruct_recurse new_item]. fold node k. change (set_jt_items st _) with st0. cbn [id] in E2.
    destruct Ht as [Ht|Ht]; rewrite Ht; rewrite E1; cbn [mbind result_bind]; rewrite L1; cbn [mbind result_bind]; rewrite E2; cbn [mbind result_bind];
      rewrite L2; cbn [mbind result_bind]; [done|]. by rewrite (Hsemi Ht).
Qed.

(** Left joins and antijoins: the right side has its own join domain. *)
Lemma grown_value st' st'' f j x : grown st' st'' f -> (forall j, bms_wf (get_domain st' j)) -> (j < length (domains st'))%nat ->
  denotes (get_domain st' j) x -> denotes (get_domain st'' j) (Z.lor x (f j)).
Proof. intros Hg Hw Hj [_ <-]. split; [by apply (gd_wf _ _ _ Hg)|]. by apply (gd_val _ _ _ Hg). Qed.
(** The number of a join that has one joins its scope and is marked on the relations that it can null. *)
Lemma left_marks stF st2 new jl jr item1 item2 st3 scope : t = JOIN_LEFT \/ t = JOIN_ANTI -> 0 <= v -> sides_scanned stF st2 new jl jr item1 item2 ->
  ready st3 (tables node) (outer_joins node) -> outer_join_rels st3 = outer_join_rels st2 -> denotes scope (Z.lor (node_bits a) (node_bits b)) ->
  grown st0 st3 (at_domain d (Z.lor (node_bits a) (node_bits b))) -> exists st4 scope', (if negb (v =? 0) then
      '(st, scope) ← add_ojrelid st3 d scope v; st ← mark_rels_nulled_by_join st v (qualscope item2); Ok (st, scope) else Ok (st3, scope)) = Ok (st4, scope') /\
    denotes scope' (node_bits node) /\ jt_items st4 = jt_items st3 /\ all_baserels st4 = all_baserels st3 /\
    denotes (outer_join_rels st4) (Z.lor (bms_val (outer_join_rels st2)) (bits (oj_index t v))) /\ nulling_kept st3 st4 /\
    grown st0 st4 (at_domain d (node_bits node)) /\ (length (domains st3) <= length (domains st4))%nat.
Proof.
  intros Ht Hv SS R3 Eo Ds G. assert (oj_index t v = if v =? 0 then [] else [v]) as Eoj by (destruct Ht as [Ht|Ht]; by rewrite Ht). rewrite (node_bits_join t a b v quals : node_bits node = _), Eoj.
  rewrite <- Eo. destruct (Z.eqb_spec v 0) as [Ev|Nv]; cbn [negb].
  - exists st3, scope. change (bits []) with 0. rewrite !Z.lor_0_r. split; [done|]; split; [exact Ds|]; split; [done|]; split; [done|]; split; [split; [exact (rd_outer _ _ _ R3)|done]|]; split; [intros n rs Hn Hw; by exists rs|]; split; [exact G|done].
  - rewrite bits_one. destruct (add_ojrelid_ok st3 d scope _ v _ _ Hv R3 Ds) as (rs & outer & scope' & -> & D4 & O4 & G4 & R4). cbn [mbind result_bind].
    set (st4 := set_scopes _ _ _ _) in *. destruct (join_parts) as (_ & Pb & _ & Tb & _ & Ob).
    destruct (mark_node_ok st4 v (qualscope item2) b _ _ Hv (sd_scope2 _ _ _ _ _ _ _ SS) Pb R4 Tb Ob) as (nulling & -> & N4 & R5).
    { cbn [outer_join_rels st4 set_scopes]. rewrite (proj2 O4), Eo. apply within_lor_r1, (sides_outer _ _ _ _ _ _ _ SS). }
    cbn [mbind result_bind]. eexists _, scope'. split; [done|]; split; [exact D4|]; split; [done|]; split; [done|]; split; [exact O4|]; split; [exact N4|].
    split; [apply (grown_roots st0 st4); [done..|]; by apply (grown_step st0 st3)|]. exact (gd_length _ _ _ G4).
Qed.
Lemma left_join_ok : t = JOIN_LEFT \/ t = JOIN_ANTI -> exists joinlist st' new,
  deconstruct_recurse g st node d parent items = Ok (joinlist, st', items ++ new) /\ tree_scanned st node d parent st' new /\ lists joinlist (tables node).
Proof.
  intros Ht. assert (0 <= v) as Hv by (pose proof (P_sound _ (proj1 Hall)) as Hs; cbn in Hs; destruct Ht as [E|E]; rewrite E in Hs; lia).
  assert (inner_only -> False) as Hno by (intros [Hi _]; cbn in Hi; destruct Ht; congruence).
  set (c := length (domains st)). set (stF := (new_domain st0).2). pose proof (ready_new_item st node parent _ _ Hrd) as Hr0. fold st0 in Hr0. pose proof (ready_new _ _ _ Hr0) as HrF. fold stF in HrF.
  assert (length (domains stF) = S c) as HlF by apply length_new_domain.
  destruct (scan_sides stF d (fun _ => c) id) as (jl & st1 & new1 & item1 & jr & st2 & new & item2 & E1 & L1 & E2 & L2 & SS & G1 & R1 & G2);
    [split; [by eexists|change (domains st0) with (domains st); lia]|done|lia| |by intros ?%Hno|].
  { intros st1 Hg Hr. split_and!; [apply domains_only_refl|done|]. pose proof (gd_length _ _ _ Hg) as Hl. cbn. lia. }
  pose proof (gd_length _ _ _ G1) as Hl1. pose proof (gd_length _ _ _ G2) as Hl2. cbn [id] in *.
  assert (denotes (get_domain st2 c) (node_bits b)) as Dc.
  { assert (denotes (get_domain stF c) 0) as D0 by (split; [apply HrF|apply (fresh_domain st0)]).
    apply (grown_value stF st1 _ c _ G1) in D0; [|apply HrF|lia]. apply (grown_value st1 st2 _ c _ G2) in D0; [|apply R1|lia].
    unfold at_domain in D0. rewrite decide_False, decide_True in D0 by lia. exact D0. }
  pose proof (sd_ready _ _ _ _ _ _ _ SS) as R2. set (st3 := set_domain st2 d (bms_add_members (get_domain st2 d) (get_domain st2 c))).
  assert (denotes (bms_add_members (get_domain st2 d) (get_domain st2 c)) (Z.lor (bms_val (get_domain st2 d)) (node_bits b))) as Dd
    by (apply denotes_add_members; [split; [apply R2|done]|done]).
  pose proof (grown_set st2 d _ _ Dd) as G3. fold st3 in G3. pose proof (ready_set st2 d _ _ _ R2 (proj1 Dd)) as R3. fold st3 in R3.
  assert (grown st0 st3 (at_domain d (Z.lor (node_bits a) (node_bits b)))) as G.
  { apply (grown_ext st0 st3 _ _ (grown_trans _ _ _ _ _ (grown_new st0) (grown_trans _ _ _ _ _ G1 (grown_trans _ _ _ _ _ G2 G3)))).
    intros j Hj. change (domains st0) with (domains st) in Hj. unfold at_domain. rewrite (decide_False (P := j = c)) by lia. by destruct (decide _). }
  assert (length (domains st3) = length (domains st2)) as Hl3 by apply length_insert.
  set (scope := bms_union (qualscope item1) (qualscope item2)). assert (denotes scope (Z.lor (node_bits a) (node_bits b))) as Ds by (apply denotes_union; apply SS).
  set (inner := bms_union (inner_join_rels item1) (inner_join_rels item2)).
  destruct (left_marks stF st2 new jl jr item1 item2 st3 scope Ht Hv SS R3 eq_refl Ds G) as (st4 & scope' & E4 & D4 & I4 & B4 & O4 & N4 & G4 & Hl4).
  destruct (join_item stF st2 new jl jr item1 item2 st4 c scope' inner (qualscope item1) SS) as [HT Hj]; try done; [lia|lia|..].
  - cbn. rewrite bool_decide_false by (destruct Ht; congruence). apply denotes_union; apply SS.
  - cbn. destruct Ht as [Ht|Ht]; rewrite Ht; apply SS.
  - eexists _, _, (new ++ [k]). split; [|split; [exact HT|exact Hj]]. rewrite app_assoc.
    change (deconstruct_recurse g st (JoinExpr t a b v quals) d parent items = Ok (join_joinlist g t jl jr, fill st4 k c scope' inner (qualscope item1) (qualscope item2) (qualscope item1), (items ++ new) ++ [k])).
    cbn [deconstruct_recurse new_item]. fold node k. change (set_jt_items st _) with st0.
    destruct Ht as [Ht|Ht]; rewrite Ht; cbn [new_domain]; change (length (im_jdomains (jt_root st0))) with c; change (set_jdomains st0 _) with stF; rewrite E1; cbn [mbind result_bind]; rewrite L1; cbn [mbind result_bind];
      rewrite E2; cbn [mbind result_bind]; rewrite L2; cbn [mbind result_bind]; fold st3 scope; rewrite E4; done.
Qed.

(** Full joins: each side has its own join domain, and so have the quals. *)
Section Full.
Context (Ht : t = JOIN_FULL).
Let fj := length (domains st).
Let c := S fj.
Let stF := (new_domain (new_domain st0).2).2.
Let join_domain (st1 : State) : State := set_domain st1 fj (bms_copy (get_domain st1 c)).
#[local] Abbreviation ab := (Z.lor (node_bits a) (node_bits b)).
(** The domains of the quals and of the join, once both sides are known *)
Let above (st1 st2 : State) : State :=
  let st3 := set_domain st2 fj (bms_add_members (get_domain st2 fj) (get_domain st2 (length (domains st1)))) in
  set_domain st3 d (bms_add_members (get_domain st3 d) (get_domain st3 fj)).
Lemma full_start : ready stF (tables node) (outer_joins node) /\ length (domains stF) = S c /\ denotes (get_domain stF fj) 0 /\ denotes (get_domain stF c) 0.
Proof.
  pose proof (ready_new_item st node parent _ _ Hrd) as Hr0. fold st0 in Hr0. pose proof (ready_new _ _ _ (ready_new _ _ _ Hr0)) as HrF. fold stF in HrF. split; [done|].
  split; [unfold stF; by rewrite !length_new_domain|]. split; (split; [apply HrF|]).
  - unfold stF. rewrite get_new_domain. apply (fresh_domain st0).
  - pose proof (fresh_domain (new_domain st0).2) as E. rewrite length_new_domain in E. exact E.
Qed.
Lemma full_left st1 : grown stF st1 (at_domain c (node_bits a)) -> ready st1 (tables node) (outer_joins node) ->
  denotes (get_domain (join_domain st1) fj) (node_bits a) /\ grown st1 (join_domain st1) (at_domain fj (node_bits a)) /\
  ready (join_domain st1) (tables node) (outer_joins node) /\ length (domains (join_domain st1)) = length (domains st1).
Proof.
  destruct full_start as (HrF & HlF & Df0 & Dc0). intros Hg Hr. apply (grown_value stF st1 _ fj _ Hg) in Df0; [|apply HrF|lia]. apply (grown_value stF st1 _ c _ Hg) in Dc0; [|apply HrF|lia].
  unfold at_domain in Df0, Dc0. rewrite decide_False in Df0 by lia. rewrite decide_True in Dc0 by done. cbn in Df0, Dc0. pose proof (gd_length _ _ _ Hg) as Hl.
  split; [unfold join_domain; rewrite get_set_domain, decide_True by lia; done|].
  split; [apply grown_set; rewrite (proj2 Df0); exact Dc0|]. split; [by apply ready_set, Dc0|]. apply length_insert.
Qed.
Lemma full_above st1 st2 : grown stF st1 (at_domain c (node_bits a)) -> ready st1 (tables node) (outer_joins node) ->
  grown (new_domain (join_domain st1)).2 st2 (at_domain (length (domains st1)) (node_bits b)) -> ready st2 (tables node) (outer_joins node) ->
  grown st0 (above st1 st2) (at_domain d ab) /\ ready (above st1 st2) (tables node) (outer_joins node) /\ length (domains (above st1 st2)) = length (domains st2) /\
  (fj < length (domains st2))%nat.
Proof.
  intros G1 R1 G2 R2. destruct (full_left st1 G1 R1) as (Df1 & Gj & Rj & Hlj). destruct full_start as (_ & HlF & _). unfold above. set (stj := join_domain st1) in *. set (c2 := length (domains st1)) in *.
  pose proof (gd_length _ _ _ G1) as Hl1. pose proof (gd_length _ _ _ G2) as Hl2. rewrite length_new_domain, Hlj in Hl2. pose proof (ready_new _ _ _ Rj) as Rn.
  assert (denotes (get_domain st2 fj) (node_bits a)) as Df2.
  { rewrite <- get_new_domain in Df1. apply (grown_value _ st2 _ fj _ G2) in Df1; [|apply Rn|rewrite length_new_domain; lia].
    unfold at_domain in Df1. rewrite decide_False, Z.lor_0_r in Df1 by lia. exact Df1. }
  assert (denotes (get_domain st2 c2) (node_bits b)) as Dc2.
  { assert (denotes (get_domain (new_domain stj).2 c2) 0) as D0 by (split; [apply Rn|rewrite <- Hlj; apply fresh_domain]).
    apply (grown_value _ st2 _ c2 _ G2) in D0; [|apply Rn|rewrite length_new_domain; lia]. unfold at_domain in D0. rewrite decide_True in D0 by done. exact D0. }
  set (rsf := bms_add_members (get_domain st2 fj) (get_domain st2 c2)). assert (denotes rsf ab) as Drf by (by apply denotes_add_members). set (st3 := set_domain st2 fj rsf).
  assert (grown st2 st3 (at_domain fj ab)) as G3 by (apply grown_set; rewrite (proj2 Df2), Z.lor_assoc, Z.lor_diag; exact Drf).
  pose proof (ready_set st2 fj rsf _ _ R2 (proj1 Drf)) as R3. fold st3 in R3.
  assert (get_domain st3 fj = rsf) as Ef3 by (unfold st3; rewrite get_set_domain, decide_True by lia; done).
  assert (denotes (bms_add_members (get_domain st3 d) (get_domain st3 fj)) (Z.lor (bms_val (get_domain st3 d)) ab)) as Dd
    by (apply denotes_add_members; [split; [apply R3|done]|by rewrite Ef3]).
  pose proof (grown_set st3 d _ _ Dd) as G4. split_and!; [|by apply ready_set, Dd|cbn; by rewrite !length_insert|lia].
  apply (grown_ext st0 _ _ _ (grown_trans _ _ _ _ _ (grown_new st0) (grown_trans _ _ _ _ _ (grown_new _) (grown_trans _ _ _ _ _ G1 (grown_trans _ _ _ _ _ Gj
    (grown_trans _ _ _ _ _ (grown_new _) (grown_trans _ _ _ _ _ G2 (grown_trans _ _ _ _ _ G3 G4)))))))).
  intros j Hj. change (domains st0) with (domains st) in Hj. unfold at_domain. rewrite (decide_False (P := j = c)), (decide_False (P := j = c2)) by lia.
  rewrite !(decide_False (P := j = fj)) by lia. done.
Qed.
Lemma full_marks stX st2 new jl jr item1 item2 st4 scope : 0 < v -> sides_scanned stX st2 new jl jr item1 item2 -> ready st4 (tables node) (outer_joins node) ->
  outer_join_rels st4 = outer_join_rels st2 -> denotes scope ab -> grown st0 st4 (at_domain d ab) -> exists st5 st6 st7 scope', add_ojrelid st4 d scope v = Ok (st5, scope') /\
    mark_rels_nulled_by_join st5 v (qualscope item1) = Ok st6 /\ mark_rels_nulled_by_join st6 v (qualscope item2) = Ok st7 /\
    denotes scope' (node_bits node) /\ jt_items st7 = jt_items st4 /\ all_baserels st7 = all_baserels st4 /\
    denotes (outer_join_rels st7) (Z.lor (bms_val (outer_join_rels st2)) (bits (oj_index t v))) /\ nulling_kept st4 st7 /\
    grown st0 st7 (at_domain d (node_bits node)) /\ length (domains st7) = length (domains st4).
Proof.
  intros Hv SS R4 Eo Ds G. assert (oj_index t v = [v]) as Eoj by (rewrite Ht; cbn; by rewrite (proj2 (Z.eqb_neq v 0)) by lia).
  assert (node_bits node = Z.lor ab (2 ^ v)) as En by (rewrite (node_bits_join t a b v quals : node_bits node = _), Eoj, bits_one; done).
  destruct (add_ojrelid_ok st4 d scope _ v _ _ ltac:(lia) R4 Ds) as (rs & outer & scope' & E5 & D5 & O5 & G5 & R5). set (st5 := set_scopes _ _ _ _) in *.
  destruct join_parts as (Pa & Pb & Ta & Tb & Oa & Ob). destruct (sides_outer _ _ _ _ _ _ _ SS) as [Wa Wb]. rewrite <- Eo in Wa, Wb.
  destruct (mark_node_ok st5 v (qualscope item1) a _ _ ltac:(lia) (sd_scope1 _ _ _ _ _ _ _ SS) Pa R5 Ta Oa) as (nulling & E6 & N6 & R6).
  { cbn [outer_join_rels st5 set_scopes]. rewrite (proj2 O5). by apply within_lor_r1. }
  set (st6 := set_scopes st5 _ _ nulling) in *.
  destruct (mark_node_ok st6 v (qualscope item2) b _ _ ltac:(lia) (sd_scope2 _ _ _ _ _ _ _ SS) Pb R6 Tb Ob) as (nulling' & E7 & N7 & R7).
  { cbn [outer_join_rels st6 st5 set_scopes]. rewrite (proj2 O5). by apply within_lor_r1. }
  set (st7 := set_scopes st6 _ _ nulling') in *. exists st5, st6, st7, scope'. rewrite En, Eoj, bits_one, <- Eo. split; [done|]. split; [done|]. split; [done|]. split; [done|].
  split; [done|]. split; [done|]. split; [done|]. split; [by apply (nulling_kept_trans _ st6)|]. split; [|cbn; by rewrite length_insert].
  apply (grown_roots st0 st5); [done..|]. by apply (grown_step st0 st4).
Qed.
Lemma full_join_ok : exists joinlist st' new,
  deconstruct_recurse g st node d parent items = Ok (joinlist, st', items ++ new) /\ tree_scanned st node d parent st' new /\ lists joinlist (tables node).
Proof.
  assert (0 < v) as Hv by (pose proof (P_sound _ (proj1 Hall)) as Hs; cbn in Hs; rewrite Ht in Hs; lia). assert (inner_only -> False) as Hno by (intros [Hi _]; cbn in Hi; congruence).
  destruct full_start as (HrF & HlF & _).
  destruct (scan_sides stF c (fun st1 => length (domains st1)) (fun st1 => (new_domain (join_domain st1)).2))
    as (jl & st1 & new1 & item1 & jr & st2 & new & item2 & E1 & L1 & E2 & L2 & SS & G1 & R1 & G2); [|done|lia| |by intros ?%Hno|].
  { split; [by eexists|change (domains st0) with (domains st); lia]. }
  { intros st1 Hg Hr. destruct (full_left st1 Hg Hr) as (_ & _ & Hr' & Hl'). split_and!; [|by apply ready_new|rewrite length_new_domain, Hl'; lia].
    split; [by eexists|]. rewrite length_new_domain, Hl'. lia. }
  destruct (full_left st1 G1 R1) as (_ & _ & _ & Hlj). destruct (full_above st1 st2 G1 R1 G2 (sd_ready _ _ _ _ _ _ _ SS)) as (G & R4 & Hl4 & Hfj). set (st4 := above st1 st2) in *.
  set (scope := bms_union (qualscope item1) (qualscope item2)). assert (denotes scope ab) as Ds by (apply denotes_union; apply SS).
  destruct (full_marks stF st2 new jl jr item1 item2 st4 scope Hv SS R4 eq_refl Ds G) as (st5 & st6 & st7 & scope' & E5 & E6 & E7 & D7 & I7 & B7 & O7 & N7 & G7 & Hl7).
  set (inner := bms_union (inner_join_rels item1) (inner_join_rels item2)).
  destruct (join_item stF st2 new jl jr item1 item2 st7 fj scope' inner scope' SS) as [HT Hj]; try done; [lia|lia|..].
  - cbn. rewrite bool_decide_false by congruence. apply denotes_union; apply SS.
  - cbn. by rewrite Ht at 1.
  - eexists _, _, (new ++ [k]). split; [|split; [exact HT|exact Hj]]. rewrite app_assoc.
    change (deconstruct_recurse g st (JoinExpr t a b v quals) d parent items = Ok (join_joinlist g t jl jr, fill st7 k fj scope' inner (qualscope item1) (qualscope item2) scope', (items ++ new) ++ [k])).
    cbn [deconstruct_recurse new_item]. fold node k. change (set_jt_items st _) with st0. rewrite Ht. cbn [new_domain].
    change (length (im_jdomains (jt_root st0))) with fj. change (set_jdomains (set_jdomains st0 _) _) with stF.
    assert (length (im_jdomains (jt_root (set_jdomains st0 (im_jdomains (jt_root st0) ++ [None])))) = c) as -> by apply (length_new_domain st0).
    rewrite E1. cbn [mbind result_bind]. rewrite L1. cbn [mbind result_bind]. fold (join_domain st1). rewrite Hlj. cbn [new_domain snd] in E2. rewrite E2. cbn [mbind result_bind].
    rewrite L2. cbn [mbind result_bind]. rewrite (proj2 (Z.eqb_neq v 0)) by lia. fold scope. change (set_domain (set_domain st2 fj _) d _) with st4. rewrite E5. cbn [mbind result_bind].
    rewrite E6. cbn [mbind result_bind]. rewrite E7. done.
Qed.
End Full.
End Join.

Lemma deconstruct_recurse_ok node : recurse_ok node.
Proof.
  induction node as [v|l quals IH|t a b v quals IHa IHb] using node_ind; [apply table_ok|by apply from_ok|].
  intros Hin st d parent items Hd Hrd. pose proof (P_sound _ (proj1 Hin)) as Hs. cbn in Hs.
  destruct t; try done; [apply plain_join_ok|apply left_join_ok|apply full_join_ok|apply plain_join_ok|apply left_join_ok]; auto.
Qed.
End Tree.
