(* ===== verification/QueryThms.v ===== *)
(** * From the query to the plan

    The second scan of the join tree places every qual of a query of inner joins, also those postponed to a higher join level because of lateral
    references.  Together with the derivation of clauses for scans and joins: a plan checks exactly the conditions of the query. *)
From stdpp Require Import gmap.
From S2P Require Import Prelude BitUtils Bitmapset BitmapsetSpec BitmapsetIter EquivClass EquivClassProps EquivClassThms PathKeys JoinRoot JoinRels JoinLinks RelSets ImpliedEq ImpliedEqProps ImpliedScan ImpliedJoin ImpliedThms Quals QueryClauses QueryQuals OuterJoin JoinTree QueryTree.
#[local] Open Scope Z_scope.

Section Query.
Context {Expr : Type} `{!ExprOps Expr} `{!OpFamilies Expr} `{!QualOps Expr} `{!QualLaws Expr} `{!OuterOps Expr} (g : JTQuery Expr).
#[local] Abbreviation Clause := (ClauseNode (Expr := Expr)).
#[local] Abbreviation State := (JTRoot Expr).
#[local] Abbreviation Item := (JoinTreeItem Expr).
#[local] Abbreviation Node := (JoinNode Expr).
Context (tree : Node).
#[local] Abbreviation all := (node_bits tree).
#[local] Abbreviation Q := (tree_quals g tree).
Implicit Types (st : State) (clause : Clause) (k : nat) (todo : list nat) (X : Clause -> Prop).

(** What the parser and the rewriter guarantee of a node: no outer joins; a qual mentions relations in its scope, or, with LATERAL, relations of a higher
    level; security levels are as announced.  A variable-free security qual does not compare an expression with itself (see
    [security_qual_fails]). *)
Record query_node (node : Node) : Prop := {
  qn_inner : inner_node node;
  qn_scope clause : clause ∈ own_quals g node -> within (bms_val (clause_varnos clause)) (node_bits node) \/
    (jq_lateral g = true /\ within (bms_val (clause_varnos clause)) all);
  qn_security v : node = TableRef v -> 0 < qual_security_level g -> Z.of_nat (length (securityQuals g v)) <= qual_security_level g;
  qn_sides v op : node = TableRef v -> OpClause op ∈ own_quals g node -> clause_volatile (OpClause op) = false ->
    bms_val (clause_varnos (OpClause op)) = 0 -> ~ same_sides op
}.
Lemma qn_sound node : query_node node -> sound_node node.
Proof. intros H. apply inner_sound, (qn_inner _ H). Qed.
Definition where_quals : Prop := forall op, OpClause op ∈ Q -> where_expr (leftop op) /\ where_expr (rightop op).

(** ** Progress of the second scan *)
Definition set_lateral (item : Item) (l : list Clause) : Item :=
  {| jtnode := jtnode item; jdomain := jdomain item; jti_parent := jti_parent item; qualscope := qualscope item; inner_join_rels := inner_join_rels item;
     left_rels := left_rels item; right_rels := right_rels item; nonnullable_rels := nonnullable_rels item; jti_sjinfo := jti_sjinfo item;
     oj_joinclauses := oj_joinclauses item; lateral_clauses := l |}.

(** [st1] is the state after the first scan. *)
Context (st1 : State).
#[local] Abbreviation node_of k := (jtnode (get_item st1 k)).
(** The clauses in [X] have been placed or wait at an item still to be visited. *)
Record progress st todo X : Prop := {
  pg_root : exists D C, gathered all Q (jt_root st) D C /\ forall c, (c ∈ C \/ exists k, k ∈ todo /\ c ∈ lateral_clauses (get_item st k)) <-> X c;
  pg_domains : same_domains (jt_root st1) (jt_root st);
  pg_length : length (jt_items st) = length (jt_items st1);
  pg_items k : exists l, get_item st k = set_lateral (get_item st1 k) l;
  pg_lateral k c : k ∈ todo -> c ∈ lateral_clauses (get_item st k) ->
    c ∈ Q /\ children (node_of k) <> [] /\ within (bms_val (clause_varnos c)) (node_bits (node_of k))
}.
Lemma progress_iff st todo X Y : (forall c, X c <-> Y c) -> progress st todo X -> progress st todo Y.
Proof.
  intros HXY [(D & C & Hg & HC) P1 P2 P3 P4]. split; [|done..]. exists D, C. split; [done|]. intros c. by rewrite HC, HXY.
Qed.
(** The items of a query of inner joins are all in the top join domain. *)
Definition inner_item k : Prop := item_ok query_node (get_item st1 k) /\ jdomain (get_item st1 k) = 0%nat.
(** An item to be visited, whose ancestors come later. *)
Definition placed_item todo k : Prop :=
  (k < length (jt_items st1))%nat /\ inner_item k /\
  (node_bits (node_of k) = all \/ exists p, p ∈ todo /\ jti_parent (get_item st1 k) = Some p /\ (p < k)%nat /\ children (node_of p) <> []).

Section One.
Context (todo : list nat) (Htodo : forall k, k ∈ todo -> placed_item todo k).
Context (Hwhere : where_quals) (Hdom : top_jdomain (im_ec (jt_root st1)) = 0%nat /\ bms_val (jd_relids (jt_root st1) 0) = all).

Lemma progress_item st X k : progress st todo X -> qualscope (get_item st k) = qualscope (get_item st1 k) /\ jti_parent (get_item st k) = jti_parent (get_item st1 k) /\
  jti_sjinfo (get_item st k) = jti_sjinfo (get_item st1 k) /\ jdomain (get_item st k) = jdomain (get_item st1 k).
Proof. intros Hp. destruct (pg_items _ _ _ Hp k) as [l ->]. done. Qed.
Lemma set_item_get st k item k' : (k < length (jt_items st))%nat -> get_item (set_item st k item) k' = if decide (k = k') then item else get_item st k'.
Proof.
  intros Hk. unfold get_item. cbn. rewrite !nth_lookup. destruct (decide (k = k')) as [<-|Hne]; [by rewrite list_lookup_insert_eq|by rewrite list_lookup_insert_ne].
Qed.

(** The search for a level to postpone to *)
Lemma postpone_ok st X clause : progress st todo X -> within (bms_val (clause_varnos clause)) all -> forall fuel k, k ∈ todo -> children (node_of k) <> [] -> (k < fuel)%nat ->
  exists q, q ∈ todo /\ children (node_of q) <> [] /\ within (bms_val (clause_varnos clause)) (node_bits (node_of q)) /\
    postpone_lateral fuel st (Some k) (clause_varnos clause) clause = Ok (set_item st q (add_lateral (get_item st q) clause)).
Proof.
  intros Hp Hall. induction fuel as [|fuel IH]; intros k Hk Hch Hf; [lia|]. cbn [postpone_lateral].
  destruct (Htodo k Hk) as (Hlt & Hok & Hpar). destruct (progress_item st X k Hp) as (-> & -> & -> & _).
  destruct (it_scope _ _ (proj1 Hok)) as [Ws Vs]. pose proof (subset_within _ _ (clause_varnos_wf clause) Ws) as Hsub. rewrite Vs in Hsub.
  destruct (bms_is_subset _ _) eqn:E; [exists k; split_and!; [done|done|by apply Hsub|done]|].
  destruct (it_fresh _ _ (proj1 Hok)) as (-> & _). cbn [is_set]. destruct Hpar as [Ha|(p & Hp' & -> & Hlt' & Hc)].
  - exfalso. rewrite Ha in Hsub. by apply Hsub in Hall.
  - apply IH; [done|done|lia].
Qed.
Lemma progress_postpone st X clause q : progress st todo X -> q ∈ todo -> clause ∈ Q -> children (node_of q) <> [] -> within (bms_val (clause_varnos clause)) (node_bits (node_of q)) ->
  progress (set_item st q (add_lateral (get_item st q) clause)) todo (fun c => X c \/ c = clause).
Proof.
  intros Hp Hq HQ Hch Hw. destruct (Htodo q Hq) as (Hlt & _). rewrite <- (pg_length _ _ _ Hp) in Hlt. pose proof (fun k' => set_item_get st q (add_lateral (get_item st q) clause) k' Hlt) as Hget.
  assert (forall k c, c ∈ lateral_clauses (get_item (set_item st q (add_lateral (get_item st q) clause)) k) <-> c ∈ lateral_clauses (get_item st k) \/ (q = k /\ c = clause)) as Hl.
  { intros k c. rewrite Hget. destruct (decide (q = k)) as [<-|]; [|naive_solver]. cbn. rewrite elem_of_app, list_elem_of_singleton. naive_solver. }
  split.
  - destruct (pg_root _ _ _ Hp) as (D & C & Hg & HC). exists D, C. split; [done|]. intros c. setoid_rewrite Hl. rewrite <- HC. naive_solver.
  - apply Hp.
  - cbn. rewrite length_insert. apply Hp.
  - intros k. rewrite Hget. destruct (pg_items _ _ _ Hp k) as [l E]. destruct (decide (q = k)) as [->|]; [|by exists l]. eexists. rewrite E. by cbn.
  - intros k c Hk [H|[<- ->]]%Hl; [by apply (pg_lateral _ _ _ Hp)|done].
Qed.

(** One qual *)
Lemma distribute_one st X k clause sec (oj : bitmapset) : progress st todo X -> placed_item todo k -> clause ∈ Q ->
  within (bms_val (clause_varnos clause)) (node_bits (node_of k)) \/ (jq_lateral g = true /\ within (bms_val (clause_varnos clause)) all) ->
  within (node_bits (node_of k)) all ->
  oj = None \/ oj = qualscope (get_item st1 k) /\ (forall op, clause = OpClause op -> clause_volatile clause = false -> bms_val (clause_varnos clause) = 0 -> ~ same_sides op) ->
  exists st', distribute_qual_to_rels (jq_lateral g) st clause k None sec (qualscope (get_item st1 k)) oj None None true false false None = Ok (st', None) /\
    progress st' todo (fun c => X c \/ c = clause).
Proof.
  intros Hp (Hlt & Hok & Hpar) HQ Hw Hwk Hoj. unfold distribute_qual_to_rels. destruct (progress_item st X k Hp) as (_ & -> & _ & ->).
  destruct (it_scope _ _ (proj1 Hok)) as [Ws Vs]. pose proof (subset_within _ _ (clause_varnos_wf clause) Ws) as Hsub. rewrite Vs in Hsub.
  destruct (bms_is_subset (clause_varnos clause) (qualscope (get_item st1 k))) eqn:E; cbn [negb].
  2: { destruct Hw as [Hw|[-> Hw]]; [by apply Hsub in Hw|]. cbn [negb orb is_set]. destruct Hpar as [Ha|(p & Hp' & -> & Hlt' & Hch)]; [rewrite Ha in Hsub; by apply Hsub in Hw|].
    destruct (postpone_ok st X clause Hp Hw (S (length (jt_items st))) p Hp' Hch) as (q & Hq & Hcq & Hwq & ->).
    { rewrite (pg_length _ _ _ Hp). destruct (Htodo p Hp') as (? & _). lia. }
    cbn [mbind result_bind]. eexists. split; [done|]. by apply progress_postpone. }
  assert (within (bms_val (clause_varnos clause)) (node_bits (node_of k))) as Hin by (by apply Hsub).
  assert (within (bms_val (clause_varnos clause)) all) as Hina by (by eapply within_trans).
  destruct (pg_root _ _ _ Hp) as (D & C & Hg & HC). destruct (pg_domains _ _ _ Hp) as [Ejd Etop].
  assert (qual_ok all Q clause) as Hqk by (split; [done|done|intros op ->; by apply Hwhere]).
  pose proof (ga_domain _ _ _ _ _ Hg) as Hdo. rewrite Etop, (proj1 Hdom) in Hdo |- *. rewrite (proj2 Hok). cbn [Nat.eqb].
  assert (forall relids pseudo (st0 : State) x, jt_root st0 = jt_root st -> jt_items st0 = jt_items st -> bms_wf relids -> bms_val relids <> 0 -> within (bms_val relids) all ->
    (bms_val (clause_varnos clause) <> 0 -> bms_val relids = bms_val (clause_varnos clause)) ->
    (forall op, clause = OpClause op -> pseudo = false -> clause_volatile clause = false -> bms_val (clause_varnos clause) = 0 -> ~ same_sides op) ->
    exists st', (if bms_overlap relids None then x
       else redundant ← check_redundant_nullability_qual (jt_root st) clause;
         if (redundant : bool) then Ok (st0, @None (list Clause))
         else st' ← place_qual st0 clause 0 None plain_marks pseudo sec relids None true false; Ok (st', None)) = Ok (st', None) /\ progress st' todo (fun c => X c \/ c = clause)) as Hplace.
  { intros relids pseudo st0 x Er Ei Wr Nr Ar Hreq Hs. assert (bms_overlap relids None = false) as -> by (by destruct relids).
    assert (check_redundant_nullability_qual (jt_root st) clause = Ok false) as ->.
    { unfold check_redundant_nullability_qual. rewrite (ga_joins _ _ _ _ _ Hg). destruct (forced_null_rels clause) as [rs|]; [|done]. by destruct (bms_is_empty rs). }
    cbn [mbind result_bind]. destruct (place_qual_ok all Q st0 D C clause 0 plain_marks pseudo sec relids) as (root' & D' & -> & Hg' & [Ej' Et']); rewrite ?Er; try done.
    cbn [mbind result_bind]. eexists. split; [done|]. assert (forall k', get_item (set_jt_root st0 root') k' = get_item st k') as Hget by (intros; unfold get_item; cbn; by rewrite Ei).
    split.
    - exists D', (clause :: C). split; [done|]. intros c. setoid_rewrite Hget. rewrite elem_of_cons, <- HC. naive_solver.
    - cbn. split; [by rewrite Ej', Er|by rewrite Et', Er].
    - cbn. rewrite Ei. apply Hp.
    - intros k'. rewrite Hget. apply Hp.
    - intros k' c Hk'. rewrite Hget. by apply (pg_lateral _ _ _ Hp). }
  assert (node_bits (node_of k) <> 0) as Nk by apply (node_bits_pos query_node qn_sound), (proj1 Hok).
  assert (negb (bms_is_empty oj) && negb (bms_is_subset (clause_varnos clause) oj) = false) as -> by (destruct Hoj as [->|[-> _]]; [done|by rewrite E, andb_false_r]).
  destruct (bms_is_empty (clause_varnos clause)) eqn:Ee.
  2: { assert (bms_val (clause_varnos clause) <> 0) as Hne by (intros H; apply bms_empty_val in H; [congruence|apply clause_varnos_wf]).
    cbv beta iota zeta. apply (Hplace _ false st); try done. apply clause_varnos_wf. }
  apply bms_empty_val in Ee; [|apply clause_varnos_wf]. unfold bms_copy. destruct (bms_is_empty oj) eqn:Eoj; cbn [negb].
  - destruct (clause_volatile clause) eqn:Evol; cbv beta iota zeta; [by apply (Hplace _ false st); rewrite ?Vs; try done; congruence|].
    apply (Hplace _ true (set_pseudo st)); try done; first [apply Hdo|destruct Hdo as (_ & _ & Ea); unfold jd_relids; rewrite Ea; apply within_refl].
  - destruct Hoj as [->|[-> Hs]]; [done|]. cbv beta iota zeta. apply (Hplace _ false st); rewrite ?Vs; try done. intros op Ec _. by apply Hs.
Qed.

Definition may_place k (oj : bitmapset) clause : Prop := clause ∈ Q /\
  (within (bms_val (clause_varnos clause)) (node_bits (node_of k)) \/ (jq_lateral g = true /\ within (bms_val (clause_varnos clause)) all)) /\
  (oj = None \/ oj = qualscope (get_item st1 k) /\
     (forall op, clause = OpClause op -> clause_volatile clause = false -> bms_val (clause_varnos clause) = 0 -> ~ same_sides op)).
Lemma distribute_many k oj sec : placed_item todo k -> within (node_bits (node_of k)) all -> forall clauses st X, progress st todo X ->
  (forall clause, clause ∈ clauses -> may_place k oj clause) ->
  exists st', distribute_quals_to_rels (jq_lateral g) st clauses k None sec (qualscope (get_item st1 k)) oj None None true false false None = Ok (st', None) /\
    progress st' todo (fun c => X c \/ c ∈ clauses).
Proof.
  intros Hk Hwk. induction clauses as [|clause clauses IH]; intros st X Hp Hc; cbn [distribute_quals_to_rels].
  { exists st. split; [done|]. apply (progress_iff _ _ X); [|done]. intros c. rewrite elem_of_nil. tauto. }
  destruct (Hc clause) as (HQ & Hw & Hoj); [by left|]. destruct (distribute_one st X k clause sec oj Hp Hk HQ Hw Hwk Hoj) as (st' & -> & Hp'). cbn [mbind result_bind].
  destruct (IH st' _ Hp') as (st2 & -> & Hp2); [intros c H; apply Hc; by right|]. exists st2. split; [done|]. apply (progress_iff _ _ (fun c => (X c \/ c = clause) \/ c ∈ clauses)); [|done].
  intros c. rewrite elem_of_cons. tauto.
Qed.
Lemma security_ok k : placed_item todo k -> within (node_bits (node_of k)) all -> forall qualsets sec st X, progress st todo X ->
  (forall clause, clause ∈ concat qualsets -> may_place k (qualscope (get_item st1 k)) clause) -> sec + Z.of_nat (length qualsets) <= qual_security_level g ->
  exists st', security_loop g st k qualsets sec = Ok st' /\ progress st' todo (fun c => X c \/ c ∈ concat qualsets).
Proof.
  intros Hk Hwk. induction qualsets as [|qualset qualsets IH]; intros sec st X Hp Hc Hlen; cbn [security_loop].
  { cbn in Hlen. destruct (Z.leb_spec sec (qual_security_level g)); [|lia]. exists st. split; [done|]. apply (progress_iff _ _ X); [|done]. intros c. cbn. rewrite elem_of_nil. tauto. }
  destruct (progress_item st X k Hp) as (-> & _). cbn [concat] in *. setoid_rewrite elem_of_app in Hc.
  destruct (distribute_many k (qualscope (get_item st1 k)) sec Hk Hwk qualset st X Hp) as (st' & -> & Hp'); [auto|]. cbn [mbind result_bind].
  destruct (IH (sec + 1) st' _ Hp') as (st2 & -> & Hp2); [auto|cbn in Hlen; lia|]. exists st2. split; [done|].
  apply (progress_iff _ _ (fun c => (X c \/ c ∈ qualset) \/ c ∈ concat qualsets)); [|done]. intros c. rewrite elem_of_app. tauto.
Qed.

(** One node: the clauses that wait there and its own ones *)
Lemma distribute_node st X k : progress st (k :: todo) X -> placed_item todo k -> within (node_bits (node_of k)) all ->
  (forall clause, clause ∈ own_quals g (node_of k) -> clause ∈ Q) ->
  exists st', deconstruct_distribute g st k = Ok st' /\ progress st' todo (fun c => X c \/ c ∈ own_quals g (node_of k)).
Proof.
  intros Hp Hk Hwk HQ. pose proof Hk as (_ & Hok & _). pose proof (tree_all_node _ _ (it_tree _ _ (proj1 Hok))) as Hnode. destruct (pg_root _ _ _ Hp) as (D & C & Hg & HC).
  set (waiting := lateral_clauses (get_item st k)). set (X0 := fun c => c ∈ C \/ exists k', k' ∈ todo /\ c ∈ lateral_clauses (get_item st k')).
  assert (progress st todo X0) as Hp0.
  { split; [by exists D, C|apply Hp..|]. intros k' c Hk'. apply (pg_lateral _ _ _ Hp). by right. }
  assert (forall c, X c <-> X0 c \/ c ∈ waiting) as HX.
  { intros c. rewrite <- HC. unfold X0, waiting. setoid_rewrite elem_of_cons. naive_solver. }
  assert (forall clause, clause ∈ waiting -> may_place k None clause) as Hwait.
  { intros c Hc. destruct (pg_lateral _ _ _ Hp k c ltac:(by left) Hc) as (? & _ & ?). split_and!; [done|by left|by left]. }
  assert (forall clause, clause ∈ own_quals g (node_of k) -> may_place k None clause) as Hown by (intros c Hc; split_and!; [by apply HQ|by apply (qn_scope _ Hnode)|by left]).
  assert (jtnode (get_item st k) = node_of k /\ qualscope (get_item st k) = qualscope (get_item st1 k) /\ nonnullable_rels (get_item st k) = None) as (En & Es & Enn).
  { destruct (pg_items _ _ _ Hp k) as [l ->]. split_and!; [done|done|]. apply denotes_zero. pose proof (it_nonnullable _ _ (proj1 Hok)) as Hnn.
    pose proof (qn_inner _ Hnode) as Hi. destruct (node_of k); [done|done|]. cbn in Hi. by subst. }
  assert (exists node, node_of k = node) as [node Ek] by eauto. unfold deconstruct_distribute. rewrite En, Es, Enn, Ek. rewrite Ek in Hown, Hnode. fold waiting.
  destruct node as [v|l quals|t a b v quals].
  - assert (forall c, ~ c ∈ waiting) as Hnone.
    { intros c Hc. destruct (pg_lateral _ _ _ Hp k c ltac:(by left) Hc) as (_ & Hch & _). by rewrite Ek in Hch. }
    cbn [own_quals] in *. destruct (Z.ltb_spec 0 (qual_security_level g)) as [Hs|Hs].
    + destruct (security_ok k Hk Hwk (securityQuals g v) 0 st X0 Hp0) as (st' & E & Hp'); [|rewrite Z.add_0_l; by apply (qn_security _ Hnode)|].
      { intros c Hc. destruct (Hown c) as (? & ? & _); [done|]. split_and!; [done|done|right]. split; [done|]. intros op ->. apply (qn_sides _ Hnode v op eq_refl). cbn.
        by rewrite (proj2 (Z.ltb_lt _ _) Hs). }
      exists st'. split; [done|]. apply (progress_iff _ _ (fun c => X0 c \/ c ∈ concat (securityQuals g v))); [|done]. intros c. rewrite HX. pose proof (Hnone c). tauto.
    + exists st. split; [done|]. apply (progress_iff _ _ X0); [|done]. intros c. rewrite HX, elem_of_nil. pose proof (Hnone c). tauto.
  - destruct (distribute_many k None (qual_security_level g) Hk Hwk waiting st X0 Hp0 Hwait) as (st' & -> & Hp'). cbn [mbind result_bind].
    destruct (distribute_many k None (qual_security_level g) Hk Hwk quals st' _ Hp' Hown) as (st2 & -> & Hp2). cbn [mbind result_bind]. exists st2. split; [done|].
    apply (progress_iff _ _ (fun c => (X0 c \/ c ∈ waiting) \/ c ∈ quals)); [|done]. intros c. by rewrite HX.
  - pose proof (qn_inner _ Hnode) as Ht. cbn in Ht. subst t. rewrite (bool_decide_true (JOIN_INNER = JOIN_INNER)) by done. cbn [mbind result_bind fmap option_fmap option_map].
    destruct (distribute_many k None (qual_security_level g) Hk Hwk (waiting ++ quals) st X0 Hp0) as (st' & -> & Hp'); [intros c [H|H]%elem_of_app; auto|].
    cbn [mbind result_bind]. exists st'. split; [done|]. apply (progress_iff _ _ (fun c => X0 c \/ c ∈ waiting ++ quals)); [|done]. intros c. rewrite HX, elem_of_app. cbn. tauto.
Qed.
End One.

Definition visits (l : list nat) : Prop := forall l1 k l2, l = l1 ++ k :: l2 ->
  placed_item l2 k /\ within (node_bits (node_of k)) all /\ forall clause, clause ∈ own_quals g (node_of k) -> clause ∈ Q.
Lemma visits_rest k l : visits (k :: l) -> visits l.
Proof. intros H l1 k' l2 ->. by apply (H (k :: l1) k' l2). Qed.
Lemma visits_items l : visits l -> forall k, k ∈ l -> placed_item l k.
Proof.
  intros H k (l1 & l2 & E)%list_elem_of_split. destruct (H l1 k l2 E) as ((Hlt & Hok & Hpar) & _). split_and!; [done|done|].
  destruct Hpar as [?|(p & Hp & Hpp)]; [by left|right]. exists p. split; [|done]. rewrite E, elem_of_app, elem_of_cons. auto.
Qed.
Lemma distribute_all : where_quals -> top_jdomain (im_ec (jt_root st1)) = 0%nat /\ bms_val (jd_relids (jt_root st1) 0) = all ->
  forall l st X, visits l -> progress st l X ->
  exists st', distribute_items g st l = Ok st' /\ progress st' [] (fun c => X c \/ exists k, k ∈ l /\ c ∈ own_quals g (node_of k)).
Proof.
  intros Hwh Hdom. induction l as [|k l IH]; intros st X Hv Hp; cbn [distribute_items].
  { exists st. split; [done|]. apply (progress_iff _ _ X); [|done]. intros c. setoid_rewrite elem_of_nil. naive_solver. }
  destruct (Hv [] k l eq_refl) as (Hk & Hwk & HQ). pose proof (visits_rest _ _ Hv) as Hv'.
  destruct (distribute_node l (visits_items l Hv') Hwh Hdom st X k Hp Hk Hwk HQ) as (st' & -> & Hp'). cbn [mbind result_bind].
  destruct (IH st' _ Hv' Hp') as (st2 & -> & Hp2). exists st2. split; [done|].
  apply (progress_iff _ _ (fun c => (X c \/ c ∈ own_quals g (node_of k)) \/ exists k', k' ∈ l /\ c ∈ own_quals g (node_of k'))); [|done].
  intros c. setoid_rewrite elem_of_cons. naive_solver.
Qed.
(** The item list of the first scan *)
Lemma scanned_visits st new : tree_all query_node tree -> tree_scanned g query_node st tree 0 None st1 new -> visits new.
Proof.
  intros Hall HT. destruct (ts_top _ _ _ _ _ _ _ _ HT) as (l0 & El0 & Etop & _ & Hord).
  assert (forall k, k ∈ new -> (k < length (jt_items st1))%nat /\ inner_item k) as Hit.
  { intros k Hk. split; [by apply (ts_new _ _ _ _ _ _ _ _ HT)|]. split; [by apply (ts_item _ _ _ _ _ _ _ _ HT)|].
    apply (ts_inner _ _ _ _ _ _ _ _ HT); [|done]. by apply (tree_all_mono query_node); [apply qn_inner|]. }
  assert (forall l1 k, new = l1 ++ [k] -> node_of k = tree) as Hlast by (intros l1 k E; rewrite El0 in E; by apply app_inj_tail in E as [_ <-]).
  assert (forall l l1, new = l1 ++ l -> forall k, k ∈ l -> within (node_bits (node_of k)) all) as Hw.
  { induction l as [|k l IH]; intros l1 E k' Hk'; [by apply not_elem_of_nil in Hk'|]. assert (new = (l1 ++ [k]) ++ l) as E' by (by rewrite <- app_assoc).
    apply elem_of_cons in Hk' as [->|Hk']; [|by apply (IH _ E')]. destruct (Hord l1 k l E) as [->|(p & _ & Hpin & _ & _ & Hwp)].
    - rewrite (Hlast l1 k E). apply within_refl.
    - apply (within_trans _ (node_bits (node_of p))); [done|]. by apply (IH _ E'). }
  intros l1 k l2 E. assert (k ∈ new) as Hk by (rewrite E, elem_of_app, elem_of_cons; auto). destruct (Hit k Hk) as [Hlt Hok]. split_and!.
  - split_and!; [done|done|]. destruct (Hord l1 k l2 E) as [->|(p & Hp & Hpin & Hlt' & Hch & _)]; [left; by rewrite (Hlast l1 k E)|right]. by exists p.
  - apply (Hw (k :: l2) l1 E). by left.
  - intros c Hc. apply (ts_quals _ _ _ _ _ _ _ _ HT). by exists k.
Qed.
End Query.

(** ** The whole query *)
Section Whole.
Context {Expr : Type} `{!ExprOps Expr} `{!OpFamilies Expr} `{!QualOps Expr} `{!QualLaws Expr} `{!OuterOps Expr} (g : JTQuery Expr).
Context (tree : JoinNode Expr).
#[local] Abbreviation all := (node_bits tree).
#[local] Abbreviation Q := (tree_quals g tree).
Implicit Types (st : JTRoot Expr).

(** The planner state before [deconstruct_jointree]: no clauses, classes or items yet, the top join domain, and an entry for every table. *)
Record fresh_query st : Prop := {
  fq_ec : exists rels, im_ec (jt_root st) = ec_start rels 0 /\ forall v, v ∈ tables tree -> rels !! Z.to_nat v = Some (Some None);
  fq_clauses : im_clauses (jt_root st) = ∅;
  fq_joins : im_join_info (jt_root st) = [];
  fq_domain : im_jdomains (jt_root st) = [None];
  fq_rels v : v ∈ tables tree -> exists rel, im_rels (jt_root st) !! Z.to_nat v = Some (Base rel) /\ baserestrictinfo rel = [] /\ br_joininfo rel = [] /\
    br_has_eclass_joins rel = false;
  fq_nulling v : v ∈ tables tree -> exists rs, nulling_relids st !! Z.to_nat v = Some rs /\ bms_wf rs
}.
(** A query of inner joins *)
Record inner_query : Prop := {
  qo_from : exists l quals, tree = FromExpr l quals;
  qo_nodes : tree_all (query_node g tree) tree;
  qo_where : where_quals g tree
}.
Context (Hq : inner_query).

Lemma table_bit b : 0 <= b -> Z.testbit all b = true <-> b ∈ tables tree.
Proof.
  intros Hb. rewrite (node_bit (query_node g tree) (qn_sound g tree)), inner_no_joins; [|by apply (tree_all_mono (query_node g tree)); [apply qn_inner|apply Hq]|apply Hq|done].
  rewrite elem_of_nil. tauto.
Qed.
Lemma start_gathered st root' rs : fresh_query st -> bms_wf rs -> bms_val rs = all ->
  im_ec root' = im_ec (jt_root st) -> im_clauses root' = im_clauses (jt_root st) -> im_join_info root' = im_join_info (jt_root st) -> im_rels root' = im_rels (jt_root st) ->
  im_jdomains root' = [rs] -> gathered all Q root' [] [].
Proof.
  intros Hf Wr Vr Ee Ec Ej El Ed. destruct (fq_ec _ Hf) as (rels & Er & Hrels). rewrite Er in Ee.
  assert (forall b, 0 <= b -> Z.testbit all b = true -> exists rel, rel_at root' b rel /\ baserestrictinfo rel = [] /\ br_joininfo rel = [] /\ br_has_eclass_joins rel = false) as Hbase.
  { intros b Hb Ha%table_bit; [|done]. unfold rel_at. rewrite El. by apply (fq_rels _ Hf). }
  assert (forall b rel, 0 <= b -> Z.testbit all b = true -> rel_at root' b rel -> baserestrictinfo rel = [] /\ br_joininfo rel = [] /\ br_has_eclass_joins rel = false) as Hrel.
  { intros b rel Hb Ha Hr. destruct (Hbase b Hb Ha) as (rel' & Hr' & H). unfold rel_at in *. rewrite Hr in Hr'. by injection Hr' as <-. }
  split; rewrite ?Ee, ?Ej; try done.
  - apply start_inv.
  - by intros q ?%not_elem_of_nil.
  - rewrite Ec, (fq_clauses _ Hf). intros id c. by rewrite lookup_empty.
  - intros id c. by rewrite Ec, (fq_clauses _ Hf), lookup_empty.
  - split.
    + intros b Hb Ha. split; [|destruct (Hbase b Hb Ha) as (rel & Hr & _); eauto]. apply table_bit in Ha; [|done].
      destruct (nodes_pos (query_node g tree) (qn_sound g tree) tree (qo_nodes Hq)) as [_ [Hpos _]%Forall_app]. rewrite Forall_forall in Hpos. by apply Hpos.
    + by intros id ?%not_elem_of_nil.
    + intros b rel id Hb Ha Hr. destruct (Hrel b rel Hb Ha Hr) as (-> & _). rewrite elem_of_nil. tauto.
    + intros b rel id Hb Ha Hr. destruct (Hrel b rel Hb Ha Hr) as (_ & -> & _). rewrite elem_of_nil. tauto.
  - apply Hf.
  - rewrite Ed. unfold domain_ok. cbn. rewrite Vr. split_and!; [done| |done]. apply (node_bits_pos (query_node g tree) (qn_sound g tree)), Hq.
  - intros b Hb Ha%table_bit; [|done]. unfold index_at. rewrite Ee. by apply Hrels.
  - intros b rel Hb Ha Hr. by apply (Hrel b rel Hb Ha Hr).
  - intros sat _. split; [by intros _ c ?%not_elem_of_nil|]. intros _ id [(q & Hq' & _)|H]; [rewrite Ee in Hq'; by apply not_elem_of_nil in Hq'|by apply not_elem_of_nil in H].
Qed.

Lemma from_match {A} (node : JoinNode Expr) (x y : A) : (exists l quals, node = FromExpr l quals) -> match node with FromExpr _ _ => x | _ => y end = x.
Proof. by intros (l & quals & ->). Qed.
(** [deconstruct_jointree] succeeds and places every qual. *)
Lemma query_gathered st : fresh_query st ->
  exists joinlist st' D C, deconstruct_jointree g st tree = Ok (joinlist, st') /\ lists joinlist (tables tree) /\
    gathered all Q (jt_root st') D C /\ forall c, c ∈ C <-> c ∈ Q.
Proof.
  intros Hf. unfold deconstruct_jointree. rewrite (fq_domain _ Hf). rewrite (from_match tree _ _ (qo_from Hq)).
  set (st0 := set_scopes _ None None _). assert (im_jdomains (jt_root st0) = [None]) as Ej0 by (cbn; by rewrite (fq_domain _ Hf)).
  assert (tree_all inner_node tree) as Hin by (apply (tree_all_mono (query_node g tree)); [apply qn_inner|apply Hq]). pose proof (inner_no_joins tree Hin) as Eoj.
  assert (ready st0 (tables tree) (outer_joins tree)) as Hr0.
  { split; [|done|done|split].
    - intros j. unfold get_domain, jd_relids. rewrite Ej0. by destruct j as [|[|j]].
    - intros v Hv. destruct (fq_rels _ Hf v Hv) as (rel & Hr & _), (fq_nulling _ Hf v Hv) as (rs & Hn & Hw). by exists rel, rs.
    - rewrite Eoj. by intros v ?%not_elem_of_nil. }
  destruct (deconstruct_recurse_ok g (query_node g tree) (qn_sound g tree) tree (qo_nodes Hq) st0 0%nat None []) as (joinlist & st1 & new & E & HT & Hj); [rewrite Ej0; cbn; lia|done|].
  rewrite E. cbn [mbind result_bind app]. destruct (ts_base _ _ _ _ _ _ _ _ HT) as [Wb Vb]. destruct (ts_outer _ _ _ _ _ _ _ _ HT) as [Wo Vo].
  destruct (ts_grown _ _ _ _ _ _ _ _ HT) as [Er _ Gw Gv]. destruct (ts_inner _ _ _ _ _ _ _ _ HT Hin) as [El _]. rewrite Ej0 in El, Gv.
  assert (exists rs, im_jdomains (jt_root st1) = [rs]) as [rs Ejd] by (destruct (im_jdomains (jt_root st1)) as [|rs [|]]; [done|by exists rs|done]).
  assert (get_domain st1 0 = rs) as Ed by (unfold get_domain, jd_relids; by rewrite Ejd). specialize (Gw (rd_domains _ _ _ Hr0)). specialize (Gv 0%nat (rd_domains _ _ _ Hr0) ltac:(cbn; lia)).
  assert (bms_wf rs /\ bms_val rs = all) as [Wr Vr].
  { rewrite <- Ed. split; [done|]. rewrite Gv. unfold at_domain. rewrite decide_True by done. unfold get_domain, jd_relids. by rewrite Ej0. }
  assert (bms_val (all_baserels st1) = all) as Vb' by (rewrite Vb; unfold node_bits; by rewrite Eoj, app_nil_r).
  assert (outer_join_rels st1 = None) as Eo by (apply denotes_zero; split; [done|]; by rewrite Vo, Eoj). rewrite Eo. set (st2 := set_all_query_rels st1 _).
  assert (bms_union (all_baserels st1) None = all_baserels st1) as Eu by (by destruct (all_baserels st1)).
  change (get_domain st2 0) with (get_domain st1 0). rewrite Ed. cbn [im_all_query_rels jt_root st2 set_all_query_rels set_jt_root]. rewrite Eu, bms_equal_spec by done.
  rewrite Vb', Vr, Z.eqb_refl. cbn [negb].
  assert (gathered all Q (jt_root st2) [] []) as Hg by (apply (start_gathered st _ rs); [done..|subst st2; cbn; by rewrite Er|subst st2; cbn; by rewrite Er|subst st2; cbn; by rewrite Er|subst st2; cbn; by rewrite Er|done]).
  assert (forall k, k ∈ new -> lateral_clauses (get_item st1 k) = []) as Hlat by (intros k Hk; apply (it_fresh _ _ (ts_item _ _ _ _ _ _ _ _ HT k Hk))).
  assert (progress g tree st1 st2 new (fun _ => False)) as Hp.
  { split; try done.
    - exists [], []. split; [done|]. intros c. rewrite elem_of_nil. split; [|done]. intros [[]|(k & Hk & Hc)]. change (get_item st2 k) with (get_item st1 k) in Hc.
      rewrite (Hlat k Hk) in Hc. by apply not_elem_of_nil in Hc.
    - intros k. exists (lateral_clauses (get_item st1 k)). change (get_item st2 k) with (get_item st1 k). by destruct (get_item st1 k).
    - intros k c Hk Hc. change (get_item st2 k) with (get_item st1 k) in Hc. rewrite (Hlat k Hk) in Hc. by apply not_elem_of_nil in Hc. }
  destruct (distribute_all g tree st1 (qo_where Hq)) with (l := new) (st := st2) (X := fun _ : ClauseNode (Expr := Expr) => False) as (st3 & E3 & P3);
    [|by apply (scanned_visits g tree st1 st0); [apply Hq|]|done|].
  { split; [rewrite Er; destruct (fq_ec _ Hf) as (rels & Er' & _); cbn; by rewrite Er'|]. change (jd_relids (jt_root st1) 0) with (get_domain st1 0). by rewrite Ed. }
  destruct (pg_root _ _ _ _ _ _ P3) as (D & C & Hg3 & HC). rewrite E3.
  cbn [mbind result_bind]. rewrite (ga_joins _ _ _ _ _ Hg3). cbn [mbind result_bind]. exists joinlist, st3, D, C. split_and!; [done|done|done|].
  intros c. rewrite (ts_quals _ _ _ _ _ _ _ _ HT c). split.
  - intros Hc. by destruct (proj1 (HC c) (or_introl Hc)).
  - intros Hc. destruct (proj2 (HC c)) as [H|(k & ?%not_elem_of_nil & _)]; [by right|done|done].
Qed.

(** Of a row: [sat] tells which clauses are true, [eqv s] compares values by the semantics of collation and operator families [s] (not reflexive, as NULL equals
    nothing).  All equality operators of these families, for the types of two operands of the query, test that equality; RelabelType changes no value;
    folding a clause to TRUE is right; [x = x] with a strict operator tells that [x] is not NULL. *)
Record row_law (sat : ClauseNode (Expr := Expr) -> Prop) (eqv : signature -> Expr -> Expr -> Prop) : Prop := {
  rl_sym s x y : eqv s x y -> eqv s y x;
  rl_trans s x y z : eqv s x y -> eqv s y z -> eqv s x z;
  rl_equality s x type1 y type2 family op : operand Q s x type1 -> operand Q s y type2 -> family ∈ s.2 -> get_opfamily_member family type1 type2 = op -> op <> 0 ->
    sat (make_opclause op s.1 x y) <-> eqv s x y;
  rl_relabel op coll x x' y y' : relabels x x' -> relabels y y' -> sat (make_opclause op coll x' y') <-> sat (make_opclause op coll x y);
  rl_fold op coll x y : folds_to_true op coll x y = true -> sat (make_opclause op coll x y);
  rl_not_null op coll x : get_mergejoin_opfamilies op <> [] -> op_strict op = true -> sat (make_opclause op coll x x) <-> sat (OtherClause (is_not_null x))
}.
Lemma gathered_row root D C sat eqv : gathered all Q root D C -> row_law sat eqv -> row_ok root sat (fun p => eqv (ec_sig (get_class root p))).
Proof.
  intros Hg H. split.
  - intros p. apply (rl_sym _ _ H).
  - intros p. apply (rl_trans _ _ H).
  - intros p l r op Hp Hl Hr (Hne & family & Hf & E). pose proof (ga_good _ _ _ _ _ Hg p Hp) as Hgood.
    apply (rl_equality _ _ H (ec_sig (get_class root p)) _ (em_datatype l) _ (em_datatype r) family op); try done; by apply (gc_operand _ _ _ _ _ Hgood).
  - apply (rl_relabel _ _ H).
  - apply (rl_fold _ _ H).
Qed.
End Whole.

(** C1: a plan enforces the query.  The query ([inner_query]) has inner joins only: no outer join, semijoin or antijoin; a qual mentions relations of its own scope or, with LATERAL, of a
    higher level; no variable-free security qual compares an expression with itself.  For every such query [deconstruct_jointree] succeeds and lists every table once, in order; then
    [generate_base_implied_equalities] succeeds.  Take any relation that scans and joins have built since, in any order of the join search, which covers all base
    relations: a row satisfies all the clauses checked by these scans and joins exactly if it satisfies all WHERE, JOIN and security quals of the query.  This holds with
    lateral references, for quals of any form, and for classes broken by missing operators.  Expressions that [exprs_known_equal] reports are then equal. *)
Theorem plan_enforces_query {Expr} `{!ExprOps Expr} `{!OpFamilies Expr} `{!QualOps Expr} `{!QualLaws Expr} `{!OuterOps Expr}
    (g : JTQuery Expr) (tree : JoinNode Expr) (st : JTRoot Expr) :
  inner_query g tree -> fresh_query tree st ->
  exists joinlist st', deconstruct_jointree g st tree = Ok (joinlist, st') /\ joinlist_tables joinlist = tables tree /\
  exists root1, generate_base_implied_equalities (jt_root st') = Ok root1 /\
  forall sat eqv, row_law g tree sat eqv -> forall root2 rel E, built (node_bits tree) root1 root2 rel E -> within (node_bits tree) (rel_val rel) ->
    ((forall id, id ∈ E -> true_in sat root2 id) <-> (forall clause, clause ∈ tree_quals g tree -> sat clause)) /\
    ((forall id, id ∈ E -> true_in sat root2 id) -> forall e1 e2, exprs_known_equal root2 e1 e2 = true -> exists s, eqv s e1 e2).
Proof.
  intros Hq Hf. destruct (query_gathered g tree Hq st Hf) as (joinlist & st' & D & C & E & [Hj _] & Hg & HC). exists joinlist, st'. split_and!; [done|done|].
  pose proof (gathered_ready _ _ _ _ _ Hg) as Hready. destruct (generate_base_ok _ _ _ Hready) as (root1 & _ & Hgen & _). exists root1. split; [done|].
  intros sat eqv Hrow root2 rel ids Hb Hall. pose proof (gathered_row g tree _ _ _ _ _ Hg Hrow) as Hro.
  destruct (base_plan_enforces _ _ _ _ _ Hready Hro) as (root1' & Hgen' & Hplan). rewrite Hgen in Hgen'. injection Hgen' as <-.
  destruct (Hplan root2 rel ids Hb Hall) as [Hiff Hknown]. split.
  - rewrite Hiff, query_true_recorded, (ga_true _ _ _ _ _ Hg sat). { by setoid_rewrite HC. } split; [apply (rl_relabel _ _ _ _ Hrow)|apply (rl_not_null _ _ _ _ Hrow)].
  - intros HE e1 e2 Hk. destruct (Hknown HE e1 e2 Hk) as (p & _ & He). by eexists.
Qed.

(** ** Variable-free security quals *)
Section Security.
Context {Expr : Type} `{!ExprOps Expr} `{!OpFamilies Expr} `{!QualOps Expr} `{!QualLaws Expr} `{!OuterOps Expr} (g : JTQuery Expr).

(** Such a qual becomes a NullTest that mentions no relation. *)
Lemma place_same_sides st op jd marks sec scope : pull_varnos (leftop op) = None -> check_mergejoinable (OpClause op) false <> [] -> op_strict (opno op) = true ->
  same_sides op -> sec <= 0 -> place_qual st (OpClause op) jd None marks false sec scope None true false = Error variable_free_msg.
Proof.
  intros Hv Hm Hs Hsame Hsec. unfold place_qual. destruct (check_mergejoinable (OpClause op) false) as [|f fs] eqn:Ef; [done|]. cbn [new_clause im_ec].
  unfold process_equivalence. cbn [EquivClass.security_level EquivClass.clause restrictinfo_of leakproof].
  destruct (Z.ltb_spec 0 sec); [lia|]. cbn [andb]. rewrite bool_decide_true by exact Hsame. rewrite Hs. cbn [mbind result_bind].
  destruct (relabels_same (leftop op) _ (relabels_canonical (leftop op) (exprType (leftop op)) (inputcollid op))) as (E & _).
  unfold make_not_null, distribute_restrictinfo_to_rels. cbn. rewrite lookup_insert_eq. cbn. by rewrite ql_not_null, E, Hv.
Qed.
Lemma table_fails st k v op quals rest : jtnode (get_item st k) = TableRef v -> bms_wf (qualscope (get_item st k)) -> bms_val (qualscope (get_item st k)) <> 0 ->
  im_join_info (jt_root st) = [] -> 0 < qual_security_level g -> securityQuals g v = (OpClause op :: quals) :: rest ->
  pull_varnos (leftop op) = None -> pull_varnos (rightop op) = None -> same_sides op -> check_mergejoinable (OpClause op) false <> [] -> op_strict (opno op) = true ->
  deconstruct_distribute g st k = Error variable_free_msg.
Proof.
  intros En Ws Ns Hj Hs Hq HL HR Hsame Hm Hst. unfold deconstruct_distribute. rewrite En, (proj2 (Z.ltb_lt 0 (qual_security_level g)) Hs).
  unfold process_security_barrier_quals. rewrite Hq. cbn [security_loop distribute_quals_to_rels]. unfold distribute_qual_to_rels. cbn [clause_varnos]. rewrite HL, HR. cbn [bms_union]. unfold bms_copy.
  set (scope := qualscope (get_item st k)) in *.
  change (bms_is_subset None scope) with true. change (bms_is_empty None) with true. cbn [negb].
  assert (bms_is_empty scope = false) as -> by (destruct scope; done). cbn [negb andb].
  assert (bms_overlap scope None = false) as -> by (by destruct scope). cbn [mbind result_bind].
  assert (check_redundant_nullability_qual (jt_root st) (OpClause op) = Ok false) as ->.
  { unfold check_redundant_nullability_qual. rewrite Hj. destruct (forced_null_rels _) as [rs|]; [|done]. by destruct (bms_is_empty rs). }
  cbn [mbind result_bind]. by rewrite place_same_sides.
Qed.
End Security.

(** C30: a variable-free security qual that compares an expression with itself cannot be planned.  [distribute_qual_to_rels] evaluates it at its table, but
    [process_equivalence] replaces it by [x IS NOT NULL] without passing that table on, so that [distribute_restrictinfo_to_rels] raises an error.  This is proved for the query whose
    FROM list is that one table, without a WHERE clause, and whose first set of security quals begins with the qual: [SELECT ... FROM t] fails if [t] has, say, the
    policy [current_user = current_user] alone, though the condition is legal. *)
Theorem security_qual_fails {Expr} `{!ExprOps Expr} `{!OpFamilies Expr} `{!QualOps Expr} `{!QualLaws Expr} `{!OuterOps Expr}
    (g : JTQuery Expr) (v : Z) (op : OpExpr Expr) (st : JTRoot Expr) quals rest :
  fresh_query (FromExpr [TableRef v] []) st -> jt_items st = [] -> 0 < v -> 0 < qual_security_level g -> securityQuals g v = (OpClause op :: quals) :: rest ->
  pull_varnos (leftop op) = None -> pull_varnos (rightop op) = None -> same_sides op -> check_mergejoinable (OpClause op) false <> [] -> op_strict (opno op) = true ->
  deconstruct_jointree g st (FromExpr [TableRef v] []) = Error variable_free_msg.
Proof.
  intros Hf Hit Hv Hs Hq HL HR Hsame Hm Hst. pose proof (fq_domain _ _ Hf) as Hd. pose proof (fq_joins _ _ Hf) as Hj. clear Hf.
  destruct st as [[ec cl nx rels allq ji jds] ab oj nl items lj rj fj ps]. cbn in Hd, Hit, Hj. subst jds items ji.
  destruct (bms_make_singleton_spec v ltac:(lia)) as (scope & Es & Ws & Vs). assert (bms_add_member None v = Ok scope) as Ea.
  { unfold bms_add_member. destruct (Z.ltb_spec v 0); [lia|]. exact Es. }
  assert (bms_val scope <> 0) as Hsc by (rewrite Vs, setbit_lor, Z.lor_0_l by lia; pose proof (Z.pow_pos_nonneg 2 v); lia).
  unfold deconstruct_jointree. cbn -[bms_add_member bms_make_singleton distribute_items bms_equal bms_union]. rewrite Ea.
  cbn -[bms_add_member bms_make_singleton distribute_items bms_equal bms_union]. rewrite Es. cbn -[bms_add_member bms_make_singleton distribute_items bms_equal bms_union].
  assert (bms_union scope None = scope) as -> by (by destruct scope). rewrite bms_equal_spec, Z.eqb_refl by done. cbn [negb distribute_items].
  by rewrite (table_fails g _ 1 v op quals rest).
Qed.
