(* ===== verification/OuterQuals.v ===== *)
(** * Quals of outer joins find their place

    Distributing a qual never fails, whatever the join: every relation that a qual can require has an entry in [simple_rel_array], and classes can be extended while
    the join tree is scanned.  Join tree items and special joins stay as they are. *)
From stdpp Require Import gmap.
From S2P Require Import Prelude BitUtils Bitmapset BitmapsetSpec BitmapsetIter EquivClass EquivClassProps EquivClassThms PathKeys JoinRels JoinLinks RelSets ImpliedEq ImpliedEqProps Quals QueryClauses QueryQuals OuterJoin.
#[local] Open Scope Z_scope.

Section Outer.
Context {Expr : Type} `{!ExprOps Expr} `{!OpFamilies Expr} `{!QualOps Expr} `{!QualLaws Expr}.
#[local] Abbreviation Clause := (ClauseNode (Expr := Expr)).
#[local] Abbreviation Root := (ImpliedRoot (Expr := Expr)).
#[local] Abbreviation State := (JTRoot Expr).
Implicit Types (root : Root) (st : State) (clause : Clause) (id : nat).

(** The tables [T] and the outer joins [J] of the query, as masks *)
Context (T J : Z).
(** A set of relations that a clause may require: not an outer join alone *)
Record fit (x : Z) : Prop := {
  ft_known : within x (Z.lor T J);
  ft_some : x <> 0;
  ft_single b : 0 <= b -> x = 2 ^ b -> Z.testbit T b = true
}.
Lemma fit_table x : within x (Z.lor T J) -> meets x T -> fit x.
Proof.
  intros Hw Hm. split; [done|mask_tac|]. intros b Hb ->. apply meets_bits in Hm as (b' & Hb' & H1 & H2). rewrite Z.pow2_bits_eqb, Z.eqb_eq in H1 by done. by subst.
Qed.
Lemma fit_two x y z : within z (Z.lor T J) -> within x z -> within y z -> x <> 0 -> y <> 0 -> ~ meets x y -> fit z.
Proof.
  intros Hz Hx Hy Nx Ny Hxy. apply nonempty_bits in Nx as (b & Hb & Hbx). apply nonempty_bits in Ny as (c & Hc & Hcy).
  pose proof (within_bit _ _ b Hx Hb Hbx) as Hbz. pose proof (within_bit _ _ c Hy Hc Hcy) as Hcz.
  split; [done|apply nonempty_bits; by exists b|]. intros d Hd ->. rewrite Z.pow2_bits_eqb, Z.eqb_eq in Hbz, Hcz by done. subst d. destruct Hxy. apply meets_bits. exists b. by subst c.
Qed.

(** The part of the state that distribution relies on *)
Record calm root : Prop := {
  cm_ec : ec_inv (im_ec root);
  cm_open : ec_merging_done (im_ec root) = false;
  cm_top : let rs := jd_relids root (top_jdomain (im_ec root)) in bms_wf rs /\ fit (bms_val rs);
  cm_table b : 0 <= b -> Z.testbit T b = true -> 0 < b /\ exists rel, im_rels root !! Z.to_nat b = Some (Base rel);
  cm_join b : 0 <= b -> Z.testbit J b = true -> 0 < b /\ im_rels root !! Z.to_nat b = Some OuterJoin
}.
(** What stays *)
Record quiet st st' : Prop := {
  qt_calm : calm (jt_root st');
  qt_items : jt_items st' = jt_items st;
  qt_joins : im_join_info (jt_root st') = im_join_info (jt_root st)
}.
Lemma quiet_refl st : calm (jt_root st) -> quiet st st.
Proof. by split. Qed.
Lemma quiet_trans st1 st2 st3 : quiet st1 st2 -> quiet st2 st3 -> quiet st1 st3.
Proof. intros [] []. split; congruence. Qed.
Lemma calm_same root root' : calm root -> im_ec root' = im_ec root -> im_rels root' = im_rels root -> im_jdomains root' = im_jdomains root -> calm root'.
Proof. intros [] E1 E2 E3. split; unfold jd_relids in *; rewrite ?E1, ?E2, ?E3; done. Qed.
Lemma calm_rels root rels : calm root ->
  (forall n rel, im_rels root !! n = Some (Base rel) -> exists rel', rels !! n = Some (Base rel')) -> (forall n, im_rels root !! n = Some OuterJoin -> rels !! n = Some OuterJoin) ->
  calm (set_im_rels root rels).
Proof.
  intros [H1 H2 H3 H4 H5] Ht Hj. split; try done.
  - intros b Hb Hbit. destruct (H4 b Hb Hbit) as (? & rel & Hrel). split; [done|]. by apply (Ht _ rel).
  - intros b Hb Hbit. destruct (H5 b Hb Hbit). split; [done|]. by apply Hj.
Qed.
Lemma calm_set_rel root b rel rel' : calm root -> im_rels root !! Z.to_nat b = Some (Base rel) -> calm (set_rel root b rel').
Proof.
  intros Hc Hb. apply calm_rels; [done|..].
  - intros n r Hn. destruct (decide (n = Z.to_nat b)) as [->|Hne]; [exists rel'; rewrite list_lookup_insert_eq; [done|by eapply lookup_lt_Some]|].
    exists r. by rewrite list_lookup_insert_ne.
  - intros n Hn. rewrite list_lookup_insert_ne; [done|]. intros E. rewrite E in Hb. congruence.
Qed.

(** ** Clauses in the lists of the relations *)
Lemma add_join_clause_fits rs id : bms_wf rs -> within (bms_val rs) (Z.lor T J) -> forall fuel root i, -1 <= i -> calm root ->
  bms_capacity rs - i <= Z.of_nat fuel -> (0 < fuel)%nat ->
  exists rels, add_join_clause_loop fuel root id rs i = Ok (set_im_rels root rels) /\ calm (set_im_rels root rels).
Proof.
  intros Hrs Hall. induction fuel as [|fuel IH]; intros root i Hi Hc Hcap Hf; [lia|]. cbn [add_join_clause_loop].
  destruct (next_member_next_of rs i Hrs Hi) as [[-> _]|(Hlt & Hm & _)]; [exists (im_rels root); by destruct root|].
  set (b := next_member rs i) in *.
  assert (b < bms_capacity rs) as Hbc by (destruct (Z_lt_ge_dec b (bms_capacity rs)); [done|]; rewrite bms_mem_capacity in Hm by (done || lia); done).
  rewrite (proj2 (Z.leb_le 0 b)) by lia. unfold find_base_rel_ignore_join.
  assert (Z.testbit (Z.lor T J) b = true) as [Ht|Hj]%testbit_lor by (apply (within_bit _ _ b Hall); [lia|done]).
  - destruct (cm_table _ Hc b) as (Hp & rel & Hrel); [lia|done|]. destruct (Z.leb_spec b 0); [lia|]. rewrite Hrel. cbn [mbind result_bind].
    set (root1 := set_rel root b _). destruct (IH root1 b) as (rels & E & Hc'); [lia|by apply (calm_set_rel root b rel)|lia|lia|]. exists rels. by split.
  - destruct (cm_join _ Hc b) as (Hp & Hrel); [lia|done|]. destruct (Z.leb_spec b 0); [lia|]. rewrite Hrel. cbn [mbind result_bind].
    by apply (IH root b); [lia| |lia|lia].
Qed.
Lemma distribute_fits root id c : calm root -> im_clauses root !! id = Some c -> bms_wf (rc_required c) -> fit (bms_val (rc_required c)) ->
  exists rels, distribute_restrictinfo_to_rels root id = Ok (set_im_rels root rels) /\ calm (set_im_rels root rels).
Proof.
  intros Hc Hid Hwf [Hw Hne Hone]. unfold distribute_restrictinfo_to_rels. rewrite Hid.
  destruct (membership_cases _ Hwf) as [[_ H0]|[(y & Hy & Ey & -> & ->)|[-> Hs]]]; [done| |].
  - cbn [mbind result_bind]. destruct (cm_table _ Hc y Hy (Hone y Hy Ey)) as (Hp & rel & Hrel). unfold find_base_rel. destruct (Z.leb_spec y 0); [lia|]. rewrite Hrel.
    cbn [mbind result_bind]. eexists. split; [done|]. by apply (calm_set_rel root y rel).
  - unfold add_join_clause_to_rels. assert (0 <= bms_capacity (rc_required c)) by (destruct (rc_required c); unfold bms_capacity, nwords; lia).
    apply add_join_clause_fits; try done; lia.
Qed.

(** ** Classes of the operands *)
Lemma get_eclass_calm kinds (er : ECRoot Expr) expr opf type coll : ec_inv er -> ec_merging_done er = false ->
  contain_volatile_functions (canonicalize_ec_expression expr type coll) = false ->
  exists o er', get_eclass_for_sort_expr kinds er expr opf type coll 0 None true = Ok (o, er') /\ ec_inv er' /\ ec_merging_done er' = false /\ top_jdomain er' = top_jdomain er.
Proof.
  intros Hinv Hopen Hv. assert (exists o er', get_eclass_for_sort_expr kinds er expr opf type coll 0 None true = Ok (o, er') /\
    ec_merging_done er' = false /\ top_jdomain er' = top_jdomain er) as (o & er' & E & H1 & H2).
  { unfold get_eclass_for_sort_expr. destruct (sort_class_search _ _ _ _ _ _ _ _ _) as [p|]; [by eexists _, _|]. rewrite Hv.
    destruct (add_eq_member _ _ _ _ _ _) as [em ec]. cbn [negb andb]. rewrite ?andb_false_r. cbn [new_ec ec_merging_done]. rewrite Hopen. by eexists _, _. }
  exists o, er'. split; [done|]. split; [|done]. by apply (get_eclass_spec _ _ _ _ _ _ _ _ _ _ _ Hinv E).
Qed.
Lemma calm_classes root er : calm root -> ec_inv er -> ec_merging_done er = false -> top_jdomain er = top_jdomain (im_ec root) -> calm (set_im_ec root er).
Proof. intros [H1 H2 H3 H4 H5] Hi Hd Ht. split; try done. cbn. rewrite Ht. exact H3. Qed.
Lemma calm_eclasses root id a b c d : calm root -> calm (set_eclasses root id a b c d) /\ im_join_info (set_eclasses root id a b c d) = im_join_info root.
Proof. intros H. unfold set_eclasses. destruct (im_clauses root !! id); [|done]. split; [|done]. by apply (calm_same root). Qed.
Lemma eclasses_clause root id a b c : im_clauses root !! id = Some c -> exists c', im_clauses (set_eclasses root id a b None None) !! id = Some c' /\ same_clause c c'.
Proof. intros E. unfold set_eclasses. rewrite E. eexists. split; [cbn; apply lookup_insert_eq|done]. Qed.

(** ** One qual *)
Definition where_clause clause : Prop := forall op, clause = OpClause op -> where_expr (leftop op) /\ where_expr (rightop op).
Lemma operands_calm op : clause_volatile (OpClause op) = false ->
  contain_volatile_functions (leftop op) = false /\ contain_volatile_functions (rightop op) = false.
Proof. cbn. by intros [[_ ?]%orb_false_iff ?]%orb_false_iff. Qed.
Lemma initialize_calm root id op families c : calm root -> clause_volatile (OpClause op) = false -> im_clauses root !! id = Some c ->
  exists root' c', initialize_mergeclause_eclasses root id op families = Ok root' /\ calm root' /\ im_join_info root' = im_join_info root /\
    im_clauses root' !! id = Some c' /\ same_clause c c'.
Proof.
  intros Hc Hvol Hid. destruct (operands_calm op Hvol) as [V1 V2]. unfold initialize_mergeclause_eclasses. destruct (op_input_types (opno op)) as [t1 t2].
  destruct (get_eclass_calm (rel_kinds root) (im_ec root) (leftop op) families t1 (inputcollid op)) as (o1 & er1 & -> & I1 & D1 & T1);
    [apply Hc|apply Hc|by rewrite (proj1 (proj2 (relabels_same _ _ (relabels_canonical _ _ _))))|]. cbn [mbind result_bind].
  destruct (get_eclass_calm (rel_kinds root) er1 (rightop op) families t2 (inputcollid op)) as (o2 & er2 & -> & I2 & D2 & T2);
    [done|done|by rewrite (proj1 (proj2 (relabels_same _ _ (relabels_canonical _ _ _))))|]. cbn [mbind result_bind].
  assert (calm (set_im_ec root er2)) as Hc2 by (apply calm_classes; [done|done|done|congruence]).
  destruct (calm_eclasses (set_im_ec root er2) id o1 o2 None None Hc2) as [Hc3 Ej]. destruct (eclasses_clause (set_im_ec root er2) id o1 o2 c Hid) as (c' & Hc' & Hs).
  by exists (set_eclasses (set_im_ec root er2) id o1 o2 None None), c'.
Qed.
Lemma clause_ok_of id op sec : where_clause (OpClause op) -> clause_volatile (OpClause op) = false ->
  clause_ok (restrictinfo_of id op sec (get_mergejoin_opfamilies (opno op))).
Proof.
  intros Hw Hvol. destruct (operands_calm op Hvol) as [V1 V2], (Hw op eq_refl) as [W1 W2].
  pose proof (relabels_canonical (leftop op) (exprType (leftop op)) (inputcollid op)) as R1. destruct (relabels_same _ _ R1) as (Ev1 & Ec1 & Ew1).
  pose proof (relabels_canonical (rightop op) (exprType (rightop op)) (inputcollid op)) as R2. destruct (relabels_same _ _ R2) as (Ev2 & Ec2 & Ew2).
  destruct (Ew1 W1) as (X1 & Y1 & Z1), (Ew2 W2) as (X2 & Y2 & Z2).
  unfold clause_ok, const_expr, ri_item1, ri_item2. cbn. by rewrite Ev1, Ec1, X1, Y1, Z1, V1, Ev2, Ec2, X2, Y2, Z2, V2, !andb_true_r.
Qed.

(** A clause that is not absorbed goes to the lists of its relations. *)
Lemma leave_fits st root' id c : calm root' -> im_join_info root' = im_join_info (jt_root st) -> im_clauses root' !! id = Some c -> bms_wf (rc_required c) ->
  fit (bms_val (rc_required c)) -> exists st', (root0 ← distribute_restrictinfo_to_rels root' id; Ok (set_jt_root st root0)) = Ok st' /\ quiet st st'.
Proof.
  intros Hc Ej Hid Hw Hf. destruct (distribute_fits root' id c Hc Hid Hw Hf) as (rels & -> & Hcl). cbn [mbind result_bind]. eexists. split; [done|]. by split.
Qed.
(** [x = x] becomes [x IS NOT NULL], with the relations of [x]. *)
Lemma not_null_required op item : relabels (leftop op) item -> relabels (rightop op) item -> forall marks pseudo sec,
  let c := make_restrictinfo (OtherClause (is_not_null item)) marks pseudo sec None in
  bms_wf (rc_required c) /\ bms_val (rc_required c) = bms_val (clause_varnos (OpClause op)).
Proof.
  intros R1 R2 marks pseudo sec. destruct (relabels_same _ _ R1) as (E1 & _), (relabels_same _ _ R2) as (E2 & _).
  destruct (bms_union_spec _ _ (ql_varnos (leftop op)) (ql_varnos (rightop op))) as [_ Eu]. cbn. rewrite ql_not_null, E1. split; [apply ql_varnos|]. rewrite Eu, <- E2, E1. by rewrite Z.lor_diag.
Qed.
Lemma place_qual_fits st clause jd sjinfo marks pseudo sec relids nonnullable (equivalence outer : bool) : calm (jt_root st) -> where_clause clause ->
  bms_wf relids -> fit (bms_val relids) -> (bms_val (clause_varnos clause) <> 0 -> fit (bms_val (clause_varnos clause))) ->
  (forall op, equivalence = true -> clause = OpClause op -> pseudo = false -> clause_volatile clause = false -> bms_val (clause_varnos clause) = 0 -> ~ same_sides op) ->
  (outer = true -> is_Some sjinfo) ->
  exists st', place_qual st clause jd sjinfo marks pseudo sec relids nonnullable equivalence outer = Ok st' /\ quiet st st'.
Proof.
  intros Hcalm Hwhere Hwf Hfit Hvars Hsides Houter. set (root := jt_root st) in *. unfold place_qual. fold root.
  set (fams := check_mergejoinable clause pseudo). set (c := set_mergejoinable _ fams). cbn [new_clause]. set (root1 := {| im_ec := im_ec root |}).
  assert (rc_required c = relids) as Erq by (cbn; pose proof (ft_some _ Hfit); by destruct relids).
  assert (calm root1) as Hc1 by (by apply (calm_same root)). assert (im_clauses root1 !! im_next root = Some c) as Hid by (cbn; apply lookup_insert_eq).
  assert (forall root' c', calm root' -> im_join_info root' = im_join_info root -> im_clauses root' !! im_next root = Some c' -> same_clause c c' ->
    exists st', (root0 ← distribute_restrictinfo_to_rels root' (im_next root); Ok (set_jt_root st root0)) = Ok st' /\ quiet st st') as Hsame.
  { intros root' c' Hc Ej Hc' [_ Er _]. apply (leave_fits st root' (im_next root) c'); try done; by rewrite Er, Erq. }
  destruct (merge_cases clause pseudo) as [Ef|(op & Hop & Hps & Hvol & Hne & Ef)]; fold fams in Ef.
  { rewrite Ef. destruct clause; by apply (Hsame root1 c). }
  assert (exists f fs, fams = f :: fs) as (f & fs & Efs) by (rewrite Ef; destruct (get_mergejoin_opfamilies (opno op)); [done|eauto]).
  assert (clause_volatile (OpClause op) = false) as Hvol' by (by rewrite <- Hop).
  destruct (initialize_calm root1 (im_next root) op fams c Hc1 Hvol' Hid) as (root2 & c2 & Ei & Hc2 & Ej2 & Hid2 & Hs2).
  destruct (Hsame root2 c2 Hc2 Ej2 Hid2 Hs2) as (st2 & Ed2 & Hq2).
  destruct equivalence; subst clause; rewrite Efs; rewrite <- Efs.
  - clear st2 Ed2 Hq2. pose proof (clause_ok_of (im_next root) op sec Hwhere Hvol) as Hok. rewrite Ef. cbn [im_ec root1].
    destruct (process_equivalence (im_ec root) (restrictinfo_of (im_next root) op sec (get_mergejoin_opfamilies (opno op))) jd) as [[[o|ri] er]|msg|] eqn:Epe;
      cbn [mbind result_bind].
    + pose proof (rejected_root _ _ _ _ _ Epe) as ->. apply rejected_reason in Epe. change (set_im_ec root1 (im_ec root)) with root1. destruct o as [item|].
      * destruct Epe as [(_ & _ & ?)|(Eit & Es)]; [done|]. cbn in Es. destruct (op_strict (opno op)); [|done]. injection Es as ->.
        set (item := ri_item1 _). cbn [make_not_null new_clause]. set (c3 := make_restrictinfo _ _ _ _ _).
        assert (bms_val (clause_varnos (OpClause op)) <> 0) as Hpos by (intros E0; by apply (Hsides op eq_refl eq_refl Hps Hvol E0)).
        pose proof (relabels_canonical (leftop op) (exprType (leftop op)) (inputcollid op)) as R1. change (relabels (leftop op) item) in R1.
        pose proof (relabels_canonical (rightop op) (exprType (rightop op)) (inputcollid op)) as R2. unfold ri_item1, ri_item2 in Eit. cbn in Eit. rewrite <- Eit in R2.
        change (relabels (rightop op) item) in R2. destruct (not_null_required op item R1 R2 marks false sec) as [W3 Er3]. fold c3 in W3, Er3.
        eapply (leave_fits st _ (im_next root1) c3); [by apply (calm_same root1)|done|cbn; apply lookup_insert_eq|done|rewrite Er3; by apply Hvars].
      * rewrite <- Ef, Ei. cbn [mbind result_bind]. by apply (Hsame root2 c2).
    + destruct (process_equivalence_spec _ _ _ _ _ (cm_ec _ Hcalm) Hok Epe) as (_ & _ & _ & [Hinv _ _ _ _ _]).
      destruct (process_equivalence_shape _ _ _ _ _ (cm_ec _ Hcalm) Hok Epe) as (p & em1 & em2 & -> & _ & _ & Hsh).
      destruct (absorb_rest _ _ _ _ _ _ _ Hsh) as (E1 & E2 & E3). eexists. split; [done|].
      assert (calm (set_im_ec root1 er)) as Hc3 by (apply calm_classes; [done|done|rewrite E1; apply Hcalm|exact E3]).
      edestruct (calm_eclasses (set_im_ec root1 er)) as [Hc4 Ej4]; [done|]. split; [exact Hc4|done|exact Ej4].
    + apply too_late_reason in Epe as (_ & Hd & _); [|apply Hcalm]. by rewrite (cm_open _ Hcalm) in Hd.
    + by apply process_equivalence_fuel in Epe.
  - rewrite Ei. cbn [mbind result_bind]. destruct (outer && can_join (OpClause op)) eqn:Eo; [|by exists st2].
    apply andb_true_iff in Eo as [-> _]. destruct (Houter eq_refl) as [sj ->].
    assert (forall l r full, quiet st (set_oj_lists (set_jt_root st root2) l r full)) as Hl by (intros; by split).
    unfold set_aside. repeat case_match; simplify_eq; eauto.
Qed.

(** ** [distribute_qual_to_rels] *)

(** The scope [X] of the quals of a join tree node, [O] the relations that a clause of its outer join must wait for, [N] the side that the join preserves. *)
Record scopes (X O N : Z) (sjinfo : option SpecialJoinInfo) : Prop := {
  sc_scope : fit X;
  sc_outer : O <> 0 -> fit O;
  sc_preserved : N <> 0 -> meets O N /\ is_Some sjinfo
}.
Record qual_fits (X O N : Z) clause : Prop := {
  qf_scope : within (bms_val (clause_varnos clause)) X;
  qf_outer : O <> 0 -> within (bms_val (clause_varnos clause)) O;
  qf_where : where_clause clause;
  qf_table : bms_val (clause_varnos clause) <> 0 -> meets (bms_val (clause_varnos clause)) T;
  qf_sides op : N = 0 -> O <> 0 -> clause = OpClause op -> clause_volatile clause = false -> bms_val (clause_varnos clause) = 0 -> ~ same_sides op
}.
Definition joins_known root : Prop := Forall (fun s => 0 <= ojrelid s) (im_join_info root).
Lemma member_total a x : 0 <= x -> exists b, bms_is_member x a = Ok b.
Proof. intros Hx. unfold bms_is_member. rewrite (proj2 (Z.ltb_ge x 0)) by done. repeat case_match; eauto. Qed.
Lemma redundant_total root clause : joins_known root -> exists b, check_redundant_nullability_qual root clause = Ok b.
Proof.
  intros Hj. unfold check_redundant_nullability_qual. destruct (forced_null_rels clause) as [vs|]; [|eauto]. destruct (bms_is_empty vs); [eauto|].
  induction Hj as [|s l Hs _ IH]; [eauto|]. cbn [nulled_by_antijoin]. destruct (is_join JOIN_ANTI s && _).
  - destruct (member_total vs (ojrelid s) Hs) as [b ->]. cbn [mbind result_bind]. destruct b; eauto.
  - cbn [mbind result_bind]. eauto.
Qed.
Section Scopes.
Context (hasLateral : bool) (k : nat) (sjinfo : option SpecialJoinInfo) (sec : Z) (scope ojscope nonnullable incompatible : bitmapset) (hc ic : bool) (X O N : Z).
Context (HX : denotes scope X) (HO : denotes ojscope O) (HN : denotes nonnullable N) (Hsc : scopes X O N sjinfo).

Lemma distribute_qual_fits st clause allow postponed : calm (jt_root st) -> joins_known (jt_root st) -> qual_fits X O N clause ->
  exists st' postponed', distribute_qual_to_rels hasLateral st clause k sjinfo sec scope ojscope nonnullable incompatible allow hc ic postponed = Ok (st', postponed') /\
    quiet st st' /\ (postponed' = postponed \/ exists l, postponed = Some l /\ postponed' = Some (l ++ [clause])).
Proof.
  intros Hcalm Hj Hq. unfold distribute_qual_to_rels. assert (denotes (clause_varnos clause) (bms_val (clause_varnos clause))) as HV by (split; [apply clause_varnos_wf|done]).
  set (V := bms_val (clause_varnos clause)) in *. destruct (subset_denotes _ _ _ _ HV HX) as [_|Hn]; [|by destruct Hn; apply Hq]. cbn [negb].
  assert (negb (bms_is_empty ojscope) && negb (bms_is_subset (clause_varnos clause) ojscope) = false) as ->.
  { rewrite (empty_denotes _ _ HO). destruct (Z.eqb_spec O 0) as [|HO0]; [done|]. destruct (subset_denotes _ _ _ _ HV HO) as [|Hn]; [done|]. by destruct Hn; apply Hq. }
  assert (V <> 0 -> fit V) as HfV.
  { intros HV0. apply fit_table; [|by apply Hq]. eapply within_trans; [apply Hq|apply Hsc]. }
  set (jd := jdomain (get_item st k)). set (choice := if bms_is_empty (clause_varnos clause) then _ else _).
  assert (exists rs ps, choice = (rs, ps) /\ bms_wf rs /\ fit (bms_val rs) /\ (ps = true -> O = 0) /\ (V = 0 -> O <> 0 -> bms_val rs = O) /\
    (ps = false -> V = 0 -> O = 0 -> clause_volatile clause = true)) as (rs & ps & -> & Hrs & Hfit & Hps & Hrs0 & Hvol).
  { unfold choice, bms_copy. rewrite (empty_denotes _ _ HV), (empty_denotes _ _ HO). destruct (Z.eqb_spec V 0) as [HV0|HV0].
    2: { eexists _, _. split; [done|]. split; [apply HV|]. split; [by apply HfV|]. done. }
    destruct (Z.eqb_spec O 0) as [HO0|HO0]; cbn [negb].
    2: { eexists _, _. split; [done|]. split; [apply HO|]. split; [rewrite (proj2 HO : bms_val ojscope = O); by apply Hsc|]. split; [done|]. split; [by rewrite (proj2 HO)|done]. }
    assert (fit (bms_val scope)) as HfX by (rewrite (proj2 HX : bms_val scope = X); apply Hsc).
    destruct (clause_volatile clause); [eexists _, _; split; [done|]; by split; [apply HX|]|].
    destruct (jd =? top_jdomain (im_ec (jt_root st)))%nat eqn:Ejd; [|eexists _, _; split; [done|]; by split; [apply HX|]].
    apply Nat.eqb_eq in Ejd. rewrite Ejd. destruct (cm_top _ Hcalm). by eexists _, _. }
  set (st1 := if ps then set_pseudo st else st).
  assert (jt_root st1 = jt_root st) as Er1 by (by destruct ps). assert (jt_items st1 = jt_items st) as Ei1 by (by destruct ps).
  assert (quiet st st1) as Hq1 by (split; [by rewrite Er1|done|by rewrite Er1]).
  destruct (overlap_denotes rs nonnullable _ _ (conj Hrs eq_refl) HN) as [Hm|Hm].
  - assert (N <> 0) as HN0 by (clear - Hm; mask_tac). destruct (sc_preserved _ _ _ _ Hsc HN0) as [HON [sj ->]]. assert (O <> 0) as HO0 by (clear - HON; mask_tac).
    destruct postponed as [l|]; [eexists _, _; split; [done|]; split; [done|]; right; by exists l|].
    rewrite (empty_denotes _ _ HO), (proj2 (Z.eqb_neq O 0)) by done. destruct ps; [by destruct HO0; apply Hps|]. cbn [orb].
    edestruct (place_qual_fits st1 clause jd (Some sj)) as (st' & -> & Hq'); [by rewrite Er1|apply Hq|apply HO|rewrite (proj2 HO : bms_val ojscope = O); by apply Hsc|done|done|done|].
    cbn [mbind result_bind]. eexists _, _. split; [done|]. split; [by apply (quiet_trans st st1)|by left].
  - destruct (redundant_total (jt_root st) clause Hj) as [red ->]. cbn [mbind result_bind]. destruct red; [eexists _, _; split; [done|]; split; [done|by left]|].
    edestruct (place_qual_fits st1 clause jd sjinfo) as (st' & -> & Hq'); [by rewrite Er1|apply Hq|done|done|done| |done|].
    + intros op -> Hop Hps0 Hv HV0. destruct (decide (O = 0)) as [HO0|HO0]; [by rewrite (Hvol Hps0 HV0 HO0) in Hv|].
      destruct (decide (N = 0)) as [HN0|HN0]; [by apply (qf_sides _ _ _ _ Hq op)|]. destruct (sc_preserved _ _ _ _ Hsc HN0) as [HON _]. rewrite (Hrs0 HV0 HO0) in Hm. done.
    + cbn [mbind result_bind]. eexists _, _. split; [done|]. split; [by apply (quiet_trans st st1)|by left].
Qed.
Lemma distribute_quals_fit clauses allow : Forall (qual_fits X O N) clauses -> forall st postponed, calm (jt_root st) -> joins_known (jt_root st) ->
  exists st' postponed', distribute_quals_to_rels hasLateral st clauses k sjinfo sec scope ojscope nonnullable incompatible allow hc ic postponed = Ok (st', postponed') /\
    quiet st st' /\ (forall l', postponed' = Some l' -> exists l l1, postponed = Some l /\ l' = l ++ l1 /\ (forall c, c ∈ l1 -> c ∈ clauses)) /\ (postponed = None -> postponed' = None).
Proof.
  induction 1 as [|clause clauses Hq _ IH]; intros st postponed Hcalm Hj.
  - eexists _, _. split; [done|]. split; [by apply quiet_refl|]. split; [|done]. intros l' ->. exists l', []. rewrite app_nil_r. split_and!; [done|done|]. by intros c ?%not_elem_of_nil.
  - cbn [distribute_quals_to_rels]. destruct (distribute_qual_fits st clause allow postponed Hcalm Hj Hq) as (st1 & post1 & -> & Hq1 & Hpost1). cbn [mbind result_bind].
    destruct (IH st1 post1) as (st2 & post2 & -> & Hq2 & Hpost2 & Hnone); [apply Hq1|unfold joins_known; rewrite (qt_joins _ _ Hq1); done|].
    eexists _, _. split; [done|]. split; [by apply (quiet_trans st st1)|]. split.
    + intros l' Hl'. destruct (Hpost2 l' Hl') as (l & l1 & -> & -> & Hin). destruct Hpost1 as [E|(l0 & E1 & [= ->])].
      * exists l, l1. split_and!; [done|done|]. intros c Hc. right. by apply Hin.
      * exists l0, (clause :: l1). split_and!; [done|by rewrite <- app_assoc|]. intros c [->|Hc]%elem_of_cons; [by left|right; by apply Hin].
    + intros ->. apply Hnone. destruct Hpost1 as [|(l0 & ? & _)]; done.
Qed.
End Scopes.
End Outer.

(** ** Clauses of outer joins *)

(** What is relied on: [find_nonnullable_rels] reports relations that the clauses mention; adding nulling relations to the variables of some relations, or removing
    them, changes nothing else; a removed relation remains only where a placeholder refers to it, or a variable belongs to it. *)
Class OuterLaws (Expr : Type) `{!ExprOps Expr} `{!OpFamilies Expr} `{!QualOps Expr} `{!OuterOps Expr} := {
  has_variable_of : ClauseNode (Expr := Expr) -> Z -> Prop;
  ol_strict (clauses : list (ClauseNode (Expr := Expr))) :
    bms_wf (find_nonnullable_rels clauses) /\ within (bms_val (find_nonnullable_rels clauses)) (bms_val (clauses_varnos clauses));
  ol_remove rels (clause : ClauseNode (Expr := Expr)) : let clause' := map_clause (remove_nulling_relids rels) clause in
    within (bms_val (clause_varnos clause')) (bms_val (clause_varnos clause)) /\
    within (Z.ldiff (bms_val (clause_varnos clause)) (bms_val rels)) (bms_val (clause_varnos clause'));
  ol_removed rels (clauses : list (ClauseNode (Expr := Expr))) clause b : clause ∈ clauses -> 0 <= b -> Z.testbit (bms_val rels) b = true ->
    ~ has_variable_of clause b -> contain_placeholder_references_to clauses b = false ->
    Z.testbit (bms_val (clause_varnos (map_clause (remove_nulling_relids rels) clause))) b = false;
  ol_add target added (clause : ClauseNode (Expr := Expr)) : let clause' := map_clause (add_nulling_relids target added) clause in
    within (bms_val (clause_varnos clause)) (bms_val (clause_varnos clause')) /\
    within (bms_val (clause_varnos clause')) (Z.lor (bms_val (clause_varnos clause)) (bms_val added)) /\
    (~ meets (bms_val (clause_varnos clause)) (bms_val target) -> bms_val (clause_varnos clause') = bms_val (clause_varnos clause));
  ol_where rels target added (e : Expr) : where_expr e -> where_expr (remove_nulling_relids rels e) /\ where_expr (add_nulling_relids target added e)
}.
Section Laws.
Context {Expr : Type} `{!ExprOps Expr} `{!OpFamilies Expr} `{!QualOps Expr} `{!QualLaws Expr} `{!OuterOps Expr} `{!OuterLaws Expr}.
#[local] Abbreviation Clause := (ClauseNode (Expr := Expr)).
Implicit Types (clause : Clause) (clauses : list Clause).

Lemma clauses_varnos_spec clauses : bms_wf (clauses_varnos clauses) /\
  forall b, 0 <= b -> Z.testbit (bms_val (clauses_varnos clauses)) b = true <-> exists clause, clause ∈ clauses /\ Z.testbit (bms_val (clause_varnos clause)) b = true.
Proof.
  unfold clauses_varnos. assert (forall acc x, denotes acc x ->
    let r := fold_left (fun varnos clause => bms_add_members varnos (clause_varnos clause)) clauses acc in bms_wf r /\
    forall b, 0 <= b -> Z.testbit (bms_val r) b = true <-> Z.testbit x b = true \/ exists clause, clause ∈ clauses /\ Z.testbit (bms_val (clause_varnos clause)) b = true) as H.
  { induction clauses as [|clause clauses IH]; intros acc x Hx; cbn.
    - destruct Hx as [W <-]. split; [done|]. intros b Hb. split; [by left|]. intros [H|(clause & ?%not_elem_of_nil & _)]; done.
    - destruct (IH (bms_add_members acc (clause_varnos clause)) (Z.lor x (bms_val (clause_varnos clause)))) as [W H];
        [apply denotes_add_members; [done|split; [apply clause_varnos_wf|done]]|].
      split; [done|]. intros b Hb. rewrite (H b Hb), testbit_lor. setoid_rewrite elem_of_cons. naive_solver. }
  destruct (H None 0 denotes_none) as [W Hb]. split; [done|]. intros b Hb0. rewrite (Hb b Hb0), testbit_0. tauto.
Qed.
Lemma clause_within_varnos clauses clause : clause ∈ clauses -> within (bms_val (clause_varnos clause)) (bms_val (clauses_varnos clauses)).
Proof. intros Hin. apply within_bits. intros b Hb Ht. apply clauses_varnos_spec; [done|]. by exists clause. Qed.
Lemma clauses_within clauses x : (forall clause, clause ∈ clauses -> within (bms_val (clause_varnos clause)) x) -> within (bms_val (clauses_varnos clauses)) x.
Proof.
  intros H. apply within_bits. intros b Hb (clause & Hin & Ht)%clauses_varnos_spec; [|done]. by apply (within_bit _ _ b (H clause Hin) Hb).
Qed.
Lemma where_map f clause : (forall e, where_expr e -> where_expr (f e)) -> where_clause clause -> where_clause (map_clause f clause).
Proof. intros Hf Hw op. destruct clause as [op'|e]; [|done]. intros [= <-]. cbn. destruct (Hw op' eq_refl). auto. Qed.
End Laws.
