(* ===== verification/OuterTree.v ===== *)
(** * The special joins of a query

    The second scan of the join tree makes a special join for every outer join and semijoin, in postorder.  Nothing fails: quals find their place,
    the postponed quals of left joins too, and the assertions of [make_outerjoininfo] and [deconstruct_distribute_oj_quals] hold. *)
From stdpp Require Import gmap sorting.
From S2P Require Import Prelude BitUtils Bitmapset BitmapsetSpec BitmapsetIter EquivClass EquivClassProps PathKeys JoinRoot JoinRels JoinLinks JoinLegal RelSets ImpliedEq Quals QueryQuals OuterJoin JoinTree QueryTree SpecialJoins OuterQuals.
#[local] Open Scope Z_scope.

(** ** Masks of disjoint lists *)
Lemma bits_apart l1 l2 : Forall (fun v => 0 < v) (l1 ++ l2) -> NoDup (l1 ++ l2) -> ~ meets (bits l1) (bits l2).
Proof.
  intros [H1 H2]%Forall_app (_ & Hd & _)%NoDup_app (b & Hb & Hb1 & Hb2)%meets_bits. apply bits_spec in Hb1, Hb2; try done. by destruct (Hd b).
Qed.

Section Info.
Context {Expr : Type}.
#[local] Abbreviation Node := (JoinNode Expr).
Implicit Types (node : Node) (nodes : list Node) (s : SpecialJoinInfo) (L : list SpecialJoinInfo).

(** ** Disjoint parts of the join tree *)
Definition names node : list Z := tables node ++ outer_joins node.
Definition forest_names nodes : list Z := forest_tables nodes ++ forest_joins nodes.
Lemma forest_names_cons node nodes : forest_names (node :: nodes) ≡ₚ names node ++ forest_names nodes.
Proof. unfold forest_names, names, forest_tables, forest_joins. cbn. solve_Permutation. Qed.
Lemma names_join t a b v quals : names (JoinExpr t a b v quals) ≡ₚ (names a ++ names b) ++ oj_index t v.
Proof. unfold names. cbn. solve_Permutation. Qed.
Lemma names_from l quals : names (FromExpr l quals) = forest_names l.
Proof.
  unfold names, forest_names, forest_tables, forest_joins. cbn. f_equal; induction l as [|n l IH]; [done| |done|]; cbn; by rewrite IH.
Qed.
(** Every table and every outer join has its own number. *)
Record apart_names (l : list Z) : Prop := { an_pos : Forall (fun v => 0 < v) l; an_nodup : NoDup l }.
#[global] Instance apart_names_proper : Proper ((≡ₚ) ==> iff) apart_names.
Proof. intros l1 l2 E. split; intros [H1 H2]; split; [by rewrite <- E|by rewrite <- E|by rewrite E|by rewrite E]. Qed.
Lemma apart_names_app l1 l2 : apart_names (l1 ++ l2) -> apart_names l1 /\ apart_names l2 /\ ~ meets (bits l1) (bits l2).
Proof.
  intros [H1 H2]. pose proof (bits_apart l1 l2 H1 H2). apply Forall_app in H1 as [? ?]. apply NoDup_app in H2 as (? & _ & ?). by repeat split.
Qed.
Lemma apart_join t a b v quals : apart_names (names (JoinExpr t a b v quals)) -> apart_names (names a) /\ apart_names (names b) /\
  ~ meets (node_bits a) (node_bits b) /\ ~ meets (Z.lor (node_bits a) (node_bits b)) (bits (oj_index t v)).
Proof.
  rewrite names_join. intros (Hab & _ & Hv)%apart_names_app. destruct (apart_names_app _ _ Hab) as (Ha & Hb & Hd). split; [done|]. split; [done|]. split; [done|].
  by rewrite bits_app in Hv.
Qed.
Lemma apart_tables node : apart_names (names node) -> ~ meets (bits (tables node)) (bits (outer_joins node)).
Proof. by intros (_ & _ & H)%apart_names_app. Qed.

(** ** The special joins of a node *)
Definition oj_node (t : JoinType) (a b : Node) (v : Z) s : Prop :=
  special s /\ jointype s = t /\ ojrelid s = v /\ syn_l s = node_bits a /\ syn_r s = node_bits b.
(** For the join of [a] and [b], whose special joins are [Lb]: tables that inner joins in [b] hold together are needed on the right, and joins in [b] stay there or may
    trade places. *)
Record oj_made (t : JoinType) (a b : Node) (v : Z) (Lb : list SpecialJoinInfo) s : Prop := {
  om_node : oj_node t a b v s;
  om_inner : within (Z.land (inner_bits b) (bits (tables b))) (rhs s);
  om_nested : Forall (nested t (rhs s)) Lb
}.
Fixpoint info node L : Prop :=
  match node with
  | TableRef _ => L = []
  | FromExpr l _ => (fix go l L := match l with [] => L = [] | n :: l => exists L1 L2, L = L1 ++ L2 /\ info n L1 /\ go l L2 end) l L
  | JoinExpr t a b v _ => exists La Lb own, L = La ++ Lb ++ own /\ info a La /\ info b Lb /\
      if bool_decide (t = JOIN_INNER) then own = [] else exists s, own = [s] /\ oj_made t a b v Lb s
  end.
Fixpoint forest_info nodes L : Prop :=
  match nodes with
  | [] => L = []
  | n :: nodes => exists L1 L2, L = L1 ++ L2 /\ info n L1 /\ forest_info nodes L2
  end.
Lemma info_from l quals L : info (FromExpr l quals) L <-> forest_info l L.
Proof.
  cbn. revert L. induction l as [|n l IH]; intros L; [done|]. cbn. split; intros (L1 & L2 & H1 & H2 & H3); exists L1, L2; split_and!; try done; by apply IH.
Qed.
(** A special join keeps all but what it learns about joins above it. *)
Definition same_special s s' : Prop := same_join s s' /\ special s'.
Lemma nested_same t r s s' : same_special s s' -> nested t r s -> nested t r s'.
Proof.
  intros [[(_ & _ & E1 & E2) (E3 & _ & E4) _ _] _]. unfold nested, syn_l, syn_r. by rewrite E1, E2, E3, E4.
Qed.
Lemma oj_node_same t a b v s s' : same_special s s' -> oj_node t a b v s -> oj_node t a b v s'.
Proof.
  intros [[(E0 & E0' & E1 & E2) (E3 & E4 & E5) E6 E7] Hs'] (_ & H1 & H2 & H3 & H4). split; [done|]. unfold syn_l, syn_r in *. rewrite E1, E2, E3, E4. done.
Qed.
Lemma info_same node : forall L L', Forall2 same_special L L' -> info node L -> info node L'.
Proof.
  induction node as [v|l quals IH|t a b v quals IHa IHb] using node_ind; intros L L' H2.
  - cbn. intros ->. by inversion H2.
  - rewrite !info_from. clear quals. revert L L' H2. induction IH as [|n l Hn _ IHl]; intros L L' H2; cbn; [intros ->; by inversion H2|].
    intros (L1 & L2 & -> & H3 & H4). apply Forall2_app_inv_l in H2 as (L1' & L2' & F1 & F2 & ->). exists L1', L2'. split_and!; [done|by apply (Hn L1)|by apply (IHl L2)].
  - cbn. intros (La & Lb & own & -> & Ha & Hb & Hown). apply Forall2_app_inv_l in H2 as (La' & L2' & F1 & F2 & ->).
    apply Forall2_app_inv_l in F2 as (Lb' & own' & F2 & F3 & ->). exists La', Lb', own'. split_and!; [done|by apply (IHa La)|by apply (IHb Lb)|].
    destruct (bool_decide _); [subst own; by inversion F3|]. destruct Hown as (s & -> & [Hn Hi Hne]). inversion F3 as [|? s' ? l' Hs Hl]; subst. inversion Hl; subst.
    exists s'. split; [done|]. split; [by apply (oj_node_same t a b _ s)| |].
    + destruct Hs as [[(_ & E & _ & _) _ _ _] _]. unfold rhs. by rewrite E.
    + assert (rhs s' = rhs s) as -> by (destruct Hs as [[(_ & E & _ & _) _ _ _] _]; unfold rhs; by rewrite E).
      clear - F2 Hne. induction F2; [constructor|]. apply Forall_cons in Hne as [? ?]. constructor; [by eapply nested_same|auto].
Qed.
End Info.

Section Within.
Context {Expr : Type}.
#[local] Abbreviation Node := (JoinNode Expr).
Implicit Types (node : Node) (nodes : list Node) (s : SpecialJoinInfo) (L : list SpecialJoinInfo).

Lemma node_bits_names node : node_bits node = bits (names node).
Proof. done. Qed.
Lemma node_bits_from (l : list Node) quals : node_bits (FromExpr l quals) = forest_bits l.
Proof. unfold node_bits. fold (names (FromExpr l quals)). by rewrite names_from. Qed.
Lemma oj_whole t (a b : Node) v s quals : sound_node (JoinExpr t a b v quals) -> t <> JOIN_INNER -> oj_node t a b v s -> whole s = node_bits (JoinExpr t a b v quals).
Proof.
  intros Hs Ht (_ & Et & Ev & El & Er). rewrite node_bits_join. unfold whole. rewrite El, Er, Ev. f_equal. cbn in Hs. unfold oj_bits.
  destruct t; try done; cbn; destruct (Z.eqb_spec v 0); rewrite ?bits_one; try done; lia.
Qed.
Definition belongs node s : Prop := special s /\ within (whole s) (node_bits node).
Lemma info_belongs node : tree_all sound_node node -> forall L, info node L -> Forall (belongs node) L.
Proof.
  induction node as [v|l quals IH|t a b v quals IHa IHb] using node_ind; intros Hall L.
  - intros ->. constructor.
  - rewrite info_from. unfold belongs. rewrite node_bits_from. apply tree_all_children in Hall. cbn [children] in Hall. clear quals. revert L.
    induction IH as [|n l Hn _ IHl]; intros L; cbn [forest_info]; [intros ->; constructor|].
    intros (L1 & L2 & -> & H1 & H2). apply Forall_cons in Hall as [Ha1 Ha2]. rewrite (forest_bits_app [n] l : forest_bits (n :: l) = _), forest_bits_one. apply Forall_app. split.
    + eapply Forall_impl; [by apply (Hn Ha1 L1)|]. intros s [Hs Hw]. split; [done|]. by apply within_lor_r1.
    + eapply Forall_impl; [by apply (IHl Ha2 L2)|]. intros s [Hs Hw]. split; [done|]. by apply within_lor_r2.
  - destruct Hall as (Hs & Hall1 & Hall2). intros (La & Lb & own & -> & Ha & Hb & Hown). unfold belongs. rewrite node_bits_join. rewrite !Forall_app. split; [|split].
    + eapply Forall_impl; [by apply (IHa Hall1 La)|]. intros s [? Hw]. split; [done|]. by apply within_lor_r1, within_lor_r1.
    + eapply Forall_impl; [by apply (IHb Hall2 Lb)|]. intros s [? Hw]. split; [done|]. by apply within_lor_r1, within_lor_r2.
    + case_bool_decide as Et; [subst own; constructor|]. destruct Hown as (s & -> & [Hn _ _]). apply Forall_singleton. split; [apply Hn|].
      rewrite (oj_whole t a b v s quals), node_bits_join by done. apply within_refl.
Qed.
Lemma sorted_join L1 L2 x : StronglySorted later L1 -> StronglySorted later L2 -> Forall (fun s => ~ meets (whole s) x) L1 -> Forall (fun s => within (oj_bits (ojrelid s)) x) L2 ->
  StronglySorted later (L1 ++ L2).
Proof.
  intros H1 H2 F1 F2. apply StronglySorted_app_2; [|done|done]. intros s s' Hs Hs'. rewrite Forall_forall in F1, F2. specialize (F1 s Hs). specialize (F2 s' Hs').
  unfold later. clear - F1 F2. mask_tac.
Qed.
End Within.

(** ** Items and joins *)
Section Scan.
Context {Expr : Type} `{!ExprOps Expr} `{!OpFamilies Expr} `{!QualOps Expr} `{!QualLaws Expr} `{!OuterOps Expr} `{!OuterLaws Expr} (g : JTQuery Expr).
#[local] Abbreviation Clause := (ClauseNode (Expr := Expr)).
#[local] Abbreviation State := (JTRoot Expr).
#[local] Abbreviation Item := (JoinTreeItem Expr).
#[local] Abbreviation Node := (JoinNode Expr).
#[local] Abbreviation varnos clause := (bms_val (clause_varnos clause)).
Implicit Types (st : State) (node : Node) (clause : Clause) (k : nat) (s : SpecialJoinInfo) (L : list SpecialJoinInfo).

(** The relations that the quals of a node may mention *)
Definition qual_scope node : Z := match node with JoinExpr _ a b _ _ => Z.lor (node_bits a) (node_bits b) | _ => node_bits node end.
(** An expression that mentions an outer join mentions a relation that this join can null. *)
Definition nulled (x : Z) node : Prop :=
  match node with
  | JoinExpr t a b v _ =>
      Z.testbit x v = true -> match t with JOIN_LEFT | JOIN_ANTI => meets x (node_bits b) | JOIN_FULL => meets x (Z.lor (node_bits a) (node_bits b)) | _ => True end
  | _ => True
  end.
(** What the parser, the rewriter and earlier phases guarantee of a node; no variable belongs to an outer join; row marks are not on the nullable side of one. *)
Record outer_node node : Prop := {
  on_sound : sound_node node;
  on_scope clause : clause ∈ own_quals g node -> within (varnos clause) (qual_scope node);
  on_nulled clause : clause ∈ own_quals g node -> tree_all (nulled (varnos clause)) node;
  on_table clause : clause ∈ own_quals g node -> varnos clause <> 0 -> meets (varnos clause) (bits (tables node));
  on_where clause : clause ∈ own_quals g node -> where_clause clause;
  on_variables clause b : clause ∈ own_quals g node -> b ∈ outer_joins node -> ~ has_variable_of clause b;
  on_security v : node = TableRef v -> 0 < qual_security_level g -> Z.of_nat (length (securityQuals g v)) <= qual_security_level g;
  on_sides v op : node = TableRef v -> OpClause op ∈ own_quals g node -> clause_volatile (OpClause op) = false -> varnos (OpClause op) = 0 -> ~ same_sides op;
  on_marks t a b v quals rc : node = JoinExpr t a b v quals -> t <> JOIN_INNER -> rc ∈ rowMarks g ->
    0 <= rm_rti rc /\ Z.testbit (node_bits b) (rm_rti rc) = false /\ (t = JOIN_FULL -> Z.testbit (node_bits a) (rm_rti rc) = false)
}.

(** [st1] is the state after the first scan of [tree]. *)
Context (tree : Node) (st1 : State).
#[local] Abbreviation T := (bits (tables tree)).
#[local] Abbreviation J := (bits (outer_joins tree)).
#[local] Abbreviation node_of k := (jtnode (get_item st1 k)).
#[local] Abbreviation joins st := (im_join_info (jt_root st)).
Definition index_of (ks : list nat) : list Z := concat ((fun k => own_index (node_of k)) <$> ks).
Definition with_join (item : Item) (p : option nat) (l : list Clause) : Item :=
  {| jtnode := jtnode item; jdomain := jdomain item; jti_parent := jti_parent item; qualscope := qualscope item; inner_join_rels := inner_join_rels item;
     left_rels := left_rels item; right_rels := right_rels item; nonnullable_rels := nonnullable_rels item; jti_sjinfo := p;
     oj_joinclauses := l; lateral_clauses := lateral_clauses item |}.

(** A postponed qual of the left join [s] *)
Record postponed_ok (quals : list Clause) s clause : Prop := {
  po_qual : clause ∈ quals;
  po_left : jointype s = JOIN_LEFT /\ lhs_strict s = true;
  po_scope : within (varnos clause) (Z.lor (Z.lor (lhs s) (rhs s)) (below_l s));
  po_safe b : 0 <= b -> Z.testbit (below_l s) b = true -> contain_placeholder_references_to quals b = false
}.
Definition item_done L k (p : option nat) (l : list Clause) : Prop :=
  match node_of k with
  | JoinExpr t a b v quals =>
      if bool_decide (t = JOIN_INNER) then p = None /\ l = []
      else exists i s, p = Some (S i) /\ L !! i = Some s /\ oj_node t a b v s /\ forall c, c ∈ l -> postponed_ok quals s c
  | _ => p = None /\ l = []
  end.
Record scan_inv st (visited : list nat) : Prop := {
  si_calm : calm T J (jt_root st);
  si_length : length (jt_items st) = length (jt_items st1);
  si_todo k : k ∉ visited -> get_item st k = get_item st1 k;
  si_done k : k ∈ visited -> exists p l, get_item st k = with_join (get_item st1 k) p l /\ item_done (joins st) k p l;
  si_special : Forall special (joins st);
  si_sorted : StronglySorted later (joins st);
  si_owner s : s ∈ joins st -> exists k t a b v quals, k ∈ visited /\ node_of k = JoinExpr t a b v quals /\ t <> JOIN_INNER /\ oj_node t a b v s;
  si_order l1 k l2 i s : visited = l1 ++ k :: l2 -> jti_sjinfo (get_item st k) = Some (S i) -> joins st !! i = Some s ->
    (forall b, 0 <= b -> Z.testbit (below_l s) b = true -> b ∈ index_of l1) /\ (forall b, 0 <= b -> Z.testbit (above_r s) b = true -> b ∈ index_of l2)
}.
Lemma inv_known st visited : scan_inv st visited -> joins_known (jt_root st).
Proof. intros H. eapply Forall_impl; [apply (si_special _ _ H)|]. intros s Hs. apply Hs. Qed.
Lemma index_of_app l1 l2 : index_of (l1 ++ l2) = index_of l1 ++ index_of l2.
Proof. unfold index_of. by rewrite fmap_app, concat_app. Qed.
Lemma index_of_in x ks : x ∈ index_of ks <-> exists k, k ∈ ks /\ x ∈ own_index (node_of k).
Proof.
  induction ks as [|k ks IH]; [unfold index_of; cbn; setoid_rewrite elem_of_nil; naive_solver|]. change (index_of (k :: ks)) with (own_index (node_of k) ++ index_of ks).
  rewrite elem_of_app, IH. setoid_rewrite elem_of_cons. naive_solver.
Qed.
(** A node without a special join has been visited. *)
Definition plain_node node : Prop := match node with JoinExpr t _ _ _ _ => t = JOIN_INNER | _ => True end.
Lemma inv_plain st st' visited k : scan_inv st visited -> quiet T J st st' -> k ∉ visited -> plain_node (node_of k) ->
  jti_sjinfo (get_item st1 k) = None -> oj_joinclauses (get_item st1 k) = [] -> scan_inv st' (visited ++ [k]).
Proof.
  intros [H1 H2 H3 H4 H5 H6 H7 H8] [Qc Qi Qj] Hk Hp E1 E2. assert (forall j, get_item st' j = get_item st j) as Eg by (intros; unfold get_item; by rewrite Qi).
  split; rewrite ?Qj; try done.
  - by rewrite Qi.
  - intros j Hj. rewrite Eg. apply H3. intros Hv. apply Hj, elem_of_app. by left.
  - intros j [Hj|Hj%list_elem_of_singleton]%elem_of_app; rewrite Eg; [by apply H4|]. subst j. exists None, []. split.
    + rewrite (H3 k Hk). destruct (get_item st1 k). cbn in *. by subst.
    + unfold item_done. destruct (node_of k); try done. cbn in Hp. by rewrite bool_decide_true.
  - intros s Hs. destruct (H7 s Hs) as (k' & t & a & b & v & quals & Hk' & ?). exists k', t, a, b, v, quals. rewrite elem_of_app. naive_solver.
  - intros l1 k' l2 i s E Hj Hs. rewrite Eg in Hj. destruct (decide (k' = k)) as [->|Hne].
    + rewrite (H3 k Hk) in Hj. congruence.
    + destruct l2 as [|x l2 _] using rev_ind; [apply app_inj_tail in E as [_ <-]; done|].
      rewrite app_comm_cons, app_assoc in E. apply app_inj_tail in E as [E <-]. destruct (H8 l1 k' l2 i s E Hj Hs) as [Hb Ha]. split; [done|].
      intros b Hb0 Ht. rewrite index_of_app, elem_of_app. left. by apply Ha.
Qed.

(** A special join has been added. *)
Lemma learned_same v s s' : learned v s s' -> same_special s s'.
Proof. intros (H1 & H2 & _). by split. Qed.
Lemma postponed_same quals s s' c : same_special s s' -> postponed_ok quals s c -> postponed_ok quals s' c.
Proof.
  intros [[(E1 & E2 & _ & _) (E3 & _ & E4) (E5 & _) _] _] [H1 H2 H3 H4]. split; unfold lhs, rhs, below_l in *; rewrite ?E1, ?E2, ?E3, ?E4, ?E5; done.
Qed.
Lemma item_done_same v L L' s k p l : Forall2 (learned v) L L' -> item_done L k p l -> item_done (L' ++ [s]) k p l.
Proof.
  intros HL. unfold item_done. destruct (node_of k) as [| |t a b w quals]; try done. destruct (bool_decide _); [done|]. intros (i & s0 & Hp & Hi & Hn & Hl).
  destruct (Forall2_lookup_l _ _ _ _ _ HL Hi) as (s1 & Hi1 & Hs1%learned_same). exists i, s1. split; [done|]. split; [by apply lookup_app_l_Some|].
  split; [by apply (oj_node_same t a b w s0)|]. intros c Hc. by apply (postponed_same _ s0), Hl.
Qed.
Lemma own_index_bit t (a b : Node) v quals x : sound_node (JoinExpr t a b v quals) -> t <> JOIN_INNER -> 0 <= x -> Z.testbit (oj_bits v) x = true -> x ∈ oj_index t v.
Proof.
  intros Hs Ht Hx. unfold oj_bits. cbn in Hs. assert (0 <= v) as Hv by (destruct t; try done; lia). destruct (Z.eqb_spec v 0) as [|Hne]; [by rewrite testbit_0|].
  rewrite Z.pow2_bits_eqb, Z.eqb_eq by done. intros <-. destruct t; try done; cbn; rewrite ?(proj2 (Z.eqb_neq v 0)) by done; by left.
Qed.
Lemma inv_join st st' visited k t a b v quals L' s l : scan_inv st visited -> k ∉ visited -> (k < length (jt_items st1))%nat ->
  node_of k = JoinExpr t a b v quals -> sound_node (node_of k) -> t <> JOIN_INNER -> Forall2 (learned v) (joins st) L' -> oj_node t a b v s -> above_r s = 0 ->
  (forall x, 0 <= x -> Z.testbit (below_l s) x = true -> exists o, o ∈ joins st /\ ojrelid o = x /\ jointype o = JOIN_LEFT) ->
  StronglySorted later (L' ++ [s]) -> (forall c, c ∈ l -> postponed_ok quals s c) ->
  calm T J (jt_root st') -> joins st' = L' ++ [s] -> jt_items st' = <[k := with_join (get_item st1 k) (Some (S (length (joins st)))) l]> (jt_items st) ->
  scan_inv st' (visited ++ [k]).
Proof.
  intros [H1 H2 H3 H4 H5 H6 H7 H8] Hk Hlt Hnode Hsound Ht HL Hs Habove Hbelow Hsort Hl Hcalm Ej Ei. pose proof (Forall2_length _ _ _ HL) as Hlen.
  assert (forall j, get_item st' j = if decide (j = k) then with_join (get_item st1 k) (Some (S (length (joins st)))) l else get_item st j) as Eg.
  { intros j. destruct (decide (j = k)) as [->|Hne]; unfold get_item at 1; rewrite Ei, nth_lookup.
    - rewrite list_lookup_insert_eq; [done|by rewrite H2].
    - rewrite list_lookup_insert_ne by done. unfold get_item. by rewrite nth_lookup. }
  split; rewrite ?Ej; try done.
  - by rewrite Ei, length_insert.
  - intros j Hj. rewrite not_elem_of_app, list_elem_of_singleton in Hj. destruct Hj as [Hj1 Hj2]. rewrite Eg, decide_False by done. by apply H3.
  - intros j [Hj|Hj%list_elem_of_singleton]%elem_of_app; rewrite Eg.
    + rewrite decide_False by (by intros ->). destruct (H4 j Hj) as (p & l0 & E & Hd). exists p, l0. split; [done|]. by apply (item_done_same v (joins st)).
    + subst j. rewrite decide_True by done. eexists _, _. split; [done|]. unfold item_done. rewrite Hnode, bool_decide_false by done. exists (length (joins st)), s. split; [done|].
      split; [|done]. rewrite Hlen. by apply list_lookup_middle.
  - apply Forall_app. split; [|apply Forall_singleton; apply Hs]. clear - HL. induction HL as [|s0 s1 ? ? (_ & ? & _)]; by constructor.
  - intros s0 [Hs0|Hs0%list_elem_of_singleton]%elem_of_app.
    + apply list_elem_of_lookup in Hs0 as [i Hi]. destruct (Forall2_lookup_r _ _ _ _ _ HL Hi) as (s1 & Hi1 & Hs1%learned_same).
      destruct (H7 s1) as (k' & t' & a' & b' & v' & quals' & Hk' & Hn & Ht' & Ho); [by apply list_elem_of_lookup_2 in Hi1|].
      exists k', t', a', b', v', quals'. rewrite elem_of_app. split_and!; [by left|done|done|by apply (oj_node_same t' a' b' v' s1)].
    + subst s0. exists k, t, a, b, v, quals. rewrite elem_of_app, list_elem_of_singleton. naive_solver.
  - intros l1 k' l2 i s0 E Hp Hi. rewrite Eg in Hp. destruct l2 as [|x l2 _] using rev_ind.
    + apply app_inj_tail in E as [-> <-]. rewrite decide_True in Hp by done. cbn in Hp. injection Hp as <-. rewrite Hlen, list_lookup_middle in Hi by done. injection Hi as <-.
      split; [|intros y _; by rewrite Habove, testbit_0]. intros y Hy Hb. destruct (Hbelow y Hy Hb) as (o & Ho & Eo & Hol).
      destruct (H7 o Ho) as (k' & t' & a' & b' & v' & quals' & Hk' & Hn & _ & (Hsp & Et & Ev & _)).
      apply index_of_in. exists k'. split; [done|].
      rewrite Hn. cbn. assert (t' = JOIN_LEFT) as -> by congruence. pose proof (sp_type _ Hsp) as Hpos. rewrite Hol in Hpos. cbn.
      rewrite (proj2 (Z.eqb_neq v' 0)) by lia. assert (y = v') as -> by congruence. by left.
    + rewrite app_comm_cons, app_assoc in E. apply app_inj_tail in E as [E <-]. assert (k' <> k) as Hne by (intros ->; apply Hk; rewrite E; apply elem_of_app; right; by left).
      rewrite decide_False in Hp by done. assert (exists s1, joins st !! i = Some s1 /\ learned v s1 s0) as (s1 & Hi1 & Hs1).
      { assert (k' ∈ visited) as Hk' by (rewrite E; apply elem_of_app; right; by left). destruct (H4 k' Hk') as (p & l0 & E' & Hd). rewrite E' in Hp. cbn in Hp. subst p.
        unfold item_done in Hd. destruct (node_of k') as [| |t' a' b' v' quals']; [by destruct Hd as [? _]..|]. destruct (bool_decide _); [by destruct Hd as [? _]|].
        destruct Hd as (i' & s1 & [= <-] & Hi1 & _). exists s1. split; [done|]. destruct (Forall2_lookup_l _ _ _ _ _ HL Hi1) as (s2 & Hi2 & Hs2).
        rewrite (lookup_app_l_Some _ _ _ _ Hi2) in Hi. by injection Hi as <-. }
      destruct (H8 l1 k' l2 i s1 E Hp Hi1) as [Hb Ha]. destruct Hs1 as ([_ _ (Eb & _) _] & _ & Hab). split.
      * intros y Hy. unfold below_l. rewrite Eb. by apply Hb.
      * intros y Hy Ht'. rewrite index_of_app, elem_of_app. apply (within_bit _ _ y Hab Hy) in Ht'. apply testbit_lor in Ht' as [Ht'|Ht']; [left; by apply Ha|right].
        apply index_of_in. exists k. split; [by left|]. rewrite Hnode in Hsound |- *. cbn [own_index]. by apply (own_index_bit t a b v quals).
Qed.

(** ** Visiting an item *)

(** What the first scan has made of a node of [tree] *)
Record site k : Prop := {
  sk_item : item_ok outer_node (get_item st1 k);
  sk_bound : (k < length (jt_items st1))%nat;
  sk_tables : tables (node_of k) ⊆ tables tree;
  sk_joins : outer_joins (node_of k) ⊆ outer_joins tree;
  sk_apart : apart_names (names (node_of k))
}.
Context (Hpos : Forall (fun v => 0 < v) (tables tree ++ outer_joins tree)).
Lemma outer_sound node : outer_node node -> sound_node node.
Proof. apply on_sound. Qed.
Lemma bits_sub l l' : Forall (fun v => 0 < v) l' -> l ⊆ l' -> within (bits l) (bits l').
Proof.
  intros Hp Hs. apply within_bits. intros b Hb Ht. apply bits_spec; [done..|]. apply Hs. apply bits_spec; [|done..]. apply Forall_forall. intros v Hv.
  rewrite Forall_forall in Hp. by apply Hp, Hs.
Qed.
Lemma node_known node : tree_all outer_node node -> tables node ⊆ tables tree -> outer_joins node ⊆ outer_joins tree ->
  within (bits (tables node)) T /\ within (node_bits node) (Z.lor T J) /\ meets (node_bits node) T.
Proof.
  intros Hall Ht Hj. apply Forall_app in Hpos as [Hp1 Hp2]. pose proof (bits_sub _ _ Hp1 Ht) as H1. pose proof (bits_sub _ _ Hp2 Hj) as H2. split; [done|].
  unfold node_bits. rewrite bits_app. split; [by apply within_lor_mono|].
  destruct (nodes_pos outer_node outer_sound node Hall) as [Hne [Hp _]%Forall_app]. destruct (tables node) as [|v l] eqn:E; [done|]. rewrite <- E in *.
  assert (v ∈ tables node) as Hv by (rewrite E; by left). assert (0 < v) by (rewrite Forall_forall in Hp; by apply Hp).
  assert (Z.testbit (bits (tables node)) v = true) as Hb by (apply bits_spec; [done|lia|done]). apply meets_bits. exists v. split; [lia|]. split; [rewrite testbit_lor; by left|].
  apply (within_bit _ _ v H1); [lia|done].
Qed.
Lemma site_known k : site k -> within (bits (tables (node_of k))) T /\ within (node_bits (node_of k)) (Z.lor T J) /\ meets (node_bits (node_of k)) T.
Proof. intros [Hi _ Ht Hj _]. apply node_known; [apply (it_tree _ _ Hi)|done..]. Qed.
Lemma site_fit k : site k -> fit T J (node_bits (node_of k)).
Proof. intros (_ & ? & ?)%site_known. by apply fit_table. Qed.
Lemma site_node k : site k -> outer_node (node_of k).
Proof. intros Hs. apply (tree_all_node _ _ (it_tree _ _ (sk_item _ Hs))). Qed.
Lemma scope_within node : within (qual_scope node) (node_bits node).
Proof. destruct node as [| |t a b v quals]; cbn [qual_scope]; try apply within_refl. rewrite node_bits_join. apply within_part_l. Qed.
(** The quals of a node, in the scopes of the node *)
Lemma site_qual k clause O N : site k -> clause ∈ own_quals g (node_of k) -> (O <> 0 -> within (varnos clause) O) ->
  (N = 0 -> O <> 0 -> exists v, node_of k = TableRef v) -> qual_fits T (node_bits (node_of k)) O N clause.
Proof.
  intros Hs Hc HO HN. pose proof (site_node k Hs) as Hn. split.
  - eapply within_trans; [by apply (on_scope _ Hn)|apply scope_within].
  - done.
  - by apply (on_where _ Hn).
  - intros Hne. pose proof (on_table _ Hn clause Hc Hne) as Hm. destruct (site_known k Hs) as [Hw _]. clear - Hm Hw. mask_tac.
  - intros op HN0 HO0 -> Hv Hz. destruct (HN HN0 HO0) as [v Ev]. by apply (on_sides _ Hn v).
Qed.
Lemma item_todo st visited k : scan_inv st visited -> k ∉ visited -> site k -> get_item st k = get_item st1 k /\ jti_sjinfo (get_item st1 k) = None /\
  oj_joinclauses (get_item st1 k) = [] /\ lateral_clauses (get_item st1 k) = [].
Proof. intros H Hk Hs. split; [by apply (si_todo _ _ H)|]. apply (it_fresh _ _ (sk_item _ Hs)). Qed.

Lemma visit_table st visited k v : scan_inv st visited -> k ∉ visited -> site k -> node_of k = TableRef v -> exists st', deconstruct_distribute g st k = Ok st' /\ quiet T J st st'.
Proof.
  intros Hi Hk Hs Hnode. destruct (item_todo st visited k Hi Hk Hs) as (Eit & _). unfold deconstruct_distribute. rewrite Eit, Hnode.
  pose proof (si_calm _ _ Hi) as Hc. destruct (0 <? qual_security_level g) eqn:Esec; [|exists st; split; [done|by apply quiet_refl]]. apply Z.ltb_lt in Esec.
  pose proof (on_security _ (site_node k Hs) v Hnode Esec) as Hsec. unfold process_security_barrier_quals. pose proof (it_scope _ _ (sk_item _ Hs)) as HX.
  assert (scopes T J (node_bits (node_of k)) (node_bits (node_of k)) 0 None) as Hsc by (split; [by apply site_fit|intros _; by apply site_fit|done]).
  assert (forall qs, qs ∈ securityQuals g v -> Forall (qual_fits T (node_bits (node_of k)) (node_bits (node_of k)) 0) qs) as Hq.
  { intros qs Hqs. apply Forall_forall. intros clause Hcl. assert (clause ∈ own_quals g (node_of k)) as Hown.
    { rewrite Hnode. cbn. rewrite (proj2 (Z.ltb_lt _ _) Esec). apply list_elem_of_In, in_concat. exists qs. by rewrite <- !list_elem_of_In. }
    apply site_qual; [done|done| |by intros _ _; exists v]. intros _. eapply within_trans; [by apply (on_scope _ (site_node k Hs))|apply scope_within]. }
  assert (forall qsets level st0, (forall qs, qs ∈ qsets -> qs ∈ securityQuals g v) -> level + Z.of_nat (length qsets) <= qual_security_level g -> quiet T J st st0 ->
    exists st', security_loop g st0 k qsets level = Ok st' /\ quiet T J st st') as Hloop.
  { induction qsets as [|qs qsets IH]; intros level st0 Hsub Hlen H0; cbn [security_loop].
    - rewrite (proj2 (Z.leb_le _ _)) by (cbn in Hlen; lia). by exists st0.
    - assert (get_item st0 k = get_item st1 k) as E0 by (unfold get_item; rewrite (qt_items _ _ _ _ H0); exact Eit). rewrite E0.
      destruct (distribute_quals_fit T J (jq_lateral g) k None level (qualscope (get_item st1 k)) (qualscope (get_item st1 k)) None None false false _ _ 0 HX HX denotes_none Hsc
        qs true (Hq qs (Hsub qs ltac:(by left))) st0 None) as (st2 & post & -> & Hq2 & _); [apply H0|unfold joins_known; rewrite (qt_joins _ _ _ _ H0); by eapply inv_known|].
      cbn [mbind result_bind]. apply IH; [intros; apply Hsub; by right|cbn in Hlen; lia|by apply (quiet_trans _ _ _ st0)]. }
  apply Hloop; [done|lia|by apply quiet_refl].
Qed.
Lemma visit_from st visited k l quals : scan_inv st visited -> k ∉ visited -> site k -> node_of k = FromExpr l quals ->
  exists st', deconstruct_distribute g st k = Ok st' /\ quiet T J st st'.
Proof.
  intros Hi Hk Hs Hnode. destruct (item_todo st visited k Hi Hk Hs) as (Eit & _ & _ & El). unfold deconstruct_distribute. rewrite Eit, Hnode, El. cbn [distribute_quals_to_rels mbind result_bind].
  pose proof (it_scope _ _ (sk_item _ Hs)) as HX. assert (scopes T J (node_bits (node_of k)) 0 0 None) as Hsc by (split; [by apply site_fit|done|done]).
  destruct (distribute_quals_fit T J (jq_lateral g) k None (qual_security_level g) (qualscope (get_item st1 k)) None None None false false _ 0 0 HX denotes_none denotes_none Hsc quals true)
    with (st := st) (postponed := @None (list Clause)) as (st2 & post & -> & Hq2 & _); [|apply Hi|by eapply inv_known|by exists st2].
  apply Forall_forall. intros clause Hc. apply site_qual; [done|by rewrite Hnode|done|done].
Qed.
Lemma visit_inner st visited k a b v quals : scan_inv st visited -> k ∉ visited -> site k -> node_of k = JoinExpr JOIN_INNER a b v quals ->
  exists st', deconstruct_distribute g st k = Ok st' /\ quiet T J st st'.
Proof.
  intros Hi Hk Hs Hnode. destruct (item_todo st visited k Hi Hk Hs) as (Eit & _ & _ & El). unfold deconstruct_distribute. rewrite Eit, Hnode, El. cbn [app].
  rewrite (bool_decide_true (JOIN_INNER = JOIN_INNER)) by done. cbn [mbind result_bind fmap option_fmap option_map].
  pose proof (it_scope _ _ (sk_item _ Hs)) as HX. pose proof (it_nonnullable _ _ (sk_item _ Hs)) as HN. rewrite Hnode in HN. cbn in HN.
  assert (scopes T J (node_bits (node_of k)) 0 0 None) as Hsc by (split; [by apply site_fit|done|done]).
  destruct (distribute_quals_fit T J (jq_lateral g) k None (qual_security_level g) (qualscope (get_item st1 k)) None (nonnullable_rels (get_item st1 k)) None false false _ 0 0 HX denotes_none
    HN Hsc quals true) with (st := st) (postponed := @None (list Clause)) as (st2 & post & E & Hq2 & _ & Hnone); [|apply Hi|by eapply inv_known|].
  - apply Forall_forall. intros clause Hc. apply site_qual; [done|by rewrite Hnode|done|done].
  - rewrite E. cbn [mbind result_bind]. rewrite (Hnone eq_refl). by exists st2.
Qed.

(** ** Visiting an outer join or a semijoin *)
Lemma sorted_same L L' : Forall2 same_special L L' -> StronglySorted later L -> StronglySorted later L'.
Proof.
  induction 1 as [|s s' L L' [Hs _] HL IH]; [done|]. rewrite !StronglySorted_cons. intros [H1 H2]. split; [|by apply IH].
  clear - Hs HL H1. induction HL as [|s0 s0' L L' [Hs0 _] _ IH]; [constructor|]. apply Forall_cons in H1 as [H1 H2]. constructor; [|by apply IH].
  unfold later in *. rewrite (same_join_whole _ _ Hs). destruct (sj_type _ _ Hs0) as (_ & -> & _). done.
Qed.
Lemma info_nulled x node : tree_all (nulled x) node -> forall L, info node L ->
  Forall (fun o => jointype o = JOIN_LEFT -> Z.testbit x (ojrelid o) = true -> meets x (syn_r o)) L.
Proof.
  induction node as [v|l quals IH|t a b v quals IHa IHb] using node_ind; intros Hall L.
  - intros ->. constructor.
  - rewrite info_from. apply tree_all_children in Hall. cbn [children] in Hall. clear quals. revert L. induction IH as [|n l Hn _ IHl]; intros L; cbn [forest_info]; [intros ->; constructor|].
    intros (L1 & L2 & -> & H1 & H2). apply Forall_cons in Hall as [Ha1 Ha2]. apply Forall_app. split; [by apply Hn|by apply IHl].
  - destruct Hall as (Hn & Hall1 & Hall2). intros (La & Lb & own & -> & Ha & Hb & Hown). rewrite !Forall_app. split; [by apply IHa|]. split; [by apply IHb|].
    case_bool_decide as Et; [subst own; constructor|]. destruct Hown as (s & -> & [(_ & Hj & Hv & _ & Hr) _ _]). apply Forall_singleton. intros Hl Hx.
    rewrite Hv in Hx. specialize (Hn Hx). cbn in Hn. assert (t = JOIN_LEFT) as Etl by congruence. rewrite Etl in Hn. by rewrite Hr.
Qed.
Lemma info_index node : tree_all sound_node node -> forall L, info node L -> Forall (fun o => ojrelid o <> 0 -> ojrelid o ∈ outer_joins node) L.
Proof.
  induction node as [v|l quals IH|t a b v quals IHa IHb] using node_ind; intros Hall L.
  - intros ->. constructor.
  - rewrite info_from. rewrite outer_joins_children, app_nil_r. apply tree_all_children in Hall. cbn [children] in *. clear quals. unfold forest_joins. revert L.
    induction IH as [|n l Hn _ IHl]; intros L; cbn [forest_info]; [intros ->; constructor|].
    intros (L1 & L2 & -> & H1 & H2). apply Forall_cons in Hall as [Ha1 Ha2]. cbn. apply Forall_app. split.
    + eapply Forall_impl; [by apply Hn|]. intros o Ho Hne. apply elem_of_app. auto.
    + eapply Forall_impl; [by apply IHl|]. intros o Ho Hne. apply elem_of_app. auto.
  - destruct Hall as (Hs & Hall1 & Hall2). intros (La & Lb & own & -> & Ha & Hb & Hown). cbn. rewrite !Forall_app. split; [|split].
    + eapply Forall_impl; [by apply IHa|]. intros o Ho Hne. apply elem_of_app. auto.
    + eapply Forall_impl; [by apply IHb|]. intros o Ho Hne. rewrite !elem_of_app. auto.
    + case_bool_decide as Et; [subst own; constructor|]. destruct Hown as (s & -> & [(Hsp & _ & Ev & _) _ _]). apply Forall_singleton. intros Hne. rewrite !elem_of_app. right. right.
      rewrite Ev in *. pose proof (sp_relid _ Hsp) as Hp. rewrite Ev in Hp. apply (own_index_bit t a b v quals); [done..|]. by apply oj_bits_spec.
Qed.
Section Join.
Context (st : State) (visited : list nat) (k : nat) (t : JoinType) (a b : Node) (v : Z) (quals : list Clause) (L0 La Lb : list SpecialJoinInfo).
Context (Hi : scan_inv st visited) (Hk : k ∉ visited) (Hs : site k) (Hnode : node_of k = JoinExpr t a b v quals) (Ht : t <> JOIN_INNER).
Context (HL : joins st = L0 ++ La ++ Lb) (Ha : info a La) (Hb : info b Lb) (H0 : Forall (fun s => ~ meets (whole s) (node_bits (JoinExpr t a b v quals))) L0).
Context (Hph : Forall placeholder_ok (jq_placeholders g)).
#[local] Abbreviation A := (node_bits a).
#[local] Abbreviation B := (node_bits b).
#[local] Abbreviation item := (get_item st1 k).
#[local] Abbreviation C := (bms_val (clauses_varnos quals)).
#[local] Abbreviation I := (Z.lor (inner_bits a) (inner_bits b)).

Lemma join_children : tree_all outer_node a /\ tree_all outer_node b /\ sound_node (JoinExpr t a b v quals) /\ ~ meets A B /\ ~ meets (Z.lor A B) (bits (oj_index t v)).
Proof.
  pose proof (it_tree _ _ (sk_item _ Hs)) as Hall. rewrite Hnode in Hall. destruct Hall as (Hn & H1 & H2). split; [done|]. split; [done|]. split; [by apply on_sound|].
  pose proof (sk_apart _ Hs) as Hap. rewrite Hnode in Hap. by apply apart_join in Hap as (_ & _ & ? & ?).
Qed.
Lemma join_places : Forall (inside A) La /\ Forall (inside B) Lb /\ Forall (beside A B) L0.
Proof.
  destruct join_children as (H1 & H2 & _). apply (tree_all_mono _ sound_node) in H1; [|apply outer_sound]. apply (tree_all_mono _ sound_node) in H2; [|apply outer_sound].
  split; [|split].
  - eapply Forall_impl; [by apply (info_belongs a)|]. by intros s [_ ?].
  - eapply Forall_impl; [by apply (info_belongs b)|]. by intros s [_ ?].
  - eapply Forall_impl; [exact H0|]. intros s. rewrite node_bits_join. unfold beside. intros H. clear - H. mask_tac.
Qed.
Lemma join_sound_type : 0 <= v /\ match t with JOIN_LEFT | JOIN_FULL => 0 < v | JOIN_SEMI | JOIN_ANTI => True | _ => False end.
Proof. destruct join_children as (_ & _ & Hsound & _). cbn in Hsound. clear - Hsound Ht. destruct t; try done; lia. Qed.
Lemma join_made : exists s semi L', make_outerjoininfo g st (left_rels item) (right_rels item) (inner_join_rels item) t v quals = Ok (s, semi, set_join_info st L') /\
  Forall2 (learned v) (joins st) L' /\ made quals A B C I (joins st) s /\ named st (left_rels item) (right_rels item) t v s.
Proof.
  destruct join_children as (H1 & H2 & Hsound & HAB & _), join_places as (P1 & P2 & P3), join_sound_type as (Hv & Htype).
  destruct (it_sides _ _ (sk_item _ Hs) t a b v quals Hnode) as [DA DB]. pose proof (it_inner _ _ (sk_item _ Hs)) as DI. rewrite Hnode in DI. cbn in DI. rewrite bool_decide_false in DI by done.
  destruct (ol_strict quals) as [Ws Hstrict].
  apply make_outerjoininfo_ok with (S := bms_val (find_nonnullable_rels quals)); try done.
  - split; [apply clauses_varnos_spec|done].
  - by apply (node_bits_pos outer_node outer_sound).
  - by apply (node_bits_pos outer_node outer_sound).
  - apply Hi.
  - rewrite HL, !Forall_app. unfold placed. split; [|split]; [eapply Forall_impl; [exact P3|]|eapply Forall_impl; [exact P1|]|eapply Forall_impl; [exact P2|]]; auto.
  - apply Hi.
  - apply Forall_forall. intros rc Hrc. by apply (on_marks _ (site_node k Hs) t a b v quals).
Qed.

Section Made.
Context (s : SpecialJoinInfo) (L' : list SpecialJoinInfo) (HL' : Forall2 (learned v) (joins st) L') (Hm : made quals A B C I (joins st) s)
  (Hn : named st (left_rels item) (right_rels item) t v s).
Lemma made_node : oj_node t a b v s.
Proof.
  destruct (it_sides _ _ (sk_item _ Hs) t a b v quals Hnode) as [[_ DA] [_ DB]]. destruct Hn as [_ N1 N2 N3 N4].
  split; [apply Hm|]. split; [done|]. split; [done|]. unfold syn_l, syn_r. by rewrite N1, N2.
Qed.
Lemma made_same : Forall2 same_special (joins st) L'.
Proof. eapply Forall2_impl; [exact HL'|]. apply learned_same. Qed.
Lemma made_sorted : StronglySorted later (L' ++ [s]).
Proof.
  destruct join_places as (P1 & P2 & P3), join_children as (_ & _ & Hsound & HAB & Hv). apply (sorted_join _ _ (oj_bits v)).
  - apply (sorted_same (joins st)); [apply made_same|apply Hi].
  - by repeat constructor.
  - assert (within (oj_bits v) (bits (oj_index t v))) as Hoj.
    { apply within_bits. intros x Hx Hbit. apply (own_index_bit t a b v quals) in Hbit; [|done..]. apply bits_spec; [|done..]. pose proof (sk_apart _ Hs) as Hap. rewrite Hnode in Hap.
      rewrite names_join in Hap. by apply apart_names_app in Hap as (_ & [? _] & _). }
    assert (Forall (fun s0 => ~ meets (whole s0) (oj_bits v)) (joins st)) as HF.
    { rewrite HL, !Forall_app. split; [|split]; [eapply Forall_impl; [exact H0|]|eapply Forall_impl; [exact P1|]|eapply Forall_impl; [exact P2|]]; intros s0 Hs0; unfold inside in Hs0;
        [rewrite node_bits_join in Hs0|..]; clear - Hs0 Hoj Hv; mask_tac. }
    clear - HF HL'. revert HF HL'. generalize (joins st). intros L HF HF2. induction HF2 as [|s0 s0' L1 L1' (Hsj & _) _ IH]; [constructor|]. apply Forall_cons in HF as [? ?]. constructor; [by rewrite (same_join_whole _ _ Hsj)|by apply IH].
  - apply Forall_singleton. rewrite (nm_relid _ _ _ _ _ _ Hn). apply within_refl.
Qed.
Lemma made_inside o : o ∈ joins st -> inside B o -> o ∈ Lb.
Proof.
  intros Ho Hin. destruct join_places as (P1 & _ & P3), join_children as (_ & _ & _ & HAB & _).
  assert (special o) as Hso by (pose proof (si_special _ _ Hi) as Hf; rewrite Forall_forall in Hf; by apply Hf).
  rewrite HL in Ho. apply elem_of_app in Ho as [Ho|[Ho|Ho]%elem_of_app]; [exfalso|exfalso|done].
  - rewrite Forall_forall in P3. specialize (P3 o Ho). destruct (syn_nonempty o Hso) as [Nl _], (whole_parts o) as (W1 & _). unfold beside, inside in *.
    apply P3. clear - Nl W1 Hin. mask_tac.
  - rewrite Forall_forall in P1. by apply (inside_not_both A B HAB o Hso (P1 o Ho)).
Qed.
(** What the quals of the join mention *)
Lemma made_scope clause : clause ∈ quals -> within (varnos clause) (Z.lor (Z.lor (lhs s) (rhs s)) (below_l s)).
Proof.
  intros Hc. assert (clause ∈ own_quals g (node_of k)) as Hown by (by rewrite Hnode). pose proof (on_scope _ (site_node k Hs) clause Hown) as Hsc. rewrite Hnode in Hsc. cbn in Hsc.
  pose proof (clause_within_varnos quals clause Hc) as HcC. apply within_bits. intros x Hx Hbit. pose proof (within_bit _ _ x HcC Hx Hbit) as HC. rewrite !testbit_lor.
  apply (within_bit _ _ x Hsc Hx) in Hbit as Hab. apply testbit_lor in Hab as [Hxa|Hxb].
  - assert (Z.testbit (Z.land C A) x = true) as Hca by (rewrite testbit_land; done). apply (within_bit _ _ x (md_left _ _ _ _ _ _ _ Hm) Hx), testbit_lor in Hca. tauto.
  - assert (Z.testbit (Z.land (Z.lor C I) B) x = true) as Hcb by (rewrite testbit_land, testbit_lor; auto). apply (within_bit _ _ x (md_right _ _ _ _ _ _ _ Hm) Hx), testbit_lor in Hcb as [|Hbr]; [auto|].
    destruct (md_below_r _ _ _ _ _ _ _ Hm x Hx Hbr) as (o & Ho & Hin & Eo & Hol & Hno). exfalso. apply Hno.
    assert (o ∈ Lb) as HoL by by apply made_inside.
    pose proof (on_nulled _ (site_node k Hs) clause Hown) as Hnull. rewrite Hnode in Hnull. destruct Hnull as (_ & _ & Hnull). pose proof (info_nulled _ b Hnull Lb Hb) as Hf.
    rewrite Forall_forall in Hf. specialize (Hf o HoL Hol). rewrite Eo in Hf. specialize (Hf Hbit). clear - Hf HcC. mask_tac.
Qed.
Lemma made_oj : oj_made t a b v Lb s.
Proof.
  destruct join_places as (_ & P2 & _), join_children as (_ & Hallb & _ & HAB & _). apply (tree_all_mono _ sound_node) in Hallb as Hsnd; [|apply outer_sound].
  pose proof (sk_apart _ Hs) as Hap. rewrite Hnode in Hap. apply apart_join in Hap as (_ & Hapb & _). split; [apply made_node| |].
  - apply within_bits. intros x Hx [Hi1 Hi2]%testbit_land. assert (Z.testbit B x = true) as HB by (unfold node_bits; rewrite bits_app, testbit_lor; by left).
    assert (Z.testbit (Z.land (Z.lor C I) B) x = true) as Hc by (rewrite testbit_land, !testbit_lor; auto).
    apply (within_bit _ _ x (md_right _ _ _ _ _ _ _ Hm) Hx), testbit_lor in Hc as [|Hbr]; [done|].
    destruct (md_below_r _ _ _ _ _ _ _ Hm x Hx Hbr) as (o & Ho & Hin & Eo & Hol & _). exfalso.
    assert (special o) as Hso by (pose proof (si_special _ _ Hi) as Hf; rewrite Forall_forall in Hf; by apply Hf). pose proof (sp_type _ Hso) as Hpt. rewrite Hol in Hpt.
    assert (o ∈ Lb) as HoL by by apply (made_inside o).
    pose proof (info_index b Hsnd Lb Hb) as Hf. rewrite Forall_forall in Hf. specialize (Hf o HoL ltac:(lia)). rewrite Eo in Hf.
    apply (apart_tables b Hapb), meets_bits. exists x. split; [done|]. split; [done|]. apply bits_spec; [|done..]. by apply apart_names_app in Hapb as (_ & [? _] & _).
  - apply Forall_forall. intros o Ho. rewrite Forall_forall in P2. rewrite <- (nm_type _ _ _ _ _ _ Hn). apply (md_nested _ _ _ _ _ _ _ Hm); [|by apply P2].
    rewrite HL, !elem_of_app. auto.
Qed.
End Made.
(** The scope of the quals *)
Definition strict_left_join s : bool := bool_decide (t = JOIN_LEFT) && lhs_strict s.
Definition ojscope_mask s : Z :=
  if bool_decide (t = JOIN_SEMI) then 0
  else if strict_left_join s then Z.lor (Z.lor (Z.lor (lhs s) (rhs s)) (below_l s)) (bms_val (commute_below_r s)) else Z.lor (lhs s) (rhs s).
Lemma join_scopes s L' : Forall2 (learned v) (joins st) L' -> made quals A B C I (joins st) s -> named st (left_rels item) (right_rels item) t v s ->
  scopes T J (node_bits (node_of k)) (ojscope_mask s) (nonnullable_bits (node_of k)) (Some s) /\
  Forall (qual_fits T (node_bits (node_of k)) (ojscope_mask s) (nonnullable_bits (node_of k))) quals.
Proof.
  intros HL' Hm Hn. pose proof (made_node s Hm Hn) as (Hsp & Ej & Ev & El & Er). destruct (sp_left _ Hsp) as [Nl Hl], (sp_right _ Hsp) as [Nr Hr]. pose proof (sp_below _ Hsp) as Hbl.
  destruct join_children as (_ & _ & _ & HAB & _). rewrite El in Hl, Hbl. rewrite Er in Hr. assert (~ meets (lhs s) (rhs s)) as Hlr by (clear - HAB Hl Hr; mask_tac).
  assert (within (bms_val (commute_below_r s)) B) as Hbr.
  { apply within_bits. intros x Hx Hbit. destruct (md_below_r _ _ _ _ _ _ _ Hm x Hx Hbit) as (o & Ho & Hin & Eo & Hol & _).
    assert (special o) as Hso by (pose proof (si_special _ _ Hi) as Hf; rewrite Forall_forall in Hf; by apply Hf). pose proof (sp_type _ Hso) as Hpt. rewrite Hol in Hpt.
    destruct (whole_parts o) as (_ & _ & W3). apply (within_bit _ _ x Hin Hx), (within_bit _ _ x W3 Hx), oj_bits_spec; [apply Hso|done|]. lia. }
  destruct (site_known k Hs) as (_ & Hknown & _). rewrite Hnode, node_bits_join in Hknown.
  assert (ojscope_mask s <> 0 -> within (Z.lor (lhs s) (rhs s)) (ojscope_mask s) /\ within (ojscope_mask s) (Z.lor A B)) as HO.
  { unfold ojscope_mask. destruct (bool_decide _); [done|]. intros _. destruct (strict_left_join s); split; clear - Hl Hr Hbl Hbr; mask_tac. }
  assert (nonnullable_bits (node_of k) <> 0 -> t <> JOIN_SEMI /\ within A (nonnullable_bits (node_of k))) as HN.
  { rewrite Hnode. cbn [nonnullable_bits]. destruct t; try done; intros _; (split; [done|]); try apply within_refl. rewrite node_bits_join. by apply within_lor_r1, within_part_l. }
  split.
  - split; [by apply site_fit| |].
    + intros HO0. destruct (HO HO0) as [H1 H2]. apply (fit_two _ _ (lhs s) (rhs s)); try done; clear - H1 H2 Hknown; mask_tac.
    + intros HN0. destruct (HN HN0) as [Hse HA]. split; [|done]. assert (ojscope_mask s <> 0) as HO0.
      { unfold ojscope_mask. rewrite bool_decide_false by done. destruct (strict_left_join s); clear - Nl; mask_tac. }
      destruct (HO HO0) as [H1 _]. clear - H1 HA Hl Nl. mask_tac.
  - apply Forall_forall. intros clause Hc. pose proof (made_scope s Hm clause Hc) as Hcs. apply site_qual; [done|by rewrite Hnode| |].
    + intros HO0. revert HO0. unfold ojscope_mask. destruct (bool_decide (t = JOIN_SEMI)); [done|]. intros _. destruct (strict_left_join s) eqn:Est; [clear - Hcs; mask_tac|].
      apply within_bits. intros x Hx Hbit. apply (within_bit _ _ x Hcs Hx) in Hbit. apply testbit_lor in Hbit as [|Hbx]; [done|].
      destruct (md_below _ _ _ _ _ _ _ Hm x Hx Hbx) as (Hjl & Hst & _). unfold strict_left_join in Est. rewrite bool_decide_true, Hst in Est by congruence. done.
    + intros HN0 HO0. exfalso. revert HN0 HO0. rewrite Hnode. unfold ojscope_mask. cbn [nonnullable_bits]. destruct join_sound_type as [_ Htype].
      destruct (join_children) as (Ha1 & _). pose proof (node_bits_pos outer_node outer_sound a Ha1) as NA. destruct t; try done.
      intros E0. exfalso. rewrite node_bits_join in E0. apply NA. apply (within_empty _ 0); [|clear; mask_tac]. rewrite <- E0. by apply within_lor_r1, within_part_l.
Qed.
Lemma ojscope_denotes s : special s -> bms_wf (commute_below_r s) ->
  let ojscope := if bool_decide (t = JOIN_SEMI) then None else bms_union (min_lefthand s) (min_righthand s) in
  denotes (if bool_decide (t = JOIN_LEFT) && lhs_strict s then bms_add_members (bms_add_members ojscope (commute_below_l s)) (commute_below_r s) else ojscope) (ojscope_mask s).
Proof.
  intros Hsp Hwr ojscope. destruct (sp_sides _ Hsp) as (W1 & W2 & _), (sp_commute _ Hsp) as (W3 & _). unfold ojscope_mask, ojscope. fold (strict_left_join s).
  assert (denotes (bms_union (min_lefthand s) (min_righthand s)) (Z.lor (lhs s) (rhs s))) as Hu by (apply denotes_union; by split).
  destruct (bool_decide (t = JOIN_SEMI)) eqn:Ese.
  - apply bool_decide_eq_true in Ese. unfold strict_left_join. rewrite (bool_decide_false (t = JOIN_LEFT)) by congruence. done.
  - destruct (strict_left_join s); [|done]. apply denotes_add_members; [apply denotes_add_members; [done|by split]|by split].
Qed.
Lemma visit_join : exists st' L' s, deconstruct_distribute g st k = Ok st' /\ scan_inv st' (visited ++ [k]) /\ joins st' = L' ++ [s] /\
  Forall2 same_special (joins st) L' /\ oj_made t a b v Lb s.
Proof.
  destruct (item_todo st visited k Hi Hk Hs) as (Eit & Esj & Eoj & El). destruct join_made as (s & semi & L' & Emake & HL' & Hm & Hn).
  destruct (join_scopes s L' HL' Hm Hn) as [Hsc Hq]. pose proof (made_node s Hm Hn) as Hoj. pose proof (proj1 Hoj) as Hsp.
  pose proof (ojscope_denotes s Hsp (md_below_wf _ _ _ _ _ _ _ Hm)) as HO. pose proof (it_scope _ _ (sk_item _ Hs)) as HX. pose proof (it_nonnullable _ _ (sk_item _ Hs)) as HN.
  unfold deconstruct_distribute. rewrite Eit, Hnode, El. cbn [app]. rewrite (bool_decide_false (t = JOIN_INNER)) by done. rewrite Emake. cbn [mbind result_bind fst snd].
  set (ptr := sj_ptr s). set (st2 := set_item (set_join_info st L') k (set_sjinfo item ptr)). cbn [fmap option_fmap option_map fst].
  set (strict := bool_decide (t = JOIN_LEFT) && lhs_strict s) in *. cbv zeta in HO. set (ojscope0 := if bool_decide (t = JOIN_SEMI) then _ else _) in *.
  set (ojscope := if strict then _ else ojscope0) in HO. rewrite Eoj.
  assert ((if strict then (bms_add_members (bms_add_members ojscope0 (commute_below_l s)) (commute_below_r s), Some []) else (ojscope0, None)) =
    (ojscope, if strict then Some ([] : list Clause) else None)) as -> by (unfold ojscope; by destruct strict).
  assert (calm T J (jt_root st2)) as Hc2 by (apply (calm_same _ _ (jt_root st)); [apply Hi|done..]).
  assert (Forall special L') as HspL by (clear - HL'; induction HL' as [|? ? ? ? (_ & ? & _)]; by constructor).
  assert (joins_known (jt_root st2)) as Hj2 by (eapply Forall_impl; [exact HspL|]; intros s0 Hs0; apply Hs0).
  destruct (distribute_quals_fit T J (jq_lateral g) k (Some s) (qual_security_level g) _ _ _ None false false _ _ _ HX HO HN Hsc quals true Hq st2
    (if strict then Some ([] : list Clause) else None)) as (st3 & post & -> & [Q1 Q2 Q3] & Hpost & Hnone); [done..|]. cbn [mbind result_bind].
  assert (get_item st3 k = set_sjinfo item ptr) as Eg3.
  { unfold get_item at 1. rewrite Q2. cbn. rewrite nth_lookup, list_lookup_insert_eq; [done|]. rewrite (si_length _ _ Hi). apply (sk_bound _ Hs). }
  set (l := match post with Some l => l | None => [] end). set (st4 := match post with Some l => _ | None => st3 end).
  assert (jt_items st4 = <[k := with_join item (Some (S (length (joins st)))) l]> (jt_items st) /\ jt_root st4 = jt_root st3) as [Ei4 Er4].
  { rewrite <- (nm_ptr _ _ _ _ _ _ Hn). fold ptr. unfold st4, l. destruct post as [l0|]; (split; [|done]).
    - cbn. rewrite Q2, Eg3. cbn. by rewrite list_insert_insert_eq.
    - rewrite Q2. cbn. f_equal. unfold set_sjinfo, with_join. by rewrite Eoj. }
  assert (forall c, c ∈ l -> postponed_ok quals s c) as Hl.
  { intros c Hc. unfold l in Hc. destruct post as [l0|]; [|by apply not_elem_of_nil in Hc]. destruct (Hpost l0 eq_refl) as (l1 & l2 & E1 & -> & Hin).
    destruct strict eqn:Est; [|done]. injection E1 as <-. apply andb_true_iff in Est as [Etl%bool_decide_eq_true Est]. split; [by apply Hin| | |].
    - split; [|done]. by rewrite (nm_type _ _ _ _ _ _ Hn).
    - apply (made_scope s Hm). by apply Hin.
    - intros x Hx Hbit. destruct (md_below _ _ _ _ _ _ _ Hm x Hx Hbit) as (_ & _ & o & Ho & _ & <- & Hol & Hu). unfold unsafe in Hu.
      assert (special o) as Hso by (pose proof (si_special _ _ Hi) as Hf; rewrite Forall_forall in Hf; by apply Hf). pose proof (sp_type _ Hso) as Hpt. rewrite Hol in Hpt.
      by rewrite (proj2 (Z.eqb_neq _ 0)) in Hu by lia. }
  exists (add_join_info st4 s semi), L', s. split; [done|]. assert (joins (add_join_info st4 s semi) = L' ++ [s]) as Ej by (cbn; by rewrite Er4, Q3).
  split; [|split; [done|]; split; [by eapply made_same|by eapply made_oj]].
  apply (inv_join st _ visited k t a b v quals L' s l); try done.
  - apply (sk_bound _ Hs).
  - apply on_sound, (site_node k Hs).
  - apply (md_fresh _ _ _ _ _ _ _ Hm).
  - intros x Hx Hbit. destruct (md_below _ _ _ _ _ _ _ Hm x Hx Hbit) as (_ & _ & o & Ho & _ & Eo & Hol & _). by exists o.
  - by eapply made_sorted.
  - apply (calm_same _ _ (jt_root st3)); [done|by rewrite <- Er4..].
Qed.
End Join.

(** ** Subtrees *)
Lemma distribute_items_app st l1 l2 : distribute_items g st (l1 ++ l2) = (st ← distribute_items g st l1; distribute_items g st l2).
Proof. revert st. induction l1 as [|k l1 IH]; intros st; [done|]. cbn. destruct (deconstruct_distribute g st k); cbn; [apply IH|done|done]. Qed.
Lemma beside_same x L L' : Forall2 same_special L L' -> Forall (fun s => ~ meets (whole s) x) L -> Forall (fun s => ~ meets (whole s) x) L'.
Proof. induction 1 as [|s s' L L' [Hs _] _ IH]; [done|]. intros [? ?]%Forall_cons. constructor; [by rewrite (same_join_whole _ _ Hs)|by apply IH]. Qed.
Lemma same_special_trans L1 L2 L3 : Forall2 same_special L1 L2 -> Forall2 same_special L2 L3 -> Forall2 same_special L1 L3.
Proof.
  intros H. revert L3. induction H as [|s1 s2 L1 L2 [H1 _] _ IH]; intros L3 H3; inversion H3 as [|? s3 ? L4 [H4 H5] H6]; subst; [constructor|].
  constructor; [|by apply IH]. split; [by transitivity s2|done].
Qed.

(** The items [new] of [nodes] wait. *)
Record waiting st (visited : list nat) (nodes : list Node) (new : list nat) : Prop := {
  wt_inv : scan_inv st visited;
  wt_new k : k ∈ new -> (k ∉ visited) /\ item_ok outer_node (get_item st1 k) /\ (k < length (jt_items st1))%nat;
  wt_nodup : NoDup new;
  wt_tables : forest_tables nodes ⊆ tables tree;
  wt_joins : forest_joins nodes ⊆ outer_joins tree;
  wt_apart : apart_names (forest_names nodes);
  wt_all : Forall (tree_all outer_node) nodes;
  wt_beside : Forall (fun s => ~ meets (whole s) (forest_bits nodes)) (joins st)
}.
Definition visit_ok st visited (nodes : list Node) (new : list nat) : Prop := exists st' L0 L1,
  distribute_items g st new = Ok st' /\ scan_inv st' (visited ++ new) /\ joins st' = L0 ++ L1 /\ Forall2 same_special (joins st) L0 /\ forest_info nodes L1.
Lemma special_refl st visited : scan_inv st visited -> Forall2 same_special (joins st) (joins st).
Proof. intros H. pose proof (si_special _ _ H) as Hf. clear - Hf. induction Hf; constructor; [by split|done]. Qed.
Lemma visit_forest nodes : Forall (fun n => forall st visited new, waiting st visited [n] new -> layout st1 n new -> visit_ok st visited [n] new) nodes ->
  forall st visited new, waiting st visited nodes new -> forest_layout st1 nodes new -> visit_ok st visited nodes new.
Proof.
  induction 1 as [|n nodes Hn _ IH]; intros st visited new Hw; cbn [forest_layout].
  { intros ->. exists st, (joins st), []. rewrite !app_nil_r. split_and!; [done|apply Hw|done|eapply special_refl, Hw|done]. }
  intros (l1 & l2 & -> & Hl1 & Hl2). destruct Hw as [W1 W2 W3 W4 W5 W6 W7 W8]. apply NoDup_app in W3 as (N1 & N2 & N3). rewrite forest_names_cons in W6.
  apply apart_names_app in W6 as (A1 & A2 & A3). apply Forall_cons in W7 as [T1 T2]. rewrite (forest_bits_app [n] nodes : forest_bits (n :: nodes) = _), forest_bits_one in W8.
  change (forest_tables (n :: nodes)) with (tables n ++ forest_tables nodes) in W4. change (forest_joins (n :: nodes)) with (outer_joins n ++ forest_joins nodes) in W5.
  destruct (Hn st visited l1) as (st2 & L0 & L1 & E1 & I1 & J1 & S1 & F1); [|done|].
  { split; try done.
    - intros k Hk. apply W2, elem_of_app. by left.
    - unfold forest_tables. cbn. rewrite app_nil_r. intros x Hx. apply W4, elem_of_app. by left.
    - unfold forest_joins. cbn. rewrite app_nil_r. intros x Hx. apply W5, elem_of_app. by left.
    - rewrite forest_names_cons. unfold forest_names, forest_tables, forest_joins. cbn. by rewrite app_nil_r.
    - by apply Forall_singleton.
    - rewrite forest_bits_one. eapply Forall_impl; [exact W8|]. intros s Hs. cbv beta in *. clear - Hs. mask_tac. }
  destruct F1 as (L1a & L1b & -> & F1 & ->). rewrite app_nil_r in *.
  destruct (IH st2 (visited ++ l1) l2) as (st3 & L0' & L2 & E2 & I2 & J2 & S2 & F2); [|done|].
  { split; try done.
    - intros k Hk. destruct (W2 k) as (K1 & K2 & K3); [apply elem_of_app; by right|]. split; [|done]. rewrite not_elem_of_app. split; [done|]. intros Hk1. by apply (N2 k).
    - intros x Hx. apply W4, elem_of_app. by right.
    - intros x Hx. apply W5, elem_of_app. by right.
    - rewrite J1. apply Forall_app. split.
      + apply (beside_same _ _ _ S1). eapply Forall_impl; [exact W8|]. intros s Hs. cbv beta in *. clear - Hs. mask_tac.
      + apply (tree_all_mono _ sound_node) in T1; [|apply outer_sound]. eapply Forall_impl; [by apply (info_belongs n T1)|]. intros s [_ Hs]. cbv beta.
        change (bits (names n)) with (node_bits n) in A3. change (bits (forest_names nodes)) with (forest_bits nodes) in A3. clear - Hs A3. mask_tac. }
  rewrite J1 in S2. apply Forall2_app_inv_l in S2 as (L0a & L1' & S2 & S3 & ->). exists st3, L0a, (L1' ++ L2). rewrite app_assoc, <- app_assoc. split_and!.
  - rewrite distribute_items_app, E1. exact E2.
  - by rewrite app_assoc.
  - by rewrite J2, app_assoc.
  - by apply (same_special_trans _ L0).
  - exists L1', L2. split; [done|]. split; [by apply (info_same n L1a)|done].
Qed.
Context (Hph : Forall placeholder_ok (jq_placeholders g)).
Lemma forest_one (f : Node -> list Z) n : concat (f <$> [n]) = f n.
Proof. cbn. by rewrite app_nil_r. Qed.
(** The items below a node are visited before it. *)
Lemma waiting_below st visited node below k : waiting st visited [node] (below ++ [k]) -> node_of k = node -> site k /\ waiting st visited (children node) below /\ (k ∉ visited ++ below).
Proof.
  intros [W1 W2 W3 W4 W5 W6 W7 W8] Ek. unfold forest_tables in W4. unfold forest_joins in W5. rewrite forest_one in W4, W5. apply Forall_cons in W7 as [W7 _].
  rewrite forest_bits_one in W8. assert (apart_names (names node)) as W6'.
  { rewrite forest_names_cons in W6. unfold forest_names, forest_tables, forest_joins in W6. cbn in W6. by rewrite app_nil_r in W6. }
  apply NoDup_app in W3 as (N1 & N2 & _). destruct (W2 k) as (K1 & K2 & K3); [apply elem_of_app; right; by left|].
  split; [|split].
  - split; try done; by rewrite Ek.
  - assert (forest_tables (children node) ⊆ tables node /\ forest_joins (children node) ⊆ outer_joins node /\ apart_names (forest_names (children node)) /\
      within (forest_bits (children node)) (node_bits node)) as (B1 & B2 & B3 & B4).
    { destruct node as [v|l quals|t a b v quals].
      - split_and!; [intros x Hx; by apply not_elem_of_nil in Hx|intros x Hx; by apply not_elem_of_nil in Hx|by split; constructor|apply within_0].
      - destruct (tables_children (FromExpr l quals)) as [E|E]; [done|]. rewrite names_from in W6'. rewrite outer_joins_children, app_nil_r, E, node_bits_from.
        split_and!; [done|done|done|apply within_refl].
      - rewrite (outer_joins_children (JoinExpr t a b v quals)). destruct (tables_children (JoinExpr t a b v quals)) as [E|E]; [done|]. rewrite E.
        rewrite (node_bits_children (JoinExpr t a b v quals)) by done. split_and!; [done|intros x Hx; apply elem_of_app; by left| |apply within_part_l].
        rewrite names_join in W6'. apply apart_names_app in W6' as (Hab & _). cbn [children]. rewrite !forest_names_cons. unfold forest_names, forest_tables, forest_joins. cbn.
        by rewrite app_nil_r. }
    split; try done.
    + intros j Hj. apply W2, elem_of_app. by left.
    + by transitivity (tables node).
    + by transitivity (outer_joins node).
    + apply tree_all_children. exact W7.
    + eapply Forall_impl; [exact W8|]. intros s Hs. cbv beta in *. clear - Hs B4. mask_tac.
  - rewrite not_elem_of_app. split; [done|]. intros Hb. apply (N2 k Hb). by left.
Qed.
Lemma visit_node node : forall st visited new, waiting st visited [node] new -> layout st1 node new -> visit_ok st visited [node] new.
Proof.
  induction node as [v|l quals IH|t a b v quals IHa IHb] using node_ind; intros st visited new Hw Hl.
  all: apply layout_split in Hl as (below & k & -> & Ek & Hf); destruct (waiting_below st visited _ below k Hw Ek) as (Hs & Hwb & Hk).
  all: assert (jti_sjinfo (get_item st1 k) = None /\ oj_joinclauses (get_item st1 k) = []) as [Esj Eoj] by (split; apply (it_fresh _ _ (sk_item _ Hs))).
  - cbn in Hf. subst below. rewrite app_nil_r in Hk. pose proof (wt_inv _ _ _ _ Hw) as Hi. destruct (visit_table st visited k v Hi Hk Hs Ek) as (st' & E & Hq).
    exists st', (joins st), []. cbn. rewrite E. cbn. rewrite (qt_joins _ _ _ _ Hq), app_nil_r. split_and!; [done| |done|by eapply special_refl|by exists [], []].
    apply (inv_plain st); try done. by rewrite Ek.
  - destruct (visit_forest l IH st visited below Hwb Hf) as (st2 & L0 & L1 & E2 & I2 & J2 & S2 & F2).
    destruct (visit_from st2 (visited ++ below) k l quals I2 Hk Hs Ek) as (st' & E & Hq). exists st', L0, L1. rewrite distribute_items_app, E2. cbn. rewrite E. cbn.
    rewrite (qt_joins _ _ _ _ Hq), J2. split_and!; [done| |done|done|].
    + rewrite app_assoc. apply (inv_plain st2); try done. by rewrite Ek.
    + exists L1, []. rewrite app_nil_r. split_and!; [done|by apply (info_from l quals)|done].
  - assert (Forall (fun n => forall st visited new, waiting st visited [n] new -> layout st1 n new -> visit_ok st visited [n] new) [a; b]) as IH by (by repeat constructor).
    destruct (visit_forest [a; b] IH st visited below Hwb Hf) as (st2 & L0 & L1 & E2 & I2 & J2 & S2 & La & Lx & -> & Fa & Lb & Ly & -> & Fb & ->). rewrite app_nil_r in *.
    destruct (decide (t = JOIN_INNER)) as [->|Ht].
    + destruct (visit_inner st2 (visited ++ below) k a b v quals I2 Hk Hs Ek) as (st' & E & Hq). exists st', L0, (La ++ Lb). rewrite distribute_items_app, E2. cbn. rewrite E. cbn.
      rewrite (qt_joins _ _ _ _ Hq), J2. split_and!; [done| |done|done|].
      * rewrite app_assoc. apply (inv_plain st2); try done. by rewrite Ek.
      * exists (La ++ Lb), []. rewrite app_nil_r. split_and!; [done| |done]. exists La, Lb, []. rewrite app_nil_r. split_and!; try done.
    + assert (Forall (fun s => ~ meets (whole s) (node_bits (JoinExpr t a b v quals))) L0) as Hbes.
      { apply (beside_same _ _ _ S2). pose proof (wt_beside _ _ _ _ Hw) as Hbs. by rewrite forest_bits_one in Hbs. }
      destruct (visit_join st2 (visited ++ below) k t a b v quals L0 La Lb I2 Hk Hs Ek Ht J2 Fa Fb Hbes Hph) as (st' & L' & s & E & I' & J' & S' & Hom).
      rewrite J2 in S'. apply Forall2_app_inv_l in S' as (L0' & Lx' & S0 & Sx & ->). apply Forall2_app_inv_l in Sx as (La' & Lb' & Sa & Sb & ->).
      exists st', L0', (La' ++ Lb' ++ [s]). rewrite distribute_items_app, E2. cbn. rewrite E. cbn. split_and!; [done|by rewrite app_assoc|by rewrite J', <- !app_assoc|by apply (same_special_trans _ L0)|].
      exists (La' ++ Lb' ++ [s]), []. rewrite app_nil_r. split_and!; [done| |done]. exists La', Lb', [s]. split_and!; [done|by apply (info_same a La)|by apply (info_same b Lb)|].
      rewrite bool_decide_false by done. exists s. split; [done|]. destruct Hom as [M1 M2 M3]. split; [done|done|].
      clear - Sb M3. induction Sb; [constructor|]. apply Forall_cons in M3 as [? ?]. constructor; [by eapply nested_same|auto].
Qed.
End Scan.
