(* ===== verification/PostponedQuals.v ===== *)
(** * The postponed quals of left joins

    After the second scan, the quals of a left join that may trade places with others are distributed in one variant for each place that the join can take.  The joins
    that it commutes with are met in the order that [deconstruct_distribute_oj_quals] asserts, and every variant finds its place. *)
From stdpp Require Import gmap sorting.
From S2P Require Import Prelude BitUtils Bitmapset BitmapsetSpec BitmapsetIter EquivClass EquivClassProps PathKeys JoinRels JoinLinks JoinLegal RelSets ImpliedEq Quals QueryQuals OuterJoin JoinTree QueryTree SpecialJoins OuterQuals OuterTree.
#[local] Open Scope Z_scope.

Section Postponed.
Context {Expr : Type} `{!ExprOps Expr} `{!OpFamilies Expr} `{!QualOps Expr} `{!QualLaws Expr} `{!OuterOps Expr} `{!OuterLaws Expr} (g : JTQuery Expr).
#[local] Abbreviation Clause := (ClauseNode (Expr := Expr)).
#[local] Abbreviation State := (JTRoot Expr).
#[local] Abbreviation Node := (JoinNode Expr).
#[local] Abbreviation varnos clause := (bms_val (clause_varnos clause)).
Implicit Types (st : State) (node : Node) (clause : Clause) (k : nat) (s : SpecialJoinInfo).

(** [st1] is the state after the first scan, [st2] after the second one; the quals are distributed in the order of [items]. *)
Context (tree : Node) (st1 st2 : State) (items : list nat).
#[local] Abbreviation T := (bits (tables tree)).
#[local] Abbreviation J := (bits (outer_joins tree)).
#[local] Abbreviation node_of k := (jtnode (get_item st1 k)).
#[local] Abbreviation joins st := (im_join_info (jt_root st)).
#[local] Abbreviation index_of := (index_of st1).
Context (Htree : apart_names (names tree)) (Hinv : scan_inv tree st1 st2 items) (Hsite : forall k, k ∈ items -> site g tree st1 k) (Hindex : NoDup (index_of items)).

Lemma index_pos b : b ∈ index_of items -> 0 < b /\ Z.testbit J b = true.
Proof.
  intros (k & Hk & Hb)%index_of_in. assert (b ∈ outer_joins tree) as Hin.
  { apply (sk_joins _ _ _ _ (Hsite k Hk)). rewrite outer_joins_children. apply elem_of_app. by right. }
  destruct Htree as [Hp _]. unfold names in Hp. apply Forall_app in Hp as [_ Hp]. assert (0 < b) by (rewrite Forall_forall in Hp; by apply Hp). split; [done|].
  apply bits_spec; [done|lia|done].
Qed.
Lemma index_part l1 k l2 b : items = l1 ++ k :: l2 -> b ∈ index_of l1 \/ b ∈ index_of l2 -> b ∈ index_of items.
Proof. intros ->. rewrite !index_of_in. setoid_rewrite elem_of_app. setoid_rewrite elem_of_cons. naive_solver. Qed.
Lemma special_of i s : joins st2 !! i = Some s -> special s.
Proof. intros Hs%list_elem_of_lookup_2. pose proof (si_special _ _ _ _ Hinv) as Hf. rewrite Forall_forall in Hf. by apply Hf. Qed.
(** Two special joins do not share their number. *)
Lemma relid_later i i' s s' : joins st2 !! i = Some s -> joins st2 !! i' = Some s' -> (i < i')%nat -> 0 < ojrelid s -> ojrelid s' <> ojrelid s.
Proof.
  intros Hs Hs' Hlt Hv Ev. pose proof (si_sorted _ _ _ _ Hinv) as Hsort. rewrite <- (take_drop i' (joins st2)) in Hsort.
  apply (StronglySorted_app_1_elem_of later _ _ s s' Hsort).
  - apply list_elem_of_lookup. exists i. by rewrite lookup_take_lt.
  - apply list_elem_of_lookup. exists 0%nat. rewrite lookup_drop. by rewrite Nat.add_0_r.
  - unfold whole. rewrite Ev. apply meets_bits. exists (ojrelid s). rewrite testbit_lor, !oj_bits_spec by lia. split; [lia|]. split; [right|]; (split; [lia|done]).
Qed.
Lemma relid_unique i i' s s' : joins st2 !! i = Some s -> joins st2 !! i' = Some s' -> 0 < ojrelid s -> ojrelid s' = ojrelid s -> i' = i.
Proof.
  intros Hs Hs' Hv Ev. destruct (lt_eq_lt_dec i' i) as [[Hlt|]|Hlt]; [exfalso|done|exfalso].
  - apply (relid_later i' i s' s); [done..|lia|done].
  - by apply (relid_later i i' s s').
Qed.
(** What is found at an item *)
Definition item_join k i s : Prop := exists t a b v quals, node_of k = JoinExpr t a b v quals /\ t <> JOIN_INNER /\ joins st2 !! i = Some s /\ oj_node t a b v s /\
  forall c, c ∈ oj_joinclauses (get_item st2 k) -> postponed_ok quals s c.
Lemma item_cases k : k ∈ items -> (jti_sjinfo (get_item st2 k) = None /\ own_index (node_of k) = [] /\ oj_joinclauses (get_item st2 k) = []) \/
  exists i s, jti_sjinfo (get_item st2 k) = Some (S i) /\ item_join k i s.
Proof.
  intros Hk. destruct (si_done _ _ _ _ Hinv k Hk) as (p & l & E & Hd). unfold item_join. rewrite E. cbn [with_join jti_sjinfo oj_joinclauses]. unfold item_done in Hd.
  destruct (node_of k) as [v|ns quals|t a b v quals]; [destruct Hd as [-> ->]; by left..|]. case_bool_decide as Et.
  - destruct Hd as [-> ->]. subst t. by left.
  - destruct Hd as (i & s & -> & Hs & Hn & Hl). right. exists i, s. split; [done|]. by exists t, a, b, v, quals.
Qed.
Lemma own_relid k i s : k ∈ items -> item_join k i s -> own_index (node_of k) = if ojrelid s =? 0 then [] else [ojrelid s].
Proof.
  intros Hk (t & a & b & v & quals & En & Ht & _ & (_ & _ & -> & _) & _). pose proof (on_sound _ _ (site_node _ _ _ _ (Hsite k Hk))) as Hsn. rewrite En in *.
  cbn in *. unfold oj_index. destruct t; try done. by subst v.
Qed.

(** ** The variants of the quals of one join *)
Section Variants.
Context (i : nat) (s : SpecialJoinInfo) (Hs : joins st2 !! i = Some s) (Hv : 0 < ojrelid s).
Context (Hknown : within (whole s) (Z.lor T J)) (Hsides : ~ meets (syn_l s) (syn_r s)) (Hown : ~ meets (Z.lor (syn_l s) (syn_r s)) (2 ^ ojrelid s)).
#[local] Abbreviation v := (ojrelid s).
#[local] Abbreviation both := (Z.lor (lhs s) (rhs s)).

Lemma whole_own : whole s = Z.lor (Z.lor (syn_l s) (syn_r s)) (2 ^ v).
Proof. unfold whole, oj_bits. by rewrite (proj2 (Z.eqb_neq v 0)) by lia. Qed.
Lemma both_whole : within both (whole s).
Proof. destruct (sp_left _ (special_of i s Hs)) as [_ H1], (sp_right _ (special_of i s Hs)) as [_ H2]. unfold whole. clear - H1 H2. mask_tac. Qed.
Lemma both_fit X : within X (Z.lor T J) -> within both X -> fit T J X.
Proof.
  intros HX Hb. destruct (sp_left _ (special_of i s Hs)) as [N1 H1], (sp_right _ (special_of i s Hs)) as [N2 H2]. apply (fit_two T J (lhs s) (rhs s)); try done.
  - clear - Hb. mask_tac.
  - clear - Hb. mask_tac.
  - clear - H1 H2 Hsides. mask_tac.
Qed.
(** A clause of the join, whatever the nulling relations *)
Record clause_fits clause : Prop := {
  cf_where : where_clause clause;
  cf_table : varnos clause <> 0 -> meets (varnos clause) T
}.
Lemma distribute_variant st quals k' scope X ojscope O incompatible allow hc ic : quiet T J st2 st -> denotes scope X -> denotes ojscope O ->
  within X (Z.lor T J) -> within O (Z.lor T J) -> within both X -> within both O -> Forall (fun c => within (varnos c) X /\ within (varnos c) O /\ clause_fits c) quals ->
  exists st', distribute_quals_to_rels (jq_lateral g) st quals k' (Some s) (qual_security_level g) scope ojscope (syn_lefthand s) incompatible allow hc ic None = Ok (st', None) /\
    quiet T J st2 st'.
Proof.
  intros Hq HX HO HXk HOk HbX HbO Hquals. pose proof (special_of i s Hs) as Hsp. destruct (sp_left _ Hsp) as [N1 H1]. destruct (sp_sides _ Hsp) as (_ & _ & W & _).
  assert (scopes T J X O (syn_l s) (Some s)) as Hsc.
  { split; [by apply both_fit|intros _; by apply both_fit|]. intros _. split; [|done]. clear - N1 H1 HbO. apply nonempty_bits in N1 as (x & Hx & Hl). apply meets_bits.
    exists x. split; [done|]. split; [|by apply (within_bit _ _ x H1)]. apply (within_bit _ _ x HbO); [done|]. rewrite testbit_lor. by left. }
  destruct (distribute_quals_fit T J (jq_lateral g) k' (Some s) (qual_security_level g) scope ojscope (syn_lefthand s) incompatible hc ic X O (syn_l s) HX HO (conj W eq_refl) Hsc
    quals allow) with (st := st) (postponed := @None (list Clause)) as (st' & post & E & Hq' & _ & Hnone).
  - eapply Forall_impl; [exact Hquals|]. intros c (C1 & C2 & [C3 C4]). split; try done. intros op Hz. exfalso. clear - Hz N1 H1. rewrite Hz in H1. apply N1. mask_tac.
  - apply Hq.
  - unfold joins_known. rewrite (qt_joins _ _ _ _ Hq). by eapply inv_known.
  - exists st'. rewrite E, (Hnone eq_refl). split; [done|]. by apply (quiet_trans T J st2 st).
Qed.

(** The joins of [past] with which [s] commutes, and [s] itself *)
Definition joins_met (past : list nat) (F : Z) : Prop :=
  forall b, 0 <= b -> Z.testbit F b = true <-> b ∈ index_of past /\ (Z.testbit (below_l s) b = true \/ Z.testbit (above_r s) b = true \/ b = v).
Definition variant F clause : Prop := within (varnos clause) (Z.lor both (Z.ldiff F (2 ^ v))) /\ clause_fits clause.
Lemma met_known past l F : items = past ++ l -> joins_met past F -> within F (Z.lor T J).
Proof.
  intros E HF. apply within_bits. intros b Hb [Hin _]%HF; [|done]. rewrite testbit_lor. right. apply (index_pos b). rewrite E, index_of_app. apply elem_of_app. by left.
Qed.
(** Before the place of [s], exactly the joins below it are met. *)
Lemma met_own past k l F : items = past ++ k :: l -> jti_sjinfo (get_item st2 k) = Some (S i) -> joins_met past F -> F = below_l s.
Proof.
  intros E Hk HF. destruct (si_order _ _ _ _ Hinv past k l i s E Hk Hs) as [Hbelow Habove]. pose proof Hindex as Hnd. rewrite E, index_of_app in Hnd.
  change (index_of (k :: l)) with (own_index (node_of k) ++ index_of l) in Hnd. apply NoDup_app in Hnd as (_ & Hd & _).
  assert (k ∈ items) as Hin by (rewrite E; apply elem_of_app; right; by left).
  apply mask_eq. intros b Hb. rewrite (HF b Hb). split; [intros [Hp [|[Ha|Ev]]]; [done|exfalso..]|intros Ht; split; [by apply Hbelow|by left]].
  - apply (Hd b Hp), elem_of_app. right. by apply Habove.
  - apply (Hd b Hp), elem_of_app. left. destruct (item_cases k Hin) as [[E' _]|(i' & s' & E' & Hj)]; [congruence|]. assert (i' = i) as -> by congruence.
    rewrite (own_relid k i s' Hin Hj). destruct Hj as (? & ? & ? & ? & ? & _ & _ & Hs' & _). assert (s' = s) as -> by congruence.
    rewrite (proj2 (Z.eqb_neq v 0)) by lia. subst b. by left.
Qed.
Lemma met_skip past k F : joins_met past F -> (forall b, b ∈ own_index (node_of k) -> ~ (Z.testbit (below_l s) b = true \/ Z.testbit (above_r s) b = true \/ b = v)) ->
  joins_met (past ++ [k]) F.
Proof.
  intros HF Hno b Hb. rewrite (HF b Hb), index_of_app, elem_of_app. assert (index_of [k] = own_index (node_of k)) as -> by (unfold OuterTree.index_of; cbn; by rewrite app_nil_r). naive_solver.
Qed.
Lemma met_add past k F v' : joins_met past F -> own_index (node_of k) = [v'] -> 0 <= v' -> (Z.testbit (below_l s) v' = true \/ Z.testbit (above_r s) v' = true \/ v' = v) ->
  joins_met (past ++ [k]) (Z.lor F (2 ^ v')).
Proof.
  intros HF Ev Hv' Hyes b Hb. rewrite testbit_lor, Z.pow2_bits_eqb, Z.eqb_eq, (HF b Hb), index_of_app, elem_of_app by done.
  assert (index_of [k] = own_index (node_of k)) as -> by (unfold OuterTree.index_of; cbn; by rewrite app_nil_r). rewrite Ev, list_elem_of_singleton. naive_solver.
Qed.
Context (qualscope ojscope : bitmapset) (Hqs : denotes qualscope (whole s)) (Hos : denotes ojscope both).
Context (k0 : nat) (Hk0 : k0 ∈ items) (Hptr : jti_sjinfo (get_item st2 k0) = Some (S i)).

Lemma commuting_pos b : 0 <= b -> Z.testbit (below_l s) b = true \/ Z.testbit (above_r s) b = true -> 0 < b.
Proof.
  intros Hb Hc. apply list_elem_of_split in Hk0 as (l1 & l2 & E). destruct (si_order _ _ _ _ Hinv l1 k0 l2 i s E Hptr Hs) as [Hbelow Habove].
  apply (index_pos b). apply (index_part l1 k0 l2 b E). naive_solver.
Qed.
Lemma below_other b : Z.testbit (below_l s) b = true -> 0 <= b -> b <> v.
Proof.
  intros Ht Hb ->. pose proof (sp_below _ (special_of i s Hs)) as Hw. apply (apart_bit _ _ v Hown Hb). split; [|rewrite Z.pow2_bits_eqb by done; apply Z.eqb_refl].
  rewrite testbit_lor. left. by apply (within_bit _ _ v Hw).
Qed.
Lemma variant_scope F c : variant F c -> within (varnos c) (Z.lor (whole s) F) /\ within (varnos c) (Z.lor both F) /\ clause_fits c.
Proof. intros [Hw Hf]. pose proof both_whole as Hb. split_and!; [clear - Hw Hb; mask_tac..|done]. Qed.
Lemma variant_above F c v' : variant (Z.lor F (2 ^ v')) c ->
  within (varnos c) (Z.lor (Z.lor (whole s) F) (2 ^ v')) /\ within (varnos c) (Z.ldiff (Z.lor (Z.lor both F) (2 ^ v')) (2 ^ v)) /\ clause_fits c.
Proof.
  intros [Hw Hf]. pose proof both_whole as Hb. destruct (sp_left _ (special_of i s Hs)) as [_ H1], (sp_right _ (special_of i s Hs)) as [_ H2].
  split_and!; [clear - Hw Hb; mask_tac|clear - Hw H1 H2 Hown; mask_tac|done].
Qed.
Lemma variant_add F c target added v' : variant F c -> denotes added (2 ^ v') -> 0 <= v' -> v' <> v ->
  variant (Z.lor F (2 ^ v')) (map_clause (add_nulling_relids target added) c).
Proof.
  intros [Hw [Hwh Ht]] [_ Ea] Hv' Hne. destruct (ol_add target added c) as (A1 & A2 & A3). rewrite Ea in A2. split.
  - assert (~ meets (2 ^ v') (2 ^ v)) as Hd. { intros (b & Hb & B1 & B2)%meets_bits. rewrite Z.pow2_bits_eqb, Z.eqb_eq in B1, B2 by lia. congruence. }
    clear - Hw A2 Hd. mask_tac.
  - split; [apply where_map; [|done]; intros e He; by apply (ol_where None target added e)|]. intros Hne'. destruct (decide (varnos c = 0)) as [Ez|Hz].
    + exfalso. apply Hne'. rewrite A3; [done|]. rewrite Ez. clear. mask_tac.
    + specialize (Ht Hz). clear - Ht A1. mask_tac.
Qed.
(** The variant at the place of [s], or below a join that [s] commutes with, *)
Lemma distribute_below st quals k so_far F incompatible allow hc ic : quiet T J st2 st -> denotes so_far F -> within F (Z.lor T J) -> Forall (variant F) quals -> exists st',
  distribute_quals_to_rels (jq_lateral g) st quals k (Some s) (qual_security_level g) (bms_union qualscope so_far) (bms_union ojscope so_far) (syn_lefthand s) incompatible
    allow hc ic None = Ok (st', None) /\ quiet T J st2 st'.
Proof.
  intros Hq Hso HF Hquals. pose proof both_whole as Hbw. apply (distribute_variant _ _ _ _ (Z.lor (whole s) F) _ (Z.lor both F)); try done.
  - by apply denotes_union.
  - by apply denotes_union.
  - clear - Hknown HF. mask_tac.
  - clear - Hknown Hbw HF. mask_tac.
  - clear - Hbw. mask_tac.
  - clear. mask_tac.
  - eapply Forall_impl; [exact Hquals|]. apply variant_scope.
Qed.
(** and the one at the place of a join above [s] *)
Lemma distribute_above st quals k so_far F v' incompatible allow hc ic : quiet T J st2 st -> denotes so_far F -> 0 <= v' -> within (Z.lor F (2 ^ v')) (Z.lor T J) ->
  Forall (variant (Z.lor F (2 ^ v'))) quals -> exists scope ojscope1 ojscope2, bms_add_member (bms_union qualscope so_far) v' = Ok scope /\
    bms_add_member (bms_union ojscope so_far) v' = Ok ojscope1 /\ bms_del_member ojscope1 v = Ok ojscope2 /\ exists st',
  distribute_quals_to_rels (jq_lateral g) st quals k (Some s) (qual_security_level g) scope ojscope2 (syn_lefthand s) incompatible allow hc ic None = Ok (st', None) /\ quiet T J st2 st'.
Proof.
  intros Hq Hso Hv' HF Hquals. destruct (add_member_denotes _ _ (denotes_union _ _ _ _ Hqs Hso) v' Hv') as (scope & E1 & D1).
  destruct (add_member_denotes _ _ (denotes_union _ _ _ _ Hos Hso) v' Hv') as (ojscope1 & E2 & D2). destruct (del_member_denotes _ _ D2 v) as (ojscope2 & E3 & D3); [lia|].
  exists scope, ojscope1, ojscope2. split_and!; [done..|]. pose proof both_whole as Hbw. destruct (sp_left _ (special_of i s Hs)) as [_ H1], (sp_right _ (special_of i s Hs)) as [_ H2].
  eapply distribute_variant; [done|exact D1|exact D3|..].
  - clear - Hknown HF. mask_tac.
  - clear - Hknown Hbw HF. mask_tac.
  - clear - Hbw. mask_tac.
  - clear - H1 H2 Hown. mask_tac.
  - eapply Forall_impl; [exact Hquals|]. intros c Hc. by apply variant_above.
Qed.
Lemma variants_ok l : forall past st quals incompatible so_far F, items = past ++ l -> quiet T J st2 st -> joins_met past F -> denotes so_far F -> bms_wf incompatible ->
  Forall (variant F) quals -> exists st', variants_loop g st (S i) s qualscope ojscope l quals incompatible so_far = Ok st' /\ quiet T J st2 st'.
Proof.
  induction l as [|k l IH]; intros past st quals incompatible so_far F E Hq HF Hso Hinc Hquals; cbn [variants_loop]; [by exists st|].
  assert (get_item st k = get_item st2 k) as Eg by (unfold get_item; by rewrite (qt_items _ _ _ _ Hq)). rewrite Eg.
  assert (items = (past ++ [k]) ++ l) as E' by (rewrite E, <- app_assoc; done). assert (k ∈ items) as Hk by (rewrite E; apply elem_of_app; right; by left).
  destruct (item_cases k Hk) as [(-> & Eown & _)|(i' & s' & Ep & Hj)].
  { apply (IH (past ++ [k]) st quals incompatible so_far F); try done. apply met_skip; [done|]. rewrite Eown. by intros b ?%not_elem_of_nil. }
  pose proof (own_relid k i' s' Hk Hj) as Eown. destruct Hj as (? & ? & ? & ? & ? & _ & _ & Hs' & _). pose proof (sp_relid _ (special_of i' s' Hs')) as Hv'.
  destruct (sp_commute _ (special_of i s Hs)) as (W1 & _ & W2). rewrite Ep. unfold get_sjinfo. cbn [Nat.pred]. rewrite (qt_joins _ _ _ _ Hq), Hs'. cbn [mbind result_bind].
  rewrite (is_member_denotes _ (below_l s) (conj W1 eq_refl) _ Hv'). cbn [mbind result_bind]. pose proof (met_known past (k :: l) F E HF) as HFk.
  destruct (singleton_denotes (ojrelid s') Hv') as (single & Esingle & Hsingle). destruct (del_member_denotes _ _ (conj Hinc eq_refl) (ojrelid s') Hv') as (inc' & Einc & [Winc _]).
  destruct (add_member_denotes _ _ Hso (ojrelid s') Hv') as (so' & Eso & Hso').
  destruct (Z.testbit (below_l s) (ojrelid s')) eqn:Eb; cbn [orb andb negb mbind result_bind]; [|destruct (Nat.eqb_spec (S i') (S i)) as [Ei|Ei]; cbn [orb andb negb mbind result_bind]].
  - pose proof (commuting_pos _ Hv' (or_introl Eb)) as Hpos. rewrite (proj2 (Z.eqb_neq _ 0)) in Eown by lia. pose proof (below_other _ Eb Hv') as Hne.
    destruct (distribute_below st quals k so_far F (bms_copy incompatible) (bms_is_empty so_far) (bms_is_empty so_far) (negb (bms_is_empty so_far)) Hq Hso HFk Hquals) as (st' & -> & Hq').
    cbn [mbind result_bind]. rewrite Esingle. cbn [mbind result_bind]. rewrite Einc. cbn [mbind result_bind]. rewrite Eso. cbn [mbind result_bind].
    apply (IH (past ++ [k]) _ _ _ _ (Z.lor F (2 ^ ojrelid s'))); try done; [by apply met_add; auto|]. apply Forall_fmap. eapply Forall_impl; [exact Hquals|]. intros c Hc.
    by apply variant_add.
  - assert (i' = i) as -> by lia. assert (s' = s) as -> by congruence. rewrite (proj2 (Z.eqb_neq _ 0)) in Eown by lia.
    assert (bms_equal so_far (commute_below_l s) = true) as ->.
    { rewrite (equal_denotes _ _ _ _ Hso (conj W1 eq_refl)). apply Z.eqb_eq. exact (met_own past k l F E Ep HF). }
    cbn [negb].
    destruct (distribute_below st quals k so_far F (bms_copy incompatible) (bms_is_empty so_far) (bms_is_empty so_far) (negb (bms_is_empty so_far)) Hq Hso HFk Hquals) as (st' & -> & Hq').
    cbn [mbind result_bind]. rewrite Eso. cbn [mbind result_bind].
    apply (IH (past ++ [k]) _ _ _ _ (Z.lor F (2 ^ v))); try done; [by apply met_add; auto|]. eapply Forall_impl; [exact Hquals|]. intros c [Hc Hf]. split; [|done]. clear - Hc. mask_tac.
  - assert (ojrelid s' <> v) as Hne by (intros Ev; apply Ei; f_equal; by apply (relid_unique i i' s s')).
    rewrite (is_member_denotes _ (above_r s) (conj W2 eq_refl) _ Hv'). cbn [mbind result_bind]. destruct (Z.testbit (above_r s) (ojrelid s')) eqn:Ea; cbn [orb andb negb mbind result_bind].
    + pose proof (commuting_pos _ Hv' (or_intror Ea)) as Hpos. rewrite (proj2 (Z.eqb_neq _ 0)) in Eown by lia.
      rewrite Esingle. cbn [mbind result_bind]. rewrite Einc. cbn [mbind result_bind].
      pose proof (met_add past k F (ojrelid s') HF Eown Hv' (or_intror (or_introl Ea))) as HF'. pose proof (met_known _ _ _ E' HF') as HFk'.
      assert (Forall (variant (Z.lor F (2 ^ ojrelid s'))) (map_clause (add_nulling_relids (syn_lefthand s) single) <$> quals)) as Hquals'.
      { apply Forall_fmap. eapply Forall_impl; [exact Hquals|]. intros c Hc. by apply variant_add. }
      destruct (distribute_above st _ k so_far F (ojrelid s') (bms_copy inc') (bms_is_empty so_far) (bms_is_empty so_far) (negb (bms_is_empty so_far)) Hq Hso Hv' HFk' Hquals')
        as (qs' & os' & os'' & -> & E2 & E3 & st' & E4 & Hq'). cbn [mbind result_bind]. rewrite E2. cbn [mbind result_bind]. rewrite E3. cbn [mbind result_bind].
      rewrite E4. cbn [mbind result_bind]. rewrite Eso. cbn [mbind result_bind]. by apply (IH (past ++ [k]) _ _ _ _ (Z.lor F (2 ^ ojrelid s'))).
    + apply (IH (past ++ [k]) st quals incompatible so_far F); try done. apply met_skip; [done|]. intros b. rewrite Eown. destruct (Z.eqb_spec (ojrelid s') 0); [by intros ?%not_elem_of_nil|].
      intros ->%list_elem_of_singleton. rewrite Eb, Ea. naive_solver.
Qed.
End Variants.

(** ** All postponed quals *)
Lemma join_geometry k i s : k ∈ items -> item_join k i s -> within (whole s) (Z.lor T J) /\ ~ meets (syn_l s) (syn_r s) /\
  (0 < ojrelid s -> ~ meets (Z.lor (syn_l s) (syn_r s)) (2 ^ ojrelid s)) /\ whole s = node_bits (node_of k).
Proof.
  intros Hk Hj. pose proof (own_relid k i s Hk Hj) as Eo. destruct Hj as (t & a & b & v & quals & En & Ht & Hs & Hn & _). pose proof (Hsite k Hk) as Hst.
  pose proof (sk_apart _ _ _ _ Hst) as Hap. destruct (site_known g tree st1 (an_pos _ Htree) k Hst) as (_ & Hw & _). pose proof (on_sound _ _ (site_node _ _ _ _ Hst)) as Hsn. rewrite En in *.
  apply apart_join in Hap as (_ & _ & H1 & H2). rewrite <- (oj_whole t a b v s quals Hsn Ht Hn) in *. destruct Hn as (_ & _ & Ev & El & Er). rewrite El, Er. split_and!; try done.
  intros Hv. cbn in Eo. rewrite Eo in H2. rewrite (proj2 (Z.eqb_neq _ 0)), bits_one in H2 by lia. done.
Qed.
(** What the quals refer to once the nulling of the joins below is removed *)
Lemma postponed_stripped k i s a b v quals clause : k ∈ items -> node_of k = JoinExpr JOIN_LEFT a b v quals -> joins st2 !! i = Some s -> jti_sjinfo (get_item st2 k) = Some (S i) ->
  oj_node JOIN_LEFT a b v s -> postponed_ok quals s clause -> variant s 0 (if bms_is_empty (commute_below_l s) then clause else map_clause (remove_nulling_relids (commute_below_l s)) clause).
Proof.
  intros Hk En Hs Hp (_ & _ & _ & El & _) [P1 P2 P3 P4]. pose proof (site_node _ _ _ _ (Hsite k Hk)) as Hn. assert (clause ∈ own_quals g (node_of k)) as Hown by (by rewrite En).
  pose proof (on_where _ _ Hn clause Hown) as Hwh. pose proof (on_table _ _ Hn clause Hown) as Htab. destruct (site_known g tree st1 (an_pos _ Htree) k (Hsite k Hk)) as (Hkt & _).
  destruct (sp_commute _ (special_of i s Hs)) as (Wb & _). rewrite (empty_denotes _ (below_l s) (conj Wb eq_refl)). destruct (Z.eqb_spec (below_l s) 0) as [Ez|Hz].
  { rewrite Ez in P3. split; [clear - P3; mask_tac|]. split; [done|]. intros Hne. specialize (Htab Hne). clear - Htab Hkt. mask_tac. }
  assert (~ meets (below_l s) T) as Hd.
  { pose proof Hk as (l1 & l2 & E)%list_elem_of_split. destruct (si_order _ _ _ _ Hinv l1 k l2 i s E Hp Hs) as [Hbelow _]. pose proof (apart_tables _ Htree) as Hap.
    intros (x & Hx & H1 & H2)%meets_bits. apply (apart_bit _ _ x Hap Hx). split; [done|]. apply index_pos, (index_part l1 k l2 x E). left. by apply Hbelow. }
  assert (forall x, 0 <= x -> Z.testbit (below_l s) x = true -> x ∈ outer_joins (node_of k)) as Hbj.
  { intros x Hx Hb. pose proof (sp_below _ (special_of i s Hs)) as Hsb. rewrite El in Hsb. pose proof (within_bit _ _ x Hsb Hx Hb) as Hin.
    pose proof (it_tree _ _ (sk_item _ _ _ _ (Hsite k Hk))) as Ht. rewrite En in *. destruct Ht as (_ & Ha & _). destruct (proj1 (node_bit (outer_node g) (on_sound g) a x Ha Hx) Hin) as [Hin'|Hin'].
    - exfalso. apply (apart_bit _ _ x Hd Hx). split; [done|]. apply (within_bit _ _ x Hkt Hx). pose proof (sk_tables _ _ _ _ (Hsite k Hk)) as Hsub. rewrite En in Hsub.
      apply bits_spec; [|done|apply elem_of_app; by left]. destruct Htree as [Hpos _]. unfold names in Hpos. apply Forall_app in Hpos as [Hpos _].
      rewrite Forall_forall in *. intros z Hz'. by apply Hpos, Hsub.
    - cbn. rewrite !elem_of_app. by left. }
  destruct (ol_remove (commute_below_l s) clause) as [R1 R2]. change (bms_val (commute_below_l s)) with (below_l s) in R2. split.
  - apply within_bits. intros x Hx Ht. pose proof (within_bit _ _ x (within_trans _ _ _ R1 P3) Hx Ht) as Hin. rewrite testbit_lor in Hin. rewrite testbit_lor.
    destruct Hin as [|Hb]; [by left|exfalso]. rewrite (ol_removed (commute_below_l s) quals clause x P1 Hx Hb (on_variables _ _ Hn clause x Hown (Hbj x Hx Hb)) (P4 x Hx Hb)) in Ht. done.
  - split; [apply where_map; [|done]; intros e He; by apply (ol_where (commute_below_l s) None None e)|]. intros Hne.
    assert (varnos clause <> 0) as Hc by (intros Ec; rewrite Ec in R1; apply Hne; clear - R1; mask_tac). specialize (Htab Hc).
    clear - Htab Hkt Hd R2. mask_tac.
Qed.
Lemma oj_quals_ok st k : k ∈ items -> quiet T J st2 st -> oj_joinclauses (get_item st k) <> [] -> exists st', deconstruct_distribute_oj_quals g st items k = Ok st' /\ quiet T J st2 st'.
Proof.
  intros Hk Hq Hne. assert (get_item st k = get_item st2 k) as Eg by (unfold get_item; by rewrite (qt_items _ _ _ _ Hq)). unfold deconstruct_distribute_oj_quals. rewrite Eg in *.
  destruct (item_cases k Hk) as [(_ & _ & E)|(i & s & Ep & Hj)]; [done|]. destruct (join_geometry k i s Hk Hj) as (G1 & G2 & G3 & G4).
  destruct Hj as (t & a & b & v & quals & En & Ht & Hs & Hn & Hpo). assert (jointype s = JOIN_LEFT /\ lhs_strict s = true) as [Et Estr].
  { destruct (oj_joinclauses (get_item st2 k)) as [|c l] eqn:El; [done|]. apply (po_left _ _ _ (Hpo c ltac:(by left))). }
  pose proof (special_of i s Hs) as Hsp. assert (0 < ojrelid s) as Hv by (pose proof (sp_type _ Hsp) as Hty; by rewrite Et in Hty). specialize (G3 Hv).
  assert (t = JOIN_LEFT) as -> by (by destruct Hn as (_ & <- & _)).
  destruct (sp_sides _ Hsp) as (S1 & S2 & S3 & S4), (sp_commute _ Hsp) as (W1 & _ & W2). rewrite Ep. unfold get_sjinfo. cbn [Nat.pred]. rewrite (qt_joins _ _ _ _ Hq), Hs. cbn [mbind result_bind].
  destruct (add_member_denotes _ _ (denotes_union _ _ _ _ (conj S3 eq_refl) (conj S4 eq_refl)) (ojrelid s) (sp_relid _ Hsp)) as (scope & -> & Hscope). cbn [mbind result_bind].
  fold (syn_l s) in Hscope. fold (syn_r s) in Hscope. rewrite <- (whole_own s Hv) in Hscope. rewrite Estr. cbn [negb].
  pose proof (denotes_union _ _ _ _ (conj S1 eq_refl) (conj S2 eq_refl)) as Hoj. change (bms_val (min_lefthand s)) with (lhs s) in Hoj. change (bms_val (min_righthand s)) with (rhs s) in Hoj.
  assert (Forall (variant s 0) (if bms_is_empty (commute_below_l s) then oj_joinclauses (get_item st2 k)
    else map_clause (remove_nulling_relids (commute_below_l s)) <$> oj_joinclauses (get_item st2 k))) as Hvar.
  { pose proof (fun c Hc => postponed_stripped k i s a b v quals c Hk En Hs Ep Hn (Hpo c Hc)) as Hstrip.
    destruct (bms_is_empty (commute_below_l s)); [|rewrite Forall_fmap]; apply Forall_forall; intros c Hc; by apply Hstrip. }
  destruct (negb (bms_is_empty (commute_above_r s)) || negb (bms_is_empty (commute_below_l s))) eqn:Ecom.
  - destruct (add_member_denotes _ _ (denotes_union _ _ _ _ (conj W1 eq_refl) (conj W2 eq_refl)) (ojrelid s) (sp_relid _ Hsp)) as (inc & -> & [Winc _]). cbn [mbind result_bind].
    apply (variants_ok i s Hs Hv G1 G2 G3 scope _ Hscope Hoj k Hk Ep items [] st _ inc None 0); try done. intros x Hx. rewrite testbit_0. unfold OuterTree.index_of. cbn.
    split; [done|]. by intros [?%not_elem_of_nil _].
  - apply orb_false_iff in Ecom as [_ Eb%negb_false_iff]. rewrite Eb in Hvar.
    destruct (distribute_variant i s Hs G2 st (oj_joinclauses (get_item st2 k)) k scope _ _ _ None true false false Hq Hscope Hoj G1) as (st' & -> & Hq').
    + pose proof (both_whole i s Hs) as Hb. clear - G1 Hb. mask_tac.
    + by apply (both_whole i s Hs).
    + apply within_refl.
    + eapply Forall_impl; [exact Hvar|]. intros c [Hc Hf]. pose proof (both_whole i s Hs) as Hb. split_and!; [clear - Hb Hc; mask_tac|clear - Hc; mask_tac|done].
    + exists st'. done.
Qed.
Lemma oj_quals_loop_ok l : l ⊆ items -> forall st, quiet T J st2 st -> exists st', oj_quals_loop g st items l = Ok st' /\ quiet T J st2 st'.
Proof.
  induction l as [|k l IH]; intros Hsub st Hq; cbn [oj_quals_loop]; [by exists st|]. assert (l ⊆ items) as Hsub' by (intros x Hx; apply Hsub; by right).
  destruct (oj_joinclauses (get_item st k)) as [|c cs] eqn:E; [by apply IH|].
  destruct (oj_quals_ok st k) as (st' & -> & Hq'); [apply Hsub; by left|done|by rewrite E|]. by apply IH.
Qed.
End Postponed.
