(* ===== verification/OuterQuery.v ===== *)
(** * Queries with outer joins

    [deconstruct_jointree] succeeds on every query that the parser and the rewriter can hand over: it lists every table once, and makes one special join for each
    outer join and semijoin. *)
From stdpp Require Import gmap sorting.
From S2P Require Import Prelude BitUtils Bitmapset BitmapsetSpec BitmapsetIter EquivClass EquivClassProps EquivClassThms PathKeys JoinRoot JoinRels JoinLinks JoinLegal RelSets ImpliedEq Quals QueryQuals OuterJoin JoinTree QueryTree SpecialJoins OuterQuals OuterTree PostponedQuals.
#[local] Open Scope Z_scope.

Section Query.
Context {Expr : Type} `{!ExprOps Expr} `{!OpFamilies Expr} `{!QualOps Expr} `{!QualLaws Expr} `{!OuterOps Expr} `{!OuterLaws Expr} (g : JTQuery Expr).
#[local] Abbreviation State := (JTRoot Expr).
#[local] Abbreviation Node := (JoinNode Expr).
Implicit Types (st : State) (node : Node) (k : nat).

(** ** The items of a subtree *)
Lemma child_parts node n : n ∈ children node -> apart_names (names node) -> tables n ⊆ tables node /\ outer_joins n ⊆ outer_joins node /\ apart_names (names n).
Proof.
  destruct node as [v|l quals|t a b v quals]; cbn [children].
  - by intros ?%not_elem_of_nil.
  - intros Hn Hap. pose proof (forest_part tables l n Hn) as H1. pose proof (forest_part outer_joins l n Hn) as H2. destruct (tables_children (FromExpr l quals)) as [E|E]; [done|].
    rewrite E, (outer_joins_children (FromExpr l quals)), app_nil_r. split_and!; [done|done|]. rewrite names_from in Hap. clear - Hn Hap.
    apply list_elem_of_split in Hn as (l1 & l2 & ->). induction l1 as [|n' l1 IH]; cbn [app] in Hap; rewrite forest_names_cons in Hap; apply apart_names_app in Hap as (H1 & H2 & _); [done|].
    by apply IH.
  - intros Hn Hap. cbn [tables outer_joins]. apply apart_join in Hap as (Ha & Hb & _). apply elem_of_cons in Hn as [->| ->%list_elem_of_singleton].
    + split_and!; [intros x Hx; rewrite !elem_of_app; tauto..|done].
    + split_and!; [intros x Hx; rewrite !elem_of_app; tauto..|done].
Qed.
Lemma forest_layout_item st nodes new k : forest_layout st nodes new -> k ∈ new -> exists n l, n ∈ nodes /\ layout st n l /\ k ∈ l.
Proof.
  revert new. induction nodes as [|n nodes IH]; intros new; cbn [forest_layout]; [by intros -> ?%not_elem_of_nil|].
  intros (l1 & l2 & -> & H1 & H2) [Hk|Hk]%elem_of_app; [exists n, l1; split; [by left|done]|]. destruct (IH l2 H2 Hk) as (n' & l & Hn & ?). exists n', l. split; [by right|done].
Qed.
Lemma layout_parts st node : forall new k, layout st node new -> apart_names (names node) -> k ∈ new ->
  let n := jtnode (get_item st k) in tables n ⊆ tables node /\ outer_joins n ⊆ outer_joins node /\ apart_names (names n).
Proof.
  assert (forall node, (forall n, n ∈ children node -> forall new k, layout st n new -> apart_names (names n) -> k ∈ new -> let n' := jtnode (get_item st k) in
      tables n' ⊆ tables n /\ outer_joins n' ⊆ outer_joins n /\ apart_names (names n')) -> forall new k, layout st node new -> apart_names (names node) -> k ∈ new ->
      let n' := jtnode (get_item st k) in tables n' ⊆ tables node /\ outer_joins n' ⊆ outer_joins node /\ apart_names (names n')) as Hstep.
  { clear node. intros node IH new k Hl Hap Hk n'. apply layout_split in Hl as (below & k0 & -> & E & Hf). apply elem_of_app in Hk as [Hk| ->%list_elem_of_singleton]; [|subst n'; by rewrite E].
    destruct (forest_layout_item st _ _ k Hf Hk) as (n & l & Hn & Hl & Hkl). destruct (child_parts node n Hn Hap) as (H1 & H2 & H3).
    destruct (IH n Hn l k Hl H3 Hkl) as (H4 & H5 & H6). split_and!; [by transitivity (tables n)|by transitivity (outer_joins n)|done]. }
  induction node as [v|l quals IH|t a b v quals IHa IHb] using node_ind; apply Hstep; cbn [children].
  - by intros n ?%not_elem_of_nil.
  - by rewrite <- Forall_forall.
  - by intros n [->| ->%list_elem_of_singleton]%elem_of_cons.
Qed.
Lemma layout_index st node : forall new, layout st node new -> index_of st new = outer_joins node.
Proof.
  assert (forall nodes, Forall (fun n => forall new, layout st n new -> index_of st new = outer_joins n) nodes -> forall new, forest_layout st nodes new ->
    index_of st new = forest_joins nodes) as Hforest.
  { induction 1 as [|n nodes Hn _ IH]; intros new; cbn [forest_layout]; [by intros ->|]. intros (l1 & l2 & -> & H1 & H2). rewrite index_of_app, (Hn l1 H1), (IH l2 H2). done. }
  induction node as [v|l quals IH|t a b v quals IHa IHb] using node_ind; intros new (below & k & -> & E & Hf)%layout_split;
    rewrite index_of_app, outer_joins_children; f_equal; try (unfold index_of; cbn; rewrite app_nil_r; by rewrite E); apply Hforest; try done; by repeat constructor.
Qed.

(** ** [deconstruct_jointree] *)

(** What the parser and the rewriter guarantee of the whole query *)
Record outer_query (tree : Node) : Prop := {
  oq_from : exists l quals, tree = FromExpr l quals;
  oq_nodes : tree_all (outer_node g) tree;
  oq_names : apart_names (names tree);
  oq_placeholders : Forall placeholder_ok (jq_placeholders g)
}.
(** The planner state before [deconstruct_jointree]: no classes or special joins yet, the top join domain, and an entry for every table and outer join *)
Record fresh_outer (tree : Node) st : Prop := {
  fo_ec : exists rels, im_ec (jt_root st) = ec_start rels 0;
  fo_joins : im_join_info (jt_root st) = [];
  fo_domain : im_jdomains (jt_root st) = [None];
  fo_slots : slots st (tables tree) (outer_joins tree)
}.
Section Tree.
Context (tree : Node) (Hq : outer_query tree).
#[local] Abbreviation T := (bits (tables tree)).
#[local] Abbreviation J := (bits (outer_joins tree)).
#[local] Abbreviation joins st := (im_join_info (jt_root st)).
Lemma query_fit : fit T J (node_bits tree).
Proof.
  destruct (node_known g tree (an_pos _ (oq_names _ Hq)) tree (oq_nodes _ Hq)) as (_ & H1 & H2); [done..|]. by apply fit_table.
Qed.
Lemma query_mask : node_bits tree = Z.lor T J.
Proof. unfold node_bits. apply bits_app. Qed.
(** After the first scan *)
Lemma start_calm st st1 d f : fresh_outer tree st -> grown st st1 f -> denotes (get_domain st1 0) (node_bits tree) -> calm T J (jt_root (set_all_query_rels st1 d)).
Proof.
  intros [(rels & Ee) Ej Ed Hs] Hg [Wd Vd]. pose proof (gd_root _ _ _ Hg) as Er. cbn in Er. assert (im_ec (jt_root st1) = ec_start rels 0) as Ee1 by (by rewrite Er).
  assert (im_rels (jt_root st1) = im_rels (jt_root st)) as El by (by rewrite Er).
  pose proof (an_pos _ (oq_names _ Hq)) as [Hp1 Hp2]%Forall_app. split; cbn; rewrite ?Ee1, ?El.
  - apply start_inv.
  - done.
  - assert (fit T J (bms_val (get_domain st1 0))) as Hd by (rewrite Vd; apply query_fit). exact (conj Wd Hd).
  - intros b Hb Hin%bits_spec; [|done..]. split; [rewrite Forall_forall in Hp1; by apply Hp1|]. destruct (sl_table _ _ _ Hs b Hin) as (rel & _ & H & _). by exists rel.
  - intros b Hb Hin%bits_spec; [|done..]. split; [rewrite Forall_forall in Hp2; by apply Hp2|]. by apply (sl_join _ _ _ Hs).
Qed.
Lemma deconstruct_ok st : fresh_outer tree st -> exists joinlist st', deconstruct_jointree g st tree = Ok (joinlist, st') /\ joinlist_tables joinlist = tables tree /\
  info tree (joins st') /\ calm T J (jt_root st').
Proof.
  intros Hf. unfold deconstruct_jointree. rewrite (fo_domain _ _ Hf). destruct (oq_from _ Hq) as (ns & qs & Etree). rewrite Etree. rewrite <- Etree. clear ns qs Etree.
  set (st0 := set_scopes _ None None _). assert (im_jdomains (jt_root st0) = [None]) as Ej0 by (cbn; by rewrite (fo_domain _ _ Hf)).
  assert (fresh_outer tree st0) as Hf0 by (destruct Hf as [? ? ? []]; by split).
  assert (ready st0 (tables tree) (outer_joins tree)) as Hr0.
  { split; [|done|done|apply Hf0]. intros j. unfold get_domain, jd_relids. rewrite Ej0. by destruct j as [|[|j]]. }
  destruct (deconstruct_recurse_ok g (outer_node g) (on_sound g) tree (oq_nodes _ Hq) st0 0%nat None []) as (joinlist & st1 & new & E & HT & [Hj _]); [rewrite Ej0; cbn; lia|done|].
  rewrite E. cbn [mbind result_bind app]. pose proof (ts_grown _ _ _ _ _ _ _ _ HT) as Hg. pose proof (gd_wf _ _ _ Hg (rd_domains _ _ _ Hr0) 0%nat) as Wd.
  pose proof (gd_val _ _ _ Hg 0%nat (rd_domains _ _ _ Hr0) ltac:(rewrite Ej0; cbn; lia)) as Vd. unfold at_domain in Vd. rewrite decide_True in Vd by done.
  assert (bms_val (get_domain st0 0) = 0) as V0 by (unfold get_domain, jd_relids; by rewrite Ej0). rewrite V0 in Vd. cbn in Vd.
  set (st2 := set_all_query_rels st1 _). change (get_domain st2 0) with (get_domain st1 0). cbn [im_all_query_rels jt_root st2 set_all_query_rels set_jt_root].
  rewrite (equal_denotes _ _ (Z.lor T J) (node_bits tree)); [|apply denotes_union; [apply (ts_base _ _ _ _ _ _ _ _ HT)|apply (ts_outer _ _ _ _ _ _ _ _ HT)]|by split].
  rewrite query_mask, Z.eqb_refl. cbn [negb].
  assert (calm T J (jt_root st2)) as Hc by (eapply start_calm; [exact Hf0|exact Hg|by split]). assert (joins st2 = []) as Ej2.
  { cbn. rewrite (gd_root _ _ _ Hg). apply Hf0. }
  pose proof (an_pos _ (oq_names _ Hq)) as Hpos. pose proof (ts_layout _ _ _ _ _ _ _ _ HT) as Hlay.
  assert (forall k, k ∈ new -> item_ok (outer_node g) (get_item st1 k)) as Hitem by (intros k Hk; by apply (ts_item _ _ _ _ _ _ _ _ HT)).
  assert (waiting g tree st1 st2 [] [tree] new) as Hw.
  { split.
    - split; rewrite ?Ej2; try done; try constructor; try (by intros k ?%not_elem_of_nil).
    - intros k Hk. split; [apply not_elem_of_nil|]. split; [by apply Hitem|by apply (ts_new _ _ _ _ _ _ _ _ HT)].
    - apply (ts_nodup _ _ _ _ _ _ _ _ HT).
    - unfold forest_tables. by rewrite forest_one.
    - unfold forest_joins. by rewrite forest_one.
    - unfold forest_names, forest_tables, forest_joins. rewrite !forest_one. apply (oq_names _ Hq).
    - repeat constructor. apply (oq_nodes _ Hq).
    - by rewrite Ej2. }
  destruct (visit_node g tree st1 Hpos (oq_placeholders _ Hq) tree st2 [] new Hw Hlay) as (st3 & L0 & L1 & -> & Hi & EL & S0 & F1). cbn [mbind result_bind app] in *.
  rewrite Ej2 in S0. inversion S0; subst L0. destruct F1 as (L1' & L2' & -> & Hinfo & ->). rewrite app_nil_r in EL. cbn [app] in EL. rewrite <- EL in Hinfo.
  assert (exists st', (match joins st3 with [] => Ok st3 | _ :: _ => oj_quals_loop g st3 new new end) = Ok st' /\ quiet T J st3 st') as (st' & -> & Hquiet).
  { destruct (oj_quals_loop_ok g tree st1 st3 new (oq_names _ Hq) Hi) with (l := new) (st := st3) as (st' & E' & Hq'); try done.
    - intros k Hk. destruct (layout_parts st1 tree new k Hlay (oq_names _ Hq) Hk) as (P1 & P2 & P3). split; try done; [by apply Hitem|by apply (ts_new _ _ _ _ _ _ _ _ HT)].
    - rewrite (layout_index st1 tree new Hlay). pose proof (an_nodup _ (oq_names _ Hq)) as Hnd. by apply NoDup_app in Hnd as (_ & _ & Hnd).
    - apply quiet_refl, Hi.
    - destruct (joins st3); [exists st3; split; [done|apply quiet_refl, Hi]|by exists st']. }
  cbn [mbind result_bind]. exists joinlist, st'. rewrite (qt_joins _ _ _ _ Hquiet). split_and!; try done. apply Hquiet.
Qed.
End Tree.
End Query.
