(* ===== verification/WrittenOrder.v ===== *)
(** * The join order written in the query

    The order in which a query is written is one that the planner can follow: every join of the tree is legal, performs the special join made for it, and yields the
    relations of its node.  Minimum hand sides and commuting joins never rule it out; only a FULL JOIN may turn out to have no path. *)
From stdpp Require Import gmap sorting.
From S2P Require Import Prelude BitUtils Bitmapset BitmapsetSpec BitmapsetIter EquivClass EquivClassProps EquivClassThms PathKeys JoinRoot JoinRels JoinLinks JoinSearch JoinLegal RelSets ImpliedEq Quals QueryQuals OuterJoin JoinTree QueryTree SpecialJoins OuterQuals OuterTree PostponedQuals OuterQuery.
#[local] Open Scope Z_scope.

Section Written.
Context {Expr : Type}.
#[local] Abbreviation Node := (JoinNode Expr).
Implicit Types (node n : Node) (l : list Node) (s : SpecialJoinInfo) (L : list SpecialJoinInfo) (x y : Z).

(** The joins of a tree as it is written: relations on the left and on the right, type and range table index *)
Inductive written : Node -> Z -> Z -> JoinType -> Z -> Prop :=
| written_join t a b v quals : written (JoinExpr t a b v quals) (node_bits a) (node_bits b) t v
| written_left t a b v quals x y t' v' : written a x y t' v' -> written (JoinExpr t a b v quals) x y t' v'
| written_right t a b v quals x y t' v' : written b x y t' v' -> written (JoinExpr t a b v quals) x y t' v'
| written_from l1 n l2 quals : l1 <> [] -> written (FromExpr (l1 ++ n :: l2) quals) (forest_bits l1) (node_bits n) JOIN_INNER 0
| written_entry n l quals x y t v : n ∈ l -> written n x y t v -> written (FromExpr l quals) x y t v.

(** ** Masks of nodes *)
Lemma inner_within node : within (inner_bits node) (node_bits node).
Proof.
  induction node as [v|l quals IH|t a b v quals IHa IHb] using node_ind.
  - apply within_0.
  - cbn [inner_bits]. destruct l as [|n [|]]; [apply within_0| |apply within_refl]. apply Forall_cons in IH as [H _]. by rewrite node_bits_from, forest_bits_one.
  - cbn [inner_bits]. case_bool_decide; [apply within_refl|]. rewrite node_bits_join. clear - IHa IHb. mask_tac.
Qed.
Lemma forest_bits_in n l : n ∈ l -> within (node_bits n) (forest_bits l).
Proof.
  intros (l1 & l2 & ->)%list_elem_of_split. rewrite forest_bits_app, (forest_bits_app [n] l2 : forest_bits (n :: l2) = _), forest_bits_one.
  apply within_lor_r2, within_part_l.
Qed.
Lemma child_bits node n : n ∈ children node -> within (node_bits n) (node_bits node) /\ within (inner_bits n) (inner_bits node).
Proof.
  destruct node as [v|l quals|t a b v quals]; cbn [children]; [by intros ?%not_elem_of_nil|..].
  - intros Hn. rewrite node_bits_from. pose proof (forest_bits_in n l Hn) as Hw. split; [done|]. cbn [inner_bits]. destruct l as [|n' [|n'' l]].
    + by apply not_elem_of_nil in Hn.
    + apply list_elem_of_singleton in Hn as ->. apply within_refl.
    + rewrite node_bits_from. pose proof (inner_within n) as Hi. clear - Hi Hw. mask_tac.
  - intros Hn. rewrite node_bits_join. cbn [inner_bits]. rewrite node_bits_join. pose proof (inner_within a) as Ha. pose proof (inner_within b) as Hb.
    apply elem_of_cons in Hn as [->| ->%list_elem_of_singleton]; (split; [clear; mask_tac|]); case_bool_decide; clear - Ha Hb; mask_tac.
Qed.
Lemma tables_pos node : tree_all sound_node node -> tables node <> [] /\ Forall (fun v => 0 < v) (tables node ++ outer_joins node).
Proof. by apply (nodes_pos sound_node). Qed.
Lemma tables_meet node : tree_all sound_node node -> meets (node_bits node) (bits (tables node)) /\ node_bits node <> 0.
Proof.
  intros [Hne [Hp _]%Forall_app]%tables_pos. assert (meets (node_bits node) (bits (tables node))) as Hm; [|split; [done|clear - Hm; mask_tac]].
  destruct (tables node) as [|v l] eqn:E; [done|]. rewrite <- E in *. assert (v ∈ tables node) as Hv by (rewrite E; by left).
  assert (0 < v) by (rewrite Forall_forall in Hp; by apply Hp). unfold node_bits. rewrite bits_app. apply meets_bits. exists v. rewrite testbit_lor, bits_spec by (done || lia).
  split; [lia|tauto].
Qed.
Lemma tables_part node n : tree_all sound_node node -> tables n ⊆ tables node -> within (bits (tables n)) (bits (tables node)).
Proof. intros [_ [Hp _]%Forall_app]%tables_pos Hs. by apply bits_sub. Qed.

(** ** A node and the special joins around it *)

(** The special join [s] is not made for a join of [node], whose special joins are [LN]. *)
Inductive outside node LN s : Prop :=
| outside_apart : ~ meets (whole s) (node_bits node) -> outside node LN s
| outside_left : within (node_bits node) (syn_l s) -> outside node LN s
| outside_right : within (node_bits node) (syn_r s) -> within (Z.land (inner_bits node) (bits (tables node))) (rhs s) -> Forall (nested (jointype s) (rhs s)) LN -> outside node LN s.
Record surrounded L node LN : Prop := {
  su_info : info node LN;
  su_sound : tree_all sound_node node;
  su_names : apart_names (names node);
  su_joins s : s ∈ L -> special s /\ ~ meets (syn_l s) (syn_r s);
  su_split : exists L1 L2, L = L1 ++ LN ++ L2 /\ Forall (outside node LN) (L1 ++ L2)
}.
Lemma outside_down node LN s n Ln : tree_all sound_node node -> apart_names (names node) -> outside node LN s -> n ∈ children node -> Ln ⊆ LN -> outside n Ln s.
Proof.
  intros Hs Ha Ho Hn Hsub. destruct (child_bits node n Hn) as [H1 H2]. destruct (child_parts node n Hn Ha) as (H3 & _). pose proof (tables_part node n Hs H3) as H4.
  destruct Ho as [Ho|Ho|Ho Hi Hne].
  - apply outside_apart. clear - Ho H1. mask_tac.
  - apply outside_left. clear - Ho H1. mask_tac.
  - apply outside_right; [clear - Ho H1; mask_tac|clear - Hi H2 H4; mask_tac|]. rewrite Forall_forall in *. auto.
Qed.
Lemma belongs_part node s x : belongs node s -> within (node_bits node) x -> special s /\ within (whole s) x.
Proof. intros [Hs Hw] Hx. split; [done|]. clear - Hw Hx. mask_tac. Qed.
Lemma forest_info_app l1 l2 L : forest_info (l1 ++ l2) L -> exists L1 L2, L = L1 ++ L2 /\ forest_info l1 L1 /\ forest_info l2 L2.
Proof.
  revert L. induction l1 as [|n l1 IH]; intros L H; [by exists [], L|]. destruct H as (La & Lb & -> & Hn & (L1 & L2 & -> & H1 & H2)%IH).
  exists (La ++ L1), L2. split; [by rewrite app_assoc|]. split; [by exists La, L1|done].
Qed.
Lemma forest_belongs l L : Forall (tree_all sound_node) l -> forest_info l L -> Forall (fun s => special s /\ within (whole s) (forest_bits l)) L.
Proof.
  intros Hs. revert L. induction Hs as [|n l Hn _ IH]; intros L; cbn [forest_info]; [by intros ->|]. intros (L1 & L2 & -> & H1 & H2).
  rewrite (forest_bits_app [n] l : forest_bits (n :: l) = _), forest_bits_one. apply Forall_app. split.
  - eapply Forall_impl; [by apply (info_belongs n)|]. intros s Hb. apply (belongs_part n s _ Hb). apply within_part_l.
  - eapply Forall_impl; [by apply IH|]. intros s [Hb Hw]. split; [done|]. clear - Hw. mask_tac.
Qed.
(** The two sides of a join, and the entries of a FROM list *)
Lemma surrounded_join L t (a b : Node) v quals LN : surrounded L (JoinExpr t a b v quals) LN ->
  exists La Lb, surrounded L a La /\ surrounded L b Lb.
Proof.
  intros [(La & Lb & own & -> & Ia & Ib & Hown) Hs Hn Hj (L1 & L2 & -> & Ho)]. destruct (apart_join _ _ _ _ _ Hn) as (Na & Nb & Hd & Hdv). exists La, Lb.
  pose proof Hs as (Hsn & Sa & Sb). apply Forall_app in Ho as [O1 O2].
  assert (Forall (fun s => outside b Lb s) La) as Hab.
  { eapply Forall_impl; [by apply (info_belongs a)|]. intros s [_ Hw]. apply outside_apart. clear - Hw Hd. mask_tac. }
  assert (Forall (fun s => outside a La s) Lb) as Hba.
  { eapply Forall_impl; [by apply (info_belongs b)|]. intros s [_ Hw]. apply outside_apart. clear - Hw Hd. mask_tac. }
  assert (Forall (fun s => outside a La s /\ outside b Lb s) own) as Hoo.
  { case_bool_decide as Et; [by subst own|]. destruct Hown as (s & -> & [(_ & Et' & _ & El & Er) Hi Hne]). apply Forall_singleton. split.
    - apply outside_left. rewrite El. apply within_refl.
    - apply outside_right; [rewrite Er; apply within_refl|done|by rewrite Et']. }
  assert (forall Lx n Ln, Forall (outside (JoinExpr t a b v quals) (La ++ Lb ++ own)) Lx -> n ∈ [a; b] -> Ln ⊆ La ++ Lb ++ own -> Forall (outside n Ln) Lx) as Hdown.
  { intros Lx n Ln HL Hin Hsub. eapply Forall_impl; [exact HL|]. intros s Hos. by apply (outside_down _ _ _ n Ln Hs Hn Hos). }
  apply Forall_and in Hoo as [Hoa Hob]. split; (split; [done|done|done|exact Hj|]).
  - exists L1, (Lb ++ own ++ L2). split; [by rewrite <- !app_assoc|]. rewrite !Forall_app. split_and!; try done; apply Hdown; try done; try (by left).
    + intros s Hin. rewrite elem_of_app. by left.
    + intros s Hin. rewrite elem_of_app. by left.
  - exists (L1 ++ La), (own ++ L2). split; [by rewrite <- !app_assoc|]. rewrite !Forall_app. split_and!; try done; apply Hdown; try done; try (by right; left).
    + intros s Hin. rewrite !elem_of_app. tauto.
    + intros s Hin. rewrite !elem_of_app. tauto.
Qed.
Lemma forest_names_app l1 l2 : forest_names (l1 ++ l2) ≡ₚ forest_names l1 ++ forest_names l2.
Proof. induction l1 as [|n l1 IH]; [done|]. cbn [app]. rewrite !forest_names_cons, IH. by rewrite app_assoc. Qed.
Lemma from_parts l1 n l2 quals : tree_all sound_node (FromExpr (l1 ++ n :: l2) quals) -> apart_names (names (FromExpr (l1 ++ n :: l2) quals)) ->
  (Forall (tree_all sound_node) l1 /\ tree_all sound_node n /\ Forall (tree_all sound_node) l2) /\ apart_names (names n) /\
  ~ meets (forest_bits l1) (node_bits n) /\ ~ meets (forest_bits l1) (forest_bits l2) /\ ~ meets (node_bits n) (forest_bits l2).
Proof.
  intros Hs Hn. apply tree_all_children in Hs. cbn [children] in Hs. apply Forall_app in Hs as [S1 [S2 S3]%Forall_cons]. split; [done|].
  rewrite names_from, forest_names_app, forest_names_cons in Hn. apply apart_names_app in Hn as (_ & N2 & D1). apply apart_names_app in N2 as (N2 & _ & D2).
  rewrite bits_app in D1. change (bits (names n)) with (node_bits n) in *. change (bits (forest_names l1)) with (forest_bits l1) in *. change (bits (forest_names l2)) with (forest_bits l2) in *.
  split_and!; [done|clear - D1; mask_tac|clear - D1; mask_tac|done].
Qed.
Lemma surrounded_from L l1 n l2 quals LN : surrounded L (FromExpr (l1 ++ n :: l2) quals) LN -> exists Ln, surrounded L n Ln.
Proof.
  intros [Hi Hs Hn Hj (L1 & L2 & -> & Ho)]. rewrite info_from in Hi. apply forest_info_app in Hi as (K1 & K & -> & I1 & Kn & K2 & -> & In & I2).
  destruct (from_parts l1 n l2 quals Hs Hn) as ((S1 & S2 & S3) & Nn & D1 & D2 & D3). exists Kn. split; [done|done|done|exact Hj|].
  apply Forall_app in Ho as [O1 O2].
  assert (forall Lx, Forall (outside (FromExpr (l1 ++ n :: l2) quals) (K1 ++ Kn ++ K2)) Lx -> Forall (outside n Kn) Lx) as Hdown.
  { intros Lx HL. eapply Forall_impl; [exact HL|]. intros s Hos. apply (outside_down _ _ _ n Kn Hs Hn Hos).
    - cbn [children]. apply elem_of_app. right. by left.
    - intros s' Hin. rewrite !elem_of_app. tauto. }
  exists (L1 ++ K1), (K2 ++ L2). split; [by rewrite <- !app_assoc|]. rewrite !Forall_app. split_and!; [by apply Hdown| | |by apply Hdown].
  - eapply Forall_impl; [by apply (forest_belongs l1)|]. intros s [_ Hw]. apply outside_apart. clear - Hw D1. mask_tac.
  - eapply Forall_impl; [by apply (forest_belongs l2)|]. intros s [_ Hw]. apply outside_apart. clear - Hw D3. mask_tac.
Qed.

(** ** Legality *)
Context {Store : Type} {join_paths : JoinPaths Store} (q : Query (Expr := Expr)) (store : Store).
Context (Hlateral : hasLateralRTEs q = false).
#[local] Abbreviation L := (join_info_list q).
Section Inputs.
Context (r1 r2 : JoinRel).
#[local] Abbreviation x := (rel_val r1).
#[local] Abbreviation y := (rel_val r2).
Context (Hx : x <> 0) (Hy : y <> 0) (Hxy : ~ meets x y).

Lemma settled_in s z : special s -> within (whole s) z -> z = x \/ z = y -> settled r1 r2 s.
Proof.
  intros Hs Hw Hz. destruct (sp_left _ Hs) as [_ H1], (sp_right _ Hs) as [_ H2]. unfold whole in Hw. assert (within (lhs s) z /\ within (rhs s) z) as [W1 W2] by (split; clear - Hw H1 H2; mask_tac).
  unfold settled. destruct Hz as [<-|<-]; tauto.
Qed.
Lemma settled_apart s : special s -> ~ meets (syn_r s) (both r1 r2) -> settled r1 r2 s.
Proof. intros Hs Hd. left. destruct (sp_right _ Hs) as [_ H2]. clear - Hd H2. mask_tac. Qed.
(** A join below the right side of [s] does not perform it. *)
Lemma right_idle s : special s -> ~ meets (syn_l s) (syn_r s) -> within (both r1 r2) (syn_r s) -> forall rev uniq, ~ performs store r1 r2 s rev uniq.
Proof.
  intros Hs Hd Hw rev uniq. destruct (sp_left _ Hs) as [N1 W1]. unfold both in Hw. assert (~ within (lhs s) x /\ ~ within (lhs s) y) as [A1 A2].
  { split; intros Hl; apply N1; clear - Hl W1 Hd Hw; mask_tac. }
  assert (syn_r s <> x /\ syn_r s <> y) as [B1 B2].
  { split; intros E; rewrite E in Hw; [apply Hy|apply Hx]; clear - Hw Hxy; mask_tac. }
  unfold performs, over_unique, spans. fold (syn_r s). destruct uniq, rev; tauto.
Qed.
(** The join inside [node], around which [s] is *)
Lemma outside_cases node LN s : special s -> ~ meets (syn_l s) (syn_r s) -> within (both r1 r2) (node_bits node) -> outside node LN s -> settled r1 r2 s \/
  (forall rev uniq, ~ performs store r1 r2 s rev uniq) /\ within (both r1 r2) (syn_r s) /\ within (Z.land (inner_bits node) (bits (tables node))) (rhs s) /\
    Forall (nested (jointype s) (rhs s)) LN.
Proof.
  intros Hs Hd Hw [Ho|Ho|Ho Hi Hn].
  - left. apply settled_apart; [done|]. unfold whole in Ho. clear - Hw Ho. mask_tac.
  - left. apply settled_apart; [done|]. clear - Hw Ho Hd. mask_tac.
  - assert (within (both r1 r2) (syn_r s)) as Hb by (clear - Hw Ho; mask_tac). right. split; [by apply right_idle|]. done.
Qed.
Lemma matched_none (l : list SpecialJoinInfo) : Forall (idle store r1 r2) l -> matched store r1 r2 l None false false.
Proof. induction 1; by constructor. Qed.
Lemma matched_one (l1 l2 : list SpecialJoinInfo) s : Forall (idle store r1 r2) (l1 ++ l2) -> ~ settled r1 r2 s -> performs store r1 r2 s false false -> matched store r1 r2 (l1 ++ s :: l2) (Some s) false false.
Proof.
  intros [H1 H2]%Forall_app Hn Hp. induction H1; cbn; [by apply matched_here|by apply matched_idle].
Qed.
(** No special join is performed. *)
Lemma legal_inner : (forall s, s ∈ L -> settled r1 r2 s \/ (forall rev uniq, ~ performs store r1 r2 s rev uniq) /\ crossed r1 r2 s) -> legal q store r1 r2 None false false.
Proof.
  intros H. split; [|..|by rewrite Hlateral].
  - apply matched_none, Forall_forall. intros s Hs. destruct (H s Hs) as [|[? _]]; [by left|by right].
  - intros s Hs [Hn _]. destruct (H s Hs) as [|[_ Hc]]; [done|by left].
Qed.
(** The special join [s] of the two inputs is performed. *)
Lemma own_performed s : special s -> syn_l s = x -> syn_r s = y -> ~ settled r1 r2 s /\ performs store r1 r2 s false false.
Proof.
  intros Hs El Er. destruct (sp_left _ Hs) as [N1 W1], (sp_right _ Hs) as [N2 W2]. rewrite El in W1. rewrite Er in W2. split; [|done].
  unfold settled, both, proper_part. fold (syn_r s). rewrite Er. intros [H|[H|[[_ H]|[[H _]|[_ [[H _]|[_ H]]]]]]]; [..|done].
  - apply N2. clear - H W2. mask_tac.
  - apply N1. clear - H W1 W2 Hxy. mask_tac.
  - apply N2. clear - H W2 Hxy. mask_tac.
  - apply N1. clear - H W1 Hxy. mask_tac.
  - apply Hy. clear - H Hxy. mask_tac.
Qed.
Lemma legal_outer (l1 l2 : list SpecialJoinInfo) s : L = l1 ++ s :: l2 -> special s -> syn_l s = x -> syn_r s = y ->
  (forall s', s' ∈ l1 ++ l2 -> settled r1 r2 s' \/ (forall rev uniq, ~ performs store r1 r2 s' rev uniq) /\ admits r1 r2 s' /\ strict_left (Some s)) ->
  legal q store r1 r2 (Some s) false false.
Proof.
  intros E Hs El Er H. destruct (own_performed s Hs El Er) as [Hns Hp]. split; [|..|by rewrite Hlateral].
  - rewrite E. apply matched_one; [|done..]. apply Forall_forall. intros s' Hs'. destruct (H s' Hs') as [|[? _]]; [by left|by right].
  - rewrite E. intros s' Hs' [Hn Hnp]. assert (s' = s \/ s' ∈ l1 ++ l2) as [->|Hin]; [|by apply Hnp in Hp|].
    { revert Hs'. rewrite !elem_of_app, elem_of_cons. tauto. }
    destruct (H s' Hin) as [|(_ & Ha & Hl)]; [done|by right].
Qed.
End Inputs.

(** ** The relations of the join *)
Lemma pushed_none (sj : SpecialJoinInfo) (l : list SpecialJoinInfo) rs X : denotes rs X ->
  Forall (fun o => special o /\ (0 < ojrelid o -> Z.testbit X (ojrelid o) = true \/ ~ (within (lhs o) X /\ within (rhs o) X))) l ->
  forall above, bms_wf above -> pushed_down_loop sj l rs above = Ok rs.
Proof.
  intros HX. induction 1 as [|o l [Hs Ho] _ IH]; intros above Wa; cbn [pushed_down_loop]; [done|].
  destruct ((sj_ptr o =? sj_ptr sj)%nat || (ojrelid o =? 0) || negb (is_join JOIN_LEFT o)) eqn:Eskip; [by apply IH|].
  apply orb_false_iff in Eskip as [[_ Ev%Z.eqb_neq]%orb_false_iff _]. pose proof (sp_relid _ Hs) as Hv. specialize (Ho ltac:(lia)).
  rewrite (is_member_denotes _ _ (conj Wa eq_refl) _ Hv). cbn [mbind result_bind]. destruct (negb _); [by apply IH|].
  rewrite (is_member_denotes _ _ HX _ Hv). cbn [mbind result_bind]. destruct (sp_sides _ Hs) as (W1 & W2 & _).
  destruct Ho as [->|Ho]; [by apply IH|].
  destruct (subset_denotes _ _ (lhs o) X (conj W1 eq_refl) HX) as [H1|], (subset_denotes _ _ (rhs o) X (conj W2 eq_refl) HX) as [H2|];
    rewrite ?andb_true_r, ?andb_false_r; cbn [andb]; try (by apply IH). by destruct Ho.
Qed.
Section Complete.
Context (r1 r2 : JoinRel) (W1 : rel_sets r1) (W2 : rel_sets r2).
#[local] Abbreviation joinrelids := (bms_union (relids r1) (relids r2)).
Lemma joined_denotes : denotes joinrelids (both r1 r2).
Proof. apply denotes_union; (split; [|done]); [apply W1|apply W2]. Qed.
Lemma completed node LN t (v : Z) s : special s -> syn_l s = rel_val r1 -> jointype s = t -> ojrelid s = v -> t <> JOIN_INNER -> (t = JOIN_SEMI -> v = 0) ->
  Z.lor (both r1 r2) (bits (oj_index t v)) = node_bits node -> surrounded L node LN ->
  exists rs, add_outer_joins_to_relids q joinrelids (Some s) = Ok rs /\ denotes rs (node_bits node).
Proof.
  intros Hs El Et Ev Hin Hsemi En Hsur. unfold add_outer_joins_to_relids. rewrite Ev. pose proof joined_denotes as Hj. pose proof (sp_relid _ Hs) as Hv. rewrite Ev in Hv.
  pose proof (sp_type _ Hs) as Hty. rewrite Et in Hty. destruct (Z.eqb_spec v 0) as [->|Hne].
  { exists joinrelids. split; [done|]. rewrite <- En. assert (oj_index t 0 = []) as -> by (by destruct t). cbn. by rewrite Z.lor_0_r. }
  assert (oj_index t v = [v]) as Eo by (destruct t; try done; cbn; rewrite ?(proj2 (Z.eqb_neq v 0)) by done; try done; by rewrite Hsemi in Hne).
  rewrite Eo, bits_one in En. destruct (add_member_denotes _ _ Hj v Hv) as (rs & Ers & Hrs). rewrite En in Hrs.
  destruct (is_join JOIN_LEFT s) eqn:Ejl; cbn [negb]; [|by exists rs].
  destruct (sp_commute _ Hs) as (C1 & C2 & _). pose proof (sp_below _ Hs) as Hb. rewrite El in Hb.
  destruct (subset_denotes _ _ (below_l s) _ (conj C1 eq_refl) Hj) as [_|Hnb]; [|destruct Hnb; unfold both; clear - Hb; mask_tac]. cbn [negb]. rewrite Ers. cbn [mbind result_bind].
  exists rs. split; [|done]. destruct (commute_above_l s) as [ws|] eqn:Ea; [|done].
  apply (pushed_none s L rs (node_bits node) Hrs); [|done]. apply Forall_forall. intros o Ho. destruct Hsur as [Si Ss Sn Sj (L1 & L2 & E & So)]. destruct (Sj o Ho) as [Hso Hdo]. split; [done|].
  intros Hvo. destruct (sp_left _ Hso) as [N1 P1], (sp_right _ Hso) as [N2 P2]. rewrite E in Ho. assert (o ∈ LN \/ o ∈ L1 ++ L2) as [Hin'|Hout] by (revert Ho; rewrite !elem_of_app; tauto).
  - left. pose proof (info_belongs node Ss LN Si) as Hbel. rewrite Forall_forall in Hbel. destruct (Hbel o Hin') as [_ Hw]. apply (within_bit _ _ (ojrelid o) Hw); [lia|].
    unfold whole. rewrite testbit_lor, oj_bits_spec by lia. right. split; [lia|done].
  - right. rewrite Forall_forall in So. intros [A1 A2]. destruct (So o Hout) as [H|H|H _ _].
    + apply N1. unfold whole in H. clear - H P1 A1. mask_tac.
    + apply N2. clear - H P2 A2 Hdo. mask_tac.
    + apply N1. clear - H P1 A1 Hdo. mask_tac.
Qed.
End Complete.

(** ** Every written join *)

(** The join of [r1] and [r2] is legal as it stands, performs the special join of the node if it has one, and yields its relations. *)
Definition follows r1 r2 (t : JoinType) (v : Z) : Prop := exists o rs,
  join_is_legal q store r1 r2 (bms_union (relids r1) (relids r2)) = Ok (Some (o, false)) /\
  (if bool_decide (t = JOIN_INNER) then o = None else exists s, o = Some s /\ s ∈ L /\ jointype s = t /\ ojrelid s = v) /\
  add_outer_joins_to_relids q (bms_union (relids r1) (relids r2)) o = Ok rs /\ denotes rs (Z.lor (both r1 r2) (bits (oj_index t v))) /\ bms_overlap (relids r1) (relids r2) = false.
Context (Hsets : query_sets q).
Lemma legal_verdict r1 r2 o : rel_sets r1 -> rel_sets r2 -> ~ meets (rel_val r1) (rel_val r2) -> legal q store r1 r2 o false false ->
  join_is_legal q store r1 r2 (bms_union (relids r1) (relids r2)) = Ok (Some (o, false)).
Proof.
  intros W1 W2 Hd Hl. destruct (joined_denotes r1 r2 W1 W2) as [WJ VJ]. destruct (join_is_legal_ok q store r1 r2 _ Hsets W1 W2 WJ VJ Hd) as (verdict & -> & Hv). f_equal. apply Hv.
  by exists false.
Qed.
Lemma follows_inner r1 r2 : rel_sets r1 -> rel_sets r2 -> ~ meets (rel_val r1) (rel_val r2) ->
  (forall s, s ∈ L -> settled r1 r2 s \/ (forall rev uniq, ~ performs store r1 r2 s rev uniq) /\ crossed r1 r2 s) -> forall v, follows r1 r2 JOIN_INNER v.
Proof.
  intros W1 W2 Hd H v. exists None, (bms_union (relids r1) (relids r2)). split; [by apply legal_verdict; [..|by apply legal_inner]|]. split; [done|]. split; [done|].
  split; [cbn; rewrite Z.lor_0_r; by apply joined_denotes|]. destruct W1, W2. by apply overlap_apart.
Qed.
(** A side of an inner join below the right side of [s] *)
Lemma crosses node n x s : tree_all sound_node node -> tree_all sound_node n -> tables n ⊆ tables node -> within (node_bits n) x -> within x (inner_bits node) ->
  within (Z.land (inner_bits node) (bits (tables node))) (rhs s) -> meets x (rhs s).
Proof.
  intros Hs Hn Ht Hx Hi Hr. pose proof (tables_part node n Hs Ht) as Hp. destruct (tables_meet n Hn) as [(b & Hb & H1 & H2)%meets_bits _]. apply meets_bits. exists b.
  split; [done|]. pose proof (within_bit _ _ b Hx Hb H1) as H3. split; [done|]. apply (within_bit _ _ b Hr Hb). rewrite testbit_land.
  split; [by apply (within_bit _ _ b Hi)|by apply (within_bit _ _ b Hp)].
Qed.
Lemma join_follows t (a b : Node) (v : Z) quals LN r1 r2 : surrounded L (JoinExpr t a b v quals) LN -> rel_sets r1 -> rel_sets r2 -> rel_val r1 = node_bits a -> rel_val r2 = node_bits b ->
  follows r1 r2 t v.
Proof.
  intros Hsur W1 W2 Ex Ey. pose proof Hsur as [(La & Lb & own & -> & Ia & Ib & Hown) Hs Hn Hj (L1 & L2 & EL & Ho)]. pose proof Hs as (Hsn & Sa & Sb).
  destruct (apart_join _ _ _ _ _ Hn) as (_ & _ & Hd & Hdv). destruct (tables_meet a Sa) as [_ Na], (tables_meet b Sb) as [_ Nb]. rewrite Forall_forall in Ho.
  assert (forall s, s ∈ La \/ s ∈ Lb -> settled r1 r2 s) as Hinside.
  { intros s [Hin|Hin]; [pose proof (info_belongs a Sa La Ia) as Hb|pose proof (info_belongs b Sb Lb Ib) as Hb]; rewrite Forall_forall in Hb; destruct (Hb s Hin) as [Hsp Hw].
    - rewrite <- Ex in Hw. eapply settled_in; [done|exact Hw|by left].
    - rewrite <- Ey in Hw. eapply settled_in; [done|exact Hw|by right]. }
  assert (within (both r1 r2) (node_bits (JoinExpr t a b v quals))) as Hboth by (unfold both; rewrite node_bits_join, Ex, Ey; clear; mask_tac).
  rewrite <- Ex, <- Ey in Hd. rewrite <- Ex in Na. rewrite <- Ey in Nb. case_bool_decide as Et.
  - subst own t. apply follows_inner; [done..|]. intros s Hin. destruct (Hj s Hin) as [Hsp Hds]. rewrite app_nil_r in *. rewrite EL in Hin.
    assert (s ∈ La \/ s ∈ Lb \/ s ∈ L1 ++ L2) as [?|[?|Hin']]; [revert Hin; rewrite !elem_of_app; tauto|by left; apply Hinside; auto..|].
    destruct (outside_cases r1 r2 Na Nb Hd _ _ s Hsp Hds Hboth (Ho s Hin')) as [|(Hp & _ & Hi & _)]; [by left|right]. split; [done|].
    split; [apply (crosses (JoinExpr JOIN_INNER a b v quals) a)|apply (crosses (JoinExpr JOIN_INNER a b v quals) b)]; try done; rewrite ?Ex, ?Ey; try apply within_refl.
    all: cbn [tables inner_bits]; rewrite ?bool_decide_true, ?node_bits_join by done; try (intros z Hz; rewrite elem_of_app; tauto); clear; mask_tac.
  - destruct Hown as (s & -> & [(Hsp & Ejt & Ev & El & Er) _ _]).
    assert (L = (L1 ++ La ++ Lb) ++ s :: L2) as EL' by (by rewrite EL, <- !app_assoc). destruct (completed r1 r2 W1 W2 (JoinExpr t a b v quals) (La ++ Lb ++ [s]) t v s Hsp (eq_trans El (eq_sym Ex)) Ejt Ev Et) with (3 := Hsur) as (rs & Ers & Hrs).
    { intros ->. done. } { rewrite node_bits_join. unfold both. by rewrite Ex, Ey. }
    exists (Some s), rs. split; [|split; [rewrite bool_decide_false by done; exists s; split; [done|]; split; [rewrite EL', elem_of_app; right; by left|done]|]].
    + apply legal_verdict; [done..|]. apply (legal_outer r1 r2 Nb Hd (L1 ++ La ++ Lb) L2 s EL' Hsp (eq_trans El (eq_sym Ex)) (eq_trans Er (eq_sym Ey))).
      intros s' Hin. assert (s' ∈ L) as HinL by (rewrite EL', !elem_of_app, elem_of_cons; revert Hin; rewrite !elem_of_app; tauto). destruct (Hj s' HinL) as [Hsp' Hds'].
      assert (s' ∈ La \/ s' ∈ Lb \/ s' ∈ L1 ++ L2) as [?|[?|Hin']]; [revert Hin; rewrite !elem_of_app; tauto|by left; apply Hinside; auto..|].
      destruct (outside_cases r1 r2 Na Nb Hd _ _ s' Hsp' Hds' Hboth (Ho s' Hin')) as [|(Hp & Hw & _ & Hne)]; [by left|]. rewrite Forall_forall in Hne.
      destruct (Hne s) as [Hw'|(E1 & E2 & E3)]; [rewrite !elem_of_app; right; right; by left| |].
      * left. right. left. unfold both. by rewrite Ex, Ey, <- El, <- Er.
      * right. split; [done|]. split; [|by exists s]. split; [done|]. destruct (sp_left _ Hsp') as [_ Hl]. clear - Hl Hds' Hw. mask_tac.
    + split; [done|]. split; [unfold both; by rewrite Ex, Ey, <- (node_bits_join t a b v quals)|]. destruct W1, W2. by apply overlap_apart.
Qed.
Lemma from_follows l1 n l2 quals LN r1 r2 (v : Z) : l1 <> [] -> surrounded L (FromExpr (l1 ++ n :: l2) quals) LN -> rel_sets r1 -> rel_sets r2 ->
  rel_val r1 = forest_bits l1 -> rel_val r2 = node_bits n -> follows r1 r2 JOIN_INNER v.
Proof.
  intros Hne [Hi Hs Hn Hj (L1 & L2 & EL & Ho)] W1 W2 Ex Ey. rewrite info_from in Hi. apply forest_info_app in Hi as (K1 & K & -> & I1 & Kn & K2 & -> & In & I2).
  destruct (from_parts l1 n l2 quals Hs Hn) as ((S1 & S2 & S3) & _ & D1 & D2 & D3). rewrite Forall_forall in Ho. destruct l1 as [|n1 l1]; [done|clear Hne].
  pose proof S1 as [Sn1 _]%Forall_cons. assert (within (node_bits n1) (forest_bits (n1 :: l1))) as Hw1 by (apply forest_bits_in; by left).
  destruct (tables_meet n1 Sn1) as [_ N1], (tables_meet n S2) as [_ N2]. set (node := FromExpr ((n1 :: l1) ++ n :: l2) quals) in *.
  assert (rel_val r1 <> 0) as Nx by (rewrite Ex; clear - Hw1 N1; mask_tac). assert (rel_val r2 <> 0) as Ny by (by rewrite Ey).
  assert (node_bits node = Z.lor (forest_bits (n1 :: l1)) (Z.lor (node_bits n) (forest_bits l2))) as En.
  { unfold node. by rewrite node_bits_from, forest_bits_app, (forest_bits_app [n] l2 : forest_bits (n :: l2) = _), forest_bits_one. }
  assert (inner_bits node = node_bits node) as Ei by (unfold node; cbn [inner_bits app]; by destruct l1).
  assert (forall m, m ∈ (n1 :: l1) ++ n :: l2 -> tables m ⊆ tables node) as Ht by (intros m Hm; by apply (child_parts node m)).
  assert (within (both r1 r2) (node_bits node)) as Hboth by (unfold both; rewrite En, Ex, Ey; clear; mask_tac).
  apply follows_inner; [done|done|by rewrite Ex, Ey|]. intros s Hin. destruct (Hj s Hin) as [Hsp Hds]. rewrite EL in Hin.
  pose proof (forest_belongs _ _ S1 I1) as B1. pose proof (info_belongs n S2 Kn In) as B2. pose proof (forest_belongs _ _ S3 I2) as B3. rewrite Forall_forall in B1, B2, B3.
  assert (s ∈ K1 \/ s ∈ Kn \/ s ∈ K2 \/ s ∈ L1 ++ L2) as [Hs1|[Hs2|[Hs3|Hout]]] by (revert Hin; rewrite !elem_of_app; tauto).
  - left. destruct (B1 s Hs1) as [_ Hw]. rewrite <- Ex in Hw. eapply settled_in; [done|exact Hw|by left].
  - left. destruct (B2 s Hs2) as [_ Hw]. rewrite <- Ey in Hw. eapply settled_in; [done|exact Hw|by right].
  - left. destruct (B3 s Hs3) as [_ Hw]. apply settled_apart; [done|]. unfold both. rewrite Ex, Ey. unfold whole in Hw. clear - Hw D2 D3. mask_tac.
  - assert (~ meets (rel_val r1) (rel_val r2)) as Hd by (by rewrite Ex, Ey).
    destruct (outside_cases r1 r2 Nx Ny Hd _ _ s Hsp Hds Hboth (Ho s Hout)) as [|(Hp & _ & Hir & _)]; [by left|right]. split; [done|].
    split; [apply (crosses node n1)|apply (crosses node n)]; try done; rewrite ?Ex, ?Ey, ?Ei, ?En; try done; try apply within_refl; try (clear; mask_tac).
    + apply Ht. by left.
    + apply Ht, elem_of_app. right. by left.
Qed.
Lemma written_follows node x y t (v : Z) : written node x y t v -> forall LN, surrounded L node LN -> forall r1 r2, rel_sets r1 -> rel_sets r2 -> rel_val r1 = x -> rel_val r2 = y ->
  follows r1 r2 t v.
Proof.
  induction 1 as [t a b v quals|t a b v quals x y t' v' _ IH|t a b v quals x y t' v' _ IH|l1 n l2 quals Hne|n l quals x y t v Hn _ IH]; intros LN Hsur.
  - intros r1 r2. by apply (join_follows t a b v quals LN).
  - apply surrounded_join in Hsur as (La & Lb & Ha & Hb). by apply (IH La).
  - apply surrounded_join in Hsur as (La & Lb & Ha & Hb). by apply (IH Lb).
  - intros r1 r2. by apply (from_follows l1 n l2 quals LN).
  - apply list_elem_of_split in Hn as (l1 & l2 & ->). apply surrounded_from in Hsur as (Ln & Hsn). by apply (IH Ln).
Qed.
Lemma info_sides node : tree_all sound_node node -> apart_names (names node) -> forall LN, info node LN -> Forall (fun s => special s /\ ~ meets (syn_l s) (syn_r s)) LN.
Proof.
  induction node as [v|l quals IH|t a b v quals IHa IHb] using node_ind; intros Hs Hn LN.
  - by intros ->.
  - rewrite info_from. apply tree_all_children in Hs. cbn [children] in Hs. rewrite names_from in Hn. clear quals. revert LN.
    induction IH as [|n l Hi _ IHl]; intros LN; cbn [forest_info]; [by intros ->|]. intros (K1 & K2 & -> & I1 & I2). apply Forall_cons in Hs as [S1 S2].
    rewrite forest_names_cons in Hn. apply apart_names_app in Hn as (N1 & N2 & _). apply Forall_app. split; [by apply Hi|by apply IHl].
  - intros (La & Lb & own & -> & Ia & Ib & Hown). destruct (apart_join _ _ _ _ _ Hn) as (Na & Nb & Hd & _). destruct Hs as (_ & Sa & Sb). rewrite !Forall_app.
    split_and!; [by apply IHa|by apply IHb|]. case_bool_decide; [by subst own|]. destruct Hown as (s & -> & [(Hsp & _ & _ & El & Er) _ _]). apply Forall_singleton. by rewrite El, Er.
Qed.
Lemma surrounded_top tree : tree_all sound_node tree -> apart_names (names tree) -> info tree L -> surrounded L tree L.
Proof.
  intros Hs Hn Hi. split; [done|done|done| |exists [], []; by rewrite app_nil_r]. pose proof (info_sides tree Hs Hn L Hi) as Hf. by rewrite Forall_forall in Hf.
Qed.
End Written.

(** ** Making the join relations *)

(** What the search relies on in the code that adds paths: for every type of join it returns, whether or not it has found a path. *)
Class PathMaking (Store : Type) {join_paths : JoinPaths Store} : Prop := {
  paths_made st j o i t sj : exists st', add_join_paths st j o i t sj = Ok st';
  partitions_made st r1 r2 j sj : exists st', try_partitionwise_join st r1 r2 j sj = Ok st'
}.
(** A special join, or an inner join, gets its paths, unless it is a FULL JOIN for which there is none. *)
Lemma populate_outcome {Store} {join_paths : JoinPaths Store} {path_making : PathMaking Store} st r1 r2 j sj :
  match jointype sj with JOIN_INNER | JOIN_LEFT | JOIN_FULL | JOIN_SEMI | JOIN_ANTI => True | _ => False end ->
  (exists st', populate_joinrel_with_paths st r1 r2 j sj = Ok st') \/
  jointype sj = JOIN_FULL /\ populate_joinrel_with_paths st r1 r2 j sj = Error full_join_msg /\ exists st', no_paths_yet st' j = true.
Proof.
  intros Ht. unfold populate_joinrel_with_paths. cbv zeta. destruct (jointype sj) eqn:E; try done.
  all: repeat first
    [ match goal with |- context [add_join_paths ?st ?j ?o ?i ?t ?sj] => destruct (paths_made st j o i t sj) as (? & ->); cbn [mbind result_bind] end
    | match goal with |- context [try_partitionwise_join ?st ?r1 ?r2 ?j ?sj] => destruct (partitions_made st r1 r2 j sj) as (? & ->) end
    | match goal with |- context [if ?b then _ else _] => destruct b eqn:?; cbn [mbind result_bind] end ].
  all: by eauto.
Qed.

Section Run.
Context {Expr : Type} {Store : Type} {join_paths : JoinPaths Store} {path_making : PathMaking Store} (hash_any : list Z -> Z) (q : Query (Expr := Expr)).
#[local] Abbreviation Node := (JoinNode Expr).
Implicit Types (root : PlannerInfo (Store := Store)) (node n : Node) (l : list Node).

(** All joins of a tree, in the order in which they are written: [base] is the relation of a table.  [None] is an illegal join. *)
Definition join_two root (rel1 rel2 : option JoinRel) : result (option JoinRel * PlannerInfo) :=
  match rel1, rel2 with Some rel1, Some rel2 => make_join_rel hash_any q root rel1 rel2 | _, _ => Ok (None, root) end.
Fixpoint join_as_written (base : Z -> JoinRel) root node {struct node} : result (option JoinRel * PlannerInfo) :=
  match node with
  | TableRef v => Ok (Some (base v), root)
  | FromExpr [] _ => Ok (None, root)
  | FromExpr (n :: l) _ =>
      '(rel, root) ← join_as_written base root n;
      (fix go root rel l {struct l} := match l with
         | [] => Ok (rel, root)
         | n :: l => '(rel2, root) ← join_as_written base root n; '(rel, root) ← join_two root rel rel2; go root rel l
         end) root rel l
  | JoinExpr _ a b _ _ =>
      '(rel1, root) ← join_as_written base root a; '(rel2, root) ← join_as_written base root b; join_two root rel1 rel2
  end.
Fixpoint join_entries (base : Z -> JoinRel) root (rel : option JoinRel) l : result (option JoinRel * PlannerInfo) :=
  match l with
  | [] => Ok (rel, root)
  | n :: l => '(rel2, root) ← join_as_written base root n; '(rel, root) ← join_two root rel rel2; join_entries base root rel l
  end.
Lemma join_from base root n l quals : join_as_written base root (FromExpr (n :: l) quals) = ('(rel, root) ← join_as_written base root n; join_entries base root rel l).
Proof.
  cbn. destruct (join_as_written base root n) as [[rel root1]| |]; cbn [mbind result_bind]; try done. revert rel root1. induction l as [|n' l IH]; intros rel root1; [done|]. cbn.
  destruct (join_as_written base root1 n') as [[rel2 root2]| |]; cbn [mbind result_bind]; try done. destruct (join_two root2 rel rel2) as [[rel3 root3]| |]; cbn [mbind result_bind]; try done.
Qed.

(** [eclass_indexes] has an entry for every relation of the query, and no number is out of range. *)
Definition indexes_total (all : Z) : Prop := forall b, 0 <= b -> Z.testbit all b = true -> 0 < b /\ exists e, eclass_indexes (ec_root q) !! Z.to_nat b = Some e /\
  forall s, e = Some s -> bms_wf s /\ forall k, 0 <= k -> bms_mem s k = true -> (Z.to_nat k < length (eq_classes (ec_root q)))%nat.
Lemma indexes_loop_total all rs : indexes_total all -> bms_wf rs -> within (bms_val rs) all -> forall fuel i acc, -1 <= i -> bms_capacity rs - i <= Z.of_nat fuel -> (0 < fuel)%nat ->
  bms_wf acc -> (forall k, 0 <= k -> bms_mem acc k = true -> (Z.to_nat k < length (eq_classes (ec_root q)))%nat) ->
  exists r, eclass_indexes_loop (ec_root q) fuel rs i acc = Ok r /\ bms_wf r /\ forall k, 0 <= k -> bms_mem r k = true -> (Z.to_nat k < length (eq_classes (ec_root q)))%nat.
Proof.
  intros Ht Hrs Hall. induction fuel as [|fuel IH]; intros i acc Hi Hcap Hf Hacc Hin; [lia|]. cbn [eclass_indexes_loop].
  destruct (next_member_next_of rs i Hrs Hi) as [[-> _]|(Hlt & Hm & _)]; [by exists acc|]. set (b := next_member rs i) in *.
  assert (b < bms_capacity rs) as Hbc by (destruct (Z_lt_ge_dec b (bms_capacity rs)); [done|]; rewrite bms_mem_capacity in Hm by (done || lia); done).
  destruct (Ht b) as (Hb & e & He & Hse); [lia|by apply (within_bit _ _ b Hall); [lia|]|]. rewrite (proj2 (Z.gtb_lt b 0)) by lia. rewrite (array_get_Z _ b _ ltac:(lia) He). cbn [mbind result_bind].
  apply IH; try lia; destruct e as [s|]; try done.
  - apply bms_add_members_spec; [done|by apply Hse].
  - intros k Hk. destruct (Hse s eq_refl) as [Ws Hs]. destruct (bms_add_members_spec acc s Hacc Ws) as [_ V]. unfold bms_mem. rewrite V, Z.lor_spec, orb_true_iff. intros [H|H]; auto.
Qed.
Lemma eclass_joinclause_total all rs : indexes_total all -> bms_wf rs -> within (bms_val rs) all -> exists b, has_relevant_eclass_joinclause q rs = Ok b.
Proof.
  intros Ht Hrs Hall. unfold has_relevant_eclass_joinclause, get_eclass_indexes_for_relids. assert (0 <= bms_capacity rs) by (destruct rs; unfold bms_capacity, nwords; lia).
  destruct (indexes_loop_total all rs Ht Hrs Hall (S (S (Z.to_nat (bms_capacity rs)))) (-1) None) as (r & -> & Wr & Hr); [lia|lia|lia|done|intros k _; unfold bms_mem; cbn; by rewrite Z.bits_0|]. cbn [mbind result_bind].
  assert (0 <= bms_capacity r) by (destruct r; unfold bms_capacity, nwords; lia).
  destruct (eclass_exists_ok (ec_root q) r (fun ec => negb (bms_is_subset (ec_relids ec) rs)) Wr Hr (S (S (Z.to_nat (bms_capacity r)))) (-1)) as (b & -> & _); [lia..|]. by exists b.
Qed.

Record search_state root : Prop := {
  ss_hash : hash_inv root;
  ss_rels : Forall rel_sets (join_rel_list root);
  ss_level : match join_rel_level root with None => True | Some levels => 0 <= join_cur_level root < Z.of_nat (length levels) end
}.
Record search_sets (all : Z) : Prop := {
  sq_query : query_sets q;
  sq_lateral : Forall (fun phinfo => bms_wf (ph_lateral phinfo)) (placeholder_list q);
  sq_classes : indexes_total all
}.
Lemma placeholders_wf rs (l : list PlaceHolderInfo) : Forall (fun phinfo => bms_wf (ph_lateral phinfo)) l -> forall direct, bms_wf direct -> bms_wf (add_placeholders_to_joinrel rs l direct).
Proof.
  induction 1 as [|phinfo l Hw _ IH]; intros direct Hd; cbn [add_placeholders_to_joinrel]; [done|]. apply IH. destruct (bms_is_subset _ _); [|done]. by apply bms_add_members_spec.
Qed.
Lemma build_follows root all J r1 r2 : search_sets all -> search_state root -> rel_sets r1 -> rel_sets r2 -> bms_wf J -> within (bms_val J) all ->
  exists joinrel root', build_join_rel hash_any q root J r1 r2 = Ok (joinrel, root') /\ rel_sets joinrel /\ rel_val joinrel = bms_val J /\ search_state root' /\ store root' = store root.
Proof.
  intros [_ Hlat Hcl] [Hh Hr Hl] [W1 L1 D1] [W2 L2 D2] HJ Hall. unfold build_join_rel.
  assert (list_wf root) as Hwf by (eapply Forall_impl; [exact Hr|]; by intros r [? _ _]).
  destruct (find_join_rel_ok hash_any root J Hh Hwf HJ) as (tab & -> & Htab). destruct (list_search (join_rel_list root) J) as [j|] eqn:E.
  - apply list_search_some in E as [Hj Hv]; [|done..]. exists j, (set_hash root tab). rewrite Forall_forall in Hr. split_and!; [done|by apply Hr|done| |done]. split; [done|by apply Forall_forall|done].
  - unfold make_join_node. destruct (eclass_joinclause_total all J Hcl HJ Hall) as (b & ->). cbn [mbind result_bind]. set (j := {| rel_ptr := _ |}).
    assert (rel_sets j) as Hj.
    { split; cbn; [by destruct J| |].
      - unfold min_join_parameterization. apply bms_del_members_spec; [|done]. by apply bms_union_spec.
      - apply bms_del_members_spec; [|done]. apply placeholders_wf; [done|]. by apply bms_union_spec. }
    assert (rel_val j = bms_val J) as Hv by (cbn; by destruct J).
    assert (forall levels root', join_rel_list root' = join_rel_list root ++ [j] -> join_rel_hash root' = join_rel_hash (add_join_rel (set_hash root tab) j) -> join_rel_level root' = levels ->
      match levels with None => True | Some levels => 0 <= join_cur_level root' < Z.of_nat (length levels) end -> search_state root') as Hnew.
    { intros levels root' E1 E2 E3 E4. split; [|rewrite E1; apply Forall_app; split; [done|by apply Forall_singleton]|by rewrite E3]. unfold hash_inv in *. rewrite E1, E2. cbn in *.
      destruct tab as [t|]; [|done]. rewrite Htab, fmap_app. done. }
    unfold add_to_level. cbn [join_rel_level add_join_rel bump set_hash join_cur_level]. destruct (join_rel_level root) as [levels|] eqn:El.
    + destruct (lookup_lt_is_Some_2 levels (Z.to_nat (join_cur_level root))) as [l Hlk]; [lia|]. rewrite (array_get_Z _ _ l) by (done || lia). cbn [mbind result_bind].
      rewrite array_set_Z by lia. cbn [mbind result_bind]. do 2 eexists. split; [reflexivity|]. split_and!; [done|done| |done]. eapply Hnew; [done|done|done|]. cbn. by rewrite length_insert.
    + cbn [mbind result_bind]. do 2 eexists. split; [reflexivity|]. split_and!; [done|done| |done]. by apply (Hnew None).
Qed.
(** A FULL JOIN of the tree that has found no path *)
Definition no_full_plan node : Prop := exists r1 r2 v st joinrel, written node (rel_val r1) (rel_val r2) JOIN_FULL v /\
  rel_val joinrel = Z.lor (both r1 r2) (bits (oj_index JOIN_FULL v)) /\ no_paths_yet st joinrel = true.
Lemma make_follows root all r1 r2 t (v : Z) : search_sets all -> search_state root -> rel_sets r1 -> rel_sets r2 -> follows q (store root) r1 r2 t v ->
  match t with JOIN_INNER | JOIN_LEFT | JOIN_FULL | JOIN_SEMI | JOIN_ANTI => True | _ => False end -> within (Z.lor (both r1 r2) (bits (oj_index t v))) all ->
  (exists joinrel root', make_join_rel hash_any q root r1 r2 = Ok (Some joinrel, root') /\ rel_sets joinrel /\ rel_val joinrel = Z.lor (both r1 r2) (bits (oj_index t v)) /\ search_state root') \/
  make_join_rel hash_any q root r1 r2 = Error full_join_msg /\ t = JOIN_FULL /\ exists st joinrel, rel_val joinrel = Z.lor (both r1 r2) (bits (oj_index t v)) /\ no_paths_yet st joinrel = true.
Proof.
  intros Hq Hs W1 W2 (o & rs & El & Eo & Ea & [Wr Vr] & Ev) Ht Hall. unfold make_join_rel. rewrite Ev, El. cbn [mbind result_bind]. rewrite Ea. cbn [mbind result_bind].
  rewrite <- Vr in Hall. destruct (build_follows root all rs r1 r2 Hq Hs W1 W2 Wr Hall) as (j & root' & -> & Hj & Hv & Hs' & _). cbn [mbind result_bind].
  assert (forall root2, join_rel_list root2 = join_rel_list root' -> join_rel_hash root2 = join_rel_hash root' -> join_rel_level root2 = join_rel_level root' ->
    join_cur_level root2 = join_cur_level root' -> search_state root2) as Hsame.
  { destruct Hs' as [S1 S2 S3]. intros root2 E1 E2 E3 E4. split; [unfold hash_inv in *; by rewrite E1, E2|by rewrite E1|by rewrite E3, E4]. }
  destruct (is_dummy_rel _ j); [left; do 2 eexists; split; [done|]; split_and!; [done|by rewrite Hv|by apply Hsame]|].
  set (sj := match o with Some s => s | None => _ end). assert (jointype sj = t) as Et by (case_bool_decide; [by subst|]; by destruct Eo as (s & -> & _ & ? & _)). rewrite <- Et in Ht.
  destruct (populate_outcome (store (log_join root' r1 r2 j)) r1 r2 j sj Ht) as [(st' & ->)|(Ef & -> & st' & Hn)]; cbn [mbind result_bind].
  - left. do 2 eexists. split; [done|]. split_and!; [done|by rewrite Hv|by apply Hsame].
  - right. split; [done|]. split; [by rewrite <- Et|]. exists st', j. by rewrite Hv.
Qed.
Section Follow.
Context (Hlateral : hasLateralRTEs q = false) (all : Z) (Hsets : search_sets all) (base : Z -> JoinRel).
#[local] Abbreviation L := (join_info_list q).
Definition base_ok node : Prop := forall v, v ∈ tables node -> rel_sets (base v) /\ rel_val (base v) = 2 ^ v.
(** The relation of the node, or the error of a FULL JOIN *)
Definition joins node (res : result (option JoinRel * PlannerInfo (Store := Store))) : Prop :=
  (exists rel root', res = Ok (Some rel, root') /\ rel_sets rel /\ rel_val rel = node_bits node /\ search_state root') \/ res = Error full_join_msg /\ no_full_plan node.
Definition runs node : Prop := forall LN root, surrounded L node LN -> search_state root -> within (node_bits node) all -> base_ok node -> joins node (join_as_written base root node).
Lemma no_full_child node n : n ∈ children node -> no_full_plan n -> no_full_plan node.
Proof.
  intros Hn (r1 & r2 & v & st & j & Hw & H). exists r1, r2, v, st, j. split; [|done]. destruct node as [w|l quals|t a b w quals]; cbn [children] in Hn.
  - by apply not_elem_of_nil in Hn.
  - by eapply written_entry.
  - apply elem_of_cons in Hn as [->|[->|Hn%not_elem_of_nil]%elem_of_cons]; [by apply written_left|by apply written_right|done].
Qed.
Lemma entries_run n0 l quals LN : Forall runs l -> surrounded L (FromExpr (n0 :: l) quals) LN -> within (node_bits (FromExpr (n0 :: l) quals)) all -> base_ok (FromExpr (n0 :: l) quals) ->
  forall l2 l1 rel root, n0 :: l = l1 ++ l2 -> l1 <> [] -> l2 ⊆ l -> rel_sets rel -> rel_val rel = forest_bits l1 -> search_state root ->
  joins (FromExpr (n0 :: l) quals) (join_entries base root (Some rel) l2).
Proof.
  intros IH Hsur Hall Hb. induction l2 as [|n l2 IHl]; intros l1 rel root E Hne Hsub Wr Vr Hs; cbn [join_entries].
  { left. exists rel, root. rewrite app_nil_r in E. split_and!; [done|done| |done]. by rewrite node_bits_from, E. }
  rewrite Forall_forall in IH. assert (n ∈ l) as Hnl by (apply Hsub; by left). assert (n ∈ children (FromExpr (n0 :: l) quals)) as Hch by (cbn [children]; by right).
  destruct (child_bits _ n Hch) as [Hw _]. destruct (child_parts _ n Hch (su_names _ _ _ Hsur)) as (Ht & _). rewrite E in Hsur, Hall, Hw, Ht, Hb.
  destruct (surrounded_from _ _ _ _ _ _ Hsur) as (Ln & Hn).
  destruct (IH n Hnl Ln root Hn Hs) as [(rel2 & root2 & -> & Wr2 & Vr2 & Hs2)|[-> Hf]];
    [clear - Hall Hw; mask_tac|intros v Hv; by apply Hb, Ht| |right; split; [done|by apply (no_full_child _ n Hch)]]. cbn [mbind result_bind join_two].
  assert (Z.lor (both rel rel2) (bits (oj_index JOIN_INNER 0)) = forest_bits (l1 ++ [n])) as Eb by (unfold both; cbn; by rewrite Vr, Vr2, Z.lor_0_r, forest_bits_app, forest_bits_one).
  destruct (make_follows root2 all rel rel2 JOIN_INNER 0 Hsets Hs2 Wr Wr2) as [(rel3 & root3 & -> & Wr3 & Vr3 & Hs3)|(_ & ? & _)]; [| | |cbn [mbind result_bind]|done].
  { by eapply (from_follows q (store root2) Hlateral (sq_query _ Hsets) l1 n l2 quals). }
  { done. }
  { rewrite Eb. rewrite node_bits_from, !forest_bits_app, (forest_bits_app [n] l2 : forest_bits (n :: l2) = _) in Hall. rewrite forest_bits_app. clear - Hall. mask_tac. }
  apply (IHl (l1 ++ [n])); [by rewrite <- app_assoc|by destruct l1|intros m Hm; apply Hsub; by right|done|by rewrite Vr3|done].
Qed.
Lemma tree_runs node : runs node.
Proof.
  induction node as [v|l quals IH|t a b v quals IHa IHb] using node_ind; intros LN root Hsur Hs Hall Hb.
  - destruct (Hb v ltac:(by left)) as [Wv Vv]. left. exists (base v), root. split_and!; [done|done| |done]. rewrite Vv. unfold node_bits. cbn. by rewrite Z.lor_0_r.
  - pose proof (su_sound _ _ _ Hsur) as [Hne _]. cbn in Hne. destruct l as [|n l]; [done|]. apply Forall_cons in IH as [IHn IH]. rewrite join_from.
    assert (n ∈ children (FromExpr (n :: l) quals)) as Hch by (by left). destruct (child_bits _ n Hch) as [Hw _]. destruct (child_parts _ n Hch (su_names _ _ _ Hsur)) as (Ht & _).
    destruct (surrounded_from _ [] n l quals _ Hsur) as (Ln & Hn).
    destruct (IHn Ln root Hn Hs) as [(rel & root1 & -> & Wr & Vr & Hs1)|[-> Hf]];
      [clear - Hall Hw; mask_tac|intros v Hv; by apply Hb, Ht| |right; split; [done|by apply (no_full_child _ n Hch)]]. cbn [mbind result_bind].
    apply (entries_run n l quals LN IH Hsur Hall Hb l [n]); try done. by rewrite forest_bits_one.
  - destruct (surrounded_join _ _ _ _ _ _ _ Hsur) as (La & Lb & Ha & Hbb). cbn [join_as_written].
    assert (forall n, n ∈ [a; b] -> within (node_bits n) all /\ base_ok n) as Hch.
    { intros n Hn. destruct (child_bits (JoinExpr t a b v quals) n Hn) as [Hw _]. destruct (child_parts (JoinExpr t a b v quals) n Hn (su_names _ _ _ Hsur)) as (Ht & _).
      split; [clear - Hall Hw; mask_tac|]. intros z Hz. by apply Hb, Ht. }
    destruct (Hch a ltac:(by left)) as [Wa Ba], (Hch b ltac:(by right; left)) as [Wb Bb].
    destruct (IHa La root Ha Hs Wa Ba) as [(rel1 & root1 & -> & W1 & V1 & Hs1)|[-> Hf]];
      [|right; split; [done|]; apply (no_full_child _ a); [by left|done]]. cbn [mbind result_bind].
    destruct (IHb Lb root1 Hbb Hs1 Wb Bb) as [(rel2 & root2 & -> & W2 & V2 & Hs2)|[-> Hf]]; [|right; split; [done|]; apply (no_full_child _ b); [by right; left|done]].
    cbn [mbind result_bind join_two]. assert (Z.lor (both rel1 rel2) (bits (oj_index t v)) = node_bits (JoinExpr t a b v quals)) as Eb by (rewrite node_bits_join; unfold both; by rewrite V1, V2).
    destruct (make_follows root2 all rel1 rel2 t v Hsets Hs2 W1 W2) as [(rel & root' & -> & W & V & Hs')|(-> & Et & st & j & Vj & Hj)]; [| |by rewrite Eb|..].
    + by apply (join_follows q (store root2) Hlateral (sq_query _ Hsets) t a b v quals LN).
    + pose proof (su_sound _ _ _ Hsur) as [Hsn _]. cbn in Hsn. by destruct t.
    + left. exists rel, root'. by rewrite V.
    + right. split; [done|]. exists rel1, rel2, v, st, j. subst t. split; [|done]. rewrite V1, V2. constructor.
Qed.
End Follow.
End Run.

(** C2: the join order in which a query is written can be planned.  The query ([outer_query]) has inner, left, full, semi- and antijoins nested in any way, no LATERAL
    reference, quals over relations of their own syntactic scope, no row mark on the nullable side of an outer join, and no variable-free security qual that compares an
    expression with itself.  [deconstruct_jointree] succeeds and lists every table once.  With the special joins that it makes, every join of the query as it is written is legal,
    performs the special join made for it and no other, and yields exactly the relations below it and its own number, although hand sides are reduced to a minimum and joins
    may commute.  Joining in that order, [make_join_rel] makes a relation for the whole query; the one way to fail is the error for a FULL JOIN of the query that no path
    supports. *)
Theorem written_order_legal {Expr} `{!ExprOps Expr} `{!OpFamilies Expr} `{!QualOps Expr} `{!QualLaws Expr} `{!OuterOps Expr} `{!OuterLaws Expr}
    (g : JTQuery Expr) (tree : JoinNode Expr) (st : JTRoot Expr) :
  outer_query g tree -> fresh_outer tree st ->
  exists joinlist st', deconstruct_jointree g st tree = Ok (joinlist, st') /\ joinlist_tables joinlist = tables tree /\
  forall Store (join_paths : JoinPaths Store) (path_making : PathMaking Store) (q : Query (Expr := Expr)),
    join_info_list q = im_join_info (jt_root st') -> hasLateralRTEs q = false -> search_sets q (node_bits tree) ->
    (forall store x y t v, written tree x y t v -> forall r1 r2, rel_sets r1 -> rel_sets r2 -> rel_val r1 = x -> rel_val r2 = y -> follows q store r1 r2 t v) /\
    (forall hash_any base root, search_state root -> base_ok base tree ->
       (exists rel root', join_as_written hash_any q base root tree = Ok (Some rel, root') /\ rel_val rel = node_bits tree) \/
       (join_as_written hash_any q base root tree = Error full_join_msg /\ no_full_plan tree)).
Proof.
  intros Hq Hf. destruct (deconstruct_ok g tree Hq st Hf) as (joinlist & st' & E & Hj & Hi & _). exists joinlist, st'. split; [done|]. split; [done|].
  intros Store join_paths path_making q Eq Hlat Hsets. rewrite <- Eq in Hi.
  assert (tree_all sound_node tree) as Hs by (apply (tree_all_mono (outer_node g)); [apply on_sound|apply Hq]). pose proof (surrounded_top q tree Hs (oq_names _ _ Hq) Hi) as Hsur. split.
  - intros store x y t v Hw r1 r2 W1 W2 V1 V2. by eapply (written_follows q store Hlat (sq_query _ _ Hsets)).
  - intros hash_any base root Hr Hb. destruct (tree_runs hash_any q Hlat (node_bits tree) Hsets base tree (join_info_list q) root Hsur Hr (within_refl _) Hb)
      as [(rel & root' & Er & _ & V & _)|Hfull]; [left; by exists rel, root'|by right].
Qed.

(** ** A query with four joins

    [SELECT ... FROM (a LEFT JOIN b ON a.x = b.x) LEFT JOIN c ON b.y = c.y WHERE a.z IN (SELECT d.z FROM d FULL JOIN e ON d.w = e.w)].  The two left joins commute,
    since the second condition is strict for [b]; the subquery has become a semijoin. *)
Module OuterDemo.
(** A variable, or [IS NOT NULL] of it if [test]; [nulls] is the mask of the outer joins that can null it. *)
Record Ex := Var { rel : Z; att : Z; nulls : Z; test : bool }.
#[local] Instance Ex_eq_dec : EqDecision Ex.
Proof. solve_decision. Defined.
Definition vars (e : Ex) : bitmapset := if (0 <? rel e) && (rel e <? 64) then Some [Z.lor (2 ^ rel e) (Z.land (nulls e) (Z.ones 64))] else None.
Definition set_nulls (f : Z -> Z -> Z) (e : Ex) : Ex := Var (rel e) (att e) (f (rel e) (nulls e)) (test e).
#[local] Instance ex_ops : ExprOps Ex := {
  expr_eq_dec := Ex_eq_dec; exprType := fun _ => 23; exprCollation := fun _ => 0; exprTypmod := fun _ => -1;
  applyRelabelType := fun e _ _ _ => e; IsPolymorphicType := fun _ => false; op_input_types := fun _ => (23, 23); op_strict := fun _ => true;
  contain_volatile_functions := fun _ => false; expression_returns_set := fun _ => false; contain_agg_clause := fun _ => false;
  contain_window_function := fun _ => false; pull_varnos := vars
}.
#[local] Instance ex_families : OpFamilies Ex := {
  get_opfamily_member := fun _ _ _ => 96; op_leakproof := fun _ => true; op_hashjoinable := fun _ _ => true; op_mergejoinable := fun _ _ => true; op_volatile := fun _ => false;
  is_Var := fun e => negb (test e); is_Const := fun _ => false; relabel_arg := fun _ => None; folds_to_true := fun _ _ _ _ => false
}.
#[local] Instance ex_quals : QualOps Ex := {
  get_mergejoin_opfamilies := fun op => if op =? 96 then [1976] else [];
  contain_leaked_vars := fun _ => false; is_not_null := fun e => Var (rel e) (att e) (nulls e) true; forced_null_rels := fun _ => None
}.
Definition strict_clauses (clauses : list (ClauseNode (Expr := Ex))) : list (ClauseNode (Expr := Ex)) :=
  map_clause (set_nulls (fun _ _ => 0)) <$> List.filter (fun clause => match clause with OpClause _ => true | _ => false end) clauses.
#[local] Instance ex_outer : OuterOps Ex := {
  find_nonnullable_rels := fun clauses => clauses_varnos (strict_clauses clauses); contain_placeholder_references_to := fun _ _ => false; get_commutator := fun op => op;
  remove_nulling_relids := fun rels => set_nulls (fun _ nulls => Z.ldiff nulls (bms_val rels));
  add_nulling_relids := fun target added => set_nulls (fun rel nulls => if Z.testbit (bms_val target) rel then Z.lor nulls (bms_val added) else nulls)
}.
Lemma vars_spec e b : 0 <= b -> Z.testbit (bms_val (vars e)) b = true <-> 0 < rel e < 64 /\ (b = rel e \/ b < 64 /\ Z.testbit (nulls e) b = true).
Proof.
  intros Hb. unfold vars. assert ((0 <? rel e) && (rel e <? 64) = true <-> 0 < rel e < 64) as Hr by (rewrite andb_true_iff, !Z.ltb_lt; done).
  destruct ((0 <? rel e) && (rel e <? 64)); [|cbn; rewrite Z.bits_0; naive_solver]. destruct (proj1 Hr eq_refl) as [H1 H2]. cbn. rewrite Z.shiftl_0_l, Z.lor_0_r.
  rewrite testbit_lor, testbit_land, Z.pow2_bits_eqb, Z.eqb_eq by lia. rewrite Z.testbit_ones_nonneg, Z.ltb_lt by lia. naive_solver.
Qed.
Lemma vars_wf e : bms_wf (vars e).
Proof.
  unfold vars. destruct ((0 <? rel e) && (rel e <? 64)) eqn:E; [|done]. apply andb_true_iff in E as [?%Z.ltb_lt ?%Z.ltb_lt]. rewrite Z.land_ones by lia.
  pose proof (Z.mod_pos_bound (nulls e) (2 ^ 64) ltac:(lia)) as Hm. pose proof (Z.pow_pos_nonneg 2 (rel e) ltac:(lia) ltac:(lia)) as Hp. set (m := nulls e mod 2 ^ 64) in *.
  assert (Z.lor (2 ^ rel e) m <> 0) as Hne by (intros [? _]%Z.lor_eq_0_iff; lia). assert (0 <= Z.lor (2 ^ rel e) m) by (apply Z.lor_nonneg; lia).
  apply LegalDemo.one_word_wf. split; [lia|]. apply Z.log2_lt_pow2; [lia|]. rewrite Z.log2_lor by lia. apply Z.max_lub_lt; [rewrite Z.log2_pow2; lia|].
  destruct (Z.eq_dec m 0) as [->|]; [done|]. apply Z.log2_lt_pow2; lia.
Qed.
#[local] Instance ex_laws : QualLaws Ex.
Proof. split; [apply vars_wf|done|done|]. intros op family. cbn. destruct (Z.eqb_spec op 96) as [->|]; [done|]. by intros ?%not_elem_of_nil. Qed.

(** Clauses whose variables are changed one by one *)
Lemma clause_bits clause b : 0 <= b -> Z.testbit (bms_val (clause_varnos clause)) b = true <->
  match clause with OpClause op => Z.testbit (bms_val (vars (leftop op))) b = true \/ Z.testbit (bms_val (vars (rightop op))) b = true | OtherClause e => Z.testbit (bms_val (vars e)) b = true end.
Proof.
  intros Hb. destruct clause as [op|e]; cbn; [|done]. destruct (bms_union_spec (vars (leftop op)) (vars (rightop op))) as [_ V]; [apply vars_wf..|]. by rewrite V, testbit_lor.
Qed.
(** [set_nulls f] on a clause, from what it does to variables *)
Lemma clause_nulls f (P : Z -> Prop) : (forall e b, 0 <= b -> Z.testbit (bms_val (vars (set_nulls f e))) b = true -> Z.testbit (bms_val (vars e)) b = true \/ P b) ->
  forall clause b, 0 <= b -> Z.testbit (bms_val (clause_varnos (map_clause (set_nulls f) clause))) b = true -> Z.testbit (bms_val (clause_varnos clause)) b = true \/ P b.
Proof. intros H clause b Hb. rewrite !clause_bits by done. destruct clause as [op|e]; cbn; naive_solver. Qed.
Lemma clause_nulls_keep f (P : Z -> Prop) : (forall e b, 0 <= b -> Z.testbit (bms_val (vars e)) b = true -> Z.testbit (bms_val (vars (set_nulls f e))) b = true \/ P b) ->
  forall clause b, 0 <= b -> Z.testbit (bms_val (clause_varnos clause)) b = true -> Z.testbit (bms_val (clause_varnos (map_clause (set_nulls f) clause))) b = true \/ P b.
Proof. intros H clause b Hb. rewrite !clause_bits by done. destruct clause as [op|e]; cbn; naive_solver. Qed.
Definition clause_variable (clause : ClauseNode (Expr := Ex)) (b : Z) : Prop :=
  match clause with OpClause op => rel (leftop op) = b \/ rel (rightop op) = b | OtherClause e => rel e = b end.
#[local] Instance ex_outer_laws : OuterLaws Ex.
Proof.
  refine {| has_variable_of := clause_variable |}.
  - intros clauses. cbn. destruct (clauses_varnos_spec (strict_clauses clauses)) as [W H]. split; [done|]. apply within_bits. intros b Hb (clause' & Hin & Ht)%H; [|done].
    apply list_elem_of_fmap in Hin as (clause & -> & Hin%list_elem_of_In%filter_In). destruct Hin as [Hin%list_elem_of_In _]. apply clauses_varnos_spec; [done|]. exists clause. split; [done|].
    destruct (clause_nulls (fun _ _ => 0) (fun _ => False)) with (clause := clause) (b := b) as [|[]]; try done. intros e x Hx. rewrite !vars_spec by done. cbn. rewrite Z.bits_0. naive_solver.
  - intros rels clause. cbn. split; apply within_bits; intros b Hb.
    + intros Ht. destruct (clause_nulls (fun _ n => Z.ldiff n (bms_val rels)) (fun _ => False)) with (clause := clause) (b := b) as [|[]]; try done.
      intros e x Hx. rewrite !vars_spec by done. cbn. rewrite testbit_ldiff. naive_solver.
    + rewrite testbit_ldiff. intros [Ht Hn]. destruct (clause_nulls_keep (fun _ n => Z.ldiff n (bms_val rels)) (fun b => Z.testbit (bms_val rels) b = true)) with (clause := clause) (b := b) as [|]; try done.
      intros e x Hx. rewrite !vars_spec by done. cbn. rewrite testbit_ldiff. destruct (Z.testbit (bms_val rels) x); naive_solver.
  - intros rels clauses clause b _ Hb Hr Hv _. apply not_true_iff_false. rewrite clause_bits by done. destruct clause as [op|e]; cbn in *; rewrite !vars_spec by done; cbn; rewrite ?testbit_ldiff; naive_solver.
  - intros target added clause. cbn. set (f := fun rel n => if Z.testbit (bms_val target) rel then Z.lor n (bms_val added) else n). split; [|split].
    + apply within_bits. intros b Hb Ht. destruct (clause_nulls_keep f (fun _ => False)) with (clause := clause) (b := b) as [|[]]; try done.
      intros e x Hx. rewrite !vars_spec by done. cbn. unfold f. case_match; rewrite ?testbit_lor; naive_solver.
    + apply within_bits. intros b Hb Ht. rewrite testbit_lor. apply (clause_nulls f (fun b => Z.testbit (bms_val added) b = true)); try done.
      intros e x Hx. rewrite !vars_spec by done. cbn. unfold f. case_match; rewrite ?testbit_lor; naive_solver.
    + intros Hm. assert (forall e, (forall b, 0 <= b -> Z.testbit (bms_val (vars e)) b = true -> Z.testbit (bms_val (clause_varnos clause)) b = true) -> vars (set_nulls f e) = vars e) as He.
      { intros e He. unfold vars. cbn. destruct ((0 <? rel e) && (rel e <? 64)) eqn:E; [|done]. apply andb_true_iff in E as [?%Z.ltb_lt ?%Z.ltb_lt]. unfold f.
        destruct (Z.testbit (bms_val target) (rel e)) eqn:Et; [|done]. destruct Hm. apply meets_bits. exists (rel e). split; [lia|]. split; [|done]. apply He; [lia|]. apply vars_spec; [lia|]. auto. }
      destruct clause as [op|e]; cbn; rewrite ?He; try done; intros b Hb Ht; apply clause_bits; auto.
  - done.
Defined.

Definition equal (l r : Ex) : ClauseNode (Expr := Ex) := make_opclause 96 0 l r.
Definition column (rel att nulls : Z) : Ex := Var rel att nulls false.
Definition on_ab := equal (column 1 1 0) (column 2 1 0).
Definition on_bc := equal (column 2 2 (2 ^ 6)) (column 3 1 0).
Definition on_de := equal (column 4 1 0) (column 5 1 0).
Definition in_sub := equal (column 1 2 0) (column 4 2 (2 ^ 8)).
Definition settings : JTQuery Ex :=
  {| jq_lateral := false; qual_security_level := 0; from_collapse_limit := 8; join_collapse_limit := 8; securityQuals := fun _ => []; rowMarks := []; jq_placeholders := []; enable_hashagg := true |}.
Definition left_joins : JoinNode Ex := JoinExpr JOIN_LEFT (JoinExpr JOIN_LEFT (TableRef 1) (TableRef 2) 6 [on_ab]) (TableRef 3) 7 [on_bc].
Definition tree : JoinNode Ex := FromExpr [JoinExpr JOIN_SEMI left_joins (JoinExpr JOIN_FULL (TableRef 4) (TableRef 5) 8 [on_de]) 0 [in_sub]] [].
Definition base_slot : RelSlot := Base {| baserestrictinfo := []; baserestrict_min_security := 2 ^ 32 - 1; br_joininfo := []; br_has_eclass_joins := false |}.
Definition start : JTRoot Ex :=
  {| jt_root := {| im_ec := ec_start ([None] ++ replicate 5 (Some None) ++ replicate 3 None) 0; im_clauses := ∅; im_next := 0;
                   im_rels := [NoRel] ++ replicate 5 base_slot ++ replicate 3 OuterJoin; im_all_query_rels := None; im_join_info := []; im_jdomains := [None] |};
     all_baserels := None; outer_join_rels := None; nulling_relids := replicate 9 None; jt_items := []; semi_infos := []; left_join_clauses := []; right_join_clauses := [];
     full_join_clauses := []; hasPseudoConstantQuals := false |}.
Ltac member H := repeat (apply elem_of_cons in H as [->|H]); try by apply not_elem_of_nil in H.
Lemma fresh_start : fresh_outer tree start.
Proof.
  split; [by eexists|done|done|]. split.
  - intros v H. member H; by eexists _, None.
  - intros v H. member H; done.
Qed.
Lemma whole_query : outer_query settings tree.
Proof.
  assert (forall node, sound_node node -> (forall clause, clause ∈ own_quals settings node -> within (bms_val (clause_varnos clause)) (qual_scope node) /\
      tree_all (nulled (bms_val (clause_varnos clause))) node /\ meets (bms_val (clause_varnos clause)) (bits (tables node)) /\
      Forall (fun b => ~ clause_variable clause b) (outer_joins node) /\ bms_val (clause_varnos clause) <> 0) -> outer_node settings node) as Hn.
  { intros node Hs H. split; [done|intros c Hc; by apply H|intros c Hc; by apply H|intros c Hc _; by apply H|done| |done| |by intros t a b v quals rc _ _ ?%not_elem_of_nil].
    - intros c b Hc Hb. destruct (H c Hc) as (_ & _ & _ & Hf & _). rewrite Forall_forall in Hf. by apply Hf.
    - intros v op _ Hc _ E. by destruct (H _ Hc) as (_ & _ & _ & _ & ?). }
  split; [by eexists _, _| | |constructor].
  - cbn [tree_all tree left_joins]. split_and!; try done; apply Hn; try done; intros c H; cbn in H; member H;
      (split; [done|]; split; [by repeat split|]; split; [done|]; split; [|done]; cbn; repeat constructor; cbn; lia).
  - split; [cbn; repeat constructor|]. change (NoDup [1; 2; 3; 4; 5; 6; 7; 8]). apply (bool_decide_unpack _). by vm_compute.
Qed.
(** The special joins that have been made, and a search for the query *)
Definition made_joins : list SpecialJoinInfo := match deconstruct_jointree settings start tree with Ok (_, st) => im_join_info (jt_root st) | _ => [] end.
Definition special_joins : list SpecialJoinInfo := Eval vm_compute in made_joins.
Definition search : Query (Expr := Ex) :=
  {| join_info_list := special_joins; placeholder_list := []; hasLateralRTEs := false; initial_rels := []; all_query_rels := Some [510];
     ec_root := {| ec_heap := []; eq_classes := []; ec_merging_done := true; eclass_indexes := replicate 9 None; top_jdomain := 0 |} |}.
Definition table (v : Z) : JoinRel :=
  {| rel_ptr := Z.to_nat v; relids := Some [2 ^ v]; joininfo := []; has_eclass_joins := false; lateral_relids := None; direct_lateral_relids := None; lateral_referencers := None |}.
Definition ab : JoinRel := {| rel_ptr := 0; relids := Some [70]; joininfo := []; has_eclass_joins := false; lateral_relids := None; direct_lateral_relids := None; lateral_referencers := None |}.
Definition begin : PlannerInfo (Store := unit) :=
  {| join_rel_list := []; join_rel_hash := None; join_rel_level := None; join_cur_level := 0; next_ptr := 9; store := tt; tried := [] |}.
#[local] Instance no_paths : JoinPaths unit := {
  is_dummy_rel := fun _ _ => false; create_unique_path := fun _ _ _ => true; restriction_is_constant_false := fun _ _ _ _ => false; mark_dummy_rel := fun st _ => st;
  add_join_paths := fun st _ _ _ _ _ => Ok st; no_paths_yet := fun _ _ => false; try_partitionwise_join := fun st _ _ _ _ => Ok st; finish_rel := fun st _ _ => Ok st
}.
#[local] Instance no_paths_made : PathMaking unit.
Proof. split; by eexists. Qed.
Lemma wf_word x : 0 < x < 2 ^ 64 -> bms_wf (Some [x]).
Proof. apply LegalDemo.one_word_wf. Qed.
Lemma search_fine : search_sets search (node_bits tree).
Proof.
  split; [split|..].
  - apply Forall_cons; split; [|apply Forall_cons; split; [|apply Forall_cons; split; [|apply Forall_singleton]]]; split; by apply wf_word.
  - constructor.
  - constructor.
  - intros b Hb Ht. assert (0 < b < 9) as Hr.
    { destruct (Z_lt_ge_dec b 9) as [|Hge]; [destruct (Z.eq_dec b 0) as [->|]; [done|lia]|]. exfalso. change (node_bits tree) with 510 in Ht.
      rewrite Z.bits_above_log2 in Ht; [done|lia|]. change (Z.log2 510) with 8. lia. }
    split; [lia|]. exists None. split; [|done]. cbn. apply (lookup_replicate_2 9). lia.
Qed.
Lemma table_sets v : (0 <? v) && (v <? 64) = true -> rel_sets (table v).
Proof.
  intros [?%Z.ltb_lt ?%Z.ltb_lt]%andb_true_iff. split; [|done|done]. apply wf_word. split; [by apply Z.pow_pos_nonneg; lia|]. apply Z.pow_lt_mono_r; lia.
Qed.
Lemma ab_sets : rel_sets ab.
Proof. split; [by apply wf_word|done|done]. Qed.
Lemma written_bc : written tree 70 8 JOIN_LEFT 7.
Proof.
  apply (written_entry (JoinExpr JOIN_SEMI left_joins (JoinExpr JOIN_FULL (TableRef 4) (TableRef 5) 8 [on_de]) 0 [in_sub])); [by left|]. apply written_left.
  exact (written_join JOIN_LEFT (JoinExpr JOIN_LEFT (TableRef 1) (TableRef 2) 6 [on_ab]) (TableRef 3) 7 [on_bc]).
Qed.
Lemma made_special : made_joins = special_joins.
Proof. vm_compute. reflexivity. Qed.
Lemma search_joins joinlist st' : deconstruct_jointree settings start tree = Ok (joinlist, st') -> join_info_list search = im_join_info (jt_root st').
Proof.
  intros E. transitivity made_joins; [exact (eq_sym made_special)|]. unfold made_joins. by rewrite E.
Qed.
Lemma tables_fine : base_ok table tree.
Proof.
  intros v Hv. split; [|unfold rel_val; cbn; by rewrite Z.shiftl_0_l, Z.lor_0_r]. cbn in Hv. member Hv; by apply table_sets.
Qed.
Lemma begin_fine : search_state begin.
Proof. by split. Qed.
(** Joining [a LEFT JOIN b] to [c] performs the second left join; the whole query is joined. *)
Lemma written_order_legal_witness : (exists s, join_is_legal search tt ab (table 3) (bms_union (relids ab) (relids (table 3))) = Ok (Some (Some s, false)) /\ jointype s = JOIN_LEFT /\ ojrelid s = 7) /\
  exists rel root', join_as_written (fun _ => 0) search table begin tree = Ok (Some rel, root') /\ rel_val rel = 510.
Proof.
  destruct (written_order_legal settings tree start whole_query fresh_start) as (joinlist & st' & E & _ & H).
  destruct (H unit no_paths no_paths_made search (search_joins _ _ E) eq_refl search_fine) as [Hj Hr]. split.
  - destruct (Hj tt 70 8 JOIN_LEFT 7 written_bc ab (table 3) ab_sets (table_sets 3 eq_refl) eq_refl eq_refl) as (o & rs & El & Ho & _).
    destruct Ho as (s & -> & _ & Ho). exists s. exact (conj El Ho).
  - destruct (Hr (fun _ => 0) table begin begin_fine tables_fine) as [H1|(_ & r1 & r2 & v & s & j & _ & _ & Hn)]; [exact H1|discriminate].
Defined.
End OuterDemo.
