(* ===== verification/Lero.v ===== *)
(** * Cardinality injection ([src/backend/lero/lero_extension.c])

    With [enable_lero], a query is planned twice.  The first run records the row estimate and
    the number of input tables of every join relation; the second run replaces the estimates, in
    the order in which they are asked for.  A planner run is given by the sequence of its calls of
    [set_joinrel_size_estimates]. *)
From S2P Require Import Prelude Float64 JoinOrder JoinOrderProps.
#[local] Open Scope Z_scope.

Definition CARD_MAX_NUM : Z := 25000.

(** ** Counting the tables below a path *)
Definition lero_shape (pathtype : NodeTag) : Shape :=
  match pathtype with
  | T_SeqScan | T_IndexScan | T_IndexOnlyScan | T_BitmapHeapScan => ShScan
  | T_HashJoin | T_MergeJoin | T_NestLoop => ShJoin
  | T_Material | T_Sort | T_Agg | T_Memoize | T_Gather | T_GatherMerge => ShSub
  | _ => ShError
  end.

(** [rtes] is [root->simple_rte_array], which is read at the relation number of a scan. *)
Fixpoint add_join_input_tables (rtes : list (option Z)) (path : PathTree) (num : Z) : result Z :=
  let sub (p : option PathTree) (num : Z) :=
    match p with Some p => add_join_input_tables rtes p num | None => Error null_msg end in
  match lero_shape (pathtype path) with
  | ShScan =>
      match (if 0 <=? relid path then rtes !! Z.to_nat (relid path) else None) with
      | Some (Some _) => Ok (num + 1)
      | _ => Error bounds_msg
      end
  | ShJoin =>
      num ← sub (innerjoinpath path) num;
      sub (outerjoinpath path) num
  | ShSub => sub (subpath path) num
  | ShWarn | ShAssert | ShError => Error node_type_msg
  end.

(** ** The module's variables *)
Record LeroState := {
  record_original_card_phase : bool;
  join_card_num : Z;
  cur_card_idx : Z;
  original_card_list : list double;
  lero_card_list : list double;
  join_input_table_nums : list Z;
  static_rows : double
}.

(** One call: the estimate the core code made and the cheapest paths of the two inputs. *)
Record EstimateCall := { rel_rows : double; outer_path : PathTree; inner_path : PathTree }.

Definition lero_pgsysml_set_joinrel_size_estimates (rtes : list (option Z)) (st : LeroState) (c : EstimateCall)
    : result (LeroState * double) :=
  if record_original_card_phase st then
    if join_card_num st <? CARD_MAX_NUM then
      originals ← array_set (original_card_list st) (join_card_num st) (rel_rows c);
      num_tables ← add_join_input_tables rtes (outer_path c) 0;
      num_tables ← add_join_input_tables rtes (inner_path c) num_tables;
      nums ← array_set (join_input_table_nums st) (join_card_num st) num_tables;
      Ok ({| record_original_card_phase := true; join_card_num := join_card_num st + 1;
             cur_card_idx := cur_card_idx st; original_card_list := originals;
             lero_card_list := lero_card_list st; join_input_table_nums := nums;
             static_rows := rel_rows c |}, rel_rows c)
    else Ok (st, static_rows st)
  else
    if cur_card_idx st <? join_card_num st then
      rows ← array_get (lero_card_list st) (cur_card_idx st);
      Ok ({| record_original_card_phase := false; join_card_num := join_card_num st;
             cur_card_idx := cur_card_idx st + 1; original_card_list := original_card_list st;
             lero_card_list := lero_card_list st; join_input_table_nums := join_input_table_nums st;
             static_rows := rows |}, rows)
    else
      Ok ({| record_original_card_phase := false; join_card_num := join_card_num st;
             cur_card_idx := cur_card_idx st; original_card_list := original_card_list st;
             lero_card_list := lero_card_list st; join_input_table_nums := join_input_table_nums st;
             static_rows := rel_rows c |}, rel_rows c).

(** A planner run: the estimates it ends up with. *)
Fixpoint run_estimates (rtes : list (option Z)) (st : LeroState) (calls : list EstimateCall)
    : result (LeroState * list double) :=
  match calls with
  | [] => Ok (st, [])
  | c :: calls =>
      '(st, rows) ← lero_pgsysml_set_joinrel_size_estimates rtes st c;
      '(st, rest) ← run_estimates rtes st calls;
      Ok (st, rows :: rest)
  end.

(** The loop of [lero_pgsysml_hook_planner] over the recorded estimates. *)
Fixpoint swing (lero_swing_factor : double) (lero_subquery_table_num : Z) (st : LeroState) (indexes : list Z)
    (cards : list double) : result (list double) :=
  match indexes with
  | [] => Ok cards
  | i :: indexes =>
      num ← array_get (join_input_table_nums st) i;
      orig ← array_get (original_card_list st) i;
      cards ← array_set cards i (if num =? lero_subquery_table_num then dmul orig lero_swing_factor else orig);
      swing lero_swing_factor lero_subquery_table_num st indexes cards
  end.

Definition lero_pgsysml_hook_planner (lero_swing_factor : double) (lero_subquery_table_num : Z)
    (rtes : list (option Z)) (st : LeroState) (first_run second_run : list EstimateCall)
    : result (list double * list double) :=
  let st := {| record_original_card_phase := true; join_card_num := 0; cur_card_idx := 0;
               original_card_list := original_card_list st; lero_card_list := lero_card_list st;
               join_input_table_nums := join_input_table_nums st; static_rows := static_rows st |} in
  '(st, rows1) ← run_estimates rtes st first_run;
  cards ← swing lero_swing_factor lero_subquery_table_num st (seqZ 0 (join_card_num st)) (lero_card_list st);
  let st := {| record_original_card_phase := false; join_card_num := join_card_num st;
               cur_card_idx := cur_card_idx st; original_card_list := original_card_list st;
               lero_card_list := cards; join_input_table_nums := join_input_table_nums st;
               static_rows := static_rows st |} in
  '(_, rows2) ← run_estimates rtes st second_run;
  Ok (rows1, rows2).

(** ** Table counts *)
Fixpoint tables (path : PathTree) : option Z :=
  let sub (p : option PathTree) := match p with Some p => tables p | None => None end in
  match lero_shape (pathtype path) with
  | ShScan => Some 1
  | ShJoin => i ← sub (innerjoinpath path); o ← sub (outerjoinpath path); Some (i + o)
  | ShSub => sub (subpath path)
  | _ => None
  end.
(** Every scan below reads an entry of the range table. *)
Fixpoint scans_ok (rtes : list (option Z)) (path : PathTree) : Prop :=
  let sub (p : option PathTree) := match p with Some p => scans_ok rtes p | None => True end in
  match lero_shape (pathtype path) with
  | ShScan => 0 <= relid path /\ exists rte, rtes !! Z.to_nat (relid path) = Some (Some rte)
  | ShJoin => sub (innerjoinpath path) /\ sub (outerjoinpath path)
  | ShSub => sub (subpath path)
  | _ => True
  end.

Lemma add_join_input_tables_spec rtes path : scans_ok rtes path -> forall num,
  add_join_input_tables rtes path num =
  match tables path with Some n => Ok (num + n) | None => add_join_input_tables rtes path num end.
Proof.
  induction path as [pt ty r ou inn su IHo IHi IHs] using PathTree_rec'. intros Hs num.
  cbn [scans_ok tables add_join_input_tables pathtype relid outerjoinpath innerjoinpath subpath] in *.
  destruct (lero_shape pt); try done.
  - destruct Hs as (Hr & rte & E). rewrite (proj2 (Z.leb_le _ _)) by done. by rewrite E.
  - destruct inn as [inn|]; [|done]. destruct ou as [ou|]; [|by destruct (tables inn)]. destruct Hs as [Hi Ho].
    rewrite (IHi _ eq_refl Hi). destruct (tables inn) as [n1|]; cbn [mbind option_bind result_bind]; [|done].
    rewrite (IHo _ eq_refl Ho). destruct (tables ou) as [n2|]; cbn [mbind option_bind result_bind]; [|done].
    f_equal. lia.
  - destruct su as [su|]; [|done]. by apply (IHs _ eq_refl).
Qed.

(** ** The two runs *)
Definition call_ok (rtes : list (option Z)) (c : EstimateCall) (n : Z) : Prop :=
  scans_ok rtes (outer_path c) /\ scans_ok rtes (inner_path c) /\
  exists o i, tables (outer_path c) = Some o /\ tables (inner_path c) = Some i /\ n = o + i.

Record arrays_ok (st : LeroState) : Prop := {
  ao_originals : length (original_card_list st) = Z.to_nat CARD_MAX_NUM;
  ao_cards : length (lero_card_list st) = Z.to_nat CARD_MAX_NUM;
  ao_nums : length (join_input_table_nums st) = Z.to_nat CARD_MAX_NUM
}.

(** What [calls] recorded from position [k] on. *)
Record recorded (st st' : LeroState) (k : nat) (calls : list EstimateCall) (ns : list Z) : Prop := {
  rc_phase : record_original_card_phase st' = true;
  rc_num : join_card_num st' = Z.of_nat (k + length calls);
  rc_idx : cur_card_idx st' = cur_card_idx st;
  rc_arrays : arrays_ok st';
  rc_before : forall i, (i < k)%nat -> original_card_list st' !! i = original_card_list st !! i /\
    join_input_table_nums st' !! i = join_input_table_nums st !! i;
  rc_rows : forall j c, calls !! j = Some c -> original_card_list st' !! (k + j)%nat = Some (rel_rows c);
  rc_tables : forall j n, ns !! j = Some n -> join_input_table_nums st' !! (k + j)%nat = Some n
}.

Lemma record_one rtes st k c n : arrays_ok st -> record_original_card_phase st = true ->
  join_card_num st = Z.of_nat k -> (k < Z.to_nat CARD_MAX_NUM)%nat -> call_ok rtes c n ->
  exists st', lero_pgsysml_set_joinrel_size_estimates rtes st c = Ok (st', rel_rows c) /\
    recorded st st' k [c] [n].
Proof.
  intros [A1 A2 A3] Hph Hk Hlt (S1 & S2 & o & i & To & Ti & ->).
  unfold lero_pgsysml_set_joinrel_size_estimates. rewrite Hph, Hk, (proj2 (Z.ltb_lt _ _)) by lia.
  rewrite array_set_ok by lia. cbn [mbind result_bind].
  rewrite (add_join_input_tables_spec _ _ S1), To. cbn [mbind result_bind].
  rewrite (add_join_input_tables_spec _ _ S2), Ti. cbn [mbind result_bind].
  rewrite array_set_ok by lia. cbn [mbind result_bind].
  eexists. split; [done|]. split; cbn; try done; [lia|split; cbn; by rewrite ?length_insert|..].
  - intros j Hj. by rewrite !list_lookup_insert_ne by lia.
  - intros [|j] c' Hc'; [|done]. injection Hc' as <-. rewrite Nat.add_0_r, list_lookup_insert_eq by lia. done.
  - intros [|j] n' Hn'; [|done]. injection Hn' as <-. rewrite Nat.add_0_r, list_lookup_insert_eq by lia. f_equal; lia.
Qed.

Lemma recorded_trans st st1 st2 k c n calls ns : recorded st st1 k [c] [n] -> recorded st1 st2 (S k) calls ns ->
  recorded st st2 k (c :: calls) (n :: ns).
Proof.
  intros [P1 N1 I1 A1 B1 R1 T1] [P2 N2 I2 A2 B2 R2 T2]. split; [done| |by rewrite I2|done|..].
  - rewrite N2. cbn [length]. f_equal. lia.
  - intros i Hi. destruct (B2 i ltac:(lia)) as [-> ->]. by apply B1.
  - intros [|j] c' Hc'.
    + destruct (B2 (k + 0)%nat ltac:(lia)) as [-> _]. by apply R1.
    + replace (k + S j)%nat with (S k + j)%nat by lia. by apply R2.
  - intros [|j] n' Hn'.
    + destruct (B2 (k + 0)%nat ltac:(lia)) as [_ ->]. by apply T1.
    + replace (k + S j)%nat with (S k + j)%nat by lia. by apply T2.
Qed.

Lemma record_run rtes calls : forall ns st k, Forall2 (call_ok rtes) calls ns -> arrays_ok st ->
  record_original_card_phase st = true -> join_card_num st = Z.of_nat k ->
  (k + length calls <= Z.to_nat CARD_MAX_NUM)%nat ->
  exists st', run_estimates rtes st calls = Ok (st', rel_rows <$> calls) /\ recorded st st' k calls ns.
Proof.
  induction calls as [|c calls IH]; intros ns st k Hok Ha Hph Hk Hlen.
  { inversion_clear Hok. exists st. split; [done|]. split; try done. rewrite Hk. cbn. lia. }
  inversion Hok as [|? n ? ns' Hc Hcs]; subst. cbn [length] in Hlen.
  destruct (record_one rtes st k c n Ha Hph Hk ltac:(lia) Hc) as (st1 & E1 & Hr1).
  destruct (IH ns' st1 (S k) Hcs) as (st2 & E2 & Hr2); [apply Hr1|apply Hr1| |lia|].
  { rewrite (rc_num _ _ _ _ _ Hr1). cbn [length]. f_equal. lia. }
  exists st2. cbn [run_estimates]. rewrite E1. cbn [mbind result_bind]. rewrite E2. cbn [mbind result_bind].
  split; [done|]. by eapply recorded_trans.
Qed.

(** The estimate the second run gets for a recorded join. *)
Definition injected (factor : double) (table_num : Z) (c : EstimateCall) (n : Z) : double :=
  if n =? table_num then dmul (rel_rows c) factor else rel_rows c.

Lemma swing_spec factor table_num st m : forall a cards,
  (forall i, (a <= i < a + m)%nat -> is_Some (join_input_table_nums st !! i) /\ is_Some (original_card_list st !! i)) ->
  (a + m <= length cards)%nat ->
  exists cards', swing factor table_num st (seqZ (Z.of_nat a) (Z.of_nat m)) cards = Ok cards' /\
    length cards' = length cards /\
    forall i, cards' !! i = if decide (a <= i < a + m)%nat then
        n ← join_input_table_nums st !! i; r ← original_card_list st !! i;
        Some (if n =? table_num then dmul r factor else r)
      else cards !! i.
Proof.
  induction m as [|m IH]; intros a cards Hs Hl.
  { exists cards. split; [done|]. split; [done|]. intros i. rewrite decide_False by lia. done. }
  rewrite seqZ_cons by lia. cbn [swing].
  destruct (Hs a ltac:(lia)) as [[n En] [r Er]].
  rewrite (array_get_ok _ _ _ En), (array_get_ok _ _ _ Er). cbn [mbind result_bind].
  rewrite array_set_ok by lia. cbn [mbind result_bind].
  replace (Z.succ (Z.of_nat a)) with (Z.of_nat (S a)) by lia.
  replace (Z.pred (Z.of_nat (S m))) with (Z.of_nat m) by lia.
  destruct (IH (S a) (<[a := if n =? table_num then dmul r factor else r]> cards)) as (cards' & -> & Hlen & Hlook);
    [intros i Hi; apply Hs; lia|rewrite length_insert; lia|].
  exists cards'. split; [done|]. split; [by rewrite Hlen, length_insert|]. intros i. rewrite Hlook.
  destruct (decide (i = a)) as [->|Hne].
  - rewrite decide_False, decide_True by lia. rewrite list_lookup_insert_eq by lia. by rewrite En, Er.
  - rewrite list_lookup_insert_ne by done. destruct (decide (S a <= i < S a + m)%nat).
    + rewrite decide_True by lia. done.
    + rewrite decide_False by lia. done.
Qed.

Lemma replay_run rtes calls : forall st k m, record_original_card_phase st = false -> cur_card_idx st = Z.of_nat k ->
  join_card_num st = Z.of_nat m -> (forall i, (i < m)%nat -> is_Some (lero_card_list st !! i)) ->
  exists st' rows, run_estimates rtes st calls = Ok (st', rows) /\
    forall j, rows !! j = (c ← calls !! j; if decide (k + j < m)%nat then lero_card_list st !! (k + j)%nat
                                           else Some (rel_rows c)).
Proof.
  induction calls as [|c calls IH]; intros st k m Hph Hk Hm Hs.
  { exists st, []. split; [done|]. by intros j. }
  cbn [run_estimates]. unfold lero_pgsysml_set_joinrel_size_estimates. rewrite Hph, Hk, Hm.
  destruct (decide (k < m)%nat) as [Hlt|Hge].
  - rewrite (proj2 (Z.ltb_lt _ _)) by lia. destruct (Hs k Hlt) as [r Er].
    rewrite (array_get_ok _ _ _ Er). cbn [mbind result_bind].
    match goal with |- context [run_estimates rtes ?s calls] =>
      destruct (IH s (S k) m) as (st' & rows & E & Hrows); [done|cbn; lia|done|done|] end.
    rewrite E. cbn [mbind result_bind].
    eexists _, _. split; [done|]. intros [|j]; cbn.
    + rewrite decide_True by lia. by rewrite Nat.add_0_r.
    + rewrite Hrows. cbn [lero_card_list]. replace (k + S j)%nat with (S k + j)%nat by lia. done.
  - rewrite (proj2 (Z.ltb_ge _ _)) by lia. cbn [mbind result_bind].
    match goal with |- context [run_estimates rtes ?s calls] =>
      destruct (IH s k m) as (st' & rows & E & Hrows); [done|cbn; lia|done|done|] end.
    rewrite E. cbn [mbind result_bind].
    eexists _, _. split; [done|]. intros [|j]; cbn.
    + by rewrite decide_False by lia.
    + rewrite Hrows. destruct (calls !! j); [|done]. cbn. rewrite !decide_False by lia. done.
Qed.

(** C10: Cardinality injection works as intended for queries with at most [CARD_MAX_NUM] join
    relations whose inputs consist of scans, joins, sorts and the like.  No array is indexed out
    of bounds.  The first run leaves the core estimates alone and records them.  In
    the second run the k-th estimate asked for is the k-th one recorded, multiplied by the swing factor
    exactly if that join had [lero_subquery_table_num] input tables; joins beyond the recorded
    ones keep the core estimate. *)
Theorem lero_injects_cardinalities factor table_num rtes st first_run ns second_run :
  arrays_ok st -> Forall2 (call_ok rtes) first_run ns -> (length first_run <= Z.to_nat CARD_MAX_NUM)%nat ->
  exists rows2, lero_pgsysml_hook_planner factor table_num rtes st first_run second_run =
      Ok (rel_rows <$> first_run, rows2) /\
    forall k, rows2 !! k =
      (c ← second_run !! k;
       Some (match first_run !! k, ns !! k with
             | Some c1, Some n => injected factor table_num c1 n
             | _, _ => rel_rows c
             end)).
Proof.
  intros Ha Hok Hlen. unfold lero_pgsysml_hook_planner. cbv zeta. pose proof (Forall2_length _ _ _ Hok) as Hln.
  match goal with |- context [run_estimates rtes ?s first_run] =>
    destruct (record_run rtes first_run ns s 0%nat Hok) as (st1 & E1 & Hr); [by destruct Ha|done|done|lia|] end.
  rewrite E1. cbn [mbind result_bind]. clear E1. destruct Hr as [_ Hnum Hidx Har _ Hrows Htabs]. cbn in Hnum, Hidx, Hrows, Htabs.
  rewrite Hnum.
  destruct (swing_spec factor table_num st1 (length first_run) 0%nat (lero_card_list st1)) as (cards & E2 & Hcl & Hcards).
  { intros i Hi. destruct (lookup_lt_is_Some_2 first_run i) as [c Hc]; [lia|].
    destruct (lookup_lt_is_Some_2 ns i) as [n Hn]; [lia|]. rewrite (Hrows _ _ Hc), (Htabs _ _ Hn). split; eauto. }
  { rewrite (ao_cards _ Har). lia. }
  change (Z.of_nat 0) with 0 in E2. rewrite E2. cbn [mbind result_bind].
  match goal with |- context [run_estimates rtes ?s second_run] =>
    destruct (replay_run rtes second_run s 0%nat (length first_run)) as (st2 & rows2 & E3 & Hr2); [done|done|done| |] end.
  { intros i Hi. cbn [lero_card_list]. apply lookup_lt_is_Some_2. rewrite Hcl, (ao_cards _ Har). lia. }
  rewrite E3. cbn [mbind result_bind]. exists rows2. split; [done|]. intros k. rewrite Hr2.
  destruct (second_run !! k) as [c|]; [|done]. cbn [mbind option_bind lero_card_list Nat.add].
  rewrite Hcards. destruct (decide (k < length first_run)%nat) as [Hk|Hk].
  - rewrite decide_True by lia. destruct (lookup_lt_is_Some_2 first_run k Hk) as [c1 Hc1].
    destruct (lookup_lt_is_Some_2 ns k) as [n Hn]; [lia|].
    by rewrite (Htabs _ _ Hn), (Hrows _ _ Hc1), Hc1, Hn.
  - by rewrite (lookup_ge_None_2 first_run) by lia.
Qed.

(** Once [CARD_MAX_NUM] joins are recorded, the recording run itself changes estimates: the
    relation gets the row count of the last recorded one. *)
Lemma lero_overflow_overwrites rtes st c : record_original_card_phase st = true -> join_card_num st = CARD_MAX_NUM ->
  lero_pgsysml_set_joinrel_size_estimates rtes st c = Ok (st, static_rows st).
Proof. intros Hp Hn. unfold lero_pgsysml_set_joinrel_size_estimates. by rewrite Hp, Hn. Qed.

Module LeroDemo.
Import JoinOrderDemo.
Definition rtes : list (option Z) := [None; Some 100; Some 200; Some 300].
Definition st0 : LeroState :=
  {| record_original_card_phase := false; join_card_num := 7; cur_card_idx := 3;
     original_card_list := replicate (Z.to_nat CARD_MAX_NUM) dzero;
     lero_card_list := replicate (Z.to_nat CARD_MAX_NUM) dzero;
     join_input_table_nums := replicate (Z.to_nat CARD_MAX_NUM) 0; static_rows := dzero |}.
Definition call2 : EstimateCall := {| rel_rows := dofZ 50; outer_path := scan 1; inner_path := scan 2 |}.
Definition call3 : EstimateCall := {| rel_rows := dofZ 80; outer_path := hash (scan 1) (scan 2); inner_path := scan 3 |}.

Lemma calls_ok : Forall2 (call_ok rtes) [call2; call3] [2; 3].
Proof.
  repeat constructor; cbn; try lia; try (eexists; reflexivity); do 2 eexists; (split; [reflexivity|]);
    split; reflexivity.
Qed.
Lemma st0_arrays : arrays_ok st0.
Proof. split; cbn; by rewrite length_replicate. Qed.

Lemma lero_injects_cardinalities_witness : exists rows2,
  lero_pgsysml_hook_planner (dofZ 2) 2 rtes st0 [call2; call3] [call2; call3] = Ok ([dofZ 50; dofZ 80], rows2) /\
  rows2 !! 0%nat = Some (dofZ 100) /\ rows2 !! 1%nat = Some (dofZ 80).
Proof.
  destruct (lero_injects_cardinalities (dofZ 2) 2 rtes st0 [call2; call3] [2; 3] [call2; call3] st0_arrays calls_ok)
    as (rows2 & E & H); [change (2 <= Z.to_nat 25000)%nat; lia|].
  exists rows2. split; [exact E|]. split; [rewrite (H 0%nat)|rewrite (H 1%nat)]; vm_compute; reflexivity.
Defined.
End LeroDemo.
