(* ===== verification/SortTemplate.v ===== *)
(** * Quicksort: [src/include/lib/sort_template.h] and [pg_qsort] of [src/port/qsort.c]

    Bentley and McIlroy's quicksort as the template expands for [pg_qsort]: insertion sort below seven
    elements, a check for presorted input, the median of three or nine as pivot, the partition that
    collects the elements equal to the pivot at both ends, and the recursion on the smaller side.
    Pointers are indexes of one array whose entries are the elements, so a pointer step is 1 and
    [ST_SWAP] exchanges two entries.  Every comparison function gives a permutation in bounded time;
    a consistent one gives a sorted array. *)
From stdpp Require Import sorting.
From S2P Require Import Prelude.
#[local] Open Scope Z_scope.

(** What sorting promises its callers: the contract of [qsort] for a comparison function. *)
Class QSort (A : Type) := {
  qsort : (A -> A -> Z) -> list A -> list A;
  qsort_permutes cmp l : qsort cmp l ≡ₚ l;
  qsort_sorts cmp l :
    (forall x y, x ∈ l -> y ∈ l -> cmp x y < 0 <-> 0 < cmp y x) ->
    (forall x y z, x ∈ l -> y ∈ l -> z ∈ l -> cmp x y <= 0 -> cmp y z <= 0 -> cmp x z <= 0) ->
    StronglySorted (fun x y => cmp x y <= 0) (qsort cmp l)
}.

(** Membership in concatenations. *)
Ltac mem := repeat first [rewrite elem_of_app | rewrite elem_of_cons | rewrite list_elem_of_singleton]; tauto.

Section Sort.
Context {A : Type} (ST_COMPARE : A -> A -> Z).
Implicit Types (arr data : list A).

Definition ST_MED3 arr (a b c : Z) : result Z :=
  x ← array_get arr a; y ← array_get arr b; z ← array_get arr c;
  Ok (if ST_COMPARE x y <? 0
      then if ST_COMPARE y z <? 0 then b else if ST_COMPARE x z <? 0 then c else a
      else if 0 <? ST_COMPARE y z then b else if ST_COMPARE x z <? 0 then a else c).

Definition ST_SWAP arr (a b : Z) : result (list A) :=
  tmp ← array_get arr a; y ← array_get arr b;
  arr ← array_set arr a y; array_set arr b tmp.
Fixpoint ST_SWAPN arr (a b : Z) (n : nat) : result (list A) :=
  match n with
  | O => Ok arr
  | S n => arr ← ST_SWAP arr a b; ST_SWAPN arr (a + 1) (b + 1) n
  end.

(** ** Insertion sort of short arrays *)
Fixpoint insert_back (fuel : nat) arr (a pl : Z) : result (list A) :=
  match fuel with
  | O => NoFuel
  | S fuel =>
      if a <? pl then
        x ← array_get arr (pl - 1); y ← array_get arr pl;
        if 0 <? ST_COMPARE x y then arr ← ST_SWAP arr pl (pl - 1); insert_back fuel arr a (pl - 1)
        else Ok arr
      else Ok arr
  end.
(** The values of [pm] are listed. *)
Fixpoint insertion_loop arr (a : Z) (pms : list Z) : result (list A) :=
  match pms with
  | [] => Ok arr
  | pm :: pms => arr ← insert_back (S (Z.to_nat (pm - a))) arr a pm; insertion_loop arr a pms
  end.

Fixpoint presorted arr (pms : list Z) : result bool :=
  match pms with
  | [] => Ok true
  | pm :: pms =>
      x ← array_get arr (pm - 1); y ← array_get arr pm;
      if 0 <? ST_COMPARE x y then Ok false else presorted arr pms
  end.

(** ** Partitioning *)
Definition choose_pivot arr (a n : Z) : result Z :=
  let pm := a + n / 2 in
  if 7 <? n then
    let pl := a in
    let pn := a + (n - 1) in
    '(pl, pm, pn) ← (if 40 <? n then
                       let d := n / 8 in
                       pl ← ST_MED3 arr pl (pl + d) (pl + 2 * d);
                       pm ← ST_MED3 arr (pm - d) pm (pm + d);
                       pn ← ST_MED3 arr (pn - 2 * d) (pn - d) pn;
                       Ok (pl, pm, pn)
                     else Ok (pl, pm, pn));
    ST_MED3 arr pl pm pn
  else Ok pm.

Fixpoint scan_left (fuel : nat) arr (a pa pb pc : Z) : result (list A * Z * Z) :=
  match fuel with
  | O => NoFuel
  | S fuel =>
      if pb <=? pc then
        x ← array_get arr pb; v ← array_get arr a;
        let r := ST_COMPARE x v in
        if r <=? 0 then
          '(arr, pa) ← (if r =? 0 then arr ← ST_SWAP arr pa pb; Ok (arr, pa + 1) else Ok (arr, pa));
          scan_left fuel arr a pa (pb + 1) pc
        else Ok (arr, pa, pb)
      else Ok (arr, pa, pb)
  end.
Fixpoint scan_right (fuel : nat) arr (a pb pc pd : Z) : result (list A * Z * Z) :=
  match fuel with
  | O => NoFuel
  | S fuel =>
      if pb <=? pc then
        x ← array_get arr pc; v ← array_get arr a;
        let r := ST_COMPARE x v in
        if 0 <=? r then
          '(arr, pd) ← (if r =? 0 then arr ← ST_SWAP arr pc pd; Ok (arr, pd - 1) else Ok (arr, pd));
          scan_right fuel arr a pb (pc - 1) pd
        else Ok (arr, pc, pd)
      else Ok (arr, pc, pd)
  end.
Fixpoint partition (fuel : nat) arr (a pa pb pc pd : Z) : result (list A * Z * Z * Z * Z) :=
  match fuel with
  | O => NoFuel
  | S fuel' =>
      '(arr, pa, pb) ← scan_left fuel arr a pa pb pc;
      '(arr, pc, pd) ← scan_right fuel arr a pb pc pd;
      if pc <? pb then Ok (arr, pa, pb, pc, pd)
      else arr ← ST_SWAP arr pb pc; partition fuel' arr a pa (pb + 1) (pc - 1) pd
  end.

(** ** The sort *)

(** What follows the partition: the elements equal to the pivot move to the middle, and both sides are
    sorted, the smaller one first. *)
Definition sort_parts (sort : list A -> Z -> Z -> result (list A)) arr (a n pa pb pc pd : Z) : result (list A) :=
  let pn := a + n in
  let d1 := Z.min (pa - a) (pb - pa) in
  arr ← ST_SWAPN arr a (pb - d1) (Z.to_nat d1);
  let d1 := Z.min (pd - pc) (pn - pd - 1) in
  arr ← ST_SWAPN arr pb (pn - d1) (Z.to_nat d1);
  let d1 := pb - pa in
  let d2 := pd - pc in
  if d1 <=? d2 then
    arr ← (if 1 <? d1 then sort arr a d1 else Ok arr);
    if 1 <? d2 then sort arr (pn - d2) d2 else Ok arr
  else
    arr ← (if 1 <? d2 then sort arr (pn - d2) d2 else Ok arr);
    if 1 <? d1 then sort arr a d1 else Ok arr.

Fixpoint ST_SORT (fuel : nat) arr (a n : Z) : result (list A) :=
  match fuel with
  | O => NoFuel
  | S fuel =>
      if n <? 7 then insertion_loop arr a (seqZ (a + 1) (n - 1)) else
      sorted ← presorted arr (seqZ (a + 1) (n - 1));
      if (sorted : bool) then Ok arr else
      pm ← choose_pivot arr a n;
      arr ← ST_SWAP arr a pm;
      '(arr, pa, pb, pc, pd) ← partition (Z.to_nat n) arr a (a + 1) (a + 1) (a + (n - 1)) (a + (n - 1));
      sort_parts (ST_SORT fuel) arr a n pa pb pc pd
  end.
Definition pg_qsort data : result (list A) := ST_SORT (S (length data)) data 0 (Z.of_nat (length data)).

(** ** Arrays as concatenations *)
Lemma get_at (L : list A) x R i : i = Z.of_nat (length L) -> array_get (L ++ x :: R) i = Ok x.
Proof. intros ->. apply array_get_ok. by apply list_lookup_middle. Qed.
Lemma set_at (L : list A) x y R i : i = Z.of_nat (length L) -> array_set (L ++ x :: R) i y = Ok (L ++ y :: R).
Proof.
  intros ->. rewrite array_set_ok by (rewrite length_app; cbn; lia). f_equal.
  rewrite insert_app_r_alt by lia. by rewrite Nat.sub_diag.
Qed.

Lemma swap_apart (L : list A) x M y R i j : i = Z.of_nat (length L) -> j = i + 1 + Z.of_nat (length M) ->
  ST_SWAP (L ++ x :: M ++ y :: R) i j = Ok (L ++ y :: M ++ x :: R) /\
  ST_SWAP (L ++ x :: M ++ y :: R) j i = Ok (L ++ y :: M ++ x :: R).
Proof.
  intros Hi Hj. unfold ST_SWAP.
  assert (forall u w, L ++ u :: M ++ w :: R = (L ++ u :: M) ++ w :: R) as E by (intros; by rewrite <- app_assoc).
  assert (forall u, j = Z.of_nat (length (L ++ u :: M))) as Ej by (intros; rewrite length_app; cbn; lia).
  assert (forall u w, array_get (L ++ u :: M ++ w :: R) j = Ok w) as Gj by (intros; rewrite E; by apply get_at).
  assert (forall u w z, array_set (L ++ u :: M ++ w :: R) j z = Ok (L ++ u :: M ++ z :: R)) as Sj
    by (intros; rewrite !E; by apply set_at).
  split; rewrite ?Gj, ?get_at by done; cbn [mbind result_bind]; rewrite ?get_at, ?Gj by done; cbn [mbind result_bind];
    rewrite ?set_at, ?Sj by done; cbn [mbind result_bind]; rewrite ?set_at, ?Sj by done; done.
Qed.
Lemma swap_same (L : list A) x R i : i = Z.of_nat (length L) -> ST_SWAP (L ++ x :: R) i i = Ok (L ++ x :: R).
Proof.
  intros Hi. unfold ST_SWAP. rewrite get_at by done. cbn [mbind result_bind]. rewrite set_at by done. cbn [mbind result_bind].
  by apply set_at.
Qed.

(** Swapping the entry at the front of [S] with the one at [i]. *)
Lemma swap_front (L S R : list A) (i : nat) : (i < length S)%nat ->
  exists v S', ST_SWAP (L ++ S ++ R) (Z.of_nat (length L)) (Z.of_nat (length L + i)) = Ok (L ++ v :: S' ++ R) /\ v :: S' ≡ₚ S.
Proof.
  intros Hi. destruct S as [|x S]; [cbn in Hi; lia|]. destruct i as [|i].
  - rewrite Nat.add_0_r. exists x, S. split; [by apply swap_same|done].
  - cbn in Hi. destruct (lookup_lt_is_Some_2 S i) as [y Hy]; [lia|].
    rewrite <- (take_drop_middle S i y Hy). exists y, (take i S ++ x :: drop (Datatypes.S i) S). split.
    + cbn [app]. rewrite <- !app_assoc. cbn [app].
      apply (proj1 (swap_apart L x (take i S) y (drop (Datatypes.S i) S ++ R) _ (Z.of_nat (length L + Datatypes.S i)) eq_refl ltac:(rewrite length_take; lia))).
    + rewrite <- !Permutation_middle. apply Permutation_swap.
Qed.

Lemma swapn_blocks (X Y : list A) : length X = length Y -> forall (L M R : list A) i j,
  i = Z.of_nat (length L) -> j = i + Z.of_nat (length X) + Z.of_nat (length M) ->
  ST_SWAPN (L ++ X ++ M ++ Y ++ R) i j (length X) = Ok (L ++ Y ++ M ++ X ++ R).
Proof.
  revert Y. induction X as [|x X IH]; intros [|y Y] Hlen L M R i j Hi Hj; try done. cbn [length ST_SWAPN app].
  cbn in Hj, Hlen. assert (L ++ x :: X ++ M ++ y :: Y ++ R = L ++ x :: (X ++ M) ++ y :: Y ++ R) as -> by (by rewrite <- app_assoc).
  rewrite (proj1 (swap_apart L x (X ++ M) y (Y ++ R) i j Hi ltac:(rewrite length_app; lia))). cbn [mbind result_bind].
  replace (L ++ y :: (X ++ M) ++ x :: Y ++ R) with ((L ++ [y]) ++ X ++ (M ++ [x]) ++ Y ++ R) by (by rewrite <- !app_assoc).
  rewrite IH; [|lia|rewrite length_app; cbn; lia|rewrite length_app; cbn; lia]. f_equal. by rewrite <- !app_assoc.
Qed.

(** Exchanging as much as overlaps of [X] at the front with the end of [Y] moves [Y] to the front. *)
Lemma swap_ends (L X Y R : list A) i j (d : Z) : i = Z.of_nat (length L) -> d = Z.min (Z.of_nat (length X)) (Z.of_nat (length Y)) ->
  j = i + Z.of_nat (length X) + Z.of_nat (length Y) - d ->
  exists X' Y', ST_SWAPN (L ++ X ++ Y ++ R) i j (Z.to_nat d) = Ok (L ++ Y' ++ X' ++ R) /\ X' ≡ₚ X /\ Y' ≡ₚ Y.
Proof.
  intros Hi Hd Hj. destruct (decide (length X <= length Y)%nat) as [Hle|Hgt].
  - replace (Z.to_nat d) with (length X) by lia. set (k := (length Y - length X)%nat).
    pose proof (swapn_blocks X (drop k Y) ltac:(rewrite length_drop; lia) L (take k Y) R i j Hi ltac:(rewrite length_take; lia)) as H.
    rewrite (app_assoc (take k Y)), take_drop in H. exists X, (drop k Y ++ take k Y). rewrite H, <- !app_assoc.
    split_and!; [done|done|]. by rewrite Permutation_app_comm, take_drop.
  - set (k := length Y). assert (length (take k X) = k) as Hk by (rewrite length_take; lia).
    pose proof (swapn_blocks (take k X) Y Hk L (drop k X) R i j Hi ltac:(rewrite length_drop; lia)) as H.
    rewrite Hk, (app_assoc (take k X)), take_drop in H. exists (drop k X ++ take k X), Y.
    replace (Z.to_nat d) with k by lia. rewrite H, <- !app_assoc.
    split_and!; [done| |done]. by rewrite Permutation_app_comm, take_drop.
Qed.

(** ** Consistent comparisons *)
Record consistent (l : list A) : Prop := {
  cs_sign x y : x ∈ l -> y ∈ l -> ST_COMPARE x y < 0 <-> 0 < ST_COMPARE y x;
  cs_trans x y z : x ∈ l -> y ∈ l -> z ∈ l -> ST_COMPARE x y <= 0 -> ST_COMPARE y z <= 0 -> ST_COMPARE x z <= 0
}.
Definition sorted (l : list A) : Prop := StronglySorted (fun x y => ST_COMPARE x y <= 0) l.

Lemma consistent_sub l l' : consistent l -> (forall x, x ∈ l' -> x ∈ l) -> consistent l'.
Proof. intros [H1 H2] Hsub. split; eauto. Qed.
Lemma consistent_perm l l' : l' ≡ₚ l -> consistent l -> consistent l'.
Proof. intros Hp Hc. apply (consistent_sub l); [done|]. intros x. by rewrite Hp. Qed.
Lemma le_of_gt l x y : consistent l -> x ∈ l -> y ∈ l -> 0 < ST_COMPARE x y -> ST_COMPARE y x <= 0.
Proof. intros Hc Hx Hy H. pose proof (cs_sign _ Hc y x Hy Hx). lia. Qed.

(** ** Short arrays *)
Lemma insert_back_ok (P : list A) : forall fuel L x Q, (length P < fuel)%nat ->
  exists P1 P2, insert_back fuel (L ++ P ++ x :: Q) (Z.of_nat (length L)) (Z.of_nat (length L + length P)) = Ok (L ++ P1 ++ x :: P2 ++ Q) /\
    P = P1 ++ P2 /\ Forall (fun p => 0 < ST_COMPARE p x) P2 /\ (forall P' p, P1 = P' ++ [p] -> ST_COMPARE p x <= 0).
Proof.
  induction P as [|p P IH] using rev_ind; intros [|fuel] L x Q Hf; try (lia || (rewrite length_app in Hf; cbn in Hf; lia)).
  - cbn [insert_back length app]. rewrite Nat.add_0_r, Z.ltb_irrefl. exists [], []. split_and!; [done|done|done|].
    intros P' p E. by destruct P'.
  - rewrite length_app in Hf. cbn in Hf. cbn [insert_back]. rewrite length_app. cbn [length].
    destruct (Z.ltb_spec (Z.of_nat (length L)) (Z.of_nat (length L + (length P + 1)))); [|lia].
    assert (L ++ (P ++ [p]) ++ x :: Q = (L ++ P) ++ p :: x :: Q) as -> by (by rewrite <- !app_assoc).
    rewrite (get_at (L ++ P) p (x :: Q) (Z.of_nat (length L + (length P + 1)) - 1)) by (rewrite length_app; lia). cbn [mbind result_bind].
    assert (array_get ((L ++ P) ++ p :: x :: Q) (Z.of_nat (length L + (length P + 1))) = Ok x) as ->.
    { replace ((L ++ P) ++ p :: x :: Q) with ((L ++ P ++ [p]) ++ x :: Q) by (by rewrite <- !app_assoc).
      apply get_at. rewrite !length_app. cbn. lia. }
    cbn [mbind result_bind].
    destruct (Z.ltb_spec 0 (ST_COMPARE p x)) as [Hgt|Hle].
    + destruct (swap_apart (L ++ P) p [] x Q (Z.of_nat (length L + (length P + 1)) - 1) (Z.of_nat (length L + (length P + 1))))
        as [_ Hsw]; [rewrite length_app; lia|cbn; lia|]. cbn [app] in Hsw. rewrite Hsw. cbn [mbind result_bind].
      replace (Z.of_nat (length L + (length P + 1)) - 1) with (Z.of_nat (length L + length P)) by lia. rewrite <- app_assoc.
      destruct (IH fuel L x (p :: Q)) as (P1 & P2 & -> & -> & H2 & H1); [lia|].
      exists P1, (P2 ++ [p]). split_and!; [by rewrite <- app_assoc|by rewrite app_assoc|apply Forall_app_2; [done|by constructor]|done].
    + exists (P ++ [p]), []. split_and!; [by rewrite <- !app_assoc|by rewrite app_nil_r|done|].
      intros P' p' [_ E']%app_inj_tail. by subst.
Qed.

(** An element inserted behind everything that is not above it. *)
Lemma insert_sorted P1 P2 x : consistent (P1 ++ x :: P2) -> sorted (P1 ++ P2) ->
  Forall (fun p => 0 < ST_COMPARE p x) P2 -> (forall P' p, P1 = P' ++ [p] -> ST_COMPARE p x <= 0) -> sorted (P1 ++ x :: P2).
Proof.
  intros Hc Hs H2 H1. apply StronglySorted_app in Hs as (H12 & Hs1 & Hs2).
  assert (forall q, q ∈ P2 -> ST_COMPARE x q <= 0) as Hx2.
  { intros q Hq. rewrite Forall_forall in H2. apply (le_of_gt _ q x Hc); [mem..|by apply H2]. }
  assert (forall q, q ∈ P1 -> ST_COMPARE q x <= 0) as Hx1.
  { destruct P1 as [|p P1 _] using rev_ind; [intros q Hq; by apply not_elem_of_nil in Hq|]. specialize (H1 P1 p eq_refl).
    apply StronglySorted_app in Hs1 as (Hs1 & _). intros q [Hq| ->%list_elem_of_singleton]%elem_of_app; [|done].
    apply (cs_trans _ Hc q p x); [mem..| |done]. apply Hs1; [done|by apply list_elem_of_singleton]. }
  apply StronglySorted_app. split_and!; [|done|].
  - intros a b Ha [-> |Hb]%elem_of_cons; [by apply Hx1|by apply H12].
  - constructor; [done|]. by apply Forall_forall.
Qed.

Lemma insertion_loop_ok (Q : list A) : forall L P R,
  exists S', insertion_loop (L ++ P ++ Q ++ R) (Z.of_nat (length L)) (seqZ (Z.of_nat (length L + length P)) (Z.of_nat (length Q))) = Ok (L ++ S' ++ R) /\
    S' ≡ₚ P ++ Q /\ (consistent (P ++ Q) -> sorted P -> sorted S').
Proof.
  induction Q as [|x Q IH]; intros L P R.
  - exists P. cbn. rewrite app_nil_r. split_and!; [done|done|done].
  - cbn [length]. rewrite seqZ_cons by lia. cbn [insertion_loop app].
    destruct (insert_back_ok P (S (Z.to_nat (Z.of_nat (length L + length P) - Z.of_nat (length L)))) L x (Q ++ R)) as (P1 & P2 & -> & -> & H2 & H1); [lia|].
    cbn [mbind result_bind].
    replace (L ++ P1 ++ x :: P2 ++ Q ++ R) with (L ++ (P1 ++ x :: P2) ++ Q ++ R) by (by rewrite <- !app_assoc).
    replace (Z.succ (Z.of_nat (length L + length (P1 ++ P2)))) with (Z.of_nat (length L + length (P1 ++ x :: P2)))
      by (rewrite !length_app; cbn; lia).
    replace (Z.pred (Z.of_nat (S (length Q)))) with (Z.of_nat (length Q)) by lia.
    destruct (IH L (P1 ++ x :: P2) R) as (S' & -> & Hp & Hs). exists S'.
    assert ((P1 ++ x :: P2) ++ Q ≡ₚ (P1 ++ P2) ++ x :: Q) as HP by (by rewrite <- (Permutation_middle P1 P2 x), <- (Permutation_middle (P1 ++ P2) Q x)).
    split_and!; [done|by rewrite Hp, HP|]. intros Hc Hsort. apply (consistent_perm _ _ HP) in Hc. apply Hs; [done|].
    apply insert_sorted; [|done..]. apply (consistent_sub _ _ Hc). intros y Hy. apply elem_of_app. by left.
Qed.

Lemma presorted_ok (Q : list A) : forall L p R, exists b : bool,
  presorted (L ++ p :: Q ++ R) (seqZ (Z.of_nat (length L) + 1) (Z.of_nat (length Q))) = Ok b /\
    (b = true -> consistent (p :: Q) -> sorted (p :: Q)).
Proof.
  induction Q as [|x Q IH]; intros L p R.
  - exists true. split; [done|]. intros _ _. repeat constructor.
  - cbn [length]. rewrite seqZ_cons by lia. cbn [presorted app].
    rewrite (get_at L p _ (Z.of_nat (length L) + 1 - 1)) by lia. cbn [mbind result_bind].
    replace (L ++ p :: x :: Q ++ R) with ((L ++ [p]) ++ x :: Q ++ R) by (by rewrite <- app_assoc).
    rewrite get_at by (rewrite length_app; cbn; lia). cbn [mbind result_bind].
    destruct (Z.ltb_spec 0 (ST_COMPARE p x)) as [|Hle]; [by exists false|].
    replace (Z.succ (Z.of_nat (length L) + 1)) with (Z.of_nat (length (L ++ [p])) + 1) by (rewrite length_app; cbn; lia).
    replace (Z.pred (Z.of_nat (S (length Q)))) with (Z.of_nat (length Q)) by lia.
    destruct (IH (L ++ [p]) x R) as (b & -> & Hb). exists b. split; [done|]. intros E Hc.
    assert (sorted (x :: Q)) as Hs by (apply Hb; [done|]; apply (consistent_sub _ _ Hc); intros y Hy; by right).
    constructor; [done|]. apply StronglySorted_inv in Hs as [_ Hx]. rewrite Forall_forall in Hx. apply Forall_forall.
    intros y [-> |Hy]%elem_of_cons; [done|]. apply (cs_trans _ Hc p x y); [mem..|done|by apply Hx].
Qed.

(** ** The pivot *)
Lemma med3_ok arr x y z : 0 <= x < Z.of_nat (length arr) -> 0 <= y < Z.of_nat (length arr) -> 0 <= z < Z.of_nat (length arr) ->
  exists m, ST_MED3 arr x y z = Ok m /\ (m = x \/ m = y \/ m = z).
Proof.
  intros Hx Hy Hz. unfold ST_MED3. destruct (lookup_lt_is_Some_2 arr (Z.to_nat x)) as [vx Ex]; [lia|].
  destruct (lookup_lt_is_Some_2 arr (Z.to_nat y)) as [vy Ey]; [lia|]. destruct (lookup_lt_is_Some_2 arr (Z.to_nat z)) as [vz Ez]; [lia|].
  rewrite (array_get_Z arr x vx ltac:(lia) Ex), (array_get_Z arr y vy ltac:(lia) Ey), (array_get_Z arr z vz ltac:(lia) Ez).
  cbn [mbind result_bind]. eexists. split; [done|].
  repeat case_match; auto.
Qed.

Lemma choose_pivot_ok arr a n : 0 <= a -> 7 <= n -> a + n <= Z.of_nat (length arr) ->
  exists m, choose_pivot arr a n = Ok m /\ a <= m < a + n.
Proof.
  intros Ha Hn Hl. unfold choose_pivot. assert (0 <= n / 8 /\ 8 * (n / 8) <= n) as Hd by (Z.to_euclidean_division_equations; lia).
  assert (0 <= n / 2 /\ 2 * (n / 2) <= n < 2 * (n / 2) + 2) as Hm by (Z.to_euclidean_division_equations; lia).
  destruct (Z.ltb_spec 7 n); [|exists (a + n / 2); split; [done|lia]].
  destruct (Z.ltb_spec 40 n).
  - destruct (med3_ok arr a (a + n / 8) (a + 2 * (n / 8))) as (p1 & -> & H1); [lia..|].
    destruct (med3_ok arr (a + n / 2 - n / 8) (a + n / 2) (a + n / 2 + n / 8)) as (p2 & E2 & H2); [lia..|].
    destruct (med3_ok arr (a + (n - 1) - 2 * (n / 8)) (a + (n - 1) - n / 8) (a + (n - 1))) as (p3 & E3 & H3); [lia..|].
    cbn [mbind result_bind]. rewrite E2. cbn [mbind result_bind]. rewrite E3. cbn [mbind result_bind].
    destruct (med3_ok arr p1 p2 p3) as (m & -> & Hm'); [lia..|]. exists m. split; [done|lia].
  - cbn [mbind result_bind]. destruct (med3_ok arr a (a + n / 2) (a + (n - 1))) as (m & -> & Hm'); [lia..|]. exists m. split; [done|lia].
Qed.

(** ** The two scans *)
Abbreviation below v := (fun x => ST_COMPARE x v < 0).
Abbreviation equal v := (fun x => ST_COMPARE x v = 0).
Abbreviation above v := (fun x => 0 < ST_COMPARE x v).

Lemma scan_left_ok L v W (M : list A) : forall fuel E1 Lt, (length M < fuel)%nat -> Forall (equal v) E1 -> Forall (below v) Lt ->
  let pa := Z.of_nat (length L) + 1 + Z.of_nat (length E1) in
  let pb := pa + Z.of_nat (length Lt) in
  exists E1' Lt' M', scan_left fuel (L ++ v :: E1 ++ Lt ++ M ++ W) (Z.of_nat (length L)) pa pb (pb + Z.of_nat (length M) - 1) =
      Ok (L ++ v :: E1' ++ Lt' ++ M' ++ W, Z.of_nat (length L) + 1 + Z.of_nat (length E1'),
          Z.of_nat (length L) + 1 + Z.of_nat (length E1') + Z.of_nat (length Lt')) /\
    Forall (equal v) E1' /\ Forall (below v) Lt' /\ E1' ++ Lt' ++ M' ≡ₚ E1 ++ Lt ++ M /\
    (exists K, M = K ++ M') /\ (forall x M'', M' = x :: M'' -> 0 < ST_COMPARE x v).
Proof.
  induction M as [|x M IH]; intros [|fuel] E1 Lt Hf HE HL pa pb; try (cbn in Hf; lia); cbn [scan_left length].
  { destruct (Z.leb_spec pb (pb + Z.of_nat 0 - 1)); [lia|]. exists E1, Lt, []. split_and!; [done..|by exists []|done]. }
  destruct (Z.leb_spec pb (pb + Z.of_nat (S (length M)) - 1)); [|lia].
  assert (L ++ v :: E1 ++ Lt ++ (x :: M) ++ W = (L ++ v :: E1 ++ Lt) ++ x :: M ++ W) as Earr by (by rewrite <- app_assoc; cbn; rewrite <- app_assoc).
  assert (array_get (L ++ v :: E1 ++ Lt ++ (x :: M) ++ W) pb = Ok x) as ->.
  { rewrite Earr. apply get_at. rewrite length_app. cbn. rewrite length_app. lia. }
  rewrite get_at by done. cbn [mbind result_bind].
  destruct (Z.leb_spec (ST_COMPARE x v) 0) as [Hle|Hgt].
  2: { exists E1, Lt, (x :: M). split_and!; [done|done|done|done|by exists []|]. intros ? ? [= <- <-]. done. }
  replace (pb + Z.of_nat (S (length M)) - 1) with (pb + 1 + Z.of_nat (length M) - 1) by lia.
  cbn in Hf. destruct (Z.eqb_spec (ST_COMPARE x v) 0) as [E0|].
  - assert (exists Lt2, ST_SWAP (L ++ v :: E1 ++ Lt ++ (x :: M) ++ W) pa pb = Ok (L ++ v :: (E1 ++ [x]) ++ Lt2 ++ M ++ W) /\ Lt2 ≡ₚ Lt) as (Lt2 & -> & HLt).
    { replace (L ++ v :: E1 ++ Lt ++ (x :: M) ++ W) with ((L ++ v :: E1) ++ Lt ++ x :: M ++ W) by (by rewrite <- app_assoc).
      destruct Lt as [|y Lt].
      - exists []. split; [|done]. unfold pb. cbn [length app]. rewrite Z.add_0_r. rewrite swap_same by (rewrite length_app; cbn; lia).
        by rewrite <- !app_assoc.
      - exists (Lt ++ [y]). destruct (swap_apart (L ++ v :: E1) y Lt x (M ++ W) pa pb) as [Hsw _]; [rewrite length_app; cbn; lia|cbn in *; lia|].
        cbn [app]. rewrite Hsw. split; [by rewrite <- !app_assoc; cbn; rewrite <- ?app_assoc|]. by rewrite Permutation_app_comm. }
    cbn [mbind result_bind]. assert (length Lt2 = length Lt) as Hlen by (by rewrite HLt).
    destruct (IH fuel (E1 ++ [x]) Lt2) as (E1' & Lt' & M' & Hok & H1 & H2 & H3 & (K & HK) & H4);
      [lia|apply Forall_app_2; [done|by constructor]|by rewrite HLt|].
    rewrite length_app in Hok. cbn [length] in Hok. rewrite Hlen in Hok.
    replace (Z.of_nat (length L) + 1 + Z.of_nat (length E1 + 1)) with (pa + 1) in Hok by lia.
    replace (pa + 1 + Z.of_nat (length Lt)) with (pb + 1) in Hok by lia. rewrite Hok.
    exists E1', Lt', M'. split_and!; [done|done|done| |exists (x :: K); by rewrite HK|done]. rewrite H3, HLt, <- !app_assoc. f_equiv. cbn. apply Permutation_middle.
  - cbn [mbind result_bind]. destruct (IH fuel E1 (Lt ++ [x])) as (E1' & Lt' & M' & Hok & H1 & H2 & H3 & (K & HK) & H4);
      [lia|done|apply Forall_app_2; [done|constructor; [lia|done]]|].
    rewrite length_app in Hok. cbn [length] in Hok. fold pa in Hok.
    replace (pa + Z.of_nat (length Lt + 1)) with (pb + 1) in Hok by lia. rewrite <- (app_assoc Lt) in Hok. cbn [app] in *. rewrite Hok.
    exists E1', Lt', M'. split_and!; [done|done|done| |exists (x :: K); by rewrite HK|done]. by rewrite H3, <- app_assoc.
Qed.

Lemma scan_right_ok L v V R (M : list A) : forall fuel Gt E2, (length M < fuel)%nat -> Forall (above v) Gt -> Forall (equal v) E2 ->
  let pb := Z.of_nat (length L) + 1 + Z.of_nat (length V) in
  let pc := pb + Z.of_nat (length M) - 1 in
  exists M' Gt' E2', scan_right fuel (L ++ v :: V ++ M ++ Gt ++ E2 ++ R) (Z.of_nat (length L)) pb pc (pc + Z.of_nat (length Gt)) =
      Ok (L ++ v :: V ++ M' ++ Gt' ++ E2' ++ R, pb + Z.of_nat (length M') - 1,
          pb + Z.of_nat (length M') - 1 + Z.of_nat (length Gt')) /\
    Forall (above v) Gt' /\ Forall (equal v) E2' /\ M' ++ Gt' ++ E2' ≡ₚ M ++ Gt ++ E2 /\
    (exists K, M = M' ++ K) /\ (forall M'' x, M' = M'' ++ [x] -> ST_COMPARE x v < 0).
Proof.
  induction M as [|x M IH] using rev_ind; intros [|fuel] Gt E2 Hf HG HE pb pc; try (cbn in Hf; lia); cbn [scan_right].
  { unfold pc. cbn [length]. destruct (Z.leb_spec pb (pb + Z.of_nat 0 - 1)); [lia|]. exists [], Gt, E2.
    split_and!; [done|done|done|done|by exists []|]. intros M'' x E. by destruct M''. }
  rewrite length_app in Hf. cbn [length] in Hf.
  assert (pc = pb + Z.of_nat (length M)) as Hpc by (unfold pc; rewrite length_app; cbn; lia). clearbody pc. subst pc.
  destruct (Z.leb_spec pb (pb + Z.of_nat (length M))); [|lia].
  assert (L ++ v :: V ++ (M ++ [x]) ++ Gt ++ E2 ++ R = (L ++ v :: V ++ M) ++ x :: Gt ++ E2 ++ R) as Earr
    by (rewrite <- !app_assoc; cbn; by rewrite <- ?app_assoc).
  assert (Z.of_nat (length (L ++ v :: V ++ M)) = pb + Z.of_nat (length M)) as Hlen by (rewrite length_app; cbn; rewrite length_app; lia).
  assert (array_get (L ++ v :: V ++ (M ++ [x]) ++ Gt ++ E2 ++ R) (pb + Z.of_nat (length M)) = Ok x) as -> by (rewrite Earr; by apply get_at).
  rewrite get_at by done. cbn [mbind result_bind].
  destruct (Z.leb_spec 0 (ST_COMPARE x v)) as [Hge|Hlt].
  2: { exists (M ++ [x]), Gt, E2. split_and!; [|done|done|done|exists []; by rewrite app_nil_r|intros ? ? [_ <-]%app_inj_tail; done].
       rewrite length_app. cbn. repeat f_equal; lia. }
  destruct (Z.eqb_spec (ST_COMPARE x v) 0) as [E0|].
  - assert (exists Gt2, ST_SWAP (L ++ v :: V ++ (M ++ [x]) ++ Gt ++ E2 ++ R) (pb + Z.of_nat (length M)) (pb + Z.of_nat (length M) + Z.of_nat (length Gt)) =
        Ok (L ++ v :: V ++ M ++ Gt2 ++ (x :: E2) ++ R) /\ Gt2 ≡ₚ Gt) as (Gt2 & -> & HGt).
    { rewrite Earr. destruct Gt as [|y Gt _] using rev_ind.
      - exists []. split; [|done]. cbn [length app]. rewrite Z.add_0_r. rewrite swap_same by done. by rewrite <- !app_assoc; cbn; rewrite <- ?app_assoc.
      - exists (y :: Gt). rewrite <- (app_assoc Gt). cbn [app].
        destruct (swap_apart (L ++ v :: V ++ M) x Gt y (E2 ++ R) (pb + Z.of_nat (length M)) (pb + Z.of_nat (length M) + Z.of_nat (length (Gt ++ [y])))) as [Hsw _];
          [done|rewrite length_app; cbn; lia|].
        rewrite Hsw. split; [by rewrite <- !app_assoc; cbn; rewrite <- ?app_assoc|]. by rewrite Permutation_app_comm. }
    cbn [mbind result_bind]. assert (length Gt2 = length Gt) as Hlen2 by (by rewrite HGt).
    destruct (IH fuel Gt2 (x :: E2)) as (M' & Gt' & E2' & Hok & H1 & H2 & H3 & (K & HK) & H5); [lia|by rewrite HGt|by constructor|].
    fold pb in Hok. rewrite Hlen2 in Hok.
    replace (pb + Z.of_nat (length M) + Z.of_nat (length Gt) - 1) with (pb + Z.of_nat (length M) - 1 + Z.of_nat (length Gt)) by lia.
    rewrite Hok. exists M', Gt', E2'. split_and!; [done|done|done| |exists (K ++ [x]); by rewrite HK, app_assoc|done].
    rewrite H3, HGt, <- !app_assoc. f_equiv. cbn. by rewrite <- Permutation_middle.
  - cbn [mbind result_bind]. destruct (IH fuel (x :: Gt) E2) as (M' & Gt' & E2' & Hok & H1 & H2 & H3 & (K & HK) & H5); [lia|constructor; [lia|done]|done|].
    fold pb in Hok. cbn [length] in Hok. rewrite <- (app_assoc M [x]). cbn [app] in *.
    replace (pb + Z.of_nat (length M) + Z.of_nat (length Gt)) with (pb + Z.of_nat (length M) - 1 + Z.of_nat (S (length Gt))) by lia.
    rewrite Hok. exists M', Gt', E2'. split_and!; [done|done|done| |exists (K ++ [x]); by rewrite HK, app_assoc|done].
    rewrite H3, <- !app_assoc. done.
Qed.

(** ** The partition *)
Lemma partition_ok L v R : forall fuel M E1 Lt Gt E2, (length M < fuel)%nat ->
  Forall (equal v) E1 -> Forall (below v) Lt -> Forall (above v) Gt -> Forall (equal v) E2 ->
  let pa := Z.of_nat (length L) + 1 + Z.of_nat (length E1) in
  let pb := pa + Z.of_nat (length Lt) in
  let pc := pb + Z.of_nat (length M) - 1 in
  exists E1' Lt' Gt' E2',
    partition fuel (L ++ v :: E1 ++ Lt ++ M ++ Gt ++ E2 ++ R) (Z.of_nat (length L)) pa pb pc (pc + Z.of_nat (length Gt)) =
      Ok (L ++ v :: E1' ++ Lt' ++ Gt' ++ E2' ++ R, Z.of_nat (length L) + 1 + Z.of_nat (length E1'),
          Z.of_nat (length L) + 1 + Z.of_nat (length E1') + Z.of_nat (length Lt'),
          Z.of_nat (length L) + 1 + Z.of_nat (length E1') + Z.of_nat (length Lt') - 1,
          Z.of_nat (length L) + 1 + Z.of_nat (length E1') + Z.of_nat (length Lt') - 1 + Z.of_nat (length Gt')) /\
    Forall (equal v) E1' /\ Forall (below v) Lt' /\ Forall (above v) Gt' /\ Forall (equal v) E2' /\
    E1' ++ Lt' ++ Gt' ++ E2' ≡ₚ E1 ++ Lt ++ M ++ Gt ++ E2.
Proof.
  induction fuel as [|fuel IH]; intros M E1 Lt Gt E2 Hf HE1 HLt HGt HE2 pa pb pc; [lia|]. cbn [partition].
  destruct (scan_left_ok L v (Gt ++ E2 ++ R) M (S fuel) E1 Lt Hf HE1 HLt) as (E1' & Lt' & M1 & Hok & HE1' & HLt' & Hp1 & Hsuf & Hhead).
  fold pa pb pc in Hok. rewrite Hok. cbn [mbind result_bind]. clear Hok.
  pose proof (Permutation_length Hp1) as Hlen1. rewrite !length_app in Hlen1.
  destruct Hsuf as [K1 HK1]. assert (length M1 <= length M)%nat as HM1 by (rewrite HK1, length_app; lia).
  set (pa' := Z.of_nat (length L) + 1 + Z.of_nat (length E1')). set (pb' := pa' + Z.of_nat (length Lt')).
  replace (L ++ v :: E1' ++ Lt' ++ M1 ++ Gt ++ E2 ++ R) with (L ++ v :: (E1' ++ Lt') ++ M1 ++ Gt ++ E2 ++ R) by (by rewrite <- !app_assoc).
  destruct (scan_right_ok L v (E1' ++ Lt') R M1 (S fuel) Gt E2 ltac:(lia) HGt HE2) as (M2 & Gt' & E2' & Hok & HGt' & HE2' & Hp2 & [K2 HK2] & Hlast).
  assert (Z.of_nat (length L) + 1 + Z.of_nat (length (E1' ++ Lt')) = pb') as Epb by (rewrite length_app; lia).
  rewrite Epb in Hok. replace (pb' + Z.of_nat (length M1) - 1) with pc in Hok by lia. rewrite Hok. cbn [mbind result_bind]. clear Hok.
  assert (E1' ++ Lt' ++ M2 ++ Gt' ++ E2' ≡ₚ E1 ++ Lt ++ M ++ Gt ++ E2) as Hp.
  { rewrite Hp2. rewrite !app_assoc, <- (app_assoc E1' Lt' M1), Hp1. by rewrite <- !app_assoc. }
  destruct M2 as [|x M2].
  - cbn [length]. destruct (Z.ltb_spec (pb' + Z.of_nat 0 - 1) pb'); [|lia].
    exists E1', Lt', Gt', E2'. split_and!; [|done..]. change (Z.of_nat 0) with 0. rewrite Z.add_0_r. cbn [app]. by rewrite <- (app_assoc E1').
  - cbn [length]. destruct (Z.ltb_spec (pb' + Z.of_nat (S (length M2)) - 1) pb'); [lia|].
    assert (0 < ST_COMPARE x v) as Hx by (by apply (Hhead x (M2 ++ K2))).
    destruct M2 as [|y M2 _] using rev_ind; [specialize (Hlast [] x eq_refl); lia|].
    assert (ST_COMPARE y v < 0) as Hy by (by apply (Hlast (x :: M2))).
    assert (length M1 = 2 + length M2 + length K2)%nat as HM2 by (rewrite HK2; cbn; rewrite !length_app; cbn; lia).
    replace (L ++ v :: (E1' ++ Lt') ++ (x :: M2 ++ [y]) ++ Gt' ++ E2' ++ R) with ((L ++ v :: E1' ++ Lt') ++ x :: M2 ++ y :: Gt' ++ E2' ++ R)
      by (rewrite <- !app_assoc; cbn; by rewrite <- !app_assoc).
    destruct (swap_apart (L ++ v :: E1' ++ Lt') x M2 y (Gt' ++ E2' ++ R) pb' (pb' + Z.of_nat (S (length (M2 ++ [y]))) - 1)) as [Hsw _];
      [rewrite length_app; cbn; rewrite length_app; lia|rewrite length_app; cbn; lia|].
    rewrite Hsw. cbn [mbind result_bind]. clear Hsw.
    destruct (IH M2 E1' (Lt' ++ [y]) (x :: Gt') E2') as (E1f & Ltf & Gtf & E2f & Hok & H1 & H2 & H3 & H4 & H5);
      [lia|done|apply Forall_app_2; [done|by constructor]|by constructor|done|].
    fold pa' in Hok. rewrite length_app in Hok. cbn [length] in Hok.
    replace (pa' + Z.of_nat (length Lt' + 1)) with (pb' + 1) in Hok by lia.
    replace (pb' + Z.of_nat (S (length (M2 ++ [y]))) - 1 - 1) with (pb' + 1 + Z.of_nat (length M2) - 1) by (rewrite length_app; cbn; lia).
    replace (pb' + Z.of_nat (S (length (M2 ++ [y]))) - 1 + Z.of_nat (length Gt')) with (pb' + 1 + Z.of_nat (length M2) - 1 + Z.of_nat (S (length Gt')))
      by (rewrite length_app; cbn; lia).
    replace ((L ++ v :: E1' ++ Lt') ++ y :: M2 ++ x :: Gt' ++ E2' ++ R) with (L ++ v :: E1' ++ (Lt' ++ [y]) ++ M2 ++ (x :: Gt') ++ E2' ++ R)
      by (rewrite <- !app_assoc; cbn; by rewrite <- !app_assoc).
    rewrite Hok. exists E1f, Ltf, Gtf, E2f. split_and!; [done..|]. rewrite H5, <- Hp, <- !app_assoc. do 2 f_equiv. cbn.
    rewrite <- app_assoc. cbn. rewrite <- !Permutation_middle. apply Permutation_swap.
Qed.

(** Three sorted parts around the pivot. *)
Lemma parts_sorted l v Lt E Gt : consistent l -> v ∈ l -> Lt ++ E ++ Gt ≡ₚ l ->
  Forall (below v) Lt -> Forall (equal v) E -> Forall (above v) Gt -> sorted Lt -> sorted Gt -> sorted (Lt ++ E ++ Gt).
Proof.
  intros Hc Hv Hp HLt HE HGt HsL HsG. rewrite Forall_forall in HLt, HE, HGt.
  assert (forall x, x ∈ Lt ++ E ++ Gt -> x ∈ l) as Hin by (intros x; by rewrite Hp).
  assert (forall x y, x ∈ Lt ++ E -> y ∈ E ++ Gt -> ST_COMPARE x y <= 0) as Hle.
  { intros x y Hx Hy. apply (cs_trans _ Hc x v y); [apply Hin; rewrite elem_of_app in Hx; mem|done|apply Hin; rewrite elem_of_app in Hy; mem| |].
    - apply elem_of_app in Hx as [Hx|Hx]; [apply HLt in Hx|apply HE in Hx]; lia.
    - assert (y ∈ l) as Hyl by (apply Hin; rewrite elem_of_app in Hy; mem).
      pose proof (cs_sign _ Hc y v Hyl Hv). pose proof (cs_sign _ Hc v y Hv Hyl).
      apply elem_of_app in Hy as [Hy|Hy]; [apply HE in Hy|apply HGt in Hy]; lia. }
  apply StronglySorted_app. split_and!; [|done|].
  - intros x y Hx Hy. apply Hle; [mem|done].
  - apply StronglySorted_app. split_and!; [|clear -Hle|done].
    + intros x y Hx Hy. apply Hle; mem.
    + assert (forall x y, x ∈ E -> y ∈ E -> ST_COMPARE x y <= 0) as HEE by (intros; apply Hle; mem). clear Hle.
      induction E as [|x E IH]; constructor; [apply IH; intros; apply HEE; mem|].
      apply Forall_forall. intros y Hy. apply HEE; mem.
Qed.

(** A part of more than one element is sorted, a shorter one is left alone. *)
Definition sorts (sort : list A -> Z -> Z -> result (list A)) (n : nat) : Prop :=
  forall L S R, (length S < n)%nat -> exists S', sort (L ++ S ++ R) (Z.of_nat (length L)) (Z.of_nat (length S)) = Ok (L ++ S' ++ R) /\
    S' ≡ₚ S /\ (consistent S -> sorted S').
Lemma sort_part sort n : sorts sort n -> sorts (fun arr a d => if 1 <? d then sort arr a d else Ok arr) n.
Proof.
  intros H L S R Hlt. destruct (Z.ltb_spec 1 (Z.of_nat (length S))); [by apply H|]. exists S. split_and!; [done|done|]. intros _.
  destruct S as [|x [|]]; [constructor|repeat constructor|cbn in *; lia].
Qed.

(** ** The sort *)
Lemma parts_together v E1 Lt Gt E2 E1' Lt' Gt' E2' Lt2 Gt2 : E1' ≡ₚ v :: E1 -> Lt' ≡ₚ Lt -> Gt' ≡ₚ Gt -> E2' ≡ₚ E2 ->
  Forall (equal v) E1 -> Forall (below v) Lt -> Forall (above v) Gt -> Forall (equal v) E2 ->
  Lt2 ≡ₚ Lt' -> Gt2 ≡ₚ Gt' -> (consistent Lt' -> sorted Lt2) -> (consistent Gt' -> sorted Gt2) ->
  let S := v :: E1 ++ Lt ++ Gt ++ E2 in
  Lt2 ++ (E1' ++ E2') ++ Gt2 ≡ₚ S /\ (consistent S -> sorted (Lt2 ++ (E1' ++ E2') ++ Gt2)).
Proof.
  intros HpE1 HpLt HpGt HpE2 HE1 HLt HGt HE2 P1 P2 S1 S2 S.
  assert (Lt2 ++ (E1' ++ E2') ++ Gt2 ≡ₚ S) as HP.
  { rewrite P1, P2, HpLt, HpE1, HpGt, HpE2. cbn. rewrite <- Permutation_middle. unfold S. f_equiv.
    rewrite !app_assoc, (Permutation_app_comm Lt E1), <- !app_assoc. do 2 f_equiv. apply Permutation_app_comm. }
  split; [done|]. intros Hc. assert (v ∈ S) as Hv by (unfold S; mem).
  assert (ST_COMPARE v v = 0) as Hvv by (pose proof (cs_sign _ Hc v v Hv Hv); lia).
  apply (parts_sorted S v); [done|done|done|by rewrite P1, HpLt|apply Forall_app_2|by rewrite P2, HpGt|apply S1|apply S2].
  - rewrite HpE1. by constructor.
  - by rewrite HpE2.
  - apply (consistent_sub _ _ Hc). intros x. rewrite HpLt. unfold S. mem.
  - apply (consistent_sub _ _ Hc). intros x. rewrite HpGt. unfold S. mem.
Qed.

Lemma sort_parts_ok sort k L v E1 Lt Gt E2 R n pb : sorts sort k -> n = 1 + Z.of_nat (length (E1 ++ Lt ++ Gt ++ E2)) -> n <= Z.of_nat k ->
  pb = Z.of_nat (length L) + 1 + Z.of_nat (length E1) + Z.of_nat (length Lt) ->
  Forall (equal v) E1 -> Forall (below v) Lt -> Forall (above v) Gt -> Forall (equal v) E2 ->
  exists S', sort_parts sort (L ++ v :: E1 ++ Lt ++ Gt ++ E2 ++ R) (Z.of_nat (length L)) n
      (Z.of_nat (length L) + 1 + Z.of_nat (length E1)) pb (pb - 1) (pb - 1 + Z.of_nat (length Gt)) = Ok (L ++ S' ++ R) /\
    S' ≡ₚ v :: E1 ++ Lt ++ Gt ++ E2 /\ (consistent (v :: E1 ++ Lt ++ Gt ++ E2) -> sorted S').
Proof.
  intros Hsort Hn Hk Hpb HE1 HLt HGt HE2. rewrite !length_app in Hn. unfold sort_parts. set (a := Z.of_nat (length L)) in *.
  destruct (swap_ends L (v :: E1) Lt (Gt ++ E2 ++ R) a (pb - Z.min (a + 1 + Z.of_nat (length E1) - a) (pb - (a + 1 + Z.of_nat (length E1))))
    (Z.min (a + 1 + Z.of_nat (length E1) - a) (pb - (a + 1 + Z.of_nat (length E1))))) as (E1' & Lt' & Hok & HpE1 & HpLt); [done|cbn; lia|cbn; lia|].
  cbn [app] in Hok. rewrite Hok. cbn [mbind result_bind]. clear Hok.
  pose proof (Permutation_length HpE1) as Hl1. pose proof (Permutation_length HpLt) as Hl2. cbn in Hl1.
  set (d := Z.min (pb - 1 + Z.of_nat (length Gt) - (pb - 1)) (a + n - (pb - 1 + Z.of_nat (length Gt)) - 1)).
  destruct (swap_ends (L ++ Lt' ++ E1') Gt E2 R pb (a + n - d) d) as (Gt' & E2' & Hok & HpGt & HpE2); [rewrite !length_app; lia|lia|lia|].
  rewrite <- !app_assoc in Hok. rewrite Hok. cbn [mbind result_bind]. clear Hok d.
  pose proof (Permutation_length HpGt) as Hl3. pose proof (Permutation_length HpE2) as Hl4.
  replace (pb - (a + 1 + Z.of_nat (length E1))) with (Z.of_nat (length Lt')) by lia.
  replace (pb - 1 + Z.of_nat (length Gt) - (pb - 1)) with (Z.of_nat (length Gt')) by lia.
  assert (forall Lt2, length Lt2 = length Lt' -> a + n - Z.of_nat (length Gt') = Z.of_nat (length (L ++ Lt2 ++ E1' ++ E2'))) as Ha2
    by (intros; rewrite !length_app; lia).
  apply sort_part in Hsort. destruct (Z.leb_spec (Z.of_nat (length Lt')) (Z.of_nat (length Gt'))).
  - destruct (Hsort L Lt' (E1' ++ E2' ++ Gt' ++ R)) as (Lt2 & Hok & P1 & S1); [lia|]. fold a in Hok. rewrite Hok. cbn [mbind result_bind]. clear Hok.
    destruct (Hsort (L ++ Lt2 ++ E1' ++ E2') Gt' R) as (Gt2 & Hok & P2 & S2); [lia|].
    rewrite <- Ha2, <- !app_assoc in Hok by (by rewrite P1). rewrite Hok.
    exists (Lt2 ++ (E1' ++ E2') ++ Gt2). split; [by rewrite <- !app_assoc|]. by eapply parts_together.
  - destruct (Hsort (L ++ Lt' ++ E1' ++ E2') Gt' R) as (Gt2 & Hok & P2 & S2); [lia|].
    rewrite <- Ha2, <- !app_assoc in Hok by done. rewrite Hok. cbn [mbind result_bind]. clear Hok.
    destruct (Hsort L Lt' (E1' ++ E2' ++ Gt2 ++ R)) as (Lt2 & Hok & P1 & S1); [lia|]. fold a in Hok. rewrite Hok.
    exists (Lt2 ++ (E1' ++ E2') ++ Gt2). split; [by rewrite <- !app_assoc|]. by eapply parts_together.
Qed.

Lemma ST_SORT_sorts : forall fuel, sorts (ST_SORT fuel) fuel.
Proof.
  induction fuel as [|fuel IH]; intros L S R Hf; [lia|]. cbn [ST_SORT].
  destruct (Z.ltb_spec (Z.of_nat (length S)) 7).
  { destruct S as [|p Q]; [exists []; split_and!; [done|done|constructor]|].
    destruct (insertion_loop_ok Q L [p] R) as (S' & Hok & Hp & Hs). cbn [app length] in *.
    replace (Z.of_nat (Datatypes.S (length Q)) - 1) with (Z.of_nat (length Q)) by lia.
    replace (Z.of_nat (length L) + 1) with (Z.of_nat (length L + 1)) by lia. rewrite Hok.
    exists S'. split_and!; [done|done|]. intros Hc. apply Hs; [done|]. repeat constructor. }
  assert (exists b : bool, presorted (L ++ S ++ R) (seqZ (Z.of_nat (length L) + 1) (Z.of_nat (length S) - 1)) = Ok b /\
    (b = true -> consistent S -> sorted S)) as (b & -> & Hb).
  { destruct S as [|p Q]; [cbn in *; lia|]. cbn [length app].
    replace (Z.of_nat (Datatypes.S (length Q)) - 1) with (Z.of_nat (length Q)) by lia. apply presorted_ok. }
  cbn [mbind result_bind]. destruct b; [exists S; split_and!; [done|done|by apply Hb]|]. clear Hb.
  destruct (choose_pivot_ok (L ++ S ++ R) (Z.of_nat (length L)) (Z.of_nat (length S))) as (m & -> & Hm); [lia|lia|rewrite !length_app; lia|].
  cbn [mbind result_bind]. replace m with (Z.of_nat (length L + Z.to_nat (m - Z.of_nat (length L)))) by lia.
  destruct (swap_front L S R (Z.to_nat (m - Z.of_nat (length L)))) as (v & M & -> & HvM); [lia|]. cbn [mbind result_bind].
  pose proof (Permutation_length HvM) as HlM. cbn in HlM. set (a := Z.of_nat (length L)) in *.
  destruct (partition_ok L v R (Z.to_nat (Z.of_nat (length S))) M [] [] [] []) as (E1 & Lt & Gt & E2 & Hok & HE1 & HLt & HGt & HE2 & Hp);
    [lia|done..|]. fold a in Hok. cbn [length app] in Hok, Hp. rewrite app_nil_r in Hp.
  pose proof (Permutation_length Hp) as HlP. rewrite !length_app in HlP.
  replace (a + 1 + Z.of_nat 0 + Z.of_nat 0) with (a + 1) in Hok by lia. replace (a + 1 + Z.of_nat 0) with (a + 1) in Hok by lia.
  replace (a + 1 + Z.of_nat (length M) - 1) with (a + (Z.of_nat (length S) - 1)) in Hok by lia. rewrite Z.add_0_r in Hok.
  rewrite Hok. cbn [mbind result_bind]. clear Hok.
  destruct (sort_parts_ok (ST_SORT fuel) fuel L v E1 Lt Gt E2 R (Z.of_nat (length S)) (a + 1 + Z.of_nat (length E1) + Z.of_nat (length Lt)))
    as (S' & Hok & HS' & Hs); [done|rewrite !length_app; lia|lia|done|done|done|done|done|].
  fold a in Hok. rewrite Hok. exists S'. rewrite Hp, HvM in HS'. split_and!; [done|done|]. intros Hc. apply Hs.
  apply (consistent_perm S); [|done]. by rewrite Hp.
Qed.

Lemma pg_qsort_ok data : exists data', pg_qsort data = Ok data' /\ data' ≡ₚ data /\ (consistent data -> sorted data').
Proof.
  destruct (ST_SORT_sorts (S (length data)) [] data []) as (S' & Hok & Hp & Hs); [lia|].
  cbn [app length] in Hok. rewrite !app_nil_r in Hok. by exists S'.
Qed.
End Sort.

(** [pg_qsort] implements the contract. *)
Definition run_qsort {A} (cmp : A -> A -> Z) (l : list A) : list A :=
  match pg_qsort cmp l with Ok l' => l' | _ => l end.
#[global] Instance pg_qsort_sorter A : QSort A.
Proof.
  refine {| qsort := run_qsort |}.
  - intros cmp l. unfold run_qsort. by destruct (pg_qsort_ok cmp l) as (l' & -> & Hp & _).
  - intros cmp l H1 H2. unfold run_qsort. destruct (pg_qsort_ok cmp l) as (l' & -> & _ & Hs). by apply Hs.
Defined.

(** C16: [pg_qsort] with any comparison function at all ends, stays in the array and permutes it; with a
    comparison function that is consistent on the elements it leaves the array sorted. *)
Theorem pg_qsort_correct {A} (cmp : A -> A -> Z) (data : list A) :
  exists data', pg_qsort cmp data = Ok data' /\ data' ≡ₚ data /\
    ((forall x y, x ∈ data -> y ∈ data -> cmp x y < 0 <-> 0 < cmp y x) ->
     (forall x y z, x ∈ data -> y ∈ data -> z ∈ data -> cmp x y <= 0 -> cmp y z <= 0 -> cmp x z <= 0) ->
     StronglySorted (fun x y => cmp x y <= 0) data').
Proof.
  destruct (pg_qsort_ok cmp data) as (data' & Hok & Hp & Hs). exists data'. split_and!; [done|done|].
  intros H1 H2. by apply Hs.
Qed.
Lemma pg_qsort_correct_witness : exists data', pg_qsort Z.sub [5; 3; 9; 3; 1; 8; 3; 7; 2; 6] = Ok data' /\
  data' ≡ₚ [5; 3; 9; 3; 1; 8; 3; 7; 2; 6] /\ StronglySorted (fun x y => x - y <= 0) data'.
Proof.
  destruct (pg_qsort_correct Z.sub [5; 3; 9; 3; 1; 8; 3; 7; 2; 6]) as (data' & Hok & Hp & Hs). exists data'.
  split; [exact Hok|]. split; [exact Hp|]. apply Hs; intros; lia.
Defined.
Example sorts_ten : pg_qsort Z.sub [5; 3; 9; 3; 1; 8; 3; 7; 2; 6] = Ok [1; 2; 3; 3; 3; 5; 6; 7; 8; 9].
Proof. vm_compute. reflexivity. Qed.
