(* ===== verification/Prng.v ===== *)
(** * The pseudo-random generator: [src/common/pg_prng.c]

    xoroshiro128** seeded by splitmix64, with the derived integer, double and range routines, and
    [geqo_random.c], which hands them to the genetic optimizer.  The state is never all zeroes,
    every routine stays in its documented range, and the rejection loop of
    [pg_prng_uint64_range] ends at the first acceptable draw.

    [pg_prng_double_normal] (logarithm and sine) and [pg_strong_random] are not modelled. *)
From Stdlib Require Import Floats.SpecFloat.
From S2P Require Import Prelude BitUtils Float64.
#[local] Open Scope Z_scope.

Record pg_prng_state := { s0 : Z; s1 : Z }.

Definition rotl (x bits : Z) : Z := Z.lor (shl64 x bits) (Z.shiftr x (64 - bits)).

Definition xoroshiro128ss (state : pg_prng_state) : Z * pg_prng_state :=
  let s := s0 state in
  let sx := Z.lxor (s1 state) s in
  let val := wrap64 (rotl (wrap64 (s * 5)) 7 * 9) in
  (val, {| s0 := Z.lxor (Z.lxor (rotl s 24) sx) (shl64 sx 16); s1 := rotl sx 37 |}).

Definition splitmix64 (state : Z) : Z * Z :=
  let state := wrap64 (state + 0x9E3779B97f4A7C15) in
  let val := wrap64 (Z.lxor state (Z.shiftr state 30) * 0xBF58476D1CE4E5B9) in
  let val := wrap64 (Z.lxor val (Z.shiftr val 27) * 0x94D049BB133111EB) in
  (Z.lxor val (Z.shiftr val 31), state).

Definition pg_prng_seed_check (state : pg_prng_state) : pg_prng_state :=
  if (s0 state =? 0) && (s1 state =? 0)
  then {| s0 := 0x5851F42D4C957F2D; s1 := 0x14057B7EF767814F |}
  else state.

Definition pg_prng_seed (seed : Z) : pg_prng_state :=
  let '(a, seed) := splitmix64 seed in
  let '(b, seed) := splitmix64 seed in
  pg_prng_seed_check {| s0 := a; s1 := b |}.

(** The conversion of a [double] to [int64]: truncation; undefined in C ([None]) for NaN and for
    values that do not fit. *)
Definition dtoi64 (x : double) : option Z :=
  match x with
  | S754_zero _ => Some 0
  | S754_finite s m e =>
      let a := if 0 <=? e then Zpos m * 2 ^ e else Zpos m / 2 ^ (- e) in
      let z := if s then - a else a in
      if (- 2 ^ 63 <=? z) && (z <? 2 ^ 63) then Some z else None
  | _ => None
  end.

Definition pg_prng_fseed (fseed : double) : option pg_prng_state :=
  seed ← dtoi64 (dmul (dofZ (2 ^ 52 - 1)) fseed); Some (pg_prng_seed (wrap64 seed)).

Definition pg_prng_uint64 (state : pg_prng_state) : Z * pg_prng_state := xoroshiro128ss state.

(** [do val = xoroshiro128ss(state) >> rshift; while (val > range);] *)
Fixpoint range_loop (fuel : nat) (range rshift : Z) (state : pg_prng_state) : result (Z * pg_prng_state) :=
  match fuel with
  | O => NoFuel
  | S fuel =>
      let '(raw, state) := xoroshiro128ss state in
      let val := Z.shiftr raw rshift in
      if range <? val then range_loop fuel range rshift state else Ok (val, state)
  end.

Definition pg_prng_uint64_range (fuel : nat) (state : pg_prng_state) (rmin rmax : Z)
    : result (Z * pg_prng_state) :=
  '(val, state) ← (if rmin <? rmax
                   then let range := rmax - rmin in
                        range_loop fuel range (63 - pg_leftmost_one_pos64 range) state
                   else Ok (0, state));
  Ok (wrap64 (rmin + val), state).

(** Conversion of a 64-bit pattern to [int64] (two's complement). *)
Definition to_int64 (z : Z) : Z := let r := wrap64 z in if r <? 2 ^ 63 then r else r - 2 ^ 64.

Definition pg_prng_int64 (state : pg_prng_state) : Z * pg_prng_state :=
  let '(v, state) := xoroshiro128ss state in (to_int64 v, state).
Definition pg_prng_int64p (state : pg_prng_state) : Z * pg_prng_state :=
  let '(v, state) := xoroshiro128ss state in (to_int64 (Z.land v 0x7FFFFFFFFFFFFFFF), state).
Definition pg_prng_uint32 (state : pg_prng_state) : Z * pg_prng_state :=
  let '(v, state) := xoroshiro128ss state in (wrap32 (Z.shiftr v 32), state).
Definition pg_prng_int32 (state : pg_prng_state) : Z * pg_prng_state :=
  let '(v, state) := xoroshiro128ss state in (to_int32 (Z.shiftr v 32), state).
Definition pg_prng_int32p (state : pg_prng_state) : Z * pg_prng_state :=
  let '(v, state) := xoroshiro128ss state in (to_int32 (Z.shiftr v 33), state).

(** [ldexp]: scaling by a power of two, correctly rounded. *)
Definition ldexp (x : double) (n : Z) : double :=
  match x with
  | S754_finite s m e => binary_normalize 53 1024 (if s then Zneg m else Zpos m) (e + n) s
  | _ => x
  end.
Definition pg_prng_double (state : pg_prng_state) : double * pg_prng_state :=
  let '(v, state) := xoroshiro128ss state in
  (ldexp (dofZ (Z.shiftr v (64 - 52))) (-52), state).
Definition pg_prng_bool (state : pg_prng_state) : bool * pg_prng_state :=
  let '(v, state) := xoroshiro128ss state in (negb (Z.shiftr v 63 =? 0), state).

Arguments xoroshiro128ss : simpl never.

(** ** [geqo_random.c] *)
Definition geqo_rand (state : pg_prng_state) : double * pg_prng_state := pg_prng_double state.
Definition geqo_randint (fuel : nat) (state : pg_prng_state) (upper lower : Z) : result (Z * pg_prng_state) :=
  '(v, state) ← pg_prng_uint64_range fuel state (wrap64 lower) (wrap64 upper); Ok (to_int32 v, state).

(** ** The state *)
Definition state_ok (state : pg_prng_state) : Prop :=
  u64 (s0 state) /\ u64 (s1 state) /\ (s0 state <> 0 \/ s1 state <> 0).

Lemma shiftr_u64 x n : u64 x -> 0 <= n -> u64 (Z.shiftr x n).
Proof.
  intros [H0 H1] Hn. rewrite Z.shiftr_div_pow2 by done. split; [by apply Z.div_pos; [|lia]|].
  apply Z.le_lt_trans with x; [|done]. apply Z.div_le_upper_bound; nia.
Qed.
#[local] Hint Resolve shiftr_u64 : pg.

Lemma u64_rotl x b : u64 x -> b <= 64 -> u64 (rotl x b).
Proof. intros. unfold rotl. auto with pg lia. Qed.
#[local] Hint Resolve u64_rotl : pg.

Lemma rotl_testbit x b i : u64 x -> 0 <= b <= 64 -> 0 <= i < 64 ->
  Z.testbit (rotl x b) ((i + b) mod 64) = Z.testbit x i.
Proof.
  intros Hx Hb Hi. unfold rotl. pose proof (Z.mod_pos_bound (i + b) 64 ltac:(lia)).
  rewrite Z.lor_spec, shl64_testbit, Z.shiftr_spec by lia.
  destruct (Z_lt_ge_dec (i + b) 64).
  - rewrite Z.mod_small by lia. rewrite (proj2 (Z.ltb_lt _ _)), (proj2 (Z.leb_le _ _)) by lia.
    rewrite (u64_testbit_high x (i + b + (64 - b))) by (done || lia). rewrite orb_false_r. cbn.
    f_equal; lia.
  - replace ((i + b) mod 64) with (i + b - 64) by
      (symmetry; rewrite <- (Z.mod_add _ (-1)) by lia; apply Z.mod_small; lia).
    rewrite (proj2 (Z.leb_gt _ _)) by lia. rewrite andb_false_r. cbn. f_equal; lia.
Qed.

Lemma rotl_zero x b : u64 x -> 0 <= b <= 64 -> rotl x b = 0 -> x = 0.
Proof.
  intros Hx Hb H0. apply Z.bits_inj'. intros i Hi. rewrite Z.bits_0.
  destruct (Z_lt_ge_dec i 64); [|by apply u64_testbit_high; [|lia]].
  by rewrite <- (rotl_testbit x b i), H0, Z.bits_0 by (done || lia).
Qed.

Lemma xoroshiro_ok state : state_ok state ->
  u64 (xoroshiro128ss state).1 /\ state_ok (xoroshiro128ss state).2.
Proof.
  destruct state as [a b]. intros (Ha & Hb & Hnz). cbn in Ha, Hb, Hnz. unfold xoroshiro128ss, state_ok. cbn.
  assert (u64 (Z.lxor b a)) as Hx by auto with pg.
  split_and!; [auto with pg|auto 6 with pg lia|auto with pg lia|].
  destruct (Z.eq_dec (rotl (Z.lxor b a) 37) 0) as [E%rotl_zero|]; [|tauto|done|lia]. left.
  apply Z.lxor_eq in E. subst b. rewrite Z.lxor_nilpotent. change (shl64 0 16) with 0. rewrite !Z.lxor_0_r.
  intros E%rotl_zero; [|done|lia]. tauto.
Qed.

Lemma splitmix_u64 s : u64 (splitmix64 s).1 /\ u64 (splitmix64 s).2.
Proof. unfold splitmix64. cbn. split; auto with pg lia. Qed.

Lemma seed_check_ok a b : u64 a -> u64 b -> state_ok (pg_prng_seed_check {| s0 := a; s1 := b |}).
Proof.
  intros Ha Hb. unfold pg_prng_seed_check. cbn [s0 s1].
  destruct (Z.eqb_spec a 0), (Z.eqb_spec b 0); cbn [andb]; unfold state_ok; cbn [s0 s1]; [|tauto..].
  split_and!; [unfold u64; lia..|lia].
Qed.
Lemma seed_ok seed : state_ok (pg_prng_seed seed).
Proof.
  unfold pg_prng_seed. pose proof (splitmix_u64 seed) as [H1 H2].
  destruct (splitmix64 seed) as [a s]. cbn [fst snd] in *. pose proof (splitmix_u64 s) as [H3 _].
  destruct (splitmix64 s) as [b s']. cbn [fst snd] in *. by apply seed_check_ok.
Qed.

(** ** Ranges *)
Lemma shiftr_lt v k n : u64 v -> 0 <= k -> n = 64 - k -> 0 <= n -> 0 <= Z.shiftr v k < 2 ^ n.
Proof.
  intros [H0 H1] Hk -> Hn. rewrite Z.shiftr_div_pow2 by done.
  split; [apply Z.div_pos; lia|]. apply Z.div_lt_upper_bound; [lia|]. rewrite <- Z.pow_add_r by lia.
  by replace (k + (64 - k)) with 64 by lia.
Qed.
Lemma to_int32_range z : - 2 ^ 31 <= to_int32 z < 2 ^ 31.
Proof.
  unfold to_int32, wrap32. pose proof (Z.mod_pos_bound z (2 ^ 32) ltac:(lia)).
  destruct (Z.ltb_spec (z mod 2 ^ 32) (2 ^ 31)); lia.
Qed.
Lemma to_int64_range z : - 2 ^ 63 <= to_int64 z < 2 ^ 63.
Proof.
  unfold to_int64, wrap64. pose proof (Z.mod_pos_bound z (2 ^ 64) ltac:(lia)).
  destruct (Z.ltb_spec (z mod 2 ^ 64) (2 ^ 63)); lia.
Qed.
Lemma to_int64_id z : 0 <= z < 2 ^ 63 -> to_int64 z = z.
Proof.
  intros Hz. unfold to_int64, wrap64. rewrite Z.mod_small by lia.
  by destruct (Z.ltb_spec z (2 ^ 63)); [|lia].
Qed.

(** A 52-bit integer is converted and scaled without rounding. *)
Lemma rexp_fits M d : 0 < M -> Z.log2 M = 52 -> -1074 <= d <= 971 -> rexp M d = d.
Proof. intros HM Hl Hd. unfold rexp, fexp, emin. rewrite Hl. lia. Qed.

Lemma normalize_exact (m : positive) e : Z.log2 (Zpos m) <= 52 -> -1000 <= e <= 900 ->
  exists m', binary_normalize 53 1024 (Zpos m) e false = S754_finite false m' (e - (52 - Z.log2 (Zpos m))) /\
    Zpos m' = Zpos m * 2 ^ (52 - Z.log2 (Zpos m)) /\ Z.log2 (Zpos m') = 52.
Proof.
  intros Hl He. pose proof (Z.log2_nonneg (Zpos m)). set (k := 52 - Z.log2 (Zpos m)).
  assert (0 <= k) by (unfold k; lia).
  cbn [binary_normalize]. unfold binary_round, shl_align. rewrite digits2_log2.
  replace (fexp 53 1024 (Z.log2 (Zpos m) + 1 + e)) with (e - k) by (unfold fexp, emin, k; lia).
  assert (Zpos m * 2 ^ k < 2 ^ 53 /\ Z.log2 (Zpos m * 2 ^ k) = 52) as [Hm Hlog].
  { rewrite Z.log2_mul_pow2 by lia. split; [|unfold k; lia].
    apply Z.log2_lt_cancel. rewrite Z.log2_mul_pow2 by lia. rewrite Z.log2_pow2 by lia. unfold k. lia. }
  assert (Haux : forall M, M = Zpos m * 2 ^ k ->
    binary_round_aux 53 1024 false M (e - k) loc_Exact = S754_finite false (Z.to_pos M) (e - k)).
  { intros M HM. assert (0 < M) by nia.
    assert (rexp M (e - k) = e - k) as Hr by (apply rexp_fits; [done|by rewrite HM|unfold k; lia]).
    rewrite binary_round_aux_pack, Hr by (done || lia).
    rewrite Z.sub_diag. unfold rnd. rewrite Z.pow_0_r, Z.mod_1_r, Z.div_1_r. change (2 * 0 ?= 1) with Lt. cbv iota.
    unfold pack. destruct (Z.eqb_spec M (2 ^ 53)); [lia|]. destruct M as [|M|]; [lia| |lia].
    by destruct (Z.leb_spec (e - k) 971); [|lia]. }
  exists (Z.to_pos (Zpos m * 2 ^ k)). rewrite Z2Pos.id by nia.
  split; [|done]. destruct (e - k - e) eqn:E.
  - assert (k = 0) as Hk by lia. rewrite <- Haux by done. f_equal; [rewrite Hk|]; lia.
  - lia.
  - rewrite <- Haux by done. f_equal.
    change (Pos.iter xO m p) with (shift_pos p m). rewrite shift_pos_correct.
    replace k with (Zpos p) by lia. rewrite Z.mul_comm. reflexivity.
Qed.

Lemma ldexp_unit v : 0 <= v < 2 ^ 52 ->
  dle dzero (ldexp (dofZ v) (-52)) = true /\ dlt (ldexp (dofZ v) (-52)) (dofZ 1) = true.
Proof.
  intros [H0 H1]. unfold dofZ at 1 2. destruct v as [|m|]; [by vm_compute| |lia].
  assert (Z.log2 (Zpos m) < 52) by (apply Z.log2_lt_pow2; lia). pose proof (Z.log2_nonneg (Zpos m)).
  destruct (normalize_exact m 0) as (m1 & -> & _ & L1); [lia..|]. cbn [ldexp].
  destruct (normalize_exact m1 (0 - (52 - Z.log2 (Zpos m)) + -52)) as (m2 & -> & _ & L2); [lia..|].
  split; [done|]. apply dlt_key. do 2 eexists. split; [reflexivity|]. split; [vm_compute; reflexivity|].
  unfold klt. lia.
Qed.

(** C39: Every routine of the generator keeps the state nonzero and stays in its documented range:
    full 64-bit words, nonnegative and signed [int64], [uint32], [int32] and its nonnegative half,
    and doubles in [0, 1). *)
Theorem prng_ranges state : state_ok state ->
  (u64 (pg_prng_uint64 state).1 /\ state_ok (pg_prng_uint64 state).2) /\
  (- 2 ^ 63 <= (pg_prng_int64 state).1 < 2 ^ 63 /\ state_ok (pg_prng_int64 state).2) /\
  (0 <= (pg_prng_int64p state).1 < 2 ^ 63 /\ state_ok (pg_prng_int64p state).2) /\
  (0 <= (pg_prng_uint32 state).1 < 2 ^ 32 /\ state_ok (pg_prng_uint32 state).2) /\
  (- 2 ^ 31 <= (pg_prng_int32 state).1 < 2 ^ 31 /\ state_ok (pg_prng_int32 state).2) /\
  (0 <= (pg_prng_int32p state).1 < 2 ^ 31 /\ state_ok (pg_prng_int32p state).2) /\
  (dle dzero (pg_prng_double state).1 = true /\ dlt (pg_prng_double state).1 (dofZ 1) = true /\
    state_ok (pg_prng_double state).2) /\
  state_ok (pg_prng_bool state).2.
Proof.
  intros H%xoroshiro_ok. unfold pg_prng_uint64, pg_prng_int64, pg_prng_int64p, pg_prng_uint32,
    pg_prng_int32, pg_prng_int32p, pg_prng_double, pg_prng_bool.
  destruct (xoroshiro128ss state) as [v st]. cbn [fst snd] in *. destruct H as [Hv Hst].
  change (64 - 52) with 12. assert (0 <= Z.shiftr v 33 < 2 ^ 31) by by apply shiftr_lt.
  assert (0 <= Z.shiftr v 12 < 2 ^ 52) by by apply shiftr_lt.
  pose proof (Z.mod_pos_bound v (2 ^ 63) ltac:(lia)).
  assert (Z.land v 0x7FFFFFFFFFFFFFFF = v mod 2 ^ 63) as -> by apply (Z.land_ones v 63 ltac:(lia)).
  rewrite (to_int64_id (v mod 2 ^ 63)) by lia. rewrite (to_int32_id (Z.shiftr v 33)) by lia.
  split_and!; try done; try apply to_int64_range; try apply to_int32_range; try lia;
    try (apply Z.mod_pos_bound; lia); by apply ldexp_unit.
Qed.
Lemma prng_ranges_witness : state_ok (pg_prng_seed 42) /\ u64 (pg_prng_uint64 (pg_prng_seed 42)).1.
Proof. split; [apply seed_ok|]. apply (prng_ranges (pg_prng_seed 42)). apply seed_ok. Defined.

(** ** The rejection loop *)
Fixpoint nth_state (n : nat) (state : pg_prng_state) : pg_prng_state :=
  match n with O => state | S n => nth_state n (xoroshiro128ss state).2 end.
Definition nth_draw (n : nat) (state : pg_prng_state) : Z := (xoroshiro128ss (nth_state n state)).1.

Lemma nth_state_ok n : forall state, state_ok state -> state_ok (nth_state n state).
Proof. induction n as [|n IH]; intros state H; cbn; [done|]. apply IH, xoroshiro_ok, H. Qed.

(** The loop returns the first acceptable draw. *)
Lemma range_loop_first range rshift k : forall fuel state, (k < fuel)%nat ->
  (forall j, (j < k)%nat -> range < Z.shiftr (nth_draw j state) rshift) ->
  Z.shiftr (nth_draw k state) rshift <= range ->
  range_loop fuel range rshift state = Ok (Z.shiftr (nth_draw k state) rshift, nth_state (S k) state).
Proof.
  induction k as [|k IH]; intros [|fuel] state Hf Hrej Hacc; [lia| |lia|]; cbn;
    destruct (xoroshiro128ss state) as [raw st] eqn:E.
  - unfold nth_draw in *. cbn in *. rewrite E in *. cbn in *.
    by destruct (Z.ltb_spec range (Z.shiftr raw rshift)); [lia|].
  - pose proof (Hrej 0%nat ltac:(lia)) as H0. unfold nth_draw in *. cbn in *. rewrite E in *. cbn in *.
    destruct (Z.ltb_spec range (Z.shiftr raw rshift)); [|lia]. apply IH; [lia| |done].
    intros j Hj. pose proof (Hrej (S j) ltac:(lia)) as Hr. cbn in Hr. by rewrite E in Hr.
Qed.

Lemma range_loop_ok range rshift fuel : forall state, state_ok state -> 0 <= rshift ->
  match range_loop fuel range rshift state with
  | Ok (v, st) => 0 <= v <= range /\ state_ok st
  | Error _ => False
  | NoFuel => True
  end.
Proof.
  induction fuel as [|fuel IH]; intros state H Hr; cbn; [done|].
  apply xoroshiro_ok in H. destruct (xoroshiro128ss state) as [raw st]. cbn in H. destruct H as [Hraw Hst].
  destruct (Z.ltb_spec range (Z.shiftr raw rshift)); [by apply IH|].
  split; [|done]. split; [|done]. apply Z.shiftr_nonneg, Hraw.
Qed.

(** The shift of [pg_prng_uint64_range]: draws are at most twice the range and more than half of
    all words are accepted, each result by the same number of them. *)
Lemma range_shift range : 0 < range -> u64 range ->
  let rshift := 63 - Z.log2 range in
  0 <= rshift <= 63 /\
  (forall v, u64 v -> Z.shiftr v rshift < 2 * range) /\
  2 ^ 63 < (range + 1) * 2 ^ rshift <= 2 ^ 64 /\
  (forall v k, Z.shiftr v rshift = k <-> k * 2 ^ rshift <= v < k * 2 ^ rshift + 2 ^ rshift).
Proof.
  intros H0 [_ H1] rshift. pose proof (Z.log2_nonneg range).
  assert (Z.log2 range < 64) by (apply Z.log2_lt_pow2; lia).
  destruct (Z.log2_spec range H0) as [L1 L2]. rewrite Z.pow_succ_r in L2 by done.
  assert (2 ^ Z.log2 range * 2 ^ rshift = 2 ^ 63) as E
    by (rewrite <- Z.pow_add_r by (unfold rshift; lia); f_equal; unfold rshift; lia).
  assert (0 < 2 ^ rshift) by (apply Z.pow_pos_nonneg; unfold rshift; lia).
  split_and!; [unfold rshift; lia..| |nia|nia|].
  - intros v Hv. destruct (shiftr_lt v rshift (Z.log2 range + 1)) as [_ Hs];
      [done|unfold rshift; lia..|]. rewrite Z.pow_add_r in Hs by lia. lia.
  - intros v k. rewrite Z.shiftr_div_pow2 by (unfold rshift; lia).
    pose proof (Z.div_mod v (2 ^ rshift)). pose proof (Z.mod_pos_bound v (2 ^ rshift)).
    split; [intros <-; lia|]. intros Hv. symmetry. apply (Z.div_unique_pos v (2 ^ rshift) k (v - 2 ^ rshift * k)); lia.
Qed.

Lemma range_bounds fuel state rmin rmax : state_ok state -> u64 rmin -> u64 rmax ->
  match pg_prng_uint64_range fuel state rmin rmax with
  | Ok (r, st) => rmin <= r <= Z.max rmin rmax /\ state_ok st
  | Error _ => False
  | NoFuel => rmin < rmax
  end.
Proof.
  intros Hst Hmin Hmax. unfold pg_prng_uint64_range. destruct (Z.ltb_spec rmin rmax) as [Hlt|Hge].
  - assert (0 < rmax - rmin /\ u64 (rmax - rmin)) as [Hr Hr'] by (unfold u64 in *; lia).
    rewrite pg_leftmost_one_pos64_log2 by done. destruct (range_shift _ Hr Hr') as (Hs & _).
    pose proof (range_loop_ok (rmax - rmin) (63 - Z.log2 (rmax - rmin)) fuel state Hst ltac:(lia)) as H.
    destruct (range_loop fuel _ _ state) as [[v st]| |]; cbn; [|done..].
    unfold wrap64. rewrite Z.mod_small; unfold u64 in *; lia || (split; [lia|apply H]).
  - cbn. rewrite Z.add_0_r. unfold wrap64. rewrite Z.mod_small by done. split; [lia|done].
Qed.

(** C20: [pg_prng_uint64_range] on a nonempty range accepts more than half of all words and maps
    the same number of words to each offset; it returns exactly when some draw is accepted, with
    the first accepted one, so fuel [k + 1] suffices when draw [k] is the first; what it returns is in
    [rmin, rmax].  On an empty range it returns [rmin] without a draw. *)
Theorem prng_range_correct state rmin rmax : state_ok state -> u64 rmin -> u64 rmax ->
  let range := rmax - rmin in let rshift := 63 - Z.log2 range in
  (rmax <= rmin -> forall fuel, pg_prng_uint64_range fuel state rmin rmax = Ok (rmin, state)) /\
  (rmin < rmax ->
    2 ^ 63 < (range + 1) * 2 ^ rshift <= 2 ^ 64 /\
    (forall v k, Z.shiftr v rshift = k <-> k * 2 ^ rshift <= v < k * 2 ^ rshift + 2 ^ rshift) /\
    (forall k fuel, (k < fuel)%nat ->
      (forall j, (j < k)%nat -> range < Z.shiftr (nth_draw j state) rshift) ->
      Z.shiftr (nth_draw k state) rshift <= range ->
      pg_prng_uint64_range fuel state rmin rmax =
        Ok (rmin + Z.shiftr (nth_draw k state) rshift, nth_state (S k) state))) /\
  (forall fuel, match pg_prng_uint64_range fuel state rmin rmax with
    | Ok (r, st) => rmin <= r <= Z.max rmin rmax /\ state_ok st
    | Error _ => False
    | NoFuel => rmin < rmax
    end).
Proof.
  intros Hst Hmin Hmax. cbv zeta.
  split; [|split; [|by intros fuel; apply range_bounds]]; unfold pg_prng_uint64_range.
  - intros Hge fuel. destruct (Z.ltb_spec rmin rmax); [lia|]. cbn. rewrite Z.add_0_r. unfold wrap64.
    by rewrite Z.mod_small.
  - intros Hlt. destruct (Z.ltb_spec rmin rmax); [|lia].
    assert (0 < rmax - rmin /\ u64 (rmax - rmin)) as [Hr Hr'] by (unfold u64 in *; lia).
    rewrite pg_leftmost_one_pos64_log2 by done. destruct (range_shift _ Hr Hr') as (Hs & _ & Hhalf & Hunif).
    split_and!; [apply Hhalf..|done|]. intros k fuel Hk Hrej Hacc.
    rewrite (range_loop_first _ _ k) by done. cbn. unfold wrap64.
    pose proof (xoroshiro_ok _ (nth_state_ok k _ Hst)) as [[Hd _] _].
    rewrite <- (Z.shiftr_nonneg _ (63 - Z.log2 (rmax - rmin))) in Hd. unfold nth_draw, u64 in *.
    rewrite Z.mod_small; [done|]. lia.
Qed.
Lemma prng_range_correct_witness :
  pg_prng_uint64_range 4 (pg_prng_seed 5) 1 6 =
    Ok (1 + Z.shiftr (nth_draw 3 (pg_prng_seed 5)) 61, nth_state 4 (pg_prng_seed 5)).
Proof.
  destruct (prng_range_correct (pg_prng_seed 5) 1 6) as (_ & H & _); [apply seed_ok|unfold u64; lia..|].
  apply H; [lia|lia| |vm_compute; discriminate].
  intros [|[|[|j]]] Hj; [vm_compute; reflexivity..|lia].
Defined.

(** ** The interface of the optimizer's random source

    What the genetic optimizer relies on: [randint] answers within its bounds or keeps drawing
    ([NoFuel]), and [rand] answers in [0, 1). *)
Class RandomSource (S : Type) := {
  randint : S -> Z -> Z -> result (Z * S);
  rand : S -> double * S;
  source_ok : S -> Prop;
  randint_ok s upper lower : source_ok s -> 0 <= lower <= upper -> upper < 2 ^ 31 ->
    match randint s upper lower with
    | Ok (r, s') => lower <= r <= upper /\ source_ok s'
    | Error _ => False
    | NoFuel => True
    end;
  rand_ok s : source_ok s ->
    dle dzero (rand s).1 = true /\ dlt (rand s).1 (dofZ 1) = true /\ source_ok (rand s).2
}.

(** A source stalls when some call within the interface does not return. *)
Definition stalls (S : Type) `{RandomSource S} : Prop :=
  exists s upper lower, source_ok s /\ 0 <= lower <= upper /\ upper < 2 ^ 31 /\ randint s upper lower = NoFuel.


Lemma geqo_randint_ok fuel state upper lower : state_ok state -> 0 <= lower <= upper -> upper < 2 ^ 31 ->
  match geqo_randint fuel state upper lower with
  | Ok (r, st) => lower <= r <= upper /\ state_ok st
  | Error _ => False
  | NoFuel => True
  end.
Proof.
  intros Hst Hl Hu. unfold geqo_randint, wrap64. rewrite !Z.mod_small by lia.
  pose proof (range_bounds fuel state lower upper Hst) as H.
  destruct (pg_prng_uint64_range fuel state lower upper) as [[r st]| |]; cbn; [|apply H; unfold u64; lia|done].
  destruct H as [Hr Ht]; [unfold u64; lia..|]. rewrite to_int32_id by lia. split; [lia|done].
Qed.
Lemma geqo_rand_ok state : state_ok state ->
  dle dzero (geqo_rand state).1 = true /\ dlt (geqo_rand state).1 (dofZ 1) = true /\ state_ok (geqo_rand state).2.
Proof.
  intros [Hv Hst]%xoroshiro_ok. unfold geqo_rand, pg_prng_double.
  destruct (xoroshiro128ss state) as [v st]. change (64 - 52) with 12. cbn [fst snd] in *.
  destruct (ldexp_unit (Z.shiftr v 12)); [by apply shiftr_lt|done].
Qed.

#[global] Instance prng_source (fuel : nat) : RandomSource pg_prng_state := {|
  randint := geqo_randint fuel; rand := geqo_rand; source_ok := state_ok;
  randint_ok := geqo_randint_ok fuel; rand_ok := geqo_rand_ok
|}.
