(* ===== verification/FloatRange.v ===== *)
(** * Which operations of binary64 cannot give NaN

    Rounding keeps a mantissa below [2 ^ 53] and never yields NaN by itself; products, differences,
    quotients and square roots of numbers that are not NaN are not NaN outside the
    indeterminate cases.  Truncating a number between zero and an integer gives an index below
    that integer. *)
From Stdlib Require Import Floats.SpecFloat.
From S2P Require Import Prelude BitUtils Float64 Prng.
#[local] Open Scope Z_scope.

(** A number, with a mantissa below [2 ^ 53]. *)
Definition proper (x : double) : Prop :=
  match x with S754_nan => False | S754_finite _ m _ => Zpos m < 2 ^ 53 | _ => True end.
Definition dfinite (x : double) : bool :=
  match x with S754_zero _ | S754_finite _ _ _ => true | _ => false end.
Definition dnonzero (x : double) : bool := match x with S754_finite _ _ _ => true | _ => false end.

Lemma proper_not_nan x : proper x -> is_nan x = false.
Proof. by destruct x. Qed.

Lemma shr_1_half mrs : 0 <= shr_m mrs -> shr_m (shr_1 mrs) = shr_m mrs / 2.
Proof.
  destruct mrs as [m r s]. cbn [shr_m]. intros Hm.
  destruct m as [|[p|p|]|]; [done| | |done|lia]; cbn [shr_1 shr_m].
  - rewrite (Pos2Z.inj_xI p). replace (2 * Zpos p + 1) with (1 + Zpos p * 2) by lia.
    by rewrite Z.div_add by lia.
  - rewrite (Pos2Z.inj_xO p). replace (2 * Zpos p) with (Zpos p * 2) by lia. by rewrite Z.div_mul by lia.
Qed.
Lemma shr_iter n : forall mrs, 0 <= shr_m mrs ->
  shr_m (Nat.iter n shr_1 mrs) = shr_m mrs / 2 ^ Z.of_nat n /\ 0 <= shr_m (Nat.iter n shr_1 mrs).
Proof.
  induction n as [|n IH]; intros mrs Hm; [cbn; rewrite Z.div_1_r; done|]. cbn [Nat.iter nat_rect].
  fold (Nat.iter n shr_1 mrs). destruct (IH mrs Hm) as [H1 H2]. rewrite shr_1_half by done. rewrite H1.
  rewrite Nat2Z.inj_succ, Z.pow_succ_r by lia. rewrite Z.div_div by lia.
  split; [f_equal; lia|]. apply Z.div_pos; [done|]. lia.
Qed.
Lemma shr_value mrs e n : 0 <= shr_m mrs ->
  shr_m (shr mrs e n).1 = shr_m mrs / 2 ^ Z.max 0 n /\ 0 <= shr_m (shr mrs e n).1.
Proof.
  intros Hm. destruct n as [|p|p]; cbn [shr fst Z.max]; rewrite ?Z.pow_0_r, ?Z.div_1_r; try done.
  rewrite iter_pos_nat. replace (Z.max 0 (Zpos p)) with (Z.of_nat (Pos.to_nat p)) by lia. by apply shr_iter.
Qed.
Lemma shr_fexp_value m e l : 0 <= m ->
  let n := fexp 53 1024 (Zdigits2 m + e) - e in
  shr_m (shr_fexp 53 1024 m e l).1 = m / 2 ^ Z.max 0 n /\ 0 <= shr_m (shr_fexp 53 1024 m e l).1 < 2 ^ 53.
Proof.
  intros Hm n. assert (shr_m (shr_record_of_loc m l) = m) as Hl by (by destruct l as [|[]]).
  destruct (shr_value (shr_record_of_loc m l) e n) as [H1 H2]; [by rewrite Hl|]. rewrite Hl in H1.
  split; [exact H1|]. split; [exact H2|]. unfold shr_fexp. fold n. rewrite H1.
  destruct (Z.eq_dec m 0) as [->|]; [rewrite Z.div_0_l by (apply Z.pow_nonzero; lia); lia|].
  apply Z.div_lt_upper_bound; [apply Z.pow_pos_nonneg; lia|]. rewrite <- Z.pow_add_r by lia.
  apply Z.lt_le_trans with (2 ^ Z.succ (Z.log2 m)); [apply Z.log2_spec; lia|].
  apply Z.pow_le_mono_r; [lia|]. unfold n, fexp, emin. rewrite zdigits2_log2 by lia. lia.
Qed.

Lemma binary_round_aux_proper s m e l : 0 <= m -> proper (binary_round_aux 53 1024 s m e l).
Proof.
  intros Hm. unfold binary_round_aux. destruct (shr_fexp_value m e l Hm) as [_ H1].
  destruct (shr_fexp 53 1024 m e l) as [mrs1 e1]. cbn [fst] in H1.
  assert (0 <= round_nearest_even (shr_m mrs1) (loc_of_shr_record mrs1)) as Hr
    by (destruct mrs1 as [m1 [] []]; cbn in *; try destruct (Z.even m1); lia).
  destruct (shr_fexp_value _ e1 loc_Exact Hr) as [_ H2].
  destruct (shr_fexp 53 1024 _ e1 loc_Exact) as [mrs2 e2]. cbn [fst] in H2.
  destruct (shr_m mrs2) as [|p|]; [done| |lia]. destruct (e2 <=? _); [cbn [proper]; lia|done].
Qed.
Lemma binary_round_proper s m e : proper (binary_round 53 1024 s m e).
Proof. unfold binary_round. destruct (shl_align m e _) as [mz ez]. by apply binary_round_aux_proper. Qed.
Lemma binary_normalize_proper m e s : proper (binary_normalize 53 1024 m e s).
Proof. destruct m; cbn; [done|apply binary_round_proper..]. Qed.

Lemma dmul_proper x y : is_nan x = false -> is_nan y = false -> (dfinite x = true /\ dfinite y = true) \/ dnonzero x = true \/ dnonzero y = true ->
  proper (dmul x y).
Proof. destruct x, y; cbn; try tauto; try (intuition discriminate); intros _ _ _; by apply binary_round_aux_proper. Qed.
Lemma dsub_proper x y : proper x -> proper y -> dfinite x = true -> proper (dsub x y).
Proof.
  destruct x as [[]| | |sx mx ex], y as [[]| | |sy my ey]; cbn; try tauto; try discriminate; intros _ _ _;
    apply binary_normalize_proper.
Qed.
Lemma ddiv_proper x y : proper x -> proper y -> dnonzero y = true -> proper (ddiv x y).
Proof.
  destruct x as [| | |sx mx ex], y as [| | |sy my ey]; cbn [proper dnonzero]; try tauto; try discriminate; intros _ _ _; [done..|].
  unfold ddiv, SFdiv, SFdiv_core_binary.
  match goal with |- context [Z.div_eucl ?a ?b] => pose proof (Z_div_mod a b ltac:(lia)) as H; assert (0 <= a) as Ha end.
  { destruct (_ - _ - _); [lia| |lia]. by apply Z.shiftl_nonneg. }
  destruct (Z.div_eucl _ _) as [q r]. apply binary_round_aux_proper. nia.
Qed.
Lemma dsqrt_proper x : proper x -> dgt x dzero = true -> proper (dsqrt x).
Proof.
  destruct x as [[]|[]| |[] m e]; try done. intros _ _. unfold dsqrt, SFsqrt, SFsqrt_core_binary.
  match goal with |- context [Z.sqrtrem ?a] => assert (0 <= a) as Ha end.
  { destruct (_ - _); [lia| |lia]. by apply Z.shiftl_nonneg. }
  pose proof (Z.sqrtrem_spec _ Ha) as H. destruct (Z.sqrtrem _) as [q r]. apply binary_round_aux_proper. lia.
Qed.

(** Truncation of a number in [0, k). *)
Lemma truncate_below x k : proper x -> 1 <= k < 2 ^ 31 -> dle dzero x = true -> dlt x (dofZ k) = true ->
  exists z, dtoi64 x = Some z /\ 0 <= z < k.
Proof.
  intros Hx Hk H0 H1. assert (Z.log2 k < 31) as Hl by (apply Z.log2_lt_pow2; lia).
  destruct k as [|p|]; [lia| |lia]. pose proof (Z.log2_nonneg (Zpos p)).
  destruct (normalize_exact p 0) as (m' & E & Hm & Hlog); [lia..|]. unfold dofZ in H1. rewrite E in H1.
  assert (2 ^ 52 <= Zpos m') as Hm'. { destruct (Z.log2_spec (Zpos m') ltac:(lia)) as [H2 _]. by rewrite Hlog in H2. }
  set (j := 52 - Z.log2 (Zpos p)) in *. assert (21 < j <= 52) by lia.
  destruct x as [|[]| |[] m e]; try done; [exists 0; cbn; split; [done|lia]|]. cbn [proper] in Hx.
  apply dlt_key in H1 as (a & b & [= <-] & [= <-] & Hlt). unfold klt in Hlt.
  assert (Zpos m < Zpos p * 2 ^ (- e)) as Hlt'.
  { destruct Hlt as [|[_ [He|[-> Hmm]]]]; [lia| |].
    - assert (2 ^ (- e) = 2 ^ j * 2 * 2 ^ (- e - j - 1)) as ->.
      { rewrite <- (Z.pow_1_r 2) at 3. rewrite <- !Z.pow_add_r by lia. f_equal. lia. }
      assert (0 < 2 ^ (- e - j - 1)) by (apply Z.pow_pos_nonneg; lia). nia.
    - replace (- (0 - j)) with j by lia. lia. }
  cbn [dtoi64]. destruct (Z.leb_spec 0 e); [lia|].
  assert (0 < 2 ^ (- e)) by (apply Z.pow_pos_nonneg; lia).
  assert (0 <= Zpos m / 2 ^ (- e) < Zpos p) by (split; [apply Z.div_pos; lia|apply Z.div_lt_upper_bound; lia]).
  destruct (Z.leb_spec (- 2 ^ 63) (Zpos m / 2 ^ (- e))); [|lia]. destruct (Z.ltb_spec (Zpos m / 2 ^ (- e)) (2 ^ 63)); [|lia].
  eauto.
Qed.
