(* ===== verification/Geqo.v ===== *)
(** * The genetic query optimizer: [src/backend/optimizer/geqo]

    Tours are arrays of genes, the numbers 1..n of the relations to join.  This file models tour
    generation ([geqo_recombination.c]), edge recombination ([geqo_erx.c], the crossover that
    [geqo.h] selects), the pool ([geqo_pool.c], [geqo_copy.c]), parent selection
    ([geqo_selection.c]), the evaluation of tours as join trees ([geqo_eval.c]) and the main loop
    ([geqo_main.c]).

    Array accesses are checked: an access outside an array is an [Error].  The random source is the
    interface [RandomSource]; the join planner that [gimme_tree] calls is the interface
    [JoinPlanner].  Loops that repeat a draw until it is acceptable are run with fuel. *)
From Stdlib Require Import Floats.SpecFloat.
From S2P Require Import Prelude Float64 SortTemplate Prng.
#[local] Open Scope Z_scope.

Abbreviation Gene := Z.
Record Edge := { edge_list : list Gene; total_edges : Z; unused_edges : Z }.
Record Chromosome := { string : list Gene; worth : double }.
Record Pool := { data : list Chromosome; size : Z; string_length : Z }.

(** ** [geqo_erx.c] without randomness *)

(** The first [i] among [ixs] with [abs(edge_list[i]) == city]. *)
Fixpoint find_city (edge_list : list Gene) (city : Gene) (ixs : list Z) : result (option Z) :=
  match ixs with
  | [] => Ok None
  | i :: ixs =>
      e ← array_get edge_list i;
      if Z.abs e =? city then Ok (Some i) else find_city edge_list city ixs
  end.

Definition gimme_edge (gene1 gene2 : Gene) (edge_table : list Edge) : result (Z * list Edge) :=
  edge ← array_get edge_table gene1;
  found ← find_city (edge_list edge) gene2 (seqZ 0 (total_edges edge));
  match found with
  | Some i =>
      l ← array_set (edge_list edge) i (0 - gene2);
      edge_table ← array_set edge_table gene1
        {| edge_list := l; total_edges := total_edges edge; unused_edges := unused_edges edge |};
      Ok (0, edge_table)
  | None =>
      l ← array_set (edge_list edge) (total_edges edge) gene2;
      edge_table ← array_set edge_table gene1
        {| edge_list := l; total_edges := total_edges edge + 1; unused_edges := unused_edges edge + 1 |};
      Ok (1, edge_table)
  end.

Fixpoint clear_edges (edge_table : list Edge) (ixs : list Z) : result (list Edge) :=
  match ixs with
  | [] => Ok edge_table
  | i :: ixs =>
      edge ← array_get edge_table i;
      edge_table ← array_set edge_table i
        {| edge_list := edge_list edge; total_edges := 0; unused_edges := 0 |};
      clear_edges edge_table ixs
  end.

(** Both directions of the edge between positions [index1] and [index2] of a tour. *)
Definition tour_edge (tour : list Gene) (index1 index2 : Z) (edge_table : list Edge)
    : result (Z * list Edge) :=
  gene1 ← array_get tour index1;
  gene2 ← array_get tour index2;
  '(added, edge_table) ← gimme_edge gene1 gene2 edge_table;
  '(_, edge_table) ← gimme_edge gene2 gene1 edge_table;
  Ok (added, edge_table).

Fixpoint fill_edges (tour1 tour2 : list Gene) (num_gene : Z) (edge_total : Z) (edge_table : list Edge)
    (ixs : list Z) : result (Z * list Edge) :=
  match ixs with
  | [] => Ok (edge_total, edge_table)
  | index1 :: ixs =>
      let index2 := (index1 + 1) mod num_gene in
      '(added1, edge_table) ← tour_edge tour1 index1 index2 edge_table;
      '(added2, edge_table) ← tour_edge tour2 index1 index2 edge_table;
      fill_edges tour1 tour2 num_gene (edge_total + added1 + added2) edge_table ixs
  end.

(** The result is [edge_total], of which the C function returns the average per gene; the caller
    ignores it. *)
Definition gimme_edge_table (tour1 tour2 : list Gene) (num_gene : Z) (edge_table : list Edge)
    : result (Z * list Edge) :=
  edge_table ← clear_edges edge_table (seqZ 1 num_gene);
  fill_edges tour1 tour2 num_gene 0 edge_table (seqZ 0 num_gene).

Fixpoint remove_from (gene : Gene) (edge : Edge) (edge_table : list Edge) (ixs : list Z)
    : result (list Edge) :=
  match ixs with
  | [] => Ok edge_table
  | i :: ixs =>
      e ← array_get (edge_list edge) i;
      let possess_edge := Z.abs e in
      owner ← array_get edge_table possess_edge;
      let genes_remaining := unused_edges owner in
      found ← find_city (edge_list owner) gene (seqZ 0 genes_remaining);
      edge_table ←
        match found with
        | None => Ok edge_table
        | Some j =>
            last ← array_get (edge_list owner) (genes_remaining - 1);
            l ← array_set (edge_list owner) j last;
            array_set edge_table possess_edge
              {| edge_list := l; total_edges := total_edges owner; unused_edges := genes_remaining - 1 |}
        end;
      remove_from gene edge edge_table ixs
  end.
Definition remove_gene (gene : Gene) (edge : Edge) (edge_table : list Edge) : result (list Edge) :=
  remove_from gene edge edge_table (seqZ 0 (unused_edges edge)).

(** The first loop of [gimme_gene]: a shared edge, or the minimum and how often it occurs. *)
Definition min_count_msg : String.string := "minimum_count not set".
Fixpoint scan_friends (edge_list : list Gene) (edge_table : list Edge) (minimum_edges minimum_count : Z)
    (ixs : list Z) : result (Gene + Z * Z) :=
  match ixs with
  | [] => Ok (inr (minimum_edges, minimum_count))
  | i :: ixs =>
      friend ← array_get edge_list i;
      if friend <? 0 then Ok (inl (Z.abs friend)) else
      other ← array_get edge_table friend;
      if unused_edges other <? minimum_edges
      then scan_friends edge_list edge_table (unused_edges other) 1 ixs
      else if minimum_count =? -1 then Error min_count_msg
      else if unused_edges other =? minimum_edges
      then scan_friends edge_list edge_table minimum_edges (minimum_count + 1) ixs
      else scan_friends edge_list edge_table minimum_edges minimum_count ixs
  end.

(** The selection loops: count down at each candidate, stop at the one where the count ixs
    [rand_decision]. *)
Fixpoint pick_nth (test : Z -> result bool) (rand_decision count : Z) (ixs : list Z) : result (option Z) :=
  match ixs with
  | [] => Ok None
  | i :: ixs =>
      b ← test i;
      if (b : bool)
      then if count - 1 =? rand_decision then Ok (Some i) else pick_nth test rand_decision (count - 1) ixs
      else pick_nth test rand_decision count ixs
  end.
Fixpoint count_true (test : Z -> result bool) (count : Z) (ixs : list Z) : result Z :=
  match ixs with
  | [] => Ok count
  | i :: ixs => b ← test i; count_true test (if (b : bool) then count + 1 else count) ixs
  end.

Definition no_friend_msg : String.string := "neither shared nor minimum number nor random edge found".
Definition no_edge_msg : String.string := "no edge found".
Definition DBL_MAX : double := S754_finite false 9007199254740991 971.
Definition no_plan_msg : String.string := "geqo failed to make a valid plan".

(** ** [geqo_eval.c]

    The planner routines that [gimme_tree] calls, over the planner's state.  [make_join_rel] gives no
    relation when the join is not legal; [finish_join_rel] is the work on the paths of a new join
    relation that ends with [set_cheapest].  [root_joins] is [join_rel_list] and [root_hash] the hash table over it, if there is one; [levels_in_use] is
    [join_rel_level != NULL].  [delete_context created root] is the state [root] without what was allocated in a memory context since the state [created];
    what the code keeps in longer-lived contexts survives. *)
Class JoinPlanner (Root Rel : Type) := {
  make_join_rel : Root -> Rel -> Rel -> result (option Rel * Root);
  finish_join_rel : Root -> Rel -> result Root;
  have_relevant_joinclause : Root -> Rel -> Rel -> result bool;
  have_join_order_restriction : Root -> Rel -> Rel -> result bool;
  cheapest_total_cost : Root -> Rel -> double;
  RelHash : Type;
  root_joins : Root -> list Rel;
  set_root_joins : Root -> list Rel -> Root;
  root_hash : Root -> option RelHash;
  set_root_hash : Root -> option RelHash -> Root;
  levels_in_use : Root -> bool;
  delete_context : Root -> Root -> Root
}.

Record Clump (Rel : Type) := { joinrel : Rel; clump_size : Z }.
Arguments joinrel {Rel} _.
Arguments clump_size {Rel} _.

Section Randomized.
Context {S : Type} {source : RandomSource S}.
Implicit Types (rng : S).

(** ** [geqo_recombination.c] *)
Fixpoint shuffle (tour : list Gene) (ixs : list Z) rng : result (list Gene * S) :=
  match ixs with
  | [] => Ok (tour, rng)
  | i :: ixs =>
      '(j, rng) ← randint rng i 0;
      tour ← (if negb (i =? j) then g ← array_get tour j; array_set tour i g else Ok tour);
      tour ← array_set tour j (i + 1);
      shuffle tour ixs rng
  end.
Definition init_tour (tour : list Gene) (num_gene : Z) rng : result (list Gene * S) :=
  tour ← (if 0 <? num_gene then array_set tour 0 1 else Ok tour);
  shuffle tour (seqZ 1 (num_gene - 1)) rng.

(** ** [geqo_erx.c] *)
Definition gimme_gene (edge : Edge) (edge_table : list Edge) rng : result (Gene * S) :=
  let ixs := seqZ 0 (unused_edges edge) in
  scan ← scan_friends (edge_list edge) edge_table 5 (-1) ixs;
  match scan with
  | inl friend => Ok (friend, rng)
  | inr (minimum_edges, minimum_count) =>
      '(rand_decision, rng) ← randint rng (minimum_count - 1) 0;
      found ← pick_nth (fun i => friend ← array_get (edge_list edge) i;
                                 other ← array_get edge_table friend;
                                 Ok (unused_edges other =? minimum_edges))
                       rand_decision minimum_count ixs;
      match found with
      | Some i => friend ← array_get (edge_list edge) i; Ok (friend, rng)
      | None => Error no_friend_msg
      end
  end.

Definition remaining (edge_table : list Edge) (fail_gene : Gene) (i : Z) : result bool :=
  edge ← array_get edge_table i; Ok (negb (unused_edges edge =? -1) && negb (i =? fail_gene)).
Definition remaining_four (edge_table : list Edge) (fail_gene : Gene) (i : Z) : result bool :=
  edge ← array_get edge_table i;
  Ok (negb (unused_edges edge =? -1) && negb (i =? fail_gene) && (total_edges edge =? 4)).

Definition edge_failure (gene : list Gene) (index : Z) (edge_table : list Edge) (num_gene : Z) rng
    : result (Gene * S) :=
  fail_gene ← array_get gene index;
  let ixs := seqZ 1 num_gene in
  remaining_edges ← count_true (remaining edge_table fail_gene) 0 ixs;
  four_count ← count_true (remaining_four edge_table fail_gene) 0 ixs;
  '(found, rng) ←
    (if negb (four_count =? 0) then
       '(rand_decision, rng) ← randint rng (four_count - 1) 0;
       found ← pick_nth (remaining_four edge_table fail_gene) rand_decision four_count ixs;
       Ok (found, rng)
     else if negb (remaining_edges =? 0) then
       '(rand_decision, rng) ← randint rng (remaining_edges - 1) 0;
       found ← pick_nth (remaining edge_table fail_gene) rand_decision remaining_edges ixs;
       Ok (found, rng)
     else
       found ← pick_nth (fun i => edge ← array_get edge_table i; Ok (0 <=? unused_edges edge)) 0 1 ixs;
       Ok (found, rng));
  match found with
  | Some i => Ok (i, rng)
  | None => Error no_edge_msg
  end.

(** One iteration of the loop of [gimme_tour]. *)
Definition next_gene (edge_table : list Edge) (new_gene : list Gene) (num_gene i : Z) rng
    : result (Z * list Edge * list Gene * S) :=
  gene ← array_get new_gene (i - 1);
  edge ← array_get edge_table gene;
  edge_table ← remove_gene gene edge edge_table;
  edge ← array_get edge_table gene;
  '(failures, chosen, rng) ←
    (if 0 <? unused_edges edge
     then '(chosen, rng) ← gimme_gene edge edge_table rng; Ok (0, chosen, rng)
     else '(chosen, rng) ← edge_failure new_gene (i - 1) edge_table num_gene rng; Ok (1, chosen, rng));
  new_gene ← array_set new_gene i chosen;
  edge ← array_get edge_table gene;
  edge_table ← array_set edge_table gene
    {| edge_list := edge_list edge; total_edges := total_edges edge; unused_edges := -1 |};
  Ok (failures, edge_table, new_gene, rng).

Fixpoint tour_loop (edge_table : list Edge) (new_gene : list Gene) (num_gene edge_failures : Z)
    (ixs : list Z) rng : result (Z * list Edge * list Gene * S) :=
  match ixs with
  | [] => Ok (edge_failures, edge_table, new_gene, rng)
  | i :: ixs =>
      '(failures, edge_table, new_gene, rng) ← next_gene edge_table new_gene num_gene i rng;
      tour_loop edge_table new_gene num_gene (edge_failures + failures) ixs rng
  end.
Definition gimme_tour (edge_table : list Edge) (new_gene : list Gene) (num_gene : Z) rng
    : result (Z * list Edge * list Gene * S) :=
  '(first, rng) ← randint rng num_gene 1;
  new_gene ← array_set new_gene 0 first;
  tour_loop edge_table new_gene num_gene 0 (seqZ 1 (num_gene - 1)) rng.

(** ** [geqo_copy.c] *)
Fixpoint copy_genes (dst src : list Gene) (ixs : list Z) : result (list Gene) :=
  match ixs with
  | [] => Ok dst
  | i :: ixs => g ← array_get src i; dst ← array_set dst i g; copy_genes dst src ixs
  end.
Definition geqo_copy (chromo1 chromo2 : Chromosome) (string_length : Z) : result Chromosome :=
  l ← copy_genes (string chromo1) (string chromo2) (seqZ 0 string_length);
  Ok {| string := l; worth := worth chromo2 |}.

(** ** [geqo_selection.c] *)

(** The [double] that one draw gives. *)
Definition linear_index (max bias r : double) : double :=
  let sqrtval := dsub (dmul bias bias) (dmul (dmul (dofZ 4) (dsub bias (dofZ 1))) r) in
  let sqrtval := if dgt sqrtval dzero then dsqrt sqrtval else sqrtval in
  ddiv (ddiv (dmul max (dsub bias sqrtval)) (dofZ 2)) (dsub bias (dofZ 1)).
(** [(int) index]: undefined in C for NaN and out of range, an [Error] here. *)
Definition to_int_msg : String.string := "conversion out of range".
Definition dtoi32 (x : double) : result Z :=
  match dtoi64 x with
  | Some z => if (- 2 ^ 31 <=? z) && (z <? 2 ^ 31) then Ok z else Error to_int_msg
  | None => Error to_int_msg
  end.
Fixpoint linear_rand (fuel : nat) (pool_size : Z) (bias : double) rng : result (Z * S) :=
  match fuel with
  | O => NoFuel
  | Datatypes.S fuel =>
      let '(r, rng) := rand rng in
      let index := linear_index (dofZ pool_size) bias r in
      if dlt index dzero || dge index (dofZ pool_size) then linear_rand fuel pool_size bias rng
      else i ← dtoi32 index; Ok (i, rng)
  end.
Fixpoint other_rand (fuel : nat) (pool_size : Z) (bias : double) (first second : Z) rng : result (Z * S) :=
  match fuel with
  | O => NoFuel
  | Datatypes.S fuel' =>
      if first =? second
      then '(second, rng) ← linear_rand fuel pool_size bias rng; other_rand fuel' pool_size bias first second rng
      else Ok (second, rng)
  end.
Definition geqo_selection (fuel : nat) (momma daddy : Chromosome) (pool : Pool) (bias : double) rng
    : result (Chromosome * Chromosome * S) :=
  '(first, rng) ← linear_rand fuel (size pool) bias rng;
  '(second, rng) ← linear_rand fuel (size pool) bias rng;
  '(second, rng) ← (if 1 <? size pool then other_rand fuel (size pool) bias first second rng
                    else Ok (second, rng));
  c1 ← array_get (data pool) first;
  momma ← geqo_copy momma c1 (string_length pool);
  c2 ← array_get (data pool) second;
  daddy ← geqo_copy daddy c2 (string_length pool);
  Ok (momma, daddy, rng).

(** ** [geqo_pool.c] *)
Definition compare (chromo1 chromo2 : Chromosome) : Z :=
  if deq (worth chromo1) (worth chromo2) then 0
  else if dgt (worth chromo1) (worth chromo2) then 1 else -1.
Definition sort_pool `{QSort Chromosome} (pool : Pool) : Pool :=
  {| data := qsort compare (data pool); size := size pool; string_length := string_length pool |}.

Fixpoint spread_search (fuel : nat) (data : list Chromosome) (w : double) (top mid bot : Z) : result Z :=
  match fuel with
  | O => NoFuel
  | Datatypes.S fuel =>
      t ← array_get data top; m ← array_get data mid; b ← array_get data bot;
      if dle w (worth t) then Ok top
      else if deq w (worth m) then Ok mid
      else if deq w (worth b) then Ok bot
      else if bot - top <=? 1 then Ok bot
      else if dlt w (worth m) then spread_search fuel data w top (top + Z.quot (mid - top) 2) mid
      else spread_search fuel data w mid (mid + Z.quot (bot - mid) 2) bot
  end.
Fixpoint move_down (data : list Chromosome) (swap_chromo : Chromosome) (ixs : list Z)
    : result (list Chromosome) :=
  match ixs with
  | [] => Ok data
  | i :: ixs =>
      tmp_chromo ← array_get data i;
      data ← array_set data i swap_chromo;
      move_down data tmp_chromo ixs
  end.
Definition spread_chromo (chromo : Chromosome) (pool : Pool) : result Pool :=
  last ← array_get (data pool) (size pool - 1);
  if dgt (worth chromo) (worth last) then Ok pool
  else
    index ← spread_search (Datatypes.S (Z.to_nat (size pool))) (data pool) (worth chromo)
              0 (Z.quot (size pool) 2) (size pool - 1);
    swap_chromo ← geqo_copy last chromo (string_length pool);
    data' ← array_set (data pool) (size pool - 1) swap_chromo;
    data' ← move_down data' swap_chromo (seqZ index (size pool - index));
    Ok {| data := data'; size := size pool; string_length := string_length pool |}.

Section Eval.
Context {Root Rel : Type} {planner : JoinPlanner Root Rel}.
Implicit Types (root : Root).

Definition desirable_join root (outer_rel inner_rel : Rel) : result bool :=
  clause ← have_relevant_joinclause root outer_rel inner_rel;
  if (clause : bool) then Ok true else have_join_order_restriction root outer_rel inner_rel.

(** The join of two clumps' relations, ready for use. *)
Definition join_clumps root (outer_rel inner_rel : Rel) : result (option Rel * Root) :=
  '(joined, root) ← make_join_rel root outer_rel inner_rel;
  match joined with
  | Some r => root ← finish_join_rel root r; Ok (Some r, root)
  | None => Ok (None, root)
  end.
(** The first clump that [new_clump] can join to: the list without it, and the merged clump. *)
Fixpoint find_clump root (pre clumps : list (Clump Rel)) (new_clump : Clump Rel) (force : bool)
    : result (option (list (Clump Rel) * Clump Rel) * Root) :=
  match clumps with
  | [] => Ok (None, root)
  | old_clump :: rest =>
      wanted ← (if force then Ok true else desirable_join root (joinrel old_clump) (joinrel new_clump));
      if (wanted : bool) then
        '(joined, root) ← join_clumps root (joinrel old_clump) (joinrel new_clump);
        match joined with
        | Some r =>
            Ok (Some (pre ++ rest, {| joinrel := r; clump_size := clump_size old_clump + clump_size new_clump |}), root)
        | None => find_clump root (pre ++ [old_clump]) rest new_clump force
        end
      else find_clump root (pre ++ [old_clump]) rest new_clump force
  end.
Fixpoint insert_clump (clumps : list (Clump Rel)) (new_clump : Clump Rel) : list (Clump Rel) :=
  match clumps with
  | [] => [new_clump]
  | old_clump :: rest =>
      if clump_size old_clump <? clump_size new_clump then new_clump :: clumps
      else old_clump :: insert_clump rest new_clump
  end.
(** The recursion of [merge_clump] removes a clump at each step: the length of the list is enough
    [fuel]. *)
Fixpoint merge_clump_rec (fuel : nat) root (clumps : list (Clump Rel)) (new_clump : Clump Rel) (force : bool)
    : result (list (Clump Rel) * Root) :=
  '(found, root) ← find_clump root [] clumps new_clump force;
  match found with
  | Some (rest, merged) =>
      match fuel with O => NoFuel | Datatypes.S fuel => merge_clump_rec fuel root rest merged force end
  | None =>
      Ok (if (match clumps with [] => true | _ => false end) || (clump_size new_clump =? 1)
          then clumps ++ [new_clump]
          else insert_clump clumps new_clump, root)
  end.
Definition merge_clump root (clumps : list (Clump Rel)) (new_clump : Clump Rel) (force : bool)
    : result (list (Clump Rel) * Root) := merge_clump_rec (length clumps) root clumps new_clump force.

Fixpoint clump_tour root (initial_rels : list Rel) (clumps : list (Clump Rel)) (tour : list Gene) (ixs : list Z)
    : result (list (Clump Rel) * Root) :=
  match ixs with
  | [] => Ok (clumps, root)
  | rel_count :: ixs =>
      cur_rel_index ← array_get tour rel_count;
      cur_rel ← array_get initial_rels (cur_rel_index - 1);
      '(clumps, root) ← merge_clump root clumps {| joinrel := cur_rel; clump_size := 1 |} false;
      clump_tour root initial_rels clumps tour ixs
  end.
Fixpoint force_clumps root (fclumps clumps : list (Clump Rel)) : result (list (Clump Rel) * Root) :=
  match clumps with
  | [] => Ok (fclumps, root)
  | clump :: clumps =>
      '(fclumps, root) ← merge_clump root fclumps clump true;
      force_clumps root fclumps clumps
  end.
Definition gimme_tree root (initial_rels : list Rel) (tour : list Gene) (num_gene : Z) : result (option Rel * Root) :=
  '(clumps, root) ← clump_tour root initial_rels [] tour (seqZ 0 num_gene);
  '(clumps, root) ← (if 1 <? Z.of_nat (length clumps) then force_clumps root [] clumps else Ok (clumps, root));
  Ok (match clumps with [clump] => Some (joinrel clump) | _ => None end, root).

Definition geqo_eval root (initial_rels : list Rel) (tour : list Gene) (num_gene : Z) : result (double * Root) :=
  let mycontext := root in
  let savelength := length (root_joins root) in
  let savehash := root_hash root in
  if levels_in_use root then Error assert_msg else
  let root := set_root_hash root None in
  '(joinrel, root) ← gimme_tree root initial_rels tour num_gene;
  let fitness := match joinrel with Some r => cheapest_total_cost root r | None => DBL_MAX end in
  let root := set_root_joins root (take savelength (root_joins root)) in
  let root := set_root_hash root savehash in
  Ok (fitness, delete_context mycontext root).

(** ** The rest of [geqo_pool.c]: [random_init_pool] *)
Fixpoint init_pool_loop (fuel : nat) root (initial_rels : list Rel) (pool : Pool) (i bad : Z) rng
    : result (Pool * Root * S) :=
  if size pool <=? i then Ok (pool, root, rng) else
  match fuel with
  | O => NoFuel
  | Datatypes.S fuel =>
      chromo ← array_get (data pool) i;
      '(tour, rng) ← init_tour (string chromo) (string_length pool) rng;
      '(w, root) ← geqo_eval root initial_rels tour (string_length pool);
      data' ← array_set (data pool) i {| string := tour; worth := w |};
      let pool := {| data := data'; size := size pool; string_length := string_length pool |} in
      if dlt w DBL_MAX then init_pool_loop fuel root initial_rels pool (i + 1) bad rng
      else let bad := bad + 1 in
           if (i =? 0) && (10000 <=? bad) then Error no_plan_msg
           else init_pool_loop fuel root initial_rels pool i bad rng
  end.
Definition random_init_pool (fuel : nat) root (initial_rels : list Rel) (pool : Pool) rng : result (Pool * Root * S) :=
  init_pool_loop fuel root initial_rels pool 0 0 rng.

(** ** [geqo_main.c] *)
Record GeqoSettings := {
  Geqo_effort : Z; Geqo_pool_size : Z; Geqo_generations : Z; Geqo_selection_bias : double
}.
(** [pow(2.0, nr_rel + 1.0)] is a power of two (or infinity); it is compared with integers below
    [2 ^ 10]. *)
Definition gimme_pool_size (g : GeqoSettings) (nr_rel : Z) : Z :=
  if 2 <=? Geqo_pool_size g then Geqo_pool_size g else
  let size := 2 ^ (nr_rel + 1) in
  let maxsize := 50 * Geqo_effort g in
  if maxsize <? size then maxsize else
  let minsize := 10 * Geqo_effort g in
  if size <? minsize then minsize else size.
Definition gimme_number_generations (g : GeqoSettings) (pool_size : Z) : Z :=
  if 0 <? Geqo_generations g then Geqo_generations g else pool_size.

(** The main loop keeps the two parent chromosomes, of which [momma] is also the kid, the edge
    table and the pool.  [tried], which the code does not have, records the evaluated kids. *)
Record GeqoState := {
  momma : Chromosome; daddy : Chromosome; edge_table : list Edge; pool : Pool; tried : list Chromosome
}.
Definition generation (fuel : nat) root (initial_rels : list Rel) (bias : double) (st : GeqoState) rng
    : result (GeqoState * Root * S) :=
  '(momma, daddy, rng) ← geqo_selection fuel (momma st) (daddy st) (pool st) bias rng;
  let n := string_length (pool st) in
  '(_, edge_table) ← gimme_edge_table (string momma) (string daddy) n (edge_table st);
  '(_, edge_table, tour, rng) ← gimme_tour edge_table (string momma) n rng;
  '(w, root) ← geqo_eval root initial_rels tour n;
  let kid := {| string := tour; worth := w |} in
  pool ← spread_chromo kid (pool st);
  Ok ({| momma := kid; daddy := daddy; edge_table := edge_table; pool := pool; tried := tried st ++ [kid] |}, root, rng).
Fixpoint generations (n : nat) (fuel : nat) root (initial_rels : list Rel) (bias : double) (st : GeqoState) rng
    : result (GeqoState * Root * S) :=
  match n with
  | O => Ok (st, root, rng)
  | Datatypes.S n =>
      '(st, root, rng) ← generation fuel root initial_rels bias st rng;
      generations n fuel root initial_rels bias st rng
  end.

(** The arrays come from [alloc_pool], [alloc_chromo] and [alloc_edge_table] with arbitrary contents;
    [fresh_pool], [fresh_momma] and so on are that memory. *)
Definition geqo `{QSort Chromosome} (fuel : nat) (g : GeqoSettings) root (number_of_rels : Z) (initial_rels : list Rel)
    (fresh_pool : list Chromosome) (fresh_momma fresh_daddy : Chromosome) (fresh_edges : list Edge) rng
    : result (Rel * Root * GeqoState * S) :=
  let pool_size := gimme_pool_size g number_of_rels in
  let number_generations := gimme_number_generations g pool_size in
  let initial := {| data := fresh_pool; size := pool_size; string_length := number_of_rels |} in
  '(initial, root, rng) ← random_init_pool fuel root initial_rels initial rng;
  let initial := sort_pool initial in
  '(st, root, rng) ← generations (Z.to_nat number_generations) fuel root initial_rels (Geqo_selection_bias g)
                 {| momma := fresh_momma; daddy := fresh_daddy; edge_table := fresh_edges; pool := initial;
                    tried := data initial |} rng;
  best ← array_get (data (pool st)) 0;
  '(best_rel, root) ← gimme_tree root initial_rels (string best) number_of_rels;
  match best_rel with
  | Some r => Ok (r, root, st, rng)
  | None => Error no_plan_msg
  end.
End Eval.
End Randomized.

(** What the allocators promise about the memory they return; entry 0 of an edge table is not used. *)
Definition alloc_chromo (string_length : Z) (c : Chromosome) : Prop :=
  length (string c) = Z.to_nat (string_length + 1).
Definition alloc_pool (pool_size string_length : Z) (data : list Chromosome) : Prop :=
  length data = Z.to_nat pool_size /\ Forall (alloc_chromo string_length) data.
Definition alloc_edge_table (num_gene : Z) (edge_table : list Edge) : Prop :=
  length edge_table = Z.to_nat (num_gene + 1) /\
  forall (i : nat) e, (1 <= i)%nat -> edge_table !! i = Some e -> length (edge_list e) = 4%nat.
