(* ===== verification/GeqoErx.v ===== *)
(** * Edge recombination yields tours

    The edge table of two tours is a symmetric relation in which every city has at most four
    neighbours, so that no access leaves the four-entry edge lists; [gimme_tour] keeps it symmetric
    on the cities that are not yet placed, never reaches an [elog], and places every city
    exactly once. *)
From S2P Require Import Prelude Float64 Prng Geqo.
#[local] Open Scope Z_scope.

(** ** Tours *)
Definition is_tour (n : Z) (t : list Gene) : Prop := t ≡ₚ seqZ 1 n.

Lemma is_tour_intro n t : NoDup t -> length t = Z.to_nat n -> (forall g, g ∈ t -> 1 <= g <= n) -> is_tour n t.
Proof.
  intros Hnd Hl Hr. apply submseteq_length_Permutation.
  - apply NoDup_submseteq; [done|]. intros g Hg. apply elem_of_seqZ. pose proof (Hr g Hg). lia.
  - rewrite length_seqZ. lia.
Qed.
Lemma is_tour_elim n t : is_tour n t ->
  NoDup t /\ length t = Z.to_nat n /\ (forall g, g ∈ t <-> 1 <= g <= n).
Proof.
  intros Ht. split_and!.
  - rewrite Ht. apply NoDup_seqZ.
  - rewrite Ht. apply length_seqZ.
  - intros g. rewrite Ht, elem_of_seqZ. lia.
Qed.

(** ** The neighbours that an edge records *)
Definition nb (e : Edge) : list Gene := Z.abs <$> take (Z.to_nat (unused_edges e)) (edge_list e).
Definition NB (tbl : list Edge) (c : Gene) : list Gene := from_option nb [] (tbl !! Z.to_nat c).

Record edge_ok (n : Z) (c : Gene) (e : Edge) : Prop := {
  eo_four : length (edge_list e) = 4%nat;
  eo_unused : -1 <= unused_edges e <= 4;
  eo_nodup : NoDup (nb e);
  eo_range : forall d, d ∈ nb e -> 1 <= d <= n /\ d <> c
}.
Record table_ok (n : Z) (tbl : list Edge) : Prop := {
  to_length : length tbl = Z.to_nat (n + 1);
  to_edges : forall c e, 1 <= c <= n -> tbl !! Z.to_nat c = Some e -> edge_ok n c e
}.

Lemma table_get n tbl c : table_ok n tbl -> 1 <= c <= n ->
  exists e, tbl !! Z.to_nat c = Some e /\ array_get tbl c = Ok e /\ edge_ok n c e /\ NB tbl c = nb e.
Proof.
  intros [Hl He] Hc. destruct (lookup_lt_is_Some_2 tbl (Z.to_nat c)) as [e E]; [lia|].
  exists e. split_and!; [done|apply array_get_Z; [lia|done]|by apply He|]. unfold NB. by rewrite E.
Qed.

Lemma table_set n tbl c e : table_ok n tbl -> 1 <= c <= n -> edge_ok n c e ->
  array_set tbl c e = Ok (<[Z.to_nat c := e]> tbl) /\ table_ok n (<[Z.to_nat c := e]> tbl) /\
  (forall d, 0 <= d -> NB (<[Z.to_nat c := e]> tbl) d = if d =? c then nb e else NB tbl d).
Proof.
  intros [Hl He] Hc Hok. split_and!.
  - apply array_set_Z. lia.
  - constructor; [by rewrite length_insert|]. intros d e' Hd E.
    apply list_lookup_insert_Some in E as [(E1 & <- & _)|[_ E]]; [|by apply He].
    by replace d with c by lia.
  - intros d Hd. unfold NB. destruct (Z.eqb_spec d c) as [->|].
    + rewrite list_lookup_insert_eq by lia. done.
    + rewrite list_lookup_insert_ne by lia. done.
Qed.

(** ** Searching an edge list *)
Lemma find_city_spec l city k : (k <= length l)%nat -> forall j, (j <= k)%nat ->
  (forall i e, (i < j)%nat -> l !! i = Some e -> Z.abs e <> city) ->
  match find_city l city (seqZ (Z.of_nat j) (Z.of_nat (k - j))) with
  | Ok (Some i) => exists (i' : nat) e, i = Z.of_nat i' /\ (i' < k)%nat /\ l !! i' = Some e /\ Z.abs e = city
  | Ok None => city ∉ Z.abs <$> take k l
  | _ => False
  end.
Proof.
  intros Hk j Hj. induction (k - j)%nat as [|m IH] eqn:Em in j, Hj |- *; intros Hno.
  - rewrite seqZ_nil by lia. cbn. intros (e & -> & He)%list_elem_of_fmap.
    apply list_elem_of_lookup in He as [i Hi]. apply lookup_take_Some in Hi as [Hi Hik].
    apply (Hno i e); [lia|done..].
  - rewrite seqZ_cons by lia. cbn. destruct (lookup_lt_is_Some_2 l j) as [e E]; [lia|].
    rewrite (array_get_ok _ _ _ E). cbn. destruct (Z.eqb_spec (Z.abs e) city) as [Hc|Hc].
    + exists j, e. split_and!; [done|lia|done..].
    + replace (Z.succ (Z.of_nat j)) with (Z.of_nat (S j)) by lia.
      replace (Z.pred (Z.of_nat (S m))) with (Z.of_nat m) by lia. apply IH; [lia|lia|].
      intros i e' Hi Hl. destruct (decide (i = j)) as [->|]; [naive_solver|]. apply (Hno i); [lia|done].
Qed.

Lemma find_city_ok l city m : 0 <= m <= Z.of_nat (length l) ->
  match find_city l city (seqZ 0 m) with
  | Ok (Some i) => exists (i' : nat) e, i = Z.of_nat i' /\ (i' < Z.to_nat m)%nat /\ l !! i' = Some e /\ Z.abs e = city
  | Ok None => city ∉ Z.abs <$> take (Z.to_nat m) l
  | _ => False
  end.
Proof.
  intros Hm. pose proof (find_city_spec l city (Z.to_nat m) ltac:(lia) 0 ltac:(lia)) as H.
  rewrite Nat.sub_0_r, Z2Nat.id in H by lia. apply H. intros; lia.
Qed.

Lemma length_nb e : length (edge_list e) = 4%nat -> 0 <= unused_edges e <= 4 ->
  length (nb e) = Z.to_nat (unused_edges e).
Proof. intros Hl Hu. unfold nb. rewrite length_fmap, length_take. lia. Qed.

(** ** Building the edge table *)
Section Build.
Context (n : Z) (E : Gene -> Gene -> Prop).
Hypothesis E_range : forall c d, E c d -> 1 <= c <= n /\ 1 <= d <= n /\ c <> d.
Hypothesis E_degree : forall c l, 1 <= c <= n -> NoDup l -> (forall d, d ∈ l -> E c d) -> (length l <= 4)%nat.

Record built (tbl : list Edge) : Prop := {
  bu_table : table_ok n tbl;
  bu_total : forall c e, 1 <= c <= n -> tbl !! Z.to_nat c = Some e ->
    total_edges e = unused_edges e /\ 0 <= unused_edges e;
  bu_edges : forall c d, 1 <= c <= n -> d ∈ NB tbl c -> E c d
}.

(** Replacing the entry of [c] by one with the neighbours it had and [d]. *)
Lemma built_set tbl c d e : built tbl -> E c d -> edge_ok n c e ->
  total_edges e = unused_edges e -> 0 <= unused_edges e ->
  (forall y, y ∈ nb e <-> y ∈ NB tbl c \/ y = d) ->
  exists tbl', array_set tbl c e = Ok tbl' /\ built tbl' /\
    forall x y, 0 <= x -> y ∈ NB tbl' x <-> y ∈ NB tbl x \/ x = c /\ y = d.
Proof.
  intros [Ht Htot Hed] HE He Htu Hu Hnb. destruct (E_range _ _ HE) as (Hc & Hd & _).
  destruct (table_set n tbl c e Ht Hc He) as (-> & Ht' & Hnb'). eexists. split; [done|].
  assert (forall x y, 0 <= x -> y ∈ NB (<[Z.to_nat c:=e]> tbl) x <-> y ∈ NB tbl x \/ x = c /\ y = d) as Hx.
  { intros x y Hx. rewrite Hnb' by done. destruct (Z.eqb_spec x c) as [->|]; [rewrite Hnb|]; tauto. }
  split; [|done]. split; [done| |].
  - intros x e' Hx' E'. apply list_lookup_insert_Some in E' as [(_ & <- & _)|[_ E']]; [done|].
    by apply (Htot x).
  - intros x y Hx' [Hy|[-> ->]]%Hx; [by apply Hed|done|lia].
Qed.

Lemma gimme_edge_ok c d tbl : built tbl -> E c d ->
  exists a tbl', gimme_edge c d tbl = Ok (a, tbl') /\ built tbl' /\
    forall x y, 0 <= x -> y ∈ NB tbl' x <-> y ∈ NB tbl x \/ x = c /\ y = d.
Proof.
  intros Hb HE. destruct (E_range _ _ HE) as (Hc & Hd & Hcd). pose proof Hb as [Ht Htot Hed].
  destruct (table_get n tbl c Ht Hc) as (e & He & Hget & [Hfour Hun Hnd Hrange] & Hnb).
  destruct (Htot _ _ Hc He) as [Htu Hu]. unfold gimme_edge. rewrite Hget. cbn [mbind result_bind].
  pose proof (find_city_ok (edge_list e) d (total_edges e)) as Hf. rewrite Hfour in Hf. specialize (Hf ltac:(lia)).
  destruct (find_city _ _ _) as [[i|]| |]; [| |done..]; cbn [mbind result_bind].
  - destruct Hf as (i' & x & -> & Hi & Hx & Habs). rewrite Htu in Hi.
    rewrite array_set_ok by lia. cbn [mbind result_bind].
    set (e' := {| edge_list := _; total_edges := _; unused_edges := _ |}).
    assert (nb e' = nb e) as Hsame.
    { unfold nb, e'. cbn. rewrite take_insert_lt, list_fmap_insert by lia. apply list_insert_id.
      rewrite list_lookup_fmap, lookup_take_lt, Hx by lia. cbn. f_equal. lia. }
    destruct (built_set tbl c d e') as (tbl' & -> & Hb' & Hx'); [done|done| |done|done| |].
    + split; [by cbn; rewrite length_insert|done|by rewrite Hsame|by rewrite Hsame].
    + intros y. rewrite Hsame, Hnb. split; [tauto|]. intros [?| ->]; [done|].
      unfold nb. rewrite <- Habs. apply list_elem_of_fmap_2, list_elem_of_lookup_2 with i'.
      by rewrite lookup_take_lt by lia.
    + by exists 0, tbl'.
  - rewrite Htu in Hf. fold (nb e) in Hf.
    assert (length (d :: nb e) <= 4)%nat as Hlen.
    { apply (E_degree c); [done|by constructor|]. intros y [->|Hy]%elem_of_cons; [done|].
      apply Hed; [done|]. by rewrite Hnb. }
    cbn in Hlen. rewrite length_nb in Hlen by (done || lia). rewrite array_set_Z by lia. cbn [mbind result_bind].
    set (e' := {| edge_list := _; total_edges := _; unused_edges := _ |}).
    assert (nb e' = nb e ++ [d]) as Hnew.
    { unfold nb, e'. cbn. rewrite Htu. replace (Z.to_nat (unused_edges e + 1)) with (S (Z.to_nat (unused_edges e))) by lia.
      rewrite (take_S_r _ _ d) by (apply list_lookup_insert_eq; lia).
      rewrite take_insert_ge, fmap_app by lia. cbn. do 2 f_equal. lia. }
    destruct (built_set tbl c d e') as (tbl' & -> & Hb' & Hx'); [done|done| |cbn; lia|cbn; lia| |].
    + split; [by cbn; rewrite length_insert|cbn; lia| |].
      * rewrite Hnew. apply NoDup_app. split_and!; [done|by intros y Hy Hd1%list_elem_of_singleton; subst y|apply NoDup_singleton].
      * rewrite Hnew. intros y [Hy|Hy%list_elem_of_singleton]%elem_of_app; [by apply Hrange|]. subst y. lia.
    + intros y. rewrite Hnew, Hnb, elem_of_app, list_elem_of_singleton. done.
    + by exists 1, tbl'.
Qed.

Definition symmetric_nb (tbl : list Edge) : Prop :=
  forall c d, 1 <= c <= n -> 1 <= d <= n -> d ∈ NB tbl c -> c ∈ NB tbl d.

Context (E_sym : forall c d, E c d -> E d c).

Lemma tour_edge_ok tour (i j : nat) c d tbl : tour !! i = Some c -> tour !! j = Some d -> E c d ->
  built tbl -> symmetric_nb tbl ->
  exists a tbl', tour_edge tour (Z.of_nat i) (Z.of_nat j) tbl = Ok (a, tbl') /\ built tbl' /\ symmetric_nb tbl' /\
    forall x y, 0 <= x -> y ∈ NB tbl x \/ x = c /\ y = d -> y ∈ NB tbl' x.
Proof.
  intros Hi Hj HE Hb Hs. unfold tour_edge. rewrite (array_get_ok _ _ _ Hi), (array_get_ok _ _ _ Hj). cbn [mbind result_bind].
  destruct (gimme_edge_ok c d tbl Hb HE) as (a1 & t1 & -> & Hb1 & H1). cbn [mbind result_bind].
  destruct (gimme_edge_ok d c t1 Hb1 (E_sym _ _ HE)) as (a2 & t2 & -> & Hb2 & H2). cbn [mbind result_bind].
  exists a1, t2. split_and!; [done|done| |].
  - intros x y Hx Hy. rewrite !H2, !H1 by lia.
    intros [[Hxy|[-> ->]]|[-> ->]]; [|tauto..]. left; left. by apply Hs.
  - intros x y Hx Hxy. rewrite H2, H1 by done. by left.
Qed.
End Build.

(** Two cities that are next to each other in the first [N] genes of a tour taken as a circle. *)
Definition adjacent (N : nat) (t : list Gene) (c d : Gene) : Prop :=
  exists i, (i < N)%nat /\
    (t !! i = Some c /\ t !! ((i + 1) mod N)%nat = Some d \/ t !! i = Some d /\ t !! ((i + 1) mod N)%nat = Some c).

Lemma adjacent_sym N t c d : adjacent N t c d -> adjacent N t d c.
Proof. intros (i & Hi & H). exists i. tauto. Qed.

Section Adjacent.
Context (n : Z) (t : list Gene) (Hn : 2 <= n) (Ht : is_tour n (take (Z.to_nat n) t)).
Let N := Z.to_nat n.

Lemma tour_lookup i c : (i < N)%nat -> t !! i = Some c -> take N t !! i = Some c.
Proof. intros Hi Hc. by rewrite lookup_take_lt. Qed.
Lemma tour_inj i j c : (i < N)%nat -> (j < N)%nat -> t !! i = Some c -> t !! j = Some c -> i = j.
Proof.
  intros Hi Hj H1%tour_lookup H2%tour_lookup; [|done..]. apply is_tour_elim in Ht as (Hnd & _).
  by eapply NoDup_lookup.
Qed.
Lemma tour_range i c : (i < N)%nat -> t !! i = Some c -> 1 <= c <= n.
Proof.
  intros Hi H%tour_lookup; [|done]. apply is_tour_elim in Ht as (_ & _ & Hr).
  by apply Hr, list_elem_of_lookup_2 with i.
Qed.
Lemma tour_get i : (i < N)%nat -> exists c, t !! i = Some c /\ 1 <= c <= n.
Proof.
  intros Hi. pose proof (is_tour_elim _ _ Ht) as (_ & Hl & _).
  destruct (lookup_lt_is_Some_2 (take N t) i) as [c Hc]; [unfold N; lia|].
  rewrite lookup_take_lt in Hc by done. exists c. split; [done|]. by apply (tour_range i).
Qed.
Lemma succ_mod i : (i < N)%nat -> ((i + 1) mod N < N)%nat /\ ((i + 1) mod N <> i)%nat.
Proof.
  intros Hi. assert (2 <= N)%nat by (unfold N; lia). split; [apply Nat.mod_upper_bound; lia|].
  destruct (decide (i + 1 = N)%nat) as [Ei|]; [rewrite Ei, Nat.Div0.mod_same; lia|]. rewrite Nat.mod_small; lia.
Qed.

Lemma succ_mod_inj i j : (i < N)%nat -> (j < N)%nat -> ((i + 1) mod N = (j + 1) mod N)%nat -> i = j.
Proof.
  intros Hi Hj. destruct (decide (i + 1 = N)%nat) as [Ei|], (decide (j + 1 = N)%nat) as [Ej|];
    rewrite ?Ei, ?Ej, ?Nat.Div0.mod_same, ?(Nat.mod_small (i + 1)), ?(Nat.mod_small (j + 1)) by lia; lia.
Qed.

Lemma adjacent_range c d : adjacent N t c d -> 1 <= c <= n /\ 1 <= d <= n /\ c <> d.
Proof.
  intros (i & Hi & H). destruct (succ_mod i Hi) as [Hj Hij].
  assert (forall x y, t !! i = Some x -> t !! ((i + 1) mod N)%nat = Some y -> 1 <= x <= n /\ 1 <= y <= n /\ x <> y) as Hxy.
  { intros x y Hx Hy. split_and!; [by apply (tour_range i)..|by eapply (tour_range _ _ Hj)|by eapply (tour_range _ _ Hj)|].
    intros ->. apply Hij. by apply (tour_inj _ _ y). }
  destruct H as [[H1 H2]|[H1 H2]]; pose proof (Hxy _ _ H1 H2); lia.
Qed.

Lemma adjacent_two c : 1 <= c <= n ->
  exists l, (length l <= 2)%nat /\ forall d, adjacent N t c d -> d ∈ l.
Proof.
  intros Hc. pose proof (is_tour_elim _ _ Ht) as (_ & Hl & Hr). apply Hr in Hc.
  apply list_elem_of_lookup in Hc as [p Hp]. apply lookup_take_Some in Hp as [Hp Hlt]. fold N in Hlt.
  destruct (succ_mod p Hlt) as [Hs _]. destruct (tour_get _ Hs) as (a & Ha & _).
  assert (exists q, (q < N)%nat /\ ((q + 1) mod N = p)%nat) as (q & Hq & Eq).
  { destruct p as [|p]; [exists (N - 1)%nat|exists p]; (split; [lia|]).
    - replace (N - 1 + 1)%nat with N by lia. apply Nat.Div0.mod_same.
    - rewrite Nat.mod_small; lia. }
  destruct (tour_get _ Hq) as (b & Hb & _). exists [a; b]. split; [done|]. intros d (i & Hi & [[H1 H2]|[H1 H2]]).
  - rewrite (tour_inj i p c) in H2 by done. rewrite Ha in H2. injection H2 as <-. by left.
  - destruct (succ_mod i Hi) as [Hsi _]. pose proof (tour_inj _ _ c Hsi Hlt H2 Hp) as Hip.
    rewrite <- Eq in Hip. apply succ_mod_inj in Hip as ->; [|done..].
    rewrite Hb in H1. injection H1 as <-. right. by left.
Qed.
End Adjacent.

(** ** The edge table of two tours *)
Section EdgeTable.
Context (n : Z) (t1 t2 : list Gene) (Hn : 2 <= n).
Context (Ht1 : is_tour n (take (Z.to_nat n) t1)) (Ht2 : is_tour n (take (Z.to_nat n) t2)).
Let N := Z.to_nat n.
Definition E c d : Prop := adjacent N t1 c d \/ adjacent N t2 c d.

Lemma E_range c d : E c d -> 1 <= c <= n /\ 1 <= d <= n /\ c <> d.
Proof. intros [H|H]; eapply adjacent_range in H; done. Qed.
Lemma E_sym c d : E c d -> E d c.
Proof. intros [H|H]; [left|right]; by apply adjacent_sym. Qed.
Lemma E_degree c l : 1 <= c <= n -> NoDup l -> (forall d, d ∈ l -> E c d) -> (length l <= 4)%nat.
Proof.
  intros Hc Hnd Hl. destruct (adjacent_two n t1 Hn Ht1 c Hc) as (l1 & L1 & H1).
  destruct (adjacent_two n t2 Hn Ht2 c Hc) as (l2 & L2 & H2).
  assert (l ⊆+ l1 ++ l2) as Hs.
  { apply NoDup_submseteq; [done|]. intros d Hd. apply elem_of_app.
    destruct (Hl d Hd) as [H|H]; [left; by apply H1|right; by apply H2]. }
  apply submseteq_length in Hs. rewrite length_app in Hs. lia.
Qed.

(** The positions from [k] on are in the table. *)
Definition recorded_from (k : nat) (tbl : list Edge) : Prop :=
  forall i c d, (k <= i < N)%nat ->
    t1 !! i = Some c /\ t1 !! ((i + 1) mod N)%nat = Some d \/ t2 !! i = Some c /\ t2 !! ((i + 1) mod N)%nat = Some d ->
    d ∈ NB tbl c.

Lemma fill_edges_ok k total tbl : (k <= N)%nat -> built n E tbl -> symmetric_nb n tbl ->
  exists a tbl', fill_edges t1 t2 n total tbl (seqZ (Z.of_nat k) (n - Z.of_nat k)) = Ok (a, tbl') /\
    built n E tbl' /\ symmetric_nb n tbl' /\ recorded_from k tbl' /\
    forall x y, 0 <= x -> y ∈ NB tbl x -> y ∈ NB tbl' x.
Proof.
  intros Hk. induction (N - k)%nat as [|m IH] eqn:Em in k, Hk, total, tbl |- *; intros Hb Hs.
  - rewrite seqZ_nil by lia. exists total, tbl. split_and!; [done..| |done]. intros i c d Hi. lia.
  - rewrite seqZ_cons by lia. cbn [fill_edges]. assert (k < N)%nat as Hlt by lia.
    replace ((Z.of_nat k + 1) mod n) with (Z.of_nat ((k + 1) mod Z.to_nat n)%nat)
      by (rewrite Nat2Z.inj_mod, Z2Nat.id by lia; f_equal; lia).
    destruct (succ_mod n Hn k Hlt) as [Hj _].
    destruct (tour_get n t1 Hn Ht1 k Hlt) as (c1 & Hc1 & R1), (tour_get n t1 Hn Ht1 _ Hj) as (d1 & Hd1 & _).
    destruct (tour_get n t2 Hn Ht2 k Hlt) as (c2 & Hc2 & R2), (tour_get n t2 Hn Ht2 _ Hj) as (d2 & Hd2 & _).
    destruct (tour_edge_ok n E E_range E_degree E_sym t1 _ _ _ _ tbl Hc1 Hd1) as (a1 & tb1 & -> & Hb1 & Hs1 & M1);
      [left; exists k; auto|done..|]. cbn [mbind result_bind].
    destruct (tour_edge_ok n E E_range E_degree E_sym t2 _ _ _ _ tb1 Hc2 Hd2) as (a2 & tb2 & -> & Hb2 & Hs2 & M2);
      [right; exists k; auto|done..|]. cbn [mbind result_bind].
    replace (Z.succ (Z.of_nat k)) with (Z.of_nat (S k)) by lia.
    replace (Z.pred (n - Z.of_nat k)) with (n - Z.of_nat (S k)) by lia.
    destruct (IH (S k) (total + a1 + a2) tb2) as (a & tb & -> & Hb3 & Hs3 & Hr & M3); [lia|lia|done..|].
    exists a, tb. split_and!; [done..| |intros x y Hx Hy; apply M3, M2; auto].
    intros i c d Hi Hcd. destruct (decide (i = k)) as [->|]; [|apply (Hr i); [lia|done]].
    fold N in Hd1, Hd2. rewrite Hc1, Hd1, Hc2, Hd2 in Hcd.
    destruct Hcd as [[[= <-] [= <-]]|[[= <-] [= <-]]]; apply M3, M2; auto with lia. 
Qed.

Lemma clear_edges_ok k tbl : (k <= N)%nat -> alloc_edge_table n tbl ->
  (forall c e, (1 <= c <= k)%nat -> tbl !! c = Some e -> total_edges e = 0 /\ unused_edges e = 0) ->
  exists tbl', clear_edges tbl (seqZ (Z.of_nat k + 1) (n - Z.of_nat k)) = Ok tbl' /\ alloc_edge_table n tbl' /\
    (forall c e, (1 <= c <= N)%nat -> tbl' !! c = Some e -> total_edges e = 0 /\ unused_edges e = 0).
Proof.
  intros Hk. induction (N - k)%nat as [|m IH] eqn:Em in k, Hk, tbl |- *; intros [Hl Hf] Hz.
  - rewrite seqZ_nil by lia. exists tbl. split_and!; [done..|]. intros c e Hc. apply Hz. lia.
  - rewrite seqZ_cons by lia. cbn [clear_edges]. destruct (lookup_lt_is_Some_2 tbl (S k)) as [e He]; [lia|].
    replace (Z.of_nat k + 1) with (Z.of_nat (S k)) by lia.
    rewrite (array_get_ok _ _ _ He). cbn [mbind result_bind]. rewrite array_set_ok by lia. cbn [mbind result_bind].
    replace (Z.succ (Z.of_nat (S k))) with (Z.of_nat (S k) + 1) by lia.
    replace (Z.pred (n - Z.of_nat k)) with (n - Z.of_nat (S k)) by lia. apply IH; [lia|lia| |].
    + split; [by rewrite length_insert|]. intros c e' Hc. rewrite list_lookup_insert_Some.
      intros [(<- & <- & _)|[_ E']]; [by apply (Hf (S k) e)|by apply (Hf c)].
    + intros c e' Hc. rewrite list_lookup_insert_Some. intros [(_ & <- & _)|[? E']]; [done|]. apply (Hz c); [lia|done].
Qed.

Lemma cleared_built tbl : alloc_edge_table n tbl ->
  (forall c e, (1 <= c <= N)%nat -> tbl !! c = Some e -> total_edges e = 0 /\ unused_edges e = 0) ->
  built n E tbl /\ symmetric_nb n tbl.
Proof.
  intros [Hl Hf] Hz.
  assert (forall c, 1 <= c <= n -> NB tbl c = []) as Hnb.
  { intros c Hc. unfold NB. destruct (tbl !! Z.to_nat c) as [e|] eqn:Ee; [|done].
    destruct (Hz (Z.to_nat c) e ltac:(lia) Ee) as [_ H]. cbn. unfold nb. by rewrite H. }
  split; [split|].
  - split; [done|]. intros c e Hc Ee. destruct (Hz (Z.to_nat c) e ltac:(lia) Ee) as [_ H].
    assert (nb e = []) as Hn0 by (unfold nb; by rewrite H).
    split; [apply (Hf (Z.to_nat c)); [lia|done]|lia|rewrite Hn0; constructor|].
    rewrite Hn0. by intros d ?%elem_of_nil.
  - intros c e Hc Ee. destruct (Hz (Z.to_nat c) e ltac:(lia) Ee). lia.
  - intros c d Hc. rewrite Hnb by done. by intros ?%elem_of_nil.
  - intros c d Hc _. rewrite Hnb by done. by intros ?%elem_of_nil.
Qed.

(** The edge table holds the edges of the two tours, and no others. *)
Lemma gimme_edge_table_ok tbl : alloc_edge_table n tbl ->
  exists a tbl', gimme_edge_table t1 t2 n tbl = Ok (a, tbl') /\ built n E tbl' /\ symmetric_nb n tbl' /\
    forall c d, 1 <= c <= n -> d ∈ NB tbl' c <-> E c d.
Proof.
  intros Ha. unfold gimme_edge_table.
  destruct (clear_edges_ok 0 tbl) as (tb & Hc & Ha' & Hz); [lia|done|lia|].
  replace (n - Z.of_nat 0) with n in Hc by lia. change (Z.of_nat 0 + 1) with 1 in Hc. rewrite Hc. cbn [mbind result_bind].
  destruct (cleared_built tb Ha' Hz) as [Hb Hs].
  destruct (fill_edges_ok 0 0 tb ltac:(lia) Hb Hs) as (a & tb' & Hf & Hb' & Hs' & Hr & _).
  replace (n - Z.of_nat 0) with n in Hf by lia. exists a, tb'. split_and!; [done..|].
  intros c d Hcr. split; [by apply (bu_edges _ _ _ Hb')|]. intros HE.
  destruct (E_range _ _ HE) as (_ & Hdr & _).
  destruct HE as [(i & Hi & [H|H])|(i & Hi & [H|H])]; [| |..]; try (apply (Hr i); [lia|tauto]);
    (apply Hs'; [done|done|]; apply (Hr i); [lia|tauto]).
Qed.
End EdgeTable.
