(* ===== verification/GeqoTour.v ===== *)
(** * [gimme_tour] and [init_tour] produce permutations

    See [GeqoErx.v] for the edge table.  While the tour grows, the neighbours that the table records
    are exactly the edges of the parents between cities that are not placed before the current
    one; that relation is symmetric, so removing the current city by walking over its own
    neighbours removes it everywhere. *)
From S2P Require Import Prelude Float64 Prng Geqo GeqoErx.
#[local] Open Scope Z_scope.

Lemma swap_remove {A} (l : list A) i x y : l !! i = Some x -> x :: <[i := y]> l ≡ₚ l ++ [y].
Proof.
  intros Hi. rewrite <- (take_drop_middle l i x Hi) at 2. pose proof (lookup_lt_Some _ _ _ Hi).
  rewrite insert_take_drop by done. rewrite <- app_assoc. cbn.
  rewrite Permutation_middle. apply Permutation_app_head. constructor.
  apply Permutation_cons_append.
Qed.

(** Overwriting the neighbour [g] by the last one and shortening the list removes [g]. *)
Lemma nb_swap_remove e g (i : nat) x last : length (edge_list e) = 4%nat -> 0 <= unused_edges e <= 4 ->
  (i < Z.to_nat (unused_edges e))%nat -> edge_list e !! i = Some x -> Z.abs x = g ->
  edge_list e !! (Z.to_nat (unused_edges e) - 1)%nat = Some last ->
  nb e ≡ₚ g :: nb {| edge_list := <[i := last]> (edge_list e); total_edges := total_edges e;
                     unused_edges := unused_edges e - 1 |}.
Proof.
  intros Hl Hu Hi Hx Hg Hlast. unfold nb. cbn [edge_list unused_edges].
  set (u := Z.to_nat (unused_edges e)) in *.
  replace (Z.to_nat (unused_edges e - 1)) with (u - 1)%nat by lia.
  replace (take u (edge_list e)) with (take (u - 1) (edge_list e) ++ [last])
    by (rewrite <- (take_S_r _ _ _ Hlast); f_equal; lia).
  rewrite fmap_app. cbn. destruct (decide (i = u - 1)%nat) as [->|Hne].
  - rewrite take_insert_ge by lia. assert (x = last) as -> by congruence. rewrite Hg. symmetry.
    apply Permutation_cons_append.
  - rewrite take_insert_lt, list_fmap_insert by lia. symmetry. apply swap_remove.
    rewrite list_lookup_fmap, lookup_take_lt, Hx by lia. cbn. by rewrite Hg.
Qed.

(** What removing [g] from the lists of [R] does to the table. *)
Record removed (n : Z) (g : Gene) (R : list Gene) (tbl tbl' : list Edge) : Prop := {
  rm_table : table_ok n tbl';
  rm_self : tbl' !! Z.to_nat g = tbl !! Z.to_nat g;
  rm_nb : forall c y, 1 <= c <= n -> y ∈ NB tbl' c <-> y ∈ NB tbl c /\ ~ (y = g /\ c ∈ R);
  rm_placed : forall c e', 1 <= c <= n -> tbl' !! Z.to_nat c = Some e' ->
    exists e, tbl !! Z.to_nat c = Some e /\ (unused_edges e' = -1 <-> unused_edges e = -1)
}.

Lemma removed_nil n g tbl : table_ok n tbl -> removed n g [] tbl tbl.
Proof.
  intros Ht. split; [done|done| |eauto]. intros c y Hc. split; [|tauto]. intros Hy.
  split; [done|]. by intros [_ ?%elem_of_nil].
Qed.
Lemma removed_trans n g d R tbl1 tbl2 tbl3 :
  removed n g [d] tbl1 tbl2 -> removed n g R tbl2 tbl3 -> removed n g (d :: R) tbl1 tbl3.
Proof.
  intros [T1 S1 N1 P1] [T2 S2 N2 P2]. split; [done|congruence| |].
  - intros c y Hc. rewrite N2, N1, !elem_of_cons, elem_of_nil by done. tauto.
  - intros c e3 Hc H3. destruct (P2 _ _ Hc H3) as (e2 & H2 & I2). destruct (P1 _ _ Hc H2) as (e1 & H1 & I1).
    exists e1. split; [done|]. tauto.
Qed.

(** One round of [remove_gene]. *)
Lemma remove_round n g d tbl : table_ok n tbl -> 1 <= g <= n -> 1 <= d <= n -> d <> g ->
  exists owner tbl', array_get tbl d = Ok owner /\
    (found ← find_city (edge_list owner) g (seqZ 0 (unused_edges owner));
     match found with
     | None => Ok tbl
     | Some j =>
         last ← array_get (edge_list owner) (unused_edges owner - 1);
         l ← array_set (edge_list owner) j last;
         array_set tbl d {| edge_list := l; total_edges := total_edges owner; unused_edges := unused_edges owner - 1 |}
     end) = Ok tbl' /\ removed n g [d] tbl tbl'.
Proof.
  intros Ht Hg Hd Hdg. destruct (table_get n tbl d Ht Hd) as (e & He & Hget & [Hfour Hun Hnd Hrange] & Hnb).
  exists e. destruct (decide (unused_edges e = -1)) as [Hm|Hm].
  { exists tbl. rewrite Hm. cbn [seqZ find_city mbind result_bind]. split_and!; [done|done|].
    assert (nb e = []) as Hn0 by (unfold nb; rewrite Hm; done). split; [done|done| |eauto].
    intros c y Hc. rewrite list_elem_of_singleton. split; [|tauto]. intros Hy. split; [done|]. intros [-> ->].
    rewrite Hnb, Hn0 in Hy. by apply elem_of_nil in Hy. }
  pose proof (find_city_ok (edge_list e) g (unused_edges e)) as Hf. rewrite Hfour in Hf. specialize (Hf ltac:(lia)).
  destruct (find_city _ _ _) as [[j|]| |]; [| |done..]; cbn [mbind result_bind].
  - destruct Hf as (i & x & -> & Hi & Hx & Habs).
    destruct (lookup_lt_is_Some_2 (edge_list e) (Z.to_nat (unused_edges e) - 1)%nat) as [last Hlast]; [lia|].
    rewrite (array_get_Z _ _ last) by (lia || by replace (Z.to_nat (unused_edges e - 1)) with (Z.to_nat (unused_edges e) - 1)%nat by lia).
    cbn [mbind result_bind]. rewrite array_set_ok by lia. cbn [mbind result_bind].
    pose proof (nb_swap_remove e g i x last Hfour ltac:(lia) Hi Hx Habs Hlast) as Hperm.
    set (e' := {| edge_list := _; total_edges := _; unused_edges := _ |}) in *.
    assert (NoDup (g :: nb e')) as [Hg' Hnd']%NoDup_cons by (by rewrite <- Hperm).
    assert (forall y, y ∈ nb e' <-> y ∈ nb e /\ y <> g) as Hmem.
    { intros y. rewrite Hperm, elem_of_cons. split; [|naive_solver]. intros Hy. split; [tauto|]. by intros ->. }
    assert (edge_ok n d e') as Hok'.
    { split; [by cbn; rewrite length_insert|cbn; lia|done|]. intros y [Hy _]%Hmem. by apply Hrange. }
    destruct (table_set n tbl d e' Ht Hd Hok') as (-> & Ht' & Hnb'). eexists. split_and!; [done|done|]. split.
    + done.
    + apply list_lookup_insert_ne. lia.
    + intros c y Hc. rewrite Hnb', list_elem_of_singleton by lia.
      destruct (Z.eqb_spec c d) as [->|]; [rewrite Hmem, Hnb|]; tauto.
    + intros c e1 Hc [(E1 & <- & _)|[_ E1]]%list_lookup_insert_Some; [|eauto].
      replace c with d by lia. exists e. split; [done|]. cbn. lia.
  - exists tbl. split_and!; [done|done|]. fold (nb e) in Hf. split; [done|done| |eauto].
    intros c y Hc. rewrite list_elem_of_singleton. split; [|tauto]. intros Hy. split; [done|]. intros [-> ->].
    by rewrite Hnb in Hy.
Qed.

Lemma remove_from_ok n g edge k tbl : 1 <= g <= n -> edge_ok n g edge -> table_ok n tbl ->
  (k <= Z.to_nat (unused_edges edge))%nat ->
  exists tbl', remove_from g edge tbl (seqZ (Z.of_nat k) (unused_edges edge - Z.of_nat k)) = Ok tbl' /\
    removed n g (drop k (nb edge)) tbl tbl'.
Proof.
  intros Hg [Hfour Hun Hnd Hrange].
  induction (Z.to_nat (unused_edges edge) - k)%nat as [|m IH] eqn:Em in k, tbl |- *; intros Ht Hk.
  - rewrite seqZ_nil by lia. rewrite drop_ge; [|unfold nb; rewrite length_fmap, length_take; lia].
    exists tbl. split; [done|]. by apply removed_nil.
  - rewrite seqZ_cons by lia. cbn [remove_from].
    destruct (lookup_lt_is_Some_2 (edge_list edge) k) as [x Hx]; [lia|].
    rewrite (array_get_ok _ _ _ Hx). cbn [mbind result_bind].
    assert (nb edge !! k = Some (Z.abs x)) as Hxk.
    { unfold nb. by rewrite list_lookup_fmap, lookup_take_lt, Hx by lia. }
    destruct (Hrange (Z.abs x)) as [Hd Hdg]; [by apply list_elem_of_lookup_2 with k|].
    destruct (remove_round n g (Z.abs x) tbl Ht Hg Hd Hdg) as (owner & tbl1 & Hget & Hround & Hrm).
    rewrite Hget. cbn [mbind result_bind]. rewrite <- result_bind_assoc, Hround. cbn [mbind result_bind].
    replace (Z.succ (Z.of_nat k)) with (Z.of_nat (S k)) by lia.
    replace (Z.pred (unused_edges edge - Z.of_nat k)) with (unused_edges edge - Z.of_nat (S k)) by lia.
    destruct (IH (S k) tbl1) as (tbl2 & -> & Hrm2); [lia|apply Hrm|lia|].
    exists tbl2. split; [done|]. rewrite (drop_S _ _ _ Hxk). by eapply removed_trans.
Qed.

Lemma remove_gene_ok n g edge tbl : 1 <= g <= n -> edge_ok n g edge -> table_ok n tbl ->
  exists tbl', remove_gene g edge tbl = Ok tbl' /\ removed n g (nb edge) tbl tbl'.
Proof.
  intros Hg He Ht. destruct (remove_from_ok n g edge 0 tbl Hg He Ht ltac:(lia)) as (tbl' & H & Hr).
  exists tbl'. unfold remove_gene. by rewrite Z.sub_0_r in H.
Qed.

(** ** Choosing the next city *)
Section Choose.
Context {S : Type} {source : RandomSource S}.

Lemma pick_nth_ok (test : Z -> result bool) (b : Z -> bool) r ixs : forall count,
  (forall i, i ∈ ixs -> test i = Ok (b i)) ->
  count = Z.of_nat (length (List.filter b ixs)) -> 0 <= r < count ->
  exists i, pick_nth test r count ixs = Ok (Some i) /\ i ∈ ixs /\ b i = true.
Proof.
  induction ixs as [|i ixs IH]; intros count Ht Hc Hr; cbn in *; [lia|].
  rewrite Ht by (by left). cbn. destruct (b i) eqn:Hb; cbn in Hc.
  - destruct (Z.eqb_spec (count - 1) r).
    + exists i. split_and!; [done|by left|done].
    + destruct (IH (count - 1)) as (i' & -> & Hi & Hb'); [|lia|lia|]; [intros; apply Ht; by right|].
      exists i'. split_and!; [done|by right|done].
  - destruct (IH count) as (i' & -> & Hi & Hb'); [|lia|lia|]; [intros; apply Ht; by right|].
    exists i'. split_and!; [done|by right|done].
Qed.
Lemma count_true_ok (test : Z -> result bool) (b : Z -> bool) ixs : forall count,
  (forall i, i ∈ ixs -> test i = Ok (b i)) ->
  count_true test count ixs = Ok (count + Z.of_nat (length (List.filter b ixs))).
Proof.
  induction ixs as [|i ixs IH]; intros count Ht; cbn [count_true List.filter]; [f_equal; cbn; lia|].
  rewrite Ht by (by left). cbn [mbind result_bind]. rewrite IH by (intros; apply Ht; by right).
  f_equal. destruct (b i); cbn [length]; lia.
Qed.
Lemma filter_nonempty (b : Z -> bool) i ixs : i ∈ ixs -> b i = true -> 0 < Z.of_nat (length (List.filter b ixs)).
Proof.
  intros Hi Hb. assert (In i (List.filter b ixs)) by (apply filter_In; split; [by apply list_elem_of_In|done]).
  destruct (List.filter b ixs); cbn in *; [done|lia].
Qed.

(** The scan of [gimme_gene]: [fr i] is the friend at index [i] and [uf i] its number of unused
    edges. *)
Definition count_min (uf : Z -> Z) (minimum : Z) (ixs : list Z) : Z :=
  Z.of_nat (length (List.filter (fun i => uf i =? minimum) ixs)).
Definition scan_post (fr uf : Z -> Z) (ixs : list Z) (r : Gene + Z * Z) : Prop :=
  match r with
  | inl friend => exists i, i ∈ ixs /\ friend = Z.abs (fr i)
  | inr (minimum, count) =>
      (forall i, i ∈ ixs -> 0 <= fr i) /\ (ixs <> [] -> 0 < count /\ count = count_min uf minimum ixs)
  end.

Lemma count_min_snoc uf minimum pre i :
  count_min uf minimum (pre ++ [i]) = count_min uf minimum pre + (if uf i =? minimum then 1 else 0).
Proof.
  unfold count_min. rewrite List.filter_app, length_app. cbn. destruct (uf i =? minimum); cbn [length]; lia.
Qed.
Lemma count_min_none uf minimum pre : (forall i, i ∈ pre -> minimum < uf i) -> count_min uf minimum pre = 0.
Proof.
  induction pre as [|i pre IH]; intros H; [done|]. unfold count_min in *. cbn.
  pose proof (H i ltac:(by left)). destruct (Z.eqb_spec (uf i) minimum); [lia|].
  apply IH. intros j Hj. apply H. by right.
Qed.

Lemma scan_friends_ok (l : list Gene) tbl (fr uf : Z -> Z) ixs : forall pre minimum count,
  (forall i, i ∈ ixs -> array_get l i = Ok (fr i) /\
    (0 <= fr i -> exists e, array_get tbl (fr i) = Ok e /\ unused_edges e = uf i /\ uf i < 5)) ->
  (pre = [] /\ minimum = 5 /\ count = -1 \/
   0 < count /\ count = count_min uf minimum pre /\ forall i, i ∈ pre -> minimum <= uf i) ->
  (forall i, i ∈ pre -> 0 <= fr i) ->
  holds False (scan_post fr uf (pre ++ ixs)) (scan_friends l tbl minimum count ixs).
Proof.
  induction ixs as [|i ixs IH]; intros pre minimum count Hix Hinv Hpos; cbn [scan_friends].
  { rewrite app_nil_r. split; [done|]. destruct Hinv as [[-> _]|(H1 & H2 & _)]; done. }
  destruct (Hix i ltac:(by left)) as [-> Hfr]. cbn [mbind result_bind].
  destruct (Z.ltb_spec (fr i) 0).
  { exists i. split; [|done]. apply elem_of_app. right. by left. }
  destruct Hfr as (e & -> & Hu & H5); [done|]. cbn [mbind result_bind]. rewrite Hu.
  assert (forall j, j ∈ ixs -> array_get l j = Ok (fr j) /\
    (0 <= fr j -> exists e, array_get tbl (fr j) = Ok e /\ unused_edges e = uf j /\ uf j < 5)) as Hix'
    by (intros j Hj; apply Hix; by right).
  assert (forall j, j ∈ pre ++ [i] -> 0 <= fr j) as Hpos'
    by (intros j [Hj|Hj%list_elem_of_singleton]%elem_of_app; [by apply Hpos|by subst j]).
  replace (pre ++ i :: ixs) with ((pre ++ [i]) ++ ixs) by by rewrite <- app_assoc.
  destruct (Z.ltb_spec (uf i) minimum) as [Hlt|Hge].
  - apply IH; [done| |done]. right. rewrite count_min_snoc, Z.eqb_refl, count_min_none.
    + split_and!; [lia|lia|]. intros j [Hj|Hj%list_elem_of_singleton]%elem_of_app; [|subst; lia].
      destruct Hinv as [[-> _]|(_ & _ & Hm)]; [by apply elem_of_nil in Hj|]. pose proof (Hm j Hj). lia.
    + intros j Hj. destruct Hinv as [[-> _]|(_ & _ & Hm)]; [by apply elem_of_nil in Hj|]. pose proof (Hm j Hj). lia.
  - destruct Hinv as [(_ & -> & _)|(Hc & Hcnt & Hm)]; [lia|].
    destruct (Z.eqb_spec count (-1)); [lia|].
    assert (forall j, j ∈ pre ++ [i] -> minimum <= uf j) as Hm'
      by (intros j [Hj|Hj%list_elem_of_singleton]%elem_of_app; [by apply Hm|by subst j]).
    destruct (Z.eqb_spec (uf i) minimum) as [E1|E1]; (apply IH; [done| |done]); right; rewrite count_min_snoc.
    + rewrite (proj2 (Z.eqb_eq _ _) E1). split_and!; [lia|lia|done].
    + rewrite (proj2 (Z.eqb_neq _ _) E1). split_and!; [lia|lia|done].
Qed.

Lemma randint_holds rng upper lower : source_ok rng -> 0 <= lower <= upper -> upper < 2 ^ 31 ->
  holds (stalls S) (fun '(r, rng') => lower <= r <= upper /\ source_ok rng') (randint rng upper lower).
Proof.
  intros Hs Hl Hu. pose proof (randint_ok rng upper lower Hs Hl Hu) as H.
  destruct (randint rng upper lower) as [[r rng']| |] eqn:E; [done|done|]. cbn. by exists rng, upper, lower.
Qed.

Lemma gimme_gene_ok n g edge tbl rng : table_ok n tbl -> edge_ok n g edge -> 0 < unused_edges edge ->
  source_ok rng ->
  holds (stalls S) (fun '(c, rng') => c ∈ nb edge /\ source_ok rng') (gimme_gene edge tbl rng).
Proof.
  intros Ht [Hfour Hun Hnd Hrange] Hu Hs. unfold gimme_gene.
  set (fr := fun i => default 0 (edge_list edge !! Z.to_nat i)).
  set (uf := fun i => default 0 (unused_edges <$> tbl !! Z.to_nat (fr i))).
  assert (forall i, i ∈ seqZ 0 (unused_edges edge) ->
    array_get (edge_list edge) i = Ok (fr i) /\ Z.abs (fr i) ∈ nb edge) as Hfr.
  { intros i Hi%elem_of_seqZ. destruct (lookup_lt_is_Some_2 (edge_list edge) (Z.to_nat i)) as [x Hx]; [lia|].
    unfold fr. rewrite Hx. split; [apply array_get_Z; [lia|done]|]. cbn. unfold nb.
    apply list_elem_of_fmap_2, list_elem_of_lookup_2 with (Z.to_nat i). by rewrite lookup_take_lt by lia. }
  assert (forall i, i ∈ seqZ 0 (unused_edges edge) -> 0 <= fr i ->
    exists e, array_get tbl (fr i) = Ok e /\ unused_edges e = uf i /\ uf i < 5) as Huf.
  { intros i Hi Hpos. destruct (Hfr i Hi) as [_ Hin]. rewrite Z.abs_eq in Hin by done.
    destruct (Hrange _ Hin) as [Hr _]. destruct (table_get n tbl (fr i) Ht Hr) as (e & He & Hget & [_ Hune _ _] & _).
    exists e. unfold uf. rewrite He. cbn. split_and!; [done|done|lia]. }
  eapply holds_bind.
  { eapply holds_impl; [|by intros r Hr; exact Hr].
    pose proof (scan_friends_ok (edge_list edge) tbl fr uf (seqZ 0 (unused_edges edge)) [] 5 (-1)) as H.
    destruct (scan_friends _ _ _ _ _) as [r| |]; [apply H|exfalso; apply H|exfalso; apply H];
      try (by left); try (by intros i ?%elem_of_nil); intros i Hi; (split; [by apply Hfr|by apply Huf]). }
  intros [friend|[minimum count]] Hscan; cbn [app scan_post] in Hscan.
  { destruct Hscan as (i & Hi & ->). cbn. split; [by apply Hfr|done]. }
  destruct Hscan as [Hpos Hcnt]. destruct Hcnt as [Hc Hceq]; [rewrite seqZ_cons by lia; done|].
  eapply holds_bind; [apply (randint_holds rng (count - 1) 0 Hs); [lia|]|].
  { rewrite Hceq. unfold count_min. pose proof (List.filter_length_le (fun i => uf i =? minimum) (seqZ 0 (unused_edges edge))) as Hle.
    rewrite length_seqZ in Hle. lia. }
  intros [r rng'] [Hr Hs']. destruct (pick_nth_ok (fun i => friend ← array_get (edge_list edge) i;
    other ← array_get tbl friend; Ok (unused_edges other =? minimum)) (fun i => uf i =? minimum) r
    (seqZ 0 (unused_edges edge)) count) as (i & -> & Hi & _); [|done|lia|].
  { intros i Hi. destruct (Hfr i Hi) as [-> _]. cbn [mbind result_bind].
    destruct (Huf i Hi (Hpos i Hi)) as (e & -> & Hue & _). cbn. by rewrite Hue. }
  cbn [mbind result_bind]. destruct (Hfr i Hi) as [-> Hin]. cbn. rewrite Z.abs_eq in Hin by (by apply Hpos). done.
Qed.

Lemma edge_failure_ok n g tbl gene (index : nat) rng : table_ok n tbl -> n < 2 ^ 31 -> gene !! index = Some g ->
  (exists c e, 1 <= c <= n /\ c <> g /\ tbl !! Z.to_nat c = Some e /\ unused_edges e <> -1) -> source_ok rng ->
  holds (stalls S) (fun '(c, rng') =>
      (1 <= c <= n /\ c <> g /\ exists e, tbl !! Z.to_nat c = Some e /\ unused_edges e <> -1) /\ source_ok rng')
    (edge_failure gene (Z.of_nat index) tbl n rng).
Proof.
  intros Ht Hn Hg (c0 & e0 & Hc0 & Hc0g & He0 & Hu0) Hs. unfold edge_failure.
  rewrite (array_get_ok _ _ _ Hg). cbn [mbind result_bind].
  set (ue := fun i => default {| edge_list := []; total_edges := 0; unused_edges := -1 |} (tbl !! Z.to_nat i)).
  set (b := fun i => negb (unused_edges (ue i) =? -1) && negb (i =? g)).
  set (b4 := fun i => b i && (total_edges (ue i) =? 4)).
  assert (forall i, i ∈ seqZ 1 n -> array_get tbl i = Ok (ue i)) as Hget.
  { intros i Hi%elem_of_seqZ. destruct (table_get n tbl i Ht ltac:(lia)) as (e & He & -> & _).
    unfold ue. by rewrite He. }
  assert (forall i, i ∈ seqZ 1 n -> remaining tbl g i = Ok (b i)) as Hb by (intros i Hi; unfold remaining; by rewrite Hget).
  assert (forall i, i ∈ seqZ 1 n -> remaining_four tbl g i = Ok (b4 i)) as Hb4 by (intros i Hi; unfold remaining_four; by rewrite Hget).
  assert (forall i, i ∈ seqZ 1 n -> b i = true ->
    1 <= i <= n /\ i <> g /\ exists e, tbl !! Z.to_nat i = Some e /\ unused_edges e <> -1) as Hgood.
  { intros i Hi%elem_of_seqZ [H1 H2]%andb_prop. split; [lia|]. split; [by destruct (Z.eqb_spec i g)|].
    destruct (table_get n tbl i Ht ltac:(lia)) as (e & He & _). exists e. split; [done|].
    unfold ue in H1. rewrite He in H1. cbn in H1. by destruct (Z.eqb_spec (unused_edges e) (-1)). }
  assert (forall (p : Z -> bool), Z.of_nat (length (List.filter p (seqZ 1 n))) <= n) as Hbound.
  { intros p. pose proof (List.filter_length_le p (seqZ 1 n)) as Hle. rewrite length_seqZ in Hle. lia. }
  rewrite (count_true_ok _ b _ _ Hb). cbn [mbind result_bind]. rewrite (count_true_ok _ b4 _ _ Hb4).
  cbn [mbind result_bind]. rewrite !Z.add_0_l.
  set (remaining_edges := Z.of_nat (length (List.filter b (seqZ 1 n)))).
  set (four_count := Z.of_nat (length (List.filter b4 (seqZ 1 n)))).
  assert (0 < remaining_edges) as Hrem.
  { apply (filter_nonempty b c0); [apply elem_of_seqZ; lia|]. unfold b, ue. rewrite He0. cbn.
    destruct (Z.eqb_spec (unused_edges e0) (-1)), (Z.eqb_spec c0 g); done. }
  pose proof (Hbound b). pose proof (Hbound b4). fold remaining_edges in H. fold four_count in H0.
  destruct (Z.eqb_spec four_count 0) as [H4|H4]; cbn [negb].
  - destruct (Z.eqb_spec remaining_edges 0); [lia|]. cbn [negb]. rewrite result_bind_assoc.
    eapply holds_bind; [apply (randint_holds rng (remaining_edges - 1) 0 Hs); lia|]. intros [r rng'] [Hr Hs'].
    destruct (pick_nth_ok _ b r (seqZ 1 n) remaining_edges Hb eq_refl ltac:(lia)) as (i & -> & Hi & Hbi).
    cbn. split; [by apply Hgood|done].
  - assert (0 <= four_count) by (unfold four_count; lia). rewrite result_bind_assoc.
    eapply holds_bind; [apply (randint_holds rng (four_count - 1) 0 Hs); lia|]. intros [r rng'] [Hr Hs'].
    destruct (pick_nth_ok _ b4 r (seqZ 1 n) four_count Hb4 eq_refl ltac:(lia)) as (i & -> & Hi & [Hbi _]%andb_prop).
    cbn. split; [by apply Hgood|done].
Qed.

(** ** The loop of [gimme_tour]

    [pre] are the cities placed before the current one. *)
Record tour_inv (n : Z) (tbl : list Edge) (pre : list Gene) : Prop := {
  ti_table : table_ok n tbl;
  ti_placed : forall c e, 1 <= c <= n -> tbl !! Z.to_nat c = Some e -> c ∈ pre <-> unused_edges e = -1;
  ti_fresh : forall c d, 1 <= c <= n -> d ∈ NB tbl c -> d ∉ pre;
  ti_sym : symmetric_nb n tbl
}.

Lemma built_tour_inv n E tbl : built n E tbl -> symmetric_nb n tbl -> tour_inv n tbl [].
Proof.
  intros [Ht Htot _] Hs. split; [done| |by intros c d _ _ ?%elem_of_nil|done].
  intros c e Hc He. destruct (Htot c e Hc He) as [_ Hu]. split; [by intros ?%elem_of_nil|lia].
Qed.

(** Removing the current city [g] and marking it as placed. *)
Lemma tour_inv_step n tbl pre g e tbl1 : tour_inv n tbl pre -> 1 <= g <= n -> g ∉ pre ->
  tbl !! Z.to_nat g = Some e -> removed n g (nb e) tbl tbl1 ->
  exists tbl2, array_set tbl1 g {| edge_list := edge_list e; total_edges := total_edges e; unused_edges := -1 |} = Ok tbl2 /\
    tour_inv n tbl2 (pre ++ [g]).
Proof.
  intros [Ht Hpl Hfr Hsym] Hg Hgp He [Ht1 Hself Hnb1 Hpl1].
  set (e2 := {| edge_list := edge_list e; total_edges := total_edges e; unused_edges := -1 |}).
  pose proof (to_edges _ _ Ht g e Hg He) as [Hfour _ _ _].
  assert (edge_ok n g e2) as Hok2 by (split; [done|cbn; lia|constructor|by intros d ?%elem_of_nil]).
  destruct (table_set n tbl1 g e2 Ht1 Hg Hok2) as (-> & Ht2 & Hnb2).
  eexists. split; [done|].
  assert (NB tbl g = nb e) as HNB by (unfold NB; by rewrite He).
  assert (forall c d, 1 <= c <= n -> d ∈ NB (<[Z.to_nat g:=e2]> tbl1) c <-> d ∈ NB tbl c /\ c <> g /\ d <> g) as Hnb.
  { intros c d Hc. rewrite Hnb2 by lia. destruct (Z.eqb_spec c g) as [->|Hcg].
    - split; [by intros ?%elem_of_nil|]. tauto.
    - rewrite Hnb1 by done. split; [|naive_solver]. intros [Hd Hno]. split_and!; [done|done|].
      intros ->. apply Hno. split; [done|]. rewrite <- HNB. by apply Hsym. }
  split; [done| | |].
  - intros c e' Hc Hc'. rewrite elem_of_app, list_elem_of_singleton.
    apply list_lookup_insert_Some in Hc' as [(Ec & <- & _)|[Hne Hc']].
    + cbn. split; [done|]. intros _. right. lia.
    + destruct (Hpl1 _ _ Hc Hc') as (e0 & He0 & Hiff). rewrite Hiff, <- (Hpl c e0 Hc He0). split; [|tauto].
      intros [?| ->]; [done|lia].
  - intros c d Hc (Hd & _ & Hdg)%Hnb; [|done]. rewrite elem_of_app, list_elem_of_singleton.
    intros [?| ->]; [|done]. by apply (Hfr c d).
  - intros c d Hc Hd (Hin & Hcg & Hdg)%Hnb; [|done]. apply Hnb; [done|]. split_and!; [by apply Hsym|done|done].
Qed.

Lemma exists_unplaced n (l : list Gene) : (length l < Z.to_nat n)%nat -> exists c, 1 <= c <= n /\ c ∉ l.
Proof.
  intros Hl. destruct (decide (Exists (fun c => c ∉ l) (seqZ 1 n))) as [(c & Hc & Hn)%Exists_exists|Hno].
  - exists c. apply elem_of_seqZ in Hc. split; [lia|done].
  - apply not_Exists_Forall in Hno; [|apply _]. exfalso.
    assert (seqZ 1 n ⊆+ l) as Hs.
    { apply NoDup_submseteq; [apply NoDup_seqZ|]. intros c Hc. rewrite Forall_forall in Hno.
      destruct (decide (c ∈ l)); [done|]. by destruct (Hno c Hc). }
    apply submseteq_length in Hs. rewrite length_seqZ in Hs. lia.
Qed.

(** The choice of the next city, in both branches. *)
Lemma choose_ok n tbl pre g e tbl1 gene (i : nat) rng : n < 2 ^ 31 -> tour_inv n tbl pre -> 1 <= g <= n -> g ∉ pre ->
  (length (pre ++ [g]) < Z.to_nat n)%nat ->
  tbl !! Z.to_nat g = Some e -> removed n g (nb e) tbl tbl1 -> gene !! i = Some g -> source_ok rng ->
  holds (stalls S) (fun '(_, c, rng') => 1 <= c <= n /\ (c ∉ pre ++ [g]) /\ source_ok rng')
    (if 0 <? unused_edges e
     then '(chosen, rng) ← gimme_gene e tbl1 rng; Ok (0, chosen, rng)
     else '(chosen, rng) ← edge_failure gene (Z.of_nat i) tbl1 n rng; Ok (1, chosen, rng)).
Proof.
  intros Hn [Ht Hpl Hfr Hsym] Hg Hgp Hlen He [Ht1 Hself Hnb1 Hpl1] Hi Hs.
  pose proof (to_edges _ _ Ht g e Hg He) as Hok.
  assert (NB tbl g = nb e) as HNB by (unfold NB; by rewrite He).
  destruct (Z.ltb_spec 0 (unused_edges e)) as [Hu|Hu].
  - eapply holds_bind; [by apply (gimme_gene_ok n g e tbl1 rng)|]. intros [c rng'] [Hc Hs']. cbn.
    pose proof (eo_range _ _ _ Hok c Hc) as [Hcr Hcg]. split_and!; [lia|lia| |done].
    rewrite elem_of_app, list_elem_of_singleton. intros [Hp|]; [|done].
    by apply (Hfr g c); [|rewrite HNB|].
  - eapply holds_bind; [apply (edge_failure_ok n g tbl1 gene i rng); [done|done|done| |done]|].
    + destruct (exists_unplaced n (pre ++ [g]) Hlen) as (c & Hc & Hcp).
      rewrite elem_of_app, list_elem_of_singleton in Hcp.
      destruct (table_get n tbl1 c Ht1 Hc) as (e1 & He1 & _). destruct (Hpl1 c e1 Hc He1) as (e0 & He0 & Hiff).
      exists c, e1. split_and!; [lia|lia|tauto|done|]. rewrite Hiff, <- (Hpl c e0 Hc He0). tauto.
    + intros [c rng'] [(Hc & Hcg & e1 & He1 & Hu1) Hs']. cbn. split_and!; [lia|lia| |done].
      destruct (Hpl1 c e1 Hc He1) as (e0 & He0 & Hiff). rewrite Hiff, <- (Hpl c e0 Hc He0) in Hu1.
      rewrite elem_of_app, list_elem_of_singleton. tauto.
Qed.

Record placed (n : Z) (pre : list Gene) (g : Gene) : Prop := {
  pl_nodup : NoDup (pre ++ [g]);
  pl_range : forall c, c ∈ pre ++ [g] -> 1 <= c <= n
}.

Lemma placed_last n pre g : placed n pre g -> (g ∉ pre) /\ 1 <= g <= n.
Proof.
  intros [Hnd Hr]. split; [|apply Hr, elem_of_app; right; by left].
  apply NoDup_app in Hnd as (_ & Hnd & _). intros Hg. apply (Hnd g Hg). by left.
Qed.
Lemma placed_snoc n pre g c : placed n pre g -> 1 <= c <= n -> c ∉ pre ++ [g] -> placed n (pre ++ [g]) c.
Proof.
  intros [Hnd Hr] Hc Hnc. split.
  - apply NoDup_app. split_and!; [done| |apply NoDup_singleton]. by intros x Hx Hxc%list_elem_of_singleton; subst.
  - intros x [Hx|Hx%list_elem_of_singleton]%elem_of_app; [by apply Hr|by subst].
Qed.

Lemma next_gene_ok n tbl pre g new_gene rng : n < 2 ^ 31 -> tour_inv n tbl pre -> placed n pre g ->
  (length (pre ++ [g]) < Z.to_nat n <= length new_gene)%nat ->
  take (length (pre ++ [g])) new_gene = pre ++ [g] -> source_ok rng ->
  holds (stalls S) (fun '(_, tbl', new_gene', rng') => exists c,
      take (Datatypes.S (length (pre ++ [g]))) new_gene' = (pre ++ [g]) ++ [c] /\ length new_gene' = length new_gene /\
      placed n (pre ++ [g]) c /\ tour_inv n tbl' (pre ++ [g]) /\ source_ok rng')
    (next_gene tbl new_gene n (Z.of_nat (length (pre ++ [g]))) rng).
Proof.
  intros Hn Hinv Hpl Hlen Htake Hs. destruct (placed_last n pre g Hpl) as [Hgp Hg].
  pose proof (ti_table _ _ _ Hinv) as Ht. unfold next_gene.
  assert (new_gene !! length pre = Some g) as Hlook.
  { rewrite <- (lookup_take_lt new_gene (length (pre ++ [g]))), Htake by (rewrite length_app; cbn; lia).
    by apply list_lookup_middle. }
  replace (Z.of_nat (length (pre ++ [g])) - 1) with (Z.of_nat (length pre)) by (rewrite length_app; cbn; lia).
  rewrite (array_get_ok _ _ _ Hlook). cbn [mbind result_bind].
  destruct (table_get n tbl g Ht Hg) as (e & He & -> & Hok & HNB). cbn [mbind result_bind].
  destruct (remove_gene_ok n g e tbl Hg Hok Ht) as (tbl1 & -> & Hrm). cbn [mbind result_bind].
  rewrite (array_get_Z tbl1 g e) by (lia || by rewrite (rm_self _ _ _ _ _ Hrm)). cbn [mbind result_bind].
  eapply holds_bind; [apply (choose_ok n tbl pre g e tbl1 new_gene (length pre) rng); done || lia|].
  intros [[f c] rng'] (Hc & Hcp & Hs'). rewrite array_set_ok by lia. cbn [mbind result_bind].
  destruct (tour_inv_step n tbl pre g e tbl1 Hinv Hg Hgp He Hrm) as (tbl2 & -> & Hinv2). cbn [mbind result_bind].
  cbn [holds]. exists c. split_and!.
  - rewrite (take_S_r _ _ c) by (apply list_lookup_insert_eq; lia). by rewrite take_insert_ge, Htake by lia.
  - by rewrite length_insert.
  - by apply placed_snoc.
  - done.
  - done.
Qed.

Lemma tour_loop_ok n : n < 2 ^ 31 -> forall m tbl pre g new_gene failures rng,
  m = (Z.to_nat n - length (pre ++ [g]))%nat ->
  tour_inv n tbl pre -> placed n pre g -> (length (pre ++ [g]) <= Z.to_nat n <= length new_gene)%nat ->
  take (length (pre ++ [g])) new_gene = pre ++ [g] -> source_ok rng ->
  holds (stalls S) (fun '(_, tbl', new_gene', rng') =>
      is_tour n (take (Z.to_nat n) new_gene') /\ length new_gene' = length new_gene /\
      table_ok n tbl' /\ source_ok rng')
    (tour_loop tbl new_gene n failures (seqZ (Z.of_nat (length (pre ++ [g]))) (n - Z.of_nat (length (pre ++ [g])))) rng).
Proof.
  intros Hn m. induction m as [|m IH]; intros tbl pre g new_gene failures rng Hm Hinv Hpl Hlen Htake Hs.
  - rewrite seqZ_nil by lia. cbn. replace (Z.to_nat n) with (length (pre ++ [g])) by lia. rewrite Htake.
    split_and!; [|done|apply Hinv|done]. destruct Hpl as [Hnd Hr]. apply is_tour_intro; [done|lia|done].
  - rewrite seqZ_cons by lia. cbn [tour_loop].
    eapply holds_bind; [apply (next_gene_ok n tbl pre g new_gene rng); done || lia|].
    intros [[[f tbl'] ng'] rng'] (c & Htake' & Hl' & Hpl' & Hinv' & Hs'). rewrite <- Hl'.
    assert (length ((pre ++ [g]) ++ [c]) = Datatypes.S (length (pre ++ [g]))) as Hlc by (rewrite (length_app (pre ++ [g])); cbn; lia).
    replace (Z.succ (Z.of_nat (length (pre ++ [g])))) with (Z.of_nat (length ((pre ++ [g]) ++ [c]))) by lia.
    replace (Z.pred (n - Z.of_nat (length (pre ++ [g])))) with (n - Z.of_nat (length ((pre ++ [g]) ++ [c]))) by lia.
    apply IH; [lia|done|done|lia|by rewrite Hlc|done].
Qed.

Lemma gimme_tour_ok n tbl new_gene rng : 2 <= n < 2 ^ 31 -> tour_inv n tbl [] ->
  (Z.to_nat n <= length new_gene)%nat -> source_ok rng ->
  holds (stalls S) (fun '(_, tbl', new_gene', rng') =>
      is_tour n (take (Z.to_nat n) new_gene') /\ length new_gene' = length new_gene /\
      table_ok n tbl' /\ source_ok rng')
    (gimme_tour tbl new_gene n rng).
Proof.
  intros Hn Hinv Hlen Hs. unfold gimme_tour.
  eapply holds_bind; [apply (randint_holds rng n 1 Hs); lia|]. intros [g rng'] [Hg Hs'].
  rewrite array_set_Z by lia. cbn [mbind result_bind].
  replace (length new_gene) with (length (<[Z.to_nat 0 := g]> new_gene)) by apply length_insert.
  apply (tour_loop_ok n ltac:(lia) (Z.to_nat n - 1) tbl [] g); [done|done| |cbn; rewrite length_insert; lia| |done].
  - split; [apply NoDup_singleton|]. by intros c Hc%list_elem_of_singleton; subst.
  - destruct new_gene; cbn in *; [lia|done].
Qed.

(** ** [init_tour] *)
Lemma shuffle_ok n : n < 2 ^ 31 -> forall m (k : nat) tour rng, m = (Z.to_nat n - k)%nat -> (0 < k <= Z.to_nat n)%nat ->
  (Z.to_nat n <= length tour)%nat -> take k tour ≡ₚ seqZ 1 (Z.of_nat k) -> source_ok rng ->
  holds (stalls S) (fun '(tour', rng') =>
      is_tour n (take (Z.to_nat n) tour') /\ length tour' = length tour /\ source_ok rng')
    (shuffle tour (seqZ (Z.of_nat k) (n - Z.of_nat k)) rng).
Proof.
  intros Hn m. induction m as [|m IH]; intros k tour rng Hm Hk Hl Hperm Hs.
  - rewrite seqZ_nil by lia. cbn. split_and!; [|done..]. unfold is_tour.
    replace (Z.to_nat n) with k by lia. by replace n with (Z.of_nat k) by lia.
  - rewrite seqZ_cons by lia. cbn [shuffle].
    eapply holds_bind; [apply (randint_holds rng (Z.of_nat k) 0 Hs); lia|]. intros [j rng'] [Hj Hs'].
    rewrite <- (Z2Nat.id j) by lia. set (j' := Z.to_nat j). assert (j' <= k)%nat as Hjk by lia. clearbody j'. clear j Hj.
    assert (exists tour1, (if negb (Z.of_nat k =? Z.of_nat j') then g ← array_get tour (Z.of_nat j'); array_set tour (Z.of_nat k) g
        else Ok tour) = Ok tour1 /\ length tour1 = length tour /\
        take (Datatypes.S k) (<[j' := Z.of_nat k + 1]> tour1) ≡ₚ take k tour ++ [Z.of_nat k + 1]) as (tour1 & -> & Hl1 & Hp1).
    { destruct (Z.eqb_spec (Z.of_nat k) (Z.of_nat j')) as [E|E]; cbn [negb].
      - replace j' with k by lia. exists tour. split_and!; [done|done|].
        rewrite (take_S_r _ _ (Z.of_nat k + 1)) by (apply list_lookup_insert_eq; lia). by rewrite take_insert_ge by lia.
      - destruct (lookup_lt_is_Some_2 tour j') as [x Hx]; [lia|]. rewrite (array_get_ok _ _ _ Hx). cbn [mbind result_bind].
        rewrite array_set_ok by lia. eexists. split_and!; [done|apply length_insert|].
        rewrite take_insert_lt by lia. rewrite (take_S_r _ _ x) by (apply list_lookup_insert_eq; lia).
        rewrite take_insert_ge by lia. rewrite insert_app_l by (rewrite length_take; lia).
        rewrite <- (swap_remove (take k tour) j' x) by (rewrite lookup_take_lt by lia; done).
        symmetry. apply Permutation_cons_append. }
    cbn [mbind result_bind]. rewrite array_set_ok by lia. cbn [mbind result_bind].
    replace (Z.succ (Z.of_nat k)) with (Z.of_nat (Datatypes.S k)) by lia.
    replace (Z.pred (n - Z.of_nat k)) with (n - Z.of_nat (Datatypes.S k)) by lia.
    rewrite <- Hl1, <- (length_insert tour1 j' (Z.of_nat k + 1)).
    apply IH; [lia|lia|rewrite length_insert; lia| |done].
    rewrite Hp1, Hperm. replace (Z.of_nat (Datatypes.S k)) with (Z.of_nat k + 1) by lia.
    rewrite (seqZ_app 1 (Z.of_nat k) 1) by lia. cbn. by replace (1 + Z.of_nat k) with (Z.of_nat k + 1) by lia.
Qed.

Lemma init_tour_ok n tour rng : 1 <= n < 2 ^ 31 -> (Z.to_nat n <= length tour)%nat -> source_ok rng ->
  holds (stalls S) (fun '(tour', rng') =>
      is_tour n (take (Z.to_nat n) tour') /\ length tour' = length tour /\ source_ok rng')
    (init_tour tour n rng).
Proof.
  intros Hn Hl Hs. unfold init_tour. destruct (Z.ltb_spec 0 n); [|lia].
  rewrite array_set_Z by lia. cbn [mbind result_bind]. rewrite <- (length_insert tour (Z.to_nat 0) 1).
  apply (shuffle_ok n ltac:(lia) (Z.to_nat n - 1) 1); [done|lia|rewrite length_insert; lia| |done].
  by destruct tour; cbn in *; [lia|].
Qed.
End Choose.

(** C18: Edge recombination crossover: from two parent tours the edge table records exactly the
    adjacent pairs of the two circular tours, without leaving its four-entry lists; from that table
    [gimme_tour] never runs into an error, writes a tour that contains every relation exactly
    once, and ends unless the random source itself never answers. *)
Theorem erx_offspring {S : Type} {source : RandomSource S} n momma daddy edges rng :
  2 <= n < 2 ^ 31 -> is_tour n (take (Z.to_nat n) momma) -> is_tour n (take (Z.to_nat n) daddy) ->
  alloc_edge_table n edges -> source_ok rng ->
  exists total tbl, gimme_edge_table momma daddy n edges = Ok (total, tbl) /\
    (forall c d, 1 <= c <= n -> d ∈ NB tbl c <->
      adjacent (Z.to_nat n) momma c d \/ adjacent (Z.to_nat n) daddy c d) /\
    holds (stalls S) (fun '(_, _, kid, _) =>
        is_tour n (take (Z.to_nat n) kid) /\ length kid = length momma)
      (gimme_tour tbl momma n rng).
Proof.
  intros Hn Hm Hd Ha Hs. destruct (gimme_edge_table_ok n momma daddy ltac:(lia) Hm Hd edges Ha) as (total & tbl & H & Hb & Hsym & HE).
  exists total, tbl. split_and!; [done|done|]. eapply holds_impl; [apply (gimme_tour_ok n tbl momma rng)|].
  - done.
  - by apply built_tour_inv with (E := E n momma daddy).
  - apply is_tour_elim in Hm as (_ & Hl & _). rewrite length_take in Hl. lia.
  - done.
  - intros [[[f t] kid] r]. tauto.
Qed.

Module ErxDemo.
Definition edges : list Edge := replicate 5 {| edge_list := [7; 7; 7; 7]; total_edges := 9; unused_edges := 9 |}.
Lemma tour_1234 : is_tour 4 (take (Z.to_nat 4) [1; 2; 3; 4; 0]).
Proof. unfold is_tour. reflexivity. Qed.
Lemma tour_3142 : is_tour 4 (take (Z.to_nat 4) [3; 1; 4; 2; 0]).
Proof.
  apply is_tour_intro; [|reflexivity|].
  - repeat (constructor; [intros H; repeat (apply elem_of_cons in H as [H|H]; [lia|]); by apply elem_of_nil in H|]).
    constructor.
  - intros g H. repeat (apply elem_of_cons in H as [H|H]; [lia|]). by apply elem_of_nil in H.
Qed.
Lemma edges_allocated : alloc_edge_table 4 edges.
Proof. split; [done|]. intros i e _ [-> _]%lookup_replicate_1. done. Qed.

Lemma erx_offspring_witness :
  exists total tbl, gimme_edge_table [1; 2; 3; 4; 0] [3; 1; 4; 2; 0] 4 edges = Ok (total, tbl) /\
    holds (@stalls pg_prng_state (prng_source 50)) (fun '(_, _, kid, _) => is_tour 4 (take 4 kid) /\ length kid = 5%nat)
      (@gimme_tour _ (prng_source 50) tbl [1; 2; 3; 4; 0] 4 (pg_prng_seed 7)).
Proof.
  destruct (@erx_offspring pg_prng_state (prng_source 50) 4 [1; 2; 3; 4; 0] [3; 1; 4; 2; 0] edges (pg_prng_seed 7))
    as (total & tbl & H & _ & Hk); [lia|exact tour_1234|exact tour_3142|exact edges_allocated|exact (seed_ok 7)|].
  exists total, tbl. split; [exact H|exact Hk].
Defined.

End ErxDemo.
