(* ===== verification/GeqoTree.v ===== *)
(** * [gimme_tree] builds a join tree of all relations

    The clumps of [geqo_eval.c] partition the relations of the tour seen so far and stay ordered by
    size; merging ends; the forced pass leaves two clumps only if [make_join_rel] refuses to join
    them. *)
From S2P Require Import Prelude Float64 Prng Geqo GeqoErx.
#[local] Open Scope Z_scope.

Lemma bind_ext_in {A B} (f g : A -> list B) (l : list A) : (forall x, x ∈ l -> f x = g x) -> l ≫= f = l ≫= g.
Proof.
  induction l as [|x l IH]; intros H; [done|]. cbn. rewrite (H x) by (by left). f_equal.
  apply IH. intros y Hy. apply H. by right.
Qed.

(** ** What the planner promises

    [join_members] are the numbers of the input relations below a join relation; [rel_ok] says that it is fit for use in a state.  [later] relates a state
    to those that building joins leads to; [agree] relates states in which the same joins give the same
    results: every routine is described on two states that agree.  A state is fit for use when it agrees with itself.  Join relations are listed at the end of the list;
    a state in which trees have been built is fit for use again, without its new join relations, once it has the list and the hash table of the state before
    ([planner_goes_on]), though it need not be that state. *)
Definition both {Root A} (agree later : Root -> Root -> Prop) (root root' : Root) (f : Root -> result (A * Root)) (P : A -> Root -> Prop) : Prop :=
  exists a s s', f root = Ok (a, s) /\ f root' = Ok (a, s') /\ agree s s' /\ later root s /\ P a s.

Class JoinPlannerOk (Root Rel : Type) {planner : JoinPlanner Root Rel} := {
  join_members : Rel -> list Z;
  rel_ok : Root -> Rel -> Prop;
  agree : Root -> Root -> Prop;
  later : Root -> Root -> Prop;
  agree_self root root' : agree root root' -> agree root root;
  agree_sym root root' : agree root root' -> agree root' root;
  later_refl root : later root root;
  later_trans s1 s2 s3 : later s1 s2 -> later s2 s3 -> later s1 s3;
  rel_later s s' r : later s s' -> rel_ok s r -> rel_ok s' r;
  rel_agree s s' r : agree s s' -> rel_ok s r -> rel_ok s' r;
  planner_joins root root' r1 r2 : agree root root' -> rel_ok root r1 -> rel_ok root r2 -> NoDup (join_members r1 ++ join_members r2) ->
    both agree later root root' (fun root => join_clumps root r1 r2)
      (fun joined s => forall r, joined = Some r -> rel_ok s r /\ join_members r ≡ₚ join_members r1 ++ join_members r2);
  planner_wants root root' r1 r2 : agree root root' -> rel_ok root r1 -> rel_ok root r2 -> NoDup (join_members r1 ++ join_members r2) ->
    exists b, desirable_join root r1 r2 = Ok b /\ desirable_join root' r1 r2 = Ok b;
  hash_set root h : root_hash (set_root_hash root h) = h;
  joins_set_hash root h : root_joins (set_root_hash root h) = root_joins root;
  hash_delete created root : root_hash (delete_context created root) = root_hash root;
  joins_delete created root : root_joins (delete_context created root) = root_joins root;
  joins_set root l : root_joins (set_root_joins root l) = l;
  levels_unused root : agree root root -> levels_in_use root = false;
  hash_hidden root : agree root root -> agree (set_root_hash root None) root;
  joins_later s s' : later s s' -> exists new, root_joins s' = root_joins s ++ new;
  planner_goes_on root built : agree root root -> agree built built -> later (set_root_hash root None) built ->
    let restored := delete_context root (set_root_hash (set_root_joins built (root_joins root)) (root_hash root)) in agree restored restored /\ later root restored;
  planner_costs root root' r : agree root root' -> cheapest_total_cost root r = cheapest_total_cost root' r
}.

Section Tree.
Context {Root Rel : Type} {planner : JoinPlanner Root Rel} {planner_ok : JoinPlannerOk Root Rel}.
Implicit Types (root : Root) (c : Clump Rel) (cs : list (Clump Rel)).
#[local] Abbreviation twice := (both agree later).

Lemma both_here {A} root root' (a : A) (P : A -> Root -> Prop) : agree root root' -> P a root -> twice root root' (fun root => Ok (a, root)) P.
Proof. intros Ha HP. exists a, root, root'. split_and!; [done|done|done|apply later_refl|done]. Qed.
Lemma both_bind {A B} root root' f (g : A * Root -> result (B * Root)) (P : A -> Root -> Prop) (Q : B -> Root -> Prop) : twice root root' f P ->
  (forall a s s', P a s -> agree s s' -> later root s -> twice s s' (fun root => g (a, root)) Q) -> twice root root' (fun root => f root ≫= g) Q.
Proof.
  intros (a & s & s' & E & E' & Ha & Hl & HP) Hg. destruct (Hg a s s' HP Ha Hl) as (b & t & t' & F & F' & Hb & Hm & HQ).
  exists b, t, t'. rewrite E, E'. split_and!; [done|done|done|by eapply later_trans|done].
Qed.
Lemma both_ext {A} root root' (f g : Root -> result (A * Root)) (P : A -> Root -> Prop) : f root = g root -> f root' = g root' -> twice root root' g P -> twice root root' f P.
Proof. intros E E' (a & s & s' & H). exists a, s, s'. by rewrite E, E'. Qed.
Lemma both_impl {A} root root' (f : Root -> result (A * Root)) (P Q : A -> Root -> Prop) : twice root root' f P -> (forall a s, later root s -> P a s -> Q a s) -> twice root root' f Q.
Proof. intros (a & s & s' & E & E' & Ha & Hl & HP) H. exists a, s, s'. split_and!; auto. Qed.

Definition members cs : list Z := cs ≫= (fun c => join_members (joinrel c)).
Definition larger c1 c2 : Prop := clump_size c2 <= clump_size c1.
(** In some state of the planner the two relations are not joined. *)
Definition refuses (old new : Rel) : Prop :=
  exists root root', agree root root /\ make_join_rel root old new = Ok (None, root').

Lemma members_app cs1 cs2 : members (cs1 ++ cs2) = members cs1 ++ members cs2.
Proof. apply bind_app. Qed.
Lemma members_cons c cs : members (c :: cs) = join_members (joinrel c) ++ members cs.
Proof. done. Qed.
Lemma members_in c cs x : c ∈ cs -> x ∈ join_members (joinrel c) -> x ∈ members cs.
Proof. intros Hc Hx. apply list_elem_of_bind. by exists c. Qed.

Lemma clumps_join root root' r1 r2 : agree root root' -> rel_ok root r1 -> rel_ok root r2 -> NoDup (join_members r1 ++ join_members r2) ->
  twice root root' (fun root => join_clumps root r1 r2)
    (fun joined s => (forall r, joined = Some r -> rel_ok s r /\ join_members r ≡ₚ join_members r1 ++ join_members r2) /\ (joined = None -> refuses r1 r2)).
Proof.
  intros Ha H1 H2 Hd. destruct (planner_joins root root' r1 r2 Ha H1 H2 Hd) as (joined & s & s' & E & E' & Hs & Hl & Hj).
  exists joined, s, s'. split_and!; try done. intros ->. exists root. unfold join_clumps in E.
  destruct (make_join_rel root r1 r2) as [[[r|] t]| |]; try done; [cbn in E; by destruct (finish_join_rel t r)|].
  exists t. split; [by apply (agree_self _ root')|done].
Qed.

(** The outcome of the search for a clump to join to. *)
Definition found_clump (new : Clump Rel) (force : bool) (pre cs : list (Clump Rel)) (found : option (list (Clump Rel) * Clump Rel)) (s : Root) : Prop :=
  match found with
  | Some (rest, merged) => exists before old after,
      cs = before ++ old :: after /\ rest = pre ++ before ++ after /\ rel_ok s (joinrel merged) /\
      join_members (joinrel merged) ≡ₚ join_members (joinrel old) ++ join_members (joinrel new) /\
      clump_size merged = clump_size old + clump_size new
  | None => force = true -> forall old, old ∈ cs -> refuses (joinrel old) (joinrel new)
  end.
Lemma found_skip new force pre c cs found s : found_clump new force (pre ++ [c]) cs found s -> (force = true -> refuses (joinrel c) (joinrel new)) ->
  found_clump new force pre (c :: cs) found s.
Proof.
  intros H Hc. destruct found as [[rest merged]|]; cbn in *.
  - destruct H as (before & old & after & -> & -> & H). exists (c :: before), old, after. by rewrite <- app_assoc.
  - intros Hf old [->|Hold]%elem_of_cons; auto.
Qed.

(** Relations that can be joined to [new]. *)
Definition joinable (s : Root) (new : Clump Rel) cs : Prop :=
  forall old, old ∈ cs -> rel_ok s (joinrel old) /\ NoDup (join_members (joinrel old) ++ join_members (joinrel new)).
Lemma joinable_later s s' new cs : later s s' -> joinable s new cs -> joinable s' new cs.
Proof. intros Hl H old Ho. destruct (H old Ho). split; [by apply (rel_later s)|done]. Qed.
Lemma find_clump_spec new force : forall cs pre root root', agree root root' -> rel_ok root (joinrel new) -> joinable root new cs ->
  twice root root' (fun root => find_clump root pre cs new force) (found_clump new force pre cs).
Proof.
  induction cs as [|c cs IH]; intros pre root root' Ha Hnew Hcs; cbn [find_clump].
  { apply both_here; [done|]. by intros _ old ?%elem_of_nil. }
  destruct (Hcs c) as [Hc Hd]; [by left|].
  assert (joinable root new cs) as Hrest by (intros old Ho; apply Hcs; by right).
  assert (exists b, (if force then Ok true else desirable_join root (joinrel c) (joinrel new)) = Ok b /\
    (if force then Ok true else desirable_join root' (joinrel c) (joinrel new)) = Ok b /\ (force = true -> b = true)) as (b & E & E' & Hb).
  { destruct force; [by exists true|]. destruct (planner_wants root root' _ _ Ha Hc Hnew Hd) as (b & E & E'). by exists b. }
  apply (both_ext _ _ _ (fun root => if b then '(joined, root) ← join_clumps root (joinrel c) (joinrel new);
    match joined with
    | Some r => Ok (Some (pre ++ cs, {| joinrel := r; clump_size := clump_size c + clump_size new |}), root)
    | None => find_clump root (pre ++ [c]) cs new force
    end else find_clump root (pre ++ [c]) cs new force)); [by rewrite E|by rewrite E'|]. destruct b.
  - eapply both_bind; [by apply clumps_join|]. intros [r|] s s' [Hj Hr] Hs Hl.
    + apply both_here; [done|]. destruct (Hj r eq_refl) as [H1 H2]. by exists [], c, cs.
    + eapply both_impl; [apply IH; [done|by apply (rel_later root)|by apply (joinable_later root)]|]. intros found t _ Hf. apply found_skip; auto.
  - eapply both_impl; [by apply IH|]. intros found t _ Hf. apply found_skip; [done|]. intros Hforce. by specialize (Hb Hforce).
Qed.

Lemma insert_clump_spec cs c : exists before after, cs = before ++ after /\
  insert_clump cs c = before ++ c :: after /\
  (forall b, b ∈ before -> larger b c) /\ (StronglySorted larger cs -> forall a, a ∈ after -> larger c a).
Proof.
  induction cs as [|x cs IH]; cbn [insert_clump].
  - exists [], []. split_and!; [done|done|by intros b ?%elem_of_nil|by intros _ a ?%elem_of_nil].
  - destruct (Z.ltb_spec (clump_size x) (clump_size c)).
    + exists [], (x :: cs). split_and!; [done|done|by intros b ?%elem_of_nil|].
      intros [_ Hx]%StronglySorted_inv a [->|Ha]%elem_of_cons; unfold larger; [lia|].
      rewrite Forall_forall in Hx. pose proof (Hx a Ha). unfold larger in *. lia.
    + destruct IH as (before & after & -> & -> & Hb & Ha). exists (x :: before), after. split_and!; [done|done| |].
      * intros b [->|?]%elem_of_cons; [done|by apply Hb].
      * intros [Hs _]%StronglySorted_inv. by apply Ha.
Qed.

(** The invariant of the list of clumps. *)
Record clumps_ok (s : Root) cs : Prop := {
  co_sorted : StronglySorted larger cs;
  co_each : forall c, c ∈ cs -> 1 <= clump_size c /\ rel_ok s (joinrel c)
}.
Lemma clumps_later s s' cs : later s s' -> clumps_ok s cs -> clumps_ok s' cs.
Proof. intros Hl [Hs Hp]. split; [done|]. intros c Hc. destruct (Hp c Hc). split; [done|by apply (rel_later s)]. Qed.
(** No later clump of the forced pass could be joined to an earlier one. *)
Definition stuck_pairs cs : Prop :=
  forall i j c1 c2, cs !! i = Some c1 -> cs !! j = Some c2 -> i <> j ->
    refuses (joinrel c1) (joinrel c2) \/ refuses (joinrel c2) (joinrel c1).

Lemma clumps_ok_remove s before old after : clumps_ok s (before ++ old :: after) -> clumps_ok s (before ++ after) /\ 1 <= clump_size old.
Proof.
  intros [Hs Hp]. split; [split|].
  - eapply StronglySorted_sublist; [exact Hs|]. apply sublist_app; [done|]. by apply sublist_cons.
  - intros c Hc. apply Hp. apply elem_of_app in Hc. rewrite elem_of_app, elem_of_cons. tauto.
  - apply Hp. rewrite elem_of_app, elem_of_cons. tauto.
Qed.

(** A clump that joins none of the others is put in its place. *)
Lemma place_clump s cs c : clumps_ok s cs -> 1 <= clump_size c /\ rel_ok s (joinrel c) ->
  exists before after, cs = before ++ after /\ clumps_ok s (before ++ c :: after) /\
    (if (match cs with [] => true | _ => false end) || (clump_size c =? 1) then cs ++ [c] else insert_clump cs c)
      = before ++ c :: after.
Proof.
  intros [Hs Hp] Hc.
  assert (forall before after, cs = before ++ after -> (forall b, b ∈ before -> larger b c) ->
    (forall a, a ∈ after -> larger c a) -> clumps_ok s (before ++ c :: after)) as Hmk.
  { intros before after -> Hb Ha. split; [by apply StronglySorted_insert|].
    intros x. rewrite elem_of_app, elem_of_cons. intros [Hx|[->|Hx]]; [|done|]; apply Hp, elem_of_app; auto. }
  destruct (match cs with [] => true | _ => false end || (clump_size c =? 1)) eqn:E.
  - exists cs, []. split_and!; [by rewrite app_nil_r| |done].
    apply Hmk; [by rewrite app_nil_r| |by intros a ?%elem_of_nil].
    intros b Hb. unfold larger. destruct cs; [by apply elem_of_nil in Hb|]. cbn in E. apply Z.eqb_eq in E.
    destruct (Hp b Hb). lia.
  - destruct (insert_clump_spec cs c) as (before & after & Hcs & Hins & Hb & Ha).
    exists before, after. split_and!; [done| |done]. apply Hmk; [done|done|]. by apply Ha.
Qed.

Lemma stuck_remove before old after : stuck_pairs (before ++ old :: after) -> stuck_pairs (before ++ after).
Proof.
  intros H i j c1 c2 H1 H2 Hij.
  set (up := fun k => if decide (k < length before)%nat then k else S k).
  assert (forall k c, (before ++ after) !! k = Some c -> (before ++ old :: after) !! up k = Some c) as Hup.
  { intros k c Hk. unfold up. destruct (decide (k < length before)%nat) as [Hlt|Hge].
    - rewrite lookup_app_l in Hk |- * by done. done.
    - rewrite lookup_app_r in Hk by lia. rewrite lookup_app_r by lia.
      by replace (S k - length before)%nat with (S (k - length before)) by lia. }
  apply (H (up i) (up j)); [by apply Hup|by apply Hup|]. unfold up.
  destruct (decide (i < length before)%nat), (decide (j < length before)%nat); lia.
Qed.
Lemma stuck_insert before c after : stuck_pairs (before ++ after) ->
  (forall x, x ∈ before ++ after -> refuses (joinrel x) (joinrel c)) -> stuck_pairs (before ++ c :: after).
Proof.
  intros H Hc i j c1 c2 H1 H2 Hij.
  set (down := fun k => if decide (k < length before)%nat then k else (k - 1)%nat).
  assert (forall k x, k <> length before -> (before ++ c :: after) !! k = Some x -> (before ++ after) !! down k = Some x) as Hdown.
  { intros k x Hne Hk. unfold down. destruct (decide (k < length before)%nat) as [Hlt|Hge].
    - rewrite lookup_app_l in Hk |- * by done. done.
    - rewrite lookup_app_r in Hk by lia. rewrite lookup_app_r by lia.
      by replace (k - length before)%nat with (S (k - 1 - length before)) in Hk by lia. }
  destruct (decide (i = length before)) as [->|Hi], (decide (j = length before)) as [->|Hj]; [done|..].
  - rewrite list_lookup_middle in H1 by done. injection H1 as <-. right.
    by eapply Hc, list_elem_of_lookup_2, Hdown.
  - rewrite list_lookup_middle in H2 by done. injection H2 as <-. left.
    by eapply Hc, list_elem_of_lookup_2, Hdown.
  - apply (H (down i) (down j)); [by apply Hdown..|]. unfold down.
    destruct (decide (i < length before)%nat), (decide (j < length before)%nat); lia.
Qed.

(** What merging [c] into [cs] gives. *)
Definition merged_into (force : bool) cs c cs' (s : Root) : Prop :=
  clumps_ok s cs' /\ members cs' ≡ₚ members cs ++ join_members (joinrel c) /\ cs' <> [] /\ (force = true -> stuck_pairs cs -> stuck_pairs cs').
Lemma place_spec s force cs c : clumps_ok s cs -> 1 <= clump_size c /\ rel_ok s (joinrel c) ->
  (force = true -> forall old, old ∈ cs -> refuses (joinrel old) (joinrel c)) ->
  merged_into force cs c (if (match cs with [] => true | _ => false end) || (clump_size c =? 1) then cs ++ [c] else insert_clump cs c) s.
Proof.
  intros Hok Hc Hno. destruct (place_clump s cs c Hok Hc) as (before & after & Hcs & Hok' & ->).
  split; [done|]. split_and!.
  - rewrite Hcs, !members_app, members_cons. solve_Permutation.
  - by destruct before.
  - intros Hforce Hst. rewrite Hcs in *. apply stuck_insert; [done|]. by apply Hno.
Qed.

Lemma joinable_apart s cs c : clumps_ok s cs -> NoDup (members cs ++ join_members (joinrel c)) -> joinable s c cs.
Proof.
  intros Hok Hd old Ho. split; [by apply Hok|]. apply list_elem_of_split in Ho as (before & after & ->).
  rewrite members_app, members_cons in Hd. eapply sublist_NoDup; [exact Hd|]. apply sublist_app; [|done].
  apply sublist_inserts_l, sublist_inserts_r. done.
Qed.
Lemma merge_clump_rec_spec force : forall fuel cs c root root', agree root root' -> (length cs <= fuel)%nat -> clumps_ok root cs ->
  1 <= clump_size c /\ rel_ok root (joinrel c) -> NoDup (members cs ++ join_members (joinrel c)) ->
  twice root root' (fun root => merge_clump_rec fuel root cs c force) (merged_into force cs c).
Proof.
  induction fuel as [|fuel IH]; intros cs c root root' Ha Hf Hok Hc Hd; cbn [merge_clump_rec];
    pose proof (joinable_apart root cs c Hok Hd) as Hj;
    (eapply both_bind; [by apply find_clump_spec; [|apply Hc|]|]); (intros [[rest merged]|] s s' Hfound Hs Hl;
      [|apply both_here; [done|]; apply place_spec; [by apply (clumps_later root)|split; [apply Hc|apply (rel_later root); [done|apply Hc]]|done]]);
    destruct Hfound as (before & old & after & -> & -> & Hm & Hmem & Hsz); [rewrite length_app in Hf; cbn in Hf; lia|].
  cbn [app]. destruct (clumps_ok_remove _ _ _ _ (clumps_later _ _ _ Hl Hok)) as [Hok' Hold].
  assert (members (before ++ old :: after) ++ join_members (joinrel c) ≡ₚ members (before ++ after) ++ join_members (joinrel merged)) as Hall.
  { rewrite Hmem, !members_app, members_cons. solve_Permutation. }
  eapply both_impl; [apply (IH (before ++ after) merged); [done| |done|split; [lia|done]|by rewrite <- Hall]|].
  { rewrite length_app in *. cbn in Hf. lia. }
  intros cs' t _ (H1 & H2 & H3 & H4). split; [done|]. split_and!; [by rewrite H2, Hall|done|].
  intros Hforce Hstuck. apply H4; [done|]. by eapply stuck_remove.
Qed.

(** The relations that a list of genes stands for. *)
Definition gene_members (rels : list Rel) (gs : list Gene) : list Z :=
  gs ≫= (fun g => from_option join_members [] (rels !! Z.to_nat (g - 1))).

Lemma gene_members_all rels : gene_members rels (seqZ 1 (Z.of_nat (length rels))) = rels ≫= join_members.
Proof.
  unfold gene_members. induction rels as [|r rels IH] using rev_ind; [done|].
  rewrite length_app. cbn [length]. replace (Z.of_nat (length rels + 1)) with (Z.of_nat (length rels) + 1) by lia.
  rewrite (seqZ_app 1 (Z.of_nat (length rels)) 1), !bind_app by lia. f_equal.
  - rewrite <- IH. apply bind_ext_in. intros g Hg%elem_of_seqZ. by rewrite lookup_app_l by lia.
  - rewrite seqZ_cons, seqZ_nil by lia. cbn [mbind list_bind]. rewrite lookup_app_r by lia.
    by replace (Z.to_nat (1 + Z.of_nat (length rels) - 1) - length rels)%nat with 0%nat by lia.
Qed.

Section Inputs.
Context (rels : list Rel) (Hapart : NoDup (rels ≫= join_members)).

Lemma tour_members tour n : 0 <= n -> length rels = Z.to_nat n -> is_tour n (take (Z.to_nat n) tour) ->
  gene_members rels (take (Z.to_nat n) tour) ≡ₚ rels ≫= join_members.
Proof.
  intros Hn Hr Ht. rewrite <- gene_members_all. unfold gene_members. rewrite Hr, Z2Nat.id by done. by apply bind_Permutation.
Qed.

Lemma rels_later s s' : later s s' -> Forall (rel_ok s) rels -> Forall (rel_ok s') rels.
Proof. intros Hl H. eapply Forall_impl; [exact H|]. intros r. by apply rel_later. Qed.
Lemma clump_tour_ok tour n : 0 <= n -> length rels = Z.to_nat n -> is_tour n (take (Z.to_nat n) tour) ->
  forall m (k : nat) cs root root', agree root root' -> Forall (rel_ok root) rels -> m = (Z.to_nat n - k)%nat -> (k <= Z.to_nat n)%nat -> clumps_ok root cs -> (cs <> [] \/ (k < Z.to_nat n)%nat) ->
  members cs ≡ₚ gene_members rels (take k tour) ->
  twice root root' (fun root => clump_tour root rels cs tour (seqZ (Z.of_nat k) (n - Z.of_nat k)))
    (fun cs' s => clumps_ok s cs' /\ cs' <> [] /\ members cs' ≡ₚ rels ≫= join_members).
Proof.
  intros Hn Hr Ht m. pose proof (tour_members tour n Hn Hr Ht) as Hall. apply is_tour_elim in Ht as (_ & Hlen & Hrange).
  induction m as [|m IH]; intros k cs root root' Ha Hrels Hm Hk Hok Hne Hmem.
  - rewrite seqZ_nil by lia. apply both_here; [done|]. split_and!; [done|destruct Hne; [done|lia]|].
    replace k with (Z.to_nat n) in Hmem by lia. by rewrite Hmem.
  - rewrite seqZ_cons by lia. cbn [clump_tour].
    destruct (lookup_lt_is_Some_2 tour k) as [g Hg]; [rewrite length_take in Hlen; lia|].
    rewrite (array_get_ok _ _ _ Hg). cbn [mbind result_bind].
    assert (1 <= g <= n) as Hgr by (apply Hrange, list_elem_of_lookup_2 with k; by rewrite lookup_take_lt by lia).
    destruct (lookup_lt_is_Some_2 rels (Z.to_nat (g - 1))) as [r Hrel]; [lia|].
    rewrite (array_get_Z _ _ r) by (done || lia). cbn [mbind result_bind].
    replace (Z.succ (Z.of_nat k)) with (Z.of_nat (S k)) by lia.
    replace (Z.pred (n - Z.of_nat k)) with (n - Z.of_nat (S k)) by lia.
    assert (members cs ++ join_members r ≡ₚ gene_members rels (take (S k) tour)) as Hnext.
    { rewrite Hmem, (take_S_r _ _ _ Hg). unfold gene_members. rewrite bind_app. cbn. by rewrite Hrel, app_nil_r. }
    assert (NoDup (gene_members rels (take (S k) tour))) as Hnd.
    { rewrite <- Hall in Hapart. unfold gene_members in *. rewrite <- (take_drop (S k) (take (Z.to_nat n) tour)), take_take, bind_app in Hapart.
      rewrite Nat.min_l in Hapart by lia. by apply NoDup_app in Hapart as (? & _). }
    eapply both_bind.
    { apply (merge_clump_rec_spec false (length cs) cs {| joinrel := r; clump_size := 1 |}); [done|lia|done| |by rewrite Hnext].
      split; [done|]. by apply (Forall_lookup_1 _ _ _ _ Hrels Hrel). }
    intros cs' s s' (H1 & H2 & H3 & _) Hs Hl. apply IH; [done|by apply (rels_later root)|lia|lia|done|by left|]. by rewrite H2, Hnext.
Qed.

Lemma force_ok : forall cs acc root root', agree root root' -> clumps_ok root cs -> clumps_ok root acc -> (cs <> [] \/ acc <> []) -> stuck_pairs acc ->
  NoDup (members acc ++ members cs) ->
  twice root root' (fun root => force_clumps root acc cs)
    (fun cs' s => clumps_ok s cs' /\ cs' <> [] /\ members cs' ≡ₚ members acc ++ members cs /\ stuck_pairs cs').
Proof.
  induction cs as [|c cs IH]; intros acc root root' Ha [Hs Hp] Hacc Hne Hst Hd; cbn [force_clumps].
  - apply both_here; [done|]. rewrite app_nil_r. destruct Hne; done.
  - rewrite members_cons, app_assoc in Hd. pose proof (proj1 (proj1 (NoDup_app _ _) Hd)) as Hd'. apply StronglySorted_inv in Hs as [Hs _]. eapply both_bind.
    { apply (merge_clump_rec_spec true (length acc) acc c); [done|lia|done|apply Hp; by left|done]. }
    intros acc' s s' (H1 & H2 & H3 & H4) Has Hl.
    eapply both_impl; [apply IH; [done|apply (clumps_later root); [done|]; split; [done|intros; apply Hp; by right]|done|by right|by apply H4|by rewrite H2]|].
    intros cs' t _ (G0 & G1 & G2 & G3). split; [done|]. split_and!; [done| |done]. by rewrite G2, H2, members_cons, <- app_assoc.
Qed.

(** What a tree may be: all of the relations joined, or a proof that there is none. *)
Definition tree_spec (tree : option Rel) (s : Root) : Prop :=
  match tree with
  | Some r => rel_ok s r /\ join_members r ≡ₚ rels ≫= join_members
  | None => exists r1 r2, join_members r1 ++ join_members r2 ⊆+ rels ≫= join_members /\ (refuses r1 r2 \/ refuses r2 r1)
  end.
Lemma clumps_tree s cs : clumps_ok s cs -> cs <> [] -> members cs ≡ₚ rels ≫= join_members -> ((1 < length cs)%nat -> stuck_pairs cs) ->
  tree_spec (match cs with [clump] => Some (joinrel clump) | _ => None end) s.
Proof.
  intros Hok Hne Hm Hst. destruct cs as [|c1 [|c2 cs]]; [done| |].
  - split; [apply Hok; by left|]. rewrite <- Hm. by rewrite members_cons, app_nil_r.
  - exists (joinrel c1), (joinrel c2). split.
    + rewrite <- Hm, !members_cons, app_assoc. apply submseteq_inserts_r. done.
    + apply (Hst ltac:(cbn; lia) 0%nat 1%nat c1 c2); done.
Qed.

Lemma gimme_tree_spec root root' tour n : agree root root' -> Forall (rel_ok root) rels -> 1 <= n -> length rels = Z.to_nat n -> is_tour n (take (Z.to_nat n) tour) ->
  twice root root' (fun root => gimme_tree root rels tour n) tree_spec.
Proof.
  intros Ha Hrels Hn Hr Ht. unfold gimme_tree. eapply both_bind.
  { pose proof (clump_tour_ok tour n ltac:(lia) Hr Ht (Z.to_nat n) 0 [] root root' Ha Hrels) as H. rewrite Z.sub_0_r in H.
    apply H; [lia|lia|split; [constructor|by intros c ?%elem_of_nil]|right; lia|done]. }
  intros cs s s' (Hok & Hne & Hmem) Hs _.
  apply (both_bind _ _ _ _ (fun cs' s => clumps_ok s cs' /\ cs' <> [] /\ members cs' ≡ₚ rels ≫= join_members /\ ((1 < length cs')%nat -> stuck_pairs cs'))).
  - destruct (Z.ltb_spec 1 (Z.of_nat (length cs))); [|apply both_here; [done|]; split_and!; [apply Hok..|done|done|lia]].
    eapply both_impl; [apply (force_ok cs []); [done|done|split; [constructor|by intros c ?%elem_of_nil]|by left|by intros i j c1 c2|by rewrite Hmem]|].
    intros cs' t _ (G0 & G1 & G2 & G3). split; [done|]. by rewrite G2.
  - intros cs' t t' (G0 & G1 & G2 & G3) Htt _. apply both_here; [done|]. by apply clumps_tree.
Qed.

(** [s] is a state that evaluating tours may leave: fit for use, with the join relations and the hash table of [root]. *)
Definition settled root s : Prop := agree s s /\ later root s /\ root_joins s = root_joins root /\ root_hash s = root_hash root.
Lemma settled_refl root : agree root root -> settled root root.
Proof. intros Ha. split_and!; [done|apply later_refl|done|done]. Qed.
Lemma settled_trans s1 s2 s3 : settled s1 s2 -> settled s2 s3 -> settled s1 s3.
Proof. intros (_ & L1 & J1 & H1) (A2 & L2 & J2 & H2). split_and!; [done|by eapply later_trans|congruence|congruence]. Qed.
Lemma settled_rels root s : settled root s -> Forall (rel_ok root) rels -> Forall (rel_ok s) rels.
Proof. intros (_ & Hl & _). by apply rels_later. Qed.

(** The result of [geqo_eval] is the cost of the tree that [gimme_tree] builds; the list and the hash table are afterwards what they were. *)
Lemma geqo_eval_spec root tour n : agree root root -> Forall (rel_ok root) rels -> 1 <= n -> length rels = Z.to_nat n -> is_tour n (take (Z.to_nat n) tour) ->
  exists tree built root', gimme_tree root rels tour n = Ok (tree, built) /\ tree_spec tree built /\ agree built built /\ later root built /\
    geqo_eval root rels tour n = Ok (match tree with Some r => cheapest_total_cost built r | None => DBL_MAX end, root') /\ settled root root'.
Proof.
  intros Ha Hrels Hn Hr Ht. pose proof (hash_hidden root Ha) as Hs. set (started := set_root_hash root None) in *.
  assert (Forall (rel_ok started) rels) as Hrels' by (eapply Forall_impl; [exact Hrels|]; intros r; by apply rel_agree, agree_sym).
  destruct (gimme_tree_spec started root tour n Hs Hrels' Hn Hr Ht) as (tree & t & t' & G & G' & Htt & Hl & _).
  destruct (gimme_tree_spec root root tour n Ha Hrels Hn Hr Ht) as (tree2 & t2 & _ & G2 & _ & _ & Hl2 & Hspec). rewrite G' in G2. injection G2 as <- <-.
  assert (take (length (root_joins root)) (root_joins t) = root_joins root) as Ej.
  { destruct (joins_later _ _ Hl) as [new ->]. unfold started. by rewrite joins_set_hash, take_app_length. }
  destruct (planner_goes_on root t Ha (agree_self _ _ Htt) Hl) as [Hb Hlb]. eexists tree, t', _. split_and!; [done|done|by apply (agree_self _ t), agree_sym|done| |].
  - unfold geqo_eval. rewrite (levels_unused root Ha). fold started. rewrite G. cbn [mbind result_bind]. rewrite Ej. destruct tree as [r|]; [|done]. by rewrite (planner_costs _ _ r Htt).
  - split_and!; [done|done|by rewrite joins_delete, joins_set_hash, joins_set|by rewrite hash_delete, hash_set].
Qed.
End Inputs.

(** C21: For a tour over all input relations, [gimme_tree] always comes to an end; a relation it
    returns joins every input relation exactly once; and it returns none only when two relations
    built from disjoint parts of the input remain that [make_join_rel] refuses to join.  [geqo_eval] of the tour
    gives the cost of that tree, cuts the list of join relations back to what it was, puts the hash table back, and leaves the planner fit for the next evaluation,
    with all the relations that it could use before. *)
Theorem gimme_tree_correct root rels tour n : agree root root -> Forall (rel_ok root) rels -> NoDup (rels ≫= join_members) ->
  1 <= n -> length rels = Z.to_nat n -> is_tour n (take (Z.to_nat n) tour) ->
  exists tree built root', gimme_tree root rels tour n = Ok (tree, built) /\
    match tree with
    | Some r => join_members r ≡ₚ rels ≫= join_members
    | None => exists r1 r2, join_members r1 ++ join_members r2 ⊆+ rels ≫= join_members /\ (refuses r1 r2 \/ refuses r2 r1)
    end /\
    geqo_eval root rels tour n = Ok (match tree with Some r => cheapest_total_cost built r | None => DBL_MAX end, root') /\
    root_joins root' = root_joins root /\ root_hash root' = root_hash root /\ agree root' root' /\ forall r, rel_ok root r -> rel_ok root' r.
Proof.
  intros Ha Hrels Hd Hn Hr Ht. destruct (geqo_eval_spec rels Hd root tour n Ha Hrels Hn Hr Ht) as (tree & built & root' & H1 & H2 & _ & _ & H3 & G1 & G2 & G3 & G4).
  exists tree, built, root'. split_and!; [done| |done..|]; [by destruct tree; [apply H2|]|]. intros r. by apply rel_later.
Qed.
End Tree.

(** A planner over lists of relation numbers in which relations 1 and 3 cannot be joined directly
    and only relations with consecutive numbers have a join clause; its state holds the list of the join relations, a hash table, and how often [make_join_rel] was called,
    which survives an evaluation. *)
Module TreeDemo.
Record Root := { joins : list (list Z); hash : option (list (list Z)); calls : Z }.
Definition demo_join (root : Root) (r1 r2 : list Z) : result (option (list Z) * Root) :=
  if decide (r1 = [1] /\ r2 = [3]) then Ok (None, {| joins := joins root; hash := hash root; calls := calls root + 1 |})
  else Ok (Some (r1 ++ r2), {| joins := joins root ++ [r1 ++ r2]; hash := (.++ [r1 ++ r2]) <$> hash root; calls := calls root + 1 |}).
Definition consecutive (root : Root) (r1 r2 : list Z) : result bool :=
  Ok (existsb (fun a => existsb (fun b => Z.abs (a - b) =? 1) r2) r1).
#[global] Instance demo_planner : JoinPlanner Root (list Z) := {|
  make_join_rel := demo_join;
  finish_join_rel := fun root _ => Ok root;
  have_relevant_joinclause := consecutive;
  have_join_order_restriction := fun _ _ _ => Ok false;
  cheapest_total_cost := fun _ r => dofZ (100 * hd 0 r + Z.of_nat (length r));
  RelHash := list (list Z);
  root_joins := joins;
  set_root_joins := fun root l => {| joins := l; hash := hash root; calls := calls root |};
  root_hash := hash;
  set_root_hash := fun root h => {| joins := joins root; hash := h; calls := calls root |};
  levels_in_use := fun _ => false;
  delete_context := fun _ root => root
|}.
#[global] Instance demo_planner_ok : JoinPlannerOk Root (list Z).
Proof.
  refine {| join_members := id; rel_ok := fun _ _ => True; agree := fun s s' => joins s = joins s'; later := fun s s' => joins s `prefix_of` joins s' |}; try done.
  - intros s1 s2 s3. by transitivity (joins s2).
  - intros root root' r1 r2 E _ _ _. unfold both, join_clumps. cbn. unfold demo_join. rewrite E. destruct (decide _) as [_|_]; cbn.
    + do 3 eexists. split; [done|]. split; [done|]. done.
    + do 3 eexists. split; [done|]. split; [done|]. cbn. split_and!; [done|by apply prefix_app_r|]. intros r [= <-]. done.
  - intros root root' r1 r2 _ _ _ _. unfold desirable_join. cbn. destruct (existsb _ r1); [by exists true|by exists false].
Defined.
Definition start : Root := {| joins := []; hash := Some []; calls := 0 |}.

Lemma gimme_tree_correct_witness :
  exists tree built root', gimme_tree start [[1]; [2]; [3]] [1; 3; 2; 0] 3 = Ok (tree, built) /\
    match tree with Some r => id r ≡ₚ [1; 2; 3] | None => True end /\
    geqo_eval start [[1]; [2]; [3]] [1; 3; 2; 0] 3 = Ok (match tree with Some r => cheapest_total_cost built r | None => DBL_MAX end, root') /\ hash root' = Some [].
Proof.
  destruct (gimme_tree_correct (planner_ok := demo_planner_ok) start [[1]; [2]; [3]] [1; 3; 2; 0] 3) as (tree & built & root' & H1 & H2 & H3 & _ & H4 & _).
  - reflexivity.
  - repeat constructor.
  - apply (bool_decide_unpack _). vm_compute. exact I.
  - lia.
  - reflexivity.
  - unfold is_tour. apply Permutation_skip, Permutation_swap.
  - exists tree, built, root'. split; [exact H1|]. split; [destruct tree; [exact H2|exact I]|]. split; [exact H3|exact H4].
Defined.
(** The tour visits 1 and 3 first; the tree postpones that join.  The evaluation leaves no join relation, but it is not without a trace. *)
Example tree_postpones : gimme_tree start [[1]; [2]; [3]] [1; 3; 2; 0] 3 =
    Ok (Some [3; 1; 2], {| joins := [[1; 2]; [3; 1; 2]]; hash := Some [[1; 2]; [3; 1; 2]]; calls := 2 |}) /\
  geqo_eval start [[1]; [2]; [3]] [1; 3; 2; 0] 3 = Ok (dofZ 303, {| joins := []; hash := Some []; calls := 2 |}).
Proof. split; vm_compute; reflexivity. Qed.
End TreeDemo.
