(* ===== verification/GeqoPool.v ===== *)
(** * The pool stays sorted and never loses its best individual

    [geqo_copy], [sort_pool] and [spread_chromo] of [geqo_copy.c] and [geqo_pool.c]: the binary search
    ends and finds the place of the new individual, the shift drops the worst one. *)
From S2P Require Import Prelude Float64 Prng Geqo GeqoErx.
#[local] Open Scope Z_scope.

(** ** [geqo_copy] *)
Lemma copy_genes_ok src (n : nat) : (n <= length src)%nat -> forall m (k : nat) dst, m = (n - k)%nat -> (k <= n)%nat ->
  (n <= length dst)%nat -> take k dst = take k src ->
  exists l, copy_genes dst src (seqZ (Z.of_nat k) (Z.of_nat n - Z.of_nat k)) = Ok l /\ take n l = take n src /\ length l = length dst.
Proof.
  intros Hsrc m. induction m as [|m IH]; intros k dst Hm Hk Hdst Htake.
  - rewrite seqZ_nil by lia. exists dst. replace n with k by lia. done.
  - rewrite seqZ_cons by lia. cbn [copy_genes]. destruct (lookup_lt_is_Some_2 src k) as [g Hg]; [lia|].
    rewrite (array_get_ok _ _ _ Hg). cbn [mbind result_bind]. rewrite array_set_ok by lia. cbn [mbind result_bind].
    replace (Z.succ (Z.of_nat k)) with (Z.of_nat (S k)) by lia.
    replace (Z.pred (Z.of_nat n - Z.of_nat k)) with (Z.of_nat n - Z.of_nat (S k)) by lia.
    rewrite <- (length_insert dst k g). apply IH; [lia|lia|rewrite length_insert; lia|].
    rewrite (take_S_r _ _ g) by (apply list_lookup_insert_eq; lia). rewrite take_insert_ge by lia.
    by rewrite (take_S_r src _ g), Htake.
Qed.

Lemma geqo_copy_ok c1 c2 n : 0 <= n -> alloc_chromo n c1 -> alloc_chromo n c2 ->
  exists c, geqo_copy c1 c2 n = Ok c /\ alloc_chromo n c /\ worth c = worth c2 /\
    take (Z.to_nat n) (string c) = take (Z.to_nat n) (string c2).
Proof.
  unfold alloc_chromo. intros Hn H1 H2. unfold geqo_copy.
  destruct (copy_genes_ok (string c2) (Z.to_nat n) ltac:(lia) (Z.to_nat n) 0 (string c1)) as (l & Hl & Ht & Hlen); [lia|lia|lia|done|].
  rewrite Z2Nat.id, Z.sub_0_r in Hl by lia. change (Z.of_nat 0) with 0 in Hl. rewrite Hl. cbn.
  eexists. split_and!; [done|cbn; lia|done|done].
Qed.

(** ** Sorted pools *)
Definition worth_le (c1 c2 : Chromosome) : Prop := dle (worth c1) (worth c2) = true.
Definition pool_sorted (l : list Chromosome) : Prop := StronglySorted worth_le l.
Definition numbers (l : list Chromosome) : Prop := Forall (fun c => is_nan (worth c) = false) l.

Record pool_ok (p : Pool) : Prop := {
  po_size : 0 < size p /\ length (data p) = Z.to_nat (size p);
  po_genes : 0 <= string_length p /\ Forall (alloc_chromo (string_length p)) (data p);
  po_numbers : numbers (data p);
  po_sorted : pool_sorted (data p)
}.

Lemma sorted_lookup l i j c1 c2 : pool_sorted l -> numbers l -> l !! i = Some c1 -> l !! j = Some c2 -> (i <= j)%nat ->
  dle (worth c1) (worth c2) = true.
Proof.
  intros Hs Hn Hi Hj Hij. destruct (decide (i = j)) as [->|Hne].
  - assert (c1 = c2) as -> by congruence. apply dle_refl. by apply (Forall_lookup_1 _ _ _ _ Hn Hj).
  - revert i j Hi Hj Hij Hne. induction Hs as [|c l Hs IH Hc]; intros [|i] [|j] Hi Hj Hij Hne; try done; [|lia|].
    + injection Hi as ->. rewrite Forall_forall in Hc. by apply Hc, list_elem_of_lookup_2 with j.
    + apply Forall_cons in Hn as [_ Hn]. apply (IH Hn i j); [done|done|lia|lia].
Qed.

Lemma deq_dle x y : deq x y = true -> dle x y = true /\ dle y x = true.
Proof.
  unfold deq, dle, SpecFloat.SFeqb, SpecFloat.SFleb. pose proof (SFcompare_key x y) as H1. pose proof (SFcompare_key y x) as H2.
  destruct (SpecFloat.SFcompare x y) as [[]|] eqn:E; try done. intros _. split; [done|].
  destruct (dkey x) as [[[a1 a2] a3]|], (dkey y) as [[[b1 b2] b3]|]; try done.
  destruct (SpecFloat.SFcompare y x) as [[]|]; try done. injection H1 as -> -> ->. cbn in H2. lia.
Qed.

Lemma dle_cases x y : dle x y = dlt x y || deq x y.
Proof. unfold dle, dlt, deq, SpecFloat.SFleb, SpecFloat.SFltb, SpecFloat.SFeqb. by destruct (SpecFloat.SFcompare x y) as [[]|]. Qed.
Lemma dlt_trichotomy x y : is_nan x = false -> is_nan y = false -> dlt x y = false -> deq x y = false -> dlt y x = true.
Proof. intros Hx Hy Hlt Heq. by rewrite dle_total, dle_cases, Hlt, Heq by done. Qed.

(** Where the new individual belongs: everything before it is not worse, everything from there on
    not better. *)
Definition belongs (l : list Chromosome) (w : double) (i : nat) : Prop :=
  (forall j c, (j < i)%nat -> l !! j = Some c -> dle (worth c) w = true) /\
  (forall j c, (i <= j)%nat -> l !! j = Some c -> dle w (worth c) = true).

Lemma belongs_at l w i c : pool_sorted l -> numbers l -> l !! i = Some c -> dle w (worth c) = true ->
  (forall c', (0 < i)%nat -> l !! (i - 1)%nat = Some c' -> dle (worth c') w = true) -> belongs l w i.
Proof.
  intros Hs Hn Hi Hle Hprev. split; intros j x Hj Hx.
  - destruct (lookup_lt_is_Some_2 l (i - 1)%nat) as [y Hy]; [pose proof (lookup_lt_Some _ _ _ Hi); lia|].
    eapply dle_trans; [eapply (sorted_lookup l j (i - 1)); [done|done|done|exact Hy|lia]|]. apply Hprev; [lia|done].
  - eapply dle_trans; [exact Hle|]. by eapply (sorted_lookup l i j).
Qed.

Lemma spread_search_ok l w : pool_sorted l -> numbers l -> is_nan w = false ->
  forall fuel (top mid bot : nat), (bot - top < fuel)%nat -> (top <= mid <= bot)%nat -> (bot < length l)%nat ->
  ((2 <= bot - top)%nat -> (top < mid < bot)%nat) ->
  (forall c, (0 < top)%nat -> l !! top = Some c -> dlt (worth c) w = true) ->
  (forall c, l !! bot = Some c -> dle w (worth c) = true) ->
  exists i, spread_search fuel l w (Z.of_nat top) (Z.of_nat mid) (Z.of_nat bot) = Ok (Z.of_nat i) /\
    (i <= bot)%nat /\ belongs l w i.
Proof.
  intros Hs Hn Hw. induction fuel as [|fuel IH]; intros top mid bot Hf Hmid Hbot Hstrict Htop Hb; [lia|]. cbn [spread_search].
  destruct (lookup_lt_is_Some_2 l top) as [t Ht]; [lia|]. destruct (lookup_lt_is_Some_2 l mid) as [m Hm]; [lia|].
  destruct (lookup_lt_is_Some_2 l bot) as [b Hbb]; [lia|].
  rewrite (array_get_ok _ _ _ Ht). cbn [mbind result_bind]. rewrite (array_get_ok _ _ _ Hm). cbn [mbind result_bind].
  rewrite (array_get_ok _ _ _ Hbb). cbn [mbind result_bind].
  pose proof (Forall_lookup_1 _ _ _ _ Hn Ht) as Nt. pose proof (Forall_lookup_1 _ _ _ _ Hn Hm) as Nm.
  assert (forall i c, l !! i = Some c -> deq w (worth c) = true -> belongs l w i) as Heq.
  { intros i c Hi [H1 H2]%deq_dle. apply (belongs_at l w i c); [done..|]. intros c' Hi' Hc'.
    eapply dle_trans; [|exact H2]. eapply (sorted_lookup l (i - 1) i); [done|done|done|done|lia]. }
  destruct (dle w (worth t)) eqn:E1.
  { exists top. split_and!; [done|lia|]. apply (belongs_at l w top t); [done..|]. intros c' Hi Hc'.
    exfalso. pose proof (Htop t Hi Ht). by eapply dle_lt_contra. }
  destruct (deq w (worth m)) eqn:E2; [exists mid; split_and!; [done|lia|by apply (Heq _ _ Hm)]|].
  destruct (deq w (worth b)) eqn:E3; [exists bot; split_and!; [done|lia|by apply (Heq _ _ Hbb)]|].
  assert (dlt (worth t) w = true) as Htw by (rewrite dle_total by done; by rewrite E1).
  destruct (Z.leb_spec (Z.of_nat bot - Z.of_nat top) 1).
  { exists bot. split_and!; [done|lia|]. apply (belongs_at l w bot b); [done|done|done|by apply Hb|].
    intros c' Hi Hc'. assert (bot = top \/ bot - 1 = top)%nat as [->|Heqt] by lia.
    - exfalso. assert (b = t) as -> by congruence. pose proof (Hb t Ht). by eapply dle_lt_contra.
    - rewrite Heqt in Hc'. assert (c' = t) as -> by congruence. by apply dlt_le. }
  assert (top < mid < bot)%nat as Hin by (apply Hstrict; lia).
  assert (forall a d : nat, (a <= d)%nat -> Z.of_nat a + Z.quot (Z.of_nat d - Z.of_nat a) 2 = Z.of_nat (a + (d - a) / 2)) as Hquot.
  { intros a d Had. rewrite Z.quot_div_nonneg by lia. rewrite Nat2Z.inj_add, Nat2Z.inj_div, Nat2Z.inj_sub by lia. done. }
  assert (forall a d : nat, (a <= d)%nat -> (a <= a + (d - a) / 2 <= d)%nat /\ ((2 <= d - a)%nat -> (a < a + (d - a) / 2 < d)%nat)) as Hhalf.
  { intros a d Had. pose proof (Nat.div_mod (d - a) 2 ltac:(lia)). pose proof (Nat.mod_upper_bound (d - a) 2 ltac:(lia)). lia. }
  destruct (dlt w (worth m)) eqn:E4; rewrite Hquot by lia.
  - destruct (Hhalf top mid ltac:(lia)) as [Hh1 Hh2].
    destruct (IH top (top + (mid - top) / 2)%nat mid) as (i & -> & Hi & Hbel); [lia|lia|lia|lia|done| |].
    + intros c Hc. assert (c = m) as -> by congruence. by apply dlt_le.
    + exists i. split_and!; [done|lia|done].
  - destruct (Hhalf mid bot ltac:(lia)) as [Hh1 Hh2].
    destruct (IH mid (mid + (bot - mid) / 2)%nat bot) as (i & -> & Hi & Hbel); [lia|lia|lia|lia| |done|].
    + intros c _ Hc. assert (c = m) as -> by congruence. by apply dlt_trichotomy.
    + exists i. split_and!; [done|lia|done].
Qed.

(** ** The shift *)
Lemma move_down_ok : forall m (k : nat) l s, m = (length l - k)%nat -> (k < length l)%nat ->
  move_down l s (seqZ (Z.of_nat k) (Z.of_nat (length l) - Z.of_nat k)) =
    Ok (take k l ++ s :: drop k (take (length l - 1) l)).
Proof.
  induction m as [|m IH]; intros k l s Hm Hk; [lia|]. rewrite seqZ_cons by lia. cbn [move_down].
  destruct (lookup_lt_is_Some_2 l k) as [c Hc]; [lia|].
  rewrite (array_get_ok _ _ _ Hc). cbn [mbind result_bind]. rewrite array_set_ok by lia. cbn [mbind result_bind].
  destruct (decide (k = length l - 1)%nat) as [Hlast|Hne].
  - rewrite seqZ_nil by lia. cbn. rewrite insert_take_drop by lia. f_equal. f_equal. f_equal.
    rewrite !drop_ge; [done|rewrite length_take; lia|lia].
  - replace (Z.succ (Z.of_nat k)) with (Z.of_nat (S k)) by lia.
    replace (Z.pred (Z.of_nat (length l) - Z.of_nat k)) with (Z.of_nat (length (<[k := s]> l)) - Z.of_nat (S k))
      by (rewrite length_insert; lia).
    rewrite IH by (rewrite ?length_insert; lia). f_equal. rewrite length_insert.
    rewrite (take_S_r _ _ s) by (apply list_lookup_insert_eq; lia). rewrite take_insert_ge by lia.
    rewrite <- app_assoc. cbn. do 2 f_equal. rewrite (drop_S (take (length l - 1) l) c k) by (rewrite lookup_take_lt by lia; done).
    f_equal. rewrite take_insert_lt by lia. by rewrite drop_insert_lt by lia.
Qed.

(** ** [spread_chromo] *)

(** What [spread_chromo] does to a sorted pool. *)
Definition inserted (n : Z) (chromo : Chromosome) (l l' : list Chromosome) : Prop :=
  exists before after worst kid, l = before ++ after ++ [worst] /\ l' = before ++ kid :: after /\
    worth kid = worth chromo /\ take (Z.to_nat n) (string kid) = take (Z.to_nat n) (string chromo) /\
    alloc_chromo n kid /\
    (forall c, c ∈ before -> dle (worth c) (worth chromo) = true) /\
    (forall c, c ∈ after ++ [worst] -> dle (worth chromo) (worth c) = true).

Lemma inserted_pool_ok p chromo l' : pool_ok p -> is_nan (worth chromo) = false ->
  inserted (string_length p) chromo (data p) l' ->
  pool_ok {| data := l'; size := size p; string_length := string_length p |}.
Proof.
  intros [[H0 Hlen] [Hn Hgenes] Hnum Hs] Hw (before & after & worst & kid & Hl & -> & Hwk & _ & Ha & Hb & Hc).
  unfold pool_sorted, numbers in *. rewrite Hl in *. rewrite !Forall_app in Hgenes, Hnum.
  split; cbn [data size string_length].
  - split; [done|]. rewrite <- Hlen, !length_app. cbn. lia.
  - split; [done|]. rewrite Forall_app, Forall_cons. tauto.
  - unfold numbers. rewrite Forall_app, Forall_cons, Hwk. tauto.
  - apply StronglySorted_insert.
    + eapply StronglySorted_sublist; [exact Hs|]. apply sublist_app; [done|]. by apply sublist_inserts_r.
    + intros c Hc'. unfold worth_le. rewrite Hwk. by apply Hb.
    + intros c Hc'. unfold worth_le. rewrite Hwk. apply Hc, elem_of_app. by left.
Qed.

Lemma shift_inserted n chromo kid l worst i : belongs l (worth chromo) i -> (i <= length l - 1)%nat ->
  l !! (length l - 1)%nat = Some worst -> worth kid = worth chromo ->
  take (Z.to_nat n) (string kid) = take (Z.to_nat n) (string chromo) -> alloc_chromo n kid ->
  let l1 := <[(length l - 1)%nat := kid]> l in
  inserted n chromo l (take i l1 ++ kid :: drop i (take (length l - 1) l1)).
Proof.
  intros [Hlow Hhigh] Hi Hworst Hwk Hsk Hkid. cbv zeta.
  pose proof (lookup_lt_Some _ _ _ Hworst). rewrite !take_insert_ge by lia.
  exists (take i l), (drop i (take (length l - 1) l)), worst, kid.
  assert (l = take i l ++ drop i (take (length l - 1) l) ++ [worst]) as Hsplit.
  { assert (l = take (length l - 1) l ++ [worst]) as Hd by (rewrite <- (take_S_r _ _ _ Hworst), take_ge; [done|lia]).
    rewrite Hd at 1. rewrite <- (take_drop i (take (length l - 1) l)) at 1.
    rewrite take_take, Nat.min_l by lia. by rewrite <- app_assoc. }
  split_and!; [done..| |].
  - intros c [j Hj]%list_elem_of_lookup. apply lookup_take_Some in Hj as [Hj Hji]. by apply (Hlow j).
  - intros c [j Hj]%list_elem_of_lookup. apply (Hhigh (i + j)%nat); [lia|]. rewrite Hsplit.
    rewrite lookup_app_r by (rewrite length_take; lia). rewrite length_take, Nat.min_l by lia.
    by replace (i + j - i)%nat with j by lia.
Qed.

Lemma spread_chromo_ok p chromo : pool_ok p -> is_nan (worth chromo) = false ->
  alloc_chromo (string_length p) chromo ->
  exists worst p', data p !! (Z.to_nat (size p) - 1)%nat = Some worst /\ spread_chromo chromo p = Ok p' /\ pool_ok p' /\
    size p' = size p /\ string_length p' = string_length p /\
    if dgt (worth chromo) (worth worst) then p' = p
    else inserted (string_length p) chromo (data p) (data p').
Proof.
  intros Hok Hw Ha. pose proof Hok as [[H0 Hlen] [Hn Hgenes] Hnum Hs].
  destruct (lookup_lt_is_Some_2 (data p) (Z.to_nat (size p) - 1)%nat) as [worst Hworst]; [lia|].
  exists worst. unfold spread_chromo.
  rewrite (array_get_Z _ _ worst) by (lia || by replace (Z.to_nat (size p - 1)) with (Z.to_nat (size p) - 1)%nat by lia).
  cbn [mbind result_bind]. destruct (dgt (worth chromo) (worth worst)) eqn:Eg; [by exists p|].
  assert (dle (worth chromo) (worth worst) = true) as Hle.
  { unfold dgt in Eg. fold (dlt (worth worst) (worth chromo)) in Eg. pose proof (Forall_lookup_1 _ _ _ _ Hnum Hworst) as Nw.
    rewrite dle_total in Eg by done. by destruct (dle (worth chromo) (worth worst)). }
  assert (Z.of_nat (Z.to_nat (size p) / 2) = Z.quot (size p) 2) as Hq
    by (rewrite Z.quot_div_nonneg by lia; rewrite Nat2Z.inj_div, Z2Nat.id by lia; done).
  pose proof (Nat.div_mod (Z.to_nat (size p)) 2 ltac:(lia)). pose proof (Nat.mod_upper_bound (Z.to_nat (size p)) 2 ltac:(lia)).
  destruct (spread_search_ok (data p) (worth chromo) Hs Hnum Hw (S (Z.to_nat (size p))) 0 (Z.to_nat (size p) / 2)
    (Z.to_nat (size p) - 1)) as (i & Hsearch & Hi & Hlow & Hhigh); [lia|lia|lia|lia|lia| |].
  { intros c Hc. assert (c = worst) as -> by congruence. done. }
  rewrite Hq in Hsearch. replace (Z.of_nat (Z.to_nat (size p) - 1)) with (size p - 1) in Hsearch by lia.
  change (Z.of_nat 0) with 0 in Hsearch. rewrite Hsearch. cbn [mbind result_bind].
  destruct (geqo_copy_ok worst chromo (string_length p) Hn) as (kid & -> & Hkid & Hwk & Hsk);
    [by apply (Forall_lookup_1 _ _ _ _ Hgenes Hworst)|done|]. cbn [mbind result_bind].
  replace (size p - 1) with (Z.of_nat (Z.to_nat (size p) - 1)) by lia.
  rewrite array_set_ok by lia. cbn [mbind result_bind].
  set (l1 := <[(Z.to_nat (size p) - 1)%nat := kid]> (data p)).
  assert (length l1 = Z.to_nat (size p)) as Hl1 by (unfold l1; by rewrite length_insert).
  replace (size p - Z.of_nat i) with (Z.of_nat (length l1) - Z.of_nat i) by lia.
  rewrite (move_down_ok (length l1 - i) i l1 kid eq_refl) by lia. cbn [mbind result_bind].
  assert (inserted (string_length p) chromo (data p) (take i l1 ++ kid :: drop i (take (length l1 - 1) l1))) as Hins
    by (rewrite Hl1, <- Hlen; unfold l1; rewrite <- Hlen; apply shift_inserted with worst; rewrite ?Hlen; done || lia).
  eexists. split_and!; [done|done|by eapply inserted_pool_ok|done|done|done].
Qed.

(** [spread_chromo] on a sorted pool: the binary search ends; an individual worse than the worst
    leaves the pool unchanged, any other is copied in between the not-worse and the not-better
    ones while the worst leaves; the pool keeps its size and stays sorted. *)
Theorem spread_chromo_correct p chromo : pool_ok p -> is_nan (worth chromo) = false ->
  alloc_chromo (string_length p) chromo ->
  exists worst p', data p !! (Z.to_nat (size p) - 1)%nat = Some worst /\ spread_chromo chromo p = Ok p' /\ pool_ok p' /\
    size p' = size p /\ string_length p' = string_length p /\
    if dgt (worth chromo) (worth worst) then p' = p
    else inserted (string_length p) chromo (data p) (data p').
Proof. apply spread_chromo_ok. Qed.

Module PoolDemo.
Definition chromo (g : list Gene) (w : Z) : Chromosome := {| string := g ++ [0]; worth := dofZ w |}.
Definition pool : Pool :=
  {| data := [chromo [1; 2] 10; chromo [2; 1] 50; chromo [1; 2] 90]; size := 3; string_length := 2 |}.
Lemma pool_sorted : pool_ok pool.
Proof. split; [done|split; [done|repeat constructor]|repeat constructor|repeat (constructor; [|repeat constructor]); constructor]. Qed.

Lemma spread_chromo_correct_witness :
  exists p', spread_chromo (chromo [2; 1] 20) pool = Ok p' /\ pool_ok p' /\ size p' = 3.
Proof.
  destruct (spread_chromo_correct pool (chromo [2; 1] 20)) as (worst & p' & _ & H1 & H2 & H3 & _);
    [exact pool_sorted|reflexivity|reflexivity|].
  exists p'. split; [exact H1|split; [exact H2|exact H3]].
Defined.
Example spread_chromo_computed :
  spread_chromo (chromo [2; 1] 20) pool =
    Ok {| data := [chromo [1; 2] 10; chromo [2; 1] 20; chromo [2; 1] 50]; size := 3; string_length := 2 |}.
Proof. vm_compute. reflexivity. Qed.
End PoolDemo.
