(* ===== verification/GeqoMain.v ===== *)
(** * The genetic search as a whole

    [geqo_selection.c] and [geqo_main.c]: selection stays inside the pool, every individual is a tour
    with the cost at which it was evaluated, the pool stays sorted, and the tree that [geqo] returns joins all input
    relations in the order of the cheapest tour tried. *)
From Stdlib Require Import Floats.SpecFloat.
From S2P Require Import Prelude BitUtils Float64 SortTemplate Prng FloatRange Geqo GeqoErx GeqoTour GeqoTree GeqoPool.
#[local] Open Scope Z_scope.

(** The outcomes that [geqo] itself foresees: a value with [P], or no valid plan where [hopeless]. *)
Definition outcome {A} (hopeless : Prop) (P : A -> Prop) (m : result A) : Prop :=
  match m with Ok a => P a | Error msg => msg = no_plan_msg /\ hopeless | NoFuel => True end.
Lemma outcome_bind {A B} hopeless (P : A -> Prop) (Q : B -> Prop) m f :
  outcome hopeless P m -> (forall a, P a -> outcome hopeless Q (f a)) -> outcome hopeless Q (m ≫= f).
Proof. destruct m; cbn; auto. Qed.
Lemma outcome_impl {A} hopeless hopeless' (P Q : A -> Prop) m : outcome hopeless P m -> (hopeless -> hopeless') -> (forall a, P a -> Q a) -> outcome hopeless' Q m.
Proof. destruct m; cbn; naive_solver. Qed.
Lemma holds_outcome {A} stall hopeless (P : A -> Prop) m : holds stall P m -> outcome hopeless P m.
Proof. destruct m; cbn; auto; contradiction. Qed.

(** ** Sorting *)
Lemma compare_le c1 c2 : is_nan (worth c1) = false -> is_nan (worth c2) = false -> compare c1 c2 <= 0 <-> worth_le c1 c2.
Proof.
  intros H1 H2. unfold compare, worth_le. rewrite dle_cases. unfold dgt. fold (dlt (worth c2) (worth c1)).
  rewrite (dle_total (worth c1) (worth c2)), dle_cases by done.
  destruct (deq (worth c1) (worth c2)), (dlt (worth c1) (worth c2)); cbn; split; try done; lia.
Qed.

Lemma compare_opposite c1 c2 : is_nan (worth c1) = false -> is_nan (worth c2) = false -> compare c1 c2 < 0 <-> 0 < compare c2 c1.
Proof.
  intros H1 H2. rewrite (Z.lt_nge 0), compare_le by done. unfold worth_le. pose proof (dle_total (worth c2) (worth c1) H2 H1) as Hlt.
  assert (compare c1 c2 < 0 <-> dlt (worth c1) (worth c2) = true) as ->; [|rewrite Hlt; by destruct (dle _ _)].
  unfold compare, dgt. fold (dlt (worth c2) (worth c1)). rewrite (dle_total (worth c1) (worth c2)), dle_cases by done.
  unfold dlt, deq, SpecFloat.SFltb, SpecFloat.SFeqb. by destruct (SpecFloat.SFcompare (worth c1) (worth c2)) as [[]|].
Qed.

Lemma sort_pool_ok `{QSort Chromosome} p : numbers (data p) ->
  data (sort_pool p) ≡ₚ data p /\ pool_sorted (data (sort_pool p)).
Proof.
  intros Hn. cbn. split; [apply qsort_permutes|].
  assert (forall c, c ∈ data p -> is_nan (worth c) = false) as Hin by (by apply Forall_forall).
  assert (StronglySorted (fun x y => compare x y <= 0) (qsort compare (data p))) as Hs.
  { apply qsort_sorts.
    - intros x y Hx%Hin Hy%Hin. by apply compare_opposite.
    - intros x y z Hx%Hin Hy%Hin Hz%Hin. rewrite !compare_le by done. apply dle_trans. }
  assert (forall c, c ∈ qsort compare (data p) -> is_nan (worth c) = false) as Hin'.
  { intros c. rewrite qsort_permutes. apply Hin. }
  revert Hs Hin'. generalize (qsort compare (data p)). intros l Hs Hin'.
  unfold pool_sorted. induction Hs as [|c l Hs IH Hc]; [constructor|]. constructor.
  - apply IH. intros x Hx. apply Hin'. by right.
  - rewrite Forall_forall in *. intros x Hx. apply compare_le; [apply Hin'; by left|apply Hin'; by right|by apply Hc].
Qed.

(** ** Selection *)

(** A bias for which the arithmetic of [linear_rand] has no indeterminate step: true of the limits 1.5
    and 2.0 of the parameter. *)
Definition bias_ok (bias : double) : Prop :=
  proper bias /\ dfinite bias = true /\ dfinite (dmul bias bias) = true /\
  dfinite (dmul (dofZ 4) (dsub bias (dofZ 1))) = true /\ dnonzero (dsub bias (dofZ 1)) = true.

Lemma dofZ_nonzero k : 1 <= k < 2 ^ 31 -> dnonzero (dofZ k) = true /\ proper (dofZ k).
Proof.
  intros Hk. destruct k as [|p|]; [lia| |lia].
  assert (Z.log2 (Zpos p) < 31) by (apply Z.log2_lt_pow2; lia).
  split; [|apply binary_normalize_proper]. unfold dofZ.
  by destruct (normalize_exact p 0) as (m' & -> & _); [lia..|].
Qed.

Lemma linear_index_proper bias k r : bias_ok bias -> 1 <= k < 2 ^ 31 -> dfinite r = true ->
  proper (linear_index (dofZ k) bias r).
Proof.
  intros (Hp & Hf & Hsq & H4 & Hd) Hk Hr. unfold linear_index.
  destruct (dofZ_nonzero k Hk) as [Hkn Hkp].
  assert (is_nan r = false) as Hrn by (by destruct r).
  assert (proper (dsub bias (dofZ 1))) as Hd1 by (apply dsub_proper; [done|apply binary_normalize_proper|done]).
  assert (proper (dmul bias bias)) as Hbb by (apply dmul_proper; [by apply proper_not_nan..|by left]).
  assert (proper (dmul (dmul (dofZ 4) (dsub bias (dofZ 1))) r)) as H4r.
  { apply dmul_proper; [by destruct (dmul (dofZ 4) _)|done|by left]. }
  pose proof (dsub_proper _ _ Hbb H4r Hsq) as Hs.
  set (sq := dsub (dmul bias bias) _) in *.
  assert (proper (if dgt sq dzero then dsqrt sq else sq)) as Hs' by (destruct (dgt sq dzero) eqn:E; [by apply dsqrt_proper|done]).
  apply ddiv_proper; [|done|done]. apply ddiv_proper; [|apply binary_normalize_proper|done].
  apply dmul_proper; [by apply proper_not_nan|apply proper_not_nan; by apply dsub_proper|by right; left].
Qed.

Section Main.
Context {S : Type} {source : RandomSource S} {sorter : QSort Chromosome}.
Context {Root Rel : Type} {planner : JoinPlanner Root Rel} {planner_ok : JoinPlannerOk Root Rel}.

Lemma linear_rand_ok bias k : bias_ok bias -> 1 <= k < 2 ^ 31 -> forall fuel rng, source_ok rng ->
  holds True (fun '(i, rng') => 0 <= i < k /\ source_ok rng') (linear_rand fuel k bias rng).
Proof.
  intros Hb Hk. induction fuel as [|fuel IH]; intros rng Hs; cbn [linear_rand]; [done|].
  destruct (rand_ok rng Hs) as (H0 & H1 & Hs'). destruct (rand rng) as [r rng']. cbn [fst snd] in *.
  assert (dfinite r = true) as Hr by (by destruct r as [|[]| |]).
  pose proof (linear_index_proper bias k r Hb Hk Hr) as Hi. set (index := linear_index (dofZ k) bias r) in *.
  destruct (dlt index dzero || dge index (dofZ k)) eqn:E; [by apply IH|].
  apply orb_false_iff in E as [E1 E2]. pose proof (proper_not_nan _ Hi) as Hnan.
  destruct (dofZ_nonzero k Hk) as [_ Hkp%proper_not_nan].
  destruct (truncate_below index k Hi Hk) as (z & Hz & Hzr).
  - rewrite dle_total in E1 by done. by destruct (dle dzero index).
  - rewrite dle_total by done. unfold dge in E2. fold (dle (dofZ k) index) in E2. by rewrite E2.
  - unfold dtoi32. rewrite Hz. destruct (Z.leb_spec (- 2 ^ 31) z); [|lia]. by destruct (Z.ltb_spec z (2 ^ 31)); [|lia].
Qed.
Lemma other_rand_ok bias k first : bias_ok bias -> 1 <= k < 2 ^ 31 -> forall fuel second rng, source_ok rng -> 0 <= second < k ->
  holds True (fun '(i, rng') => 0 <= i < k /\ source_ok rng') (other_rand fuel k bias first second rng).
Proof.
  intros Hb Hk. induction fuel as [|fuel IH]; intros second rng Hs Hsec; cbn [other_rand]; [done|].
  destruct (first =? second); [|done]. eapply holds_bind; [by apply linear_rand_ok|].
  intros [i rng'] [Hi Hs']. by apply IH.
Qed.

(** ** Individuals *)
Context (root : Root) (Hroot : agree root root).
Context (rels : list Rel) (n : Z) (Hn : 2 <= n < 2 ^ 31) (Hrels : length rels = Z.to_nat n).
Context (Hok : Forall (rel_ok root) rels) (Hapart : NoDup (rels ≫= join_members)).
Context (costs : forall (s : Root) (r : Rel), is_nan (cheapest_total_cost s r) = false).

(** In some state that evaluations leave, a tour has no tree, or one that costs too much. *)
Definition hopeless_tour : Prop :=
  exists s tour w s', settled root s /\ is_tour n (take (Z.to_nat n) tour) /\ geqo_eval s rels tour n = Ok (w, s') /\ dlt w DBL_MAX = false.
(** Memory that holds a tour and its cost, as evaluated in one of these states. *)
Record individual (c : Chromosome) : Prop := {
  iv_alloc : alloc_chromo n c;
  iv_tour : is_tour n (take (Z.to_nat n) (string c));
  iv_worth : exists s s', settled root s /\ geqo_eval s rels (string c) n = Ok (worth c, s')
}.

Lemma clump_tour_ext t1 t2 : take (Z.to_nat n) t1 = take (Z.to_nat n) t2 ->
  forall ixs cs s, Forall (fun i => 0 <= i < n) ixs -> clump_tour s rels cs t1 ixs = clump_tour s rels cs t2 ixs.
Proof.
  intros Ht. induction ixs as [|i ixs IH]; intros cs s Hi; [done|]. cbn [clump_tour].
  apply Forall_cons in Hi as [Hi Hixs].
  assert (array_get t1 i = array_get t2 i) as ->.
  { unfold array_get. destruct (Z.leb_spec 0 i); [|done].
    rewrite <- (lookup_take_lt t1 (Z.to_nat n)), <- (lookup_take_lt t2 (Z.to_nat n)), Ht by lia. done. }
  destruct (array_get t2 i); [|done..]. cbn [mbind result_bind]. destruct (array_get rels _); [|done..].
  cbn [mbind result_bind]. destruct (merge_clump _ _ _ _) as [[cs' s']| |]; [|done..]. cbn [mbind result_bind]. by apply IH.
Qed.
Lemma gimme_tree_ext s t1 t2 : take (Z.to_nat n) t1 = take (Z.to_nat n) t2 -> gimme_tree s rels t1 n = gimme_tree s rels t2 n.
Proof.
  intros Ht. unfold gimme_tree. rewrite (clump_tour_ext t1 t2 Ht); [done|].
  apply Forall_forall. intros i Hi%elem_of_seqZ. lia.
Qed.

Lemma geqo_eval_ok s tour : settled root s -> is_tour n (take (Z.to_nat n) tour) ->
  exists w s', geqo_eval s rels tour n = Ok (w, s') /\ is_nan w = false /\ settled root s'.
Proof.
  intros Hs Ht. destruct (geqo_eval_spec rels Hapart s tour n (proj1 Hs) (settled_rels rels root s Hs Hok) ltac:(lia) Hrels Ht) as (tree & built & s' & _ & _ & _ & _ & -> & Hs').
  do 2 eexists. split; [done|]. split; [by destruct tree|]. by apply (settled_trans root s).
Qed.
(** The same tour in other memory *)
Definition same_tour (c c' : Chromosome) : Prop := worth c' = worth c /\ take (Z.to_nat n) (string c') = take (Z.to_nat n) (string c).
Lemma individual_copy c c' : individual c -> alloc_chromo n c' -> same_tour c c' -> individual c'.
Proof.
  intros [_ Ht (s & s' & Hs & Hw)] Ha [Hwc Hst]. split; [done|by rewrite Hst|]. exists s, s'. split; [done|]. rewrite Hwc, <- Hw. unfold geqo_eval.
  destruct (levels_in_use s); [done|]. by rewrite (gimme_tree_ext _ _ _ Hst).
Qed.
Lemma individual_number c : individual c -> is_nan (worth c) = false.
Proof. intros [_ Ht (s & s' & Hs & Hw)]. destruct (geqo_eval_ok s _ Hs Ht) as (w & s2 & E & Hnan & _). congruence. Qed.

(** The tree of a tour in such a state, unless the tour is hopeless there *)
Lemma final_tree s tour : settled root s -> is_tour n (take (Z.to_nat n) tour) ->
  match gimme_tree s rels tour n with
  | Ok (Some r, built) => agree built built /\ later root built /\ rel_ok built r /\ join_members r ≡ₚ rels ≫= join_members /\
      exists s', geqo_eval s rels tour n = Ok (cheapest_total_cost built r, s')
  | Ok (None, _) => hopeless_tour
  | _ => False
  end.
Proof.
  intros Hs Ht. destruct (geqo_eval_spec rels Hapart s tour n (proj1 Hs) (settled_rels rels root s Hs Hok) ltac:(lia) Hrels Ht) as (tree & built & s' & -> & Hspec & Ha & Hl & He & _).
  destruct tree as [r|]; [|exists s, tour, DBL_MAX, s'; split_and!; [done..|by rewrite dlt_irrefl]]. destruct Hspec. split_and!; [done| |done|done|by exists s'].
  apply (later_trans _ s); [apply Hs|done].
Qed.

(** ** One generation *)
Record run_ok (sz : Z) (st : GeqoState) : Prop := {
  ru_pool : pool_ok (pool st) /\ size (pool st) = sz /\ string_length (pool st) = n;
  ru_individuals : Forall individual (data (pool st));
  ru_momma : alloc_chromo n (momma st);
  ru_daddy : alloc_chromo n (daddy st);
  ru_edges : alloc_edge_table n (edge_table st);
  ru_tried : Forall individual (tried st);
  ru_source : Forall (fun c => exists c', c' ∈ tried st /\ same_tour c' c) (data (pool st));
  ru_best : forall best c, data (pool st) !! 0%nat = Some best -> c ∈ tried st -> dle (worth best) (worth c) = true
}.

Lemma geqo_selection_ok fuel m d p bias rng : bias_ok bias -> pool_ok p -> string_length p = n -> size p < 2 ^ 31 ->
  Forall individual (data p) -> alloc_chromo n m -> alloc_chromo n d -> source_ok rng ->
  holds True (fun '(m', d', rng') => individual m' /\ individual d' /\ source_ok rng')
    (geqo_selection fuel m d p bias rng).
Proof.
  intros Hb Hp Hsl Hsz Hind Hm Hd Hs. pose proof Hp as [[H0 Hlen] _ _ _]. unfold geqo_selection. rewrite Hsl.
  assert (forall m i, alloc_chromo n m -> 0 <= i < size p -> exists c m', array_get (data p) i = Ok c /\ geqo_copy m c n = Ok m' /\ individual m') as Hcopy.
  { intros m0 i Hm0 Hi. destruct (lookup_lt_is_Some_2 (data p) (Z.to_nat i)) as [c Hc]; [lia|].
    pose proof (Forall_lookup_1 _ _ _ _ Hind Hc) as Hc'.
    destruct (geqo_copy_ok m0 c n ltac:(lia) Hm0 (iv_alloc _ Hc')) as (m' & Hm' & Ha & Hw & Ht).
    exists c, m'. split_and!; [apply array_get_Z; [lia|done]|done|]. by apply (individual_copy c); [..|split]. }
  eapply holds_bind; [apply linear_rand_ok; done || lia|]. intros [i rng1] [Hi Hs1].
  eapply holds_bind; [apply linear_rand_ok; done || lia|]. intros [j rng2] [Hj Hs2].
  eapply holds_bind with (P := fun '(k, rng') => 0 <= k < size p /\ source_ok rng').
  { destruct (1 <? size p); [apply other_rand_ok; done || lia|done]. }
  intros [k rng3] [Hk Hs3]. destruct (Hcopy m i Hm Hi) as (c1 & m' & -> & E1 & Hm'). cbn [mbind result_bind]. rewrite E1. cbn [mbind result_bind].
  destruct (Hcopy d k Hd Hk) as (c2 & d' & -> & E2 & Hd'). cbn [mbind result_bind]. rewrite E2. done.
Qed.

Lemma inserted_individuals kid l l' : individual kid -> Forall individual l -> inserted n kid l l' -> Forall individual l'.
Proof.
  intros Hk Hl (before & after & worst & kid' & -> & -> & Hw & Hs & Ha & _).
  rewrite !Forall_app in Hl. rewrite Forall_app, Forall_cons. split_and!; [tauto| |tauto].
  by apply (individual_copy kid); [..|split].
Qed.
Lemma inserted_source kid l l' (tried : list Chromosome) : inserted n kid l l' -> Forall (fun c => exists c', c' ∈ tried /\ same_tour c' c) l ->
  Forall (fun c => exists c', c' ∈ tried ++ [kid] /\ same_tour c' c) l'.
Proof.
  intros (before & after & worst & kid' & -> & -> & Hw & Hs & _) Hl. apply (Forall_impl _ (fun c => exists c', c' ∈ tried ++ [kid] /\ same_tour c' c)) in Hl.
  - rewrite !Forall_app in Hl. rewrite Forall_app, Forall_cons. split_and!; [tauto| |tauto]. exists kid. split; [apply elem_of_app; right; by left|done].
  - intros c (c' & Hc & H). exists c'. split; [apply elem_of_app; by left|done].
Qed.

(** The head of the pool stays the best of everything tried. *)
Lemma inserted_best kid l l' (tried : list Chromosome) : inserted n kid l l' -> is_nan (worth kid) = false ->
  (forall best c, l !! 0%nat = Some best -> c ∈ tried -> dle (worth best) (worth c) = true) ->
  forall best c, l' !! 0%nat = Some best -> c ∈ tried ++ [kid] -> dle (worth best) (worth c) = true.
Proof.
  intros (before & after & worst & kid' & -> & -> & Hw & _ & _ & Hb & Ha) Hnan Hold best c Hbest.
  rewrite elem_of_app, list_elem_of_singleton. intros Hc.
  destruct before as [|b before]; cbn in Hbest; injection Hbest as <-.
  - rewrite Hw. destruct Hc as [Hc| ->]; [|by apply dle_refl].
    destruct (lookup_lt_is_Some_2 (after ++ [worst]) 0) as [old Hold0]; [rewrite length_app; cbn; lia|].
    eapply dle_trans; [apply Ha; by eapply list_elem_of_lookup_2|]. by apply (Hold old).
  - destruct Hc as [Hc| ->]; [by apply (Hold b)|]. apply Hb. by left.
Qed.

Lemma generation_ok sz fuel bias s st rng : bias_ok bias -> sz < 2 ^ 31 -> settled root s -> run_ok sz st -> source_ok rng ->
  holds True (fun '(st', s', rng') => run_ok sz st' /\ settled root s' /\ source_ok rng' /\ length (tried st') = Datatypes.S (length (tried st)))
    (generation fuel s rels bias st rng).
Proof.
  intros Hb Hsz Hset [(Hp & Hsize & Hsl) Hind Hm Hd He Ht Hsrc Hbest] Hs. unfold generation.
  eapply holds_bind; [apply geqo_selection_ok; done || lia|]. intros [[m d] rng1] (Im & Id & Hs1). rewrite Hsl.
  destruct (gimme_edge_table_ok n (string m) (string d) ltac:(lia) (iv_tour _ Im) (iv_tour _ Id) _ He)
    as (total & tbl & -> & Hbuilt & Hsym & _). cbn [mbind result_bind].
  eapply holds_bind with (P := fun '(_, tbl', tour, rng') =>
    is_tour n (take (Z.to_nat n) tour) /\ length tour = length (string m) /\ table_ok n tbl' /\ source_ok rng').
  { pose proof (iv_alloc _ Im) as Hal. unfold alloc_chromo in Hal.
    assert (Z.to_nat n <= length (string m))%nat as Hlm by lia.
    pose proof (gimme_tour_ok n tbl (string m) rng1 Hn (built_tour_inv _ _ _ Hbuilt Hsym) Hlm Hs1) as H.
    by destruct (gimme_tour tbl (string m) n rng1). }
  intros [[[f tbl'] tour] rng2] (Htour & Hlen & Htab & Hs2).
  destruct (geqo_eval_ok s tour Hset Htour) as (w & s' & Ew & Hw & Hset'). rewrite Ew. cbn [mbind result_bind].
  set (kid := {| string := tour; worth := w |}).
  assert (individual kid) as Ik by (split; [unfold alloc_chromo; cbn; rewrite Hlen; apply Im|done|by exists s, s']).
  destruct (spread_chromo_ok (pool st) kid Hp Hw) as (worst & p' & Hworst & -> & Hp' & Hsz' & Hsl' & Hcase);
    [rewrite Hsl; apply Ik|]. cbn [mbind result_bind holds].
  split; [|split_and!; [done|done|cbn; rewrite length_app; cbn; lia]]. rewrite Hsl in Hcase, Hsl'.
  split; cbn [pool momma daddy edge_table tried]; [split_and!; [done|congruence|done]| |apply Ik|apply Id| | | |].
  - destruct (dgt (worth kid) (worth worst)) in Hcase; [by subst p'|]. by apply (inserted_individuals kid (data (pool st))).
  - split; [apply Htab|]. intros i e Hi Hie. pose proof (lookup_lt_Some _ _ _ Hie) as Hlt. rewrite (to_length _ _ Htab) in Hlt.
    rewrite <- (Nat2Z.id i) in Hie. apply (to_edges _ _ Htab (Z.of_nat i) e ltac:(lia) Hie).
  - apply Forall_app. split; [done|]. by apply Forall_singleton.
  - destruct (dgt (worth kid) (worth worst)) in Hcase; [|by apply (inserted_source kid (data (pool st)))]. subst p'.
    eapply Forall_impl; [exact Hsrc|]. intros c (c' & Hc & H). exists c'. split; [apply elem_of_app; by left|done].
  - destruct (dgt (worth kid) (worth worst)) eqn:Eg in Hcase; [|by apply (inserted_best kid (data (pool st)))]. subst p'.
    intros best c Hb0. rewrite elem_of_app, list_elem_of_singleton. intros [Hc| ->]; [by apply (Hbest best)|].
    destruct Hp as [_ _ Hnum Hsort]. eapply dle_trans; [eapply (sorted_lookup _ 0); [done|done|done|exact Hworst|lia]|].
    by apply dlt_le.
Qed.

Lemma generations_ok sz fuel bias : bias_ok bias -> sz < 2 ^ 31 -> forall k s st rng, settled root s -> run_ok sz st -> source_ok rng ->
  holds True (fun '(st', s', rng') => run_ok sz st' /\ settled root s' /\ source_ok rng' /\ length (tried st') = (k + length (tried st))%nat)
    (generations k fuel s rels bias st rng).
Proof.
  intros Hb Hsz. induction k as [|k IH]; intros s st rng Hset Hr Hs; cbn [generations]; [done|].
  eapply holds_bind; [by apply (generation_ok sz)|]. intros [[st' s'] rng'] (Hr' & Hset' & Hs' & Hl).
  eapply holds_impl; [by apply IH|]. intros [[st2 root2] rng2] (H1 & H2 & H3 & H4). split; [done|]. split_and!; [done|done|lia].
Qed.

(** ** The initial pool *)
Record filled (sz i : Z) (p : Pool) : Prop := {
  fi_size : size p = sz /\ length (data p) = Z.to_nat sz /\ string_length p = n;
  fi_alloc : Forall (alloc_chromo n) (data p);
  fi_done : forall j c, (j < Z.to_nat i)%nat -> data p !! j = Some c -> individual c /\ dlt (worth c) DBL_MAX = true
}.

(** Writing an individual at position [i]. *)
Lemma filled_set sz i p c : 0 <= i < sz -> filled sz i p -> individual c ->
  let p' := {| data := <[Z.to_nat i := c]> (data p); size := size p; string_length := string_length p |} in
  filled sz i p' /\ (dlt (worth c) DBL_MAX = true -> filled sz (i + 1) p').
Proof.
  intros Hi [(Hs & Hl & Hsl) Ha Hd] Hc. cbv zeta.
  assert (Forall (alloc_chromo n) (<[Z.to_nat i := c]> (data p))) as Ha' by (apply Forall_insert; [done|apply Hc]).
  split; [|intros Hlt]; (split; cbn [data size string_length]; [rewrite length_insert; done|done|]); intros j x Hj Hx;
    apply list_lookup_insert_Some in Hx as [(Hji & <- & _)|[Hji Hx]]; try lia; try done; apply (Hd j); try done; lia.
Qed.

Lemma init_pool_loop_ok sz : forall fuel s p i bad rng, settled root s -> 0 <= i <= sz -> filled sz i p -> source_ok rng ->
  outcome hopeless_tour (fun '(p', s', rng') => filled sz sz p' /\ settled root s' /\ source_ok rng') (init_pool_loop fuel s rels p i bad rng).
Proof.
  induction fuel as [|fuel IH]; intros s p i bad rng Hset Hi Hf Hs; pose proof Hf as [(Hsz & Hl & Hsl) Ha Hd];
    cbn [init_pool_loop]; rewrite Hsz; (destruct (Z.leb_spec sz i); [by assert (i = sz) as -> by lia|]); [done|].
  destruct (lookup_lt_is_Some_2 (data p) (Z.to_nat i)) as [c Hc]; [lia|].
  rewrite (array_get_Z _ _ c) by (done || lia). cbn [mbind result_bind]. rewrite Hsl.
  pose proof (Forall_lookup_1 _ _ _ _ Ha Hc) as Hac. unfold alloc_chromo in Hac.
  eapply outcome_bind; [eapply holds_outcome; apply (init_tour_ok n (string c) rng); done || lia|].
  intros [tour rng'] (Ht & Hlt & Hs'). destruct (geqo_eval_ok s tour Hset Ht) as (w & s' & Ew & Hw & Hset'). rewrite Ew. cbn [mbind result_bind].
  rewrite array_set_Z by lia. cbn [mbind result_bind].
  assert (individual {| string := tour; worth := w |}) as Hind by (split; [unfold alloc_chromo; cbn; lia|done|by exists s, s']).
  destruct (filled_set sz i p _ ltac:(lia) Hf Hind) as [F1 F2]. rewrite Hsz, Hsl in F1, F2.
  destruct (dlt w DBL_MAX) eqn:El; [apply IH; [done|lia|by apply F2|done]|].
  destruct ((i =? 0) && (10000 <=? bad + 1)); [split; [done|by exists s, tour, w, s']|]. by apply IH; [|lia|..].
Qed.

Lemma sorted_run_ok sz p m d e : 0 < sz -> filled sz sz p -> alloc_chromo n m -> alloc_chromo n d -> alloc_edge_table n e ->
  run_ok sz {| momma := m; daddy := d; edge_table := e; pool := sort_pool p; tried := data (sort_pool p) |}.
Proof.
  intros Hsz [(Hs & Hl & Hsl) Ha Hd] Hm Hdad He.
  assert (Forall individual (data p)) as Hind.
  { apply Forall_lookup. intros j c Hc. apply (Hd j c); [|done]. apply lookup_lt_Some in Hc. lia. }
  assert (numbers (data p)) as Hnum by (eapply Forall_impl; [exact Hind|]; apply individual_number).
  destruct (sort_pool_ok p Hnum) as [Hperm Hsort].
  assert (numbers (data (sort_pool p))) as Hnum' by (unfold numbers; by rewrite Hperm).
  assert (pool_ok (sort_pool p)) as Hp.
  { split; [split; [cbn; lia|rewrite Hperm; cbn; lia]|split; [cbn; lia|rewrite Hperm; cbn; by rewrite Hsl]|done|done]. }
  split; cbn [pool momma daddy edge_table tried]; [done| |done|done|done| | |].
  - by rewrite Hperm.
  - by rewrite Hperm.
  - apply Forall_forall. by intros c Hc; exists c.
  - intros best c Hb [j Hj]%list_elem_of_lookup. eapply (sorted_lookup _ 0 j); [done|done|done|done|lia].
Qed.

(** ** [geqo] *)
Definition settings_ok (g : GeqoSettings) : Prop :=
  1 <= Geqo_effort g <= 10 /\ Geqo_pool_size g < 2 ^ 31 /\ bias_ok (Geqo_selection_bias g).

Lemma gimme_pool_size_ok g : settings_ok g -> 2 <= gimme_pool_size g n < 2 ^ 31.
Proof.
  intros ((He & He') & Hp & _). unfold gimme_pool_size.
  destruct (Z.leb_spec 2 (Geqo_pool_size g)); [lia|].
  destruct (Z.ltb_spec (50 * Geqo_effort g) (2 ^ (n + 1))); [lia|].
  destruct (Z.ltb_spec (2 ^ (n + 1)) (10 * Geqo_effort g)); lia.
Qed.

(** The result of a run: the tree of the best tour tried, built once more in the state that the evaluations have left *)
Definition best_tree (g : GeqoSettings) (r : Rel) (built : Root) (st : GeqoState) : Prop :=
  join_members r ≡ₚ rels ≫= join_members /\
  Z.of_nat (length (tried st)) = gimme_pool_size g n + gimme_number_generations g (gimme_pool_size g n) /\
  Forall individual (tried st) /\
  exists best s s', best ∈ tried st /\ (forall c, c ∈ tried st -> dle (worth best) (worth c) = true) /\ settled root s /\
    gimme_tree s rels (string best) n = Ok (Some r, built) /\ geqo_eval s rels (string best) n = Ok (cheapest_total_cost built r, s').
Lemma geqo_run fuel g fresh_pool fresh_momma fresh_daddy fresh_edges rng :
  settings_ok g -> alloc_pool (gimme_pool_size g n) n fresh_pool -> alloc_chromo n fresh_momma ->
  alloc_chromo n fresh_daddy -> alloc_edge_table n fresh_edges -> source_ok rng ->
  outcome hopeless_tour (fun '(r, built, st, _) => (agree built built /\ later root built /\ rel_ok built r) /\ best_tree g r built st)
    (geqo fuel g root n rels fresh_pool fresh_momma fresh_daddy fresh_edges rng).
Proof.
  intros Hg [Hlen Hall] Hm Hd He Hs. pose proof (gimme_pool_size_ok g Hg) as Hsz. destruct Hg as (_ & _ & Hb).
  unfold geqo. set (sz := gimme_pool_size g n) in *.
  eapply outcome_bind; [apply (init_pool_loop_ok sz); [by apply settled_refl|lia|split; [done|done|intros; lia]|done]|].
  intros [[p s1] rng1] (Hf & Hset1 & Hs1). pose proof (sorted_run_ok sz p _ _ _ ltac:(lia) Hf Hm Hd He) as Hrun.
  assert (0 <= gimme_number_generations g sz) as Hgen by (unfold gimme_number_generations; destruct (Z.ltb_spec 0 (Geqo_generations g)); lia).
  eapply outcome_bind; [eapply holds_outcome; apply (generations_ok sz); [done|lia|exact Hset1|exact Hrun|done]|].
  intros [[st s2] rng2] ([(Hp & Hps & _) Hind _ _ _ Ht Hsrc Hbest] & Hset & _ & Hl).
  cbn [tried data sort_pool] in Hl. rewrite qsort_permutes, (proj1 (proj2 (fi_size _ _ _ Hf))) in Hl.
  destruct (lookup_lt_is_Some_2 (data (pool st)) 0) as [head Hhead]; [destruct Hp as [[? ->] _ _ _]; lia|].
  rewrite (array_get_Z _ _ head) by (done || lia). cbn [mbind result_bind].
  destruct (Forall_lookup_1 _ _ _ _ Hsrc Hhead) as (best & Hin & Ew & Es). rewrite Forall_forall in Ht. pose proof (Ht best Hin) as Ib.
  rewrite (gimme_tree_ext s2 _ _ Es). pose proof (final_tree s2 (string best) Hset (iv_tour _ Ib)) as Htree.
  destruct (gimme_tree s2 rels (string best) n) as [[[r|] built]| |] eqn:Er; [|done..]. destruct Htree as (Hab & Hlb & Hrok & Hmem & s' & Ee).
  cbn [mbind result_bind outcome]. split; [done|]. split_and!; [done|fold sz; lia|by apply Forall_forall|]. exists best, s2, s'. split_and!; try done.
  intros c Hc. rewrite <- Ew. by apply (Hbest head).
Qed.

(** C7: [geqo] over [n] input relations: no array is left and no other error than "no valid plan"
    arises, and that only where some tour has no join tree or one that is not below [DBL_MAX]; the relation it
    returns joins every input relation exactly once; the number of
    individuals tried is the pool size plus the number of generations, and each is a tour with the
    cost at which [geqo_eval] evaluated it, in a state with the join relations and the hash table of the start.  The relation returned is the join tree of the cheapest tour tried, built once more
    in the state that the evaluations have left; if the cost of a tour does not depend on which of these states it is evaluated in, no individual is cheaper than that relation.
    The fuel bounds only the loops that draw random numbers until one is acceptable. *)
Theorem geqo_correct fuel g fresh_pool fresh_momma fresh_daddy fresh_edges rng :
  settings_ok g -> alloc_pool (gimme_pool_size g n) n fresh_pool -> alloc_chromo n fresh_momma ->
  alloc_chromo n fresh_daddy -> alloc_edge_table n fresh_edges -> source_ok rng ->
  outcome hopeless_tour (fun '(r, built, st, _) => best_tree g r built st /\
      ((forall tour s1 s2 w1 w2 t1 t2, settled root s1 -> settled root s2 -> geqo_eval s1 rels tour n = Ok (w1, t1) -> geqo_eval s2 rels tour n = Ok (w2, t2) -> w1 = w2) ->
       forall c, c ∈ tried st -> dle (cheapest_total_cost built r) (worth c) = true))
    (geqo fuel g root n rels fresh_pool fresh_momma fresh_daddy fresh_edges rng).
Proof.
  intros. eapply outcome_impl; [by apply geqo_run|done|]. intros [[[r built] st] rng'] [_ Hres]. split; [done|]. intros Hsame c Hc.
  destruct Hres as (_ & _ & Hind & best & s & s' & Hin & Hbest & Hs & _ & Ee). rewrite Forall_forall in Hind. destruct (Hind best Hin) as [_ _ (s0 & t0 & Hs0 & E0)].
  rewrite <- (Hsame _ _ _ _ _ _ _ Hs0 Hs E0 Ee). by apply Hbest.
Qed.
End Main.

(** ** A run *)
Module GeqoDemo.
Import TreeDemo.

Definition rels : list (list Z) := [[1]; [2]; [3]].
Definition settings : GeqoSettings :=
  {| Geqo_effort := 5; Geqo_pool_size := 3; Geqo_generations := 4; Geqo_selection_bias := dofZ 2 |}.
Definition blank : Chromosome := {| string := [9; 9; 9; 9]; worth := S754_nan |}.
Definition run := @geqo _ (prng_source 50) _ _ demo_planner (pg_qsort_sorter _) 50 settings TreeDemo.start 3 rels [blank; blank; blank] blank blank
  (replicate 4 {| edge_list := [9; 9; 9; 9]; total_edges := 9; unused_edges := 9 |}) (pg_prng_seed 11).

Lemma demo_costs s r : is_nan (cheapest_total_cost s r) = false.
Proof. apply proper_not_nan, binary_normalize_proper. Qed.
Lemma bias_limits : bias_ok (dofZ 2) /\ bias_ok (dlit 3 2).
Proof. vm_compute. split_and!; reflexivity. Qed.

Lemma geqo_correct_witness :
  exists r built st rng, run = Ok (r, built, st, rng) /\ id r ≡ₚ [1; 2; 3] /\ Z.of_nat (length (tried st)) = 7.
Proof.
  assert (match run with Ok _ => true | _ => false end = true) as Hok by (vm_compute; reflexivity).
  assert (outcome True (fun '(r, _, st, _) => id r ≡ₚ [1; 2; 3] /\ Z.of_nat (length (tried st)) = 7) run) as H.
  { eapply outcome_impl; [unfold run; apply (@geqo_correct _ (prng_source 50) (pg_qsort_sorter _) _ _ demo_planner demo_planner_ok TreeDemo.start eq_refl rels 3)| |].
    - lia.
    - reflexivity.
    - repeat constructor.
    - apply (bool_decide_unpack _). vm_compute. exact I.
    - exact demo_costs.
    - split_and!; [cbn; lia..|apply bias_limits].
    - split; [reflexivity|]. repeat constructor.
    - reflexivity.
    - reflexivity.
    - split; [reflexivity|]. intros i e _ [-> _]%lookup_replicate_1. reflexivity.
    - apply seed_ok.
    - intros _. exact I.
    - intros [[[r built] st] rng] ((H1 & H2 & _) & _). split; [exact H1|exact H2]. }
  destruct run as [[[[r built] st] rng]| |]; [|discriminate..]. exists r, built, st, rng. split; [reflexivity|exact H].
Defined.
(** The run ends with a plan, and the state holds the join relations of that plan only, after seven evaluations and the final tree, with two calls of [make_join_rel] each. *)
Example geqo_returns : match run with Ok (r, built, _, _) => (r, joins built, calls built) | _ => ([], [], 0) end = ([2; 3; 1], [[2; 3]; [2; 3; 1]], 16).
Proof. vm_compute. reflexivity. Qed.
End GeqoDemo.
