(* ===== verification/GeqoSearch.v ===== *)
(** * The genetic search over the planner's join relations

    [gimme_tree] and [geqo_eval] on the planner's state: the routines of [joinrels.c] and [relnode.c]
    are a planner in the sense of the genetic search, so for plain inner joins [geqo] always finds a plan.

    The result does not depend on whether join relations are looked up in the list or in the hash table,
    which [geqo_eval] hides while it builds a tree; what it adds to the list is cut off at the end.  Paths that older relations have gained meanwhile may stay. *)
From S2P Require Import Prelude Bitmapset BitmapsetSpec BitmapsetIter EquivClass PathKeys JoinRels JoinLinks JoinSearch Float64 SortTemplate Prng Geqo GeqoErx GeqoTree GeqoMain.
#[local] Open Scope Z_scope.

(** [path_cost] is [joinrel->cheapest_total_path->total_cost]; [free_paths created st] are the paths of [st] without those that were allocated in a memory context created at
    [created]. *)
Class PathCosts (Store : Type) := {
  path_cost : Store -> JoinRel -> double;
  free_paths : Store -> Store -> Store
}.
(** Cost estimates stay below the largest double; a relation that had paths before the context was created keeps some. *)
Class PathCostsOk (Store : Type) {join_paths : JoinPaths Store} {paths_ok : JoinPathsOk Store} {path_costs : PathCosts Store} : Prop := {
  cost_below st r : dlt (path_cost st r) DBL_MAX = true;
  paths_survive created st r : has_paths created r -> has_paths st r -> has_paths (free_paths created st) r
}.

Section Planner.
Context {Expr : Type} {Store : Type} {join_paths : JoinPaths Store} {path_costs : PathCosts Store}.
Context (hash_any : list Z -> Z) (q : Query (Expr := Expr)).
#[local] Abbreviation Root := (PlannerInfo (Store := Store)).
Implicit Types (root : Root).

(** The paths of a clump's new join relation. *)
Definition finish_clump root (joinrel : JoinRel) : result Root :=
  st ← finish_rel (store root) joinrel (bms_equal (relids joinrel) (all_query_rels q));
  Ok (set_store root st).
Definition set_joins root (l : list JoinRel) : Root :=
  {| join_rel_list := l; join_rel_hash := join_rel_hash root; join_rel_level := join_rel_level root; join_cur_level := join_cur_level root;
     next_ptr := next_ptr root; store := store root; JoinRels.tried := JoinRels.tried root |}.

#[global] Instance search_planner : JoinPlanner Root JoinRel := {|
  Geqo.make_join_rel := JoinRels.make_join_rel hash_any q;
  finish_join_rel := finish_clump;
  Geqo.have_relevant_joinclause := fun _ => JoinRels.have_relevant_joinclause q;
  Geqo.have_join_order_restriction := fun root => JoinRels.have_join_order_restriction q (store root);
  cheapest_total_cost := fun root => path_cost (store root);
  RelHash := list (bitmapset * JoinRel);
  root_joins := join_rel_list;
  set_root_joins := set_joins;
  root_hash := join_rel_hash;
  set_root_hash := set_hash;
  levels_in_use := fun root => match join_rel_level root with None => false | Some _ => true end;
  delete_context := fun created root => set_store root (free_paths (store created) (store root))
|}.
End Planner.

Section Search.
Context {Expr : Type} {Store : Type} {join_paths : JoinPaths Store} {paths_ok : JoinPathsOk Store} {path_costs : PathCosts Store} {costs_ok : PathCostsOk Store}.
Context (hash_any : list Z -> Z) (q : Query (Expr := Expr)) (clauses : list JoinClause) (Hq : query_ok q clauses).
#[local] Abbreviation Root := (PlannerInfo (Store := Store)).
#[local] Abbreviation lev r := (level_of (vals q) (rel_val r)).
#[local] Abbreviation good := (good_rel q clauses).
Implicit Types (root : Root).

(** ** Items *)
Definition rel_items (r : JoinRel) : list Z := Z.of_nat <$> items (vals q) (rel_val r).

Lemma items_nodup x : NoDup (items (vals q) x).
Proof. apply NoDup_ListNoDup, List.NoDup_filter, NoDup_ListNoDup, NoDup_seq. Qed.
Lemma items_apart r1 r2 : good r1 -> good r2 -> NoDup (rel_items r1 ++ rel_items r2) -> ~ meets (rel_val r1) (rel_val r2).
Proof.
  intros Hg1 Hg2 Hd (b & Hb & H1 & H2)%meets_bits. apply NoDup_app in Hd as (_ & Hd & _).
  pose proof H1 as Ht. rewrite (gr_union _ _ _ Hg1) in Ht. apply mask_bit in Ht as (i & Hi & Ht).
  apply (Hd (Z.of_nat i)); apply list_elem_of_fmap; exists i; split; try done.
  apply elem_of_items. apply elem_of_items in Hi as [Hi _]. split; [done|]. apply meets_bits. by exists b.
Qed.
Lemma items_join r1 r2 j : good r1 -> good r2 -> ~ meets (rel_val r1) (rel_val r2) -> rel_val j = Z.lor (rel_val r1) (rel_val r2) ->
  rel_items j ≡ₚ rel_items r1 ++ rel_items r2.
Proof.
  intros Hg1 Hg2 Hd Hv. unfold rel_items. rewrite <- fmap_app. apply fmap_Permutation, NoDup_Permutation.
  - apply items_nodup.
  - apply NoDup_app. split_and!; [apply items_nodup| |apply items_nodup]. intros i Hi1 Hi2. apply Hd.
    pose proof (item_within _ _ _ (gr_union _ _ _ Hg1) Hi1) as W1. pose proof (item_within _ _ _ (gr_union _ _ _ Hg2) Hi2) as W2.
    apply elem_of_items in Hi1 as [Hi _]. apply (within_meets (val_at (vals q) i)); [done|].
    destruct (proj1 (bits_nonzero _) (ap_nonempty _ (qo_apart _ _ Hq) i Hi)) as (b & Hb & Ht). apply meets_bits. exists b. split_and!; [done|done|]. by eapply within_bits.
  - intros i. rewrite elem_of_app, !elem_of_items, Hv. rewrite meets_sym, meets_lor_l, (meets_sym (rel_val r1)), (meets_sym (rel_val r2)). tauto.
Qed.

(** ** States *)

(** A state between two joins: old relations of several items are as the search would have made them. *)
Record fit root : Prop := {
  ft_level : join_rel_level root = None;
  ft_hash : hash_inv root;
  ft_wf : list_wf root;
  ft_rels r : r ∈ join_rel_list root -> union_of_items (vals q) (rel_val r) -> 2 <= lev r -> good r
}.
Record usable root (r : JoinRel) : Prop := {
  us_good : good r;
  us_some : 1 <= lev r;
  us_paths : has_paths (store root) r
}.
Definition same_joins (root root' : Root) : Prop := fit root /\ fit root' /\ set_hash root None = set_hash root' None.
Record follows root root' : Prop := {
  fw_keeps : keeps q clauses root root';
  fw_level : join_rel_level root' = join_rel_level root;
  fw_cur : join_cur_level root' = join_cur_level root
}.

(** [make_join_rel] of a plain inner join by a scan of the list. *)
Definition join_by_list root (rel1 rel2 : JoinRel) : result (JoinRel * Root) :=
  let joinrelids := bms_union (relids rel1) (relids rel2) in
  '(joinrel, root) ←
    match list_search (join_rel_list root) joinrelids with
    | Some joinrel => Ok (joinrel, root)
    | None => joinrel ← make_join_node q (next_ptr root) joinrelids rel1 rel2; Ok (joinrel, add_join_rel (bump root) joinrel)
    end;
  let root := log_join root rel1 rel2 joinrel in
  if is_dummy_rel (store root) joinrel then Ok (joinrel, root)
  else st ← populate_joinrel_with_paths (store root) rel1 rel2 joinrel (inner_sjinfo rel1 rel2); Ok (joinrel, set_store root st).

(** The join relation before its paths are made. *)
Lemma inner_join_built root r1 r2 J : fit root -> good r1 -> good r2 -> 1 <= lev r1 -> 1 <= lev r2 -> ~ meets (rel_val r1) (rel_val r2) ->
  bms_wf J -> bms_val J = Z.lor (rel_val r1) (rel_val r2) ->
  exists j s, build_join_rel hash_any q root J r1 r2 = Ok (j, s) /\ fit s /\ follows root s /\ store s = store root /\ good j /\
    rel_val j = bms_val J /\
    match list_search (join_rel_list root) J with
    | Some joinrel => Ok (joinrel, set_hash root None)
    | None => joinrel ← make_join_node q (next_ptr root) J r1 r2; Ok (joinrel, add_join_rel (bump (set_hash root None)) joinrel)
    end = Ok (j, set_hash s None).
Proof.
  intros [Hlv Hh Hw Hr] Hg1 Hg2 L1 L2 Hd HJ HV. unfold build_join_rel.
  destruct (find_join_rel_ok hash_any root J Hh Hw HJ) as (tab & -> & Htab).
  destruct (union_items (vals q) (qo_apart _ _ Hq) _ _ (gr_union _ _ _ Hg1) (gr_union _ _ _ Hg2) Hd) as [Hu Hlev].
  destruct (list_search (join_rel_list root) J) as [j|] eqn:E.
  - apply list_search_some in E as [Hj Hv]; [|done|done]. exists j, (set_hash root tab). split; [done|]. split; [by split|].
    split; [split; [by apply keeps_same|done|done]|]. split_and!; [done| |done|done]. apply Hr; [done|by rewrite Hv, HV|rewrite Hv, HV, Hlev; lia].
  - cbv zeta. destruct (make_join_node_ok q (all q) (qo_eclasses _ _ Hq) clauses (qo_clauses _ _ Hq) (next_ptr root) J r1 r2) as (j & Ej & Hrel & Hlk);
      [apply Hg1|apply Hg2|done|done|]. cbn [next_ptr set_hash]. rewrite Ej. cbn [mbind result_bind].
    assert (rel_val j = bms_val J) as Hv by (unfold rel_val; by rewrite Hrel). assert (good j) as Hg by (split; [done|by rewrite Hv, HV]).
    unfold add_to_level. cbn [join_rel_level add_join_rel bump set_hash]. rewrite Hlv. cbn [mbind result_bind]. do 2 eexists. split; [done|].
    split; [split; cbn|split; [split; [split; [exists [j]; by rewrite Forall_singleton|done]|done|done]|done]].
    + done.
    + unfold hash_inv in *. cbn in *. destruct tab as [t|]; [|done]. by rewrite Htab, fmap_app.
    + unfold list_wf. cbn. apply Forall_app. split; [done|]. apply Forall_singleton. apply Hg.
    + intros r Hin. apply elem_of_app in Hin as [Hin| ->%list_elem_of_singleton]; [by apply Hr|done].
Qed.

Lemma fit_same root root' : fit root -> join_rel_list root' = join_rel_list root -> join_rel_hash root' = join_rel_hash root ->
  join_rel_level root' = join_rel_level root -> fit root'.
Proof.
  intros [Hlv Hh Hw Hr] E1 E2 E3. split; [by rewrite E3|unfold hash_inv; by rewrite E1, E2|unfold list_wf; by rewrite E1|by rewrite E1].
Qed.
Lemma make_join_ok root r1 r2 : fit root -> usable root r1 -> usable root r2 -> ~ meets (rel_val r1) (rel_val r2) ->
  exists j s, JoinRels.make_join_rel hash_any q root r1 r2 = Ok (Some j, s) /\ join_by_list (set_hash root None) r1 r2 = Ok (j, set_hash s None) /\
    fit s /\ follows root s /\ usable s j /\ rel_val j = Z.lor (rel_val r1) (rel_val r2).
Proof.
  intros Hf [Hg1 L1 _] [Hg2 L2 _] Hd. destruct (bms_union_spec (relids r1) (relids r2)) as [HJ HV]; [apply Hg1|apply Hg2|].
  destruct (inner_join_built root r1 r2 _ Hf Hg1 Hg2 L1 L2 Hd HJ HV) as (j & s & Eb & Hs & Hfw & Hst & Hg & Hv & El).
  destruct (union_items (vals q) (qo_apart _ _ Hq) _ _ (gr_union _ _ _ Hg1) (gr_union _ _ _ Hg2) Hd) as [_ Hlev].
  assert (rel_val j = Z.lor (rel_val r1) (rel_val r2)) as Hvj by (rewrite Hv; exact HV).
  unfold JoinRels.make_join_rel, join_by_list. rewrite (proj2 (overlap_apart (relids r1) (relids r2) (rl_wf _ _ _ _ (gr_links _ _ _ Hg1)) (rl_wf _ _ _ _ (gr_links _ _ _ Hg2))) Hd).
  rewrite (join_legal q clauses Hq). cbn [mbind result_bind add_outer_joins_to_relids].
  rewrite Eb. cbn [mbind result_bind]. cbv zeta.
  change (join_rel_list (set_hash root None)) with (join_rel_list root). change (next_ptr (set_hash root None)) with (next_ptr root).
  rewrite El. cbn [mbind result_bind]. cbv zeta.
  assert (forall st, (forall r, has_paths (store s) r -> has_paths st r) -> has_paths st j -> forall s2, join_rel_list s2 = join_rel_list s ->
    join_rel_hash s2 = join_rel_hash s -> join_rel_level s2 = join_rel_level s -> join_cur_level s2 = join_cur_level s -> store s2 = st ->
    fit s2 /\ follows root s2 /\ usable s2 j /\ rel_val j = Z.lor (rel_val r1) (rel_val r2)) as Hdone.
  { intros st Hkeep Hj s2 E1 E2 E3 E4 <-. split_and!; [by apply (fit_same s)| | |done].
    - destruct Hfw as [K1 K2 K3]. split; [|congruence|congruence]. transitivity s; [done|]. by apply keeps_same.
    - split; [done| |done]. rewrite Hvj, Hlev. lia. }
  change (store (log_join (set_hash s None) r1 r2 j)) with (store s). change (store (log_join s r1 r2 j)) with (store s).
  destruct (is_dummy_rel (store s) j) eqn:Ed.
  - do 2 eexists. split; [done|]. split; [done|]. apply (Hdone (store s)); try done. by apply dummy_has.
  - destruct (populate_inner (store s) r1 r2 j (inner_sjinfo r1 r2) eq_refl) as (st & -> & Hhas & Hkeep). cbn [mbind result_bind].
    do 2 eexists. split; [done|]. split; [done|]. by apply (Hdone st).
Qed.

(** ** The planner *)
Lemma usable_later s s' r : follows s s' -> usable s r -> usable s' r.
Proof. intros [[_ Hp] _ _] [H1 H2 H3]. split; auto. Qed.
Lemma finish_clump_ok root r : fit root -> usable root r ->
  exists st, finish_clump q root r = Ok (set_store root st) /\ finish_rel (store root) r (bms_equal (relids r) (all_query_rels q)) = Ok st /\
    fit (set_store root st) /\ follows root (set_store root st).
Proof.
  intros Hf [_ _ Hp]. unfold finish_clump. destruct (finish_ok (store root) r (bms_equal (relids r) (all_query_rels q)) Hp) as (st & -> & Hk).
  exists st. split_and!; [done|done|by apply (fit_same root)|]. split; [by apply keeps_same|done|done].
Qed.
Lemma follows_trans s1 s2 s3 : follows s1 s2 -> follows s2 s3 -> follows s1 s3.
Proof. intros [K1 L1 C1] [K2 L2 C2]. split; [by transitivity s2|congruence|congruence]. Qed.

Lemma join_clump_ok root r1 r2 : fit root -> usable root r1 -> usable root r2 -> ~ meets (rel_val r1) (rel_val r2) ->
  exists j s, join_clumps (planner := search_planner hash_any q) root r1 r2 = Ok (Some j, s) /\
    ('(j, s) ← join_by_list (set_hash root None) r1 r2; s ← finish_clump q s j; Ok (j, s)) = Ok (j, set_hash s None) /\
    fit s /\ follows root s /\ usable s j /\ rel_val j = Z.lor (rel_val r1) (rel_val r2).
Proof.
  intros Hf U1 U2 Hd. destruct (make_join_ok root r1 r2 Hf U1 U2 Hd) as (j & s & E & El & Hs & Hfw & Hj & Hv).
  destruct (finish_clump_ok s j Hs Hj) as (st & Ef & Est & Hf' & Hfw'). exists j, (set_store s st).
  unfold join_clumps. cbn [Geqo.make_join_rel finish_join_rel search_planner]. rewrite E, El. cbn [mbind result_bind]. rewrite Ef. cbn [mbind result_bind].
  unfold finish_clump. change (store (set_hash s None)) with (store s). rewrite Est. cbn [mbind result_bind].
  split_and!; [done|done|done|by apply (follows_trans root s)|by apply (usable_later s)|done].
Qed.

#[global] Instance search_planner_ok : JoinPlannerOk Root JoinRel (planner := search_planner hash_any q).
Proof.
  refine {| join_members := rel_items; rel_ok := usable; agree := same_joins; later := follows |}.
  - by intros root root' (H & _).
  - by intros root root' (H1 & H2 & H3).
  - intros root. split; [apply keeps_refl|done|done].
  - apply follows_trans.
  - apply usable_later.
  - intros s s' r (_ & _ & E) [H1 H2 H3]. split; [done|done|]. assert (store s' = store s) as -> by (by injection E). done.
  - intros root root' r1 r2 (F1 & F2 & E) U1 U2 Hd. assert (store root' = store root) as Est by (by injection E).
    assert (~ meets (rel_val r1) (rel_val r2)) as Hm by (apply items_apart; [apply U1|apply U2|done]).
    assert (forall r, usable root r -> usable root' r) as Hu by (intros r [? ? ?]; split; [done|done|by rewrite Est]).
    destruct (join_clump_ok root r1 r2 F1 U1 U2 Hm) as (j & s & Ej & El & Fs & Hs & Uj & Hv).
    destruct (join_clump_ok root' r1 r2 F2 (Hu _ U1) (Hu _ U2) Hm) as (j' & s' & Ej' & El' & Fs' & _ & _ & _).
    rewrite <- E, El in El'. assert (set_hash s None = set_hash s' None) as Ehash by congruence. assert (j' = j) as -> by congruence.
    exists (Some j), s, s'. split_and!; [done|done|done|done|].
    intros r [= <-]. split; [done|]. apply items_join; [apply U1|apply U2|done|done].
  - intros root root' r1 r2 (F1 & F2 & E) U1 U2 Hd. assert (store root' = store root) as Est by (by injection E).
    destruct (linked_ok q clauses Hq root r1 r2) as (b & Hb & _); [apply U1|apply U2|apply items_apart; [apply U1|apply U2|done]|].
    exists b. split; [exact Hb|]. unfold linked in Hb. unfold desirable_join. cbn. by rewrite Est.
  - done.
  - done.
  - done.
  - done.
  - done.
  - intros root (F & _ & _). cbn. by rewrite (ft_level _ F).
  - intros root (F & _ & _). split_and!; [|done|done]. destruct F as [H1 H2 H3 H4]. by split.
  - intros s s' [[(new & En & _) _] _ _]. by exists new.
  - intros root built (F & _ & _) _ [[_ Hp] El Ec]. cbn in Hp, El, Ec |- *. split; [|split; [apply keeps_same; [done|]|done|done]].
    + assert (fit (set_store (set_hash (set_joins built (join_rel_list root)) (join_rel_hash root)) (free_paths (store root) (store built)))) as Hf by (by apply (fit_same root)).
      by split.
    + intros r Hr. apply paths_survive; [done|by apply Hp].
  - intros root root' r (_ & _ & E). cbn. assert (store root' = store root) as -> by (by injection E). done.
Defined.

(** ** [geqo] on a query *)
Lemma never_refuses r1 r2 : ~ refuses (planner_ok := search_planner_ok) r1 r2.
Proof.
  intros (root & root' & _ & E). cbn in E. unfold JoinRels.make_join_rel in E. destruct (bms_overlap _ _); [done|]. rewrite (join_legal q clauses Hq) in E.
  cbn [mbind result_bind add_outer_joins_to_relids] in E. destruct (build_join_rel _ _ _ _ _ _) as [[j s]| |]; [|done..]. cbn [mbind result_bind] in E. destruct (is_dummy_rel _ _); [done|].
  by destruct (populate_joinrel_with_paths _ _ _ _ _).
Qed.

Lemma bind_positions {A} (f : A -> list Z) (l : list A) : (forall i x, l !! i = Some x -> f x = [Z.of_nat i]) -> l ≫= f = Z.of_nat <$> seq 0 (length l).
Proof.
  induction l as [|x l IH] using rev_ind; intros H; [done|]. rewrite length_app, bind_app, seq_app, fmap_app, IH; cbn.
  - by rewrite (H (length l) x), app_nil_r by (by rewrite lookup_app_r, Nat.sub_diag by lia).
  - intros i y Hy. apply H. by apply lookup_app_l_Some.
Qed.
Lemma initial_usable root : start_ok q root -> Forall (usable root) (initial_rels q).
Proof.
  intros Hs. apply Forall_lookup. intros i r Hi. destruct (initial_val q i r Hi) as [Hlt Hv].
  destruct (single_union (vals q) (qo_apart _ _ Hq) i Hlt) as [Hu Hl]. rewrite Hv in Hu, Hl.
  split; [|lia|apply (so_paths _ _ Hs); by eapply list_elem_of_lookup_2]. split; [|done]. apply (Forall_lookup_1 _ _ _ _ (qo_links _ _ Hq) Hi).
Qed.
Lemma initial_items : initial_rels q ≫= rel_items = Z.of_nat <$> seq 0 (length (initial_rels q)).
Proof.
  apply bind_positions. intros i r Hi. destruct (initial_val q i r Hi) as [Hlt Hv]. unfold rel_items. rewrite <- Hv, (items_single (vals q) (qo_apart _ _ Hq) i Hlt). done.
Qed.
Lemma start_fit root : start_ok q root -> join_rel_level root = None -> fit root.
Proof. intros [Hh Hw Ho _] Hl. split; [done|done|done|]. intros r Hr Hu Hlev. specialize (Ho r Hr Hu). lia. Qed.
Lemma all_items r : good r -> rel_items r ≡ₚ initial_rels q ≫= rel_items -> rel_val r = all q.
Proof.
  intros Hg Hp. apply full_union; [apply Hg|]. apply Permutation_length in Hp. rewrite initial_items in Hp. unfold rel_items in Hp.
  rewrite !length_fmap, length_seq in Hp. unfold level_of. by rewrite Hp, vals_length.
Qed.

Section Run.
Context {S : Type} {source : RandomSource S} {sorter : QSort Chromosome}.
#[local] Abbreviation n := (Z.of_nat (length (initial_rels q))).
#[local] Existing Instance search_planner.

Lemma geqo_search_ok root fuel g fresh_pool fresh_momma fresh_daddy fresh_edges (rng : S) :
  start_ok q root -> join_rel_level root = None -> n < 2 ^ 31 ->
  settings_ok g -> alloc_pool (gimme_pool_size g n) n fresh_pool -> alloc_chromo n fresh_momma ->
  alloc_chromo n fresh_daddy -> alloc_edge_table n fresh_edges -> source_ok rng ->
  outcome False (fun '(r, built, _, _) => fit built /\ follows root built /\ usable built r /\ rel_val r = all q)
    (geqo (planner := search_planner hash_any q) fuel g root n (initial_rels q) fresh_pool fresh_momma fresh_daddy fresh_edges rng).
Proof.
  intros Hs Hl Hn Hg Hp Hm Hd He Hr. pose proof (qo_two _ _ Hq) as H2. pose proof (start_fit root Hs Hl) as Hf. pose proof (initial_usable root Hs) as Hu.
  assert (NoDup (initial_rels q ≫= rel_items)) as Hnd by (rewrite initial_items; apply (NoDup_fmap_2 _), NoDup_seq).
  assert (length (initial_rels q) = Z.to_nat n) as Hlen by lia.
  eapply outcome_impl; [apply (geqo_run (planner_ok := search_planner_ok)); try done; [lia|]|..].
  - intros st r. pose proof (cost_below (store st) r) as Hc. cbn. by destruct (path_cost (store st) r).
  - intros (s & tour & w & s' & Hset & Ht & Hw & Hbad).
    destruct (geqo_eval_spec (planner_ok := search_planner_ok) (initial_rels q) Hnd s tour n) as (tree & built & s2 & _ & Htree & _ & _ & Hev & _); try done;
      [apply Hset|by apply (settled_rels (planner_ok := search_planner_ok) _ root)|lia|].
    rewrite Hw in Hev. injection Hev as -> _. destruct tree as [r|].
    + cbn in Hbad. by rewrite cost_below in Hbad.
    + destruct Htree as (r1 & r2 & _ & [H|H]); by apply never_refuses in H.
  - intros [[[r built] st] rng'] (((Hb & _) & Hfw & Hur) & Hmem & _). split_and!; [done|done|done|]. apply all_items; [apply Hur|done].
Qed.
End Run.
End Search.
