(* ===== verification/JoinDriver.v ===== *)
(** * From the joinlist to the topmost join relation ([allpaths.c])

    [make_rel_from_joinlist] joins the members of each list of the joinlist, sublists first, by the standard search or by the
    genetic one.  For a query of inner joins it always comes to the relation of all its tables, whatever the collapse limits,
    the threshold of the genetic search and its settings. *)
From stdpp Require Import gmap.
From S2P Require Import Prelude Bitmapset BitmapsetSpec BitmapsetIter EquivClass EquivClassProps PathKeys JoinRoot JoinRels JoinLinks JoinSearch RelSets ImpliedEq ImpliedEqProps ImpliedScan ImpliedJoin ImpliedThms ImpliedSearch Quals OuterJoin JoinTree QueryClauses QueryQuals QueryTree QueryThms Float64 SortTemplate Prng Geqo GeqoErx GeqoTree GeqoMain GeqoSearch.
#[local] Open Scope Z_scope.

(** What a call of [geqo] is given besides the relations: its settings, the generator that [geqo_set_seed] has seeded, and the memory
    for a number of relations that the allocators return. *)
Record GeqoCall (S : Type) := {
  gc_fuel : nat;
  gc_settings : GeqoSettings;
  gc_pool : Z -> list Chromosome;
  gc_momma : Z -> Chromosome;
  gc_daddy : Z -> Chromosome;
  gc_edges : Z -> list Edge;
  gc_seeded : S
}.
Arguments gc_fuel {S} _.
Arguments gc_settings {S} _.
Arguments gc_pool {S} _ _.
Arguments gc_momma {S} _ _.
Arguments gc_daddy {S} _ _.
Arguments gc_edges {S} _ _.
Arguments gc_seeded {S} _.

Section Driver.
Context {Expr Store S : Type} {join_paths : JoinPaths Store} {path_costs : PathCosts Store} {source : RandomSource S} {sorter : QSort Chromosome}.
Context (hash_any : list Z -> Z) (g : PlannerSettings) (geqo_call : GeqoCall S).
#[local] Abbreviation Root := (PlannerInfo (Store := Store)).
#[local] Abbreviation Query := (JoinRels.Query (Expr := Expr)).
(** The plugin, and [simple_rel_array]. *)
Context (hook : Query -> Root -> Z -> list JoinRel -> result (JoinRel * Root)) (simple_rel_array : list (option JoinRel)) (q : Query).
Implicit Types (root : Root).

(** [find_base_rel] *)
Definition base_join_rel (relid : Z) : result JoinRel :=
  if relid <=? 0 then Error assert_msg
  else match simple_rel_array !! Z.to_nat relid with Some (Some rel) => Ok rel | _ => Error no_rel_msg end.

(** [root->initial_rels = initial_rels] *)
Definition set_initial_rels (initial : list JoinRel) : Query :=
  {| join_info_list := join_info_list q; placeholder_list := placeholder_list q; hasLateralRTEs := hasLateralRTEs q;
     initial_rels := initial; all_query_rels := all_query_rels q; ec_root := ec_root q |}.

Definition search_joins root (initial : list JoinRel) : result (JoinRel * Root) :=
  let levels_needed := Z.of_nat (length initial) in
  let q := set_initial_rels initial in
  if join_search_hook g then hook q root levels_needed initial
  else if enable_geqo g && (geqo_threshold g <=? levels_needed) then
    '(rel, root, _, _) ←
      geqo (planner := search_planner hash_any q) (gc_fuel geqo_call) (gc_settings geqo_call) root levels_needed initial (gc_pool geqo_call levels_needed)
        (gc_momma geqo_call levels_needed) (gc_daddy geqo_call levels_needed) (gc_edges geqo_call levels_needed) (gc_seeded geqo_call);
    Ok (rel, root)
  else
    match join_rel_level root with
    | Some _ => Error assert_msg
    | None => '(rel, root, _) ← standard_join_search hash_any q root levels_needed initial; Ok (rel, root)
    end.

(** The relations of the members of a list. *)
Definition list_rels (rel_of : Root -> JoinItem -> result (option JoinRel * Root)) : Root -> list JoinItem -> result (list (option JoinRel) * Root) :=
  fix go root (l : list JoinItem) {struct l} :=
    match l with
    | [] => Ok ([], root)
    | item :: l =>
        '(thisrel, root) ← rel_of root item;
        '(rest, root) ← go root l;
        Ok (thisrel :: rest, root)
    end.
(** The relation of an item of a joinlist; an empty list gives a null pointer, which nothing may be joined to. *)
Fixpoint rel_of_item root (item : JoinItem) {struct item} : result (option JoinRel * Root) :=
  match item with
  | RangeTblRef varno => rel ← base_join_rel varno; Ok (Some rel, root)
  | SubJoinlist joinlist =>
      '(initial, root) ← list_rels rel_of_item root joinlist;
      match initial with
      | [] => Ok (None, root)
      | [thisrel] => Ok (thisrel, root)
      | _ =>
          match mapM id initial with
          | Some initial => '(rel, root) ← search_joins root initial; Ok (Some rel, root)
          | None => Error null_deref_msg
          end
      end
  end.
Definition make_rel_from_joinlist root (joinlist : list JoinItem) : result (option JoinRel * Root) :=
  rel_of_item root (SubJoinlist joinlist).

(** The end of [make_one_rel]. *)
Definition make_one_rel root (joinlist : list JoinItem) : result (JoinRel * Root) :=
  '(rel, root) ← make_rel_from_joinlist root joinlist;
  match rel with
  | None => Error null_deref_msg
  | Some rel => if bms_equal (relids rel) (all_query_rels q) then Ok (rel, root) else Error assert_msg
  end.
End Driver.

(** ** One list *)
Section Planned.
Context {Expr Store S : Type} {join_paths : JoinPaths Store} {path_costs : PathCosts Store} {source : RandomSource S} {sorter : QSort Chromosome}.
Context {paths_ok : JoinPathsOk Store} {costs_ok : PathCostsOk Store}.
Context (hash_any : list Z -> Z) (g : PlannerSettings) (geqo_call : GeqoCall S).
#[local] Abbreviation Root := (PlannerInfo (Store := Store)).
#[local] Abbreviation Query := (JoinRels.Query (Expr := Expr)).
Context (hook : Query -> Root -> Z -> list JoinRel -> result (JoinRel * Root)) (simple_rel_array : list (option JoinRel)) (q : Query).
Implicit Types (root : Root).

Record call_ok : Prop := {
  ca_hook : join_search_hook g = false;
  ca_settings : settings_ok (gc_settings geqo_call);
  ca_memory n : 2 <= n < 2 ^ 31 -> alloc_pool (gimme_pool_size (gc_settings geqo_call) n) n (gc_pool geqo_call n) /\ alloc_chromo n (gc_momma geqo_call n) /\
    alloc_chromo n (gc_daddy geqo_call n) /\ alloc_edge_table n (gc_edges geqo_call n);
  ca_seeded : source_ok (gc_seeded geqo_call)
}.
Context (Hcall : call_ok).
(** A query of plain inner joins over the tables [T], at most [N]. *)
Context (clauses : list JoinClause) (T N : Z) (HN : N < 2 ^ 31).
Record plain_query : Prop := {
  pq_plain : join_info_list q = [];
  pq_lateral : hasLateralRTEs q = false;
  pq_clauses : clauses_ok clauses;
  pq_eclasses : eclasses_ok (ec_root q) T
}.
Context (Hq : plain_query).
#[local] Abbreviation linked_rel := (rel_links q T clauses).

(** A result, or the genetic search ran out of fuel. *)
Definition planned {A} (P : A -> Prop) (m : result A) : Prop :=
  match m with Ok a => P a | NoFuel => enable_geqo g = true /\ geqo_threshold g <= N | Error _ => False end.
Lemma planned_bind {A B} (P : A -> Prop) (Q : B -> Prop) m f : planned P m -> (forall a, P a -> planned Q (f a)) -> planned Q (m ≫= f).
Proof. destruct m; cbn; auto; contradiction. Qed.
Lemma planned_impl {A} (P Q : A -> Prop) m : planned P m -> (forall a, P a -> Q a) -> planned Q m.
Proof. destruct m; cbn; auto. Qed.

(** Between two searches: every join relation lies within one of the finished sets [ds]. *)
Record tidy root (ds : list Z) : Prop := {
  td_level : join_rel_level root = None;
  td_hash : hash_inv root;
  td_wf : list_wf root;
  td_old r : r ∈ join_rel_list root -> exists d, d ∈ ds /\ within (rel_val r) d
}.
Definition kept root root' : Prop := forall r, has_paths (store root) r -> has_paths (store root') r.
Lemma tidy_mono root ds ds' : tidy root ds -> (forall d, d ∈ ds -> exists d', d' ∈ ds' /\ within d d') -> tidy root ds'.
Proof.
  intros [H1 H2 H3 H4] Hd. split; [done|done|done|]. intros r (d & Hin & Hw)%H4. destruct (Hd d Hin) as (d' & Hin' & Hw').
  exists d'. split; [done|by apply (within_trans _ d)].
Qed.

(** The relation that joining [x] leaves. *)
Definition joined root0 ds (x : Z) : JoinRel * Root -> Prop := fun '(rel, root) =>
  linked_rel rel /\ rel_val rel = x /\ has_paths (store root) rel /\ tidy root (ds ++ [x]) /\ kept root0 root.

Section List.
Context (initial : list JoinRel) (ds : list Z) (root : Root).
Let q' := set_initial_rels q initial.
Let U := JoinSearch.all q'.
Context (Htwo : (2 <= length initial)%nat) (Hlen : Z.of_nat (length initial) <= N) (Hlinks : Forall linked_rel initial).
Context (Hpaths : Forall (has_paths (store root)) initial) (Hapart : apart (rel_val <$> initial)).
Context (Hds : forall d r, d ∈ ds -> r ∈ initial -> ~ meets d (rel_val r)) (Htidy : tidy root (ds ++ (rel_val <$> initial))).

Lemma union_bit b : Z.testbit U b = true <-> exists r, r ∈ initial /\ Z.testbit (rel_val r) b = true.
Proof.
  unfold U, JoinSearch.all. rewrite mask_bit. split.
  - intros (i & Hi%elem_of_seq & Hb). rewrite vals_length in Hi. destruct (lookup_lt_is_Some_2 initial i) as [r Hr]; [exact (proj2 Hi)|].
    destruct (initial_val q' i r Hr) as [_ E]. rewrite E in Hb. exists r. split; [by eapply list_elem_of_lookup_2|done].
  - intros (r & [i Hi]%list_elem_of_lookup & Hb). destruct (initial_val q' i r Hi) as [Hlt E]. exists i. rewrite E. split; [apply elem_of_seq; clear - Hlt; lia|done].
Qed.
Lemma item_in_union r : r ∈ initial -> within (rel_val r) U.
Proof. intros Hr. apply within_bits. intros b Hb Ht. apply union_bit. by exists r. Qed.
Lemma union_in_query : within U T.
Proof.
  apply within_bits. intros b Hb (r & Hr & Ht)%union_bit. rewrite Forall_forall in Hlinks. by apply (proj1 (within_bits _ _) (rl_within _ _ _ _ (Hlinks r Hr))).
Qed.
Lemma list_query : query_ok q' clauses.
Proof.
  split; [apply Hq|apply Hq|exact Hapart|apply Hq| | |exact Htwo].
  - destruct (pq_eclasses Hq) as [H1 H2]. split; [done|]. intros b Hb Ht. apply H2; [done|]. by apply (proj1 (within_bits _ _) union_in_query).
  - rewrite Forall_forall in Hlinks |- *. intros r Hr. destruct (Hlinks r Hr) as [H1 H2 H3 H4]. split; [done|by apply item_in_union|done|done].
Qed.
Lemma good_linked r : good_rel q' clauses r -> linked_rel r.
Proof. intros [[H1 H2 H3 H4] _]. split; [done|by apply (within_trans _ U), union_in_query|done|done]. Qed.

Lemma level_within vals x y : within x y -> level_of vals x <= level_of vals y.
Proof.
  intros Hw. unfold level_of, items. apply inj_le. induction (seq 0 (length vals)) as [|i l IH]; [done|]. cbn.
  destruct (Z.eqb_spec (Z.land (val_at vals i) x) 0) as [E|E], (Z.eqb_spec (Z.land (val_at vals i) y) 0) as [F|F]; cbn; try lia.
  exfalso. assert (meets (val_at vals i) y) as Hm by (by apply (meets_within _ x)). done.
Qed.
Lemma list_start : start_ok q' root.
Proof.
  destruct Htidy as [H1 H2 H3 H4]. split; [done|done| |by apply Forall_forall].
  intros r Hr _. destruct (H4 r Hr) as (d & Hd & Hw). apply (Z.le_lt_trans _ (level_of (vals q') d)); [by apply level_within|].
  apply elem_of_app in Hd as [Hd|(r' & -> & [i Hi]%list_elem_of_lookup)%list_elem_of_fmap].
  - unfold level_of. assert (items (vals q') d = []) as ->; [|done]. destruct (items (vals q') d) as [|i l] eqn:E; [done|].
    assert (i ∈ items (vals q') d) as Hi by (rewrite E; by left). apply elem_of_items in Hi as [Hi Hm]. rewrite vals_length in Hi.
    destruct (lookup_lt_is_Some_2 initial i Hi) as [r' Hr']. destruct (initial_val q' i r' Hr') as [_ Ev]. rewrite Ev in Hm.
    exfalso. apply (Hds d r' Hd); [by eapply list_elem_of_lookup_2|by apply meets_sym].
  - destruct (initial_val q' i r' Hi) as [Hlt <-]. destruct (single_union (vals q') (qo_apart _ _ list_query) i Hlt) as [_ ->]. lia.
Qed.

(** What either search adds to the state. *)
Lemma search_done root1 rel : join_rel_level root1 = None -> hash_inv root1 -> list_wf root1 -> keeps q' clauses root root1 -> good_rel q' clauses rel ->
  rel_val rel = U -> has_paths (store root1) rel -> joined root ds U (rel, root1).
Proof.
  intros Hl Hh Hw [(new & En & Hnew) Hk] Hg Hv Hp. split; [by apply good_linked|]. split_and!; [done|done| |done]. split; [done|done|done|].
  intros r. rewrite En, elem_of_app. intros [Hr|Hr].
  - destruct (td_old _ _ Htidy r Hr) as (d & Hd & Hwi). apply elem_of_app in Hd as [Hd|(r' & -> & Hr')%list_elem_of_fmap].
    + exists d. split; [apply elem_of_app; by left|done].
    + exists U. split; [apply elem_of_app; right; by left|]. apply (within_trans _ (rel_val r')); [done|by apply item_in_union].
  - exists U. split; [apply elem_of_app; right; by left|]. rewrite Forall_forall in Hnew. apply (rl_within _ _ _ _ (gr_links _ _ _ (Hnew r Hr))).
Qed.

Lemma search_joins_ok : planned (joined root ds U) (search_joins hash_any g geqo_call hook q root initial).
Proof.
  unfold search_joins. rewrite (ca_hook Hcall). fold q'. pose proof list_query as HQ. pose proof list_start as HS. pose proof (td_level _ _ Htidy) as HL.
  destruct (enable_geqo g && (geqo_threshold g <=? Z.of_nat (length initial))) eqn:Eg.
  - apply andb_true_iff in Eg as [Eg Et%Z.leb_le]. destruct (ca_memory Hcall (Z.of_nat (length initial))) as (M1 & M2 & M3 & M4); [lia|].
    pose proof (geqo_search_ok hash_any q' clauses HQ root (gc_fuel geqo_call) (gc_settings geqo_call) _ _ _ _ (gc_seeded geqo_call) HS HL ltac:(cbn; lia) (ca_settings Hcall) M1 M2 M3 M4 (ca_seeded Hcall)) as H.
    change (initial_rels q') with initial in H. destruct (geqo _ _ _ _ _ _ _ _ _ _) as [[[[rel built] st] rng]|msg|]; cbn in H |- *; [|tauto|split; [done|lia]].
    destruct H as ([F1 F2 F3 _] & [K1 _ _] & [U1 _ U3] & Hv). by apply search_done.
  - rewrite HL. destruct (standard_join_search_ok hash_any q' clauses HQ root HS) as (rel & root1 & levels & E & Hld & Elev & Hlast & Hv & Hk).
    change (initial_rels q') with initial in E, Hlast. rewrite E. cbn [mbind result_bind planned]. destruct Hld as [Hi _ _].
    assert (rel ∈ level_at root1 (Z.of_nat (length initial))) as Hin by (rewrite Hlast; by left).
    apply search_done; [done|apply (si_hash _ _ _ Hi)|apply (si_wf _ _ _ Hi)|exact Hk| |done|].
    + by apply (si_level _ _ _ Hi (Z.of_nat (length initial)) rel ltac:(lia) Hin).
    + by apply (si_paths _ _ _ Hi (Z.of_nat (length initial)) rel ltac:(lia) Hin).
Qed.
End List.

(** ** The whole joinlist *)
Lemma item_ind (P : JoinItem -> Prop) : (forall v, P (RangeTblRef v)) -> (forall l, Forall P l -> P (SubJoinlist l)) -> forall item, P item.
Proof.
  intros Hv Hl. fix IH 1. intros [v|l]; [apply Hv|]. apply Hl. induction l as [|item l IHl]; constructor; [apply IH|apply IHl].
Qed.
Lemma full_tables item : full_item item -> item_tables item <> [].
Proof.
  induction item as [v|l IH] using item_ind; [done|]. intros [Hne Hl]%full_sub. destruct l as [|i l]; [done|].
  apply Forall_cons in IH as [IH _], Hl as [Hi _]. cbn. intros [E _]%app_eq_nil. by apply IH.
Qed.
Lemma sub_tables l : item_tables (SubJoinlist l) = concat (item_tables <$> l).
Proof. cbn. induction l as [|i l IH]; [done|]. cbn. by rewrite IH. Qed.

(** The tables of an item are there. *)
Definition base_ok root (v : Z) : Prop :=
  exists r, base_join_rel simple_rel_array v = Ok r /\ linked_rel r /\ rel_val r = 2 ^ v /\ has_paths (store root) r.
Lemma base_kept root root' v : kept root root' -> base_ok root v -> base_ok root' v.
Proof. intros Hk (r & H1 & H2 & H3 & H4). exists r. split_and!; auto. Qed.
Record tables_ok root (ds ts : list Z) : Prop := {
  to_pos : Forall (fun v => 0 < v) ts;
  to_nodup : NoDup ts;
  to_few : Z.of_nat (length ts) <= N;
  to_base : Forall (base_ok root) ts;
  to_apart d : d ∈ ds -> ~ meets d (bits ts)
}.
Definition item_done root ds (item : JoinItem) : option JoinRel * Root -> Prop := fun '(rel, root') =>
  exists r, rel = Some r /\ joined root ds (bits (item_tables item)) (r, root').
Definition list_done root ds (l : list JoinItem) : list (option JoinRel) * Root -> Prop := fun '(rels, root') =>
  exists rs, rels = Some <$> rs /\ Forall2 (fun item r => linked_rel r /\ rel_val r = bits (item_tables item) /\ has_paths (store root') r) l rs /\
    tidy root' (ds ++ (rel_val <$> rs)) /\ kept root root'.
#[local] Abbreviation rel_of := (rel_of_item hash_any g geqo_call hook simple_rel_array q).

Lemma tables_apart ts ts' : Forall (fun v => 0 < v) (ts ++ ts') -> NoDup (ts ++ ts') -> ~ meets (bits ts) (bits ts').
Proof.
  intros [H1 H2]%Forall_app (_ & Hd & _)%NoDup_app (b & Hb & B1 & B2)%meets_bits. apply bits_spec in B1; [|done|done]. apply bits_spec in B2; [|done|done].
  by apply (Hd b).
Qed.
Lemma tables_split root ds ts ts' : tables_ok root ds (ts ++ ts') -> tables_ok root ds ts /\
  forall root', kept root root' -> tables_ok root' (ds ++ [bits ts]) ts'.
Proof.
  intros [H1 H2 H3 H4 H5]. pose proof (tables_apart _ _ H1 H2) as Hab. rewrite length_app in H3. apply Forall_app in H1 as [P1 P2], H4 as [B1 B2]. apply NoDup_app in H2 as (N1 & _ & N2).
  assert (forall d, d ∈ ds -> ~ meets d (bits ts) /\ ~ meets d (bits ts')) as Hd.
  { intros d Hd. specialize (H5 d Hd). rewrite bits_app, meets_sym, meets_lor_l in H5. rewrite !(meets_sym d). tauto. }
  split; [split; [done|done|lia|done|intros d Hin; by apply Hd]|]. intros root' Hk. split; [done|done|lia|eapply Forall_impl; [exact B2|]; intros v; by apply base_kept|].
  intros d [Hin|Hin]%elem_of_app; [by apply Hd|]. by apply list_elem_of_singleton in Hin as ->.
Qed.

Lemma list_rels_ok l : Forall (fun item => full_item item -> forall root ds, tables_ok root ds (item_tables item) -> tidy root ds -> planned (item_done root ds item) (rel_of root item)) l ->
  Forall full_item l -> forall root ds, tables_ok root ds (concat (item_tables <$> l)) -> tidy root ds -> planned (list_done root ds l) (list_rels rel_of root l).
Proof.
  induction l as [|item l IH]; intros Hit Hfull root ds Hts Htd; cbn [list_rels].
  { exists []. split_and!; [done|constructor|by rewrite app_nil_r|by intros r]. }
  apply Forall_cons in Hit as [Hi Hit], Hfull as [Hf Hfull]. cbn in Hts. destruct (tables_split _ _ _ _ Hts) as [T1 T2].
  eapply planned_bind; [by apply Hi|]. intros [rel root1] (r & -> & L1 & L2 & L3 & L4 & L5).
  eapply planned_bind; [apply (IH Hit Hfull root1 (ds ++ [bits (item_tables item)])); [by apply T2|done]|].
  intros [rels root2] (rs & -> & F & Htd2 & Hk2). exists (r :: rs). split_and!; [done|constructor; [|done]|cbn; rewrite L2; by rewrite <- app_assoc in Htd2|intros r' Hr'; by apply Hk2, L5].
  split_and!; [done|done|by apply Hk2].
Qed.

Lemma list_apart l rs (P : JoinRel -> Prop) : Forall full_item l -> Forall (fun v => 0 < v) (concat (item_tables <$> l)) -> NoDup (concat (item_tables <$> l)) ->
  Forall2 (fun item r => linked_rel r /\ rel_val r = bits (item_tables item) /\ P r) l rs -> apart (rel_val <$> rs).
Proof.
  intros Hfull Hpos Hnd Hall.
  assert (forall i, (i < length (rel_val <$> rs))%nat -> exists item, l !! i = Some item /\ val_at (rel_val <$> rs) i = bits (item_tables item)) as Hval.
  { intros i Hi. rewrite length_fmap in Hi. destruct (lookup_lt_is_Some_2 rs i Hi) as [r Hr]. destruct (Forall2_lookup_r _ _ _ _ _ Hall Hr) as (item & Hit & _ & Hv & _).
    exists item. split; [done|]. unfold val_at. rewrite <- Hv. apply nth_lookup_Some. by rewrite list_lookup_fmap, Hr. }
  assert (forall i item, l !! i = Some item -> exists before after, concat (item_tables <$> l) = before ++ item_tables item ++ after /\
    before = concat (item_tables <$> take i l) /\ after = concat (item_tables <$> drop (Datatypes.S i) l)) as Hsplit.
  { intros i item Hi. do 2 eexists. split; [|done]. rewrite <- (take_drop_middle l i item Hi) at 1. by rewrite fmap_app, concat_app. }
  split.
  - intros i Hi. destruct (Hval i Hi) as (item & Hit & ->). destruct (Hsplit i item Hit) as (before & after & E & _). rewrite E in Hpos.
    apply Forall_app in Hpos as [_ [Hp _]%Forall_app]. pose proof (full_tables item (Forall_lookup_1 _ _ _ _ Hfull Hit)) as Hne.
    destruct (item_tables item) as [|v ts]; [done|]. apply bits_nonzero. apply Forall_cons in Hp as [Hv Hp]. exists v. split; [lia|].
    apply bits_spec; [by constructor|lia|by left].
  - assert (forall i j, (i < j)%nat -> (j < length (rel_val <$> rs))%nat -> ~ meets (val_at (rel_val <$> rs) i) (val_at (rel_val <$> rs) j)) as Hlt.
    { intros i j Hij Hj. destruct (Hval i ltac:(lia)) as (item & Hit & ->), (Hval j Hj) as (item' & Hit' & ->).
      destruct (Hsplit i item Hit) as (before & after & E & _ & ->). rewrite E in Hpos, Hnd. apply NoDup_app in Hnd as (_ & _ & Hnd). apply Forall_app in Hpos as [_ Hpos].
      assert (sublist (item_tables item') (concat (item_tables <$> drop (Datatypes.S i) l))) as Hs.
      { assert (drop (Datatypes.S i) l !! (j - Datatypes.S i)%nat = Some item') as Hd by (rewrite lookup_drop; by replace (Datatypes.S i + (j - Datatypes.S i))%nat with j by lia).
        rewrite <- (take_drop_middle _ _ _ Hd), fmap_app, concat_app. apply sublist_inserts_l. cbn. by apply sublist_inserts_r. }
      apply tables_apart.
      - apply Forall_app in Hpos as [P1 P2]. apply Forall_app. split; [done|]. rewrite Forall_forall in P2 |- *. intros v Hv. apply P2. by eapply elem_of_sublist.
      - eapply sublist_NoDup; [exact Hnd|]. by apply sublist_app. }
    intros i j Hi Hj Hne. destruct (Nat.lt_ge_cases i j); [by apply Hlt|]. rewrite meets_sym. apply Hlt; [lia|done].
Qed.
Lemma list_union l rs (P : JoinRel -> Prop) : Forall (fun v => 0 < v) (concat (item_tables <$> l)) ->
  Forall2 (fun item r => linked_rel r /\ rel_val r = bits (item_tables item) /\ P r) l rs -> JoinSearch.all (set_initial_rels q rs) = bits (concat (item_tables <$> l)).
Proof.
  intros Hpos Hall. apply Z.bits_inj'. intros b Hb. apply eq_true_iff_eq. rewrite union_bit. clear - Hpos Hall Hb. induction Hall as [|item r l rs (_ & Hv & _) Hall IH].
  - cbn. rewrite Z.bits_0. split; [|done]. by intros (r & ?%not_elem_of_nil & _).
  - cbn in *. apply Forall_app in Hpos as [_ Hpos]. rewrite bits_app, Z.lor_spec, orb_true_iff, <- IH, <- Hv by done. setoid_rewrite elem_of_cons. naive_solver.
Qed.
Lemma list_length_tables l : Forall full_item l -> (length l <= length (concat (item_tables <$> l)))%nat.
Proof.
  induction 1 as [|item l Hf _ IH]; [done|]. cbn. rewrite length_app. pose proof (full_tables item Hf). destruct (item_tables item); [done|]. cbn. lia.
Qed.

Lemma search_list root root1 ds l rs : full_item (SubJoinlist l) -> (2 <= length rs)%nat -> tables_ok root ds (item_tables (SubJoinlist l)) ->
  Forall2 (fun item r => linked_rel r /\ rel_val r = bits (item_tables item) /\ has_paths (store root1) r) l rs -> tidy root1 (ds ++ (rel_val <$> rs)) ->
  planned (joined root1 ds (bits (item_tables (SubJoinlist l)))) (search_joins hash_any g geqo_call hook q root1 rs).
Proof.
  intros [_ Hfull]%full_sub Htwo. rewrite sub_tables. intros [Hpos Hnd Hfew _ Hap] Hall Htd. pose proof (Forall2_length _ _ _ Hall) as Hlen.
  pose proof (list_union _ _ _ Hpos Hall) as EU. rewrite <- EU. apply search_joins_ok.
  - done.
  - pose proof (list_length_tables l Hfull). lia.
  - eapply Forall2_Forall_r; [exact Hall|]. apply Forall_true. intros item r H. apply H.
  - eapply Forall2_Forall_r; [exact Hall|]. apply Forall_true. intros item r H. apply H.
  - by eapply list_apart.
  - intros d r Hd Hr Hm. apply (Hap d Hd). rewrite <- EU. apply (meets_within _ (rel_val r)); [by apply item_in_union|done].
  - done.
Qed.
Lemma rel_of_item_ok item : full_item item -> forall root ds, tables_ok root ds (item_tables item) -> tidy root ds -> planned (item_done root ds item) (rel_of root item).
Proof.
  induction item as [v|l IH] using item_ind; intros Hf root ds Hts Htd; cbn [rel_of_item].
  - destruct (proj1 (Forall_singleton _ _) (to_base _ _ _ Hts)) as (r & -> & H1 & H2 & H3). exists r. split; [done|]. cbn [item_tables]. rewrite bits_one.
    split; [done|]. split_and!; [done|done| |by intros r']. apply (tidy_mono root ds); [done|]. intros d Hd. exists d. split; [apply elem_of_app; by left|apply within_refl].
  - pose proof Hf as [Hne Hfull]%full_sub. pose proof Hts as Hts'. rewrite sub_tables in Hts'.
    eapply planned_bind; [by apply list_rels_ok|]. intros [rels root1] (rs & -> & Hall & Htd1 & Hk). pose proof (Forall2_length _ _ _ Hall) as Hlen.
    destruct rs as [|r [|r' rs]]; [by destruct l| |].
    + destruct l as [|item [|]]; try done. apply Forall2_cons in Hall as [(L1 & L2 & L3) _]. exists r. split; [done|].
      assert (item_tables (SubJoinlist [item]) = item_tables item) as -> by apply app_nil_r. rewrite <- L2. by split_and!.
    + assert (forall l : list JoinRel, mapM id (Some <$> l) = Some l) as Em by (clear; induction l as [|x l IH]; cbn; [done|by rewrite IH]).
      specialize (Em (r :: r' :: rs)). cbn [fmap list_fmap] in Em |- *. rewrite Em.
      eapply planned_bind; [apply (search_list root root1 ds l (r :: r' :: rs)); [done|cbn; lia|done..]|].
      intros [rel root2] (L1 & L2 & L3 & L4 & L5). exists rel. split; [done|]. split_and!; try done. intros x Hx. by apply L5, Hk.
Qed.

(** ** [make_one_rel] *)
Lemma make_one_rel_ok root joinlist ts : lists joinlist ts -> ts <> [] -> tables_ok root [] ts -> tidy root [] -> denotes (all_query_rels q) (bits ts) ->
  planned (fun '(rel, root') => rel_val rel = bits ts /\ has_paths (store root') rel)
    (make_one_rel hash_any g geqo_call hook simple_rel_array q root joinlist).
Proof.
  intros Hl Hne Hts Htd [Wa Va]. unfold make_one_rel, make_rel_from_joinlist. pose proof Hl as [El Hfull]. unfold joinlist_tables in El.
  eapply planned_bind; [apply (rel_of_item_ok (SubJoinlist joinlist)) with (ds := []); [|by rewrite El|done]|].
  - apply full_sub. split; [by apply (lists_some joinlist ts)|done].
  - intros [rel root'] (r & -> & Hr & Hv & Hp & _ & _). rewrite El in Hv. rewrite bms_equal_spec by (done || apply Hr).
    fold (rel_val r). rewrite Hv, Va, Z.eqb_refl. done.
Qed.
End Planned.

(** ** From the query *)
Section Query.
Context {Expr : Type} `{!ExprOps Expr} `{!OpFamilies Expr} `{!QualOps Expr} `{!QualLaws Expr} `{!OuterOps Expr}.
Context {Store S : Type} {join_paths : JoinPaths Store} {path_costs : PathCosts Store} {source : RandomSource S} {sorter : QSort Chromosome}.
Context {paths_ok : JoinPathsOk Store} {costs_ok : PathCostsOk Store}.

(** The planner when the join search begins: each table has its entry in [simple_rel_array], with the clauses that have been distributed to it, and its scan paths;
    there are no join relations yet. *)
Record planner_start (tree : JoinNode Expr) (root1 : ImpliedRoot (Expr := Expr)) (q : JoinRels.Query (Expr := Expr)) (simple_rel_array : list (option JoinRel))
    (start : PlannerInfo (Store := Store)) : Prop := {
  ps_ec : ec_root q = im_ec root1;
  ps_plain : join_info_list q = [];
  ps_lateral : hasLateralRTEs q = false;
  ps_all : denotes (all_query_rels q) (node_bits tree);
  ps_rels v : v ∈ tables tree -> exists rel, simple_rel_array !! Z.to_nat v = Some (Some rel) /\ scan_of root1 v rel /\ has_paths (store start) rel;
  ps_empty : join_rel_list start = [] /\ join_rel_hash start = None /\ join_rel_level start = None
}.

Lemma start_planned (jq : JTQuery Expr) tree root1 D hash_any g (geqo_call : GeqoCall S) hook q simple_rel_array start joinlist :
  inner_query jq tree -> NoDup (tables tree) -> Z.of_nat (length (tables tree)) < 2 ^ 31 -> lists joinlist (tables tree) ->
  scanned (node_bits tree) root1 D (eq_classes (im_ec root1)) -> call_ok g geqo_call -> planner_start tree root1 q simple_rel_array start ->
  planned g (Z.of_nat (length (tables tree))) (fun '(rel, end_state) => rel_val rel = node_bits tree /\ has_paths (store end_state) rel)
    (make_one_rel hash_any g geqo_call hook simple_rel_array q start joinlist).
Proof.
  intros Hq Hnd Hfew Hl Hscan Hcall [Eec Hpl Hlat Hall Hrels (E1 & E2 & E3)]. set (N := Z.of_nat _) in *.
  assert (tree_all inner_node tree) as Hin by (apply (tree_all_mono (query_node jq tree)); [apply qn_inner|apply Hq]).
  assert (node_bits tree = bits (tables tree)) as Eb by (unfold node_bits; by rewrite inner_no_joins, app_nil_r by done).
  destruct (nodes_pos (query_node jq tree) (qn_sound jq tree) tree (qo_nodes _ _ Hq)) as [Hne [Hpos _]%Forall_app].
  rewrite Eb in *. apply (make_one_rel_ok hash_any g geqo_call hook simple_rel_array q Hcall (join_clause root1 <$> D) (bits (tables tree)) N Hfew); try done.
  - split; [done|done|by apply (plan_clauses_ok (bits (tables tree)) root1 D Hscan)|]. rewrite Eec. by apply (scanned_eclasses (bits (tables tree)) root1 D).
  - split; [done|done|done| |by intros d ?%not_elem_of_nil]. apply Forall_forall. intros v Hv. pose proof (proj1 (Forall_forall _ _) Hpos v Hv) as Hv0. cbv beta in Hv0.
    destruct (Hrels v Hv) as (rel & Er & Hs & Hp). exists rel. unfold base_join_rel. destruct (Z.leb_spec v 0); [lia|]. rewrite Er. split; [done|]. split_and!; [|apply Hs|done].
    apply (scan_links (bits (tables tree)) root1 D Hscan q v); [done|lia| |done]. by apply bits_spec; [|lia|].
  - split; [done|unfold hash_inv; by rewrite E2|unfold list_wf; rewrite E1; constructor|]. rewrite E1. by intros r ?%not_elem_of_nil.
Qed.
End Query.
