(* ===== verification/QuerySearch.v ===== *)
(** * From the query to the topmost join relation

    After the quals of a query of inner joins have been distributed, [make_one_rel] comes to the relation of all its tables.  A query over three tables shows the
    routines at work. *)
From stdpp Require Import gmap.
From S2P Require Import Prelude BitUtils Bitmapset BitmapsetSpec BitmapsetIter Float64 SortTemplate Prng Geqo GeqoErx GeqoTree GeqoMain EquivClass EquivClassProps EquivClassThms PathKeys JoinRoot JoinRels JoinLinks JoinSearch RelSets ImpliedEq ImpliedEqProps ImpliedScan ImpliedJoin ImpliedThms ImpliedSearch Quals OuterJoin QueryClauses QueryQuals JoinTree QueryTree QueryThms GeqoSearch JoinDriver.
#[local] Open Scope Z_scope.

(** C3: quals, scan clauses, joinlist and join search fit together.  The query ([inner_query]) has inner joins only (no outer join, semijoin or antijoin) and no variable-free security
    qual that compares an expression with itself; in the search ([planner_start], [call_ok]) there are no lateral references and no [join_search_hook], and costs are below
    [DBL_MAX].  For every such query [deconstruct_jointree] and [generate_base_implied_equalities] succeed, and from the relations that they leave [make_one_rel] makes a relation of all the tables, the assertion at its end included.
    This holds for any collapse limits, hence joinlists nested in any way, with the standard search and the genetic one in use as the settings say: no list is left without a join,
    [geqo] never fails for want of a valid plan, and no join of an earlier list is taken for one of a later list.  Only where the genetic search is enabled for so many tables may the fuel of
    its random draws run out.  For any two disjoint relations that scans and joins have built, in any state of the search, [build_joinrel_restrictlist] succeeds. *)
Theorem query_planned {Expr} `{!ExprOps Expr} `{!OpFamilies Expr} `{!QualOps Expr} `{!QualLaws Expr} `{!OuterOps Expr}
    (jq : JTQuery Expr) (tree : JoinNode Expr) (st : JTRoot Expr) :
  inner_query jq tree -> fresh_query tree st -> NoDup (tables tree) -> Z.of_nat (length (tables tree)) < 2 ^ 31 ->
  exists joinlist st' root1, deconstruct_jointree jq st tree = Ok (joinlist, st') /\ generate_base_implied_equalities (jt_root st') = Ok root1 /\
  (forall Store S (join_paths : JoinPaths Store) (path_costs : PathCosts Store) (source : RandomSource S) (sorter : QSort Chromosome)
     (paths_ok : JoinPathsOk Store) (costs_ok : PathCostsOk Store) hash_any g (geqo_call : GeqoCall S) hook q simple_rel_array start,
     call_ok g geqo_call -> planner_start tree root1 q simple_rel_array start ->
     planned g (Z.of_nat (length (tables tree))) (fun '(rel, end_state) => rel_val rel = node_bits tree /\ has_paths (store end_state) rel)
       (make_one_rel hash_any g geqo_call hook simple_rel_array q start joinlist)) /\
  (forall root2 r1 e1 r2 e2, built (node_bits tree) root1 root2 r1 e1 -> built (node_bits tree) root1 root2 r2 e2 -> ~ meets (rel_val r1) (rel_val r2) ->
     exists restrictlist root3, build_joinrel_restrictlist root2 (bms_union (relids r1) (relids r2)) r1 r2 false = Ok (restrictlist, root3)).
Proof.
  intros Hq Hf Hnd Hfew. destruct (query_gathered jq tree Hq st Hf) as (joinlist & st' & D & C & E & Hl & Hg & _).
  destruct (base_feeds_joins _ _ _ (gathered_ready _ _ _ _ _ Hg)) as (root1 & D1 & Hgen & Hscan & Hr). exists joinlist, st', root1. split_and!; [done|done| |done].
  intros. by apply (start_planned jq tree root1 D1).
Qed.

(** ** A query over three tables

    [SELECT ... FROM a, b JOIN c ON b.y = c.z WHERE a.x = b.y AND b.w = b.w AND b.w < c.v], with the security qual [a.u = 5] on [a].  The operator family has no
    operator between the types of [a.x] and [c.z]: the class of [a.x], [b.y] and [c.z] breaks when a join of [a] and [c] is tried. *)
Module QueryDemo.
Inductive Ex := V (rel att : Z) | K (n : Z) | CurrentUser | NotNull (e : Ex).
#[local] Instance Ex_eq_dec : EqDecision Ex.
Proof. solve_decision. Defined.
Definition set1 (b : Z) : bitmapset := Some [2 ^ b].
Fixpoint vars (e : Ex) : bitmapset := match e with V rel _ => if (0 <? rel) && (rel <? 64) then set1 rel else None | K _ | CurrentUser => None | NotNull e => vars e end.
#[local] Instance ex_ops : ExprOps Ex := {
  expr_eq_dec := Ex_eq_dec; exprType := fun _ => 23; exprCollation := fun _ => 0; exprTypmod := fun _ => -1;
  applyRelabelType := fun e _ _ _ => e; IsPolymorphicType := fun _ => false;
  op_input_types := fun op => if op =? 416 then (20, 23) else if op =? 533 then (23, 21) else (23, 23); op_strict := fun _ => true;
  contain_volatile_functions := fun _ => false; expression_returns_set := fun _ => false; contain_agg_clause := fun _ => false;
  contain_window_function := fun _ => false; pull_varnos := vars
}.
(** Types 20, 21 and 23; operators 96 (=) and 97 (<) within 23, 416 for 20 = 23, 533 for 23 = 21. *)
#[local] Instance ex_families : OpFamilies Ex := {
  get_opfamily_member := fun _ l r => if (l =? 23) && (r =? 23) then 96 else if (l =? 20) && (r =? 23) then 416 else if (l =? 23) && (r =? 21) then 533 else 0;
  op_leakproof := fun _ => true; op_hashjoinable := fun _ _ => true; op_mergejoinable := fun op _ => negb (op =? 97); op_volatile := fun _ => false;
  is_Var := fun e => match e with V _ _ => true | _ => false end; is_Const := fun e => match e with K _ => true | _ => false end;
  relabel_arg := fun _ => None; folds_to_true := fun op _ l r => (op =? 96) && match l, r with K n, K m => n =? m | _, _ => false end
}.
#[local] Instance ex_quals : QualOps Ex := {
  get_mergejoin_opfamilies := fun op => if (op =? 96) || (op =? 416) || (op =? 533) then [1976] else [];
  contain_leaked_vars := fun _ => false; is_not_null := NotNull; forced_null_rels := fun _ => None
}.
(** There are no outer joins in the query below. *)
#[local] Instance ex_outer : OuterOps Ex := {
  find_nonnullable_rels := fun _ => None; contain_placeholder_references_to := fun _ _ => false; get_commutator := fun op => if op =? 96 then 96 else 0;
  remove_nulling_relids := fun _ e => e; add_nulling_relids := fun _ _ e => e
}.
Lemma wf1 k : 0 < k < 2 ^ 64 -> bms_wf (Some [k]).
Proof. intros Hk. split; [repeat constructor; lia|]. cbn. rewrite Z.shiftl_0_l, Z.lor_0_r. lia. Qed.
#[local] Instance ex_laws : QualLaws Ex.
Proof.
  split; [|done|done|].
  - induction e as [rel att|n| |e IH]; cbn; [|done..]. destruct (_ && _) eqn:E; [|done]. apply andb_true_iff in E as [?%Z.ltb_lt ?%Z.ltb_lt].
    apply wf1. split; [by apply Z.pow_pos_nonneg; lia|]. apply Z.pow_lt_mono_r; lia.
  - intros op family. cbn. destruct (Z.eqb_spec op 96) as [->|]; [done|]. destruct (Z.eqb_spec op 416) as [->|]; [done|].
    destruct (Z.eqb_spec op 533) as [->|]; [done|]. by intros ?%not_elem_of_nil.
Qed.

Definition security : ClauseNode (Expr := Ex) := make_opclause 96 0 (V 1 2) (K 5).
Definition on_bc : ClauseNode (Expr := Ex) := make_opclause 533 0 (V 2 1) (V 3 1).
Definition ab_eq : ClauseNode (Expr := Ex) := make_opclause 416 0 (V 1 1) (V 2 1).
Definition same_b : ClauseNode (Expr := Ex) := make_opclause 96 0 (V 2 3) (V 2 3).
Definition less : ClauseNode (Expr := Ex) := make_opclause 97 0 (V 2 3) (V 3 3).
Definition settings : JTQuery Ex :=
  {| jq_lateral := false; qual_security_level := 1; from_collapse_limit := 8; join_collapse_limit := 8; securityQuals := fun v => if v =? 1 then [[security]] else [];
     rowMarks := []; jq_placeholders := []; enable_hashagg := true |}.
Definition tree : JoinNode Ex := FromExpr [TableRef 1; JoinExpr JOIN_INNER (TableRef 2) (TableRef 3) 4 [on_bc]] [ab_eq; same_b; less].
Definition base : RelSlot := Base {| baserestrictinfo := []; baserestrict_min_security := 2 ^ 32 - 1; br_joininfo := []; br_has_eclass_joins := false |}.
Definition start : JTRoot Ex :=
  {| jt_root := {| im_ec := ec_start [None; Some None; Some None; Some None; None] 0; im_clauses := ∅; im_next := 0; im_rels := [NoRel; base; base; base; NoRel];
                   im_all_query_rels := None; im_join_info := []; im_jdomains := [None] |};
     all_baserels := None; outer_join_rels := None; nulling_relids := [None; None; None; None; None]; jt_items := []; semi_infos := []; left_join_clauses := []; right_join_clauses := [];
     full_join_clauses := []; hasPseudoConstantQuals := false |}.

Ltac member H := repeat (apply elem_of_cons in H as [->|H]); try by apply not_elem_of_nil in H.
Lemma fresh : fresh_query tree start.
Proof.
  split; try done.
  - eexists. split; [done|]. intros v H. by member H.
  - intros v H. member H; by eexists.
  - intros v H. member H; by exists None.
Qed.
Lemma query : inner_query settings tree.
Proof.
  split.
  - by eexists _, _.
  - assert (forall node, inner_node node -> (forall clause, clause ∈ own_quals settings node ->
      within (bms_val (clause_varnos clause)) (node_bits node) /\ bms_val (clause_varnos clause) <> 0) -> query_node settings tree node) as Hn.
    { intros node Hi H. split; [done|intros c Hc; left; by apply H| |].
      - intros v _ _. cbn. by destruct (v =? 1).
      - intros v op _ Hc _ E. by apply H in Hc as [_ ?]. }
    cbn [tree_all tree]. split_and!; try done; apply Hn; try done; intros c H; cbn in H; member H; done.
  - done.
Qed.

(** The state after the join tree has been deconstructed, then the clauses derived for scans. *)
Definition query_root : ImpliedRoot (Expr := Ex) := match deconstruct_jointree settings start tree with Ok (_, st) => jt_root st | _ => jt_root start end.
Definition root1 := match generate_base_implied_equalities query_root with Ok r => r | _ => query_root end.
Definition slot_rel (b : Z) : BaseRel :=
  match im_rels root1 !! Z.to_nat b with
  | Some (Base rel) => rel
  | _ => {| baserestrictinfo := []; baserestrict_min_security := 0; br_joininfo := []; br_has_eclass_joins := false |}
  end.
Definition scan (b : Z) : JoinRel :=
  {| rel_ptr := Z.to_nat b; relids := set1 b; joininfo := join_clause root1 <$> br_joininfo (slot_rel b); has_eclass_joins := br_has_eclass_joins (slot_rel b);
     lateral_relids := None; direct_lateral_relids := None; lateral_referencers := None |}.
Definition joinrel (r1 r2 : JoinRel) : JoinRel :=
  {| rel_ptr := 0; relids := bms_union (relids r1) (relids r2); joininfo := build_joinrel_joinlist (bms_union (relids r1) (relids r2)) r1 r2;
     has_eclass_joins := false; lateral_relids := None; direct_lateral_relids := None; lateral_referencers := None |}.
Definition after {A} (m : result (A * ImpliedRoot (Expr := Ex))) : ImpliedRoot (Expr := Ex) := match m with Ok (_, r) => r | _ => root1 end.
Definition root2 := after (generate_join_implied_equalities root1 (Some [10]) (set1 1) (set1 3) false).
Definition ab := joinrel (scan 1) (scan 2).
Definition root3 := after (build_joinrel_restrictlist root2 (relids ab) (scan 1) (scan 2) false).
Definition abc := joinrel ab (scan 3).
Definition root4 := after (build_joinrel_restrictlist root3 (relids abc) ab (scan 3) false).


Lemma scan_built b : b = 1 \/ b = 2 \/ b = 3 -> built 14 root1 root1 (scan b) (baserestrictinfo (slot_rel b)).
Proof.
  intros Hb. apply (built_scan 14 root1 (scan b) b (slot_rel b)); destruct Hb as [->|[->| ->]]; try done; try by apply wf1.
Qed.
(** The scan of [a] checks [a.u = 5], that of [b] [b.w IS NOT NULL], the first join [a.x = b.y], the second one [b.w < c.v] and [b.y = c.z]. *)
Lemma abc_built : built 14 root1 root4 abc [0; 4; 2; 5; 1]%nat /\ ec_broken (get_class root4 1) = true.
Proof.
  split; [|by vm_compute].
  assert (forall b, b = 1 \/ b = 2 \/ b = 3 -> built 14 root1 root2 (scan b) (baserestrictinfo (slot_rel b))) as H2.
  { intros b Hb. apply (built_later 14 root1 root1 root2 (scan b) _ (Some [10]) (set1 1) (set1 3) []); [by apply scan_built|by apply wf1..|done|done|by vm_compute]. }
  assert (built 14 root1 root3 ab [0; 4; 2]%nat) as H3.
  { apply (built_join 14 root1 root2 root3 (scan 1) [0]%nat (scan 2) [4]%nat ab [2]%nat); [apply (H2 1); lia|apply (H2 2); lia|by vm_compute|done|by vm_compute|done]. }
  apply (built_join 14 root1 root3 root4 ab [0; 4; 2]%nat (scan 3) [] abc [5; 1]%nat); [done| |by vm_compute|done|by vm_compute|done].
  apply (built_later 14 root1 root2 root3 (scan 3) [] (relids ab) (set1 1) (set1 2) [2]%nat); [apply (H2 3); lia|by apply wf1..|done|done|by vm_compute].
Qed.

(** A row gives each column a value or NULL. *)
Definition value (row : Z -> Z -> option Z) (e : Ex) : option Z := match e with V rel att => row rel att | K n => Some n | CurrentUser => Some 10 | NotNull e => None end.
Definition sat (row : Z -> Z -> option Z) (clause : ClauseNode (Expr := Ex)) : Prop :=
  match clause with
  | OpClause op => exists u v, value row (leftop op) = Some u /\ value row (rightop op) = Some v /\ (if opno op =? 97 then u < v else u = v)
  | OtherClause (NotNull e) => is_Some (value row e)
  | OtherClause _ => False
  end.
Definition eqv (row : Z -> Z -> option Z) (s : signature) (l r : Ex) : Prop := exists u, value row l = Some u /\ value row r = Some u.
Lemma demo_row row : row_law settings tree (sat row) (eqv row).
Proof.
  unfold eqv. split.
  - intros s x y (u & H1 & H2). by exists u.
  - intros s x y z (u & H1 & H2) (v & H3 & H4). exists u. split; [done|]. congruence.
  - intros s x t1 y t2 family op _ _ _ E Hne. cbn. assert (op <> 97) as H97%Z.eqb_neq.
    { intros ->. cbn in E. destruct (_ && _); [done|]. destruct (_ && _); [done|]. by destruct (_ && _). }
    rewrite H97. naive_solver.
  - intros op coll x x' y y' [->|(? & ? & ->)] [->|(? & ? & ->)]; unfold canonicalize_ec_expression; repeat destruct (_ || _); done.
  - intros op coll x y. cbn. intros [->%Z.eqb_eq H]%andb_true_iff. destruct x as [|n| |], y as [|m| |]; try done. apply Z.eqb_eq in H as ->. by exists m, m.
  - intros op coll x Hf _. cbn. assert (op <> 97) as H97%Z.eqb_neq by (by intros ->). rewrite H97. unfold is_Some. naive_solver.
Qed.

Lemma ok_inj {A} (x y : A) : Ok x = Ok y -> x = y.
Proof. congruence. Qed.
Definition demo_state : JTRoot Ex := match deconstruct_jointree settings start tree with Ok (_, st) => st | _ => start end.
Lemma demo_deconstruct : deconstruct_jointree settings start tree = Ok ([RangeTblRef 1; RangeTblRef 2; RangeTblRef 3], demo_state).
Proof. vm_compute. reflexivity. Qed.
Lemma demo_base : generate_base_implied_equalities (jt_root demo_state) = Ok root1.
Proof. vm_compute. reflexivity. Qed.
Definition row5 (rel att : Z) : option Z := if (rel =? 3) && (att =? 3) then Some 9 else Some 5.
Lemma plan_enforces_query_witness : inner_query settings tree /\ fresh_query tree start /\ row_law settings tree (sat row5) (eqv row5) /\
  built 14 root1 root4 abc [0; 4; 2; 5; 1]%nat /\
  ((forall id, id ∈ [0; 4; 2; 5; 1]%nat -> true_in (sat row5) root4 id) <-> (forall clause, clause ∈ [ab_eq; same_b; less; security; on_bc] -> sat row5 clause)).
Proof.
  destruct (plan_enforces_query settings tree start query fresh) as (joinlist & st & Hd & _ & r & Hr & H).
  rewrite demo_deconstruct in Hd. apply ok_inj in Hd. assert (st = demo_state) as -> by congruence. rewrite demo_base in Hr. apply ok_inj in Hr as <-.
  split; [exact query|]. split; [exact fresh|]. split; [exact (demo_row row5)|]. split; [exact (proj1 abc_built)|].
  exact (proj1 (H (sat row5) (eqv row5) (demo_row row5) root4 abc [0; 4; 2; 5; 1]%nat (proj1 abc_built) eq_refl)).
Defined.

(** *** The join search for it

    Paths are not told apart; a join that still has clauses of a class to apply costs more. *)
#[local] Instance demo_paths : JoinPaths unit :=
  {| is_dummy_rel := fun _ _ => false; create_unique_path := fun _ _ _ => false; restriction_is_constant_false := fun _ _ _ _ => false; mark_dummy_rel := fun _ _ => tt;
     add_join_paths := fun _ _ _ _ _ _ => Ok tt; no_paths_yet := fun _ _ => false; try_partitionwise_join := fun _ _ _ _ _ => Ok tt; finish_rel := fun _ _ _ => Ok tt |}.
#[local] Instance demo_paths_ok : JoinPathsOk unit.
Proof. refine {| has_paths := fun _ _ => True |}; try done; intros; by exists tt. Defined.
#[local] Instance demo_costs : PathCosts unit := {| path_cost := fun _ r => if has_eclass_joins r then dofZ 20 else dofZ 10; free_paths := fun _ st => st |}.
#[local] Instance demo_costs_ok : PathCostsOk unit.
Proof. split; [|done]. intros st r. cbn. by destruct (has_eclass_joins r). Qed.
Definition geqo_settings : GeqoSettings := {| Geqo_effort := 5; Geqo_pool_size := 3; Geqo_generations := 4; Geqo_selection_bias := dofZ 2 |}.
Definition fresh_chromo (n : Z) : Chromosome := {| string := replicate (Z.to_nat (n + 1)) 9; worth := DBL_MAX |}.
Definition demo_call : GeqoCall pg_prng_state :=
  {| gc_fuel := 50; gc_settings := geqo_settings; gc_pool := fun n => replicate 3 (fresh_chromo n); gc_momma := fresh_chromo; gc_daddy := fresh_chromo;
     gc_edges := fun n => replicate (Z.to_nat (n + 1)) {| edge_list := [9; 9; 9; 9]; total_edges := 9; unused_edges := 9 |}; gc_seeded := pg_prng_seed 11 |}.
Definition planner (geqo : bool) : PlannerSettings :=
  {| enable_join_order_plans := false; join_search_hook := false; enable_geqo := geqo; geqo_threshold := 2 |}.
Definition search_query : JoinRels.Query (Expr := Ex) :=
  {| join_info_list := []; placeholder_list := []; hasLateralRTEs := false; initial_rels := []; all_query_rels := Some [14]; ec_root := im_ec root1 |}.
Definition demo_array : list (option JoinRel) := [None; Some (scan 1); Some (scan 2); Some (scan 3); None].
Definition no_joins : PlannerInfo (Store := unit) :=
  {| join_rel_list := []; join_rel_hash := None; join_rel_level := None; join_cur_level := 0; next_ptr := 4; store := tt; JoinRels.tried := [] |}.
Definition no_hook (q : JoinRels.Query (Expr := Ex)) (root : PlannerInfo (Store := unit)) (levels_needed : Z) (initial : list JoinRel)
    : result (JoinRel * PlannerInfo (Store := unit)) := NoFuel.
Definition one_rel (geqo : bool) (joinlist : list JoinItem) :=
  @make_one_rel Ex unit _ demo_paths demo_costs (prng_source 50) (pg_qsort_sorter _) (fun _ => 0) (planner geqo) demo_call no_hook demo_array search_query no_joins joinlist.

Lemma demo_call_ok geqo : @call_ok _ (prng_source 50) (planner geqo) demo_call.
Proof.
  split; [done|split_and!; [cbn; lia..|by vm_compute]| |apply seed_ok].
  intros n Hn. assert (alloc_chromo n (fresh_chromo n)) as Hc by apply length_replicate. split_and!; [split; [done|by repeat constructor]|done|done|].
  split; [apply length_replicate|]. by intros i e _ [-> _]%lookup_replicate_1.
Qed.
Lemma scan_entries : Forall (fun v => rel_at root1 v (slot_rel v)) [1; 2; 3].
Proof. repeat apply Forall_cons_2; [vm_compute; reflexivity..|constructor]. Qed.
Lemma demo_start : planner_start tree root1 search_query demo_array no_joins.
Proof.
  split; [reflexivity|reflexivity|reflexivity|split; [apply wf1; lia|reflexivity]| |split_and!; reflexivity].
  intros v Hv. exists (scan v). pose proof (proj1 (Forall_forall _ _) scan_entries v Hv) as Hr. cbv beta in Hr.
  assert (demo_array !! Z.to_nat v = Some (Some (scan v)) /\ bms_wf (set1 v) /\ bms_val (set1 v) = 2 ^ v) as (Ea & Hw & Ev).
  { clear Hr. member Hv; (split; [reflexivity|]); (split; [apply wf1; lia|reflexivity]). }
  split; [exact Ea|]. split; [|exact I]. split; [exact Hw|exact Ev|]. exists (slot_rel v). split; [exact Hr|]. split; reflexivity.
Qed.
Lemma demo_tables : NoDup (tables tree).
Proof. apply (bool_decide_unpack _). by vm_compute. Qed.

Lemma few_tables : Z.of_nat (length (tables tree)) < 2 ^ 31.
Proof. cbn. lia. Qed.
Lemma planned_without_geqo N m : planned (planner false) N (fun '(rel, end_state) => rel_val rel = node_bits tree /\ has_paths (store end_state) rel) m ->
  exists rel (end_state : PlannerInfo (Store := unit)), m = Ok (rel, end_state) /\ rel_val rel = 14.
Proof.
  intros H. destruct m as [[rel end_state]|msg|]; [|destruct H|discriminate (proj1 H)]. exists rel, end_state. split; [reflexivity|exact (proj1 H)].
Qed.

(** The standard search joins the three tables. *)
Lemma query_planned_witness : inner_query settings tree /\ fresh_query tree start /\
  exists rel end_state, one_rel false [RangeTblRef 1; RangeTblRef 2; RangeTblRef 3] = Ok (rel, end_state) /\ rel_val rel = 14.
Proof.
  destruct (query_planned settings tree start query fresh demo_tables few_tables) as (joinlist & st & r & Hd & Hr & H & _).
  rewrite demo_deconstruct in Hd. apply ok_inj, pair_equal_spec in Hd as [<- <-]. rewrite demo_base in Hr. apply ok_inj in Hr as <-.
  split; [exact query|]. split; [exact fresh|].
  pose proof (H unit _ demo_paths demo_costs (prng_source 50) (pg_qsort_sorter _) demo_paths_ok demo_costs_ok (fun _ => 0) (planner false) demo_call no_hook
    search_query demo_array no_joins (demo_call_ok false) demo_start) as Hrel. clear H.
  exact (planned_without_geqo _ _ Hrel).
Defined.
(** With collapse limits of 1 the join of [b] and [c] is a list of its own; the genetic search joins each list.  The join relations that it has tried on the way are no longer listed. *)
Definition no_collapse : JTQuery Ex :=
  {| jq_lateral := false; qual_security_level := 1; from_collapse_limit := 1; join_collapse_limit := 1; securityQuals := securityQuals settings;
     rowMarks := []; jq_placeholders := []; enable_hashagg := true |}.
Example genetic_search_plans :
  match deconstruct_jointree no_collapse start tree with Ok (joinlist, _) => joinlist | _ => [] end = [RangeTblRef 1; SubJoinlist [RangeTblRef 2; RangeTblRef 3]] /\
  match one_rel true [RangeTblRef 1; SubJoinlist [RangeTblRef 2; RangeTblRef 3]] with Ok (rel, end_state) => (relids rel, relids <$> join_rel_list end_state) | _ => (None, []) end =
    (Some [14], [Some [12]; Some [14]]).
Proof. split; vm_compute; reflexivity. Qed.

(** The policy [current_user = current_user] on table 1 *)
Definition policy : JTQuery Ex :=
  {| jq_lateral := false; qual_security_level := 1; from_collapse_limit := 8; join_collapse_limit := 8;
     securityQuals := fun _ => [[make_opclause 96 0 CurrentUser CurrentUser]]; rowMarks := []; jq_placeholders := []; enable_hashagg := true |}.
Lemma fresh_one : fresh_query (FromExpr [TableRef 1] []) start.
Proof.
  split; try done.
  - eexists. split; [done|]. intros v H. by member H.
  - intros v H. member H; by eexists.
  - intros v H. member H; by exists None.
Qed.
Lemma security_qual_fails_witness : fresh_query (FromExpr [TableRef 1] []) start /\ deconstruct_jointree policy start (FromExpr [TableRef 1] []) = Error variable_free_msg.
Proof.
  split; [exact fresh_one|].
  apply (security_qual_fails policy 1 {| opno := 96; inputcollid := 0; leftop := CurrentUser; rightop := CurrentUser |} start [] [] fresh_one); done.
Defined.
End QueryDemo.
