(* ===== verification/Base64.v ===== *)
(** * Base64: [src/common/base64.c]

    [pg_b64_encode] and [pg_b64_decode] over caller-supplied buffers.  Bytes are integers in 0..255;
    [goto error] is [None] inside the loops; an access outside a buffer would be an [Error].
    Encoding fills exactly [pg_b64_enc_len] bytes or zeroes the buffer, decoding never writes past
    [pg_b64_dec_len] bytes or the buffer and agrees with the reference decoder [dec_spec], and decoding undoes encoding. *)
From Stdlib Require Import Ascii.
From S2P Require Import Prelude.
#[local] Open Scope Z_scope.

Definition code (a : ascii) : Z := Z.of_N (N_of_ascii a).
Definition _base64 : list Z :=
  code <$> String.list_ascii_of_string "ABCDEFGHIJKLMNOPQRSTUVWXYZabcdefghijklmnopqrstuvwxyz0123456789+/".
Definition b64lookup : list Z :=
  [-1; -1; -1; -1; -1; -1; -1; -1; -1; -1; -1; -1; -1; -1; -1; -1;
   -1; -1; -1; -1; -1; -1; -1; -1; -1; -1; -1; -1; -1; -1; -1; -1;
   -1; -1; -1; -1; -1; -1; -1; -1; -1; -1; -1; 62; -1; -1; -1; 63;
   52; 53; 54; 55; 56; 57; 58; 59; 60; 61; -1; -1; -1; -1; -1; -1;
   -1; 0; 1; 2; 3; 4; 5; 6; 7; 8; 9; 10; 11; 12; 13; 14;
   15; 16; 17; 18; 19; 20; 21; 22; 23; 24; 25; -1; -1; -1; -1; -1;
   -1; 26; 27; 28; 29; 30; 31; 32; 33; 34; 35; 36; 37; 38; 39; 40;
   41; 42; 43; 44; 45; 46; 47; 48; 49; 50; 51; -1; -1; -1; -1; -1].

Definition pad : Z := 61.  (* '=' *)
Definition b64_char (buf shift : Z) : result Z := array_get _base64 (Z.land (Z.shiftr buf shift) 0x3f).

(** [*p++ = c] *)
Definition put (dst : list Z) (p c : Z) : result (list Z * Z) := dst ← array_set dst p c; Ok (dst, p + 1).

Fixpoint encode_loop (src : list Z) (dst : list Z) (dstlen p pos buf : Z)
    : result (option (list Z * Z * Z * Z)) :=
  match src with
  | [] => Ok (Some (dst, p, pos, buf))
  | s :: src =>
      let buf := Z.lor buf (wrap32 (Z.shiftl s (Z.shiftl pos 3))) in
      let pos := pos - 1 in
      if pos <? 0 then
        if dstlen <? p + 4 then Ok None else
        c0 ← b64_char buf 18; '(dst, p) ← put dst p c0;
        c1 ← b64_char buf 12; '(dst, p) ← put dst p c1;
        c2 ← b64_char buf 6; '(dst, p) ← put dst p c2;
        c3 ← b64_char buf 0; '(dst, p) ← put dst p c3;
        encode_loop src dst dstlen p 2 0
      else encode_loop src dst dstlen p pos buf
  end.

(** [memset(dst, 0, dstlen)].  Whatever was written before an error lies below [dstlen], so the state of the
    buffer at the [goto] does not matter. *)
Definition zero_fill (dst : list Z) (dstlen : Z) : list Z :=
  replicate (Z.to_nat dstlen) 0 ++ drop (Z.to_nat dstlen) dst.

(** The last one or two bytes. *)
Definition encode_tail (dst : list Z) (dstlen p pos buf : Z) : result (option (Z * list Z)) :=
  if negb (pos =? 2) then
    if dstlen <? p + 4 then Ok None else
    c0 ← b64_char buf 18; '(dst, p) ← put dst p c0;
    c1 ← b64_char buf 12; '(dst, p) ← put dst p c1;
    c2 ← (if pos =? 0 then b64_char buf 6 else Ok pad); '(dst, p) ← put dst p c2;
    '(dst, p) ← put dst p pad;
    Ok (Some (p, dst))
  else Ok (Some (p, dst)).

Definition encode_all (src : list Z) (dst : list Z) (dstlen p : Z) : result (option (Z * list Z)) :=
  loop ← encode_loop src dst dstlen p 2 0;
  match loop with
  | None => Ok None
  | Some (dst, p, pos, buf) => encode_tail dst dstlen p pos buf
  end.
Definition pg_b64_encode (src : list Z) (dst : list Z) (dstlen : Z) : result (Z * list Z) :=
  encoded ← encode_all src dst dstlen 0;
  match encoded with
  | None => Ok (-1, zero_fill dst dstlen)
  | Some (p, dst) => if p <=? dstlen then Ok (p, dst) else Error assert_msg
  end.

(** ** Decoding *)

(** The six bits of a character, with the new [end]; [None] is an error. *)
Definition sextet (c pos end_ : Z) : result (option (Z * Z)) :=
  if (c =? 32) || (c =? 9) || (c =? 10) || (c =? 13) then Ok None
  else if c =? pad then
    if end_ =? 0 then
      if pos =? 2 then Ok (Some (0, 1)) else if pos =? 3 then Ok (Some (0, 2)) else Ok None
    else Ok (Some (0, end_))
  else if (0 <? c) && (c <? 127) then
    b ← array_get b64lookup c; Ok (if b <? 0 then None else Some (b, end_))
  else Ok None.

(** The bytes of a complete group of four characters. *)
Definition flush_group (dst : list Z) (dstlen p buf end_ : Z) : result (option (list Z * Z)) :=
  if dstlen <? p + 1 then Ok None else
  '(dst, p) ← put dst p (Z.land (Z.shiftr buf 16) 255);
  let second := (end_ =? 0) || (1 <? end_) in
  if second && (dstlen <? p + 1) then Ok None else
  '(dst, p) ← (if second then put dst p (Z.land (Z.shiftr buf 8) 255) else Ok (dst, p));
  let third := (end_ =? 0) || (2 <? end_) in
  if third && (dstlen <? p + 1) then Ok None else
  '(dst, p) ← (if third then put dst p (Z.land buf 255) else Ok (dst, p));
  Ok (Some (dst, p)).

Fixpoint decode_loop (src : list Z) (dst : list Z) (dstlen p buf pos end_ : Z)
    : result (list Z * option (Z * Z)) :=
  match src with
  | [] => Ok (dst, Some (p, pos))
  | c :: src =>
      x ← sextet c pos end_;
      match x with
      | None => Ok (dst, None)
      | Some (b, end_) =>
          let buf := wrap32 (Z.shiftl buf 6 + b) in
          let pos := pos + 1 in
          if pos =? 4 then
            flushed ← flush_group dst dstlen p buf end_;
            match flushed with
            | None => Ok (dst, None)
            | Some (dst, p) => decode_loop src dst dstlen p 0 0 end_
            end
          else decode_loop src dst dstlen p buf pos end_
      end
  end.
Definition pg_b64_decode (src : list Z) (dst : list Z) (dstlen : Z) : result (Z * list Z) :=
  '(dst', loop) ← decode_loop src dst dstlen 0 0 0 0;
  match loop with
  | Some (p, pos) =>
      if negb (pos =? 0) then Ok (-1, zero_fill dst' dstlen)
      else if p <=? dstlen then Ok (p, dst') else Error assert_msg
  | None => Ok (-1, zero_fill dst' dstlen)
  end.

(** Both compute in [int]; with [-fwrapv], as the server is built, an overflow wraps around. *)
Definition pg_b64_enc_len (srclen : Z) : Z := to_int32 (Z.quot (to_int32 (srclen + 2)) 3 * 4).
Definition pg_b64_dec_len (srclen : Z) : Z := Z.shiftr (to_int32 (srclen * 3)) 2.

(** The longest inputs for which they do not overflow. *)
Definition enc_max : Z := 1610612733.
Definition dec_max : Z := 715827882.
Lemma enc_len_small n : 0 <= n <= enc_max -> pg_b64_enc_len n = (n + 2) / 3 * 4.
Proof.
  unfold enc_max. intros Hn. unfold pg_b64_enc_len. rewrite (to_int32_id (n + 2)), Z.quot_div_nonneg by lia.
  apply to_int32_id. Z.to_euclidean_division_equations; lia.
Qed.
Lemma dec_len_small n : 0 <= n <= dec_max -> pg_b64_dec_len n = n * 3 / 4.
Proof. unfold dec_max. intros Hn. unfold pg_b64_dec_len. by rewrite to_int32_id, Z.shiftr_div_pow2 by lia. Qed.
Lemma enc_len_wraps : pg_b64_enc_len (enc_max + 1) < 0 /\ pg_b64_dec_len (dec_max + 1) < 0.
Proof. split; vm_compute; reflexivity. Qed.

(** ** Writing a run of bytes *)
Definition splice (dst : list Z) (p : nat) (l : list Z) : list Z := take p dst ++ l ++ drop (p + length l) dst.

Lemma length_splice dst p l : (p + length l <= length dst)%nat -> length (splice dst p l) = length dst.
Proof. intros H. unfold splice. rewrite !length_app, length_take, length_drop. lia. Qed.
Lemma splice_nil dst p : splice dst p [] = dst.
Proof. unfold splice. cbn. by rewrite Nat.add_0_r, take_drop. Qed.
Lemma splice_splice dst p l1 l2 : (p + length l1 + length l2 <= length dst)%nat ->
  splice (splice dst p l1) (p + length l1) l2 = splice dst p (l1 ++ l2).
Proof.
  intros H. unfold splice. assert (length (take p dst) = p) as Hp by (rewrite length_take; lia).
  rewrite (app_assoc (take p dst)). rewrite take_app_length' by (rewrite length_app; lia).
  rewrite drop_app_ge by (rewrite length_app; lia). rewrite length_app, drop_drop, Hp.
  rewrite length_app, <- !app_assoc. do 4 f_equal. lia.
Qed.
(** [*p++ = c] after the run [l] has been written at [p]. *)
Lemma put_more dst (p : nat) l c : (p + length l < length dst)%nat ->
  put (splice dst p l) (Z.of_nat (p + length l)) c = Ok (splice dst p (l ++ [c]), Z.of_nat (p + length (l ++ [c]))).
Proof.
  intros Hp. unfold put. rewrite array_set_ok by (rewrite length_splice; lia). cbn. f_equal. f_equal.
  - rewrite <- (splice_splice dst p l [c]) by (cbn; lia). unfold splice at 3.
    rewrite insert_take_drop by (rewrite length_splice; lia). cbn. by replace (S (p + length l)) with (p + length l + 1)%nat by lia.
  - rewrite length_app. cbn. lia.
Qed.
Lemma put_first dst (p : nat) c : (p < length dst)%nat ->
  put dst (Z.of_nat p) c = Ok (splice dst p [c], Z.of_nat (p + length [c])).
Proof.
  intros Hp. pose proof (put_more dst p [] c) as H. rewrite splice_nil in H. cbn [length] in H.
  rewrite Nat.add_0_r in H. by apply H.
Qed.

(** ** Reference encoding *)
Definition byte (b : Z) : Prop := 0 <= b < 256.
Definition ch (buf shift : Z) : Z := nth (Z.to_nat (buf / 2 ^ shift mod 64)) _base64 0.
Fixpoint enc_spec (l : list Z) : list Z :=
  match l with
  | a :: b :: c :: l =>
      let buf := a * 65536 + b * 256 + c in ch buf 18 :: ch buf 12 :: ch buf 6 :: ch buf 0 :: enc_spec l
  | [a; b] => let buf := a * 65536 + b * 256 in [ch buf 18; ch buf 12; ch buf 6; pad]
  | [a] => let buf := a * 65536 in [ch buf 18; ch buf 12; pad; pad]
  | [] => []
  end.

Lemma three_ind (P : list Z -> Prop) : P [] -> (forall a, P [a]) -> (forall a b, P [a; b]) ->
  (forall a b c l, P l -> P (a :: b :: c :: l)) -> forall l, P l.
Proof.
  intros H0 H1 H2 H3. fix IH 1. intros [|a [|b [|c l]]]; [done|apply H1|apply H2|]. apply H3, IH.
Qed.

Lemma enc_spec_length l : Z.of_nat (length (enc_spec l)) = (Z.of_nat (length l) + 2) / 3 * 4.
Proof.
  induction l using three_ind; [done..|].
  cbn [enc_spec length]. replace (Z.of_nat (S (S (S (length l)))) + 2) with (Z.of_nat (length l) + 2 + 1 * 3) by lia.
  rewrite Z.div_add by lia. lia.
Qed.

Lemma b64_char_ok buf shift : 0 <= shift -> b64_char buf shift = Ok (ch buf shift).
Proof.
  intros Hs. unfold b64_char, ch. change 0x3f with (Z.ones 6). rewrite Z.land_ones, Z.shiftr_div_pow2 by lia.
  change (2 ^ 6) with 64. pose proof (Z.mod_pos_bound (buf / 2 ^ shift) 64 ltac:(lia)) as H.
  set (i := buf / 2 ^ shift mod 64) in *. apply array_get_Z; [lia|].
  destruct (lookup_lt_is_Some_2 _base64 (Z.to_nat i)) as [x Hx]; [change (length _base64) with 64%nat; lia|].
  rewrite Hx. f_equal. symmetry. by apply nth_lookup_Some with (d := 0) in Hx.
Qed.

Lemma put4 dst (p : nat) c0 c1 c2 c3 {A} (k : list Z * Z -> result A) : (p + 4 <= length dst)%nat ->
  ('(dst, q) ← put dst (Z.of_nat p) c0; '(dst, q) ← put dst q c1; '(dst, q) ← put dst q c2; '(dst, q) ← put dst q c3; k (dst, q)) =
  k (splice dst p [c0; c1; c2; c3], Z.of_nat (p + 4)).
Proof.
  intros H. rewrite put_first by lia. cbn [mbind result_bind]. do 3 (rewrite put_more by (cbn; lia); cbn [mbind result_bind]).
  done.
Qed.

Lemma lor_add x y k : 0 <= k -> 0 <= y < 2 ^ k -> Z.lor (x * 2 ^ k) y = x * 2 ^ k + y.
Proof.
  intros Hk Hy. assert (Z.land (x * 2 ^ k) y = 0) as H0.
  { apply Z.bits_inj'. intros i Hi. rewrite Z.land_spec, Z.bits_0. destruct (Z_lt_ge_dec i k).
    - by rewrite Z.mul_pow2_bits_low by lia.
    - rewrite (testbit_high k y i) by (done || lia). apply andb_false_r. }
  rewrite <- Z.lxor_lor by done. symmetry. by apply Z.add_nocarry_lxor.
Qed.

(** The accumulated bits after one, two and three bytes. *)
Lemma buf_bytes a b c : byte a -> byte b -> byte c ->
  Z.lor 0 (wrap32 (Z.shiftl a (Z.shiftl 2 3))) = a * 65536 /\
  Z.lor (a * 65536) (wrap32 (Z.shiftl b (Z.shiftl 1 3))) = a * 65536 + b * 256 /\
  Z.lor (a * 65536 + b * 256) (wrap32 (Z.shiftl c (Z.shiftl 0 3))) = a * 65536 + b * 256 + c.
Proof.
  unfold byte, wrap32. intros Ha Hb Hc. change (Z.shiftl 2 3) with 16. change (Z.shiftl 1 3) with 8. change (Z.shiftl 0 3) with 0.
  rewrite !Z.shiftl_mul_pow2 by lia.
  rewrite !Z.mod_small by lia. rewrite Z.lor_0_l. split_and!; [lia|..].
  - apply (lor_add a (b * 2 ^ 8) 16); lia.
  - rewrite Z.mul_1_r. replace (a * 65536 + b * 256) with ((a * 256 + b) * 2 ^ 8) by lia. apply lor_add; lia.
Qed.

Lemma encode_loop_1 a dst dstlen p : byte a -> encode_loop [a] dst dstlen p 2 0 = Ok (Some (dst, p, 1, a * 65536)).
Proof. intros Ha. destruct (buf_bytes a 0 0 Ha) as (E1 & _); [done..|]. cbn [encode_loop]. by rewrite E1. Qed.
Lemma encode_loop_2 a b dst dstlen p : byte a -> byte b ->
  encode_loop [a; b] dst dstlen p 2 0 = Ok (Some (dst, p, 0, a * 65536 + b * 256)).
Proof.
  intros Ha Hb. destruct (buf_bytes a b 0 Ha Hb) as (E1 & E2 & _); [done|]. cbn [encode_loop]. rewrite E1.
  change (2 - 1) with 1. change (1 <? 0) with false. cbv iota. by rewrite E2.
Qed.
Lemma encode_loop_3 a b c l dst (p : nat) dstlen : byte a -> byte b -> byte c -> dstlen <= Z.of_nat (length dst) ->
  let buf := a * 65536 + b * 256 + c in
  encode_loop (a :: b :: c :: l) dst dstlen (Z.of_nat p) 2 0 =
    if dstlen <? Z.of_nat (p + 4) then Ok None
    else encode_loop l (splice dst p [ch buf 18; ch buf 12; ch buf 6; ch buf 0]) dstlen (Z.of_nat (p + 4)) 2 0.
Proof.
  intros Ha Hb Hc Hd buf. destruct (buf_bytes a b c Ha Hb Hc) as (E1 & E2 & E3). cbn [encode_loop]. rewrite E1.
  change (2 - 1) with 1. change (1 <? 0) with false. cbv iota. rewrite E2.
  change (1 - 1) with 0. change (0 <? 0) with false. cbv iota. rewrite E3. fold buf.
  change (0 - 1 <? 0) with true. cbv iota. replace (Z.of_nat p + 4) with (Z.of_nat (p + 4)) by lia.
  destruct (Z.ltb_spec dstlen (Z.of_nat (p + 4))); [done|]. rewrite !b64_char_ok by lia. cbn [mbind result_bind].
  apply (put4 dst p _ _ _ _ (fun '(dst, p) => encode_loop l dst dstlen p 2 0)). lia.
Qed.
Lemma encode_tail_ok dst (p : nat) dstlen pos buf : pos = 0 \/ pos = 1 -> dstlen <= Z.of_nat (length dst) ->
  encode_tail dst dstlen (Z.of_nat p) pos buf =
    if dstlen <? Z.of_nat (p + 4) then Ok None
    else Ok (Some (Z.of_nat (p + 4), splice dst p [ch buf 18; ch buf 12; if pos =? 0 then ch buf 6 else pad; pad])).
Proof.
  intros Hpos Hd. unfold encode_tail. replace (negb (pos =? 2)) with true by (destruct Hpos; by subst).
  replace (Z.of_nat p + 4) with (Z.of_nat (p + 4)) by lia.
  destruct (Z.ltb_spec dstlen (Z.of_nat (p + 4))); [done|]. rewrite !b64_char_ok by lia. cbn [mbind result_bind].
  replace (if pos =? 0 then Ok (ch buf 6) else Ok pad) with (Ok (if pos =? 0 then ch buf 6 else pad)) by (by destruct (pos =? 0)).
  cbn [mbind result_bind]. apply (put4 dst p _ _ _ _ (fun '(dst, p) => Ok (Some (p, dst)))). lia.
Qed.

Lemma encode_all_ok src : Forall byte src -> forall dst (p : nat) dstlen, Z.of_nat p <= dstlen <= Z.of_nat (length dst) ->
  encode_all src dst dstlen (Z.of_nat p) =
    Ok (if Z.of_nat (p + length (enc_spec src)) <=? dstlen
        then Some (Z.of_nat (p + length (enc_spec src)), splice dst p (enc_spec src))
        else None).
Proof.
  induction src as [|a|a b|a b c l IH] using three_ind; intros Hb dst p dstlen Hd; unfold encode_all; cbn [enc_spec];
    rewrite ?Forall_cons in Hb.
  - cbn. rewrite Nat.add_0_r, splice_nil. destruct (Z.leb_spec (Z.of_nat p) dstlen); [done|lia].
  - rewrite encode_loop_1 by apply Hb. cbn [mbind result_bind]. rewrite encode_tail_ok by (lia || by right). cbn [length Z.eqb].
    rewrite Z.leb_antisym. by destruct (dstlen <? _).
  - rewrite encode_loop_2 by apply Hb. cbn [mbind result_bind]. rewrite encode_tail_ok by (lia || by left). cbn [length Z.eqb].
    rewrite Z.leb_antisym. by destruct (dstlen <? _).
  - rewrite encode_loop_3 by (apply Hb || lia). destruct (Z.ltb_spec dstlen (Z.of_nat (p + 4))).
    + cbn [mbind result_bind length]. by destruct (Z.leb_spec (Z.of_nat (p + S (S (S (S (length (enc_spec l))))))) dstlen); [lia|].
    + set (four := [_; _; _; _]). fold (encode_all l (splice dst p four) dstlen (Z.of_nat (p + 4))).
      rewrite IH by (rewrite ?length_splice by (cbn; lia); tauto || lia).
      change (p + 4)%nat with (p + length four)%nat.
      change (ch _ 18 :: ch _ 12 :: ch _ 6 :: ch _ 0 :: enc_spec l) with (four ++ enc_spec l).
      rewrite (length_app four), Nat.add_assoc. destruct (Z.leb_spec (Z.of_nat (p + length four + length (enc_spec l))) dstlen); [|done].
      by rewrite splice_splice by lia.
Qed.

Lemma encode_ok src dst dstlen : Forall byte src -> 0 <= dstlen <= Z.of_nat (length dst) ->
  pg_b64_encode src dst dstlen =
    Ok (if Z.of_nat (length (enc_spec src)) <=? dstlen
        then (Z.of_nat (length (enc_spec src)), enc_spec src ++ drop (length (enc_spec src)) dst)
        else (-1, zero_fill dst dstlen)).
Proof.
  intros Hb Hd. unfold pg_b64_encode. rewrite (encode_all_ok src Hb dst 0) by lia. cbn [mbind result_bind].
  rewrite Nat.add_0_l. destruct (_ <=? dstlen) eqn:E; [|done]. by rewrite E.
Qed.

(** ** Decoding *)
Lemma sextet_char i pos end_ : 0 <= i < 64 -> sextet (nth (Z.to_nat i) _base64 0) pos end_ = Ok (Some (i, end_)).
Proof.
  intros Hi. rewrite <- (Z2Nat.id i) at 2 by lia. assert (Z.to_nat i < 64)%nat as H by lia. revert H.
  generalize (Z.to_nat i). clear Hi i. intros k Hk.
  do 64 (destruct k as [|k]; [vm_compute; reflexivity|]). lia.
Qed.
Lemma sextet_ch buf shift pos end_ : sextet (ch buf shift) pos end_ = Ok (Some (buf / 2 ^ shift mod 64, end_)).
Proof. apply sextet_char, Z.mod_pos_bound. lia. Qed.

(** Four sextets put together. *)
Lemma regroup buf : 0 <= buf < 2 ^ 24 ->
  let i0 := buf / 2 ^ 18 mod 64 in let i1 := buf / 2 ^ 12 mod 64 in
  let i2 := buf / 2 ^ 6 mod 64 in let i3 := buf / 2 ^ 0 mod 64 in
  let b1 := wrap32 (Z.shiftl 0 6 + i0) in let b2 := wrap32 (Z.shiftl b1 6 + i1) in
  let b3 := wrap32 (Z.shiftl b2 6 + i2) in wrap32 (Z.shiftl b3 6 + i3) = buf.
Proof.
  intros Hb. cbv zeta. unfold wrap32. rewrite !Z.shiftl_mul_pow2 by lia.
  change (2 ^ 18) with 262144. change (2 ^ 12) with 4096. change (2 ^ 6) with 64. change (2 ^ 0) with 1.
  change (2 ^ 32) with 4294967296. change (2 ^ 24) with 16777216 in Hb. rewrite Z.div_1_r.
  assert (buf / 262144 mod 64 = buf / 262144) as -> by (apply Z.mod_small; Z.to_euclidean_division_equations; lia).
  rewrite !(Z.mod_small _ 4294967296); Z.to_euclidean_division_equations; lia.
Qed.
Lemma bytes_of_buf a b c : byte a -> byte b -> byte c ->
  let buf := a * 65536 + b * 256 + c in
  0 <= buf < 2 ^ 24 /\ Z.land (Z.shiftr buf 16) 255 = a /\ Z.land (Z.shiftr buf 8) 255 = b /\ Z.land buf 255 = c.
Proof.
  unfold byte. intros Ha Hb Hc. cbv zeta. change 255 with (Z.ones 8). rewrite !Z.land_ones, !Z.shiftr_div_pow2 by lia.
  change (2 ^ 16) with 65536. change (2 ^ 8) with 256. change (2 ^ 24) with 16777216.
  split_and!; [lia|lia|Z.to_euclidean_division_equations; lia..].
Qed.

Definition decoded (dst : list Z) (dstlen : Z) (p : nat) (l : list Z) : result (option (list Z * Z)) :=
  Ok (if Z.of_nat (p + length l) <=? dstlen then Some (splice dst p l, Z.of_nat (p + length l)) else None).

Lemma leb_ltb a b : (a <=? b) = negb (b <? a).
Proof. apply Z.leb_antisym. Qed.

Lemma flush_group_ok dst (p : nat) dstlen a b c end_ : byte a -> byte b -> byte c ->
  Z.of_nat p <= dstlen <= Z.of_nat (length dst) -> 0 <= end_ <= 2 ->
  flush_group dst dstlen (Z.of_nat p) (a * 65536 + b * 256 + c) end_ =
    decoded dst dstlen p (if end_ =? 0 then [a; b; c] else if end_ =? 1 then [a] else [a; b]).
Proof.
  intros Ha Hb Hc Hd He. destruct (bytes_of_buf a b c Ha Hb Hc) as (_ & Ea & Eb & Ec). unfold flush_group, decoded.
  rewrite Ea, Eb, Ec. replace (Z.of_nat p + 1) with (Z.of_nat (p + 1)) by lia. rewrite leb_ltb.
  assert (end_ = 0 \/ end_ = 1 \/ end_ = 2) as [-> |[-> | ->]] by lia; cbn [Z.eqb Pos.eqb Z.ltb Z.compare Pos.compare Pos.compare_cont orb andb length];
    (destruct (Z.ltb_spec dstlen (Z.of_nat (p + 1))) as [H1|H1];
      [repeat match goal with |- context [dstlen <? ?x] => destruct (Z.ltb_spec dstlen x) end; done || lia|]);
    rewrite put_first by lia; cbn [mbind result_bind length negb]; [|done|].
  - replace (Z.of_nat (p + 1) + 1) with (Z.of_nat (p + 2)) by lia.
    destruct (Z.ltb_spec dstlen (Z.of_nat (p + 2))) as [H2|H2]; [by destruct (Z.ltb_spec dstlen (Z.of_nat (p + 3))); [|lia]|].
    rewrite put_more by (cbn; lia). cbn [mbind result_bind app length].
    replace (Z.of_nat (p + 2) + 1) with (Z.of_nat (p + 3)) by lia.
    destruct (Z.ltb_spec dstlen (Z.of_nat (p + 3))) as [H3|H3]; [done|].
    rewrite (put_more dst p [a; b]) by (cbn; lia). done.
  - replace (Z.of_nat (p + 1) + 1) with (Z.of_nat (p + 2)) by lia.
    destruct (Z.ltb_spec dstlen (Z.of_nat (p + 2))) as [H2|H2]; [done|].
    rewrite put_more by (cbn; lia). done.
Qed.

(** A group of four characters that stands for the bits [buf] and sets [end]. *)
Lemma decode_group c0 c1 c2 c3 rest dst dstlen p i0 i1 i2 i3 e0 e :
  sextet c0 0 e0 = Ok (Some (i0, e0)) -> sextet c1 1 e0 = Ok (Some (i1, e0)) ->
  (exists e2, sextet c2 2 e0 = Ok (Some (i2, e2)) /\ sextet c3 3 e2 = Ok (Some (i3, e))) ->
  decode_loop (c0 :: c1 :: c2 :: c3 :: rest) dst dstlen p 0 0 e0 =
    (flushed ← flush_group dst dstlen p
       (wrap32 (Z.shiftl (wrap32 (Z.shiftl (wrap32 (Z.shiftl (wrap32 (Z.shiftl 0 6 + i0)) 6 + i1)) 6 + i2)) 6 + i3)) e;
     match flushed with
     | None => Ok (dst, None)
     | Some (dst, p) => decode_loop rest dst dstlen p 0 0 e
     end).
Proof.
  intros H0 H1 (e2 & H2 & H3). cbn [decode_loop]. rewrite H0. cbn [mbind result_bind].
  change (0 + 1) with 1. change (1 =? 4) with false. cbv iota. rewrite H1. cbn [mbind result_bind].
  change (1 + 1) with 2. change (2 =? 4) with false. cbv iota. rewrite H2. cbn [mbind result_bind].
  change (2 + 1) with 3. change (3 =? 4) with false. cbv iota. rewrite H3. cbn [mbind result_bind].
  change (3 + 1 =? 4) with true. done.
Qed.

Lemma decode_enc src : Forall byte src -> forall dst (p : nat) dstlen,
  Z.of_nat (p + length src) <= dstlen <= Z.of_nat (length dst) ->
  decode_loop (enc_spec src) dst dstlen (Z.of_nat p) 0 0 0 = Ok (splice dst p src, Some (Z.of_nat (p + length src), 0)).
Proof.
  induction src as [|a|a b|a b c l IH] using three_ind; intros Hb dst p dstlen Hd; cbn [enc_spec]; rewrite ?Forall_cons in Hb.
  - cbn. by rewrite Nat.add_0_r, splice_nil.
  - destruct Hb as [Ha _]. assert (byte 0) as B0 by (unfold byte; lia).
    destruct (bytes_of_buf a 0 0 Ha B0 B0) as (Hbuf & _). rewrite !Z.mul_0_l, !Z.add_0_r in Hbuf.
    rewrite (decode_group _ _ _ _ _ _ _ _ (a * 65536 / 2 ^ 18 mod 64) (a * 65536 / 2 ^ 12 mod 64) (a * 65536 / 2 ^ 6 mod 64) (a * 65536 / 2 ^ 0 mod 64) 0 1);
      [|apply sextet_ch|apply sextet_ch|].
    + rewrite (regroup _ Hbuf). replace (a * 65536) with (a * 65536 + 0 * 256 + 0) by lia.
      rewrite flush_group_ok by (done || cbn [length] in Hd; lia). unfold decoded. cbn [Z.eqb Pos.eqb length] in *.
      by destruct (Z.leb_spec (Z.of_nat (p + 1)) dstlen); [|lia].
    + exists 1. unfold byte in Ha. assert (a * 65536 / 2 ^ 6 mod 64 = 0) as -> by (change (2 ^ 6) with 64; Z.to_euclidean_division_equations; lia).
      assert (a * 65536 / 2 ^ 0 mod 64 = 0) as -> by (change (2 ^ 0) with 1; Z.to_euclidean_division_equations; lia). done.
  - destruct Hb as (Ha & Hb & _). assert (byte 0) as B0 by (unfold byte; lia).
    destruct (bytes_of_buf a b 0 Ha Hb B0) as (Hbuf & _). rewrite !Z.add_0_r in Hbuf. set (buf := a * 65536 + b * 256) in *.
    rewrite (decode_group _ _ _ _ _ _ _ _ (buf / 2 ^ 18 mod 64) (buf / 2 ^ 12 mod 64) (buf / 2 ^ 6 mod 64) (buf / 2 ^ 0 mod 64) 0 2);
      [|apply sextet_ch|apply sextet_ch|].
    + rewrite (regroup _ Hbuf). unfold buf. replace (a * 65536 + b * 256) with (a * 65536 + b * 256 + 0) by lia.
      rewrite flush_group_ok by (done || cbn [length] in Hd; lia). unfold decoded. cbn [Z.eqb Pos.eqb length] in *.
      by destruct (Z.leb_spec (Z.of_nat (p + 2)) dstlen); [|lia].
    + exists 0. split; [apply sextet_ch|]. unfold byte in Ha, Hb.
      assert (buf / 2 ^ 0 mod 64 = 0) as -> by (unfold buf; change (2 ^ 0) with 1; Z.to_euclidean_division_equations; lia). done.
  - destruct Hb as (Ha & Hb & Hc & Hl). destruct (bytes_of_buf a b c Ha Hb Hc) as (Hbuf & _). set (buf := a * 65536 + b * 256 + c) in *.
    rewrite (decode_group _ _ _ _ _ _ _ _ (buf / 2 ^ 18 mod 64) (buf / 2 ^ 12 mod 64) (buf / 2 ^ 6 mod 64) (buf / 2 ^ 0 mod 64) 0 0);
      [|apply sextet_ch|apply sextet_ch|exists 0; split; apply sextet_ch].
    rewrite (regroup _ Hbuf). unfold buf. rewrite flush_group_ok by (done || cbn [length] in Hd; lia). unfold decoded. cbn [Z.eqb Pos.eqb length] in *.
    destruct (Z.leb_spec (Z.of_nat (p + 3)) dstlen); [|lia]. cbn [mbind result_bind].
    change (p + 3)%nat with (p + length [a; b; c])%nat.
    rewrite IH; [|done|rewrite length_splice; cbn [length]; lia].
    rewrite splice_splice by (cbn [length]; lia). do 4 f_equal. cbn [length]. lia.
Qed.

(** ** Reference decoding *)

(** The six bits a character stands for: its place in the alphabet, and 0 for the padding. *)
Definition value (c : Z) : option Z :=
  if c =? pad then Some 0 else Z.of_nat ∘ fst <$> list_find (eq c) _base64.

(** Padding in the third or fourth place ends the text, with one or two bytes in the last group; it may not come
    earlier.  After it every group of four is read the same way. *)
Definition group_end (e c0 c1 c2 c3 : Z) : option Z :=
  if negb (e =? 0) then Some e
  else if (c0 =? pad) || (c1 =? pad) then None
  else if c2 =? pad then Some 1 else if c3 =? pad then Some 2 else Some 0.
Definition group_bytes (e bits : Z) : list Z :=
  let a := bits / 65536 in let b := bits / 256 mod 256 in let c := bits mod 256 in
  if e =? 0 then [a; b; c] else if e =? 1 then [a] else [a; b].
Fixpoint dec_spec (e : Z) (text : list Z) : option (list Z) :=
  match text with
  | [] => Some []
  | c0 :: c1 :: c2 :: c3 :: text =>
      i0 ← value c0; i1 ← value c1; i2 ← value c2; i3 ← value c3; e ← group_end e c0 c1 c2 c3;
      bytes ← dec_spec e text; Some (group_bytes e (((i0 * 64 + i1) * 64 + i2) * 64 + i3) ++ bytes)
  | _ => None
  end.

Lemma value_range c i : value c = Some i -> 0 <= i < 64.
Proof.
  unfold value. destruct (c =? pad); [intros [= <-]; lia|]. destruct (list_find (eq c) _base64) as [[k x]|] eqn:E; [|done].
  intros [= <-]. apply list_find_Some in E as (H%lookup_lt_Some & _). change (length _base64) with 64%nat in H. cbn. lia.
Qed.
(** The lookup table is the inverse of the alphabet. *)
Lemma lookup_value c : 0 < c < 127 -> c <> pad ->
  exists b, array_get b64lookup c = Ok b /\ value c = if b <? 0 then None else Some b.
Proof.
  intros Hc Hp. assert (forallb (fun k => (k =? pad)%Z || match array_get b64lookup k with
      Ok b => bool_decide (value k = if b <? 0 then None else Some b) | _ => false end) (seqZ 1 126) = true) as H by (vm_compute; reflexivity).
  rewrite forallb_forall in H. specialize (H c ltac:(apply list_elem_of_In, elem_of_seqZ; lia)).
  destruct (Z.eqb_spec c pad); [done|]. cbn [orb] in H. destruct (array_get b64lookup c) as [b| |]; [|done..].
  exists b. split; [done|]. by apply bool_decide_eq_true in H.
Qed.
Lemma value_printable c : is_Some (value c) -> 42 < c < 123.
Proof.
  unfold value, pad. destruct (Z.eqb_spec c 61); [lia|]. intros [i H]. destruct (list_find (eq c) _base64) as [[k x]|] eqn:E; [|done].
  apply list_find_Some in E as (Hx & -> & _). apply list_elem_of_lookup_2 in Hx.
  assert (forallb (fun x => (42 <? x) && (x <? 123)) _base64 = true) as HF by (vm_compute; reflexivity).
  rewrite forallb_forall in HF. specialize (HF x ltac:(by apply list_elem_of_In)). lia.
Qed.

Definition end_after (c pos e : Z) : option Z :=
  if (c =? pad) && (e =? 0) then if pos =? 2 then Some 1 else if pos =? 3 then Some 2 else None else Some e.
Definition next_sextet (c pos e : Z) : option (Z * Z) := i ← value c; e ← end_after c pos e; Some (i, e).
Lemma sextet_ok c pos e : sextet c pos e = Ok (next_sextet c pos e).
Proof.
  unfold sextet, next_sextet, end_after. destruct ((c =? 32) || _ || _ || _) eqn:Ew.
  { destruct (value c) eqn:E; [|done]. pose proof (value_printable c ltac:(by rewrite E)). lia. }
  destruct (Z.eqb_spec c pad) as [->|Hp]; cbn [andb].
  { by destruct (e =? 0), (pos =? 2), (pos =? 3). }
  destruct ((0 <? c) && (c <? 127)) eqn:Er.
  - destruct (lookup_value c) as (b & -> & ->); [lia|done|]. cbn. by destruct (b <? 0).
  - destruct (value c) eqn:E; [|done]. pose proof (value_printable c ltac:(by rewrite E)). lia.
Qed.


(** ** What decoding does *)

(** [dst'] differs from [dst] below [dstlen] only. *)
Definition same_beyond (dstlen : Z) (dst dst' : list Z) : Prop :=
  length dst' = length dst /\ drop (Z.to_nat dstlen) dst' = drop (Z.to_nat dstlen) dst.
Lemma splice_same dst (p : nat) l dstlen : Z.of_nat (p + length l) <= dstlen <= Z.of_nat (length dst) ->
  same_beyond dstlen dst (splice dst p l).
Proof.
  intros H. split; [apply length_splice; lia|]. unfold splice.
  rewrite app_assoc, drop_app_ge by (rewrite length_app, length_take; lia). rewrite drop_drop. f_equal.
  rewrite length_app, length_take. lia.
Qed.
Lemma zero_fill_same dstlen dst dst' : same_beyond dstlen dst dst' -> zero_fill dst' dstlen = zero_fill dst dstlen.
Proof. intros [_ H]. unfold zero_fill. by rewrite H. Qed.
Lemma zero_fill_beyond dst dstlen : 0 <= dstlen <= Z.of_nat (length dst) -> same_beyond dstlen dst (zero_fill dst dstlen).
Proof.
  intros H. unfold zero_fill. split; [rewrite length_app, length_replicate, length_drop; lia|].
  by rewrite drop_app_length' by (by rewrite length_replicate).
Qed.

(** The loop ends at an error, or with characters left over. *)
Definition decode_fails (dst : list Z) (dstlen : Z) (m : result (list Z * option (Z * Z))) : Prop :=
  exists dst' r, m = Ok (dst', r) /\ same_beyond dstlen dst dst' /\ match r with Some (_, pos) => pos <> 0 | None => True end.

Lemma decode_step c src dst dstlen p buf pos e : pos <> 3 ->
  decode_loop (c :: src) dst dstlen p buf pos e =
    match next_sextet c pos e with
    | None => Ok (dst, None)
    | Some (i, e) => decode_loop src dst dstlen p (wrap32 (Z.shiftl buf 6 + i)) (pos + 1) e
    end.
Proof.
  intros Hpos. cbn [decode_loop]. rewrite sextet_ok. cbn [mbind result_bind].
  destruct (next_sextet c pos e) as [[i e']|]; [|done]. by destruct (Z.eqb_spec (pos + 1) 4); [lia|].
Qed.
Lemma decode_short src : forall dst dstlen p buf pos e, 0 <= pos -> 0 < pos + Z.of_nat (length src) < 4 ->
  decode_fails dst dstlen (decode_loop src dst dstlen p buf pos e).
Proof.
  induction src as [|c src IH]; intros dst dstlen p buf pos e Hpos Hl.
  { exists dst, (Some (p, pos)). split_and!; [done..|]. cbn in Hl. lia. }
  cbn [length] in Hl. rewrite decode_step by lia. destruct (next_sextet c pos e) as [[i e']|]; [apply IH; lia|].
  by exists dst, None.
Qed.

(** The places of the group, one after the other. *)
Lemma group_steps {A} c0 c1 c2 c3 e (fail : A) (k : Z -> Z -> Z -> Z -> Z -> A) :
  match next_sextet c0 0 e with None => fail | Some (i0, e) =>
  match next_sextet c1 1 e with None => fail | Some (i1, e) =>
  match next_sextet c2 2 e with None => fail | Some (i2, e) =>
  match next_sextet c3 3 e with None => fail | Some (i3, e) => k i0 i1 i2 i3 e end end end end =
  match value c0, value c1, value c2, value c3, group_end e c0 c1 c2 c3 with
  | Some i0, Some i1, Some i2, Some i3, Some e => k i0 i1 i2 i3 e
  | _, _, _, _, _ => fail
  end.
Proof.
  unfold next_sextet, end_after, group_end.
  destruct (value c0), (value c1), (value c2), (value c3), (e =? 0) eqn:He,
    (c0 =? pad), (c1 =? pad), (c2 =? pad), (c3 =? pad); cbn; repeat (rewrite He; cbn); try done.
  by apply Z.eqb_eq in He as ->.
Qed.
Lemma group_buf i0 i1 i2 i3 : 0 <= i0 < 64 -> 0 <= i1 < 64 -> 0 <= i2 < 64 -> 0 <= i3 < 64 ->
  let bits := ((i0 * 64 + i1) * 64 + i2) * 64 + i3 in
  wrap32 (Z.shiftl (wrap32 (Z.shiftl (wrap32 (Z.shiftl (wrap32 (Z.shiftl 0 6 + i0)) 6 + i1)) 6 + i2)) 6 + i3) =
    bits / 65536 * 65536 + bits / 256 mod 256 * 256 + bits mod 256 /\
  byte (bits / 65536) /\ byte (bits / 256 mod 256) /\ byte (bits mod 256).
Proof.
  intros H0 H1 H2 H3. cbv zeta. unfold wrap32, byte. rewrite !Z.shiftl_mul_pow2 by lia. change (2 ^ 6) with 64.
  change (2 ^ 32) with 4294967296. rewrite (Z.mod_small (0 * 64 + i0)), (Z.mod_small (_ + i1)), (Z.mod_small (_ + i2)), (Z.mod_small (_ + i3)) by lia.
  Z.to_euclidean_division_equations; lia.
Qed.

(** One group of four characters. *)
Lemma decode_steps c0 c1 c2 c3 src dst dstlen p e :
  decode_loop (c0 :: c1 :: c2 :: c3 :: src) dst dstlen p 0 0 e =
    match value c0, value c1, value c2, value c3, group_end e c0 c1 c2 c3 with
    | Some i0, Some i1, Some i2, Some i3, Some e =>
        flushed ← flush_group dst dstlen p
          (wrap32 (Z.shiftl (wrap32 (Z.shiftl (wrap32 (Z.shiftl (wrap32 (Z.shiftl 0 6 + i0)) 6 + i1)) 6 + i2)) 6 + i3)) e;
        match flushed with
        | None => Ok (dst, None)
        | Some (dst, p) => decode_loop src dst dstlen p 0 0 e
        end
    | _, _, _, _, _ => Ok (dst, None)
    end.
Proof.
  rewrite <- (group_steps c0 c1 c2 c3 e (Ok (dst, None)) (fun i0 i1 i2 i3 e => _)).
  rewrite decode_step by lia. destruct (next_sextet c0 0 e) as [[i0 e0]|]; [|done].
  rewrite decode_step by lia. change (0 + 1) with 1. destruct (next_sextet c1 1 e0) as [[i1 e1]|]; [|done].
  rewrite decode_step by lia. change (1 + 1) with 2. destruct (next_sextet c2 2 e1) as [[i2 e2]|]; [|done].
  cbn [decode_loop]. change (2 + 1) with 3. rewrite sextet_ok. cbn [mbind result_bind].
  by destruct (next_sextet c3 3 e2) as [[i3 e3]|].
Qed.
Lemma group_end_range e c0 c1 c2 c3 e' : 0 <= e <= 2 -> group_end e c0 c1 c2 c3 = Some e' -> 0 <= e' <= 2.
Proof. unfold group_end. intros He H. destruct (e =? 0), (c0 =? pad), (c1 =? pad), (c2 =? pad), (c3 =? pad); simplify_eq/=; lia. Qed.
Lemma decode_four c0 c1 c2 c3 src dst dstlen (p : nat) e : Z.of_nat p <= dstlen <= Z.of_nat (length dst) -> 0 <= e <= 2 ->
  decode_loop (c0 :: c1 :: c2 :: c3 :: src) dst dstlen (Z.of_nat p) 0 0 e =
    match value c0, value c1, value c2, value c3, group_end e c0 c1 c2 c3 with
    | Some i0, Some i1, Some i2, Some i3, Some e =>
        let l := group_bytes e (((i0 * 64 + i1) * 64 + i2) * 64 + i3) in
        if Z.of_nat (p + length l) <=? dstlen
        then decode_loop src (splice dst p l) dstlen (Z.of_nat (p + length l)) 0 0 e
        else Ok (dst, None)
    | _, _, _, _, _ => Ok (dst, None)
    end.
Proof.
  intros Hp He. rewrite decode_steps. destruct (value c0) as [i0|] eqn:E0, (value c1) as [i1|] eqn:E1; try done.
  destruct (value c2) as [i2|] eqn:E2, (value c3) as [i3|] eqn:E3; try done.
  destruct (group_end e c0 c1 c2 c3) as [e'|] eqn:Ee; [|done]. apply group_end_range in Ee; [|done].
  destruct (group_buf i0 i1 i2 i3) as (-> & Ha & Hb & Hc); [by eapply value_range..|].
  rewrite flush_group_ok by done. unfold decoded. cbn [mbind result_bind]. fold (group_bytes e' (((i0 * 64 + i1) * 64 + i2) * 64 + i3)).
  by destruct (_ <=? dstlen).
Qed.

Lemma four_ind (P : list Z -> Prop) : P [] -> (forall l, (0 < length l < 4)%nat -> P l) ->
  (forall a b c d l, P l -> P (a :: b :: c :: d :: l)) -> forall l, P l.
Proof.
  intros H0 H1 H2. fix IH 1. intros [|a [|b [|c [|d l]]]]; [done|apply H1; cbn; lia..|]. apply H2, IH.
Qed.

(** The loop computes the reference decoding, or fails. *)
Lemma decode_loop_ok src : forall dst dstlen (p : nat) e, Z.of_nat p <= dstlen <= Z.of_nat (length dst) -> 0 <= e <= 2 ->
  let m := decode_loop src dst dstlen (Z.of_nat p) 0 0 e in
  match dec_spec e src with
  | Some l =>
      if Z.of_nat (p + length l) <=? dstlen then m = Ok (splice dst p l, Some (Z.of_nat (p + length l), 0))
      else decode_fails dst dstlen m
  | None => decode_fails dst dstlen m
  end.
Proof.
  induction src as [|src Hl|c0 c1 c2 c3 src IH] using four_ind; intros dst dstlen p e Hp He; cbv zeta.
  - cbn. rewrite Nat.add_0_r, splice_nil. by destruct (Z.leb_spec (Z.of_nat p) dstlen); [|lia].
  - assert (dec_spec e src = None) as -> by (by destruct src as [|? [|? [|? [|? ?]]]]; cbn in Hl |- *; lia || done).
    apply decode_short; lia.
  - assert (decode_fails dst dstlen (Ok (dst, None))) as Hf by (by exists dst, None).
    rewrite decode_four by done. cbn [dec_spec].
    destruct (value c0) as [i0|], (value c1) as [i1|], (value c2) as [i2|], (value c3) as [i3|]; try done.
    destruct (group_end e c0 c1 c2 c3) as [e'|] eqn:Ee; [|done]. apply group_end_range in Ee; [|done]. cbn [mbind option_bind].
    set (g := group_bytes e' _). cbv zeta. destruct (Z.leb_spec (Z.of_nat (p + length g)) dstlen).
    + specialize (IH (splice dst p g) dstlen (p + length g)%nat e'). rewrite length_splice in IH by lia.
      specialize (IH ltac:(lia) Ee). cbv zeta in IH.
      assert (forall m, decode_fails (splice dst p g) dstlen m -> decode_fails dst dstlen m) as Hm.
      { intros m (d & r & Em & [S1 S2] & Hr). exists d, r. destruct (splice_same dst p g dstlen) as [S3 S4]; [lia|].
        split_and!; [done|split; congruence|done]. }
      destruct (dec_spec e' src) as [l|]; [|by apply Hm]. cbn [mbind option_bind]. rewrite length_app, Nat.add_assoc.
      destruct (Z.leb_spec (Z.of_nat (p + length g + length l)) dstlen); [|by apply Hm]. by rewrite IH, splice_splice by lia.
    + destruct (dec_spec e' src) as [l|]; [|done]. cbn [mbind option_bind]. rewrite length_app.
      by destruct (Z.leb_spec (Z.of_nat (p + (length g + length l))) dstlen); [lia|].
Qed.

Lemma decode_ok src dst dstlen : 0 <= dstlen <= Z.of_nat (length dst) ->
  pg_b64_decode src dst dstlen =
    Ok (match dec_spec 0 src with
        | Some l => if Z.of_nat (length l) <=? dstlen then (Z.of_nat (length l), l ++ drop (length l) dst) else (-1, zero_fill dst dstlen)
        | None => (-1, zero_fill dst dstlen)
        end).
Proof.
  intros Hd. pose proof (decode_loop_ok src dst dstlen 0 0 ltac:(lia) ltac:(lia)) as H. cbv zeta in H. change (Z.of_nat 0) with 0 in H.
  assert (forall m, decode_fails dst dstlen m ->
    ('(dst', loop) ← m; match loop with
      | Some (p, pos) => if negb (pos =? 0) then Ok (-1, zero_fill dst' dstlen)
                         else if p <=? dstlen then Ok (p, dst') else Error assert_msg
      | None => Ok (-1, zero_fill dst' dstlen) end) = Ok (-1, zero_fill dst dstlen)) as Hf.
  { intros m (d & r & -> & Hs & Hr). cbn. rewrite (zero_fill_same dstlen dst d Hs).
    destruct r as [[q pos]|]; [|done]. by destruct (Z.eqb_spec pos 0). }
  unfold pg_b64_decode. destruct (dec_spec 0 src) as [l|]; [|by apply Hf]. rewrite Nat.add_0_l in H.
  destruct (_ <=? dstlen) eqn:E; [|by apply Hf]. rewrite H. cbn. by rewrite E.
Qed.

Lemma group_bytes_length e bits : 0 <= e <= 2 -> (length (group_bytes e bits) <= 3)%nat.
Proof. intros He. unfold group_bytes. destruct (e =? 0), (e =? 1); cbn; lia. Qed.
Lemma dec_spec_length e src : 0 <= e <= 2 -> forall l, dec_spec e src = Some l -> (4 * length l <= 3 * length src)%nat.
Proof.
  revert e. induction src as [|src Hl|c0 c1 c2 c3 src IH] using four_ind; intros e He l H.
  - by simplify_eq/=.
  - by destruct src as [|? [|? [|? [|? ?]]]]; cbn in Hl, H; lia || done.
  - cbn [dec_spec] in H. destruct (value c0), (value c1), (value c2), (value c3); try done. cbn [mbind option_bind] in H.
    destruct (group_end e c0 c1 c2 c3) as [e'|] eqn:Ee; [|done]. apply group_end_range in Ee; [|done]. cbn [mbind option_bind] in H.
    destruct (dec_spec e' src) as [l'|] eqn:E; [|done]. cbn [mbind option_bind] in H. injection H as <-.
    specialize (IH e' Ee l' E). rewrite length_app. cbn [length].
    match goal with |- context [group_bytes e' ?b] => pose proof (group_bytes_length e' b Ee) end. lia.
Qed.

(** C19: Decoding undoes encoding, for every byte string short enough that the length estimates do not overflow
    [int]: a buffer of [pg_b64_enc_len] bytes is enough to encode, the text written there decodes into any buffer that
    can hold the original bytes, and gives exactly them; [pg_b64_dec_len] of the encoded length is such a size. *)
Theorem base64_roundtrip src dst1 dst2 len1 len2 : Forall byte src -> Z.of_nat (length src) <= 536870910 ->
  pg_b64_enc_len (Z.of_nat (length src)) <= len1 <= Z.of_nat (length dst1) ->
  Z.of_nat (length src) <= len2 <= Z.of_nat (length dst2) ->
  exists n text, pg_b64_encode src dst1 len1 = Ok (n, text) /\ n = pg_b64_enc_len (Z.of_nat (length src)) /\
    pg_b64_decode (take (Z.to_nat n) text) dst2 len2 = Ok (Z.of_nat (length src), src ++ drop (length src) dst2) /\
    Z.of_nat (length src) <= pg_b64_dec_len n.
Proof.
  intros Hb Hn. pose proof (enc_spec_length src) as Hl. rewrite enc_len_small by (unfold enc_max; lia). rewrite <- Hl. intros H1 H2.
  rewrite encode_ok by (done || lia). destruct (Z.leb_spec (Z.of_nat (length (enc_spec src))) len1); [|lia].
  do 2 eexists. split_and!; [done|done| |].
  - rewrite Nat2Z.id, take_app_length. unfold pg_b64_decode.
    pose proof (decode_enc src Hb dst2 0 len2 ltac:(lia)) as Hdec. change (Z.of_nat 0) with 0 in Hdec. rewrite Hdec. cbn.
    by destruct (Z.leb_spec (Z.of_nat (length src)) len2); [|lia].
  - rewrite Hl, dec_len_small; unfold dec_max; Z.to_euclidean_division_equations; lia.
Qed.
Lemma base64_roundtrip_witness :
  exists n text, pg_b64_encode [77; 97; 255; 0] (replicate 8 0) 8 = Ok (n, text) /\ n = 8 /\
    pg_b64_decode (take (Z.to_nat n) text) (replicate 6 9) 4 = Ok (4, [77; 97; 255; 0; 9; 9]).
Proof.
  destruct (base64_roundtrip [77; 97; 255; 0] (replicate 8 0) (replicate 6 9) 8 4) as (n & text & H1 & H2 & H3 & _).
  - repeat constructor; lia.
  - cbn; lia.
  - split; [vm_compute; discriminate|cbn; lia].
  - cbn; lia.
  - exists n, text. split; [exact H1|]. split; [exact H2|exact H3].
Defined.

(** C34: Results and errors, for any input and any buffer.  Encoding returns -1 and zeroes the [dstlen] bytes exactly if
    they are fewer than the text needs, which is [pg_b64_enc_len] as long as that does not overflow.  Decoding succeeds
    exactly if the text is groups of four characters of the alphabet or padding, with no padding in the first two places of a group before
    the text has ended ([dec_spec]), and its bytes fit into [dstlen]; then it writes these bytes and returns their number, and
    otherwise it returns -1 and zeroes the [dstlen] bytes.  The bytes fit into [pg_b64_dec_len], as long as that does not
    overflow, and nothing beyond [dstlen] is written. *)
Theorem base64_errors src dst dstlen : 0 <= dstlen <= Z.of_nat (length dst) ->
  let len := Z.of_nat (length src) in
  (Forall byte src -> len <= enc_max -> exists n dst', pg_b64_encode src dst dstlen = Ok (n, dst') /\ same_beyond dstlen dst dst' /\
     (pg_b64_enc_len len <= dstlen /\ n = pg_b64_enc_len len \/
      dstlen < pg_b64_enc_len len /\ n = -1 /\ dst' = zero_fill dst dstlen)) /\
  (exists n dst', pg_b64_decode src dst dstlen = Ok (n, dst') /\ same_beyond dstlen dst dst' /\
    match dec_spec 0 src with
    | Some l =>
        (len <= dec_max -> Z.of_nat (length l) <= pg_b64_dec_len len) /\
        (Z.of_nat (length l) <= dstlen /\ n = Z.of_nat (length l) /\ take (length l) dst' = l \/
         dstlen < Z.of_nat (length l) /\ n = -1 /\ dst' = zero_fill dst dstlen)
    | None => n = -1 /\ dst' = zero_fill dst dstlen
    end).
Proof.
  intros Hd. cbv zeta. pose proof (zero_fill_beyond dst dstlen Hd) as Hz.
  assert (forall l, Z.of_nat (length l) <= dstlen -> same_beyond dstlen dst (l ++ drop (length l) dst)) as Hw.
  { intros l Hl. apply (splice_same dst 0 l). lia. }
  split.
  - intros Hb Hm. rewrite encode_ok, enc_len_small by (done || lia). rewrite <- enc_spec_length.
    destruct (Z.leb_spec (Z.of_nat (length (enc_spec src))) dstlen); do 2 eexists; (split; [done|]).
    + split; [by apply Hw|by left].
    + split; [done|by right].
  - rewrite decode_ok by done. destruct (dec_spec 0 src) as [l|] eqn:E; [|by exists (-1), (zero_fill dst dstlen)].
    assert (Z.of_nat (length src) <= dec_max -> Z.of_nat (length l) <= pg_b64_dec_len (Z.of_nat (length src))) as Hlen.
    { intros Hm. rewrite dec_len_small by lia. apply dec_spec_length in E; [|lia]. apply Z.div_le_lower_bound; lia. }
    destruct (Z.leb_spec (Z.of_nat (length l)) dstlen); do 2 eexists; (split; [done|]).
    + split; [by apply Hw|]. split; [done|]. left. split_and!; [done..|apply take_app_length].
    + split; [done|]. split; [done|]. by right.
Qed.
Lemma base64_errors_witness :
  exists n dst', pg_b64_decode (code <$> String.list_ascii_of_string "QUI=") [7; 7; 7; 7; 7] 4 = Ok (n, dst') /\
    same_beyond 4 [7; 7; 7; 7; 7] dst' /\ dec_spec 0 (code <$> String.list_ascii_of_string "QUI=") = Some [65; 66].
Proof.
  destruct (base64_errors (code <$> String.list_ascii_of_string "QUI=") [7; 7; 7; 7; 7] 4) as (_ & n & dst' & H & Hs & _).
  - cbn; lia.
  - exists n, dst'. split; [exact H|]. split; [exact Hs|]. vm_compute. reflexivity.
Defined.

(** Padding is not the end: text after it is accepted, and every later group gives one byte only. *)
Example data_after_padding :
  pg_b64_decode (code <$> String.list_ascii_of_string "QQ==QUJD") (replicate 9 0) 9 = Ok (2, [65; 65; 0; 0; 0; 0; 0; 0; 0]).
Proof. vm_compute. reflexivity. Qed.
