(* ===== verification/BinaryHeap.v ===== *)
(** * Binary heaps: [src/backend/lib/binaryheap.c]

    An array-backed max-heap with a caller-supplied comparator.  [bh_nodes] is the whole allocated
    array, of which the first [bh_size] entries are in use; accesses outside it would be errors, and
    so are adding to a full heap, a failed assertion and a request for memory that [palloc] refuses.  The loops that sift a node up or down carry a hole that
    notionally holds the node, as in the code. *)
From S2P Require Import Prelude.
#[local] Open Scope Z_scope.

Record binaryheap (A : Type) := {
  bh_size : Z;
  bh_space : Z;
  bh_has_heap_property : bool;
  bh_nodes : list A
}.
Arguments bh_size {A} _.
Arguments bh_space {A} _.
Arguments bh_has_heap_property {A} _.
Arguments bh_nodes {A} _.

(** [binaryheap_comparator]: what callers promise about the sign of the comparison. *)
Class Comparator (A : Type) := {
  bh_compare : A -> A -> Z;
  compare_sign x y : bh_compare x y <= 0 <-> 0 <= bh_compare y x;
  compare_trans x y z : bh_compare x y <= 0 -> bh_compare y z <= 0 -> bh_compare x z <= 0
}.

Section BinaryHeap.
Context {A : Type} {comparator : Comparator A}.
Implicit Types (heap : binaryheap A) (nodes : list A) (d : A).

Definition set_nodes heap nodes : binaryheap A :=
  {| bh_size := bh_size heap; bh_space := bh_space heap; bh_has_heap_property := bh_has_heap_property heap;
     bh_nodes := nodes |}.

(** [palloc] accepts sizes up to [MaxAllocSize]; the size is computed in an [int], and a negative one is a huge [Size].  The header of the heap takes 32 bytes, an entry 8; [fresh] is the
    uninitialised memory. *)
Definition binaryheap_allocate (capacity : Z) (fresh : Z -> A) : result (binaryheap A) :=
  let sz := to_int32 (32 + 8 * capacity) in
  if (sz <? 0) || (MaxAllocSize <? sz) then Error alloc_msg
  else Ok {| bh_size := 0; bh_space := capacity; bh_has_heap_property := true; bh_nodes := fresh <$> seqZ 0 ((sz - 32) / 8) |}.
Definition binaryheap_reset heap : binaryheap A :=
  {| bh_size := 0; bh_space := bh_space heap; bh_has_heap_property := true; bh_nodes := bh_nodes heap |}.

Definition left_offset (i : Z) : Z := 2 * i + 1.
Definition right_offset (i : Z) : Z := 2 * i + 2.
Definition parent_offset (i : Z) : Z := Z.quot (i - 1) 2.

Fixpoint sift_up_loop (fuel : nat) nodes (node_off : Z) (node_val : A) : result (list A) :=
  match fuel with
  | O => NoFuel
  | S fuel =>
      if node_off =? 0 then array_set nodes node_off node_val else
      let parent_off := parent_offset node_off in
      parent_val ← array_get nodes parent_off;
      if bh_compare node_val parent_val <=? 0 then array_set nodes node_off node_val
      else nodes ← array_set nodes node_off parent_val; sift_up_loop fuel nodes parent_off node_val
  end.
Definition sift_up heap (node_off : Z) : result (binaryheap A) :=
  node_val ← array_get (bh_nodes heap) node_off;
  nodes ← sift_up_loop (S (Z.to_nat node_off)) (bh_nodes heap) node_off node_val;
  Ok (set_nodes heap nodes).

(** The child to swap with; 0 if there is none. *)
Definition swap_offset nodes (size node_off : Z) (node_val : A) : result Z :=
  let left_off := left_offset node_off in
  let right_off := right_offset node_off in
  swap_off ← (if left_off <? size then
                left ← array_get nodes left_off;
                Ok (if bh_compare node_val left <? 0 then left_off else 0)
              else Ok 0);
  if right_off <? size then
    right ← array_get nodes right_off;
    if bh_compare node_val right <? 0 then
      if swap_off =? 0 then Ok right_off
      else left ← array_get nodes left_off; Ok (if bh_compare left right <? 0 then right_off else swap_off)
    else Ok swap_off
  else Ok swap_off.
Fixpoint sift_down_loop (fuel : nat) nodes (size node_off : Z) (node_val : A) : result (list A) :=
  match fuel with
  | O => NoFuel
  | S fuel =>
      swap_off ← swap_offset nodes size node_off node_val;
      if swap_off =? 0 then array_set nodes node_off node_val
      else child ← array_get nodes swap_off;
           nodes ← array_set nodes node_off child;
           sift_down_loop fuel nodes size swap_off node_val
  end.
Definition sift_down heap (node_off : Z) : result (binaryheap A) :=
  node_val ← array_get (bh_nodes heap) node_off;
  nodes ← sift_down_loop (Z.to_nat (bh_size heap - node_off)) (bh_nodes heap) (bh_size heap) node_off node_val;
  Ok (set_nodes heap nodes).

Definition slots_msg : string := "out of binary heap slots".
Definition binaryheap_add_unordered heap d : result (binaryheap A) :=
  if bh_space heap <=? bh_size heap then Error slots_msg else
  nodes ← array_set (bh_nodes heap) (bh_size heap) d;
  Ok {| bh_size := bh_size heap + 1; bh_space := bh_space heap; bh_has_heap_property := false; bh_nodes := nodes |}.

(** [for (i = ...; i >= 0; i--) sift_down(heap, i);] over the listed offsets. *)
Fixpoint build_loop heap (offs : list Z) : result (binaryheap A) :=
  match offs with
  | [] => Ok heap
  | i :: offs => heap ← sift_down heap i; build_loop heap offs
  end.
Definition binaryheap_build heap : result (binaryheap A) :=
  heap ← build_loop heap (reverse (seqZ 0 (parent_offset (bh_size heap - 1) + 1)));
  Ok {| bh_size := bh_size heap; bh_space := bh_space heap; bh_has_heap_property := true; bh_nodes := bh_nodes heap |}.

Definition binaryheap_add heap d : result (binaryheap A) :=
  if bh_space heap <=? bh_size heap then Error slots_msg else
  nodes ← array_set (bh_nodes heap) (bh_size heap) d;
  let heap := {| bh_size := bh_size heap + 1; bh_space := bh_space heap;
                 bh_has_heap_property := bh_has_heap_property heap; bh_nodes := nodes |} in
  sift_up heap (bh_size heap - 1).

(** [Assert(!binaryheap_empty(heap) && heap->bh_has_heap_property)] *)
Definition assert_first heap : result unit := if negb (bh_size heap =? 0) && bh_has_heap_property heap then Ok tt else Error assert_msg.
Definition binaryheap_first heap : result A := _ ← assert_first heap; array_get (bh_nodes heap) 0.

Definition binaryheap_remove_first heap : result (A * binaryheap A) :=
  _ ← assert_first heap;
  result ← array_get (bh_nodes heap) 0;
  let shrunk := {| bh_size := bh_size heap - 1; bh_space := bh_space heap;
                   bh_has_heap_property := bh_has_heap_property heap; bh_nodes := bh_nodes heap |} in
  if bh_size heap =? 1 then Ok (result, shrunk) else
  last ← array_get (bh_nodes shrunk) (bh_size shrunk);
  nodes ← array_set (bh_nodes shrunk) 0 last;
  heap ← sift_down (set_nodes shrunk nodes) 0;
  Ok (result, heap).

Definition binaryheap_replace_first heap d : result (binaryheap A) :=
  _ ← assert_first heap;
  nodes ← array_set (bh_nodes heap) 0 d;
  let heap := set_nodes heap nodes in
  if 1 <? bh_size heap then sift_down heap 0 else Ok heap.
End BinaryHeap.
