(* ===== verification/BinaryHeapProps.v ===== *)
(** * Binary heaps keep the heap order and their contents

    A heap is a priority queue: [binaryheap_first] is a maximum of the contents, additions and
    removals change the contents by exactly one element, and [binaryheap_build] turns any
    array into a heap. *)
From S2P Require Import Prelude BinaryHeap.
#[local] Open Scope Z_scope.

Lemma insert_permutation {A} (l : list A) i x y : l !! i = Some x -> x :: <[i := y]> l ≡ₚ y :: l.
Proof.
  intros Hi. rewrite <- (take_drop_middle l i x Hi) at 2. pose proof (lookup_lt_Some _ _ _ Hi).
  rewrite insert_take_drop by done. rewrite <- !Permutation_middle. apply Permutation_swap.
Qed.

Section Order.
Context {A : Type} {comparator : Comparator A}.
Implicit Types (nodes arr : list A) (heap : binaryheap A).

Definition le (x y : A) : Prop := bh_compare x y <= 0.
Definition parent (i : nat) : nat := ((i - 1) / 2)%nat.

Lemma le_refl x : le x x.
Proof. unfold le. pose proof (compare_sign x x). lia. Qed.
Lemma le_total x y : ~ le x y -> le y x.
Proof. unfold le. pose proof (compare_sign x y). pose proof (compare_sign y x). lia. Qed.

Lemma parent_lt i : (0 < i)%nat -> (parent i < i)%nat.
Proof. intros Hi. unfold parent. apply Nat.Div0.div_lt_upper_bound. lia. Qed.
Lemma parent_child i c : (0 < c)%nat -> parent c = i <-> c = (2 * i + 1)%nat \/ c = (2 * i + 2)%nat.
Proof.
  intros Hc. unfold parent. pose proof (Nat.div_mod (c - 1) 2 ltac:(lia)).
  pose proof (Nat.mod_upper_bound (c - 1) 2 ltac:(lia)). lia.
Qed.
Lemma parent_offset_nat i : (0 < i)%nat -> parent_offset (Z.of_nat i) = Z.of_nat (parent i).
Proof.
  intros Hi. unfold parent_offset, parent. rewrite Z.quot_div_nonneg by lia.
  rewrite Nat2Z.inj_div, Nat2Z.inj_sub by lia. done.
Qed.

(** Reading an array with a default, which is never used below the length. *)
Section Get.
Context (v : A).
Definition get (l : list A) (i : nat) : A := nth i l v.

Lemma get_lookup l i : (i < length l)%nat -> l !! i = Some (get l i).
Proof. intros Hi. destruct (lookup_lt_is_Some_2 l i Hi) as [x Hx]. rewrite Hx. f_equal. symmetry. by apply nth_lookup_Some. Qed.
Lemma array_get_get l i : (i < length l)%nat -> array_get l (Z.of_nat i) = Ok (get l i).
Proof. intros Hi. by apply array_get_ok, get_lookup. Qed.
Lemma get_insert l i j x : (j < length l)%nat -> get (<[j := x]> l) i = if decide (i = j) then x else get l i.
Proof.
  intros Hj. destruct (decide (i = j)) as [->|Hne].
  - unfold get. by apply nth_lookup_Some, list_lookup_insert_eq.
  - unfold get. rewrite !nth_lookup. by rewrite list_lookup_insert_ne by done.
Qed.

(** Moving the hole from [off] to [j]: the array with the node in the hole is permuted. *)
Lemma hole_moves (nodes : list A) off j : (off < length nodes)%nat -> (j < length nodes)%nat -> off <> j ->
  <[j := v]> (<[off := get nodes j]> nodes) ≡ₚ <[off := v]> nodes.
Proof.
  intros Ho Hj Hne. apply (Permutation_cons_inv (a := get nodes j)).
  rewrite (insert_permutation (<[off := get nodes j]> nodes) j (get nodes j) v)
    by (rewrite list_lookup_insert_ne by done; by apply get_lookup).
  apply (Permutation_cons_inv (a := get nodes off)).
  rewrite (Permutation_swap v), (insert_permutation nodes off _ (get nodes j)) by (by apply get_lookup).
  rewrite (Permutation_swap (get nodes j) (get nodes off)), (insert_permutation nodes off _ v) by (by apply get_lookup).
  apply Permutation_swap.
Qed.

(** The heap order among the first [n] entries, for parents from [k] on. *)
Definition heap_from (n k : nat) arr : Prop :=
  forall i, (0 < i < n)%nat -> (k <= parent i)%nat -> le (get arr i) (get arr (parent i)).

(** ** Sifting up *)
Lemma sift_up_loop_ok n : forall fuel nodes off, (off < fuel)%nat -> (off < n <= length nodes)%nat ->
  (forall i, (0 < i < n)%nat -> i <> off -> le (get (<[off := v]> nodes) i) (get (<[off := v]> nodes) (parent i))) ->
  (forall c, (0 < c < n)%nat -> parent c = off -> (0 < off)%nat -> le (get nodes c) (get nodes (parent off))) ->
  exists nodes', sift_up_loop fuel nodes (Z.of_nat off) v = Ok nodes' /\ heap_from n 0 nodes' /\
    nodes' ≡ₚ <[off := v]> nodes /\ drop n nodes' = drop n nodes.
Proof.
  induction fuel as [|fuel IH]; intros nodes off Hf Hn H1 H2; [lia|]. cbn [sift_up_loop].
  assert (drop n (<[off := v]> nodes) = drop n nodes) as Hdrop by (apply drop_insert_lt; lia).
  destruct (Z.eqb_spec (Z.of_nat off) 0) as [E|E].
  { rewrite array_set_ok by lia. eexists. split_and!; [done| |done|done]. intros i Hi _. apply H1; lia. }
  assert (0 < off)%nat as Hoff by lia. rewrite parent_offset_nat by done. pose proof (parent_lt off Hoff) as Hpl.
  rewrite array_get_get by lia. cbn [mbind result_bind]. set (p := parent off) in *. set (y := get nodes p) in *.
  assert (forall i, get (<[off := v]> nodes) i = if decide (i = off) then v else get nodes i) as Harr
    by (intros i; apply get_insert; lia).
  destruct (Z.leb_spec (bh_compare v y) 0) as [Hle|Hgt].
  { rewrite array_set_ok by lia. eexists. split_and!; [done| |done|done]. intros i Hi _.
    destruct (decide (i = off)) as [->|]; [|by apply H1].
    rewrite !Harr. fold p. destruct (decide (off = off)); [|done]. destruct (decide (p = off)); [lia|]. exact Hle. }
  assert (le y v) as Hyv by (apply le_total; unfold le; lia).
  rewrite array_set_ok by lia. cbn [mbind result_bind].
  assert (forall i, get (<[off := y]> nodes) i = if decide (i = off) then y else get nodes i) as Hy
    by (intros i; apply get_insert; lia).
  assert (forall i, get (<[p := v]> (<[off := y]> nodes)) i = if decide (i = p) then v else if decide (i = off) then y else get nodes i) as Harr1
    by (intros i; rewrite get_insert by (rewrite length_insert; lia); by rewrite Hy).
  destruct (IH (<[off := y]> nodes) p) as (nodes' & Hok & Hheap & Hperm & Hd); [lia|rewrite length_insert; lia| | |].
  - intros i Hi Hip. rewrite !Harr1. pose proof (parent_lt i ltac:(lia)).
    destruct (decide (i = p)); [done|]. destruct (decide (i = off)) as [->|Hio].
    + destruct (decide (parent off = p)); [done|lia].
    + specialize (H1 i Hi Hio). rewrite !Harr in H1. destruct (decide (i = off)); [done|].
      destruct (decide (parent i = p)) as [Ep|]; [rewrite Ep in H1; destruct (decide (p = off)); [lia|]; by eapply compare_trans|].
      destruct (decide (parent i = off)) as [Eo|]; [|done]. by apply H2.
  - intros c Hc Hcp Hp. rewrite !Hy. pose proof (parent_lt p Hp). destruct (decide (parent p = off)); [lia|].
    assert (le y (get nodes (parent p))) as Hyp.
    { specialize (H1 p ltac:(lia) ltac:(lia)). rewrite !Harr in H1. destruct (decide (p = off)); [lia|]. by destruct (decide (parent p = off)); [lia|]. }
    destruct (decide (c = off)); [done|]. specialize (H1 c Hc ltac:(done)). rewrite !Harr, Hcp in H1.
    destruct (decide (c = off)); [done|]. destruct (decide (p = off)); [lia|]. by eapply compare_trans.
  - exists nodes'. split_and!; [done|done| |].
    + rewrite Hperm. apply hole_moves; lia.
    + rewrite Hd. apply drop_insert_lt. lia.
Qed.

(** ** Sifting down *)

(** The child that [swap_offset] selects for the hole at [off]. *)
Definition swap_child (n off : nat) nodes (s : nat) : Prop :=
  (s = 0%nat /\ forall c, (0 < c < n)%nat -> parent c = off -> le (get nodes c) v) \/
  ((0 < s < n)%nat /\ parent s = off /\ le v (get nodes s) /\
   forall c, (0 < c < n)%nat -> parent c = off -> le (get nodes c) (get nodes s)).

Lemma swap_offset_ok nodes n off : (n <= length nodes)%nat ->
  exists s, swap_offset nodes (Z.of_nat n) (Z.of_nat off) v = Ok (Z.of_nat s) /\ swap_child n off nodes s.
Proof.
  intros Hn. unfold swap_offset, left_offset, right_offset, swap_child.
  replace (2 * Z.of_nat off + 1) with (Z.of_nat (2 * off + 1)) by lia.
  replace (2 * Z.of_nat off + 2) with (Z.of_nat (2 * off + 2)) by lia.
  set (l := (2 * off + 1)%nat). set (r := (2 * off + 2)%nat).
  assert (forall c, (0 < c)%nat -> parent c = off <-> c = l \/ c = r) as Hch by (intros c Hc; by apply parent_child).
  assert (parent l = off /\ parent r = off) as [Hpl Hpr] by (split; apply Hch; unfold l, r; auto with lia).
  destruct (Z.ltb_spec (Z.of_nat l) (Z.of_nat n)) as [Hl|Hl].
  - rewrite array_get_get by lia. cbn [mbind result_bind].
    destruct (Z.ltb_spec (bh_compare v (get nodes l)) 0) as [Hvl|Hvl].
    + assert (le v (get nodes l)) as Lvl by (unfold le; lia).
      destruct (Z.ltb_spec (Z.of_nat r) (Z.of_nat n)) as [Hr|Hr].
      * rewrite array_get_get by lia. cbn [mbind result_bind].
        destruct (Z.ltb_spec (bh_compare v (get nodes r)) 0) as [Hvr|Hvr].
        -- assert (le v (get nodes r)) as Lvr by (unfold le; lia).
           destruct (Z.eqb_spec (Z.of_nat l) 0); [lia|]. cbn [mbind result_bind].
           destruct (Z.ltb_spec (bh_compare (get nodes l) (get nodes r)) 0) as [Hlr|Hlr].
           ++ exists r. split; [done|]. right. split_and!; [lia|lia|done|done|].
              intros c Hc [-> | ->]%Hch; [unfold le; lia|apply le_refl|lia].
           ++ exists l. split; [done|]. right. split_and!; [lia|lia|done|done|].
              intros c Hc [-> | ->]%Hch; [apply le_refl| |lia]. apply compare_sign. lia.
        -- exists l. split; [done|]. right. split_and!; [lia|lia|done|done|].
           intros c Hc [-> | ->]%Hch; [apply le_refl| |lia]. eapply compare_trans; [|exact Lvl]. apply compare_sign. lia.
      * exists l. split; [done|]. right. split_and!; [lia|lia|done|done|].
        intros c Hc [-> | ->]%Hch; [apply le_refl|lia|lia].
    + assert (le (get nodes l) v) as Llv by (apply compare_sign; lia).
      destruct (Z.ltb_spec (Z.of_nat r) (Z.of_nat n)) as [Hr|Hr].
      * rewrite array_get_get by lia. cbn [mbind result_bind].
        destruct (Z.ltb_spec (bh_compare v (get nodes r)) 0) as [Hvr|Hvr].
        -- assert (le v (get nodes r)) as Lvr by (unfold le; lia). cbn [Z.eqb].
           exists r. split; [done|]. right. split_and!; [lia|lia|done|done|].
           intros c Hc [-> | ->]%Hch; [by eapply compare_trans|apply le_refl|lia].
        -- exists 0%nat. split; [done|]. left. split; [done|].
           intros c Hc [-> | ->]%Hch; [done|apply compare_sign; lia|lia].
      * exists 0%nat. split; [done|]. left. split; [done|]. intros c Hc [-> | ->]%Hch; [done|lia|lia].
  - cbn [mbind result_bind]. destruct (Z.ltb_spec (Z.of_nat r) (Z.of_nat n)); [unfold l, r in *; lia|].
    exists 0%nat. split; [done|]. left. split; [done|]. intros c Hc [-> | ->]%Hch; lia.
Qed.

Lemma sift_down_loop_ok n k : forall fuel nodes off, (n - off <= fuel)%nat -> (k <= off < n)%nat -> (n <= length nodes)%nat ->
  (forall i, (0 < i < n)%nat -> (k <= parent i)%nat -> parent i <> off ->
    le (get (<[off := v]> nodes) i) (get (<[off := v]> nodes) (parent i))) ->
  (forall c, (0 < c < n)%nat -> parent c = off -> (0 < off)%nat -> (k <= parent off)%nat -> le (get nodes c) (get nodes (parent off))) ->
  exists nodes', sift_down_loop fuel nodes (Z.of_nat n) (Z.of_nat off) v = Ok nodes' /\ heap_from n k nodes' /\
    nodes' ≡ₚ <[off := v]> nodes /\ drop n nodes' = drop n nodes.
Proof.
  induction fuel as [|fuel IH]; intros nodes off Hf Hoff Hn H1 H2; [lia|]. cbn [sift_down_loop].
  destruct (swap_offset_ok nodes n off Hn) as (s & -> & Hs). cbn [mbind result_bind].
  assert (forall i, get (<[off := v]> nodes) i = if decide (i = off) then v else get nodes i) as Harr
    by (intros i; apply get_insert; lia).
  destruct Hs as [[-> Hch]|(Hs & Hps & Hvs & Hch)].
  { cbn [Z.eqb]. rewrite array_set_ok by lia. eexists. split_and!; [done| |done|apply drop_insert_lt; lia].
    intros i Hi Hk. destruct (decide (parent i = off)) as [Ep|]; [|by apply H1].
    rewrite !Harr, Ep. pose proof (parent_lt i ltac:(lia)). destruct (decide (i = off)); [lia|].
    destruct (decide (off = off)); [|done]. by apply Hch. }
  destruct (Z.eqb_spec (Z.of_nat s) 0); [lia|]. rewrite array_get_get by lia. cbn [mbind result_bind].
  rewrite array_set_ok by lia. cbn [mbind result_bind]. set (y := get nodes s) in *.
  pose proof (parent_lt s ltac:(lia)) as Hlt. rewrite Hps in Hlt.
  assert (forall i, get (<[off := y]> nodes) i = if decide (i = off) then y else get nodes i) as Hy
    by (intros i; apply get_insert; lia).
  assert (forall i, get (<[s := v]> (<[off := y]> nodes)) i = if decide (i = s) then v else if decide (i = off) then y else get nodes i) as Harr1
    by (intros i; rewrite get_insert by (rewrite length_insert; lia); by rewrite Hy).
  destruct (IH (<[off := y]> nodes) s) as (nodes' & Hok & Hheap & Hperm & Hd); [lia|lia|rewrite length_insert; lia| | |].
  - intros i Hi Hk Hpi. rewrite !Harr1. pose proof (parent_lt i ltac:(lia)).
    destruct (decide (parent i = s)); [done|]. destruct (decide (parent i = off)) as [Ep|Ep].
    + destruct (decide (i = s)); [done|]. destruct (decide (i = off)); [lia|]. by apply Hch.
    + destruct (decide (i = s)); [congruence|]. destruct (decide (i = off)) as [->|]; [apply H2; done || lia|].
      specialize (H1 i Hi Hk Ep). rewrite !Harr in H1. by destruct (decide (i = off)), (decide (parent i = off)).
  - intros c Hc Hcs Hs0 Hk. rewrite !Hy, Hps. pose proof (parent_lt c ltac:(lia)).
    destruct (decide (c = off)); [lia|]. destruct (decide (off = off)); [|done].
    specialize (H1 c Hc ltac:(lia) ltac:(lia)). rewrite !Harr, Hcs in H1.
    destruct (decide (c = off)); [lia|]. by destruct (decide (s = off)); [lia|].
  - exists nodes'. split_and!; [done|done| |].
    + rewrite Hperm. apply hole_moves; lia.
    + rewrite Hd. apply drop_insert_lt. lia.
Qed.
End Get.

(** ** Heaps *)
Definition contents heap : list A := take (Z.to_nat (bh_size heap)) (bh_nodes heap).
Definition heap_order heap : Prop :=
  forall i x y, (0 < i < Z.to_nat (bh_size heap))%nat -> bh_nodes heap !! i = Some x -> bh_nodes heap !! parent i = Some y -> le x y.

Record heap_inv heap : Prop := {
  hi_size : 0 <= bh_size heap <= bh_space heap;
  hi_space : length (bh_nodes heap) = Z.to_nat (bh_space heap);
  hi_order : bh_has_heap_property heap = true -> heap_order heap
}.

Lemma heap_order_from v heap : (Z.to_nat (bh_size heap) <= length (bh_nodes heap))%nat ->
  heap_order heap <-> heap_from v (Z.to_nat (bh_size heap)) 0 (bh_nodes heap).
Proof.
  intros Hl. split.
  - intros H i Hi _. pose proof (parent_lt i ltac:(lia)). apply (H i); [done|apply get_lookup; lia..].
  - intros H i x y Hi Hx Hy. specialize (H i Hi ltac:(lia)). unfold get in H.
    by rewrite (nth_lookup_Some _ _ _ _ Hx), (nth_lookup_Some _ _ _ _ Hy) in H.
Qed.

Lemma heap_max heap m : heap_order heap -> (Z.to_nat (bh_size heap) <= length (bh_nodes heap))%nat ->
  bh_nodes heap !! 0%nat = Some m -> forall x, x ∈ contents heap -> le x m.
Proof.
  intros Ho Hl Hm x [i Hi]%list_elem_of_lookup. apply lookup_take_Some in Hi as [Hi Hlt].
  revert x Hi. induction (lt_wf i) as [i _ IH]. intros x Hi. destruct (decide (i = 0)%nat) as [->|].
  { assert (x = m) as -> by congruence. apply le_refl. }
  pose proof (parent_lt i ltac:(lia)). destruct (lookup_lt_is_Some_2 (bh_nodes heap) (parent i)) as [y Hy]; [lia|].
  eapply compare_trans; [apply (Ho i x y); [lia|done|done]|]. apply (IH (parent i)); [done|lia|done].
Qed.

(** A permutation of the whole array that keeps the part behind [n] permutes the part before. *)
Lemma take_permutation n (l1 l2 : list A) : l1 ≡ₚ l2 -> drop n l1 = drop n l2 -> take n l1 ≡ₚ take n l2.
Proof.
  intros Hp Hd. rewrite <- (take_drop n l1), <- (take_drop n l2), Hd in Hp. by apply Permutation_app_inv_r in Hp.
Qed.

Lemma sift_down_ok heap (k : nat) : (k < Z.to_nat (bh_size heap) <= length (bh_nodes heap))%nat ->
  (forall v, heap_from v (Z.to_nat (bh_size heap)) (S k) (bh_nodes heap)) ->
  exists nodes, sift_down heap (Z.of_nat k) = Ok (set_nodes heap nodes) /\
    (forall v, heap_from v (Z.to_nat (bh_size heap)) k nodes) /\ length nodes = length (bh_nodes heap) /\
    take (Z.to_nat (bh_size heap)) nodes ≡ₚ contents heap.
Proof.
  intros Hk Hh. unfold sift_down. destruct (lookup_lt_is_Some_2 (bh_nodes heap) k) as [v Hv]; [lia|].
  rewrite (array_get_ok _ _ _ Hv). cbn [mbind result_bind].
  assert (<[k := v]> (bh_nodes heap) = bh_nodes heap) as Hid by (by apply list_insert_id).
  destruct (sift_down_loop_ok v (Z.to_nat (bh_size heap)) k (Z.to_nat (bh_size heap - Z.of_nat k)) (bh_nodes heap) k) as (nodes & Hok & Hheap & Hperm & Hd);
    [lia|lia|lia| | |].
  - intros i Hi Hk' Hne. rewrite Hid. apply Hh; lia.
  - intros c Hc Hpc Hk0 Hle. pose proof (parent_lt k Hk0). lia.
  - rewrite Z2Nat.id in Hok by lia. rewrite Hok. cbn [mbind result_bind]. rewrite Hid in Hperm.
    assert (length nodes = length (bh_nodes heap)) as Hlen by (by rewrite Hperm).
    exists nodes. split_and!; [done| |done|by apply take_permutation].
    intros v' i Hi Hk'. specialize (Hheap i Hi Hk'). pose proof (parent_lt i ltac:(lia)). unfold get in *.
    rewrite (nth_indep nodes v' v), (nth_indep nodes v' v) by lia. done.
Qed.

(** ** The operations *)
Lemma inv_from heap v : heap_inv heap -> bh_has_heap_property heap = true ->
  heap_from v (Z.to_nat (bh_size heap)) 0 (bh_nodes heap).
Proof. intros [Hs Hl Ho] Hf. apply heap_order_from; [lia|]. by apply Ho. Qed.

Lemma add_unordered_ok heap d : heap_inv heap -> bh_size heap < bh_space heap ->
  exists heap', binaryheap_add_unordered heap d = Ok heap' /\ heap_inv heap' /\ bh_has_heap_property heap' = false /\
    bh_space heap' = bh_space heap /\ contents heap' = contents heap ++ [d].
Proof.
  intros [Hs Hl _] Hlt. unfold binaryheap_add_unordered. destruct (Z.leb_spec (bh_space heap) (bh_size heap)); [lia|].
  rewrite array_set_Z by lia. cbn [mbind result_bind]. eexists. split_and!; [done| |done|done|].
  - split; cbn; [lia|by rewrite length_insert|done].
  - unfold contents. cbn. replace (Z.to_nat (bh_size heap + 1)) with (S (Z.to_nat (bh_size heap))) by lia.
    rewrite (take_S_r _ _ d) by (apply list_lookup_insert_eq; lia). by rewrite take_insert_ge by lia.
Qed.

Lemma seqZ_snoc (k : nat) : seqZ 0 (Z.of_nat (S k)) = seqZ 0 (Z.of_nat k) ++ [Z.of_nat k].
Proof.
  replace (Z.of_nat (S k)) with (Z.of_nat k + 1) by lia. rewrite seqZ_app by lia. f_equal.
Qed.

Lemma build_loop_ok : forall (k : nat) heap, (k <= Z.to_nat (bh_size heap) <= length (bh_nodes heap))%nat ->
  (forall v, heap_from v (Z.to_nat (bh_size heap)) k (bh_nodes heap)) ->
  exists nodes, build_loop heap (reverse (seqZ 0 (Z.of_nat k))) = Ok (set_nodes heap nodes) /\
    length nodes = length (bh_nodes heap) /\ (forall v, heap_from v (Z.to_nat (bh_size heap)) 0 nodes) /\
    take (Z.to_nat (bh_size heap)) nodes ≡ₚ contents heap.
Proof.
  induction k as [|k IH]; intros heap Hk Hh.
  - exists (bh_nodes heap). split_and!; [by destruct heap|done|done|done].
  - rewrite seqZ_snoc, reverse_snoc. cbn [build_loop].
    destruct (sift_down_ok heap k) as (nodes & -> & Hh1 & Hl1 & Hp1); [lia|done|]. cbn [mbind result_bind].
    destruct (IH (set_nodes heap nodes)) as (nodes2 & -> & Hl2 & Hh2 & Hp2); [cbn; lia|done|].
    exists nodes2. split_and!; [done|cbn in Hl2; lia|done|]. cbn in Hp2. by rewrite Hp2.
Qed.

(** The first offset of [binaryheap_build] is the last one with a child, or 0. *)
Lemma build_start (n : nat) : exists k : nat, parent_offset (Z.of_nat n - 1) + 1 = Z.of_nat k /\ (k <= n)%nat /\
  forall i, (0 < i < n)%nat -> (parent i < k)%nat.
Proof.
  destruct (decide (n <= 1)%nat).
  - exists n. split_and!; [|done|lia]. destruct n as [|[|]]; [done|done|lia].
  - replace (Z.of_nat n - 1) with (Z.of_nat (n - 1)) by lia. rewrite parent_offset_nat by lia.
    pose proof (parent_lt (n - 1) ltac:(lia)). exists (S (parent (n - 1))). split_and!; [lia|lia|].
    intros i Hi. apply le_n_S. unfold parent. apply Nat.Div0.div_le_mono. lia.
Qed.

Lemma build_ok heap : heap_inv heap ->
  exists heap', binaryheap_build heap = Ok heap' /\ heap_inv heap' /\ bh_has_heap_property heap' = true /\
    bh_space heap' = bh_space heap /\ contents heap' ≡ₚ contents heap.
Proof.
  intros [Hs Hl _]. unfold binaryheap_build. destruct (build_start (Z.to_nat (bh_size heap))) as (k & Hk & Hle & Hpar).
  rewrite Z2Nat.id in Hk by lia. rewrite Hk.
  destruct (build_loop_ok k heap) as (nodes & -> & Hlen & Hh & Hp); [lia| |].
  { intros v i Hi Hki. specialize (Hpar i Hi). lia. }
  cbn [mbind result_bind]. eexists. split_and!; [done| |done|done|done].
  split; cbn; [lia|lia|]. intros _ i x y Hi Hx Hy. cbn in *. specialize (Hh x i Hi ltac:(lia)). unfold get in Hh.
  by rewrite (nth_lookup_Some _ _ _ _ Hx), (nth_lookup_Some _ _ _ _ Hy) in Hh.
Qed.

Lemma add_ok heap d : heap_inv heap -> bh_has_heap_property heap = true -> bh_size heap < bh_space heap ->
  exists heap', binaryheap_add heap d = Ok heap' /\ heap_inv heap' /\ bh_has_heap_property heap' = true /\
    bh_space heap' = bh_space heap /\ contents heap' ≡ₚ d :: contents heap.
Proof.
  intros Hi Hf Hlt. pose proof (inv_from heap d Hi Hf) as Hh. destruct Hi as [Hs Hl _]. unfold binaryheap_add.
  destruct (Z.leb_spec (bh_space heap) (bh_size heap)); [lia|]. rewrite array_set_Z by lia. cbn [mbind result_bind].
  set (n := Z.to_nat (bh_size heap)) in *. set (nodes1 := <[n := d]> (bh_nodes heap)).
  assert (nodes1 !! n = Some d) as Hd by (apply list_lookup_insert_eq; lia).
  assert (<[n := d]> nodes1 = nodes1) as Hid by (by apply list_insert_id).
  unfold sift_up. cbn [bh_nodes bh_size]. replace (bh_size heap + 1 - 1) with (Z.of_nat n) by lia.
  rewrite (array_get_ok _ _ _ Hd). cbn [mbind result_bind]. rewrite Nat2Z.id.
  assert (length nodes1 = length (bh_nodes heap)) as Hlen by apply length_insert.
  destruct (sift_up_loop_ok d (S n) (S n) nodes1 n) as (nodes & -> & Hheap & Hperm & Hdrop); [lia|lia| | |].
  - intros i Hi Hne. pose proof (parent_lt i ltac:(lia)). rewrite Hid. unfold nodes1. rewrite !get_insert by lia.
    destruct (decide (i = n)); [done|]. destruct (decide (parent i = n)); [lia|]. apply Hh; lia.
  - intros c Hc Hpc. pose proof (parent_lt c ltac:(lia)). lia.
  - cbn [mbind result_bind]. rewrite Hid in Hperm. assert (length nodes = length nodes1) as Hlen' by (by rewrite Hperm).
    assert (Z.to_nat (bh_size heap + 1) = S n) as En by lia.
    eexists. split_and!; [done| |done|done|].
    + split; cbn; [lia|lia|]. intros _. apply (heap_order_from d); cbn; rewrite En; [lia|done].
    + unfold contents. cbn. rewrite En. rewrite (take_permutation (S n) nodes nodes1) by done.
      rewrite (take_S_r _ _ d Hd). unfold nodes1. rewrite take_insert_ge by lia. by rewrite Permutation_app_comm.
Qed.

Lemma assert_holds heap : bh_has_heap_property heap = true -> 0 < bh_size heap -> assert_first heap = Ok tt.
Proof. intros Hf Hpos. unfold assert_first. rewrite Hf. by destruct (Z.eqb_spec (bh_size heap) 0); [lia|]. Qed.
(** The largest capacity that can be allocated *)
Definition capacity_max : Z := 134217723.
Lemma allocate_ok capacity (fresh : Z -> A) : 0 <= capacity <= capacity_max ->
  exists heap, binaryheap_allocate capacity fresh = Ok heap /\ heap_inv heap /\ bh_space heap = capacity /\ bh_has_heap_property heap = true /\ contents heap = [].
Proof.
  unfold capacity_max. intros Hc. unfold binaryheap_allocate. rewrite to_int32_id by (unfold MaxAllocSize; lia). unfold MaxAllocSize.
  destruct (Z.ltb_spec (32 + 8 * capacity) 0); [lia|]. destruct (Z.ltb_spec 1073741823 (32 + 8 * capacity)); [lia|]. cbn [orb].
  replace (32 + 8 * capacity - 32) with (capacity * 8) by lia. rewrite Z.div_mul by lia. eexists. split; [done|]. split_and!; [|done..].
  split; cbn; [lia|by rewrite length_fmap, length_seqZ|]. intros _ i x y Hin. cbn in Hin. lia.
Qed.
(** Up to the capacity at which the size in bytes no longer fits 32 bits *)
Lemma allocate_fails capacity (fresh : Z -> A) : capacity_max < capacity < 536870908 -> binaryheap_allocate capacity fresh = Error alloc_msg.
Proof.
  unfold capacity_max. intros Hc. unfold binaryheap_allocate, to_int32, wrap32, MaxAllocSize. rewrite Z.mod_small by lia.
  destruct (Z.ltb_spec (32 + 8 * capacity) (2 ^ 31)).
  - destruct (Z.ltb_spec (32 + 8 * capacity) 0); [lia|]. by destruct (Z.ltb_spec 1073741823 (32 + 8 * capacity)); [|lia].
  - by destruct (Z.ltb_spec (32 + 8 * capacity - 2 ^ 32) 0); [|lia].
Qed.

Lemma first_ok heap : heap_inv heap -> bh_has_heap_property heap = true -> 0 < bh_size heap ->
  exists m, bh_nodes heap !! 0%nat = Some m /\ binaryheap_first heap = Ok m /\ m ∈ contents heap /\
    forall x, x ∈ contents heap -> le x m.
Proof.
  intros [Hs Hl Ho] Hf Hpos. destruct (lookup_lt_is_Some_2 (bh_nodes heap) 0) as [m Hm]; [lia|].
  exists m. split_and!; [done|unfold binaryheap_first; rewrite (assert_holds heap Hf Hpos); by apply (array_get_ok _ 0%nat)| |].
  - apply (list_elem_of_lookup_2 _ 0%nat). apply lookup_take_Some. split; [done|lia].
  - apply heap_max; [by apply Ho|lia|done].
Qed.

(** Putting [x] at the root and sifting it down. *)
Lemma root_replaced heap x : heap_inv heap -> bh_has_heap_property heap = true -> forall n : Z, 0 < n <= bh_size heap ->
  let heap1 := {| bh_size := n; bh_space := bh_space heap; bh_has_heap_property := bh_has_heap_property heap;
                  bh_nodes := <[0%nat := x]> (bh_nodes heap) |} in
  exists nodes, sift_down heap1 0 = Ok (set_nodes heap1 nodes) /\ heap_inv (set_nodes heap1 nodes) /\
    contents (set_nodes heap1 nodes) ≡ₚ contents heap1.
Proof.
  intros Hi Hf n Hn heap1. pose proof Hi as [Hs Hl _].
  destruct (sift_down_ok heap1 0) as (nodes & Hok & Hh & Hlen & Hp); cbn in *; rewrite ?length_insert in *; [lia| |].
  - intros v i Hin Hp. pose proof (parent_lt i ltac:(lia)). rewrite !get_insert by lia.
    destruct (decide (i = 0%nat)); [lia|]. destruct (decide (parent i = 0%nat)); [lia|].
    apply (inv_from heap v Hi Hf); lia.
  - exists nodes. split_and!; [done| |done]. split; cbn; [lia|lia|]. intros _.
    apply (heap_order_from x); cbn; [lia|]. apply Hh.
Qed.

Lemma replace_first_ok heap d m : heap_inv heap -> bh_has_heap_property heap = true -> 0 < bh_size heap ->
  bh_nodes heap !! 0%nat = Some m ->
  exists heap', binaryheap_replace_first heap d = Ok heap' /\ heap_inv heap' /\ bh_has_heap_property heap' = true /\
    bh_space heap' = bh_space heap /\ m :: contents heap' ≡ₚ d :: contents heap.
Proof.
  intros Hi Hf Hpos Hm. pose proof Hi as [Hs Hl _]. unfold binaryheap_replace_first. rewrite (assert_holds heap Hf Hpos). cbn [mbind result_bind].
  rewrite (array_set_ok _ 0%nat) by lia. cbn [mbind result_bind bh_size set_nodes].
  destruct (root_replaced heap d Hi Hf (bh_size heap) ltac:(lia)) as (nodes & Hok & Hinv & Hp).
  assert (m :: take (Z.to_nat (bh_size heap)) (<[0%nat := d]> (bh_nodes heap)) ≡ₚ d :: contents heap) as Hp1.
  { rewrite take_insert_lt by lia. apply insert_permutation. apply lookup_take_Some. split; [done|lia]. }
  destruct (Z.ltb_spec 1 (bh_size heap)).
  - change (set_nodes heap (<[0%nat:=d]> (bh_nodes heap))) with
      {| bh_size := bh_size heap; bh_space := bh_space heap; bh_has_heap_property := bh_has_heap_property heap;
         bh_nodes := <[0%nat := d]> (bh_nodes heap) |}.
    rewrite Hok. eexists. split_and!; [done|done|done|done|]. by rewrite Hp.
  - eexists. split_and!; [done| |done|done|done].
    split; cbn; [lia|by rewrite length_insert|]. intros _ i x y Hin. cbn in Hin. lia.
Qed.

Lemma remove_first_ok heap m : heap_inv heap -> bh_has_heap_property heap = true -> 0 < bh_size heap ->
  bh_nodes heap !! 0%nat = Some m ->
  exists heap', binaryheap_remove_first heap = Ok (m, heap') /\ heap_inv heap' /\ bh_has_heap_property heap' = true /\
    bh_space heap' = bh_space heap /\ m :: contents heap' ≡ₚ contents heap.
Proof.
  intros Hi Hf Hpos Hm. pose proof Hi as [Hs Hl _]. unfold binaryheap_remove_first. rewrite (assert_holds heap Hf Hpos). cbn [mbind result_bind].
  rewrite (array_get_Z _ 0 m ltac:(lia) Hm). cbn [mbind result_bind bh_size bh_nodes].
  destruct (lookup_lt_is_Some_2 (bh_nodes heap) (Z.to_nat (bh_size heap - 1))) as [z Hz]; [lia|].
  assert (contents heap = take (Z.to_nat (bh_size heap - 1)) (bh_nodes heap) ++ [z]) as Hc.
  { unfold contents. replace (Z.to_nat (bh_size heap)) with (S (Z.to_nat (bh_size heap - 1))) by lia. by apply take_S_r. }
  destruct (Z.eqb_spec (bh_size heap) 1) as [E|E].
  - eexists. split_and!; [done| |done|done|].
    + split; cbn; [lia|done|]. intros _ i x y Hin. cbn in Hin. lia.
    + rewrite Hc. unfold contents. cbn [bh_size bh_nodes]. rewrite E in *. change (Z.to_nat (1 - 1)) with 0%nat in *. cbn. assert (z = m) as -> by congruence. done.
  - rewrite (array_get_Z _ (bh_size heap - 1) z ltac:(lia) Hz). cbn [mbind result_bind]. rewrite (array_set_ok _ 0%nat) by lia. cbn [mbind result_bind].
    destruct (root_replaced heap z Hi Hf (bh_size heap - 1) ltac:(lia)) as (nodes & Hok & Hinv & Hp).
    match goal with |- context [sift_down ?h 0] => change h with (Build_binaryheap A (bh_size heap - 1) (bh_space heap) (bh_has_heap_property heap) (<[0%nat := z]> (bh_nodes heap))) end. rewrite Hok. cbn [mbind result_bind].
    eexists. split_and!; [done|done|done|done|]. rewrite Hp, Hc. unfold contents. cbn.
    rewrite take_insert_lt by lia. rewrite (insert_permutation _ 0%nat m) by (apply lookup_take_Some; split; [done|lia]).
    apply Permutation_cons_append.
Qed.

(** The abstract queue: what an operation that succeeds with [heap'] does to the multiset of the contents. *)
Definition becomes (r : result (binaryheap A)) heap (ordered : bool) (P : list A -> Prop) : Prop :=
  exists heap', r = Ok heap' /\ heap_inv heap' /\ bh_has_heap_property heap' = ordered /\
    bh_space heap' = bh_space heap /\ P (contents heap').

(** C13: [binaryheap] is a bounded priority queue.  [binaryheap_allocate] gives an empty one, up to the capacity of the largest memory chunk, and raises the error of [palloc]
    for larger capacities whose size in bytes fits 32 bits; [binaryheap_reset] gives an empty one.  Adding to a full heap raises the error of the code; otherwise [binaryheap_add_unordered] appends the
    element and clears the flag, [binaryheap_build] permutes any contents into a heap, and on a heap
    [binaryheap_add] adds one element.  On a non-empty heap [binaryheap_first] is a maximum of the contents,
    [binaryheap_remove_first] returns that maximum and removes exactly it, [binaryheap_replace_first]
    exchanges it for the new element; every operation terminates, stays in the array and keeps the invariant. *)
Theorem binaryheap_queue heap d : heap_inv heap ->
  (forall capacity (fresh : Z -> A), 0 <= capacity <= capacity_max -> exists empty, binaryheap_allocate capacity fresh = Ok empty /\ heap_inv empty /\
     bh_space empty = capacity /\ bh_has_heap_property empty = true /\ contents empty = []) /\
  (forall capacity (fresh : Z -> A), capacity_max < capacity < 536870908 -> binaryheap_allocate capacity fresh = Error alloc_msg) /\
  (heap_inv (binaryheap_reset heap) /\ contents (binaryheap_reset heap) = []) /\
  (bh_size heap = bh_space heap -> binaryheap_add_unordered heap d = Error slots_msg /\ binaryheap_add heap d = Error slots_msg) /\
  (bh_size heap < bh_space heap -> becomes (binaryheap_add_unordered heap d) heap false (fun l => l = contents heap ++ [d])) /\
  becomes (binaryheap_build heap) heap true (fun l => l ≡ₚ contents heap) /\
  (bh_has_heap_property heap = true ->
     (bh_size heap < bh_space heap -> becomes (binaryheap_add heap d) heap true (fun l => l ≡ₚ d :: contents heap)) /\
     (contents heap <> [] -> exists m, binaryheap_first heap = Ok m /\ m ∈ contents heap /\
        (forall x, x ∈ contents heap -> bh_compare x m <= 0) /\
        (exists heap', binaryheap_remove_first heap = Ok (m, heap') /\
           becomes (Ok heap') heap true (fun l => m :: l ≡ₚ contents heap)) /\
        becomes (binaryheap_replace_first heap d) heap true (fun l => m :: l ≡ₚ d :: contents heap))).
Proof.
  intros Hi. pose proof Hi as [Hs Hl _]. split_and!.
  - apply allocate_ok.
  - apply allocate_fails.
  - split; cbn; [lia|done|]. intros _ i x y Hin. cbn in Hin. lia.
  - done.
  - intros E. unfold binaryheap_add_unordered, binaryheap_add. rewrite E, Z.leb_refl. done.
  - intros Hlt. by apply add_unordered_ok.
  - by apply build_ok.
  - intros Hf. split; [intros Hlt; by apply add_ok|]. intros Hne.
    assert (0 < bh_size heap) as Hpos.
    { destruct (Z.ltb_spec 0 (bh_size heap)); [done|]. destruct Hne. unfold contents. by replace (bh_size heap) with 0 by lia. }
    destruct (first_ok heap Hi Hf Hpos) as (m & Hm & Hfirst & Hin & Hmax). exists m. split_and!; [done|done|done| |].
    + destruct (remove_first_ok heap m Hi Hf Hpos Hm) as (heap' & Hok & Hrest). exists heap'. split; [done|]. by exists heap'.
    + by apply replace_first_ok.
Qed.
End Order.

Module Demo.
#[local] Instance int_comparator : Comparator Z.
Proof. refine {| bh_compare x y := x - y |}; intros; lia. Defined.

Definition sample : binaryheap Z :=
  {| bh_size := 3; bh_space := 4; bh_has_heap_property := true; bh_nodes := [9; 4; 7; 0] |}.
Lemma sample_inv : heap_inv sample.
Proof.
  split; cbn; [lia|done|]. intros _ i x y Hi Hx Hy. cbn in Hi.
  destruct i as [|[|[|]]]; [lia| | |lia]; cbn in Hx, Hy; simplify_eq; unfold le; cbn; lia.
Qed.
(** The size in bytes of a larger heap is cut to 32 bits: this one has room for [2 ^ 29] entries by its own account, and memory for none. *)
Example allocate_wraps : binaryheap_allocate (2 ^ 29) (fun _ => 0) = Ok {| bh_size := 0; bh_space := 2 ^ 29; bh_has_heap_property := true; bh_nodes := [] |}.
Proof. vm_compute. reflexivity. Qed.
Lemma binaryheap_queue_witness : exists m heap',
  binaryheap_first sample = Ok m /\ binaryheap_remove_first sample = Ok (m, heap') /\ m :: contents heap' ≡ₚ contents sample /\
  becomes (binaryheap_add sample 12) sample true (fun l => l ≡ₚ 12 :: contents sample).
Proof.
  destruct (binaryheap_queue sample 12 sample_inv) as (_ & _ & _ & _ & _ & _ & H).
  destruct (H eq_refl) as (Hadd & Hfirst). destruct (Hfirst ltac:(discriminate)) as (m & Hm & _ & _ & (heap' & Hok & Hb) & _).
  exists m, heap'. split; [exact Hm|]. split; [exact Hok|]. split; [|apply Hadd; reflexivity].
  destruct Hb as (heap2 & E & _ & _ & _ & Hp). injection E as <-. exact Hp.
Defined.
End Demo.
